(* ===== verification/_CoqProject ===== *)
-Q . S2P
Prelude.v
ConversationScope.v
ExecutionGraph.v
GraphStateMachine.v
GraphProgress.v
SpendAccumulator.v
PerRootBudget.v
TimedBuckets.v
RateLimiters.v
AutonomyGuards.v
BoundedAutonomy.v
BudgetGuard.v
CircuitBreaker.v
SummarizerBreaker.v
ProviderHealth.v
TtlCache.v
CanonicalJson.v
ApprovalPolicy.v
ApprovalGate.v
ApprovalGateSafety.v
ManagedGrant.v
TaskTypes.v
TaskTransitions.v
TaskAdmission.v
TaskQuarantine.v
TaskStore.v
TaskStoreTypes.v
TaskStoreInvariants.v
TaskStoreSoundness.v
TaskStoreSteps.v
TaskStoreShapes.v
TaskStoreSafety.v
TaskStoreTheorems.v
TaskQuarantineSafety.v
SessionKeys.v
SourceTerminal.v
QueueEntries.v
CommandQueue.v
CommandQueueDemo.v
QueueCore.v
CommandQueueRefines.v
CommandQueueInvariants.v
CommandQueueTheorems.v
CommandQueueAccounting.v
CommandQueueOwnership.v
CommandQueueDelivery.v
CommandQueueOrder.v
OutwardLedger.v
OutwardLedgerFacts.v
OutwardLedgerWf.v
OutwardSend.v
OutwardWorld.v
OutwardSafety.v
OutwardClients.v
OutwardRecovery.v
OutwardTheorems.v
DurableRuns.v
DurableRunsFacts.v
DurableRunsHistory.v
DurableRunsBudget.v
DurableRunsTheorems.v
ResumeEngine.v
ResumeWorld.v
ResumeSafety.v
ResumeProgress.v
ResumeAlone.v
ResumeTheorems.v
LeaseTables.v
LeaseManager.v
LeaseManagerFacts.v
LeaseHistory.v
LeaseTheorems.v
LeasePrincipal.v
LeaseEndpoint.v
LeaseEndpointFacts.v
LeaseEndpointTheorems.v
RootRuns.v
LeaseControl.v
ToolCeilings.v
ToolCeilingsTheorems.v
