(* ===== verification/Prelude.v ===== *)
(** * A verification development for Comis

  Comis is a multi-tenant platform that runs autonomous agents in a daemon.  A
  message from a channel becomes a turn of an agent in a conversation; a turn
  may start sub-agents, execution graphs and tool calls; money, tokens, time,
  rates and outward messages are metered per tree of work; dangerous tool calls
  wait for a human.  This library models the parts of the TypeScript sources
  under [packages/] that carry these decisions and proves what makes them
  correct.

  ** Parts, files and sources

  - [Prelude] (this file): results ([shared/src/result.ts]), insertion-ordered
    maps (JavaScript's [Map]), counting, strings, the hint databases [jsmap]
    and the tactic [map_cases].
  - [ConversationScope]: [core/src/domain/conversation-scope.ts].  The identity
    of a conversation and its canonical encoding.
  - [ExecutionGraph]: [core/src/domain/execution-graph.ts].  Validation and
    topological order of the graphs an agent submits.
  - [GraphStateMachine], [GraphProgress]:
    [daemon/src/graph/graph-state-machine.ts].  The run of a validated graph:
    node lifecycle, barriers, failure cascade, cancellation, restart.
  - [SpendAccumulator]: [agent/src/budget/spend-accumulator.ts], the spend gate
    of [agent/src/budget/budget-guard.ts] and the pricing state of
    [core/src/model/model-catalog.ts].  The daemon-wide money meter.
  - [PerRootBudget]: [daemon/src/autonomy/per-root-budget.ts].  Dollars, tokens
    and wall-clock time of one tree of agents; reserves dollars through the
    accumulator.
  - [TimedBuckets], [RateLimiters]: [daemon/src/autonomy/call-rate-limiter.ts]
    and [core/src/security/injection-rate-limiter.ts].  Sliding windows with
    idle timers; the class [RateWindow] is what a window promises its client.
  - [AutonomyGuards]: [root-run-semaphore.ts], [outward-quota.ts],
    [denial-breaker.ts] and [evict-registry.ts] of [daemon/src/autonomy].
  - [BoundedAutonomy]: [daemon/src/autonomy/bounded-autonomy.ts], the
    chokepoint that composes the semaphore, the per-root budget, the rate
    limiters and the quota and decides when a root is forgotten.  Its theorem
    on calls is proved against [RateWindow], the one on budgets by projecting
    its runs on runs of [PerRootBudget].
  - [BudgetGuard]: the rolling token windows of
    [agent/src/budget/budget-guard.ts].
  - [CircuitBreaker]: [agent/src/safety/circuit-breaker.ts] and
    [agent/src/budget/turn-budget-tracker.ts].
  - [SummarizerBreaker]: [agent/src/safety/summarizer-spend-breaker.ts], a
    circuit breaker and rolling windows per tenant.
  - [ProviderHealth]: [agent/src/safety/provider-health-monitor.ts].
  - [TtlCache]: [shared/src/ttl-cache.ts], used by the approval gate.
  - [CanonicalJson]: [core/src/approval/approval-fingerprint.ts] and
    [JSON.stringify] of strings.  The identity of approval parameters.
  - [ApprovalPolicy]: [core/src/approval/approval-policy.ts].  The operator's
    rules.
  - [ApprovalGate], [ApprovalGateSafety]: [core/src/approval/approval-gate.ts].
    The gate where privileged tool calls wait: pending requests, callback
    index, timeouts, batching, caches, restart.  It calls the policy, the
    canonical form and two caches.
  - [ManagedGrant]: [core/src/approval/managed-approval-grant.ts].  One-shot
    authority to run an approved managed operation.
  - The follow-up task store of [scheduler/src/tasks]: what an agent promised to
    come back to, when it is checked again and whether it was sent.
    [TaskTypes] ([task-types.ts] and the schemas of [core/src/domain] it uses)
    has the records and the strict parser, [TaskTransitions]
    ([task-store-transitions.ts], [task-selector.ts]) the claims and the ways an
    attempt ends, [TaskAdmission] ([task-admission.ts], [task-extractor.ts]) the
    admission of extracted candidates, [TaskQuarantine] ([task-quarantine.ts])
    the removal of damaged records, [TaskStore] ([task-store.ts] and
    [scheduler/src/persistence/durable-file.ts]) the durable operations.
    [TaskStoreTypes], [TaskStoreInvariants], [TaskStoreSoundness],
    [TaskStoreSteps], [TaskStoreShapes] and [TaskStoreSafety] hold the proofs
    (the parser's image, preservation, runs as steps of the root, the shapes of
    steps, reachable stores), [TaskStoreTheorems] and [TaskQuarantineSafety] the
    theorems with their sample runs.
  - [SessionKeys]: [core/src/domain/session-key.ts].  The text form of a session
    key, on which queues and lanes are keyed.
  - [SourceTerminal]: [orchestrator/src/source-message-terminal.ts].  The shared
    cells through which each inbound message gets one terminal event.
  - The command queue of [orchestrator/src/queue], which serializes the turns of
    a session.  [QueueEntries] ([lane.ts], [coalescer.ts], [overflow.ts],
    [queue-entry-lifecycle.ts]) has the entries and what merges or drops them,
    [CommandQueue] ([command-queue.ts]) lanes, gate, modes, timers and shutdown.
    [QueueCore] is an abstract scheduling machine with its invariant,
    [CommandQueueRefines] shows that the queue refines it,
    [CommandQueueInvariants] what else holds in reachable states,
    [CommandQueueDemo] a sample installation.  [CommandQueueTheorems]
    (exclusion, progress), [CommandQueueAccounting] (depth),
    [CommandQueueOwnership] and [CommandQueueDelivery] (no message is lost) and
    [CommandQueueOrder] (order) have the theorems.
  - The outward-send ledger, which makes an irreversible platform send happen at
    most once.  [OutwardLedger] ([memory/src/outward-send-ledger-store.ts] and its
    tables) has the rows and the methods, [OutwardLedgerFacts] and
    [OutwardLedgerWf] their invariant, [OutwardSend] the senders
    ([daemon/src/api/outward-ledger-wrap.ts], the announcement sender, background
    completions), [OutwardWorld] the interleavings of senders with failing calls
    and crashes, [OutwardSafety] the invariant of that world, [OutwardClients] each
    sender verified on its own, [OutwardRecovery] the boot pass,
    [OutwardTheorems] the theorems.
  - Durable runs.  [DurableRuns] ([core/src/domain/durable-run.ts],
    [memory/src/durable-run-store.ts]) is the store of checkpoints, with
    [DurableRunsFacts], [DurableRunsHistory] (any sequence of calls by any
    processes), [DurableRunsBudget] and [DurableRunsTheorems].  [ResumeEngine]
    ([daemon/src/autonomy/durable-resume-engine.ts], [durable-watchdog.ts]) is the
    pass that resumes or orphans checkpoints after a crash, over the store and the
    outward ledger; [ResumeWorld] runs passes together, [ResumeSafety],
    [ResumeProgress] and [ResumeAlone] hold the proofs, [ResumeTheorems] the
    theorems.
  - Leased authority, with which jailed scripts call the daemon.  [LeaseTables] has
    the capabilities, the scopes of all API methods and the tables that classify
    methods and tools ([core/src/security], [core/src/api-contracts]),
    [LeaseManager] ([infra/src/credential-broker/lease-manager.ts]) the bearer
    tokens (its module [LeaseTokens]), mint, validation, renewal and cascading
    revocation, [LeaseManagerFacts] and [LeaseHistory] their lemmas and
    [LeaseTheorems] their theorems.  [LeasePrincipal]
    ([daemon/src/wiring/setup-capability-session-spawn.ts],
    [orchestrator/src/routing/routing-policy-resolver.ts]) rebuilds the principal
    of a call; its module [LeaseTurns] says which turns can use their lease.
    [LeaseEndpoint] ([daemon/src/wiring/setup-capability-endpoint.ts],
    [daemon/src/api/rpc-dispatch.ts]) is the endpoint, over the lease manager, the
    bounded-autonomy service and the outward ledger, and the dispatch sink behind
    it; [LeaseEndpointFacts] and [LeaseEndpointTheorems] (with a sample
    installation) go with it.  [RootRuns] ([daemon/src/wiring/setup-capability-endpoint-boot.ts])
    is the registry of the roots of sessions, with its theorems;
    [LeaseControl] ([daemon/src/api/autonomy-handlers.ts],
    [daemon/src/api/shared/spawn-tree-control.ts]) the operator's commands that
    stop or demote a tree in all of these at once.
  - [ToolCeilings], [ToolCeilingsTheorems]:
    [core/src/domain/sub-agent-tool-denylist.ts] and the required-tools gate of a
    sub-agent spawn, with the message that suggests what to pass instead.

  ** How the code is modelled

  A closure with mutable variables is a record (or a map) and each method of it
  a function from the state before to the answer and the state after, with the
  method's guards and early returns in the order of the source.  A component
  whose calls interleave has a type [Op] of calls and a [run] over lists of
  them; theorems about a component hold for every such list, which is every
  interleaving, since the code between two suspension points runs to its end.
  Errors are values of [Result] or of an [option].  The task store is a record
  of the files on disk; every call takes an [Io] that says which of its calls to
  the lock, the clock and the file system succeed, and its theorems quantify
  over all of them.  The command queue shares objects by reference: lanes, tasks,
  queues, ownership records and terminal cells live in heaps and are named by
  index.  What the event loop does on its own (a queue starts a task, a handler
  ends, a timer fires) is an operation like the calls of clients, and an
  execution is any sequence of enabled ones.  The p-queue package is the class
  [PQueue] with its documented behaviour as [PQueueLaws]; [Fifo] is an instance.

  An async function over a store is a program: a tree of the calls it awaits and
  what it does with each answer.  A world runs any number of programs interleaved
  at their awaits, with failing calls and crashes; each program is verified alone
  with a weakest precondition against what it has learned ([wp]), and the theorems
  about all together use only that.  [Programs] is the class through which the
  senders enter the world of the outward ledger.

  Clock readings, random identifiers and the model catalog are arguments.
  Timers are a set of pending timers that the environment may fire when due.
  SHA-256 and HMAC are parameters; theorems that need the digest not to collide
  say so of the two texts concerned.  So are collation, the redaction of error
  texts, the RPC handlers behind the dispatch sink and the configured modes of
  agents; base64url is defined.  A lookup in an object literal keeps own members
  and those of the prototype apart where the code does not.  Log lines and event emission are not
  modelled.  Money, times and counts are integers: the rounding of
  JavaScript's doubles is not modelled.  Strings are sequences of 8-bit units.

  Loops that are not structural take fuel, and running out is a value of its
  own: [topologicalSort_total] shows that the sort and the cycle trace always
  return within the fuel [topologicalSort] gives them, and [operations_refine]
  that the failure cascade does within the fuel [markNodeFailed] gives it, and
  [quarantine_search_ends] that the search for a damaged group does within one
  round per record and two more, and [root_revocation_exact] that the cascade of a
  revocation does within the ids the adjacency knows and two more.  No theorem is
  conditional on fuel.

  ** What the theorems show

  - Graphs: validation accepts exactly the acyclic graphs and returns a
    dependency order; every machine operation refines a small per-node machine;
    barriers hold in all reachable states; under fail-fast a failure skips
    exactly what depends on it and the graph never stalls; a run is bounded;
    restart restores what was persisted.  Under the continue policy a graph can
    stall ([continue_can_stall]).
  - Money and budgets: the accumulator refines a ledger of postings; ceilings
    bound what concurrent turns spend; a tree of agents stays within its caps
    across waves, restarts and idle periods; the gate never fails open; rolling
    token windows refuse what would pass a cap.
  - Rates: both limiters are true sliding windows, without leaking timers or
    keys; the spawn semaphore counts live children; the denial breaker trips
    once; the outward quota is bounded, as a fixed window
    and not as a rolling one ([outward_quota_bound]).
  - Breakers: the circuit breaker blocks exactly after the failures that open
    it; a tenant's summarizer calls depend on that tenant alone; provider health
    is a function of the failures recorded; an execution with a token target is
    continued at most three times.
  - Approvals: every caller is answered once; cached approvals trace back to an
    operator's approval of the same action; callbacks cannot be replayed;
    pending requests survive a restart; keys and canonical parameters are
    exact identities; rules fail closed; a grant is consumed once.
  - Follow-up tasks: whatever fails, the file on disk is one the strict parser
    accepts; a task is sent at most once, across crashes and recovery; no
    conversation gets more than its cap in any 24 hours; tasks follow their life
    cycle; a send is announced only after it is durable; recovery settles what a
    dead process left; operations keep the store well formed, but for two
    situations in which the store refuses its own change
    ([retention_can_wedge], [disabled_closed_window_stuck]).  The quarantine
    sets aside exactly the damaged records and what is tied to them, loses
    nothing and can be repeated after a crash.
  - Messages and the queue: the cells of an inbound message publish one terminal
    event, whatever merges and observers do; session keys parse back to what was
    formatted.  At most one turn of a session runs at a time and at most the
    configured number in all; no accepted message is lost, from admission through
    coalescing, overflow, steering and failures to shutdown; without new messages
    the queue runs dry; depths are exact; a lane that was never steered serves
    in order, a steered one may not ([steer_can_reorder]).
  - Outward sends: whatever interleaves, fails or crashes, the platform is called
    at most once per operation; a receipt means the platform accepted; an
    operator's decision stays true; the boot pass parks what a crash left in
    flight, unless one bad row stops it ([bad_row_blocks_recovery]).
  - Durable runs: a checkpoint is claimed at most once and its run resumed at most
    once, after a claim, a cleared ledger and a lease within the stored authority;
    revocation of a root is final; authority never widens; a pass in a healthy
    store settles its backlog, a run without progress is given up; one damaged row
    stops a pass ([bad_row_stops_pass]), one early heartbeat blocks a tree
    ([early_heartbeat_blocks_tree]).
  - Leased authority: revocation is final and reaches exactly the tree it names;
    who is authenticated presents the token of a mint, within its ceiling and
    audience; an issued bearer works until its expiry; what passes the endpoint is
    authorized by the tables, and no internal field can be forged from the wire; a
    loop of denials is cut; a kill withdraws leases, checkpoints and roots
    together; a turn keeps its root, with an exception ([older_turn_escapes]); turns
    in shared conversations cannot use their leases ([leased_turn_usable_iff]).
  - Tool ceilings: the suggested group reaches what it is suggested for and is the
    narrowest; obeying it succeeds when all required tools were out of reach, not
    in general ([suggestion_ping_pong]).

  ** Not modelled

  Channel adapters, gateway, command line, web interface, storage engines,
  prompt assembly and the model loop are input and output or depend on outside
  services; configuration schemas are data declarations, and of the API contracts
  only methods and scopes are modelled.  The socket server of the capability
  endpoint, its audit events and its replay recording are left out, and so are the
  handlers behind the sink.  Of the task store, the scanner of task texts ([validateMemoryWrite]), the locale
  data and the collation of the platform are parameters; the timers and queues
  that call it and the offline maintenance of its authority are left out.

  ** Plan

  What would come next: the tool-retry breaker of [agent/src/safety], whose
  decisions rest on the classification of error texts; the extraction queue and due
  schedule of [scheduler/src/tasks] and the cron schedule of [scheduler/src/cron];
  the rest of spawn admission in [agent/src/spawn]; the graph coordinator of
  [daemon/src/graph] with the checkpoint artifacts of graphs; the restart round
  trip of cached approvals. *)

From Stdlib Require Import Ascii.
From stdpp Require Export base list strings gmap sorting pretty.
From Stdlib Require Export ZArith Lia.

#[global] Set Default Goal Selector "!".

(** ** Results

  The packages return [Result<T, E>] values ([packages/shared/src/result.ts]):
  a success carries a value, a failure carries an error, and nothing is
  thrown. *)

Inductive Result (A E : Type) : Type :=
| Ok (value : A)
| Err (error : E).
Arguments Ok {A E} _.
Arguments Err {A E} _.

Lemma Ok_inj {A E} (a b : A) : Ok (E := E) a = Ok b -> a = b.
Proof. by intros [=]. Qed.

(** Go on with the value of a success, pass a failure through. *)
Declare Scope comis_scope.
Delimit Scope comis_scope with comis.
Notation "'let?' x := r 'in' k" := (match r with Ok x => k | Err e => Err e end)
  (at level 10, x name, r at level 100, k at level 200) : comis_scope.
Open Scope comis_scope.

Definition is_ok {A E} (r : Result A E) : bool :=
  match r with Ok _ => true | Err _ => false end.

(** ** Insertion-ordered maps

  A JavaScript [Map] iterates over its entries in the order in which their
  keys were first inserted; [set] on a present key keeps its place and
  [delete] forgets it.  Several components observe that order, so their maps
  are association lists with exactly these operations. *)

Abbreviation jsmap K V := (list (K * V)).

Section JsMap.
Context {K V : Type} `{EqDecision K}.
Implicit Types (m : jsmap K V) (k : K) (v : V).

Fixpoint mget m k : option V :=
  match m with
  | [] => None
  | (k', v) :: m' => if decide (k = k') then Some v else mget m' k
  end.

Definition mhas m k : bool := match mget m k with Some _ => true | None => false end.

Fixpoint mset m k v : jsmap K V :=
  match m with
  | [] => [(k, v)]
  | (k', v') :: m' => if decide (k = k') then (k', v) :: m' else (k', v') :: mset m' k v
  end.

Fixpoint mdel m k : jsmap K V :=
  match m with
  | [] => []
  | (k', v') :: m' => if decide (k = k') then mdel m' k else (k', v') :: mdel m' k
  end.

Definition mkeys m : list K := m.*1.

Lemma mget_mset_eq m k v : mget (mset m k v) k = Some v.
Proof.
  induction m as [|[k' v'] m IH]; simpl; [by rewrite decide_True|].
  destruct (decide (k = k')) as [->|]; simpl; [by rewrite decide_True|].
  by rewrite decide_False.
Qed.

Lemma mget_mset_ne m k k' v : k' ≠ k → mget (mset m k v) k' = mget m k'.
Proof.
  intros Hne. induction m as [|[j w] m IH]; simpl; [by rewrite decide_False|].
  destruct (decide (k = j)) as [->|]; simpl; [by rewrite !decide_False|].
  by destruct (decide (k' = j)).
Qed.

Lemma mget_mset m k k' v :
  mget (mset m k v) k' = if decide (k' = k) then Some v else mget m k'.
Proof.
  destruct (decide (k' = k)) as [->|]; [apply mget_mset_eq|by apply mget_mset_ne].
Qed.

Lemma mget_mdel m k k' :
  mget (mdel m k) k' = if decide (k' = k) then None else mget m k'.
Proof.
  induction m as [|[j w] m IH]; simpl; [by case_decide|].
  destruct (decide (k = j)) as [->|]; simpl; rewrite IH; repeat case_decide; by simplify_eq.
Qed.

Lemma mget_mdel_eq m k : mget (mdel m k) k = None.
Proof. by rewrite mget_mdel, decide_True. Qed.

Lemma mget_mdel_ne m k k' : k' ≠ k → mget (mdel m k) k' = mget m k'.
Proof. intros. by rewrite mget_mdel, decide_False. Qed.

Lemma mget_elem_of m k v : mget m k = Some v → (k, v) ∈ m.
Proof.
  induction m as [|[j w] m IH]; simpl; [done|].
  case_decide; intros; simplify_eq; [left|right; auto].
Qed.

Lemma mget_is_Some m k : is_Some (mget m k) ↔ k ∈ mkeys m.
Proof.
  induction m as [|[j w] m IH]; simpl.
  - split; [by intros []|by intros ?%elem_of_nil].
  - rewrite elem_of_cons. case_decide; simplify_eq; [naive_solver|]. naive_solver.
Qed.

Lemma mget_None m k : mget m k = None ↔ k ∉ mkeys m.
Proof. rewrite <- mget_is_Some, eq_None_not_Some. done. Qed.

Lemma elem_of_mget m k v : NoDup (mkeys m) → (k, v) ∈ m → mget m k = Some v.
Proof.
  induction m as [|[j w] m IH]; simpl; [by intros _ ?%elem_of_nil|].
  intros [Hj Hnd]%NoDup_cons [?|Hin]%elem_of_cons; simplify_eq.
  - by rewrite decide_True.
  - rewrite decide_False; [by apply IH|].
    intros ->. apply Hj. apply list_elem_of_fmap. by exists (j, v).
Qed.

Lemma mkeys_mset_in m k v : k ∈ mkeys m → mkeys (mset m k v) = mkeys m.
Proof.
  induction m as [|[j w] m IH]; simpl; [by intros ?%elem_of_nil|].
  intros Hin. case_decide; simpl; [by subst|].
  f_equal. apply IH. by apply elem_of_cons in Hin as [|].
Qed.

Lemma mkeys_mset_notin m k v : k ∉ mkeys m → mkeys (mset m k v) = mkeys m ++ [k].
Proof.
  induction m as [|[j w] m IH]; simpl; [done|].
  intros [? ?]%not_elem_of_cons. rewrite decide_False by done. simpl. f_equal. auto.
Qed.

Lemma mkeys_mset m k v :
  mkeys (mset m k v) = if decide (k ∈ mkeys m) then mkeys m else mkeys m ++ [k].
Proof. case_decide; [by apply mkeys_mset_in|by apply mkeys_mset_notin]. Qed.

Lemma elem_of_mkeys_mset m k k' v : k' ∈ mkeys (mset m k v) ↔ k' = k ∨ k' ∈ mkeys m.
Proof. rewrite mkeys_mset. case_decide; set_solver. Qed.

Lemma NoDup_mkeys_mset m k v : NoDup (mkeys m) → NoDup (mkeys (mset m k v)).
Proof.
  rewrite mkeys_mset. case_decide as Hk; [done|].
  intros. apply NoDup_app. repeat split; [done|set_solver|apply NoDup_singleton].
Qed.

Lemma elem_of_mkeys_mdel m k k' : k' ∈ mkeys (mdel m k) ↔ k' ≠ k ∧ k' ∈ mkeys m.
Proof.
  rewrite <- !mget_is_Some, mget_mdel. case_decide; [|naive_solver].
  split; [by intros []|naive_solver].
Qed.

Lemma NoDup_mkeys_mdel m k : NoDup (mkeys m) → NoDup (mkeys (mdel m k)).
Proof.
  induction m as [|[j w] m IH]; simpl; [done|].
  intros [Hj Hnd]%NoDup_cons. case_decide; simpl; [by apply IH|].
  apply NoDup_cons; split; [|by apply IH].
  intros [_ ?]%elem_of_mkeys_mdel. done.
Qed.

Lemma length_mset_in m k v : k ∈ mkeys m → length (mset m k v) = length m.
Proof.
  intros Hk. rewrite <- !(length_fmap fst). fold (mkeys (mset m k v)). by rewrite mkeys_mset_in.
Qed.

Lemma length_mset_notin m k v : k ∉ mkeys m → length (mset m k v) = S (length m).
Proof.
  intros Hk. rewrite <- !(length_fmap fst). fold (mkeys (mset m k v)).
  rewrite mkeys_mset_notin by done. rewrite length_app. simpl. unfold mkeys. lia.
Qed.

Lemma length_mdel m k : length (mdel m k) ≤ length m.
Proof. induction m as [|[j w] m IH]; simpl; [done|]. case_decide; simpl; lia. Qed.

Lemma length_mdel_in m k : NoDup (mkeys m) → k ∈ mkeys m → S (length (mdel m k)) = length m.
Proof.
  induction m as [|[j w] m IH]; simpl; [by intros _ ?%elem_of_nil|].
  intros [Hj Hnd]%NoDup_cons Hin. case_decide as E.
  - subst. f_equal. clear IH Hin Hnd. induction m as [|[i u] m IH]; simpl; [done|].
    apply not_elem_of_cons in Hj as [? ?]. rewrite decide_False by done. simpl. f_equal. by apply IH.
  - simpl. f_equal. apply IH; [done|]. by apply elem_of_cons in Hin as [|].
Qed.

Lemma mset_id m k v : mget m k = Some v → mset m k v = m.
Proof.
  induction m as [|[j w] m IH]; simpl; [done|]. case_decide; intros; simplify_eq; [done|].
  f_equal. auto.
Qed.

Lemma mdel_notin m k : k ∉ mkeys m → mdel m k = m.
Proof.
  induction m as [|[j w] m IH]; simpl; [done|]. intros [? ?]%not_elem_of_cons.
  rewrite decide_False by done. f_equal. auto.
Qed.

Lemma mset_perm m k v : NoDup (mkeys m) → mset m k v ≡ₚ (k, v) :: mdel m k.
Proof.
  induction m as [|[j w] m IH]; simpl; [done|]. intros [Hj Hnd]%NoDup_cons.
  case_decide; subst; [by rewrite mdel_notin|]. rewrite IH by done. apply Permutation_swap.
Qed.

Lemma mdel_perm m k v : NoDup (mkeys m) → mget m k = Some v → m ≡ₚ (k, v) :: mdel m k.
Proof. intros Hnd Hk. rewrite <- mset_perm by done. by rewrite mset_id. Qed.

Lemma mset_app_r m1 m2 k v : k ∉ mkeys m1 → mset (m1 ++ m2) k v = m1 ++ mset m2 k v.
Proof.
  induction m1 as [|[j w] m1 IH]; simpl; [done|].
  intros [? ?]%not_elem_of_cons. rewrite decide_False by done. f_equal. auto.
Qed.

Lemma mset_notin m k v : k ∉ mkeys m → mset m k v = m ++ [(k, v)].
Proof. intros Hk. rewrite <- (app_nil_r m) at 1. by rewrite mset_app_r. Qed.

Lemma NoDup_mkeys_filter (P : K * V → Prop) `{!∀ x, Decision (P x)} m :
  NoDup (mkeys m) → NoDup (mkeys (filter P m)).
Proof. intros Hnd. eapply sublist_NoDup; [exact Hnd|]. apply fmap_sublist, sublist_filter. Qed.

Lemma mget_filter (P : K * V → Prop) `{!∀ x, Decision (P x)} m k v :
  NoDup (mkeys m) → mget (filter P m) k = Some v ↔ mget m k = Some v ∧ P (k, v).
Proof.
  intros Hnd. split.
  - intros [HP Hin]%mget_elem_of%list_elem_of_filter. split; [by apply elem_of_mget|done].
  - intros [Hm%mget_elem_of HP]. apply elem_of_mget; [by apply NoDup_mkeys_filter|].
    by apply list_elem_of_filter.
Qed.

Lemma elem_of_mdel_inv m k p : p ∈ mdel m k → p ∈ m ∧ p.1 ≠ k.
Proof.
  induction m as [|[k' v] m IH]; simpl; [by intros ?%elem_of_nil|].
  case_decide as E; [subst; intros [? ?]%IH; split; [by right|done]|].
  intros [->|Hp]%elem_of_cons; [split; [left|by simpl]|]. apply IH in Hp as [? ?]. split; [by right|done].
Qed.

Lemma elem_of_mset_inv m k v p : p ∈ mset m k v → p = (k, v) ∨ p ∈ m.
Proof.
  induction m as [|[k' v'] m IH]; simpl; [by intros ->%list_elem_of_singleton; left|].
  case_decide as E; [subst; intros [->|?]%elem_of_cons; [by left|right; by right]|].
  intros [->|[->|?]%IH]%elem_of_cons; [right; left|by left|right; by right].
Qed.

Lemma mget_app m1 m2 k :
  mget (m1 ++ m2) k = match mget m1 k with Some v => Some v | None => mget m2 k end.
Proof. induction m1 as [|[j w] m1 IH]; simpl; [done|]. by case_decide. Qed.

Lemma jsmap_eq m m' :
  NoDup (mkeys m) → mkeys m = mkeys m' → (∀ k, mget m k = mget m' k) → m = m'.
Proof.
  revert m'. induction m as [|[k v] m IH]; intros [|[k' v'] m'] Hnd Hk Hget; [done|done|done|].
  injection Hk as <- Hk. apply NoDup_cons in Hnd as [Hk' Hnd].
  pose proof (Hget k) as E. simpl in E. rewrite !decide_True in E by done.
  injection E as <-. f_equal. apply IH; [done|done|].
  intros j. destruct (decide (j = k)) as [->|Hj].
  - rewrite (proj2 (mget_None m k) Hk'). symmetry. apply mget_None.
    unfold mkeys in *. simpl in *. by rewrite <- Hk.
  - specialize (Hget j). simpl in Hget. by rewrite !decide_False in Hget by done.
Qed.

(** Sums over the values of a map. *)
Definition msum (w : V → nat) m : nat := sum_list ((fun p => w p.2) <$> m).

Lemma msum_mset (w : V → nat) m k v v' :
  mget m k = Some v → msum w (mset m k v') + w v = msum w m + w v'.
Proof.
  unfold msum. induction m as [|[j u] m IH]; simpl; [done|].
  case_decide; intros E; simplify_eq/=; [lia|]. specialize (IH E). lia.
Qed.
End JsMap.

(** Keys stay distinct under every operation, and reading after a write is a
    comparison of keys: [map_cases] does that comparison everywhere. *)
Create HintDb jsmap.
Create Rewrite HintDb jsmap.
#[export] Hint Resolve NoDup_mkeys_mset NoDup_mkeys_mdel NoDup_mkeys_filter : jsmap.
#[export] Hint Rewrite @mget_mset @mget_mdel : jsmap.

Ltac map_cases := autorewrite with jsmap in *; repeat case_decide; simplify_eq/=.

(** ** Lists *)

Lemma filter_fmap {A B} (P : B → Prop) `{!∀ x, Decision (P x)} (f : A → B) (l : list A) :
  filter P (f <$> l) = f <$> filter (λ x, P (f x)) l.
Proof.
  induction l as [|x l IH]; [done|]. rewrite fmap_cons, !filter_cons, IH. by case_decide.
Qed.

(** ** Counting occurrences *)

Section Count.
Context {A : Type} `{EqDecision A}.
Implicit Types (x : A) (l : list A).

Definition cnt x l : nat := length (filter (fun y => y = x) l).

Lemma cnt_nil x : cnt x [] = 0.
Proof. done. Qed.

Lemma cnt_cons x y l : cnt x (y :: l) = (if decide (y = x) then 1 else 0) + cnt x l.
Proof. unfold cnt. rewrite filter_cons. by case_decide. Qed.

Lemma cnt_app x l k : cnt x (l ++ k) = cnt x l + cnt x k.
Proof. unfold cnt. by rewrite filter_app, length_app. Qed.

Lemma cnt_pos x l : 0 < cnt x l ↔ x ∈ l.
Proof.
  induction l as [|y l IH]; [rewrite cnt_nil; split; [lia|by intros ?%elem_of_nil]|].
  rewrite cnt_cons, elem_of_cons, <- IH. case_decide; subst; intuition (congruence || lia).
Qed.

(** Removing [x] from a membership filter takes away its occurrences. *)
Lemma length_filter_notin_snoc x (s l : list A) :
  x ∉ s →
  length (filter (fun d => d ∉ s) l) = length (filter (fun d => d ∉ s ++ [x]) l) + cnt x l.
Proof.
  intros Hx. induction l as [|y l IH]; [done|].
  rewrite !filter_cons, cnt_cons. repeat case_decide; simpl; try lia; exfalso; set_solver.
Qed.

Lemma length_filter_full (P : A → Prop) `{!∀ x, Decision (P x)} l :
  length (filter P l) = length l ↔ ∀ x, x ∈ l → P x.
Proof.
  induction l as [|y l IH]; [split; [by intros _ ? ?%elem_of_nil|done]|].
  rewrite filter_cons. case_decide as Hy; simpl.
  - rewrite Nat.succ_inj_wd, IH. set_solver.
  - split.
    + intros E. pose proof (length_filter P l). lia.
    + intros HP. destruct Hy. apply HP. left.
Qed.

Lemma filter_ext_in (P Q : A → Prop) `{!∀ x, Decision (P x), !∀ x, Decision (Q x)} l :
  (∀ x, x ∈ l → P x ↔ Q x) → filter P l = filter Q l.
Proof.
  induction l as [|y l IH]; intros HPQ; [done|]. rewrite !filter_cons.
  assert (P y ↔ Q y) as Hy by (apply HPQ; left).
  rewrite IH by (intros x Hx; apply HPQ; by right).
  repeat case_decide; naive_solver.
Qed.

Lemma length_filter_impl (P Q : A → Prop) `{!∀ x, Decision (P x), !∀ x, Decision (Q x)} l :
  (∀ x, P x → Q x) → length (filter P l) ≤ length (filter Q l).
Proof.
  intros HPQ. induction l as [|y l IH]; [done|]. rewrite !filter_cons.
  repeat case_decide; simpl; try lia. naive_solver.
Qed.

Lemma list_filter_all (P : A → Prop) `{!∀ x, Decision (P x)} l :
  (∀ x, x ∈ l → P x) → filter P l = l.
Proof.
  induction l as [|y l IH]; [done|]. intros HP. rewrite filter_cons_True by (apply HP; left).
  f_equal. apply IH. intros x Hx. apply HP. by right.
Qed.
End Count.

(** ** Strings

  JavaScript strings are sequences of bytes here; [toLowerCase] maps the
  ASCII capitals. *)

Definition lowerAscii (a : Ascii.ascii) : Ascii.ascii :=
  let n := Ascii.nat_of_ascii a in
  if ((65 <=? n) && (n <=? 90))%nat then Ascii.ascii_of_nat (n + 32) else a.

Fixpoint toLowerCase (s : string) : string :=
  match s with
  | EmptyString => EmptyString
  | String a s' => String (lowerAscii a) (toLowerCase s')
  end.

Lemma app_cons c s t : String c s +:+ t = String c (s +:+ t).
Proof. done. Qed.

Lemma app_nil s : "" +:+ s = s.
Proof. done. Qed.

Lemma app_assoc_str s t u : (s +:+ t) +:+ u = s +:+ t +:+ u.
Proof. induction s as [|c s IH]; [done|]. rewrite !app_cons. by rewrite IH. Qed.

Lemma app_length_inj v w a b :
  String.length v = String.length w → v +:+ a = w +:+ b → v = w ∧ a = b.
Proof.
  revert w. induction v as [|c v IH]; intros [|d w]; simpl; rewrite ?app_cons, ?app_nil; try done.
  intros [= Hl] [= -> E]. by destruct (IH w Hl E) as [-> ->].
Qed.

(** All characters of a string are in a class; the first one, if any, is
    not. *)
Fixpoint str_all (P : Ascii.ascii → bool) (s : string) : Prop :=
  match s with
  | "" => True
  | String c s' => P c = true ∧ str_all P s'
  end.
Definition str_stop (P : Ascii.ascii → bool) (s : string) : Prop :=
  match s with "" => True | String c _ => P c = false end.

(** A run of a class ends where the class ends. *)
Lemma str_split (P : Ascii.ascii → bool) p q a b :
  str_all P p → str_all P q → str_stop P a → str_stop P b → p +:+ a = q +:+ b → p = q ∧ a = b.
Proof.
  revert q. induction p as [|c p IH]; intros [|d q] Hp Hq Ha Hb; rewrite ?app_cons, ?app_nil.
  - done.
  - intros ->. simpl in *. destruct Hq. congruence.
  - intros <-. simpl in *. destruct Hp. congruence.
  - intros [= -> E]. destruct Hp, Hq. by destruct (IH q) as [-> ->].
Qed.

(** Decimal numerals: digits, with a leading minus sign for integers. *)
Definition isNumeralChar (c : Ascii.ascii) : bool :=
  let n := Ascii.nat_of_ascii c in ((48 <=? n) && (n <=? 57) || (n =? 45))%nat.

Lemma pretty_N_go_numeral x s : str_all isNumeralChar s → str_all isNumeralChar (pretty_N_go x s).
Proof.
  revert s. induction (N.lt_wf_0 x) as [x _ IH]; intros s Hs.
  assert (x = 0 ∨ 0 < x)%N as [->|?] by lia; [by rewrite pretty_N_go_0|].
  rewrite pretty_N_go_step by done. apply IH; [by apply N.div_lt|].
  split; [|done]. unfold pretty_N_char. by repeat case_match.
Qed.

Lemma pretty_N_numeral (n : N) : str_all isNumeralChar (pretty n).
Proof. unfold pretty, pretty_N. case_decide; [done|]. by apply pretty_N_go_numeral. Qed.

Lemma pretty_nat_numeral (n : nat) : str_all isNumeralChar (pretty n).
Proof. apply pretty_N_numeral. Qed.

Lemma pretty_Z_numeral (z : Z) : str_all isNumeralChar (pretty z).
Proof. destruct z; simpl; [done|apply pretty_N_numeral|]. split; [done|apply pretty_N_numeral]. Qed.
