(* ===== verification/ConversationScope.v ===== *)
(** Conversation scopes and their canonical encoding.

    Models [packages/core/src/domain/conversation-scope.ts]: the scope data
    types with the constraints of their schemas, the length-delimited canonical
    encoding that feeds the conversation digest, the conversation reference and
    locator built from it, and the human-readable session key projection.

    A string is the sequence of its UTF-8 bytes, so [Buffer.byteLength(s,
    "utf8")] is [String.length s].  SHA-256 followed by base64url is code of the
    platform: it is the parameter [digest] of the definitions that use it. *)

From Stdlib Require Import Ascii.
From S2P Require Import Prelude.
Open Scope string_scope.

Module ConversationScope.

(** ** Data *)

Inductive ConversationKind := Direct | Shared.

Record ChannelEndpoint := {
  channelType : string;
  channelInstanceId : string;
  conversationId : string;
  threadId : option string;
  conversationKind : ConversationKind;
}.

Inductive ConversationPartition :=
| PAgent
| PPrincipal (principalId : string)
| PChannelPrincipal (chanType principalId : string)
| PEndpoint (endpoint : ChannelEndpoint)
| PEndpointPrincipal (endpoint : ChannelEndpoint) (principalId : string).

Record Scope := {
  tenantId : string;
  agentId : string;
  partition : ConversationPartition;
}.

#[global] Instance ConversationKind_eq_dec : EqDecision ConversationKind.
Proof. solve_decision. Defined.
#[global] Instance ChannelEndpoint_eq_dec : EqDecision ChannelEndpoint.
Proof. solve_decision. Defined.
#[global] Instance ConversationPartition_eq_dec : EqDecision ConversationPartition.
Proof. solve_decision. Defined.
#[global] Instance Scope_eq_dec : EqDecision Scope.
Proof. solve_decision. Defined.

(** The constraints of the schemas: every string is non-empty. *)

Definition nonempty (s : string) : bool := bool_decide (s ≠ "").

Definition ChannelEndpointSchema (e : ChannelEndpoint) : bool :=
  nonempty (channelType e) && nonempty (channelInstanceId e) &&
  nonempty (conversationId e) &&
  match threadId e with None => true | Some t => nonempty t end.

Definition ConversationPartitionSchema (p : ConversationPartition) : bool :=
  match p with
  | PAgent => true
  | PPrincipal pr => nonempty pr
  | PChannelPrincipal ct pr => nonempty ct && nonempty pr
  | PEndpoint e => ChannelEndpointSchema e
  | PEndpointPrincipal e pr => ChannelEndpointSchema e && nonempty pr
  end.

Definition ConversationScopeSchema (s : Scope) : bool :=
  nonempty (tenantId s) && nonempty (agentId s) &&
  ConversationPartitionSchema (partition s).

Definition isDelegatedExecutionEndpoint (e : ChannelEndpoint) : bool :=
  bool_decide (channelType e = "sub-agent").

(** ** Resolved turn scopes *)

Definition endpointsEqual (l r : ChannelEndpoint) : bool :=
  bool_decide (channelType l = channelType r) &&
  bool_decide (channelInstanceId l = channelInstanceId r) &&
  bool_decide (conversationId l = conversationId r) &&
  bool_decide (threadId l = threadId r) &&
  bool_decide (conversationKind l = conversationKind r).

Inductive TurnScopeIssue := PartitionPrincipal | PartitionChannelType | PartitionEndpoint.

Record ResolvedTurnScope := {
  conversation : Scope;
  principal : string;
  endpoint : ChannelEndpoint;
}.

(** The issues the refinement of [ResolvedTurnScopeSchema] adds, in order. *)
Definition ResolvedTurnScopeIssues (v : ResolvedTurnScope) : list TurnScopeIssue :=
  let p := partition (conversation v) in
  (match p with
   | PPrincipal pr | PChannelPrincipal _ pr | PEndpointPrincipal _ pr =>
       if bool_decide (pr = principal v) then [] else [PartitionPrincipal]
   | _ => []
   end) ++
  (match p with
   | PChannelPrincipal ct _ =>
       if bool_decide (ct = channelType (endpoint v)) then [] else [PartitionChannelType]
   | _ => []
   end) ++
  (match p with
   | PEndpoint e | PEndpointPrincipal e _ =>
       if endpointsEqual e (endpoint v) then [] else [PartitionEndpoint]
   | _ => []
   end).

(** ** Encoding *)

Definition conversationKind_str (k : ConversationKind) : string :=
  match k with Direct => "direct" | Shared => "shared" end.

Definition lengthDelimited (v : string) : string :=
  pretty (String.length v) +:+ ":" +:+ v.

Definition encodeEndpoint (e : ChannelEndpoint) : list string :=
  [channelType e; channelInstanceId e; conversationId e;
   match threadId e with
   | None => "thread:absent"
   | Some t => "thread:present:" +:+ t
   end;
   conversationKind_str (conversationKind e)].

Definition partitionFields (p : ConversationPartition) : list string :=
  match p with
  | PAgent => ["agent"]
  | PPrincipal pr => ["principal"; pr]
  | PChannelPrincipal ct pr => ["channel-principal"; ct; pr]
  | PEndpoint e => "endpoint-conversation" :: encodeEndpoint e
  | PEndpointPrincipal e pr =>
      "endpoint-conversation-principal" :: encodeEndpoint e ++ [pr]
  end.

Definition scopeFields (s : Scope) : list string :=
  ["comis-conversation-scope"; "v1"; tenantId s; agentId s] ++ partitionFields (partition s).

Definition joinFields (fs : list string) : string :=
  foldr (fun f acc => lengthDelimited f +:+ acc) "" fs.

Definition encodeConversationScope (s : Scope) : Result string string :=
  if ConversationScopeSchema s then Ok (joinFields (scopeFields s))
  else Err "Invalid conversation scope".

(** ** References and locators *)

Definition base64urlChar (c : Ascii.ascii) : bool :=
  let n := Ascii.nat_of_ascii c in
  ((65 <=? n) && (n <=? 90) || (97 <=? n) && (n <=? 122) ||
   (48 <=? n) && (n <=? 57) || (n =? 95) || (n =? 45))%nat.

(** [/^cv_[A-Za-z0-9_-]{43}$/] *)
Definition ConversationRefSchema (r : string) : bool :=
  match r with
  | String c (String v (String u rest)) =>
      bool_decide (String c (String v (String u "")) = "cv_") &&
      (String.length rest =? 43)%nat && forallb base64urlChar (String.list_ascii_of_string rest)
  | _ => false
  end.

Section Refs.
Variable digest : string → string.

Definition createConversationRef (s : Scope) : Result string string :=
  match encodeConversationScope s with
  | Err e => Err e
  | Ok encoded =>
      let candidate := "cv_" +:+ digest encoded in
      if ConversationRefSchema candidate then Ok candidate
      else Err "Conversation reference generation failed validation"
  end.

Record Locator := {
  conversationScope : Scope;
  conversationRef : string;
}.

Definition createConversationLocator (s : Scope) : Result Locator string :=
  if ConversationScopeSchema s then
    match createConversationRef s with
    | Ok ref => Ok {| conversationScope := s; conversationRef := ref |}
    | Err e => Err e
    end
  else Err "Invalid conversation scope".

(** The refinement of [ConversationLocatorSchema]. *)
Definition ConversationLocatorSchema (l : Locator) : bool :=
  match createConversationRef (conversationScope l) with
  | Ok expected => bool_decide (expected = conversationRef l)
  | Err _ => false
  end.
End Refs.

(** ** Session keys *)

Record SessionKey := {
  skTenantId : string;
  skAgentId : string;
  skUserId : string;
  skChannelId : string;
  skPeerId : option string;
  skThreadId : option string;
}.

Definition endpointChannelId (e : ChannelEndpoint) : string :=
  channelType e +:+ ":" +:+ channelInstanceId e +:+ ":" +:+ conversationId e.

Definition conversationScopeToSessionKey (s : Scope) : Result SessionKey string :=
  if ConversationScopeSchema s then
    let key u c p t :=
      {| skTenantId := tenantId s; skAgentId := agentId s;
         skUserId := u; skChannelId := c; skPeerId := p; skThreadId := t |} in
    Ok match partition s with
       | PAgent => key "main" "dm" None None
       | PPrincipal pr => key pr "dm" (Some pr) None
       | PChannelPrincipal ct pr => key pr ct (Some pr) None
       | PEndpoint e => key "conversation" (endpointChannelId e) None (threadId e)
       | PEndpointPrincipal e pr => key pr (endpointChannelId e) (Some pr) (threadId e)
       end
  else Err "Invalid conversation scope".

(** ** Injectivity of the encoding *)

Lemma lengthDelimited_inj v w a b :
  lengthDelimited v +:+ a = lengthDelimited w +:+ b → v = w ∧ a = b.
Proof.
  unfold lengthDelimited. rewrite !app_assoc_str.
  change (":" +:+ v +:+ a) with (String ":" (v +:+ a)).
  change (":" +:+ w +:+ b) with (String ":" (w +:+ b)).
  intros [Hl E]%(str_split isNumeralChar); try apply pretty_nat_numeral; try done.
  simplify_eq. by apply app_length_inj.
Qed.

Lemma lengthDelimited_ne v a : lengthDelimited v +:+ a ≠ "".
Proof.
  unfold lengthDelimited. rewrite app_assoc_str.
  by destruct (pretty (String.length v)).
Qed.

Lemma joinFields_inj fs gs : joinFields fs = joinFields gs → fs = gs.
Proof.
  revert gs. induction fs as [|f fs IH]; intros [|g gs]; simpl; [done|..].
  - intros E. by destruct (lengthDelimited_ne g (joinFields gs)).
  - intros E. by destruct (lengthDelimited_ne f (joinFields fs)).
  - intros [-> E]%lengthDelimited_inj. f_equal. by apply IH.
Qed.

Lemma encodeEndpoint_inj e e' : encodeEndpoint e = encodeEndpoint e' → e = e'.
Proof.
  destruct e as [ct ci cv [t|] k], e' as [ct' ci' cv' [t'|] k']; unfold encodeEndpoint; simpl;
    intros; simplify_eq/=; destruct k, k'; by simplify_eq/=.
Qed.

Lemma partitionFields_inj p q : partitionFields p = partitionFields q → p = q.
Proof.
  destruct p as [| | |e|e pr], q as [| | |e'|e' pr']; simpl; try (intros; by simplify_eq).
  - intros [=]. f_equal. apply encodeEndpoint_inj. unfold encodeEndpoint. congruence.
  - intros [=]. f_equal; [|done]. apply encodeEndpoint_inj. unfold encodeEndpoint. congruence.
Qed.

(** the canonical encoding of a conversation scope is injective: two
    accepted scopes with the same encoding are the same scope, so no tenant,
    agent, endpoint, thread or principal can be confused with another one
    before the digest is taken. *)
Theorem encodeConversationScope_inj (s t : Scope) (e : string) :
  encodeConversationScope s = Ok e → encodeConversationScope t = Ok e → s = t.
Proof.
  unfold encodeConversationScope. intros Hs Ht.
  destruct (ConversationScopeSchema s), (ConversationScopeSchema t); try done.
  assert (joinFields (scopeFields s) = joinFields (scopeFields t)) as E by congruence.
  apply joinFields_inj in E. unfold scopeFields in E.
  destruct s as [ts ags ps], t as [tt agt pt]; simpl in *.
  injection E as -> -> Hp. f_equal. by apply partitionFields_inj.
Qed.

Definition sample_endpoint : ChannelEndpoint :=
  {| channelType := "telegram"; channelInstanceId := "bot1"; conversationId := "42";
     threadId := Some "7"; conversationKind := Shared |}.

Definition sample_scope : Scope :=
  {| tenantId := "acme"; agentId := "ops"; partition := PEndpoint sample_endpoint |}.

Lemma encodeConversationScope_inj_witness :
  ∃ e, encodeConversationScope sample_scope = Ok e ∧ sample_scope = sample_scope.
Proof.
  eexists. split; [vm_compute; reflexivity|].
  eapply (encodeConversationScope_inj sample_scope sample_scope); vm_compute; reflexivity.
Defined.

End ConversationScope.
