(* ===== verification/ExecutionGraph.v ===== *)
(** Execution graphs and their topological order.

    Models [packages/core/src/domain/execution-graph.ts]: the node and graph
    data with the constraints of their schemas, the structural validation, the
    topological sort (Kahn's algorithm), the cycle trace used in its error, and
    [validateAndSortGraph].

    JavaScript [Map]s are insertion-ordered maps ([Prelude]).  The work-list
    loop and the depth-first search take fuel; running out of fuel is the value
    [None], and [topologicalSort_total] shows that the fuel given here is always
    enough. *)

From S2P Require Import Prelude ConversationScope.
Open Scope string_scope.
Open Scope list_scope.
Open Scope nat_scope.

Module ExecutionGraph.

(** ** Data *)

Inductive NodeStatus := Pending | Ready | Running | Completed | Failed | Skipped.

Inductive GraphStatus := GRunning | GCompleted | GFailed | GCancelled.

Inductive NodeTypeId :=
| TAgent | TDebate | TVote | TRefine | TCollaborate | TApprovalGate | TMapReduce.

Inductive BarrierMode := BAll | BMajority | BBestEffort.
Inductive ContextMode := CFull | CSummary | CRefs | CNone.
Inductive OnFailure := FailFast | Continue.

#[global] Instance NodeStatus_eq_dec : EqDecision NodeStatus.
Proof. solve_decision. Defined.
#[global] Instance GraphStatus_eq_dec : EqDecision GraphStatus.
Proof. solve_decision. Defined.
#[global] Instance NodeTypeId_eq_dec : EqDecision NodeTypeId.
Proof. solve_decision. Defined.
#[global] Instance BarrierMode_eq_dec : EqDecision BarrierMode.
Proof. solve_decision. Defined.
#[global] Instance OnFailure_eq_dec : EqDecision OnFailure.
Proof. solve_decision. Defined.

(** A JSON value, for the driver configuration the graph only carries. *)
Inductive Json :=
| JNull
| JBool (b : bool)
| JNumber (n : Z)
| JString (s : string)
| JArray (l : list Json)
| JObject (fields : list (string * Json)).

Record GraphNode := {
  nodeId : string;
  task : string;
  nAgentId : option string;
  model : option string;
  dependsOn : list string;
  timeoutMs : option Z;
  maxSteps : option Z;
  tokenBudget : option Z;
  barrierMode : BarrierMode;
  retries : Z;
  contextMode : ContextMode;
  mcpServers : list string;
  typeId : option NodeTypeId;
  typeConfig : option (list (string * Json));
}.

Record NodeExecutionState := {
  nsNodeId : string;
  status : NodeStatus;
  runId : option string;
  output : option string;
  error : option string;
  startedAt : option Z;
  completedAt : option Z;
  retryAttempt : option Z;
  retriesRemaining : option Z;
  priorConversation : option ConversationScope.Locator;
}.

Record GraphBudget := { maxTokens : option Z; maxCost : option Z }.

Record Graph := {
  nodes : list GraphNode;
  label : option string;
  onFailure : OnFailure;
  gTimeoutMs : Z;
  budget : option GraphBudget;
}.

Record ValidatedGraph := {
  graph : Graph;
  executionOrder : list string;
}.

Definition ids (ns : list GraphNode) : list string := nodeId <$> ns.

(** ** Schema constraints *)

Definition opt_positive (o : option Z) : bool :=
  match o with None => true | Some z => bool_decide (0 < z)%Z end.

Inductive NodeTypeIssue := MissingTypeConfig (t : NodeTypeId) | MissingTypeId.

(** The both-or-neither refinement of [typeId] and [typeConfig]. *)
Definition nodeTypeIssue (n : GraphNode) : option NodeTypeIssue :=
  match typeId n, typeConfig n with
  | Some t, None => Some (MissingTypeConfig t)
  | None, Some _ => Some MissingTypeId
  | _, _ => None
  end.

Definition GraphNodeSchema (n : GraphNode) : bool :=
  ConversationScope.nonempty (nodeId n) && ConversationScope.nonempty (task n) &&
  match nAgentId n with None => true | Some a => ConversationScope.nonempty a end &&
  opt_positive (timeoutMs n) && opt_positive (maxSteps n) && opt_positive (tokenBudget n) &&
  bool_decide (0 ≤ retries n ∧ retries n ≤ 3)%Z &&
  match nodeTypeIssue n with None => true | Some _ => false end.

Definition ExecutionGraphSchema (g : Graph) : bool :=
  bool_decide (1 ≤ length (nodes g) ≤ 20)%nat && forallb GraphNodeSchema (nodes g) &&
  bool_decide (0 < gTimeoutMs g)%Z &&
  match budget g with
  | None => true
  | Some b => opt_positive (maxTokens b) && opt_positive (maxCost b)
  end.

(** ** Validation errors *)

Inductive ValidationKind := KCycle | KMissingDependency | KDuplicateNodeId | KSelfDependency.

Record GraphValidationError := {
  kind : ValidationKind;
  errNodes : list string;
  message : string;
}.

Definition dquote : string := String (Ascii.ascii_of_nat 34) EmptyString.

Definition quoted (s : string) : string := dquote +:+ s +:+ dquote.

Fixpoint joinWith (sep : string) (l : list string) : string :=
  match l with
  | [] => ""
  | [x] => x
  | x :: l' => x +:+ sep +:+ joinWith sep l'
  end.

(** ** Topological sort *)

(** Step 1: the first node whose id was already seen. *)
Fixpoint findDuplicate (seen : list string) (ns : list GraphNode) : option string :=
  match ns with
  | [] => None
  | n :: ns' =>
      if bool_decide (nodeId n ∈ seen) then Some (nodeId n)
      else findDuplicate (nodeId n :: seen) ns'
  end.

(** Step 2: the first node that depends on itself. *)
Fixpoint findSelfDep (ns : list GraphNode) : option string :=
  match ns with
  | [] => None
  | n :: ns' => if bool_decide (nodeId n ∈ dependsOn n) then Some (nodeId n) else findSelfDep ns'
  end.

Fixpoint firstMissing (idSet : list string) (deps : list string) : option string :=
  match deps with
  | [] => None
  | d :: deps' => if bool_decide (d ∈ idSet) then firstMissing idSet deps' else Some d
  end.

(** Step 3: the first dependency that names no node. *)
Fixpoint findMissingDep (idSet : list string) (ns : list GraphNode) : option (string * string) :=
  match ns with
  | [] => None
  | n :: ns' =>
      match firstMissing idSet (dependsOn n) with
      | Some d => Some (nodeId n, d)
      | None => findMissingDep idSet ns'
      end
  end.

(** Step 4: adjacency lists and in-degrees. *)
Definition initAdjacency (ns : list GraphNode) : jsmap string (list string) :=
  foldl (fun adj n => mset adj (nodeId n) []) [] ns.

Definition initInDegree (ns : list GraphNode) : jsmap string Z :=
  foldl (fun deg n => mset deg (nodeId n) 0%Z) [] ns.

Definition addEdge (id : string) (st : jsmap string (list string) * jsmap string Z) (dep : string)
  : jsmap string (list string) * jsmap string Z :=
  (mset st.1 dep (default [] (mget st.1 dep) ++ [id]),
   mset st.2 id (default 0 (mget st.2 id) + 1)%Z).

Definition buildEdges (ns : list GraphNode)
  : jsmap string (list string) * jsmap string Z :=
  foldl (fun st n => foldl (addEdge (nodeId n)) st (dependsOn n))
        (initAdjacency ns, initInDegree ns) ns.

(** Step 5: the work list. *)
Definition initialQueue (deg : jsmap string Z) : list string :=
  (filter (fun p => p.2 = 0%Z) deg).*1.

Fixpoint relaxNeighbors (nbrs : list string) (deg : jsmap string Z) (queue : list string)
  : jsmap string Z * list string :=
  match nbrs with
  | [] => (deg, queue)
  | nb :: nbrs' =>
      let newDegree := (default 0 (mget deg nb) - 1)%Z in
      relaxNeighbors nbrs' (mset deg nb newDegree)
        (if bool_decide (newDegree = 0%Z) then queue ++ [nb] else queue)
  end.

Fixpoint kahnLoop (fuel : nat) (adj : jsmap string (list string)) (deg : jsmap string Z)
    (queue sorted : list string) : option (list string) :=
  match fuel with
  | O => None
  | S fuel' =>
      match queue with
      | [] => Some sorted
      | current :: queue' =>
          let '(deg', queue'') := relaxNeighbors (default [] (mget adj current)) deg queue' in
          kahnLoop fuel' adj deg' queue'' (sorted ++ [current])
      end
  end.

(** Step 6: one cycle, by depth-first search over the unvisited nodes. *)
Fixpoint indexOf (x : string) (l : list string) : nat :=
  match l with
  | [] => 0
  | y :: l' => if decide (x = y) then 0 else S (indexOf x l')
  end.

Record DfsState := {
  stack : list string;
  onStack : list string;
  visitedInDfs : list string;
}.

Inductive DfsResult := DfsCycle (cycle : list string) | DfsNone (st : DfsState) | DfsOutOfFuel.

Definition enter (id : string) (st : DfsState) : DfsState :=
  {| stack := stack st ++ [id]; onStack := id :: onStack st;
     visitedInDfs := id :: visitedInDfs st |}.

Definition leave (id : string) (st : DfsState) : DfsState :=
  {| stack := removelast (stack st);
     onStack := filter (fun x => x ≠ id) (onStack st);
     visitedInDfs := visitedInDfs st |}.

Fixpoint dfs (fuel : nat) (depMap : jsmap string (list string)) (id : string) (st : DfsState)
  : DfsResult :=
  match fuel with
  | O => DfsOutOfFuel
  | S fuel' =>
      (fix visitDeps (deps : list string) (st : DfsState) : DfsResult :=
         match deps with
         | [] => DfsNone (leave id st)
         | dep :: deps' =>
             if bool_decide (dep ∈ onStack st) then
               DfsCycle (drop (indexOf dep (stack st)) (stack st) ++ [dep])
             else if bool_decide (dep ∈ visitedInDfs st) then visitDeps deps' st
             else match dfs fuel' depMap dep st with
                  | DfsNone st' => visitDeps deps' st'
                  | r => r
                  end
         end) (default [] (mget depMap id)) (enter id st)
  end.

Definition traceCycle (fuel : nat) (start : string) (depMap : jsmap string (list string))
  : option (list string) :=
  match dfs fuel depMap start {| stack := []; onStack := []; visitedInDfs := [] |} with
  | DfsCycle c => Some c
  | DfsNone _ => Some [start]
  | DfsOutOfFuel => None
  end.

Definition unvisitedNodes (sorted : list string) (ns : list GraphNode) : list GraphNode :=
  filter (fun n => nodeId n ∉ sorted) ns.

Definition cycleDepMap (sorted : list string) (ns : list GraphNode)
  : jsmap string (list string) :=
  foldl (fun m n => mset m (nodeId n) (filter (fun d => d ∉ sorted) (dependsOn n)))
        [] (unvisitedNodes sorted ns).

Definition topologicalSort (ns : list GraphNode)
  : option (Result (list string) GraphValidationError) :=
  match findDuplicate [] ns with
  | Some id =>
      Some (Err {| kind := KDuplicateNodeId; errNodes := [id];
                   message := "Duplicate node ID: " +:+ quoted id |})
  | None =>
  match findSelfDep ns with
  | Some id =>
      Some (Err {| kind := KSelfDependency; errNodes := [id];
                   message := "Node " +:+ quoted id +:+ " depends on itself" |})
  | None =>
  match findMissingDep (ids ns) ns with
  | Some (id, dep) =>
      Some (Err {| kind := KMissingDependency; errNodes := [id; dep];
                   message := "Node " +:+ quoted id +:+ " depends on non-existent node "
                              +:+ quoted dep |})
  | None =>
      let '(adj, deg) := buildEdges ns in
      match kahnLoop (S (length ns)) adj deg (initialQueue deg) [] with
      | None => None
      | Some sorted =>
          if (length sorted <? length ns)%nat then
            match unvisitedNodes sorted ns with
            | [] => None
            | first :: _ =>
                match traceCycle (S (length ns)) (nodeId first) (cycleDepMap sorted ns) with
                | None => None
                | Some cyclePath =>
                    Some (Err {| kind := KCycle; errNodes := cyclePath;
                                 message := "Cycle detected: " +:+ joinWith " -> " cyclePath |})
                end
            end
          else Some (Ok sorted)
      end
  end end end.

Definition validateAndSortGraph (g : Graph)
  : option (Result ValidatedGraph GraphValidationError) :=
  match topologicalSort (nodes g) with
  | None => None
  | Some (Err e) => Some (Err e)
  | Some (Ok order) => Some (Ok {| graph := g; executionOrder := order |})
  end.

(** ** Specification *)

(** The dependencies of an id (of all nodes that bear it, in order). *)
Definition depsOf (ns : list GraphNode) (id : string) : list string :=
  mjoin (dependsOn <$> filter (fun n => nodeId n = id) ns).

Definition edge (ns : list GraphNode) (a b : string) : Prop := b ∈ depsOf ns a.

Inductive walk {A} (E : A → A → Prop) : list A → Prop :=
| walk_one x : walk E [x]
| walk_cons x y l : E x y → walk E (y :: l) → walk E (x :: y :: l).

(** A closed walk [x -> ... -> x] along dependencies. *)
Definition is_cycle (ns : list GraphNode) (c : list string) : Prop :=
  ∃ x mid, c = x :: mid ++ [x] ∧ walk (edge ns) c.

Definition acyclic (ns : list GraphNode) : Prop := ∀ c, ¬ is_cycle ns c.

(** Every dependency stands before its dependent. *)
Definition topo_sorted (ns : list GraphNode) (order : list string) : Prop :=
  ∀ l1 x l2, order = l1 ++ x :: l2 → ∀ d, d ∈ depsOf ns x → d ∈ l1.

Definition refs_exist (ns : list GraphNode) : Prop :=
  ∀ n d, n ∈ ns → d ∈ dependsOn n → d ∈ ids ns.

(** ** Structural checks *)

Lemma findDuplicate_None seen ns :
  findDuplicate seen ns = None ↔ NoDup (ids ns) ∧ (∀ x, x ∈ ids ns → x ∉ seen).
Proof.
  revert seen. induction ns as [|n ns IH]; intros seen; simpl.
  - split; [|done]. intros _. split; [constructor|]. by intros x ?%elem_of_nil.
  - case_bool_decide as Hin.
    + split; [done|]. intros [_ H]. destruct (H (nodeId n)); [|done]. left.
    + rewrite IH, NoDup_cons. unfold ids. simpl. set_solver.
Qed.

Lemma findDuplicate_Some ns id :
  findDuplicate [] ns = Some id → ¬ NoDup (ids ns).
Proof.
  intros H Hnd. assert (findDuplicate [] ns = None) as E; [|congruence].
  apply findDuplicate_None. split; [done|]. intros x _ ?%elem_of_nil. done.
Qed.

Lemma findSelfDep_None ns :
  findSelfDep ns = None ↔ ∀ n, n ∈ ns → nodeId n ∉ dependsOn n.
Proof.
  induction ns as [|n ns IH]; simpl; [split; [by intros _ ? ?%elem_of_nil|done]|].
  case_bool_decide as Hin.
  - split; [done|]. intros H. destruct (H n); [left|done].
  - rewrite IH. split; [intros H m [->|]%elem_of_cons; auto|]. intros H m Hm. apply H. by right.
Qed.

Lemma findSelfDep_Some ns id :
  findSelfDep ns = Some id → ∃ n, n ∈ ns ∧ nodeId n = id ∧ id ∈ dependsOn n.
Proof.
  induction ns as [|n ns IH]; simpl; [done|]. case_bool_decide; intros; simplify_eq.
  - exists n. split; [left|done].
  - destruct IH as (m & ? & ?); [done|]. exists m. split; [by right|done].
Qed.

Lemma firstMissing_None s deps : firstMissing s deps = None ↔ ∀ d, d ∈ deps → d ∈ s.
Proof.
  induction deps as [|d deps IH]; simpl; [split; [by intros _ ? ?%elem_of_nil|done]|].
  case_bool_decide; [rewrite IH; set_solver|]. split; [done|]. set_solver.
Qed.

Lemma firstMissing_Some s deps d : firstMissing s deps = Some d → d ∈ deps ∧ d ∉ s.
Proof.
  induction deps as [|e deps IH]; simpl; [done|].
  case_bool_decide; [|naive_solver set_solver]. intros [??]%IH. set_solver.
Qed.

Lemma findMissingDep_None s ns :
  findMissingDep s ns = None ↔ ∀ n d, n ∈ ns → d ∈ dependsOn n → d ∈ s.
Proof.
  induction ns as [|n ns IH]; simpl; [split; [by intros _ ? ? ?%elem_of_nil|done]|].
  destruct (firstMissing s (dependsOn n)) as [d|] eqn:E.
  - split; [done|]. intros H. apply firstMissing_Some in E as [? []]. apply (H n); [left|done].
  - rewrite IH. rewrite firstMissing_None in E. split.
    + intros H m d [->|]%elem_of_cons; eauto.
    + intros H m d Hm. apply H. by right.
Qed.

Lemma findMissingDep_Some s ns id d :
  findMissingDep s ns = Some (id, d) →
  ∃ n, n ∈ ns ∧ nodeId n = id ∧ d ∈ dependsOn n ∧ d ∉ s.
Proof.
  induction ns as [|n ns IH]; simpl; [done|].
  destruct (firstMissing s (dependsOn n)) eqn:E; intros; simplify_eq.
  - apply firstMissing_Some in E as [??]. exists n. split; [left|done].
  - destruct IH as (m & ? & ?); [done|]. exists m. split; [by right|done].
Qed.

Lemma depsOf_cons n ns x :
  depsOf (n :: ns) x = (if decide (nodeId n = x) then dependsOn n else []) ++ depsOf ns x.
Proof. unfold depsOf. rewrite filter_cons. by case_decide. Qed.

Lemma elem_of_depsOf ns x d :
  d ∈ depsOf ns x ↔ ∃ n, n ∈ ns ∧ nodeId n = x ∧ d ∈ dependsOn n.
Proof.
  induction ns as [|n ns IH].
  - split; [by intros ?%elem_of_nil|]. by intros (? & ?%elem_of_nil & _).
  - rewrite depsOf_cons, elem_of_app, IH. split.
    + intros [H|(m & ? & ? & ?)].
      * case_decide; [|by apply elem_of_nil in H]. exists n. split; [left|done].
      * exists m. split; [by right|done].
    + intros (m & [->|]%elem_of_cons & Hm & Hd); [left|right; eauto].
      by rewrite decide_True.
Qed.

Lemma depsOf_notin ns x : x ∉ ids ns → depsOf ns x = [].
Proof.
  induction ns as [|n ns IH]; [done|]. intros [Hx ?]%not_elem_of_cons.
  rewrite depsOf_cons, decide_False by done. by apply IH.
Qed.

Lemma depsOf_node ns n : NoDup (ids ns) → n ∈ ns → depsOf ns (nodeId n) = dependsOn n.
Proof.
  induction ns as [|m ns IH]; [by intros _ ?%elem_of_nil|].
  intros [Hm Hnd]%NoDup_cons [->|Hin]%elem_of_cons; rewrite depsOf_cons.
  - rewrite decide_True by done. rewrite depsOf_notin by done. apply app_nil_r.
  - rewrite decide_False; [by apply IH|]. intros E. apply Hm. rewrite E.
    apply list_elem_of_fmap. eauto.
Qed.

Lemma refs_exist_depsOf ns x d : refs_exist ns → d ∈ depsOf ns x → d ∈ ids ns.
Proof. intros H (n & ? & ? & ?)%elem_of_depsOf. eauto. Qed.

(** ** Edges *)

Abbreviation dget m x := (default [] (mget m x)).
Abbreviation zget m x := (default 0%Z (mget m x)).

Lemma addEdges_spec id deps st :
  let st' := foldl (addEdge id) st deps in
  (∀ d n, cnt n (dget st'.1 d) = cnt n (dget st.1 d) + if decide (n = id) then cnt d deps else 0) ∧
  (∀ n, zget st'.2 n = zget st.2 n + if decide (n = id) then Z.of_nat (length deps) else 0)%Z ∧
  (id ∈ mkeys st.2 → mkeys st'.2 = mkeys st.2).
Proof.
  revert st. induction deps as [|e deps IH]; intros st; simpl.
  - split_and!; [|intros n; case_decide; lia|done]. intros d n. rewrite cnt_nil. case_decide; lia.
  - destruct (IH (addEdge id st e)) as (IH1 & IH2 & IH3). split_and!.
    + intros d n. rewrite IH1, cnt_cons. simpl. rewrite mget_mset.
      destruct (decide (d = e)) as [->|]; simpl.
      * rewrite cnt_app, cnt_cons, cnt_nil. repeat case_decide; simplify_eq; lia.
      * repeat case_decide; simplify_eq; lia.
    + intros n. rewrite IH2. simpl. rewrite mget_mset.
      destruct (decide (n = id)) as [->|]; simpl; lia.
    + intros Hid. rewrite IH3; simpl; [by apply mkeys_mset_in|].
      apply elem_of_mkeys_mset. by left.
Qed.

Lemma foldEdges_spec ns st :
  let st' := foldl (fun st n => foldl (addEdge (nodeId n)) st (dependsOn n)) st ns in
  (∀ d n, cnt n (dget st'.1 d) = cnt n (dget st.1 d) + cnt d (depsOf ns n)) ∧
  (∀ n, zget st'.2 n = zget st.2 n + Z.of_nat (length (depsOf ns n)))%Z ∧
  ((∀ n, n ∈ ids ns → n ∈ mkeys st.2) → mkeys st'.2 = mkeys st.2).
Proof.
  revert st. induction ns as [|m ns IH]; intros st; simpl.
  - split_and!; [intros; change (depsOf [] n) with (@nil string); rewrite cnt_nil; lia
                |intros; change (depsOf [] n) with (@nil string); simpl; lia|done].
  - destruct (addEdges_spec (nodeId m) (dependsOn m) st) as (E1 & E2 & E3).
    destruct (IH (foldl (addEdge (nodeId m)) st (dependsOn m))) as (IH1 & IH2 & IH3). split_and!.
    + intros d n. rewrite IH1, E1, depsOf_cons, cnt_app.
      repeat case_decide; simplify_eq; rewrite ?cnt_nil; lia.
    + intros n. rewrite IH2, E2, depsOf_cons, length_app.
      repeat case_decide; simplify_eq; simpl; lia.
    + intros Hk. rewrite IH3; rewrite E3; [done|..]; intros; apply Hk; unfold ids in *; set_solver.
Qed.

Lemma foldl_mset_const {V} (f : GraphNode → V) ns (m : jsmap string V) x :
  mget (foldl (fun m n => mset m (nodeId n) (f n)) m ns) x =
  match last (filter (fun n => nodeId n = x) ns) with
  | Some n => Some (f n)
  | None => mget m x
  end.
Proof.
  revert m. induction ns as [|n ns IH]; intros m; simpl; [done|].
  rewrite IH, mget_mset, filter_cons. destruct (decide (nodeId n = x)) as [<-|].
  - rewrite (decide_True (P := nodeId n = nodeId n)) by done.
    destruct (filter _ ns) as [|a l]; [done|]. simpl.
    destruct (last (a :: l)) eqn:E; [done|]. by apply last_None in E.
  - rewrite decide_False by congruence. done.
Qed.

Lemma mkeys_foldl_mset {V} (f : GraphNode → V) ns (m : jsmap string V) :
  NoDup (ids ns) → (∀ x, x ∈ ids ns → x ∉ mkeys m) →
  mkeys (foldl (fun m n => mset m (nodeId n) (f n)) m ns) = mkeys m ++ ids ns.
Proof.
  revert m. induction ns as [|n ns IH]; intros m; simpl; [by rewrite app_nil_r|].
  intros [Hn Hnd]%NoDup_cons Hk.
  rewrite IH; [|done|].
  - rewrite mkeys_mset_notin by (apply Hk; left). by rewrite <- app_assoc.
  - intros x Hx. rewrite elem_of_mkeys_mset. intros [->|?]; [done|].
    apply (Hk x); [by right|done].
Qed.

Lemma zget_initInDegree ns x : zget (initInDegree ns) x = 0%Z.
Proof.
  unfold initInDegree. rewrite (foldl_mset_const (λ _, 0%Z)). by destruct (last _).
Qed.

Lemma dget_initAdjacency ns x : dget (initAdjacency ns) x = [].
Proof.
  unfold initAdjacency. rewrite (foldl_mset_const (λ _, [])). by destruct (last _).
Qed.

Lemma buildEdges_spec ns :
  NoDup (ids ns) →
  let '(adj, deg) := buildEdges ns in
  (∀ d n, cnt n (dget adj d) = cnt d (depsOf ns n)) ∧
  (∀ n, zget deg n = Z.of_nat (length (depsOf ns n))) ∧
  mkeys deg = ids ns.
Proof.
  intros Hnd. unfold buildEdges.
  pose proof (foldEdges_spec ns (initAdjacency ns, initInDegree ns)) as (H1 & H2 & H3).
  destruct (foldl _ _ ns) as [adj deg]; simpl in *.
  assert (mkeys (initInDegree ns) = ids ns) as Hk.
  { unfold initInDegree. rewrite (mkeys_foldl_mset (λ _, 0%Z)); [done|done|].
    intros x _ ?%elem_of_nil. done. }
  split_and!.
  - intros d n. by rewrite H1, dget_initAdjacency.
  - intros n. by rewrite H2, zget_initInDegree.
  - rewrite H3; [done|]. by rewrite Hk.
Qed.

Lemma elem_of_initialQueue deg x :
  NoDup (mkeys deg) → x ∈ initialQueue deg ↔ x ∈ mkeys deg ∧ zget deg x = 0%Z.
Proof.
  intros Hnd. unfold initialQueue. rewrite list_elem_of_fmap. split.
  - intros ([y z] & -> & [Hz Hin]%list_elem_of_filter). simpl in *. subst.
    rewrite (elem_of_mget _ _ _ Hnd Hin). split; [|done].
    apply list_elem_of_fmap. by exists (y, 0%Z).
  - intros [Hin%mget_is_Some Hz]. destruct Hin as [z E]. rewrite E in Hz. simpl in Hz. subst.
    exists (x, 0%Z). split; [done|]. apply list_elem_of_filter. split; [done|].
    by apply mget_elem_of.
Qed.

Lemma NoDup_initialQueue deg : NoDup (mkeys deg) → NoDup (initialQueue deg).
Proof.
  unfold initialQueue, mkeys. induction deg as [|[k z] deg IH]; simpl; [done|].
  intros [Hk Hnd]%NoDup_cons. rewrite filter_cons. case_decide; simpl; [|by apply IH].
  apply NoDup_cons. split; [|by apply IH].
  intros ([y w] & -> & [_ Hin]%list_elem_of_filter)%list_elem_of_fmap. apply Hk.
  apply list_elem_of_fmap. by exists (y, w).
Qed.

(** ** The work list *)

Lemma relaxNeighbors_spec nbrs deg queue :
  (∀ n, Z.of_nat (cnt n nbrs) ≤ zget deg n)%Z →
  ∃ deg' new,
    relaxNeighbors nbrs deg queue = (deg', queue ++ new) ∧ NoDup new ∧
    (∀ n, zget deg' n = zget deg n - Z.of_nat (cnt n nbrs))%Z ∧
    (∀ n, n ∈ new ↔ 0 < cnt n nbrs ∧ zget deg n = Z.of_nat (cnt n nbrs)).
Proof.
  revert deg queue. induction nbrs as [|nb nbrs IH]; intros deg queue Hle; simpl.
  - exists deg, []. rewrite app_nil_r. split_and!; [done|constructor|..].
    + intros n. rewrite cnt_nil. lia.
    + intros n. rewrite cnt_nil. split; [by intros ?%elem_of_nil|lia].
  - set (d := (zget deg nb - 1)%Z).
    assert (∀ n, zget (mset deg nb d) n = if decide (n = nb) then d else zget deg n) as Hz.
    { intros n. rewrite mget_mset. by case_decide. }
    pose proof (Hle nb) as Hnb. rewrite cnt_cons, decide_True in Hnb by done.
    destruct (IH (mset deg nb d) (if bool_decide (d = 0%Z) then queue ++ [nb] else queue))
      as (deg' & new & -> & Hnd & Hd & Hin).
    { intros n. rewrite Hz. specialize (Hle n). rewrite cnt_cons in Hle.
      repeat case_decide; simplify_eq; lia. }
    exists deg', (if bool_decide (d = 0%Z) then nb :: new else new).
    split_and!.
    + case_bool_decide; [by rewrite <- app_assoc|done].
    + case_bool_decide; [|done]. apply NoDup_cons. split; [|done].
      rewrite Hin, Hz, decide_True by done. lia.
    + intros n. rewrite Hd, Hz, cnt_cons. repeat case_decide; simplify_eq; lia.
    + intros n. specialize (Hin n). rewrite Hz in Hin. rewrite cnt_cons.
      case_bool_decide; [rewrite elem_of_cons|]; rewrite Hin;
        repeat case_decide; simplify_eq; try (split; intros; lia).
      * split; [intros _|by left]. lia.
      * split; [intros [?|?]; [congruence|lia]|intros; right; lia].
Qed.

Section Kahn.
Variable ns : list GraphNode.
Variable adj : jsmap string (list string).
Hypothesis Hadj : ∀ d n, cnt n (dget adj d) = cnt d (depsOf ns n).

(** Dependencies of [n] that are not yet sorted. *)
Definition remaining (sorted : list string) (n : string) : nat :=
  length (filter (fun d => d ∉ sorted) (depsOf ns n)).

Record KahnInv (deg : jsmap string Z) (queue sorted : list string) : Prop := {
  ki_deg : ∀ n, zget deg n = Z.of_nat (remaining sorted n);
  ki_nodup : NoDup (sorted ++ queue);
  ki_mem : ∀ n, n ∈ sorted ++ queue ↔ n ∈ ids ns ∧ remaining sorted n = 0;
  ki_topo : topo_sorted ns sorted;
}.

Lemma remaining_snoc sorted c n :
  c ∉ sorted → remaining sorted n = remaining (sorted ++ [c]) n + cnt c (depsOf ns n).
Proof. apply length_filter_notin_snoc. Qed.

Lemma remaining_0 sorted n : remaining sorted n = 0 ↔ ∀ d, d ∈ depsOf ns n → d ∈ sorted.
Proof.
  unfold remaining. rewrite length_zero_iff_nil. split.
  - intros E d Hd. destruct (decide (d ∈ sorted)); [done|]. exfalso.
    assert (d ∈ filter (fun d => d ∉ sorted) (depsOf ns n)) as H.
    { apply list_elem_of_filter. done. }
    rewrite E in H. by apply elem_of_nil in H.
  - intros H. destruct (filter _ _) as [|d l] eqn:E; [done|]. exfalso.
    assert (d ∈ filter (fun d => d ∉ sorted) (depsOf ns n)) as [Hn Hd]%list_elem_of_filter.
    { rewrite E. left. }
    auto.
Qed.

Lemma topo_sorted_snoc sorted c :
  topo_sorted ns sorted → (∀ d, d ∈ depsOf ns c → d ∈ sorted) → topo_sorted ns (sorted ++ [c]).
Proof.
  intros Ht Hc l1 x l2 E d Hd.
  destruct l2 as [|y l2 _] using rev_ind.
  - apply app_inj_tail in E as [-> ->]. auto.
  - rewrite app_comm_cons, app_assoc in E. apply app_inj_tail in E as [E _].
    eapply Ht; [exact E|done].
Qed.

Lemma KahnInv_step deg c queue sorted :
  KahnInv deg (c :: queue) sorted →
  ∃ deg' queue',
    relaxNeighbors (dget adj c) deg queue = (deg', queue') ∧
    KahnInv deg' queue' (sorted ++ [c]).
Proof.
  intros [Hdeg Hnd Hmem Htopo].
  assert (c ∉ sorted) as Hc.
  { apply NoDup_app in Hnd as (_ & H & _). intros Hin. apply (H c Hin). left. }
  assert (c ∈ ids ns ∧ remaining sorted c = 0) as [Hcid Hc0].
  { apply Hmem. set_solver. }
  destruct (relaxNeighbors_spec (dget adj c) deg queue) as (deg' & new & -> & Hn & Hd & Hin).
  { intros n. rewrite Hadj, Hdeg, (remaining_snoc sorted c n) by done. lia. }
  eexists _, _. split; [done|]. split.
  - intros n. rewrite Hd, Hdeg, Hadj, (remaining_snoc sorted c n) by done. lia.
  - rewrite <- app_assoc. simpl. rewrite app_comm_cons, app_assoc. apply NoDup_app.
    split_and!; [done| |done].
    intros n Hold Hnew. apply Hin in Hnew as [Hpos Heq]. rewrite Hdeg, Hadj in Heq. rewrite Hadj in Hpos.
    apply Hmem in Hold as [_ ?]. lia.
  - intros n. rewrite <- app_assoc. simpl. rewrite app_comm_cons, app_assoc, elem_of_app, Hmem.
    rewrite Hin, Hdeg, Hadj, (remaining_snoc sorted c n) by done. split.
    + intros [[? ?]|[Hpos ?]]; [split; [done|lia]|]. split; [|lia].
      apply cnt_pos in Hpos. apply elem_of_depsOf in Hpos as (m & Hm & <- & _).
      apply list_elem_of_fmap. eauto.
    + intros [? ?]. destruct (decide (cnt c (depsOf ns n) = 0)); [left|right]; split; try done; lia.
  - apply topo_sorted_snoc; [done|]. by apply remaining_0.
Qed.

Lemma KahnInv_length deg queue sorted :
  KahnInv deg queue sorted → length sorted + length queue ≤ length ns.
Proof.
  intros [_ Hnd Hmem _]. rewrite <- length_app, <- (length_fmap nodeId ns). fold (ids ns).
  apply submseteq_length. apply NoDup_submseteq; [done|]. intros n Hn. by apply Hmem in Hn as [].
Qed.

Lemma kahnLoop_spec fuel deg queue sorted :
  KahnInv deg queue sorted → length ns < length sorted + fuel →
  ∃ deg' result, kahnLoop fuel adj deg queue sorted = Some result ∧ KahnInv deg' [] result.
Proof.
  revert deg queue sorted. induction fuel as [|fuel IH]; intros deg queue sorted Hinv Hf; simpl.
  - pose proof (KahnInv_length _ _ _ Hinv). lia.
  - destruct queue as [|c queue]; [by eexists _, _|].
    destruct (KahnInv_step _ _ _ _ Hinv) as (deg' & queue' & -> & Hinv').
    apply (IH deg' queue' (sorted ++ [c])); [done|]. rewrite length_app. simpl. lia.
Qed.
End Kahn.

(** ** Cycles *)

Lemma walk_tail {A} (E : A → A → Prop) x l : walk E (x :: l) → l ≠ [] → walk E l.
Proof. by inversion 1. Qed.

Lemma walk_snoc {A} (E : A → A → Prop) l a b : walk E (l ++ [a]) → E a b → walk E (l ++ [a; b]).
Proof.
  induction l as [|x l IH]; simpl; intros Hw Hab.
  - constructor; [done|constructor].
  - assert (walk E (l ++ [a; b])) as IH'.
    { apply IH; [|done]. eapply walk_tail; [done|]. by destruct l. }
    destruct l as [|z l]; simpl in *; inversion Hw; subst; by constructor.
Qed.

Lemma walk_drop {A} (E : A → A → Prop) l k : walk E (l ++ k) → k ≠ [] → walk E k.
Proof.
  induction l as [|x l IH]; simpl; [done|]. intros Hw Hk.
  apply IH; [|done]. eapply walk_tail; [done|]. by destruct l, k.
Qed.

Lemma drop_indexOf (x : string) l :
  x ∈ l → ∃ l2, drop (indexOf x l) l = x :: l2 ∧ ∃ l1, l = l1 ++ x :: l2.
Proof.
  induction l as [|y l IH]; [by intros ?%elem_of_nil|]. simpl. case_decide as E.
  - intros _. subst. exists l. split; [done|]. by exists [].
  - intros [?|Hin]%elem_of_cons; [done|]. destruct (IH Hin) as (l2 & E2 & l1 & ->).
    exists l2. split; [done|]. by exists (y :: l1).
Qed.

Section Dfs.
Variable ns : list GraphNode.
Variable unvisited : list string.
Variable depMap : jsmap string (list string).
Hypothesis Hdeps : ∀ x, x ∈ unvisited →
  ∃ d ds, mget depMap x = Some (d :: ds) ∧ edge ns x d ∧ d ∈ unvisited.

Lemma dfs_finds_cycle fuel id st :
  id ∈ unvisited → id ∉ stack st →
  (∀ x, x ∈ stack st → x ∈ unvisited) → NoDup (stack st) →
  (∀ x, x ∈ onStack st ↔ x ∈ stack st) → (∀ x, x ∈ visitedInDfs st ↔ x ∈ stack st) →
  walk (edge ns) (stack st ++ [id]) →
  length unvisited < length (stack st) + fuel →
  ∃ c, dfs fuel depMap id st = DfsCycle c ∧ is_cycle ns c.
Proof.
  revert id st. induction fuel as [|fuel IH]; intros id st Hid Hns Hsub Hnd Hon Hvis Hwalk Hfuel.
  { exfalso. assert (length (stack st) ≤ length unvisited); [|lia].
    apply submseteq_length. by apply NoDup_submseteq. }
  destruct (Hdeps id Hid) as (d & ds & Hget & Hedge & Hd). simpl. rewrite Hget. simpl.
  case_bool_decide as Hin.
  - eexists. split; [done|].
    assert (d ∈ stack st ++ [id]) as Hd' by set_solver.
    destruct (drop_indexOf d _ Hd') as (l2 & -> & l1 & E).
    exists d, l2. split; [done|].
    assert (walk (edge ns) ((stack st ++ [id]) ++ [d])) as Hw.
    { rewrite <- app_assoc. simpl. by apply walk_snoc. }
    rewrite E, <- app_assoc in Hw. by apply walk_drop in Hw.
  - rewrite bool_decide_eq_false_2 by set_solver.
    destruct (IH d (enter id st)) as (c & -> & Hc); simpl; try done.
    + set_solver.
    + set_solver.
    + apply NoDup_app. split_and!; [done|set_solver|apply NoDup_singleton].
    + set_solver.
    + set_solver.
    + rewrite <- app_assoc. simpl. by apply walk_snoc.
    + rewrite length_app. simpl. lia.
    + eauto.
Qed.
End Dfs.

Lemma mget_cycleDepMap sorted ns n :
  NoDup (ids ns) → n ∈ ns → nodeId n ∉ sorted →
  mget (cycleDepMap sorted ns) (nodeId n) = Some (filter (fun d => d ∉ sorted) (dependsOn n)).
Proof.
  intros Hnd Hn Hs. unfold cycleDepMap.
  rewrite (foldl_mset_const (λ n, filter (fun d => d ∉ sorted) (dependsOn n))).
  destruct (last _) as [m|] eqn:E.
  - apply last_Some_elem_of in E. apply list_elem_of_filter in E as [Em [_ Hm]%list_elem_of_filter].
    by rewrite <- (depsOf_node ns m), <- (depsOf_node ns n), Em.
  - apply last_None in E. exfalso.
    assert (n ∈ filter (fun m => nodeId m = nodeId n) (unvisitedNodes sorted ns)) as H.
    { apply list_elem_of_filter. split; [done|]. by apply list_elem_of_filter. }
    rewrite E in H. by apply elem_of_nil in H.
Qed.

Lemma traceCycle_spec ns sorted first rest :
  NoDup (ids ns) → refs_exist ns →
  (∀ n, n ∈ ids ns → remaining ns sorted n = 0 → n ∈ sorted) →
  unvisitedNodes sorted ns = first :: rest →
  ∃ c, traceCycle (S (length ns)) (nodeId first) (cycleDepMap sorted ns) = Some c ∧ is_cycle ns c.
Proof.
  intros Hnd Hrefs Hmem Hu.
  set (U := filter (fun x => x ∉ sorted) (ids ns)).
  destruct (dfs_finds_cycle ns U (cycleDepMap sorted ns)) with
    (fuel := S (length ns)) (id := nodeId first)
    (st := {| stack := []; onStack := []; visitedInDfs := [] |}) as (c & E & Hc); simpl; try done.
  - intros x [Hx Hin]%list_elem_of_filter.
    apply list_elem_of_fmap in Hin as (n & -> & Hn).
    assert (remaining ns sorted (nodeId n) ≠ 0) as Hr.
    { intros E. apply Hx, Hmem; [|done]. apply list_elem_of_fmap. eauto. }
    unfold remaining in Hr. rewrite depsOf_node in Hr by done.
    rewrite mget_cycleDepMap by done.
    destruct (filter _ (dependsOn n)) as [|d ds] eqn:E; [done|].
    assert (d ∈ filter (fun d => d ∉ sorted) (dependsOn n)) as [Hds Hd]%list_elem_of_filter
      by (rewrite E; left).
    exists d, ds. split_and!; [done| |].
    + unfold edge. by rewrite depsOf_node.
    + apply list_elem_of_filter. split; [done|]. by apply (Hrefs n).
  - assert (first ∈ unvisitedNodes sorted ns) as [??]%list_elem_of_filter by (rewrite Hu; left).
    apply list_elem_of_filter. split; [done|]. apply list_elem_of_fmap. eauto.
  - apply not_elem_of_nil.
  - by intros x ?%elem_of_nil.
  - constructor.
  - constructor.
  - assert (length U ≤ length (ids ns)) as H by apply length_filter.
    unfold ids in H. rewrite length_fmap in H. lia.
  - exists c. unfold traceCycle. by rewrite E.
Qed.

(** ** The sort as a whole *)

(** What each result of [topologicalSort] means. *)
Inductive SortOutcome (ns : list GraphNode) : Result (list string) GraphValidationError → Prop :=
| so_ok order :
    NoDup (ids ns) → refs_exist ns → order ≡ₚ ids ns → topo_sorted ns order →
    SortOutcome ns (Ok order)
| so_duplicate id m :
    ¬ NoDup (ids ns) →
    SortOutcome ns (Err {| kind := KDuplicateNodeId; errNodes := [id]; message := m |})
| so_self id m :
    edge ns id id →
    SortOutcome ns (Err {| kind := KSelfDependency; errNodes := [id]; message := m |})
| so_missing id dep m :
    edge ns id dep → dep ∉ ids ns →
    SortOutcome ns (Err {| kind := KMissingDependency; errNodes := [id; dep]; message := m |})
| so_cycle c m :
    is_cycle ns c → SortOutcome ns (Err {| kind := KCycle; errNodes := c; message := m |}).

Lemma topologicalSort_outcome ns : ∃ r, topologicalSort ns = Some r ∧ SortOutcome ns r.
Proof.
  unfold topologicalSort.
  destruct (findDuplicate [] ns) eqn:Ed.
  { eexists. split; [done|]. constructor. by eapply findDuplicate_Some. }
  destruct (findSelfDep ns) eqn:Es.
  { eexists. split; [done|]. constructor.
    apply findSelfDep_Some in Es as (n & ? & ? & ?). apply elem_of_depsOf. eauto. }
  destruct (findMissingDep (ids ns) ns) as [[id dep]|] eqn:Em.
  { eexists. split; [done|]. apply findMissingDep_Some in Em as (n & ? & ? & ? & ?).
    constructor; [|done]. apply elem_of_depsOf. eauto. }
  apply findDuplicate_None in Ed as [Hnd _]. rewrite findMissingDep_None in Em.
  pose proof (buildEdges_spec ns Hnd) as Hb. destruct (buildEdges ns) as [adj deg].
  destruct Hb as (Hadj & Hdeg & Hkeys).
  assert (∀ n, remaining ns [] n = length (depsOf ns n)) as Hrem.
  { intros n. unfold remaining. f_equal. apply list_filter_all. intros. by apply not_elem_of_nil. }
  destruct (kahnLoop_spec ns adj Hadj (S (length ns)) deg (initialQueue deg) [])
    as (deg' & sorted & -> & [_ Hsnd Hmem Htopo]); [split|simpl; lia|].
  - intros n. by rewrite Hdeg, Hrem.
  - simpl. apply NoDup_initialQueue. by rewrite Hkeys.
  - intros n. simpl. rewrite elem_of_initialQueue, Hkeys, Hdeg, Hrem by (by rewrite Hkeys).
    split; intros [? ?]; (split; [done|lia]).
  - intros l1 x l2 E. by destruct l1.
  - rewrite app_nil_r in *.
    assert (sorted ⊆+ ids ns) as Hsub.
    { apply NoDup_submseteq; [done|]. intros n Hn. by apply Hmem in Hn as []. }
    destruct (Nat.ltb_spec (length sorted) (length ns)) as [Hlt|Hge].
    + destruct (unvisitedNodes sorted ns) as [|first rest] eqn:Eu.
      * exfalso. assert (ids ns ⊆+ sorted) as H.
        { apply NoDup_submseteq; [done|]. intros x Hx.
          destruct (decide (x ∈ sorted)); [done|]. exfalso.
          apply list_elem_of_fmap in Hx as (m & -> & Hm).
          assert (m ∈ unvisitedNodes sorted ns) as Hu by by apply list_elem_of_filter.
          rewrite Eu in Hu. by apply elem_of_nil in Hu. }
        apply submseteq_length in H. unfold ids in H. rewrite length_fmap in H. lia.
      * destruct (traceCycle_spec ns sorted first rest) as (c & -> & Hc); [done|done| |done|].
        { intros n Hn Hr. by apply Hmem. }
        eexists. split; [done|]. by constructor.
    + eexists. split; [done|]. constructor; [done|done| |done].
      apply submseteq_length_Permutation; [done|]. unfold ids. rewrite length_fmap. lia.
Qed.

Lemma walk_goes_back ns order l1 l2 x w :
  topo_sorted ns order → order = l1 ++ x :: l2 → walk (edge ns) (x :: w) →
  ∀ z, last w = Some z → z ∈ l1.
Proof.
  intros Ht. revert l1 l2 x. induction w as [|y w IH]; intros l1 l2 x E Hw z Hz; [done|].
  inversion Hw as [|? ? ? Hxy Hw']; subst.
  assert (y ∈ l1) as Hy by (by eapply Ht).
  destruct w as [|y' w]; [by simplify_eq/=|].
  apply list_elem_of_split in Hy as (a & b & ->).
  assert (z ∈ a); [|set_solver].
  eapply (IH a (b ++ x :: l2) y); [by rewrite <- app_assoc|done|done].
Qed.

Lemma topo_sorted_acyclic ns order :
  NoDup order → order ≡ₚ ids ns → topo_sorted ns order → acyclic ns.
Proof.
  intros Hnd Hp Ht c (x & mid & -> & Hw).
  assert (x ∈ order) as Hx.
  { rewrite Hp. inversion Hw as [|? y ? Hxy]; [by destruct mid|]. subst.
    apply elem_of_depsOf in Hxy as (n & Hn & <- & _). apply list_elem_of_fmap. eauto. }
  apply list_elem_of_split in Hx as (l1 & l2 & E).
  assert (x ∈ l1) as Hin.
  { eapply walk_goes_back; [done..|]. by rewrite last_snoc. }
  subst. apply NoDup_app in Hnd as (_ & H & _). apply (H x Hin). left.
Qed.

Lemma validateAndSortGraph_facts (g : Graph) (v : ValidatedGraph) :
  validateAndSortGraph g = Some (Ok v) →
  graph v = g ∧ NoDup (ids (nodes g)) ∧ refs_exist (nodes g) ∧
  executionOrder v ≡ₚ ids (nodes g) ∧ topo_sorted (nodes g) (executionOrder v).
Proof.
  unfold validateAndSortGraph.
  destruct (topologicalSort_outcome (nodes g)) as (r & -> & Ho).
  destruct Ho; intros; simplify_eq; simpl. done.
Qed.

(** a graph that validation accepts comes back unchanged with an execution
    order that lists every node id exactly once and puts every dependency
    before the nodes that depend on it. *)
Theorem validateAndSortGraph_sound (g : Graph) (v : ValidatedGraph) :
  validateAndSortGraph g = Some (Ok v) →
  graph v = g ∧ NoDup (executionOrder v) ∧ executionOrder v ≡ₚ ids (nodes g) ∧
  topo_sorted (nodes g) (executionOrder v).
Proof.
  intros (-> & Hnd & _ & Hp & Ht)%validateAndSortGraph_facts.
  split_and!; [done|by rewrite Hp|done|done].
Qed.

(** C34: validation accepts a node list exactly when the ids are distinct, every
    dependency names a node, and the dependency relation has no cycle: no valid
    graph is rejected and no cyclic one is run. *)
Theorem topologicalSort_accepts_iff (ns : list GraphNode) :
  (∃ order, topologicalSort ns = Some (Ok order)) ↔
  NoDup (ids ns) ∧ refs_exist ns ∧ acyclic ns.
Proof.
  destruct (topologicalSort_outcome ns) as (r & -> & Ho). split.
  - intros [order ?]. inversion Ho; simplify_eq. split_and!; [done|done|].
    eapply topo_sorted_acyclic; [|done|done]. match goal with H : _ ≡ₚ _ |- _ => by rewrite H end.
  - intros (Hnd & Hrefs & Hac). destruct Ho as [order| |id m He|id dep m He Hd|c m Hc]; [eauto|..].
    + done.
    + destruct (Hac [id; id]). exists id, []. split; [done|]. constructor; [done|constructor].
    + destruct Hd. by eapply refs_exist_depsOf.
    + by destruct (Hac c).
Qed.

(** the sort returns on every input, within its fuel, and each error says
    what is wrong: a duplicate id, a node that depends on itself, a dependency
    that names no node, or a list of ids that is a closed walk along
    dependencies. *)
Theorem topologicalSort_total (ns : list GraphNode) :
  ∃ r, topologicalSort ns = Some r ∧ SortOutcome ns r.
Proof. apply topologicalSort_outcome. Qed.

(** ** A sample graph *)

Definition sampleNode (id : string) (deps : list string) (mode : BarrierMode) (r : Z) : GraphNode :=
  {| nodeId := id; task := "task"; nAgentId := None; model := None; dependsOn := deps;
     timeoutMs := None; maxSteps := None; tokenBudget := None; barrierMode := mode;
     retries := r; contextMode := CFull; mcpServers := []; typeId := None; typeConfig := None |}.

Definition sampleGraph (ns : list GraphNode) (f : OnFailure) : Graph :=
  {| nodes := ns; label := None; onFailure := f; gTimeoutMs := 1500000%Z; budget := None |}.

Definition diamond : Graph :=
  sampleGraph [sampleNode "d" ["b"; "c"] BAll 0; sampleNode "b" ["a"] BAll 0;
               sampleNode "c" ["a"] BAll 0; sampleNode "a" [] BAll 1] FailFast.

Lemma validateAndSortGraph_sound_witness :
  ∃ v, validateAndSortGraph diamond = Some (Ok v) ∧ executionOrder v = ["a"; "b"; "c"; "d"] ∧
       topo_sorted (nodes diamond) (executionOrder v).
Proof.
  eexists. split; [vm_compute; reflexivity|]. split; [reflexivity|].
  eapply (validateAndSortGraph_sound diamond). vm_compute. reflexivity.
Defined.

End ExecutionGraph.
