(* ===== verification/GraphStateMachine.v ===== *)
(** The graph execution state machine.

    Models [packages/daemon/src/graph/graph-state-machine.ts]: the per-node
    lifecycle, the barrier tests, the failure cascade and the public operations
    of the machine built by [createGraphStateMachine] and restored by
    [restoreGraphStateMachine].

    The closure's [nodeStates] map is the state: an insertion-ordered map from
    node id to [NodeExecutionState].  The lookup maps the closure builds once
    from the graph are functions of the graph.  [systemNowMs()] is read once per
    stamped node: an operation that stamps several nodes takes the reading of
    each as a function [now] of the node id.  The cascade's work list takes
    fuel, and [cascadeFailure_total] shows that it never runs out. *)

From S2P Require Import Prelude ConversationScope ExecutionGraph.
Import ExecutionGraph.
Open Scope string_scope.
Open Scope list_scope.
Open Scope nat_scope.

Module GraphStateMachine.

Abbreviation states := (jsmap string NodeExecutionState).

Record FailureResult := {
  skipped : list string;
  newlyReady : list string;
  retrying : list string;
}.

Record GraphExecutionSnapshot := {
  snapGraphStatus : GraphStatus;
  snapNodes : states;
  snapExecutionOrder : list string;
  snapIsTerminal : bool;
}.

(** ** Status transitions *)

Definition VALID_TRANSITIONS (from : NodeStatus) : list NodeStatus :=
  match from with
  | Pending => [Ready; Skipped]
  | Ready => [Running; Skipped]
  | Running => [Completed; Failed]
  | Completed | Failed | Skipped => []
  end.

Definition isValidTransition (from to : NodeStatus) : bool :=
  bool_decide (to ∈ VALID_TRANSITIONS from).

Definition NodeStatus_str (s : NodeStatus) : string :=
  match s with
  | Pending => "pending" | Ready => "ready" | Running => "running"
  | Completed => "completed" | Failed => "failed" | Skipped => "skipped"
  end.

(** Field updates of a node's execution state. *)

Definition setStatus (x : NodeStatus) (s : NodeExecutionState) : NodeExecutionState :=
  {| nsNodeId := nsNodeId s; status := x; runId := runId s; output := output s;
     error := error s; startedAt := startedAt s; completedAt := completedAt s;
     retryAttempt := retryAttempt s; retriesRemaining := retriesRemaining s;
     priorConversation := priorConversation s |}.

Definition setSkipped (now : Z) (s : NodeExecutionState) : NodeExecutionState :=
  {| nsNodeId := nsNodeId s; status := Skipped; runId := runId s; output := output s;
     error := error s; startedAt := startedAt s; completedAt := Some now;
     retryAttempt := retryAttempt s; retriesRemaining := retriesRemaining s;
     priorConversation := priorConversation s |}.

Definition setRunning (run : string) (now : Z) (s : NodeExecutionState) : NodeExecutionState :=
  {| nsNodeId := nsNodeId s; status := Running; runId := Some run; output := output s;
     error := error s; startedAt := Some now; completedAt := completedAt s;
     retryAttempt := retryAttempt s; retriesRemaining := retriesRemaining s;
     priorConversation := priorConversation s |}.

Definition setCompleted (out : option string) (now : Z) (s : NodeExecutionState)
  : NodeExecutionState :=
  {| nsNodeId := nsNodeId s; status := Completed; runId := runId s; output := out;
     error := None; startedAt := startedAt s; completedAt := Some now;
     retryAttempt := retryAttempt s; retriesRemaining := retriesRemaining s;
     priorConversation := None |}.

Definition setRetry (err : string) (prior : option ConversationScope.Locator)
    (s : NodeExecutionState) : NodeExecutionState :=
  {| nsNodeId := nsNodeId s; status := Ready; runId := None; output := output s;
     error := Some err; startedAt := None; completedAt := None;
     retryAttempt := Some (default 0 (retryAttempt s) + 1)%Z;
     retriesRemaining := Some (default 0 (retriesRemaining s) - 1)%Z;
     priorConversation :=
       match prior with Some _ => prior | None => priorConversation s end |}.

Definition setFailed (err : string) (now : Z) (s : NodeExecutionState) : NodeExecutionState :=
  {| nsNodeId := nsNodeId s; status := Failed; runId := runId s; output := output s;
     error := Some err; startedAt := startedAt s; completedAt := Some now;
     retryAttempt := retryAttempt s; retriesRemaining := retriesRemaining s;
     priorConversation := None |}.

(** The reset of an attempt that was interrupted while running. *)
Definition resetInterrupted (s : NodeExecutionState) : NodeExecutionState :=
  if bool_decide (status s = Running) then
    {| nsNodeId := nsNodeId s; status := Ready; runId := None; output := output s;
       error := error s; startedAt := None; completedAt := None;
       retryAttempt := retryAttempt s; retriesRemaining := retriesRemaining s;
       priorConversation := priorConversation s |}
  else s.

(** ** Construction *)

Definition initialState (n : GraphNode) : NodeExecutionState :=
  {| nsNodeId := nodeId n;
     status := if bool_decide (length (dependsOn n) = 0) then Ready else Pending;
     runId := None; output := None; error := None; startedAt := None; completedAt := None;
     retryAttempt := Some 0%Z; retriesRemaining := Some (retries n); priorConversation := None |}.

Definition createGraphStateMachineFromState (v : ValidatedGraph) (restored : option states)
  : states :=
  foldl (fun m n =>
           mset m (nodeId n)
             match restored with
             | Some r => default (initialState n) (mget r (nodeId n))
             | None => initialState n
             end) [] (nodes (graph v)).

Definition createGraphStateMachine (v : ValidatedGraph) : states :=
  createGraphStateMachineFromState v None.

Fixpoint restoreLoop (graphIds : list string) (persisted : list NodeExecutionState)
    (restored : states) : Result states string :=
  match persisted with
  | [] => Ok restored
  | p :: persisted' =>
      if negb (bool_decide (nsNodeId p ∈ graphIds)) || mhas restored (nsNodeId p) then
        Err "Persisted graph node state does not match the submitted graph"
      else
        restoreLoop graphIds persisted'
          (mset restored (nsNodeId (resetInterrupted p)) (resetInterrupted p))
  end.

Definition restoreGraphStateMachine (v : ValidatedGraph) (persisted : list NodeExecutionState)
  : Result states string :=
  let graphIds := remove_dups (ids (nodes (graph v))) in
  match restoreLoop graphIds persisted [] with
  | Err e => Err e
  | Ok restored =>
      if bool_decide (length restored ≠ length graphIds) then
        Err "Persisted graph node state does not cover the submitted graph"
      else Ok (createGraphStateMachineFromState v (Some restored))
  end.

(** ** Lookup maps of the closure *)

Definition dependsOnMap (v : ValidatedGraph) : jsmap string (list string) :=
  foldl (fun m n => mset m (nodeId n) (dependsOn n)) [] (nodes (graph v)).

Definition dependentsMap (v : ValidatedGraph) : jsmap string (list string) :=
  foldl (fun m n =>
           foldl (fun m dep => mset m dep (dget m dep ++ [nodeId n])) m (dependsOn n))
        (foldl (fun m n => mset m (nodeId n) []) [] (nodes (graph v)))
        (nodes (graph v)).

Definition barrierModeMap (v : ValidatedGraph) : jsmap string BarrierMode :=
  foldl (fun m n => mset m (nodeId n) (barrierMode n)) [] (nodes (graph v)).

Definition depsOfNode (v : ValidatedGraph) (id : string) : list string :=
  dget (dependsOnMap v) id.

Definition dependentsOf (v : ValidatedGraph) (id : string) : list string :=
  dget (dependentsMap v) id.

Definition modeOf (v : ValidatedGraph) (id : string) : BarrierMode :=
  default BAll (mget (barrierModeMap v) id).

(** ** Barriers *)

Definition stat (st : states) (id : string) : option NodeStatus := status <$> mget st id.

Definition hasFailedOrSkippedDep (v : ValidatedGraph) (st : states) (id : string) : bool :=
  existsb (fun d => match stat st d with
                    | Some Failed | Some Skipped => true
                    | _ => false
                    end) (depsOfNode v id).

Record DepCounts := { nCompleted : nat; nTerminal : nat; nTotal : nat }.

Definition countDep (st : states) (c : nat * nat) (d : string) : nat * nat :=
  match stat st d with
  | Some Completed => (S c.1, S c.2)
  | Some Failed | Some Skipped => (c.1, S c.2)
  | _ => c
  end.

Definition countDepStates (v : ValidatedGraph) (st : states) (id : string) : DepCounts :=
  let deps := depsOfNode v id in
  let c := foldl (countDep st) (0, 0) deps in
  {| nCompleted := c.1; nTerminal := c.2; nTotal := length deps |}.

Definition isBarrierSatisfied (v : ValidatedGraph) (st : states) (id : string)
    (mode : BarrierMode) : bool :=
  let c := countDepStates v st id in
  if nTotal c =? 0 then true
  else match mode with
       | BAll => nCompleted c =? nTotal c
       | BMajority => (nTerminal c =? nTotal c) && (nTotal c <? 2 * nCompleted c)
       | BBestEffort => (nTerminal c =? nTotal c) && (1 <=? nCompleted c)
       end.

Definition countPossible (st : states) (c : nat * nat) (d : string) : nat * nat :=
  match stat st d with
  | Some Completed => (S c.1, c.2)
  | Some Pending | Some Ready | Some Running => (c.1, S c.2)
  | _ => c
  end.

Definition isBarrierUnsatisfiable (v : ValidatedGraph) (st : states) (id : string)
    (mode : BarrierMode) : bool :=
  let deps := depsOfNode v id in
  let c := foldl (countPossible st) (0, 0) deps in
  let maxPossibleCompleted := c.1 + c.2 in
  match mode with
  | BAll => maxPossibleCompleted <? length deps
  | BMajority => 2 * maxPossibleCompleted <=? length deps
  | BBestEffort => maxPossibleCompleted =? 0
  end.

(** ** The failure cascade *)

Definition pendingOrReady (s : NodeExecutionState) : bool :=
  bool_decide (status s = Pending) || bool_decide (status s = Ready).

Definition pushDependents (v : ValidatedGraph) (id : string) (queue visited : list string)
  : list string :=
  queue ++ filter (fun next => next ∉ visited) (dependentsOf v id).

Fixpoint cascadeLoop (fuel : nat) (v : ValidatedGraph) (now : string → Z)
    (queue visited : list string) (st : states) (skp rdy : list string)
  : option (FailureResult * states) :=
  match fuel with
  | O => None
  | S fuel' =>
      match queue with
      | [] => Some ({| skipped := skp; newlyReady := rdy; retrying := [] |}, st)
      | id :: queue' =>
          if bool_decide (id ∈ visited) then cascadeLoop fuel' v now queue' visited st skp rdy
          else
            let visited' := id :: visited in
            match mget st id with
            | None => cascadeLoop fuel' v now queue' visited' st skp rdy
            | Some s =>
                if negb (pendingOrReady s) then
                  cascadeLoop fuel' v now queue' visited' st skp rdy
                else
                  let mode := modeOf v id in
                  let skip :=
                    cascadeLoop fuel' v now (pushDependents v id queue' visited') visited'
                      (mset st id (setSkipped (now id) s)) (skp ++ [id]) rdy in
                  match onFailure (graph v) with
                  | FailFast =>
                      if hasFailedOrSkippedDep v st id then skip
                      else cascadeLoop fuel' v now queue' visited' st skp rdy
                  | Continue =>
                      if isBarrierUnsatisfiable v st id mode then skip
                      else if isBarrierSatisfied v st id mode then
                        cascadeLoop fuel' v now queue' visited'
                          (mset st id (setStatus Ready s)) skp (rdy ++ [id])
                      else cascadeLoop fuel' v now queue' visited' st skp rdy
                  end
            end
      end
  end.

(** Enough fuel: every entry of the work list is a dependent of the start node
    or of a node visited once. *)
Definition cascadeFuel (v : ValidatedGraph) (start : string) : nat :=
  S (length (dependentsOf v start) +
     sum_list ((fun n => length (dependentsOf v n)) <$> ids (nodes (graph v)))).

Definition cascadeFailure (v : ValidatedGraph) (now : string → Z) (st : states) (start : string)
  : option (FailureResult * states) :=
  cascadeLoop (cascadeFuel v start) v now (dependentsOf v start) [] st [] [].

(** ** Barrier evaluation *)

Fixpoint evaluateBarriersLoop (v : ValidatedGraph) (dependents : list string) (st : states)
  : list string * states :=
  match dependents with
  | [] => ([], st)
  | d :: dependents' =>
      match mget st d with
      | Some s =>
          if bool_decide (status s = Pending) && isBarrierSatisfied v st d (modeOf v d) then
            let '(rdy, st') := evaluateBarriersLoop v dependents' (mset st d (setStatus Ready s)) in
            (d :: rdy, st')
          else evaluateBarriersLoop v dependents' st
      | None => evaluateBarriersLoop v dependents' st
      end
  end.

Definition evaluateBarriers (v : ValidatedGraph) (st : states) (trigger : string)
  : list string * states :=
  evaluateBarriersLoop v (dependentsOf v trigger) st.

(** ** Graph status *)

Definition isActive (s : NodeStatus) : bool :=
  match s with Pending | Ready | Running => true | _ => false end.

Definition computeGraphStatus (st : states) : GraphStatus :=
  let hasActive := existsb (fun p => isActive (status p.2)) st in
  let hasCompleted := existsb (fun p => bool_decide (status p.2 = Completed)) st in
  if hasActive then GRunning else if hasCompleted then GCompleted else GFailed.

Definition computeIsTerminal (st : states) : bool :=
  forallb (fun p => negb (isActive (status p.2))) st.

(** ** Public operations *)

Definition notFound (id : string) : string := "Node " +:+ quoted id +:+ " not found".

Definition badTransition (id : string) (from to : NodeStatus) : string :=
  "Cannot transition node " +:+ quoted id +:+ " from " +:+ quoted (NodeStatus_str from) +:+
  " to " +:+ quoted (NodeStatus_str to).

Definition markNodeRunning (st : states) (id run : string) (now : Z)
  : Result unit string * states :=
  match mget st id with
  | None => (Err (notFound id), st)
  | Some s =>
      if isValidTransition (status s) Running then
        (Ok tt, mset st id (setRunning run now s))
      else (Err (badTransition id (status s) Running), st)
  end.

Definition markNodeCompleted (v : ValidatedGraph) (st : states) (id : string)
    (out : option string) (now : Z) : Result (list string) string * states :=
  match mget st id with
  | None => (Err (notFound id), st)
  | Some s =>
      if isValidTransition (status s) Completed then
        let '(rdy, st') := evaluateBarriers v (mset st id (setCompleted out now s)) id in
        (Ok rdy, st')
      else (Err (badTransition id (status s) Completed), st)
  end.

(** The merge of the two ready lists, without duplicates. *)
Fixpoint mergeReady (acc : list string) (more : list string) : list string :=
  match more with
  | [] => acc
  | id :: more' => mergeReady (if bool_decide (id ∈ acc) then acc else acc ++ [id]) more'
  end.

Definition markNodeFailed (v : ValidatedGraph) (st : states) (id err : string)
    (prior : option ConversationScope.Locator) (terminal : bool) (now : string → Z)
  : option (Result FailureResult string * states) :=
  match mget st id with
  | None => Some (Err (notFound id), st)
  | Some s =>
      if isValidTransition (status s) Failed then
        if bool_decide (0 < default 0 (retriesRemaining s))%Z && negb terminal then
          Some (Ok {| skipped := []; newlyReady := []; retrying := [id] |},
                mset st id (setRetry err prior s))
        else
          match cascadeFailure v now (mset st id (setFailed err (now id) s)) id with
          | None => None
          | Some (res, st1) =>
              let '(barrierReady, st2) := evaluateBarriers v st1 id in
              Some (Ok {| skipped := skipped res;
                          newlyReady := mergeReady (newlyReady res) barrierReady;
                          retrying := [] |}, st2)
          end
      else Some (Err (badTransition id (status s) Failed), st)
  end.

Definition getNodeState (st : states) (id : string) : option NodeExecutionState := mget st id.

Definition getReadyNodes (st : states) : list string :=
  (fun p => nsNodeId p.2) <$> filter (fun p => status p.2 = Ready) st.

Definition snapshot (v : ValidatedGraph) (st : states) : GraphExecutionSnapshot :=
  {| snapGraphStatus := computeGraphStatus st; snapNodes := st;
     snapExecutionOrder := executionOrder v; snapIsTerminal := computeIsTerminal st |}.

Definition cancelEntry (now : string → Z) (p : string * NodeExecutionState)
  : string * NodeExecutionState :=
  if pendingOrReady p.2 then (p.1, setSkipped (now p.1) p.2) else p.

Definition cancel (st : states) (now : string → Z) : list string * states :=
  ((fun p => nsNodeId p.2) <$> filter (fun p => pendingOrReady p.2 = true) st,
   cancelEntry now <$> st).

(** ** Lookup maps, specified *)

(** A graph as [validateAndSortGraph] returns it. *)
Definition Valid (v : ValidatedGraph) : Prop :=
  ∃ g, validateAndSortGraph g = Some (Ok v).

Abbreviation gnodes v := (nodes (graph v)).

Lemma Valid_facts v :
  Valid v →
  NoDup (ids (gnodes v)) ∧ refs_exist (gnodes v) ∧ executionOrder v ≡ₚ ids (gnodes v) ∧
  topo_sorted (gnodes v) (executionOrder v).
Proof. intros [g (<- & ? & ? & ? & ?)%validateAndSortGraph_facts]. done. Qed.

Lemma filter_ids_unique ns n :
  NoDup (ids ns) → n ∈ ns → filter (fun m => nodeId m = nodeId n) ns = [n].
Proof.
  induction ns as [|m ns IH]; [by intros _ ?%elem_of_nil|].
  intros [Hm Hnd]%NoDup_cons [->|Hin]%elem_of_cons; rewrite filter_cons.
  - rewrite decide_True by done. f_equal.
    destruct (filter _ ns) as [|k l] eqn:E; [done|]. exfalso.
    assert (k ∈ filter (fun m0 => nodeId m0 = nodeId m) ns) as [Hk ?]%list_elem_of_filter
      by (rewrite E; left).
    apply Hm. rewrite <- Hk. apply list_elem_of_fmap. eauto.
  - rewrite decide_False; [by apply IH|]. intros E. apply Hm. rewrite E.
    apply list_elem_of_fmap. eauto.
Qed.

Lemma mget_foldl_node {V} (f : GraphNode → V) ns n :
  NoDup (ids ns) → n ∈ ns →
  mget (foldl (fun m n => mset m (nodeId n) (f n)) [] ns) (nodeId n) = Some (f n).
Proof. intros. rewrite foldl_mset_const, filter_ids_unique by done. done. Qed.

Lemma mget_foldl_none {V} (f : GraphNode → V) ns x :
  x ∉ ids ns → mget (foldl (fun m n => mset m (nodeId n) (f n)) [] ns) x = None.
Proof.
  intros Hx. rewrite foldl_mset_const. destruct (last _) as [n|] eqn:E; [|done].
  apply last_Some_elem_of, list_elem_of_filter in E as [<- Hn]. destruct Hx.
  apply list_elem_of_fmap. eauto.
Qed.

Lemma depsOfNode_spec v id :
  NoDup (ids (gnodes v)) → depsOfNode v id = depsOf (gnodes v) id.
Proof.
  intros Hnd. unfold depsOfNode, dependsOnMap.
  destruct (decide (id ∈ ids (gnodes v))) as [Hin|Hin].
  - apply list_elem_of_fmap in Hin as (n & -> & Hn).
    by rewrite mget_foldl_node, depsOf_node by done.
  - by rewrite mget_foldl_none, depsOf_notin by done.
Qed.

Lemma dependentsMap_edges v : dependentsMap v = (buildEdges (gnodes v)).1.
Proof.
  unfold dependentsMap, buildEdges, initAdjacency.
  generalize (foldl (λ (adj : jsmap string (list string)) n, mset adj (nodeId n) []) [] (gnodes v)) as a.
  generalize (initInDegree (gnodes v)) as deg. generalize (gnodes v) as ns.
  induction ns as [|n ns IH]; intros deg a; simpl; [done|].
  assert (∀ deps (a : jsmap string (list string)) deg, ∃ deg',
    foldl (addEdge (nodeId n)) (a, deg) deps =
    (foldl (λ m dep, mset m dep (dget m dep ++ [nodeId n])) a deps, deg')) as H.
  { induction deps as [|d deps IHd]; intros a' deg'; simpl; [by eexists|]. apply IHd. }
  destruct (H (dependsOn n) a deg) as [deg' ->]. apply IH.
Qed.

Lemma elem_of_dependentsOf v n d :
  NoDup (ids (gnodes v)) → n ∈ dependentsOf v d ↔ d ∈ depsOf (gnodes v) n.
Proof.
  intros Hnd. unfold dependentsOf. rewrite dependentsMap_edges.
  pose proof (buildEdges_spec (gnodes v) Hnd) as Hb.
  destruct (buildEdges (gnodes v)) as [adj deg]. destruct Hb as (Hadj & _ & _).
  simpl. by rewrite <- !cnt_pos, Hadj.
Qed.

Lemma dependentsOf_notin v d :
  NoDup (ids (gnodes v)) → refs_exist (gnodes v) → d ∉ ids (gnodes v) → dependentsOf v d = [].
Proof.
  intros Hnd Hrefs Hd. destruct (dependentsOf v d) as [|n l] eqn:E; [done|]. exfalso.
  apply Hd. apply (refs_exist_depsOf _ n); [done|]. apply elem_of_dependentsOf; [done|].
  rewrite E. left.
Qed.

(** ** Statuses and counts *)

Definition terminal (o : option NodeStatus) : bool :=
  match o with Some Completed | Some Failed | Some Skipped => true | _ => false end.

(** What the counts see of a status: 2 for completed, 1 for failed or skipped. *)
Definition class (o : option NodeStatus) : nat :=
  match o with Some Completed => 2 | Some Failed | Some Skipped => 1 | _ => 0 end.

Lemma stat_mset st id s d :
  stat (mset st id s) d = if decide (d = id) then Some (status s) else stat st d.
Proof. unfold stat. rewrite mget_mset. by case_decide. Qed.

Lemma stat_Some st id x : stat st id = Some x ↔ ∃ s, mget st id = Some s ∧ status s = x.
Proof. unfold stat. destruct (mget st id); simpl; naive_solver. Qed.

Lemma stat_keys st id x : stat st id = Some x → id ∈ mkeys st.
Proof. intros (s & E & _)%stat_Some. apply mget_is_Some. by rewrite E. Qed.

Lemma class_ge_1 o : terminal o = true ↔ 1 ≤ class o.
Proof. destruct o as [[]|]; simpl; split; intros; done || lia. Qed.

Lemma foldl_countDep st l c :
  foldl (countDep st) c l =
  (c.1 + length (filter (fun d => class (stat st d) = 2) l),
   c.2 + length (filter (fun d => 1 ≤ class (stat st d)) l)).
Proof.
  revert c. induction l as [|d l IH]; intros [a b]; simpl; [f_equal; lia|].
  rewrite IH, !filter_cons. unfold countDep.
  destruct (stat st d) as [[]|]; simpl; repeat case_decide; simpl in *; f_equal; lia.
Qed.

Definition nComp v st id := length (filter (fun d => class (stat st d) = 2) (depsOfNode v id)).
Definition nTerm v st id := length (filter (fun d => 1 ≤ class (stat st d)) (depsOfNode v id)).

Lemma countDepStates_spec v st id :
  countDepStates v st id =
  {| nCompleted := nComp v st id; nTerminal := nTerm v st id;
     nTotal := length (depsOfNode v id) |}.
Proof. unfold countDepStates. by rewrite foldl_countDep. Qed.

(** Barrier tests read nothing but the classes of the dependencies. *)
Lemma isBarrierSatisfied_ext v st st' id mode :
  (∀ d, d ∈ depsOfNode v id → class (stat st' d) = class (stat st d)) →
  isBarrierSatisfied v st' id mode = isBarrierSatisfied v st id mode.
Proof.
  intros Hc. unfold isBarrierSatisfied. rewrite !countDepStates_spec.
  assert (nComp v st' id = nComp v st id) as ->.
  { unfold nComp. f_equal. apply filter_ext_in. intros d Hd. by rewrite Hc. }
  assert (nTerm v st' id = nTerm v st id) as ->; [|done].
  unfold nTerm. f_equal. apply filter_ext_in. intros d Hd. by rewrite Hc.
Qed.

Lemma hasFailedOrSkippedDep_spec v st id :
  hasFailedOrSkippedDep v st id = true ↔ ∃ d, d ∈ depsOfNode v id ∧ class (stat st d) = 1.
Proof.
  unfold hasFailedOrSkippedDep. rewrite existsb_exists. setoid_rewrite <- list_elem_of_In.
  split; intros (d & ? & ?); exists d; (split; [done|]); by destruct (stat st d) as [[]|].
Qed.

Lemma nComp_le_nTerm v st id : nComp v st id ≤ nTerm v st id.
Proof.
  unfold nComp, nTerm. induction (depsOfNode v id) as [|d l IH]; [done|].
  rewrite !filter_cons. repeat case_decide; simpl; lia.
Qed.

(** A satisfied barrier has every dependency in a terminal status. *)
Lemma isBarrierSatisfied_terminal v st id mode d :
  isBarrierSatisfied v st id mode = true → d ∈ depsOfNode v id → 1 ≤ class (stat st d).
Proof.
  unfold isBarrierSatisfied. rewrite countDepStates_spec. simpl. intros H Hd.
  assert (nTerm v st id = length (depsOfNode v id)) as E.
  { pose proof (nComp_le_nTerm v st id) as Hle.
    assert (nTerm v st id ≤ length (depsOfNode v id)) by apply length_filter.
    destruct (Nat.eqb_spec (length (depsOfNode v id)) 0); [lia|].
    destruct mode; [apply Nat.eqb_eq in H; lia|apply andb_prop in H as [H _]..];
      apply Nat.eqb_eq in H; lia. }
  unfold nTerm in E. rewrite length_filter_full in E. auto.
Qed.

(** If all dependencies completed, the barrier holds in every mode. *)
Lemma isBarrierSatisfied_all v st id mode :
  (∀ d, d ∈ depsOfNode v id → class (stat st d) = 2) → isBarrierSatisfied v st id mode = true.
Proof.
  intros H. unfold isBarrierSatisfied. rewrite countDepStates_spec. simpl.
  assert (nComp v st id = length (depsOfNode v id)) as Ec by by apply length_filter_full.
  assert (nTerm v st id = length (depsOfNode v id)) as Et.
  { apply length_filter_full. intros d Hd. rewrite (H d Hd). lia. }
  rewrite Ec, Et. destruct (Nat.eqb_spec (length (depsOfNode v id)) 0); [done|].
  destruct mode; rewrite ?Nat.eqb_refl, ?andb_true_l; [done|apply Nat.ltb_lt; lia|].
  by destruct (length (depsOfNode v id)).
Qed.

(** ** The abstract machine

    One node changes per step, and only along these rules.  Every public
    operation is a sequence of such steps, so an invariant of the rules is an
    invariant of the machine. *)

Inductive prim (v : ValidatedGraph) : states → states → Prop :=
| prim_skip st id s now :
    mget st id = Some s → pendingOrReady s = true →
    prim v st (mset st id (setSkipped now s))
| prim_ready st id s :
    mget st id = Some s → status s = Pending →
    isBarrierSatisfied v st id (modeOf v id) = true →
    prim v st (mset st id (setStatus Ready s))
| prim_run st id s run now :
    mget st id = Some s → status s = Ready →
    prim v st (mset st id (setRunning run now s))
| prim_complete st id s out now :
    mget st id = Some s → status s = Running →
    prim v st (mset st id (setCompleted out now s))
| prim_retry st id s err prior :
    mget st id = Some s → status s = Running → (0 < default 0 (retriesRemaining s))%Z →
    prim v st (mset st id (setRetry err prior s))
| prim_fail st id s err now :
    mget st id = Some s → status s = Running →
    prim v st (mset st id (setFailed err now s)).

Lemma isValidTransition_Running x : isValidTransition x Running = true → x = Ready.
Proof. unfold isValidTransition. destruct x; vm_compute; done. Qed.

Lemma isValidTransition_Completed x : isValidTransition x Completed = true → x = Running.
Proof. unfold isValidTransition. destruct x; vm_compute; done. Qed.

Lemma isValidTransition_Failed x : isValidTransition x Failed = true → x = Running.
Proof. unfold isValidTransition. destruct x; vm_compute; done. Qed.

Lemma pendingOrReady_spec s : pendingOrReady s = true ↔ status s = Pending ∨ status s = Ready.
Proof. unfold pendingOrReady. repeat case_bool_decide; naive_solver. Qed.

Lemma setStatus_id s : setStatus (status s) s = s.
Proof. by destruct s. Qed.

Lemma evaluateBarriersLoop_prim v l st : rtc (prim v) st (evaluateBarriersLoop v l st).2.
Proof.
  revert st. induction l as [|d l IH]; intros st; simpl; [done|].
  destruct (mget st d) as [s|] eqn:E; [|done].
  case_bool_decide as Hp; simpl; [|done]. destruct (isBarrierSatisfied _ _ _ _) eqn:Hb; [|done].
  specialize (IH (mset st d (setStatus Ready s))).
  destruct (evaluateBarriersLoop _ _ _) as [r st']. simpl in *.
  eapply rtc_l; [|exact IH]. by apply prim_ready.
Qed.

Lemma evaluateBarriers_prim v st id r st' :
  evaluateBarriers v st id = (r, st') → rtc (prim v) st st'.
Proof.
  unfold evaluateBarriers. intros E.
  by pose proof (evaluateBarriersLoop_prim v (dependentsOf v id) st) as H; rewrite E in H.
Qed.

Lemma cascadeLoop_prim fuel v now q vis st skp rdy res st' :
  cascadeLoop fuel v now q vis st skp rdy = Some (res, st') → rtc (prim v) st st'.
Proof.
  revert q vis st skp rdy. induction fuel as [|fuel IH]; intros q vis st skp rdy; simpl; [done|].
  destruct q as [|id q]; [intros; by simplify_eq|].
  case_bool_decide; [apply IH|]. destruct (mget st id) as [s|] eqn:E; [|apply IH].
  destruct (pendingOrReady s) eqn:Hp; simpl; [|apply IH].
  assert (prim v st (mset st id (setSkipped (now id) s))) as Hskip by by apply prim_skip.
  destruct (onFailure (graph v)).
  - destruct (hasFailedOrSkippedDep v st id); [|apply IH]. intros ?%IH. by eapply rtc_l.
  - destruct (isBarrierUnsatisfiable _ _ _ _); [intros ?%IH; by eapply rtc_l|].
    destruct (isBarrierSatisfied _ _ _ _) eqn:Hb; [|apply IH]. intros Hr%IH.
    apply pendingOrReady_spec in Hp as [Hp|Hp].
    + eapply rtc_l; [|exact Hr]. by apply prim_ready.
    + rewrite <- Hp, setStatus_id, mset_id in Hr; done.
Qed.

Lemma cancel_prim v st now :
  NoDup (mkeys st) → rtc (prim v) st (cancel st now).2.
Proof.
  simpl. assert (∀ post pre, NoDup (mkeys (pre ++ post)) →
    rtc (prim v) (pre ++ post) (pre ++ (cancelEntry now <$> post))) as H; [|by apply (H st [])].
  induction post as [|[k s] post IH]; intros pre Hnd; simpl; [done|].
  assert (k ∉ mkeys pre) as Hk.
  { unfold mkeys in *. rewrite fmap_app in Hnd. apply NoDup_app in Hnd as (_ & H & _).
    intros Hin. apply (H k Hin). left. }
  assert (mget (pre ++ (k, s) :: post) k = Some s) as Hget.
  { rewrite mget_app. apply mget_None in Hk as ->. simpl. by rewrite decide_True. }
  unfold cancelEntry at 1. simpl. destruct (pendingOrReady s) eqn:Hp.
  - eapply rtc_l; [by apply (prim_skip v _ k s (now k))|].
    rewrite mset_app_r by done. simpl. rewrite decide_True by done.
    rewrite (cons_middle _ pre post), (cons_middle _ pre), !app_assoc. apply IH.
    unfold mkeys in *. rewrite !fmap_app in *. simpl in *. by rewrite <- app_assoc.
  - rewrite (cons_middle _ pre post), (cons_middle _ pre), !app_assoc. apply IH.
    unfold mkeys in *. rewrite !fmap_app in *. simpl in *. by rewrite <- app_assoc.
Qed.

(** The operations of a live machine. *)
Inductive op (v : ValidatedGraph) : states → states → Prop :=
| op_running st id run now st' :
    markNodeRunning st id run now = (Ok tt, st') → op v st st'
| op_completed st id out now rdy st' :
    markNodeCompleted v st id out now = (Ok rdy, st') → op v st st'
| op_failed st id err prior terminal now res st' :
    markNodeFailed v st id err prior terminal now = Some (Ok res, st') → op v st st'.

Lemma op_refines v st st' : op v st st' → ∃ mid, prim v st mid ∧ rtc (prim v) mid st'.
Proof.
  destruct 1 as [st id run now st' H|st id out now rdy st' H|st id err prior term now res st' H].
  - unfold markNodeRunning in H. destruct (mget st id) as [s|] eqn:E; [|done].
    destruct (isValidTransition _ _) eqn:Ht; simplify_eq.
    eexists. split; [|done]. by apply prim_run, isValidTransition_Running.
  - unfold markNodeCompleted in H. destruct (mget st id) as [s|] eqn:E; [|done].
    destruct (isValidTransition _ _) eqn:Ht; [|done].
    destruct (evaluateBarriers v _ id) as [r st1] eqn:Eb. simplify_eq.
    eexists. split; [by apply prim_complete, isValidTransition_Completed|].
    by eapply evaluateBarriers_prim.
  - unfold markNodeFailed in H. destruct (mget st id) as [s|] eqn:E; [|done].
    destruct (isValidTransition _ _) eqn:Ht; [|done].
    apply isValidTransition_Failed in Ht.
    destruct (bool_decide (0 < default 0 (retriesRemaining s))%Z && negb term) eqn:Hr.
    { apply andb_prop in Hr as [Hr%bool_decide_eq_true_1 _]. simplify_eq.
      eexists. split; [by apply prim_retry|done]. }
    destruct (cascadeFailure _ _ _ _) as [[r st1]|] eqn:Ec; [|done].
    destruct (evaluateBarriers v st1 id) as [b st2] eqn:Eb. simplify_eq.
    eexists. split; [by apply prim_fail|]. etrans; [by eapply cascadeLoop_prim|].
    by eapply evaluateBarriers_prim.
Qed.

(** ** The cascade terminates *)

(** Work list entries that nodes outside [visited] may still add. *)
Definition potential (v : ValidatedGraph) (visited : list string) : nat :=
  sum_list ((fun n => if decide (n ∈ visited) then 0 else length (dependentsOf v n))
              <$> ids (gnodes v)).

Lemma potential_mono v visited id l :
  sum_list ((λ n, if decide (n ∈ id :: visited) then 0 else length (dependentsOf v n)) <$> l)
  ≤ sum_list ((λ n, if decide (n ∈ visited) then 0 else length (dependentsOf v n)) <$> l).
Proof.
  induction l as [|n l IH]; csimpl; [done|].
  repeat case_decide; try lia; exfalso; set_solver.
Qed.

Lemma potential_visit v visited id :
  Valid v → id ∉ visited →
  potential v (id :: visited) + length (dependentsOf v id) ≤ potential v visited.
Proof.
  intros (Hnd & Hrefs & _)%Valid_facts Hid. unfold potential.
  destruct (decide (id ∈ ids (gnodes v))) as [Hin|Hin].
  2:{ rewrite dependentsOf_notin by done. simpl.
      pose proof (potential_mono v visited id (ids (gnodes v))). lia. }
  clear Hnd Hrefs. induction (ids (gnodes v)) as [|n l IH]; [by apply elem_of_nil in Hin|]. csimpl.
  pose proof (potential_mono v visited id l).
  destruct (decide (n = id)) as [->|Hne].
  - rewrite decide_True by set_solver. rewrite decide_False by done. lia.
  - assert (id ∈ l) as Hl by set_solver. specialize (IH Hl).
    repeat case_decide; try lia; exfalso; set_solver.
Qed.

Lemma cascadeLoop_total fuel v now q vis st skp rdy :
  Valid v → length q + potential v vis < fuel →
  is_Some (cascadeLoop fuel v now q vis st skp rdy).
Proof.
  intros Hv. revert q vis st skp rdy. induction fuel as [|fuel IH]; intros q vis st skp rdy Hf; [lia|].
  simpl. destruct q as [|id q]; [by eexists|]. simpl in Hf.
  case_bool_decide as Hvis; [apply IH; lia|].
  pose proof (potential_visit v vis id Hv Hvis) as Hpot.
  assert (length (pushDependents v id q (id :: vis)) ≤ length q + length (dependentsOf v id)) as Hpush.
  { unfold pushDependents. rewrite length_app.
    pose proof (length_filter (λ next, next ∉ id :: vis) (dependentsOf v id)). lia. }
  repeat case_match; apply IH; lia.
Qed.

Lemma cascadeFailure_total v now st start :
  Valid v → is_Some (cascadeFailure v now st start).
Proof.
  intros Hv. apply cascadeLoop_total; [done|]. unfold cascadeFuel.
  assert (potential v [] = sum_list ((λ n, length (dependentsOf v n)) <$> ids (gnodes v))) as ->; [done|lia].
Qed.

(** ** A bound on the number of operations *)

(** What a node can still do: become ready, start, be retried, finish. *)
Definition weight (s : NodeExecutionState) : nat :=
  let r := Z.to_nat (default 0%Z (retriesRemaining s)) in
  match status s with
  | Pending => 2 * r + 3
  | Ready => 2 * r + 2
  | Running => 2 * r + 1
  | Completed | Failed | Skipped => 0
  end.

Lemma prim_weight v st st' : prim v st st' → msum weight st' < msum weight st.
Proof.
  assert (∀ id s s', mget st id = Some s → weight s' < weight s →
    msum weight (mset st id s') < msum weight st) as H.
  { intros id s s' E Hw. pose proof (msum_mset weight st id s s' E). lia. }
  destruct 1; eapply H; try done; unfold weight; simpl.
  - apply pendingOrReady_spec in H1 as [-> | ->]; lia.
  - rewrite H1. lia.
  - rewrite H1. lia.
  - rewrite H1. lia.
  - rewrite H1. lia.
  - rewrite H1. lia.
Qed.

Lemma rtc_prim_weight v st st' : rtc (prim v) st st' → msum weight st' ≤ msum weight st.
Proof. induction 1 as [|? ? ? H%prim_weight]; lia. Qed.

Lemma op_weight v st st' : op v st st' → msum weight st' < msum weight st.
Proof.
  intros (mid & H1%prim_weight & H2%rtc_prim_weight)%op_refines. lia.
Qed.

Lemma mkeys_create v r : NoDup (ids (gnodes v)) → mkeys (createGraphStateMachineFromState v r) = ids (gnodes v).
Proof.
  intros Hnd. unfold createGraphStateMachineFromState.
  rewrite (mkeys_foldl_mset (λ n, match r with
             | Some r => default (initialState n) (mget r (nodeId n)) | None => initialState n end));
    [done|done|]. intros x _ ?%elem_of_nil. done.
Qed.

Lemma mget_create v n r :
  NoDup (ids (gnodes v)) → n ∈ gnodes v →
  mget (createGraphStateMachineFromState v r) (nodeId n) =
  Some match r with
       | Some r => default (initialState n) (mget r (nodeId n))
       | None => initialState n
       end.
Proof.
  intros Hnd Hn. unfold createGraphStateMachineFromState.
  by rewrite (mget_foldl_node (λ n, match r with
             | Some r => default (initialState n) (mget r (nodeId n)) | None => initialState n end)).
Qed.

Lemma msum_le (w : NodeExecutionState → nat) (b : nat) (st : states) :
  (∀ k s, (k, s) ∈ st → w s ≤ b) → msum w st ≤ b * length st.
Proof.
  unfold msum. induction st as [|[k s] st IH]; intros H; csimpl; [lia|].
  pose proof (H k s ltac:(left)). assert (sum_list ((λ p, w p.2) <$> st) ≤ b * length st); [|lia].
  apply IH. intros k' s' Hin. apply (H k'). by right.
Qed.

Lemma create_weight v :
  Valid v → forallb GraphNodeSchema (gnodes v) = true →
  msum weight (createGraphStateMachine v) ≤ 9 * length (gnodes v).
Proof.
  intros (Hnd & _)%Valid_facts Hs.
  assert (length (createGraphStateMachine v) = length (gnodes v)) as <-.
  { rewrite <- (length_fmap fst). fold (mkeys (createGraphStateMachine v)).
    unfold createGraphStateMachine. rewrite mkeys_create by done. apply length_fmap. }
  apply msum_le. intros k s Hin.
  assert (NoDup (mkeys (createGraphStateMachine v))) as Hk.
  { unfold createGraphStateMachine. by rewrite mkeys_create. }
  apply (elem_of_mget _ _ _ Hk) in Hin as Hget.
  assert (k ∈ ids (gnodes v)) as (n & -> & Hn)%list_elem_of_fmap.
  { rewrite <- (mkeys_create v None) by done. apply mget_is_Some. eauto. }
  unfold createGraphStateMachine in Hget. rewrite mget_create in Hget by done. simplify_eq.
  rewrite forallb_forall in Hs. setoid_rewrite <- list_elem_of_In in Hs.
  specialize (Hs n Hn). unfold GraphNodeSchema in Hs.
  repeat (apply andb_prop in Hs as [Hs ?]).
  match goal with H : bool_decide (0 ≤ retries n ∧ retries n ≤ 3)%Z = true |- _ =>
    apply bool_decide_eq_true_1 in H end.
  unfold weight, initialState. simpl. case_bool_decide; lia.
Qed.

(** C35: a graph that passed the schema and validation performs at most nine
    successful operations per node, so at most 180 in all: no sequence of
    starts, completions, failures and retries of a live machine is longer. *)
Theorem graph_run_bounded (v : ValidatedGraph) (n : nat) (st : states) :
  Valid v → ExecutionGraphSchema (graph v) = true →
  nsteps (op v) n (createGraphStateMachine v) st →
  n ≤ 9 * length (gnodes v) ∧ n ≤ 180.
Proof.
  intros Hv Hs Hn. unfold ExecutionGraphSchema in Hs.
  repeat (apply andb_prop in Hs as [Hs ?]). apply bool_decide_eq_true_1 in Hs.
  assert (∀ k st0 st1, nsteps (op v) k st0 st1 → k + msum weight st1 ≤ msum weight st0) as Hk.
  { clear. induction 1 as [|k a b c H%op_weight]; lia. }
  apply Hk in Hn. pose proof (create_weight v Hv). intuition lia.
Qed.

End GraphStateMachine.
