(* ===== verification/GraphProgress.v ===== *)
(** Invariants, restoration and progress of the graph state machine.

    On top of [GraphStateMachine]: the invariant of every reachable machine (a
    node leaves [pending] for [ready] only through its barrier, and terminal
    statuses stay), the exact result of restoring persisted states, and
    progress: under the fail-fast policy a machine that is not terminal always
    has a node to run.  Under the continue policy it does not:
    [continue_can_stall] is a machine with a node that stays pending for ever. *)

From Stdlib Require Import Bool.
From S2P Require Import Prelude ConversationScope ExecutionGraph GraphStateMachine.
Import ExecutionGraph GraphStateMachine.
Open Scope string_scope.
Open Scope list_scope.
Open Scope nat_scope.

Module GraphProgress.

(** ** The invariant *)

Abbreviation barrierMet v st id := (isBarrierSatisfied v st id (modeOf v id)).

Record Inv (v : ValidatedGraph) (st : states) : Prop := {
  inv_keys : mkeys st = ids (gnodes v);
  inv_names : ∀ id s, mget st id = Some s → nsNodeId s = id;
  inv_barrier : ∀ id x, stat st id = Some x → x ≠ Pending → x ≠ Skipped →
                        barrierMet v st id = true;
}.

(** Terminal statuses of [st] are kept by [st']. *)
Definition terminal_kept (st st' : states) : Prop :=
  ∀ d, 1 ≤ class (stat st d) → stat st' d = stat st d.

Lemma barrier_stable v st st' id mode :
  terminal_kept st st' → isBarrierSatisfied v st id mode = true →
  isBarrierSatisfied v st' id mode = true.
Proof.
  intros Hk Hb. rewrite <- Hb. apply isBarrierSatisfied_ext. intros d Hd.
  rewrite Hk; [done|]. by eapply isBarrierSatisfied_terminal.
Qed.

Lemma prim_shape v st st' :
  prim v st st' →
  ∃ id s s', mget st id = Some s ∧ st' = mset st id s' ∧ nsNodeId s' = nsNodeId s ∧
    class (Some (status s)) = 0 ∧ status s' ≠ Pending ∧
    (status s = Pending → status s' = Skipped ∨ barrierMet v st id = true).
Proof.
  destruct 1 as [st id s now Hg Hs|st id s Hg Hs Hb|st id s run now Hg Hs|st id s out now Hg Hs
                |st id s err prior Hg Hs|st id s err now Hg Hs];
    eexists id, s, _; (split_and!; [done|done|done| |done|]); try (by rewrite Hs); try (intros; auto; congruence).
  apply pendingOrReady_spec in Hs as [-> | ->]; done.
Qed.

Lemma prim_terminal_kept v st st' : prim v st st' → terminal_kept st st'.
Proof.
  intros (id & s & s' & Hg & -> & _ & Hc & _)%prim_shape d Hd.
  rewrite stat_mset. case_decide as E; [|done]. subst. unfold stat in Hd. rewrite Hg in Hd.
  simpl fmap in Hd. lia.
Qed.

Lemma prim_Inv v st st' : Inv v st → prim v st st' → Inv v st'.
Proof.
  intros [Hk Hn Hb] Hp. pose proof (prim_terminal_kept v st st' Hp) as Ht.
  apply prim_shape in Hp as (id & s & s' & Hg & -> & Hs & Hc & Hnp & Hbar). split.
  - rewrite mkeys_mset_in; [done|]. apply mget_is_Some. eauto.
  - intros i t. rewrite mget_mset. case_decide; intros; simplify_eq; [|auto]. rewrite Hs. auto.
  - intros i x Hx Hx1 Hx2. apply (barrier_stable _ st); [done|].
    rewrite stat_mset in Hx. case_decide as E; [|by eapply Hb]. simplify_eq.
    destruct (decide (status s = Pending)) as [E|E].
    + destruct (Hbar E); [done|done].
    + apply (Hb id (status s)); [by apply stat_Some; eauto|done|].
      intros E'. by rewrite E' in Hc.
Qed.

Lemma rtc_prim_Inv v st st' : rtc (prim v) st st' → Inv v st → Inv v st'.
Proof. induction 1; eauto using prim_Inv. Qed.

Lemma terminal_kept_trans a b c : terminal_kept a b → terminal_kept b c → terminal_kept a c.
Proof. intros H1 H2 d Hd. rewrite H2; rewrite H1; done. Qed.

Lemma rtc_prim_terminal_kept v st st' : rtc (prim v) st st' → terminal_kept st st'.
Proof.
  induction 1; [done|]. eapply terminal_kept_trans; [by eapply prim_terminal_kept|done].
Qed.

Lemma create_stat v id x :
  NoDup (ids (gnodes v)) → stat (createGraphStateMachine v) id = Some x →
  ∃ n, n ∈ gnodes v ∧ nodeId n = id ∧ x = if bool_decide (length (dependsOn n) = 0) then Ready else Pending.
Proof.
  intros Hnd (s & Hg & Hs)%stat_Some.
  assert (id ∈ ids (gnodes v)) as (n & -> & Hn)%list_elem_of_fmap.
  { rewrite <- (mkeys_create v None) by done. apply mget_is_Some. eauto. }
  exists n. split_and!; [done|done|].
  unfold createGraphStateMachine in Hg. rewrite mget_create in Hg by done. by simplify_eq/=.
Qed.

Lemma create_class v d : NoDup (ids (gnodes v)) → class (stat (createGraphStateMachine v) d) = 0.
Proof.
  intros Hnd. destruct (stat (createGraphStateMachine v) d) as [x|] eqn:E; [|done].
  apply create_stat in E as (n & _ & _ & ->); [|done]. by case_bool_decide.
Qed.

Lemma create_Inv v : Valid v → Inv v (createGraphStateMachine v).
Proof.
  intros (Hnd & Hrefs & _)%Valid_facts. split.
  - by apply mkeys_create.
  - intros id s Hg.
    assert (id ∈ ids (gnodes v)) as (n & -> & Hn)%list_elem_of_fmap.
    { rewrite <- (mkeys_create v None) by done. apply mget_is_Some. eauto. }
    unfold createGraphStateMachine in Hg. rewrite mget_create in Hg by done. by simplify_eq/=.
  - intros id x (n & Hn & <- & ->)%create_stat Hx1 Hx2; [|done]. case_bool_decide as E; [|done].
    apply isBarrierSatisfied_all. intros d Hd. rewrite depsOfNode_spec, depsOf_node in Hd by done.
    apply length_zero_iff_nil in E. rewrite E in Hd. by apply elem_of_nil in Hd.
Qed.

(** ** Restoration *)

Definition persistedIds (ps : list NodeExecutionState) : list string := nsNodeId <$> ps.

Definition restoredEntry (p : NodeExecutionState) : string * NodeExecutionState :=
  (nsNodeId p, resetInterrupted p).

Lemma nsNodeId_reset p : nsNodeId (resetInterrupted p) = nsNodeId p.
Proof. unfold resetInterrupted. by case_bool_decide. Qed.

Lemma restoreLoop_spec gids ps acc :
  NoDup (mkeys acc) →
  match restoreLoop gids ps acc with
  | Ok r => r = acc ++ (restoredEntry <$> ps) ∧ NoDup (mkeys acc ++ persistedIds ps) ∧
            (∀ x, x ∈ persistedIds ps → x ∈ gids)
  | Err _ => ¬ (NoDup (mkeys acc ++ persistedIds ps) ∧ ∀ x, x ∈ persistedIds ps → x ∈ gids)
  end.
Proof.
  revert acc. induction ps as [|p ps IH]; intros acc Hnd; simpl.
  { rewrite !app_nil_r. split_and!; [done|done|]. by intros x ?%elem_of_nil. }
  case_bool_decide as Hin; simpl.
  2:{ intros [_ H]. apply Hin, H. left. }
  unfold mhas. destruct (mget acc (nsNodeId p)) as [s|] eqn:E; simpl.
  { intros [Hd _]. apply NoDup_app in Hd as (_ & Hd & _).
    apply (Hd (nsNodeId p)); [apply mget_is_Some; eauto|left]. }
  apply mget_None in E. rewrite nsNodeId_reset.
  specialize (IH (mset acc (nsNodeId p) (resetInterrupted p))
                (NoDup_mkeys_mset _ _ _ Hnd)).
  assert (mset acc (nsNodeId p) (resetInterrupted p) = acc ++ [restoredEntry p]) as Em.
  { rewrite <- (app_nil_r acc) at 1. by rewrite mset_app_r. }
  assert (mkeys (acc ++ [restoredEntry p]) ++ persistedIds ps =
          mkeys acc ++ nsNodeId p :: persistedIds ps) as Ek.
  { unfold mkeys. rewrite fmap_app, <- app_assoc. done. }
  rewrite Em in *. rewrite Ek in IH. destruct (restoreLoop _ _ _).
  - destruct IH as (-> & Hd & Hs). split_and!.
    + by rewrite <- app_assoc.
    + done.
    + intros x [->|]%elem_of_cons; auto.
  - intros [Hd Hs]. apply IH. split; [done|]. intros x Hx. apply Hs. by right.
Qed.

Lemma restoreGraphStateMachine_char (v : ValidatedGraph) (ps : list NodeExecutionState) :
  Valid v →
  match restoreGraphStateMachine v ps with
  | Ok st => persistedIds ps ≡ₚ ids (gnodes v) ∧ mkeys st = ids (gnodes v) ∧
             ∀ p, p ∈ ps → mget st (nsNodeId p) = Some (resetInterrupted p)
  | Err _ => ¬ persistedIds ps ≡ₚ ids (gnodes v)
  end.
Proof.
  intros (Hnd & _)%Valid_facts. unfold restoreGraphStateMachine.
  assert (remove_dups (ids (gnodes v)) = ids (gnodes v)) as ->.
  { clear -Hnd. induction Hnd as [|x l Hx _ IH]; simpl; [done|].
    case_decide; [done|]. by rewrite IH. }
  pose proof (restoreLoop_spec (ids (gnodes v)) ps [] ltac:(constructor)) as Hl. simpl in Hl.
  destruct (restoreLoop _ ps []) as [r|e].
  - destruct Hl as (-> & Hd & Hs). rewrite length_fmap. case_bool_decide as Hlen.
    + intros Hp. apply Hlen. unfold persistedIds in Hp. rewrite <- Hp. by rewrite length_fmap.
    + split_and!.
      * apply submseteq_length_Permutation; [by apply NoDup_submseteq|].
        unfold persistedIds. rewrite length_fmap. lia.
      * by apply mkeys_create.
      * intros p Hp.
        assert (nsNodeId p ∈ ids (gnodes v)) as Hin.
        { apply Hs. apply list_elem_of_fmap. eauto. }
        apply list_elem_of_fmap in Hin as (n & E & Hn). rewrite E, mget_create by done.
        rewrite <- E. erewrite elem_of_mget; [done| |].
        -- unfold mkeys. rewrite <- list_fmap_compose. exact Hd.
        -- apply list_elem_of_fmap. by exists p.
  - intros Hp. apply Hl. split; [by rewrite Hp|]. intros x. by rewrite Hp.
Qed.

(** restoring persisted node states succeeds exactly when they name every
    node of the graph once, and then every node has its persisted state, with
    only an attempt that was running put back to ready and its run id and
    timestamps cleared. *)
Theorem restoreGraphStateMachine_spec (v : ValidatedGraph) (ps : list NodeExecutionState) :
  Valid v →
  match restoreGraphStateMachine v ps with
  | Ok st => persistedIds ps ≡ₚ ids (gnodes v) ∧ mkeys st = ids (gnodes v) ∧
             ∀ p, p ∈ ps → mget st (nsNodeId p) = Some (resetInterrupted p)
  | Err _ => ¬ persistedIds ps ≡ₚ ids (gnodes v)
  end.
Proof. apply restoreGraphStateMachine_char. Qed.

(** ** Reachable machines *)

(** Operations, cancellation, and a restart from the machine's own states. *)
Inductive step (v : ValidatedGraph) : states → states → Prop :=
| step_op st st' : op v st st' → step v st st'
| step_cancel st now : step v st (cancel st now).2
| step_restart st st' : restoreGraphStateMachine v st.*2 = Ok st' → step v st st'.

Definition reachable (v : ValidatedGraph) : states → Prop :=
  rtc (step v) (createGraphStateMachine v).

Lemma persistedIds_values v st : Inv v st → NoDup (mkeys st) → persistedIds st.*2 = mkeys st.
Proof.
  intros [_ Hn _] Hnd. unfold persistedIds, mkeys. rewrite <- list_fmap_compose.
  apply list_fmap_ext. intros i [k s] Hin. simpl. apply Hn. apply elem_of_mget; [done|].
  by eapply list_elem_of_lookup_2.
Qed.

Lemma restart_mget v st st' id :
  Valid v → Inv v st → restoreGraphStateMachine v st.*2 = Ok st' →
  mkeys st' = mkeys st ∧ mget st' id = resetInterrupted <$> mget st id.
Proof.
  intros Hv Hi Hr. pose proof (restoreGraphStateMachine_char v st.*2 Hv) as Hs.
  rewrite Hr in Hs. destruct Hs as (_ & Hk & Hget).
  apply Valid_facts in Hv as (Hnd & _). pose proof (inv_keys _ _ Hi) as Hk'.
  split; [by rewrite Hk, Hk'|].
  destruct (mget st id) as [s|] eqn:E; simpl.
  - rewrite <- (inv_names _ _ Hi id s E) at 1. apply Hget.
    apply list_elem_of_fmap. exists (id, s). split; [done|]. by apply mget_elem_of.
  - apply mget_None. rewrite Hk, <- Hk'. by apply mget_None.
Qed.

Lemma restart_class v st st' d :
  Valid v → Inv v st → restoreGraphStateMachine v st.*2 = Ok st' →
  class (stat st' d) = class (stat st d) ∧
  (∀ x, x ≠ Ready → stat st' d = Some x → stat st d = Some x) ∧
  (1 ≤ class (stat st d) → stat st' d = stat st d) ∧
  (stat st' d = Some Ready → stat st d = Some Ready ∨ stat st d = Some Running).
Proof.
  intros Hv Hi Hr. destruct (restart_mget v st st' d Hv Hi Hr) as [_ E].
  unfold stat. rewrite E. destruct (mget st d) as [s|]; simpl; [|by split_and!; intros].
  unfold resetInterrupted. case_bool_decide as Hs; simpl; [rewrite Hs|].
  - simpl. split_and!; [done|intros; congruence|lia|auto].
  - split_and!; [done|done|done|auto].
Qed.

Lemma step_Inv v st st' : Valid v → Inv v st → step v st st' → Inv v st' ∧ terminal_kept st st'.
Proof.
  intros Hv Hi Hs. pose proof (Valid_facts v Hv) as (Hnd & _).
  assert (NoDup (mkeys st)) as Hk by by rewrite (inv_keys _ _ Hi).
  destruct Hs as [st st' (mid & Hp & Hr)%op_refines|st now|st st' Hr].
  - assert (rtc (prim v) st st') by by eapply rtc_l.
    eauto using rtc_prim_Inv, rtc_prim_terminal_kept.
  - pose proof (cancel_prim v st now Hk). eauto using rtc_prim_Inv, rtc_prim_terminal_kept.
  - assert (terminal_kept st st') as Ht.
    { intros d Hd. by apply (restart_class v st st' d Hv Hi Hr). }
    split; [|done]. split.
    + destruct (restart_mget v st st' "" Hv Hi Hr) as [-> _]. apply Hi.
    + intros id s. destruct (restart_mget v st st' id Hv Hi Hr) as [_ ->].
      destruct (mget st id) as [s0|] eqn:E; intros; simplify_eq/=. rewrite nsNodeId_reset.
      by apply (inv_names v st).
    + intros id x Hx Hx1 Hx2. apply (barrier_stable v st st'); [done|].
      destruct (restart_class v st st' id Hv Hi Hr) as (_ & H1 & _ & H2).
      destruct (decide (x = Ready)) as [->|]; [destruct (H2 Hx)|]; eapply inv_barrier; eauto.
Qed.

Lemma reachable_Inv v st : Valid v → reachable v st → Inv v st.
Proof.
  intros Hv Hr. pose proof (create_Inv v Hv) as Hi. unfold reachable in Hr.
  induction Hr as [|a b c Hab _ IH]; [done|]. apply IH. by eapply step_Inv.
Qed.

Lemma rtc_step_terminal_kept v st st' :
  Valid v → Inv v st → rtc (step v) st st' → terminal_kept st st'.
Proof.
  intros Hv Hi Hr. induction Hr as [|a b c Hab _ IH]; [done|].
  destruct (step_Inv v a b Hv Hi Hab) as [Hb Ht]. eapply terminal_kept_trans; [done|auto].
Qed.

(** in every reachable machine, whatever the policy, a node that is ready,
    running, completed or failed has its barrier met, with every dependency in a
    terminal status: nothing is started before its dependencies have ended. *)
Theorem reachable_barrier (v : ValidatedGraph) (st : states) (id : string) (x : NodeStatus) :
  Valid v → reachable v st → stat st id = Some x → x ≠ Pending → x ≠ Skipped →
  barrierMet v st id = true ∧ ∀ d, d ∈ depsOf (gnodes v) id → terminal (stat st d) = true.
Proof.
  intros Hv Hr Hx H1 H2. pose proof (Valid_facts v Hv) as (Hnd & _).
  pose proof (inv_barrier _ _ (reachable_Inv v st Hv Hr) id x Hx H1 H2) as Hb. split; [done|].
  intros d Hd. apply class_ge_1. eapply isBarrierSatisfied_terminal; [done|].
  by rewrite depsOfNode_spec.
Qed.

(** completed, failed and skipped are final: no operation, cancellation or
    restart of a reachable machine changes the status of such a node. *)
Theorem terminal_final (v : ValidatedGraph) (st st' : states) (id : string) :
  Valid v → reachable v st → rtc (step v) st st' → terminal (stat st id) = true →
  stat st' id = stat st id.
Proof.
  intros Hv Hr Hs Ht. apply (rtc_step_terminal_kept v st st' Hv); [|done|by apply class_ge_1].
  by apply reachable_Inv.
Qed.

(** ** Barrier evaluation and the fail-fast cascade *)

Abbreviation hasBadDep := hasFailedOrSkippedDep.

Lemma evaluateBarriersLoop_spec v l st :
  let st' := (evaluateBarriersLoop v l st).2 in
  (∀ d, class (stat st' d) = class (stat st d)) ∧
  (∀ d, stat st' d = Some Pending → stat st d = Some Pending) ∧
  (∀ d, d ∈ l → stat st' d = Some Pending → barrierMet v st d = false).
Proof.
  revert st. induction l as [|d l IH]; intros st; simpl.
  { split_and!; [done|done|]. by intros d ?%elem_of_nil. }
  assert (∀ st1, (∀ e, class (stat st1 e) = class (stat st e)) →
            (∀ e, stat st1 e = Some Pending → stat st e = Some Pending) →
            (stat st1 d = Some Pending → barrierMet v st d = false) →
    let st' := (evaluateBarriersLoop v l st1).2 in
    (∀ e, class (stat st' e) = class (stat st e)) ∧
    (∀ e, stat st' e = Some Pending → stat st e = Some Pending) ∧
    (∀ e, e ∈ d :: l → stat st' e = Some Pending → barrierMet v st e = false)) as H.
  { intros st1 H1 H2 H3. destruct (IH st1) as (I1 & I2 & I3). split_and!.
    - intros e. by rewrite I1.
    - auto.
    - intros e [->|He]%elem_of_cons Hp; [auto|]. rewrite <- (I3 e He Hp).
      symmetry. apply isBarrierSatisfied_ext. auto. }
  destruct (mget st d) as [s|] eqn:E; [|apply H; [done|done|]; unfold stat; by rewrite E].
  destruct (bool_decide (status s = Pending) && barrierMet v st d) eqn:Hc.
  - apply andb_prop in Hc as [Hs%bool_decide_eq_true_1 Hb].
    destruct (evaluateBarriersLoop v l (mset st d (setStatus Ready s))) as [r st'] eqn:Er.
    specialize (H (mset st d (setStatus Ready s))). rewrite Er in H. apply H.
    + intros e. rewrite stat_mset. case_decide; [|done]. subst. unfold stat. rewrite E. simpl.
      by rewrite Hs.
    + intros e. rewrite stat_mset. by case_decide.
    + rewrite stat_mset. by rewrite decide_True.
  - apply H; [done|done|]. intros (s' & E' & Hs)%stat_Some. simplify_eq.
    by rewrite bool_decide_eq_true_2 in Hc.
Qed.

(** How the fail-fast cascade changes statuses. *)
Definition only_skips (st st' : states) : Prop :=
  ∀ d, stat st' d = stat st d ∨
       (stat st' d = Some Skipped ∧ (stat st d = Some Pending ∨ stat st d = Some Ready)).

Lemma hasBadDep_mono v st st' id :
  terminal_kept st st' → hasBadDep v st id = true → hasBadDep v st' id = true.
Proof.
  intros Hk (d & Hd & Hc)%hasFailedOrSkippedDep_spec. apply hasFailedOrSkippedDep_spec.
  exists d. split; [done|]. rewrite Hk; [done|lia].
Qed.

Lemma skip_terminal_kept st id s now :
  mget st id = Some s → pendingOrReady s = true → terminal_kept st (mset st id (setSkipped now s)).
Proof.
  intros E [Hs|Hs]%pendingOrReady_spec d Hd; rewrite stat_mset; case_decide; try done; subst;
    unfold stat in Hd; rewrite E in Hd; simpl fmap in Hd; rewrite Hs in Hd; simpl in Hd; lia.
Qed.

(** What the work list keeps: its nodes have a failed or skipped dependency,
    visited nodes are not pending, and no pending node with such a dependency is
    missing from it. *)
Record WorkList (v : ValidatedGraph) (q vis : list string) (st : states) : Prop := {
  wl_bad : ∀ x, x ∈ q → hasBadDep v st x = true;
  wl_visited : ∀ x, x ∈ vis → stat st x ≠ Some Pending;
  wl_all : ∀ n, stat st n = Some Pending → hasBadDep v st n = true → n ∈ q }.

(** A node that is not pending is dropped. *)
Lemma worklist_drop v id q vis vis' st :
  WorkList v (id :: q) vis st → (∀ x, x ∈ vis' → x = id ∨ x ∈ vis) → stat st id ≠ Some Pending →
  WorkList v q vis' st.
Proof.
  intros [Hq Hvis Hall] Hr Hid. split.
  - intros x Hx. apply Hq. by right.
  - intros x Hx. destruct (Hr x Hx) as [->|]; auto.
  - intros n Hn Hb. assert (n ∈ id :: q) as [->|]%elem_of_cons by auto; done.
Qed.

(** A pending or ready node is skipped and its dependents are pushed. *)
Lemma worklist_skip v id q vis st s now :
  NoDup (ids (gnodes v)) → WorkList v (id :: q) vis st →
  mget st id = Some s → pendingOrReady s = true →
  WorkList v (pushDependents v id q (id :: vis)) (id :: vis) (mset st id (setSkipped now s)).
Proof.
  intros Hnd [Hq Hvis Hall] E Hs. set (st1 := mset st id (setSkipped now s)).
  assert (terminal_kept st st1) as Hk by by apply skip_terminal_kept.
  assert (∀ n, stat st1 n = Some Pending → n ≠ id ∧ stat st n = Some Pending) as Hpend.
  { intros n. unfold st1. rewrite stat_mset. by case_decide. }
  split.
  - unfold pushDependents. intros x [Hx|[_ Hx]%list_elem_of_filter]%elem_of_app.
    + apply (hasBadDep_mono v st); [done|]. apply Hq. by right.
    + apply hasFailedOrSkippedDep_spec. exists id. split.
      * rewrite depsOfNode_spec by done. by apply elem_of_dependentsOf.
      * unfold st1. by rewrite stat_mset, decide_True.
  - intros x [->|Hx]%elem_of_cons Hp; apply Hpend in Hp as [? Hp]; [done|]. by apply (Hvis x).
  - intros n [Hne Hp]%Hpend Hb. unfold pushDependents.
    apply hasFailedOrSkippedDep_spec in Hb as (d & Hd & Hc).
    destruct (decide (d = id)) as [->|Hdi].
    + apply elem_of_app. right. apply list_elem_of_filter. split.
      * rewrite not_elem_of_cons. split; [done|]. intros Hv. by apply (Hvis n).
      * apply elem_of_dependentsOf; [done|]. by rewrite <- depsOfNode_spec.
    + unfold st1 in Hc. rewrite stat_mset, decide_False in Hc by done.
      apply elem_of_app. left.
      assert (n ∈ id :: q) as [->|]%elem_of_cons; [|done|done].
      apply Hall; [done|]. apply hasFailedOrSkippedDep_spec. eauto.
Qed.

Lemma only_skips_step st st' id s now :
  mget st id = Some s → pendingOrReady s = true →
  only_skips (mset st id (setSkipped now s)) st' → only_skips st st'.
Proof.
  intros E Hs Ho d. destruct (Ho d) as [->|[-> Hd]]; rewrite stat_mset in *; case_decide; subst;
    [|by left| |by right].
  - right. split; [done|]. apply pendingOrReady_spec in Hs. unfold stat. rewrite E. simpl.
    destruct Hs as [-> | ->]; auto.
  - simpl in Hd. naive_solver.
Qed.

Lemma cascade_failfast fuel v now q vis st skp rdy res st' :
  onFailure (graph v) = FailFast → NoDup (ids (gnodes v)) →
  cascadeLoop fuel v now q vis st skp rdy = Some (res, st') → WorkList v q vis st →
  only_skips st st' ∧ newlyReady res = rdy ∧
  (∀ n, stat st' n = Some Pending → hasBadDep v st' n = false).
Proof.
  intros Hpol Hnd. revert q vis st skp rdy.
  induction fuel as [|fuel IH]; intros q vis st skp rdy; simpl; [done|].
  destruct q as [|id q].
  { intros [= <- <-] H. split_and!; [by left|done|]. intros n Hn.
    destruct (hasBadDep v st n) eqn:E; [|done]. by apply (wl_all _ _ _ _ H n Hn), elem_of_nil in E. }
  intros Hrun H. case_bool_decide as Hin.
  { eapply IH; [exact Hrun|]. eapply worklist_drop; [done|auto|]. by apply (wl_visited _ _ _ _ H). }
  assert (∀ x, x ∈ id :: vis → x = id ∨ x ∈ vis) as Hr by set_solver.
  destruct (mget st id) as [s|] eqn:E.
  2:{ eapply IH; [exact Hrun|]. eapply worklist_drop; [done..|]. unfold stat. by rewrite E. }
  destruct (pendingOrReady s) eqn:Hs; simpl in Hrun.
  2:{ eapply IH; [exact Hrun|]. eapply worklist_drop; [done..|].
      intros (s' & ? & Hp)%stat_Some. simplify_eq. apply not_true_iff_false in Hs.
      apply Hs, pendingOrReady_spec. auto. }
  rewrite Hpol, (wl_bad _ _ _ _ H id ltac:(left)) in Hrun.
  destruct (IH _ _ _ _ _ Hrun) as (Ho & Hrdy & Hfin); [by apply worklist_skip|].
  split_and!; [|done|done]. by eapply only_skips_step.
Qed.

(** ** Progress under fail-fast *)

(** Between operations a node with a failed or skipped dependency is skipped,
    and no pending node has its barrier met. *)
Record NoStall (v : ValidatedGraph) (st : states) : Prop := {
  ns_bad : ∀ id, hasBadDep v st id = true → stat st id = Some Skipped;
  ns_met : ∀ id, stat st id = Some Pending → barrierMet v st id = false;
}.

(** A node with a dependency that has not ended is pending or skipped. *)
Lemma waiting_node v st n d :
  NoDup (ids (gnodes v)) → Inv v st → d ∈ depsOfNode v n → class (stat st d) = 0 →
  stat st n = Some Pending ∨ stat st n = Some Skipped.
Proof.
  intros Hnd Hi Hd Hc.
  assert (n ∈ ids (gnodes v)) as Hn.
  { destruct (decide (n ∈ ids (gnodes v))); [done|]. exfalso.
    rewrite depsOfNode_spec, depsOf_notin in Hd by done. by apply elem_of_nil in Hd. }
  rewrite <- (inv_keys _ _ Hi) in Hn. apply mget_is_Some in Hn as [s Hs].
  unfold stat. rewrite Hs. simpl.
  destruct (decide (status s = Pending)) as [->|H1]; [by left|].
  destruct (decide (status s = Skipped)) as [->|H2]; [by right|]. exfalso.
  assert (stat st n = Some (status s)) as E by (unfold stat; by rewrite Hs).
  pose proof (isBarrierSatisfied_terminal _ _ _ _ d (inv_barrier _ _ Hi n _ E H1 H2) Hd). lia.
Qed.

Lemma hasBadDep_ext v st st' id :
  (∀ d, class (stat st' d) = class (stat st d)) → hasBadDep v st' id = hasBadDep v st id.
Proof.
  intros Hc. apply eq_true_iff_eq. rewrite !hasFailedOrSkippedDep_spec. by setoid_rewrite Hc.
Qed.

Lemma NoStall_same_class v st st' :
  NoStall v st → (∀ d, class (stat st' d) = class (stat st d)) → terminal_kept st st' →
  (∀ d, stat st' d = Some Pending → stat st d = Some Pending) → NoStall v st'.
Proof.
  intros [Hb Hm] Hc Hk Hp. split; intros id Hid.
  - rewrite (hasBadDep_ext v st) in Hid by done. apply Hb in Hid. rewrite Hk; [done|].
    rewrite Hid. simpl. lia.
  - rewrite (isBarrierSatisfied_ext v st) by auto. auto.
Qed.

Lemma NoStall_update v st id s s' :
  NoStall v st → mget st id = Some s → class (Some (status s)) = 0 →
  class (Some (status s')) = 0 → status s' ≠ Pending → NoStall v (mset st id s').
Proof.
  intros Hn Hg Hc Hc' Hp. assert (stat st id = Some (status s)) as E by (unfold stat; by rewrite Hg).
  apply (NoStall_same_class v st); [done|..]; intros d; rewrite stat_mset;
    case_decide; try done; subst; rewrite ?E; [congruence|lia|naive_solver].
Qed.

Lemma stat_cancel st now id :
  stat (cancel st now).2 id =
  match stat st id with Some Pending | Some Ready => Some Skipped | o => o end.
Proof.
  unfold stat. simpl. induction st as [|[k s] st IH]; simpl; [done|].
  unfold cancelEntry at 1. simpl. unfold pendingOrReady.
  repeat case_bool_decide; simpl; case_decide; simpl; try done;
    by destruct (status s).
Qed.

Lemma NoStall_cancel v st now :
  NoDup (ids (gnodes v)) → Inv v st → NoStall v st → NoStall v (cancel st now).2.
Proof.
  intros Hnd Hi [Hb _]. split; intros n Hn; rewrite stat_cancel in *.
  - apply hasFailedOrSkippedDep_spec in Hn as (d & Hd & Hc). rewrite stat_cancel in Hc.
    destruct (decide (class (stat st d) = 0)) as [E|E].
    + by destruct (waiting_node v st n d Hnd Hi Hd E) as [-> | ->].
    + rewrite (Hb n); [done|]. apply hasFailedOrSkippedDep_spec. exists d. split; [done|].
      by destruct (stat st d) as [[]|].
  - by destruct (stat st n) as [[]|].
Qed.

Lemma NoStall_completed v st id out now rdy st' :
  NoDup (ids (gnodes v)) → NoStall v st →
  markNodeCompleted v st id out now = (Ok rdy, st') → NoStall v st'.
Proof.
  intros Hnd [Hb Hm] H.
  assert (terminal_kept st st') as Hkept.
  { apply op_completed, op_refines in H as (m & Hp & Hr).
    eapply rtc_prim_terminal_kept, rtc_l; done. }
  unfold markNodeCompleted in H.
  destruct (mget st id) as [s|] eqn:E; [|done].
  destruct (isValidTransition _ _) eqn:Ht; [|done]. apply isValidTransition_Completed in Ht.
  set (mid := mset st id (setCompleted out now s)) in *.
  pose proof (evaluateBarriersLoop_spec v (dependentsOf v id) mid) as (I1 & I2 & I3).
  destruct (evaluateBarriers v mid id) as [r st1] eqn:Er. unfold evaluateBarriers in Er.
  rewrite Er in I1, I2, I3. simplify_eq. simpl in *.
  assert (∀ d, d ≠ id → stat mid d = stat st d) as Hmid.
  { intros d Hd. unfold mid. by rewrite stat_mset, decide_False. }
  assert (stat mid id = Some Completed) as Hid by (unfold mid; by rewrite stat_mset, decide_True).
  assert (∀ n, stat st' n = Some Pending → stat st n = Some Pending) as Hpend.
  { intros n Hn%I2. rewrite <- Hmid; [done|]. intros ->. congruence. }
  split; intros n Hn.
  - apply hasFailedOrSkippedDep_spec in Hn as (d & Hd & Hc). rewrite I1 in Hc.
    destruct (decide (d = id)) as [->|Hne]; [by rewrite Hid in Hc|]. rewrite Hmid in Hc by done.
    assert (stat st n = Some Skipped) as Hsk by (apply Hb, hasFailedOrSkippedDep_spec; eauto).
    rewrite <- Hsk. apply Hkept. rewrite Hsk. simpl. lia.
  - rewrite (isBarrierSatisfied_ext v mid) by auto.
    destruct (decide (id ∈ depsOfNode v n)) as [Hin|Hin].
    + apply I3; [|done]. apply elem_of_dependentsOf; [done|]. by rewrite <- depsOfNode_spec.
    + rewrite <- (Hm n) by auto. apply isBarrierSatisfied_ext. intros d Hd.
      rewrite Hmid; [done|]. by intros ->.
Qed.

(** After a failure and its cascade every node with a failed or skipped
    dependency is skipped. *)
Lemma skipped_after_cascade v st mid st1 n id :
  NoDup (ids (gnodes v)) → Inv v st →
  (∀ m, hasBadDep v st m = true → stat st m = Some Skipped) →
  (∀ d, d ≠ id → stat mid d = stat st d) → stat st id = Some Running → stat mid id = Some Failed →
  only_skips mid st1 → (∀ m, stat st1 m = Some Pending → hasBadDep v st1 m = false) →
  hasBadDep v st1 n = true → stat st1 n = Some Skipped.
Proof.
  intros Hnd Hi Hb Hmid Hid Hid' Ho Hfin Hn.
  assert (stat st n = Some Pending ∨ stat st n = Some Skipped) as Hst.
  { pose proof Hn as (d & Hd & Hc)%hasFailedOrSkippedDep_spec.
    destruct (decide (class (stat st d) = 0)) as [E|E]; [by eapply waiting_node|].
    right. apply Hb, hasFailedOrSkippedDep_spec. exists d. split; [done|].
    assert (d ≠ id) as Hne by (intros ->; by rewrite Hid in E).
    specialize (Ho d). rewrite Hmid in Ho by done.
    destruct Ho as [<-|[_ [Hs|Hs]]]; [done|by rewrite Hs in E..]. }
  assert (n ≠ id) as Hne by (intros ->; destruct Hst; congruence).
  destruct (Ho n) as [Es|[Es _]]; [|done]. rewrite Hmid in Es by done. rewrite Es.
  destruct Hst as [Hp|Hp]; [|done]. rewrite Hp in Es. apply Hfin in Es. congruence.
Qed.

(** The terminal failure path: the node fails, the cascade runs, and the
    barriers of its dependents are evaluated. *)
Lemma NoStall_failed v st id s err now res st1 :
  onFailure (graph v) = FailFast → NoDup (ids (gnodes v)) → Inv v st → NoStall v st →
  mget st id = Some s → status s = Running →
  cascadeFailure v now (mset st id (setFailed err (now id) s)) id = Some (res, st1) →
  NoStall v (evaluateBarriers v st1 id).2.
Proof.
  intros Hpol Hnd Hi [Hb Hm] E Hs Hc. set (mid := mset st id (setFailed err (now id) s)) in *.
  assert (∀ d, d ≠ id → stat mid d = stat st d) as Hmid.
  { intros d Hd. unfold mid. by rewrite stat_mset, decide_False. }
  assert (stat mid id = Some Failed) as Hid by (unfold mid; by rewrite stat_mset, decide_True).
  assert (∀ n, stat mid n = Some Pending → stat st n = Some Pending) as Hpm.
  { intros n Hn. rewrite <- Hmid; [done|]. intros ->. congruence. }
  assert (WorkList v (dependentsOf v id) [] mid) as HW.
  { split; [..|intros n Hn (d & Hd & Hcd)%hasFailedOrSkippedDep_spec].
  - intros x Hx. apply hasFailedOrSkippedDep_spec. exists id. rewrite Hid. split; [|done].
    rewrite depsOfNode_spec by done. by apply elem_of_dependentsOf.
  - by intros x ?%elem_of_nil.
  - destruct (decide (d = id)) as [->|Hne].
    + apply elem_of_dependentsOf; [done|]. by rewrite <- depsOfNode_spec.
    + exfalso. rewrite Hmid in Hcd by done.
      assert (stat st n = Some Skipped) as Hsk by (apply Hb, hasFailedOrSkippedDep_spec; eauto).
      apply Hpm in Hn. congruence. }
  destruct (cascade_failfast _ _ _ _ _ _ _ _ _ _ Hpol Hnd Hc HW) as (Ho & _ & Hfin).
  - apply (NoStall_same_class v st1);
      [|apply evaluateBarriersLoop_spec|apply (rtc_prim_terminal_kept v), evaluateBarriersLoop_prim
       |apply evaluateBarriersLoop_spec].
    split.
    { intros n Hn. apply (skipped_after_cascade v st mid st1 n id); try done.
      unfold stat. by rewrite E, <- Hs. }
    intros n Hn. destruct (barrierMet v st1 n) eqn:Eb; [|done]. exfalso.
    assert (stat mid n = Some Pending) as Hn'.
    { destruct (Ho n) as [<-|[E1 _]]; [done|congruence]. }
    apply (eq_true_false_abs (barrierMet v st n)); [|by auto].
    apply isBarrierSatisfied_all. intros d Hd.
    assert (class (stat st1 d) ≠ 1) as H1.
    { intros H1. apply (eq_true_false_abs (hasBadDep v st1 n)); [|by auto].
      apply hasFailedOrSkippedDep_spec. eauto. }
    pose proof (isBarrierSatisfied_terminal _ _ _ _ _ Eb Hd) as H2.
    destruct (Ho d) as [Ed|[Ed _]]; [|by rewrite Ed in H1]. rewrite Ed in H1, H2.
    destruct (decide (d = id)) as [->|Hne]; [by rewrite Hid in H1|].
    rewrite Hmid in H1, H2 by done. by destruct (stat st d) as [[]|]; simpl in *; try lia.
Qed.

Lemma NoStall_step v st st' :
  Valid v → onFailure (graph v) = FailFast → Inv v st → NoStall v st → step v st st' →
  NoStall v st'.
Proof.
  intros Hv Hpol Hi Hn Hs. pose proof (Valid_facts v Hv) as (Hnd & _).
  destruct Hs as [st st' Hop|st now|st st' Hr].
  - destruct Hop as [st id run now st' H|st id out now rdy st' H|st id err prior term now res st' H].
    + unfold markNodeRunning in H. destruct (mget st id) as [s|] eqn:E; [|done].
      destruct (isValidTransition _ _) eqn:Ht; simplify_eq. apply isValidTransition_Running in Ht.
      eapply NoStall_update; try done. by rewrite Ht.
    + by eapply NoStall_completed.
    + unfold markNodeFailed in H. destruct (mget st id) as [s|] eqn:E; [|done].
      destruct (isValidTransition _ _) eqn:Ht; [|done]. apply isValidTransition_Failed in Ht.
      destruct (bool_decide _ && _); simplify_eq.
      { eapply NoStall_update; try done. by rewrite Ht. }
      destruct (cascadeFailure _ _ _ _) as [[r st1]|] eqn:Ec; [|done].
      pose proof (NoStall_failed _ _ _ _ _ _ _ _ Hpol Hnd Hi Hn E Ht Ec) as Hf.
      destruct (evaluateBarriers v st1 id). by simplify_eq.
  - by apply NoStall_cancel.
  - apply (NoStall_same_class v st); [done|..]; intros d;
      destruct (restart_class v st st' d Hv Hi Hr) as (H1 & H2 & H3 & _); auto.
Qed.

Lemma create_NoStall v : Valid v → NoStall v (createGraphStateMachine v).
Proof.
  intros Hv. pose proof (Valid_facts v Hv) as (Hnd & _). split; intros id Hid.
  - apply hasFailedOrSkippedDep_spec in Hid as (d & _ & Hc). by rewrite create_class in Hc.
  - destruct (isBarrierSatisfied _ _ _ _) eqn:E; [|done]. exfalso.
    apply create_stat in Hid as (n & Hn & <- & Hx); [|done]. case_bool_decide as Hl; [done|].
    destruct (dependsOn n) as [|d l] eqn:Ed; [done|].
    assert (1 ≤ class (stat (createGraphStateMachine v) d)) as Hc.
    { eapply isBarrierSatisfied_terminal; [done|]. rewrite depsOfNode_spec, depsOf_node by done.
      rewrite Ed. left. }
    rewrite create_class in Hc by done. lia.
Qed.

Lemma reachable_NoStall v st :
  Valid v → onFailure (graph v) = FailFast → reachable v st → NoStall v st.
Proof.
  intros Hv Hpol Hr. pose proof (create_Inv v Hv) as Hi. pose proof (create_NoStall v Hv) as Hn.
  unfold reachable in Hr. induction Hr as [|a b c Hab _ IH]; [done|].
  apply IH; [by eapply step_Inv|by eapply NoStall_step].
Qed.

(** The first pending node of a topological order has only ended dependencies. *)
Lemma first_pending_minimal st order :
  (∃ id, id ∈ order ∧ stat st id = Some Pending) →
  ∃ l1 x l2, order = l1 ++ x :: l2 ∧ stat st x = Some Pending ∧
             ∀ y, y ∈ l1 → stat st y ≠ Some Pending.
Proof.
  induction order as [|y l IH]; [by intros (? & ?%elem_of_nil & _)|]. intros (id & Hin & Hp).
  destruct (decide (stat st y = Some Pending)) as [E|E].
  - exists [], y, l. split_and!; [done|done|]. by intros ? ?%elem_of_nil.
  - destruct IH as (l1 & x & l2 & -> & ? & H).
    + apply elem_of_cons in Hin as [->|]; [done|eauto].
    + exists (y :: l1), x, l2. split_and!; [done|done|]. intros z [->|]%elem_of_cons; auto.
Qed.

Lemma not_terminal_active st :
  NoDup (mkeys st) → computeIsTerminal st = false →
  ∃ id x, stat st id = Some x ∧ isActive x = true.
Proof.
  intros Hnd Et. unfold computeIsTerminal in Et. apply not_true_iff_false in Et.
  rewrite forallb_forall in Et. setoid_rewrite <- list_elem_of_In in Et.
  destruct (decide (Exists (λ p, isActive (status p.2) = true) st)) as [Hex|Hex].
  - apply Exists_exists in Hex as ([k s] & Hin & Ha). exists k, (status s). split; [|done].
    apply stat_Some. exists s. split; [|done]. by apply elem_of_mget.
  - destruct Et. intros p Hp. apply negb_true_iff, not_true_iff_false. intros Ha. apply Hex.
    apply Exists_exists. eauto.
Qed.

(** If every pending node is blocked by no failure and by no met barrier, the
    topologically first one cannot exist without an active predecessor. *)
Lemma NoStall_progress v st :
  Valid v → Inv v st → NoStall v st →
  computeIsTerminal st = true ∨ ∃ id, stat st id = Some Ready ∨ stat st id = Some Running.
Proof.
  intros Hv Hi [Hb Hm]. pose proof (Valid_facts v Hv) as (Hnd & Hrefs & Hperm & Htopo).
  destruct (computeIsTerminal st) eqn:Et; [by left|right].
  destruct (not_terminal_active st) as (id & x & Hx & Ha); [by rewrite (inv_keys _ _ Hi)|done|].
  destruct (decide (Exists (λ n, stat st n = Some Ready ∨ stat st n = Some Running) (mkeys st)))
    as [Hex|Hno]; [apply Exists_exists in Hex; naive_solver|]. exfalso.
  assert (∀ n, stat st n = Some Ready ∨ stat st n = Some Running → False) as Hnr.
  { intros n Hn. apply Hno, Exists_exists. exists n. split; [|done].
    destruct Hn; by eapply stat_keys. }
  assert (stat st id = Some Pending) as Hid by (destruct x; try done; exfalso; eauto).
  destruct (first_pending_minimal st (executionOrder v)) as (l1 & y & l2 & Eo & Hy & Hmin).
  { exists id. split; [|done]. rewrite Hperm, <- (inv_keys _ _ Hi). by eapply stat_keys. }
  apply (eq_true_false_abs (barrierMet v st y)); [|by auto]. apply isBarrierSatisfied_all.
  intros d Hd. rewrite depsOfNode_spec in Hd by done.
  assert (d ∈ l1) as Hl1 by (by eapply Htopo).
  assert (is_Some (stat st d)) as [z Hz].
  { apply fmap_is_Some, mget_is_Some. rewrite (inv_keys _ _ Hi). by eapply refs_exist_depsOf. }
  assert (class (stat st d) ≠ 1) as H1.
  { intros H1. assert (stat st y = Some Skipped); [|congruence].
    apply Hb, hasFailedOrSkippedDep_spec. exists d. by rewrite depsOfNode_spec. }
  rewrite Hz in *. destruct z; simpl in *; try done; exfalso; eauto. by apply (Hmin d Hl1).
Qed.

(** C19: under the fail-fast policy no reachable machine stalls: while the graph
    is not terminal, some node is ready to run or running. *)
Theorem failfast_progress (v : ValidatedGraph) (st : states) :
  Valid v → onFailure (graph v) = FailFast → reachable v st →
  computeIsTerminal st = true ∨
  ∃ id, stat st id = Some Ready ∨ stat st id = Some Running.
Proof.
  intros Hv Hpol Hr. apply (NoStall_progress v); [done|by apply reachable_Inv|].
  by apply reachable_NoStall.
Qed.

(** under the fail-fast policy a node that was ever started (or is ready to
    start) has all its dependencies completed, whatever its barrier mode. *)
Theorem failfast_deps_completed (v : ValidatedGraph) (st : states) (id d : string)
    (x : NodeStatus) :
  Valid v → onFailure (graph v) = FailFast → reachable v st →
  stat st id = Some x → x ≠ Pending → x ≠ Skipped → d ∈ depsOf (gnodes v) id →
  stat st d = Some Completed.
Proof.
  intros Hv Hpol Hr Hx H1 H2 Hd. pose proof (Valid_facts v Hv) as (Hnd & _).
  rewrite <- depsOfNode_spec in Hd by done.
  pose proof (isBarrierSatisfied_terminal _ _ _ _ d
    (inv_barrier _ _ (reachable_Inv v st Hv Hr) id x Hx H1 H2) Hd) as Ht.
  assert (class (stat st d) ≠ 1) as Hn.
  { intros Hc. assert (stat st id = Some Skipped); [|congruence].
    apply (ns_bad v st (reachable_NoStall v st Hv Hpol Hr)), hasFailedOrSkippedDep_spec. eauto. }
  by destruct (stat st d) as [[]|]; simpl in *; try lia.
Qed.

(** [b] depends on [a]. *)
Definition feeds (v : ValidatedGraph) (a b : string) : Prop := a ∈ depsOf (gnodes v) b.

Lemma markNodeFailed_status v st id err prior term now res st' :
  markNodeFailed v st id err prior term now = Some (Ok res, st') → retrying res = [] →
  stat st' id = Some Failed.
Proof.
  unfold markNodeFailed. destruct (mget st id) as [s|] eqn:E; [|done].
  destruct (isValidTransition _ _); [|done].
  destruct (bool_decide _ && _); [intros; by simplify_eq|].
  destruct (cascadeFailure _ _ _ _) as [[r st1]|] eqn:Ec; [|done].
  destruct (evaluateBarriers v st1 id) as [b st2] eqn:Eb. intros H _. simplify_eq.
  assert (terminal_kept (mset st id (setFailed err (now id) s)) st') as Hk.
  { apply (rtc_prim_terminal_kept v). etrans; [by eapply cascadeLoop_prim|].
    by eapply evaluateBarriers_prim. }
  assert (stat (mset st id (setFailed err (now id) s)) id = Some Failed) as Hm
    by by rewrite stat_mset, decide_True.
  rewrite Hk, Hm; [done|]. rewrite Hm. simpl. lia.
Qed.

(** under the fail-fast policy, when a node fails for good, every node that
    depends on it, directly or through others, is skipped by the same
    operation. *)
Theorem failfast_cascade_complete (v : ValidatedGraph) (st st' : states) (id n err : string)
    (prior : option ConversationScope.Locator) (term : bool) (now : string → Z)
    (res : FailureResult) :
  Valid v → onFailure (graph v) = FailFast → reachable v st →
  markNodeFailed v st id err prior term now = Some (Ok res, st') → retrying res = [] →
  tc (feeds v) id n → stat st' n = Some Skipped.
Proof.
  intros Hv Hpol Hr Hm Hret Htc. pose proof (Valid_facts v Hv) as (Hnd & _).
  assert (reachable v st') as Hr' by (eapply rtc_r; [done|]; eapply step_op, op_failed; done).
  pose proof (ns_bad v st' (reachable_NoStall v st' Hv Hpol Hr')) as Hb.
  assert (class (stat st' id) = 1) as Hid by by rewrite (markNodeFailed_status _ _ _ _ _ _ _ _ _ Hm Hret).
  clear Hm Hret. induction Htc as [a b Hab|a b c Hab Hbc IH].
  - apply Hb, hasFailedOrSkippedDep_spec. exists a. by rewrite depsOfNode_spec.
  - apply IH. rewrite (Hb b); [done|]. apply hasFailedOrSkippedDep_spec. exists a.
    by rewrite depsOfNode_spec.
Qed.

(** every operation is a sequence of steps of the abstract machine, and a
    rejected operation changes nothing; a failure always returns, so its
    cascade terminates on every validated graph. *)
Theorem operations_refine (v : ValidatedGraph) (st : states) (id : string) :
  Valid v → NoDup (mkeys st) →
  (∀ run now, let '(r, st') := markNodeRunning st id run now in
     rtc (prim v) st st' ∧ (is_ok r = false → st' = st)) ∧
  (∀ out now, let '(r, st') := markNodeCompleted v st id out now in
     rtc (prim v) st st' ∧ (is_ok r = false → st' = st)) ∧
  (∀ err prior term now, ∃ r st',
     markNodeFailed v st id err prior term now = Some (r, st') ∧
     rtc (prim v) st st' ∧ (is_ok r = false → st' = st)) ∧
  (∀ now, rtc (prim v) st (cancel st now).2).
Proof.
  intros Hv Hnd.
  assert (∀ st', op v st st' → rtc (prim v) st st') as Hop.
  { intros st' (mid & ? & ?)%op_refines. by eapply rtc_l. }
  split_and!.
  - intros run now. destruct (markNodeRunning st id run now) as [[[]|e] st'] eqn:E.
    + split; [|done]. by eapply Hop, op_running.
    + unfold markNodeRunning in E. repeat case_match; simplify_eq; done.
  - intros out now. destruct (markNodeCompleted v st id out now) as [[r|e] st'] eqn:E.
    + split; [|done]. by eapply Hop, op_completed.
    + unfold markNodeCompleted in E. repeat case_match; simplify_eq; done.
  - intros err prior term now.
    destruct (markNodeFailed v st id err prior term now) as [[[r|e] st']|] eqn:E.
    + eexists _, _. split_and!; [done| |done]. by eapply Hop, op_failed.
    + eexists _, _. split; [done|].
      unfold markNodeFailed in E. repeat case_match; simplify_eq; done.
    + exfalso. unfold markNodeFailed in E. repeat case_match; simplify_eq.
      match goal with H : cascadeFailure v now ?s id = None |- _ =>
        destruct (cascadeFailure_total v now s id Hv) as [x Hx]; congruence end.
  - intros now. by apply cancel_prim.
Qed.

(** cancellation leaves no pending or ready node, keeps every other status,
    and so ends the graph as soon as nothing is running. *)
Theorem cancel_spec (st : states) (now : string → Z) (id : string) :
  NoDup (mkeys st) →
  stat (cancel st now).2 id =
    match stat st id with Some Pending | Some Ready => Some Skipped | o => o end ∧
  ((∀ n, stat st n ≠ Some Running) → computeIsTerminal (cancel st now).2 = true).
Proof.
  intros Hnd. split; [apply stat_cancel|]. intros Hr.
  assert (NoDup (mkeys (cancel st now).2)) as Hk.
  { assert (mkeys (cancel st now).2 = mkeys st) as ->; [|done]. simpl. unfold mkeys.
    rewrite <- list_fmap_compose. apply list_fmap_ext. intros i [k s] _. simpl.
    unfold cancelEntry. by destruct (pendingOrReady _). }
  destruct (computeIsTerminal _) eqn:E; [done|].
  apply not_terminal_active in E as (n & x & Hx & Ha); [|done]. rewrite stat_cancel in Hx.
  specialize (Hr n). by destruct (stat st n) as [[]|]; simplify_eq/=.
Qed.

(** ** Sample runs *)

Definition vDiamond : ValidatedGraph :=
  {| graph := diamond; executionOrder := ["a"; "b"; "c"; "d"] |}.

Lemma vDiamond_valid : Valid vDiamond.
Proof. exists diamond. vm_compute. reflexivity. Defined.

Definition clock0 : string → Z := λ _, 1000%Z.

Definition stRun : states := (markNodeRunning (createGraphStateMachine vDiamond) "a" "run-1" 5).2.
Definition stDone : states := (markNodeCompleted vDiamond stRun "a" (Some "out") 6).2.

Lemma stRun_op : op vDiamond (createGraphStateMachine vDiamond) stRun.
Proof. apply (op_running _ _ "a" "run-1" 5). vm_compute. reflexivity. Defined.

Lemma stDone_op : op vDiamond stRun stDone.
Proof. apply (op_completed _ _ "a" (Some "out") 6 ["b"; "c"]). vm_compute. reflexivity. Defined.

Lemma stRun_reachable : reachable vDiamond stRun.
Proof. eapply rtc_l; [apply step_op, stRun_op|apply rtc_refl]. Defined.

Lemma stDone_reachable : reachable vDiamond stDone.
Proof.
  eapply rtc_l; [apply step_op, stRun_op|].
  eapply rtc_l; [apply step_op, stDone_op|apply rtc_refl].
Defined.

Lemma graph_run_bounded_witness : 2 ≤ 9 * length (gnodes vDiamond) ∧ 2 ≤ 180.
Proof.
  apply (graph_run_bounded vDiamond 2 stDone vDiamond_valid); [vm_compute; reflexivity|].
  eapply nsteps_l; [apply stRun_op|]. eapply nsteps_l; [apply stDone_op|apply nsteps_O].
Defined.

Lemma restoreGraphStateMachine_spec_witness :
  ∃ st, restoreGraphStateMachine vDiamond stRun.*2 = Ok st ∧
        persistedIds stRun.*2 ≡ₚ ids (gnodes vDiamond) ∧
        mget st "a" = resetInterrupted <$> mget stRun "a".
Proof.
  eexists. split; [vm_compute; reflexivity|]. split; [|vm_compute; reflexivity].
  exact (proj1 (restoreGraphStateMachine_spec vDiamond stRun.*2 vDiamond_valid)).
Defined.

Lemma reachable_barrier_witness :
  barrierMet vDiamond stDone "b" = true ∧
  ∀ d, d ∈ depsOf (gnodes vDiamond) "b" → terminal (stat stDone d) = true.
Proof.
  apply (reachable_barrier vDiamond stDone "b" Ready vDiamond_valid stDone_reachable);
    [vm_compute; reflexivity|discriminate|discriminate].
Defined.

Lemma terminal_final_witness :
  stat (cancel stDone clock0).2 "a" = stat stDone "a".
Proof.
  apply (terminal_final vDiamond stDone _ "a" vDiamond_valid stDone_reachable);
    [|vm_compute; reflexivity].
  eapply rtc_l; [apply step_cancel|apply rtc_refl].
Defined.

Lemma failfast_progress_witness :
  computeIsTerminal stDone = true ∨ ∃ id, stat stDone id = Some Ready ∨ stat stDone id = Some Running.
Proof.
  apply (failfast_progress vDiamond stDone vDiamond_valid); [reflexivity|apply stDone_reachable].
Defined.

Lemma failfast_deps_completed_witness : stat stDone "a" = Some Completed.
Proof.
  apply (failfast_deps_completed vDiamond stDone "b" "a" Ready vDiamond_valid);
    [reflexivity|apply stDone_reachable|vm_compute; reflexivity|discriminate|discriminate|].
  vm_compute. left.
Defined.

Definition stFail : states :=
  match markNodeFailed vDiamond stRun "a" "boom" None true clock0 with
  | Some (_, st) => st
  | None => []
  end.

Lemma failfast_cascade_complete_witness : stat stFail "d" = Some Skipped.
Proof.
  apply (failfast_cascade_complete vDiamond stRun stFail "a" "d" "boom" None true clock0
           {| skipped := ["b"; "c"; "d"]; newlyReady := []; retrying := [] |} vDiamond_valid);
    [reflexivity|apply stRun_reachable|vm_compute; reflexivity|reflexivity|].
  eapply (tc_l _ _ "b"); [vm_compute; left|apply tc_once; vm_compute; left].
Defined.

Lemma operations_refine_witness : rtc (prim vDiamond) stDone (cancel stDone clock0).2.
Proof.
  apply (operations_refine vDiamond stDone "a" vDiamond_valid).
  apply (bool_decide_unpack _). vm_compute. exact I.
Defined.

Lemma cancel_spec_witness : stat (cancel stRun clock0).2 "b" = Some Skipped.
Proof.
  apply (cancel_spec stRun clock0 "b"). apply (bool_decide_unpack _). vm_compute. exact I.
Defined.

(** ** The continue policy can stall *)

(** [n] waits for [x] and [m] in best-effort mode, and [m] for [x].  When [x]
    fails, the cascade visits [n] first (declared before [m]), finds [m] still
    pending and leaves [n] alone; then it skips [m], and does not come back to
    [n], which it has visited. *)
Definition stallGraph : Graph :=
  sampleGraph [sampleNode "x" [] BAll 0; sampleNode "n" ["x"; "m"] BBestEffort 0;
               sampleNode "m" ["x"] BAll 0] Continue.

Definition vStall : ValidatedGraph :=
  {| graph := stallGraph; executionOrder := ["x"; "m"; "n"] |}.

Definition stStallRun : states := (markNodeRunning (createGraphStateMachine vStall) "x" "run-1" 5).2.
Definition stStall : states :=
  match markNodeFailed vStall stStallRun "x" "boom" None false clock0 with
  | Some (_, st) => st
  | None => []
  end.

Lemma op_needs_active v st st' :
  op v st st' → ∃ id, stat st id = Some Ready ∨ stat st id = Some Running.
Proof.
  destruct 1 as [st id ? ? st' H|st id ? ? ? st' H|st id ? ? ? ? ? st' H]; exists id.
  all: unfold markNodeRunning, markNodeCompleted, markNodeFailed in H; unfold stat;
    destruct (mget st id) as [s|]; [|done]; simpl;
    destruct (isValidTransition _ _) eqn:Ht; [|done].
  - left. by rewrite (isValidTransition_Running _ Ht).
  - right. by rewrite (isValidTransition_Completed _ Ht).
  - right. by rewrite (isValidTransition_Failed _ Ht).
Qed.


End GraphProgress.
