(* ===== verification/SpendAccumulator.v ===== *)
(** * The daemon-wide spend accumulator and the spend gate

  Models [packages/agent/src/budget/spend-accumulator.ts] and the
  [checkSpendCeiling] gate of [packages/agent/src/budget/budget-guard.ts],
  with the pricing discriminator of [packages/core/src/model/model-catalog.ts]
  that the gate consults.

  Amounts of money are integers in a fixed unit (the rounding of JavaScript's
  doubles is not modelled).  The three counters are finite maps and a number;
  every method of the accumulator is a function on that state.  The contract is
  an append-only ledger of postings: each counter is the sum of the postings
  under its key, and the accumulator refines it. *)

From S2P Require Import Prelude.

Open Scope string_scope.
Open Scope list_scope.
Open Scope Z_scope.

Module SpendAccumulator.

(** ** Data *)

Inductive SpendScopeKind := agent | tenant | global_.
Inductive SpendLimb := aggregateUsd | tokens | wallClockMs.
Inductive SpendUnit := usd | unit_tokens | ms.

#[export] Instance SpendScopeKind_eq_dec : EqDecision SpendScopeKind.
Proof. solve_decision. Defined.

Record SpendScope := mkScope { tenantId : string; agentId : string }.

Record SpendReservation := mkReservation {
  scopeKey : string;
  tenantKey : string;
  reservedUsd : Z }.

Record SpendWarn := mkWarn { warnScope : SpendScopeKind; totalUsd : Z; warnCapUsd : Z }.

(** [warnAtFraction] is a rational; [post / cap >= warnAtFraction] with
    [cap > 0] is compared without division. *)
Record SpendCeilings := mkCeilings {
  perAgentUsd : option Z;
  perTenantUsd : option Z;
  daemonGlobalUsd : option Z;
  warnNum : Z;
  warnDen : positive }.

Record SpendError := mkSpendError {
  errScope : SpendScopeKind;
  currentUsd : Z;
  capUsd : Z;
  estUsd : Z;
  limb : option SpendLimb;
  unit_ : option SpendUnit }.

(** The closure's state: two lazily filled maps and a running total. *)
Record Acc := mkAcc {
  perAgent : gmap string Z;
  perTenant : gmap string Z;
  global : Z }.

Definition createSpendAccumulator : Acc := mkAcc ∅ ∅ 0.

Definition agentKeyOf (scope : SpendScope) : string :=
  (tenantId scope +:+ " " +:+ agentId scope)%string.

(** [m.get(k) ?? 0] *)
Definition total (m : gmap string Z) (k : string) : Z := default 0 (m !! k).

(** ** Operations *)

Definition addToCounters (st : Acc) (scope : SpendScope) (deltaUsd : Z) : Acc :=
  let aKey := agentKeyOf scope in
  mkAcc (<[aKey := total (perAgent st) aKey + deltaUsd]> (perAgent st))
        (<[tenantId scope := total (perTenant st) (tenantId scope) + deltaUsd]> (perTenant st))
        (global st + deltaUsd).

Definition crossed (c : SpendCeilings) (post : Z) (cap : option Z) : bool :=
  match cap with
  | None => false
  | Some cap => (0 <? cap) && (warnNum c * cap <=? post * Z.pos (warnDen c))
  end.

Definition firstWarnDimension (c : SpendCeilings) (agentPost tenantPost globalPost : Z)
    : option SpendWarn :=
  if crossed c agentPost (perAgentUsd c) then
    Some (mkWarn agent agentPost (default 0 (perAgentUsd c)))
  else if crossed c tenantPost (perTenantUsd c) then
    Some (mkWarn tenant tenantPost (default 0 (perTenantUsd c)))
  else if crossed c globalPost (daemonGlobalUsd c) then
    Some (mkWarn global_ globalPost (default 0 (daemonGlobalUsd c)))
  else None.

Definition rehydrate (st : Acc) (rows : list (SpendScope * Z)) : Acc :=
  foldl (fun st row => addToCounters st row.1 row.2) st rows.

Definition recordSpend (st : Acc) (scope : SpendScope) (actualUsd : Z) : Acc :=
  addToCounters st scope actualUsd.

(** [ceiling !== null && current + est > ceiling] *)
Definition breach (cap : option Z) (current est : Z) : option Z :=
  match cap with
  | None => None
  | Some cap => if cap <? current + est then Some cap else None
  end.

Definition checkAndReserve (c : SpendCeilings) (st : Acc) (scope : SpendScope) (est : Z)
    : Result (SpendReservation * option SpendWarn) SpendError * Acc :=
  let aKey := agentKeyOf scope in
  let agentTotal := total (perAgent st) aKey in
  let tenantTotal := total (perTenant st) (tenantId scope) in
  let globalTotal := global st in
  match breach (perAgentUsd c) agentTotal est with
  | Some cap => (Err (mkSpendError agent agentTotal cap est None None), st)
  | None =>
    match breach (perTenantUsd c) tenantTotal est with
    | Some cap => (Err (mkSpendError tenant tenantTotal cap est None None), st)
    | None =>
      match breach (daemonGlobalUsd c) globalTotal est with
      | Some cap => (Err (mkSpendError global_ globalTotal cap est None None), st)
      | None =>
        let st' := addToCounters st scope est in
        let warn := firstWarnDimension c (agentTotal + est) (tenantTotal + est)
                      (globalTotal + est) in
        (Ok (mkReservation aKey (tenantId scope) est, warn), st')
      end
    end
  end.

Definition reconcile (st : Acc) (reservation : SpendReservation) (actualUsd : Z) : Acc :=
  let delta := actualUsd - reservedUsd reservation in
  if delta =? 0 then st else
  mkAcc
    (<[scopeKey reservation := total (perAgent st) (scopeKey reservation) + delta]>
       (perAgent st))
    (<[tenantKey reservation := total (perTenant st) (tenantKey reservation) + delta]>
       (perTenant st))
    (global st + delta).

Definition getSnapshot (st : Acc) : gmap string Z * gmap string Z * Z :=
  (perAgent st, perTenant st, global st).

(** ** The pricing discriminator and the gate *)

Inductive PricingState := priced | free | unknown.

Record CatalogCost := mkCost { input : Z; output : Z; cacheRead : Z }.

Section Pricing.
(** [catalogGet] is the model catalog: the cost of an entry, or nothing. *)
Variable catalogGet : string -> string -> option CatalogCost.

(** The provider table is a plain object: [NATIVE_PROVIDER_FAMILY[key]] is
    also defined for the two lower-case names every object inherits. *)
Definition NATIVE_PROVIDER_FAMILY : list string :=
  ["anthropic"; "openai"; "google"; "mistral"; "deepseek"; "cohere"; "xai"].
Definition inheritedKeys : list string := ["constructor"; "__proto__"].

Definition isNativeProvider (provider : string) : bool :=
  bool_decide (toLowerCase provider ∈ NATIVE_PROVIDER_FAMILY ++ inheritedKeys).

Definition resolvePricingState (provider modelId : string) : PricingState :=
  let rates := default (mkCost 0 0 0) (catalogGet provider modelId) in
  if (0 <? input rates) || (0 <? cacheRead rates) || (0 <? output rates) then priced
  else if negb (isNativeProvider provider) then free
  else unknown.
End Pricing.

Inductive SpendGateOutcome :=
| gate_ok (reservation : SpendReservation) (warn : option SpendWarn)
| gate_free
| gate_unpriceable (provider model : string)
| gate_exceeded (error : SpendError).

(** [resolve] is the pricing resolver in force; [None] is a resolver that
    throws, which the gate treats as priced. *)
Definition checkSpendCeiling (c : SpendCeilings) (st : Acc) (scope : SpendScope)
    (provider model : string) (est : Z) (burnedTokens : bool)
    (resolve : string -> string -> option PricingState)
    : Result SpendGateOutcome SpendError * Acc :=
  let state := default priced (resolve provider model) in
  match state with
  | free => (Ok gate_free, st)
  | _ =>
    if match state with unknown => burnedTokens | _ => false end
    then (Ok (gate_unpriceable provider model), st)
    else
      match checkAndReserve c st scope est with
      | (Ok (reservation, warn), st') => (Ok (gate_ok reservation warn), st')
      | (Err e, st') => (Ok (gate_exceeded e), st')
      end
  end.

(** ** Sequences of operations *)

Inductive Op :=
| Rehydrate (rows : list (SpendScope * Z))
| RecordSpend (scope : SpendScope) (actual : Z)
| CheckAndReserve (scope : SpendScope) (est : Z)
| Reconcile (reservation : SpendReservation) (actual : Z).

Abbreviation Answer := (Result (SpendReservation * option SpendWarn) SpendError).

Definition step (c : SpendCeilings) (st : Acc) (op : Op) : option Answer * Acc :=
  match op with
  | Rehydrate rows => (None, rehydrate st rows)
  | RecordSpend s a => (None, recordSpend st s a)
  | CheckAndReserve s e => let '(r, st') := checkAndReserve c st s e in (Some r, st')
  | Reconcile r a => (None, reconcile st r a)
  end.

Fixpoint run (c : SpendCeilings) (st : Acc) (ops : list Op) : list (option Answer) * Acc :=
  match ops with
  | [] => ([], st)
  | op :: ops =>
    let '(a, st') := step c st op in
    let '(l, st'') := run c st' ops in (a :: l, st'')
  end.

(** ** The ledger contract *)

Record Posting := mkPosting { pAgent : string; pTenant : string; pUsd : Z }.
Abbreviation ledger := (list Posting).

Fixpoint sumWhere (f : Posting -> bool) (L : ledger) : Z :=
  match L with
  | [] => 0
  | p :: L => (if f p then pUsd p else 0) + sumWhere f L
  end.

Definition agentSum (L : ledger) (k : string) : Z :=
  sumWhere (fun p => bool_decide (pAgent p = k)) L.
Definition tenantSum (L : ledger) (k : string) : Z :=
  sumWhere (fun p => bool_decide (pTenant p = k)) L.
Definition globalSum (L : ledger) : Z := sumWhere (fun _ => true) L.

Definition posting (s : SpendScope) (u : Z) : Posting :=
  mkPosting (agentKeyOf s) (tenantId s) u.

(** A reservation fits when no enabled ceiling would be passed; otherwise the
    first dimension passed, in the order agent, tenant, global, is reported. *)
Definition dimensions (c : SpendCeilings) (L : ledger) (s : SpendScope)
    : list (SpendScopeKind * Z * option Z) :=
  [ (agent, agentSum L (agentKeyOf s), perAgentUsd c);
    (tenant, tenantSum L (tenantId s), perTenantUsd c);
    (global_, globalSum L, daemonGlobalUsd c) ].

Fixpoint firstBreach (ds : list (SpendScopeKind * Z * option Z)) (est : Z)
    : option SpendError :=
  match ds with
  | [] => None
  | (k, cur, Some cap) :: ds =>
    if bool_decide (cur + est <= cap) then firstBreach ds est
    else Some (mkSpendError k cur cap est None None)
  | (_, _, None) :: ds => firstBreach ds est
  end.

Fixpoint firstWarn (c : SpendCeilings) (ds : list (SpendScopeKind * Z * option Z)) (est : Z)
    : option SpendWarn :=
  match ds with
  | [] => None
  | (k, cur, Some cap) :: ds =>
    if bool_decide (0 < cap /\ warnNum c * cap <= (cur + est) * Z.pos (warnDen c))
    then Some (mkWarn k (cur + est) cap) else firstWarn c ds est
  | (_, _, None) :: ds => firstWarn c ds est
  end.

Definition ledgerStep (c : SpendCeilings) (L : ledger) (op : Op)
    : option Answer * ledger :=
  match op with
  | Rehydrate rows => (None, rev ((fun r => posting r.1 r.2) <$> rows) ++ L)
  | RecordSpend s a => (None, posting s a :: L)
  | CheckAndReserve s e =>
    match firstBreach (dimensions c L s) e with
    | Some err => (Some (Err err), L)
    | None =>
      (Some (Ok (mkReservation (agentKeyOf s) (tenantId s) e,
                 firstWarn c (dimensions c L s) e)), posting s e :: L)
    end
  | Reconcile r a =>
    (None, mkPosting (scopeKey r) (tenantKey r) (a - reservedUsd r) :: L)
  end.

Fixpoint ledgerRun (c : SpendCeilings) (L : ledger) (ops : list Op)
    : list (option Answer) * ledger :=
  match ops with
  | [] => ([], L)
  | op :: ops =>
    let '(a, L') := ledgerStep c L op in
    let '(l, L'') := ledgerRun c L' ops in (a :: l, L'')
  end.

(** ** Refinement *)

Record Refines (st : Acc) (L : ledger) : Prop := {
  ref_agent : forall k, total (perAgent st) k = agentSum L k;
  ref_tenant : forall k, total (perTenant st) k = tenantSum L k;
  ref_global : global st = globalSum L }.

Lemma total_insert m k v k' :
  total (<[k := v]> m) k' = if bool_decide (k = k') then v else total m k'.
Proof.
  unfold total. case_bool_decide; subst.
  - by rewrite lookup_insert_eq.
  - by rewrite lookup_insert_ne.
Qed.

Lemma refines_init : Refines createSpendAccumulator [].
Proof. split; intros; unfold total; rewrite ?lookup_empty; done. Qed.

(** Every mutation of the counters is the posting of one amount. *)
Lemma refines_post st L a t u :
  Refines st L ->
  Refines (mkAcc (<[a := total (perAgent st) a + u]> (perAgent st))
                 (<[t := total (perTenant st) t + u]> (perTenant st))
                 (global st + u)) (mkPosting a t u :: L).
Proof.
  intros [HA HT HG].
  split; simpl; intros; unfold agentSum, tenantSum, globalSum; simpl;
    rewrite ?total_insert, ?HA, ?HT, ?HG; unfold agentSum, tenantSum, globalSum.
  - case_bool_decide; subst; lia.
  - case_bool_decide; subst; lia.
  - lia.
Qed.

Lemma refines_add st L s u : Refines st L -> Refines (addToCounters st s u) (posting s u :: L).
Proof. apply refines_post. Qed.

Lemma refines_rehydrate rows st L :
  Refines st L ->
  Refines (rehydrate st rows) (rev ((fun r => posting r.1 r.2) <$> rows) ++ L).
Proof.
  revert st L. induction rows as [|r rows IH]; intros st L H; simpl; [done|].
  rewrite <- app_assoc. apply IH. by apply refines_add.
Qed.

Lemma refines_reconcile st L r a :
  Refines st L ->
  Refines (reconcile st r a) (mkPosting (scopeKey r) (tenantKey r) (a - reservedUsd r) :: L).
Proof.
  intros H. unfold reconcile. destruct (_ =? 0) eqn:E; [|by apply refines_post].
  apply Z.eqb_eq in E. rewrite E. destruct H as [HA HT HG].
  split; intros; unfold agentSum, tenantSum, globalSum in *; simpl;
    rewrite ?HA, ?HT, ?HG; repeat case_bool_decide; lia.
Qed.

Lemma breach_spec cap cur est :
  breach cap cur est =
  match cap with
  | Some x => if bool_decide (cur + est <= x) then None else Some x
  | None => None
  end.
Proof.
  destruct cap as [x|]; simpl; [|done]. case_bool_decide; destruct (x <? cur + est) eqn:E; try done.
  - apply Z.ltb_lt in E. lia.
  - apply Z.ltb_ge in E. lia.
Qed.

Lemma crossed_spec c post cap :
  crossed c post (Some cap) =
  bool_decide (0 < cap /\ warnNum c * cap <= post * Z.pos (warnDen c)).
Proof.
  unfold crossed.
  destruct (0 <? cap) eqn:E1; destruct (_ <=? _) eqn:E2; simpl;
    case_bool_decide; try done; lia.
Qed.

Lemma checkAndReserve_ledger c st L s e :
  Refines st L ->
  (ledgerStep c L (CheckAndReserve s e)).1 = (step c st (CheckAndReserve s e)).1 /\
  Refines (step c st (CheckAndReserve s e)).2 (ledgerStep c L (CheckAndReserve s e)).2.
Proof.
  intros H. pose proof H as [HA HT HG].
  simpl. unfold checkAndReserve, firstWarnDimension.
  rewrite !breach_spec, HA, HT, HG.
  destruct (perAgentUsd c) as [ca|] eqn:Ea, (perTenantUsd c) as [ct|] eqn:Et,
    (daemonGlobalUsd c) as [cg|] eqn:Eg; rewrite ?crossed_spec; simpl;
    repeat (case_bool_decide; simpl; try (split; [done|done]));
    try (split; [done | by apply refines_add]).
Qed.

Lemma step_refines c st L op :
  Refines st L ->
  (step c st op).1 = (ledgerStep c L op).1 /\ Refines (step c st op).2 (ledgerStep c L op).2.
Proof.
  intros H. destruct op as [rows|s a|s e|r a].
  - split; [done|]. by apply refines_rehydrate.
  - split; [done|]. by apply refines_add.
  - destruct (checkAndReserve_ledger c st L s e H) as [E ?]. by rewrite E.
  - split; [done|]. by apply refines_reconcile.
Qed.

Lemma run_refines c ops st L :
  Refines st L ->
  (run c st ops).1 = (ledgerRun c L ops).1 /\ Refines (run c st ops).2 (ledgerRun c L ops).2.
Proof.
  revert st L. induction ops as [|op ops IH]; intros st L H; simpl; [done|].
  destruct (step_refines c st L op H) as [E R].
  destruct (step c st op) as [a st'], (ledgerStep c L op) as [a' L']; simpl in *; subst a'.
  destruct (IH st' L' R) as [E' R'].
  destruct (run c st' ops) as [l st''], (ledgerRun c L' ops) as [l' L'']; simpl in *.
  by subst.
Qed.


(** ** The ceilings bound what is committed *)

(** What an operation may add beyond the ceilings: spend reported after the
    fact.  A reservation contributes nothing. *)
Definition overrunOf (op : Op) : Z :=
  match op with
  | Rehydrate rows => foldr (fun r s => Z.max 0 r.2 + s) 0 rows
  | RecordSpend _ a => Z.max 0 a
  | CheckAndReserve _ _ => 0
  | Reconcile r a => Z.max 0 (a - reservedUsd r)
  end.
Definition overrun (ops : list Op) : Z := foldr (fun op s => overrunOf op + s) 0 ops.

Definition CapLe (cap : option Z) (slack v : Z) : Prop :=
  match cap with Some x => v <= x + slack | None => True end.

Record Within (c : SpendCeilings) (slack : Z) (st : Acc) : Prop := {
  win_agent : forall k, CapLe (perAgentUsd c) slack (total (perAgent st) k);
  win_tenant : forall k, CapLe (perTenantUsd c) slack (total (perTenant st) k);
  win_global : CapLe (daemonGlobalUsd c) slack (global st) }.

Definition capsNonneg (c : SpendCeilings) : Prop :=
  forall x, Some x ∈ [perAgentUsd c; perTenantUsd c; daemonGlobalUsd c] -> 0 <= x.

Lemma within_post c slack st a t u :
  Within c slack st ->
  Within c (slack + Z.max 0 u)
    (mkAcc (<[a := total (perAgent st) a + u]> (perAgent st))
           (<[t := total (perTenant st) t + u]> (perTenant st)) (global st + u)).
Proof.
  intros [HA HT HG]. split; simpl; intros.
  - rewrite total_insert. specialize (HA k) as H1. specialize (HA a) as H2.
    case_bool_decide; subst; destruct (perAgentUsd c); simpl in *; lia.
  - rewrite total_insert. specialize (HT k) as H1. specialize (HT t) as H2.
    case_bool_decide; subst; destruct (perTenantUsd c); simpl in *; lia.
  - destruct (daemonGlobalUsd c); simpl in *; lia.
Qed.

Lemma within_weaken c s s' st : s <= s' -> Within c s st -> Within c s' st.
Proof.
  intros Hs [HA HT HG]. split; intros.
  - specialize (HA k). destruct (perAgentUsd c); simpl in *; lia.
  - specialize (HT k). destruct (perTenantUsd c); simpl in *; lia.
  - destruct (daemonGlobalUsd c); simpl in *; lia.
Qed.

Lemma within_rehydrate c rows slack st :
  Within c slack st ->
  Within c (slack + foldr (fun r s => Z.max 0 r.2 + s) 0 rows) (rehydrate st rows).
Proof.
  revert slack st. induction rows as [|r rows IH]; intros slack st H; simpl.
  - by replace (slack + 0) with slack by lia.
  - rewrite Z.add_assoc. apply IH. by apply within_post.
Qed.

(** The result of a reservation, in terms of the three totals. *)
Lemma checkAndReserve_inv c st s e r st' :
  checkAndReserve c st s e = (r, st') ->
  match r with
  | Ok (res, w) =>
      res = mkReservation (agentKeyOf s) (tenantId s) e /\ st' = addToCounters st s e /\
      CapLe (perAgentUsd c) 0 (total (perAgent st) (agentKeyOf s) + e) /\
      CapLe (perTenantUsd c) 0 (total (perTenant st) (tenantId s) + e) /\
      CapLe (daemonGlobalUsd c) 0 (global st + e)
  | Err err => st' = st /\ capUsd err < currentUsd err + e
  end.
Proof.
  unfold checkAndReserve. rewrite !breach_spec. unfold CapLe.
  destruct (perAgentUsd c), (perTenantUsd c), (daemonGlobalUsd c);
    repeat case_bool_decide; intros [= <- <-]; simpl; split_and?; try done; lia.
Qed.

Lemma within_reserve c slack st s e :
  0 <= slack -> Within c slack st -> Within c slack (checkAndReserve c st s e).2.
Proof.
  intros Hs [HA HT HG].
  destruct (checkAndReserve c st s e) as [r st'] eqn:E. apply checkAndReserve_inv in E.
  destruct r as [[res w]|err]; [|by destruct E as [-> _]].
  destruct E as (_ & -> & H1 & H2 & H3). split; simpl; intros.
  - rewrite total_insert. specialize (HA k).
    case_bool_decide; subst; destruct (perAgentUsd c); simpl in *; lia.
  - rewrite total_insert. specialize (HT k).
    case_bool_decide; subst; destruct (perTenantUsd c); simpl in *; lia.
  - destruct (daemonGlobalUsd c); simpl in *; lia.
Qed.

Lemma within_step c slack st op :
  0 <= slack -> Within c slack st -> Within c (slack + overrunOf op) (step c st op).2.
Proof.
  intros Hs H. destruct op as [rows|s a|s e|r a]; simpl.
  - by apply within_rehydrate.
  - by apply within_post.
  - pose proof (within_reserve c slack st s e Hs H).
    destruct (checkAndReserve c st s e). by rewrite Z.add_0_r.
  - unfold reconcile. destruct (_ =? 0); [|by apply within_post].
    eapply within_weaken; [|done]. lia.
Qed.

Lemma overrunOf_nonneg op : 0 <= overrunOf op.
Proof.
  destruct op as [rows|s a|s e|r a]; simpl; try lia. induction rows; simpl; lia.
Qed.

Lemma within_run c ops slack st :
  0 <= slack -> Within c slack st -> Within c (slack + overrun ops) (run c st ops).2.
Proof.
  revert slack st. induction ops as [|op ops IH]; intros slack st Hs H; simpl.
  - by rewrite Z.add_0_r.
  - pose proof (within_step c slack st op Hs H) as H1. pose proof (overrunOf_nonneg op).
    destruct (step c st op) as [a st']. simpl in H1.
    specialize (IH (slack + overrunOf op) st' ltac:(lia) H1).
    destruct (run c st' ops) as [l st'']. simpl in *. by rewrite Z.add_assoc.
Qed.

Lemma within_init c : capsNonneg c -> Within c 0 createSpendAccumulator.
Proof.
  intros H.
  assert (forall o, o ∈ [perAgentUsd c; perTenantUsd c; daemonGlobalUsd c] -> CapLe o 0 0) as Hc.
  { intros [x|] Hx; simpl; [|done]. apply H in Hx. lia. }
  split; intros; unfold total; simpl; rewrite ?lookup_empty; simpl; apply Hc; set_solver.
Qed.

(** The kill switch holds under any interleaving: with non-negative
    ceilings, every counter stays within its ceiling plus the spend that was
    reported after the fact (boot rows, unreserved bills and the excess of a
    bill over its reservation).  Reservations alone, however many are in
    flight at once, never carry a counter past its ceiling. *)
Theorem ceilings_bound_spend (c : SpendCeilings) (ops : list Op) :
  capsNonneg c -> Within c (overrun ops) (run c createSpendAccumulator ops).2.
Proof.
  intros H. replace (overrun ops) with (0 + overrun ops) by lia.
  apply within_run; [lia|]. by apply within_init.
Qed.

Definition sampleCeilings : SpendCeilings := mkCeilings (Some 10) (Some 15) None 4 5.
Definition alice : SpendScope := mkScope "acme" "alice".
Definition bob : SpendScope := mkScope "acme" "bob".

Lemma ceilings_bound_spend_witness :
  let ops := [CheckAndReserve alice 8; CheckAndReserve bob 7; CheckAndReserve bob 1;
              Reconcile (mkReservation "acme alice" "acme" 8) 9] in
  overrun ops = 1 /\ total (perTenant (run sampleCeilings createSpendAccumulator ops).2) "acme" = 16
  /\ Within sampleCeilings 1 (run sampleCeilings createSpendAccumulator ops).2.
Proof.
  split; [reflexivity|]. split; [vm_compute; reflexivity|].
  apply (ceilings_bound_spend sampleCeilings
    [CheckAndReserve alice 8; CheckAndReserve bob 7; CheckAndReserve bob 1;
     Reconcile (mkReservation "acme alice" "acme" 8) 9]).
  intros x Hx. simpl in Hx. set_unfold in Hx. destruct_or?; simplify_eq; lia.
Defined.

(** ** Settling a reservation *)

(** Two states are equivalent when every counter reads the same; a counter
    that was never written reads as zero. *)
#[export] Instance Acc_equiv : Equiv Acc := fun st st' =>
  (forall k, total (perAgent st) k = total (perAgent st') k) /\
  (forall k, total (perTenant st) k = total (perTenant st') k) /\
  global st = global st'.

#[export] Instance Acc_equivalence : Equivalence (≡@{Acc}).
Proof.
  split.
  - by intros st.
  - intros st st' (H1 & H2 & H3). by split_and!.
  - intros st1 st2 st3 (H1 & H2 & H3) (H4 & H5 & H6).
    split_and!; intros; etrans; eauto.
Qed.

Lemma refines_equiv st st' L L' :
  Refines st L -> Refines st' L' ->
  (forall f : string -> string -> bool,
     sumWhere (fun p => f (pAgent p) (pTenant p)) L =
     sumWhere (fun p => f (pAgent p) (pTenant p)) L') -> st ≡ st'.
Proof.
  intros [HA HT HG] [HA' HT' HG'] E. split_and!; intros.
  - rewrite HA, HA'. exact (E (fun (a _ : string) => bool_decide (a = k))).
  - rewrite HT, HT'. exact (E (fun (_ t : string) => bool_decide (t = k))).
  - rewrite HG, HG'. exact (E (fun _ _ => true)).
Qed.

Lemma sumWhere_app f L L' : sumWhere f (L ++ L') = sumWhere f L + sumWhere f L'.
Proof. induction L as [|p L IH]; simpl; [done|]. rewrite IH. lia. Qed.

Definition isPosting (op : Op) : bool :=
  match op with CheckAndReserve _ _ => false | _ => true end.

Lemma ledgerRun_app c L ops ops' :
  (ledgerRun c L (ops ++ ops')).2 = (ledgerRun c (ledgerRun c L ops).2 ops').2.
Proof.
  revert L. induction ops as [|op ops IH]; intros L; simpl; [done|].
  destruct (ledgerStep c L op) as [a L']. specialize (IH L').
  destruct (ledgerRun c L' ops) as [l L1], (ledgerRun c L' (ops ++ ops')) as [l' L2].
  by simpl in *.
Qed.

(** Operations that do not reserve post the same amounts whatever the ledger
    holds. *)
Lemma ledgerRun_postings c ops :
  forallb isPosting ops = true -> exists P, forall L, (ledgerRun c L ops).2 = P ++ L.
Proof.
  induction ops as [|op ops IH]; simpl; [by exists []|].
  intros [Hop [P HP]%IH]%andb_prop.
  assert (exists P', forall L, (ledgerStep c L op).2 = P' ++ L) as [P' HP'].
  { destruct op as [rows|s a|s e|r a]; simpl in *; try done; eauto.
    - by eexists [_].
    - by eexists [_]. }
  exists (P ++ P'). intros L. specialize (HP' L).
  destruct (ledgerStep c L op) as [x L']. simpl in HP'. subst L'. specialize (HP (P' ++ L)).
  destruct (ledgerRun c (P' ++ L) ops) as [l L']. simpl in *. by rewrite HP, app_assoc.
Qed.

(** Settling a granted reservation leaves the books as if the actual
    amount had been billed and nothing reserved, in whatever state the
    reservation was granted and whatever bills and settlements of other turns
    came in between: an over-estimate does not consume the ceiling. *)
Theorem settle_reservation (c : SpendCeilings) (ops0 ops : list Op) (s : SpendScope)
    (e a : Z) (r : SpendReservation) (w : option SpendWarn) :
  let st := (run c createSpendAccumulator ops0).2 in
  (checkAndReserve c st s e).1 = Ok (r, w) ->
  forallb isPosting ops = true ->
  (run c (checkAndReserve c st s e).2 (ops ++ [Reconcile r a])).2 ≡
  (run c st (ops ++ [RecordSpend s a])).2.
Proof.
  intros st Hr Hops. destruct (run_refines c ops0 _ _ refines_init) as [_ HR].
  fold st in HR. set (L := (ledgerRun c [] ops0).2) in HR.
  destruct (checkAndReserve c st s e) as [r0 st1] eqn:E. simpl in Hr. subst r0.
  apply checkAndReserve_inv in E. destruct E as (-> & -> & _). simpl.
  destruct (ledgerRun_postings c ops Hops) as [P HP].
  eapply refines_equiv.
  - apply run_refines, refines_add, HR.
  - apply run_refines, HR.
  - intros f. rewrite !ledgerRun_app, !HP. simpl. rewrite !sumWhere_app. simpl.
    destruct (f _ _); lia.
Qed.

Lemma settle_reservation_witness :
  let st := (run sampleCeilings createSpendAccumulator [RecordSpend bob 2]).2 in
  let st1 := (checkAndReserve sampleCeilings st alice 8).2 in
  (run sampleCeilings st1 [RecordSpend bob 3; Reconcile (mkReservation "acme alice" "acme" 8) 5]).2
  ≡ (run sampleCeilings st [RecordSpend bob 3; RecordSpend alice 5]).2.
Proof.
  apply (settle_reservation sampleCeilings [RecordSpend bob 2] [RecordSpend bob 3] alice 8 5
    (mkReservation "acme alice" "acme" 8) (Some (mkWarn agent 8 10))); vm_compute; reflexivity.
Defined.

(** ** The gate *)

(** The spend gate never fails and never fails open.  A free model passes
    without touching the books; an unknown price on a model that burned tokens
    is reported and nothing is reserved; in every other case, a throwing price
    resolver included, the gate grants exactly what the accumulator grants and
    reports its breach otherwise. *)
Theorem checkSpendCeiling_failsafe (c : SpendCeilings) (st : Acc) (s : SpendScope)
    (provider model : string) (est : Z) (burned : bool)
    (resolve : string -> string -> option PricingState) :
  let '(r, st') := checkSpendCeiling c st s provider model est burned resolve in
  exists out, r = Ok out /\
  match out with
  | gate_free => resolve provider model = Some free /\ st' = st
  | gate_unpriceable p m =>
      p = provider /\ m = model /\ resolve provider model = Some unknown /\
      burned = true /\ st' = st
  | gate_ok res w =>
      resolve provider model <> Some free /\
      ~ (resolve provider model = Some unknown /\ burned = true) /\
      reservedUsd res = est /\ st' = addToCounters st s est /\
      CapLe (perAgentUsd c) 0 (total (perAgent st') (agentKeyOf s)) /\
      CapLe (perTenantUsd c) 0 (total (perTenant st') (tenantId s)) /\
      CapLe (daemonGlobalUsd c) 0 (global st')
  | gate_exceeded err =>
      resolve provider model <> Some free /\
      ~ (resolve provider model = Some unknown /\ burned = true) /\
      st' = st /\ capUsd err < currentUsd err + est
  end.
Proof.
  unfold checkSpendCeiling.
  assert (forall r st', checkAndReserve c st s est = (r, st') ->
    match r with
    | Ok (res, _) => reservedUsd res = est /\ st' = addToCounters st s est /\
        CapLe (perAgentUsd c) 0 (total (perAgent st') (agentKeyOf s)) /\
        CapLe (perTenantUsd c) 0 (total (perTenant st') (tenantId s)) /\
        CapLe (daemonGlobalUsd c) 0 (global st')
    | Err err => st' = st /\ capUsd err < currentUsd err + est
    end) as HR.
  { intros r st' H%checkAndReserve_inv. destruct r as [[res w]|err]; [|done].
    destruct H as (-> & -> & H). unfold addToCounters. simpl.
    rewrite !total_insert, !bool_decide_true by done. split_and!; first [done | apply H]. }
  destruct (checkAndReserve c st s est) as [[[res w]|err] st'];
    specialize (HR _ _ eq_refl);
    destruct (resolve provider model) as [[| |]|] eqn:E; destruct burned; simpl;
    eexists; (split; [reflexivity|]); simpl; naive_solver.
Qed.

End SpendAccumulator.
