(* ===== verification/PerRootBudget.v ===== *)
(** * The per-root budget meter

  Models [packages/daemon/src/autonomy/per-root-budget.ts]: the dollar, token
  and wall-clock limbs of one autonomy tree, over the spend accumulator of
  [SpendAccumulator].  Clock reads are arguments; a [reserveBudget] call reads
  the clock at most twice, first for a missing anchor ([nowStart]) and then for
  the elapsed time ([now]).  The warning hook's calls are returned as a list. *)

From S2P Require Import Prelude SpendAccumulator.
Import SpendAccumulator.

Open Scope string_scope.
Open Scope list_scope.
Open Scope Z_scope.

Module PerRootBudget.

(** ** Data *)

Record BudgetConfig := mkBudgetConfig {
  cfgAggregateUsd : Z;
  cfgTokens : Z;
  cfgWallClockMs : Z }.

Record DurableRootBudget := mkDurable {
  startedAtMs : Z;
  tokensConsumed : Z;
  usdConsumed : Z }.

Record LimbWarning := mkLimbWarning {
  lwRoot : string; lwLimb : SpendLimb; lwSpent : Z; lwCap : Z; lwUnit : SpendUnit }.

#[export] Instance SpendLimb_eq_dec : EqDecision SpendLimb.
Proof. solve_decision. Defined.

Record Meter := mkMeter {
  rootStartMs : gmap string Z;
  tokenTotals : gmap string Z;
  usdTotals : gmap string Z;
  warnedLimbs : gmap string (list SpendLimb);
  perRootUsdAccumulator : Acc }.

Section Meter.
(** The configuration, whether a warning hook is wired, and the pricing
    resolver the dollar gate consults ([None] when it throws). *)
Variable config : BudgetConfig.
Variable hasHook : bool.
Variable resolve : string -> string -> option PricingState.

Definition createPerRootBudget : Meter := mkMeter ∅ ∅ ∅ ∅ createSpendAccumulator.

(** [WARN_FRACTION] is 4/5. *)
Definition ceilings : SpendCeilings :=
  mkCeilings (Some (cfgAggregateUsd config)) None None 4 5.

Definition rootScope (rootRunId : string) : SpendScope := mkScope "_root" rootRunId.

Definition setStart (m : Meter) (r : string) (t : Z) : Meter :=
  mkMeter (<[r := t]> (rootStartMs m)) (tokenTotals m) (usdTotals m) (warnedLimbs m)
    (perRootUsdAccumulator m).
Definition setTokens (m : Meter) (r : string) (t : Z) : Meter :=
  mkMeter (rootStartMs m) (<[r := t]> (tokenTotals m)) (usdTotals m) (warnedLimbs m)
    (perRootUsdAccumulator m).
Definition setUsd (m : Meter) (r : string) (u : Z) : Meter :=
  mkMeter (rootStartMs m) (tokenTotals m) (<[r := u]> (usdTotals m)) (warnedLimbs m)
    (perRootUsdAccumulator m).
Definition setAcc (m : Meter) (a : Acc) : Meter :=
  mkMeter (rootStartMs m) (tokenTotals m) (usdTotals m) (warnedLimbs m) a.
Definition setWarned (m : Meter) (r : string) (ls : list SpendLimb) : Meter :=
  mkMeter (rootStartMs m) (tokenTotals m) (usdTotals m) (<[r := ls]> (warnedLimbs m))
    (perRootUsdAccumulator m).

(** ** Operations *)

Definition warnLimb (m : Meter) (r : string) (limb : SpendLimb) (spent cap : Z)
    (unit : SpendUnit) : list LimbWarning * Meter :=
  if negb hasHook then ([], m)
  else
    let limbs := default [] (warnedLimbs m !! r) in
    if bool_decide (limb ∈ limbs) then ([], m)
    else ([mkLimbWarning r limb spent cap unit], setWarned m r (limbs ++ [limb])).

Definition registerRoot (m : Meter) (r : string) (now : Z) : Meter :=
  match rootStartMs m !! r with
  | Some _ => m
  | None => setStart m r now
  end.

Definition exportState (m : Meter) (r : string) (now : Z) : DurableRootBudget * Meter :=
  let '(s, m') :=
    match rootStartMs m !! r with
    | Some s => (s, m)
    | None => (now, setStart m r now)
    end in
  (mkDurable s (total (tokenTotals m') r) (total (usdTotals m') r), m').

Definition rehydrate (m : Meter) (r : string) (s : DurableRootBudget) : Meter :=
  let m1 := setStart m r
    match rootStartMs m !! r with
    | None => startedAtMs s
    | Some cur => Z.min cur (startedAtMs s)
    end in
  let m2 := setTokens m1 r (Z.max (total (tokenTotals m) r) (tokensConsumed s)) in
  let currentUsd := total (usdTotals m) r in
  if currentUsd <? usdConsumed s then
    setUsd (setAcc m2 (recordSpend (perRootUsdAccumulator m2) (rootScope r)
                         (usdConsumed s - currentUsd))) r (usdConsumed s)
  else m2.

Definition evictRoot (m : Meter) (r : string) : Meter :=
  mkMeter (delete r (rootStartMs m)) (delete r (tokenTotals m)) (usdTotals m)
    (delete r (warnedLimbs m)) (perRootUsdAccumulator m).

(** The dollar limb: the gate, the mirror counter, the warning and the
    branding of an unbranded breach. *)
Definition usdLimb (m : Meter) (r provider model : string) (est estTokens : Z)
    : SpendGateOutcome * list LimbWarning * Meter :=
  let '(res, acc') := checkSpendCeiling ceilings (perRootUsdAccumulator m) (rootScope r)
      provider model est (0 <? estTokens) resolve in
  let m1 := setAcc m acc' in
  let outcome := match res with Ok o => o | Err e => gate_exceeded e end in
  match outcome with
  | gate_ok _ (Some w) =>
      let m2 := setUsd m1 r (total (usdTotals m1) r + est) in
      let '(ws, m3) := warnLimb m2 r aggregateUsd (totalUsd w) (warnCapUsd w) usd in
      (outcome, ws, m3)
  | gate_ok _ None => (outcome, [], setUsd m1 r (total (usdTotals m1) r + est))
  | gate_exceeded e =>
      match limb e with
      | None =>
          (gate_exceeded (mkSpendError (errScope e) (currentUsd e) (capUsd e) (estUsd e)
             (Some aggregateUsd) (Some usd)), [], m1)
      | Some _ => (outcome, [], m1)
      end
  | _ => (outcome, [], m1)
  end.

Definition reserveBudget (m : Meter) (r provider model : string) (est estTokens : Z)
    (nowStart now : Z) : SpendGateOutcome * list LimbWarning * Meter :=
  let '(startMs, m0) :=
    match rootStartMs m !! r with
    | Some s => (s, m)
    | None => (nowStart, setStart m r nowStart)
    end in
  let elapsedMs := now - startMs in
  let cap := cfgWallClockMs config in
  let '(ws1, m1) :=
    if (elapsedMs <=? cap) && (4 * cap <=? 5 * elapsedMs)
    then warnLimb m0 r wallClockMs elapsedMs cap ms else ([], m0) in
  if cap <? elapsedMs then
    (gate_exceeded (mkSpendError agent elapsedMs cap 0 (Some wallClockMs) (Some ms)), ws1, m1)
  else
  let priorTokens := total (tokenTotals m1) r in
  let nextTokens := priorTokens + estTokens in
  if cfgTokens config <? nextTokens then
    (gate_exceeded (mkSpendError agent priorTokens (cfgTokens config) estTokens
       (Some tokens) (Some unit_tokens)), ws1, m1)
  else
  let m2 := setTokens m1 r nextTokens in
  let '(ws2, m3) :=
    if 4 * cfgTokens config <=? 5 * nextTokens
    then warnLimb m2 r tokens nextTokens (cfgTokens config) unit_tokens else ([], m2) in
  let '(outcome, ws3, m4) := usdLimb m3 r provider model est estTokens in
  (outcome, ws1 ++ ws2 ++ ws3, m4).

Record Remaining := mkRemaining {
  tokensRemaining : Z; wallClockMsRemaining : Z; usdRemaining : option Z }.

Definition remaining (m : Meter) (r : string) (now : Z) : Remaining :=
  let elapsedMs := match rootStartMs m !! r with None => 0 | Some s => now - s end in
  mkRemaining (Z.max 0 (cfgTokens config - total (tokenTotals m) r))
    (Z.max 0 (cfgWallClockMs config - elapsedMs))
    (Some (Z.max 0 (cfgAggregateUsd config - total (usdTotals m) r))).

Record SpendSnapshot := mkSpendSnapshot {
  totalCost : Z; snapCapUsd : Z; headroomUsd : Z }.

Definition spendSnapshot (m : Meter) (r : string) : SpendSnapshot :=
  let t := total (usdTotals m) r in
  mkSpendSnapshot t (cfgAggregateUsd config) (cfgAggregateUsd config - t).

(** ** Sequences of operations *)

Inductive Op :=
| RegisterRoot (r : string) (now : Z)
| ExportState (r : string) (now : Z)
| RehydrateRoot (r : string) (s : DurableRootBudget)
| EvictRoot (r : string)
| ReserveBudget (r provider model : string) (est estTokens nowStart now : Z).

Definition step (m : Meter) (op : Op) : option SpendGateOutcome * Meter :=
  match op with
  | RegisterRoot r now => (None, registerRoot m r now)
  | ExportState r now => (None, (exportState m r now).2)
  | RehydrateRoot r s => (None, rehydrate m r s)
  | EvictRoot r => (None, evictRoot m r)
  | ReserveBudget r p md u t n0 n =>
    let '(o, _, m') := reserveBudget m r p md u t n0 n in (Some o, m')
  end.

Fixpoint run (m : Meter) (ops : list Op) : list (Op * option SpendGateOutcome) * Meter :=
  match ops with
  | [] => ([], m)
  | op :: ops =>
    let '(o, m') := step m op in
    let '(l, m'') := run m' ops in ((op, o) :: l, m'')
  end.

(** ** What a reservation does *)

(** Everything but the record of issued warnings. *)
Definition books (m : Meter) := (rootStartMs m, tokenTotals m, usdTotals m, perRootUsdAccumulator m).

Lemma warnLimb_books m r l sp cap u : books (warnLimb m r l sp cap u).2 = books m.
Proof. unfold warnLimb. destruct (negb hasHook); [done|]. by case_bool_decide. Qed.

Definition anchor (m : Meter) (r : string) (now : Z) : Z := default now (rootStartMs m !! r).
Definition usdKey (r : string) : string := agentKeyOf (rootScope r).

(** The price does not exempt the call from the dollar limb. *)
Definition metered (provider model : string) (estTokens : Z) : Prop :=
  resolve provider model <> Some free /\
  ~ (resolve provider model = Some unknown /\ 0 < estTokens).

(** The four effects of the dollar limb, then of a whole reservation. *)
Inductive UsdCase (m : Meter) (r p md : string) (u t : Z) : SpendGateOutcome -> Meter -> Prop :=
| usd_granted res w m' :
    metered p md t ->
    total (perAgent (perRootUsdAccumulator m)) (usdKey r) + u <= cfgAggregateUsd config ->
    books m' = (rootStartMs m, tokenTotals m, <[r := total (usdTotals m) r + u]> (usdTotals m),
                addToCounters (perRootUsdAccumulator m) (rootScope r) u) ->
    UsdCase m r p md u t (gate_ok res w) m'
| usd_free m' :
    resolve p md = Some free -> books m' = books m -> UsdCase m r p md u t gate_free m'
| usd_unpriceable m' :
    resolve p md = Some unknown -> 0 < t -> books m' = books m ->
    UsdCase m r p md u t (gate_unpriceable p md) m'
| usd_breach e m' :
    metered p md t -> limb e = Some aggregateUsd -> books m' = books m ->
    cfgAggregateUsd config < total (perAgent (perRootUsdAccumulator m)) (usdKey r) + u ->
    UsdCase m r p md u t (gate_exceeded e) m'.

Inductive ReserveCase (m : Meter) (r p md : string) (u t n0 n : Z)
    : SpendGateOutcome -> Meter -> Prop :=
| reserve_wall e m' :
    limb e = Some wallClockMs -> cfgWallClockMs config < n - anchor m r n0 ->
    books m' = books (setStart m r (anchor m r n0)) -> ReserveCase m r p md u t n0 n (gate_exceeded e) m'
| reserve_tokens e m' :
    limb e = Some tokens -> n - anchor m r n0 <= cfgWallClockMs config ->
    cfgTokens config < total (tokenTotals m) r + t ->
    books m' = books (setStart m r (anchor m r n0)) -> ReserveCase m r p md u t n0 n (gate_exceeded e) m'
| reserve_usd o m1 m' :
    n - anchor m r n0 <= cfgWallClockMs config ->
    total (tokenTotals m) r + t <= cfgTokens config ->
    books m1 = books (setTokens (setStart m r (anchor m r n0)) r (total (tokenTotals m) r + t)) ->
    UsdCase m1 r p md u t o m' -> ReserveCase m r p md u t n0 n o m'.

Lemma checkAndReserve_root acc r u :
  match checkAndReserve ceilings acc (rootScope r) u with
  | (Ok _, acc') => acc' = addToCounters acc (rootScope r) u /\
      total (perAgent acc) (usdKey r) + u <= cfgAggregateUsd config
  | (Err e, acc') => acc' = acc /\ limb e = None /\
      cfgAggregateUsd config < total (perAgent acc) (usdKey r) + u
  end.
Proof.
  unfold checkAndReserve, breach, ceilings, usdKey. simpl.
  destruct (_ <? _) eqn:E; simpl; split_and!; try done; lia.
Qed.

Lemma usdLimb_case m r p md u t :
  let '(o, _, m') := usdLimb m r p md u t in UsdCase m r p md u t o m'.
Proof.
  unfold usdLimb, checkSpendCeiling. pose proof (checkAndReserve_root (perRootUsdAccumulator m) r u) as HR.
  destruct (checkAndReserve ceilings (perRootUsdAccumulator m) (rootScope r) u) as [[[res w]|e] acc'].
  all: destruct (resolve p md) as [[| |]|] eqn:Er; destruct (0 <? t) eqn:Et; simpl;
    try (by constructor); try (constructor; try done; lia).
  all: try (destruct HR as (-> & Hl & Hc); rewrite Hl; simpl;
    apply usd_breach; try done; unfold metered; rewrite Er; naive_solver lia).
  all: destruct HR as (-> & Hc); destruct w as [w|]; simpl;
    try match goal with |- context [warnLimb ?m ?r ?l ?s ?c ?x] =>
      pose proof (warnLimb_books m r l s c x) as HB; destruct (warnLimb m r l s c x) end;
    simpl in *; apply usd_granted; try done; unfold metered; rewrite Er; naive_solver lia.
Qed.

Lemma anchor_set m r n0 :
  match rootStartMs m !! r with
  | Some s => (s, m)
  | None => (n0, setStart m r n0)
  end = (anchor m r n0, match rootStartMs m !! r with Some _ => m | None => setStart m r n0 end).
Proof. unfold anchor. by destruct (rootStartMs m !! r). Qed.

Lemma anchor_books m r n0 :
  books (match rootStartMs m !! r with Some _ => m | None => setStart m r n0 end) =
  books (setStart m r (anchor m r n0)).
Proof.
  unfold anchor. destruct (rootStartMs m !! r) as [s|] eqn:E; [|done].
  unfold books. simpl. by rewrite insert_id.
Qed.

Lemma reserveBudget_case m r p md u t n0 n :
  let '(o, _, m') := reserveBudget m r p md u t n0 n in ReserveCase m r p md u t n0 n o m'.
Proof.
  unfold reserveBudget. rewrite anchor_set. pose proof (anchor_books m r n0) as HB.
  set (m0 := match rootStartMs m !! r with Some _ => m | None => setStart m r n0 end) in *.
  clearbody m0. set (s := anchor m r n0) in *. set (el := n - s).
  assert (exists ws m1, (if (el <=? cfgWallClockMs config) && (4 * cfgWallClockMs config <=? 5 * el)
    then warnLimb m0 r wallClockMs el (cfgWallClockMs config) ms else ([], m0)) = (ws, m1) /\
    books m1 = books (setStart m r s)) as (ws & m1 & -> & H1).
  { destruct (_ && _); [|by eauto].
    pose proof (warnLimb_books m0 r wallClockMs el (cfgWallClockMs config) ms) as H.
    destruct (warnLimb _ _ _ _ _ _) as [ws m1]. simpl in H. eexists _, _. split; [done|congruence]. }
  destruct (cfgWallClockMs config <? el) eqn:E1.
  { apply reserve_wall; [done|lia|done]. }
  assert (tokenTotals m1 = tokenTotals m) as Ht by (unfold books in H1; simpl in H1; congruence).
  rewrite Ht.
  destruct (cfgTokens config <? _) eqn:E2.
  { apply reserve_tokens; [done|lia|lia|done]. }
  set (nt := total (tokenTotals m) r + t) in *. set (m2 := setTokens m1 r nt).
  assert (exists ws' m3, (if 4 * cfgTokens config <=? 5 * nt
    then warnLimb m2 r tokens nt (cfgTokens config) unit_tokens else ([], m2)) = (ws', m3) /\
    books m3 = books m2) as (ws' & m3 & -> & H3).
  { destruct (_ <=? _); [|by eauto].
    pose proof (warnLimb_books m2 r tokens nt (cfgTokens config) unit_tokens) as H.
    destruct (warnLimb _ _ _ _ _ _) as [ws2 m3]. simpl in H. by eexists _, _. }
  pose proof (usdLimb_case m3 r p md u t) as HU.
  destruct (usdLimb m3 r p md u t) as [[o ws3] m4].
  apply (reserve_usd _ _ _ _ _ _ _ _ o m3 m4); [lia|lia| |done].
  rewrite H3. unfold m2, books in *. simpl in *. rewrite Ht.
  injection H1 as -> _ -> ->. done.
Qed.

(** ** One tree stays within its budget *)

Definition isExceeded (o : SpendGateOutcome) : bool :=
  match o with gate_exceeded _ => true | _ => false end.

(** Tokens and dollars granted to root [r] by one logged operation. *)
Definition tokensGranted (r : string) (e : Op * option SpendGateOutcome) : Z :=
  match e with
  | (ReserveBudget r' _ _ _ t _ _, Some o) =>
    if bool_decide (r' = r) && negb (isExceeded o) then t else 0
  | _ => 0
  end.
Definition usdGranted (r : string) (e : Op * option SpendGateOutcome) : Z :=
  match e with
  | (ReserveBudget r' _ _ u _ _ _, Some (gate_ok _ _)) => if bool_decide (r' = r) then u else 0
  | _ => 0
  end.
Definition sumZ {A} (f : A -> Z) (l : list A) : Z := foldr (fun x s => f x + s) 0 l.

Lemma sumZ_cons {A} (f : A -> Z) x l : sumZ f (x :: l) = f x + sumZ f l.
Proof. done. Qed.

Definition evicts (r : string) (op : Op) : bool :=
  match op with EvictRoot r' => bool_decide (r' = r) | _ => false end.
Definition nonnegOp (op : Op) : bool :=
  match op with ReserveBudget _ _ _ u t _ _ => (0 <=? u) && (0 <=? t) | _ => true end.

(** The clock value at which an operation first concerns root [r]. *)
Definition touch (r : string) (op : Op) : option Z :=
  match op with
  | RegisterRoot r' now | ExportState r' now =>
    if bool_decide (r' = r) then Some now else None
  | RehydrateRoot r' s => if bool_decide (r' = r) then Some (startedAtMs s) else None
  | EvictRoot _ => None
  | ReserveBudget r' _ _ _ _ n0 _ => if bool_decide (r' = r) then Some n0 else None
  end.
Fixpoint firstTouch (r : string) (ops : list Op) : option Z :=
  match ops with
  | [] => None
  | op :: ops => match touch r op with Some t => Some t | None => firstTouch r ops end
  end.

Definition accTotal (m : Meter) (r : string) : Z :=
  total (perAgent (perRootUsdAccumulator m)) (usdKey r).

#[local] Instance usdKey_inj : Inj (=) (=) usdKey.
Proof. intros r r' H. unfold usdKey, agentKeyOf in H. simpl in H. by repeat apply (inj _) in H. Qed.

Lemma accTotal_add acc r u r' :
  total (perAgent (addToCounters acc (rootScope r) u)) (usdKey r') =
  total (perAgent acc) (usdKey r') + (if bool_decide (r = r') then u else 0).
Proof.
  unfold addToCounters. simpl. rewrite total_insert. fold (usdKey r).
  case_bool_decide as H1; case_bool_decide as H2; try lia.
  - by rewrite H1.
  - by apply (inj usdKey) in H1.
  - by subst.
Qed.

Ltac open_books :=
  repeat match goal with
  | H : books _ = _ |- _ => unfold books in H; simpl in H; injection H as ? ? ? ?
  end.

Ltac reserve_step H :=
  match type of H with
  | context [reserveBudget ?m ?r ?p ?md ?u ?t ?n0 ?n] =>
    let HC := fresh "HC" in
    pose proof (reserveBudget_case m r p md u t n0 n) as HC;
    destruct (reserveBudget m r p md u t n0 n) as [[? ?] ?];
    injection H as <- <-; destruct HC as [| |? ? ? ? ? ? HU]; [| |destruct HU]; open_books
  end.

Lemma registerRoot_books m r now : books (registerRoot m r now) = books (setStart m r (anchor m r now)).
Proof.
  unfold registerRoot, anchor. destruct (rootStartMs m !! r) eqn:E; [|done].
  unfold books. simpl. by rewrite insert_id.
Qed.

Lemma exportState_books m r now :
  books (exportState m r now).2 = books (setStart m r (anchor m r now)).
Proof.
  unfold exportState, anchor. destruct (rootStartMs m !! r) eqn:E; [|done].
  unfold books. simpl. by rewrite insert_id.
Qed.

Lemma step_tokens m op r o m' :
  step m op = (o, m') -> nonnegOp op = true -> evicts r op = false ->
  tokensGranted r (op, o) + Z.max 0 (cfgTokens config - total (tokenTotals m') r) <=
  Z.max 0 (cfgTokens config - total (tokenTotals m) r).
Proof.
  intros H Hn He. destruct op as [r'|r'|r' s|r'|r' p md u t n0 n]; simpl in H.
  - injection H as <- <-. pose proof (registerRoot_books m r' now) as HB.
    injection HB as _ HB _ _. simpl in *. rewrite HB. lia.
  - injection H as <- <-. pose proof (exportState_books m r' now) as HB.
    injection HB as _ HB _ _. simpl in *. rewrite HB. lia.
  - injection H as <- <-. unfold rehydrate. destruct (_ <? _); simpl; rewrite total_insert;
      case_bool_decide; subst; lia.
  - injection H as <- <-. simpl in *. case_bool_decide; [done|].
    unfold total. rewrite lookup_delete_ne by done. lia.
  - simpl in Hn. reserve_step H; simpl; case_bool_decide; subst; simpl.
    all: repeat match goal with E : tokenTotals _ = _ |- _ => rewrite E; clear E end.
    all: rewrite ?total_insert, ?bool_decide_true, ?bool_decide_false by done; lia.
Qed.

Lemma step_usd m op r o m' :
  step m op = (o, m') -> nonnegOp op = true ->
  usdGranted r (op, o) + Z.max 0 (cfgAggregateUsd config - accTotal m' r) <=
  Z.max 0 (cfgAggregateUsd config - accTotal m r).
Proof.
  intros H Hn. unfold accTotal. destruct op as [r'|r'|r' s|r'|r' p md u t n0 n]; simpl in H.
  - injection H as <- <-. pose proof (registerRoot_books m r' now) as HB.
    injection HB as _ _ _ HB. simpl in *. rewrite HB. lia.
  - injection H as <- <-. pose proof (exportState_books m r' now) as HB.
    injection HB as _ _ _ HB. simpl in *. rewrite HB. lia.
  - injection H as <- <-. unfold rehydrate. destruct (_ <? _) eqn:E; [|simpl; lia].
    unfold recordSpend, setUsd, setAcc, setTokens, setStart.
    cbn [perRootUsdAccumulator usdGranted]. rewrite accTotal_add. case_bool_decide; lia.
  - injection H as <- <-. simpl. lia.
  - simpl in Hn. reserve_step H; simpl;
    repeat match goal with E : perRootUsdAccumulator _ = _ |- _ => rewrite E in *; clear E end;
    rewrite ?accTotal_add; try lia; case_bool_decide; subst; lia.
Qed.

Lemma step_anchor m op r o m' s :
  step m op = (o, m') -> evicts r op = false ->
  rootStartMs m !! r = Some s \/ rootStartMs m !! r = None /\ touch r op = Some s ->
  exists s', rootStartMs m' !! r = Some s' /\ s' <= s.
Proof.
  intros H He Hs.
  assert (forall r' x, evicts r op = false -> rootStartMs m' = <[r' := x]> (rootStartMs m) ->
    (r' = r -> x <= s) -> (r' <> r -> touch r op = None) ->
    exists s', rootStartMs m' !! r = Some s' /\ s' <= s) as Hset.
  { intros r' x _ -> Hx Ht. destruct (decide (r' = r)) as [->|Hne].
    - rewrite lookup_insert_eq. eauto.
    - rewrite lookup_insert_ne by done. destruct Hs as [->|[_ Ht']]; [by eauto with lia|].
      rewrite Ht in Ht' by done. done. }
  destruct op as [r' now|r' now|r' d|r'|r' p md u t n0 n]; simpl in H.
  - injection H as <- <-. pose proof (registerRoot_books m r' now) as HB. injection HB as HB _ _ _.
    apply (Hset r' (anchor m r' now)); [done|done| |simpl; by intros; rewrite bool_decide_false].
    intros ->. unfold anchor. simpl in Hs. rewrite bool_decide_true in Hs by done.
    destruct Hs as [->|[-> [= ->]]]; simpl; lia.
  - injection H as <- <-. pose proof (exportState_books m r' now) as HB. injection HB as HB _ _ _.
    apply (Hset r' (anchor m r' now)); [done|done| |simpl; by intros; rewrite bool_decide_false].
    intros ->. unfold anchor. simpl in Hs. rewrite bool_decide_true in Hs by done.
    destruct Hs as [->|[-> [= ->]]]; simpl; lia.
  - injection H as <- <-.
    eapply (Hset r' _); [done|unfold rehydrate; by destruct (_ <? _)| |simpl; by intros; rewrite bool_decide_false].
    intros ->. simpl in Hs. rewrite bool_decide_true in Hs by done.
    destruct Hs as [->|[-> [= ->]]]; simpl; lia.
  - injection H as <- <-. simpl in *. case_bool_decide; [done|].
    rewrite lookup_delete_ne by done. destruct Hs as [->|[_ ?]]; [by eauto with lia|done].
  - reserve_step H; apply (Hset r' (anchor m r' n0)); try done; try congruence;
      try (simpl; by intros; rewrite bool_decide_false);
      intros ->; unfold anchor; simpl in Hs; rewrite bool_decide_true in Hs by done;
      destruct Hs as [->|[-> [= ->]]]; simpl; lia.
Qed.

Lemma step_untouched m op r o m' :
  step m op = (o, m') -> touch r op = None -> rootStartMs m !! r = None ->
  rootStartMs m' !! r = None.
Proof.
  intros H Ht Hm.
  assert (forall r' x, rootStartMs m' = <[r' := x]> (rootStartMs m) -> r' <> r ->
    rootStartMs m' !! r = None) as Hset.
  { intros r' x -> Hne. by rewrite lookup_insert_ne. }
  destruct op as [r' now|r' now|r' d|r'|r' p md u t n0 n]; simpl in H, Ht;
    try (case_bool_decide; [done|]).
  - injection H as <- <-. pose proof (registerRoot_books m r' now) as HB. injection HB as HB _ _ _.
    by eapply Hset.
  - injection H as <- <-. pose proof (exportState_books m r' now) as HB. injection HB as HB _ _ _.
    by eapply Hset.
  - injection H as <- <-. unfold rehydrate in *. eapply Hset; [|done]. by destruct (_ <? _).
  - injection H as <- <-. simpl. rewrite lookup_delete_None. by right.
  - reserve_step H; apply (Hset r' (anchor m r' n0)); congruence.
Qed.

(** A granted call ran before its root's deadline. *)
Lemma step_deadline m r p md u t n0 n o m' :
  step m (ReserveBudget r p md u t n0 n) = (Some o, m') -> isExceeded o = false ->
  n - anchor m r n0 <= cfgWallClockMs config.
Proof.
  intros H Ho. simpl in H. pose proof (reserveBudget_case m r p md u t n0 n) as HC.
  destruct (reserveBudget m r p md u t n0 n) as [[o' ?] ?]. injection H as -> ->.
  by destruct HC.
Qed.

Lemma run_tokens r ops m :
  forallb nonnegOp ops = true -> forallb (fun op => negb (evicts r op)) ops = true ->
  sumZ (tokensGranted r) (run m ops).1 <= Z.max 0 (cfgTokens config - total (tokenTotals m) r).
Proof.
  revert m. induction ops as [|op ops IH]; intros m Hn He; simpl in *; [lia|].
  apply andb_prop in Hn as [Hn Hn'], He as [He He'].
  destruct (step m op) as [o m'] eqn:E. specialize (IH m' Hn' He').
  destruct (run m' ops) as [l m'']. cbn [fst] in *. rewrite sumZ_cons.
  apply step_tokens with (r := r) in E; [lia|done|by destruct (evicts r op)].
Qed.

Lemma run_usd r ops m :
  forallb nonnegOp ops = true ->
  sumZ (usdGranted r) (run m ops).1 <= Z.max 0 (cfgAggregateUsd config - accTotal m r).
Proof.
  revert m. induction ops as [|op ops IH]; intros m Hn; simpl in *; [lia|].
  apply andb_prop in Hn as [Hn Hn'].
  destruct (step m op) as [o m'] eqn:E. specialize (IH m' Hn').
  destruct (run m' ops) as [l m'']. cbn [fst] in *. rewrite sumZ_cons.
  apply step_usd with (r := r) in E; [lia|done].
Qed.

Lemma run_deadline r ops m s p md u t n0 n o :
  forallb (fun op => negb (evicts r op)) ops = true ->
  rootStartMs m !! r = Some s \/ rootStartMs m !! r = None /\ firstTouch r ops = Some s ->
  (ReserveBudget r p md u t n0 n, Some o) ∈ (run m ops).1 -> isExceeded o = false ->
  n - s <= cfgWallClockMs config.
Proof.
  revert m s. induction ops as [|op ops IH]; intros m s He Hs Hin Ho; simpl in *.
  { by apply elem_of_nil in Hin. }
  apply andb_prop in He as [He He']. apply negb_true_iff in He.
  destruct (step m op) as [o' m'] eqn:E. specialize (IH m').
  destruct (run m' ops) as [l m''] eqn:El. simpl in *.
  destruct (rootStartMs m !! r) as [s0|] eqn:Em.
  - destruct Hs as [[= ->]|[? _]]; [|done].
    destruct (step_anchor m op r o' m' s E He (or_introl Em)) as (s' & Hm' & Hle).
    apply elem_of_cons in Hin as [[= <- <-]|Hin].
    + apply step_deadline in E; [|done]. unfold anchor in E. rewrite Em in E. simpl in E. lia.
    + specialize (IH s' He' (or_introl Hm') Hin Ho). lia.
  - destruct Hs as [?|[_ Hs]]; [done|]. destruct (touch r op) as [t0|] eqn:Et.
    + injection Hs as ->.
      destruct (step_anchor m op r o' m' s E He (or_intror (conj Em Et))) as (s' & Hm' & Hle).
      apply elem_of_cons in Hin as [[= <- <-]|Hin].
      * apply step_deadline in E; [|done]. unfold anchor in E. rewrite Em in E. simpl in *.
        rewrite bool_decide_true in Et by done. injection Et as ->. lia.
      * specialize (IH s' He' (or_introl Hm') Hin Ho). lia.
    + assert (rootStartMs m' !! r = None) as Hm'.
      { eapply step_untouched; eauto. }
      apply elem_of_cons in Hin as [[= <- <-]|Hin].
      * simpl in Et. by rewrite bool_decide_true in Et.
      * apply (IH s); [done|by right|done|done].
Qed.

(** A self-spawning tree is bounded on all three limbs, whatever other
    trees do in between and whatever was restored from durable state: the
    dollars granted to a root never exceed the dollar cap, evictions included;
    and until the root is evicted the tokens granted to it never exceed the
    token cap (free, unpriceable and priced calls alike) and no call is granted
    later than the wall-clock cap after the root was first seen. *)
Theorem root_tree_bounded (r : string) (ops : list Op) :
  0 <= cfgAggregateUsd config -> 0 <= cfgTokens config ->
  forallb nonnegOp ops = true ->
  let log := (run createPerRootBudget ops).1 in
  sumZ (usdGranted r) log <= cfgAggregateUsd config /\
  (forallb (fun op => negb (evicts r op)) ops = true ->
   sumZ (tokensGranted r) log <= cfgTokens config /\
   forall s p md u t n0 n o, firstTouch r ops = Some s ->
     (ReserveBudget r p md u t n0 n, Some o) ∈ log -> isExceeded o = false ->
     n - s <= cfgWallClockMs config).
Proof.
  intros Hu Ht Hn log. split; [|intros He; split].
  - pose proof (run_usd r ops createPerRootBudget Hn) as H.
    change (accTotal createPerRootBudget r) with 0 in H. unfold log. lia.
  - pose proof (run_tokens r ops createPerRootBudget Hn He) as H.
    change (total (tokenTotals createPerRootBudget) r) with 0 in H. unfold log. lia.
  - intros s p md u t n0 n o Hs. apply run_deadline; [done|]. by right.
Qed.

(** ** The introspection read matches the gate *)

(** Two-counter discipline: the mirror [usdTotals] and the accumulator agree
    on every root. *)
Definition Mirrored (m : Meter) : Prop := forall r, total (usdTotals m) r = accTotal m r.

Lemma mirrored_step m op : Mirrored m -> Mirrored (step m op).2.
Proof.
  intros H r. unfold accTotal.
  destruct op as [r' now|r' now|r' d|r'|r' p md u t n0 n].
  - pose proof (registerRoot_books m r' now) as HB. injection HB as _ _ HB1 HB2.
    simpl in *. rewrite HB1, HB2. apply H.
  - pose proof (exportState_books m r' now) as HB. injection HB as _ _ HB1 HB2.
    simpl in *. rewrite HB1, HB2. apply H.
  - cbn [step snd]. unfold rehydrate. destruct (_ <? _) eqn:E; [|apply H].
    unfold recordSpend, setUsd, setAcc, setTokens, setStart. cbn [perRootUsdAccumulator usdTotals].
    rewrite accTotal_add, total_insert. fold (accTotal m r). rewrite <- (H r).
    case_bool_decide; subst; lia.
  - apply H.
  - destruct (step m (ReserveBudget r' p md u t n0 n)) as [o m'] eqn:E. simpl in E.
    unfold accTotal in *. reserve_step E; simpl;
    repeat match goal with
    | E : perRootUsdAccumulator _ = _ |- _ => rewrite E in *; clear E
    | E : usdTotals _ = _ |- _ => rewrite E in *; clear E end; try apply H.
    rewrite accTotal_add, total_insert. specialize (H r). unfold accTotal in H.
    case_bool_decide; subst; lia.
Qed.

Lemma mirrored_run ops m : Mirrored m -> Mirrored (run m ops).2.
Proof.
  revert m. induction ops as [|op ops IH]; intros m H; simpl; [done|].
  pose proof (mirrored_step m op H) as H'. destruct (step m op) as [o m'].
  specialize (IH m' H'). by destruct (run m' ops).
Qed.

(** What [remaining] reports is what the gate enforces: after any history,
    a metered call that costs something on each limb is granted exactly when
    its tokens and dollars fit the reported remainders and the root's deadline
    has not passed. *)
Theorem remaining_matches_gate (ops : list Op) (r p md : string) (u t n0 now : Z) :
  let m := (run createPerRootBudget ops).2 in
  0 < u -> 0 < t -> metered p md t ->
  (isExceeded (reserveBudget m r p md u t n0 now).1.1 = false <->
   t <= tokensRemaining (remaining m r now) /\
   (exists x, usdRemaining (remaining m r now) = Some x /\ u <= x) /\
   now - anchor m r n0 <= cfgWallClockMs config).
Proof.
  intros m Hu Ht [Hm1 Hm2].
  assert (total (usdTotals m) r = accTotal m r) as HM.
  { apply mirrored_run. by intros r'. }
  pose proof (reserveBudget_case m r p md u t n0 now) as HC. unfold remaining. simpl.
  destruct (reserveBudget m r p md u t n0 now) as [[o ws] m']. simpl.
  destruct HC as [e m' He Hw _|e m' He Hw Htk _|o m1 m' Hw Htk HB HU]; simpl.
  - split; [done|]. lia.
  - split; [done|]. lia.
  - injection HB as _ _ HB1 HB2. unfold accTotal in HM.
    destruct HU as [res w m' _ Hc _|m' Hf _|m' Hf Hb _|e m' _ _ _ Hc]; simpl; rewrite ?HB2 in *.
    + split; [intros _|done]. split_and!; [lia| |done]. eexists. split; [done|lia].
    + done.
    + naive_solver.
    + split; [done|]. intros (_ & (x & [= <-] & Hx) & _). lia.
Qed.

(** ** Durable checkpoints *)

(** What the meter knows about one root: anchor, tokens, and dollars in both
    counters. *)
Definition observe (m : Meter) (r : string) : option Z * Z * Z * Z :=
  (rootStartMs m !! r, total (tokenTotals m) r, total (usdTotals m) r, accTotal m r).

Lemma observe_rehydrate m r d :
  Mirrored m ->
  observe (rehydrate m r d) r =
  (Some (Z.min (anchor m r (startedAtMs d)) (startedAtMs d)),
   Z.max (total (tokenTotals m) r) (tokensConsumed d),
   Z.max (total (usdTotals m) r) (usdConsumed d),
   Z.max (total (usdTotals m) r) (usdConsumed d)).
Proof.
  intros H. pose proof (H r) as Hr. unfold observe, rehydrate, accTotal, anchor in *.
  destruct (_ <? _) eqn:E; unfold recordSpend, setUsd, setAcc, setTokens, setStart;
    cbn [rootStartMs tokenTotals usdTotals perRootUsdAccumulator];
    rewrite ?accTotal_add, ?total_insert, ?lookup_insert_eq, ?bool_decide_true by done;
    destruct (rootStartMs m !! r); simpl; repeat f_equal; lia.
Qed.

Lemma observe_rehydrate_list r d ds m :
  Mirrored m ->
  observe (foldl (fun m d => rehydrate m r d) m (d :: ds)) r =
  (Some (foldr Z.min (anchor m r (startedAtMs d)) (startedAtMs <$> (d :: ds))),
   foldr Z.max (total (tokenTotals m) r) (tokensConsumed <$> (d :: ds)),
   foldr Z.max (total (usdTotals m) r) (usdConsumed <$> (d :: ds)),
   foldr Z.max (total (usdTotals m) r) (usdConsumed <$> (d :: ds))).
Proof.
  revert d m. induction ds as [|d' ds IH]; intros d m H.
  - simpl. rewrite observe_rehydrate by done. by rewrite Z.min_comm, (Z.max_comm (total _ _)),
      (Z.max_comm (total (usdTotals m) r)).
  - pose proof (observe_rehydrate m r d H) as HO. cbn [foldl] in *.
    assert (Mirrored (rehydrate m r d)) as H' by apply (mirrored_step m (RehydrateRoot r d) H).
    specialize (IH d' _ H'). cbn [foldl] in IH. rewrite IH. clear IH.
    unfold observe in HO. injection HO as H1 H2 H3 _.
    assert (anchor (rehydrate m r d) r (startedAtMs d') =
      Z.min (anchor m r (startedAtMs d)) (startedAtMs d)) as H4 by (unfold anchor at 1; by rewrite H1).
    rewrite H4, H2, H3.
    assert (forall f (l : list Z) x y, (forall a b c, f a (f b c) = f b (f a c)) ->
      (forall a b, f a b = f b a) -> foldr f (f x y) l = f y (foldr f x l)) as Hf.
    { intros f l x y HA HC. induction l as [|a l IHl]; simpl; [apply HC|]. by rewrite IHl, HA. }
    rewrite !Hf by lia. done.
Qed.

(** Restoring durable siblings is a merge.  After any history, restoring
    any non-empty collection of persisted states of a root leaves it with the
    earliest anchor and the largest token and dollar totals seen, in the mirror
    and in the enforcing accumulator alike, so duplicates and order do not
    matter and nothing is added twice. *)
Theorem rehydrate_siblings (ops : list Op) (r : string) (d : DurableRootBudget)
    (ds : list DurableRootBudget) :
  let m := (run createPerRootBudget ops).2 in
  observe (foldl (fun m d => rehydrate m r d) m (d :: ds)) r =
  (Some (foldr Z.min (anchor m r (startedAtMs d)) (startedAtMs <$> (d :: ds))),
   foldr Z.max (total (tokenTotals m) r) (tokensConsumed <$> (d :: ds)),
   foldr Z.max (total (usdTotals m) r) (usdConsumed <$> (d :: ds)),
   foldr Z.max (total (usdTotals m) r) (usdConsumed <$> (d :: ds))).
Proof. intros m. apply observe_rehydrate_list, mirrored_run. by intros r'. Qed.

End Meter.

(** ** Witnesses *)

Definition sampleConfig : BudgetConfig := mkBudgetConfig 10 100 1000.
Definition sampleResolve (provider _ : string) : option PricingState :=
  if String.eqb provider "ollama" then Some free else Some priced.
Definition sampleRun : list Op :=
  [RegisterRoot "a" 0; ReserveBudget "a" "openai" "m" 6 60 5 5;
   ReserveBudget "b" "ollama" "q" 0 90 7 7;
   ReserveBudget "a" "openai" "m" 6 20 8 8;
   ReserveBudget "a" "ollama" "q" 0 40 9 9;
   ReserveBudget "a" "openai" "m" 1 1 2000 2000].

Lemma root_tree_bounded_witness :
  let log := (run sampleConfig true sampleResolve createPerRootBudget sampleRun).1 in
  sumZ (usdGranted "a") log = 6 /\ sumZ (usdGranted "a") log <= 10 /\
  sumZ (tokensGranted "a") log <= 100.
Proof.
  destruct (root_tree_bounded sampleConfig true sampleResolve "a" sampleRun) as [H1 H2];
    [simpl; lia|simpl; lia|reflexivity|].
  destruct (H2 eq_refl) as [H3 _].
  split; [vm_compute; reflexivity|]. split; [exact H1|exact H3].
Defined.

Lemma remaining_matches_gate_witness :
  let m := (run sampleConfig true sampleResolve createPerRootBudget
    [ReserveBudget "a" "openai" "m" 6 60 5 5]).2 in
  tokensRemaining (remaining sampleConfig m "a" 9) = 40 /\
  isExceeded (reserveBudget sampleConfig true sampleResolve m "a" "openai" "m" 4 40 9 9).1.1 = false.
Proof.
  split; [vm_compute; reflexivity|].
  apply (remaining_matches_gate sampleConfig true sampleResolve
    [ReserveBudget "a" "openai" "m" 6 60 5 5] "a" "openai" "m" 4 40 9 9).
  - lia.
  - lia.
  - split; [done|]. by intros [? _].
  - split; [vm_compute; discriminate|]. split; [|vm_compute; discriminate].
    eexists. split; [reflexivity|]. vm_compute. discriminate.
Defined.

End PerRootBudget.
