(* ===== verification/TimedBuckets.v ===== *)
(** * Sliding-window buckets with expiry timers

  The shape that [packages/daemon/src/autonomy/call-rate-limiter.ts] and
  [packages/core/src/security/injection-rate-limiter.ts] share: a [Map] from
  keys to a list of timestamps and the handle of a timer that deletes the
  entry when it has been idle for a while, with a cap on the number of keys.

  The injected [TimerPort] is modelled by its pending timers: [setTimeout]
  adds one, [cancel] removes it, and the environment may [fire] a timer once
  its due time has come. *)

From S2P Require Import Prelude.

Open Scope string_scope.
Open Scope list_scope.
Open Scope Z_scope.

Module TimedBuckets.

(** ** State *)

Record Bucket := mkBucket { timestamps : list Z; timer : nat }.

Record Timer := mkTimer { timerId : nat; timerKey : string; timerDue : Z }.

Record Buckets := mkBuckets {
  buckets : jsmap string Bucket;
  pending : list Timer;
  nextTimer : nat }.

Definition empty : Buckets := mkBuckets [] [] 0.

Definition size (st : Buckets) : nat := length (buckets st).

(** ** The timer port *)

Definition setTimeout (st : Buckets) (key : string) (due : Z) : nat * Buckets :=
  (nextTimer st,
   mkBuckets (buckets st) (pending st ++ [mkTimer (nextTimer st) key due]) (S (nextTimer st))).

Definition cancel (st : Buckets) (id : nat) : Buckets :=
  mkBuckets (buckets st) (filter (fun t => timerId t <> id) (pending st)) (nextTimer st).

(** The callback of a due timer deletes its bucket. *)
Definition fire (st : Buckets) (id : nat) (now : Z) : Buckets :=
  match list_find (fun t => timerId t = id /\ timerDue t <= now) (pending st) with
  | Some (_, t) => let st' := cancel st id in
      mkBuckets (mdel (buckets st') (timerKey t)) (pending st') (nextTimer st')
  | None => st
  end.

(** ** Eviction and access *)

(** The first key with the smallest most-recent timestamp; [-1] stands for an
    empty bucket and [None] for the initial [Infinity]. *)
Definition mostRecent (b : Bucket) : Z := default (-1) (last (timestamps b)).

Fixpoint oldest (m : jsmap string Bucket) (best : option (string * Z)) : option string :=
  match m with
  | [] => fst <$> best
  | (k, b) :: m =>
    let better := match best with None => true | Some (_, t) => mostRecent b <? t end in
    oldest m (if better then Some (k, mostRecent b) else best)
  end.

Definition evictOldest (st : Buckets) : Buckets :=
  match oldest (buckets st) None with
  | None => st
  | Some k =>
    let st' := match mget (buckets st) k with Some b => cancel st (timer b) | None => st end in
    mkBuckets (mdel (buckets st') k) (pending st') (nextTimer st')
  end.

(** Find the bucket of a key, creating it (after an eviction when the map is
    full). *)
Definition ensureBucket (maxEntries : nat) (ttl : Z) (st : Buckets) (key : string) (now : Z)
    : Bucket * Buckets :=
  match mget (buckets st) key with
  | Some b => (b, st)
  | None =>
    let st1 := if (maxEntries <=? size st)%nat then evictOldest st else st in
    let '(id, st2) := setTimeout st1 key (now + ttl) in
    let b := mkBucket [] id in
    (b, mkBuckets (mset (buckets st2) key b) (pending st2) (nextTimer st2))
  end.

(** Replace a bucket's timestamps and restart its timer. *)
Definition restart (ttl : Z) (st : Buckets) (key : string) (b : Bucket) (ts : list Z) (now : Z)
    : Buckets :=
  let st1 := cancel st (timer b) in
  let '(id, st2) := setTimeout st1 key (now + ttl) in
  mkBuckets (mset (buckets st2) key (mkBucket ts id)) (pending st2) (nextTimer st2).

Definition destroy (st : Buckets) : Buckets :=
  let st' := foldl (fun st b => cancel st (timer b)) st (buckets st).*2 in
  mkBuckets [] (pending st') (nextTimer st').

(** ** Every bucket has exactly one pending timer *)

Record WF (st : Buckets) : Prop := {
  wf_keys : NoDup (mkeys (buckets st));
  wf_ids : NoDup (timerId <$> pending st);
  wf_next : forall t, t ∈ pending st -> (timerId t < nextTimer st)%nat;
  wf_timer : forall k b, mget (buckets st) k = Some b ->
    exists t, t ∈ pending st /\ timerId t = timer b /\ timerKey t = k;
  wf_bucket : forall t, t ∈ pending st ->
    exists b, mget (buckets st) (timerKey t) = Some b /\ timer b = timerId t }.

Lemma wf_empty : WF empty.
Proof. split; simpl; try constructor; intros; set_solver. Qed.

Lemma wf_inj st t t' :
  WF st -> t ∈ pending st -> t' ∈ pending st -> timerId t = timerId t' -> t = t'.
Proof.
  intros H Ht Ht' E. pose proof (wf_ids _ H) as Hn.
  apply list_elem_of_lookup in Ht as [i Hi], Ht' as [j Hj].
  assert (i = j) as ->.
  { eapply NoDup_lookup; [done|rewrite list_lookup_fmap, Hi; done|].
    by rewrite list_lookup_fmap, Hj, E. }
  congruence.
Qed.

Lemma elem_of_cancel st id t : t ∈ pending (cancel st id) <-> timerId t <> id /\ t ∈ pending st.
Proof. simpl. by rewrite list_elem_of_filter. Qed.

(** Dropping a bucket together with its timer. *)
Lemma wf_drop st k b :
  WF st -> mget (buckets st) k = Some b ->
  WF (mkBuckets (mdel (buckets st) k) (pending (cancel st (timer b))) (nextTimer st)).
Proof.
  intros H Hb. split; cbn [buckets pending nextTimer].
  - apply NoDup_mkeys_mdel, H.
  - eapply sublist_NoDup; [apply H|]. simpl. apply fmap_sublist, sublist_filter.
  - intros t [_ Ht]%elem_of_cancel. by apply H.
  - intros k' b'. rewrite mget_mdel. destruct (decide (k' = k)) as [->|Hne]; [done|].
    intros Hb'. destruct (wf_timer _ H _ _ Hb') as (t & Ht & Hid & Hk).
    exists t. split; [|done]. apply elem_of_cancel. split; [|done]. intros Heq.
    destruct (wf_timer _ H _ _ Hb) as (t0 & Ht0 & Hid0 & Hk0).
    assert (t = t0) as -> by (eapply wf_inj; eauto; congruence). congruence.
  - intros t [Hne Ht]%elem_of_cancel. destruct (wf_bucket _ H _ Ht) as (b' & Hb' & Hid).
    exists b'. split; [|done]. rewrite mget_mdel.
    destruct (decide (timerKey t = k)) as [E|]; [|done]. rewrite E in Hb'. congruence.
Qed.

(** Adding a bucket with a fresh timer under a key that has none. *)
Lemma wf_add st k ts due :
  WF st -> mget (buckets st) k = None ->
  WF (mkBuckets (mset (buckets st) k (mkBucket ts (nextTimer st)))
       (pending st ++ [mkTimer (nextTimer st) k due]) (S (nextTimer st))).
Proof.
  intros H Hk. split; cbn [buckets pending nextTimer].
  - apply NoDup_mkeys_mset, H.
  - rewrite fmap_app. apply NoDup_app. split_and!; [apply H| |by apply NoDup_singleton].
    intros id (t & -> & Ht)%list_elem_of_fmap Hid. apply H in Ht.
    apply list_elem_of_fmap in Hid as (t' & E & ->%list_elem_of_singleton). simpl in *. lia.
  - intros t [Ht| ->%list_elem_of_singleton]%elem_of_app; simpl; [apply H in Ht; lia|lia].
  - intros k' b'. rewrite mget_mset. destruct (decide (k' = k)) as [->|Hne].
    + intros [= <-]. exists (mkTimer (nextTimer st) k due). set_solver.
    + intros Hb'. destruct (wf_timer _ H _ _ Hb') as (t & Ht & ?). exists t. set_solver.
  - intros t [Ht| ->%list_elem_of_singleton]%elem_of_app; simpl.
    + destruct (wf_bucket _ H _ Ht) as (b' & Hb' & Hid). exists b'. split; [|done].
      rewrite mget_mset. destruct (decide (timerKey t = k)) as [E|]; [congruence|done].
    + exists (mkBucket ts (nextTimer st)). split; [|done]. rewrite mget_mset. by destruct (decide _).
Qed.

(** ** The operations keep every bucket and its timer together *)

Lemma wf_fire st id now : WF st -> WF (fire st id now).
Proof.
  intros H. unfold fire. destruct (list_find _ _) as [[i t]|] eqn:E; [|done].
  apply list_find_Some in E as (Hi & [<- _] & _).
  apply list_elem_of_lookup_2 in Hi. destruct (wf_bucket _ H _ Hi) as (b & Hb & <-).
  exact (wf_drop st _ b H Hb).
Qed.

Lemma oldest_in m best k :
  oldest m best = Some k -> fst <$> best = Some k \/ k ∈ mkeys m.
Proof.
  revert best. induction m as [|[k' b] m IH]; intros best; simpl; [by left|].
  intros [E|E]%IH; [|by right; right].
  destruct (match best with None => true | Some (_, t) => mostRecent b <? t end); [|by left].
  simpl in E. injection E as ->. right. left.
Qed.

Lemma evictOldest_spec st :
  WF st -> buckets st <> [] ->
  exists k b, mget (buckets st) k = Some b /\
    evictOldest st = mkBuckets (mdel (buckets st) k) (pending (cancel st (timer b))) (nextTimer st).
Proof.
  intros H Hne. unfold evictOldest. destruct (oldest (buckets st) None) as [k|] eqn:E.
  - apply oldest_in in E as [?|Hk]; [done|].
    apply mget_is_Some in Hk as [b Hb]. exists k, b. by rewrite Hb.
  - destruct (buckets st) as [|[k b] m] eqn:Em; [done|]. simpl in E. exfalso. clear -E.
    set (best := Some (k, mostRecent b)) in E.
    assert (is_Some best) as Hb by by eexists. clearbody best. revert best Hb E.
    induction m as [|[k' b'] m IH]; intros best [x ->]; simpl; [done|].
    destruct x as [k0 t0]. intros E. eapply IH; [|exact E]. by destruct (_ <? _); eexists.
Qed.

Lemma wf_evictOldest st : WF st -> WF (evictOldest st).
Proof.
  intros H. destruct (decide (buckets st = [])) as [E|Hne].
  - unfold evictOldest. by rewrite E.
  - destruct (evictOldest_spec st H Hne) as (k & b & Hb & ->). by apply wf_drop.
Qed.

Lemma wf_ensure maxEntries ttl st key now b st' :
  WF st -> ensureBucket maxEntries ttl st key now = (b, st') ->
  WF st' /\ mget (buckets st') key = Some b.
Proof.
  intros H. unfold ensureBucket. destruct (mget (buckets st) key) as [b0|] eqn:E.
  { by intros [= <- <-]. }
  set (st1 := if (maxEntries <=? size st)%nat then evictOldest st else st).
  assert (WF st1 /\ mget (buckets st1) key = None) as [H1 Hk].
  { unfold st1. destruct (_ <=? _)%nat; [|done]. split; [by apply wf_evictOldest|].
    destruct (decide (buckets st = [])) as [E'|Hne].
    - unfold evictOldest. by rewrite E'.
    - destruct (evictOldest_spec st H Hne) as (k & b0 & Hb & ->). simpl.
      rewrite mget_mdel. by case_decide. }
  clearbody st1. intros [= <- <-]. split; [by apply wf_add|apply mget_mset_eq].
Qed.

Lemma wf_restart ttl st key b ts now :
  WF st -> mget (buckets st) key = Some b -> WF (restart ttl st key b ts now).
Proof.
  intros H Hb. unfold restart. simpl.
  pose proof (wf_drop st key b H Hb) as HD.
  apply (wf_add _ key ts (now + ttl)) in HD; [|apply mget_mdel_eq]. simpl in HD.
  destruct HD as [H1 H2 H3 H4 H5]. split; cbn [buckets pending nextTimer] in *.
  - apply NoDup_mkeys_mset, H.
  - done.
  - done.
  - intros k' b'. rewrite mget_mset. specialize (H4 k' b').
    rewrite mget_mset, mget_mdel in H4. case_decide; [done|by apply H4].
  - intros t Ht. destruct (H5 t Ht) as (b' & Hb' & Hid). exists b'. split; [|done].
    rewrite mget_mset, mget_mdel in Hb'. rewrite mget_mset. by repeat case_decide.
Qed.

(** Eviction before insertion keeps the number of keys under the cap. *)
Lemma size_ensure maxEntries ttl st key now b st' :
  WF st -> (size st <= Nat.max 1 maxEntries)%nat ->
  ensureBucket maxEntries ttl st key now = (b, st') -> (size st' <= Nat.max 1 maxEntries)%nat.
Proof.
  intros H Hs. unfold ensureBucket. destruct (mget (buckets st) key) as [b0|] eqn:E.
  { by intros [= <- <-]. }
  intros [= <- <-]. unfold size in *. simpl.
  destruct (maxEntries <=? length (buckets st))%nat eqn:Em.
  - apply Nat.leb_le in Em. destruct (decide (buckets st = [])) as [E'|Hne].
    { unfold evictOldest. rewrite E'. simpl. rewrite E'. simpl. lia. }
    destruct (evictOldest_spec st H Hne) as (k & b0 & Hb & ->). simpl.
    rewrite length_mset_notin.
    + rewrite length_mdel_in; [lia|apply H|]. apply mget_is_Some. by eexists.
    + apply mget_None. rewrite mget_mdel. by case_decide.
  - apply Nat.leb_gt in Em. rewrite length_mset_notin; [lia|by apply mget_None].
Qed.

Lemma size_restart ttl st key b ts now :
  mget (buckets st) key = Some b -> size (restart ttl st key b ts now) = size st.
Proof.
  intros Hb. unfold size, restart. simpl. apply length_mset_in. apply mget_is_Some. by eexists.
Qed.

(** Pending timers and keys are in bijection. *)
Lemma wf_bijection st : WF st -> (timerKey <$> pending st) ≡ₚ mkeys (buckets st).
Proof.
  intros H. apply NoDup_Permutation; [|apply H|].
  - assert (forall l, (forall t, t ∈ l -> t ∈ pending st) -> NoDup (timerId <$> l) ->
      NoDup (timerKey <$> l)) as Hl.
    { induction l as [|t l IH]; intros Hin Hnd; [constructor|].
      rewrite fmap_cons in *. apply NoDup_cons in Hnd as [Hn Hnd]. constructor.
      - intros (t' & E & Ht')%list_elem_of_fmap. apply Hn. apply list_elem_of_fmap.
        exists t'. split; [|done].
        destruct (wf_bucket _ H t (Hin t (list_elem_of_here _ _))) as (b & Hb & <-).
        destruct (wf_bucket _ H t' (Hin t' (list_elem_of_further _ _ _ Ht'))) as (b' & Hb' & <-).
        congruence.
      - apply IH; [|done]. intros x Hx. apply Hin. by right. }
    by apply Hl; [|apply H].
  - intros k. rewrite list_elem_of_fmap, <- mget_is_Some. split.
    + intros (t & -> & Ht). destruct (wf_bucket _ H t Ht) as (b & Hb & _). by eexists.
    + intros [b Hb]. destruct (wf_timer _ H _ _ Hb) as (t & Ht & _ & <-). by exists t.
Qed.

Lemma pending_cancel_all (bs : list Bucket) st t :
  t ∈ pending (foldl (fun st b => cancel st (timer b)) st bs) <->
  t ∈ pending st /\ timerId t ∉ timer <$> bs.
Proof.
  revert st. induction bs as [|b bs IH]; intros st; cbn [foldl].
  - set_solver.
  - rewrite IH, elem_of_cancel, fmap_cons, not_elem_of_cons. tauto.
Qed.

Lemma destroy_empty st : WF st -> buckets (destroy st) = [] /\ pending (destroy st) = [].
Proof.
  intros H. split; [done|]. unfold destroy. cbn [pending].
  destruct (pending (foldl _ st _)) as [|t l] eqn:E; [done|]. exfalso.
  assert (t ∈ pending (foldl (fun st b => cancel st (timer b)) st (buckets st).*2)) as Ht.
  { rewrite E. left. }
  apply pending_cancel_all in Ht as [Ht Hn]. apply Hn.
  destruct (wf_bucket _ H t Ht) as (b & Hb & <-).
  apply list_elem_of_fmap. exists b. split; [done|]. apply list_elem_of_fmap.
  exists (timerKey t, b). split; [done|]. by apply mget_elem_of.
Qed.

(** ** What the buckets remember *)

(** The recorded events of one key, oldest first. *)
Definition hist (h : list (string * Z)) (k : string) : list Z :=
  (filter (fun e => e.1 = k) h).*2.

(** Events of the last [W] milliseconds, the instant [now - W] excluded or
    included. *)
Definition recent (W now : Z) (l : list Z) : list Z := filter (fun x => now - W < x) l.
Definition recentIncl (W now : Z) (l : list Z) : list Z := filter (fun x => now - x <= W) l.

Lemma hist_snoc h k x k' :
  hist (h ++ [(k, x)]) k' = hist h k' ++ (if decide (k = k') then [x] else []).
Proof.
  unfold hist. rewrite filter_app, filter_cons, filter_nil. simpl.
  case_decide; by rewrite fmap_app.
Qed.

Lemma recent_nil W now l : (forall x, x ∈ l -> x + W <= now) -> recent W now l = [].
Proof.
  intros H. apply length_zero_iff_nil. unfold recent. apply Nat.le_0_r.
  destruct (filter _ l) as [|x l'] eqn:E; [done|].
  assert (x ∈ filter (fun x => now - W < x) l) as Hx by (rewrite E; left).
  apply list_elem_of_filter in Hx as [? Hx]. apply H in Hx. lia.
Qed.

Lemma recent_recentIncl W now now' l :
  now <= now' -> recent W now' (recentIncl W now l) = recent W now' l.
Proof.
  intros Hn. unfold recent, recentIncl. rewrite list_filter_filter_l; [done|]. intros. lia.
Qed.

Lemma recent_app W now l l' : recent W now (l ++ l') = recent W now l ++ recent W now l'.
Proof. apply filter_app. Qed.

Section Tracks.
(** The window, the lifetime of an idle entry and the cap on keys. *)
Context (W ttl : Z) (maxEntries : nat) (HW : W <= ttl).

(** [Tracks h t st]: at time [t] the buckets are faithful to the recorded
    events [h].  What a bucket holds is part of its history, nothing of the
    current window is missing, a key without a bucket has no event in the
    window, and no timer is due before its key's events have left the window. *)
Record Tracks (h : list (string * Z)) (t : Z) (st : Buckets) : Prop := {
  tr_wf : WF st;
  tr_past : forall k x, x ∈ hist h k -> x <= t;
  tr_sub : forall k b, mget (buckets st) k = Some b -> timestamps b `sublist_of` hist h k;
  tr_keep : forall k b now, mget (buckets st) k = Some b -> t <= now ->
    recent W now (timestamps b) = recent W now (hist h k);
  tr_gone : forall k x, mget (buckets st) k = None -> x ∈ hist h k -> x + W <= t;
  tr_due : forall tm x, tm ∈ pending st -> x ∈ hist h (timerKey tm) -> x + ttl <= timerDue tm }.

Lemma tracks_empty t : Tracks [] t empty.
Proof. split; simpl; intros; try done; try set_solver. apply wf_empty. Qed.

Lemma tracks_later h t t' st : t <= t' -> Tracks h t st -> Tracks h t' st.
Proof.
  intros Ht [H1 H2 H3 H4 H5 H6]. split; try done.
  - intros k x Hx. apply H2 in Hx. lia.
  - intros k b now Hb Hn. apply H4; [done|lia].
  - intros k x Hk Hx. specialize (H5 k x Hk Hx). lia.
Qed.

Lemma tracks_fire h t st id now :
  Tracks h t st -> t <= now -> Tracks h now (fire st id now).
Proof.
  intros H Ht. apply (tracks_later _ _ now) in H; [|done]. clear t Ht.
  pose proof (wf_fire st id now (tr_wf _ _ _ H)) as Hwf. revert Hwf. unfold fire.
  destruct (list_find _ _) as [[i tm]|] eqn:E; [|done]. intros Hwf.
  apply list_find_Some in E as (Hi & [Hid Hdue] & _). apply list_elem_of_lookup_2 in Hi.
  destruct H as [H1 H2 H3 H4 H5 H6]. split; [done|done|..]; simpl.
  - intros k b ?. map_cases. by apply H3.
  - intros k b now' ?. map_cases. by apply H4.
  - intros k x. rewrite mget_mdel. case_decide as Hk; [|apply H5].
    intros _ Hx. subst k. specialize (H6 tm x Hi Hx). lia.
  - intros tm' x [_ Htm]%list_elem_of_filter. by apply H6.
Qed.

Lemma tracks_ensure h t st key now b st' :
  Tracks h t st -> t <= now ->
  mget (buckets st) key <> None \/ (size st < maxEntries)%nat ->
  ensureBucket maxEntries ttl st key now = (b, st') -> Tracks h now st'.
Proof.
  intros H Ht Hroom E. apply (tracks_later _ _ now) in H; [|done]. clear t Ht.
  pose proof (wf_ensure _ _ _ _ _ _ _ (tr_wf _ _ _ H) E) as [Hwf _].
  unfold ensureBucket in E. destruct (mget (buckets st) key) as [b0|] eqn:Ek.
  { by injection E as <- <-. }
  destruct Hroom as [?|Hsz]; [done|]. apply Nat.leb_gt in Hsz. rewrite Hsz in E. simpl in E.
  injection E as <- <-. destruct H as [H1 H2 H3 H4 H5 H6]. split; [done|done|..]; simpl.
  - intros k b. rewrite mget_mset. case_decide; [|apply H3]. intros [= <-]. apply sublist_nil_l.
  - intros k b now'. rewrite mget_mset. case_decide as Hk; [|apply H4]. intros [= <-] Hn. simpl.
    symmetry. apply recent_nil. intros x Hx. subst k. specialize (H5 key x Ek Hx). lia.
  - intros k x. rewrite mget_mset. case_decide; [done|apply H5].
  - intros tm x [Htm| ->%list_elem_of_singleton]%elem_of_app Hx; [by apply H6|].
    simpl in *. apply H2 in Hx. lia.
Qed.

Lemma tracks_restart h h' t st key b ts now :
  Tracks h t st -> t <= now -> mget (buckets st) key = Some b ->
  ts `sublist_of` hist h' key ->
  (forall now', now <= now' -> recent W now' ts = recent W now' (hist h' key)) ->
  (forall k, k <> key -> hist h' k = hist h k) ->
  (forall x, x ∈ hist h' key -> x <= now) ->
  Tracks h' now (restart ttl st key b ts now).
Proof.
  intros H Ht Hb Hsub Hrec Hoth Hpast. apply (tracks_later _ _ now) in H; [|done]. clear t Ht.
  pose proof (wf_restart ttl st key b ts now (tr_wf _ _ _ H) Hb) as Hwf.
  destruct H as [H1 H2 H3 H4 H5 H6]. split; [done|..]; unfold restart; simpl.
  - intros k x Hx. destruct (decide (k = key)) as [->|Hne]; [by apply Hpast|].
    rewrite Hoth in Hx by done. by apply (H2 k).
  - intros k b'. rewrite mget_mset. case_decide as Hk; [subst; by intros [= <-]|].
    rewrite Hoth by done. apply H3.
  - intros k b' now'. rewrite mget_mset. case_decide as Hk; [subst; intros [= <-]; apply Hrec|].
    rewrite Hoth by done. apply H4.
  - intros k x. rewrite mget_mset. case_decide as Hk; [done|]. rewrite Hoth by done. apply H5.
  - intros tm x [[Hid Htm]%list_elem_of_filter| ->%list_elem_of_singleton]%elem_of_app Hx.
    + destruct (decide (timerKey tm = key)) as [Ek|Hne].
      * destruct (wf_bucket _ H1 _ Htm) as (b' & Hb' & Hid'). congruence.
      * rewrite Hoth in Hx by done. by apply H6.
    + simpl in *. apply Hpast in Hx. lia.
Qed.

(** The prune that both clients perform keeps the current window. *)
Lemma tracks_prune h t st key b now now' :
  Tracks h t st -> t <= now -> now <= now' -> mget (buckets st) key = Some b ->
  recent W now' (recentIncl W now (timestamps b)) = recent W now' (hist h key).
Proof.
  intros H Ht Hn Hb. rewrite recent_recentIncl by done. apply H; [done|lia].
Qed.

Lemma prune_length h t st key b now :
  Tracks h t st -> t <= now -> mget (buckets st) key = Some b ->
  (length (recent W now (hist h key)) <= length (recentIncl W now (timestamps b)) <=
   length (recentIncl W now (hist h key)))%nat.
Proof.
  intros H Ht Hb. split.
  - erewrite <- tracks_prune by (eauto; lia). apply length_filter.
  - apply sublist_length. unfold recentIncl.
    assert (forall l l' : list Z, l `sublist_of` l' ->
      filter (fun x => now - x <= W) l `sublist_of` filter (fun x => now - x <= W) l') as Hf.
    { induction 1; rewrite ?filter_cons; repeat case_decide; auto using sublist_skip, sublist_cons, sublist_nil. }
    apply Hf. by apply H.
Qed.

End Tracks.
End TimedBuckets.
