(* ===== verification/RateLimiters.v ===== *)
(** * The call-rate limiter and the injection rate limiter

  Two clients of [TimedBuckets]:
  [packages/daemon/src/autonomy/call-rate-limiter.ts] (deny over a per-key cap,
  for calls and for connection churn) and
  [packages/core/src/security/injection-rate-limiter.ts] (count detections and
  report the threshold they reach).

  [RateWindow] states what an admission window promises its client; the call
  limiter's window is an instance. *)

From S2P Require Import Prelude TimedBuckets.
Import TimedBuckets.

Open Scope string_scope.
Open Scope list_scope.
Open Scope Z_scope.

(** ** The promise of an admission window

  [rw_tracks h t st]: at time [t] the state reflects the admitted events [h].
  An attempt is admitted only when fewer than [cap] events of its key lie in
  the window [(now - W, now]] and denied only when at least [cap] lie in
  [[now - W, now]]; [rw_room] excludes attempts that would push another key's
  history out. *)
Class RateWindow (St : Type) (W : Z) (cap : nat) := {
  rw_attempt : St -> string -> Z -> bool * St;
  rw_room : St -> string -> Prop;
  rw_tracks : list (string * Z) -> Z -> St -> Prop;
  rw_law : forall h t st key now b st',
    rw_tracks h t st -> t <= now -> rw_room st key ->
    rw_attempt st key now = (b, st') ->
    rw_tracks (if b then h ++ [(key, now)] else h) now st' /\
    if b then (length (recent W now (hist h key)) < cap)%nat
    else (cap <= length (recentIncl W now (hist h key)))%nat }.

Module CallRateLimiter.

(** ** One sliding window *)

Record WindowConfig := mkWindowConfig {
  windowMs : Z; maxPerWindow : nat; maxEntries : nat }.

Definition hit (c : WindowConfig) (st : Buckets) (key : string) (now : Z) : bool * Buckets :=
  let '(bucket, st1) := ensureBucket (maxEntries c) (windowMs c) st key now in
  let ts := recentIncl (windowMs c) now (timestamps bucket) in
  if (maxPerWindow c <=? length ts)%nat
  then (false, restart (windowMs c) st1 key bucket ts now)
  else (true, restart (windowMs c) st1 key bucket (ts ++ [now]) now).

(** ** The limiter: a call window and a churn window *)

Record CallRateLimiterDeps := mkDeps {
  callWindowMs : Z; maxCallsPerWindow : nat;
  churnWindowMs : Z; maxChurnPerWindow : nat;
  depsMaxEntries : nat }.

Definition callConfig (d : CallRateLimiterDeps) : WindowConfig :=
  mkWindowConfig (callWindowMs d) (maxCallsPerWindow d) (depsMaxEntries d).
Definition churnConfig (d : CallRateLimiterDeps) : WindowConfig :=
  mkWindowConfig (churnWindowMs d) (maxChurnPerWindow d) (depsMaxEntries d).

Record Limiter := mkLimiter { callWindow : Buckets; churnWindow : Buckets }.

Definition createCallRateLimiter : Limiter := mkLimiter empty empty.

Inductive RateDeny := rate | churn.

Definition tryCall (d : CallRateLimiterDeps) (l : Limiter) (key : string) (now : Z)
    : Result unit RateDeny * Limiter :=
  let '(b, w) := hit (callConfig d) (callWindow l) key now in
  (if b then Ok tt else Err rate, mkLimiter w (churnWindow l)).

Definition tryChurn (d : CallRateLimiterDeps) (l : Limiter) (rootRunId : string) (now : Z)
    : Result unit RateDeny * Limiter :=
  let '(b, w) := hit (churnConfig d) (churnWindow l) rootRunId now in
  (if b then Ok tt else Err churn, mkLimiter (callWindow l) w).

Definition limiterSize (l : Limiter) : nat := size (callWindow l).

Definition limiterDestroy (l : Limiter) : Limiter :=
  mkLimiter (destroy (callWindow l)) (destroy (churnWindow l)).

(** ** The window keeps its promise *)

Definition hasRoom (c : WindowConfig) (st : Buckets) (key : string) : Prop :=
  mget (buckets st) key <> None \/ (size st < maxEntries c)%nat.

Lemma hit_law c h t st key now b st' :
  Tracks (windowMs c) (windowMs c) h t st -> t <= now -> hasRoom c st key ->
  hit c st key now = (b, st') ->
  Tracks (windowMs c) (windowMs c) (if b then h ++ [(key, now)] else h) now st' /\
  if b then (length (recent (windowMs c) now (hist h key)) < maxPerWindow c)%nat
  else (maxPerWindow c <= length (recentIncl (windowMs c) now (hist h key)))%nat.
Proof.
  intros H Ht Hroom. unfold hit.
  destruct (ensureBucket _ _ st key now) as [bk st1] eqn:E.
  pose proof (wf_ensure _ _ _ _ _ _ _ (tr_wf _ _ _ _ _ H) E) as [_ Hb].
  pose proof (tracks_ensure _ _ _ _ _ _ _ _ _ _ H Ht Hroom E) as H1.
  clear H Ht Hroom E st t.
  pose proof (prune_length _ _ _ _ _ _ _ _ H1 (Z.le_refl _) Hb) as Hlen.
  assert (recentIncl (windowMs c) now (timestamps bk) `sublist_of` hist h key) as Hsub.
  { trans (timestamps bk); [apply sublist_filter|by apply H1]. }
  assert (forall n, now <= n -> recent (windowMs c) n (recentIncl (windowMs c) now (timestamps bk)) =
    recent (windowMs c) n (hist h key)) as Hrec.
  { intros n Hn. by eapply tracks_prune; eauto using Z.le_refl. }
  destruct (_ <=? _)%nat eqn:El; intros [= <- <-].
  - apply Nat.leb_le in El. split; [|lia].
    eapply tracks_restart; eauto using Z.le_refl. intros x Hx. by apply (tr_past _ _ _ _ _ H1 key).
  - apply Nat.leb_gt in El. split; [|lia].
    eapply tracks_restart; eauto using Z.le_refl.
    + rewrite hist_snoc, decide_True by done. by apply sublist_app.
    + intros n Hn. by rewrite hist_snoc, decide_True, !recent_app, Hrec.
    + intros k Hk. rewrite hist_snoc, decide_False by done. apply app_nil_r.
    + intros x. rewrite hist_snoc, decide_True by done.
      intros [Hx|Hx]%elem_of_app; [by apply (tr_past _ _ _ _ _ H1 key)|]. set_unfold in Hx. lia.
Qed.

#[export] Instance slidingWindow (c : WindowConfig) :
  RateWindow Buckets (windowMs c) (maxPerWindow c) := {|
    rw_attempt := hit c;
    rw_room := hasRoom c;
    rw_tracks := Tracks (windowMs c) (windowMs c);
    rw_law := hit_law c |}.

(** ** Runs of one window *)

Inductive Op :=
| Hit (key : string) (now : Z)
| Fire (id : nat) (now : Z)
| Destroy.

Definition opTime (op : Op) : option Z :=
  match op with Hit _ now | Fire _ now => Some now | Destroy => None end.

Definition step (c : WindowConfig) (st : Buckets) (op : Op) : list (string * Z * bool) * Buckets :=
  match op with
  | Hit key now => let '(b, st') := hit c st key now in ([(key, now, b)], st')
  | Fire id now => ([], fire st id now)
  | Destroy => ([], destroy st)
  end.

Fixpoint run (c : WindowConfig) (st : Buckets) (ops : list Op)
    : list (string * Z * bool) * Buckets :=
  match ops with
  | [] => ([], st)
  | op :: ops =>
    let '(l, st') := step c st op in
    let '(l', st'') := run c st' ops in (l ++ l', st'')
  end.

(** The admitted attempts of a log. *)
Definition admitted (log : list (string * Z * bool)) : list (string * Z) :=
  (filter (fun e => e.2 = true) log).*1.

(** Every decision is the one the window promises, given the attempts admitted
    before it. *)
Fixpoint Sound (W : Z) (cap : nat) (h : list (string * Z)) (log : list (string * Z * bool)) : Prop :=
  match log with
  | [] => True
  | (key, now, b) :: log =>
    (if b : bool then (length (recent W now (hist h key)) < cap)%nat
     else (cap <= length (recentIncl W now (hist h key)))%nat) /\
    Sound W cap (if b then h ++ [(key, now)] else h) log
  end.

(** Hits and timer callbacks in order of time, over the keys [ks]. *)
Fixpoint timely (ks : list string) (t : Z) (ops : list Op) : bool :=
  match ops with
  | [] => true
  | Hit key now :: ops => bool_decide (key ∈ ks) && (t <=? now) && timely ks now ops
  | Fire _ now :: ops => (t <=? now) && timely ks now ops
  | Destroy :: _ => false
  end.

Lemma keys_hit c st key now (ks : list string) :
  WF st -> (forall k, k ∈ mkeys (buckets st) -> k ∈ ks) -> key ∈ ks -> hasRoom c st key ->
  forall k, k ∈ mkeys (buckets (hit c st key now).2) -> k ∈ ks.
Proof.
  intros H Hks Hk Hroom k. unfold hit.
  destruct (ensureBucket (maxEntries c) (windowMs c) st key now) as [b st1] eqn:E.
  assert (forall k, k ∈ mkeys (buckets st1) -> k ∈ ks) as H1.
  { unfold ensureBucket in E. destruct (mget (buckets st) key) eqn:Ek.
    - by injection E as <- <-.
    - destruct Hroom as [Hr|Hsz]; [by rewrite Ek in Hr|].
      apply Nat.leb_gt in Hsz. rewrite Hsz in E. simpl in E. injection E as <- <-. simpl.
      intros k'. rewrite elem_of_mkeys_mset. intros [->|?]; [done|by apply Hks]. }
  assert (forall ts, k ∈ mkeys (buckets (restart (windowMs c) st1 key b ts now)) -> k ∈ ks) as H2.
  { intros ts. unfold restart. simpl. rewrite elem_of_mkeys_mset. intros [->|?]; auto. }
  destruct (_ <=? _)%nat; apply H2.
Qed.

Lemma keys_fire st id now k :
  k ∈ mkeys (buckets (fire st id now)) -> k ∈ mkeys (buckets st).
Proof.
  unfold fire. destruct (list_find _ _) as [[i t]|]; simpl; [|done].
  rewrite elem_of_mkeys_mdel. tauto.
Qed.

Lemma room_of_keys c st key (ks : list string) :
  WF st -> (forall k, k ∈ mkeys (buckets st) -> k ∈ ks) -> key ∈ ks ->
  (length ks <= maxEntries c)%nat -> hasRoom c st key.
Proof.
  intros H Hks Hk Hlen. unfold hasRoom. destruct (mget (buckets st) key) eqn:E; [by left|]. right.
  apply mget_None in E.
  assert (length (key :: mkeys (buckets st)) <= length ks)%nat as Hle.
  { apply submseteq_length, NoDup_submseteq; [constructor; [done|apply H]|]. set_solver. }
  simpl in Hle. unfold mkeys in Hle. rewrite length_fmap in Hle. unfold size. lia.
Qed.

Lemma run_sound c (ks : list string) ops h t st :
  (length ks <= maxEntries c)%nat -> timely ks t ops = true ->
  Tracks (windowMs c) (windowMs c) h t st -> (forall k, k ∈ mkeys (buckets st) -> k ∈ ks) ->
  Sound (windowMs c) (maxPerWindow c) h (run c st ops).1.
Proof.
  intros Hlen. revert h t st. induction ops as [|[key now|id now|] ops IH];
    intros h t st Ht H Hks; simpl in *; [done|..|done].
  - apply andb_prop in Ht as [[Hk%bool_decide_eq_true Hn%Z.leb_le]%andb_prop Ht].
    pose proof (room_of_keys c st key ks (tr_wf _ _ _ _ _ H) Hks Hk Hlen) as Hroom.
    pose proof (keys_hit c st key now ks (tr_wf _ _ _ _ _ H) Hks Hk Hroom) as Hks'.
    destruct (hit c st key now) as [b st'] eqn:E.
    pose proof (hit_law c h t st key now b st' H Hn Hroom E) as [H' Hb].
    specialize (IH _ _ _ Ht H' Hks'). destruct (run c st' ops) as [l st'']. by split.
  - apply andb_prop in Ht as [Hn%Z.leb_le Ht].
    pose proof (tracks_fire _ _ (Z.le_refl _) h t st id now H Hn) as H'.
    specialize (IH _ _ _ Ht H' (fun k Hk => Hks k (keys_fire st id now k Hk))).
    by destruct (run c (fire st id now) ops).
Qed.

(** The call limiter is a true sliding window.  For any interleaving of
    attempts and idle-entry timers in order of time, over no more keys than
    the cap on entries, every attempt is admitted only when fewer than the cap
    were admitted for its key in the window [(now - W, now]], and denied only
    when the cap was reached in [[now - W, now]]; timers that delete idle
    entries never forget an event of the window. *)
Theorem sliding_window_sound (c : WindowConfig) (ks : list string) (t : Z) (ops : list Op) :
  (length ks <= maxEntries c)%nat -> timely ks t ops = true ->
  Sound (windowMs c) (maxPerWindow c) [] (run c empty ops).1.
Proof.
  intros Hlen Ht. apply (run_sound c ks ops [] t empty); [done|done|by apply tracks_empty|].
  intros k Hk. by apply elem_of_nil in Hk.
Qed.

Lemma sliding_window_sound_witness :
  let c := mkWindowConfig 1000 2 4 in
  let ops := [Hit "a" 0; Hit "a" 10; Hit "a" 20; Hit "b" 30; Fire 6 1020; Hit "a" 1030] in
  (run c empty ops).1 =
    [("a", 0, true); ("a", 10, true); ("a", 20, false); ("b", 30, true); ("a", 1030, true)] /\
  Sound 1000 2 [] (run c empty ops).1.
Proof.
  split; [vm_compute; reflexivity|].
  apply (sliding_window_sound (mkWindowConfig 1000 2 4) ["a"; "b"] 0); [simpl; lia|].
  vm_compute. reflexivity.
Defined.

(** ** No leak *)

Lemma wf_step c st op :
  WF st -> (size st <= Nat.max 1 (maxEntries c))%nat ->
  WF (step c st op).2 /\ (size (step c st op).2 <= Nat.max 1 (maxEntries c))%nat.
Proof.
  intros H Hs. destruct op as [key now|id now|]; simpl.
  - unfold hit. destruct (ensureBucket _ _ st key now) as [b st1] eqn:E.
    destruct (wf_ensure _ _ _ _ _ _ _ H E) as [H1 Hb].
    pose proof (size_ensure _ _ _ _ _ _ _ H Hs E).
    destruct (_ <=? _)%nat; simpl; (split; [by apply wf_restart|]); by rewrite size_restart.
  - split; [by apply wf_fire|]. unfold fire. destruct (list_find _ _) as [[i t]|]; [|done].
    unfold size in *. simpl. pose proof (length_mdel (buckets st) (timerKey t)). lia.
  - destruct (destroy_empty st H) as [Eb Ep]. split; [|unfold size; rewrite Eb; simpl; lia].
    split; rewrite ?Eb, ?Ep; simpl; try constructor; intros; set_solver.
Qed.

Lemma wf_run c ops st :
  WF st -> (size st <= Nat.max 1 (maxEntries c))%nat ->
  WF (run c st ops).2 /\ (size (run c st ops).2 <= Nat.max 1 (maxEntries c))%nat.
Proof.
  revert st. induction ops as [|op ops IH]; intros st H Hs; simpl; [done|].
  destruct (wf_step c st op H Hs) as [H' Hs']. destruct (step c st op) as [l st'].
  specialize (IH st' H' Hs'). by destruct (run c st' ops).
Qed.

(** The window never leaks.  Under any sequence of attempts, timer
    callbacks and teardowns, at any times, the number of keys stays within the
    cap (at least one), and the pending timers are in one-to-one
    correspondence with the keys held: eviction and teardown cancel the
    timers they orphan. *)
Theorem sliding_window_no_leak (c : WindowConfig) (ops : list Op) :
  let st := (run c empty ops).2 in
  (size st <= Nat.max 1 (maxEntries c))%nat /\ (timerKey <$> pending st) ≡ₚ mkeys (buckets st).
Proof.
  intros st. destruct (wf_run c ops empty wf_empty) as [H Hs]; [apply Nat.le_0_l|].
  split; [done|]. by apply wf_bijection.
Qed.

End CallRateLimiter.

Module InjectionRateLimiter.

Record InjectionRateLimiterConfig := mkConfig {
  windowMs : Z;
  warnThreshold : nat;
  auditThreshold : nat;
  entryTtlMs : Z;
  maxEntries : nat }.

Definition defaultConfig : InjectionRateLimiterConfig :=
  mkConfig 300000 3 5 300000 (Z.to_nat 10000).

Inductive Level := none | warn | audit.

Record RateLimitResult := mkResult {
  thresholdCrossed : bool; count : nat; level : Level }.

Definition keyOf (tenantId userId : string) : string := (tenantId +:+ ":" +:+ userId)%string.

Definition classify (c : InjectionRateLimiterConfig) (count : nat) : RateLimitResult :=
  if (auditThreshold c <=? count)%nat then mkResult (count =? auditThreshold c)%nat count audit
  else if (warnThreshold c <=? count)%nat then mkResult (count =? warnThreshold c)%nat count warn
  else mkResult false count none.

Definition record (c : InjectionRateLimiterConfig) (st : Buckets) (tenantId userId : string)
    (now : Z) : RateLimitResult * Buckets :=
  let key := keyOf tenantId userId in
  let '(bucket, st1) := ensureBucket (maxEntries c) (entryTtlMs c) st key now in
  let ts := recentIncl (windowMs c) now (timestamps bucket) ++ [now] in
  (classify c (length ts), restart (entryTtlMs c) st1 key bucket ts now).

Definition getCount (st : Buckets) (tenantId userId : string) : nat :=
  match mget (buckets st) (keyOf tenantId userId) with
  | Some b => length (timestamps b)
  | None => 0
  end.

(** ** Runs *)

Inductive Op :=
| Record_ (tenantId userId : string) (now : Z)
| Fire (id : nat) (now : Z).

Definition step (c : InjectionRateLimiterConfig) (st : Buckets) (op : Op)
    : list (string * Z * RateLimitResult) * Buckets :=
  match op with
  | Record_ t u now => let '(r, st') := record c st t u now in ([(keyOf t u, now, r)], st')
  | Fire id now => ([], fire st id now)
  end.

Fixpoint run (c : InjectionRateLimiterConfig) (st : Buckets) (ops : list Op)
    : list (string * Z * RateLimitResult) * Buckets :=
  match ops with
  | [] => ([], st)
  | op :: ops =>
    let '(l, st') := step c st op in
    let '(l', st'') := run c st' ops in (l ++ l', st'')
  end.

(** Each report counts the detections of the window: at least those after
    [now - W], at most those from [now - W] on. *)
Fixpoint Counts (c : InjectionRateLimiterConfig) (h : list (string * Z))
    (log : list (string * Z * RateLimitResult)) : Prop :=
  match log with
  | [] => True
  | (key, now, r) :: log =>
    let h' := h ++ [(key, now)] in
    (length (recent (windowMs c) now (hist h key)) < count r <=
     S (length (recentIncl (windowMs c) now (hist h key))))%nat /\
    r = classify c (count r) /\ Counts c h' log
  end.

Fixpoint timely (c : InjectionRateLimiterConfig) (ks : list string) (t : Z) (ops : list Op) : bool :=
  match ops with
  | [] => true
  | Record_ tn u now :: ops =>
    bool_decide (keyOf tn u ∈ ks) && (t <=? now) && timely c ks now ops
  | Fire _ now :: ops => (t <=? now) && timely c ks now ops
  end.

Section Law.
Context (c : InjectionRateLimiterConfig) (HW : windowMs c <= entryTtlMs c).

Lemma classify_count n : count (classify c n) = n.
Proof. unfold classify. by repeat case_match. Qed.

Lemma record_law h t st tn u now r st' :
  Tracks (windowMs c) (entryTtlMs c) h t st -> t <= now ->
  mget (buckets st) (keyOf tn u) <> None \/ (size st < maxEntries c)%nat ->
  record c st tn u now = (r, st') ->
  Tracks (windowMs c) (entryTtlMs c) (h ++ [(keyOf tn u, now)]) now st' /\
  (length (recent (windowMs c) now (hist h (keyOf tn u))) < count r <=
   S (length (recentIncl (windowMs c) now (hist h (keyOf tn u)))))%nat /\
  r = classify c (count r).
Proof.
  intros H Ht Hroom. unfold record. set (key := keyOf tn u) in *.
  destruct (ensureBucket _ _ st key now) as [bk st1] eqn:E.
  pose proof (wf_ensure _ _ _ _ _ _ _ (tr_wf _ _ _ _ _ H) E) as [_ Hb].
  pose proof (tracks_ensure _ _ _ _ _ _ _ _ _ _ H Ht Hroom E) as H1.
  clear H Ht Hroom E st t. intros [= <- <-]. rewrite classify_count.
  pose proof (prune_length _ _ _ _ _ _ _ _ H1 (Z.le_refl _) Hb) as Hlen.
  split; [|split; [rewrite length_app; simpl; lia|done]].
  eapply tracks_restart; eauto using Z.le_refl.
  - rewrite hist_snoc, decide_True by done. apply sublist_app; [|done].
    trans (timestamps bk); [apply sublist_filter|by apply H1].
  - intros n Hn. rewrite hist_snoc, decide_True, !recent_app by done. f_equal.
    by eapply tracks_prune; eauto using Z.le_refl.
  - intros k Hk. rewrite hist_snoc, decide_False by done. apply app_nil_r.
  - intros x. rewrite hist_snoc, decide_True by done.
    intros [Hx|Hx]%elem_of_app; [by apply (tr_past _ _ _ _ _ H1 key)|]. set_unfold in Hx. lia.
Qed.

Lemma keys_record st tn u now (ks : list string) :
  (forall k, k ∈ mkeys (buckets st) -> k ∈ ks) -> keyOf tn u ∈ ks ->
  (mget (buckets st) (keyOf tn u) <> None \/ (size st < maxEntries c)%nat) ->
  forall k, k ∈ mkeys (buckets (record c st tn u now).2) -> k ∈ ks.
Proof.
  intros Hks Hk Hroom k. unfold record. set (key := keyOf tn u) in *.
  destruct (ensureBucket (maxEntries c) (entryTtlMs c) st key now) as [b st1] eqn:E.
  simpl. rewrite elem_of_mkeys_mset. intros [->|H1]; [done|].
  unfold ensureBucket in E. destruct (mget (buckets st) key) eqn:Ek.
  - injection E as <- <-. by apply Hks.
  - destruct Hroom as [Hr|Hsz]; [by destruct Hr|].
    apply Nat.leb_gt in Hsz. rewrite Hsz in E. simpl in E. injection E as <- <-. simpl in *.
    apply elem_of_mkeys_mset in H1 as [->|?]; [done|by apply Hks].
Qed.

Lemma run_counts (ks : list string) ops h t st :
  (length ks <= maxEntries c)%nat -> timely c ks t ops = true ->
  Tracks (windowMs c) (entryTtlMs c) h t st -> (forall k, k ∈ mkeys (buckets st) -> k ∈ ks) ->
  Counts c h (run c st ops).1.
Proof.
  intros Hlen. revert h t st. induction ops as [|[tn u now|id now] ops IH];
    intros h t st Ht H Hks; simpl in *; [done|..].
  - apply andb_prop in Ht as [[Hk%bool_decide_eq_true Hn%Z.leb_le]%andb_prop Ht].
    pose proof (CallRateLimiter.room_of_keys
      (CallRateLimiter.mkWindowConfig 0 0 (maxEntries c)) st (keyOf tn u) ks
      (tr_wf _ _ _ _ _ H) Hks Hk Hlen) as Hroom.
    pose proof (keys_record st tn u now ks Hks Hk Hroom) as Hks'.
    destruct (record c st tn u now) as [r st'] eqn:E.
    destruct (record_law h t st tn u now r st' H Hn Hroom E) as (H' & Hc & Hr).
    specialize (IH _ _ _ Ht H' Hks'). destruct (run c st' ops) as [l st'']. split; [exact Hc|]. by split.
  - apply andb_prop in Ht as [Hn%Z.leb_le Ht].
    pose proof (tracks_fire _ _ HW h t st id now H Hn) as H'.
    specialize (IH _ _ _ Ht H' (fun k Hk => Hks k (CallRateLimiter.keys_fire st id now k Hk))).
    by destruct (run c (fire st id now) ops).
Qed.
End Law.

(** The injection limiter counts every detection of the window.  While the
    keys fit the cap on entries and entries outlive the window, each detection
    is reported with a count that misses no earlier detection of the window,
    expired idle entries notwithstanding, and with the level and the crossing
    that this count calls for. *)
Theorem injection_counts_sound (c : InjectionRateLimiterConfig) (ks : list string) (t : Z)
    (ops : list Op) :
  windowMs c <= entryTtlMs c -> (length ks <= maxEntries c)%nat -> timely c ks t ops = true ->
  Counts c [] (run c empty ops).1.
Proof.
  intros HW Hlen Ht. apply (run_counts c HW ks ops [] t empty); [done|done|by apply tracks_empty|].
  intros k Hk. by apply elem_of_nil in Hk.
Qed.

Lemma injection_counts_sound_witness :
  let ops := [Record_ "t" "u" 0; Record_ "t" "u" 1; Record_ "t" "u" 2; Fire 5 300002;
              Record_ "t" "u" 300003] in
  ((fun e => level e.2) <$> (run defaultConfig empty ops).1) = [none; none; warn; none] /\
  Counts defaultConfig [] (run defaultConfig empty ops).1.
Proof.
  split; [vm_compute; reflexivity|].
  apply (injection_counts_sound defaultConfig ["t:u"] 0);
    [vm_compute; discriminate | apply Nat.leb_le; vm_compute; reflexivity | vm_compute; reflexivity].
Defined.

End InjectionRateLimiter.
