(* ===== verification/AutonomyGuards.v ===== *)
(** * The small guards of bounded autonomy

  Models four modules of [packages/daemon/src/autonomy]: the per-root spawn
  semaphore ([root-run-semaphore.ts]), the outward quota ([outward-quota.ts]),
  the denial breaker ([denial-breaker.ts]) and the registry of evicted roots
  ([evict-registry.ts]).  Clock reads are arguments; log lines are not
  modelled. *)

From S2P Require Import Prelude.

Open Scope string_scope.
Open Scope list_scope.
Open Scope nat_scope.

Module RootRunSemaphore.

Inductive SpawnDenyReason := concurrency | depth | fanout.

Record Config := mkConfig {
  maxConcurrentSelfAgents : nat;
  maxSpawnDepth : nat;
  maxChildrenPerAgent : nat }.

(** Live spawns per root; a root without an entry has none. *)
Abbreviation Roots := (gmap string nat).

Definition activeCount (roots : Roots) (r : string) : nat := default 0 (roots !! r).

Definition tryAcquireSpawn (cfg : Config) (roots : Roots) (r : string) (d f : nat)
    : Result unit SpawnDenyReason * Roots :=
  if maxSpawnDepth cfg <=? d then (Err depth, roots)
  else if maxChildrenPerAgent cfg <=? f then (Err fanout, roots)
  else
    let active := activeCount roots r in
    if maxConcurrentSelfAgents cfg <=? active then (Err concurrency, roots)
    else (Ok tt, <[r := S active]> roots).

Definition releaseSpawn (roots : Roots) (r : string) : Roots :=
  match roots !! r with
  | None => roots
  | Some active =>
    let active' := active - 1 in
    if active' =? 0 then delete r roots else <[r := active']> roots
  end.

Definition size (roots : Roots) : nat := base.size roots.

Inductive Op :=
| Acquire (r : string) (d f : nat)
| Release (r : string).

Definition step (cfg : Config) (roots : Roots) (op : Op) : bool * Roots :=
  match op with
  | Acquire r d f => let '(a, roots') := tryAcquireSpawn cfg roots r d f in (is_ok a, roots')
  | Release r => (false, releaseSpawn roots r)
  end.

Fixpoint run (cfg : Config) (roots : Roots) (ops : list Op) : list (Op * bool) * Roots :=
  match ops with
  | [] => ([], roots)
  | op :: ops =>
    let '(b, roots') := step cfg roots op in
    let '(l, roots'') := run cfg roots' ops in ((op, b) :: l, roots'')
  end.

(** Spawns granted to a root minus spawns released: the truly live children,
    for a caller that releases each granted spawn once. *)
Definition delta (r : string) (e : Op * bool) : Z :=
  match e with
  | (Acquire r' _ _, true) => if bool_decide (r' = r) then 1 else 0
  | (Release r', _) => if bool_decide (r' = r) then -1 else 0
  | _ => 0
  end%Z.
Definition live (r : string) (log : list (Op * bool)) : Z :=
  foldr (fun e s => delta r e + s)%Z 0%Z log.

(** No root is released more often than it was granted, at any point. *)
Definition paired (log : list (Op * bool)) : Prop :=
  forall r pre post, log = pre ++ post -> (0 <= live r pre)%Z.

(** ** Invariant: positive entries within the cap *)

Definition Inv (cfg : Config) (roots : Roots) : Prop :=
  forall r n, roots !! r = Some n -> 0 < n <= maxConcurrentSelfAgents cfg.

Lemma inv_step cfg roots op : Inv cfg roots -> Inv cfg (step cfg roots op).2.
Proof.
  intros H. destruct op as [r d f|r]; simpl.
  - unfold tryAcquireSpawn. destruct (_ <=? d); [done|]. destruct (_ <=? f); [done|].
    destruct (_ <=? _) eqn:E; [done|]. apply Nat.leb_gt in E. simpl.
    intros r' n. rewrite lookup_insert_Some. intros [[-> <-]|[_ Hn]]; [lia|by apply (H r')].
  - unfold releaseSpawn. destruct (roots !! r) as [a|] eqn:E; [|done]. apply H in E.
    destruct (_ =? 0) eqn:E0; intros r' n.
    + rewrite lookup_delete_Some. intros [_ Hn]. by apply (H r').
    + apply Nat.eqb_neq in E0. rewrite lookup_insert_Some.
      intros [[-> <-]|[_ Hn]]; [lia|by apply (H r')].
Qed.

Lemma step_active cfg roots op r :
  Inv cfg roots ->
  (Z.of_nat (activeCount (step cfg roots op).2 r) =
   Z.max 0 (Z.of_nat (activeCount roots r) + delta r (op, (step cfg roots op).1)))%Z.
Proof.
  intros H. unfold activeCount. destruct op as [r' d f|r']; simpl.
  - unfold tryAcquireSpawn. destruct (_ <=? d); [simpl; lia|]. destruct (_ <=? f); [simpl; lia|].
    destruct (_ <=? _) eqn:E; [simpl; lia|]. unfold activeCount. simpl. case_bool_decide; subst.
    + rewrite lookup_insert_eq. simpl. lia.
    + rewrite lookup_insert_ne by done. lia.
  - unfold releaseSpawn. case_bool_decide; subst.
    + destruct (roots !! r) as [a|] eqn:E; [|rewrite E; simpl; lia]. apply H in E.
      destruct (_ =? 0) eqn:E0.
      * apply Nat.eqb_eq in E0. rewrite lookup_delete_eq. simpl. lia.
      * apply Nat.eqb_neq in E0. rewrite lookup_insert_eq. simpl. lia.
    + destruct (roots !! r') as [a|]; [|lia].
      destruct (_ =? 0); [rewrite lookup_delete_ne by done; lia|].
      rewrite lookup_insert_ne by done. lia.
Qed.

#[local] Arguments delta : simpl never.

Lemma run_active cfg ops roots r :
  Inv cfg roots ->
  (forall pre post, (run cfg roots ops).1 = pre ++ post ->
     0 <= Z.of_nat (activeCount roots r) + live r pre)%Z ->
  Inv cfg (run cfg roots ops).2 /\
  (Z.of_nat (activeCount (run cfg roots ops).2 r) =
   Z.of_nat (activeCount roots r) + live r (run cfg roots ops).1)%Z.
Proof.
  revert roots. induction ops as [|op ops IH]; intros roots H Hp; simpl in *; [split; [done|lia]|].
  pose proof (inv_step cfg roots op H) as H'. pose proof (step_active cfg roots op r H) as Ha.
  destruct (step cfg roots op) as [b roots'] eqn:E. specialize (IH roots' H'). simpl in *.
  destruct (run cfg roots' ops) as [l roots''] eqn:El. simpl in *.
  pose proof (Hp [(op, b)] l eq_refl) as H1. unfold live in H1. cbn [foldr] in H1.
  destruct IH as [Hi IH].
  { intros pre post ->. specialize (Hp ((op, b) :: pre) post eq_refl).
    unfold live in *. cbn [foldr] in Hp. lia. }
  split; [done|]. unfold live in *. cbn [foldr]. lia.
Qed.

(** The semaphore bounds a whole tree.  For any interleaving of spawns and
    releases over any roots, with releases paired to grants, the count it
    keeps for a root is exactly the number of its live children, never exceeds
    the concurrency cap, and a root with no live child holds no entry. *)
Theorem semaphore_bounds_tree (cfg : Config) (ops : list Op) (r : string) :
  let log := (run cfg ∅ ops).1 in
  let roots := (run cfg ∅ ops).2 in
  paired log ->
  Z.of_nat (activeCount roots r) = live r log /\
  (live r log <= Z.of_nat (maxConcurrentSelfAgents cfg))%Z /\
  (live r log = 0%Z <-> roots !! r = None).
Proof.
  pose proof (run_active cfg ops ∅ r) as H.
  destruct (run cfg ∅ ops) as [log roots]. simpl in *. intros Hp.
  destruct H as [Hi H].
  - intros r' n. by rewrite lookup_empty.
  - intros pre post E. unfold activeCount. rewrite lookup_empty. by apply (Hp r pre post).
  - unfold activeCount in *. rewrite lookup_empty in H. simpl in H.
    destruct (roots !! r) as [n|] eqn:E; simpl in *.
    + apply Hi in E. split_and!; [lia|lia|]. split; [lia|done].
    + split_and!; [lia|lia|]. split; [done|lia].
Qed.

Lemma semaphore_bounds_tree_witness :
  let cfg := mkConfig 1 4 4 in
  let ops := [Acquire "a" 0 0; Acquire "a" 1 1; Release "a"; Acquire "a" 0 0; Acquire "b" 0 0] in
  live "a" (run cfg ∅ ops).1 = 1%Z /\
  Z.of_nat (activeCount (run cfg ∅ ops).2 "a") = live "a" (run cfg ∅ ops).1.
Proof.
  split; [vm_compute; reflexivity|].
  apply (semaphore_bounds_tree (mkConfig 1 4 4)
    [Acquire "a" 0 0; Acquire "a" 1 1; Release "a"; Acquire "a" 0 0; Acquire "b" 0 0] "a").
  intros r pre post E. vm_compute in E.
  destruct pre as [|e0 [|e1 [|e2 [|e3 [|e4 [|e5 pre]]]]]]; simplify_eq/=;
    unfold live, delta; simpl; repeat case_bool_decide; lia.
Defined.

End RootRunSemaphore.

Module DenialBreaker.

Record DenialVerdict := mkVerdict { tripped : bool; consecutive : nat }.

Abbreviation Counts := (gmap string nat).

Definition recordDenial (N : nat) (m : Counts) (r : string) : DenialVerdict * Counts :=
  let c := default 0 (m !! r) + 1 in
  (mkVerdict (c =? N) c, <[r := c]> m).

Definition recordAllow (m : Counts) (r : string) : Counts := delete r m.
Definition evict (m : Counts) (r : string) : Counts := delete r m.

Inductive Op := Deny (r : string) | Allow (r : string) | Evict (r : string).

Definition step (N : nat) (m : Counts) (op : Op) : option DenialVerdict * Counts :=
  match op with
  | Deny r => let '(v, m') := recordDenial N m r in (Some v, m')
  | Allow r => (None, recordAllow m r)
  | Evict r => (None, evict m r)
  end.

Definition runState (N : nat) (ops : list Op) : Counts :=
  foldl (fun m op => (step N m op).2) ∅ ops.

(** The denials of [r] since its last allowed call or eviction, reading the
    history backwards; operations on other roots do not count. *)
Fixpoint streakRev (r : string) (rev_ops : list Op) : nat :=
  match rev_ops with
  | [] => 0
  | Deny r' :: l => if bool_decide (r' = r) then S (streakRev r l) else streakRev r l
  | (Allow r' | Evict r') :: l => if bool_decide (r' = r) then 0 else streakRev r l
  end.
Definition streak (r : string) (ops : list Op) : nat := streakRev r (rev ops).

Lemma runState_streak N ops r : default 0 (runState N ops !! r) = streak r ops.
Proof.
  unfold runState, streak. induction ops as [|op ops IH] using rev_ind; [done|].
  rewrite foldl_app, rev_app_distr. simpl.
  destruct op as [r'|r'|r']; simpl; unfold recordAllow, evict; case_bool_decide as E; subst.
  - rewrite lookup_insert_eq. simpl. lia.
  - by rewrite lookup_insert_ne.
  - by rewrite lookup_delete_eq.
  - by rewrite lookup_delete_ne.
  - by rewrite lookup_delete_eq.
  - by rewrite lookup_delete_ne.
Qed.

(** The breaker trips on the denial that completes a run of [N] consecutive
    ones and on no other: after any history, the verdict of a denial carries the
    length of the current run of denials of that root, uninterrupted by an
    allowed call or an eviction of it, and is a trip exactly when that length
    is [N]. *)
Theorem breaker_trips_once (N : nat) (ops : list Op) (r : string) :
  let v := (recordDenial N (runState N ops) r).1 in
  consecutive v = streak r (ops ++ [Deny r]) /\
  (tripped v = true <-> streak r (ops ++ [Deny r]) = N).
Proof.
  simpl. rewrite runState_streak. unfold streak. rewrite rev_app_distr. simpl.
  rewrite bool_decide_true by done. rewrite Nat.eqb_eq. split; [lia|]. lia.
Qed.

End DenialBreaker.

Module EvictRegistry.

Abbreviation Registry := (gset string).

Definition mark (s : Registry) (r : string) : bool * Registry :=
  (negb (bool_decide (r ∈ s)), s ∪ {[r]}).
Definition isEvicted (s : Registry) (r : string) : bool := bool_decide (r ∈ s).
Definition clear (s : Registry) (r : string) : Registry := s ∖ {[r]}.

End EvictRegistry.

Module OutwardQuota.
Open Scope Z_scope.

Inductive QuotaReason := per_hour | no_grant | volume_.

Record OutwardQuotaConfig := mkConfig {
  originOnly : bool;
  perTargetGrants : list string;
  volumeCap : Z;
  maxPerHour : Z }.

Definition HOUR_MS : Z := 3600000.

Record HourCounter := mkCounter { count : Z; windowStartMs : Z }.
Abbreviation Counters := (gmap string HourCounter).

Definition keyOf (agentId channelId : string) : string := (agentId +:+ ":" +:+ channelId)%string.

Definition tryOutward (c : OutwardQuotaConfig) (m : Counters) (agentId channelId : string)
    (isOrigin : bool) (volume now : Z) : Result unit QuotaReason * Counters :=
  if negb isOrigin && negb (bool_decide (channelId ∈ perTargetGrants c)) then (Err no_grant, m)
  else if volumeCap c <? volume then (Err volume_, m)
  else
    let key := keyOf agentId channelId in
    match m !! key with
    | None => (Ok tt, <[key := mkCounter 1 now]> m)
    | Some e =>
      if HOUR_MS <=? now - windowStartMs e then (Ok tt, <[key := mkCounter 1 now]> m)
      else if maxPerHour c <=? count e then (Err per_hour, m)
      else (Ok tt, <[key := mkCounter (count e + 1) (windowStartMs e)]> m)
    end.

Definition remaining (c : OutwardQuotaConfig) (m : Counters) (agentId channelId : string)
    (now : Z) : Z :=
  match m !! keyOf agentId channelId with
  | None => maxPerHour c
  | Some e =>
    if HOUR_MS <=? now - windowStartMs e then maxPerHour c
    else Z.max 0 (maxPerHour c - count e)
  end.

Record Send := mkSend {
  s_agent : string; s_channel : string; s_origin : bool; s_volume : Z; s_now : Z }.

Definition attempt (c : OutwardQuotaConfig) (m : Counters) (s : Send)
    : Result unit QuotaReason * Counters :=
  tryOutward c m (s_agent s) (s_channel s) (s_origin s) (s_volume s) (s_now s).

Fixpoint run (c : OutwardQuotaConfig) (m : Counters) (sends : list Send)
    : list (Send * Result unit QuotaReason) * Counters :=
  match sends with
  | [] => ([], m)
  | s :: sends =>
    let '(r, m') := attempt c m s in
    let '(l, m'') := run c m' sends in ((s, r) :: l, m'')
  end.

(** The times of the sends a log admitted under one key. *)
Definition admittedTimes (key : string) (log : list (Send * Result unit QuotaReason)) : list Z :=
  (fun e => s_now e.1) <$>
  filter (fun e => is_ok e.2 = true /\ keyOf (s_agent e.1) (s_channel e.1) = key) log.

Definition inSpan (a b : Z) (ts : list Z) : nat := length (filter (fun x => a <= x < b) ts).

(** Attempts in order of time. *)
Fixpoint ordered (t : Z) (sends : list Send) : bool :=
  match sends with
  | [] => true
  | s :: sends => (t <=? s_now s) && ordered (s_now s) sends
  end.

(** ** Two adjacent windows cover any hour *)

Section Bound.
Context (c : OutwardQuotaConfig) (Hmax : 1 <= maxPerHour c).

(** What the counter of a key says of its admitted times [ts] up to time [t]:
    the current window holds [count] of them, the first at its start, and the
    hour before the window holds fewer than the cap. *)
Record Window (ts : list Z) (t : Z) (e : option HourCounter) : Prop := {
  win_past : forall x, x ∈ ts -> x <= t;
  win_any : forall s, Z.of_nat (inSpan s (s + HOUR_MS) ts) <= 2 * maxPerHour c - 1;
  win_cur : match e with
    | None => ts = []
    | Some e =>
        windowStartMs e <= t /\ count e <= maxPerHour c /\
        length (filter (fun x => windowStartMs e <= x) ts) = Z.to_nat (count e) /\
        1 <= count e /\ windowStartMs e ∈ ts /\
        (forall x, x ∈ ts -> x < windowStartMs e + HOUR_MS) /\
        Z.of_nat (length (filter (fun x => windowStartMs e - HOUR_MS < x < windowStartMs e) ts))
          <= maxPerHour c - 1
    end }.

Lemma inSpan_snoc a b ts x :
  inSpan a b (ts ++ [x]) = (inSpan a b ts + (if decide (a <= x < b)%Z then 1 else 0))%nat.
Proof.
  unfold inSpan. rewrite filter_app, length_app, filter_cons, filter_nil. by case_decide.
Qed.

Lemma filter_imp_length (P Q : Z -> Prop) `{!forall x, Decision (P x), !forall x, Decision (Q x)} ts :
  (forall x, x ∈ ts -> P x -> Q x) -> (length (filter P ts) <= length (filter Q ts))%nat.
Proof.
  induction ts as [|y ts IH]; intros HPQ; [done|]. rewrite !filter_cons.
  assert (length (filter P ts) <= length (filter Q ts))%nat
    by (apply IH; intros; apply HPQ; [by right|done]).
  specialize (HPQ y (list_elem_of_here _ _)). repeat case_decide; simpl; try lia. tauto.
Qed.

(** A member outside the smaller filter makes the larger one strictly larger. *)
Lemma filter_imp_length_lt (P Q : Z -> Prop) `{!forall x, Decision (P x), !forall x, Decision (Q x)}
    ts y :
  (forall x, x ∈ ts -> P x -> Q x) -> y ∈ ts -> Q y -> ~ P y ->
  (length (filter P ts) < length (filter Q ts))%nat.
Proof.
  intros HPQ Hy HQ HP. apply list_elem_of_split in Hy as (l1 & l2 & ->).
  rewrite !filter_app, !length_app, !filter_cons. rewrite decide_False by done.
  rewrite (decide_True (P := Q y)) by done. simpl.
  assert (length (filter P l1) <= length (filter Q l1))%nat.
  { apply filter_imp_length. intros; apply HPQ; [set_solver|done]. }
  assert (length (filter P l2) <= length (filter Q l2))%nat.
  { apply filter_imp_length. intros; apply HPQ; [set_solver|done]. }
  lia.
Qed.

Lemma inSpan_split a b m ts :
  (inSpan a b ts <= length (filter (fun x => a <= x < m)%Z ts) +
                    length (filter (fun x => m <= x < b)%Z ts))%nat.
Proof.
  unfold inSpan. induction ts as [|y ts IH]; [done|]. rewrite !filter_cons.
  repeat case_decide; simpl; lia.
Qed.

Lemma filter_snoc (P : Z -> Prop) `{!forall x, Decision (P x)} ts y :
  length (filter P (ts ++ [y])) = (length (filter P ts) + (if decide (P y) then 1 else 0))%nat.
Proof. rewrite filter_app, length_app, filter_cons, filter_nil. by case_decide. Qed.

Lemma window_later ts t t' e : t <= t' -> Window ts t e -> Window ts t' e.
Proof.
  intros Ht [H1 H2 H3]. split; [|done|].
  - intros x Hx. apply H1 in Hx. lia.
  - destruct e as [e|]; [|done]. destruct H3 as (? & H3). split; [lia|done].
Qed.

Lemma window_open ts t e now :
  Window ts t e -> t <= now ->
  match e with None => True | Some e => HOUR_MS <= now - windowStartMs e end ->
  Window (ts ++ [now]) now (Some (mkCounter 1 now)).
Proof.
  intros [H1 H2 H3] Ht He. unfold HOUR_MS in *.
  assert (forall x, x ∈ ts -> x < now) as Hlt.
  { destruct e as [e|]; [|subst; by intros ? ?%elem_of_nil].
    destruct H3 as (_ & _ & _ & _ & _ & Hhi & _). intros x Hx. apply Hhi in Hx. lia. }
  assert (forall s, now - 3600000 < s ->
    Z.of_nat (length (filter (fun x => s <= x)%Z ts)) <= maxPerHour c - 1) as Hcur.
  { intros s Hs. destruct e as [e|]; [|subst; simpl; lia].
    destruct H3 as (_ & Hc & Hn & Hc1 & Hin & _).
    assert (length (filter (fun x => s <= x)%Z ts) <
      length (filter (fun x => windowStartMs e <= x)%Z ts))%nat; [|lia].
    eapply filter_imp_length_lt; [|exact Hin|done|]; simpl; lia. }
  split; cbn [count windowStartMs].
  - intros x [Hx| ->%list_elem_of_singleton]%elem_of_app; [apply H1 in Hx; lia|lia].
  - intros s. rewrite inSpan_snoc. specialize (H2 s). unfold HOUR_MS in *.
    destruct (decide _) as [Hs|]; [|lia].
    assert (inSpan s (s + 3600000) ts <= length (filter (fun x => s <= x)%Z ts))%nat.
    { apply filter_imp_length. lia. }
    specialize (Hcur s ltac:(lia)). lia.
  - split; [lia|]. split; [lia|]. split.
    { rewrite filter_snoc, decide_True by lia.
      destruct (filter (fun x => now <= x)%Z ts) as [|y l] eqn:E; [done|].
      assert (y ∈ filter (fun x => now <= x) ts) as Hy by (rewrite E; left).
      apply list_elem_of_filter in Hy as [? Hy]. apply Hlt in Hy. lia. }
    split; [lia|]. split; [set_solver|]. split.
    { intros x [Hx| ->%list_elem_of_singleton]%elem_of_app; [apply H1 in Hx|]; unfold HOUR_MS; lia. }
    rewrite filter_snoc, decide_False by lia. unfold HOUR_MS.
    assert (length (filter (fun x => now - 3600000 < x < now)%Z ts) <=
      length (filter (fun x => now - 3600000 + 1 <= x)%Z ts))%nat by (apply filter_imp_length; lia).
    specialize (Hcur (now - 3600000 + 1) ltac:(lia)). lia.
Qed.

Lemma window_more ts t e now :
  Window ts t (Some e) -> t <= now -> now - windowStartMs e < HOUR_MS -> count e < maxPerHour c ->
  Window (ts ++ [now]) now (Some (mkCounter (count e + 1) (windowStartMs e))).
Proof.
  intros [H1 H2 (H3 & H4 & H5 & H6 & H7 & H8 & H9)] Ht Hw Hc. unfold HOUR_MS in *.
  split; cbn [count windowStartMs].
  - intros x [Hx| ->%list_elem_of_singleton]%elem_of_app; [apply H1 in Hx; lia|lia].
  - intros s. rewrite inSpan_snoc. specialize (H2 s). unfold HOUR_MS in *.
    destruct (decide _) as [Hs|]; [|lia].
    pose proof (inSpan_split s (s + 3600000) (windowStartMs e) ts).
    assert (length (filter (fun x => s <= x < windowStartMs e)%Z ts) <=
      length (filter (fun x => windowStartMs e - 3600000 < x < windowStartMs e)%Z ts))%nat
      by (apply filter_imp_length; lia).
    assert (length (filter (fun x => windowStartMs e <= x < s + 3600000)%Z ts) <=
      length (filter (fun x => windowStartMs e <= x)%Z ts))%nat by (apply filter_imp_length; lia).
    lia.
  - split; [lia|]. split; [lia|]. split; [rewrite filter_snoc, decide_True by lia; lia|].
    split; [lia|]. split; [set_solver|]. split.
    { intros x [Hx| ->%list_elem_of_singleton]%elem_of_app; [apply H8 in Hx|]; unfold HOUR_MS in *; lia. }
    rewrite filter_snoc, decide_False by lia. unfold HOUR_MS in *. lia.
Qed.

Lemma admittedTimes_yes key s (r : Result unit QuotaReason) :
  is_ok r = true -> keyOf (s_agent s) (s_channel s) = key -> admittedTimes key [(s, r)] = [s_now s].
Proof. intros Hr Hk. unfold admittedTimes. by rewrite filter_cons_True, filter_nil. Qed.

Lemma admittedTimes_no key s (r : Result unit QuotaReason) :
  is_ok r = false \/ keyOf (s_agent s) (s_channel s) <> key -> admittedTimes key [(s, r)] = [].
Proof.
  intros Hr. unfold admittedTimes. rewrite filter_cons_False, filter_nil; [done|].
  simpl. destruct Hr; [|tauto]. intros [? _]. congruence.
Qed.

Lemma attempt_window m s key ts t :
  Window ts t (m !! key) -> t <= s_now s ->
  let '(r, m') := attempt c m s in
  Window (ts ++ admittedTimes key [(s, r)]) (s_now s) (m' !! key).
Proof.
  intros H Ht. unfold attempt, tryOutward.
  assert (Window ts (s_now s) (m !! key)) as Hlater by by apply (window_later _ t).
  destruct (_ && _); [rewrite admittedTimes_no, app_nil_r by (by left); done|].
  destruct (_ <? _); [rewrite admittedTimes_no, app_nil_r by (by left); done|].
  destruct (decide (keyOf (s_agent s) (s_channel s) = key)) as [Hk|Hne].
  - rewrite Hk. destruct (m !! key) as [e|] eqn:E.
    + destruct (HOUR_MS <=? _) eqn:E1.
      { rewrite admittedTimes_yes, lookup_insert_eq by done.
        eapply window_open; [done|done|]. simpl. lia. }
      destruct (maxPerHour c <=? count e) eqn:E2.
      { rewrite E, admittedTimes_no, app_nil_r by (by left). done. }
      rewrite admittedTimes_yes, lookup_insert_eq by done. eapply window_more; [done|done|lia|lia].
    + rewrite admittedTimes_yes, lookup_insert_eq by done. by eapply window_open.
  - destruct (m !! keyOf (s_agent s) (s_channel s)) as [e|];
      [destruct (HOUR_MS <=? _); [|destruct (_ <=? count e)]|];
      rewrite admittedTimes_no, app_nil_r by (by right); rewrite ?lookup_insert_ne by done; done.
Qed.

Lemma run_window key sends m ts t :
  Window ts t (m !! key) -> ordered t sends = true ->
  exists t', Window (ts ++ admittedTimes key (run c m sends).1) t' ((run c m sends).2 !! key).
Proof.
  revert m ts t. induction sends as [|s sends IH]; intros m ts t H Ho; simpl in *.
  { exists t. by rewrite app_nil_r. }
  apply andb_prop in Ho as [Ht%Z.leb_le Ho].
  pose proof (attempt_window m s key ts t H Ht) as H1.
  destruct (attempt c m s) as [r m']. destruct (IH m' _ _ H1 Ho) as [t' H2].
  exists t'. destruct (run c m' sends) as [l m'']. simpl in *.
  assert (admittedTimes key ((s, r) :: l) = admittedTimes key [(s, r)] ++ admittedTimes key l) as ->.
  { unfold admittedTimes. rewrite !filter_cons. by case_decide. }
  by rewrite app_assoc.
Qed.
End Bound.

Lemma run_allowed c sends m s :
  (s, Ok tt) ∈ (run c m sends).1 ->
  (s_origin s = true \/ s_channel s ∈ perTargetGrants c) /\ s_volume s <= volumeCap c.
Proof.
  revert m. induction sends as [|s' sends IH]; intros m; simpl; [by intros ?%elem_of_nil|].
  destruct (attempt c m s') as [r m'] eqn:E. specialize (IH m').
  destruct (run c m' sends) as [l m'']. simpl in *. intros [[= <- <-]|Hin]%elem_of_cons; [|by apply IH].
  unfold attempt, tryOutward in E. destruct (s_origin s); simpl in E.
  - destruct (_ <? _) eqn:Ev; [done|]. split; [by left|lia].
  - case_bool_decide; simpl in E; [|done]. destruct (_ <? _) eqn:Ev; [done|].
    split; [by right|lia].
Qed.

Definition sampleConfig : OutwardQuotaConfig := mkConfig true [] 10 3.
Definition burst : list Send :=
  (mkSend "a" "ch" true 1) <$> [0; 3599998; 3599999; 3600000; 3600001; 3600002; 3600003].

(** The window is fixed and not the rolling hour its comments describe: with a
    quota of three per hour, five sends fall within one hour. *)
Lemma burst_admitted :
  inSpan 3599998 (3599998 + HOUR_MS) (admittedTimes "a:ch" (run sampleConfig ∅ burst).1) = 5%nat /\
  maxPerHour sampleConfig = 3.
Proof. split; vm_compute; reflexivity. Qed.

(** The outward quota bounds irreversible sends.  Whatever an agent tries,
    with attempts in order of time: every admitted send goes to the origin
    channel or to a granted one and respects the volume cap, and in any span of
    one hour, wherever it starts, at most [2 * maxPerHour - 1] sends of one
    agent to one channel are admitted.  That many can be: the window is fixed
    and not rolling, and with a quota of three per hour five sends are admitted
    within one hour. *)
Theorem outward_quota_bound (c : OutwardQuotaConfig) (t : Z) (sends : list Send)
    (key : string) (a : Z) :
  1 <= maxPerHour c -> ordered t sends = true ->
  Z.of_nat (inSpan a (a + HOUR_MS) (admittedTimes key (run c ∅ sends).1)) <= 2 * maxPerHour c - 1 /\
  (forall s, (s, Ok tt) ∈ (run c ∅ sends).1 ->
    (s_origin s = true \/ s_channel s ∈ perTargetGrants c) /\ s_volume s <= volumeCap c) /\
  inSpan 3599998 (3599998 + HOUR_MS) (admittedTimes "a:ch" (run sampleConfig ∅ burst).1) = 5%nat /\
  maxPerHour sampleConfig = 3.
Proof.
  intros Hmax Ho. split; [|split; [intros s; apply run_allowed|exact burst_admitted]].
  destruct (run_window c Hmax key sends ∅ [] t) as [t' H]; [|done|by apply H].
  split; [by intros ? ?%elem_of_nil| |done]. intros s. unfold inSpan. simpl. lia.
Qed.

Lemma outward_quota_bound_witness :
  1 <= maxPerHour sampleConfig /\
  Z.of_nat (inSpan 3599998 (3599998 + HOUR_MS) (admittedTimes "a:ch" (run sampleConfig ∅ burst).1)) <= 5.
Proof.
  split; [simpl; lia|].
  apply (outward_quota_bound sampleConfig 0 burst "a:ch" 3599998); [simpl; lia|vm_compute; reflexivity].
Defined.

End OutwardQuota.
