(* ===== verification/BoundedAutonomy.v ===== *)
(** * The bounded-autonomy chokepoint

  Models [packages/daemon/src/autonomy/bounded-autonomy.ts], the service that
  composes the spawn semaphore, the per-root budget meter, two call-rate
  limiters and the outward quota, and decides when a root's budget may be
  forgotten: never while the root has a live spawn or a retained durable
  graph.

  The theorems about budgets are proved by projecting a run of the composite
  on a run of the meter of [PerRootBudget]; the theorem about calls is proved
  against the [RateWindow] promise of [RateLimiters]. *)

From S2P Require Import Prelude SpendAccumulator PerRootBudget TimedBuckets RateLimiters AutonomyGuards.
Import SpendAccumulator PerRootBudget TimedBuckets RateLimiters.CallRateLimiter.

Open Scope string_scope.
Open Scope list_scope.
Open Scope Z_scope.

(** ** Two windows in sequence, against their promise *)

Section Both.
Context {S1 S2 : Type} {W1 W2 : Z} {c1 c2 : nat}.
Context `{!RateWindow S1 W1 c1} `{!RateWindow S2 W2 c2}.

(** Charge the first window; charge the second only when the first admits. *)
Definition attemptBoth (s1 : S1) (s2 : S2) (k1 k2 : string) (now : Z) : bool * S1 * S2 :=
  let '(b1, s1') := rw_attempt s1 k1 now in
  if b1 then let '(b2, s2') := rw_attempt s2 k2 now in (b2, s1', s2')
  else (false, s1', s2).

Lemma attemptBoth_law h1 h2 t s1 s2 k1 k2 now b s1' s2' :
  rw_tracks h1 t s1 -> rw_tracks h2 t s2 -> t <= now -> rw_room s1 k1 -> rw_room s2 k2 ->
  (forall h t t' s, t <= t' -> rw_tracks h t s -> rw_tracks (St := S2) h t' s) ->
  attemptBoth s1 s2 k1 k2 now = (b, s1', s2') ->
  exists h1' h2', rw_tracks h1' now s1' /\ rw_tracks h2' now s2' /\
  if b then h1' = h1 ++ [(k1, now)] /\ h2' = h2 ++ [(k2, now)] /\
    (length (recent W1 now (hist h1 k1)) < c1)%nat /\
    (length (recent W2 now (hist h2 k2)) < c2)%nat
  else h2' = h2 /\
    (h1' = h1 /\ (c1 <= length (recentIncl W1 now (hist h1 k1)))%nat \/
     h1' = h1 ++ [(k1, now)] /\ (c2 <= length (recentIncl W2 now (hist h2 k2)))%nat).
Proof.
  intros T1 T2 Ht R1 R2 Hlater. unfold attemptBoth.
  destruct (rw_attempt s1 k1 now) as [b1 s1n] eqn:E1.
  destruct (rw_law _ _ _ _ _ _ _ T1 Ht R1 E1) as [T1' B1]. destruct b1.
  - destruct (rw_attempt s2 k2 now) as [b2 s2n] eqn:E2.
    destruct (rw_law _ _ _ _ _ _ _ T2 Ht R2 E2) as [T2' B2].
    intros [= <- <- <-]. eexists _, _. split; [exact T1'|]. split; [exact T2'|].
    destruct b2; [by split_and!|]. split; [done|]. by right.
  - intros [= <- <- <-]. eexists h1, h2. split; [exact T1'|].
    split; [by eapply Hlater|]. split; [done|]. by left.
Qed.
End Both.

Module BoundedAutonomy.

(** ** State and configuration *)

Record ResolvedAutonomy := mkAutonomy {
  spawn : RootRunSemaphore.Config;
  budgetCfg : BudgetConfig;
  perRootCallsPerSec : nat;
  perSocketCallsPerSec : nat;
  connectionChurnPerMin : nat;
  outward : OutwardQuota.OutwardQuotaConfig }.

Definition CALL_WINDOW_MS : Z := 1000.
Definition CHURN_WINDOW_MS : Z := 60000.
Definition RATE_MAX_ENTRIES : nat := Z.to_nat 100000.

Record Autonomy := mkState {
  semaphore : gmap string nat;
  budget : Meter;
  rateLimiter : Limiter;
  rateSocket : Limiter;
  quota : gmap string OutwardQuota.HourCounter;
  leaseIdsByRoot : gmap string (list string);
  retainedDurableRoots : gmap string nat }.

Section Service.
Variable config : ResolvedAutonomy.
Variable hasHook : bool.
Variable resolve : string -> string -> option PricingState.

Definition createBoundedAutonomy : Autonomy :=
  mkState ∅ createPerRootBudget createCallRateLimiter createCallRateLimiter ∅ ∅ ∅.

Definition rateDeps : CallRateLimiterDeps :=
  mkDeps CALL_WINDOW_MS (perRootCallsPerSec config) CHURN_WINDOW_MS
    (connectionChurnPerMin config) RATE_MAX_ENTRIES.
Definition rateSocketDeps : CallRateLimiterDeps :=
  mkDeps CALL_WINDOW_MS (perSocketCallsPerSec config) CHURN_WINDOW_MS
    (connectionChurnPerMin config) RATE_MAX_ENTRIES.

Definition setSemaphore (a : Autonomy) s := mkState s (budget a) (rateLimiter a) (rateSocket a)
  (quota a) (leaseIdsByRoot a) (retainedDurableRoots a).
Definition setBudget (a : Autonomy) b := mkState (semaphore a) b (rateLimiter a) (rateSocket a)
  (quota a) (leaseIdsByRoot a) (retainedDurableRoots a).
Definition setRate (a : Autonomy) r := mkState (semaphore a) (budget a) r (rateSocket a)
  (quota a) (leaseIdsByRoot a) (retainedDurableRoots a).
Definition setRateSocket (a : Autonomy) r := mkState (semaphore a) (budget a) (rateLimiter a) r
  (quota a) (leaseIdsByRoot a) (retainedDurableRoots a).
Definition setQuota (a : Autonomy) q := mkState (semaphore a) (budget a) (rateLimiter a)
  (rateSocket a) q (leaseIdsByRoot a) (retainedDurableRoots a).
Definition setLeases (a : Autonomy) l := mkState (semaphore a) (budget a) (rateLimiter a)
  (rateSocket a) (quota a) l (retainedDurableRoots a).
Definition setRetained (a : Autonomy) r := mkState (semaphore a) (budget a) (rateLimiter a)
  (rateSocket a) (quota a) (leaseIdsByRoot a) r.

(** ** Spawns *)

Record SpawnCeiling := mkCeiling {
  reason : RootRunSemaphore.SpawnDenyReason;
  configKey : string;
  current : nat;
  limit : nat }.

Definition tryAcquireSpawn (a : Autonomy) (r : string) (depth fanout : nat)
    : Result unit SpawnCeiling * Autonomy :=
  match RootRunSemaphore.tryAcquireSpawn (spawn config) (semaphore a) r depth fanout with
  | (Ok _, s) => (Ok tt, setSemaphore a s)
  | (Err why, s) =>
    (Err match why with
     | RootRunSemaphore.concurrency =>
       mkCeiling why "autonomy.spawn.maxConcurrentSelfAgents" (RootRunSemaphore.activeCount s r)
         (RootRunSemaphore.maxConcurrentSelfAgents (spawn config))
     | RootRunSemaphore.depth =>
       mkCeiling why "autonomy.spawn.maxSpawnDepth" depth
         (RootRunSemaphore.maxSpawnDepth (spawn config))
     | RootRunSemaphore.fanout =>
       mkCeiling why "autonomy.spawn.maxChildrenPerAgent" fanout
         (RootRunSemaphore.maxChildrenPerAgent (spawn config))
     end, setSemaphore a s)
  end.

(** A root is idle when nothing runs under it and no durable graph retains
    it. *)
Definition idle (a : Autonomy) (r : string) : bool :=
  (RootRunSemaphore.activeCount (semaphore a) r =? 0)%nat &&
  negb (bool_decide (is_Some (retainedDurableRoots a !! r))).

Definition evictIdleRoot (a : Autonomy) (r : string) : Autonomy :=
  if idle a r
  then setLeases (setBudget a (evictRoot (budget a) r)) (delete r (leaseIdsByRoot a))
  else a.

Definition releaseSpawn (a : Autonomy) (r : string) : Autonomy :=
  evictIdleRoot (setSemaphore a (RootRunSemaphore.releaseSpawn (semaphore a) r)) r.

Definition retainDurableRoot (a : Autonomy) (r : string) : Autonomy :=
  setRetained a (<[r := (default 0 (retainedDurableRoots a !! r) + 1)%nat]> (retainedDurableRoots a)).

Definition releaseDurableRoot (a : Autonomy) (r : string) : Autonomy :=
  let n := default 0%nat (retainedDurableRoots a !! r) in
  let ret' := if (n <=? 1)%nat then delete r (retainedDurableRoots a)
              else <[r := (n - 1)%nat]> (retainedDurableRoots a) in
  evictIdleRoot (setRetained a ret') r.

Definition revokeDurableRoot (a : Autonomy) (r : string) : Autonomy :=
  evictIdleRoot (setRetained a (delete r (retainedDurableRoots a))) r.

Definition evictRootIfIdle (a : Autonomy) (r : string) : Autonomy :=
  if idle a r then setBudget a (evictRoot (budget a) r) else a.

(** ** Calls, budget, sends *)

Definition tryCall (a : Autonomy) (r socketId : string) (now : Z)
    : Result unit RateDeny * Autonomy :=
  let '(perRoot, l) := CallRateLimiter.tryCall rateDeps (rateLimiter a) ("root:" +:+ r) now in
  let a1 := setRate a l in
  match perRoot with
  | Err e => (Err e, a1)
  | Ok _ =>
    let '(perSocket, l') :=
      CallRateLimiter.tryCall rateSocketDeps (rateSocket a1) ("socket:" +:+ socketId) now in
    (perSocket, setRateSocket a1 l')
  end.

Definition tryChurn (a : Autonomy) (r : string) (now : Z) : Result unit RateDeny * Autonomy :=
  let '(d, l) := CallRateLimiter.tryChurn rateDeps (rateLimiter a) r now in (d, setRate a l).

Definition reserveBudget (a : Autonomy) (r p md : string) (est estTokens n0 n : Z)
    : SpendGateOutcome * list LimbWarning * Autonomy :=
  let '(o, ws, m) := PerRootBudget.reserveBudget (budgetCfg config) hasHook resolve
      (budget a) r p md est estTokens n0 n in
  (o, ws, setBudget a m).

Definition tryOutward (a : Autonomy) (agentId channelId : string) (isOrigin : bool)
    (volume now : Z) : Result unit OutwardQuota.QuotaReason * Autonomy :=
  let '(d, q) := OutwardQuota.tryOutward (outward config) (quota a) agentId channelId isOrigin
      volume now in
  (d, setQuota a q).

Definition registerRoot (a : Autonomy) (r leaseId : string) (now : Z) : Autonomy :=
  let a1 := setBudget a (PerRootBudget.registerRoot (budget a) r now) in
  let set := default [] (leaseIdsByRoot a1 !! r) in
  let set' := if bool_decide (leaseId ∈ set) then set else set ++ [leaseId] in
  setLeases a1 (<[r := set']> (leaseIdsByRoot a1)).

Definition exportBudgetState (a : Autonomy) (r : string) (now : Z) : DurableRootBudget * Autonomy :=
  let '(d, m) := exportState (budget a) r now in (d, setBudget a m).

Definition rehydrateBudget (a : Autonomy) (r : string) (d : DurableRootBudget) : Autonomy :=
  setBudget a (PerRootBudget.rehydrate (budget a) r d).

Definition leaseIdsForRoot (a : Autonomy) (r : string) : list string :=
  default [] (leaseIdsByRoot a !! r).

Definition snapshot (a : Autonomy) (r agentId channelId : string) (now : Z)
    : Remaining * Z * list string :=
  (remaining (budgetCfg config) (budget a) r now,
   OutwardQuota.remaining (outward config) (quota a) agentId channelId now,
   leaseIdsForRoot a r).

Definition spendSnapshot (a : Autonomy) (r : string) : SpendSnapshot :=
  PerRootBudget.spendSnapshot (budgetCfg config) (budget a) r.

(** The cron job count of an injected provider, 0 without one. *)
Definition cronCount (cronJobCount : option (string -> nat)) (agentId : string) : nat :=
  match cronJobCount with Some f => f agentId | None => 0 end.

Definition destroyAutonomy (a : Autonomy) : Autonomy :=
  setRateSocket (setRate a (limiterDestroy (rateLimiter a))) (limiterDestroy (rateSocket a)).

(** ** Sequences of operations *)

Inductive Op :=
| AcquireSpawn (r : string) (depth fanout : nat)
| ReleaseSpawn (r : string)
| RetainDurable (r : string)
| ReleaseDurable (r : string)
| RevokeDurable (r : string)
| EvictIfIdle (r : string)
| Call (r socketId : string) (now : Z)
| Churn (r : string) (now : Z)
| Reserve (r p md : string) (est estTokens n0 n : Z)
| Outward (agentId channelId : string) (isOrigin : bool) (volume now : Z)
| Register (r leaseId : string) (now : Z)
| Export (r : string) (now : Z)
| RehydrateB (r : string) (d : DurableRootBudget).

Definition step (a : Autonomy) (op : Op) : Autonomy :=
  match op with
  | AcquireSpawn r d f => (tryAcquireSpawn a r d f).2
  | ReleaseSpawn r => releaseSpawn a r
  | RetainDurable r => retainDurableRoot a r
  | ReleaseDurable r => releaseDurableRoot a r
  | RevokeDurable r => revokeDurableRoot a r
  | EvictIfIdle r => evictRootIfIdle a r
  | Call r s now => (tryCall a r s now).2
  | Churn r now => (tryChurn a r now).2
  | Reserve r p md u t n0 n => (reserveBudget a r p md u t n0 n).2
  | Outward ag ch o v now => (tryOutward a ag ch o v now).2
  | Register r l now => registerRoot a r l now
  | Export r now => (exportBudgetState a r now).2
  | RehydrateB r d => rehydrateBudget a r d
  end.

(** The answer a reservation got in the state it was made in. *)
Definition answer (a : Autonomy) (op : Op) : option SpendGateOutcome :=
  match op with
  | Reserve r p md u t n0 n => Some (reserveBudget a r p md u t n0 n).1.1
  | _ => None
  end.

Fixpoint run (a : Autonomy) (ops : list Op) : list (Op * option SpendGateOutcome) * Autonomy :=
  match ops with
  | [] => ([], a)
  | op :: ops => let '(l, a') := run (step a op) ops in ((op, answer a op) :: l, a')
  end.

(** ** Projection on the budget meter *)

Abbreviation meterRun := (PerRootBudget.run (budgetCfg config) hasHook resolve).

(** What an operation asks of the meter, given the state it runs in. *)
Definition project (a : Autonomy) (op : Op) : list PerRootBudget.Op :=
  match op with
  | ReleaseSpawn r =>
    if idle (setSemaphore a (RootRunSemaphore.releaseSpawn (semaphore a) r)) r
    then [EvictRoot r] else []
  | ReleaseDurable r | RevokeDurable r | EvictIfIdle r =>
    if idle (step a op) r then [EvictRoot r] else []
  | Reserve r p md u t n0 n => [ReserveBudget r p md u t n0 n]
  | Register r _ now => [RegisterRoot r now]
  | Export r now => [ExportState r now]
  | RehydrateB r d => [RehydrateRoot r d]
  | _ => []
  end.

Fixpoint projectRun (a : Autonomy) (ops : list Op) : list PerRootBudget.Op :=
  match ops with
  | [] => []
  | op :: ops => project a op ++ projectRun (step a op) ops
  end.

Lemma idle_evictIdle a r r' : idle (evictIdleRoot a r') r = idle a r.
Proof. unfold evictIdleRoot. by destruct (idle a r'). Qed.

Lemma idle_evictIfIdle a r r' : idle (evictRootIfIdle a r') r = idle a r.
Proof. unfold evictRootIfIdle. by destruct (idle a r'). Qed.

Lemma budget_evictIdle a r :
  budget (evictIdleRoot a r) = if idle a r then evictRoot (budget a) r else budget a.
Proof. unfold evictIdleRoot. by destruct (idle a r). Qed.

(** One operation of the composite is the projected operations of the meter. *)
Lemma project_step a op :
  budget (step a op) = (meterRun (budget a) (project a op)).2 /\
  (forall r, idle (step a op) r = false -> forallb (fun o => negb (evicts r o)) (project a op) = true).
Proof.
  assert (forall a' r, budget a' = budget a ->
    (budget (evictIdleRoot a' r) =
     (meterRun (budget a) (if idle a' r then [EvictRoot r] else [])).2) /\
    (forall r', idle (evictIdleRoot a' r) r' = false ->
     forallb (fun o => negb (evicts r' o)) (if idle a' r then [EvictRoot r] else []) = true)) as Hev.
  { intros a' r Hb. rewrite budget_evictIdle. split; [rewrite Hb; by destruct (idle a' r)|].
    intros r'. rewrite idle_evictIdle. destruct (idle a' r) eqn:E; [|done]. simpl.
    case_bool_decide; [|done]. subst. congruence. }
  destruct op; try (split; [done|by intros]); cbn [project step].
  - unfold tryAcquireSpawn.
    destruct (RootRunSemaphore.tryAcquireSpawn _ _ _ _ _) as [[?|?] ?]; split; by intros.
  - by apply Hev.
  - unfold releaseDurableRoot. rewrite idle_evictIdle. by apply Hev.
  - unfold revokeDurableRoot. rewrite idle_evictIdle. by apply Hev.
  - rewrite idle_evictIfIdle. unfold evictRootIfIdle. destruct (idle a r) eqn:E; [|done].
    split; [done|]. intros r' Hr'. simpl. case_bool_decide; [|done]. subst.
    change (idle (setBudget a (evictRoot (budget a) r')) r') with (idle a r') in Hr'. congruence.
  - unfold tryCall. destruct (CallRateLimiter.tryCall _ _ _ _) as [[?|?] ?]; [|split; by intros].
    destruct (CallRateLimiter.tryCall _ _ _ _) as [? ?]. split; by intros.
  - unfold tryChurn. destruct (CallRateLimiter.tryChurn _ _ _ _) as [? ?]. split; by intros.
  - unfold reserveBudget. simpl.
    destruct (PerRootBudget.reserveBudget _ _ _ _ _ _ _ _ _ _ _) as [[? ?] ?]. split; by intros.
  - unfold tryOutward. destruct (OutwardQuota.tryOutward _ _ _ _ _ _ _) as [? ?]. split; by intros.
  - unfold exportBudgetState. simpl. destruct (exportState _ _ _) as [? ?]. split; by intros.
Qed.

Lemma meterRun_app m ops ops' :
  meterRun m (ops ++ ops') =
  ((meterRun m ops).1 ++ (meterRun (meterRun m ops).2 ops').1,
   (meterRun (meterRun m ops).2 ops').2).
Proof.
  revert m. induction ops as [|op ops IH]; intros m; simpl.
  - by destruct (meterRun m ops').
  - destruct (PerRootBudget.step _ _ _ m op) as [o m']. rewrite IH.
    by destruct (meterRun m' ops).
Qed.

(** Root [r] is busy or retained after every operation of the run. *)
Fixpoint protected (r : string) (a : Autonomy) (ops : list Op) : bool :=
  match ops with
  | [] => true
  | op :: ops => negb (idle (step a op) r) && protected r (step a op) ops
  end.

Lemma projectRun_protected r ops a :
  protected r a ops = true ->
  forallb (fun o => negb (evicts r o)) (projectRun a ops) = true.
Proof.
  revert a. induction ops as [|op ops IH]; intros a; simpl; [done|].
  intros [Hi Hp]%andb_prop. rewrite forallb_app. apply andb_true_intro. split; [|by apply IH].
  apply project_step. by destruct (idle (step a op) r).
Qed.

(** Tokens and dollars a logged operation granted to root [r], and the first
    clock value that concerns [r]. *)
Definition tokensOf (r : string) (e : Op * option SpendGateOutcome) : Z :=
  match e with
  | (Reserve r' _ _ _ t _ _, Some o) =>
    if bool_decide (r' = r) && negb (isExceeded o) then t else 0
  | _ => 0
  end.
Definition usdOf (r : string) (e : Op * option SpendGateOutcome) : Z :=
  match e with
  | (Reserve r' _ _ u _ _ _, Some (gate_ok _ _)) => if bool_decide (r' = r) then u else 0
  | _ => 0
  end.
Fixpoint firstSeen (r : string) (ops : list Op) : option Z :=
  match ops with
  | [] => None
  | Reserve r' _ _ _ _ n _ :: ops | Register r' _ n :: ops | Export r' n :: ops =>
    if bool_decide (r' = r) then Some n else firstSeen r ops
  | RehydrateB r' d :: ops => if bool_decide (r' = r) then Some (startedAtMs d) else firstSeen r ops
  | _ :: ops => firstSeen r ops
  end.
Definition nonneg (op : Op) : bool :=
  match op with Reserve _ _ _ u t _ _ => (0 <=? u) && (0 <=? t) | _ => true end.

Lemma sumZ_app {A} (f : A -> Z) l l' : sumZ f (l ++ l') = sumZ f l + sumZ f l'.
Proof. induction l as [|x l IH]; [done|]. cbn [app]. rewrite !sumZ_cons, IH. lia. Qed.

(** The composite's log and the meter's log agree on what was granted. *)
Lemma project_log a op r :
  tokensOf r (op, answer a op) = sumZ (tokensGranted r) (meterRun (budget a) (project a op)).1 /\
  usdOf r (op, answer a op) = sumZ (usdGranted r) (meterRun (budget a) (project a op)).1 /\
  (forall r p md u t n0 n o, (op, answer a op) = (Reserve r p md u t n0 n, Some o) ->
   (ReserveBudget r p md u t n0 n, Some o) ∈ (meterRun (budget a) (project a op)).1).
Proof.
  destruct op; cbn [project];
    try (match goal with |- context [if ?b then _ else _] => destruct b end);
    try (split; [done|split; [done|by intros]]).
  cbn [answer]. unfold reserveBudget. simpl.
  destruct (PerRootBudget.reserveBudget _ _ _ _ _ _ _ _ _ _ _) as [[o ws] m]. simpl.
  split; [lia|]. split; [lia|]. intros ? ? ? ? ? ? ? ? [=]. subst. left.
Qed.

Lemma run_log ops a r :
  sumZ (tokensOf r) (run a ops).1 = sumZ (tokensGranted r) (meterRun (budget a) (projectRun a ops)).1 /\
  sumZ (usdOf r) (run a ops).1 = sumZ (usdGranted r) (meterRun (budget a) (projectRun a ops)).1 /\
  (forall r p md u t n0 n o, (Reserve r p md u t n0 n, Some o) ∈ (run a ops).1 ->
   (ReserveBudget r p md u t n0 n, Some o) ∈ (meterRun (budget a) (projectRun a ops)).1).
Proof.
  revert a. induction ops as [|op ops IH]; intros a.
  { simpl. split; [done|]. split; [done|]. by intros ? ? ? ? ? ? ? ? ?%elem_of_nil. }
  cbn [run projectRun]. rewrite meterRun_app. destruct (project_step a op) as [<- _].
  destruct (project_log a op r) as (H1 & H2 & H3). destruct (IH (step a op)) as (H4 & H5 & H6).
  destruct (run (step a op) ops) as [l a'].
  cbn [fst] in *. rewrite !sumZ_app, !sumZ_cons, H1, H2, <- H4, <- H5. split; [done|]. split; [done|].
  intros r' p md u t n0 n o [E|Hin]%elem_of_cons; apply elem_of_app; [left; by apply H3|right; by apply H6].
Qed.

Lemma firstSeen_project r ops a s :
  firstSeen r ops = Some s -> firstTouch r (projectRun a ops) = Some s.
Proof.
  revert a. induction ops as [|op ops IH]; intros a; [done|].
  destruct op; cbn [firstSeen projectRun project];
    try (match goal with |- context [if idle ?x ?y then _ else _] => destruct (idle x y) end);
    simpl; try case_bool_decide; auto.
Qed.

Lemma nonneg_project ops a :
  forallb nonneg ops = true -> forallb nonnegOp (projectRun a ops) = true.
Proof.
  revert a. induction ops as [|op ops IH]; intros a; simpl; [done|]. intros [Hn H]%andb_prop.
  rewrite forallb_app. apply andb_true_intro. split; [|by apply IH].
  destruct op; cbn [project];
    try (match goal with |- context [if ?b then _ else _] => destruct b end); simpl in *; try done.
  by rewrite Hn.
Qed.


(** ** Calls *)

Definition callTracks (deps : CallRateLimiterDeps) := Tracks (callWindowMs deps) (callWindowMs deps).

(** A capability call is admitted only when both windows have room.  With both limiters faithful to the calls admitted so
    far, an admitted call found fewer than the per-root cap of calls of its
    root and fewer than the per-socket cap of calls of its socket in the last
    second; a denied call found one of the two caps reached, and a call the
    socket limit denies still counts against its root. *)
Theorem tryCall_bounded (a : Autonomy) (hR hS : list (string * Z)) (t now : Z) (r socketId : string) :
  let kR := ("root:" +:+ r)%string in
  let kS := ("socket:" +:+ socketId)%string in
  callTracks rateDeps hR t (callWindow (rateLimiter a)) ->
  callTracks rateSocketDeps hS t (callWindow (rateSocket a)) ->
  t <= now ->
  hasRoom (callConfig rateDeps) (callWindow (rateLimiter a)) kR ->
  hasRoom (callConfig rateSocketDeps) (callWindow (rateSocket a)) kS ->
  let '(d, a') := tryCall a r socketId now in
  exists hR' hS',
  callTracks rateDeps hR' now (callWindow (rateLimiter a')) /\
  callTracks rateSocketDeps hS' now (callWindow (rateSocket a')) /\
  if is_ok d then hR' = hR ++ [(kR, now)] /\ hS' = hS ++ [(kS, now)] /\
    (length (recent CALL_WINDOW_MS now (hist hR kR)) < perRootCallsPerSec config)%nat /\
    (length (recent CALL_WINDOW_MS now (hist hS kS)) < perSocketCallsPerSec config)%nat
  else hS' = hS /\
    (hR' = hR /\ (perRootCallsPerSec config <=
                  length (recentIncl CALL_WINDOW_MS now (hist hR kR)))%nat \/
     hR' = hR ++ [(kR, now)] /\ (perSocketCallsPerSec config <=
                  length (recentIncl CALL_WINDOW_MS now (hist hS kS)))%nat).
Proof.
  intros kR kS TR TS Ht RR RS.
  destruct (@attemptBoth _ _ _ _ _ _ (slidingWindow (callConfig rateDeps))
    (slidingWindow (callConfig rateSocketDeps)) (callWindow (rateLimiter a))
    (callWindow (rateSocket a)) kR kS now) as [[b w1] w2] eqn:E.
  destruct (@attemptBoth_law _ _ _ _ _ _ (slidingWindow (callConfig rateDeps))
    (slidingWindow (callConfig rateSocketDeps)) hR hS t _ _ kR kS now b w1 w2 TR TS Ht RR RS) as (h1 & h2 & H1 & H2 & HB);
    [intros h t0 t' s Hle Hs; by apply (tracks_later _ _ _ t0)|exact E|].
  unfold attemptBoth, rw_attempt in E. simpl in E.
  unfold tryCall, CallRateLimiter.tryCall. fold kR kS.
  destruct (hit (callConfig rateDeps) (callWindow (rateLimiter a)) kR now) as [b1 w1'].
  destruct b1; simpl in E.
  - cbn [setRate rateSocket].
    destruct (hit (callConfig rateSocketDeps) (callWindow (rateSocket a)) kS now) as [b2 w2'].
    injection E as -> -> ->. exists h1, h2. split; [exact H1|]. split; [exact H2|].
    destruct b; exact HB.
  - injection E as <- <- <-. exists h1, h2. split; [exact H1|]. split; [exact H2|]. exact HB.
Qed.

End Service.

(** ** Witnesses *)

Definition sampleAutonomy : ResolvedAutonomy :=
  mkAutonomy (RootRunSemaphore.mkConfig 2 3 3) (mkBudgetConfig 10 100 1000) 2 1 5
    (OutwardQuota.mkConfig true [] 10 3).

(** Two waves of a durable graph: between them no spawn is live. *)
Definition waves : list Op :=
  [RetainDurable "g"; Register "g" "lease-1" 0; AcquireSpawn "g" 0 0;
   Reserve "g" "openai" "m" 4 60 1 1; ReleaseSpawn "g"; EvictIfIdle "g";
   AcquireSpawn "g" 0 0; Reserve "g" "openai" "m" 4 60 2 2; ReleaseSpawn "g"].


Lemma tryCall_bounded_witness :
  is_ok (tryCall sampleAutonomy createBoundedAutonomy "g" "s" 5).1 = true /\
  exists hR, callTracks (rateDeps sampleAutonomy) hR 5
    (callWindow (rateLimiter (tryCall sampleAutonomy createBoundedAutonomy "g" "s" 5).2)).
Proof.
  split; [vm_compute; reflexivity|].
  pose proof (tryCall_bounded sampleAutonomy createBoundedAutonomy [] [] 0 5 "g" "s") as H.
  destruct (tryCall sampleAutonomy createBoundedAutonomy "g" "s" 5) as [d a'].
  destruct H as (hR & hS & HR & _).
  - apply tracks_empty. lia.
  - apply tracks_empty. lia.
  - lia.
  - right. apply Nat.ltb_lt. vm_compute. reflexivity.
  - right. apply Nat.ltb_lt. vm_compute. reflexivity.
  - exists hR. exact HR.
Defined.

End BoundedAutonomy.
