(* ===== verification/BudgetGuard.v ===== *)
(** * The token budget guard

  Models [createBudgetGuard] of [packages/agent/src/budget/budget-guard.ts]: the
  per-execution, per-hour and per-day token caps of one agent.  The hourly and
  daily windows are shared by all executions of the agent; the per-execution
  total and cap belong to a window handle that [resetExecution] hands out, and
  the guard's own methods use the most recent handle.

  A handle is an index into the list of windows.  Every clock reading is an
  argument.  The number of tokens the SDK counts for its probe text is the
  parameter [probeTokens].  The log lines are not modelled.

  The contract is a ledger of recorded usages, from which nothing is ever
  removed: every answer of the guard is a sum over it. *)

From S2P Require Import Prelude.

Open Scope string_scope.
Open Scope list_scope.
Open Scope Z_scope.

Module BudgetGuard.

Inductive BudgetScope := per_execution | per_hour | per_day.

Record BudgetError := mkError {
  scope : BudgetScope; currentUsage : Z; cap : Z; estimated : Z }.

Record WindowEntry := mkEntry { timestamp : Z; tokens : Z }.

Record BudgetSnapshot := mkSnapshot { snapExecution : Z; snapHour : Z; snapDay : Z }.

Record BudgetConfig := mkBudget { perExecution : Z; perHour : Z; perDay : Z }.

(** The state a window owns. *)
Record Window := mkWindow { executionTotal : Z; effectiveExecutionCap : option Z }.

Record Guard := mkGuard {
  lastEstimate : Z; entries : list WindowEntry; windows : list Window; currentWindow : nat }.

Definition SDK_PROBE_CHARS : Z := 400.
Definition ONE_HOUR_MS : Z := 60 * 60 * 1000.
Definition ONE_DAY_MS : Z := 24 * 60 * 60 * 1000.

Section Guard.
Variable config : BudgetConfig.
Variable probeTokens : Z.

Definition createBudgetGuard : Guard := mkGuard 0 [] [mkWindow 0 None] 0.

(** The loop that skips the entries older than a day. *)
Fixpoint dropOlder (dayAgo : Z) (l : list WindowEntry) : list WindowEntry :=
  match l with
  | [] => []
  | e :: l' => if timestamp e <? dayAgo then dropOlder dayAgo l' else l
  end.

Definition prune (g : Guard) (now : Z) : Guard :=
  mkGuard (lastEstimate g) (dropOlder (now - ONE_DAY_MS) (entries g)) (windows g) (currentWindow g).

Fixpoint sumFrom (cutoff : Z) (l : list WindowEntry) : Z :=
  match l with
  | [] => 0
  | e :: l => (if cutoff <=? timestamp e then tokens e else 0) + sumFrom cutoff l
  end.

Definition sumWindow (g : Guard) (windowMs now : Z) : Z := sumFrom (now - windowMs) (entries g).

(** [Math.ceil(contextChars / (SDK_PROBE_CHARS / probeTokens))] *)
Definition estimateCost (g : Guard) (contextChars maxOutputTokens : Z) : Z * Guard :=
  let inputTokens := - ((- (contextChars * probeTokens)) / SDK_PROBE_CHARS) in
  let total := inputTokens + maxOutputTokens in
  (total, mkGuard total (entries g) (windows g) (currentWindow g)).

Definition resetExecution (g : Guard) (c : option Z) : nat * Guard :=
  let w := length (windows g) in
  (w, mkGuard (lastEstimate g) (entries g) (windows g ++ [mkWindow 0 c]) w).

Definition execCap (w : Window) : Z :=
  match effectiveExecutionCap w with
  | None => perExecution config
  | Some c => Z.min (perExecution config) c
  end.

(** The decision on the three sums. *)
Definition decideBudget (exec ecap hour day est : Z) : Result unit BudgetError :=
  if ecap <? exec + est then Err (mkError per_execution exec ecap est)
  else if perHour config <? hour + est then Err (mkError per_hour hour (perHour config) est)
  else if perDay config <? day + est then Err (mkError per_day day (perDay config) est)
  else Ok tt.

Definition checkBudget (g : Guard) (w : Window) (est now nowHour nowDay : Z)
    : Result unit BudgetError * Guard :=
  let g := prune g now in
  (decideBudget (executionTotal w) (execCap w) (sumWindow g ONE_HOUR_MS nowHour)
     (sumWindow g ONE_DAY_MS nowDay) est, g).

Definition recordUsage (g : Guard) (i : nat) (w : Window) (n now : Z) : Guard :=
  mkGuard 0 (entries g ++ [mkEntry now n])
    (<[i := mkWindow (executionTotal w + n) (effectiveExecutionCap w)]> (windows g))
    (currentWindow g).

Definition getSnapshot (g : Guard) (w : Window) (now nowHour nowDay : Z) : BudgetSnapshot * Guard :=
  let g := prune g now in
  (mkSnapshot (executionTotal w) (sumWindow g ONE_HOUR_MS nowHour) (sumWindow g ONE_DAY_MS nowDay), g).

(** ** Calls, through a handle or through the guard itself ([None]) *)

Inductive Op :=
| Estimate (contextChars maxOutputTokens : Z)
| Reset (c : option Z)
| CheckB (handle : option nat) (est now nowHour nowDay : Z)
| RecordB (handle : option nat) (n now : Z)
| SnapshotB (handle : option nat) (now nowHour nowDay : Z).

Inductive Answer :=
| AEstimate (n : Z)
| AHandle (i : nat)
| ACheck (r : Result unit BudgetError)
| ADone
| ASnapshot (s : BudgetSnapshot).

Definition step (g : Guard) (op : Op) : option Answer * Guard :=
  match op with
  | Estimate c m => let '(n, g') := estimateCost g c m in (Some (AEstimate n), g')
  | Reset c => let '(i, g') := resetExecution g c in (Some (AHandle i), g')
  | CheckB h est t t1 t2 =>
    match windows g !! default (currentWindow g) h with
    | Some w => let '(r, g') := checkBudget g w est t t1 t2 in (Some (ACheck r), g')
    | None => (None, g)
    end
  | RecordB h n t =>
    let i := default (currentWindow g) h in
    match windows g !! i with
    | Some w => (Some ADone, recordUsage g i w n t)
    | None => (None, g)
    end
  | SnapshotB h t t1 t2 =>
    match windows g !! default (currentWindow g) h with
    | Some w => let '(s, g') := getSnapshot g w t t1 t2 in (Some (ASnapshot s), g')
    | None => (None, g)
    end
  end.

Fixpoint run (g : Guard) (ops : list Op) : list (option Answer) * Guard :=
  match ops with
  | [] => ([], g)
  | op :: ops => let '(a, g') := step g op in let '(l, g'') := run g' ops in (a :: l, g'')
  end.

(** ** The contract *)

(** A ledger of usages, each with its time and its window, and the caps the
    windows were opened with. *)
Record Ledger := mkLedger { usages : list (nat * WindowEntry); caps : list (option Z) }.

Definition current (l : Ledger) : nat := pred (length (caps l)).

Definition usedBy (l : Ledger) (i : nat) : Z :=
  foldr (fun u acc => (if decide (u.1 = i) then tokens u.2 else 0) + acc) 0 (usages l).

Definition usedSince (l : Ledger) (cutoff : Z) : Z := sumFrom cutoff (usages l).*2.

Definition capOf (c : option Z) : Z :=
  match c with None => perExecution config | Some c => Z.min (perExecution config) c end.

Definition specStep (l : Ledger) (op : Op) : option Answer * Ledger :=
  match op with
  | Estimate c m => (Some (AEstimate (- ((- (c * probeTokens)) / SDK_PROBE_CHARS) + m)), l)
  | Reset c => (Some (AHandle (length (caps l))), mkLedger (usages l) (caps l ++ [c]))
  | CheckB h est t t1 t2 =>
    let i := default (current l) h in
    ((fun c => ACheck (decideBudget (usedBy l i) (capOf c) (usedSince l (t1 - ONE_HOUR_MS))
       (usedSince l (t2 - ONE_DAY_MS)) est)) <$> caps l !! i, l)
  | RecordB h n t =>
    let i := default (current l) h in
    match caps l !! i with
    | Some _ => (Some ADone, mkLedger (usages l ++ [(i, mkEntry t n)]) (caps l))
    | None => (None, l)
    end
  | SnapshotB h t t1 t2 =>
    let i := default (current l) h in
    ((fun _ => ASnapshot (mkSnapshot (usedBy l i) (usedSince l (t1 - ONE_HOUR_MS))
       (usedSince l (t2 - ONE_DAY_MS)))) <$> caps l !! i, l)
  end.

Fixpoint specRun (l : Ledger) (ops : list Op) : list (option Answer) :=
  match ops with
  | [] => []
  | op :: ops => let '(a, l') := specStep l op in a :: specRun l' ops
  end.

(** The clock never goes back. *)
Fixpoint clockFrom (t : Z) (ops : list Op) : bool :=
  match ops with
  | [] => true
  | CheckB _ _ t0 t1 t2 :: ops | SnapshotB _ t0 t1 t2 :: ops =>
    (t <=? t0) && (t0 <=? t1) && (t1 <=? t2) && clockFrom t2 ops
  | RecordB _ _ t0 :: ops => (t <=? t0) && clockFrom t0 ops
  | _ :: ops => clockFrom t ops
  end.

(** ** Refinement *)

Lemma sumFrom_app c l l' : sumFrom c (l ++ l') = sumFrom c l + sumFrom c l'.
Proof. induction l as [|e l IH]; simpl; lia. Qed.

(** Usages older than the cutoff do not count. *)
Lemma sumFrom_old c d l : d <= c -> Forall (fun e => timestamp e < d) l -> sumFrom c l = 0.
Proof.
  intros Hd. induction 1 as [|e l He _ IH]; simpl; [done|].
  rewrite (proj2 (Z.leb_gt _ _)) by lia. lia.
Qed.

Lemma dropOlder_spec d l :
  exists old, l = old ++ dropOlder d l /\ Forall (fun e => timestamp e < d) old.
Proof.
  induction l as [|e l (old & E & H)]; simpl; [by exists []|].
  destruct (timestamp e <? d) eqn:Ee; [|by exists []].
  exists (e :: old). rewrite E at 1. split; [done|]. constructor; [lia|done].
Qed.

Lemma usedBy_snoc us cs j e i :
  usedBy (mkLedger (us ++ [(j, e)]) cs) i =
  usedBy (mkLedger us cs) i + (if decide (j = i) then tokens e else 0).
Proof.
  unfold usedBy. cbn [usages]. induction us as [|u us IH]; simpl; [lia|]. rewrite IH. lia.
Qed.

Lemma usedBy_fresh l i : Forall (fun u => (u.1 < i)%nat) (usages l) -> usedBy l i = 0.
Proof.
  unfold usedBy. induction 1 as [|u us Hu _ IH]; simpl; [done|].
  rewrite decide_False by lia. lia.
Qed.

(** The guard keeps the recent part of the ledger and, per window, its sum. *)
Record Refines (t : Z) (l : Ledger) (g : Guard) : Prop := {
  ref_windows : forall i, windows g !! i = (fun c => mkWindow (usedBy l i) c) <$> caps l !! i;
  ref_length : length (windows g) = length (caps l);
  ref_current : currentWindow g = current l;
  ref_opened : Forall (fun u => (u.1 < length (caps l))%nat) (usages l);
  ref_nonempty : (0 < length (caps l))%nat;
  ref_entries : exists old, (usages l).*2 = old ++ entries g /\
    Forall (fun e => timestamp e < t - ONE_DAY_MS) old }.

Lemma prune_refines t now l g : Refines t l g -> t <= now -> Refines now l (prune g now).
Proof.
  intros [H1 H2 H3 H4 H5 (old & E & Hold)] Ht. split; try done. cbn [entries prune].
  destruct (dropOlder_spec (now - ONE_DAY_MS) (entries g)) as (old' & E' & Hold').
  exists (old ++ old'). rewrite <- app_assoc, <- E'. split; [done|].
  apply Forall_app. split; [|done]. eapply Forall_impl; [exact Hold|]. simpl. lia.
Qed.

Lemma sumWindow_refines t l g ms now :
  Refines t l g -> t <= now -> ms <= ONE_DAY_MS -> sumWindow g ms now = usedSince l (now - ms).
Proof.
  intros [_ _ _ _ _ (old & E & Hold)] Ht Hms. unfold sumWindow, usedSince.
  rewrite E, sumFrom_app, (sumFrom_old _ (t - ONE_DAY_MS) old); [lia|lia|done].
Qed.

Lemma weaken_refines t t' l g : Refines t l g -> t <= t' -> Refines t' l g.
Proof.
  intros [H1 H2 H3 H4 H5 (old & E & Hold)] Ht. split; try done. exists old. split; [done|].
  eapply Forall_impl; [exact Hold|]. simpl. lia.
Qed.

(** The readings of one check. *)
Lemma pruned_refines t t0 t1 t2 l g :
  Refines t l g -> t <= t0 -> t0 <= t1 -> t1 <= t2 ->
  sumWindow (prune g t0) ONE_HOUR_MS t1 = usedSince l (t1 - ONE_HOUR_MS) /\
  sumWindow (prune g t0) ONE_DAY_MS t2 = usedSince l (t2 - ONE_DAY_MS) /\ Refines t2 l (prune g t0).
Proof.
  intros H H0 H1 H2. pose proof (prune_refines t t0 l g H H0) as HP. split_and!.
  - apply (sumWindow_refines t0); [done|lia|unfold ONE_HOUR_MS, ONE_DAY_MS; lia].
  - apply (sumWindow_refines t0); [done|lia|lia].
  - apply (weaken_refines t0); [done|lia].
Qed.

Lemma reset_refines t l g c :
  Refines t l g -> Refines t (mkLedger (usages l) (caps l ++ [c])) (resetExecution g c).2.
Proof.
  intros [H1 H2 H3 H4 H5 He]. unfold resetExecution, current.
  split; cbn [windows currentWindow snd caps usages entries]; try done.
  - intros i. destruct (decide (i < length (caps l))%nat) as [Hi|Hi].
    + rewrite !lookup_app_l by lia. apply H1.
    + rewrite !lookup_app_r by lia. rewrite H2.
      destruct (i - length (caps l))%nat as [|k] eqn:Ek; [|done]. simpl.
      rewrite (usedBy_fresh (mkLedger _ _)); [done|]. cbn [usages].
      eapply Forall_impl; [exact H4|]. simpl. lia.
  - rewrite !length_app. simpl. lia.
  - unfold current. cbn [caps]. rewrite length_app. simpl. lia.
  - eapply Forall_impl; [exact H4|]. intros u. rewrite length_app. simpl. lia.
  - rewrite length_app. simpl. lia.
Qed.

Lemma record_refines t now l g i w n :
  Refines t l g -> t <= now -> windows g !! i = Some w ->
  Refines now (mkLedger (usages l ++ [(i, mkEntry now n)]) (caps l)) (recordUsage g i w n now).
Proof.
  intros [H1 H2 H3 H4 H5 (old & E & Hold)] Ht Hw. assert (i < length (windows g))%nat as Hi.
  { by apply lookup_lt_Some in Hw. }
  unfold recordUsage. split; cbn [windows currentWindow caps usages entries]; try done.
  - intros j. rewrite usedBy_snoc. destruct (decide (i = j)) as [->|Hne].
    + rewrite list_lookup_insert_eq by done. rewrite H1 in Hw.
      apply fmap_Some in Hw as (c & Hc & ->). by rewrite Hc.
    + rewrite list_lookup_insert_ne by done. rewrite H1, Z.add_0_r. by destruct l.
  - by rewrite length_insert.
  - apply Forall_app. split; [done|]. constructor; [simpl; lia|constructor].
  - exists old. rewrite fmap_app, E, <- app_assoc. split; [done|].
    eapply Forall_impl; [exact Hold|]. simpl. lia.
Qed.

(** Reading a window through a handle gives the ledger's sum and cap. *)
Lemma window_refines t l g h :
  Refines t l g ->
  windows g !! default (currentWindow g) h =
  (fun c => mkWindow (usedBy l (default (current l) h)) c) <$> caps l !! default (current l) h.
Proof. intros H. rewrite (ref_current _ _ _ H). apply (ref_windows _ _ _ H). Qed.

Lemma step_ledger t l g op ops :
  Refines t l g -> clockFrom t (op :: ops) = true ->
  exists t', (step g op).1 = (specStep l op).1 /\ Refines t' (specStep l op).2 (step g op).2 /\
    clockFrom t' ops = true.
Proof.
  intros H Hc. destruct op as [c m|c|h est t0 t1 t2|h n t0|h t0 t1 t2]; cbn [step specStep].
  - exists t. split; [done|]. split; [|done]. by destruct H.
  - exists t. split; [|split; [by apply reset_refines|done]]. simpl. by rewrite (ref_length _ _ _ H).
  - simpl in Hc. apply andb_prop in Hc as [Hc ?]. exists t2. rewrite (window_refines t l g h H).
    destruct (caps l !! _) as [c|]; simpl; (split; [|split; [|done]]).
    + destruct (pruned_refines t t0 t1 t2 l g) as (-> & -> & _); try done; lia.
    + apply (pruned_refines t t0 t1 t2 l g); try done; lia.
    + done.
    + apply (weaken_refines t); [done|lia].
  - simpl in Hc. apply andb_prop in Hc as [Hc ?]. exists t0.
    pose proof (window_refines t l g h H) as Hw. rewrite (ref_current _ _ _ H) in Hw |- *.
    rewrite Hw. destruct (caps l !! _) as [c|]; simpl; (split; [done|split; [|done]]).
    + apply (record_refines t); [done|lia|done].
    + apply (weaken_refines t); [done|lia].
  - simpl in Hc. apply andb_prop in Hc as [Hc ?]. exists t2. rewrite (window_refines t l g h H).
    destruct (caps l !! _) as [c|]; simpl; (split; [|split; [|done]]).
    + destruct (pruned_refines t t0 t1 t2 l g) as (-> & -> & _); try done; lia.
    + apply (pruned_refines t t0 t1 t2 l g); try done; lia.
    + done.
    + apply (weaken_refines t); [done|lia].
Qed.

Lemma run_ledger ops t l g :
  Refines t l g -> clockFrom t ops = true -> (run g ops).1 = specRun l ops.
Proof.
  revert t l g. induction ops as [|op ops IH]; intros t l g H Hc; [done|].
  destruct (step_ledger t l g op ops H Hc) as (t' & E & H' & Hc'). simpl.
  destruct (step g op) as [a g'], (specStep l op) as [a' l']. simpl in *.
  specialize (IH t' l' g' H' Hc'). destruct (run g' ops). simpl in *. congruence.
Qed.

(** The budget guard refines a ledger of usages.  Under any interleaving of
    executions of one agent, with a clock that does not go back, every answer
    of the guard is the contract's: a check passes exactly when this
    execution's own usage plus the estimate is within the smaller of the
    configured and the execution's cap, and the usage of all executions in the
    last hour and the last day plus the estimate is within theirs, tested in
    this order; the first cap passed is the one reported.  Dropping old entries
    is not observable, and no execution sees another's total or cap. *)
Theorem guard_refines_ledger (ops : list Op) (t : Z) :
  clockFrom t ops = true -> (run createBudgetGuard ops).1 = specRun (mkLedger [] [None]) ops.
Proof.
  apply run_ledger. split; [by intros [|i]|done|done|constructor|simpl; lia|by exists []].
Qed.

End Guard.

(** Two executions of one agent: the second has a tighter cap, and a usage of
    the first one has left the hour. *)
Definition sampleBudget : BudgetConfig := mkBudget 100 150 1000.
Definition sampleOps : list Op :=
  [Estimate 400 20; CheckB None 100 0 0 0; RecordB None 90 0; Reset (Some 40);
   CheckB None 50 1 1 1; CheckB (Some 0%nat) 20 2 2 2; RecordB (Some 1%nat) 30 3;
   SnapshotB (Some 1%nat) 3600001 3600001 3600001].

Lemma guard_refines_ledger_witness :
  (run sampleBudget 100 createBudgetGuard sampleOps).1 =
  [Some (AEstimate 120); Some (ACheck (Ok tt)); Some ADone; Some (AHandle 1);
   Some (ACheck (Err (mkError per_execution 0 40 50)));
   Some (ACheck (Err (mkError per_execution 90 100 20))); Some ADone;
   Some (ASnapshot (mkSnapshot 30 30 120))].
Proof.
  rewrite (guard_refines_ledger sampleBudget 100 sampleOps 0); [|vm_compute; reflexivity].
  vm_compute. reflexivity.
Defined.

End BudgetGuard.
