(* ===== verification/CircuitBreaker.v ===== *)
(** * The circuit breaker and the turn budget

  Models [packages/agent/src/safety/circuit-breaker.ts], the three-state breaker
  that protects model providers, and
  [packages/agent/src/budget/turn-budget-tracker.ts], which decides whether an
  execution with a token target goes on.  Clock readings are arguments;
  utilization is a fraction of integers. *)

From S2P Require Import Prelude.

Open Scope string_scope.
Open Scope list_scope.
Open Scope Z_scope.

Module CircuitBreaker.

Inductive CircuitState := closed | open | halfOpen.

#[export] Instance CircuitState_eq_dec : EqDecision CircuitState.
Proof. solve_decision. Defined.

Record CircuitBreakerConfig := mkBreakerConfig { failureThreshold : Z; resetTimeoutMs : Z }.

Record Breaker := mkBreaker { state : CircuitState; consecutiveFailures : Z; openedAt : Z }.

Definition createCircuitBreaker : Breaker := mkBreaker closed 0 0.

Section Breaker.
Variable config : CircuitBreakerConfig.

Definition tryTransitionToHalfOpen (b : Breaker) (now : Z) : Breaker :=
  if bool_decide (state b = open) && (resetTimeoutMs config <=? now - openedAt b)
  then mkBreaker halfOpen (consecutiveFailures b) (openedAt b) else b.

Definition isOpen (b : Breaker) (now : Z) : bool * Breaker :=
  let b' := tryTransitionToHalfOpen b now in (bool_decide (state b' = open), b').

Definition recordSuccess (b : Breaker) : Breaker :=
  if decide (state b = halfOpen) then mkBreaker closed 0 (openedAt b)
  else mkBreaker (state b) 0 (openedAt b).

Definition recordFailure (b : Breaker) (now : Z) : Breaker :=
  if decide (state b = halfOpen) then mkBreaker open (consecutiveFailures b) now
  else
    let n := consecutiveFailures b + 1 in
    if failureThreshold config <=? n then mkBreaker open n now else mkBreaker (state b) n (openedAt b).

Definition getState (b : Breaker) (now : Z) : CircuitState * Breaker :=
  let b' := tryTransitionToHalfOpen b now in (state b', b').

Definition reset (b : Breaker) : Breaker := mkBreaker closed 0 0.

(** ** Runs *)

Inductive Op := IsOpen (now : Z) | GetState (now : Z) | Success | Failure (now : Z) | Reset.

Definition step (b : Breaker) (op : Op) : Breaker :=
  match op with
  | IsOpen now => (isOpen b now).2
  | GetState now => (getState b now).2
  | Success => recordSuccess b
  | Failure now => recordFailure b now
  | Reset => reset b
  end.

Definition run (ops : list Op) : Breaker := foldl step createCircuitBreaker ops.

(** Failures since the last success or reset. *)
Definition streak (ops : list Op) : Z :=
  foldl (fun n op => match op with Success | Reset => 0 | Failure _ => n + 1 | _ => n end) 0 ops.

(** The failure that opens the circuit: a failed probe, or the one that completes
    the threshold. *)
Definition opens (b : Breaker) : Prop :=
  state b = halfOpen \/ failureThreshold config <= consecutiveFailures b + 1.

Definition notReset (op : Op) : Prop := match op with Reset => False | _ => True end.

(** Calls that come while the circuit is to stay open. *)
Definition during (from until : Z) (op : Op) : Prop :=
  match op with
  | IsOpen now | GetState now => now < until
  | Failure now => from <= now
  | Success => True
  | Reset => False
  end.

Lemma run_snoc ops op : run (ops ++ [op]) = step (run ops) op.
Proof. unfold run. by rewrite foldl_app. Qed.

Lemma streak_snoc ops op :
  streak (ops ++ [op]) =
  match op with Success | Reset => 0 | Failure _ => streak ops + 1 | _ => streak ops end.
Proof. unfold streak. by rewrite foldl_app. Qed.

Lemma tryHalf_cases b now :
  tryTransitionToHalfOpen b now = b \/
  state b = open /\ resetTimeoutMs config <= now - openedAt b /\
  tryTransitionToHalfOpen b now = mkBreaker halfOpen (consecutiveFailures b) (openedAt b).
Proof.
  unfold tryTransitionToHalfOpen. case_bool_decide; simpl; [|by left].
  destruct (_ <=? _) eqn:E; [right|by left]. split_and!; [done|lia|done].
Qed.

Lemma tryHalf_keeps b now :
  openedAt (tryTransitionToHalfOpen b now) = openedAt b /\
  consecutiveFailures (tryTransitionToHalfOpen b now) = consecutiveFailures b /\
  (state (tryTransitionToHalfOpen b now) <> closed -> state b <> closed).
Proof. destruct (tryHalf_cases b now) as [->|(E & _ & ->)]; [done|]. by rewrite E. Qed.

Lemma recordSuccess_keeps b :
  openedAt (recordSuccess b) = openedAt b /\ (state (recordSuccess b) <> closed -> state b <> closed).
Proof. unfold recordSuccess. by case_decide. Qed.

Lemma recordFailure_opens b now :
  (opens b /\ state (recordFailure b now) = open /\ openedAt (recordFailure b now) = now) \/
  (~ opens b /\ state (recordFailure b now) = state b /\ openedAt (recordFailure b now) = openedAt b).
Proof.
  unfold recordFailure, opens. case_decide as Hh; [left; split; [by left|done]|].
  destruct (_ <=? _) eqn:E; [left; split; [right; lia|done]|right]. split; [|done]. intros [?|?]; [done|lia].
Qed.

Lemma failures_streak ops : 0 <= consecutiveFailures (run ops) <= streak ops.
Proof.
  induction ops as [|op ops IH] using rev_ind; [done|]. rewrite run_snoc, streak_snoc.
  destruct op; cbn [step isOpen getState snd].
  - destruct (tryHalf_cases (run ops) now) as [->|(_ & _ & ->)]; done.
  - destruct (tryHalf_cases (run ops) now) as [->|(_ & _ & ->)]; done.
  - unfold recordSuccess. case_decide; simpl; lia.
  - unfold recordFailure. case_decide; simpl; [lia|]. destruct (_ <=? _); simpl; lia.
  - simpl. lia.
Qed.

(** Where the circuit is not closed, a failure opened it. *)
Lemma opened_by ops :
  state (run ops) <> closed ->
  exists h1 h2, ops = h1 ++ Failure (openedAt (run ops)) :: h2 /\ Forall notReset h2 /\ opens (run h1).
Proof.
  assert (forall ops' op, notReset op -> openedAt (run (ops' ++ [op])) = openedAt (run ops') ->
    (exists h1 h2, ops' = h1 ++ Failure (openedAt (run ops')) :: h2 /\ Forall notReset h2 /\ opens (run h1)) ->
    exists h1 h2, ops' ++ [op] = h1 ++ Failure (openedAt (run (ops' ++ [op]))) :: h2 /\
      Forall notReset h2 /\ opens (run h1)) as Hkeep.
  { intros ops' op Hop Eo (h1 & h2 & E & H2 & Ho). exists h1, (h2 ++ [op]). rewrite Eo.
    split; [by rewrite E at 1; rewrite <- app_assoc|]. split; [|done]. apply Forall_app. by split; [|constructor]. }
  induction ops as [|op ops IH] using rev_ind; [done|]. intros Hs.
  rewrite run_snoc in Hs. destruct op as [now|now| |now| ]; cbn [step isOpen getState snd] in Hs.
  - apply Hkeep; [done| |apply IH; by apply tryHalf_keeps in Hs]. rewrite run_snoc. apply tryHalf_keeps.
  - apply Hkeep; [done| |apply IH; by apply tryHalf_keeps in Hs]. rewrite run_snoc. apply tryHalf_keeps.
  - apply Hkeep; [done| |apply IH; by apply recordSuccess_keeps in Hs]. rewrite run_snoc.
    apply recordSuccess_keeps.
  - destruct (recordFailure_opens (run ops) now) as [(Ho & _ & Eo)|(_ & Es & Eo)].
    + exists ops, []. rewrite run_snoc. cbn [step]. by rewrite Eo.
    + apply Hkeep; [done| |apply IH; congruence]. rewrite run_snoc. exact Eo.
  - done.
Qed.

(** An open circuit stays open until its time has come. *)
Lemma stays_open b from until ops :
  state b = open -> until <= openedAt b + resetTimeoutMs config ->
  from <= openedAt b -> from + resetTimeoutMs config = until ->
  Forall (during from until) ops ->
  let b' := foldl step b ops in
  state b' = open /\ until <= openedAt b' + resetTimeoutMs config.
Proof.
  intros Hb Hu Hf E. revert b Hb Hu Hf. induction ops as [|op ops IH]; intros b Hb Hu Hf HF; [done|].
  apply Forall_cons in HF as [Hop HF]. simpl.
  assert (state (step b op) = open /\ from <= openedAt (step b op)) as [Hb' Hf'];
    [|apply IH; try done; lia]. clear IH HF. destruct op; simpl in *; try done.
  - destruct (tryHalf_cases b now) as [->|(? & ? & _)]; [done|lia].
  - destruct (tryHalf_cases b now) as [->|(? & ? & _)]; [done|lia].
  - unfold recordSuccess. by rewrite decide_False by congruence.
  - destruct (recordFailure_opens b now) as [(_ & -> & ->)|(_ & -> & ->)]; done.
Qed.

(** The circuit breaker blocks exactly after failures and not for ever.
    Whatever was recorded: (1) a call is blocked at a time only because a
    failure, not followed by a reset, opened the circuit less than the reset
    timeout ago; that failure was a failed probe or completed a streak of the
    threshold.  (2) A failure that opens the circuit blocks every call until
    the reset timeout is over, whatever the calls still in flight report.
    (3) Admitting a call does not use up the half-open circuit's probe: until
    an outcome is recorded, every further call is admitted too. *)
Theorem circuit_breaker_contract (ops : list Op) (now : Z) :
  ((isOpen (run ops) now).1 = true ->
   exists h1 o h2, ops = h1 ++ Failure o :: h2 /\ now < o + resetTimeoutMs config /\
     Forall notReset h2 /\
     (state (run h1) = halfOpen \/ failureThreshold config <= streak (h1 ++ [Failure o]))) /\
  (forall o h, opens (run ops) -> now < o + resetTimeoutMs config ->
     Forall (during o (o + resetTimeoutMs config)) h ->
     (isOpen (run (ops ++ Failure o :: h)) now).1 = true) /\
  (forall later, (isOpen (run ops) now).1 = false ->
     isOpen (isOpen (run ops) now).2 later = (false, (isOpen (run ops) now).2)).
Proof.
  split_and!.
  - unfold isOpen. cbn [fst]. intros Hs%bool_decide_eq_true.
    destruct (tryHalf_cases (run ops) now) as [E|(_ & _ & E)]; rewrite E in Hs; [|done].
    destruct (opened_by ops) as (h1 & h2 & Eh & H2 & Ho); [congruence|].
    exists h1, (openedAt (run ops)), h2. split_and!; try done.
    + destruct (Z_lt_le_dec now (openedAt (run ops) + resetTimeoutMs config)); [done|].
      unfold tryTransitionToHalfOpen in E. rewrite bool_decide_eq_true_2 in E by done.
      destruct (_ <=? _) eqn:El; [|lia]. simpl in E. by rewrite <- E in Hs.
    + destruct Ho as [Ho|Ho]; [by left|right]. rewrite streak_snoc.
      pose proof (failures_streak h1). lia.
  - intros o h Ho Hn Hh. unfold run. rewrite foldl_app. fold (run ops). simpl.
    destruct (recordFailure_opens (run ops) o) as [(_ & Es & Eo)|(Hno & _)]; [|done].
    destruct (stays_open (recordFailure (run ops) o) o (o + resetTimeoutMs config) h) as [E1 E2];
      [done|lia|lia|done|done|].
    apply bool_decide_eq_true. destruct (tryHalf_cases (foldl step (recordFailure (run ops) o) h) now)
      as [->|(_ & ? & _)]; [done|lia].
  - intros later. unfold isOpen. cbn [fst snd]. intros Hs%bool_decide_eq_false.
    set (b := tryTransitionToHalfOpen (run ops) now) in *.
    assert (tryTransitionToHalfOpen b later = b) as ->; [|by rewrite bool_decide_eq_false_2].
    unfold tryTransitionToHalfOpen at 1. by rewrite bool_decide_eq_false_2.
Qed.

End Breaker.

Definition sampleConfig : CircuitBreakerConfig := mkBreakerConfig 2 1000.

(** Two failures open the circuit, a late success of a call in flight does not
    close it, and after the timeout a probe is let through. *)
Lemma circuit_breaker_contract_witness :
  (isOpen sampleConfig (run sampleConfig [Failure 0; Failure 5; Success]) 900).1 = true /\
  (isOpen sampleConfig (run sampleConfig [Failure 0; Failure 5; Success]) 1005).1 = false.
Proof.
  split; [|vm_compute; reflexivity].
  apply (proj1 (proj2 (circuit_breaker_contract sampleConfig [Failure 0] 900)) 5 [Success]).
  - right. vm_compute. discriminate.
  - vm_compute. reflexivity.
  - repeat constructor.
Defined.

End CircuitBreaker.

Module TurnBudget.

Definition DIMINISHING_DELTA_THRESHOLD : Z := 500.
Definition MAX_CONTINUATIONS : Z := 3.

Inductive StopReason := budget_reached | diminishing_returns | max_continuations | under_budget.
Inductive Action := continue_ | stop.

(** [utilization] is the quotient of its two numbers. *)
Record TurnBudgetDecision := mkDecision {
  action : Action; utilization : Z * Z; reason : StopReason }.

Record Tracker := mkTracker {
  continuationCount : Z; lastOutputTokens : Z; deltas : list Z }.

Definition createTurnBudgetTracker : Tracker := mkTracker 0 0 [].

(** [current / target >= COMPLETION_THRESHOLD], nine tenths, with the language's
    result for a target that is not positive. *)
Definition thresholdReached (current target : Z) : bool :=
  if 0 <? target then 9 * target <=? 10 * current
  else if target =? 0 then 0 <? current
  else 10 * current <=? 9 * target.

(** The last two of the list are below the threshold. *)
Definition diminishing (l : list Z) : bool :=
  match reverse l with
  | d2 :: d1 :: _ => (d1 <? DIMINISHING_DELTA_THRESHOLD) && (d2 <? DIMINISHING_DELTA_THRESHOLD)
  | _ => false
  end.

Definition check (target : Z) (t : Tracker) (current : Z) : TurnBudgetDecision * Tracker :=
  let ds := deltas t ++ [current - lastOutputTokens t] in
  let seen := mkTracker (continuationCount t) current ds in
  if MAX_CONTINUATIONS <=? continuationCount t then (mkDecision stop (current, target) max_continuations, seen)
  else if thresholdReached current target then (mkDecision stop (current, target) budget_reached, seen)
  else if (0 <? continuationCount t) && (2 <=? length ds)%nat && diminishing ds
  then (mkDecision stop (current, target) diminishing_returns, seen)
  else (mkDecision continue_ (current, target) under_budget, mkTracker (continuationCount t + 1) current ds).

(** The decisions on the cumulative counts of the turns of one execution. *)
Fixpoint decisions (target : Z) (t : Tracker) (counts : list Z) : list TurnBudgetDecision :=
  match counts with
  | [] => []
  | c :: counts => let '(d, t') := check target t c in d :: decisions target t' counts
  end.

#[export] Instance Action_eq_dec : EqDecision Action.
Proof. solve_decision. Defined.

Definition continuations (l : list TurnBudgetDecision) : nat :=
  length (filter (fun d => action d = continue_) l).

Lemma check_counts target t c :
  let '(d, t') := check target t c in
  (action d = continue_ /\ reason d = under_budget /\ thresholdReached c target = false /\
   continuationCount t < MAX_CONTINUATIONS /\ continuationCount t' = continuationCount t + 1) \/
  (action d = stop /\ continuationCount t' = continuationCount t).
Proof.
  unfold check. destruct (_ <=? _) eqn:E; [by right|]. destruct (thresholdReached _ _) eqn:Et; [by right|].
  destruct (_ && _ && _); [by right|]. left. simpl. split_and!; [done..|lia|done].
Qed.

Lemma decisions_bounded target counts t :
  0 <= continuationCount t <= MAX_CONTINUATIONS ->
  Z.of_nat (continuations (decisions target t counts)) <= MAX_CONTINUATIONS - continuationCount t.
Proof.
  revert t. induction counts as [|c counts IH]; intros t Ht; simpl.
  { unfold continuations. simpl. lia. }
  pose proof (check_counts target t c) as Hc. destruct (check target t c) as [d t'].
  unfold continuations in *. rewrite filter_cons.
  destruct Hc as [(Ha & _ & _ & Hlt & Hn)|(Ha & Hn)]; rewrite Ha.
  - rewrite decide_True by done. specialize (IH t' ltac:(lia)). simpl. lia.
  - rewrite decide_False by done. specialize (IH t' ltac:(lia)). lia.
Qed.

(** An execution with a token target stops.  Whatever output counts the turns
    report, at most three continuations are granted, so an execution that goes
    on only when told to runs at most four turns; and a continuation is granted
    only below nine tenths of the target. *)
Theorem turn_budget_stops (target : Z) (counts : list Z) :
  let ds := decisions target createTurnBudgetTracker counts in
  Z.of_nat (continuations ds) <= MAX_CONTINUATIONS /\
  (Forall (fun d => action d = continue_) (take (length ds - 1) ds) -> (length ds <= 4)%nat) /\
  (forall i c d, counts !! i = Some c -> ds !! i = Some d -> action d = continue_ ->
   thresholdReached c target = false).
Proof.
  intros ds. assert (Z.of_nat (continuations ds) <= MAX_CONTINUATIONS) as Hb.
  { unfold ds. pose proof (decisions_bounded target counts createTurnBudgetTracker) as H.
    unfold MAX_CONTINUATIONS in *. simpl in H. lia. }
  split_and!; [done| |].
  - intros HF. unfold continuations in Hb.
    rewrite <- (take_drop (length ds - 1) ds), filter_app, length_app in Hb.
    rewrite list_filter_all, length_take in Hb by (by apply Forall_forall). unfold MAX_CONTINUATIONS in Hb. lia.
  - clear Hb. unfold ds. generalize createTurnBudgetTracker. clear ds.
    induction counts as [|c0 counts IH]; intros t i c d Hc Hd Ha; simpl in Hd; [done|].
    pose proof (check_counts target t c0) as Hk. destruct (check target t c0) as [d0 t'].
    destruct i as [|i]; simpl in *; [|by eapply IH]. simplify_eq.
    destruct Hk as [(_ & _ & ? & _)|(? & _)]; [done|congruence].
Qed.

Lemma turn_budget_stops_witness :
  let ds := decisions 10000 createTurnBudgetTracker [1000; 3000; 5000; 7000] in
  (length ds <= 4)%nat /\ continuations ds = 3%nat.
Proof.
  split; [|vm_compute; reflexivity].
  apply (turn_budget_stops 10000 [1000; 3000; 5000; 7000]). vm_compute. repeat constructor.
Defined.

End TurnBudget.
