(* ===== verification/SummarizerBreaker.v ===== *)
(** * The summarizer's spend cap and breaker

  Models [packages/agent/src/safety/summarizer-spend-breaker.ts]: each tenant's
  calls to the summarizing model pass a circuit breaker ([CircuitBreaker]) and
  two rolling token windows.  A gated call runs in two steps, the admission and
  the settlement of the inner call, between which other calls may run; token
  estimates and clock readings are arguments.

  The contract looks at one tenant alone: what it is told depends only on its
  own calls, and on all of its recorded usage. *)

From S2P Require Import Prelude CircuitBreaker BudgetGuard.
Import CircuitBreaker.
Import BudgetGuard(WindowEntry, mkEntry, timestamp, dropOlder, sumFrom, ONE_HOUR_MS, ONE_DAY_MS,
  sumFrom_app, sumFrom_old, dropOlder_spec).

Open Scope string_scope.
Open Scope list_scope.
Open Scope Z_scope.

Module SummarizerBreaker.

Record SummarizerSpendConfig := mkSpend {
  maxTokensPerTenantPerHour : Z; maxTokensPerTenantPerDay : Z }.

Inductive SummarizerDegradeReason := breaker_open | spend_cap.

(** The entries of a tenant's tracker. *)
Abbreviation TenantSpend := (list WindowEntry).

Record Gates := mkGates {
  breakers : jsmap string Breaker; trackers : jsmap string TenantSpend }.

Definition createSummarizerSpendBreaker : Gates := mkGates [] [].

Section Gate.
Variable breakerConfig : CircuitBreakerConfig.
Variable spendConfig : SummarizerSpendConfig.

Definition breakerFor (g : Gates) (tenant : string) : Breaker :=
  default createCircuitBreaker (mget (breakers g) tenant).
Definition spendFor (g : Gates) (tenant : string) : TenantSpend :=
  default [] (mget (trackers g) tenant).

Definition setBreaker (g : Gates) (tenant : string) (b : Breaker) : Gates :=
  mkGates (mset (breakers g) tenant b) (trackers g).
Definition setSpend (g : Gates) (tenant : string) (l : TenantSpend) : Gates :=
  mkGates (breakers g) (mset (trackers g) tenant l).

(** The two window tests; a cap of zero disables a window. *)
Definition withinCaps (l : TenantSpend) (est nowHour nowDay : Z) : bool :=
  negb ((0 <? maxTokensPerTenantPerHour spendConfig) &&
        (maxTokensPerTenantPerHour spendConfig <? sumFrom (nowHour - ONE_HOUR_MS) l + est)) &&
  negb ((0 <? maxTokensPerTenantPerDay spendConfig) &&
        (maxTokensPerTenantPerDay spendConfig <? sumFrom (nowDay - ONE_DAY_MS) l + est)).

Definition canSpend (l : TenantSpend) (est now nowHour nowDay : Z) : bool * TenantSpend :=
  let l := dropOlder (now - ONE_DAY_MS) l in (withinCaps l est nowHour nowDay, l).

Definition record (l : TenantSpend) (tokens now : Z) : TenantSpend := l ++ [mkEntry now tokens].

Inductive Admission := Degraded (r : SummarizerDegradeReason) | Called.

(** A gated call up to its inner call. *)
Definition enter (g : Gates) (tenant : string) (est now0 now nowHour nowDay : Z)
    : Admission * Gates :=
  let b := breakerFor g tenant in
  let l := spendFor g tenant in
  let g := setSpend (setBreaker g tenant b) tenant l in
  let '(blocked, b') := isOpen breakerConfig b now0 in
  let g := setBreaker g tenant b' in
  if blocked then (Degraded breaker_open, g)
  else
    let '(ok, l') := canSpend l est now nowHour nowDay in
    (if ok then Called else Degraded spend_cap, setSpend g tenant l').

(** The inner call returned.  [out] is the estimate of the output, [None] when
    the estimator throws. *)
Definition returned (g : Gates) (tenant : string) (est : Z) (out : option Z) (now : Z) : Gates :=
  let g := setBreaker g tenant (recordSuccess (breakerFor g tenant)) in
  match out with
  | Some o => setSpend g tenant (record (spendFor g tenant) (est + o) now)
  | None => setBreaker g tenant (recordFailure breakerConfig (breakerFor g tenant) now)
  end.

(** The inner call threw. *)
Definition threw (g : Gates) (tenant : string) (now : Z) : Gates :=
  setBreaker g tenant (recordFailure breakerConfig (breakerFor g tenant) now).

(** ** Runs of all tenants *)

Inductive Op :=
| Enter (tenant : string) (est now0 now nowHour nowDay : Z)
| Returned (tenant : string) (est : Z) (out : option Z) (now : Z)
| Threw (tenant : string) (now : Z).

Definition tenantOf (op : Op) : string :=
  match op with Enter t _ _ _ _ _ | Returned t _ _ _ | Threw t _ => t end.

Definition step (g : Gates) (op : Op) : list (string * Admission) * Gates :=
  match op with
  | Enter t est n0 n1 n2 n3 => let '(a, g') := enter g t est n0 n1 n2 n3 in ([(t, a)], g')
  | Returned t est out now => ([], returned g t est out now)
  | Threw t now => ([], threw g t now)
  end.

Fixpoint run (g : Gates) (ops : list Op) : list (string * Admission) :=
  match ops with
  | [] => []
  | op :: ops => let '(l, g') := step g op in l ++ run g' ops
  end.

(** ** One tenant alone, with all of its usage *)

Definition specStep (s : Breaker * list WindowEntry) (op : Op)
    : list Admission * (Breaker * list WindowEntry) :=
  let '(b, l) := s in
  match op with
  | Enter _ est n0 _ n2 n3 =>
    let '(blocked, b') := isOpen breakerConfig b n0 in
    ([if blocked then Degraded breaker_open
      else if withinCaps l est n2 n3 then Called else Degraded spend_cap], (b', l))
  | Returned _ est out now =>
    let b := recordSuccess b in
    match out with
    | Some o => ([], (b, l ++ [mkEntry now (est + o)]))
    | None => ([], (recordFailure breakerConfig b now, l))
    end
  | Threw _ now => ([], (recordFailure breakerConfig b now, l))
  end.

Fixpoint specRun (s : Breaker * list WindowEntry) (ops : list Op) : list Admission :=
  match ops with
  | [] => []
  | op :: ops => let '(a, s') := specStep s op in a ++ specRun s' ops
  end.

Fixpoint clockFrom (t : Z) (ops : list Op) : bool :=
  match ops with
  | [] => true
  | Enter _ _ n0 n1 n2 n3 :: ops =>
    (t <=? n0) && (n0 <=? n1) && (n1 <=? n2) && (n2 <=? n3) && clockFrom n3 ops
  | Returned _ _ _ now :: ops | Threw _ now :: ops => (t <=? now) && clockFrom now ops
  end.

(** The gates hold the tenant's breaker and the recent part of its usage. *)
Definition Holds (t : Z) (tenant : string) (g : Gates) (s : Breaker * list WindowEntry) : Prop :=
  breakerFor g tenant = s.1 /\
  exists old, s.2 = old ++ spendFor g tenant /\ Forall (fun e => timestamp e < t - ONE_DAY_MS) old.

Lemma withinCaps_old t l old est n2 n3 :
  Forall (fun e => timestamp e < t - ONE_DAY_MS) old -> t <= n2 -> t <= n3 ->
  withinCaps (old ++ l) est n2 n3 = withinCaps l est n2 n3.
Proof.
  intros Hold H2 H3. unfold withinCaps. rewrite !sumFrom_app.
  rewrite !(sumFrom_old _ (t - ONE_DAY_MS) old) by (done || unfold ONE_HOUR_MS, ONE_DAY_MS; lia).
  done.
Qed.

Lemma breakerFor_set g tenant tenant' b :
  breakerFor (setBreaker g tenant b) tenant' = if decide (tenant' = tenant) then b else breakerFor g tenant'.
Proof. unfold breakerFor. simpl. rewrite mget_mset. by case_decide. Qed.

Lemma spendFor_set g tenant tenant' l :
  spendFor (setSpend g tenant l) tenant' = if decide (tenant' = tenant) then l else spendFor g tenant'.
Proof. unfold spendFor. simpl. rewrite mget_mset. by case_decide. Qed.

Lemma breakerFor_setSpend g tenant tenant' l : breakerFor (setSpend g tenant l) tenant' = breakerFor g tenant'.
Proof. done. Qed.
Lemma spendFor_setBreaker g tenant tenant' b : spendFor (setBreaker g tenant b) tenant' = spendFor g tenant'.
Proof. done. Qed.

Create Rewrite HintDb gates.
#[local] Hint Rewrite breakerFor_set spendFor_set breakerFor_setSpend spendFor_setBreaker : gates.

(** Another tenant's step changes nothing. *)
Lemma step_other g op tenant :
  tenantOf op <> tenant ->
  breakerFor (step g op).2 tenant = breakerFor g tenant /\
  spendFor (step g op).2 tenant = spendFor g tenant /\
  filter (fun a => a.1 = tenant) (step g op).1 = [].
Proof.
  intros Hne. destruct op as [t est n0 n1 n2 n3|t est out now|t now]; simpl in Hne; cbn [step].
  - unfold enter, canSpend. destruct (isOpen _ _ _) as [blocked b'].
    destruct blocked; cbn [fst snd]; autorewrite with gates; rewrite filter_cons; cbn [fst];
      repeat case_decide; done || congruence.
  - unfold returned. destruct out; cbn [fst snd]; autorewrite with gates; by repeat case_decide.
  - unfold threw. cbn [fst snd]. autorewrite with gates. by repeat case_decide.
Qed.

Lemma enter_holds g tenant est n0 n1 n2 n3 t s :
  Holds t tenant g s -> t <= n0 -> n0 <= n1 -> n1 <= n2 -> n2 <= n3 ->
  let op := Enter tenant est n0 n1 n2 n3 in
  (step g op).1 = (pair tenant) <$> (specStep s op).1 /\ Holds n3 tenant (step g op).2 (specStep s op).2.
Proof.
  destruct s as [b l]. intros (Hb & old & El & Hold) H0 H1 H2 H3. cbn [fst snd] in Hb, El.
  cbn [step specStep]. unfold enter. rewrite Hb. destruct (isOpen breakerConfig b n0) as [blocked b'].
  assert (Forall (fun e => timestamp e < n3 - ONE_DAY_MS) old) as Hold'.
  { eapply Forall_impl; [exact Hold|]. simpl. lia. }
  destruct blocked; [|unfold canSpend].
  - split; [done|]. unfold Holds. cbn [fst snd]. autorewrite with gates. rewrite !decide_True by done.
    split; [done|]. by exists old.
  - destruct (dropOlder_spec (n1 - ONE_DAY_MS) (spendFor g tenant)) as (old' & E' & Hold'').
    split; cbn [fst snd].
    + simpl. do 2 f_equal. set (rest := dropOlder _ _) in *. clearbody rest. rewrite El, E', app_assoc.
      rewrite (withinCaps_old n1 _ (old ++ old')); [done| |lia|lia].
      apply Forall_app. split; [|done]. eapply Forall_impl; [exact Hold|]. simpl. lia.
    + unfold Holds. cbn [fst snd]. autorewrite with gates. rewrite !decide_True by done. split; [done|].
      exists (old ++ old'). rewrite <- app_assoc, <- E'. split; [done|]. apply Forall_app. split; [done|].
      eapply Forall_impl; [exact Hold''|]. simpl. lia.
Qed.

(** The tenant's own step is the contract's. *)
Lemma step_own g op ops tenant t s :
  Holds t tenant g s -> tenantOf op = tenant -> clockFrom t (op :: ops) = true ->
  exists t', (step g op).1 = (pair tenant) <$> (specStep s op).1 /\
    Holds t' tenant (step g op).2 (specStep s op).2 /\ clockFrom t' ops = true.
Proof.
  intros H Et Hc. destruct op as [x est n0 n1 n2 n3|x est out now|x now]; simpl in Et; subst x;
    simpl in Hc; apply andb_prop in Hc as [Hc ?].
  - exists n3. destruct (enter_holds g tenant est n0 n1 n2 n3 t s) as [E1 E2]; [done|lia..|done].
  - exists now. destruct s as [b l], H as (Hb & old & El & Hold). cbn [fst snd] in Hb, El.
    cbn [step specStep]. unfold returned. destruct out as [o|]; (split; [done|split; [|done]]);
      unfold Holds; cbn [fst snd]; autorewrite with gates; rewrite !decide_True, Hb by done; (split; [done|]);
      exists old; (split; [|eapply Forall_impl; [exact Hold|]; simpl; lia]); [|done].
    unfold record. by rewrite El, app_assoc.
  - exists now. destruct s as [b l], H as (Hb & old & El & Hold). cbn [fst snd] in Hb, El.
    cbn [step specStep]. unfold threw. split; [done|]. split; [|done].
    unfold Holds. cbn [fst snd]. autorewrite with gates. rewrite !decide_True, Hb by done. split; [done|].
    exists old. split; [done|]. eapply Forall_impl; [exact Hold|]. simpl. lia.
Qed.

Lemma clock_later op ops t : clockFrom t (op :: ops) = true -> exists t', t <= t' /\ clockFrom t' ops = true.
Proof.
  destruct op as [? ? ? ? ? n3|? ? ? now|? now]; simpl; intros [Hc Hr]%andb_prop;
    [exists n3|exists now|exists now]; split; done || lia.
Qed.

Lemma run_alone ops g tenant t s :
  Holds t tenant g s -> clockFrom t ops = true ->
  filter (fun a => a.1 = tenant) (run g ops) =
  (pair tenant) <$> specRun s (filter (fun op => tenantOf op = tenant) ops).
Proof.
  revert g t s. induction ops as [|op ops IH]; intros g t s H Hc; [done|].
  rewrite filter_cons. cbn [run]. case_decide as Et.
  - destruct (step_own g op ops tenant t s H Et Hc) as (t' & E & H' & Hc').
    destruct (step g op) as [a g'], (specStep s op) as [a' s'] eqn:Es. cbn [fst snd] in *. cbn [specRun].
    rewrite Es, filter_app, E, (IH g' t' s' H' Hc'), fmap_app. f_equal.
    rewrite list_filter_all; [done|]. by intros x (y & -> & _)%list_elem_of_fmap.
  - destruct (step_other g op tenant Et) as (E1 & E2 & E3). destruct (clock_later _ _ _ Hc) as (t' & Ht & Hc').
    destruct (step g op) as [a g']. cbn [fst snd] in *. rewrite filter_app, E3. simpl.
    apply (IH g' t' s); [|done]. destruct H as (Hb & old & El & Hold). split; [congruence|].
    exists old. split; [congruence|]. eapply Forall_impl; [exact Hold|]. simpl. lia.
Qed.

(** Summarizer budgets are per tenant.  However the calls of all tenants
    interleave, what one tenant is told is what it would be told alone: a call
    reaches the model exactly when the tenant's own breaker admits it and its
    own recorded usage of the last hour and of the last day, together with the
    estimate, is within each cap that is set; an open breaker is reported
    first.  Another tenant's failures and spending have no influence, and
    dropping old entries is not observable. *)
Theorem summarizer_tenant_alone (ops : list Op) (tenant : string) (t : Z) :
  clockFrom t ops = true ->
  (filter (fun a => a.1 = tenant) (run createSummarizerSpendBreaker ops)).*2 =
  specRun (createCircuitBreaker, []) (filter (fun op => tenantOf op = tenant) ops).
Proof.
  intros Hc. rewrite (run_alone ops _ tenant t (createCircuitBreaker, [])); [|by split; [|exists []]|done].
  by rewrite <- list_fmap_compose, list_fmap_id.
Qed.

End Gate.

(** Tenant [a] trips its breaker and tenant [b] its cap. *)
Definition sampleCaps : SummarizerSpendConfig := mkSpend 100 0.
Definition sampleOps : list Op :=
  [Enter "a" 10 0 0 0 0; Threw "a" 1; Enter "b" 60 2 2 2 2; Threw "a" 3; Returned "b" 60 (Some 10) 4;
   Enter "a" 10 5 5 5 5; Enter "b" 40 6 6 6 6; Enter "b" 30 7 7 7 7].

Lemma summarizer_tenant_alone_witness :
  (filter (fun a => a.1 = "b")
     (run (mkBreakerConfig 2 1000) sampleCaps createSummarizerSpendBreaker sampleOps)).*2 =
  [Called; Degraded spend_cap; Called].
Proof.
  rewrite (summarizer_tenant_alone (mkBreakerConfig 2 1000) sampleCaps sampleOps "b" 0);
    [|vm_compute; reflexivity].
  vm_compute. reflexivity.
Defined.

End SummarizerBreaker.
