(* ===== verification/ProviderHealth.v ===== *)
(** * The provider health monitor

  Models [packages/agent/src/safety/provider-health-monitor.ts]: failures of
  model providers aggregated over all agents, so that calls to a provider known
  to be down can be skipped.  Clock readings are arguments; the events emitted
  are returned.

  The contract keeps, per provider, everything that was recorded: how many
  agents fail and how long an agent's streak is are read off that history. *)

From S2P Require Import Prelude.

Open Scope string_scope.
Open Scope list_scope.
Open Scope Z_scope.

Module ProviderHealth.

Record AgentFailureRecord := mkAgent { consecutive : Z; timestamps : list Z }.

Record ProviderRecord := mkProvider {
  agentFailures : jsmap string AgentFailureRecord;
  degraded : bool; lastFailure : Z; lastRecovery : Z }.

Record ProviderHealthMonitorConfig := mkMonitor {
  degradedThreshold : Z; consecutiveFailureThreshold : Z; windowMs : Z }.

Inductive Event :=
| EDegraded (provider : string) (failingAgents now : Z)
| ERecovered (provider : string) (now : Z).

Abbreviation Monitor := (jsmap string ProviderRecord).

Section Monitor.
Variable config : ProviderHealthMonitorConfig.

Definition getOrCreateProvider (st : Monitor) (p : string) : ProviderRecord :=
  default (mkProvider [] false 0 0) (mget st p).

Definition getOrCreateAgent (r : ProviderRecord) (a : string) : AgentFailureRecord :=
  default (mkAgent 0 []) (mget (agentFailures r) a).

Definition pruneTimestamps (a : AgentFailureRecord) (now : Z) : AgentFailureRecord :=
  mkAgent (consecutive a) (filter (fun t => now - windowMs config < t) (timestamps a)).

Definition failsWithin (now : Z) (a : AgentFailureRecord) : bool :=
  existsb (fun t => now - windowMs config <? t) (timestamps a).

Definition countFailingAgents (r : ProviderRecord) (now : Z) : Z :=
  Z.of_nat (length (filter (fun p => failsWithin now p.2 = true) (agentFailures r))).

Definition allTimestampsExpired (r : ProviderRecord) (now : Z) : bool :=
  negb (existsb (fun p => failsWithin now p.2) (agentFailures r)).

Definition recordFailure (st : Monitor) (p a : string) (now : Z) : list Event * Monitor :=
  let r := getOrCreateProvider st p in
  let agent := getOrCreateAgent r a in
  let agent := pruneTimestamps (mkAgent (consecutive agent + 1) (timestamps agent ++ [now])) now in
  let r := mkProvider (mset (agentFailures r) a agent) (degraded r) now (lastRecovery r) in
  if degraded r then ([], mset st p r)
  else
    let failing := countFailingAgents r now in
    if (degradedThreshold config <=? failing) || (consecutiveFailureThreshold config <=? consecutive agent)
    then ([EDegraded p failing now],
          mset st p (mkProvider (agentFailures r) true (lastFailure r) (lastRecovery r)))
    else ([], mset st p r).

Definition recordSuccess (st : Monitor) (p a : string) (now : Z) : list Event * Monitor :=
  match mget st p with
  | None => ([], st)
  | Some r =>
    let r := match mget (agentFailures r) a with
      | Some agent => mkProvider (mset (agentFailures r) a (mkAgent 0 (timestamps agent)))
                        (degraded r) (lastFailure r) (lastRecovery r)
      | None => r
      end in
    if degraded r
    then ([ERecovered p now], mset st p (mkProvider (agentFailures r) false (lastFailure r) now))
    else ([], mset st p r)
  end.

Definition isDegraded (st : Monitor) (p : string) (now : Z) : bool * list Event * Monitor :=
  match mget st p with
  | None => (false, [], st)
  | Some r =>
    if degraded r then
      let r := mkProvider ((fun q => (q.1, pruneTimestamps q.2 now)) <$> agentFailures r)
        (degraded r) (lastFailure r) (lastRecovery r) in
      if allTimestampsExpired r now
      then (false, [ERecovered p now],
            mset st p (mkProvider (agentFailures r) false (lastFailure r) now))
      else (true, [], mset st p r)
    else (false, [], st)
  end.

Definition getHealthSummary (st : Monitor) (now : Z) : list (string * (bool * Z)) :=
  (fun q => (q.1, (degraded q.2, countFailingAgents q.2 now))) <$> st.

(** ** Runs *)

Inductive Op :=
| Fail (p a : string) (now : Z)
| Succeed (p a : string) (now : Z)
| IsDegraded (p : string) (now : Z)
| Summary (now : Z).

Record Answer := mkAnswer {
  events : list Event; verdict : option bool; summary : list (string * (bool * Z)) }.

Definition step (st : Monitor) (op : Op) : Answer * Monitor :=
  match op with
  | Fail p a now => let '(es, st') := recordFailure st p a now in (mkAnswer es None [], st')
  | Succeed p a now => let '(es, st') := recordSuccess st p a now in (mkAnswer es None [], st')
  | IsDegraded p now => let '(v, es, st') := isDegraded st p now in (mkAnswer es (Some v) [], st')
  | Summary now => (mkAnswer [] None (getHealthSummary st now), st)
  end.

Fixpoint run (st : Monitor) (ops : list Op) : list Answer :=
  match ops with
  | [] => []
  | op :: ops => let '(a, st') := step st op in a :: run st' ops
  end.

(** ** The contract

  What was recorded of a provider, in order: an agent and the time of its
  failure, or [None] for its success; and whether the provider counts as
  degraded. *)

Definition History := list (string * option Z).
Abbreviation Book := (jsmap string (History * bool)).

(** The agents with a failure less than a window ago, each once. *)
Definition failingAgents (h : History) (now : Z) : list string :=
  remove_dups (omap (fun e => match e.2 with
    | Some t => if decide (now - windowMs config < t) then Some e.1 else None
    | None => None end) h).

(** An agent's failures since its last success. *)
Definition streak (h : History) (a : string) : Z :=
  foldl (fun n e => if decide (e.1 = a) then match e.2 with Some _ => n + 1 | None => 0 end else n) 0 h.

Definition specStep (bk : Book) (op : Op) : Answer * Book :=
  match op with
  | Fail p a now =>
    let '(h, d) := default ([], false) (mget bk p) in
    let h := h ++ [(a, Some now)] in
    let n := Z.of_nat (length (failingAgents h now)) in
    let trips := negb d && ((degradedThreshold config <=? n) ||
                            (consecutiveFailureThreshold config <=? streak h a)) in
    (mkAnswer (if trips then [EDegraded p n now] else []) None [], mset bk p (h, d || trips))
  | Succeed p a now =>
    match mget bk p with
    | None => (mkAnswer [] None [], bk)
    | Some (h, d) =>
      (mkAnswer (if d then [ERecovered p now] else []) None [], mset bk p (h ++ [(a, None)], false))
    end
  | IsDegraded p now =>
    match mget bk p with
    | None => (mkAnswer [] (Some false) [], bk)
    | Some (h, d) =>
      let stale := bool_decide (failingAgents h now = []) in
      (mkAnswer (if d && stale then [ERecovered p now] else []) (Some (d && negb stale)) [],
       mset bk p (h, d && negb stale))
    end
  | Summary now =>
    (mkAnswer [] None ((fun q => (q.1, (q.2.2, Z.of_nat (length (failingAgents q.2.1 now))))) <$> bk), bk)
  end.

Fixpoint specRun (bk : Book) (ops : list Op) : list Answer :=
  match ops with
  | [] => []
  | op :: ops => let '(a, bk') := specStep bk op in a :: specRun bk' ops
  end.

Definition timeOf (op : Op) : Z :=
  match op with Fail _ _ t | Succeed _ _ t | IsDegraded _ t | Summary t => t end.

Fixpoint clockFrom (t : Z) (ops : list Op) : bool :=
  match ops with [] => true | op :: ops => (t <=? timeOf op) && clockFrom (timeOf op) ops end.

(** ** Refinement *)

(** The record of a provider: streaks exact, timestamps complete within the
    window and never invented. *)
Record Tracks (t : Z) (r : ProviderRecord) (h : History) (d : bool) : Prop := {
  tr_flag : degraded r = d;
  tr_keys : NoDup (mkeys (agentFailures r));
  tr_streak : forall a, streak h a = consecutive (getOrCreateAgent r a);
  tr_known : forall a x, x ∈ timestamps (getOrCreateAgent r a) -> (a, Some x) ∈ h;
  tr_recent : forall a x, (a, Some x) ∈ h -> t - windowMs config < x ->
    x ∈ timestamps (getOrCreateAgent r a) }.

Lemma agentStreak_snoc h a b e :
  streak (h ++ [(b, e)]) a =
  if decide (b = a) then match e with Some _ => streak h a + 1 | None => 0 end else streak h a.
Proof. unfold streak. by rewrite foldl_app. Qed.

Lemma elem_of_failingAgents h now a :
  a ∈ failingAgents h now <-> exists x, (a, Some x) ∈ h /\ now - windowMs config < x.
Proof.
  unfold failingAgents. rewrite elem_of_remove_dups, list_elem_of_omap. split.
  - intros ([b [x|]] & Hin & E); simpl in E; [|done]. case_decide; simplify_eq. by exists x.
  - intros (x & Hin & Hx). exists (a, Some x). split; [done|]. simpl. by rewrite decide_True.
Qed.

Lemma failsWithin_true now a :
  failsWithin now a = true <-> exists x, x ∈ timestamps a /\ now - windowMs config < x.
Proof.
  unfold failsWithin. rewrite existsb_exists. split; intros (x & Hin & Hx); exists x;
    rewrite <- list_elem_of_In in *; (split; [done|lia]).
Qed.

Lemma getOrCreateAgent_Some r a agent :
  mget (agentFailures r) a = Some agent -> getOrCreateAgent r a = agent.
Proof. unfold getOrCreateAgent. by intros ->. Qed.

(** The agents counted are those of the history. *)
Lemma failing_keys t now r h d a :
  Tracks t r h d -> t <= now ->
  a ∈ mkeys (filter (fun p => failsWithin now p.2 = true) (agentFailures r)) <-> a ∈ failingAgents h now.
Proof.
  intros H Ht. rewrite elem_of_failingAgents. unfold mkeys. rewrite list_elem_of_fmap. split.
  - intros ([b agent] & -> & [Hf Hin]%list_elem_of_filter). apply failsWithin_true in Hf as (x & Hx & Hw).
    exists x. split; [|done]. simpl in *. apply (tr_known _ _ _ _ H).
    by rewrite (getOrCreateAgent_Some r b agent) by (by apply elem_of_mget; [apply H|]).
  - intros (x & Hin & Hw). assert (x ∈ timestamps (getOrCreateAgent r a)) as Hx.
    { apply (tr_recent _ _ _ _ H); [done|lia]. }
    unfold getOrCreateAgent in Hx. destruct (mget (agentFailures r) a) as [agent|] eqn:E.
    + exists (a, agent). split; [done|]. apply list_elem_of_filter. split; [|by apply mget_elem_of].
      apply failsWithin_true. by exists x.
    + by apply elem_of_nil in Hx.
Qed.

Lemma count_failing t now r h d :
  Tracks t r h d -> t <= now -> countFailingAgents r now = Z.of_nat (length (failingAgents h now)).
Proof.
  intros H Ht. unfold countFailingAgents. f_equal. rewrite <- (length_fmap fst).
  apply Permutation_length, NoDup_Permutation.
  - apply (NoDup_mkeys_filter _ (agentFailures r)), H.
  - apply NoDup_remove_dups.
  - intros a. by apply (failing_keys t now r h d).
Qed.

Lemma expired_none t now r h d :
  Tracks t r h d -> t <= now -> allTimestampsExpired r now = bool_decide (failingAgents h now = []).
Proof.
  intros H Ht. unfold allTimestampsExpired. apply eq_true_iff_eq.
  rewrite negb_true_iff, bool_decide_eq_true, <- not_true_iff_false, existsb_exists. split.
  - intros Hn. destruct (failingAgents h now) as [|a l] eqn:E; [done|]. exfalso. apply Hn.
    assert (a ∈ failingAgents h now) as Ha by (rewrite E; left).
    apply (failing_keys t now r h d a H Ht) in Ha as (q & -> & [Hf Hin]%list_elem_of_filter)%list_elem_of_fmap.
    exists q. split; [by apply list_elem_of_In|done].
  - intros E (q & Hin%list_elem_of_In & Hf). assert (q.1 ∈ failingAgents h now) as Ha.
    { apply (failing_keys t now r h d); [done..|]. apply list_elem_of_fmap. exists q. split; [done|].
      by apply list_elem_of_filter. }
    rewrite E in Ha. by apply elem_of_nil in Ha.
Qed.

Lemma fresh_tracks t : Tracks t (mkProvider [] false 0 0) [] false.
Proof.
  split; try done; [constructor|by intros ? ? ?%elem_of_nil|by intros ? ? ?%elem_of_nil].
Qed.

Lemma provider_later t t' r h d : Tracks t r h d -> t <= t' -> Tracks t' r h d.
Proof. intros [H1 H2 H3 H4 H5] Ht. split; try done. intros a x Hin Hx. apply H5; [done|lia]. Qed.

(** Changing the flag or the times of the last events. *)
Lemma tracks_flag t r h d d' lf lr :
  Tracks t r h d -> Tracks t (mkProvider (agentFailures r) d' lf lr) h d'.
Proof. intros [H1 H2 H3 H4 H5]. by split. Qed.

Lemma agent_mset r a agent d lf lr b :
  getOrCreateAgent (mkProvider (mset (agentFailures r) a agent) d lf lr) b =
  if decide (b = a) then agent else getOrCreateAgent r b.
Proof. unfold getOrCreateAgent. simpl. rewrite mget_mset. by case_decide. Qed.

Lemma elem_of_snoc {A} (l : list A) x y : x ∈ l ++ [y] <-> x ∈ l \/ x = y.
Proof. by rewrite elem_of_app, list_elem_of_singleton. Qed.

Lemma tracks_failure t now r h d a :
  Tracks t r h d -> t <= now ->
  let agent := getOrCreateAgent r a in
  Tracks now (mkProvider (mset (agentFailures r) a
      (pruneTimestamps (mkAgent (consecutive agent + 1) (timestamps agent ++ [now])) now))
    (degraded r) now (lastRecovery r)) (h ++ [(a, Some now)]) d.
Proof.
  intros [H1 H2 H3 H4 H5] Ht agent. split.
  - done.
  - simpl. by eauto with jsmap.
  - intros b. rewrite agentStreak_snoc, agent_mset. repeat case_decide; subst; try done.
    cbn [pruneTimestamps consecutive]. by rewrite H3.
  - intros b x. rewrite agent_mset, elem_of_snoc. case_decide as E; [subst b|intros Hx; left; by apply H4].
    cbn [pruneTimestamps timestamps]. intros [_ [Hx| ->]%elem_of_snoc]%list_elem_of_filter; [left|by right].
    by apply H4.
  - intros b x. rewrite agent_mset, elem_of_snoc. intros Hin Hx. case_decide as E.
    + subst b. cbn [pruneTimestamps timestamps]. apply list_elem_of_filter. split; [done|].
      apply elem_of_snoc. destruct Hin as [Hin|?]; [left|right; by simplify_eq]. apply H5; [done|lia].
    + destruct Hin as [Hin|?]; [|simplify_eq]. apply H5; [done|lia].
Qed.

Lemma tracks_success t r h d a :
  Tracks t r h d ->
  Tracks t (match mget (agentFailures r) a with
    | Some agent => mkProvider (mset (agentFailures r) a (mkAgent 0 (timestamps agent)))
                      (degraded r) (lastFailure r) (lastRecovery r)
    | None => r end) (h ++ [(a, None)]) d.
Proof.
  intros [H1 H2 H3 H4 H5]. destruct (mget (agentFailures r) a) as [agent|] eqn:E.
  - split.
    + done.
    + simpl. by eauto with jsmap.
    + intros b. rewrite agentStreak_snoc, agent_mset. repeat case_decide; subst; done.
    + intros b x. rewrite agent_mset, elem_of_snoc. case_decide; [subst b|intros ?; left; by apply H4].
      intros Hx. left. apply H4. by rewrite (getOrCreateAgent_Some _ _ _ E).
    + intros b x. rewrite agent_mset, elem_of_snoc. intros [Hin|?] Hx; [|by simplify_eq].
      case_decide; [subst b|by apply H5]. rewrite <- (getOrCreateAgent_Some _ _ _ E). by apply H5.
  - split; try done.
    + intros b. rewrite agentStreak_snoc. case_decide; [subst b|done]. unfold getOrCreateAgent. by rewrite E.
    + intros b x Hx. apply elem_of_snoc. left. by apply H4.
    + intros b x. rewrite elem_of_snoc. intros [Hin|?] Hx; [by apply H5|by simplify_eq].
Qed.

Lemma mget_fmap_value {V W} (f : V -> W) (m : jsmap string V) k :
  mget ((fun q => (q.1, f q.2)) <$> m) k = f <$> mget m k.
Proof. induction m as [|[k' v] m IH]; simpl; [done|]. by case_decide. Qed.

Lemma provider_prune t now r h d lf lr :
  Tracks t r h d -> t <= now ->
  Tracks now (mkProvider ((fun q => (q.1, pruneTimestamps q.2 now)) <$> agentFailures r) d lf lr) h d.
Proof.
  intros [H1 H2 H3 H4 H5] Ht.
  assert (forall a, getOrCreateAgent (mkProvider ((fun q => (q.1, pruneTimestamps q.2 now)) <$>
    agentFailures r) d lf lr) a = pruneTimestamps (getOrCreateAgent r a) now) as Hg.
  { intros a. unfold getOrCreateAgent. cbn [agentFailures]. rewrite (mget_fmap_value (fun x => pruneTimestamps x now)).
    by destruct (mget (agentFailures r) a). }
  split; try done.
  - simpl. unfold mkeys in *. by rewrite <- list_fmap_compose.
  - intros a. rewrite Hg. simpl. apply H3.
  - intros a x. rewrite Hg. simpl. intros [_ Hx]%list_elem_of_filter. by apply H4.
  - intros a x Hin Hx. rewrite Hg. simpl. apply list_elem_of_filter. split; [done|]. apply H5; [done|lia].
Qed.

(** All providers, in the same order. *)
Definition Refines (t : Z) (st : Monitor) (bk : Book) : Prop :=
  Forall2 (fun q b => q.1 = b.1 /\ Tracks t q.2 b.2.1 b.2.2) st bk.

Lemma refines_get t st bk p :
  Refines t st bk ->
  match mget st p, mget bk p with
  | Some r, Some (h, d) => Tracks t r h d
  | None, None => True
  | _, _ => False
  end.
Proof.
  induction 1 as [|[k r] [k' [h d]] st bk [E HT] _ IH]; simpl; [done|]. simpl in E, HT. subst k'.
  by case_decide.
Qed.

Lemma refines_set t st bk p r h d :
  Refines t st bk -> Tracks t r h d -> Refines t (mset st p r) (mset bk p (h, d)).
Proof.
  intros H HT. induction H as [|[k r'] [k' b] st bk [E HT'] H IH]; simpl.
  { constructor; [done|constructor]. }
  simpl in E, HT'. subst k'. case_decide; constructor; try done.
Qed.

Lemma refines_later t t' st bk : Refines t st bk -> t <= t' -> Refines t' st bk.
Proof.
  intros H Ht. eapply Forall2_impl; [exact H|]. intros q b [E HT]. split; [done|]. by eapply provider_later.
Qed.

Lemma refines_default t st bk p :
  Refines t st bk ->
  Tracks t (getOrCreateProvider st p) (default ([], false) (mget bk p)).1 (default ([], false) (mget bk p)).2.
Proof.
  intros H. apply (refines_get t st bk p) in H. unfold getOrCreateProvider.
  destruct (mget st p), (mget bk p) as [[h d]|]; try done. simpl. apply fresh_tracks.
Qed.

Lemma step_monitor t st bk op :
  Refines t st bk -> t <= timeOf op ->
  (step st op).1 = (specStep bk op).1 /\ Refines (timeOf op) (step st op).2 (specStep bk op).2.
Proof.
  intros H Ht. pose proof (refines_later t (timeOf op) st bk H Ht) as H'.
  destruct op as [p a now|p a now|p now|now]; cbn [timeOf] in *; cbn [step specStep].
  - pose proof (refines_default t st bk p H) as HT. destruct (default ([], false) (mget bk p)) as [h d].
    cbn [fst snd] in HT. pose proof (tracks_failure t now _ h d a HT Ht) as HT'. unfold recordFailure.
    cbn [degraded agentFailures]. cbn zeta in HT'. rewrite (tr_flag _ _ _ _ HT) in HT' |- *.
    rewrite (count_failing now now _ _ _ HT') by lia.
    pose proof (tr_streak _ _ _ _ HT' a) as Hs. rewrite agent_mset, decide_True in Hs by done.
    rewrite <- Hs. destruct d; cbn [negb andb orb].
    + split; [done|]. by apply refines_set.
    + destruct (_ || _); cbn [negb andb orb fst snd]; (split; [done|]); apply refines_set; try done.
      by eapply tracks_flag in HT'.
  - unfold recordSuccess. pose proof (refines_get now st bk p H') as HT.
    destruct (mget st p) as [r|], (mget bk p) as [[h d]|]; try done.
    pose proof (tracks_success now r h d a HT) as HT'. rewrite (tr_flag _ _ _ _ HT').
    destruct d; cbn [fst snd]; (split; [done|]); apply refines_set; try done. by eapply tracks_flag in HT'.
  - unfold isDegraded. pose proof (refines_get now st bk p H') as HT.
    destruct (mget st p) as [r|] eqn:Er, (mget bk p) as [[h d]|] eqn:Eb; try done.
    rewrite (tr_flag _ _ _ _ HT). destruct d; cbn [andb].
    + pose proof (provider_prune now now r h true (lastFailure r) (lastRecovery r) HT ltac:(lia)) as HT'.
      rewrite (expired_none now now _ _ _ HT') by lia.
      destruct (bool_decide _); cbn [fst snd negb]; (split; [done|]); apply refines_set; try done.
      by eapply tracks_flag in HT'.
    + split; [done|]. cbn [fst snd]. by rewrite mset_id.
  - split; [|done]. cbn [fst]. f_equal. unfold getHealthSummary. clear H Ht.
    induction H' as [|[k r] [k' [h d]] st bk [E HT] _ IH]; [done|]. csimpl in *. subst k'.
    rewrite IH, (tr_flag _ _ _ _ HT), (count_failing now now r h d) by (done || lia). done.
Qed.

(** The provider monitor decides on the history it was told.  With a clock
    that does not go back, every answer and every event is the contract's: a
    provider becomes degraded exactly at a failure after which enough distinct
    agents have failed within the window or the failing agent has reached the
    consecutive limit since its last success; it recovers at any success, or
    when it is asked about after no failure lies in the window; and each change
    emits one event.  Pruning timestamps is not observable, and providers do
    not influence each other. *)
Theorem provider_health_refines (ops : list Op) (t : Z) :
  clockFrom t ops = true -> run [] ops = specRun [] ops.
Proof.
  intros Hc. assert (Refines t [] []) as H by constructor. revert t Hc H.
  generalize ([] : Monitor) ([] : Book). induction ops as [|op ops IH]; intros st bk t Hc H; [done|].
  simpl in Hc. apply andb_prop in Hc as [Ht Hc].
  destruct (step_monitor t st bk op H) as [E H']; [lia|]. simpl.
  destruct (step st op) as [a st'], (specStep bk op) as [a' bk']. simpl in *. subst a'. f_equal.
  by apply (IH st' bk' (timeOf op)).
Qed.

End Monitor.

Definition sampleMonitor : ProviderHealthMonitorConfig := mkMonitor 2 3 60000.
Definition sampleOps : list Op :=
  [Fail "anthropic" "a" 0; Fail "openai" "a" 1; Fail "anthropic" "b" 50000; IsDegraded "anthropic" 60001;
   Succeed "anthropic" "c" 60002; Fail "anthropic" "b" 60003; IsDegraded "anthropic" 120003; Summary 120004].

Lemma provider_health_refines_witness :
  concat (events <$> run sampleMonitor [] sampleOps) =
    [EDegraded "anthropic" 2 50000; ERecovered "anthropic" 60002].
Proof.
  rewrite (provider_health_refines sampleMonitor sampleOps 0); [|vm_compute; reflexivity].
  vm_compute. reflexivity.
Defined.

End ProviderHealth.
