(* ===== verification/TtlCache.v ===== *)
(** * The TTL cache

  Models [packages/shared/src/ttl-cache.ts]: an insertion-ordered map of values
  with absolute expiry times, lazy expiry and an optional cap that evicts the
  oldest entry.  Clock reads are arguments.

  The contract is the history of the cache: a key holds what was last stored
  under it, until its lifetime is over or it is deleted. *)

From S2P Require Import Prelude.

Open Scope string_scope.
Open Scope list_scope.
Open Scope Z_scope.

Module TtlCache.
Section Cache.
Context {T : Type}.

Record CacheEntry := mkEntry { value : T; expiresAt : Z }.

Record TTLCacheOptions := mkOptions { ttlMs : Z; maxEntries : option nat }.

Abbreviation Store := (jsmap string CacheEntry).

Definition get (st : Store) (key : string) (now : Z) : option T * Store :=
  match mget st key with
  | None => (None, st)
  | Some e => if expiresAt e <=? now then (None, mdel st key) else (Some (value e), st)
  end.

(** [entryTtlMs] defaults to the option's lifetime. *)
Definition set (o : TTLCacheOptions) (st : Store) (key : string) (v : T)
    (entryTtlMs : option Z) (now : Z) : Store :=
  let st1 :=
    match maxEntries o with
    | Some n =>
      if (n <=? length st)%nat && negb (mhas st key)
      then match st with [] => [] | (oldest, _) :: _ => mdel st oldest end
      else st
    | None => st
    end in
  mset st1 key (mkEntry v (now + default (ttlMs o) entryTtlMs)).

Definition has (st : Store) (key : string) (now : Z) : bool * Store :=
  match mget st key with
  | None => (false, st)
  | Some e => if expiresAt e <=? now then (false, mdel st key) else (true, st)
  end.

Definition del (st : Store) (key : string) : bool * Store := (mhas st key, mdel st key).

Definition clear (st : Store) : Store := [].

Definition size (st : Store) : nat := length st.

(** A consumed iteration yields the live entries and drops the others. *)
Definition entries (st : Store) (now : Z) : list (string * T) * Store :=
  let live := filter (fun p => now < expiresAt p.2) st in
  ((fun p => (p.1, value p.2)) <$> live, live).

(** ** The contract *)

Inductive Op :=
| Get (key : string) (now : Z)
| Set_ (key : string) (v : T) (ttl : option Z) (now : Z)
| Has (key : string) (now : Z)
| Delete (key : string)
| Clear
| Entries (now : Z).

Definition step (o : TTLCacheOptions) (st : Store) (op : Op) : Store :=
  match op with
  | Get k now => (get st k now).2
  | Set_ k v ttl now => set o st k v ttl now
  | Has k now => (has st k now).2
  | Delete k => (del st k).2
  | Clear => clear st
  | Entries now => (entries st now).2
  end.

Definition run (o : TTLCacheOptions) (ops : list Op) : Store := foldl (step o) [] ops.

(** What the history last stored under a key, with its expiry, unless it was
    deleted since; the history is read backwards. *)
Fixpoint storedRev (o : TTLCacheOptions) (k : string) (rev_ops : list Op) : option CacheEntry :=
  match rev_ops with
  | [] => None
  | Set_ k' v ttl now :: l =>
    if decide (k = k') then Some (mkEntry v (now + default (ttlMs o) ttl)) else storedRev o k l
  | Delete k' :: l => if decide (k = k') then None else storedRev o k l
  | Clear :: _ => None
  | _ :: l => storedRev o k l
  end.
Definition stored (o : TTLCacheOptions) (k : string) (ops : list Op) : option CacheEntry :=
  storedRev o k (rev ops).

Definition opTime (op : Op) : option Z :=
  match op with
  | Get _ now | Set_ _ _ _ now | Has _ now | Entries now => Some now
  | Delete _ | Clear => None
  end.

(** No operation of the history happened after [t]. *)
Definition before (t : Z) (ops : list Op) : Prop :=
  forall op n, op ∈ ops -> opTime op = Some n -> n <= t.

(** What a key holds at a time. *)
Definition liveAt (now : Z) (e : option CacheEntry) : option T :=
  e ≫= fun e => if decide (now < expiresAt e) then Some (value e) else None.

Lemma mget_mdel_live now (st : Store) k k' :
  (forall e, mget st k' = Some e -> expiresAt e <= now) ->
  liveAt now (mget (mdel st k') k) = liveAt now (mget st k).
Proof.
  intros H. rewrite mget_mdel. case_decide as E; [|done]. subst k'.
  destruct (mget st k) as [e|]; [|done]. simpl. rewrite decide_False; [done|].
  specialize (H e eq_refl). lia.
Qed.

Lemma mget_filter_live now now' (st : Store) k :
  NoDup (mkeys st) -> now <= now' ->
  liveAt now' (mget (filter (fun p => now < expiresAt p.2) st) k) = liveAt now' (mget st k).
Proof.
  intros Hnd Hn. induction st as [|[k' e] st IH]; [done|].
  apply NoDup_cons in Hnd as [Hk Hnd]. specialize (IH Hnd). rewrite filter_cons. simpl.
  case_decide; simpl.
  - case_decide; [done|by apply IH].
  - case_decide as E; [|by apply IH]. subst k'. rewrite IH.
    assert (mget st k = None) as -> by by apply mget_None. simpl. rewrite decide_False; [done|lia].
Qed.

Lemma nodup_step o (st : Store) op : NoDup (mkeys st) -> NoDup (mkeys (step o st op)).
Proof.
  intros H. destruct op as [k now|k v ttl now|k now|k| |now]; simpl.
  - unfold get. repeat case_match; simpl; auto with jsmap.
  - unfold set. apply NoDup_mkeys_mset. repeat case_match; subst; auto with jsmap.
    all: try constructor.
  - unfold has. repeat case_match; simpl; auto with jsmap.
  - by auto with jsmap.
  - constructor.
  - eapply sublist_NoDup; [exact H|]. apply fmap_sublist, sublist_filter.
Qed.

Lemma nodup_run o ops : NoDup (mkeys (run o ops)).
Proof.
  unfold run. assert (forall st, NoDup (mkeys st) -> NoDup (mkeys (foldl (step o) st ops))) as H.
  { induction ops as [|op ops IH]; intros st Hst; simpl; [done|]. apply IH, nodup_step, Hst. }
  apply H. constructor.
Qed.

(** Reading operations drop only what is already dead. *)
Lemma step_live o (st : Store) op k now :
  maxEntries o = None -> NoDup (mkeys st) ->
  (forall n, opTime op = Some n -> n <= now) ->
  liveAt now (mget (step o st op) k) =
  liveAt now match op with
    | Set_ k' v ttl n =>
      if decide (k = k') then Some (mkEntry v (n + default (ttlMs o) ttl)) else mget st k
    | Delete k' => if decide (k = k') then None else mget st k
    | Clear => None
    | _ => mget st k
    end.
Proof.
  intros Ho Hnd Ht. destruct op as [k' n|k' v ttl n|k' n|k'| |n]; simpl in *.
  - unfold get. destruct (mget st k') as [e|] eqn:E; [|done].
    destruct (_ <=? _) eqn:El; [|done]. apply mget_mdel_live. specialize (Ht n eq_refl).
    intros e' He'. simplify_eq. lia.
  - unfold set. rewrite Ho, mget_mset. done.
  - unfold has. destruct (mget st k') as [e|] eqn:E; [|done].
    destruct (_ <=? _) eqn:El; [|done]. apply mget_mdel_live. specialize (Ht n eq_refl).
    intros e' He'. simplify_eq. lia.
  - by rewrite mget_mdel.
  - done.
  - apply mget_filter_live; [done|]. by apply Ht.
Qed.

Lemma run_live o ops k now :
  maxEntries o = None -> before now ops ->
  liveAt now (mget (run o ops) k) = liveAt now (stored o k ops).
Proof.
  intros Ho. unfold stored. induction ops as [|op ops IH] using rev_ind; intros Hb; [done|].
  unfold run in *. rewrite foldl_app, rev_app_distr. simpl.
  rewrite step_live; [|done|apply nodup_run|intros n Hn; apply (Hb op n); [set_solver|done]].
  specialize (IH (fun op n H => Hb op n (proj2 (elem_of_app _ _ _) (or_introl H)))).
  destruct op; simpl; try case_decide; done.
Qed.

(** ** The cap *)

Lemma size_step o (st : Store) op n :
  maxEntries o = Some n -> NoDup (mkeys st) -> (length st <= Nat.max 1 n)%nat ->
  (length (step o st op) <= Nat.max 1 n)%nat.
Proof.
  intros Ho Hnd Hs. destruct op as [k now|k v ttl now|k now|k| |now]; simpl.
  - unfold get. repeat case_match; simpl; pose proof (length_mdel st k); lia.
  - unfold set. rewrite Ho. unfold mhas.
    destruct (mget st k) as [e|] eqn:E.
    + rewrite andb_false_r, length_mset_in; [done|]. apply mget_is_Some. by eexists.
    + rewrite andb_true_r. apply mget_None in E. destruct (_ <=? _)%nat eqn:El.
      * apply Nat.leb_le in El. destruct st as [|[k' e'] st']; [simpl; lia|].
        rewrite length_mset_notin; [|rewrite elem_of_mkeys_mdel; tauto].
        rewrite length_mdel_in; [lia|done|]. simpl. left.
      * apply Nat.leb_gt in El. rewrite length_mset_notin by done. lia.
  - unfold has. repeat case_match; simpl; pose proof (length_mdel st k); lia.
  - pose proof (length_mdel st k). lia.
  - lia.
  - pose proof (length_filter (fun p : string * CacheEntry => now < expiresAt p.2) st). lia.
Qed.

Lemma size_run o ops n : maxEntries o = Some n -> (length (run o ops) <= Nat.max 1 n)%nat.
Proof.
  intros Ho. unfold run. induction ops as [|op ops IH] using rev_ind; [simpl; lia|].
  rewrite foldl_app. simpl. apply size_step; [done|apply nodup_run|done].
Qed.

(** The cache keeps its contract.  Without a cap, a read at a time no
    earlier than any operation of the history returns exactly what was last
    stored under the key, when its own lifetime (or the default one) is not
    over and it was not deleted since, and nothing otherwise; reads, scans and
    lazy expiry in between never lose or revive an entry.  With a cap, the
    number of entries never exceeds it (or one, for a cap of zero). *)
Theorem ttlcache_contract (o : TTLCacheOptions) (ops : list Op) :
  (forall n, maxEntries o = Some n -> (size (run o ops) <= Nat.max 1 n)%nat) /\
  (maxEntries o = None -> forall k now, before now ops ->
   (get (run o ops) k now).1 = liveAt now (stored o k ops) /\
   (has (run o ops) k now).1 = bool_decide (is_Some (liveAt now (stored o k ops)))).
Proof.
  split; [intros n; apply size_run|]. intros Ho k now Hb. rewrite <- run_live by done.
  unfold get, has. destruct (mget (run o ops) k) as [e|]; [|done]. simpl.
  destruct (_ <=? _) eqn:E; simpl.
  - rewrite decide_False by lia. done.
  - rewrite decide_True by lia. done.
Qed.

End Cache.

Arguments CacheEntry : clear implicits.

Lemma ttlcache_contract_witness :
  let o := mkOptions 100 None in
  let ops := [Set_ "a" 1 None 0; Get "a" 50; Set_ "a" 2 (Some 10) 60] in
  maxEntries o = None /\
  (get (run o ops) "a" 69).1 = Some 2 /\ (get (run o ops) "a" 70).1 = None.
Proof.
  split; [reflexivity|].
  assert (before 69 [Set_ "a" 1 None 0; Get "a" 50; Set_ "a" 2 (Some 10) 60]) as H1
    by (intros op n Hop Hn; set_unfold in Hop; destruct_or?; simplify_eq/=; lia).
  assert (before 70 [Set_ "a" 1 None 0; Get "a" 50; Set_ "a" 2 (Some 10) 60]) as H2
    by (intros op n Hop Hn; set_unfold in Hop; destruct_or?; simplify_eq/=; lia).
  split.
  - exact (proj1 (proj2 (ttlcache_contract (mkOptions 100 None) _) eq_refl "a" 69 H1)).
  - exact (proj1 (proj2 (ttlcache_contract (mkOptions 100 None) _) eq_refl "a" 70 H2)).
Defined.

End TtlCache.
