(* ===== verification/CanonicalJson.v ===== *)
(** * JSON text and the canonical snapshot of approval parameters

  Models [JSON.stringify] on strings and [packages/core/src/approval/approval-fingerprint.ts]:
  [snapshotValue] takes an untrusted value apart, rejects what is not plain
  JSON, and builds a clone together with its canonical text, object keys sorted.

  Strings are sequences of 8-bit code units and numbers are integers.  What the
  structural inspection of an array or object finds (proxies, accessors, odd
  prototypes, symbol keys, holes) is a flag of the value; values are trees, so
  the cycle check never fires. *)

From Stdlib Require Import Ascii.
From S2P Require Import Prelude.

Open Scope string_scope.
Open Scope list_scope.
Open Scope nat_scope.

Module CanonicalJson.

(** ** JSON.stringify on strings *)

Definition dq : string := String "034" "".

Definition hexDigit (n : nat) : ascii :=
  if n <? 10 then ascii_of_nat (48 + n) else ascii_of_nat (87 + n).

Definition escapeChar (c : ascii) : string :=
  let n := nat_of_ascii c in
  if n =? 34 then String "\" dq
  else if n =? 92 then "\\"
  else if n =? 8 then "\b"
  else if n =? 9 then "\t"
  else if n =? 10 then "\n"
  else if n =? 12 then "\f"
  else if n =? 13 then "\r"
  else if n <? 32 then "\u00" +:+ String (hexDigit (n / 16)) (String (hexDigit (n mod 16)) "")
  else String c "".

Fixpoint escape (s : string) : string :=
  match s with
  | "" => ""
  | String c s => escapeChar c +:+ escape s
  end.

Definition stringify (s : string) : string := dq +:+ escape s +:+ dq.

(** Joining with commas. *)
Fixpoint join (l : list string) : string :=
  match l with
  | [] => ""
  | [x] => x
  | x :: l => x +:+ "," +:+ join l
  end.

(** [JSON.stringify] of an array of strings, [null] for a missing one. *)
Definition stringifyArray (l : list (option string)) : string :=
  "[" +:+ join ((fun o => match o with Some s => stringify s | None => "null" end) <$> l) +:+ "]".

(** ** Escaping can be undone *)

(** A reader of escaped text up to the closing quote; it inverts [escape]. *)
Definition hexValue (c : ascii) : nat :=
  let n := nat_of_ascii c in if n <? 58 then n - 48 else n - 87.

Fixpoint readString (s : string) : option (string * string) :=
  match s with
  | "" => None
  | String c s1 =>
    if nat_of_ascii c =? 34 then Some ("", s1)
    else if nat_of_ascii c =? 92 then
      match s1 with
      | String e s2 =>
        if nat_of_ascii e =? 117 then
          match s2 with
          | String _ (String _ (String h (String l s3))) =>
            (fun p => (String (ascii_of_nat (16 * hexValue h + hexValue l)) p.1, p.2)) <$> readString s3
          | _ => None
          end
        else
          let n := nat_of_ascii e in
          let c' := if n =? 98 then ascii_of_nat 8 else if n =? 116 then ascii_of_nat 9
            else if n =? 110 then ascii_of_nat 10 else if n =? 102 then ascii_of_nat 12
            else if n =? 114 then ascii_of_nat 13 else e in
          (fun p => (String c' p.1, p.2)) <$> readString s2
      | "" => None
      end
    else (fun p => (String c p.1, p.2)) <$> readString s1
  end.

Lemma readString_escapeChar c s :
  readString (escapeChar c +:+ s) = (fun p => (String c p.1, p.2)) <$> readString s.
Proof. destruct c as [[] [] [] [] [] [] [] []]; reflexivity. Qed.

Lemma readString_escape s rest : readString (escape s +:+ dq +:+ rest) = Some (s, rest).
Proof.
  induction s as [|c s IH]; [done|]. simpl. rewrite app_assoc_str, readString_escapeChar, IH. done.
Qed.

Lemma stringify_inj s t a b : stringify s +:+ a = stringify t +:+ b -> s = t /\ a = b.
Proof.
  unfold stringify. rewrite !app_assoc_str. intros E%(inj (String.append dq)).
  assert (readString (escape s +:+ dq +:+ a) = readString (escape t +:+ dq +:+ b)) as H by by rewrite E.
  rewrite !readString_escape in H. by injection H.
Qed.

Lemma stringify_head s : exists r, stringify s = String "034" r.
Proof. by eexists. Qed.

(** ** Values *)

(** An untrusted JavaScript value.  [VNumber None] is not finite, [VOther] is
    any other non-object; [safe] tells whether the inspection of an array or
    object found only plain enumerable data; an object entry with [None] has
    the value [undefined]. *)
Inductive JsValue :=
| VNull
| VString (s : string)
| VBoolean (b : bool)
| VNumber (n : option Z)
| VOther
| VArray (safe : bool) (items : list JsValue)
| VObject (safe : bool) (entries : list (string * option JsValue)).

(** The frozen clone. *)
Inductive Json :=
| JNull
| JString (s : string)
| JBoolean (b : bool)
| JNumber (n : Z)
| JArray (items : list Json)
| JObject (entries : list (string * Json)).

Abbreviation Snapshot := (Result (Json * string) string).

(** The first error, or all values. *)
Fixpoint collect {A} (l : list (A * Snapshot)) : Result (list (A * (Json * string))) string :=
  match l with
  | [] => Ok []
  | (_, Err e) :: _ => Err e
  | (a, Ok v) :: l =>
    match collect l with
    | Ok vs => Ok ((a, v) :: vs)
    | Err e => Err e
    end
  end.

Fixpoint insertKey {A} (k : string) (v : A) (l : list (string * A)) : list (string * A) :=
  match l with
  | [] => [(k, v)]
  | (k', v') :: l' => if String.leb k k' then (k, v) :: l else (k', v') :: insertKey k v l'
  end.

(** The keys in order. *)
Definition sortKeys {A} (l : list (string * A)) : list (string * A) :=
  foldr (fun p acc => insertKey p.1 p.2 acc) [] l.

(** [snapshotValue] of the source sorts an object's entries before it takes
    their snapshots; taking the snapshots first and sorting the results gives
    the same sequence. *)
Fixpoint snapshotValue (v : JsValue) : Snapshot :=
  match v with
  | VNull => Ok (JNull, "null")
  | VString s => Ok (JString s, stringify s)
  | VBoolean b => Ok (JBoolean b, if b then "true" else "false")
  | VNumber (Some n) => Ok (JNumber n, pretty n)
  | VNumber None => Err "Approval parameters contain a non-finite number"
  | VOther => Err "Approval parameters contain a non-JSON value"
  | VArray false _ => Err "Approval parameters contain an unsafe array"
  | VArray true items =>
    match collect ((fun v => (tt, snapshotValue v)) <$> items) with
    | Err e => Err e
    | Ok vs => Ok (JArray ((fun p => p.2.1) <$> vs), "[" +:+ join ((fun p => p.2.2) <$> vs) +:+ "]")
    end
  | VObject false _ => Err "Approval parameters contain an unsafe object"
  | VObject true entries =>
    let snaps := omap (fun p => match p.2 with
      | Some v => Some (p.1, snapshotValue v) | None => None end) entries in
    match collect (sortKeys snaps) with
    | Err e => Err e
    | Ok vs =>
      Ok (JObject ((fun p => (p.1, p.2.1)) <$> vs),
          "{" +:+ join ((fun p => stringify p.1 +:+ ":" +:+ p.2.2) <$> vs) +:+ "}")
    end
  end.

(** Parameters must be a record. *)
Definition snapshotApprovalParams (raw : JsValue) : Result (list (string * Json) * string) string :=
  match snapshotValue raw with
  | Err e => Err e
  | Ok (JObject es, c) => Ok (es, c)
  | Ok _ => Err "Approval parameters must be a record"
  end.

(** ** The canonical text determines the value *)

Fixpoint render (j : Json) : string :=
  match j with
  | JNull => "null"
  | JString s => stringify s
  | JBoolean b => if b then "true" else "false"
  | JNumber n => pretty n
  | JArray items => "[" +:+ join (render <$> items) +:+ "]"
  | JObject entries =>
    "{" +:+ join ((fun p => stringify p.1 +:+ ":" +:+ render p.2) <$> entries) +:+ "}"
  end.

(** Induction through the nested lists. *)
Section JsonInd.
Variable P : Json -> Prop.
Hypotheses (Hnull : P JNull) (Hstr : forall s, P (JString s)) (Hbool : forall b, P (JBoolean b))
  (Hnum : forall n, P (JNumber n)) (Harr : forall l, Forall P l -> P (JArray l))
  (Hobj : forall l, Forall (fun p => P p.2) l -> P (JObject l)).
Fixpoint Json_nested_ind (j : Json) : P j :=
  match j with
  | JNull => Hnull
  | JString s => Hstr s
  | JBoolean b => Hbool b
  | JNumber n => Hnum n
  | JArray l => Harr l ((fix go l : Forall P l :=
      match l with
      | [] => Forall_nil_2 _
      | x :: l => Forall_cons_2 _ _ _ (Json_nested_ind x) (go l)
      end) l)
  | JObject l => Hobj l ((fix go l : Forall (fun p => P p.2) l :=
      match l with
      | [] => Forall_nil_2 _
      | x :: l => Forall_cons_2 _ _ _ (Json_nested_ind x.2) (go l)
      end) l)
  end.
End JsonInd.

Section JsValueInd.
Variable P : JsValue -> Prop.
Hypotheses (Hnull : P VNull) (Hstr : forall s, P (VString s)) (Hbool : forall b, P (VBoolean b))
  (Hnum : forall n, P (VNumber n)) (Hoth : P VOther)
  (Harr : forall b l, Forall P l -> P (VArray b l))
  (Hobj : forall b l, Forall (fun p => from_option P True p.2) l -> P (VObject b l)).
Fixpoint JsValue_nested_ind (v : JsValue) : P v :=
  match v with
  | VNull => Hnull
  | VString s => Hstr s
  | VBoolean b => Hbool b
  | VNumber n => Hnum n
  | VOther => Hoth
  | VArray b l => Harr b l ((fix go l : Forall P l :=
      match l with
      | [] => Forall_nil_2 _
      | x :: l => Forall_cons_2 _ _ _ (JsValue_nested_ind x) (go l)
      end) l)
  | VObject b l => Hobj b l ((fix go l : Forall (fun p => from_option P True p.2) l :=
      match l with
      | [] => Forall_nil_2 _
      | (k, Some w) :: l => Forall_cons_2 _ (k, Some w) _ (JsValue_nested_ind w) (go l)
      | (k, None) :: l => Forall_cons_2 _ (k, None) _ I (go l)
      end) l)
  end.
End JsValueInd.

Lemma collect_render {A} (l : list (A * Snapshot)) vs :
  (forall a j c, (a, Ok (j, c)) ∈ l -> c = render j) -> collect l = Ok vs ->
  Forall (fun p => p.2.2 = render p.2.1) vs.
Proof.
  revert vs. induction l as [|[a [[j c]|e]] l IH]; simpl; intros vs Hl H; [|..|done].
  - injection H as <-. constructor.
  - destruct (collect l) as [vs'|]; [|done]. injection H as <-. constructor.
    + simpl. apply (Hl a). left.
    + apply IH; [|done]. intros a' j' c' Hin. apply (Hl a'). by right.
Qed.

Lemma insertKey_perm {A} k (v : A) l : insertKey k v l ≡ₚ (k, v) :: l.
Proof.
  induction l as [|[k' v'] l IH]; simpl; [done|]. destruct (String.leb k k'); [done|].
  rewrite IH. apply Permutation_swap.
Qed.

Lemma sortKeys_perm {A} (l : list (string * A)) : sortKeys l ≡ₚ l.
Proof.
  induction l as [|[k v] l IH]; simpl; [done|]. rewrite insertKey_perm. by rewrite IH.
Qed.

Lemma map_ext_Forall {A B} (f g : A -> B) l : Forall (fun x => f x = g x) l -> f <$> l = g <$> l.
Proof. induction 1; csimpl; congruence. Qed.

(** The text that comes with a clone is the clone's text. *)
Lemma snapshotValue_render v j c : snapshotValue v = Ok (j, c) -> c = render j.
Proof.
  revert j c. induction v as [|s|b|n| |sf l IH|sf l IH] using JsValue_nested_ind; intros j c; simpl.
  - by intros [= <- <-].
  - by intros [= <- <-].
  - by intros [= <- <-].
  - destruct n; [|done]. by intros [= <- <-].
  - done.
  - destruct sf; [|done]. destruct (collect _) as [vs|] eqn:E; [|done]. intros [= <- <-].
    apply collect_render in E.
    + simpl. f_equal. f_equal. f_equal. rewrite <- list_fmap_compose. by apply map_ext_Forall.
    + intros a j c (v & [= -> Hv] & Hin)%list_elem_of_fmap. rewrite Forall_forall in IH.
      symmetry in Hv. by apply (IH v Hin).
  - destruct sf; [|done]. destruct (collect _) as [vs|] eqn:E; [|done]. intros [= <- <-].
    apply collect_render in E.
    + simpl. f_equal. f_equal. f_equal. rewrite <- list_fmap_compose. apply map_ext_Forall.
      eapply Forall_impl; [exact E|]. intros [k [j c]]. simpl. by intros ->.
    + intros a j c Hin. rewrite sortKeys_perm in Hin.
      apply list_elem_of_omap in Hin as ([k [v|]] & Hin & Hv); simpl in Hv; [|done].
      injection Hv as <- Hv. rewrite Forall_forall in IH. by apply (IH _ Hin).
Qed.

(** Text that can follow a value: it does not continue a numeral. *)
Abbreviation stops r := (str_stop isNumeralChar r).

Definition Decodes {A} (f : A -> string) (x : A) : Prop :=
  forall y r r', stops r -> stops r' -> f x +:+ r = f y +:+ r' -> x = y /\ r = r'.

Lemma join_cons x l t :
  join (x :: l) +:+ t = x +:+ (match l with [] => t | _ => "," +:+ join l +:+ t end).
Proof. destruct l; simpl; [done|]. by rewrite !app_assoc_str. Qed.

(** Comma-separated items up to a closing bracket. *)
Lemma join_inj {A} (f : A -> string) (close : ascii) (l l' : list A) r r' :
  close <> ","%char -> isNumeralChar close = false ->
  (forall y, exists c t, f y = String c t /\ c <> close) ->
  Forall (Decodes f) l ->
  join (f <$> l) +:+ String close r = join (f <$> l') +:+ String close r' -> l = l' /\ r = r'.
Proof.
  intros Hc Hn Hf HF. revert l' r r'. induction HF as [|x l Hx HF IH]; intros l' r r'.
  - destruct l' as [|y l']; rewrite ?fmap_nil, ?fmap_cons, ?join_cons; cbn [join]; rewrite app_nil;
      [by intros [= ->]|].
    destruct (Hf y) as (c & t & -> & Hne). intros [= -> _]. done.
  - destruct l' as [|y l']; rewrite ?fmap_nil, ?fmap_cons, ?join_cons.
    + cbn [join]. rewrite app_nil. destruct (Hf x) as (c & t & -> & Hne). intros [= -> _]. done.
    + intros E. apply Hx in E as [-> E].
      * destruct l as [|x2 l], l' as [|y2 l']; rewrite ?fmap_nil, ?fmap_cons in E, IH.
        -- by injection E as ->.
        -- injection E as E _. done.
        -- injection E as E _. done.
        -- apply (inj (String.append ",")) in E.
           destruct (IH (y2 :: l') r r') as [-> ->]; [by rewrite fmap_cons|done].
      * by destruct l.
      * by destruct l'.
Qed.

Lemma pretty_Z_head (n : Z) : exists c t, pretty n = String c t /\ isNumeralChar c = true.
Proof.
  pose proof (pretty_Z_numeral n) as H. destruct (pretty n) as [|c t] eqn:E.
  - exfalso. destruct n as [|p|p]; [done|..|done].
    change (pretty (Z.pos p)) with (pretty (N.pos p)) in E. unfold pretty, pretty_N in E.
    rewrite decide_False in E by done.
    assert (forall x s, s <> "" -> pretty_N_go x s <> "") as Hne.
    { clear. intros x. induction (N.lt_wf_0 x) as [x _ IH]; intros s Hs.
      assert (x = 0 ∨ 0 < x)%N as [->|?] by lia; [by rewrite pretty_N_go_0|].
      rewrite pretty_N_go_step by done. apply IH; [by apply N.div_lt|done]. }
    rewrite pretty_N_go_step in E by done. by eapply Hne in E.
  - destruct H as [H _]. by exists c, t.
Qed.

Lemma render_head j : exists c t, render j = String c t /\
  match j with
  | JNull => c = "n"%char
  | JString _ => c = "034"%char
  | JBoolean b => c = if b then "t"%char else "f"%char
  | JNumber _ => isNumeralChar c = true
  | JArray _ => c = "["%char
  | JObject _ => c = "{"%char
  end.
Proof.
  destruct j as [|s|b|n|l|l]; simpl; try (by eexists _, _).
  - destruct b; by eexists _, _.
  - apply pretty_Z_head.
Qed.

(** The kind of a value shows in its first character. *)
Definition kind (j : Json) : nat :=
  match j with
  | JNull => 0 | JString _ => 1 | JBoolean _ => 2 | JNumber _ => 3 | JArray _ => 4 | JObject _ => 5
  end.

Definition kindOf (c : ascii) : nat :=
  if isNumeralChar c then 3
  else if ascii_dec c "n" then 0
  else if ascii_dec c "034" then 1
  else if ascii_dec c "[" then 4
  else if ascii_dec c "{" then 5
  else 2.

Lemma render_kind j : exists c t, render j = String c t /\ kindOf c = kind j.
Proof.
  destruct (render_head j) as (c & t & E & Hc). exists c, t. split; [done|].
  destruct j as [|s|[]|n|l|l]; simpl in Hc; try (by subst). unfold kindOf. by rewrite Hc.
Qed.

Lemma kind_eq j j' r r' : render j +:+ r = render j' +:+ r' -> kind j = kind j'.
Proof.
  destruct (render_kind j) as (c & t & -> & <-), (render_kind j') as (c' & t' & -> & <-).
  by intros [= -> _].
Qed.

Lemma render_Decodes j : Decodes render j.
Proof.
  unfold Decodes. induction j as [|s|b|n|l IH|l IH] using Json_nested_ind; intros j' r r' Hr Hr' E.
  all: pose proof (kind_eq _ _ _ _ E) as Hk; destruct j' as [|s'|b'|n'|l'|l']; try done; clear Hk.
  - simpl in E. by simplify_eq.
  - apply stringify_inj in E as [-> ->]. done.
  - destruct b, b'; simpl in E; by simplify_eq.
  - simpl in E. apply (str_split isNumeralChar) in E as [E ->]; try done;
      try apply pretty_Z_numeral. by simplify_eq.
  - simpl in E. rewrite !app_assoc_str in E. injection E as E.
    destruct (join_inj render "]" l l' r r') as [-> ->]; [done|done| |exact IH|exact E|done].
    intros y. destruct (render_head y) as (c' & t' & Ey & Hy). exists c', t'. split; [done|].
    intros ->. by destruct y as [| |[]| | |].
  - simpl in E. rewrite !app_assoc_str in E. injection E as E.
    destruct (join_inj (fun p => stringify p.1 +:+ ":" +:+ render p.2) "}" l l' r r') as [-> ->];
      [done|done| | |exact E|done]; [intros y; by eexists _, _|].
    eapply Forall_impl; [exact IH|]. intros [k v] Hv [k' v'] r1 r1' H1 H1' E1. simpl in *.
    rewrite !app_assoc_str in E1. apply stringify_inj in E1 as [-> E1].
    apply (inj (String.append ":")) in E1. apply Hv in E1 as [-> ->]; done.
Qed.

(** ** Arrays of optional strings *)

Definition optionText (o : option string) : string :=
  match o with Some s => stringify s | None => "null" end.

Lemma optionText_decodes o : Decodes optionText o.
Proof.
  intros o' r r' _ _. destruct o as [s|], o' as [s'|]; simpl.
  - intros [-> ->]%stringify_inj. done.
  - done.
  - done.
  - intros E%(inj (String.append "null")). by subst.
Qed.

Lemma stringifyArray_inj l l' : stringifyArray l = stringifyArray l' -> l = l'.
Proof.
  unfold stringifyArray. intros E%(inj (String.append "[")).
  destruct (join_inj optionText "]" l l' "" "") as [-> _]; try done.
  - intros [s|]; by eexists _, _.
  - apply Forall_forall. intros o _. apply optionText_decodes.
Qed.

(** ** Key order does not matter *)

Fixpoint Ordered {A} (l : list (string * A)) : Prop :=
  match l with
  | [] => True
  | (k, _) :: l => Forall (fun p => (k ≤ p.1)%string) l /\ Ordered l
  end.

Lemma insertKey_ordered {A} k (v : A) l : Ordered l -> Ordered (insertKey k v l).
Proof.
  induction l as [|[k' v'] l IH]; simpl; [done|]. intros [Hl Ho].
  destruct (String.leb k k') eqn:E.
  - simpl. split; [|done]. constructor; [by apply Is_true_true|].
    eapply Forall_impl; [exact Hl|]. intros p Hp. simpl in *. etrans; [|exact Hp].
    by apply Is_true_true.
  - simpl. split; [|by apply IH]. rewrite insertKey_perm. constructor; [|done].
    destruct (String.leb_total k k') as [?|?]; [congruence|]. by apply Is_true_true.
Qed.

Lemma sortKeys_ordered {A} (l : list (string * A)) : Ordered (sortKeys l).
Proof. induction l as [|[k v] l IH]; simpl; [done|]. by apply insertKey_ordered. Qed.

Lemma Ordered_unique {A} (l l' : list (string * A)) :
  NoDup l.*1 -> Ordered l -> Ordered l' -> l ≡ₚ l' -> l = l'.
Proof.
  revert l'. induction l as [|[k v] l IH]; intros l' Hnd Ho Ho' Hp.
  - by apply Permutation_nil_l in Hp.
  - destruct l' as [|[k' v'] l']; [by apply Permutation_nil_r in Hp|].
    rewrite fmap_cons in Hnd. apply NoDup_cons in Hnd as [Hk Hnd]. simpl in *.
    destruct Ho as [Ha Ho], Ho' as [Ha' Ho'].
    assert ((k, v) = (k', v')) as E.
    { assert ((k, v) ∈ (k', v') :: l') as Hin by (rewrite <- Hp; left).
      assert ((k', v') ∈ (k, v) :: l) as Hin' by (rewrite Hp; left).
      apply elem_of_cons in Hin as [?|Hin]; [done|].
      apply elem_of_cons in Hin' as [?|Hin']; [done|].
      rewrite Forall_forall in Ha, Ha'. specialize (Ha _ Hin'). specialize (Ha' _ Hin). simpl in *.
      assert (k = k') as -> by by apply (anti_symm String.le).
      exfalso. apply Hk. apply list_elem_of_fmap. by exists (k', v'). }
    injection E as <- <-. f_equal. apply IH; try done. by apply (Permutation_cons_inv Hp).
Qed.

Lemma sortKeys_unique {A} (l l' : list (string * A)) :
  NoDup l.*1 -> l ≡ₚ l' -> sortKeys l = sortKeys l'.
Proof.
  intros Hnd Hp. apply Ordered_unique; try apply sortKeys_ordered.
  - by rewrite sortKeys_perm.
  - by rewrite !sortKeys_perm.
Qed.

Lemma omap_keys_nodup {A B} (l : list (string * A)) (g : string * A -> option (string * B)) :
  (forall p q, g p = Some q -> q.1 = p.1) -> NoDup l.*1 -> NoDup (omap g l).*1.
Proof.
  intros Hg. induction l as [|p l IH]; csimpl; [constructor|].
  intros [Hp Hnd]%NoDup_cons. destruct (g p) as [q|] eqn:E; [|by apply IH].
  csimpl. constructor; [|by apply IH]. rewrite (Hg _ _ E).
  intros (q' & Eq & Hq)%list_elem_of_fmap. apply list_elem_of_omap in Hq as (p' & Hp' & E').
  apply Hp. apply list_elem_of_fmap. exists p'. split; [|done]. by rewrite Eq, (Hg _ _ E').
Qed.

(** The canonical text is the identity of a parameter value.  Two accepted
    values have the same text exactly when their frozen clones are the same
    JSON value, whatever the strings in them contain; and listing the entries
    of an object in another order changes neither clone nor text. *)
Theorem canonical_identity (v v' : JsValue) (j j' : Json) (c c' : string) :
  snapshotValue v = Ok (j, c) -> snapshotValue v' = Ok (j', c') ->
  (c = c' <-> j = j') /\
  (forall es es', v = VObject true es -> v' = VObject true es' -> NoDup es.*1 -> es ≡ₚ es' ->
   j = j' /\ c = c').
Proof.
  intros H H'. split.
  - apply snapshotValue_render in H as ->, H' as ->. split; [|by intros ->].
    intros E. destruct (render_Decodes j j' "" "") as [-> _]; try done.
    by rewrite E.
  - intros es es' -> -> Hnd Hp. assert (Ok (j, c) = Ok (j', c') :> Snapshot) as E; [|by simplify_eq].
    rewrite <- H, <- H'. simpl. erewrite sortKeys_unique; [done| |].
    + apply omap_keys_nodup; [|done].
      intros [k [w|]] q; simpl; [|done]. by intros [= <-].
    + by rewrite Hp.
Qed.

Definition sampleParams : JsValue :=
  VObject true [("path", Some (VString "a")); ("force", Some (VBoolean true)); ("x", None)].
Definition sampleParams' : JsValue :=
  VObject true [("force", Some (VBoolean true)); ("x", None); ("path", Some (VString "a"))].

Lemma canonical_identity_witness :
  exists j c, snapshotValue sampleParams = Ok (j, c) /\ snapshotValue sampleParams' = Ok (j, c).
Proof.
  destruct (snapshotValue sampleParams) as [[j c]|] eqn:E; [|discriminate].
  destruct (snapshotValue sampleParams') as [[j' c']|] eqn:E'; [|discriminate].
  exists j, c. split; [done|].
  destruct (canonical_identity _ _ _ _ _ _ E E') as [_ H].
  destruct (H _ _ eq_refl eq_refl) as [-> ->]; [repeat constructor; set_solver|..|done].
  apply (Permutation_app_comm [("path", Some (VString "a"))]
    [("force", Some (VBoolean true)); ("x", None)]).
Defined.

End CanonicalJson.
