(* ===== verification/ApprovalPolicy.v ===== *)
(** * The operator's approval policy

  Models [packages/core/src/approval/approval-policy.ts]: which configured rule
  resolves a request without asking a human.  A pattern is split at its
  wildcards, every other character is literal, and the regular expression built
  from it is anchored.  A wildcard becomes [.*], which in JavaScript stops at
  line terminators. *)

From Stdlib Require Import Ascii.
From S2P Require Import Prelude.

Open Scope string_scope.
Open Scope list_scope.
Open Scope nat_scope.

Module ApprovalPolicy.

(** ** Data *)

Inductive UserTrustLevel := guest | user | admin.
Inductive Mode := auto | deny | require.

#[export] Instance UserTrustLevel_eq_dec : EqDecision UserTrustLevel.
Proof. solve_decision. Defined.
#[export] Instance Mode_eq_dec : EqDecision Mode.
Proof. solve_decision. Defined.

Record ApprovalRule := mkRule {
  actionPattern : string;
  mode : Mode;
  timeoutMs : option Z;
  minTrustLevel : UserTrustLevel }.

Record Policy := mkPolicy { defaultMode : Mode; rules : list ApprovalRule }.

Record ApprovalPolicyDecision := mkDecision {
  decisionMode : Mode;
  matchedPattern : option string;
  decisionTimeoutMs : option Z }.

(** ** Matching *)

Definition star : ascii := "*".

(** [s.split("*")] *)
Fixpoint splitStar (s : string) : list string :=
  match s with
  | "" => [""]
  | String c s =>
    if ascii_dec c star then "" :: splitStar s
    else match splitStar s with
         | seg :: segs => String c seg :: segs
         | [] => [String c ""]
         end
  end.

Definition lineTerminator (c : ascii) : bool :=
  let n := nat_of_ascii c in (n =? 10) || (n =? 13).

(** Consume a literal prefix. *)
Fixpoint stripPrefix (p a : string) : option string :=
  match p, a with
  | "", a => Some a
  | String c p, String d a => if ascii_dec c d then stripPrefix p a else None
  | String _ _, "" => None
  end.

(** [.*] followed by [k]. *)
Fixpoint dotStar (k : string -> bool) (a : string) : bool :=
  k a || match a with
         | "" => false
         | String c a => negb (lineTerminator c) && dotStar k a
         end.

(** The anchored expression [^seg1.*seg2 ... .*segN$]. *)
Fixpoint matchSegments (segs : list string) (a : string) : bool :=
  match segs with
  | [] => false
  | [seg] => match stripPrefix seg a with Some "" => true | _ => false end
  | seg :: segs =>
    match stripPrefix seg a with
    | Some rest => dotStar (matchSegments segs) rest
    | None => false
    end
  end.

Definition matchesPattern (actionPattern action : string) : bool :=
  matchSegments (splitStar actionPattern) action.

(** [TRUST_ORDER.indexOf] *)
Definition trustIndex (t : UserTrustLevel) : nat :=
  match t with guest => 0 | user => 1 | admin => 2 end.

Definition meetsTrustFloor (actual minimum : UserTrustLevel) : bool :=
  trustIndex minimum <=? trustIndex actual.

Definition evaluateApprovalPolicy (p : Policy) (action : string) (trust : UserTrustLevel)
    : ApprovalPolicyDecision :=
  match List.find (fun r => matchesPattern (actionPattern r) action) (rules p) with
  | None => mkDecision (defaultMode p) None None
  | Some r =>
    let m := if bool_decide (mode r = auto) && negb (meetsTrustFloor trust (minTrustLevel r))
             then require else mode r in
    mkDecision m (Some (actionPattern r)) (timeoutMs r)
  end.

(** ** What a pattern means *)

(** A wildcard stands for any run without line terminators, every other
    character for itself, and the whole action must be covered. *)
Inductive Glob : string -> string -> Prop :=
| glob_nil : Glob "" ""
| glob_char c p a : c <> star -> Glob p a -> Glob (String c p) (String c a)
| glob_star_end p a : Glob p a -> Glob (String star p) a
| glob_star_more p c a :
    lineTerminator c = false -> Glob (String star p) a -> Glob (String star p) (String c a).

Lemma splitStar_cons s : exists seg segs, splitStar s = seg :: segs.
Proof.
  induction s as [|c s (seg & segs & E)]; simpl; [by eexists _, _|].
  destruct (ascii_dec c star); [by eexists _, _|]. rewrite E. by eexists _, _.
Qed.

Lemma matchSegments_char c seg segs a :
  matchSegments (String c seg :: segs) a =
  match a with
  | "" => false
  | String d a => bool_decide (c = d) && matchSegments (seg :: segs) a
  end.
Proof.
  destruct segs, a as [|d a]; simpl; try done; destruct (ascii_dec c d) as [E|E];
    by (rewrite bool_decide_true by done) || by (rewrite bool_decide_false by done).
Qed.

Lemma matchSegments_star seg segs a :
  matchSegments ("" :: seg :: segs) a = dotStar (matchSegments (seg :: segs)) a.
Proof. done. Qed.

Lemma dotStar_iff k p a :
  (forall a, k a = true <-> Glob p a) -> dotStar k a = true <-> Glob (String star p) a.
Proof.
  intros Hk. induction a as [|c a IH]; simpl.
  - rewrite orb_false_r, Hk. split; [apply glob_star_end|].
    by inversion 1; subst.
  - rewrite orb_true_iff, andb_true_iff, Hk, IH, negb_true_iff. split.
    + intros [H|[Hc H]]; [by apply glob_star_end|by apply glob_star_more].
    + inversion 1; subst; [done|by left|by right].
Qed.

Lemma matchesPattern_glob p a : matchesPattern p a = true <-> Glob p a.
Proof.
  unfold matchesPattern. revert a. induction p as [|c p IH]; intros a.
  - simpl. destruct a; split; try done; [constructor|inversion 1].
  - destruct (splitStar_cons p) as (seg & segs & E). simpl. rewrite E in *.
    destruct (ascii_dec c star) as [->|Hc].
    + rewrite matchSegments_star. by apply dotStar_iff.
    + rewrite matchSegments_char. destruct a as [|d a]; [split; [done|inversion 1; by subst]|].
      rewrite andb_true_iff, bool_decide_eq_true, IH. split.
      * intros [-> H]. by apply glob_char.
      * inversion 1; by subst.
Qed.


(** [r] is the first rule whose pattern covers the action. *)
Definition FirstMatch (p : Policy) (action : string) (r : ApprovalRule) : Prop :=
  exists pre post, rules p = pre ++ r :: post /\ Glob (actionPattern r) action /\
    Forall (fun r' => ~ Glob (actionPattern r') action) pre.

Lemma find_first (f : ApprovalRule -> bool) l :
  match List.find f l with
  | Some r => exists pre post, l = pre ++ r :: post /\ f r = true /\ Forall (fun x => f x = false) pre
  | None => Forall (fun x => f x = false) l
  end.
Proof.
  induction l as [|x l IH]; simpl; [constructor|]. destruct (f x) eqn:E.
  - exists [], l. by repeat constructor.
  - destruct (List.find f l) as [r|].
    + destruct IH as (pre & post & -> & Hr & HF). exists (x :: pre), post. by repeat constructor.
    + by constructor.
Qed.

(** The policy fails closed.  A request is resolved without a human only as
    the operator wrote: by the first rule that covers its action, or by the
    default mode when no rule does; and an automatic approval by a rule needs
    the requester's trust at the rule's floor, below which a human is asked. *)
Theorem policy_fails_closed (p : Policy) (action : string) (t : UserTrustLevel) :
  let d := evaluateApprovalPolicy p action t in
  (matchedPattern d = None /\ decisionMode d = defaultMode p /\ decisionTimeoutMs d = None /\
   Forall (fun r => ~ Glob (actionPattern r) action) (rules p)) \/
  (exists r, FirstMatch p action r /\ matchedPattern d = Some (actionPattern r) /\
   decisionTimeoutMs d = timeoutMs r /\
   match mode r with
   | auto => decisionMode d = if decide (trustIndex (minTrustLevel r) <= trustIndex t)
                              then auto else require
   | m => decisionMode d = m
   end).
Proof.
  intros d. subst d. unfold evaluateApprovalPolicy.
  pose proof (find_first (fun r => matchesPattern (actionPattern r) action) (rules p)) as H.
  assert (forall r, matchesPattern (actionPattern r) action = false -> ~ Glob (actionPattern r) action)
    as Hno by (intros r Hr; rewrite <- matchesPattern_glob, Hr; done).
  destruct (List.find _ (rules p)) as [r|]; simpl.
  - right. destruct H as (pre & post & Hp & Hr & HF). exists r. split.
    { exists pre, post. split; [done|]. split; [by apply matchesPattern_glob|].
      eapply Forall_impl; [exact HF|]. intros; by apply Hno. }
    split; [done|]. split; [done|]. unfold meetsTrustFloor.
    destruct (mode r); try done. rewrite bool_decide_true by done. simpl.
    case_decide as Hd; [apply Nat.leb_le in Hd|apply Nat.leb_nle in Hd]; by rewrite Hd.
  - left. split_and!; try done. eapply Forall_impl; [exact H|]. intros; by apply Hno.
Qed.

End ApprovalPolicy.
