(* ===== verification/ApprovalGate.v ===== *)
(** * The approval gate

  Models [packages/core/src/approval/approval-gate.ts]: the pending approval
  requests with their callback index, timeout timers and batch followers, the
  caches of recent approvals and denials, and the restart persistence of both.

  A promise is a number; [settled] records the resolutions promises received,
  in order.  The timer port is the set of pending timeouts.  Random
  identifiers are arguments, and the clock does not advance within one
  operation.  Event-bus emission is observational and not modelled.  The
  keyed digest of [node:crypto] is the parameter [hmacHex]; the language's
  conversion of a text that is not a run of digits to a safe integer is the
  parameter [numberOf]; a persisted record that its schema rejects is [None]. *)

From Stdlib Require Import Ascii.
From S2P Require Import Prelude CanonicalJson TtlCache ApprovalPolicy.
Import CanonicalJson ApprovalPolicy.

Open Scope string_scope.
Open Scope list_scope.
Open Scope Z_scope.

Module ApprovalGate.

(** ** Data *)

Record CallbackOwner := mkOwner {
  ownerTenantId : string; userId : string; channelType : string; channelKey : string;
  threadId : option string }.

Record ApprovalRequest := mkRequest {
  requestId : string; shortId : string; toolName : string; action : string;
  params : list (string * Json); tenantId : string; agentId : string;
  conversationRef : string; resolvingPrincipalId : string; trustLevel : UserTrustLevel;
  callbackOwner : CallbackOwner; createdAt : Z; reqTimeoutMs : Z }.

Record ApprovalResolution := mkResolution {
  resRequestId : string; approved : bool; approvedBy : string; resReason : option string;
  resolvedAt : Z }.

(** What a caller submits.  [inTrust] is [None] for a value that is not a trust
    level, [inOwner] is [None] for a value that is not an owner record. *)
Record RequestInput := mkInput {
  inToolName : string; inAction : string; inParams : JsValue; inFingerprintParams : JsValue;
  inTenantId : string; inAgentId : string; inSessionKey : string; inTraceId : string;
  inConversationRef : string; inPrincipal : string; inTrust : option UserTrustLevel;
  inOwner : option CallbackOwner }.

Record PendingEntry := mkPending {
  request : ApprovalRequest; cacheKey : string; resolve : option nat; timer : nat }.

Record CachedApproval := mkCached { cachedResolution : ApprovalResolution; cachedExpiresAt : Z }.

Record Timeout := mkTimeout { timeoutId : nat; timeoutRequest : string; timeoutDue : Z }.

Record Gate := mkGate {
  pendingMap : jsmap string PendingEntry;
  shortIdIndex : jsmap string string;
  denialCache : jsmap string (TtlCache.CacheEntry ApprovalResolution);
  approvalCache : jsmap string (TtlCache.CacheEntry CachedApproval);
  batchFollowers : jsmap string (list nat);
  timeouts : list Timeout;
  nextId : nat;
  settled : list (nat * ApprovalResolution) }.

Inductive Reply :=
| Immediate (res : ApprovalResolution)
| Waiting (promise : nat).

Record GateConfig := mkGateConfig {
  defaultTimeoutMs : Z; denialCacheTtlMs : Z; batchApprovalTtlMs : Z;
  policy : option Policy; fingerprintSecret : string }.

Section Gate.
Variable config : GateConfig.
Variable hmacHex : string -> string -> string.
Variable numberOf : string -> option Z.

Definition createApprovalGate : Gate := mkGate [] [] [] [] [] [] 0 [].

Definition denialOptions : TtlCache.TTLCacheOptions :=
  TtlCache.mkOptions (denialCacheTtlMs config) None.
Definition approvalOptions : TtlCache.TTLCacheOptions :=
  TtlCache.mkOptions (batchApprovalTtlMs config) None.

(** ** Identity *)

Definition createApprovalHmac (domain canonical : string) : Result string string :=
  if decide (fingerprintSecret config = "") then Err "Approval fingerprint secret is empty"
  else Ok (hmacHex (fingerprintSecret config)
             (("comis.approval." +:+ domain +:+ ".v1" +:+ String "000"%char "") +:+ canonical)).

Definition cacheAuthorityPrefix (tenantId agentId conversationRef : string) : string :=
  let encoded := stringifyArray [Some tenantId; Some agentId; Some conversationRef] in
  "h1:" +:+ pretty (String.length encoded) +:+ ":" +:+ encoded +:+ ":".

Definition trustName (t : UserTrustLevel) : string :=
  match t with guest => "guest" | user => "user" | admin => "admin" end.

(** The text that identifies one exact action of one exact principal. *)
Definition cacheIdentity (i : RequestInput) (t : UserTrustLevel) (o : CallbackOwner)
    (canonicalParams : string) : string :=
  stringifyArray [Some (inAgentId i); Some (inTenantId i); Some (inConversationRef i);
    Some (inPrincipal i); Some (trustName t); Some (inToolName i); Some (inAction i);
    Some (ownerTenantId o); Some (userId o); Some (channelType o); Some (channelKey o);
    threadId o; Some canonicalParams].

Definition createApprovalCacheKey (i : RequestInput) (o : CallbackOwner) (canonicalParams : string)
    : Result string string :=
  match inTrust i with
  | Some t =>
    if bool_decide ("" ∈ [inToolName i; inAction i; inAgentId i; inTenantId i;
                           inConversationRef i; inPrincipal i])
    then Err "Approval request identity is incomplete"
    else
      let? digest := createApprovalHmac "cache" (cacheIdentity i t o canonicalParams) in
      Ok (cacheAuthorityPrefix (inTenantId i) (inAgentId i) (inConversationRef i) +:+ digest)
  | None => Err "Approval request identity is incomplete"
  end.

Fixpoint startsWith (p s : string) : bool :=
  match p, s with
  | "", _ => true
  | String c p, String d s => bool_decide (c = d) && startsWith p s
  | String _ _, "" => false
  end.

(** The value of a run of decimal digits; [None] for other texts. *)
Fixpoint digitsValue (acc : Z) (s : string) : option Z :=
  match s with
  | "" => Some acc
  | String c s =>
    let n := Z.of_nat (nat_of_ascii c) in
    if (48 <=? n) && (n <=? 57) then digitsValue (10 * acc + (n - 48)) s else None
  end.

(** [Number(text)], when it is a safe integer. *)
Definition safeNumber (s : string) : option Z :=
  match digitsValue 0 s with
  | Some n => if n <=? 2 ^ 53 - 1 then Some n else None
  | None => numberOf s
  end.

Fixpoint isHex (s : string) : bool :=
  match s with
  | "" => true
  | String c s =>
    let n := nat_of_ascii c in
    (((48 <=? n) && (n <=? 57) || (97 <=? n) && (n <=? 102))%nat && isHex s)%bool
  end.

(** The text before the first colon and the text after it. *)
Fixpoint cutColon (s : string) : option (string * string) :=
  match s with
  | "" => None
  | String c s =>
    if ascii_dec c ":" then Some ("", s)
    else (fun p => (String c p.1, p.2)) <$> cutColon s
  end.

Definition isApprovalCacheKey (key : string) : bool :=
  if negb (startsWith "h1:" key) then false
  else
    match cutColon (String.substring 3 (String.length key) key) with
    | None => false
    | Some (digits, rest) =>
      if bool_decide (digits = "") then false
      else
        match safeNumber digits with
        | None => false
        | Some n =>
          if (n <=? 0) || (Z.of_nat (String.length rest) <=? n) then false
          else
            let at_ := Z.to_nat n in
            let digest := String.substring (S at_) (String.length rest) rest in
            bool_decide (String.get at_ rest = Some ":"%char)
            && (String.length digest =? 64)%nat && isHex digest
        end
    end.

Definition snapshotCallbackOwner (raw : option CallbackOwner) (tenantId : string)
    : Result CallbackOwner string :=
  match raw with
  | None => Err "Approval callback owner is invalid"
  | Some o =>
    if bool_decide ("" ∈ [ownerTenantId o; userId o; channelType o; channelKey o])
       || bool_decide (threadId o = Some "")
    then Err "Approval callback owner is invalid"
    else if bool_decide (tenantId = ownerTenantId o) then Ok o
    else Err "Approval callback owner conflicts with the conversation authority"
  end.

(** A clone used as a value again. *)
Fixpoint toJs (j : Json) : JsValue :=
  match j with
  | JNull => VNull
  | JString s => VString s
  | JBoolean b => VBoolean b
  | JNumber n => VNumber (Some n)
  | JArray l => VArray true (toJs <$> l)
  | JObject l => VObject true ((fun p => (p.1, Some (toJs p.2))) <$> l)
  end.

(** [{ ...summary, operationFingerprint }] *)
Definition displayRecord (summary : list (string * Json)) (fingerprint : string) : JsValue :=
  toJs (JObject (mset summary "operationFingerprint" (JString fingerprint))).

(** The parameters shown and the cache key of a submitted request. *)
Definition identify (i : RequestInput)
    : Result (CallbackOwner * (list (string * Json) * string) * string) string :=
  match snapshotApprovalParams (inParams i), snapshotApprovalParams (inFingerprintParams i),
        snapshotCallbackOwner (inOwner i) (inTenantId i) with
  | Ok (summary, _), Ok (_, fpCanonical), Ok owner =>
    let? fp := createApprovalHmac "operation" fpCanonical in
    let? display := snapshotApprovalParams (displayRecord summary fp) in
    let? key := createApprovalCacheKey i owner display.2 in
    if bool_decide (inSessionKey i = "") || bool_decide (inTraceId i = "")
    then Err "invalid" else Ok (owner, display, key)
  | _, _, _ => Err "invalid"
  end.

(** ** Resolution *)

Definition settle (ps : list nat) (r : ApprovalResolution) (g : Gate) : Gate :=
  mkGate (pendingMap g) (shortIdIndex g) (denialCache g) (approvalCache g) (batchFollowers g)
    (timeouts g) (nextId g) (settled g ++ ((fun p => (p, r)) <$> ps)).

Definition cancelTimeout (ts : list Timeout) (id : nat) : list Timeout :=
  filter (fun t => timeoutId t <> id) ts.

(** The caches after a decision. *)
Definition cacheDecision (g : Gate) (key : string) (res : ApprovalResolution) (now : Z)
    : jsmap string (TtlCache.CacheEntry ApprovalResolution) *
      jsmap string (TtlCache.CacheEntry CachedApproval) :=
  if approved res then
    ((TtlCache.del (denialCache g) key).2,
     if negb (String.eqb (approvedBy res) "system:cached-approval") && (0 <? batchApprovalTtlMs config)
     then TtlCache.set approvalOptions (approvalCache g) key
            (mkCached res (resolvedAt res + batchApprovalTtlMs config))
            (Some (batchApprovalTtlMs config)) now
     else approvalCache g)
  else if String.eqb (approvedBy res) "system:shutdown" then (denialCache g, approvalCache g)
  else if String.eqb (approvedBy res) "system:timeout" then
    (denialCache g, (TtlCache.del (approvalCache g) key).2)
  else
    (TtlCache.set denialOptions (denialCache g) key res None now,
     (TtlCache.del (approvalCache g) key).2).

Definition setPending (g : Gate) pm si bf ts := mkGate pm si (denialCache g) (approvalCache g)
  bf ts (nextId g) (settled g).
Definition setCaches (g : Gate) dc ac := mkGate (pendingMap g) (shortIdIndex g) dc ac
  (batchFollowers g) (timeouts g) (nextId g) (settled g).

Definition waiters (e : PendingEntry) (followers : list nat) : list nat :=
  match resolve e with Some p => p :: followers | None => followers end.

Definition resolveApproval (g : Gate) (rid : string) (ok : bool) (by_ : string)
    (reason : option string) (now : Z) : Gate :=
  match mget (pendingMap g) rid with
  | None => g
  | Some e =>
    let res := mkResolution rid ok by_ reason now in
    let followers := default [] (mget (batchFollowers g) (cacheKey e)) in
    let g1 := setPending g (mdel (pendingMap g) rid) (mdel (shortIdIndex g) (shortId (request e)))
                (mdel (batchFollowers g) (cacheKey e)) (cancelTimeout (timeouts g) (timer e)) in
    let '(dc, ac) := cacheDecision g1 (cacheKey e) res now in
    settle (waiters e followers) res (setCaches g1 dc ac)
  end.

(** A timeout that is due denies its request. *)
Definition fireTimeout (g : Gate) (id : nat) (now : Z) : Gate :=
  match list_find (fun t => timeoutId t = id /\ timeoutDue t <= now) (timeouts g) with
  | Some (_, t) =>
    resolveApproval (setPending g (pendingMap g) (shortIdIndex g) (batchFollowers g)
        (cancelTimeout (timeouts g) id)) (timeoutRequest t) false "system:timeout"
      (Some "Approval request timed out") now
  | None => g
  end.

(** ** Requests *)

Definition immediate (uuid : string) (ok : bool) (by_ reason : string) (now : Z) : Reply :=
  Immediate (mkResolution uuid ok by_ (Some reason) now).

Definition policyReason (d : ApprovalPolicyDecision) (act : string) : string :=
  (if decide (decisionMode d = auto) then "Approved" else "Denied") +:+
  match matchedPattern d with
  | None => " by approvals.defaultMode for " +:+ act
  | Some p => " by approval rule " +:+ dq +:+ p +:+ dq +:+ " for " +:+ act
  end.

Definition findKey (pm : jsmap string PendingEntry) (key : string) : bool :=
  existsb (fun p => String.eqb (cacheKey p.2) key) pm.

Definition addPending (g : Gate) (req : ApprovalRequest) (key : string) (promise : option nat)
    (due : Z) : Gate :=
  let id := nextId g in
  mkGate (mset (pendingMap g) (requestId req) (mkPending req key promise id))
    (mset (shortIdIndex g) (shortId req) (requestId req))
    (denialCache g) (approvalCache g) (batchFollowers g)
    (timeouts g ++ [mkTimeout id (requestId req) due]) (S id) (settled g).

Definition bumpId (g : Gate) : Gate := mkGate (pendingMap g) (shortIdIndex g) (denialCache g)
  (approvalCache g) (batchFollowers g) (timeouts g) (S (nextId g)) (settled g).

(** [uuid] and [short] are the identifiers drawn by this call. *)
Definition requestApproval (g : Gate) (i : RequestInput) (uuid short : string) (now : Z)
    : Reply * Gate :=
  match identify i, inTrust i with
  | Ok (owner, display, key), Some trust =>
    let decision := (fun p => evaluateApprovalPolicy p (inAction i) trust) <$> policy config in
    let prompting :=
      match decision with
      | Some d => if decide (decisionMode d = require) then None else Some d
      | None => None
      end in
    match prompting with
    | Some d =>
      (immediate uuid (bool_decide (decisionMode d = auto)) "system:policy-rule"
         (policyReason d (inAction i)) now, g)
    | None =>
      let '(cachedApproval, ac) :=
        if 0 <? batchApprovalTtlMs config then TtlCache.get (approvalCache g) key now
        else (None, approvalCache g) in
      let g1 := setCaches g (denialCache g) ac in
      match cachedApproval with
      | Some _ =>
        (immediate uuid true "system:cached-approval"
           ("Auto-approved: prior approval for " +:+ inAction i +:+ " still active") now, g1)
      | None =>
        let '(cachedDenial, dc) := TtlCache.get (denialCache g1) key now in
        let g2 := setCaches g1 dc (approvalCache g1) in
        match cachedDenial with
        | Some _ =>
          (immediate uuid false "system:cached-denial"
             ("Auto-denied: prior denial for " +:+ inAction i +:+ " still active") now, g2)
        | None =>
          let promise := nextId g2 in
          if findKey (pendingMap g2) key then
            let arr := default [] (mget (batchFollowers g2) key) in
            (Waiting promise,
             bumpId (setPending g2 (pendingMap g2) (shortIdIndex g2)
               (mset (batchFollowers g2) key (arr ++ [promise])) (timeouts g2)))
          else
            let ruleTimeout := decision ≫= decisionTimeoutMs in
            let timeoutMs :=
              match ruleTimeout with
              | Some t => if 0 <? t then t else defaultTimeoutMs config
              | None => defaultTimeoutMs config
              end in
            let req := mkRequest uuid short (inToolName i) (inAction i) display.1
              (inTenantId i) (inAgentId i) (inConversationRef i) (inPrincipal i) trust owner
              now timeoutMs in
            (Waiting promise, addPending (bumpId g2) req key (Some promise) (now + timeoutMs))
        end
      end
    end
  | _, _ =>
    (immediate uuid false "system:invalid-request"
       "Approval request identity or parameters are invalid" now, g)
  end.

(** ** Reads *)

Definition pending (g : Gate) : list ApprovalRequest := (fun p => request p.2) <$> pendingMap g.

Definition getRequest (g : Gate) (rid : string) : option ApprovalRequest :=
  request <$> mget (pendingMap g) rid.

Definition getRequestByShortId (g : Gate) (sid : string) : option ApprovalRequest :=
  mget (shortIdIndex g) sid ≫= getRequest g.

Definition pendingForAuthority (g : Gate) (tenant agent conversation principal : string)
    : list ApprovalRequest :=
  filter (fun r => tenantId r = tenant /\ agentId r = agent /\ conversationRef r = conversation /\
                   resolvingPrincipalId r = principal) (pending g).

(** ** Clearing and shutdown *)

(** The keys the iteration yields under the prefix are deleted; expired
    entries go with the iteration. *)
Definition clearCache {T} (st : jsmap string (TtlCache.CacheEntry T))
    (authority : option (string * string * string)) (now : Z)
    : jsmap string (TtlCache.CacheEntry T) :=
  match authority with
  | None => TtlCache.clear st
  | Some (t, a, c) =>
    filter (fun p => startsWith (cacheAuthorityPrefix t a c) p.1 = false) (TtlCache.entries st now).2
  end.

Definition clearDenialCache (g : Gate) (authority : option (string * string * string)) (now : Z)
    : Gate := setCaches g (clearCache (denialCache g) authority now) (approvalCache g).

Definition clearApprovalCache (g : Gate) (authority : option (string * string * string)) (now : Z)
    : Gate := setCaches g (denialCache g) (clearCache (approvalCache g) authority now).

(** Shutdown denies every waiter, entry by entry. *)
Definition disposeEntry (now : Z) (g : Gate) (p : string * PendingEntry) : Gate :=
  let e := p.2 in
  let res := mkResolution (requestId (request e)) false "system:shutdown"
    (Some "Daemon shutting down") now in
  let followers := default [] (mget (batchFollowers g) (cacheKey e)) in
  settle (waiters e followers) res
    (setPending g (pendingMap g) (shortIdIndex g) (mdel (batchFollowers g) (cacheKey e))
      (cancelTimeout (timeouts g) (timer e))).

Definition dispose (g : Gate) (now : Z) : Gate :=
  let g' := foldl (disposeEntry now) g (pendingMap g) in
  mkGate [] [] [] [] [] (timeouts g') (nextId g') (settled g').

(** ** Restart persistence *)

Definition serializePending (g : Gate) : list ApprovalRequest := pending g.

(** The identity a persisted request is keyed under. *)
Definition inputOfRequest (r : ApprovalRequest) : RequestInput :=
  mkInput (toolName r) (action r) (toJs (JObject (params r))) VNull (tenantId r) (agentId r) "" ""
    (conversationRef r) (resolvingPrincipalId r) (Some (trustLevel r)) (Some (callbackOwner r)).

Definition restoreOne (now : Z) (acc : nat * Gate) (raw : option ApprovalRequest) : nat * Gate :=
  let '(n, g) := acc in
  match raw with
  | None => (n, g)
  | Some r =>
    let elapsed := now - createdAt r in
    if reqTimeoutMs r <=? elapsed then (n, g)
    else
      match snapshotApprovalParams (toJs (JObject (params r))),
            snapshotCallbackOwner (Some (callbackOwner r)) (tenantId r) with
      | Ok (ps, canonical), Ok owner =>
        if mhas (pendingMap g) (requestId r) || mhas (shortIdIndex g) (shortId r) then (n, g)
        else
          let req := mkRequest (requestId r) (shortId r) (toolName r) (action r) ps (tenantId r)
            (agentId r) (conversationRef r) (resolvingPrincipalId r) (trustLevel r) owner
            (createdAt r) (reqTimeoutMs r) in
          match createApprovalCacheKey (inputOfRequest req) owner canonical with
          | Ok key => (S n, addPending g req key None (now + (reqTimeoutMs r - elapsed)))
          | Err _ => (n, g)
          end
      | _, _ => (n, g)
      end
  end.

Definition restorePending (g : Gate) (records : list (option ApprovalRequest)) (now : Z)
    : nat * Gate := foldl (restoreOne now) (0%nat, g) records.

Definition serializeApprovalCache (g : Gate) (now : Z)
    : list (string * ApprovalResolution * Z) * Gate :=
  let '(es, st) := TtlCache.entries (approvalCache g) now in
  ((fun p => (p.1, cachedResolution p.2, cachedExpiresAt p.2)) <$> es,
   setCaches g (denialCache g) st).

Definition restoreCacheOne (now : Z) (acc : nat * Gate)
    (raw : option (string * ApprovalResolution * Z)) : nat * Gate :=
  let '(n, g) := acc in
  match raw with
  | None => (n, g)
  | Some (key, res, expires) =>
    if (expires <=? now) || negb (isApprovalCacheKey key) then (n, g)
    else (S n, setCaches g (denialCache g)
      (TtlCache.set approvalOptions (approvalCache g) key (mkCached res expires)
         (Some (expires - now)) now))
  end.

Definition restoreApprovalCache (g : Gate) (es : list (option (string * ApprovalResolution * Z)))
    (now : Z) : nat * Gate := foldl (restoreCacheOne now) (0%nat, g) es.

End Gate.
End ApprovalGate.
