(* ===== verification/ApprovalGateSafety.v ===== *)
(** * Safety of the approval gate

  Theorems about [ApprovalGate]: the callback index and the timeouts mirror the
  pending table, every waiting caller is resolved exactly once, cached
  approvals are reused only for what an operator approved, and pending requests
  survive a restart. *)

From Stdlib Require Import Ascii.
From S2P Require Import Prelude CanonicalJson TtlCache ApprovalPolicy ApprovalGate.
Import CanonicalJson ApprovalPolicy ApprovalGate.

Open Scope string_scope.
Open Scope list_scope.
Open Scope Z_scope.

Module ApprovalGateSafety.

(** ** The callers that wait *)

Definition leaders (pm : jsmap string PendingEntry) : list nat := omap (fun p => resolve p.2) pm.
Definition followersOf (bf : jsmap string (list nat)) : list nat := concat bf.*2.
Definition waiting (g : Gate) : list nat :=
  leaders (pendingMap g) ++ followersOf (batchFollowers g).

Lemma leaders_cons k e pm : leaders ((k, e) :: pm) = option_list (resolve e) ++ leaders pm.
Proof. unfold leaders. csimpl. by destruct (resolve e). Qed.

#[export] Instance leaders_perm : Proper ((≡ₚ) ==> (≡ₚ)) leaders.
Proof. intros l l' H. unfold leaders. by rewrite H. Qed.

#[export] Instance followersOf_perm : Proper ((≡ₚ) ==> (≡ₚ)) followersOf.
Proof.
  unfold followersOf. intros l l' H. induction H as [|[k x] l l' H IH|[k x] [k' y] l|]; csimpl.
  - done.
  - by rewrite IH.
  - by rewrite !app_assoc, (Permutation_app_comm x y).
  - by etrans.
Qed.

Lemma followersOf_mdel bf k :
  NoDup (mkeys bf) -> followersOf bf ≡ₚ default [] (mget bf k) ++ followersOf (mdel bf k).
Proof.
  intros Hnd. destruct (mget bf k) as [l|] eqn:E; simpl.
  - rewrite (mdel_perm bf k l) at 1 by done. done.
  - by rewrite mdel_notin by (by apply mget_None).
Qed.

Lemma waiters_app e fs : waiters e fs = option_list (resolve e) ++ fs.
Proof. unfold waiters. by destruct (resolve e). Qed.

(** ** The invariant

  The three indexes of a request (pending table, callback index, timeouts) are
  in step, followers wait for a request that is pending, and identifiers are
  never reused. *)
Record Inv (g : Gate) : Prop := {
  inv_pm : NoDup (mkeys (pendingMap g));
  inv_si : NoDup (mkeys (shortIdIndex g));
  inv_bf : NoDup (mkeys (batchFollowers g));
  inv_rid : forall rid e, mget (pendingMap g) rid = Some e -> requestId (request e) = rid;
  inv_short : forall sid rid, mget (shortIdIndex g) sid = Some rid <->
    exists e, mget (pendingMap g) rid = Some e /\ shortId (request e) = sid;
  inv_follow : forall k, k ∈ mkeys (batchFollowers g) ->
    exists rid e, mget (pendingMap g) rid = Some e /\ cacheKey e = k;
  inv_ids : NoDup (timeoutId <$> timeouts g);
  inv_next : forall t, t ∈ timeouts g -> (timeoutId t < nextId g)%nat;
  inv_timer : forall rid e, mget (pendingMap g) rid = Some e ->
    exists t, t ∈ timeouts g /\ timeoutId t = timer e /\ timeoutRequest t = rid;
  inv_timeout : forall t, t ∈ timeouts g ->
    exists e, mget (pendingMap g) (timeoutRequest t) = Some e /\ timer e = timeoutId t;
  inv_fresh : forall p, p ∈ (settled g).*1 ++ waiting g -> (p < nextId g)%nat }.

Lemma inv_cleared n st :
  (forall p, p ∈ st.*1 -> (p < n)%nat) -> Inv (mkGate [] [] [] [] [] [] n st).
Proof.
  intros Hst. split; simpl; try apply NoDup_nil_2; try done; try (by intros ? ?%elem_of_nil).
  - by intros sid rid; split; [done|intros (e & ? & _)].
  - unfold waiting, leaders, followersOf. simpl. by rewrite app_nil_r.
Qed.

Lemma inv_init : Inv createApprovalGate.
Proof. apply inv_cleared. by intros ? ?%elem_of_nil. Qed.

(** The caches play no part in it. *)
Lemma inv_setCaches g dc ac : Inv g -> Inv (setCaches g dc ac).
Proof. intros []. by split. Qed.

Lemma timeout_inj g t t' :
  Inv g -> t ∈ timeouts g -> t' ∈ timeouts g -> timeoutId t = timeoutId t' -> t = t'.
Proof.
  intros H Ht Ht' E. apply list_elem_of_lookup in Ht as [i Hi], Ht' as [j Hj].
  assert (i = j) as ->; [|congruence].
  eapply NoDup_lookup; [apply (inv_ids _ H)|by rewrite list_lookup_fmap, Hi|].
  by rewrite list_lookup_fmap, Hj, E.
Qed.

Lemma timer_inj g rid rid' e e' :
  Inv g -> mget (pendingMap g) rid = Some e -> mget (pendingMap g) rid' = Some e' ->
  timer e = timer e' -> rid = rid'.
Proof.
  intros H He He' E. destruct (inv_timer _ H _ _ He) as (t & Ht & Hid & <-).
  destruct (inv_timer _ H _ _ He') as (t' & Ht' & Hid' & <-).
  f_equal. eapply timeout_inj; eauto. congruence.
Qed.

Lemma short_inj g rid rid' e e' :
  Inv g -> mget (pendingMap g) rid = Some e -> mget (pendingMap g) rid' = Some e' ->
  shortId (request e) = shortId (request e') -> rid = rid'.
Proof.
  intros H He He' E.
  assert (mget (shortIdIndex g) (shortId (request e)) = Some rid) by (apply H; eauto).
  assert (mget (shortIdIndex g) (shortId (request e)) = Some rid') by (apply H; rewrite E; eauto).
  congruence.
Qed.

Lemma elem_of_cancelTimeout ts id t : t ∈ cancelTimeout ts id <-> timeoutId t <> id /\ t ∈ ts.
Proof. unfold cancelTimeout. by rewrite list_elem_of_filter. Qed.

(** Dropping a request from the three indexes, with its followers. *)
Lemma inv_drop g rid e :
  Inv g -> mget (pendingMap g) rid = Some e ->
  Inv (setPending g (mdel (pendingMap g) rid) (mdel (shortIdIndex g) (shortId (request e)))
         (mdel (batchFollowers g) (cacheKey e)) (cancelTimeout (timeouts g) (timer e))).
Proof.
  intros H He. pose proof H as [H1 H2 H3 H4 H5 H6 H7 H8 H9 H10 H11].
  split; unfold setPending;
    cbn [pendingMap shortIdIndex batchFollowers timeouts nextId settled].
  - by eauto with jsmap.
  - by eauto with jsmap.
  - by eauto with jsmap.
  - intros rid' e' ?. map_cases. by apply H4.
  - intros sid rid'. rewrite mget_mdel. split.
    + case_decide as Hs; [done|]. intros (e' & He' & <-)%H5. exists e'. split; [|done].
      rewrite mget_mdel. case_decide as Hr; [|done]. subst. congruence.
    + intros (e' & He' & <-). rewrite mget_mdel in He'. case_decide as Hr; [done|].
      case_decide as Hs; [|apply H5; eauto]. exfalso. apply Hr. by eapply short_inj.
  - intros k (Hk & Hin)%elem_of_mkeys_mdel. destruct (H6 k Hin) as (rid' & e' & He' & <-).
    exists rid', e'. split; [|done]. rewrite mget_mdel. case_decide; [|done]. subst. congruence.
  - eapply sublist_NoDup; [exact H7|]. apply fmap_sublist, sublist_filter.
  - intros t [_ Ht]%elem_of_cancelTimeout. by apply H8.
  - intros rid' e'. rewrite mget_mdel. case_decide as Hr; [done|]. intros He'.
    destruct (H9 _ _ He') as (t & Ht & Hid & Hrq). exists t. split; [|done].
    apply elem_of_cancelTimeout. split; [|done]. rewrite Hid. intros E. apply Hr. by eapply timer_inj.
  - intros t [Hid Ht]%elem_of_cancelTimeout. destruct (H10 t Ht) as (e' & He' & Ht').
    exists e'. split; [|done]. rewrite mget_mdel. case_decide as Hr; [|done].
    exfalso. rewrite Hr, He in He'. congruence.
  - intros p Hp. apply H11. unfold waiting in *. cbn [pendingMap batchFollowers] in Hp.
    rewrite (mdel_perm (pendingMap g) rid e), leaders_cons by done.
    rewrite (followersOf_mdel (batchFollowers g) (cacheKey e)) by done. set_solver.
Qed.

(** Adding a request under fresh identifiers. *)
Lemma inv_add g req key pr due :
  Inv g -> requestId req ∉ mkeys (pendingMap g) -> shortId req ∉ mkeys (shortIdIndex g) ->
  (forall p, pr = Some p -> (p < nextId g)%nat) ->
  Inv (addPending g req key pr due).
Proof.
  intros H Hr Hs Hp. pose proof H as [H1 H2 H3 H4 H5 H6 H7 H8 H9 H10 H11].
  assert (Hget : mget (pendingMap g) (requestId req) = None) by by apply mget_None.
  assert (Hgets : mget (shortIdIndex g) (shortId req) = None) by by apply mget_None.
  split; unfold addPending;
    cbn [pendingMap shortIdIndex batchFollowers timeouts nextId settled].
  - by eauto with jsmap.
  - by eauto with jsmap.
  - done.
  - intros rid e. rewrite mget_mset. case_decide; [|apply H4]. subst. by intros [= <-].
  - intros sid rid. rewrite mget_mset. split.
    + case_decide as Hd.
      * intros [= <-]. eexists. rewrite mget_mset, decide_True by done. by split.
      * intros (e & He & <-)%H5. exists e. split; [|done]. rewrite mget_mset.
        case_decide; [congruence|done].
    + intros (e & He & <-). rewrite mget_mset in He. case_decide as Hd.
      * injection He as <-. simpl. rewrite decide_True by done. congruence.
      * assert (mget (shortIdIndex g) (shortId (request e)) = Some rid) as E by (apply H5; eauto).
        case_decide; [congruence|done].
  - intros k Hk. destruct (H6 k Hk) as (rid & e & He & Hc). exists rid, e. split; [|done].
    rewrite mget_mset. case_decide; [congruence|done].
  - rewrite fmap_app. apply NoDup_app. split_and!; [done| |by apply NoDup_singleton].
    intros id (t & -> & Ht)%list_elem_of_fmap Hid. apply H8 in Ht.
    apply list_elem_of_singleton in Hid. simpl in Hid. lia.
  - intros t [Ht| ->%list_elem_of_singleton]%elem_of_app; simpl; [apply H8 in Ht; lia|lia].
  - intros rid e. rewrite mget_mset. case_decide as Hd.
    + intros [= <-]. eexists. split; [apply elem_of_app; right; left|]. by simpl.
    + intros He. destruct (H9 _ _ He) as (t & Ht & ?). exists t. split; [set_solver|done].
  - intros t [Ht| ->%list_elem_of_singleton]%elem_of_app; simpl.
    + destruct (H10 t Ht) as (e & He & ?). exists e. split; [|done].
      rewrite mget_mset. case_decide; [congruence|done].
    + eexists. rewrite mget_mset, decide_True by done. by split.
  - intros p. unfold waiting. cbn [pendingMap batchFollowers].
    rewrite mset_perm, leaders_cons, mdel_notin by done. simpl.
    intros Hin. apply Nat.lt_lt_succ_r.
    destruct pr as [p'|]; [|by apply H11]. destruct (decide (p = p')) as [->|]; [by apply Hp|].
    apply H11. unfold waiting. set_solver.
Qed.

Lemma inv_bump g : Inv g -> Inv (bumpId g).
Proof.
  intros []. split; try done; unfold bumpId; simpl.
  - intros t Ht. apply Nat.lt_lt_succ_r. auto.
  - intros p Hp. apply Nat.lt_lt_succ_r. auto.
Qed.

Lemma findKey_spec pm key :
  NoDup (mkeys pm) -> findKey pm key = true <-> exists rid e, mget pm rid = Some e /\ cacheKey e = key.
Proof.
  intros Hnd. unfold findKey. rewrite existsb_exists. split.
  - intros ([rid e] & Hin%list_elem_of_In & Hk%String.eqb_eq). exists rid, e.
    split; [by apply elem_of_mget|done].
  - intros (rid & e & He & <-). exists (rid, e). split; [|apply String.eqb_refl].
    apply list_elem_of_In. by apply mget_elem_of.
Qed.

(** Joining the batch of a pending request. *)
Definition join (g : Gate) (key : string) : Gate :=
  bumpId (setPending g (pendingMap g) (shortIdIndex g)
    (mset (batchFollowers g) key (default [] (mget (batchFollowers g) key) ++ [nextId g]))
    (timeouts g)).

Lemma waiting_join g key :
  NoDup (mkeys (batchFollowers g)) -> waiting (join g key) ≡ₚ nextId g :: waiting g.
Proof.
  intros Hnd. unfold waiting, join, bumpId, setPending. cbn [pendingMap batchFollowers].
  rewrite mset_perm by done. rewrite (followersOf_mdel (batchFollowers g) key) by done.
  unfold followersOf at 1. csimpl. fold (followersOf (mdel (batchFollowers g) key)).
  solve_Permutation.
Qed.

Lemma inv_join g key : Inv g -> findKey (pendingMap g) key = true -> Inv (join g key).
Proof.
  intros H Hk. pose proof H as [H1 H2 H3 H4 H5 H6 H7 H8 H9 H10 H11].
  split; try done.
  - simpl. by eauto with jsmap.
  - intros k [->|Hin]%elem_of_mkeys_mset; [by apply findKey_spec in Hk|by apply H6].
  - intros t Ht. apply Nat.lt_lt_succ_r. by apply H8.
  - intros p. rewrite waiting_join by done. intros Hp. simpl in *.
    destruct (decide (p = nextId g)) as [->|Hne]; [lia|].
    apply Nat.lt_lt_succ_r, H11. set_solver.
Qed.

(** A settlement moves waiters to the record. *)
Lemma inv_settle ps r g :
  Inv g -> (forall p, p ∈ ps -> (p < nextId g)%nat) -> Inv (settle ps r g).
Proof.
  intros [H1 H2 H3 H4 H5 H6 H7 H8 H9 H10 H11] Hps. split; try done. simpl.
  intros p. rewrite fmap_app, <- app_assoc. intros [Hp|[Hp|Hp]%elem_of_app]%elem_of_app.
  - apply H11. set_solver.
  - apply Hps. by rewrite <- list_fmap_compose, list_fmap_id in Hp.
  - apply H11. set_solver.
Qed.

Lemma settled_settle ps r g : (settled (settle ps r g)).*1 = (settled g).*1 ++ ps.
Proof.
  unfold settle. simpl. rewrite fmap_app, <- list_fmap_compose. f_equal. apply list_fmap_id.
Qed.

(** ** Operations *)

Inductive Op :=
| Request (i : RequestInput) (uuid short : string) (now : Z)
| Resolve (rid : string) (ok : bool) (by_ : string) (reason : option string) (now : Z)
| FireTimeout (id : nat) (now : Z)
| ClearDenial (a : option (string * string * string)) (now : Z)
| ClearApproval (a : option (string * string * string)) (now : Z)
| Dispose (now : Z)
| RestorePending (records : list (option ApprovalRequest)) (now : Z)
| SerializeCache (now : Z)
| RestoreCache (es : list (option (string * ApprovalResolution * Z))) (now : Z).

Section Runs.
Variable config : GateConfig.
Variable hmacHex : string -> string -> string.
Variable numberOf : string -> option Z.

Definition step (g : Gate) (op : Op) : option Reply * Gate :=
  match op with
  | Request i u s now => let '(r, g') := requestApproval config hmacHex g i u s now in (Some r, g')
  | Resolve rid ok b rs now => (None, resolveApproval config g rid ok b rs now)
  | FireTimeout id now => (None, fireTimeout config g id now)
  | ClearDenial a now => (None, clearDenialCache g a now)
  | ClearApproval a now => (None, clearApprovalCache g a now)
  | Dispose now => (None, dispose g now)
  | RestorePending rs now => (None, (restorePending config hmacHex g rs now).2)
  | SerializeCache now => (None, (serializeApprovalCache g now).2)
  | RestoreCache es now => (None, (restoreApprovalCache config numberOf g es now).2)
  end.

(** Random identifiers are not in use when they are drawn. *)
Definition freshIds (g : Gate) (op : Op) : bool :=
  match op with
  | Request _ u s _ => negb (mhas (pendingMap g) u) && negb (mhas (shortIdIndex g) s)
  | _ => true
  end.

Fixpoint run (g : Gate) (ops : list Op) : list (option Reply) * Gate :=
  match ops with
  | [] => ([], g)
  | op :: ops =>
    let '(r, g') := step g op in
    let '(l, g'') := run g' ops in (r :: l, g'')
  end.

Fixpoint freshRun (g : Gate) (ops : list Op) : bool :=
  match ops with
  | [] => true
  | op :: ops => freshIds g op && freshRun (step g op).2 ops
  end.

(** The promise an answer handed out. *)
Definition issued (r : option Reply) : list nat :=
  match r with Some (Waiting p) => [p] | _ => [] end.

(** Every promise handed out is settled or waiting, and none is lost. *)
Definition Tally (ps : list nat) (g : Gate) : Prop := ps ≡ₚ (settled g).*1 ++ waiting g.

Lemma resolve_tally g rid ok b rs now ps :
  Inv g -> Tally ps g ->
  Inv (resolveApproval config g rid ok b rs now) /\ Tally ps (resolveApproval config g rid ok b rs now).
Proof.
  intros H HT. unfold resolveApproval. destruct (mget (pendingMap g) rid) as [e|] eqn:He; [|done].
  destruct (cacheDecision _ _ _ _ _) as [dc ac].
  set (fs := default [] (mget (batchFollowers g) (cacheKey e))).
  assert (waiting g ≡ₚ waiters e fs ++ waiting (setPending g (mdel (pendingMap g) rid)
    (mdel (shortIdIndex g) (shortId (request e))) (mdel (batchFollowers g) (cacheKey e))
    (cancelTimeout (timeouts g) (timer e)))) as Hw.
  { unfold waiting. cbn [setPending pendingMap batchFollowers].
    rewrite (mdel_perm (pendingMap g) rid e) at 1 by (done || apply H).
    rewrite leaders_cons, (followersOf_mdel (batchFollowers g) (cacheKey e)) by apply H.
    fold fs. rewrite waiters_app, <- !app_assoc. f_equiv. rewrite !app_assoc. f_equiv.
    apply Permutation_app_comm. }
  split.
  - apply inv_settle; [by apply inv_setCaches, inv_drop|].
    intros p Hp. apply (inv_fresh _ H). rewrite Hw. set_solver.
  - unfold Tally in *. rewrite settled_settle, HT, Hw. cbn [setCaches settled setPending].
    rewrite app_assoc. done.
Qed.

Lemma fire_resolve g id now :
  Inv g ->
  fireTimeout config g id now = g \/
  exists t, t ∈ timeouts g /\ timeoutId t = id /\ timeoutDue t <= now /\
    fireTimeout config g id now =
    resolveApproval config g (timeoutRequest t) false "system:timeout"
      (Some "Approval request timed out") now.
Proof.
  intros H. unfold fireTimeout.
  destruct (list_find _ _) as [[i t]|] eqn:E; [|by left]. right.
  apply list_find_Some in E as (Hi & [Hid Hdue] & _). apply list_elem_of_lookup_2 in Hi.
  exists t. split_and!; try done. destruct (inv_timeout _ H t Hi) as (e & He & Ht).
  unfold resolveApproval. cbn [setPending pendingMap]. rewrite He. cbn [setPending timeouts].
  assert (cancelTimeout (cancelTimeout (timeouts g) id) (timer e) =
    cancelTimeout (timeouts g) (timer e)) as ->; [|done].
  unfold cancelTimeout. rewrite list_filter_filter_l; [done|]. intros x Hx. congruence.
Qed.

Lemma waiting_add g req key pr due :
  Inv g -> requestId req ∉ mkeys (pendingMap g) ->
  waiting (addPending g req key pr due) ≡ₚ option_list pr ++ waiting g.
Proof.
  intros H Hr. unfold waiting, addPending. cbn [pendingMap batchFollowers].
  rewrite mset_perm by apply H. by rewrite leaders_cons, mdel_notin, <- app_assoc.
Qed.

Lemma request_tally g i u s now r g' ps :
  Inv g -> freshIds g (Request i u s now) = true ->
  requestApproval config hmacHex g i u s now = (r, g') -> Tally ps g ->
  Inv g' /\ Tally (ps ++ issued (Some r)) g'.
Proof.
  intros H Hf E HT.
  assert (forall g1 r1, (exists dc ac, g1 = setCaches g dc ac) -> issued (Some r1) = [] ->
    Inv g1 /\ Tally (ps ++ issued (Some r1)) g1) as Hskip.
  { intros g1 r1 (dc & ac & ->) ->. rewrite app_nil_r. split; [by apply inv_setCaches|done]. }
  assert (exists dc ac, g = setCaches g dc ac) as Hid by (by exists (denialCache g), (approvalCache g); destruct g).
  simpl in Hf. apply andb_prop in Hf as [Hu Hs].
  unfold requestApproval in E.
  destruct (identify config hmacHex i) as [[[owner display] key]|e];
    [|injection E as <- <-; by apply Hskip].
  destruct (inTrust i) as [trust|]; [|injection E as <- <-; by apply Hskip].
  destruct (match _ with Some d => _ | None => None end) as [d|];
    [injection E as <- <-; by apply Hskip|].
  destruct (if 0 <? _ then _ else _) as [[ca|] ac]; [injection E as <- <-; by apply Hskip; eauto|].
  destruct (TtlCache.get _ key now) as [[cd|] dc];
    [injection E as <- <-; apply Hskip; [by eexists _, _|done]|].
  cbn [setCaches pendingMap approvalCache] in E.
  set (g2 := setCaches (setCaches g (denialCache g) ac) dc ac) in E.
  assert (Inv g2) as H2 by (by apply inv_setCaches, inv_setCaches).
  assert (Tally ps g2) as HT2 by done.
  assert (pendingMap g2 = pendingMap g /\ shortIdIndex g2 = shortIdIndex g) as [Hpm Hsi] by done.
  rewrite <- Hpm in E. clearbody g2. unfold Tally in *. destruct (findKey (pendingMap g2) key) eqn:Hk.
  - injection E as <- <-. fold (join g2 key). split; [by apply inv_join|]. simpl.
    rewrite waiting_join by apply H2. rewrite HT2. solve_Permutation.
  - injection E as <- <-.
    assert (u ∉ mkeys (pendingMap (bumpId g2))) as Hu'.
    { simpl. rewrite Hpm, <- mget_None. unfold mhas in Hu. by destruct (mget (pendingMap g) u). }
    assert (s ∉ mkeys (shortIdIndex (bumpId g2))) as Hs'.
    { simpl. rewrite Hsi, <- mget_None. unfold mhas in Hs. by destruct (mget (shortIdIndex g) s). }
    split.
    + apply inv_add; [by apply inv_bump|done|done|]. intros p [= <-]. simpl. lia.
    + rewrite waiting_add by (done || by apply inv_bump). simpl. rewrite HT2. solve_Permutation.
Qed.

Lemma restoreOne_tally now n g raw ps :
  Inv g -> Tally ps g ->
  Inv (restoreOne config hmacHex now (n, g) raw).2 /\ Tally ps (restoreOne config hmacHex now (n, g) raw).2.
Proof.
  intros H HT. unfold restoreOne. destruct raw as [r|]; [|done]. destruct (_ <=? _); [done|].
  destruct (snapshotApprovalParams _) as [[dp canonical]|]; [|done].
  destruct (snapshotCallbackOwner _ _) as [owner|]; [|done].
  destruct (_ || _) eqn:E; [done|]. apply orb_false_iff in E as [Hr Hs].
  destruct (createApprovalCacheKey _ _ _ _ _) as [key|]; [|done]. simpl.
  match goal with |- Inv (addPending g ?q key None ?due) /\ _ =>
    assert (requestId q ∉ mkeys (pendingMap g)) as Hr'
      by (simpl; rewrite <- mget_None; unfold mhas in Hr; by destruct (mget (pendingMap g) _));
    assert (shortId q ∉ mkeys (shortIdIndex g)) as Hs'
      by (simpl; rewrite <- mget_None; unfold mhas in Hs; by destruct (mget (shortIdIndex g) _))
  end.
  split; [by apply inv_add|]. unfold Tally. by rewrite waiting_add.
Qed.

Lemma restorePending_tally now rs n g ps :
  Inv g -> Tally ps g ->
  Inv (foldl (restoreOne config hmacHex now) (n, g) rs).2 /\
  Tally ps (foldl (restoreOne config hmacHex now) (n, g) rs).2.
Proof.
  revert n g. induction rs as [|r rs IH]; intros n g H HT; [done|]. cbn [foldl].
  destruct (restoreOne_tally now n g r ps H HT) as [H' HT'].
  destruct (restoreOne config hmacHex now (n, g) r) as [n' g']. by apply IH.
Qed.

Lemma restoreCache_caches now es n g :
  exists ac, (foldl (restoreCacheOne config numberOf now) (n, g) es).2 = setCaches g (denialCache g) ac.
Proof.
  revert n g. induction es as [|[[[k r] x]|] es IH]; intros n g; cbn [foldl restoreCacheOne].
  - exists (approvalCache g). by destruct g.
  - destruct (_ || _); [apply IH|]. destruct (IH (S n) (setCaches g (denialCache g)
      (TtlCache.set (approvalOptions config) (approvalCache g) k (mkCached r x) (Some (x - now)) now)))
      as [ac ->]. by exists ac.
  - apply IH.
Qed.

(** ** Shutdown *)

Lemma dispose_fold now l g :
  NoDup (mkeys (batchFollowers g)) ->
  let g' := foldl (disposeEntry now) g l in
  (forall k, k ∈ mkeys (batchFollowers g') <-> k ∈ mkeys (batchFollowers g) /\ k ∉ (fun p => cacheKey p.2) <$> l) /\
  (forall t, t ∈ timeouts g' <-> t ∈ timeouts g /\ timeoutId t ∉ (fun p => timer p.2) <$> l) /\
  (settled g').*1 ++ followersOf (batchFollowers g') ≡ₚ
    (settled g).*1 ++ leaders l ++ followersOf (batchFollowers g) /\
  nextId g' = nextId g.
Proof.
  revert g. induction l as [|[rid e] l IH]; intros g Hnd; cbn [foldl].
  - split_and!; [set_solver|set_solver|done|done].
  - set (g1 := disposeEntry now g (rid, e)).
    assert (NoDup (mkeys (batchFollowers g1))) as Hnd1 by by apply NoDup_mkeys_mdel.
    destruct (IH g1 Hnd1) as (IH1 & IH2 & IH3 & IH4). cbn zeta in *.
    rewrite !fmap_cons. cbn [snd]. split_and!.
    + intros k. rewrite IH1. unfold g1, disposeEntry. cbn [settle setPending batchFollowers snd].
      rewrite elem_of_mkeys_mdel, not_elem_of_cons. tauto.
    + intros t. rewrite IH2. unfold g1, disposeEntry. cbn [settle setPending timeouts snd].
      rewrite elem_of_cancelTimeout, not_elem_of_cons. tauto.
    + rewrite IH3, leaders_cons. unfold g1, disposeEntry. rewrite settled_settle.
      cbn [settle setPending batchFollowers settled snd].
      rewrite (followersOf_mdel (batchFollowers g) (cacheKey e)), waiters_app by done.
      solve_Permutation.
    + by rewrite IH4.
Qed.

Lemma dispose_tally g now ps :
  Inv g -> Tally ps g -> Inv (dispose g now) /\ Tally ps (dispose g now).
Proof.
  intros H HT. destruct (dispose_fold now (pendingMap g) g (inv_bf _ H)) as (H1 & H2 & H3 & H4).
  unfold dispose. set (g' := foldl (disposeEntry now) g (pendingMap g)) in *. cbn zeta in *.
  assert (batchFollowers g' = []) as Hbf.
  { destruct (batchFollowers g') as [|[k fs] l] eqn:E; [done|]. exfalso.
    destruct (H1 k) as [Hk _]. destruct Hk as [Hin Hout]; [left|].
    destruct (inv_follow _ H k Hin) as (rid & e & He & <-). apply Hout.
    apply list_elem_of_fmap. exists (rid, e). split; [done|by apply mget_elem_of]. }
  assert (timeouts g' = []) as Hts.
  { destruct (timeouts g') as [|t l] eqn:E; [done|]. exfalso.
    destruct (H2 t) as [Ht _]. destruct Ht as [Hin Hout]; [left|].
    destruct (inv_timeout _ H t Hin) as (e & He & Et). apply Hout. rewrite <- Et.
    apply list_elem_of_fmap. exists (timeoutRequest t, e). split; [done|by apply mget_elem_of]. }
  rewrite Hbf in H3. unfold followersOf in H3 at 1. simpl in H3. rewrite app_nil_r in H3.
  assert (Tally ps (mkGate [] [] [] [] [] (timeouts g') (nextId g') (settled g'))) as HT'.
  { unfold Tally, waiting in *. simpl. by rewrite app_nil_r, HT, H3. }
  split; [|done]. rewrite Hts. apply inv_cleared.
  intros p. rewrite H3, H4. apply (inv_fresh _ H).
Qed.

(** ** Runs *)

Lemma step_tally g op ps :
  Inv g -> freshIds g op = true -> Tally ps g ->
  Inv (step g op).2 /\ Tally (ps ++ issued (step g op).1) (step g op).2.
Proof.
  intros H Hf HT. destruct op as [i u s now|rid ok b rs now|id now|a now|a now|now|rs now|now|es now];
    cbn [step].
  - destruct (requestApproval config hmacHex g i u s now) as [r g'] eqn:E.
    by eapply request_tally.
  - simpl. rewrite app_nil_r. by apply resolve_tally.
  - simpl. rewrite app_nil_r. destruct (fire_resolve g id now H) as [->|(t & _ & _ & _ & ->)]; [done|].
    by apply resolve_tally.
  - simpl. rewrite app_nil_r. split; [by apply inv_setCaches|done].
  - simpl. rewrite app_nil_r. split; [by apply inv_setCaches|done].
  - simpl. rewrite app_nil_r. by apply dispose_tally.
  - simpl. rewrite app_nil_r. by apply restorePending_tally.
  - simpl. rewrite app_nil_r. split; [by apply inv_setCaches|done].
  - simpl. rewrite app_nil_r. unfold restoreApprovalCache.
    destruct (restoreCache_caches now es 0 g) as [ac ->]. split; [by apply inv_setCaches|done].
Qed.

Lemma run_tally ops g ps :
  Inv g -> freshRun g ops = true -> Tally ps g ->
  Inv (run g ops).2 /\ Tally (ps ++ concat (issued <$> (run g ops).1)) (run g ops).2.
Proof.
  revert g ps. induction ops as [|op ops IH]; intros g ps H Hf HT; simpl in *.
  { by rewrite app_nil_r. }
  apply andb_prop in Hf as [Hf Hf']. destruct (step_tally g op ps H Hf HT) as [H' HT'].
  destruct (step g op) as [r g'] eqn:E. simpl in *. specialize (IH g' _ H' Hf' HT').
  destruct (run g' ops) as [l g'']. csimpl. by rewrite app_assoc.
Qed.

Lemma tally_nodup g op ps :
  Inv g -> freshIds g op = true -> Tally ps g -> NoDup ps -> NoDup (ps ++ issued (step g op).1).
Proof.
  intros H Hf HT Hnd. apply NoDup_app. split_and!; [done| |].
  - intros p Hp Hi. unfold Tally in HT. rewrite HT in Hp. apply (inv_fresh _ H) in Hp.
    destruct op as [i u s now| | | | | | | |]; simpl in Hi; try by apply elem_of_nil in Hi.
    unfold requestApproval in Hi. repeat case_match; simplify_eq/=; try by apply elem_of_nil in Hi.
    all: apply list_elem_of_singleton in Hi; simpl in *; lia.
  - destruct (step g op).1 as [[|p]|]; simpl; [constructor|apply NoDup_singleton|constructor].
Qed.

Lemma run_nodup ops g ps :
  Inv g -> freshRun g ops = true -> Tally ps g -> NoDup ps ->
  NoDup (ps ++ concat (issued <$> (run g ops).1)).
Proof.
  revert g ps. induction ops as [|op ops IH]; intros g ps H Hf HT Hnd; simpl in *.
  { by rewrite app_nil_r. }
  apply andb_prop in Hf as [Hf Hf']. destruct (step_tally g op ps H Hf HT) as [H' HT'].
  pose proof (tally_nodup g op ps H Hf HT Hnd) as Hnd'.
  destruct (step g op) as [r g'] eqn:E. simpl in *. specialize (IH g' _ H' Hf' HT' Hnd').
  destruct (run g' ops) as [l g'']. csimpl. by rewrite app_assoc.
Qed.

(** A waiting promise waits for a pending request. *)
Lemma waiting_entry g p :
  Inv g -> p ∈ waiting g ->
  exists rid e, mget (pendingMap g) rid = Some e /\
    p ∈ waiters e (default [] (mget (batchFollowers g) (cacheKey e))).
Proof.
  intros H Hp. unfold waiting in Hp. apply elem_of_app in Hp as [Hp|Hp].
  - apply list_elem_of_omap in Hp as ([rid e] & Hin & Hr). simpl in Hr.
    exists rid, e. split; [by apply elem_of_mget; [apply H|]|]. rewrite waiters_app, Hr. left.
  - unfold followersOf in Hp.
    apply list_elem_of_In, in_concat in Hp as (fs & Hfs%list_elem_of_In & Hp%list_elem_of_In).
    apply list_elem_of_fmap in Hfs as ([k fs'] & -> & Hin). simpl in Hp.
    assert (mget (batchFollowers g) k = Some fs') as Hk by (apply elem_of_mget; [apply H|done]).
    destruct (inv_follow _ H k) as (rid & e & He & <-); [apply mget_is_Some; by eexists|].
    exists rid, e. split; [done|]. rewrite waiters_app, Hk. set_solver.
Qed.

(** A due timeout does fire. *)
Lemma fire_due g t now :
  Inv g -> t ∈ timeouts g -> timeoutDue t <= now ->
  fireTimeout config g (timeoutId t) now =
  resolveApproval config g (timeoutRequest t) false "system:timeout"
    (Some "Approval request timed out") now.
Proof.
  intros H Ht Hnow. unfold fireTimeout.
  destruct (list_find _ _) as [[i x]|] eqn:Ef.
  - pose proof (fire_resolve g (timeoutId t) now H) as HF. unfold fireTimeout in HF. rewrite Ef in HF.
    apply list_find_Some in Ef as (Hi & [Hx _] & _). apply list_elem_of_lookup_2 in Hi.
    assert (x = t) as -> by by eapply timeout_inj.
    destruct HF as [E|(t' & Ht' & Hid' & _ & E)]; [|by rewrite E, (timeout_inj g t' t)].
    destruct (inv_timeout _ H t Ht) as (e & He & _). exfalso.
    assert (mget (pendingMap g) (timeoutRequest t) = None) as Hn; [|congruence].
    rewrite <- E. unfold resolveApproval. cbn [setPending pendingMap]. rewrite He.
    destruct (cacheDecision _ _ _ _ _). cbn [settle setCaches setPending pendingMap].
    apply mget_mdel_eq.
  - apply list_find_None in Ef. rewrite Forall_forall in Ef. by destruct (Ef t Ht).
Qed.

(** A waiting promise is settled when the timeout of its request fires. *)
Lemma waiting_timeout g p :
  Inv g -> p ∈ waiting g ->
  exists t, t ∈ timeouts g /\ forall now, timeoutDue t <= now ->
  exists r, (p, r) ∈ settled (fireTimeout config g (timeoutId t) now) /\
    approved r = false /\ approvedBy r = "system:timeout".
Proof.
  intros H Hp. destruct (waiting_entry g p H Hp) as (rid & e & He & Hw).
  destruct (inv_timer _ H _ _ He) as (t & Ht & Hid & <-). exists t. split; [done|].
  intros now Hnow. rewrite fire_due by done.
  unfold resolveApproval. rewrite He. destruct (cacheDecision _ _ _ _ _) as [dc ac].
  eexists (mkResolution _ false "system:timeout" _ _). split; [|done].
  unfold settle. cbn [settled setCaches setPending]. apply elem_of_app. right.
  apply list_elem_of_fmap. exists p. split; [reflexivity|done].
Qed.

(** C21: Every caller of the gate is answered exactly once.  In any run in which
    drawn identifiers are not in use, the promises handed out are pairwise
    distinct and are exactly the settled ones and the waiting ones together,
    each once, through approvals, denials, timeouts, batching, cache clearing,
    restarts and shutdown alike; and a waiting caller always has a scheduled
    timeout that settles it with a denial. *)
Theorem gate_settles_once (ops : list Op) :
  freshRun createApprovalGate ops = true ->
  let g := (run createApprovalGate ops).2 in
  let handed := concat (issued <$> (run createApprovalGate ops).1) in
  NoDup handed /\ handed ≡ₚ (settled g).*1 ++ waiting g /\
  forall p, p ∈ waiting g -> exists t, t ∈ timeouts g /\ forall now, timeoutDue t <= now ->
    exists r, (p, r) ∈ settled (fireTimeout config g (timeoutId t) now) /\
      approved r = false /\ approvedBy r = "system:timeout".
Proof.
  intros Hf.
  assert (Tally [] createApprovalGate) as HT0 by apply Permutation_refl.
  pose proof (run_tally ops createApprovalGate [] inv_init Hf HT0) as [HI HT].
  pose proof (run_nodup ops createApprovalGate [] inv_init Hf HT0 (NoDup_nil_2)) as Hnd.
  destruct (run createApprovalGate ops) as [replies g]. simpl in *. split_and!; try done.
  intros p Hp. by apply waiting_timeout.
Qed.

Lemma gate_run_inv ops : freshRun createApprovalGate ops = true -> Inv (run createApprovalGate ops).2.
Proof. intros Hf. by apply (run_tally ops createApprovalGate [] inv_init Hf (Permutation_refl _)). Qed.

(** The callback index is an exact mirror of the pending table.  In any run
    in which drawn identifiers are not in use, a short identifier resolves to a
    request exactly when that request is pending under it; so once a request is
    approved, denied, timed out or disposed of, its callback resolves to
    nothing and a replayed callback is rejected. *)
Theorem callback_replay_rejected (ops : list Op) (sid : string) (req : ApprovalRequest) :
  freshRun createApprovalGate ops = true ->
  let g := (run createApprovalGate ops).2 in
  (getRequestByShortId g sid = Some req <-> req ∈ pending g /\ shortId req = sid) /\
  (forall ok b rs now, getRequestByShortId g sid = Some req ->
   getRequestByShortId (resolveApproval config g (requestId req) ok b rs now) sid = None).
Proof.
  intros Hf g. pose proof (gate_run_inv ops Hf) as H. fold g in H. clearbody g.
  assert (forall r, getRequestByShortId g sid = Some r <->
    exists rid e, mget (pendingMap g) rid = Some e /\ request e = r /\ shortId r = sid) as Hget.
  { intros r. unfold getRequestByShortId, getRequest. rewrite bind_Some. split.
    - intros (rid & Hs & (e & He & ->)%fmap_Some). exists rid, e. split; [done|]. split; [done|].
      apply (inv_short _ H) in Hs as (e' & He' & <-). by simplify_eq.
    - intros (rid & e & He & <- & Hs). exists rid. split; [apply (inv_short _ H); eauto|].
      by rewrite He. }
  split.
  - rewrite Hget. unfold pending. rewrite list_elem_of_fmap. split.
    + intros (rid & e & He & Hr & Hs). split; [|done]. exists (rid, e). split; [done|].
      by apply mget_elem_of.
    + intros (([rid e] & Hr & Hin) & Hs). exists rid, e. split; [by apply elem_of_mget; [apply H|]|].
      by subst.
  - intros ok b rs now (rid & e & He & <- & <-)%Hget. rewrite (inv_rid _ H _ _ He).
    unfold resolveApproval. rewrite He. destruct (cacheDecision _ _ _ _ _) as [dc ac].
    unfold getRequestByShortId. cbn [settle setCaches setPending shortIdIndex].
    by rewrite mget_mdel_eq.
Qed.

(** ** The identity behind a cache key *)

Lemma prefix_split t a c t' a' c' x y :
  cacheAuthorityPrefix t a c +:+ x = cacheAuthorityPrefix t' a' c' +:+ y ->
  t = t' /\ a = a' /\ c = c' /\ x = y.
Proof.
  unfold cacheAuthorityPrefix. rewrite !app_assoc_str. intros E%(inj (String.append "h1:")).
  apply (str_split isNumeralChar) in E as [El E]; try done; try apply pretty_nat_numeral.
  apply (inj pretty) in El. apply (inj (String.append ":")) in E.
  apply app_length_inj in E as [E1 E2]; [|done].
  apply (inj (String.append ":")) in E2 as ->. apply stringifyArray_inj in E1. by simplify_eq.
Qed.

(** Everything an operator sees of a request, or is asked about. *)
Definition sameAction (i i' : RequestInput) (o o' : CallbackOwner) (c c' : string) : Prop :=
  inToolName i = inToolName i' /\ inAction i = inAction i' /\ inAgentId i = inAgentId i' /\
  inTenantId i = inTenantId i' /\ inConversationRef i = inConversationRef i' /\
  inPrincipal i = inPrincipal i' /\ inTrust i = inTrust i' /\ o = o' /\ c = c'.

(** The text whose keyed digest ends the cache key of a request. *)
Definition digestText (i : RequestInput) (o : CallbackOwner) (c : string) : string :=
  match inTrust i with
  | Some t => ("comis.approval.cache.v1" +:+ String "000"%char "") +:+ cacheIdentity i t o c
  | None => ""
  end.

(** Two texts on which the keyed digest collides. *)
Definition Collides (x y : string) : Prop :=
  x <> y /\ hmacHex (fingerprintSecret config) x = hmacHex (fingerprintSecret config) y.

Lemma cacheKey_inj i i' o o' c c' k :
  createApprovalCacheKey config hmacHex i o c = Ok k ->
  createApprovalCacheKey config hmacHex i' o' c' = Ok k ->
  Collides (digestText i o c) (digestText i' o' c') \/ sameAction i i' o o' c c'.
Proof.
  destruct (decide (digestText i o c = digestText i' o' c')) as [E|Hne].
  2: { unfold createApprovalCacheKey, createApprovalHmac, digestText, Collides in *.
    destruct (inTrust i) as [t|]; [|done]. destruct (inTrust i') as [t'|]; [|done].
    do 2 (case_bool_decide; [done|]). case_decide; [done|].
    intros Hk Hk'. rewrite <- Hk' in Hk. apply Ok_inj in Hk as E.
    apply prefix_split in E as (_ & _ & _ & E). left. by split. }
  unfold createApprovalCacheKey, digestText in *.
  destruct (inTrust i) as [t|] eqn:Et; [|done]. destruct (inTrust i') as [t'|] eqn:Et'; [|done].
  intros _ _. right.
  apply (inj (String.append _)) in E. apply stringifyArray_inj in E.
  destruct o as [o1 o2 o3 o4 o5], o' as [p1 p2 p3 p4 p5]. simpl in E. unfold sameAction.
  injection E as ? ? ? ? Ht ? ? ? ? ? ? ? ?. subst.
  assert (t = t') as -> by (by destruct t, t'). split_and!; congruence.
Qed.

Lemma startsWith_app p s : startsWith p s = true <-> exists x, s = p +:+ x.
Proof.
  revert s. induction p as [|c p IH]; intros s; simpl.
  - split; [by exists s|done].
  - destruct s as [|d s]; [split; [done|by intros [x [=]]]|].
    rewrite andb_true_iff, bool_decide_eq_true, IH. split.
    + intros [-> [x ->]]. by exists x.
    + intros [x [= -> ->]]. split; [done|by exists x].
Qed.

(** A cache key stands for one exact action.  Unless the keyed digest
    collides on the two requests' texts, two requests share a key exactly when
    tool, action, agent, tenant, conversation, principal, trust level, callback
    owner and canonical parameters all agree; and clearing one conversation's cache removes exactly
    the keys of that tenant, agent and conversation, whatever characters the
    identifiers contain. *)
Theorem cacheKey_identity (i i' : RequestInput) (o o' : CallbackOwner) (c c' k k' : string) :
  ~ Collides (digestText i o c) (digestText i' o' c') ->
  createApprovalCacheKey config hmacHex i o c = Ok k ->
  createApprovalCacheKey config hmacHex i' o' c' = Ok k' ->
  (k = k' <-> sameAction i i' o o' c c') /\
  (startsWith (cacheAuthorityPrefix (inTenantId i) (inAgentId i) (inConversationRef i)) k' = true <->
   inTenantId i = inTenantId i' /\ inAgentId i = inAgentId i' /\
   inConversationRef i = inConversationRef i').
Proof.
  intros Hinj H H'. split.
  - split; [intros ->; by destruct (cacheKey_inj i i' o o' c c' k')|].
    intros (E1 & E2 & E3 & E4 & E5 & E6 & E7 & -> & ->).
    unfold createApprovalCacheKey, cacheIdentity in *. rewrite E1, E2, E3, E4, E5, E6, E7 in H. congruence.
  - rewrite startsWith_app. unfold createApprovalCacheKey in H'.
    destruct (inTrust i'); [|done]. case_bool_decide; [done|].
    destruct (createApprovalHmac _ _ _ _) as [d|]; [|done]. apply Ok_inj in H' as <-. split.
    + intros [x E]. symmetry in E. by apply prefix_split in E as (-> & -> & -> & _).
    + intros (-> & -> & ->). by exists d.
Qed.

(** ** Where a cached approval comes from *)

(** What an operation decided, and what a restart put back into the approval
    cache. *)
Inductive Event :=
| Decided (e : PendingEntry) (ok : bool) (by_ : string) (now : Z)
| Restored (key : string) (expires : Z).

Definition eventsOf (g : Gate) (op : Op) : list Event :=
  match op with
  | Resolve rid ok b _ now =>
    match mget (pendingMap g) rid with Some e => [Decided e ok b now] | None => [] end
  | FireTimeout id now =>
    match list_find (fun t => timeoutId t = id /\ timeoutDue t <= now) (timeouts g) with
    | Some (_, t) =>
      match mget (pendingMap g) (timeoutRequest t) with
      | Some e => [Decided e false "system:timeout" now]
      | None => []
      end
    | None => []
    end
  | RestoreCache es _ =>
    omap (fun r => match r with Some (key, _, x) => Some (Restored key x) | None => None end) es
  | _ => []
  end.

Fixpoint history (g : Gate) (ops : list Op) : list Event :=
  match ops with
  | [] => []
  | op :: ops => eventsOf g op ++ history (step g op).2 ops
  end.

(** An event that withdraws a cached approval of [key]: any denial but the
    mechanical ones of a shutdown. *)
Definition withdraws (key : string) (ev : Event) : bool :=
  match ev with
  | Decided e false b _ => bool_decide (cacheKey e = key) && negb (String.eqb b "system:shutdown")
  | _ => false
  end.

(** The history justifies an approval of [key] held until [expires]. *)
Definition Justified (h : list Event) (key : string) (expires : Z) : Prop :=
  exists pre ev post, h = pre ++ ev :: post /\ Forall (fun ev => withdraws key ev = false) post /\
  match ev with
  | Decided e ok b t => cacheKey e = key /\ ok = true /\ b <> "system:cached-approval" /\
      expires = t + batchApprovalTtlMs config
  | Restored key' x => key' = key /\ expires = x
  end.

Definition CacheInv (h : list Event) (g : Gate) : Prop :=
  forall key ce, (key, ce) ∈ approvalCache g -> Justified h key (TtlCache.expiresAt ce).

Lemma justified_app h h' key x :
  Justified h key x -> Forall (fun ev => withdraws key ev = false) h' -> Justified (h ++ h') key x.
Proof.
  intros (pre & ev & post & -> & Hp & He) H'. exists pre, ev, (post ++ h').
  rewrite <- app_assoc. split; [done|]. split; [by apply Forall_app|done].
Qed.

Lemma get_elem {T} (st : jsmap string (TtlCache.CacheEntry T)) k now p :
  p ∈ (TtlCache.get st k now).2 -> p ∈ st.
Proof.
  unfold TtlCache.get. destruct (mget st k); [|done]. destruct (_ <=? _); [|done].
  by intros [? _]%elem_of_mdel_inv.
Qed.

Lemma resolve_cacheInv h g rid ok b rs now :
  CacheInv h g ->
  CacheInv (h ++ match mget (pendingMap g) rid with Some e => [Decided e ok b now] | None => [] end)
    (resolveApproval config g rid ok b rs now).
Proof.
  intros H. unfold resolveApproval.
  destruct (mget (pendingMap g) rid) as [e|]; [|by rewrite app_nil_r].
  unfold cacheDecision. cbn [approved approvedBy resolvedAt setPending denialCache approvalCache].
  assert (forall key ce, (key, ce) ∈ approvalCache g -> withdraws key (Decided e ok b now) = false ->
    Justified (h ++ [Decided e ok b now]) key (TtlCache.expiresAt ce)) as Hold.
  { intros key ce Hin Hw. apply justified_app; [by apply H|]. by constructor. }
  destruct ok.
  - destruct (_ && _) eqn:E; intros key ce; cbn [settle setCaches approvalCache].
    + apply andb_prop in E as [Hb Ht]. unfold TtlCache.set. simpl.
      intros [[= -> ->]|Hin]%elem_of_mset_inv; [|by apply Hold].
      exists h, (Decided e true b now), []. split; [done|]. split; [constructor|].
      split_and!; try done. intros ->. done.
    + intros Hin. by apply Hold.
  - destruct (String.eqb b "system:shutdown") eqn:E1.
    { intros key ce Hin. apply Hold; [done|]. simpl. by rewrite E1, andb_false_r. }
    destruct (String.eqb b "system:timeout"); intros key ce;
      cbn [settle setCaches approvalCache]; intros [Hin Hne]%elem_of_mdel_inv; simpl in Hne;
      (apply Hold; [done|]); simpl; by rewrite bool_decide_false by congruence.
Qed.

Lemma restoreCache_cacheInv now es n h g :
  CacheInv h g ->
  CacheInv (h ++ omap (fun r => match r with Some (key, _, x) => Some (Restored key x) | None => None end) es)
    (foldl (restoreCacheOne config numberOf now) (n, g) es).2.
Proof.
  revert n h g. induction es as [|[[[k r] x]|] es IH]; intros n h g H; cbn [foldl restoreCacheOne].
  - by rewrite app_nil_r.
  - csimpl.
    assert (forall g', CacheInv (h ++ [Restored k x]) g' ->
      CacheInv (h ++ Restored k x :: omap (fun r => match r with
        Some (key, _, x) => Some (Restored key x) | None => None end) es)
        (foldl (restoreCacheOne config numberOf now) (n, g') es).2) as Hgo.
    { intros g' Hg'. change (Restored k x :: ?l) with ([Restored k x] ++ l). rewrite app_assoc. by apply IH. }
    destruct (_ || _).
    + apply Hgo. intros key ce Hin. apply justified_app; [by apply H|]. by constructor.
    + change (Restored k x :: ?l) with ([Restored k x] ++ l). rewrite app_assoc. apply IH.
      intros key ce. cbn [setCaches approvalCache]. unfold TtlCache.set. simpl.
      intros [[= -> ->]|Hin]%elem_of_mset_inv.
      * exists h, (Restored k x), []. split; [done|]. split; [constructor|]. simpl. split; [done|]. lia.
      * apply justified_app; [by apply H|]. by constructor.
  - csimpl. by apply IH.
Qed.

Lemma request_approvalCache g i u s now r g' p :
  requestApproval config hmacHex g i u s now = (r, g') -> p ∈ approvalCache g' -> p ∈ approvalCache g.
Proof.
  unfold requestApproval.
  destruct (identify config hmacHex i) as [[[owner display] key]|e]; [|by intros [= <- <-]].
  destruct (inTrust i) as [trust|]; [|by intros [= <- <-]].
  destruct (match _ with Some d => _ | None => None end) as [d|]; [by intros [= <- <-]|].
  assert (forall p, p ∈ (if 0 <? batchApprovalTtlMs config
    then TtlCache.get (approvalCache g) key now else (None, approvalCache g)).2 ->
    p ∈ approvalCache g) as Hget.
  { intros q. destruct (0 <? _); [apply get_elem|done]. }
  destruct (if 0 <? _ then _ else _) as [[ca|] ac]; [intros [= <- <-]; apply Hget|].
  destruct (TtlCache.get _ key now) as [[cd|] dc]; [intros [= <- <-]; apply Hget|].
  destruct (findKey _ key); intros [= <- <-]; apply Hget.
Qed.

Lemma step_cacheInv h g op :
  Inv g -> CacheInv h g -> CacheInv (h ++ eventsOf g op) (step g op).2.
Proof.
  intros HI H. destruct op as [i u s now|rid ok b rs now|id now|a now|a now|now|rs now|now|es now];
    cbn [step eventsOf]; rewrite ?app_nil_r; try done.
  - intros key ce Hin. apply H. destruct (requestApproval config hmacHex g i u s now) as [r g'] eqn:E.
    by eapply request_approvalCache.
  - by apply resolve_cacheInv.
  - unfold fireTimeout. destruct (list_find _ _) as [[n t]|]; [|by rewrite app_nil_r].
    by apply (resolve_cacheInv h (setPending g (pendingMap g) (shortIdIndex g) (batchFollowers g)
      (cancelTimeout (timeouts g) id))).
  - intros key ce. cbn [snd clearApprovalCache setCaches approvalCache].
    unfold clearCache. destruct a as [[[t ag] c]|]; [|by intros ?%elem_of_nil].
    intros [_ Hin]%list_elem_of_filter. simpl in Hin. apply list_elem_of_filter in Hin as [_ Hin]. by apply H.
  - by intros key ce ?%elem_of_nil.
  - intros key ce Hin. apply H. revert Hin. cbn [snd]. unfold restorePending. generalize 0%nat. clear H HI.
    revert g. induction rs as [|r rs IH]; intros g n; [done|]. cbn [foldl].
    destruct (restoreOne config hmacHex now (n, g) r) as [n' g'] eqn:E. intros Hin. apply IH in Hin.
    unfold restoreOne in E. repeat (case_match; simplify_eq/=; try done).
  - intros key ce. cbn [snd serializeApprovalCache setCaches approvalCache]. simpl.
    intros [_ Hin]%list_elem_of_filter. by apply H.
  - by apply restoreCache_cacheInv.
Qed.

(** Each pending entry is keyed by its own request, whose parameters are in
    canonical form and whose callback owner is valid. *)
Definition EntryKey (e : PendingEntry) : Prop :=
  let r := request e in
  let c := render (JObject (params r)) in
  createApprovalCacheKey config hmacHex (inputOfRequest r) (callbackOwner r) c = Ok (cacheKey e) /\
  snapshotApprovalParams (toJs (JObject (params r))) = Ok (params r, c) /\
  snapshotCallbackOwner (Some (callbackOwner r)) (tenantId r) = Ok (callbackOwner r).

Definition KeyInv (g : Gate) : Prop := forall p, p ∈ pendingMap g -> EntryKey p.2.

Lemma snapshotApprovalParams_render v es c :
  snapshotApprovalParams v = Ok (es, c) -> c = render (JObject es).
Proof.
  unfold snapshotApprovalParams. destruct (snapshotValue v) as [[j c']|] eqn:E; [|done].
  apply snapshotValue_render in E. destruct j; try done. by intros [= <- <-].
Qed.

(** An already sorted list is its own sorting. *)
Lemma sortKeys_id {A} (l : list (string * A)) : Ordered l -> sortKeys l = l.
Proof.
  induction l as [|[k v] l IH]; simpl; [done|]. intros [Hk Ho]. rewrite IH by done.
  destruct l as [|[k' v'] l]; [done|]. simpl. apply Forall_cons in Hk as [Hk _]. simpl in Hk.
  apply Is_true_true in Hk. unfold String.le in Hk. by rewrite Hk.
Qed.

Lemma collect_ok {A} (l : list (A * Snapshot)) vs :
  collect l = Ok vs -> l = (fun p => (p.1, Ok p.2)) <$> vs.
Proof.
  revert vs. induction l as [|[a [v|e]] l IH]; simpl; intros vs E; [by injection E as <-| |done].
  destruct (collect l) as [vs'|]; [|done]. injection E as <-. csimpl. by rewrite <- IH.
Qed.

Lemma collect_map {A} (vs : list (A * (Json * string))) :
  collect ((fun p => (p.1, Ok p.2)) <$> vs) = Ok vs.
Proof. induction vs as [|[a v] vs IH]; [done|]. csimpl. by rewrite IH. Qed.

(** Taking a snapshot of a snapshot changes nothing. *)
Lemma snapshotValue_idem v j c : snapshotValue v = Ok (j, c) -> snapshotValue (toJs j) = Ok (j, c).
Proof.
  revert j c. induction v as [|s|b|n| |sf l IH|sf l IH] using JsValue_nested_ind; intros j c; simpl.
  - by intros [= <- <-].
  - by intros [= <- <-].
  - by intros [= <- <-].
  - destruct n; [|done]. by intros [= <- <-].
  - done.
  - destruct sf; [|done]. destruct (collect _) as [vs|] eqn:E; [|done]. intros [= <- <-].
    apply collect_ok in E. simpl.
    assert ((fun v => (tt, snapshotValue v)) <$> (toJs <$> ((fun p => p.2.1) <$> vs)) =
            (fun p => (p.1, Ok p.2)) <$> vs) as ->; [|by rewrite collect_map].
    rewrite <- !list_fmap_compose. apply map_ext_Forall, Forall_forall. intros [[] [j c]] Hin. simpl.
    assert ((tt, Ok (j, c)) ∈ ((fun v => (tt, snapshotValue v)) <$> l)) as (v & [= Hv] & Hl)%list_elem_of_fmap.
    { rewrite E. apply list_elem_of_fmap. by exists (tt, (j, c)). }
    rewrite Forall_forall in IH. by rewrite (IH v Hl j c).
  - destruct sf; [|done]. destruct (collect _) as [vs|] eqn:E; [|done]. intros [= <- <-].
    apply collect_ok in E. simpl.
    assert (omap (fun p => match p.2 with Some v => Some (p.1, snapshotValue v) | None => None end)
              ((fun p => (p.1, Some (toJs p.2))) <$> ((fun p => (p.1, p.2.1)) <$> vs)) =
            (fun p => (p.1, Ok p.2)) <$> vs) as ->.
    { rewrite <- list_fmap_compose. 
      assert (Forall (fun p => snapshotValue (toJs p.2.1) = Ok p.2) vs) as Hvs.
      { apply Forall_forall. intros [k [j c]] Hin. simpl.
        assert ((k, Ok (j, c)) ∈ sortKeys (omap (fun p => match p.2 with
          | Some v => Some (p.1, snapshotValue v) | None => None end) l)) as Hs.
        { rewrite E. apply list_elem_of_fmap. by exists (k, (j, c)). }
        rewrite sortKeys_perm in Hs.
        apply list_elem_of_omap in Hs as ([k' [v|]] & Hl & Hv); simpl in Hv; [|done].
        injection Hv as <- Hv. rewrite Forall_forall in IH. by apply (IH _ Hl). }
      clear E. induction Hvs as [|[k v] vs Hv _ IHv]; [done|]. csimpl in *. by rewrite Hv, IHv. }
    rewrite sortKeys_id; [by rewrite collect_map|]. rewrite <- E. apply sortKeys_ordered.
Qed.

Lemma snapshotApprovalParams_idem v es c :
  snapshotApprovalParams v = Ok (es, c) -> snapshotApprovalParams (toJs (JObject es)) = Ok (es, c).
Proof.
  unfold snapshotApprovalParams. destruct (snapshotValue v) as [[j c']|] eqn:E; [|done].
  apply snapshotValue_idem in E. destruct j; try done. intros [= <- <-]. by rewrite E.
Qed.

Lemma snapshotCallbackOwner_ok raw t o :
  snapshotCallbackOwner raw t = Ok o -> raw = Some o /\ snapshotCallbackOwner (Some o) t = Ok o.
Proof.
  intros H. assert (raw = Some o) as ->; [|done]. unfold snapshotCallbackOwner in H.
  destruct raw as [o'|]; [|done]. destruct (_ || _); [done|]. case_bool_decide; [|done]. by injection H as <-.
Qed.

Lemma identify_ok i owner display key :
  identify config hmacHex i = Ok (owner, display, key) ->
  createApprovalCacheKey config hmacHex i owner display.2 = Ok key /\
  display.2 = render (JObject display.1) /\
  snapshotApprovalParams (toJs (JObject display.1)) = Ok display /\
  snapshotCallbackOwner (Some owner) (inTenantId i) = Ok owner.
Proof.
  unfold identify. destruct (snapshotApprovalParams (inParams i)) as [[su c1]|]; [|done].
  destruct (snapshotApprovalParams (inFingerprintParams i)) as [[fp c2]|]; [|done].
  destruct (snapshotCallbackOwner _ _) as [o|] eqn:Eo; [|done].
  destruct (createApprovalHmac _ _ _ _) as [d|]; [|done].
  destruct (snapshotApprovalParams (displayRecord _ _)) as [dp|] eqn:E; [|done].
  destruct (createApprovalCacheKey _ _ _ _ _) as [k|] eqn:Ek; [|done].
  destruct (_ || _); [done|]. intros [= <- <- <-]. split; [done|].
  destruct dp as [es c]. split; [by apply snapshotApprovalParams_render in E|].
  split; [by apply snapshotApprovalParams_idem in E|]. by apply snapshotCallbackOwner_ok in Eo as [_ ?].
Qed.

Lemma key_of_input i t o c k r :
  createApprovalCacheKey config hmacHex i o c = Ok k -> inTrust i = Some t ->
  toolName r = inToolName i -> action r = inAction i -> tenantId r = inTenantId i ->
  agentId r = inAgentId i -> conversationRef r = inConversationRef i ->
  resolvingPrincipalId r = inPrincipal i -> trustLevel r = t ->
  createApprovalCacheKey config hmacHex (inputOfRequest r) o c = Ok k.
Proof.
  intros H Ht E1 E2 E3 E4 E5 E6 E7. unfold createApprovalCacheKey, cacheIdentity, inputOfRequest in *.
  simpl. rewrite Ht in H. by rewrite E1, E2, E3, E4, E5, E6, E7.
Qed.

Lemma request_keyInv g i u s now : KeyInv g -> KeyInv (requestApproval config hmacHex g i u s now).2.
Proof.
  intros H. unfold requestApproval.
  destruct (identify config hmacHex i) as [[[owner display] key]|e] eqn:Ei; [|done].
  destruct (inTrust i) as [trust|] eqn:Et; [|done].
  destruct (match _ with Some d => _ | None => None end) as [d|]; [done|].
  destruct (if 0 <? _ then _ else _) as [[ca|] ac]; [done|].
  destruct (TtlCache.get _ key now) as [[cd|] dc]; [done|].
  destruct (findKey _ key); [done|]. intros p. cbn [snd addPending pendingMap].
  intros [->|Hin]%elem_of_mset_inv; [|by apply H].
  destruct (identify_ok _ _ _ _ Ei) as (Hk & Hd & Hs & Ho). unfold EntryKey.
  cbn [snd request cacheKey callbackOwner params tenantId]. rewrite <- Hd. split_and!; try done.
  - by eapply key_of_input.
  - by rewrite Hs; destruct display.
Qed.

Lemma restoreOne_keyInv now n g raw : KeyInv g -> KeyInv (restoreOne config hmacHex now (n, g) raw).2.
Proof.
  intros H. unfold restoreOne. destruct raw as [r|]; [|done]. destruct (_ <=? _); [done|].
  destruct (snapshotApprovalParams _) as [[dp canonical]|] eqn:E; [|done].
  destruct (snapshotCallbackOwner _ _) as [owner|] eqn:Eo; [|done]. destruct (_ || _); [done|].
  destruct (createApprovalCacheKey _ _ _ _ _) as [key|] eqn:Ek; [|done].
  intros p. cbn [snd addPending pendingMap]. intros [->|Hin]%elem_of_mset_inv; [|by apply H].
  pose proof (snapshotApprovalParams_render _ _ _ E) as Hc. unfold EntryKey.
  cbn [snd request cacheKey callbackOwner params tenantId]. rewrite <- Hc.
  apply snapshotApprovalParams_idem in E. by apply snapshotCallbackOwner_ok in Eo as [_ ?].
Qed.

Lemma resolve_keyInv g rid ok b rs now : KeyInv g -> KeyInv (resolveApproval config g rid ok b rs now).
Proof.
  intros H. unfold resolveApproval. destruct (mget (pendingMap g) rid) as [e|]; [|done].
  destruct (cacheDecision _ _ _ _ _). intros p [Hin _]%elem_of_mdel_inv. by apply H.
Qed.

Lemma step_keyInv g op :
  KeyInv g -> KeyInv (step g op).2 /\
  Forall (fun ev => match ev with Decided e _ _ _ => EntryKey e | _ => True end) (eventsOf g op).
Proof.
  intros H.
  assert (forall rid e, mget (pendingMap g) rid = Some e -> EntryKey e) as Hget.
  { intros rid e He%mget_elem_of. by apply (H (rid, e)). }
  destruct op as [i u s now|rid ok b rs now|id now|a now|a now|now|rs now|now|es now];
    cbn [step eventsOf]; try (split; [done|constructor]).
  - pose proof (request_keyInv g i u s now H). destruct (requestApproval _ _ _ _ _ _ _). by split; [|constructor].
  - split; [by apply resolve_keyInv|]. destruct (mget (pendingMap g) rid) eqn:E; constructor; eauto.
  - split; [|by repeat (case_match; try constructor); eauto].
    unfold fireTimeout. destruct (list_find _ _) as [[n t]|]; [|done]. by apply resolve_keyInv.
  - split; [by intros p ?%elem_of_nil|constructor].
  - split; [|constructor]. cbn [snd]. unfold restorePending. generalize 0%nat. clear Hget. revert g H.
    induction rs as [|r rs IH]; intros g H n; [done|]. cbn [foldl].
    pose proof (restoreOne_keyInv now n g r H). destruct (restoreOne _ _ _ _ _) as [n' g']. by apply IH.
  - unfold restoreApprovalCache. destruct (restoreCache_caches now es 0 g) as [ac Eac]. rewrite Eac.
    split; [done|]. apply Forall_forall. intros ev (r & _ & Hr)%list_elem_of_omap. by repeat case_match; simplify_eq.
Qed.

Lemma run_cacheInv ops g h :
  Inv g -> freshRun g ops = true -> CacheInv h g -> KeyInv g ->
  CacheInv (h ++ history g ops) (run g ops).2 /\
  Forall (fun ev => match ev with Decided e _ _ _ => EntryKey e | _ => True end) (history g ops).
Proof.
  revert g h. induction ops as [|op ops IH]; intros g h HI Hf HC HK; simpl in *.
  { by rewrite app_nil_r. }
  apply andb_prop in Hf as [Hf Hf'].
  destruct (step_tally g op _ HI Hf (Permutation_refl _)) as [HI' _].
  pose proof (step_cacheInv h g op HI HC) as HC'. destruct (step_keyInv g op HK) as [HK' HF].
  destruct (step g op) as [r g']. cbn [snd] in *. destruct (IH g' _ HI' Hf' HC' HK') as [IH1 IH2].
  destruct (run g' ops) as [l g'']. rewrite <- app_assoc in IH1. split; [done|]. by apply Forall_app.
Qed.

(** The other answers carry another name. *)
Ltac other_reply :=
  let E := fresh in intros E; apply (f_equal fst) in E; simpl in E; injection E as <-; done.

(** An answer from the approval cache comes from a live entry of its key. *)
Lemma cached_reply g i u s now res g' :
  requestApproval config hmacHex g i u s now = (Immediate res, g') ->
  approvedBy res = "system:cached-approval" ->
  exists owner display key ce, identify config hmacHex i = Ok (owner, display, key) /\
    (key, ce) ∈ approvalCache g /\ now < TtlCache.expiresAt ce.
Proof.
  unfold requestApproval, immediate.
  destruct (identify config hmacHex i) as [[[owner display] key]|e]; [|other_reply].
  destruct (inTrust i) as [trust|]; [|other_reply].
  destruct (match _ with Some d => _ | None => None end) as [d|]; [other_reply|].
  destruct (if 0 <? _ then _ else _) as [[ca|] ac] eqn:E.
  - intros _ _. destruct (0 <? _); [|done]. unfold TtlCache.get in E.
    destruct (mget (approvalCache g) key) as [ce|] eqn:Em; [|done]. destruct (_ <=? _) eqn:El; [done|].
    exists owner, display, key, ce. split; [done|]. split; [by apply mget_elem_of|lia].
  - clear E. destruct (TtlCache.get _ key now) as [[cd|] dc]; [other_reply|].
    by destruct (findKey _ key).
Qed.


(** ** Restart *)

Abbreviation live now r := (now - createdAt r < reqTimeoutMs r).

Lemma restoreOne_live now n g e :
  EntryKey e -> live now (request e) -> requestId (request e) ∉ mkeys (pendingMap g) ->
  shortId (request e) ∉ mkeys (shortIdIndex g) ->
  restoreOne config hmacHex now (n, g) (Some (request e)) =
  (S n, addPending g (request e) (cacheKey e) None (createdAt (request e) + reqTimeoutMs (request e))).
Proof.
  intros (Hk & Hs & Ho) Hl Hr Hsh. unfold restoreOne.
  rewrite (proj2 (Z.leb_gt _ _)) by lia. rewrite Hs, Ho. unfold mhas.
  apply mget_None in Hr, Hsh. rewrite Hr, Hsh. cbn [orb].
  destruct e as [[] key p tm]. cbn [request cacheKey requestId shortId toolName action params
    tenantId agentId conversationRef resolvingPrincipalId trustLevel callbackOwner createdAt
    reqTimeoutMs] in *. rewrite Hk.
  do 2 f_equal. simpl. lia.
Qed.

Lemma restoreOne_expired now n g r :
  ~ live now r -> restoreOne config hmacHex now (n, g) (Some r) = (n, g).
Proof. intros Hl. unfold restoreOne. by rewrite (proj2 (Z.leb_le _ _)) by lia. Qed.

Lemma restore_entries now es n g :
  Forall (fun p => EntryKey p.2 /\ requestId (request p.2) = p.1) es ->
  NoDup es.*1 -> NoDup ((fun p => shortId (request p.2)) <$> es) ->
  (forall p, p ∈ es -> (p.1 ∉ mkeys (pendingMap g)) /\ shortId (request p.2) ∉ mkeys (shortIdIndex g)) ->
  let kept := filter (fun p => live now (request p.2)) es in
  let res := foldl (restoreOne config hmacHex now) (n, g) ((fun p => Some (request p.2)) <$> es) in
  let keyed := fun p : string * PendingEntry => (request p.2, cacheKey p.2) in
  res.1 = (n + length kept)%nat /\
  keyed <$> pendingMap res.2 = (keyed <$> pendingMap g) ++ (keyed <$> kept) /\
  (fun t => (timeoutRequest t, timeoutDue t)) <$> timeouts res.2 =
    ((fun t => (timeoutRequest t, timeoutDue t)) <$> timeouts g) ++
    ((fun p => (p.1, createdAt (request p.2) + reqTimeoutMs (request p.2))) <$> kept).
Proof.
  revert n g. induction es as [|[rid e] es IH]; intros n g HF Hnd Hns Hd kept res keyed.
  { simpl. rewrite !app_nil_r. split; [lia|done]. }
  apply Forall_cons in HF as [[He Hrid] HF]. simpl in He, Hrid.
  rewrite fmap_cons in Hnd, Hns. apply NoDup_cons in Hnd as [Hr Hnd], Hns as [Hs Hns].
  destruct (Hd (rid, e)) as [Hd1 Hd2]; [left|]. simpl in Hd1, Hd2. simpl in Hr, Hs.
  subst res kept keyed. rewrite filter_cons. cbn [snd]. rewrite fmap_cons. cbn [foldl snd].
  case_decide as Hl.
  - rewrite restoreOne_live by (try done; by rewrite Hrid).
    destruct (IH (S n) (addPending g (request e) (cacheKey e) None
      (createdAt (request e) + reqTimeoutMs (request e)))) as (E1 & E2 & E3); try done.
    { intros p Hp. destruct (Hd p) as [H1 H2]; [by right|]. cbn [addPending pendingMap shortIdIndex].
      rewrite !elem_of_mkeys_mset, Hrid. split; intros [E|?]; try done.
      - apply Hr. rewrite <- E. apply list_elem_of_fmap. by exists p.
      - apply Hs. rewrite <- E. apply list_elem_of_fmap. by exists p. }
    rewrite E1, E2, E3. cbn [addPending pendingMap timeouts]. rewrite Hrid, mset_notin by done.
    rewrite !fmap_app, !fmap_cons, <- !app_assoc. split; [simpl; lia|done].
  - rewrite restoreOne_expired by done.
    apply IH; try done. intros p Hp. apply Hd. by right.
Qed.

Lemma short_nodup g : Inv g -> NoDup ((fun p => shortId (request p.2)) <$> pendingMap g).
Proof.
  intros H. apply NoDup_fmap_2_strong; [|by eapply NoDup_fmap_1, inv_pm].
  intros [rid e] [rid' e'] Hin Hin' E. apply elem_of_mget in Hin, Hin'; try apply H. simpl in E.
  pose proof (short_inj g rid rid' e e' H Hin Hin' E) as ->. congruence.
Qed.

Lemma run_keyInv ops g : KeyInv g -> KeyInv (run g ops).2.
Proof.
  revert g. induction ops as [|op ops IH]; intros g H; simpl; [done|].
  destruct (step_keyInv g op H) as [H' _]. destruct (step g op) as [r g'].
  specialize (IH g' H'). by destruct (run g' ops).
Qed.

(** Pending approvals survive a restart.  Serializing the pending requests
    of any reachable gate and restoring them into a new gate keeps exactly the
    requests whose timeout has not elapsed, unchanged and in order, each under
    the cache key it had and with its original deadline; the number returned is
    the number restored. *)
Theorem restart_keeps_pending (ops : list Op) (now : Z) :
  freshRun createApprovalGate ops = true ->
  let g := (run createApprovalGate ops).2 in
  let res := restorePending config hmacHex createApprovalGate (Some <$> serializePending g) now in
  serializePending res.2 = filter (fun r => live now r) (serializePending g) /\
  (fun p => (request p.2, cacheKey p.2)) <$> pendingMap res.2 =
    filter (fun rk => live now rk.1) ((fun p => (request p.2, cacheKey p.2)) <$> pendingMap g) /\
  (fun t => (timeoutRequest t, timeoutDue t)) <$> timeouts res.2 =
    (fun r => (requestId r, createdAt r + reqTimeoutMs r)) <$> serializePending res.2 /\
  res.1 = length (serializePending res.2).
Proof.
  intros Hf g. pose proof (gate_run_inv ops Hf) as HI.
  assert (KeyInv g) as HK by (apply run_keyInv; by intros ? ?%elem_of_nil).
  fold g in HI. clearbody g. intros res.
  destruct (restore_entries now (pendingMap g) 0 createApprovalGate) as (E1 & E2 & E3).
  - apply Forall_forall. intros [rid e] Hin. split; [by apply HK in Hin|].
    apply (inv_rid _ HI). by apply elem_of_mget; [apply HI|].
  - apply HI.
  - by apply short_nodup.
  - intros p _. split; by intros ?%elem_of_nil.
  - assert (res = foldl (restoreOne config hmacHex now) (0%nat, createApprovalGate)
      ((fun p => Some (request p.2)) <$> pendingMap g)) as Eres.
    { unfold res, restorePending, serializePending, pending. by rewrite <- list_fmap_compose. }
    rewrite <- Eres in E1, E2, E3. clearbody res. simpl in E1, E2, E3.
    assert (serializePending res.2 = (fun p => request p.2) <$>
      filter (fun p => live now (request p.2)) (pendingMap g)) as ES.
    { apply (f_equal (fmap fst)) in E2. by rewrite <- !list_fmap_compose in E2. }
    rewrite E2, E3, E1, ES, length_fmap. split_and!; try done.
    + unfold serializePending, pending. by rewrite filter_fmap.
    + by rewrite filter_fmap.
    + rewrite <- list_fmap_compose. apply map_ext_Forall, Forall_forall.
      intros [rid e] [_ Hin]%list_elem_of_filter. simpl.
      by rewrite (inv_rid _ HI rid e) by (by apply elem_of_mget; [apply HI|]).
Qed.

End Runs.

(** ** A run of the gate

  Two agents ask for the same write, an operator approves it, and the tool asks
  again and for a second action.  The identity function stands for the keyed
  digest. *)

Definition sampleConfig : GateConfig := mkGateConfig 30000 60000 60000 None "secret".
Definition sampleHmac (secret text : string) : string := text.
Definition sampleOwner : CallbackOwner := mkOwner "t1" "alice" "telegram" "chat-7" None.
Definition sampleInput (act : string) : RequestInput :=
  mkInput "fs" act (VObject true [("path", Some (VString "/tmp/a"))])
    (VObject true [("path", Some (VString "/tmp/a")); ("bytes", Some (VNumber (Some 3)))])
    "t1" "agent" "session" "trace" "conv" "principal" (Some user) (Some sampleOwner).
Definition sampleOps : list Op :=
  [Request (sampleInput "fs.write") "u1" "s1" 0; Request (sampleInput "fs.write") "u2" "s2" 1;
   Resolve "u1" true "alice" None 10; Request (sampleInput "fs.delete") "u3" "s3" 20].
Definition sampleGate : Gate :=
  (run sampleConfig sampleHmac (fun _ => None) createApprovalGate sampleOps).2.

Lemma gate_settles_once_witness :
  (settled sampleGate).*1 = [0; 2]%nat /\ waiting sampleGate = [3]%nat /\
  NoDup (concat (issued <$>
    (run sampleConfig sampleHmac (fun _ => None) createApprovalGate sampleOps).1)).
Proof.
  split; [vm_compute; reflexivity|]. split; [vm_compute; reflexivity|].
  refine (proj1 (gate_settles_once sampleConfig sampleHmac (fun _ => None) sampleOps _)).
  vm_compute. reflexivity.
Defined.

Definition sampleRequest : ApprovalRequest :=
  default (mkRequest "" "" "" "" [] "" "" "" "" user sampleOwner 0 0) (getRequest sampleGate "u3").

Lemma callback_replay_rejected_witness :
  getRequestByShortId sampleGate "s1" = None /\ sampleRequest ∈ pending sampleGate /\
  getRequestByShortId (resolveApproval sampleConfig sampleGate "u3" true "alice" None 30) "s3" = None.
Proof.
  assert (freshRun sampleConfig sampleHmac (fun _ => None) createApprovalGate sampleOps = true) as Hf
    by (vm_compute; reflexivity).
  assert (getRequestByShortId sampleGate "s3" = Some sampleRequest) as Hs by (vm_compute; reflexivity).
  pose proof (callback_replay_rejected sampleConfig sampleHmac (fun _ => None) sampleOps "s3"
    sampleRequest Hf) as [H1 H2].
  split; [vm_compute; reflexivity|]. split; [exact (proj1 (proj1 H1 Hs))|].
  exact (H2 true "alice" None 30 Hs).
Defined.

Lemma cacheKey_identity_witness :
  exists k k', createApprovalCacheKey sampleConfig sampleHmac (sampleInput "fs.write") sampleOwner "{}" = Ok k /\
    createApprovalCacheKey sampleConfig sampleHmac (sampleInput "fs.delete") sampleOwner "{}" = Ok k' /\
    k <> k' /\ startsWith (cacheAuthorityPrefix "t1" "agent" "conv") k' = true.
Proof.
  eexists _, _. split; [vm_compute; reflexivity|]. split; [vm_compute; reflexivity|].
  match goal with |- ?k <> ?k' /\ _ =>
    pose proof (cacheKey_identity sampleConfig sampleHmac (sampleInput "fs.write")
      (sampleInput "fs.delete") sampleOwner sampleOwner "{}" "{}" k k') as H end.
  destruct H as [H1 H2].
  - intros [Hne E]. apply Hne, E.
  - vm_compute; reflexivity.
  - vm_compute; reflexivity.
  - split; [|by apply H2]. intros E. apply H1 in E as (_ & E & _). discriminate E.
Defined.


Lemma restart_keeps_pending_witness :
  serializePending (restorePending sampleConfig sampleHmac createApprovalGate
    (Some <$> serializePending sampleGate) 100).2 = [sampleRequest].
Proof.
  assert (freshRun sampleConfig sampleHmac (fun _ => None) createApprovalGate sampleOps = true) as Hf
    by (vm_compute; reflexivity).
  transitivity (filter (fun r => 100 - createdAt r < reqTimeoutMs r) (serializePending sampleGate)).
  - exact (proj1 (restart_keeps_pending sampleConfig sampleHmac (fun _ => None) sampleOps 100 Hf)).
  - vm_compute. reflexivity.
Defined.

End ApprovalGateSafety.
