(* ===== verification/ManagedGrant.v ===== *)
(** * Grants for approved managed operations

  Models [packages/core/src/approval/managed-approval-grant.ts]: the
  daemon-local ledger that turns one approval into the right to run one
  destructive managed operation, until the approval's lifetime ends.

  The SHA-256 digest of [node:crypto] is the parameter [sha256Hex].  Each
  operation reads the clock twice at most; the two readings are arguments. *)

From S2P Require Import Prelude CanonicalJson ApprovalPolicy ApprovalGate.
Import CanonicalJson ApprovalGate.

Open Scope string_scope.
Open Scope list_scope.
Open Scope Z_scope.

Module ManagedGrant.

Definition MANAGED_APPROVAL_GRANT_TTL_MS : Z := 15 * 60 * 1000.

Record ManagedApprovalGrantBindingInput := mkBind {
  approval : ApprovalResolution; bindTool : string; bindAction : string;
  fingerprintParams : JsValue; ownerPrincipalId : string; bindService : string;
  bindRun : string; bindOperation : string }.

Record ManagedApprovalGrantConsumeInput := mkConsume {
  operationId : string; consumeApproval : string; consumeService : string;
  consumeRun : string; consumeOperation : string }.

Inductive ReceiptState := consumed | identical_replay.

Record ManagedApprovalGrantReceipt := mkReceipt {
  state : ReceiptState; receiptApproval : string; receiptRun : string;
  receiptOperation : string; receiptPrincipal : string; receiptFingerprint : string;
  receiptApprovedAt : Z; receiptExpiresAt : Z; receiptConsumedAt : Z }.

Record GrantRecord := mkGrant {
  approvalRequestId : string; serviceInstanceId : string; managedRunId : string;
  mcpOperationId : string; grantPrincipal : string; operationFingerprint : string;
  approvedAtMs : Z; expiresAtMs : Z;
  consumedOperationId : option string; consumedAtMs : option Z }.

#[export] Instance ReceiptState_eq_dec : EqDecision ReceiptState.
Proof. solve_decision. Defined.

Definition bindingKey (service run operation : string) : string :=
  stringifyArray [Some service; Some run; Some operation].

Definition nonEmpty (s : string) : bool := (0 <? String.length s)%nat.

Definition sameGrant (l r : GrantRecord) : bool :=
  String.eqb (approvalRequestId l) (approvalRequestId r)
  && String.eqb (serviceInstanceId l) (serviceInstanceId r)
  && String.eqb (managedRunId l) (managedRunId r)
  && String.eqb (mcpOperationId l) (mcpOperationId r)
  && String.eqb (grantPrincipal l) (grantPrincipal r)
  && String.eqb (operationFingerprint l) (operationFingerprint r)
  && (approvedAtMs l =? approvedAtMs r) && (expiresAtMs l =? expiresAtMs r).

Definition isSafeInteger (n : Z) : bool := Z.abs n <=? 2 ^ 53 - 1.

Abbreviation Registry := (jsmap string GrantRecord).

Section Registry.
Variable sha256Hex : string -> string.
Variable ttl : option Z.

Definition ttlMs : Z := default MANAGED_APPROVAL_GRANT_TTL_MS ttl.

Definition pruneExpired (grants : Registry) (now : Z) : Registry :=
  filter (fun p => ~ expiresAtMs p.2 <= now) grants.

Definition bind (grants : Registry) (b : ManagedApprovalGrantBindingInput) (now now' : Z)
    : Result unit string * Registry :=
  let grants := pruneExpired grants now in
  let res := approval b in
  if negb (approved res) || negb (nonEmpty (resRequestId res)) || negb (nonEmpty (bindTool b))
     || negb (nonEmpty (bindAction b)) || negb (nonEmpty (ownerPrincipalId b))
     || negb (nonEmpty (bindService b)) || negb (nonEmpty (bindRun b))
     || negb (nonEmpty (bindOperation b))
  then (Err "managed approval grant identity is incomplete", grants)
  else
    match snapshotApprovalParams (fingerprintParams b) with
    | Err _ => (Err "managed approval grant parameters are invalid", grants)
    | Ok (_, canonical) =>
      let expires := resolvedAt res + ttlMs in
      if negb (isSafeInteger (resolvedAt res)) || (resolvedAt res <? 0)
         || negb (isSafeInteger expires) || (expires <=? now')
      then (Err "managed approval grant is expired", grants)
      else
        let candidate := mkGrant (resRequestId res) (bindService b) (bindRun b) (bindOperation b)
          (ownerPrincipalId b) (sha256Hex canonical) (resolvedAt res) expires None None in
        let key := bindingKey (serviceInstanceId candidate) (managedRunId candidate)
          (mcpOperationId candidate) in
        match mget grants key with
        | None => (Ok tt, mset grants key candidate)
        | Some previous =>
          if sameGrant previous candidate then (Ok tt, grants)
          else (Err "managed approval grant binding conflicts with an existing operation", grants)
        end
    end.

Definition receipt (st : ReceiptState) (g : GrantRecord) (at_ : Z) : ManagedApprovalGrantReceipt :=
  mkReceipt st (approvalRequestId g) (managedRunId g) (mcpOperationId g) (grantPrincipal g)
    (operationFingerprint g) (approvedAtMs g) (expiresAtMs g) at_.

Definition consume (grants : Registry) (i : ManagedApprovalGrantConsumeInput) (now now' : Z)
    : Result ManagedApprovalGrantReceipt string * Registry :=
  let grants := pruneExpired grants now in
  let key := bindingKey (consumeService i) (consumeRun i) (consumeOperation i) in
  match mget grants key with
  | None => (Err "managed approval grant is unavailable or does not match", grants)
  | Some g =>
    if negb (String.eqb (approvalRequestId g) (consumeApproval i)) || negb (nonEmpty (operationId i))
    then (Err "managed approval grant is unavailable or does not match", grants)
    else
      match consumedOperationId g with
      | Some op =>
        if String.eqb op (operationId i) then
          match consumedAtMs g with
          | Some t => (Ok (receipt identical_replay g t), grants)
          | None => (Err "managed approval grant has already been consumed", grants)
          end
        else (Err "managed approval grant has already been consumed", grants)
      | None =>
        let g' := mkGrant (approvalRequestId g) (serviceInstanceId g) (managedRunId g)
          (mcpOperationId g) (grantPrincipal g) (operationFingerprint g) (approvedAtMs g)
          (expiresAtMs g) (Some (operationId i)) (Some now') in
        (Ok (receipt consumed g now'), mset grants key g')
      end
  end.

Definition clear (grants : Registry) : Registry := [].

(** ** Runs

  Successful binds and consumptions are recorded in order. *)

Inductive Op :=
| Bind (b : ManagedApprovalGrantBindingInput) (now now' : Z)
| Consume (i : ManagedApprovalGrantConsumeInput) (now now' : Z).

Definition Log := list (ManagedApprovalGrantConsumeInput * ManagedApprovalGrantReceipt).

Definition step (grants : Registry) (op : Op) : Log * Registry :=
  match op with
  | Bind b now now' => ([], (bind grants b now now').2)
  | Consume i now now' =>
    match consume grants i now now' with
    | (Ok r, grants') => ([(i, r)], grants')
    | (Err _, grants') => ([], grants')
    end
  end.

Fixpoint run (grants : Registry) (ops : list Op) : Log * Registry :=
  match ops with
  | [] => ([], grants)
  | op :: ops =>
    let '(l, grants') := step grants op in
    let '(l', grants'') := run grants' ops in (l ++ l', grants'')
  end.

(** The clock never goes back. *)
Fixpoint clockFrom (t : Z) (ops : list Op) : bool :=
  match ops with
  | [] => true
  | Bind _ now now' :: ops | Consume _ now now' :: ops =>
    (t <=? now) && (now <=? now') && clockFrom now' ops
  end.

(** Two recorded consumptions draw on the same approval of the same operation. *)
Definition sameAuthority (x y : ManagedApprovalGrantConsumeInput * ManagedApprovalGrantReceipt) : Prop :=
  consumeService x.1 = consumeService y.1 /\ receiptRun x.2 = receiptRun y.2 /\
  receiptOperation x.2 = receiptOperation y.2 /\ receiptApproval x.2 = receiptApproval y.2 /\
  receiptApprovedAt x.2 = receiptApprovedAt y.2.

(** A bind of an approved request that carries this authority. *)
Definition backs (op : Op) (service : string) (r : ManagedApprovalGrantReceipt) : Prop :=
  match op with
  | Bind b now now' =>
    approved (approval b) = true /\ resRequestId (approval b) = receiptApproval r /\
    bindService b = service /\ bindRun b = receiptRun r /\ bindOperation b = receiptOperation r /\
    ownerPrincipalId b = receiptPrincipal r /\ resolvedAt (approval b) = receiptApprovedAt r /\
    exists es c, snapshotApprovalParams (fingerprintParams b) = Ok (es, c) /\
      receiptFingerprint r = sha256Hex c
  | Consume _ _ _ => False
  end.

Definition keyOf (g : GrantRecord) : string :=
  bindingKey (serviceInstanceId g) (managedRunId g) (mcpOperationId g).

(** Grants are stored under their own key, live as long as their approval, are
    backed by a bind, and are consumed once marked so. *)
Definition GrantInv (past : list Op) (grants : Registry) : Prop :=
  NoDup (mkeys grants) /\
  forall p, p ∈ grants ->
    p.1 = keyOf p.2 /\ expiresAtMs p.2 = approvedAtMs p.2 + ttlMs /\
    (is_Some (consumedOperationId p.2) <-> is_Some (consumedAtMs p.2)) /\
    exists op, op ∈ past /\ backs op (serviceInstanceId p.2) (receipt consumed p.2 0).

(** A recorded consumption is marked on its grant until the approval expires. *)
Definition Marked (t : Z) (grants : Registry)
    (x : ManagedApprovalGrantConsumeInput * ManagedApprovalGrantReceipt) : Prop :=
  receiptExpiresAt x.2 <= t \/
  exists g, mget grants (keyOf g) = Some g /\ serviceInstanceId g = consumeService x.1 /\
    receipt (state x.2) g (receiptConsumedAt x.2) = x.2 /\
    consumedOperationId g = Some (operationId x.1) /\ consumedAtMs g = Some (receiptConsumedAt x.2).

Lemma bindingKey_inj a b c a' b' c' :
  bindingKey a b c = bindingKey a' b' c' -> a = a' /\ b = b' /\ c = c'.
Proof. unfold bindingKey. intros E%stringifyArray_inj. by simplify_eq. Qed.

Lemma prune_inv past grants now : GrantInv past grants -> GrantInv past (pruneExpired grants now).
Proof.
  intros [Hnd H]. split.
  - by eauto with jsmap.
  - intros p [_ Hin]%list_elem_of_filter. by apply H.
Qed.

Lemma prune_marked t grants now x :
  NoDup (mkeys grants) -> t <= now -> Marked t grants x -> Marked now (pruneExpired grants now) x.
Proof.
  intros Hnd Ht [?|(g & Hg & Hs & Hr & H)]; [left; lia|].
  destruct (decide (expiresAtMs g <= now)); [left; by rewrite <- Hr|].
  right. exists g. split; [|done]. by apply mget_filter.
Qed.

(** Storing a grant under its own key keeps the marks of other grants. *)
Lemma mset_marked t grants k g x :
  k = keyOf g -> (forall old, mget grants k = Some old -> consumedOperationId old = None) ->
  Marked t grants x -> Marked t (mset grants k g) x.
Proof.
  intros -> Hold [?|(g' & Hg' & Hs & Hr & Ho & Ht)]; [by left|].
  right. exists g'. split; [|done]. rewrite mget_mset. case_decide as E; [|done].
  rewrite <- E in Hold. specialize (Hold _ Hg'). congruence.
Qed.

Lemma mset_inv past grants k g :
  GrantInv past grants -> k = keyOf g -> expiresAtMs g = approvedAtMs g + ttlMs ->
  (is_Some (consumedOperationId g) <-> is_Some (consumedAtMs g)) ->
  (exists op, op ∈ past /\ backs op (serviceInstanceId g) (receipt consumed g 0)) ->
  GrantInv past (mset grants k g).
Proof.
  intros [Hnd H] -> He Hc Hb. split; [by eauto with jsmap|].
  intros p [->|Hin]%elem_of_mset_inv; [done|]. by apply H.
Qed.

Lemma GrantInv_snoc past op grants : GrantInv past grants -> GrantInv (past ++ [op]) grants.
Proof.
  intros [Hnd H]. split; [done|]. intros p Hp. destruct (H p Hp) as (? & ? & ? & o & Ho & ?).
  split_and!; try done. exists o. split; [apply elem_of_app; by left|done].
Qed.

Lemma bind_inv past grants b now now' t :
  GrantInv past grants -> t <= now -> now <= now' ->
  GrantInv (past ++ [Bind b now now']) (bind grants b now now').2 /\
  forall x, Marked t grants x -> Marked now' (bind grants b now now').2 x.
Proof.
  intros H Ht Ht'. pose proof (prune_inv past grants now H) as HP.
  assert (forall x, Marked t grants x -> Marked now' (pruneExpired grants now) x) as HM.
  { intros x Hx. destruct (prune_marked t grants now x) as [?|?]; [apply H|lia|done|left; lia|by right]. }
  unfold bind. destruct (negb (approved _) || _ || _ || _ || _ || _ || _ || _) eqn:Eg;
    [by split; [apply GrantInv_snoc|]|].
  destruct (snapshotApprovalParams _) as [[es c]|] eqn:Es; [|by split; [apply GrantInv_snoc|]].
  destruct (negb (isSafeInteger _) || _ || _ || _); [by split; [apply GrantInv_snoc|]|].
  cbn [serviceInstanceId managedRunId mcpOperationId].
  destruct (mget (pruneExpired grants now) _) as [old|] eqn:Em.
  { destruct (sameGrant _ _); by split; [apply GrantInv_snoc|]. }
  apply orb_false_iff in Eg as [Eg _]. do 6 apply orb_false_iff in Eg as [Eg _].
  apply negb_false_iff in Eg. split.
  - apply mset_inv; try done; [by apply GrantInv_snoc|by split; intros []|].
    exists (Bind b now now'). split; [apply elem_of_app; right; by left|]. simpl. split_and!; try done.
    by exists es, c.
  - intros x Hx. apply mset_marked; [done|by rewrite Em|by apply HM].
Qed.

(** What a successful consumption is. *)
Lemma consume_ok past grants i now now' t r grants' :
  GrantInv past grants -> t <= now -> now <= now' ->
  consume grants i now now' = (Ok r, grants') ->
  GrantInv past grants' /\ (forall x, Marked t grants x -> Marked now' grants' x) /\
  now < receiptExpiresAt r /\ receiptExpiresAt r = receiptApprovedAt r + ttlMs /\
  (exists op, op ∈ past /\ backs op (consumeService i) r) /\
  exists g, mget (pruneExpired grants now) (keyOf g) = Some g /\
    serviceInstanceId g = consumeService i /\ r = receipt (state r) g (receiptConsumedAt r) /\
    mget grants' (keyOf g) = Some (mkGrant (approvalRequestId g) (serviceInstanceId g)
      (managedRunId g) (mcpOperationId g) (grantPrincipal g) (operationFingerprint g)
      (approvedAtMs g) (expiresAtMs g) (Some (operationId i)) (Some (receiptConsumedAt r))) /\
    match state r with
    | consumed => consumedOperationId g = None /\ receiptConsumedAt r = now'
    | identical_replay =>
        consumedOperationId g = Some (operationId i) /\ consumedAtMs g = Some (receiptConsumedAt r)
    end.
Proof.
  intros H Ht Ht'. pose proof (prune_inv past grants now H) as HP.
  assert (forall x, Marked t grants x -> Marked now' (pruneExpired grants now) x) as HM.
  { intros x Hx. destruct (prune_marked t grants now x) as [?|?]; [apply H|lia|done|left; lia|by right]. }
  unfold consume. destruct (mget (pruneExpired grants now) _) as [g|] eqn:Em; [|done].
  destruct (_ || _); [done|]. pose proof (mget_elem_of _ _ _ Em) as Hin.
  destruct HP as [Hnd HP]. destruct (HP _ Hin) as (Hk & He & Hc & op & Hop & Hb).
  cbn [fst snd] in Hk, He, Hc, Hop, Hb. rewrite Hk in Em.
  apply bindingKey_inj in Hk as Hk'. destruct Hk' as (Hs & _ & _).
  apply list_elem_of_filter in Hin as [Hx _]. cbn [snd] in Hx.
  destruct (consumedOperationId g) as [o|] eqn:Eo.
  - destruct (String.eqb_spec o (operationId i)) as [->|]; [|done].
    destruct (consumedAtMs g) as [ct|] eqn:Ect; [|done]. intros [= <- <-].
    split_and!; try done; [simpl; lia|rewrite Hs; by exists op|].
    exists g. split_and!; try done. simpl. rewrite Em. by destruct g; simplify_eq/=.
  - intros [= <- <-]. rewrite Hk. split_and!; try done.
    + apply mset_inv; try done. by exists op.
    + intros x Hx'. apply mset_marked; [done| |by apply HM]. intros old. rewrite Em. by intros [= <-].
    + simpl. lia.
    + rewrite Hs. by exists op.
    + exists g. split_and!; try done. simpl. by rewrite mget_mset_eq.
Qed.

(** A later consumption of the same authority is an exact replay. *)
Definition Replays (x y : ManagedApprovalGrantConsumeInput * ManagedApprovalGrantReceipt) : Prop :=
  operationId x.1 = operationId y.1 /\ state y.2 = identical_replay /\
  receiptConsumedAt x.2 = receiptConsumedAt y.2.

Definition OneShot (log : Log) : Prop :=
  forall l1 x l2 y l3, log = l1 ++ x :: l2 ++ y :: l3 -> sameAuthority x y -> Replays x y.

(** A recorded consumption was asked for while its approval was live, and the
    approval was bound before. *)
Definition Sound (past : list Op)
    (x : ManagedApprovalGrantConsumeInput * ManagedApprovalGrantReceipt) : Prop :=
  (exists now now', Consume x.1 now now' ∈ past /\ now < receiptExpiresAt x.2) /\
  receiptExpiresAt x.2 = receiptApprovedAt x.2 + ttlMs /\
  exists op, op ∈ past /\ backs op (consumeService x.1) x.2.

Lemma OneShot_snoc log y :
  OneShot log -> (forall x, x ∈ log -> sameAuthority x y -> Replays x y) -> OneShot (log ++ [y]).
Proof.
  intros H Hy l1 x l2 y' l3 E Hs. destruct l3 as [|z l3 _] using rev_ind.
  - rewrite app_comm_cons, app_assoc in E. apply app_inj_tail in E as [-> ->]. apply Hy; [|done].
    rewrite elem_of_app, elem_of_cons. auto.
  - rewrite !app_comm_cons, !app_assoc in E. apply app_inj_tail in E as [-> _].
    eapply H; [|exact Hs]. by rewrite <- app_assoc.
Qed.

Lemma Sound_snoc past op x : Sound past x -> Sound (past ++ [op]) x.
Proof.
  intros ((now & now' & Hc & Hn) & He & o & Ho & Hb). split_and!; try done.
  - exists now, now'. split; [|done]. apply elem_of_app. by left.
  - exists o. split; [|done]. apply elem_of_app. by left.
Qed.

Definition RunInv (past : list Op) (log : Log) (grants : Registry) (t : Z) : Prop :=
  GrantInv past grants /\ (forall x, x ∈ log -> Marked t grants x /\ Sound past x) /\ OneShot log.

Lemma consume_replays log grants i now now' t r grants' past :
  RunInv past log grants t -> t <= now -> now <= now' ->
  consume grants i now now' = (Ok r, grants') ->
  forall x, x ∈ log -> sameAuthority x (i, r) -> Replays x (i, r).
Proof.
  intros (HG & HL & _) Ht Ht' Hc x Hx (S1 & S2 & S3 & S4 & S5). destruct (HL x Hx) as [HM (_ & Hx' & _)].
  destruct (consume_ok _ _ _ _ _ _ _ _ HG Ht Ht' Hc) as (_ & _ & Hn & He & _ & g & Hg & Hs & Hr & _ & Hst).
  apply (prune_marked t grants now) in HM as [?|(g' & Hg' & Hs' & Hr' & Ho & Ha)]; [simpl in *; lia| |apply HG|done].
  assert (g' = g) as ->.
  { assert (keyOf g' = keyOf g) as E; [|rewrite E in Hg'; congruence]. unfold keyOf.
    cbn [fst snd] in *. rewrite Hs, Hs', S1. rewrite <- Hr', Hr in S2, S3. simpl in S2, S3. congruence. }
  rewrite Ho in Hst. unfold Replays. cbn [fst snd] in *. destruct (state r); [by destruct Hst|].
  destruct Hst as [? ?]. split_and!; congruence.
Qed.

Lemma consume_err past grants i now now' t e grants' :
  GrantInv past grants -> t <= now -> now <= now' ->
  consume grants i now now' = (Err e, grants') ->
  GrantInv past grants' /\ forall x, Marked t grants x -> Marked now' grants' x.
Proof.
  intros H Ht Ht' E. assert (grants' = pruneExpired grants now) as ->.
  { unfold consume in E. by repeat (case_match; simplify_eq/=). }
  split; [by apply prune_inv|]. intros x Hx.
  destruct (prune_marked t grants now x) as [?|?]; [apply H|done|done|left; lia|by right].
Qed.

Lemma step_runInv past log grants t op now now' :
  (exists x, op = Bind x now now') \/ (exists x, op = Consume x now now') ->
  RunInv past log grants t -> t <= now -> now <= now' ->
  RunInv (past ++ [op]) (log ++ (step grants op).1) (step grants op).2 now'.
Proof.
  intros Hop HR Ht Ht'. pose proof HR as (HG & HL & HO). destruct Hop as [[b ->]|[i ->]]; cbn [step].
  - cbn [fst snd]. rewrite app_nil_r. destruct (bind_inv past grants b now now' t) as [HG' HM]; try done.
    split; [done|]. split; [|done]. intros x Hx. destruct (HL x Hx). split; [by apply HM|].
    by apply Sound_snoc.
  - destruct (consume grants i now now') as [[r|e] grants'] eqn:Ec; cbn [fst snd].
    + destruct (consume_ok _ _ _ _ _ _ _ _ HG Ht Ht' Ec)
        as (HG' & HM & Hn & He & (o & Ho & Hb) & g & Hg & Hs & Hr & Hg' & _).
      split; [by apply GrantInv_snoc|]. split.
      * intros x [Hx|Hx%list_elem_of_singleton]%elem_of_app; [|subst x].
        { destruct (HL x Hx). split; [by apply HM|by apply Sound_snoc]. }
        split.
        -- right. match type of Hg' with _ = Some ?g2 => exists g2 end.
           split; [exact Hg'|]. split; [done|]. split; [|done]. symmetry. exact Hr.
        -- split_and!; [|done|].
           ++ exists now, now'. split; [|done]. apply elem_of_app. right. by left.
           ++ exists o. split; [apply elem_of_app; by left|done].
      * apply OneShot_snoc; [done|]. by eapply consume_replays.
    + destruct (consume_err _ _ _ _ _ _ _ _ HG Ht Ht' Ec) as [HG' HM]. rewrite app_nil_r.
      split; [by apply GrantInv_snoc|]. split; [|done]. intros x Hx. destruct (HL x Hx).
      split; [by apply HM|by apply Sound_snoc].
Qed.

Lemma run_runInv ops past log grants t :
  RunInv past log grants t -> clockFrom t ops = true ->
  exists t', RunInv (past ++ ops) (log ++ (run grants ops).1) (run grants ops).2 t'.
Proof.
  revert past log grants t. induction ops as [|op ops IH]; intros past log grants t HR Hc; simpl.
  { rewrite !app_nil_r. by exists t. }
  assert (exists now now', ((exists x, op = Bind x now now') \/ (exists x, op = Consume x now now')) /\
    t <= now /\ now <= now' /\ clockFrom now' ops = true) as (now & now' & Hop & H1 & H2 & H3).
  { destruct op as [x now now'|x now now']; exists now, now'; simpl in Hc;
      apply andb_prop in Hc as [Hc ?]; split_and!; try done; try lia; eauto. }
  pose proof (step_runInv past log grants t op now now' Hop HR H1 H2) as HR'.
  destruct (step grants op) as [l grants']. cbn [fst snd] in HR'.
  destruct (IH _ _ _ _ HR' H3) as [t' Hr]. destruct (run grants' ops) as [l' grants''].
  cbn [fst snd] in *. exists t'. by rewrite <- !app_assoc in Hr.
Qed.

(** C33: An approval of a managed operation is good for one execution.  While the
    ledger is not cleared and the clock does not go back, every receipt answers
    a request made before its approval expired and rests on an earlier bind of
    an approved request of the same service, run and operation, with that
    bind's principal and the digest of its parameters; and of two receipts on
    the same approval the second is an exact replay of the first: the same
    operation identifier, the same consumption time, marked as a replay. *)
Theorem grant_one_shot (ops : list Op) (t : Z) :
  clockFrom t ops = true ->
  let log := (run [] ops).1 in
  (forall x, x ∈ log -> Sound ops x) /\
  (forall l1 x l2 y l3, log = l1 ++ x :: l2 ++ y :: l3 -> sameAuthority x y -> Replays x y).
Proof.
  intros Hc log. destruct (run_runInv ops [] [] [] t) as (t' & _ & HL & HO); try done.
  - split; [split; [apply NoDup_nil_2|by intros ? ?%elem_of_nil]|].
    split; [by intros ? ?%elem_of_nil|]. by intros [|] * E.
  - split; [|exact HO]. intros x Hx. by apply HL.
Qed.

End Registry.

(** ** A run: bind, consume, replay, and a second operation turned away *)

Definition sampleBind : ManagedApprovalGrantBindingInput :=
  mkBind (mkResolution "req-1" true "alice" None 1000) "mcp" "delete"
    (VObject true [("path", Some (VString "/data"))]) "alice" "svc" "run" "op".
Definition sampleConsume (id : string) : ManagedApprovalGrantConsumeInput :=
  mkConsume id "req-1" "svc" "run" "op".
Definition sampleOps : list Op :=
  [Bind sampleBind 1001 1002; Consume (sampleConsume "exec-1") 1003 1004;
   Consume (sampleConsume "exec-2") 1005 1005; Consume (sampleConsume "exec-1") 1006 1007].

Lemma grant_one_shot_witness :
  exists x y, (run (fun c => c) None [] sampleOps).1 = [x; y] /\ state x.2 = consumed /\ Replays x y.
Proof.
  destruct (run (fun c => c) None [] sampleOps).1 as [|x [|y [|]]] eqn:E; try discriminate E.
  exists x, y. split; [reflexivity|]. split; [injection E as <- <-; reflexivity|].
  destruct (grant_one_shot (fun c => c) None sampleOps 0) as [_ H]; [vm_compute; reflexivity|].
  apply (H [] x [] y []); [exact E|]. injection E as <- <-. repeat split.
Defined.

End ManagedGrant.
