(* ===== verification/TaskTypes.v ===== *)
(** * Follow-up task records

  Models [packages/scheduler/src/tasks/task-types.ts] and the schemas of
  [packages/core/src/domain] that its records embed (background task origins,
  response locale policies, workspace policy snapshots, execution outcomes):
  the record types with one constructor per member of each discriminated union,
  the constraints of the schemas, and [parseFollowupTaskStoreFile], which
  decides whether a stored file may be trusted.

  A raw value has already the shape of its schema; a schema returns the value
  it accepts, since some fields are trimmed on the way.  The platform functions
  the schemas call are the operations of the class [TaskPlatform]. *)

From Stdlib Require Import Ascii QArith_base.
From S2P Require Import Prelude ConversationScope CanonicalJson.

Open Scope string_scope.
Open Scope list_scope.
Open Scope Z_scope.

Module TaskTypes.

(** ** Numbers and strings *)

Definition MAX_SAFE_INTEGER : Z := 9007199254740991.

Definition isSafeInteger (z : Z) : bool := (- MAX_SAFE_INTEGER <=? z) && (z <=? MAX_SAFE_INTEGER).

(** Non-negative safe integers, positive safe integers. *)
Definition SafeTimeSchema (z : Z) : bool := (0 <=? z) && isSafeInteger z.
Definition SafeCountSchema (z : Z) : bool := (0 <=? z) && isSafeInteger z.
Definition PositiveSchema (z : Z) : bool := (0 <? z) && isSafeInteger z.

(** A string is the sequence of its UTF-8 bytes: [Buffer.byteLength] counts
    them, [length] counts UTF-16 units (one per lead byte, two for the lead
    byte of a character outside the basic plane). *)
Definition byteLength (s : string) : Z := Z.of_nat (String.length s).

Fixpoint jsLength (s : string) : Z :=
  match s with
  | "" => 0
  | String c s' =>
      let n := nat_of_ascii c in
      (if (128 <=? n)%nat && (n <? 192)%nat then 0 else if (240 <=? n)%nat then 2 else 1) + jsLength s'
  end.

Definition boundedString (lo hi : Z) (s : string) : bool := (lo <=? jsLength s) && (jsLength s <=? hi).

Definition IdSchema (s : string) : bool := boundedString 1 256 s.

Definition hexChar (c : ascii) : bool :=
  let n := nat_of_ascii c in
  (((97 <=? n) && (n <=? 102)) || ((48 <=? n) && (n <=? 57)))%nat.

(** [/^[a-f0-9]{64}$/u] *)
Definition hex64 (s : string) : bool :=
  (String.length s =? 64)%nat && forallb hexChar (String.list_ascii_of_string s).

Definition unitInterval (q : Q) : bool := Qle_bool 0 q && Qle_bool q 1.

#[global] Arguments isSafeInteger : simpl never.
#[global] Arguments SafeTimeSchema : simpl never.
#[global] Arguments SafeCountSchema : simpl never.
#[global] Arguments PositiveSchema : simpl never.
#[global] Arguments byteLength : simpl never.
#[global] Arguments boundedString : simpl never.
#[global] Arguments IdSchema : simpl never.
#[global] Arguments hex64 : simpl never.
#[global] Arguments unitInterval : simpl never.

(** ** Closed enumerations *)

Inductive ErrorKind :=
| KConfig | KNetwork | KAuth | KValidation | KPrecondition | KTimeout | KResource
| KDependency | KInternal | KPlatform | KSandboxUnavailable.

Inductive UserTrustLevel := Admin | User | Guest.
Inductive ResponseLocaleSource := LRequest | LExplicit | LUnset.
Inductive ContentTrust := Derived | External.
Inductive ModelResolutionSource :=
| ExplicitConfig | CronJobOverride | ParentInherited | FamilyDefault | AgentPrimary.

Inductive FinishReason :=
| FStop | FMaxSteps | FBudgetExceeded | FBudgetExhausted | FCircuitOpen | FProviderDegraded
| FContextLoop | FContextExhausted | FOutputStarved | FSessionReset | FLoopDetected
| FPromptTimeout | FSpendExceeded | FInputTooLarge | FCompletedWithToolErrors
| FNarrationStall | FToolInvocationStall | FBackgroundPending | FCancelled | FError.

Inductive AbortReason :=
| RUserStop | RBudgetExceeded | RCircuitBreaker | RMaxSteps | RContextExhausted
| RPipelineTimeout | RLoopDetected | RSpendExceeded | RDenialBreaker | RCallerCancelled.

Inductive FailureStage :=
| SExecutorInvalidInput | SExecutorInvalidTarget | SExecutorNotBound | SExecutorPrecondition
| SModel | SDeadline | SDeliveryWindowClosed | SOutputGuard | STargetPrecondition
| SConfigurationDisabled | SDeliveryRejected | SOwnerRecoveryBeforeDelivery.

Inductive StartCode := CInvalidInput | CInvalidTarget | CNotBound | CPreconditionFailed.

#[global] Instance ErrorKind_eq_dec : EqDecision ErrorKind.
Proof. solve_decision. Defined.
#[global] Instance UserTrustLevel_eq_dec : EqDecision UserTrustLevel.
Proof. solve_decision. Defined.
#[global] Instance ResponseLocaleSource_eq_dec : EqDecision ResponseLocaleSource.
Proof. solve_decision. Defined.
#[global] Instance FinishReason_eq_dec : EqDecision FinishReason.
Proof. solve_decision. Defined.
#[global] Instance AbortReason_eq_dec : EqDecision AbortReason.
Proof. solve_decision. Defined.
#[global] Instance FailureStage_eq_dec : EqDecision FailureStage.
Proof. solve_decision. Defined.
#[global] Instance StartCode_eq_dec : EqDecision StartCode.
Proof. solve_decision. Defined.

(** ** Embedded records of the core *)

Record ResponseLocalePolicy := {
  lpLocale : option string;
  lpSource : ResponseLocaleSource;
  lpTranslationTarget : option string;
  lpEnforceLocale : bool;
}.
#[global] Instance ResponseLocalePolicy_eq_dec : EqDecision ResponseLocalePolicy.
Proof. solve_decision. Defined.

Record DeliveryOrigin := {
  doChannelType : string;
  doChannelId : string;
  doUserId : string;
  doThreadId : option string;
  doTenantId : string;
}.
#[global] Instance DeliveryOrigin_eq_dec : EqDecision DeliveryOrigin.
Proof. solve_decision. Defined.

Record BackgroundTaskOrigin := {
  oTurnScope : ConversationScope.ResolvedTurnScope;
  oConversationRef : string;
  oDeliveryOrigin : DeliveryOrigin;
  oTraceId : option string;
  oTrustLevel : UserTrustLevel;
  oResponseLocalePolicy : ResponseLocalePolicy;
  oBackgroundHopCount : Z;
}.

Inductive InstructionSourceKind := Engine | Operator | AgentState | ExternalSource.
Inductive InstructionTrust := Kernel | Trusted | Untrusted.
Inductive InstructionStability := Stable | Turn | Volatile.

#[global] Instance InstructionSourceKind_eq_dec : EqDecision InstructionSourceKind.
Proof. solve_decision. Defined.
#[global] Instance InstructionTrust_eq_dec : EqDecision InstructionTrust.
Proof. solve_decision. Defined.
#[global] Instance InstructionStability_eq_dec : EqDecision InstructionStability.
Proof. solve_decision. Defined.

Record InstructionSection := {
  isId : string;
  isSourceKind : InstructionSourceKind;
  isTrust : InstructionTrust;
  isStability : InstructionStability;
  isContent : string;
  isContentHash : string;
  isMaxChars : Z;
}.
#[global] Instance InstructionSection_eq_dec : EqDecision InstructionSection.
Proof. solve_decision. Defined.

Record WorkspacePolicySnapshot := {
  wpAgentId : string;
  wpSections : list InstructionSection;
  wpCombinedHash : string;
}.
#[global] Instance WorkspacePolicySnapshot_eq_dec : EqDecision WorkspacePolicySnapshot.
Proof. solve_decision. Defined.

Inductive AgentTurnExecutionOutcome :=
| OCompleted
| OFailed (finishReason : FinishReason) (errorKind : ErrorKind)
| OAbortedByCaller (abortReason : AbortReason) (finishReason : option FinishReason)
| OAborted (abortReason : AbortReason) (finishReason : option FinishReason) (errorKind : ErrorKind)
| OUnknown (errorKind : ErrorKind).

(** ** Tasks *)

Inductive TaskStatus :=
| TPending (nextAttemptAtMs : Z)
| TChecking (activeAttemptId : string)
| TDelivering (activeAttemptId : string)
| TDelivered (terminalAttemptId : string) (terminalAtMs : Z)
| TDeliveryPartial (terminalAttemptId : string) (terminalAtMs : Z)
| TDismissed (terminalAttemptId : string) (terminalAtMs : Z)
| TDeliveryUnknown (terminalAttemptId : string) (terminalAtMs : Z)
| TExpired (terminalAttemptId : option string) (terminalAtMs : Z)
| TCancelled (terminalAtMs : Z).

(** The discriminant [task.status]. *)
Definition statusName (s : TaskStatus) : string :=
  match s with
  | TPending _ => "pending"
  | TChecking _ => "checking"
  | TDelivering _ => "delivering"
  | TDelivered _ _ => "delivered"
  | TDeliveryPartial _ _ => "delivery_partial"
  | TDismissed _ _ => "dismissed"
  | TDeliveryUnknown _ _ => "delivery_unknown"
  | TExpired _ _ => "expired"
  | TCancelled _ => "cancelled"
  end.

Record FollowupTaskRecord := {
  tId : string;
  tAgentId : string;
  tOrigin : BackgroundTaskOrigin;
  tSourceExecutionId : string;
  tLastSourceExecutionId : string;
  tSourceOccurrenceCount : Z;
  tWorkspacePolicyHash : string;
  tResponseLocalePolicy : ResponseLocalePolicy;
  tText : string;
  tContentTrust : ContentTrust;
  tConfidence : Q;
  tCreatedAtMs : Z;
  tDueEarliestMs : Z;
  tDueLatestMs : Z;
  tExpiresAtMs : Z;
  tDedupeKey : string;
  tAttemptCount : Z;
  tPreAcceptanceFailureCount : Z;
  tStatus : TaskStatus;
}.

(** [{ ...task, status }] with the counters of the caller. *)
Definition updTask (t : FollowupTaskRecord) (attempts failures : Z) (s : TaskStatus) : FollowupTaskRecord :=
  {| tId := tId t; tAgentId := tAgentId t; tOrigin := tOrigin t;
     tSourceExecutionId := tSourceExecutionId t; tLastSourceExecutionId := tLastSourceExecutionId t;
     tSourceOccurrenceCount := tSourceOccurrenceCount t;
     tWorkspacePolicyHash := tWorkspacePolicyHash t; tResponseLocalePolicy := tResponseLocalePolicy t;
     tText := tText t; tContentTrust := tContentTrust t; tConfidence := tConfidence t;
     tCreatedAtMs := tCreatedAtMs t; tDueEarliestMs := tDueEarliestMs t;
     tDueLatestMs := tDueLatestMs t; tExpiresAtMs := tExpiresAtMs t; tDedupeKey := tDedupeKey t;
     tAttemptCount := attempts; tPreAcceptanceFailureCount := failures; tStatus := s |}.

Definition setTaskStatus (t : FollowupTaskRecord) (s : TaskStatus) : FollowupTaskRecord :=
  updTask t (tAttemptCount t) (tPreAcceptanceFailureCount t) s.

Definition taskTenant (t : FollowupTaskRecord) : string :=
  ConversationScope.tenantId (ConversationScope.conversation (oTurnScope (tOrigin t))).
Definition taskScopeAgent (t : FollowupTaskRecord) : string :=
  ConversationScope.agentId (ConversationScope.conversation (oTurnScope (tOrigin t))).
Definition taskConversationRef (t : FollowupTaskRecord) : string := oConversationRef (tOrigin t).

(** [task.activeAttemptId], [task.terminalAtMs] and [task.terminalAttemptId]
    where the status has them. *)
Definition activeAttemptId (s : TaskStatus) : option string :=
  match s with TChecking a | TDelivering a => Some a | _ => None end.
Definition taskTerminalAtMs (s : TaskStatus) : option Z :=
  match s with
  | TPending _ | TChecking _ | TDelivering _ => None
  | TDelivered _ m | TDeliveryPartial _ m | TDismissed _ m | TDeliveryUnknown _ m
  | TExpired _ m | TCancelled m => Some m
  end.
Definition terminalAttemptId (s : TaskStatus) : option string :=
  match s with
  | TDelivered a _ | TDeliveryPartial a _ | TDismissed a _ | TDeliveryUnknown a _ => Some a
  | TExpired a _ => a
  | _ => None
  end.
Definition isPending (t : FollowupTaskRecord) : bool :=
  match tStatus t with TPending _ => true | _ => false end.
(** pending, checking or delivering *)
Definition isActiveTask (t : FollowupTaskRecord) : bool :=
  match tStatus t with TPending _ | TChecking _ | TDelivering _ => true | _ => false end.

(** ** Attempts *)

Record ExecutionMetrics := {
  emDurationMs : Z;
  emTotalTokens : Z;
  emCostUsd : Q;
  emLlmCalls : Z;
}.

Record SettledCheck := {
  scAgentExecutionId : string;
  scModelResolved : string;
  scModelResolutionSource : ModelResolutionSource;
  scMetrics : ExecutionMetrics;
  scExecution : AgentTurnExecutionOutcome;
}.

Inductive TaskCheckExecutionEvidence :=
| NotStarted (code : StartCode) (errorKind : ErrorKind)
| NotReturned
| Settled (check : SettledCheck).

Inductive HistoryOutcome := HAppended | HAlreadyPresent | HFailed (errorKind : ErrorKind).

Inductive UnknownDelivery :=
| PlatformAmbiguous (errorKind : ErrorKind) (deliveredChunks failedChunks ambiguousChunks : Z)
    (lastPlatformMessageId : option string)
| OwnerRecovery (errorKind : ErrorKind)
| RuntimeUnsettled (errorKind : ErrorKind).

(** The literal chunk counts (no delivered chunk of a failed attempt, no failed
    chunk of a delivered one) are not stored. *)
Inductive AttemptStatus :=
| AChecking
| ADelivering (check : SettledCheck) (deliveringAtMs : Z)
| AFailed (check : TaskCheckExecutionEvidence) (deliveringAtMs : option Z) (failureStage : FailureStage)
    (errorKind : ErrorKind) (failedChunks terminalAtMs : Z)
| ADismissed (check : SettledCheck) (terminalAtMs : Z)
| ADelivered (check : SettledCheck) (deliveringAtMs deliveredChunks : Z)
    (lastPlatformMessageId : option string) (deliveredAtMs terminalAtMs : Z) (history : HistoryOutcome)
| ADeliveryPartial (check : SettledCheck) (deliveringAtMs : Z) (errorKind : ErrorKind)
    (deliveredChunks failedChunks : Z) (lastPlatformMessageId : option string)
    (deliveredAtMs terminalAtMs : Z)
| ADeliveryUnknown (check : SettledCheck) (deliveringAtMs : Z) (delivery : UnknownDelivery)
    (terminalAtMs : Z).

Record FollowupTaskAttemptRecord := {
  aId : string;
  aBootId : string;
  aRootRunId : string;
  aTaskIds : list string;
  aTenantId : string;
  aAgentId : string;
  aConversationRef : string;
  aStartedAtMs : Z;
  aStatus : AttemptStatus;
}.

Definition setAttemptStatus (a : FollowupTaskAttemptRecord) (s : AttemptStatus) : FollowupTaskAttemptRecord :=
  {| aId := aId a; aBootId := aBootId a; aRootRunId := aRootRunId a; aTaskIds := aTaskIds a;
     aTenantId := aTenantId a; aAgentId := aAgentId a; aConversationRef := aConversationRef a;
     aStartedAtMs := aStartedAtMs a; aStatus := s |}.

Definition attemptTerminalAtMs (s : AttemptStatus) : option Z :=
  match s with
  | AChecking | ADelivering _ _ => None
  | AFailed _ _ _ _ _ m | ADismissed _ m | ADelivered _ _ _ _ _ m _
  | ADeliveryPartial _ _ _ _ _ _ _ m | ADeliveryUnknown _ _ _ m => Some m
  end.
Definition attemptDeliveringAtMs (s : AttemptStatus) : option Z :=
  match s with
  | ADelivering _ m | ADelivered _ m _ _ _ _ _ | ADeliveryPartial _ m _ _ _ _ _ _
  | ADeliveryUnknown _ m _ _ => Some m
  | AFailed _ m _ _ _ _ => m
  | AChecking | ADismissed _ _ => None
  end.
Definition isActiveAttempt (a : FollowupTaskAttemptRecord) : bool :=
  match aStatus a with AChecking | ADelivering _ _ => true | _ => false end.

(** ** The stored file *)

Record FollowupTaskStoreFile := {
  tasks : list FollowupTaskRecord;
  attempts : list FollowupTaskAttemptRecord;
  policySnapshots : list WorkspacePolicySnapshot;
}.

Definition findTask (l : list FollowupTaskRecord) (i : string) : option FollowupTaskRecord :=
  List.find (fun t => bool_decide (tId t = i)) l.
Definition findAttempt (l : list FollowupTaskAttemptRecord) (i : string) : option FollowupTaskAttemptRecord :=
  List.find (fun a => bool_decide (aId a = i)) l.
Definition findPolicy (l : list WorkspacePolicySnapshot) (h : string) : option WorkspacePolicySnapshot :=
  List.find (fun p => bool_decide (wpCombinedHash p = h)) l.

Inductive Severity := Clean | Warn | Critical.

(** What the code takes from the platform and from the text scanner: the two
    encodings of SHA-256, [String.prototype.trim], the locale data of [Intl],
    [normalize("NFC").trim().replace(/\s+/gu, " ")], the severity of
    [validateMemoryWrite], [localeCompare] and the JSON texts of the store and of
    its records.  Trimming twice is trimming once. *)
Class TaskPlatform := {
  sha256base64url : string → string;
  sha256hex : string → string;
  trim : string → string;
  isCanonicalLocale : string → bool;
  normalizeText : string → string;
  validateMemoryWrite : string → Severity;
  localeCompare : string → string → Z;
  storeText : FollowupTaskStoreFile → string;
  taskText : FollowupTaskRecord → string;
  attemptText : FollowupTaskAttemptRecord → string;
  policyText : WorkspacePolicySnapshot → string;
  trim_trim s : trim (trim s) = trim s;
}.

(** ** Schemas *)

Section Schemas.
Context `{TaskPlatform}.

(** The number of bytes of the stored text. *)
Definition encodedBytes (r : FollowupTaskStoreFile) : Z := byteLength (storeText r).

Definition CanonicalLocaleSchema (s : string) : option string :=
  let v := trim s in
  if boundedString 2 128 v && isCanonicalLocale v then Some v else None.

(** A field that may be absent. *)
Definition optionalSchema (f : string → option string) (o : option string) : option (option string) :=
  match o with None => Some None | Some s => Some <$> f s end.

Definition ResponseLocalePolicySchema (p : ResponseLocalePolicy) : option ResponseLocalePolicy :=
  match optionalSchema CanonicalLocaleSchema (lpLocale p),
        optionalSchema CanonicalLocaleSchema (lpTranslationTarget p) with
  | Some locale, Some target =>
      let present := bool_decide (locale ≠ None) in
      let unset := bool_decide (lpSource p = LUnset) in
      if (unset && present) || (negb unset && negb present) || (lpEnforceLocale p && negb present)
      then None
      else Some {| lpLocale := locale; lpSource := lpSource p; lpTranslationTarget := target;
                   lpEnforceLocale := lpEnforceLocale p |}
  | _, _ => None
  end.

Definition DeliveryOriginSchema (d : DeliveryOrigin) : bool :=
  ConversationScope.nonempty (doChannelType d) && ConversationScope.nonempty (doChannelId d) &&
  ConversationScope.nonempty (doUserId d) && ConversationScope.nonempty (doTenantId d).

Definition ResolvedTurnScopeSchema (v : ConversationScope.ResolvedTurnScope) : bool :=
  ConversationScope.ConversationScopeSchema (ConversationScope.conversation v) &&
  ConversationScope.nonempty (ConversationScope.principal v) &&
  ConversationScope.ChannelEndpointSchema (ConversationScope.endpoint v) &&
  match ConversationScope.ResolvedTurnScopeIssues v with [] => true | _ => false end.

(** The two refinements of an origin: the reference identifies the scope, the
    delivery origin agrees with the turn. *)
Definition conversationRefMatches (o : BackgroundTaskOrigin) : bool :=
  match ConversationScope.createConversationRef sha256base64url
          (ConversationScope.conversation (oTurnScope o)) with
  | Ok r => bool_decide (r = oConversationRef o)
  | Err _ => false
  end.

Definition deliveryOriginMatches (o : BackgroundTaskOrigin) : bool :=
  let d := oDeliveryOrigin o in
  let v := oTurnScope o in
  let e := ConversationScope.endpoint v in
  bool_decide (doTenantId d = ConversationScope.tenantId (ConversationScope.conversation v)) &&
  bool_decide (doChannelType d = ConversationScope.channelType e) &&
  bool_decide (doChannelId d = ConversationScope.conversationId e) &&
  bool_decide (doUserId d = ConversationScope.principal v) &&
  bool_decide (doThreadId d = ConversationScope.threadId e).

Definition BackgroundTaskOriginSchema (o : BackgroundTaskOrigin) : option BackgroundTaskOrigin :=
  match ResponseLocalePolicySchema (oResponseLocalePolicy o) with
  | None => None
  | Some locale =>
      if ResolvedTurnScopeSchema (oTurnScope o) &&
         ConversationScope.ConversationRefSchema (oConversationRef o) &&
         DeliveryOriginSchema (oDeliveryOrigin o) &&
         SafeCountSchema (oBackgroundHopCount o) &&
         conversationRefMatches o && deliveryOriginMatches o
      then Some {| oTurnScope := oTurnScope o; oConversationRef := oConversationRef o;
                   oDeliveryOrigin := oDeliveryOrigin o; oTraceId := oTraceId o;
                   oTrustLevel := oTrustLevel o; oResponseLocalePolicy := locale;
                   oBackgroundHopCount := oBackgroundHopCount o |}
      else None
  end.

(** *** Workspace policies *)

Definition allowedTier (s : InstructionSection) : bool :=
  match isSourceKind s, isTrust s, isStability s with
  | Engine, Kernel, Stable | Operator, Trusted, Stable
  | AgentState, Untrusted, Turn | ExternalSource, Untrusted, Volatile => true
  | _, _, _ => false
  end.

Definition InstructionSectionSchema (s : InstructionSection) : option InstructionSection :=
  let i := trim (isId s) in
  if boundedString 1 128 i && (jsLength (isContent s) <=? 100000) && hex64 (isContentHash s) &&
     (0 <? isMaxChars s) && (isMaxChars s <=? 100000) && allowedTier s &&
     (jsLength (isContent s) <=? isMaxChars s)
  then Some {| isId := i; isSourceKind := isSourceKind s; isTrust := isTrust s;
               isStability := isStability s; isContent := isContent s;
               isContentHash := isContentHash s; isMaxChars := isMaxChars s |}
  else None.

Definition WorkspacePolicySnapshotSchema (p : WorkspacePolicySnapshot) : option WorkspacePolicySnapshot :=
  let agent := trim (wpAgentId p) in
  match mapM InstructionSectionSchema (wpSections p) with
  | Some sections =>
      if boundedString 1 128 agent && (length (wpSections p) <=? 64)%nat && hex64 (wpCombinedHash p)
      then Some {| wpAgentId := agent; wpSections := sections; wpCombinedHash := wpCombinedHash p |}
      else None
  | None => None
  end.

Definition hashWorkspacePolicyContent (content : string) : string := sha256hex content.

(** [JSON.stringify(sections.map(({ id, contentHash }) => ({ id, contentHash })))] *)
Definition sectionJson (s : InstructionSection) : string :=
  "{" +:+ CanonicalJson.stringify "id" +:+ ":" +:+ CanonicalJson.stringify (isId s) +:+ "," +:+
  CanonicalJson.stringify "contentHash" +:+ ":" +:+ CanonicalJson.stringify (isContentHash s) +:+ "}".

Definition computeWorkspacePolicyCombinedHash (sections : list InstructionSection) : string :=
  hashWorkspacePolicyContent ("[" +:+ CanonicalJson.join (sectionJson <$> sections) +:+ "]").

Inductive PolicyVerificationError :=
| DuplicateSection (sectionId : string)
| ContentHashMismatch (sectionId : string)
| CombinedHashMismatch.

Fixpoint verifySections (seen : list string) (l : list InstructionSection)
    : Result unit PolicyVerificationError :=
  match l with
  | [] => Ok tt
  | s :: l' =>
      if bool_decide (isId s ∈ seen) then Err (DuplicateSection (isId s))
      else if bool_decide (hashWorkspacePolicyContent (isContent s) ≠ isContentHash s)
      then Err (ContentHashMismatch (isId s))
      else verifySections (isId s :: seen) l'
  end.

Definition verifyWorkspacePolicySnapshot (p : WorkspacePolicySnapshot)
    : Result unit PolicyVerificationError :=
  let? _ := verifySections [] (wpSections p) in
  if bool_decide (computeWorkspacePolicyCombinedHash (wpSections p) = wpCombinedHash p) then Ok tt
  else Err CombinedHashMismatch.

(** *** Tasks *)

Definition taskBaseOk (t : FollowupTaskRecord) : bool :=
  IdSchema (tId t) && boundedString 1 128 (tAgentId t) &&
  IdSchema (tSourceExecutionId t) && IdSchema (tLastSourceExecutionId t) &&
  PositiveSchema (tSourceOccurrenceCount t) && hex64 (tWorkspacePolicyHash t) &&
  boundedString 1 4096 (tText t) && unitInterval (tConfidence t) &&
  SafeTimeSchema (tCreatedAtMs t) && SafeTimeSchema (tDueEarliestMs t) &&
  SafeTimeSchema (tDueLatestMs t) && SafeTimeSchema (tExpiresAtMs t) &&
  hex64 (tDedupeKey t) && SafeCountSchema (tAttemptCount t) &&
  SafeCountSchema (tPreAcceptanceFailureCount t).

Definition taskStatusFieldsOk (s : TaskStatus) : bool :=
  match s with
  | TPending n => SafeTimeSchema n
  | TChecking a | TDelivering a => IdSchema a
  | TDelivered a m | TDeliveryPartial a m | TDismissed a m | TDeliveryUnknown a m =>
      IdSchema a && SafeTimeSchema m
  | TExpired a m => match a with Some a => IdSchema a | None => true end && SafeTimeSchema m
  | TCancelled m => SafeTimeSchema m
  end.

(** The refinement of a task: window, agent, text size, attempt time, end time. *)
Definition taskWindowOk (t : FollowupTaskRecord) : bool :=
  (tCreatedAtMs t <=? tDueEarliestMs t) && (tDueEarliestMs t <=? tDueLatestMs t) &&
  (tDueLatestMs t <=? tExpiresAtMs t).

Definition taskStatusTimesOk (t : FollowupTaskRecord) : bool :=
  match tStatus t with
  | TPending n => (tCreatedAtMs t <=? n) && (n <=? tDueLatestMs t) && (n <=? tExpiresAtMs t)
  | _ => true
  end &&
  match taskTerminalAtMs (tStatus t) with Some m => tCreatedAtMs t <=? m | None => true end.

Definition setTaskParsed (t : FollowupTaskRecord) (o : BackgroundTaskOrigin) (l : ResponseLocalePolicy)
    : FollowupTaskRecord :=
  {| tId := tId t; tAgentId := tAgentId t; tOrigin := o;
     tSourceExecutionId := tSourceExecutionId t; tLastSourceExecutionId := tLastSourceExecutionId t;
     tSourceOccurrenceCount := tSourceOccurrenceCount t;
     tWorkspacePolicyHash := tWorkspacePolicyHash t; tResponseLocalePolicy := l;
     tText := tText t; tContentTrust := tContentTrust t; tConfidence := tConfidence t;
     tCreatedAtMs := tCreatedAtMs t; tDueEarliestMs := tDueEarliestMs t;
     tDueLatestMs := tDueLatestMs t; tExpiresAtMs := tExpiresAtMs t; tDedupeKey := tDedupeKey t;
     tAttemptCount := tAttemptCount t; tPreAcceptanceFailureCount := tPreAcceptanceFailureCount t;
     tStatus := tStatus t |}.

Definition FollowupTaskRecordSchema (t : FollowupTaskRecord) : option FollowupTaskRecord :=
  match BackgroundTaskOriginSchema (tOrigin t), ResponseLocalePolicySchema (tResponseLocalePolicy t) with
  | Some o, Some l =>
      if taskBaseOk t && taskStatusFieldsOk (tStatus t) && taskWindowOk t &&
         bool_decide (taskScopeAgent t = tAgentId t) && (byteLength (tText t) <=? 4 * 1024) &&
         taskStatusTimesOk t
      then Some (setTaskParsed t o l) else None
  | _, _ => None
  end.

(** *** Attempts *)

Definition outcomeOk (o : AgentTurnExecutionOutcome) : bool :=
  match o with
  | OCompleted | OUnknown _ => true
  | OFailed f _ => bool_decide (f ≠ FStop) && bool_decide (f ≠ FCancelled)
  | OAbortedByCaller r _ => bool_decide (r = RUserStop) || bool_decide (r = RCallerCancelled)
  | OAborted r _ _ => bool_decide (r ≠ RUserStop) && bool_decide (r ≠ RCallerCancelled)
  end.

Definition ExecutionMetricsSchema (m : ExecutionMetrics) : bool :=
  SafeCountSchema (emDurationMs m) && SafeCountSchema (emTotalTokens m) &&
  Qle_bool 0 (emCostUsd m) && SafeCountSchema (emLlmCalls m).

Definition SettledCheckSchema (c : SettledCheck) : bool :=
  IdSchema (scAgentExecutionId c) && boundedString 1 512 (scModelResolved c) &&
  ExecutionMetricsSchema (scMetrics c) && outcomeOk (scExecution c).

Definition SuccessfulTaskCheckExecutionEvidenceSchema (c : SettledCheck) : bool :=
  SettledCheckSchema c && match scExecution c with OCompleted => true | _ => false end.

Definition TaskCheckExecutionEvidenceSchema (e : TaskCheckExecutionEvidence) : bool :=
  match e with
  | NotStarted (CInvalidInput | CInvalidTarget) k => bool_decide (k = KValidation)
  | NotStarted (CNotBound | CPreconditionFailed) k => bool_decide (k = KPrecondition)
  | NotReturned => true
  | Settled c => SettledCheckSchema c
  end.

Definition platformIdSchema (o : option string) : bool :=
  match o with Some s => 1 <=? jsLength s | None => true end.

Definition UnknownDeliverySchema (d : UnknownDelivery) : bool :=
  match d with
  | PlatformAmbiguous _ delivered failed ambiguous last =>
      SafeCountSchema delivered && PositiveSchema failed && PositiveSchema ambiguous &&
      platformIdSchema last && (ambiguous <=? failed)
  | OwnerRecovery k => bool_decide (k = KInternal)
  | RuntimeUnsettled k => bool_decide (k = KTimeout)
  end.

(** The kind a failure stage fixes, and the executor code it stands for. *)
Definition fixedKind (s : FailureStage) : option ErrorKind :=
  match s with
  | SExecutorInvalidInput | SExecutorInvalidTarget => Some KValidation
  | SExecutorNotBound | SExecutorPrecondition | SDeliveryWindowClosed | STargetPrecondition
  | SConfigurationDisabled => Some KPrecondition
  | SDeadline => Some KTimeout
  | SOwnerRecoveryBeforeDelivery => Some KInternal
  | SModel | SOutputGuard | SDeliveryRejected => None
  end.

Definition executorCode (s : FailureStage) : option StartCode :=
  match s with
  | SExecutorInvalidInput => Some CInvalidInput
  | SExecutorInvalidTarget => Some CInvalidTarget
  | SExecutorNotBound => Some CNotBound
  | SExecutorPrecondition => Some CPreconditionFailed
  | _ => None
  end.

Definition validateFailure (check : TaskCheckExecutionEvidence) (deliveringAtMs : option Z)
    (stage : FailureStage) (kind : ErrorKind) (failedChunks : Z) : bool :=
  match fixedKind stage with Some k => bool_decide (kind = k) | None => true end &&
  (if bool_decide (stage = SOutputGuard) then
     bool_decide (kind = KAuth) || bool_decide (kind = KInternal) || bool_decide (kind = KValidation)
   else true) &&
  (let deliveryRejected := bool_decide (stage = SDeliveryRejected) in
   Bool.eqb deliveryRejected (bool_decide (deliveringAtMs ≠ None)) &&
   Bool.eqb deliveryRejected (0 <? failedChunks)) &&
  match executorCode stage, check with
  | None, NotStarted _ _ => false
  | None, _ => true
  | Some code, NotStarted c _ => bool_decide (c = code)
  | Some _, _ => false
  end &&
  Bool.eqb (bool_decide (stage = SOwnerRecoveryBeforeDelivery))
    (match check with NotReturned => true | _ => false end).

Definition attemptBaseOk (a : FollowupTaskAttemptRecord) : bool :=
  IdSchema (aId a) && IdSchema (aBootId a) && IdSchema (aRootRunId a) &&
  forallb IdSchema (aTaskIds a) && (1 <=? length (aTaskIds a))%nat && (length (aTaskIds a) <=? 8)%nat &&
  boundedString 1 128 (aTenantId a) && boundedString 1 128 (aAgentId a) &&
  ConversationScope.ConversationRefSchema (aConversationRef a) && SafeTimeSchema (aStartedAtMs a).

Definition attemptStatusOk (s : AttemptStatus) : bool :=
  match s with
  | AChecking => true
  | ADelivering c m => SuccessfulTaskCheckExecutionEvidenceSchema c && SafeTimeSchema m
  | AFailed c m stage kind failed term =>
      TaskCheckExecutionEvidenceSchema c &&
      match m with Some m => SafeTimeSchema m | None => true end &&
      SafeCountSchema failed && SafeTimeSchema term && validateFailure c m stage kind failed
  | ADismissed c term => SuccessfulTaskCheckExecutionEvidenceSchema c && SafeTimeSchema term
  | ADelivered c m delivered last at' term _ =>
      SuccessfulTaskCheckExecutionEvidenceSchema c && SafeTimeSchema m && PositiveSchema delivered &&
      platformIdSchema last && SafeTimeSchema at' && SafeTimeSchema term && (m <=? at') && (at' <=? term)
  | ADeliveryPartial c m _ delivered failed last at' term =>
      SuccessfulTaskCheckExecutionEvidenceSchema c && SafeTimeSchema m && PositiveSchema delivered &&
      PositiveSchema failed && platformIdSchema last && SafeTimeSchema at' && SafeTimeSchema term &&
      (m <=? at') && (at' <=? term)
  | ADeliveryUnknown c m d term =>
      SuccessfulTaskCheckExecutionEvidenceSchema c && SafeTimeSchema m && UnknownDeliverySchema d &&
      SafeTimeSchema term
  end.

Definition attemptTimesOk (a : FollowupTaskAttemptRecord) : bool :=
  match attemptTerminalAtMs (aStatus a) with Some m => aStartedAtMs a <=? m | None => true end &&
  match attemptDeliveringAtMs (aStatus a) with Some m => aStartedAtMs a <=? m | None => true end.

Definition hasDuplicate (values : list string) : bool := negb (bool_decide (NoDup values)).

Definition FollowupTaskAttemptRecordSchema (a : FollowupTaskAttemptRecord) : bool :=
  attemptBaseOk a && attemptStatusOk (aStatus a) && negb (hasDuplicate (aTaskIds a)) && attemptTimesOk a.

(** ** The stored file *)

Inductive ParseErrorCode := InvalidRecord | InvalidPolicy | DuplicateId | InvalidGraph.

(** A task and the attempt that ended it tell the same story. *)
Definition terminalMatches (s : TaskStatus) (a : AttemptStatus) : bool :=
  match s, a with
  | TDelivered _ _, ADelivered _ _ _ _ _ _ _ => true
  | TDeliveryPartial _ _, ADeliveryPartial _ _ _ _ _ _ _ _ => true
  | TDismissed _ _, ADismissed _ _ => true
  | TDeliveryUnknown _ _, ADeliveryUnknown _ _ _ _ => true
  | TExpired _ _, AFailed _ _ _ _ _ _ => true
  | _, _ => false
  end.

(** An active task and the attempt that works on it have the same status. *)
Definition sameActiveStatus (s : TaskStatus) (a : AttemptStatus) : bool :=
  match s, a with
  | TChecking _, AChecking | TDelivering _, ADelivering _ _ => true
  | _, _ => false
  end.

Definition taskGraphOk (root : FollowupTaskStoreFile) (t : FollowupTaskRecord) : bool :=
  match findPolicy (policySnapshots root) (tWorkspacePolicyHash t) with
  | Some p => bool_decide (wpAgentId p = tAgentId t)
  | None => false
  end &&
  match activeAttemptId (tStatus t), terminalAttemptId (tStatus t) with
  | Some i, _ =>
      match findAttempt (attempts root) i with
      | Some a => sameActiveStatus (tStatus t) (aStatus a) && bool_decide (tId t ∈ aTaskIds a)
      | None => false
      end
  | None, Some i =>
      match findAttempt (attempts root) i with
      | Some a =>
          bool_decide (attemptTerminalAtMs (aStatus a) ≠ None) && bool_decide (tId t ∈ aTaskIds a) &&
          bool_decide (taskTerminalAtMs (tStatus t) = attemptTerminalAtMs (aStatus a)) &&
          terminalMatches (tStatus t) (aStatus a)
      | None => false
      end
  | None, None => true
  end.

Definition attemptLinkOk (root : FollowupTaskStoreFile) (a : FollowupTaskAttemptRecord) (i : string) : bool :=
  match findTask (tasks root) i with
  | Some t =>
      bool_decide (tAgentId t = aAgentId a) && bool_decide (taskTenant t = aTenantId a) &&
      bool_decide (taskConversationRef t = aConversationRef a) &&
      (if isActiveAttempt a then
         sameActiveStatus (tStatus t) (aStatus a) && bool_decide (activeAttemptId (tStatus t) = Some (aId a))
       else true)
  | None => false
  end.

Definition validateGraph (root : FollowupTaskStoreFile) : bool :=
  forallb (taskGraphOk root) (tasks root) &&
  forallb (fun a => forallb (attemptLinkOk root a) (aTaskIds a)) (attempts root).

Definition FollowupTaskStoreEnvelopeSchema (r : FollowupTaskStoreFile) : bool :=
  (Z.of_nat (length (tasks r)) <=? 10000) && (Z.of_nat (length (attempts r)) <=? 50000) &&
  (Z.of_nat (length (policySnapshots r)) <=? 10000).

Definition FollowupTaskStoreFileSchema (r : FollowupTaskStoreFile) : option FollowupTaskStoreFile :=
  match mapM FollowupTaskRecordSchema (tasks r), mapM WorkspacePolicySnapshotSchema (policySnapshots r) with
  | Some ts, Some ps =>
      if FollowupTaskStoreEnvelopeSchema r && forallb FollowupTaskAttemptRecordSchema (attempts r)
      then Some {| tasks := ts; attempts := attempts r; policySnapshots := ps |} else None
  | _, _ => None
  end.

Definition parseFollowupTaskStoreFile (raw : FollowupTaskStoreFile)
    : Result FollowupTaskStoreFile ParseErrorCode :=
  if negb (FollowupTaskStoreEnvelopeSchema raw) then Err InvalidRecord else
  match FollowupTaskStoreFileSchema raw with
  | None => Err InvalidRecord
  | Some root =>
      if hasDuplicate (tId <$> tasks root) || hasDuplicate (aId <$> attempts root) then Err DuplicateId
      else if hasDuplicate (wpCombinedHash <$> policySnapshots root) then Err DuplicateId
      else if negb (forallb (fun p => is_ok (verifyWorkspacePolicySnapshot p)) (policySnapshots root))
      then Err InvalidPolicy
      else if validateGraph root then Ok root else Err InvalidGraph
  end.

End Schemas.
End TaskTypes.
