(* ===== verification/TaskTransitions.v ===== *)
(** * Transitions of the follow-up task store

  Models the pure transition functions of the task store:
  [packages/scheduler/src/tasks/task-store-transitions.ts] (how an attempt ends),
  [task-admission.ts] (how a candidate becomes a task or is merged into one) and
  [task-selector.ts] (which due tasks an attempt claims).

  A function that may hand back the object it was given returns [None] for
  "unchanged" and [Some] for a new root: the store writes only new roots. *)

From Stdlib Require Import Ascii QArith_base.
From S2P Require Import Prelude ConversationScope CanonicalJson TaskTypes.

Open Scope string_scope.
Open Scope list_scope.
Open Scope Z_scope.

Module TaskTransitions.
Import TaskTypes.

(** ** Errors *)

Inductive StoreErrorCode :=
| ENotInitialized | EInvalidPath | EInvalidState | ELockContended | ELockFailed | EIo
| EStoreFull | EOwnershipUnproven | EDisabled.

Record StoreError := {
  seCode : StoreErrorCode;
  seKind : ErrorKind;
  seMessage : string;
}.

Definition storeError (code : StoreErrorCode) (kind : ErrorKind) (message : string) : StoreError :=
  {| seCode := code; seKind := kind; seMessage := message |}.

Definition transitionError (message : string) : StoreError := storeError EInvalidState KValidation message.
Definition admissionError (message : string) : StoreError := storeError EInvalidState KValidation message.

Definition validTaskStoreTime (v : Z) : bool := isSafeInteger v && (0 <=? v).
Definition validTaskStoreId (v : string) : bool :=
  (0 <? jsLength v) && (jsLength v <=? 256) && (byteLength v <=? 256).

(** ** How attempts end *)

Definition withTasks (r : FollowupTaskStoreFile) (ts : list FollowupTaskRecord) : FollowupTaskStoreFile :=
  {| tasks := ts; attempts := attempts r; policySnapshots := policySnapshots r |}.

(** [attempts.map((candidate) => candidate.id === attempt.id ? a : candidate)] *)
Definition replaceAttempt (l : list FollowupTaskAttemptRecord) (a : FollowupTaskAttemptRecord)
    : list FollowupTaskAttemptRecord :=
  (fun c => if decide (aId c = aId a) then a else c) <$> l.

Definition withTasksAttempt (r : FollowupTaskStoreFile) (ts : list FollowupTaskRecord)
    (a : FollowupTaskAttemptRecord) : FollowupTaskStoreFile :=
  {| tasks := ts; attempts := replaceAttempt (attempts r) a; policySnapshots := policySnapshots r |}.

Fixpoint resolveClaimed (root : FollowupTaskStoreFile) (attempt : FollowupTaskAttemptRecord)
    (ids : list string) : Result (list FollowupTaskRecord) StoreError :=
  match ids with
  | [] => Ok []
  | i :: ids' =>
      match findTask (tasks root) i with
      | Some t =>
          match tStatus t with
          | TChecking a =>
              if decide (a = aId attempt) then
                let? ts := resolveClaimed root attempt ids' in Ok (t :: ts)
              else Err (transitionError "Task claim graph is inconsistent")
          | _ => Err (transitionError "Task claim graph is inconsistent")
          end
      | None => Err (transitionError "Task claim graph is inconsistent")
      end
  end.

Definition resolveClaimedTasks (root : FollowupTaskStoreFile) (attempt : FollowupTaskAttemptRecord)
    : Result (list FollowupTaskRecord) StoreError :=
  resolveClaimed root attempt (aTaskIds attempt).

Definition isCheckingTask (t : FollowupTaskRecord) : bool :=
  match tStatus t with TChecking _ => true | _ => false end.

Definition terminalizeConfigurationDisabled (root : FollowupTaskStoreFile)
    (attempt : FollowupTaskAttemptRecord) (check : SettledCheck) (nowMs : Z) : FollowupTaskStoreFile :=
  let failed := setAttemptStatus attempt
    (AFailed (Settled check) None SConfigurationDisabled KPrecondition 0 nowMs) in
  withTasksAttempt root
    ((fun t => if bool_decide (tId t ∈ aTaskIds attempt) && isCheckingTask t
               then setTaskStatus t (TPending nowMs) else t) <$> tasks root)
    failed.

Definition windowClosed (nowMs : Z) (t : FollowupTaskRecord) : bool :=
  (tDueLatestMs t <? nowMs) || (tExpiresAtMs t <? nowMs).

Definition terminalizeClosedWindow (root : FollowupTaskStoreFile) (attempt : FollowupTaskAttemptRecord)
    (check : SettledCheck) (claimed : list FollowupTaskRecord) (nowMs : Z) : FollowupTaskStoreFile :=
  let failed := setAttemptStatus attempt
    (AFailed (Settled check) None SDeliveryWindowClosed KPrecondition 0 nowMs) in
  withTasksAttempt root
    ((fun t => match findTask claimed (tId t) with
               | None => t
               | Some owned =>
                   if windowClosed nowMs owned
                   then setTaskStatus owned (TExpired (Some (aId attempt)) nowMs)
                   else setTaskStatus owned (TPending nowMs)
               end) <$> tasks root)
    failed.

Inductive TaskDeliverySettlement :=
| Accepted (deliveredChunks : Z) (lastPlatformMessageId : option string) (deliveredAtMs : Z)
    (history : HistoryOutcome)
| Partial (errorKind : ErrorKind) (deliveredChunks failedChunks : Z)
    (lastPlatformMessageId : option string) (deliveredAtMs : Z)
| Unknown (delivery : UnknownDelivery).

Definition validDeliveryTime (value minimum maximum : Z) : bool :=
  isSafeInteger value && (minimum <=? value) && (value <=? maximum).

Definition validOptionalId (o : option string) : bool :=
  match o with
  | None => true
  | Some v => (0 <? jsLength v) && (jsLength v <=? 256) && (byteLength v <=? 256)
  end.

Definition validUnknownDelivery (d : UnknownDelivery) : bool :=
  match d with
  | PlatformAmbiguous _ delivered failed ambiguous last =>
      isSafeInteger delivered && (0 <=? delivered) && isSafeInteger failed && (0 <? failed) &&
      isSafeInteger ambiguous && (0 <? ambiguous) && (ambiguous <=? failed) && validOptionalId last
  | OwnerRecovery k => bool_decide (k = KInternal)
  | RuntimeUnsettled k => bool_decide (k = KTimeout)
  end.

(** The terminal status of the attempt, and of its tasks. *)
Definition deliveryTerminalStatus (attemptId : string) (check : SettledCheck) (deliveringAtMs : Z)
    (outcome : TaskDeliverySettlement) (nowMs : Z) : Result (AttemptStatus * TaskStatus) StoreError :=
  match outcome with
  | Accepted delivered last at' history =>
      if negb (isSafeInteger delivered) || (delivered <? 1) ||
         negb (validDeliveryTime at' deliveringAtMs nowMs) || negb (validOptionalId last)
      then Err (transitionError "Accepted task delivery evidence is invalid")
      else Ok (ADelivered check deliveringAtMs delivered last at' nowMs history,
               TDelivered attemptId nowMs)
  | Partial kind delivered failed last at' =>
      if negb (isSafeInteger delivered) || (delivered <? 1) || negb (isSafeInteger failed) ||
         (failed <? 1) || negb (validDeliveryTime at' deliveringAtMs nowMs) || negb (validOptionalId last)
      then Err (transitionError "Partial task delivery evidence is invalid")
      else Ok (ADeliveryPartial check deliveringAtMs kind delivered failed last at' nowMs,
               TDeliveryPartial attemptId nowMs)
  | Unknown d =>
      if negb (validUnknownDelivery d)
      then Err (transitionError "Unknown task delivery evidence is invalid")
      else Ok (ADeliveryUnknown check deliveringAtMs d nowMs, TDeliveryUnknown attemptId nowMs)
  end.

Definition buildDeliveryTerminal (root : FollowupTaskStoreFile) (attempt : FollowupTaskAttemptRecord)
    (check : SettledCheck) (deliveringAtMs : Z) (outcome : TaskDeliverySettlement) (nowMs : Z)
    : Result FollowupTaskStoreFile StoreError :=
  let? st := deliveryTerminalStatus (aId attempt) check deliveringAtMs outcome nowMs in
  Ok (withTasksAttempt root
       ((fun t => match tStatus t with
                  | TDelivering a =>
                      if bool_decide (tId t ∈ aTaskIds attempt) && bool_decide (a = aId attempt)
                      then setTaskStatus t st.2 else t
                  | _ => t
                  end) <$> tasks root)
       (setAttemptStatus attempt st.1)).

Definition buildDismissedTerminal (root : FollowupTaskStoreFile) (attempt : FollowupTaskAttemptRecord)
    (check : SettledCheck) (nowMs : Z) : FollowupTaskStoreFile :=
  withTasksAttempt root
    ((fun t => match tStatus t with
               | TChecking a =>
                   if bool_decide (tId t ∈ aTaskIds attempt) && bool_decide (a = aId attempt)
                   then setTaskStatus t (TDismissed (aId attempt) nowMs) else t
               | _ => t
               end) <$> tasks root)
    (setAttemptStatus attempt (ADismissed check nowMs)).

(** *** Retryable failures *)

Definition RETRY_DELAYS_MS : list Z := [5 * 60000; 30 * 60000; 2 * 60 * 60000].

Inductive FailureDisposition := RetryScheduled | FailureExpired.

(** The task after its attempt failed; the flag tells whether it is retried. *)
Definition failTask (attempt : FollowupTaskAttemptRecord) (nowMs retryLimit : Z) (t : FollowupTaskRecord)
    : FollowupTaskRecord * bool :=
  if bool_decide (tId t ∈ aTaskIds attempt) &&
     bool_decide (activeAttemptId (tStatus t) = Some (aId attempt)) then
    let failureCount := tPreAcceptanceFailureCount t + 1 in
    let expired := (updTask t (tAttemptCount t) failureCount (TExpired (Some (aId attempt)) nowMs), false) in
    match RETRY_DELAYS_MS !! Z.to_nat (failureCount - 1) with
    | Some delayMs =>
        let retryAtMs := nowMs + delayMs in
        if (failureCount <=? retryLimit) && isSafeInteger retryAtMs &&
           (retryAtMs <=? tDueLatestMs t) && (retryAtMs <=? tExpiresAtMs t)
        then (updTask t (tAttemptCount t) failureCount (TPending retryAtMs), true)
        else expired
    | None => expired
    end
  else (t, false).

Definition buildRetryableFailure (root : FollowupTaskStoreFile) (attempt : FollowupTaskAttemptRecord)
    (check : TaskCheckExecutionEvidence) (stage : FailureStage) (kind : ErrorKind)
    (failedChunks nowMs retryLimit : Z)
    : Result (FollowupTaskStoreFile * FailureDisposition) StoreError :=
  let deliveringAtMs :=
    match aStatus attempt with
    | ADelivering _ m => if decide (stage = SDeliveryRejected) then Some m else None
    | _ => None
    end in
  let failed := setAttemptStatus attempt (AFailed check deliveringAtMs stage kind failedChunks nowMs) in
  if negb (FollowupTaskAttemptRecordSchema failed)
  then Err (transitionError "Task failure evidence is invalid")
  else
    let ts := failTask attempt nowMs retryLimit <$> tasks root in
    Ok (withTasksAttempt root (ts.*1) failed,
        if existsb snd ts then RetryScheduled else FailureExpired).

(** ** Claiming due tasks *)

Definition ROLLING_DAY_MS : Z := 24 * 60 * 60 * 1000.
Definition ACTIVE_CAP_RECHECK_MS : Z := 60000.

Inductive TaskClaimResult :=
| NoDue
| QuietHours
| DailyCap (deferredTaskCount expiredTaskCount : Z)
| Claimed (attempt : FollowupTaskAttemptRecord) (claimed : list FollowupTaskRecord)
    (policySnapshot : option WorkspacePolicySnapshot).

Definition isDue (agentId : string) (nowMs : Z) (t : FollowupTaskRecord) : bool :=
  bool_decide (tAgentId t = agentId) &&
  match tStatus t with TPending n => n <=? nowMs | _ => false end &&
  (nowMs <=? tDueLatestMs t) && (nowMs <=? tExpiresAtMs t).

(** The values whose JSON text is the group key of a task. *)
Definition OriginKey : Type :=
  ConversationScope.Scope * string * ConversationScope.ChannelEndpoint * string * DeliveryOrigin *
  string * ResponseLocalePolicy.

Definition originKey (t : FollowupTaskRecord) : OriginKey :=
  let o := tOrigin t in
  let v := oTurnScope o in
  (ConversationScope.conversation v, ConversationScope.principal v, ConversationScope.endpoint v,
   oConversationRef o, oDeliveryOrigin o, tWorkspacePolicyHash t, tResponseLocalePolicy t).

Definition groupExactOrigin (ts : list FollowupTaskRecord) : list (list FollowupTaskRecord) :=
  (foldl (fun (groups : jsmap OriginKey (list FollowupTaskRecord)) t =>
            match mget groups (originKey t) with
            | None => mset groups (originKey t) [t]
            | Some group => mset groups (originKey t) (group ++ [t])
            end) [] ts).*2.

Definition toCheckingTask (attemptId : string) (t : FollowupTaskRecord) : FollowupTaskRecord :=
  updTask t (tAttemptCount t + 1) (tPreAcceptanceFailureCount t) (TChecking attemptId).

(** When a settled attempt became visible in its conversation. *)
Definition visibleAtMs (s : AttemptStatus) : option Z :=
  match s with
  | ADelivered _ _ _ _ at' _ _ | ADeliveryPartial _ _ _ _ _ _ at' _ => Some at'
  | ADeliveryUnknown _ m _ _ => Some m
  | _ => None
  end.

Definition sameConversation (a : FollowupTaskAttemptRecord) (tenant agent ref : string) : bool :=
  bool_decide (aTenantId a = tenant) && bool_decide (aAgentId a = agent) &&
  bool_decide (aConversationRef a = ref).

Fixpoint reserve (l : list FollowupTaskAttemptRecord) (tenant agent ref : string) (cutoff : Z)
    (count : Z) (nextSlotMs : option Z) : Z * option Z :=
  match l with
  | [] => (count, nextSlotMs)
  | a :: l' =>
      if negb (sameConversation a tenant agent ref) then reserve l' tenant agent ref cutoff count nextSlotMs
      else if isActiveAttempt a then reserve l' tenant agent ref cutoff (count + 1) nextSlotMs
      else match visibleAtMs (aStatus a) with
           | None => reserve l' tenant agent ref cutoff count nextSlotMs
           | Some v =>
               if v <? cutoff then reserve l' tenant agent ref cutoff count nextSlotMs
               else
                 let release := v + ROLLING_DAY_MS in
                 reserve l' tenant agent ref cutoff (count + 1)
                   (Some match nextSlotMs with None => release | Some n => Z.min n release end)
           end
  end.

Definition visibleReservation (l : list FollowupTaskAttemptRecord) (t : FollowupTaskRecord) (nowMs : Z)
    : Z * option Z :=
  reserve l (taskTenant t) (tAgentId t) (taskConversationRef t) (nowMs - ROLLING_DAY_MS) 0 None.

Definition deferTask (nextSlotMs nowMs : Z) (t : FollowupTaskRecord) : FollowupTaskRecord :=
  match tStatus t with
  | TPending _ =>
      if (tDueLatestMs t <? nextSlotMs) || (tExpiresAtMs t <? nextSlotMs)
      then setTaskStatus t (TExpired None nowMs)
      else setTaskStatus t (TPending nextSlotMs)
  | _ => t
  end.

Definition deferGroup (all group : list FollowupTaskRecord) (nextSlotMs nowMs : Z) : list FollowupTaskRecord :=
  (fun t => if bool_decide (tId t ∈ tId <$> group) then deferTask nextSlotMs nowMs t else t) <$> all.

Record ClaimInput := {
  ciAgentId : string;
  ciBootId : string;
  ciRootRunId : string;
  ciAttemptId : string;
  ciMaxPerCheck : Z;
  ciMaxPerDayPerConversation : Z;
}.

Section Claim.
Context `{TaskPlatform}.

Definition compareTasks (l r : FollowupTaskRecord) : Z :=
  let next t := match tStatus t with TPending n => n | _ => MAX_SAFE_INTEGER end in
  if decide (next l - next r ≠ 0) then next l - next r
  else if decide (tDueEarliestMs l - tDueEarliestMs r ≠ 0) then tDueEarliestMs l - tDueEarliestMs r
  else if decide (tCreatedAtMs l - tCreatedAtMs r ≠ 0) then tCreatedAtMs l - tCreatedAtMs r
  else localeCompare (tId l) (tId r).

(** The stable sort of [Array.prototype.sort]. *)
Fixpoint insertTask (t : FollowupTaskRecord) (l : list FollowupTaskRecord) : list FollowupTaskRecord :=
  match l with
  | [] => [t]
  | u :: l' => if compareTasks t u <=? 0 then t :: u :: l' else u :: insertTask t l'
  end.
Definition sortTasks (l : list FollowupTaskRecord) : list FollowupTaskRecord := foldr insertTask [] l.

Definition dueTasks (root : FollowupTaskStoreFile) (agentId : string) (nowMs : Z) : list FollowupTaskRecord :=
  sortTasks (filter (fun t => isDue agentId nowMs t = true) (tasks root)).

(** The loop over the groups of due tasks: a saturated conversation is
    deferred, the first other one is claimed. *)
Fixpoint claimGroups (root : FollowupTaskStoreFile) (input : ClaimInput) (nowMs : Z)
    (ts : list FollowupTaskRecord) (saturatedIds : list string)
    (groups : list (list FollowupTaskRecord)) : FollowupTaskStoreFile * TaskClaimResult :=
  match groups with
  | [] =>
      let among (p : TaskStatus → bool) :=
        Z.of_nat (length (filter (fun t => bool_decide (tId t ∈ saturatedIds) && p (tStatus t) = true) ts)) in
      (withTasks root ts,
       DailyCap (among (fun s => match s with TPending _ => true | _ => false end))
                (among (fun s => match s with TExpired _ _ => true | _ => false end)))
  | [] :: groups' => claimGroups root input nowMs ts saturatedIds groups'
  | (first :: _) as group :: groups' =>
      let cap := visibleReservation (attempts root) first nowMs in
      if ciMaxPerDayPerConversation input <=? cap.1 then
        let nextSlot := default (nowMs + ACTIVE_CAP_RECHECK_MS) cap.2 in
        claimGroups root input nowMs (deferGroup ts group nextSlot nowMs)
          (saturatedIds ++ (tId <$> group)) groups'
      else
        let selected := take (Z.to_nat (ciMaxPerCheck input)) group in
        let claimedTasks := toCheckingTask (ciAttemptId input) <$> selected in
        let attempt :=
          {| aId := ciAttemptId input; aBootId := ciBootId input; aRootRunId := ciRootRunId input;
             aTaskIds := tId <$> selected; aTenantId := taskTenant first; aAgentId := tAgentId first;
             aConversationRef := taskConversationRef first; aStartedAtMs := nowMs; aStatus := AChecking |} in
        ({| tasks := (fun t => default t (findTask claimedTasks (tId t))) <$> ts;
            attempts := attempts root ++ [attempt]; policySnapshots := policySnapshots root |},
         Claimed attempt (filter (fun t => tId t ∈ tId <$> selected) claimedTasks)
           (findPolicy (policySnapshots root) (tWorkspacePolicyHash first)))
  end.

Definition planDueTaskClaim (root : FollowupTaskStoreFile) (nowMs : Z) (input : ClaimInput)
    (quietUntilMs : option Z) : option FollowupTaskStoreFile * TaskClaimResult :=
  let due := dueTasks root (ciAgentId input) nowMs in
  match due, quietUntilMs with
  | [], _ => (None, NoDue)
  | _, Some quiet =>
      if nowMs <? quiet
      then (Some (withTasks root (deferGroup (tasks root) due quiet nowMs)), QuietHours)
      else let p := claimGroups root input nowMs (tasks root) [] (groupExactOrigin due) in (Some p.1, p.2)
  | _, None => let p := claimGroups root input nowMs (tasks root) [] (groupExactOrigin due) in (Some p.1, p.2)
  end.
End Claim.

End TaskTransitions.
