(* ===== verification/TaskAdmission.v ===== *)
(** * Extraction and admission of follow-up tasks

  Models [packages/scheduler/src/tasks/task-extractor.ts], which binds the
  candidates a model proposed to the turns they were extracted from, and
  [task-admission.ts], which turns a bound candidate into a task, merges it into
  the pending task with the same deduplication key, or refuses it.

  JSON texts follow the key order of the schemas, absent keys are left out.
  With each candidate comes the id the factory returns if it is asked for one. *)

From Stdlib Require Import Ascii QArith_base.
From S2P Require Import Prelude ConversationScope CanonicalJson TaskTypes TaskTransitions.

Open Scope string_scope.
Open Scope list_scope.
Open Scope Z_scope.

Module TaskAdmission.
Import TaskTypes TaskTransitions.

Definition MAX_TASK_LIFETIME_MS : Z := 30 * 24 * 60 * 60 * 1000.
Definition MAX_TASK_TEXT_BYTES : Z := 4 * 1024.

Record TaskExtractionItem := {
  xItemId : string;
  xMinimumDueAtMs : Z;
  xSourceExecutionId : string;
  xOrigin : BackgroundTaskOrigin;
  xWorkspacePolicySnapshot : WorkspacePolicySnapshot;
  xResponseLocalePolicy : ResponseLocalePolicy;
  xCapturedAtMs : Z;
}.

Record BoundTaskCandidate := {
  bItem : TaskExtractionItem;
  bText : string;
  bConfidence : Q;
  bDueEarliestMs : Z;
  bDueLatestMs : Z;
  bExpiresAtMs : Z;
}.

(** ** Binding extracted candidates *)

Inductive ExtractionError :=
| OutputTooLarge
| InvalidOutput
| CandidateTooLarge (itemId : string)
| UnknownItem (itemId : string)
| DuplicateItem (itemId : string)
| InvalidTimeRange (itemId : string)
| BeforeMinimumDue (itemId : string)
| TimeOverflow (itemId : string).

(** A candidate of the model's output, as [CandidateSchema] accepts it. *)
Record RawCandidate := {
  rItemId : string;
  rText : string;
  rDueInSecondsEarliest : Z;
  rDueInSecondsLatest : option Z;
  rConfidence : Q;
}.

Definition CandidateSchema (c : RawCandidate) : bool :=
  boundedString 1 256 (rItemId c) && (1 <=? jsLength (rText c)) &&
  SafeCountSchema (rDueInSecondsEarliest c) &&
  match rDueInSecondsLatest c with Some l => SafeCountSchema l | None => true end &&
  unitInterval (rConfidence c).

Definition resolveCandidateTimes (item : TaskExtractionItem) (earliestSeconds : Z)
    (latestSeconds : option Z) (defaultWindowMs : Z) : Result (Z * Z * Z) ExtractionError :=
  if (earliestSeconds <=? 0) || (MAX_TASK_LIFETIME_MS / 1000 <? earliestSeconds) ||
     match latestSeconds with
     | Some l => (l <? earliestSeconds) || (MAX_TASK_LIFETIME_MS / 1000 <? l)
     | None => false
     end || negb (isSafeInteger defaultWindowMs) || (defaultWindowMs <=? 0)
  then Err (InvalidTimeRange (xItemId item))
  else
    let dueEarliestMs := xCapturedAtMs item + earliestSeconds * 1000 in
    let expiresAtMs := xCapturedAtMs item + MAX_TASK_LIFETIME_MS in
    let dueLatestMs :=
      match latestSeconds with
      | None => dueEarliestMs + defaultWindowMs
      | Some l => xCapturedAtMs item + l * 1000
      end in
    if negb (isSafeInteger dueEarliestMs) || negb (isSafeInteger dueLatestMs) ||
       negb (isSafeInteger expiresAtMs)
    then Err (TimeOverflow (xItemId item))
    else if dueEarliestMs <? xMinimumDueAtMs item then Err (BeforeMinimumDue (xItemId item))
    else if (dueLatestMs <? dueEarliestMs) || (expiresAtMs <? dueLatestMs)
    then Err (InvalidTimeRange (xItemId item))
    else Ok (dueEarliestMs, dueLatestMs, expiresAtMs).

Section Admission.
Context `{TaskPlatform}.

Definition textOk (s : string) : bool :=
  (0 <? jsLength (trim s)) && (byteLength s <=? MAX_TASK_TEXT_BYTES).

(** The index of the items, and the loop over the candidates. *)
Fixpoint indexItems (seen : list TaskExtractionItem) (items : list TaskExtractionItem)
    : Result (list TaskExtractionItem) ExtractionError :=
  match items with
  | [] => Ok seen
  | i :: items' =>
      if bool_decide (xItemId i ∈ xItemId <$> seen) then Err (DuplicateItem (xItemId i))
      else indexItems (seen ++ [i]) items'
  end.

Fixpoint bindCandidates (items : list TaskExtractionItem) (defaultWindowMs : Z)
    (seen : list string) (cs : list RawCandidate) : Result (list BoundTaskCandidate) ExtractionError :=
  match cs with
  | [] => Ok []
  | c :: cs' =>
      if bool_decide (rItemId c ∈ seen) then Err (DuplicateItem (rItemId c)) else
      match List.find (fun i => bool_decide (xItemId i = rItemId c)) items with
      | None => Err (UnknownItem (rItemId c))
      | Some item =>
          if negb (textOk (rText c)) then Err (CandidateTooLarge (rItemId c)) else
          let? times := resolveCandidateTimes item (rDueInSecondsEarliest c) (rDueInSecondsLatest c)
                          defaultWindowMs in
          let? rest := bindCandidates items defaultWindowMs (rItemId c :: seen) cs' in
          Ok ({| bItem := item; bText := rText c; bConfidence := rConfidence c;
                 bDueEarliestMs := times.1.1; bDueLatestMs := times.1.2; bExpiresAtMs := times.2 |} :: rest)
      end
  end.

(** [decoded] is the parsed output, [None] when it is not JSON of the schema's
    shape; [rawBytes] its size. *)
Definition parseTaskExtractionOutput (rawBytes : Z) (decoded : option (list RawCandidate))
    (items : list TaskExtractionItem) (batchMax defaultWindowMs : Z)
    : Result (list BoundTaskCandidate) ExtractionError :=
  if 64 * 1024 <? rawBytes then Err OutputTooLarge else
  match decoded with
  | None => Err InvalidOutput
  | Some cs =>
      if negb (forallb CandidateSchema cs) || (64 <? Z.of_nat (length cs)) ||
         (batchMax <? Z.of_nat (length cs))
      then Err InvalidOutput
      else let? index := indexItems [] items in bindCandidates index defaultWindowMs [] cs
  end.

(** ** Admission *)

Definition expectedExpiry (c : BoundTaskCandidate) : Z := xCapturedAtMs (bItem c) + MAX_TASK_LIFETIME_MS.

Definition validateCandidate (c : BoundTaskCandidate) : Result unit StoreError :=
  let item := bItem c in
  let invalid := Err (admissionError "Bound task candidate is invalid") in
  match BackgroundTaskOriginSchema (xOrigin item),
        WorkspacePolicySnapshotSchema (xWorkspacePolicySnapshot item),
        ResponseLocalePolicySchema (xResponseLocalePolicy item) with
  | Some origin, Some policy, Some _ =>
      if negb (is_ok (verifyWorkspacePolicySnapshot (xWorkspacePolicySnapshot item))) ||
         negb (bool_decide (wpAgentId policy =
           ConversationScope.agentId (ConversationScope.conversation (oTurnScope origin)))) ||
         negb (validTaskStoreId (xItemId item)) || negb (validTaskStoreId (xSourceExecutionId item)) ||
         negb (textOk (bText c)) || negb (unitInterval (bConfidence c)) ||
         negb (validTaskStoreTime (xCapturedAtMs item)) || negb (validTaskStoreTime (xMinimumDueAtMs item)) ||
         negb (validTaskStoreTime (bDueEarliestMs c)) || negb (validTaskStoreTime (bDueLatestMs c)) ||
         negb (validTaskStoreTime (bExpiresAtMs c)) || negb (isSafeInteger (expectedExpiry c)) ||
         negb (bExpiresAtMs c =? expectedExpiry c) ||
         (bDueEarliestMs c <? xMinimumDueAtMs item) || (bDueLatestMs c <? bDueEarliestMs c) ||
         (bExpiresAtMs c <? bDueLatestMs c)
      then invalid else Ok tt
  | _, _, _ => invalid
  end.

(** *** The deduplication key *)

Definition jsonField (k v : string) : string := CanonicalJson.stringify k +:+ ":" +:+ v.
Definition jsonObject (fields : list (option string)) : string :=
  "{" +:+ CanonicalJson.join (omap id fields) +:+ "}".
Definition jsonStr (k s : string) : option string := Some (jsonField k (CanonicalJson.stringify s)).
Definition jsonOpt (k : string) (o : option string) : option string :=
  match o with Some s => jsonStr k s | None => None end.

Definition endpointJson (e : ConversationScope.ChannelEndpoint) : string :=
  jsonObject [jsonStr "channelType" (ConversationScope.channelType e);
              jsonStr "channelInstanceId" (ConversationScope.channelInstanceId e);
              jsonStr "conversationId" (ConversationScope.conversationId e);
              jsonOpt "threadId" (ConversationScope.threadId e);
              jsonStr "conversationKind"
                (ConversationScope.conversationKind_str (ConversationScope.conversationKind e))].

Definition partitionJson (p : ConversationScope.ConversationPartition) : string :=
  match p with
  | ConversationScope.PAgent => jsonObject [jsonStr "kind" "agent"]
  | ConversationScope.PPrincipal pr => jsonObject [jsonStr "kind" "principal"; jsonStr "principalId" pr]
  | ConversationScope.PChannelPrincipal ct pr =>
      jsonObject [jsonStr "kind" "channel-principal"; jsonStr "channelType" ct; jsonStr "principalId" pr]
  | ConversationScope.PEndpoint e =>
      jsonObject [jsonStr "kind" "endpoint-conversation"; Some (jsonField "endpoint" (endpointJson e))]
  | ConversationScope.PEndpointPrincipal e pr =>
      jsonObject [jsonStr "kind" "endpoint-conversation-principal";
                  Some (jsonField "endpoint" (endpointJson e)); jsonStr "principalId" pr]
  end.

Definition scopeJson (s : ConversationScope.Scope) : string :=
  jsonObject [jsonStr "tenantId" (ConversationScope.tenantId s);
              jsonStr "agentId" (ConversationScope.agentId s);
              Some (jsonField "partition" (partitionJson (ConversationScope.partition s)))].

Definition deliveryOriginJson (d : DeliveryOrigin) : string :=
  jsonObject [jsonStr "channelType" (doChannelType d); jsonStr "channelId" (doChannelId d);
              jsonStr "userId" (doUserId d); jsonOpt "threadId" (doThreadId d);
              jsonStr "tenantId" (doTenantId d)].

Definition localeJson (l : ResponseLocalePolicy) : string :=
  jsonObject [jsonOpt "locale" (lpLocale l);
              jsonStr "source" (match lpSource l with
                                | LRequest => "request" | LExplicit => "explicit" | LUnset => "unset" end);
              jsonOpt "translationTarget" (lpTranslationTarget l);
              Some (jsonField "enforceLocale" (if lpEnforceLocale l then "true" else "false"))].

Definition dedupeValues (c : BoundTaskCandidate) : list string :=
  let o := xOrigin (bItem c) in
  let v := oTurnScope o in
  [ConversationScope.tenantId (ConversationScope.conversation v);
   ConversationScope.agentId (ConversationScope.conversation v);
   oConversationRef o;
   scopeJson (ConversationScope.conversation v);
   jsonObject [jsonStr "principalId" (ConversationScope.principal v)];
   endpointJson (ConversationScope.endpoint v);
   deliveryOriginJson (oDeliveryOrigin o);
   wpCombinedHash (xWorkspacePolicySnapshot (bItem c));
   localeJson (xResponseLocalePolicy (bItem c));
   normalizeText (bText c)].

Definition computeTaskDedupeKey (c : BoundTaskCandidate) : string :=
  sha256hex (ConversationScope.joinFields (dedupeValues c)).

(** *** Creating and merging *)

Definition addPolicy (policies : list WorkspacePolicySnapshot) (p : WorkspacePolicySnapshot)
    : Result (list WorkspacePolicySnapshot) StoreError :=
  match findPolicy policies (wpCombinedHash p) with
  | None => Ok (policies ++ [p])
  | Some existing =>
      if decide (existing = p) then Ok policies
      else Err (admissionError "Workspace policy hash identifies conflicting authority")
  end.

Definition activeTaskCount (root : FollowupTaskStoreFile) : Z :=
  Z.of_nat (length (filter (fun t => isActiveTask t = true) (tasks root))).

Inductive AdmissionDisposition :=
| Created (taskId : string)
| Merged (taskId : string)
| BelowThreshold
| UnsafeContent
| ExpiredCandidate
| ActiveConflict
| StoreFull.

Definition mergeTask (t : FollowupTaskRecord) (nextAttemptAtMs : Z) (c : BoundTaskCandidate) (warn : bool)
    : FollowupTaskRecord :=
  {| tId := tId t; tAgentId := tAgentId t; tOrigin := tOrigin t;
     tSourceExecutionId := tSourceExecutionId t;
     tLastSourceExecutionId := xSourceExecutionId (bItem c);
     tSourceOccurrenceCount := tSourceOccurrenceCount t + 1;
     tWorkspacePolicyHash := tWorkspacePolicyHash t; tResponseLocalePolicy := tResponseLocalePolicy t;
     tText := tText t;
     tContentTrust := match tContentTrust t with
                      | External => External
                      | Derived => if warn then External else Derived
                      end;
     tConfidence := if Qle_bool (bConfidence c) (tConfidence t) then tConfidence t else bConfidence c;
     tCreatedAtMs := tCreatedAtMs t;
     tDueEarliestMs := Z.min (tDueEarliestMs t) (bDueEarliestMs c);
     tDueLatestMs := Z.max (tDueLatestMs t) (bDueLatestMs c);
     tExpiresAtMs := tExpiresAtMs t; tDedupeKey := tDedupeKey t;
     tAttemptCount := tAttemptCount t; tPreAcceptanceFailureCount := tPreAcceptanceFailureCount t;
     tStatus := TPending (if tPreAcceptanceFailureCount t =? 0
                          then Z.min nextAttemptAtMs (bDueEarliestMs c) else nextAttemptAtMs) |}.

Definition createTask (taskId : string) (c : BoundTaskCandidate) (warn : bool) (nowMs : Z)
    : FollowupTaskRecord :=
  let item := bItem c in
  {| tId := taskId;
     tAgentId := ConversationScope.agentId (ConversationScope.conversation (oTurnScope (xOrigin item)));
     tOrigin := xOrigin item; tSourceExecutionId := xSourceExecutionId item;
     tLastSourceExecutionId := xSourceExecutionId item; tSourceOccurrenceCount := 1;
     tWorkspacePolicyHash := wpCombinedHash (xWorkspacePolicySnapshot item);
     tResponseLocalePolicy := xResponseLocalePolicy item; tText := bText c;
     tContentTrust := if warn then External else Derived; tConfidence := bConfidence c;
     tCreatedAtMs := xCapturedAtMs item; tDueEarliestMs := bDueEarliestMs c;
     tDueLatestMs := bDueLatestMs c; tExpiresAtMs := bExpiresAtMs c;
     tDedupeKey := computeTaskDedupeKey c; tAttemptCount := 0; tPreAcceptanceFailureCount := 0;
     tStatus := TPending (Z.max (bDueEarliestMs c) nowMs) |}.

Definition findDuplicate (root : FollowupTaskStoreFile) (key : string) : option FollowupTaskRecord :=
  List.find (fun t => bool_decide (tDedupeKey t = key) && isActiveTask t) (tasks root).

(** The part of [admitTaskCandidate] after the content check. *)
Definition admitChecked (root : FollowupTaskStoreFile) (c : BoundTaskCandidate) (nowMs : Z) (newId : string)
    (maxActiveTasks : Z) (hasCapacity : FollowupTaskStoreFile → bool) (warn : bool)
    : Result (option FollowupTaskStoreFile * (string * AdmissionDisposition)) StoreError :=
  let itemId := xItemId (bItem c) in
  let same d := Ok (None, (itemId, d)) in
  if (bDueLatestMs c <? nowMs) || (bExpiresAtMs c <? nowMs) then same ExpiredCandidate else
  match findDuplicate root (computeTaskDedupeKey c) with
  | Some dup =>
      match tStatus dup with
      | TPending next =>
          if tExpiresAtMs dup <? bDueLatestMs c then same ExpiredCandidate
          else
            let merged := withTasks root
              ((fun t => if decide (tId t = tId dup) then mergeTask dup next c warn else t) <$> tasks root) in
            if hasCapacity merged then Ok (Some merged, (itemId, Merged (tId dup))) else same StoreFull
      | _ => same ActiveConflict
      end
  | None =>
      if maxActiveTasks <=? activeTaskCount root then same StoreFull
      else if negb (validTaskStoreId newId)
      then Err (admissionError "Opaque id factory returned an invalid task id")
      else
        let? policies := addPolicy (policySnapshots root) (xWorkspacePolicySnapshot (bItem c)) in
        let created :=
          {| tasks := tasks root ++ [createTask newId c warn nowMs];
             attempts := attempts root; policySnapshots := policies |} in
        if hasCapacity created then Ok (Some created, (itemId, Created newId)) else same StoreFull
  end.

Definition admitTaskCandidate (root : FollowupTaskStoreFile) (c : BoundTaskCandidate)
    (confidenceThreshold : Q) (nowMs : Z) (newId : string) (maxActiveTasks : Z)
    (hasCapacity : FollowupTaskStoreFile → bool)
    : Result (option FollowupTaskStoreFile * (string * AdmissionDisposition)) StoreError :=
  let? _ := validateCandidate c in
  if negb (Qle_bool confidenceThreshold (bConfidence c))
  then Ok (None, (xItemId (bItem c), BelowThreshold)) else
  match validateMemoryWrite (bText c) with
  | Critical => Ok (None, (xItemId (bItem c), UnsafeContent))
  | Warn => admitChecked root c nowMs newId maxActiveTasks hasCapacity true
  | Clean => admitChecked root c nowMs newId maxActiveTasks hasCapacity false
  end.

(** The loop of [admitCandidates]. *)
Fixpoint admitAll (root : option FollowupTaskStoreFile) (current : FollowupTaskStoreFile)
    (cs : list (BoundTaskCandidate * string)) (threshold : Q) (nowMs maxActiveTasks : Z)
    (hasCapacity : FollowupTaskStoreFile → bool)
    : Result (option FollowupTaskStoreFile * list (string * AdmissionDisposition)) StoreError :=
  match cs with
  | [] => Ok (root, [])
  | (c, newId) :: cs' =>
      let? admitted := admitTaskCandidate (default current root) c threshold nowMs newId
                         maxActiveTasks hasCapacity in
      let? rest := admitAll (match admitted.1 with Some r => Some r | None => root end) current cs'
                     threshold nowMs maxActiveTasks hasCapacity in
      Ok (rest.1, admitted.2 :: rest.2)
  end.

End Admission.
End TaskAdmission.
