(* ===== verification/TaskQuarantine.v ===== *)
(** * Quarantine of malformed terminal task groups

  Model of packages/scheduler/src/tasks/task-quarantine.ts.  When the file of
  the follow-up task store fails its strict parser, the store sets aside the
  malformed records together with every record they are tied to, provided that
  the group has ended and nothing else refers to it: [planQuarantine] computes
  the group as a closure over the references between tasks, attempts and policy
  snapshots, [quarantineMalformedTerminalTaskGroups] appends its records to a
  private file before the store is rewritten without them.

  A value of the file is known by its JSON text and by how much of a record it
  is: one with the fields of its schema, one with the fields of the envelope
  schema only, or anything else. *)

From Stdlib Require Import Ascii.
From S2P Require Import Prelude ConversationScope CanonicalJson TaskTypes TaskTransitions.

Open Scope string_scope.
Open Scope list_scope.
Open Scope Z_scope.

Module TaskQuarantine.
Import TaskTypes TaskTransitions.

Definition MAX_FOLLOWUP_TASK_QUARANTINE_BYTES : Z := 16 * 1024 * 1024.

(** ** Raw values *)

Inductive Shape (E T : Type) :=
| Typed (record : T)
| Fields (envelope : E)
| Other.
Arguments Typed {E T} record.
Arguments Fields {E T} envelope.
Arguments Other {E T}.

Record RawValue (E T : Type) := {
  rawText : string;
  rawShape : Shape E T;
}.
Arguments rawText {E T} _.
Arguments rawShape {E T} _.

(** [terminalAttemptId] is absent, null or an identifier. *)
Record TaskEnvelope := {
  teId : string;
  teAgentId : string;
  teStatus : string;
  teWorkspacePolicyHash : string;
  teActiveAttemptId : option string;
  teTerminalAttemptId : option (option string);
}.

Record AttemptEnvelope := {
  aeId : string;
  aeAgentId : string;
  aeStatus : string;
  aeTaskIds : list string;
}.

Record PolicyEnvelope := {
  peAgentId : string;
  peCombinedHash : string;
}.

Record RawTaskRoot := {
  rawTasks : list (RawValue TaskEnvelope FollowupTaskRecord);
  rawAttempts : list (RawValue AttemptEnvelope FollowupTaskAttemptRecord);
  rawPolicySnapshots : list (RawValue PolicyEnvelope WorkspacePolicySnapshot);
}.

(** [FollowupTaskStoreEnvelopeSchema] on raw values. *)
Definition rawEnvelopeOk (raw : RawTaskRoot) : bool :=
  (Z.of_nat (length (rawTasks raw)) <=? 10000) && (Z.of_nat (length (rawAttempts raw)) <=? 50000) &&
  (Z.of_nat (length (rawPolicySnapshots raw)) <=? 10000).

Inductive QuarantineRecordKind := KTask | KAttempt | KPolicySnapshot.

#[global] Instance QuarantineRecordKind_eq_dec : EqDecision QuarantineRecordKind.
Proof. solve_decision. Defined.

(** The record of a row is its JSON text. *)
Record RawRecord := {
  rrKind : QuarantineRecordKind;
  rrId : string;
  rrValue : string;
}.

(** ** Envelope schemas *)

Definition TERMINAL_TASK_STATUSES : list string :=
  ["delivered"; "delivery_partial"; "dismissed"; "delivery_unknown"; "expired"; "cancelled"].
Definition TERMINAL_ATTEMPT_STATUSES : list string :=
  ["failed"; "dismissed"; "delivered"; "delivery_partial"; "delivery_unknown"].

Definition TerminalTaskStatusSchema (s : string) : bool := bool_decide (s ∈ TERMINAL_TASK_STATUSES).
Definition TerminalAttemptStatusSchema (s : string) : bool := bool_decide (s ∈ TERMINAL_ATTEMPT_STATUSES).

Definition optionalId (o : option string) : bool := match o with Some i => IdSchema i | None => true end.

Definition TaskEnvelopeSchema (e : TaskEnvelope) : bool :=
  let active := bool_decide (teStatus e ∈ ["checking"; "delivering"]) in
  IdSchema (teId e) && IdSchema (teAgentId e) &&
  (bool_decide (teStatus e = "pending") || active || TerminalTaskStatusSchema (teStatus e)) &&
  hex64 (teWorkspacePolicyHash e) && optionalId (teActiveAttemptId e) &&
  match teTerminalAttemptId e with Some o => optionalId o | None => true end &&
  (negb active || bool_decide (is_Some (teActiveAttemptId e))) &&
  (bool_decide (teStatus e = "pending") || active || bool_decide (teStatus e = "cancelled") ||
   bool_decide (is_Some (teTerminalAttemptId e))).

Definition AttemptEnvelopeSchema (e : AttemptEnvelope) : bool :=
  IdSchema (aeId e) && IdSchema (aeAgentId e) &&
  (bool_decide (aeStatus e ∈ ["checking"; "delivering"]) || TerminalAttemptStatusSchema (aeStatus e)) &&
  forallb IdSchema (aeTaskIds e) && (1 <=? length (aeTaskIds e))%nat && (length (aeTaskIds e) <=? 8)%nat.

Definition PolicyEnvelopeSchema (e : PolicyEnvelope) : bool :=
  IdSchema (peAgentId e) && hex64 (peCombinedHash e).

(** The envelope fields of a well-shaped record. *)
Definition taskEnvelope (t : FollowupTaskRecord) : TaskEnvelope :=
  {| teId := tId t; teAgentId := tAgentId t; teStatus := statusName (tStatus t);
     teWorkspacePolicyHash := tWorkspacePolicyHash t;
     teActiveAttemptId := activeAttemptId (tStatus t);
     teTerminalAttemptId :=
       match taskTerminalAtMs (tStatus t) with
       | Some _ => Some (terminalAttemptId (tStatus t))
       | None => None
       end |}.

Definition attemptStatusName (s : AttemptStatus) : string :=
  match s with
  | AChecking => "checking"
  | ADelivering _ _ => "delivering"
  | AFailed _ _ _ _ _ _ => "failed"
  | ADismissed _ _ => "dismissed"
  | ADelivered _ _ _ _ _ _ _ => "delivered"
  | ADeliveryPartial _ _ _ _ _ _ _ _ => "delivery_partial"
  | ADeliveryUnknown _ _ _ _ => "delivery_unknown"
  end.

Definition attemptEnvelope (a : FollowupTaskAttemptRecord) : AttemptEnvelope :=
  {| aeId := aId a; aeAgentId := aAgentId a; aeStatus := attemptStatusName (aStatus a);
     aeTaskIds := aTaskIds a |}.

Definition policyEnvelope (p : WorkspacePolicySnapshot) : PolicyEnvelope :=
  {| peAgentId := wpAgentId p; peCombinedHash := wpCombinedHash p |}.

(** [schema.safeParse(value)] *)
Definition parseEnvelope {E T} (schema : E → bool) (toEnvelope : T → E) (v : RawValue E T) : option E :=
  match rawShape v with
  | Typed r => if schema (toEnvelope r) then Some (toEnvelope r) else None
  | Fields e => if schema e then Some e else None
  | Other => None
  end.

Definition parseEnvelopes {E T} (schema : E → bool) (toEnvelope : T → E) (l : list (RawValue E T)) : option (list E) :=
  mapM (parseEnvelope schema toEnvelope) l.

(** ** The group to set aside *)

(** The identifiers collected so far, in the order of their insertion. *)
Record Group := {
  gTasks : list string;
  gAttempts : list string;
  gPolicies : list string;
}.

Definition addTo (l : list string) (i : string) : list string := if decide (i ∈ l) then l else l ++ [i].

Definition addTask (g : Group) (i : string) : Group :=
  {| gTasks := addTo (gTasks g) i; gAttempts := gAttempts g; gPolicies := gPolicies g |}.
Definition addAttempt (g : Group) (i : string) : Group :=
  {| gTasks := gTasks g; gAttempts := addTo (gAttempts g) i; gPolicies := gPolicies g |}.
Definition addPolicyId (g : Group) (i : string) : Group :=
  {| gTasks := gTasks g; gAttempts := gAttempts g; gPolicies := addTo (gPolicies g) i |}.

Definition groupSize (g : Group) : nat := length (gTasks g) + length (gAttempts g) + length (gPolicies g).

Section Closure.
Context (ts : list TaskEnvelope) (ats : list AttemptEnvelope) (ps : list PolicyEnvelope).

Definition findTaskEnvelope (i : string) : option TaskEnvelope := List.find (fun t => bool_decide (teId t = i)) ts.
Definition findAttemptEnvelope (i : string) : option AttemptEnvelope :=
  List.find (fun a => bool_decide (aeId a = i)) ats.
Definition findPolicyEnvelope (i : string) : option PolicyEnvelope :=
  List.find (fun p => bool_decide (peCombinedHash p = i)) ps.

(** The three loop bodies; [None] is [unsafeGroup()]. *)
Definition visitTask (g : Group) (i : string) : option Group :=
  match findTaskEnvelope i with
  | Some t =>
      if TerminalTaskStatusSchema (teStatus t) then
        let g := addPolicyId g (teWorkspacePolicyHash t) in
        Some (match teTerminalAttemptId t with Some (Some a) => addAttempt g a | _ => g end)
      else None
  | None => None
  end.

Definition visitAttempt (g : Group) (i : string) : option Group :=
  match findAttemptEnvelope i with
  | Some a => if TerminalAttemptStatusSchema (aeStatus a) then Some (foldl addTask g (aeTaskIds a)) else None
  | None => None
  end.

Definition visitPolicy (g : Group) (i : string) : option Group :=
  match findPolicyEnvelope i with
  | Some _ => Some (foldl addTask g (teId <$> filter (fun t => teWorkspacePolicyHash t = i) ts))
  | None => None
  end.

Fixpoint visitAll (visit : Group → string → option Group) (g : Group) (l : list string) : option Group :=
  match l with
  | [] => Some g
  | i :: l => match visit g i with Some g => visitAll visit g l | None => None end
  end.

(** One round of the loop; each list is read when its turn comes. *)
Definition closePass (g : Group) : option Group :=
  g ← visitAll visitTask g (gTasks g);
  g ← visitAll visitAttempt g (gAttempts g);
  visitAll visitPolicy g (gPolicies g).

(** The loop ends with the first round that adds nothing; [None] is out of fuel,
    [Some None] is [unsafeGroup()]. *)
Fixpoint closeGroup (fuel : nat) (g : Group) : option (option Group) :=
  match fuel with
  | O => None
  | S fuel =>
      match closePass g with
      | None => Some None
      | Some g' => if bool_decide (groupSize g' = groupSize g) then Some (Some g') else closeGroup fuel g'
      end
  end.

(** A round adds at least one of the identifiers of the file, but for one. *)
Definition closeFuel : nat := length ts + length ats + length ps + 2.

(** A record outside of the group refers to one inside. *)
Definition referredFromOutside (g : Group) : bool :=
  existsb (fun t =>
    negb (bool_decide (teId t ∈ gTasks g)) &&
    (match teActiveAttemptId t with Some a => bool_decide (a ∈ gAttempts g) | None => false end ||
     match teTerminalAttemptId t with Some (Some a) => bool_decide (a ∈ gAttempts g) | _ => false end ||
     bool_decide (teWorkspacePolicyHash t ∈ gPolicies g))) ts ||
  existsb (fun a =>
    negb (bool_decide (aeId a ∈ gAttempts g)) &&
    existsb (fun i => bool_decide (i ∈ gTasks g)) (aeTaskIds a)) ats.

End Closure.

Definition typedRecord {E T} (v : RawValue E T) : option T :=
  match rawShape v with Typed r => Some r | _ => None end.

(** The values whose identifier stays. *)
Definition keepRaw {E T} (key : E → string) (removed : list string) (l : list (RawValue E T)) (es : list E)
    : list (RawValue E T) :=
  fst <$> filter (fun p => key p.2 ∉ removed) (zip l es).

(** [ids.map((id) => ({ kind, id, value: byId.get(id)!.raw }))] *)
Definition recordsOf {E T} (kind : QuarantineRecordKind) (key : E → string) (ids : list string)
    (l : list (RawValue E T)) (es : list E) : list RawRecord :=
  omap (fun i => p ← List.find (fun p => bool_decide (key p.2 = i)) (zip l es);
                 Some {| rrKind := kind; rrId := i; rrValue := rawText p.1 |}) ids.

Section Plan.
Context `{TaskPlatform}.

(** The raw values of well-shaped records. *)
Definition rawOf (r : FollowupTaskStoreFile) : RawTaskRoot :=
  {| rawTasks := (fun t => {| rawText := taskText t; rawShape := Typed t |}) <$> tasks r;
     rawAttempts := (fun a => {| rawText := attemptText a; rawShape := Typed a |}) <$> attempts r;
     rawPolicySnapshots :=
       (fun p => {| rawText := policyText p; rawShape := Typed p |}) <$> policySnapshots r |}.

(** The identifiers of the values that fail their full schema. *)
Definition invalidIds {E T} (ok : T → bool) (key : E → string) (l : list (RawValue E T)) (es : list E)
    : list string :=
  omap (fun p => match typedRecord p.1 with
                 | Some r => if ok r then None else Some (key p.2)
                 | None => Some (key p.2)
                 end) (zip l es).

Definition taskValid (t : FollowupTaskRecord) : bool := bool_decide (is_Some (FollowupTaskRecordSchema t)).
Definition policyValid (p : WorkspacePolicySnapshot) : bool :=
  match WorkspacePolicySnapshotSchema p with
  | Some q => match verifyWorkspacePolicySnapshot q with Ok _ => true | Err _ => false end
  | None => false
  end.

Definition invalidGroup (raw : RawTaskRoot) ts ats ps : Group :=
  {| gTasks := invalidIds taskValid teId (rawTasks raw) ts;
     gAttempts := invalidIds FollowupTaskAttemptRecordSchema aeId (rawAttempts raw) ats;
     gPolicies := invalidIds policyValid peCombinedHash (rawPolicySnapshots raw) ps |}.

Definition quarantineError (kind : ErrorKind) (message : string) : StoreError :=
  storeError match kind with KResource => EStoreFull | KInternal => EIo | _ => EInvalidState end kind message.

Definition unsafeGroup : StoreError :=
  quarantineError KValidation "Malformed task authority is not an isolated terminal group".

Definition remainingRaw (raw : RawTaskRoot) ts ats ps (g : Group) : option FollowupTaskStoreFile :=
  tasks ← mapM typedRecord (keepRaw teId (gTasks g) (rawTasks raw) ts);
  attempts ← mapM typedRecord (keepRaw aeId (gAttempts g) (rawAttempts raw) ats);
  policies ← mapM typedRecord (keepRaw peCombinedHash (gPolicies g) (rawPolicySnapshots raw) ps);
  Some {| tasks := tasks; attempts := attempts; policySnapshots := policies |}.

Definition groupRecords (raw : RawTaskRoot) ts ats ps (g : Group) : list RawRecord :=
  recordsOf KTask teId (gTasks g) (rawTasks raw) ts ++
  recordsOf KAttempt aeId (gAttempts g) (rawAttempts raw) ats ++
  recordsOf KPolicySnapshot peCombinedHash (gPolicies g) (rawPolicySnapshots raw) ps.

(** From the closed group on. *)
Definition settleGroup (raw : RawTaskRoot) ts ats ps (g : Group)
    : Result (FollowupTaskStoreFile * list RawRecord) StoreError :=
  if referredFromOutside ts ats g then Err unsafeGroup else
  match remainingRaw raw ts ats ps g with
  | None => Err unsafeGroup
  | Some r =>
      match parseFollowupTaskStoreFile r with
      | Err _ => Err unsafeGroup
      | Ok root => Ok (root, groupRecords raw ts ats ps g)
      end
  end.

Definition planQuarantine (raw : RawTaskRoot) : Result (FollowupTaskStoreFile * list RawRecord) StoreError :=
  match parseEnvelopes TaskEnvelopeSchema taskEnvelope (rawTasks raw),
        parseEnvelopes AttemptEnvelopeSchema attemptEnvelope (rawAttempts raw),
        parseEnvelopes PolicyEnvelopeSchema policyEnvelope (rawPolicySnapshots raw) with
  | Some ts, Some ats, Some ps =>
      if hasDuplicate (teId <$> ts) || hasDuplicate (aeId <$> ats) || hasDuplicate (peCombinedHash <$> ps)
      then Err (quarantineError KValidation "Malformed task authority has ambiguous duplicate identifiers")
      else
        let invalid := invalidGroup raw ts ats ps in
        if (groupSize invalid =? 0)%nat
        then Err (quarantineError KValidation "Malformed task authority has an ambiguous reference graph")
        else match closeGroup ts ats ps (closeFuel ts ats ps) invalid with
             | Some (Some g) => settleGroup raw ts ats ps g
             | _ => Err unsafeGroup
             end
  | _, _, _ => Err (quarantineError KValidation "Malformed task authority lacks bounded quarantine metadata")
  end.

End Plan.

(** ** The quarantine file *)

Record QuarantineRow := {
  qrEntryId : string;
  qrQuarantinedAtMs : Z;
  qrRecordKind : QuarantineRecordKind;
  qrRecordId : string;
  qrRecordHash : string;
  qrRecord : string;
}.

#[global] Instance QuarantineRow_eq_dec : EqDecision QuarantineRow.
Proof. solve_decision. Defined.

(** A non-empty line: not JSON, JSON without the fields of a row, or a row. *)
Inductive QuarantineLine := LNotJson | LNotRow | LRow (row : QuarantineRow).

(** [qfTerminated]: the text is empty or ends with a line break. *)
Record QuarantineFile := {
  qfRegular : bool;
  qfPrivate : bool;
  qfSize : Z;
  qfLines : list QuarantineLine;
  qfTerminated : bool;
}.

Definition kindName (k : QuarantineRecordKind) : string :=
  match k with KTask => "task" | KAttempt => "attempt" | KPolicySnapshot => "policy_snapshot" end.

(** The calls to the file system, in the order of the code. *)
Inductive QuarantineStep :=
| QInspect | QOpen | QStat | QRead | QClose
| QMakeDirectory | QSecureDirectory | QInspectAppend | QOpenAppend | QStatAppend | QSecure | QWrite | QSync
| QCloseAppend | QOpenDirectory | QFlushDirectory.

(** A failed write leaves the file in any state. *)
Record QuarantineIo := {
  qioOk : QuarantineStep → bool;
  qioFailedWrite : QuarantineFile;
}.

(** A file that nobody else changes: what [lstat] saw is what is read. *)
Definition readPrivateQuarantineFile (io : QuarantineIo) (f : option QuarantineFile)
    : Result (option QuarantineFile) StoreError :=
  if negb (qioOk io QInspect)
  then Err (quarantineError KInternal "Unable to inspect follow-up task quarantine") else
  match f with
  | None => Ok None
  | Some f =>
      if negb (qfRegular f) || negb (qfPrivate f) || (MAX_FOLLOWUP_TASK_QUARANTINE_BYTES <? qfSize f)
      then Err (quarantineError KValidation "Follow-up task quarantine file authority is invalid")
      else if negb (qioOk io QOpen)
      then Err (quarantineError KInternal "Unable to open follow-up task quarantine")
      else if negb (qioOk io QStat)
      then Err (quarantineError KInternal
                  "Follow-up task quarantine file authority changed during inspection")
      else if negb (qioOk io QRead)
      then Err (quarantineError KInternal "Unable to read follow-up task quarantine")
      else if negb (qioOk io QClose)
      then Err (quarantineError KInternal "Unable to close follow-up task quarantine")
      else Ok (Some f)
  end.

Section File.
Context `{TaskPlatform}.

Definition hashRecord (record : string) : string := sha256hex record.

Definition quarantineEntryId (kind : QuarantineRecordKind) (id recordHash : string) : string :=
  let nul := String "000"%char EmptyString in
  sha256hex (kindName kind +:+ nul +:+ id +:+ nul +:+ recordHash).

Definition buildRow (quarantinedAtMs : Z) (r : RawRecord) : QuarantineRow :=
  let recordHash := hashRecord (rrValue r) in
  {| qrEntryId := quarantineEntryId (rrKind r) (rrId r) recordHash;
     qrQuarantinedAtMs := quarantinedAtMs; qrRecordKind := rrKind r; qrRecordId := rrId r;
     qrRecordHash := recordHash; qrRecord := rrValue r |}.

Definition QuarantineRowSchema (r : QuarantineRow) : bool :=
  hex64 (qrEntryId r) && SafeTimeSchema (qrQuarantinedAtMs r) && IdSchema (qrRecordId r) &&
  hex64 (qrRecordHash r).

Definition rowEvidenceOk (r : QuarantineRow) : bool :=
  QuarantineRowSchema r && bool_decide (qrRecordHash r = hashRecord (qrRecord r)) &&
  bool_decide (qrEntryId r = quarantineEntryId (qrRecordKind r) (qrRecordId r) (qrRecordHash r)).

Fixpoint decodeQuarantineRows (entryIds : list string) (l : list QuarantineLine)
    : Result (list QuarantineRow) StoreError :=
  match l with
  | [] => Ok []
  | LNotJson :: _ => Err (quarantineError KValidation "Follow-up task quarantine contains invalid JSON")
  | LNotRow :: _ => Err (quarantineError KValidation "Follow-up task quarantine contains invalid evidence")
  | LRow r :: l =>
      if negb (rowEvidenceOk r) || bool_decide (qrEntryId r ∈ entryIds)
      then Err (quarantineError KValidation "Follow-up task quarantine contains invalid evidence")
      else let? rows := decodeQuarantineRows (qrEntryId r :: entryIds) l in Ok (r :: rows)
  end.

Definition readQuarantine (io : QuarantineIo) (f : option QuarantineFile)
    : Result (list QuarantineRow) StoreError :=
  let? read := readPrivateQuarantineFile io f in
  match read with None => Ok [] | Some f => decodeQuarantineRows [] (qfLines f) end.

(** [JSON.stringify(row)] *)
Definition rowText (r : QuarantineRow) : string :=
  let field k v := CanonicalJson.stringify k +:+ ":" +:+ v in
  "{" +:+ CanonicalJson.join
    [field "formatVersion" "1"; field "entryId" (CanonicalJson.stringify (qrEntryId r));
     field "quarantinedAtMs" (pretty (qrQuarantinedAtMs r));
     field "recordKind" (CanonicalJson.stringify (kindName (qrRecordKind r)));
     field "recordId" (CanonicalJson.stringify (qrRecordId r));
     field "recordHash" (CanonicalJson.stringify (qrRecordHash r)); field "record" (qrRecord r)] +:+ "}".

(** Each row and a line break. *)
Definition rowsBytes (rows : list QuarantineRow) : Z :=
  foldr (fun r n => byteLength (rowText r) + 1 + n) 0 rows.

(** A row that continues an unterminated row makes a line that is not JSON. *)
Definition appendRows (f : QuarantineFile) (rows : list QuarantineRow) : QuarantineFile :=
  {| qfRegular := qfRegular f; qfPrivate := true; qfSize := qfSize f + rowsBytes rows;
     qfLines := if qfTerminated f then qfLines f ++ (LRow <$> rows)
                else removelast (qfLines f) ++ LNotJson :: (LRow <$> drop 1 rows);
     qfTerminated := true |}.

Definition emptyQuarantine : QuarantineFile :=
  {| qfRegular := true; qfPrivate := true; qfSize := 0; qfLines := []; qfTerminated := true |}.

Definition appendPrivateFile (io : QuarantineIo) (f : option QuarantineFile) (rows : list QuarantineRow)
    : option QuarantineFile * Result unit StoreError :=
  let fail m := Err (quarantineError KInternal m) in
  if negb (qioOk io QMakeDirectory) then (f, fail "Unable to create follow-up task quarantine directory")
  else if negb (qioOk io QSecureDirectory)
  then (f, fail "Unable to secure follow-up task quarantine directory")
  else if negb (qioOk io QInspectAppend) then (f, fail "Unable to inspect follow-up task quarantine")
  else
    let current := default emptyQuarantine f in
    if negb (qfRegular current)
    then (f, Err (quarantineError KValidation "Follow-up task quarantine path is not a regular file"))
    else if negb (isSafeInteger (qfSize current + rowsBytes rows)) ||
            (MAX_FOLLOWUP_TASK_QUARANTINE_BYTES <? qfSize current + rowsBytes rows)
    then (f, Err (quarantineError KResource "Follow-up task quarantine capacity reached"))
    else if negb (qioOk io QOpenAppend) then (f, fail "Unable to open follow-up task quarantine")
    else if negb (qioOk io QStatAppend)
    then (Some current, fail "Follow-up task quarantine is not regular")
    else if negb (qioOk io QSecure) then (Some current, fail "Unable to secure follow-up task quarantine")
    else if negb (qioOk io QWrite)
    then (Some (qioFailedWrite io), fail "Unable to append follow-up task quarantine")
    else
      let written := Some (appendRows current rows) in
      if negb (qioOk io QSync) then (written, fail "Unable to flush follow-up task quarantine")
      else if negb (qioOk io QCloseAppend) then (written, fail "Unable to close follow-up task quarantine")
      else if negb (qioOk io QOpenDirectory) then (written, fail "Unable to open task quarantine directory")
      else if negb (qioOk io QFlushDirectory) then (written, fail "Unable to flush task quarantine directory")
      else (written, Ok tt).

Definition quarantineMalformedTerminalTaskGroups (io : QuarantineIo) (f : option QuarantineFile)
    (raw : RawTaskRoot) (quarantinedAtMs : Z)
    : option QuarantineFile * Result (FollowupTaskStoreFile * nat) StoreError :=
  if negb (validTaskStoreTime quarantinedAtMs)
  then (f, Err (quarantineError KValidation "Task quarantine input is invalid")) else
  match planQuarantine raw with
  | Err e => (f, Err e)
  | Ok (root, records) =>
      match readQuarantine io f with
      | Err e => (f, Err e)
      | Ok existing =>
          let missingRows := filter (fun r => qrEntryId r ∉ qrEntryId <$> existing)
                               (buildRow quarantinedAtMs <$> records) in
          match missingRows with
          | [] => (f, Ok (root, length records))
          | _ =>
              let a := appendPrivateFile io f missingRows in
              (a.1, match a.2 with Ok _ => Ok (root, length records) | Err e => Err e end)
          end
      end
  end.

Record TaskQuarantineInspection := {
  tqExists : bool;
  tqBytes : Z;
  tqRecordCount : nat;
  tqValid : bool;
}.

(** The digest of the file is not modelled. *)
Definition inspectTaskQuarantine (io : QuarantineIo) (f : option QuarantineFile)
    : Result TaskQuarantineInspection StoreError :=
  let report e b n v := {| tqExists := e; tqBytes := b; tqRecordCount := n; tqValid := v |} in
  match readPrivateQuarantineFile io f with
  | Err e => if bool_decide (seKind e = KValidation) then Ok (report true 0 0%nat false) else Err e
  | Ok None => Ok (report false 0 0%nat true)
  | Ok (Some f) =>
      match decodeQuarantineRows [] (qfLines f) with
      | Ok rows => Ok (report true (qfSize f) (length rows) true)
      | Err _ => Ok (report true (qfSize f) 0%nat false)
      end
  end.

End File.

End TaskQuarantine.
