(* ===== verification/TaskStore.v ===== *)
(** * The durable follow-up task store

  Models [packages/scheduler/src/tasks/task-store.ts]: the operations of the
  store with their guards, the retention of finished work, the recovery of the
  attempts a dead owner left behind, and the atomic replacement of the file
  ([packages/scheduler/src/persistence/durable-file.ts]).

  The state is the file on disk, the quarantine file beside it and the
  [initialized] flag; the in-process mutex
  and the file lock make each operation one step.  Everything the environment
  decides about one call is its [Io]: the outcome of the lock, whether the reads
  work, which of the steps of a file replacement and of the use of the
  quarantine file succeed, and the clock. *)

From Stdlib Require Import Ascii QArith_base.
From S2P Require Import Prelude ConversationScope CanonicalJson TaskTypes TaskTransitions TaskAdmission TaskQuarantine.

Open Scope string_scope.
Open Scope list_scope.
Open Scope Z_scope.

Module TaskStore.
Import TaskTypes TaskTransitions TaskAdmission TaskQuarantine.

Definition MAX_FOLLOWUP_TASK_STORE_BYTES : Z := 16 * 1024 * 1024.
Definition MAX_ACTIVE_FOLLOWUP_TASKS : Z := 256.
Definition FOLLOWUP_TASK_RETENTION_MS : Z := 7 * 24 * 60 * 60 * 1000.
Definition ACTIVE_ATTEMPT_RESERVATION_BYTES : Z := 128 * 1024.

(** ** The file *)

(** [DOversized] is a file of any content past the byte ceiling, [DGarbage] a
    smaller one that is not JSON; [DMalformed] is JSON that is no list of
    well-shaped records, with its values when it has the three lists. *)
Inductive Disk :=
| DMissing
| DOversized
| DGarbage
| DMalformed (raw : option RawTaskRoot)
| DRoot (root : FollowupTaskStoreFile).

(** The steps of a file replacement, in order. *)
Inductive WriteStep :=
| WToken | WMkdir | WChmodDirectory | WOpen | WWrite | WSync | WClose | WRename
| WChmodFile | WOpenDirectory | WSyncDirectory | WCloseDirectory.

Inductive DurableFileError := DInvalidInput | DIo.

(** The new content is in place from the rename on; later failures are
    reported although the file was replaced. *)
Definition replaceDurableFile (ok : WriteStep → bool) (old new : Disk)
    : Disk * Result unit DurableFileError :=
  if negb (ok WToken) then (old, Err DInvalidInput)
  else if negb (ok WMkdir && ok WChmodDirectory && ok WOpen && ok WWrite && ok WSync && ok WClose &&
                ok WRename)
  then (old, Err DIo)
  else if negb (ok WChmodFile && ok WOpenDirectory && ok WSyncDirectory && ok WCloseDirectory)
  then (new, Err DIo)
  else (new, Ok tt).

Inductive LockOutcome := LockAcquired | LockHeld | LockBroken.

Record Io := {
  ioLock : LockOutcome;
  ioReadOk : bool;
  ioRereadOk : bool;
  ioWriteOk : WriteStep → bool;
  ioQuarantine : QuarantineIo;
  ioNow : Z;
}.

Record RuntimeConfig := {
  rcEnabled : bool;
  rcPreAcceptanceRetryLimit : Z;
  rcQuietUntilMs : option Z;
}.

(** [getRuntimeConfig] may throw ([None]). *)
Record StoreOptions := {
  pathsAbsolute : bool;
  getRuntimeConfig : string → option RuntimeConfig;
}.

Record Store := {
  initialized : bool;
  disk : Disk;
  quarantine : option QuarantineFile;
}.

Definition setDisk (st : Store) (d : Disk) : Store :=
  {| initialized := initialized st; disk := d; quarantine := quarantine st |}.
Definition setQuarantine (st : Store) (q : option QuarantineFile) : Store :=
  {| initialized := initialized st; disk := disk st; quarantine := q |}.

Section Store.
Context `{TaskPlatform} (options : StoreOptions).
Implicit Types (root : FollowupTaskStoreFile) (st : Store) (io : Io).

(** ** Encoding and capacity *)

Definition encodeFollowupTaskStore root : Result FollowupTaskStoreFile StoreError :=
  match parseFollowupTaskStoreFile root with
  | Ok r => Ok r
  | Err _ =>
      Err (storeError EInvalidState KValidation "Follow-up task store mutation produced invalid authority")
  end.

Definition encodedWithinCapacity root : bool :=
  match encodeFollowupTaskStore root with
  | Err _ => false
  | Ok r =>
      let active := Z.of_nat (length (filter (fun a => isActiveAttempt a = true) (attempts root))) in
      let reservedBytes := active * ACTIVE_ATTEMPT_RESERVATION_BYTES in
      isSafeInteger reservedBytes && (encodedBytes r + reservedBytes <=? MAX_FOLLOWUP_TASK_STORE_BYTES)
  end.

Definition writeRoot st io root : Store * Result unit StoreError :=
  match encodeFollowupTaskStore root with
  | Err e => (st, Err e)
  | Ok r =>
      if MAX_FOLLOWUP_TASK_STORE_BYTES <? encodedBytes r
      then (st, Err (storeError EStoreFull KResource "Follow-up task store capacity reached"))
      else
        let p := replaceDurableFile (ioWriteOk io) (disk st) (DRoot r) in
        (setDisk st p.1,
         match p.2 with
         | Ok _ => Ok tt
         | Err DInvalidInput =>
             Err (storeError EInvalidState KValidation
                    "Opaque id factory returned an invalid temporary-file token")
         | Err DIo => Err (storeError EIo KInternal "Unable to durably replace follow-up task store")
         end)
  end.

Definition emptyRoot : FollowupTaskStoreFile := {| tasks := []; attempts := []; policySnapshots := [] |}.

(** The records set aside are in the quarantine file before the store is rewritten. *)
Definition quarantineRoot st io (raw : RawTaskRoot) (nowMs : Z) : Store * Result FollowupTaskStoreFile StoreError :=
  let q := quarantineMalformedTerminalTaskGroups (ioQuarantine io) (quarantine st) raw nowMs in
  let st := setQuarantine st q.1 in
  match q.2 with
  | Err e => (st, Err e)
  | Ok (r, _) =>
      let w := writeRoot st io r in
      (w.1, match w.2 with Ok _ => Ok r | Err e => Err e end)
  end.

(** [readRoot(createMissing, quarantineAtMs)] *)
Definition readRoot st io (createMissing : bool) (quarantineAtMs : option Z)
    : Store * Result FollowupTaskStoreFile StoreError :=
  let ioError := Err (storeError EIo KInternal "Unable to read follow-up task store") in
  let invalid (m : string) := Err (storeError EInvalidState KValidation m) in
  let untrusted (raw : option RawTaskRoot) :=
    match quarantineAtMs, raw with
    | Some now, Some raw => if rawEnvelopeOk raw then quarantineRoot st io raw now
                            else (st, invalid "Follow-up task store authority is invalid")
    | _, _ => (st, invalid "Follow-up task store authority is invalid")
    end in
  if negb (ioReadOk io) then (st, ioError) else
  match disk st with
  | DMissing =>
      if createMissing then
        let w := writeRoot st io emptyRoot in
        (w.1, match w.2 with Ok _ => Ok emptyRoot | Err e => Err e end)
      else (st, ioError)
  | DOversized => (st, invalid "Follow-up task store exceeds its byte ceiling")
  | DGarbage => (st, invalid "Follow-up task store contains invalid JSON")
  | DMalformed raw => untrusted raw
  | DRoot raw =>
      if MAX_FOLLOWUP_TASK_STORE_BYTES <? encodedBytes raw
      then (st, invalid "Follow-up task store exceeds its byte ceiling")
      else match parseFollowupTaskStoreFile raw with
           | Ok r => (st, Ok r)
           | Err _ => untrusted (Some (rawOf raw))
           end
  end.

(** ** Retention *)

Definition expireOverdue (nowMs : Z) (t : FollowupTaskRecord) : option FollowupTaskRecord :=
  match tStatus t with
  | TPending _ =>
      if (tDueLatestMs t <? nowMs) || (tExpiresAtMs t <? nowMs)
      then Some (setTaskStatus t (TExpired None nowMs)) else None
  | _ => None
  end.

Definition endedBy (cutoff : Z) (m : option Z) : bool :=
  match m with Some m => m <=? cutoff | None => false end.

Definition removableAttempt (ts : list FollowupTaskRecord) (cutoff : Z) (a : FollowupTaskAttemptRecord) : bool :=
  endedBy cutoff (attemptTerminalAtMs (aStatus a)) &&
  forallb (fun i => match findTask ts i with
                    | Some t => endedBy cutoff (taskTerminalAtMs (tStatus t))
                    | None => false
                    end) (aTaskIds a).

(** Whether retention keeps a task: it has not ended before the cutoff, or the
    attempt that ended it stays, or (ended by no attempt) some attempt lists it. *)
Definition keepTask (all : list FollowupTaskAttemptRecord) (removable : list string) (cutoff : Z)
    (t : FollowupTaskRecord) : bool :=
  if negb (endedBy cutoff (taskTerminalAtMs (tStatus t))) then true
  else match terminalAttemptId (tStatus t) with
       | Some a => negb (bool_decide (a ∈ removable))
       | None => existsb (fun a => bool_decide (tId t ∈ aTaskIds a)) all
       end.

Definition overdueTasks root (nowMs : Z) : list FollowupTaskRecord :=
  (fun t => default t (expireOverdue nowMs t)) <$> tasks root.

Definition removableIds root (nowMs : Z) : list string :=
  aId <$> filter (fun a => removableAttempt (overdueTasks root nowMs)
                             (nowMs - FOLLOWUP_TASK_RETENTION_MS) a = true) (attempts root).

Definition retained root (nowMs : Z) : FollowupTaskStoreFile :=
  let removable := removableIds root nowMs in
  let ts := filter (fun t => keepTask (attempts root) removable
                               (nowMs - FOLLOWUP_TASK_RETENTION_MS) t = true) (overdueTasks root nowMs) in
  {| tasks := ts;
     attempts := filter (fun a => aId a ∉ removable) (attempts root);
     policySnapshots := filter (fun p => wpCombinedHash p ∈ tWorkspacePolicyHash <$> ts)
                          (policySnapshots root) |}.

Definition maintainRoot root (nowMs : Z) : option FollowupTaskStoreFile :=
  let r := retained root nowMs in
  let changed :=
    existsb (fun t => bool_decide (is_Some (expireOverdue nowMs t))) (tasks root) ||
    negb (bool_decide (length (attempts r) = length (attempts root))) ||
    negb (bool_decide (length (tasks r) = length (tasks root))) ||
    negb (bool_decide (length (policySnapshots r) = length (policySnapshots root))) in
  if changed then Some r else None.

(** ** Operations *)

Definition withStoreLock {A} st io (operation : Store → Store * Result A StoreError)
    : Store * Result A StoreError :=
  if negb (pathsAbsolute options)
  then (st, Err (storeError EInvalidPath KValidation "Task store and lock paths must be absolute"))
  else match ioLock io with
       | LockHeld => (st, Err (storeError ELockContended KResource "locked"))
       | LockBroken => (st, Err (storeError ELockFailed KInternal "error"))
       | LockAcquired => operation st
       end.

Definition clockError : StoreError :=
  storeError EInvalidState KInternal "Clock returned an invalid task-store time".

(** Write the new object, if there is one, then return the value. *)
Definition persist {A} st io (new : option FollowupTaskStoreFile) (value : A)
    : Store * Result A StoreError :=
  match new with
  | None => (st, Ok value)
  | Some r => let w := writeRoot st io r in (w.1, match w.2 with Ok _ => Ok value | Err e => Err e end)
  end.

Definition initialize st io : Store * Result FollowupTaskStoreFile StoreError :=
  withStoreLock st io (fun st =>
    if negb (validTaskStoreTime (ioNow io)) then (st, Err clockError) else
    match readRoot st io true (Some (ioNow io)) with
    | (st1, Err e) => (st1, Err e)
    | (st1, Ok root) =>
        let maintained := maintainRoot root (ioNow io) in
        match persist st1 io maintained (default root maintained) with
        | (st2, Err e) => (st2, Err e)
        | (st2, Ok r) => ({| initialized := true; disk := disk st2; quarantine := quarantine st2 |}, Ok r)
        end
    end).

(** The common prologue of the operations on an initialized store. *)
Definition openRoot {A} st io
    (k : Store → FollowupTaskStoreFile → Store * Result A StoreError) : Store * Result A StoreError :=
  withStoreLock st io (fun st =>
    if negb (initialized st)
    then (st, Err (storeError ENotInitialized KPrecondition "Task store is not initialized"))
    else match readRoot st io false None with
         | (st1, Err e) => (st1, Err e)
         | (st1, Ok root) =>
             if negb (validTaskStoreTime (ioNow io)) then (st1, Err clockError) else k st1 root
         end).

Definition read st io : Store * Result FollowupTaskStoreFile StoreError :=
  openRoot st io (fun st root =>
    let maintained := maintainRoot root (ioNow io) in persist st io maintained (default root maintained)).

Record FollowupTaskOperatorRecord := {
  opId : string;
  opAgentId : string;
  opStatus : string;
  opDueEarliestMs : Z;
  opDueLatestMs : Z;
  opExpiresAtMs : Z;
  opAttemptCount : Z;
  opPreAcceptanceFailureCount : Z;
  opSourceExecutionId : string;
  opSourceOccurrenceCount : Z;
  opConversationRef : string;
}.

Definition projectOperatorTask (t : FollowupTaskRecord) : FollowupTaskOperatorRecord :=
  {| opId := tId t; opAgentId := tAgentId t; opStatus := statusName (tStatus t);
     opDueEarliestMs := tDueEarliestMs t; opDueLatestMs := tDueLatestMs t; opExpiresAtMs := tExpiresAtMs t;
     opAttemptCount := tAttemptCount t; opPreAcceptanceFailureCount := tPreAcceptanceFailureCount t;
     opSourceExecutionId := tSourceExecutionId t; opSourceOccurrenceCount := tSourceOccurrenceCount t;
     opConversationRef := taskConversationRef t |}.

Record FollowupTaskStoreInspection := {
  fiFileDigest : string;
  fiTasks : list FollowupTaskOperatorRecord;
  fiQuarantine : TaskQuarantineInspection;
}.

(** The text of the file as it is on disk after maintenance. *)
Definition diskText (d : Disk) : string := match d with DRoot r => storeText r | _ => EmptyString end.

Definition inspect st io : Store * Result FollowupTaskStoreInspection StoreError :=
  openRoot st io (fun st root =>
    let maintained := maintainRoot root (ioNow io) in
    match persist st io maintained tt with
    | (st1, Err e) => (st1, Err e)
    | (st1, Ok _) =>
        if negb (ioRereadOk io)
        then (st1, Err (storeError EIo KInternal "Unable to inspect follow-up task store"))
        else match inspectTaskQuarantine (ioQuarantine io) (quarantine st1) with
             | Err e => (st1, Err e)
             | Ok q => (st1, Ok {| fiFileDigest := sha256hex (diskText (disk st1));
                                   fiTasks := projectOperatorTask <$> tasks (default root maintained);
                                   fiQuarantine := q |})
             end
    end).

Definition mutate {A} st io
    (change : FollowupTaskStoreFile → Z → Result (option FollowupTaskStoreFile * A) StoreError)
    : Store * Result A StoreError :=
  openRoot st io (fun st root =>
    let maintained := maintainRoot root (ioNow io) in
    match change (default root maintained) (ioNow io) with
    | Err e => (st, Err e)
    | Ok (new, value) =>
        let result := match new with Some r => Some r | None => maintained end in
        if negb (encodedWithinCapacity (default root result))
        then (st, Err (storeError EStoreFull KResource "Follow-up task store capacity reached"))
        else persist st io result value
    end).

Definition resolveRuntimeConfig (agentId : string) : Result RuntimeConfig StoreError :=
  let invalid := Err (storeError EInvalidState KConfig "Task runtime configuration is invalid") in
  match getRuntimeConfig options agentId with
  | None => invalid
  | Some c =>
      if negb (isSafeInteger (rcPreAcceptanceRetryLimit c)) || (rcPreAcceptanceRetryLimit c <? 0) ||
         (3 <? rcPreAcceptanceRetryLimit c) ||
         match rcQuietUntilMs c with Some q => negb (isSafeInteger q) || (q <? 0) | None => false end
      then invalid else Ok c
  end.

(** *** Cancellation *)

Inductive CancellationOutcome :=
| Cancelled (taskIds activeTaskIds : list string)
| ActiveAttempt (taskId attemptId : string)
| AlreadyTerminal (taskId : string) (taskStatus : string)
| NotFound (taskId : string)
| NothingPending (activeTaskIds : list string).

Definition cancelTask (nowMs : Z) (t : FollowupTaskRecord) : FollowupTaskRecord :=
  match tStatus t with TPending _ => setTaskStatus t (TCancelled nowMs) | _ => t end.

Definition cancelIds root (ids : list string) (nowMs : Z) : FollowupTaskStoreFile :=
  withTasks root ((fun t => if decide (tId t ∈ ids) then cancelTask nowMs t else t) <$> tasks root).

Definition cancelChange (agentId : string) (taskId : option string) root (nowMs : Z)
    : Result (option FollowupTaskStoreFile * CancellationOutcome) StoreError :=
  let matching := filter (fun t => tAgentId t = agentId) (tasks root) in
  match taskId with
  | Some i =>
      match findTask matching i with
      | None => Ok (None, NotFound i)
      | Some t =>
          match tStatus t with
          | TChecking a | TDelivering a => Ok (None, ActiveAttempt (tId t) a)
          | TPending _ => Ok (Some (cancelIds root [tId t] nowMs), Cancelled [tId t] [])
          | s => Ok (None, AlreadyTerminal (tId t) (statusName s))
          end
      end
  | None =>
      let pendingIds := tId <$> filter (fun t => isPending t = true) matching in
      let activeIds := tId <$> filter (fun t => is_Some (activeAttemptId (tStatus t))) matching in
      match pendingIds with
      | [] => Ok (None, NothingPending activeIds)
      | _ => Ok (Some (cancelIds root pendingIds nowMs), Cancelled pendingIds activeIds)
      end
  end.

Definition cancelPending st io (agentId : string) (taskId : option string)
    : Store * Result CancellationOutcome StoreError :=
  if negb (validTaskStoreId agentId) || match taskId with Some i => negb (validTaskStoreId i) | None => false end
  then (st, Err (storeError EInvalidState KValidation "Task cancellation input is invalid"))
  else mutate st io (cancelChange agentId taskId).

(** *** Admission *)

Definition candidateAgent (c : BoundTaskCandidate) : string :=
  ConversationScope.agentId (ConversationScope.conversation (oTurnScope (xOrigin (bItem c)))).

Definition admitCandidates st io (candidates : list (BoundTaskCandidate * string)) (threshold : Q)
    : Store * Result (list (string * AdmissionDisposition)) StoreError :=
  if negb (unitInterval threshold) || (64 <? Z.of_nat (length candidates))
  then (st, Err (storeError EInvalidState KValidation "Task admission input is invalid"))
  else
    openRoot st io (fun st root =>
      let maintained := maintainRoot root (ioNow io) in
      let agents := candidateAgent <$> candidates.*1 in
      let enabled :=
        match agents with
        | [] => Ok tt
        | agent :: others =>
            if existsb (fun b => negb (bool_decide (b = agent))) others
            then Err (storeError EInvalidState KValidation "Task admission batch spans multiple agents")
            else let? config := resolveRuntimeConfig agent in
                 if rcEnabled config then Ok tt
                 else Err (storeError EDisabled KPrecondition
                             "Task inference was disabled before candidate persistence")
        end in
      match enabled with
      | Err e => (st, Err e)
      | Ok _ =>
          match admitAll maintained root candidates threshold (ioNow io) MAX_ACTIVE_FOLLOWUP_TASKS
                  encodedWithinCapacity with
          | Err e => (st, Err e)
          | Ok (new, results) => persist st io new results
          end
      end).

(** *** Attempts *)

Inductive ClaimOutcome := ClaimDisabled | ClaimResult (result : TaskClaimResult).

Definition claimChange (input : ClaimInput) root (nowMs : Z)
    : Result (option FollowupTaskStoreFile * ClaimOutcome) StoreError :=
  let? config := resolveRuntimeConfig (ciAgentId input) in
  if negb (rcEnabled config) then Ok (None, ClaimDisabled)
  else if existsb (fun a => bool_decide (aId a = ciAttemptId input)) (attempts root)
  then Err (storeError EInvalidState KPrecondition "Task attempt id already exists")
  else
    let planned := planDueTaskClaim root nowMs input (rcQuietUntilMs config) in
    if negb (encodedWithinCapacity (default root planned.1))
    then Err (storeError EStoreFull KResource
                "Follow-up task store cannot reserve terminal attempt capacity")
    else Ok (planned.1, ClaimResult planned.2).

Definition claimDue st io (input : ClaimInput) : Store * Result ClaimOutcome StoreError :=
  if negb (validTaskStoreId (ciAgentId input)) || negb (validTaskStoreId (ciBootId input)) ||
     negb (validTaskStoreId (ciRootRunId input)) || negb (validTaskStoreId (ciAttemptId input)) ||
     (ciMaxPerCheck input <? 1) || (8 <? ciMaxPerCheck input) ||
     (ciMaxPerDayPerConversation input <? 1) || (24 <? ciMaxPerDayPerConversation input)
  then (st, Err (storeError EInvalidState KValidation "Task claim input is invalid"))
  else mutate st io (claimChange input).

Inductive TaskBeginDeliveryResult :=
| BDelivering (deliveringAtMs : Z)
| BConfigurationDisabled
| BDeliveryWindowClosed.

Definition deliveringRoot root (attempt : FollowupTaskAttemptRecord) (check : SettledCheck) (nowMs : Z)
    : FollowupTaskStoreFile :=
  withTasksAttempt root
    ((fun t => match tStatus t with
               | TChecking a => if bool_decide (tId t ∈ aTaskIds attempt)
                                then setTaskStatus t (TDelivering a) else t
               | _ => t
               end) <$> tasks root)
    (setAttemptStatus attempt (ADelivering check nowMs)).

Definition beginDeliveryChange (attemptId : string) (check : SettledCheck) root (nowMs : Z)
    : Result (option FollowupTaskStoreFile * TaskBeginDeliveryResult) StoreError :=
  let notChecking := Err (storeError EInvalidState KPrecondition "Task attempt is not checking") in
  match findAttempt (attempts root) attemptId with
  | None => notChecking
  | Some attempt =>
      match aStatus attempt with
      | AChecking =>
          let? config := resolveRuntimeConfig (aAgentId attempt) in
          if negb (rcEnabled config)
          then Ok (Some (terminalizeConfigurationDisabled root attempt check nowMs), BConfigurationDisabled)
          else
            let? claimed := resolveClaimedTasks root attempt in
            if existsb (windowClosed nowMs) claimed
            then Ok (Some (terminalizeClosedWindow root attempt check claimed nowMs), BDeliveryWindowClosed)
            else Ok (Some (deliveringRoot root attempt check nowMs), BDelivering nowMs)
      | _ => notChecking
      end
  end.

Definition beginDelivery st io (attemptId : string) (check : SettledCheck)
    : Store * Result TaskBeginDeliveryResult StoreError :=
  if negb (validTaskStoreId attemptId) || negb (SuccessfulTaskCheckExecutionEvidenceSchema check)
  then (st, Err (storeError EInvalidState KValidation "Task send-boundary input is invalid"))
  else mutate st io (beginDeliveryChange attemptId check).

Inductive SettleOutcome := SettledNow | AlreadySettled.

Definition attemptMissing : StoreError := storeError EInvalidState KValidation "Task attempt was not found".

Definition settleDeliveryChange (attemptId : string) (outcome : TaskDeliverySettlement) root (nowMs : Z)
    : Result (option FollowupTaskStoreFile * SettleOutcome) StoreError :=
  match findAttempt (attempts root) attemptId with
  | None => Err attemptMissing
  | Some attempt =>
      match aStatus attempt with
      | ADelivering check m =>
          let? settled := buildDeliveryTerminal root attempt check m outcome nowMs in
          Ok (Some settled, SettledNow)
      | AChecking =>
          Err (storeError EInvalidState KPrecondition "Task attempt has not crossed the send boundary")
      | _ => Ok (None, AlreadySettled)
      end
  end.

Definition settleDelivery st io (attemptId : string) (outcome : TaskDeliverySettlement)
    : Store * Result SettleOutcome StoreError :=
  if negb (validTaskStoreId attemptId)
  then (st, Err (storeError EInvalidState KValidation "Task delivery settlement id is invalid"))
  else mutate st io (settleDeliveryChange attemptId outcome).

Definition dismissChange (attemptId : string) (check : SettledCheck) root (nowMs : Z)
    : Result (option FollowupTaskStoreFile * SettleOutcome) StoreError :=
  match findAttempt (attempts root) attemptId with
  | None => Err attemptMissing
  | Some attempt =>
      match aStatus attempt with
      | AChecking => Ok (Some (buildDismissedTerminal root attempt check nowMs), SettledNow)
      | ADelivering _ _ => Err (storeError EInvalidState KPrecondition "Task attempt is not dismissible")
      | _ => Ok (None, AlreadySettled)
      end
  end.

Definition dismissAttempt st io (attemptId : string) (check : SettledCheck)
    : Store * Result SettleOutcome StoreError :=
  if negb (validTaskStoreId attemptId) || negb (SuccessfulTaskCheckExecutionEvidenceSchema check)
  then (st, Err (storeError EInvalidState KValidation "Task dismissal evidence is invalid"))
  else mutate st io (dismissChange attemptId check).

(** The two shapes of a failure report. *)
Inductive TaskFailureInput :=
| PreSendFailure (failureStage : FailureStage) (errorKind : ErrorKind) (check : TaskCheckExecutionEvidence)
| DeliveryRejected (errorKind : ErrorKind) (failedChunks : Z).

Inductive FailOutcome := FailedRetry | FailedExpired | FailAlreadySettled.

Definition failWith root (attempt : FollowupTaskAttemptRecord) (check : TaskCheckExecutionEvidence)
    (stage : FailureStage) (kind : ErrorKind) (failedChunks nowMs : Z)
    : Result (option FollowupTaskStoreFile * FailOutcome) StoreError :=
  let? config := resolveRuntimeConfig (aAgentId attempt) in
  let? failed := buildRetryableFailure root attempt check stage kind failedChunks nowMs
                   (rcPreAcceptanceRetryLimit config) in
  Ok (Some failed.1, match failed.2 with RetryScheduled => FailedRetry | FailureExpired => FailedExpired end).

Definition failChange (attemptId : string) (input : TaskFailureInput) root (nowMs : Z)
    : Result (option FollowupTaskStoreFile * FailOutcome) StoreError :=
  match findAttempt (attempts root) attemptId with
  | None => Err attemptMissing
  | Some attempt =>
      match aStatus attempt, input with
      | ADelivering check _, DeliveryRejected kind failedChunks =>
          failWith root attempt (Settled check) SDeliveryRejected kind failedChunks nowMs
      | AChecking, PreSendFailure stage kind check => failWith root attempt check stage kind 0 nowMs
      | AChecking, DeliveryRejected _ _ =>
          Err (storeError EInvalidState KPrecondition "Delivery rejection requires the durable send boundary")
      | ADelivering _ _, PreSendFailure _ _ _ =>
          Err (storeError EInvalidState KPrecondition "Pre-send failure requires a checking attempt")
      | _, _ => Ok (None, FailAlreadySettled)
      end
  end.

Definition failAttempt st io (attemptId : string) (input : TaskFailureInput)
    : Store * Result FailOutcome StoreError :=
  if negb (validTaskStoreId attemptId)
  then (st, Err (storeError EInvalidState KValidation "Task failure attempt id is invalid"))
  else mutate st io (failChange attemptId input).

(** *** Recovery of a dead owner's attempts *)

Inductive RecoveryOutcome := RRetryScheduled | RExpired | RDeliveryUnknown.

Record RecoveredAttempt := {
  rvAgentId : string;
  rvAttemptId : string;
  rvRootRunId : string;
  rvTaskIds : list string;
  rvSourceExecutionIds : list string;
  rvOriginTraceIds : list string;
  rvOutcome : RecoveryOutcome;
  rvStartedAtMs : Z;
  rvTerminalAtMs : Z;
}.

Definition unique (values : list string) : list string :=
  foldl (fun acc v => if decide (v ∈ acc) then acc else acc ++ [v]) [] values.

Definition recoveryEvidence root (a : FollowupTaskAttemptRecord) (outcome : RecoveryOutcome) (nowMs : Z)
    : RecoveredAttempt :=
  let ts := filter (fun t => tId t ∈ aTaskIds a) (tasks root) in
  {| rvAgentId := aAgentId a; rvAttemptId := aId a; rvRootRunId := aRootRunId a; rvTaskIds := aTaskIds a;
     rvSourceExecutionIds := unique (tSourceExecutionId <$> ts);
     rvOriginTraceIds := unique (omap (fun t => oTraceId (tOrigin t)) ts);
     rvOutcome := outcome; rvStartedAtMs := aStartedAtMs a; rvTerminalAtMs := nowMs |}.

Definition recoverOne root (stale : FollowupTaskAttemptRecord) (nowMs : Z)
    : Result (FollowupTaskStoreFile * RecoveryOutcome) StoreError :=
  match aStatus stale with
  | ADelivering check m =>
      let? r := buildDeliveryTerminal root stale check m (Unknown (OwnerRecovery KInternal)) nowMs in
      Ok (r, RDeliveryUnknown)
  | _ =>
      let? config := resolveRuntimeConfig (aAgentId stale) in
      let? failed := buildRetryableFailure root stale NotReturned SOwnerRecoveryBeforeDelivery KInternal 0
                       nowMs (rcPreAcceptanceRetryLimit config) in
      Ok (failed.1, match failed.2 with RetryScheduled => RRetryScheduled | FailureExpired => RExpired end)
  end.

Fixpoint recoverAll (initialRoot : FollowupTaskStoreFile) root (stale : list FollowupTaskAttemptRecord)
    (nowMs : Z) : Result (FollowupTaskStoreFile * list RecoveredAttempt) StoreError :=
  match stale with
  | [] => Ok (root, [])
  | a :: stale' =>
      let? step := recoverOne root a nowMs in
      let? rest := recoverAll initialRoot step.1 stale' nowMs in
      Ok (rest.1, recoveryEvidence initialRoot a step.2 nowMs :: rest.2)
  end.

Definition staleAttempts root (currentBootId : string) : list FollowupTaskAttemptRecord :=
  filter (fun a => aBootId a ≠ currentBootId ∧ isActiveAttempt a = true) (attempts root).

Record RecoveryResult := {
  recoveredChecking : Z;
  recoveredDelivering : Z;
  recoveredAttempts : list RecoveredAttempt;
}.

(** The root of the change is the same object when nothing was stale. *)
Definition reconcileChange (currentBootId : string) root (nowMs : Z)
    : Result (option FollowupTaskStoreFile * RecoveryResult) StoreError :=
  let stale := staleAttempts root currentBootId in
  let? done := recoverAll root root stale nowMs in
  let count (p : AttemptStatus → bool) :=
    Z.of_nat (length (filter (fun a => p (aStatus a) = true) stale)) in
  Ok (match stale with [] => None | _ => Some done.1 end,
      {| recoveredChecking := count (fun s => match s with AChecking => true | _ => false end);
         recoveredDelivering := count (fun s => match s with ADelivering _ _ => true | _ => false end);
         recoveredAttempts := done.2 |}).

Definition reconcileOwnership st io (currentBootId : string) (exclusiveDataDirLockOwned : bool)
    : Store * Result RecoveryResult StoreError :=
  if negb (validTaskStoreId currentBootId)
  then (st, Err (storeError EInvalidState KValidation "Task recovery boot id is invalid"))
  else if negb exclusiveDataDirLockOwned
  then (st, Err (storeError EOwnershipUnproven KPrecondition
                   "Task recovery requires exclusive data-directory ownership"))
  else mutate st io (reconcileChange currentBootId).

End Store.
End TaskStore.
