(* ===== verification/TaskStoreTypes.v ===== *)
(** * Well-formed task stores

  What [parseFollowupTaskStoreFile] accepts, as a proposition: the predicate
  [wf] that the transition proofs preserve, the equivalence with the parser, and
  the lemmas on looking records up by their id. *)

From Stdlib Require Import Ascii QArith_base.
From S2P Require Import Prelude ConversationScope TaskTypes TaskTransitions TaskAdmission TaskQuarantine TaskStore.

Open Scope string_scope.
Open Scope list_scope.
Open Scope Z_scope.

Module TaskStoreTypes.
Import TaskTypes TaskTransitions TaskStore.

(** ** Finding records by id *)

Section Find.
Context {A : Type} (key : A → string).
Implicit Types (l : list A) (x : A).

Lemma find_key l i x : List.find (fun y => bool_decide (key y = i)) l = Some x → x ∈ l ∧ key x = i.
Proof. intros [Hin Hk]%List.find_some. apply bool_decide_eq_true in Hk. by rewrite list_elem_of_In. Qed.

Lemma find_key_in l x :
  NoDup (key <$> l) → x ∈ l → List.find (fun y => bool_decide (key y = key x)) l = Some x.
Proof.
  induction l as [|y l IH]; [by intros _ ?%elem_of_nil|]. simpl. csimpl.
  intros [Hy Hnd]%NoDup_cons [->|Hx]%elem_of_cons; [by rewrite bool_decide_true|].
  rewrite bool_decide_false; [by apply IH|]. intros E. apply Hy. rewrite E.
  apply list_elem_of_fmap. by exists x.
Qed.

Lemma find_key_iff l i x :
  NoDup (key <$> l) → List.find (fun y => bool_decide (key y = i)) l = Some x ↔ x ∈ l ∧ key x = i.
Proof. intros Hnd. split; [apply find_key|]. intros [Hx <-]. by apply find_key_in. Qed.

Lemma find_key_None l i :
  List.find (fun y => bool_decide (key y = i)) l = None ↔ i ∉ key <$> l.
Proof.
  induction l as [|y l IH]; simpl; [split; [by intros _ ?%elem_of_nil|done]|].
  csimpl. rewrite not_elem_of_cons. case_bool_decide as E; [split; [done|]; intros [Hne _]; by destruct Hne|].
  rewrite IH. naive_solver.
Qed.

Lemma key_inj l x y : NoDup (key <$> l) → x ∈ l → y ∈ l → key x = key y → x = y.
Proof.
  intros Hnd Hx Hy E. pose proof (find_key_in l x Hnd Hx) as H1. pose proof (find_key_in l y Hnd Hy) as H2.
  rewrite E in H1. congruence.
Qed.
End Find.

Lemma findTask_iff l i t : NoDup (tId <$> l) → findTask l i = Some t ↔ t ∈ l ∧ tId t = i.
Proof. apply find_key_iff. Qed.
Lemma findTask_Some l i t : findTask l i = Some t → t ∈ l ∧ tId t = i.
Proof. apply find_key. Qed.
Lemma findAttempt_iff l i a : NoDup (aId <$> l) → findAttempt l i = Some a ↔ a ∈ l ∧ aId a = i.
Proof. apply find_key_iff. Qed.
Lemma findAttempt_Some l i a : findAttempt l i = Some a → a ∈ l ∧ aId a = i.
Proof. apply find_key. Qed.
Lemma findPolicy_iff l h p : NoDup (wpCombinedHash <$> l) → findPolicy l h = Some p ↔ p ∈ l ∧ wpCombinedHash p = h.
Proof. apply find_key_iff. Qed.

(** ** Booleans of the schemas *)

Ltac bools :=
  repeat match goal with
  | H : _ && _ = true |- _ => apply andb_true_iff in H as [? ?]
  | |- _ && _ = true => apply andb_true_iff; split
  | H : negb _ = true |- _ => apply negb_true_iff in H
  | H : _ || _ = false |- _ => apply orb_false_iff in H as [? ?]
  | H : negb _ = false |- _ => apply negb_false_iff in H
  | H : bool_decide _ = true |- _ => apply bool_decide_eq_true in H
  | H : bool_decide _ = false |- _ => apply bool_decide_eq_false in H
  | H : (_ <=? _) = true |- _ => apply Z.leb_le in H
  | H : (_ <? _) = true |- _ => apply Z.ltb_lt in H
  | H : (_ <=? _) = false |- _ => apply Z.leb_gt in H
  | H : (_ <? _) = false |- _ => apply Z.ltb_ge in H
  | |- (_ <=? _) = true => apply Z.leb_le
  | |- (_ <? _) = true => apply Z.ltb_lt
  end.

Lemma SafeTime_iff z : SafeTimeSchema z = true ↔ 0 <= z <= MAX_SAFE_INTEGER.
Proof.
  unfold SafeTimeSchema, isSafeInteger, MAX_SAFE_INTEGER.
  rewrite !andb_true_iff, !Z.leb_le. lia.
Qed.

Lemma SafeCount_iff z : SafeCountSchema z = true ↔ 0 <= z <= MAX_SAFE_INTEGER.
Proof. apply SafeTime_iff. Qed.

Lemma validTime_safe z : validTaskStoreTime z = true → SafeTimeSchema z = true.
Proof. rewrite SafeTime_iff. unfold validTaskStoreTime, isSafeInteger. intros. bools. lia. Qed.

Section Wf.
Context `{TaskPlatform}.

(** ** Parsing is idempotent *)

Lemma CanonicalLocale_idem s v : CanonicalLocaleSchema s = Some v → CanonicalLocaleSchema v = Some v.
Proof. unfold CanonicalLocaleSchema. case_match; intros; simplify_eq. by rewrite trim_trim, H0. Qed.

Lemma optional_idem o p :
  optionalSchema CanonicalLocaleSchema o = Some p → optionalSchema CanonicalLocaleSchema p = Some p.
Proof.
  destruct o as [s|]; simpl; [|by intros; simplify_eq].
  destruct (CanonicalLocaleSchema s) eqn:E; simpl; intros; simplify_eq. simpl.
  by rewrite (CanonicalLocale_idem _ _ E).
Qed.

Lemma LocalePolicy_idem p q :
  ResponseLocalePolicySchema p = Some q → ResponseLocalePolicySchema q = Some q.
Proof.
  unfold ResponseLocalePolicySchema.
  destruct (optionalSchema _ (lpLocale p)) as [l|] eqn:El; [|done].
  destruct (optionalSchema _ (lpTranslationTarget p)) as [t|] eqn:Et; [|done].
  case_match eqn:Ec; intros; simplify_eq. simpl.
  by rewrite (optional_idem _ _ El), (optional_idem _ _ Et), Ec.
Qed.

Lemma Origin_idem o q : BackgroundTaskOriginSchema o = Some q → BackgroundTaskOriginSchema q = Some q.
Proof.
  unfold BackgroundTaskOriginSchema.
  destruct (ResponseLocalePolicySchema _) as [l|] eqn:El; [|done].
  case_match eqn:Ec; intros; simplify_eq. simpl. rewrite (LocalePolicy_idem _ _ El).
  unfold conversationRefMatches, deliveryOriginMatches in *. simpl. by rewrite Ec.
Qed.

Lemma Section_idem s q : InstructionSectionSchema s = Some q → InstructionSectionSchema q = Some q.
Proof.
  unfold InstructionSectionSchema. case_match eqn:Ec; intros; simplify_eq. simpl.
  unfold allowedTier in *. simpl. by rewrite trim_trim, Ec.
Qed.

Lemma mapM_idem {A} (f : A → option A) l k :
  (∀ x y, f x = Some y → f y = Some y) → mapM f l = Some k → mapM f k = Some k.
Proof.
  intros Hf. rewrite !mapM_Some. induction 1; constructor; eauto.
Qed.

Lemma mapM_self {A} (f : A → option A) l : mapM f l = Some l ↔ ∀ x, x ∈ l → f x = Some x.
Proof.
  rewrite mapM_Some, Forall2_same_length_lookup. split.
  - intros [_ Hl] x [i Hi]%list_elem_of_lookup. eauto.
  - intros Hx. split; [done|]. intros i x y Hi Hj. simplify_eq. apply Hx. by eapply list_elem_of_lookup_2.
Qed.

Lemma Policy_idem p q : WorkspacePolicySnapshotSchema p = Some q → WorkspacePolicySnapshotSchema q = Some q.
Proof.
  unfold WorkspacePolicySnapshotSchema. destruct (mapM _ _) as [ss|] eqn:Es; [|done].
  case_match eqn:Ec; intros; simplify_eq. simpl.
  rewrite (mapM_idem _ _ _ Section_idem Es), trim_trim.
  apply length_mapM in Es. by rewrite <- Es, Ec.
Qed.

Lemma setTaskParsed_id t : setTaskParsed t (tOrigin t) (tResponseLocalePolicy t) = t.
Proof. by destruct t. Qed.

(** What the task schema checks besides the embedded records. *)
Definition taskChecks (t : FollowupTaskRecord) : bool :=
  taskBaseOk t && taskStatusFieldsOk (tStatus t) && taskWindowOk t &&
  bool_decide (taskScopeAgent t = tAgentId t) && (byteLength (tText t) <=? 4 * 1024) &&
  taskStatusTimesOk t.

Lemma Origin_scope o q : BackgroundTaskOriginSchema o = Some q → oTurnScope q = oTurnScope o.
Proof. unfold BackgroundTaskOriginSchema. by repeat case_match; intros; simplify_eq. Qed.

(** The checks do not read what parsing replaces, except for the agent. *)
Lemma taskChecks_parsed t o l :
  oTurnScope o = oTurnScope (tOrigin t) → taskChecks (setTaskParsed t o l) = taskChecks t.
Proof.
  intros Eo. unfold taskChecks.
  change (taskBaseOk (setTaskParsed t o l)) with (taskBaseOk t).
  change (taskWindowOk (setTaskParsed t o l)) with (taskWindowOk t).
  change (taskStatusTimesOk (setTaskParsed t o l)) with (taskStatusTimesOk t).
  assert (taskScopeAgent (setTaskParsed t o l) = taskScopeAgent t) as ->; [|reflexivity].
  unfold taskScopeAgent. change (tOrigin (setTaskParsed t o l)) with o. by rewrite Eo.
Qed.

Lemma Task_schema t :
  FollowupTaskRecordSchema t =
  match BackgroundTaskOriginSchema (tOrigin t), ResponseLocalePolicySchema (tResponseLocalePolicy t) with
  | Some o, Some l => if taskChecks t then Some (setTaskParsed t o l) else None
  | _, _ => None
  end.
Proof. reflexivity. Qed.

Lemma Task_idem t u : FollowupTaskRecordSchema t = Some u → FollowupTaskRecordSchema u = Some u.
Proof.
  rewrite !Task_schema. destruct (BackgroundTaskOriginSchema (tOrigin t)) as [o|] eqn:Eo; [|done].
  destruct (ResponseLocalePolicySchema (tResponseLocalePolicy t)) as [l|] eqn:El; [|done].
  destruct (taskChecks t) eqn:Ec; intros; simplify_eq.
  change (tOrigin (setTaskParsed t o l)) with o.
  change (tResponseLocalePolicy (setTaskParsed t o l)) with l.
  rewrite (Origin_idem _ _ Eo), (LocalePolicy_idem _ _ El).
  by rewrite taskChecks_parsed, Ec by (by eapply Origin_scope).
Qed.

Lemma Task_valid t :
  FollowupTaskRecordSchema t = Some t ↔
  BackgroundTaskOriginSchema (tOrigin t) = Some (tOrigin t) ∧
  ResponseLocalePolicySchema (tResponseLocalePolicy t) = Some (tResponseLocalePolicy t) ∧
  taskChecks t = true.
Proof.
  rewrite Task_schema. split.
  - destruct (BackgroundTaskOriginSchema _) as [o|] eqn:Eo; [|done].
    destruct (ResponseLocalePolicySchema _) as [l|] eqn:El; [|done].
    case_match; [|done]. intros E. assert (setTaskParsed t o l = t) as E' by congruence.
    split; [|split; [|done]].
    + rewrite <- E'. done.
    + rewrite <- E'. done.
  - intros (-> & -> & ->). by rewrite setTaskParsed_id.
Qed.

(** ** Well-formed roots *)

Record wf (r : FollowupTaskStoreFile) : Prop := {
  wf_tasks t : t ∈ tasks r → FollowupTaskRecordSchema t = Some t;
  wf_attempts a : a ∈ attempts r → FollowupTaskAttemptRecordSchema a = true;
  wf_policies p : p ∈ policySnapshots r →
    WorkspacePolicySnapshotSchema p = Some p ∧ is_ok (verifyWorkspacePolicySnapshot p) = true;
  wf_task_ids : NoDup (tId <$> tasks r);
  wf_attempt_ids : NoDup (aId <$> attempts r);
  wf_policy_ids : NoDup (wpCombinedHash <$> policySnapshots r);
  wf_task_graph t : t ∈ tasks r → taskGraphOk r t = true;
  wf_links a i : a ∈ attempts r → i ∈ aTaskIds a → attemptLinkOk r a i = true;
}.

Lemma forallb_elem_of {A} (f : A → bool) l : forallb f l = true ↔ ∀ x, x ∈ l → f x = true.
Proof. rewrite forallb_forall. by setoid_rewrite list_elem_of_In. Qed.

Lemma validateGraph_iff r :
  validateGraph r = true ↔
  (∀ t, t ∈ tasks r → taskGraphOk r t = true) ∧
  (∀ a i, a ∈ attempts r → i ∈ aTaskIds a → attemptLinkOk r a i = true).
Proof.
  unfold validateGraph. rewrite andb_true_iff, !forallb_elem_of. setoid_rewrite forallb_elem_of. naive_solver.
Qed.

Lemma wf_parse r : wf r → FollowupTaskStoreEnvelopeSchema r = true → parseFollowupTaskStoreFile r = Ok r.
Proof.
  intros [Ht Ha Hp Hti Hai Hpi Hg Hl] He. unfold parseFollowupTaskStoreFile, FollowupTaskStoreFileSchema.
  rewrite He. simpl. rewrite (proj2 (mapM_self _ _) Ht).
  rewrite (proj2 (mapM_self _ _) (λ p Hin, proj1 (Hp p Hin))).
  rewrite (proj2 (forallb_elem_of _ _) Ha). simpl. unfold hasDuplicate.
  rewrite !bool_decide_true by done. simpl.
  rewrite (proj2 (forallb_elem_of _ _) (λ p Hin, proj2 (Hp p Hin))). simpl.
  assert (validateGraph {| tasks := tasks r; attempts := attempts r; policySnapshots := policySnapshots r |} = true)
    as ->; [|by destruct r].
  destruct r. by apply validateGraph_iff.
Qed.

Lemma FileSchema_self r r' :
  FollowupTaskStoreFileSchema r = Some r' →
  (∀ t, t ∈ tasks r' → FollowupTaskRecordSchema t = Some t) ∧
  (∀ p, p ∈ policySnapshots r' → WorkspacePolicySnapshotSchema p = Some p) ∧
  (∀ a, a ∈ attempts r' → FollowupTaskAttemptRecordSchema a = true) ∧
  FollowupTaskStoreEnvelopeSchema r' = true.
Proof.
  unfold FollowupTaskStoreFileSchema.
  destruct (mapM _ (tasks r)) as [ts|] eqn:Et; [|done].
  destruct (mapM _ (policySnapshots r)) as [ps|] eqn:Ep; [|done].
  case_match eqn:Ec; intros; simplify_eq. simpl. bools.
  split; [|split; [|split]].
  - apply mapM_self. by eapply mapM_idem; [apply Task_idem|].
  - apply mapM_self. by eapply mapM_idem; [apply Policy_idem|].
  - by apply forallb_elem_of.
  - apply length_mapM in Et, Ep. unfold FollowupTaskStoreEnvelopeSchema in *. simpl. by rewrite <- Et, <- Ep.
Qed.

Lemma parse_wf raw r :
  parseFollowupTaskStoreFile raw = Ok r → wf r ∧ FollowupTaskStoreEnvelopeSchema r = true.
Proof.
  unfold parseFollowupTaskStoreFile. destruct (FollowupTaskStoreEnvelopeSchema raw); [|done]. simpl.
  destruct (FollowupTaskStoreFileSchema raw) as [root|] eqn:E; [|done].
  apply FileSchema_self in E as (Ht & Hp & Ha & He).
  destruct (hasDuplicate (tId <$> _)) eqn:E1; [done|]. destruct (hasDuplicate (aId <$> _)) eqn:E2; [done|].
  destruct (hasDuplicate (wpCombinedHash <$> _)) eqn:E3; [done|]. simpl.
  destruct (forallb _ (policySnapshots root)) eqn:E4; [|done]. simpl.
  destruct (validateGraph root) eqn:E5; [|done]. intros ?%Ok_inj; subst.
  apply validateGraph_iff in E5 as [Hg Hl]. rewrite forallb_elem_of in E4.
  unfold hasDuplicate in *. bools. split; [split; auto|done].
Qed.

(** Parsing a parsed file gives it back: what is written can be read. *)
Lemma parse_parse raw r : parseFollowupTaskStoreFile raw = Ok r → parseFollowupTaskStoreFile r = Ok r.
Proof. intros [Hwf He]%parse_wf. by apply wf_parse. Qed.

End Wf.
End TaskStoreTypes.
