(* ===== verification/TaskStoreInvariants.v ===== *)
(** * Transitions keep the task store well formed

  Each transition of the task store is a change of one attempt together with
  the tasks it owns, a change of pending tasks only, or the start of an attempt.
  One lemma per shape shows that the change keeps the store well formed; the
  operations are instances of them. *)

From Stdlib Require Import Ascii QArith_base.
From S2P Require Import Prelude ConversationScope TaskTypes TaskTransitions TaskAdmission TaskQuarantine TaskStore TaskStoreTypes.

Open Scope string_scope.
Open Scope list_scope.
Open Scope Z_scope.

Module TaskStoreInvariants.
Import TaskTypes TaskTransitions TaskStore TaskStoreTypes.

(** ** Maps that keep ids *)

Lemma find_fmap_key {A} (key : A → string) (f : A → A) (l : list A) i :
  (∀ x, x ∈ l → key (f x) = key x) →
  List.find (fun y => bool_decide (key y = i)) (f <$> l) =
  f <$> List.find (fun y => bool_decide (key y = i)) l.
Proof.
  induction l as [|x l IH]; intros Hf; [done|]. csimpl. rewrite (Hf x) by left.
  case_bool_decide; [done|]. apply IH. intros y Hy. apply Hf. by right.
Qed.

Lemma fmap_key {A} (key : A → string) (f : A → A) (l : list A) :
  (∀ x, x ∈ l → key (f x) = key x) → key <$> (f <$> l) = key <$> l.
Proof.
  induction l as [|x l IH]; intros Hf; [done|]. csimpl. rewrite (Hf x) by left. f_equal.
  apply IH. intros y Hy. apply Hf. by right.
Qed.

(** What the graph check reads of a task besides its status. *)
Record sameTask (t u : FollowupTaskRecord) : Prop := {
  same_id : tId u = tId t;
  same_agent : tAgentId u = tAgentId t;
  same_origin : tOrigin u = tOrigin t;
  same_policy : tWorkspacePolicyHash u = tWorkspacePolicyHash t;
}.

Lemma sameTask_refl t : sameTask t t.
Proof. by split. Qed.
Lemma sameTask_upd t n m s : sameTask t (updTask t n m s).
Proof. by split. Qed.
#[local] Hint Resolve sameTask_refl sameTask_upd : core.

Section Invariants.
Context `{TaskPlatform}.
Implicit Types (r : FollowupTaskStoreFile) (t u : FollowupTaskRecord) (a c : FollowupTaskAttemptRecord).

Lemma Task_upd t n m s :
  FollowupTaskRecordSchema t = Some t →
  SafeCountSchema n = true → SafeCountSchema m = true →
  taskStatusFieldsOk s = true → taskStatusTimesOk (updTask t n m s) = true →
  FollowupTaskRecordSchema (updTask t n m s) = Some (updTask t n m s).
Proof.
  rewrite !Task_valid. intros (Ho & Hl & Hc) Hn Hm Hs Hx. split; [exact Ho|]. split; [exact Hl|].
  unfold taskChecks in *. rewrite Hx. change (tStatus (updTask t n m s)) with s. rewrite Hs.
  change (taskWindowOk (updTask t n m s)) with (taskWindowOk t).
  change (taskScopeAgent (updTask t n m s)) with (taskScopeAgent t).
  change (tAgentId (updTask t n m s)) with (tAgentId t). change (tText (updTask t n m s)) with (tText t).
  assert (taskBaseOk (updTask t n m s) = true) as ->.
  { unfold taskBaseOk in *. cbn [updTask tId tAgentId tSourceExecutionId tLastSourceExecutionId
      tSourceOccurrenceCount tWorkspacePolicyHash tText tConfidence tCreatedAtMs tDueEarliestMs tDueLatestMs
      tExpiresAtMs tDedupeKey tAttemptCount tPreAcceptanceFailureCount].
    rewrite Hn, Hm. rewrite !andb_true_iff in *. intuition. }
  rewrite !andb_true_iff in *. intuition.
Qed.

Lemma Task_counts t :
  FollowupTaskRecordSchema t = Some t →
  SafeCountSchema (tAttemptCount t) = true ∧ SafeCountSchema (tPreAcceptanceFailureCount t) = true.
Proof.
  rewrite Task_valid. intros (_ & _ & Hc). unfold taskChecks, taskBaseOk in Hc.
  rewrite !andb_true_iff in Hc. intuition.
Qed.

Lemma Task_setStatus t s :
  FollowupTaskRecordSchema t = Some t →
  taskStatusFieldsOk s = true → taskStatusTimesOk (setTaskStatus t s) = true →
  FollowupTaskRecordSchema (setTaskStatus t s) = Some (setTaskStatus t s).
Proof. intros Ht. destruct (Task_counts t Ht). by apply Task_upd. Qed.

(** An active attempt owns exactly the tasks it lists. *)
Lemma owned_iff r a t :
  wf r → a ∈ attempts r → isActiveAttempt a = true → t ∈ tasks r →
  tId t ∈ aTaskIds a ↔ activeAttemptId (tStatus t) = Some (aId a).
Proof.
  intros Hwf Ha Hact Ht. split.
  - intros Hi. pose proof (wf_links r Hwf a _ Ha Hi) as Hl. unfold attemptLinkOk in Hl.
    rewrite (proj2 (findTask_iff _ _ t (wf_task_ids r Hwf))) in Hl by done.
    rewrite Hact in Hl. by bools.
  - intros Hi. pose proof (wf_task_graph r Hwf t Ht) as Hg. unfold taskGraphOk in Hg. rewrite Hi in Hg.
    rewrite (proj2 (findAttempt_iff _ _ a (wf_attempt_ids r Hwf))) in Hg by done. by bools.
Qed.

Lemma owned_status r a t :
  wf r → a ∈ attempts r → t ∈ tasks r → activeAttemptId (tStatus t) = Some (aId a) →
  sameActiveStatus (tStatus t) (aStatus a) = true.
Proof.
  intros Hwf Ha Ht Hi. pose proof (wf_task_graph r Hwf t Ht) as Hg. unfold taskGraphOk in Hg.
  rewrite Hi in Hg. rewrite (proj2 (findAttempt_iff _ _ a (wf_attempt_ids r Hwf))) in Hg by done. by bools.
Qed.

(** No finished task names an active attempt. *)
Lemma terminal_not_active r a t :
  wf r → a ∈ attempts r → isActiveAttempt a = true → t ∈ tasks r →
  activeAttemptId (tStatus t) = None → terminalAttemptId (tStatus t) ≠ Some (aId a).
Proof.
  intros Hwf Ha Hact Ht Hn Hi. pose proof (wf_task_graph r Hwf t Ht) as Hg. unfold taskGraphOk in Hg.
  rewrite Hn, Hi in Hg. rewrite (proj2 (findAttempt_iff _ _ a (wf_attempt_ids r Hwf))) in Hg by done.
  bools. unfold isActiveAttempt in Hact. by destruct (aStatus a).
Qed.

(** ** Changing one active attempt and its tasks *)

(** The status of a task after the attempt that owns it became [a]. *)
Definition statusFollows (s : TaskStatus) (a : FollowupTaskAttemptRecord) : Prop :=
  if isActiveAttempt a then
    sameActiveStatus s (aStatus a) = true ∧ activeAttemptId s = Some (aId a)
  else
    activeAttemptId s = None ∧
    ∀ i, terminalAttemptId s = Some i →
      i = aId a ∧ taskTerminalAtMs s = attemptTerminalAtMs (aStatus a) ∧
      terminalMatches s (aStatus a) = true.

Lemma policy_same r t u ts ats :
  taskGraphOk r t = true → sameTask t u →
  match findPolicy (policySnapshots {| tasks := ts; attempts := ats; policySnapshots := policySnapshots r |})
          (tWorkspacePolicyHash u) with
  | Some p => bool_decide (wpAgentId p = tAgentId u)
  | None => false
  end = true.
Proof. intros Hg [? Hag ? Hp]. unfold taskGraphOk in Hg. bools. simpl. by rewrite Hp, Hag. Qed.

Section Replace.
Variables (r : FollowupTaskStoreFile) (a : FollowupTaskAttemptRecord) (s : AttemptStatus)
  (f : FollowupTaskRecord → FollowupTaskRecord).
Hypothesis Hwf : wf r.
Hypothesis Ha : a ∈ attempts r.
Hypothesis Hact : isActiveAttempt a = true.
Hypothesis Hschema : FollowupTaskAttemptRecordSchema (setAttemptStatus a s) = true.
Hypothesis Hother : ∀ t, t ∈ tasks r → activeAttemptId (tStatus t) ≠ Some (aId a) → f t = t.
Hypothesis Howned : ∀ t, t ∈ tasks r → activeAttemptId (tStatus t) = Some (aId a) →
  sameTask t (f t) ∧ FollowupTaskRecordSchema (f t) = Some (f t) ∧
  statusFollows (tStatus (f t)) (setAttemptStatus a s).

Let g c := if decide (aId c = aId (setAttemptStatus a s)) then setAttemptStatus a s else c.

Lemma replace_same t : t ∈ tasks r → sameTask t (f t).
Proof.
  intros Ht. destruct (decide (activeAttemptId (tStatus t) = Some (aId a))); [by apply Howned|].
  by rewrite Hother.
Qed.

Lemma replace_findTask i : findTask (f <$> tasks r) i = f <$> findTask (tasks r) i.
Proof. apply find_fmap_key. intros. by apply same_id, replace_same. Qed.

Lemma replace_key c : aId (g c) = aId c.
Proof. unfold g. by case_decide. Qed.

Lemma replace_findAttempt i : findAttempt (replaceAttempt (attempts r) (setAttemptStatus a s)) i = g <$> findAttempt (attempts r) i.
Proof. apply find_fmap_key. intros. apply replace_key. Qed.

Lemma replace_findAttempt_ne i c :
  i ≠ aId a → findAttempt (attempts r) i = Some c →
  findAttempt (replaceAttempt (attempts r) (setAttemptStatus a s)) i = Some c.
Proof.
  intros Hne Hc. rewrite replace_findAttempt, Hc. simpl. unfold g. rewrite decide_False; [done|].
  apply findAttempt_Some in Hc as [_ <-]. done.
Qed.

Lemma replace_graph_other t :
  t ∈ tasks r → activeAttemptId (tStatus t) ≠ Some (aId a) →
  taskGraphOk (withTasksAttempt r (f <$> tasks r) (setAttemptStatus a s)) t = true.
Proof.
  intros Ht Hne. pose proof (wf_task_graph r Hwf t Ht) as Hg. unfold taskGraphOk. bools.
  { by apply (policy_same r t). }
  unfold taskGraphOk in Hg. bools. simpl.
  destruct (activeAttemptId (tStatus t)) as [i|] eqn:Ei.
  - destruct (findAttempt (attempts r) i) as [c|] eqn:Ec; [|done].
    by rewrite (replace_findAttempt_ne i c) by (done || congruence).
  - destruct (terminalAttemptId (tStatus t)) as [i|] eqn:Et; [|done].
    destruct (findAttempt (attempts r) i) as [c|] eqn:Ec; [|done].
    rewrite (replace_findAttempt_ne i c); [done| |done].
    pose proof (terminal_not_active r a t Hwf Ha Hact Ht Ei). congruence.
Qed.

Lemma replace_graph_owned t :
  t ∈ tasks r → activeAttemptId (tStatus t) = Some (aId a) →
  taskGraphOk (withTasksAttempt r (f <$> tasks r) (setAttemptStatus a s)) (f t) = true.
Proof.
  intros Ht Hi. destruct (Howned t Ht Hi) as (Hsame & _ & Hst).
  pose proof (wf_task_graph r Hwf t Ht) as Hg. unfold taskGraphOk. bools.
  { by apply (policy_same r t). }
  assert (tId (f t) ∈ aTaskIds a) as Hin.
  { rewrite (same_id _ _ Hsame). by apply (owned_iff r a t). }
  assert (findAttempt (replaceAttempt (attempts r) (setAttemptStatus a s)) (aId a) =
          Some (setAttemptStatus a s)) as Hfind.
  { rewrite replace_findAttempt.
    rewrite (proj2 (findAttempt_iff _ _ a (wf_attempt_ids r Hwf))) by done. simpl. unfold g.
    by rewrite decide_True. }
  unfold statusFollows in Hst. simpl. destruct (isActiveAttempt (setAttemptStatus a s)) eqn:Ea.
  - destruct Hst as [Hs Hi']. simpl in Hi'. rewrite Hi', Hfind, Hs. by rewrite bool_decide_true.
  - destruct Hst as [Hn Hterm]. rewrite Hn.
    destruct (terminalAttemptId (tStatus (f t))) as [i|]; [|done].
    destruct (Hterm i eq_refl) as (-> & Hm & Hk). simpl aId. rewrite Hfind, Hm, Hk.
    bools; try done; apply bool_decide_eq_true; [|done|done].
    unfold isActiveAttempt in Ea. simpl in *. by destruct s.
Qed.

Lemma replace_links c i :
  c ∈ replaceAttempt (attempts r) (setAttemptStatus a s) → i ∈ aTaskIds c →
  attemptLinkOk (withTasksAttempt r (f <$> tasks r) (setAttemptStatus a s)) c i = true.
Proof.
  unfold replaceAttempt. intros [c0 [-> Hc0]]%list_elem_of_fmap Hi. change (i ∈ aTaskIds (g c0)) in Hi.
  change (attemptLinkOk (withTasksAttempt r (f <$> tasks r) (setAttemptStatus a s)) (g c0) i = true).
  assert (i ∈ aTaskIds c0) as Hi0.
  { revert Hi. unfold g. case_decide as E; [|done]. simpl in *.
    assert (c0 = a) as -> by (eapply (key_inj aId); [apply (wf_attempt_ids r Hwf)|done|done|done]). done. }
  pose proof (wf_links r Hwf c0 i Hc0 Hi0) as Hl. unfold attemptLinkOk in *. simpl.
  rewrite replace_findTask. destruct (findTask (tasks r) i) as [t|] eqn:Et; [|done]. simpl.
  apply findTask_Some in Et as [Ht <-].
  pose proof (replace_same t Ht) as [_ Hag Hor _]. unfold taskTenant, taskConversationRef in *.
  rewrite Hag, Hor. unfold g. simpl. destruct (decide (aId c0 = aId a)) as [E|E]; simpl.
  - assert (c0 = a) as -> by (eapply (key_inj aId); [apply (wf_attempt_ids r Hwf)|done|done|done]).
    rewrite Hact in Hl. bools; try (by apply bool_decide_eq_true).
    destruct (Howned t Ht) as (_ & _ & Hst); [done|]. unfold statusFollows in Hst.
    destruct (isActiveAttempt (setAttemptStatus a s)); [|done]. destruct Hst as [Hsa Hst].
    simpl in *. rewrite Hsa. by rewrite bool_decide_true.
  - destruct (isActiveAttempt c0); [|done]. bools; try (by apply bool_decide_eq_true).
    all: rewrite Hother by (done || simpl in *; congruence); try done. by apply bool_decide_eq_true.
Qed.

Lemma wf_replace : wf (withTasksAttempt r (f <$> tasks r) (setAttemptStatus a s)).
Proof.
  split; simpl.
  - intros u (t & -> & Ht)%list_elem_of_fmap.
    destruct (decide (activeAttemptId (tStatus t) = Some (aId a))); [by apply Howned|].
    rewrite Hother by done. by apply (wf_tasks r).
  - unfold replaceAttempt. intros c (c0 & -> & Hc)%list_elem_of_fmap. case_decide; [done|].
    by apply (wf_attempts r).
  - apply (wf_policies r Hwf).
  - rewrite fmap_key; [apply (wf_task_ids r Hwf)|]. intros. by apply same_id, replace_same.
  - unfold replaceAttempt. rewrite fmap_key; [apply (wf_attempt_ids r Hwf)|]. intros. apply replace_key.
  - apply (wf_policy_ids r Hwf).
  - intros u (t & -> & Ht)%list_elem_of_fmap.
    destruct (decide (activeAttemptId (tStatus t) = Some (aId a))); [by apply replace_graph_owned|].
    rewrite Hother by done. by apply replace_graph_other.
  - apply replace_links.
Qed.
End Replace.

(** ** Changing pending tasks only *)

(** A task no attempt works on or ended. *)
Definition detached (s : TaskStatus) : Prop := activeAttemptId s = None ∧ terminalAttemptId s = None.

Lemma pending_detached t : isPending t = true → detached (tStatus t).
Proof. unfold isPending. by destruct (tStatus t). Qed.

Section Pending.
Variables (r : FollowupTaskStoreFile) (f : FollowupTaskRecord → FollowupTaskRecord).
Hypothesis Hwf : wf r.
Hypothesis Hf : ∀ t, t ∈ tasks r → f t = t ∨
  (detached (tStatus t) ∧ detached (tStatus (f t)) ∧ sameTask t (f t) ∧
   FollowupTaskRecordSchema (f t) = Some (f t)).

Lemma pending_same t : t ∈ tasks r → sameTask t (f t).
Proof. intros Ht. by destruct (Hf t Ht) as [->|(_ & _ & ? & _)]. Qed.

Lemma wf_pending : wf (withTasks r (f <$> tasks r)).
Proof.
  split; simpl.
  - intros u (t & -> & Ht)%list_elem_of_fmap.
    destruct (Hf t Ht) as [->|(_ & _ & _ & ?)]; [by apply (wf_tasks r)|done].
  - apply (wf_attempts r Hwf).
  - apply (wf_policies r Hwf).
  - rewrite fmap_key; [apply (wf_task_ids r Hwf)|]. intros. by apply same_id, pending_same.
  - apply (wf_attempt_ids r Hwf).
  - apply (wf_policy_ids r Hwf).
  - intros u (t & -> & Ht)%list_elem_of_fmap. pose proof (wf_task_graph r Hwf t Ht) as Hg.
    destruct (Hf t Ht) as [->|(_ & [H1 H2] & Hs & _)]; [done|].
    unfold taskGraphOk. rewrite H1, H2, andb_true_r. by apply (policy_same r t).
  - intros a i Ha Hi. pose proof (wf_links r Hwf a i Ha Hi) as Hl. unfold attemptLinkOk in *. simpl.
    unfold findTask. rewrite find_fmap_key by (intros; by apply same_id, pending_same).
    fold (findTask (tasks r) i). destruct (findTask (tasks r) i) as [t|] eqn:Et; [|done]. simpl.
    apply findTask_Some in Et as [Ht _]. destruct (Hf t Ht) as [->|([H1 _] & _ & [_ Hag Hor _] & _)]; [done|].
    unfold taskTenant, taskConversationRef in *. rewrite Hag, Hor.
    destruct (isActiveAttempt a); [|done]. exfalso. bools. congruence.
Qed.
End Pending.

(** ** Starting an attempt *)

Section Start.
Variables (r : FollowupTaskStoreFile) (a : FollowupTaskAttemptRecord) (f : FollowupTaskRecord → FollowupTaskRecord).
Hypothesis Hwf : wf r.
Hypothesis Hfresh : aId a ∉ aId <$> attempts r.
Hypothesis Hschema : FollowupTaskAttemptRecordSchema a = true.
Hypothesis Hstatus : aStatus a = AChecking.
Hypothesis Hids : ∀ i, i ∈ aTaskIds a → i ∈ tId <$> tasks r.
Hypothesis Hother : ∀ t, t ∈ tasks r → tId t ∉ aTaskIds a → f t = t.
Hypothesis Hlisted : ∀ t, t ∈ tasks r → tId t ∈ aTaskIds a →
  detached (tStatus t) ∧ sameTask t (f t) ∧ FollowupTaskRecordSchema (f t) = Some (f t) ∧
  tStatus (f t) = TChecking (aId a) ∧
  tAgentId t = aAgentId a ∧ taskTenant t = aTenantId a ∧ taskConversationRef t = aConversationRef a.

Let r' := {| tasks := f <$> tasks r; attempts := attempts r ++ [a]; policySnapshots := policySnapshots r |}.

Lemma start_same t : t ∈ tasks r → sameTask t (f t).
Proof.
  intros Ht. destruct (decide (tId t ∈ aTaskIds a)); [by apply Hlisted|]. by rewrite Hother.
Qed.

Lemma start_findTask i : findTask (f <$> tasks r) i = f <$> findTask (tasks r) i.
Proof. apply find_fmap_key. intros. by apply same_id, start_same. Qed.

Lemma start_findAttempt i c : findAttempt (attempts r) i = Some c → findAttempt (attempts r ++ [a]) i = Some c.
Proof.
  unfold findAttempt. generalize (attempts r). intros l. induction l as [|x l IH]; simpl; [done|].
  case_bool_decide; [done|]. apply IH.
Qed.

Lemma start_findAttempt_new : findAttempt (attempts r ++ [a]) (aId a) = Some a.
Proof.
  apply findAttempt_iff; [|split; [apply elem_of_app; right; by left|done]].
  rewrite fmap_app. apply NoDup_app. split; [apply (wf_attempt_ids r Hwf)|].
  split; [|apply NoDup_singleton]. csimpl. intros i Hi ->%list_elem_of_singleton. done.
Qed.

Lemma start_graph t : t ∈ tasks r → taskGraphOk r' (f t) = true.
Proof.
  intros Ht. pose proof (wf_task_graph r Hwf t Ht) as Hg. unfold taskGraphOk. bools.
  { apply (policy_same r t); [done|]. by apply start_same. }
  destruct (decide (tId t ∈ aTaskIds a)) as [Hi|Hi].
  - destruct (Hlisted t Ht Hi) as (_ & Hs & _ & -> & _). simpl.
    rewrite start_findAttempt_new, Hstatus. simpl. rewrite (same_id _ _ Hs). by apply bool_decide_eq_true.
  - rewrite Hother by done. unfold taskGraphOk in Hg. bools. simpl.
    destruct (activeAttemptId (tStatus t)) as [i|]; [|destruct (terminalAttemptId (tStatus t)) as [i|]; [|done]].
    all: destruct (findAttempt (attempts r) i) as [c|] eqn:Ec; [|done].
    all: by rewrite (start_findAttempt _ _ Ec).
Qed.

Lemma start_links c i : c ∈ attempts r ++ [a] → i ∈ aTaskIds c → attemptLinkOk r' c i = true.
Proof.
  intros [Hc| ->%list_elem_of_singleton]%elem_of_app Hi; unfold attemptLinkOk; simpl; rewrite start_findTask.
  - pose proof (wf_links r Hwf c i Hc Hi) as Hl. unfold attemptLinkOk in Hl.
    destruct (findTask (tasks r) i) as [t|] eqn:Et; [|done]. simpl.
    apply findTask_Some in Et as [Ht <-]. pose proof (start_same t Ht) as [_ Hag Hor _].
    unfold taskTenant, taskConversationRef in *. rewrite Hag, Hor. destruct (isActiveAttempt c); [|done].
    bools; try (by apply bool_decide_eq_true).
    all: assert (tId t ∉ aTaskIds a) as Hn
      by (intros Hn; destruct (Hlisted t Ht Hn) as ([Hd _] & _); congruence).
    all: rewrite Hother by done; try done. by apply bool_decide_eq_true.
  - pose proof (Hids i Hi) as (t & -> & Ht)%list_elem_of_fmap.
    rewrite (proj2 (findTask_iff _ _ t (wf_task_ids r Hwf))) by done. simpl.
    destruct (Hlisted t Ht Hi) as (_ & [_ Hag Hor _] & _ & Hs & E1 & E2 & E3).
    unfold taskTenant, taskConversationRef, isActiveAttempt in *. rewrite Hag, Hor, Hs, Hstatus. simpl.
    by rewrite !bool_decide_true.
Qed.

Lemma wf_start : wf r'.
Proof.
  split; simpl.
  - intros u (t & -> & Ht)%list_elem_of_fmap.
    destruct (decide (tId t ∈ aTaskIds a)) as [Hi|Hi]; [by apply (Hlisted t)|].
    rewrite Hother by done. by apply (wf_tasks r).
  - intros c [Hc| ->%list_elem_of_singleton]%elem_of_app; [by apply (wf_attempts r)|done].
  - apply (wf_policies r Hwf).
  - rewrite fmap_key; [apply (wf_task_ids r Hwf)|]. intros. by apply same_id, start_same.
  - rewrite fmap_app. apply NoDup_app. split; [apply (wf_attempt_ids r Hwf)|].
    split; [|apply NoDup_singleton]. csimpl. intros i Hi ->%list_elem_of_singleton. done.
  - apply (wf_policy_ids r Hwf).
  - intros u (t & -> & Ht)%list_elem_of_fmap. by apply start_graph.
  - apply start_links.
Qed.
End Start.

End Invariants.
End TaskStoreInvariants.
