(* ===== verification/TaskStoreSoundness.v ===== *)
(** * The operations keep the task store well formed

  The instances of [TaskStoreInvariants] for the transitions of the store: the
  ends of an attempt, the crossing of the send boundary, claims, deferrals,
  cancellations and the recovery after a crash. *)

From Stdlib Require Import Ascii QArith_base.
From S2P Require Import Prelude ConversationScope TaskTypes TaskTransitions TaskAdmission TaskQuarantine TaskStore.
From S2P Require Import TaskStoreTypes TaskStoreInvariants.

Open Scope string_scope.
Open Scope list_scope.
Open Scope Z_scope.

Module TaskStoreSoundness.
Import TaskTypes TaskTransitions TaskStore TaskStoreTypes TaskStoreInvariants.

Section Soundness.
Context `{TaskPlatform}.
Implicit Types (r : FollowupTaskStoreFile) (t u : FollowupTaskRecord) (a c : FollowupTaskAttemptRecord).

Lemma Attempt_setStatus a s :
  FollowupTaskAttemptRecordSchema a = true → attemptStatusOk s = true →
  attemptTimesOk (setAttemptStatus a s) = true →
  FollowupTaskAttemptRecordSchema (setAttemptStatus a s) = true.
Proof.
  unfold FollowupTaskAttemptRecordSchema. intros Ha Hs Hx. rewrite Hx.
  unfold attemptBaseOk in *. simpl. rewrite Hs. rewrite !andb_true_iff in *. intuition.
Qed.

(** The clock does not run before what the store recorded. *)
Record settledBy (nowMs : Z) r : Prop := {
  by_valid : validTaskStoreTime nowMs = true;
  by_tasks t : t ∈ tasks r → tCreatedAtMs t <= nowMs;
  by_attempts a : a ∈ attempts r → aStartedAtMs a <= nowMs;
}.

Lemma now_safe nowMs r : settledBy nowMs r → SafeTimeSchema nowMs = true.
Proof. intros [Hv _ _]. by apply validTime_safe. Qed.

Lemma windowOpen_iff nowMs t :
  windowClosed nowMs t = false ↔ nowMs <= tDueLatestMs t ∧ nowMs <= tExpiresAtMs t.
Proof. unfold windowClosed. rewrite orb_false_iff, !Z.ltb_ge. done. Qed.

Lemma Task_ids t : FollowupTaskRecordSchema t = Some t → IdSchema (tId t) = true.
Proof. rewrite Task_valid. intros (_ & _ & Hc). unfold taskChecks, taskBaseOk in Hc. by bools. Qed.

Lemma Task_window t : FollowupTaskRecordSchema t = Some t → tDueLatestMs t <= tExpiresAtMs t.
Proof. rewrite Task_valid. intros (_ & _ & Hc). unfold taskChecks, taskWindowOk in Hc. by bools. Qed.

Lemma Attempt_id a : FollowupTaskAttemptRecordSchema a = true → IdSchema (aId a) = true.
Proof. unfold FollowupTaskAttemptRecordSchema, attemptBaseOk. intros. by bools. Qed.

(** The statuses a settled task may get. *)
Lemma Task_setPending t n :
  FollowupTaskRecordSchema t = Some t → SafeTimeSchema n = true → tCreatedAtMs t <= n →
  n <= tDueLatestMs t → FollowupTaskRecordSchema (setTaskStatus t (TPending n)) = Some (setTaskStatus t (TPending n)).
Proof.
  intros Ht Hn H1 H2. pose proof (Task_window t Ht). apply Task_setStatus; [done|done|].
  unfold taskStatusTimesOk. simpl. bools; try done; lia.
Qed.

Lemma Task_setTerminal t s m :
  FollowupTaskRecordSchema t = Some t → taskStatusFieldsOk s = true →
  taskTerminalAtMs s = Some m → tCreatedAtMs t <= m →
  FollowupTaskRecordSchema (setTaskStatus t s) = Some (setTaskStatus t s).
Proof.
  intros Ht Hs Hm Hc. apply Task_setStatus; [done|done|]. unfold taskStatusTimesOk. simpl.
  rewrite Hm. destruct s; try done; simpl; by apply Z.leb_le.
Qed.

(** ** The ends of an attempt *)

Section Ends.
Variables (r : FollowupTaskStoreFile) (a : FollowupTaskAttemptRecord) (nowMs : Z).
Hypothesis Hwf : wf r.
Hypothesis Ha : a ∈ attempts r.
Hypothesis Hnow : settledBy nowMs r.

Let Hsafe := now_safe nowMs r Hnow.

Lemma failed_schema check m stage kind failed :
  TaskCheckExecutionEvidenceSchema check = true → SafeCountSchema failed = true →
  match m with Some m => SafeTimeSchema m = true ∧ aStartedAtMs a <= m | None => True end →
  validateFailure check m stage kind failed = true →
  FollowupTaskAttemptRecordSchema (setAttemptStatus a (AFailed check m stage kind failed nowMs)) = true.
Proof.
  intros Hc Hf Hm Hv. apply Attempt_setStatus; [by apply (wf_attempts r)| |].
  - simpl. rewrite Hc, Hf, Hsafe, Hv. destruct m as [m|]; [|done]. by rewrite (proj1 Hm).
  - unfold attemptTimesOk. simpl. pose proof (by_attempts _ _ Hnow a Ha). bools; [done|].
    destruct m as [m|]; [|done]. by apply Z.leb_le, Hm.
Qed.

Lemma owned_checking t :
  aStatus a = AChecking → t ∈ tasks r → activeAttemptId (tStatus t) = Some (aId a) →
  tStatus t = TChecking (aId a).
Proof.
  intros Hs Ht Hi. pose proof (owned_status r a t Hwf Ha Ht Hi) as Hst. rewrite Hs in Hst.
  destruct (tStatus t); simpl in *; congruence.
Qed.

Lemma owned_delivering check m t :
  aStatus a = ADelivering check m → t ∈ tasks r → activeAttemptId (tStatus t) = Some (aId a) →
  tStatus t = TDelivering (aId a).
Proof.
  intros Hs Ht Hi. pose proof (owned_status r a t Hwf Ha Ht Hi) as Hst. rewrite Hs in Hst.
  destruct (tStatus t); simpl in *; congruence.
Qed.

Lemma active_checking : aStatus a = AChecking → isActiveAttempt a = true.
Proof. unfold isActiveAttempt. by intros ->. Qed.

Lemma wf_disabled check :
  aStatus a = AChecking → SuccessfulTaskCheckExecutionEvidenceSchema check = true →
  (∀ t, t ∈ tasks r → tId t ∈ aTaskIds a → windowClosed nowMs t = false) →
  wf (terminalizeConfigurationDisabled r a check nowMs).
Proof.
  intros Hs Hc Hopen. unfold terminalizeConfigurationDisabled.
  pose proof (active_checking Hs) as Hact.
  apply wf_replace; [done|done|done| | |].
  - apply failed_schema; [|done|done|done]. unfold SuccessfulTaskCheckExecutionEvidenceSchema in Hc. by bools.
  - intros t Ht Hne. rewrite <- (owned_iff r a t) in Hne by done. by rewrite bool_decide_false.
  - intros t Ht Hi. pose proof (owned_checking t Hs Ht Hi) as Est.
    rewrite bool_decide_true by (by apply (owned_iff r a t)). unfold isCheckingTask. rewrite Est. simpl.
    split; [apply sameTask_upd|]. split; [|split; [done|by intros ? [=]]].
    assert (windowClosed nowMs t = false) as [? ?]%windowOpen_iff.
    { apply Hopen; [done|]. by apply (owned_iff r a t). }
    apply Task_setPending; [by apply (wf_tasks r)|done|by apply (by_tasks _ _ Hnow)|done].
Qed.

(** The claimed tasks are the tasks of the attempt. *)
Lemma resolveClaimed_find ids ts i :
  resolveClaimed r a ids = Ok ts →
  findTask ts i = if decide (i ∈ ids) then findTask (tasks r) i else None.
Proof.
  revert ts. induction ids as [|j ids IH]; simpl; intros ts Hr; simplify_eq/=.
  { done. }
  destruct (findTask (tasks r) j) as [t|] eqn:Et; [|done]. destruct (tStatus t); try done.
  case_decide; [|done]. destruct (resolveClaimed r a ids) as [ts'|] eqn:Er; [|done]. simplify_eq.
  pose proof (findTask_Some _ _ _ Et) as [_ Ej].
  unfold findTask at 1. simpl. fold (findTask ts' i). rewrite (IH ts' eq_refl). case_bool_decide as Ei.
  - subst. rewrite decide_True by left. by rewrite Et.
  - destruct (decide (i ∈ ids)); [by rewrite decide_True by (by right)|].
    rewrite decide_False; [done|]. intros [->|?]%elem_of_cons; congruence.
Qed.

Lemma resolveClaimed_task t ts :
  resolveClaimedTasks r a = Ok ts → t ∈ tasks r →
  findTask ts (tId t) = if decide (tId t ∈ aTaskIds a) then Some t else None.
Proof.
  intros Hr Ht. rewrite (resolveClaimed_find _ _ _ Hr). case_decide; [|done].
  apply findTask_iff; [apply (wf_task_ids r Hwf)|done].
Qed.

Lemma wf_closed check ts :
  aStatus a = AChecking → SuccessfulTaskCheckExecutionEvidenceSchema check = true →
  resolveClaimedTasks r a = Ok ts →
  wf (terminalizeClosedWindow r a check ts nowMs).
Proof.
  intros Hs Hc Hr. unfold terminalizeClosedWindow. pose proof (active_checking Hs) as Hact.
  apply wf_replace; [done|done|done| | |].
  - apply failed_schema; [|done|done|done]. unfold SuccessfulTaskCheckExecutionEvidenceSchema in Hc. by bools.
  - intros t Ht Hne. rewrite <- (owned_iff r a t) in Hne by done.
    by rewrite (resolveClaimed_task t ts Hr Ht), decide_False.
  - intros t Ht Hi. rewrite (resolveClaimed_task t ts Hr Ht).
    rewrite decide_True by (by apply (owned_iff r a t)).
    pose proof (wf_tasks r Hwf t Ht) as Hts. pose proof (by_tasks _ _ Hnow t Ht) as Hcr.
    destruct (windowClosed nowMs t) eqn:Ew.
    + split; [apply sameTask_upd|]. split.
      * eapply Task_setTerminal; [done| |done|done]. simpl. rewrite Hsafe.
        by rewrite (Attempt_id a) by (by apply (wf_attempts r)).
      * split; [done|]. by intros i [= <-].
    + apply windowOpen_iff in Ew as [? ?]. split; [apply sameTask_upd|].
      split; [by apply Task_setPending|]. split; [done|]. by intros i [=].
Qed.

Lemma wf_delivering check :
  aStatus a = AChecking → SuccessfulTaskCheckExecutionEvidenceSchema check = true →
  wf (deliveringRoot r a check nowMs).
Proof.
  intros Hs Hc. unfold deliveringRoot. pose proof (active_checking Hs) as Hact.
  apply wf_replace; [done|done|done| | |].
  - apply Attempt_setStatus; [by apply (wf_attempts r)|simpl; by rewrite Hc, Hsafe|].
    unfold attemptTimesOk. simpl. by apply Z.leb_le, (by_attempts _ _ Hnow).
  - intros t Ht Hne. rewrite <- (owned_iff r a t) in Hne by done.
    destruct (tStatus t); try done. by rewrite bool_decide_false.
  - intros t Ht Hi. pose proof (owned_checking t Hs Ht Hi) as Est. rewrite Est.
    rewrite bool_decide_true by (by apply (owned_iff r a t)).
    split; [apply sameTask_upd|]. split; [|done].
    apply Task_setStatus; [by apply (wf_tasks r)| |done].
    simpl. by apply Attempt_id, (wf_attempts r).
Qed.

Lemma wf_dismissed check :
  aStatus a = AChecking → SuccessfulTaskCheckExecutionEvidenceSchema check = true →
  wf (buildDismissedTerminal r a check nowMs).
Proof.
  intros Hs Hc. unfold buildDismissedTerminal. pose proof (active_checking Hs) as Hact.
  apply wf_replace; [done|done|done| | |].
  - apply Attempt_setStatus; [by apply (wf_attempts r)|simpl; by rewrite Hc, Hsafe|].
    unfold attemptTimesOk. simpl. rewrite andb_true_r. by apply Z.leb_le, (by_attempts _ _ Hnow).
  - intros t Ht Hne. rewrite <- (owned_iff r a t) in Hne by done.
    destruct (tStatus t); try done. by rewrite bool_decide_false.
  - intros t Ht Hi. pose proof (owned_checking t Hs Ht Hi) as Est. rewrite Est.
    rewrite !bool_decide_true by (done || by apply (owned_iff r a t)).
    split; [apply sameTask_upd|]. split; [|split; [done|by intros ? [= <-]]].
    eapply Task_setTerminal; [by apply (wf_tasks r)| |done|by apply (by_tasks _ _ Hnow)].
    simpl. rewrite Hsafe. by rewrite (Attempt_id a) by (by apply (wf_attempts r)).
Qed.

Lemma delivering_facts check m :
  aStatus a = ADelivering check m →
  SuccessfulTaskCheckExecutionEvidenceSchema check = true ∧ SafeTimeSchema m = true ∧ aStartedAtMs a <= m.
Proof.
  intros Hs. pose proof (wf_attempts r Hwf a Ha) as Hsch.
  unfold FollowupTaskAttemptRecordSchema, attemptTimesOk in Hsch. rewrite Hs in Hsch. simpl in Hsch. by bools.
Qed.

(** A settlement of a delivering attempt yields schema-conforming records. *)
Lemma deliveryTerminalStatus_ok check m outcome s ts :
  aStatus a = ADelivering check m →
  deliveryTerminalStatus (aId a) check m outcome nowMs = Ok (s, ts) →
  attemptStatusOk s = true ∧ attemptTerminalAtMs s = Some nowMs ∧ attemptDeliveringAtMs s = Some m ∧
  taskStatusFieldsOk ts = true ∧ taskTerminalAtMs ts = Some nowMs ∧ activeAttemptId ts = None ∧
  terminalAttemptId ts = Some (aId a) ∧ terminalMatches ts s = true.
Proof.
  intros Hs. destruct (delivering_facts check m Hs) as (Hc & Hm & Hst).
  assert (IdSchema (aId a) = true) as Hid by (by apply Attempt_id, (wf_attempts r)).
  assert (∀ o, validOptionalId o = true → platformIdSchema o = true) as Hopt.
  { intros [v|]; [|done]. simpl. intros. bools. lia. }
  assert (∀ z, isSafeInteger z = true → 0 < z → PositiveSchema z = true) as Hpos.
  { unfold PositiveSchema. intros z -> ?. rewrite andb_true_r. by apply Z.ltb_lt. }
  assert (∀ z, validDeliveryTime z m nowMs = true → SafeTimeSchema z = true ∧ m <= z <= nowMs) as Htime.
  { unfold validDeliveryTime. intros z ?. bools. apply SafeTime_iff in Hm. split; [|lia].
    unfold SafeTimeSchema. bools; [lia|done]. }
  unfold deliveryTerminalStatus. destruct outcome as [n last at' h|k n f last at'|d]; case_match eqn:Ev; try done;
    intros; simplify_eq; simpl; bools;
    try match goal with Hv : validDeliveryTime _ _ _ = true |- _ => apply Htime in Hv as [? ?] end.
  - repeat split; try done; [|by rewrite Hid].
    bools; auto; try lia. apply Hpos; [done|lia].
  - repeat split; try done; [|by rewrite Hid].
    bools; auto; try lia; apply Hpos; (done || lia).
  - repeat split; try done; [|by rewrite Hid]. bools; auto.
    destruct d; simpl in *; [|by apply bool_decide_eq_true; bools|by apply bool_decide_eq_true; bools].
    bools; auto; try (apply Hpos; (done || lia)). unfold SafeCountSchema. bools; [lia|done].
Qed.

Lemma wf_terminal check m outcome r' :
  aStatus a = ADelivering check m → buildDeliveryTerminal r a check m outcome nowMs = Ok r' → wf r'.
Proof.
  intros Hs. unfold buildDeliveryTerminal.
  destruct (deliveryTerminalStatus _ _ _ _ _) as [[s ts]|] eqn:E; [|done]. intros [= <-]. simpl.
  destruct (deliveryTerminalStatus_ok check m outcome s ts Hs E) as (H1 & H2 & H3 & H4 & H5 & H6 & H7 & H8).
  assert (isActiveAttempt a = true) as Hact by (unfold isActiveAttempt; by rewrite Hs).
  destruct (delivering_facts check m Hs) as (_ & _ & Hst).
  apply wf_replace; [done|done|done| | |].
  - apply Attempt_setStatus; [by apply (wf_attempts r)|done|]. unfold attemptTimesOk. simpl. rewrite H2, H3.
    bools; [by apply (by_attempts _ _ Hnow)|done].
  - intros t Ht Hne. rewrite <- (owned_iff r a t) in Hne by done.
    destruct (tStatus t); try done. by rewrite bool_decide_false.
  - intros t Ht Hi. pose proof (owned_delivering check m t Hs Ht Hi) as Est. rewrite Est.
    rewrite !bool_decide_true by (done || by apply (owned_iff r a t)). simpl.
    split; [apply sameTask_upd|]. split.
    + eapply Task_setTerminal; [by apply (wf_tasks r)|done|done|by apply (by_tasks _ _ Hnow)].
    + unfold statusFollows, isActiveAttempt. simpl. destruct s; simpl in *; try done.
      all: split; [done|]; intros i Hi'; rewrite H7 in Hi'; injection Hi' as <-; by rewrite H5.
Qed.

Lemma failTask_owned limit t :
  t ∈ tasks r → isActiveAttempt a = true → activeAttemptId (tStatus t) = Some (aId a) →
  tPreAcceptanceFailureCount t < MAX_SAFE_INTEGER →
  let u := (failTask a nowMs limit t).1 in
  sameTask t u ∧ FollowupTaskRecordSchema u = Some u ∧
  (tStatus u = TExpired (Some (aId a)) nowMs ∨ ∃ n, tStatus u = TPending n).
Proof.
  intros Ht Hact Hi Hcnt. pose proof (wf_tasks r Hwf t Ht) as Hts.
  pose proof (Task_counts t Hts) as [Hn Hf]. apply SafeCount_iff in Hf.
  pose proof (by_tasks _ _ Hnow t Ht) as Hcr. pose proof (proj1 (SafeTime_iff _) Hsafe) as Hsz.
  assert (SafeCountSchema (tPreAcceptanceFailureCount t + 1) = true) as Hf'.
  { apply SafeCount_iff. lia. }
  assert (FollowupTaskRecordSchema (updTask t (tAttemptCount t) (tPreAcceptanceFailureCount t + 1)
            (TExpired (Some (aId a)) nowMs)) =
          Some (updTask t (tAttemptCount t) (tPreAcceptanceFailureCount t + 1)
            (TExpired (Some (aId a)) nowMs))) as Hexp.
  { apply Task_upd; [done|done|done| |].
    - simpl. rewrite Hsafe. by rewrite (Attempt_id a) by (by apply (wf_attempts r)).
    - unfold taskStatusTimesOk. simpl. by apply Z.leb_le. }
  unfold failTask. rewrite !bool_decide_true by (done || by apply (owned_iff r a t)). simpl.
  destruct (RETRY_DELAYS_MS !! _) as [d|] eqn:Ed; [|simpl; auto using sameTask_upd].
  case_match eqn:Ec; [|simpl; auto using sameTask_upd]. simpl. split; [apply sameTask_upd|]. split; [|eauto].
  assert (0 <= d) as Hd.
  { apply list_elem_of_lookup_2 in Ed. unfold RETRY_DELAYS_MS in Ed.
    repeat (apply elem_of_cons in Ed as [->|Ed]; [done|]). by apply elem_of_nil in Ed. }
  bools. apply Task_upd; [done|done|done| |].
  - simpl. unfold SafeTimeSchema. bools; [lia|done].
  - unfold taskStatusTimesOk. simpl. bools; try done; lia.
Qed.

Lemma wf_failed check stage kind failed limit r' d :
  isActiveAttempt a = true →
  (∀ t, t ∈ tasks r → tPreAcceptanceFailureCount t < MAX_SAFE_INTEGER) →
  buildRetryableFailure r a check stage kind failed nowMs limit = Ok (r', d) → wf r'.
Proof.
  intros Hact Hcnt. unfold buildRetryableFailure. case_match eqn:Es; [done|]. intros [= <- _].
  apply negb_false_iff in Es. rewrite <- list_fmap_compose.
  apply wf_replace; [done|done|done|done| |].
  - intros t Ht Hne. simpl. unfold failTask. rewrite <- (owned_iff r a t) in Hne by done.
    by rewrite bool_decide_false.
  - intros t Ht Hi. destruct (failTask_owned limit t Ht Hact Hi (Hcnt t Ht)) as (H1 & H2 & H3).
    simpl. split; [done|]. split; [done|].
    unfold statusFollows, isActiveAttempt. simpl.
    destruct H3 as [->|[n ->]]; (split; [done|]); by intros i [= <-].
Qed.
End Ends.

(** ** Deferring and cancelling *)

Lemma settledBy_tasks nowMs r ts :
  settledBy nowMs r → (∀ t, t ∈ ts → ∃ t0, t0 ∈ tasks r ∧ tCreatedAtMs t = tCreatedAtMs t0) →
  settledBy nowMs (withTasks r ts).
Proof.
  intros [Hv Ht Ha] Hts. split; [done| |done]. intros t (t0 & Ht0 & ->)%Hts. by apply Ht.
Qed.

Lemma Task_setExpired t nowMs :
  FollowupTaskRecordSchema t = Some t → SafeTimeSchema nowMs = true → tCreatedAtMs t <= nowMs →
  FollowupTaskRecordSchema (setTaskStatus t (TExpired None nowMs)) = Some (setTaskStatus t (TExpired None nowMs)).
Proof. intros Ht Hn Hc. by eapply Task_setTerminal. Qed.

Lemma deferTask_ok nowMs next t :
  FollowupTaskRecordSchema t = Some t → SafeTimeSchema nowMs = true → tCreatedAtMs t <= nowMs → nowMs <= next →
  deferTask next nowMs t = t ∨
  (detached (tStatus t) ∧ detached (tStatus (deferTask next nowMs t)) ∧ sameTask t (deferTask next nowMs t) ∧
   FollowupTaskRecordSchema (deferTask next nowMs t) = Some (deferTask next nowMs t)).
Proof.
  intros Ht Hs Hc Hn. unfold deferTask. destruct (tStatus t) eqn:Est; try (by left). right.
  apply SafeTime_iff in Hs as Hz. case_match eqn:E.
  - split; [done|]. split; [done|]. split; [apply sameTask_upd|]. by apply Task_setExpired.
  - bools. split; [done|]. split; [done|]. split; [apply sameTask_upd|].
    apply Task_setPending; [done| |lia|done]. apply SafeTime_iff. split; [lia|].
    apply Task_valid in Ht as (_ & _ & Hck). unfold taskChecks, taskBaseOk in Hck. bools.
    match goal with Hx : SafeTimeSchema (tDueLatestMs t) = true |- _ => apply SafeTime_iff in Hx end. lia.
Qed.

Lemma wf_defer nowMs r group next :
  wf r → settledBy nowMs r → nowMs <= next →
  wf (withTasks r (deferGroup (tasks r) group next nowMs)).
Proof.
  intros Hwf Hnow Hn. unfold deferGroup. apply wf_pending; [done|]. intros t Ht.
  case_bool_decide; [|by left].
  apply deferTask_ok; [by apply (wf_tasks r)|by eapply now_safe|by apply (by_tasks _ _ Hnow)|done].
Qed.

Lemma wf_cancel nowMs r ids : wf r → settledBy nowMs r → wf (cancelIds r ids nowMs).
Proof.
  intros Hwf Hnow. unfold cancelIds. apply wf_pending; [done|]. intros t Ht.
  case_decide; [|by left]. unfold cancelTask. destruct (tStatus t) eqn:Est; try (by left). right.
  split; [done|]. split; [done|]. split; [apply sameTask_upd|].
  eapply Task_setTerminal; [by apply (wf_tasks r)| |done|by apply (by_tasks _ _ Hnow)].
  simpl. by eapply now_safe.
Qed.

(** ** Claims *)

Lemma insertTask_perm t l : insertTask t l ≡ₚ t :: l.
Proof.
  induction l as [|u l IH]; simpl; [done|]. case_match; [done|]. rewrite IH. apply Permutation_swap.
Qed.

Lemma sortTasks_perm l : sortTasks l ≡ₚ l.
Proof. induction l as [|t l IH]; simpl; [done|]. by rewrite insertTask_perm, IH. Qed.

Lemma concat_perm {A} (l k : list (list A)) : l ≡ₚ k → concat l ≡ₚ concat k.
Proof.
  induction 1 as [|x l k _ IH|x y l|l k m _ IH1 _ IH2]; simpl; [done|by rewrite IH| |by rewrite IH1].
  rewrite !(assoc_L (++)). by rewrite (Permutation_app_comm y x).
Qed.

(** The groups partition the due tasks by origin. *)
Record grouped (m : jsmap OriginKey (list FollowupTaskRecord)) (ts : list FollowupTaskRecord) : Prop := {
  gr_keys : NoDup (mkeys m);
  gr_perm : concat m.*2 ≡ₚ ts;
  gr_same k g t : (k, g) ∈ m → t ∈ g → originKey t = k;
}.

Lemma grouped_push m ts t :
  grouped m ts →
  grouped (match mget m (originKey t) with
           | None => mset m (originKey t) [t]
           | Some group => mset m (originKey t) (group ++ [t])
           end) (ts ++ [t]).
Proof.
  intros [Hk Hp Hs]. destruct (mget m (originKey t)) as [g|] eqn:Eg; split; auto with jsmap.
  - pose proof (mdel_perm m _ g Hk Eg) as Hm. rewrite (mset_perm m (originKey t) (g ++ [t]) Hk).
    rewrite Hm in Hp. csimpl in *. rewrite <- Hp. rewrite <- !(assoc_L (++)). apply Permutation_app_head.
    simpl. apply Permutation_cons_append.
  - intros k g' u [[= -> ->]|Hin]%elem_of_mset_inv Hu; [|by eapply Hs].
    apply elem_of_app in Hu as [Hu|Hu%list_elem_of_singleton]; [|by subst].
    eapply Hs; [by apply mget_elem_of|done].
  - rewrite mset_notin by (by apply mget_None). rewrite fmap_app, concat_app. csimpl. by rewrite Hp.
  - intros k g' u [[= -> ->]|Hin]%elem_of_mset_inv Hu; [|by eapply Hs].
    apply list_elem_of_singleton in Hu. by subst.
Qed.

Lemma groupExactOrigin_spec ts :
  concat (groupExactOrigin ts) ≡ₚ ts ∧
  ∀ g t u, g ∈ groupExactOrigin ts → t ∈ g → u ∈ g → originKey t = originKey u.
Proof.
  unfold groupExactOrigin.
  assert (∀ m done, grouped m done → ∃ m', foldl (fun groups t =>
            match mget groups (originKey t) with
            | None => mset groups (originKey t) [t]
            | Some group => mset groups (originKey t) (group ++ [t])
            end) m ts = m' ∧ grouped m' (done ++ ts)) as Hfold.
  { induction ts as [|t ts IH]; intros m d Hm; simpl; [exists m; by rewrite app_nil_r|].
    destruct (IH _ _ (grouped_push m d t Hm)) as (m' & Em & Hg). exists m'. split; [done|].
    by rewrite <- (assoc_L (++)) in Hg. }
  destruct (Hfold [] []) as (m' & -> & [Hk Hp Hs]).
  { split; [apply NoDup_nil_2|done|]. by intros ? ? ? ?%elem_of_nil. }
  split; [done|]. intros g t u ([k g'] & -> & Hin)%list_elem_of_fmap Ht Hu. simpl in *.
  by rewrite (Hs k g' t), (Hs k g' u).
Qed.

Lemma reserve_next l tenant agent ref cutoff count next n :
  (reserve l tenant agent ref cutoff count next).2 = Some n →
  (∀ m, next = Some m → cutoff + ROLLING_DAY_MS <= m) → cutoff + ROLLING_DAY_MS <= n.
Proof.
  revert count next. induction l as [|a l IH]; intros count next; simpl; [by auto|].
  destruct (negb _); [apply IH|]. destruct (isActiveAttempt a); [apply IH|].
  destruct (visibleAtMs (aStatus a)) as [v|]; [|apply IH]. case_match eqn:Ev; [apply IH|]. bools.
  intros E Hn. eapply IH; [exact E|]. intros m [= <-]. destruct next as [m|]; [|lia].
  specialize (Hn m eq_refl). lia.
Qed.

Lemma nextSlot_later l t nowMs :
  nowMs <= default (nowMs + ACTIVE_CAP_RECHECK_MS) (visibleReservation l t nowMs).2.
Proof.
  unfold visibleReservation, ACTIVE_CAP_RECHECK_MS.
  destruct (reserve _ _ _ _ _ _ _).2 as [n|] eqn:E; simpl; [|lia].
  apply reserve_next in E; [lia|done].
Qed.

(** What the guards of [claimDue] and the id check leave. *)
Record claimInputOk (input : ClaimInput) r : Prop := {
  ci_boot : validTaskStoreId (ciBootId input) = true;
  ci_run : validTaskStoreId (ciRootRunId input) = true;
  ci_attempt : validTaskStoreId (ciAttemptId input) = true;
  ci_max : 1 <= ciMaxPerCheck input <= 8;
  ci_fresh : ciAttemptId input ∉ aId <$> attempts r;
  ci_tenant t : t ∈ tasks r → boundedString 1 128 (taskTenant t) = true;
  ci_counts t : t ∈ tasks r → tAttemptCount t < MAX_SAFE_INTEGER;
}.

Lemma validId_IdSchema s : validTaskStoreId s = true → IdSchema s = true.
Proof. unfold validTaskStoreId, IdSchema, boundedString. intros. bools; lia. Qed.

Section StartClaim.
Variables (r : FollowupTaskStoreFile) (input : ClaimInput) (nowMs : Z) (selected : list FollowupTaskRecord)
  (first : FollowupTaskRecord).
Hypothesis Hwf : wf r.
Hypothesis Hnow : settledBy nowMs r.
Hypothesis Hin : claimInputOk input r.
Hypothesis Hsel : ∀ t, t ∈ selected → t ∈ tasks r ∧ isPending t = true ∧
  originKey t = originKey first ∧ tAgentId t = tAgentId first.
Hypothesis Hnd : NoDup (tId <$> selected).
Hypothesis Hlen : (1 <= length selected <= 8)%nat.

Let a :=
  {| aId := ciAttemptId input; aBootId := ciBootId input; aRootRunId := ciRootRunId input;
     aTaskIds := tId <$> selected; aTenantId := taskTenant first; aAgentId := tAgentId first;
     aConversationRef := taskConversationRef first; aStartedAtMs := nowMs; aStatus := AChecking |}.

Lemma selected_conv t : t ∈ selected →
  taskTenant t = taskTenant first ∧ taskConversationRef t = taskConversationRef first.
Proof.
  intros Ht. apply Hsel in Ht as (_ & _ & Hk & _). unfold originKey in Hk. simplify_eq.
  unfold taskTenant, taskConversationRef. split; congruence.
Qed.

Lemma claim_schema : FollowupTaskAttemptRecordSchema a = true.
Proof.
  assert (∃ t0, t0 ∈ selected) as [t0 Ht0].
  { destruct Hlen as [Hl _]. destruct selected as [|t0 sel]; [simpl in Hl; lia|]. exists t0. left. }
  destruct (Hsel t0 Ht0) as (Ht & _ & _ & Hag). destruct (selected_conv t0 Ht0) as [Hten Href].
  pose proof (wf_tasks r Hwf t0 Ht) as Hts. apply Task_valid in Hts as (Ho & _ & Hc).
  unfold FollowupTaskAttemptRecordSchema, attemptBaseOk, attemptTimesOk. simpl.
  bools; try done; try (apply validId_IdSchema; apply Hin).
  - apply forallb_elem_of. intros i (t & -> & Hti)%list_elem_of_fmap. apply Task_ids, (wf_tasks r); [done|].
    by apply Hsel.
  - rewrite length_fmap. destruct (length selected); [lia|done].
  - rewrite length_fmap. apply Nat.leb_le. lia.
  - rewrite <- Hten. by apply (ci_tenant _ _ Hin).
  - rewrite <- Hag. unfold taskChecks, taskBaseOk in Hc. by bools.
  - rewrite <- Href. unfold taskConversationRef. unfold BackgroundTaskOriginSchema in Ho. repeat case_match; try done.
    by bools.
  - by eapply now_safe.
  - apply negb_true_iff. unfold hasDuplicate. by rewrite bool_decide_true.
Qed.

Lemma claim_find t :
  t ∈ tasks r →
  findTask (toCheckingTask (ciAttemptId input) <$> selected) (tId t) =
  if decide (tId t ∈ tId <$> selected) then Some (toCheckingTask (ciAttemptId input) t) else None.
Proof.
  intros Ht. unfold findTask. rewrite find_fmap_key by done.
  case_decide as Hi.
  - apply list_elem_of_fmap in Hi as (u & Eu & Hu). destruct (Hsel u Hu) as (Hur & _).
    assert (t = u) as <- by (by eapply (key_inj tId); [apply (wf_task_ids r Hwf)| | |]).
    by rewrite (find_key_in tId).
  - by rewrite (proj2 (find_key_None tId _ _) Hi).
Qed.

Lemma wf_claim :
  wf {| tasks := (fun t => default t (findTask (toCheckingTask (ciAttemptId input) <$> selected) (tId t))) <$> tasks r;
        attempts := attempts r ++ [a]; policySnapshots := policySnapshots r |}.
Proof.
  apply wf_start; [done|apply Hin|apply claim_schema|done| | |].
  - simpl. intros i (t & -> & Ht)%list_elem_of_fmap. apply list_elem_of_fmap. exists t. split; [done|]. by apply Hsel.
  - simpl. intros t Ht Hi. by rewrite claim_find, decide_False.
  - simpl. intros t Ht Hi. rewrite claim_find, decide_True by done. simpl.
    apply list_elem_of_fmap in Hi as (u & Eu & Hu). destruct (Hsel u Hu) as (Hur & Hpen & _ & Hag).
    assert (t = u) as <- by (by eapply (key_inj tId); [apply (wf_task_ids r Hwf)| | |]).
    destruct (selected_conv t Hu) as [Hten Href].
    split; [by apply pending_detached|]. split; [apply sameTask_upd|]. split; [|done].
    pose proof (wf_tasks r Hwf t Ht) as Hts. destruct (Task_counts t Hts) as [Hn Hf].
    apply Task_upd; [done| |done|simpl; by apply validId_IdSchema, Hin|done].
    apply SafeCount_iff. apply SafeCount_iff in Hn. pose proof (ci_counts _ _ Hin t Ht). lia.
Qed.
End StartClaim.

Lemma setTaskStatus_id t : setTaskStatus t (tStatus t) = t.
Proof. by destruct t. Qed.

Lemma deferGroup_elem ts group next nowMs u :
  u ∈ deferGroup ts group next nowMs → ∃ t s, t ∈ ts ∧ u = setTaskStatus t s.
Proof.
  unfold deferGroup. intros (t & -> & Ht)%list_elem_of_fmap. exists t.
  case_bool_decide; [|exists (tStatus t); by rewrite setTaskStatus_id].
  unfold deferTask. repeat case_match; eauto. all: exists (tStatus t); by rewrite setTaskStatus_id.
Qed.

Lemma deferGroup_keeps ts group next nowMs t :
  t ∈ ts → tId t ∉ tId <$> group → t ∈ deferGroup ts group next nowMs.
Proof.
  intros Ht Hn. unfold deferGroup. apply list_elem_of_fmap. exists t. by rewrite bool_decide_false.
Qed.

Lemma isDue_pending agent nowMs t : isDue agent nowMs t = true → isPending t = true ∧ tAgentId t = agent.
Proof. unfold isDue, isPending. intros. bools. by destruct (tStatus t). Qed.

Lemma claimInput_defer input r ts group next nowMs :
  claimInputOk input (withTasks r ts) → claimInputOk input (withTasks r (deferGroup ts group next nowMs)).
Proof.
  intros [H1 H2 H3 H4 H5 H6 H7]. split; try done.
  - intros u (t & s & Ht & ->)%deferGroup_elem. by apply (H6 t).
  - intros u (t & s & Ht & ->)%deferGroup_elem. by apply (H7 t).
Qed.

Lemma settledBy_defer r ts group next nowMs :
  settledBy nowMs (withTasks r ts) → settledBy nowMs (withTasks r (deferGroup ts group next nowMs)).
Proof.
  intros [H1 H2 H3]. split; try done. intros u (t & s & Ht & ->)%deferGroup_elem. by apply (H2 t).
Qed.

Lemma claimGroups_wf r input nowMs agent gs ts sat :
  wf (withTasks r ts) → settledBy nowMs (withTasks r ts) → claimInputOk input (withTasks r ts) →
  (∀ t, t ∈ concat gs → t ∈ ts ∧ isDue agent nowMs t = true) →
  (∀ g t u, g ∈ gs → t ∈ g → u ∈ g → originKey t = originKey u) →
  NoDup (tId <$> concat gs) →
  wf (claimGroups r input nowMs ts sat gs).1.
Proof.
  revert ts sat. induction gs as [|[|first group] gs IH]; intros ts sat Hwf Hnow Hin Hdue Hkey Hnd; [done| |].
  { simpl. apply IH; try done. intros g t u Hg. apply Hkey. by right. }
  simpl in Hdue. change (NoDup (tId <$> (first :: group) ++ concat gs)) in Hnd.
  rewrite fmap_app in Hnd. simpl claimGroups.
  set (next := default (nowMs + ACTIVE_CAP_RECHECK_MS) (visibleReservation (attempts r) first nowMs).2).
  case_match; simpl.
  - apply IH; [|by apply settledBy_defer|by apply claimInput_defer| | |].
    + change (wf (withTasks (withTasks r ts) (deferGroup (tasks (withTasks r ts)) (first :: group) next nowMs))).
      apply wf_defer; [done|done|apply nextSlot_later].
    + intros t Ht. split; [|apply Hdue; right; apply elem_of_app; by right].
      apply deferGroup_keeps; [apply Hdue; right; apply elem_of_app; by right|].
      apply NoDup_app in Hnd as (_ & Hdis & _). intros Hg.
      apply (Hdis (tId t)); [done|]. apply list_elem_of_fmap. by exists t.
    + intros g t u Hg. apply Hkey. by right.
    + by apply NoDup_app in Hnd as (_ & _ & ?).
  - set (n := Z.to_nat (ciMaxPerCheck input)).
    apply (wf_claim (withTasks r ts) input nowMs (take n (first :: group)) first); try done.
    + intros t Ht. assert (t ∈ first :: group) as Hg by (by eapply subseteq_take).
      assert (t ∈ first :: group ++ concat gs) as Hall.
      { apply elem_of_cons in Hg as [->|Hg]; [left|right]. apply elem_of_app. by left. }
      destruct (Hdue t Hall) as [Hts Hd]. apply isDue_pending in Hd as [Hp Hag].
      assert (isDue agent nowMs first = true) as [_ Hfa]%isDue_pending by (apply Hdue; left).
      split; [done|]. split; [done|]. split; [|congruence]. eapply Hkey; [left|done|left].
    + apply NoDup_app in Hnd as (Hnd & _ & _).
      eapply sublist_NoDup; [exact Hnd|]. apply fmap_sublist, sublist_take.
    + destruct Hin as [_ _ _ Hmax _ _ _]. rewrite length_take. simpl. lia.
Qed.

Lemma due_spec r agent nowMs t :
  t ∈ dueTasks r agent nowMs → t ∈ tasks r ∧ isDue agent nowMs t = true.
Proof.
  unfold dueTasks. rewrite (elem_of_Permutation_proper _ _ _ (sortTasks_perm _)).
  by intros [? ?]%list_elem_of_filter.
Qed.

Lemma wf_plan r input nowMs quiet r' res :
  wf r → settledBy nowMs r → claimInputOk input r →
  planDueTaskClaim r nowMs input quiet = (Some r', res) → wf r'.
Proof.
  intros Hwf Hnow Hin. unfold planDueTaskClaim.
  assert (wf (claimGroups r input nowMs (tasks r) [] (groupExactOrigin (dueTasks r (ciAgentId input) nowMs))).1) as Hcl.
  { destruct (groupExactOrigin_spec (dueTasks r (ciAgentId input) nowMs)) as [Hp Hk].
    assert (withTasks r (tasks r) = r) as Er by by destruct r.
    eapply claimGroups_wf; rewrite ?Er; [done|done|done| |exact Hk|].
    - intros t Ht. rewrite Hp in Ht. by apply due_spec.
    - rewrite Hp. unfold dueTasks. rewrite sortTasks_perm.
      eapply sublist_NoDup; [apply (wf_task_ids r Hwf)|]. apply fmap_sublist, sublist_filter. }
  destruct (dueTasks r (ciAgentId input) nowMs) as [|t0 due] eqn:Ed; [done|].
  destruct quiet as [q|]; [case_match eqn:Eq|]; intros [= <- <-]; [|done|done]. bools.
  apply wf_defer; [done|done|lia].
Qed.

(** ** Retention *)

(** No attempt that stays lists a task that goes. *)
Definition retentionClosed r (nowMs : Z) : Prop :=
  ∀ t a, t ∈ overdueTasks r nowMs → a ∈ attempts r → tId t ∈ aTaskIds a →
  keepTask (attempts r) (removableIds r nowMs) (nowMs - FOLLOWUP_TASK_RETENTION_MS) t = false →
  aId a ∈ removableIds r nowMs.

Lemma wf_overdue nowMs r : wf r → settledBy nowMs r → wf (withTasks r (overdueTasks r nowMs)).
Proof.
  intros Hwf Hnow. unfold overdueTasks. apply wf_pending; [done|]. intros t Ht. unfold expireOverdue.
  destruct (tStatus t) eqn:Est; try (by left). case_match; [|by left]. right. simpl.
  split; [done|]. split; [done|]. split; [apply sameTask_upd|].
  apply Task_setExpired; [by apply (wf_tasks r)|by eapply now_safe|by apply (by_tasks _ _ Hnow)].
Qed.

Lemma removable_spec r nowMs a :
  NoDup (aId <$> attempts r) → a ∈ attempts r → aId a ∈ removableIds r nowMs →
  removableAttempt (overdueTasks r nowMs) (nowMs - FOLLOWUP_TASK_RETENTION_MS) a = true.
Proof.
  intros Hnd Ha Hi. unfold removableIds in Hi. apply list_elem_of_fmap in Hi as (b & E & Hb).
  apply list_elem_of_filter in Hb as [Hr Hb].
  assert (a = b) as -> by (by eapply (key_inj aId)). done.
Qed.

Section Retained.
Variables (r : FollowupTaskStoreFile) (nowMs : Z).
Hypothesis Hwf0 : wf r.
Hypothesis Hnow : settledBy nowMs r.
Hypothesis Hclosed : retentionClosed r nowMs.

Let r1 := withTasks r (overdueTasks r nowMs).
Let Hwf : wf r1 := wf_overdue nowMs r Hwf0 Hnow.

Lemma retained_elem t :
  t ∈ tasks (retained r nowMs) ↔ t ∈ tasks r1 ∧
  keepTask (attempts r) (removableIds r nowMs) (nowMs - FOLLOWUP_TASK_RETENTION_MS) t = true.
Proof. unfold retained. simpl. rewrite list_elem_of_filter. naive_solver. Qed.

Lemma retained_ids :
  NoDup (tId <$> tasks (retained r nowMs)) ∧ NoDup (aId <$> attempts (retained r nowMs)) ∧
  NoDup (wpCombinedHash <$> policySnapshots (retained r nowMs)).
Proof.
  split; [|split]; eapply sublist_NoDup;
    [apply (wf_task_ids r1 Hwf)| |apply (wf_attempt_ids r1 Hwf)| |apply (wf_policy_ids r1 Hwf)|];
    apply fmap_sublist, sublist_filter.
Qed.

Lemma retained_attempt i a :
  findAttempt (attempts r) i = Some a → i ∉ removableIds r nowMs →
  findAttempt (attempts (retained r nowMs)) i = Some a.
Proof.
  intros [Ha <-]%findAttempt_Some Hi. apply findAttempt_iff; [apply retained_ids|]. split; [by apply list_elem_of_filter|done].
Qed.

Lemma removable_ended i a t :
  findAttempt (attempts r) i = Some a → i ∈ removableIds r nowMs → t ∈ tasks r1 → tId t ∈ aTaskIds a →
  endedBy (nowMs - FOLLOWUP_TASK_RETENTION_MS) (attemptTerminalAtMs (aStatus a)) = true ∧
  endedBy (nowMs - FOLLOWUP_TASK_RETENTION_MS) (taskTerminalAtMs (tStatus t)) = true.
Proof.
  intros [Ha <-]%findAttempt_Some Hi Ht Hin.
  pose proof (removable_spec r nowMs a (wf_attempt_ids r1 Hwf) Ha Hi) as Hr. unfold removableAttempt in Hr.
  bools. split; [done|]. rewrite forallb_elem_of in *.
  match goal with Hx : ∀ _, _ → _ |- _ => specialize (Hx _ Hin) end.
  by rewrite (proj2 (findTask_iff _ _ t (wf_task_ids r1 Hwf))) in * by done.
Qed.

Lemma retained_graph t : t ∈ tasks (retained r nowMs) → taskGraphOk (retained r nowMs) t = true.
Proof.
  intros Hk. pose proof Hk as [Ht Hkeep]%retained_elem. pose proof (wf_task_graph r1 Hwf t Ht) as Hg.
  unfold taskGraphOk in *. bools.
  - destruct (findPolicy (policySnapshots r1) _) as [p|] eqn:Ep; [|done].
    apply (findPolicy_iff _ _ _ (wf_policy_ids r1 Hwf)) in Ep as [Hp Hh].
    rewrite (proj2 (findPolicy_iff _ _ p (proj2 (proj2 retained_ids)))); [done|].
    split; [|done]. simpl. apply list_elem_of_filter. split; [|done]. rewrite Hh.
    apply list_elem_of_fmap. by exists t.
  - destruct (activeAttemptId (tStatus t)) as [i|] eqn:Ei; [|destruct (terminalAttemptId (tStatus t)) as [i|] eqn:Et; [|done]].
    all: destruct (findAttempt (attempts r1) i) as [a|] eqn:Ea; [|done].
    all: rewrite (retained_attempt i a); [done|done|]; intros Hi; bools.
    all: destruct (removable_ended i a t Ea Hi Ht) as [_ Hend]; [done|].
    + by destruct (tStatus t).
    + unfold keepTask in Hkeep. rewrite Hend, Et in Hkeep. simpl in Hkeep. by rewrite bool_decide_true in Hkeep.
Qed.

Lemma retained_links a i :
  a ∈ attempts (retained r nowMs) → i ∈ aTaskIds a → attemptLinkOk (retained r nowMs) a i = true.
Proof.
  intros Ha Hi. simpl in Ha. apply list_elem_of_filter in Ha as [Hrem Ha].
  pose proof (wf_links r1 Hwf a i Ha Hi) as Hl. unfold attemptLinkOk in *.
  destruct (findTask (tasks r1) i) as [t|] eqn:Et; [|done].
  apply findTask_Some in Et as [Ht <-].
  rewrite (proj2 (findTask_iff _ _ t (proj1 retained_ids))); [done|].
  split; [|done]. apply list_elem_of_filter. split; [|done].
  destruct (keepTask _ _ _ t) eqn:Ek; [done|]. destruct Hrem. by eapply Hclosed.
Qed.

Lemma wf_retained : wf (retained r nowMs).
Proof.
  split.
  - intros t [Ht _]%retained_elem. by apply (wf_tasks r1).
  - intros a [_ Ha]%list_elem_of_filter. by apply (wf_attempts r1 Hwf).
  - intros p [_ Hp]%list_elem_of_filter. by apply (wf_policies r1 Hwf).
  - apply retained_ids.
  - apply retained_ids.
  - apply retained_ids.
  - apply retained_graph.
  - apply retained_links.
Qed.
End Retained.

End Soundness.
End TaskStoreSoundness.
