(* ===== verification/TaskStoreSteps.v ===== *)
(** * Runs of the task store

  The store as a state machine: the commands of its interface executed one
  after the other with any outcome of the environment, and the relation
  [rootStep] between the file contents before and after, with one constructor
  per kind of change.  The file that any run leaves on disk is one the parser
  accepts unchanged, and it is connected to the previous one by these changes. *)

From Stdlib Require Import Ascii QArith_base.
From S2P Require Import Prelude ConversationScope TaskTypes TaskTransitions TaskAdmission TaskQuarantine TaskStore.
From S2P Require Import TaskStoreTypes TaskStoreInvariants TaskStoreSoundness.

Open Scope string_scope.
Open Scope list_scope.
Open Scope Z_scope.

Module TaskStoreSteps.
Import TaskTypes TaskTransitions TaskAdmission TaskQuarantine TaskStore TaskStoreTypes TaskStoreInvariants TaskStoreSoundness.

(** ** Commands *)

Inductive Command :=
| CInitialize
| CRead
| CInspect
| CCancel (agentId : string) (taskId : option string)
| CAdmit (candidates : list (BoundTaskCandidate * string)) (threshold : Q)
| CClaim (input : ClaimInput)
| CBegin (attemptId : string) (check : SettledCheck)
| CSettle (attemptId : string) (outcome : TaskDeliverySettlement)
| CDismiss (attemptId : string) (check : SettledCheck)
| CFail (attemptId : string) (input : TaskFailureInput)
| CReconcile (currentBootId : string) (exclusive : bool).

Section Steps.
Context `{TaskPlatform} (options : StoreOptions).
Implicit Types (r : FollowupTaskStoreFile) (st : Store) (io : Io).

Definition exec (cmd : Command) st io : Store :=
  match cmd with
  | CInitialize => (initialize options st io).1
  | CRead => (read options st io).1
  | CInspect => (inspect options st io).1
  | CCancel agent task => (cancelPending options st io agent task).1
  | CAdmit cs thr => (admitCandidates options st io cs thr).1
  | CClaim input => (claimDue options st io input).1
  | CBegin i check => (beginDelivery options st io i check).1
  | CSettle i outcome => (settleDelivery options st io i outcome).1
  | CDismiss i check => (dismissAttempt options st io i check).1
  | CFail i input => (failAttempt options st io i input).1
  | CReconcile boot excl => (reconcileOwnership options st io boot excl).1
  end.

Definition execAll (cmds : list (Command * Io)) st : Store :=
  foldl (fun st p => exec p.1 st p.2) st cmds.

(** ** Changes of the root *)

(** One change of the root at [nowMs], made by command [cmd]. *)
Inductive change (cmd : Command) (nowMs : Z) : FollowupTaskStoreFile → FollowupTaskStoreFile → Prop :=
| ch_maintain r r' : maintainRoot r nowMs = Some r' → change cmd nowMs r r'
| ch_cancel agent task r r' v :
    cmd = CCancel agent task →
    cancelChange agent task r nowMs = Ok (Some r', v) → change cmd nowMs r r'
| ch_admit cs thr c newId r r' v :
    cmd = CAdmit cs thr → (c, newId) ∈ cs →
    admitTaskCandidate r c thr nowMs newId MAX_ACTIVE_FOLLOWUP_TASKS encodedWithinCapacity = Ok (Some r', v) →
    change cmd nowMs r r'
| ch_claim input quiet r r' v :
    cmd = CClaim input → ciAttemptId input ∉ aId <$> attempts r →
    1 <= ciMaxPerCheck input <= 8 →
    planDueTaskClaim r nowMs input quiet = (Some r', v) → change cmd nowMs r r'
| ch_begin i check r r' v :
    cmd = CBegin i check →
    beginDeliveryChange options i check r nowMs = Ok (Some r', v) → change cmd nowMs r r'
| ch_settle i outcome r r' v :
    cmd = CSettle i outcome →
    settleDeliveryChange i outcome r nowMs = Ok (Some r', v) → change cmd nowMs r r'
| ch_dismiss i check r r' v :
    cmd = CDismiss i check →
    dismissChange i check r nowMs = Ok (Some r', v) → change cmd nowMs r r'
| ch_fail i input r r' v :
    cmd = CFail i input →
    failChange options i input r nowMs = Ok (Some r', v) → change cmd nowMs r r'
| ch_recover boot excl a r r' v :
    cmd = CReconcile boot excl → a ∈ attempts r → isActiveAttempt a = true →
    recoverOne options r a nowMs = Ok (r', v) → change cmd nowMs r r'.

(** From the file before to the file after a command: changes, then the
    normalisation of the parser that writes the result. *)
Definition rootStep (cmd : Command) (nowMs : Z) r r' : Prop :=
  ∃ r1, rtc (change cmd nowMs) r r1 ∧ parseFollowupTaskStoreFile r1 = Ok r'.

(** ** What is on disk *)

Definition trusted (d : Disk) : Prop :=
  match d with
  | DMissing => True
  | DRoot r => parseFollowupTaskStoreFile r = Ok r
  | _ => False
  end.

(** The content of the file, a missing file being an empty one. *)
Definition rootOf (d : Disk) : FollowupTaskStoreFile :=
  match d with DRoot r => r | _ => emptyRoot end.

(** What a command may do to the file. *)
Definition diskStep (cmd : Command) (nowMs : Z) (d d' : Disk) : Prop :=
  d' = d ∨ ∃ r', d' = DRoot r' ∧ rootStep cmd nowMs (rootOf d) r'.

Lemma encode_parse r r' : encodeFollowupTaskStore r = Ok r' → parseFollowupTaskStoreFile r = Ok r'.
Proof. unfold encodeFollowupTaskStore. destruct (parseFollowupTaskStoreFile r); [by intros ->%Ok_inj|done]. Qed.

Lemma writeRoot_step cmd nowMs st io r :
  rtc (change cmd nowMs) (rootOf (disk st)) r →
  diskStep cmd nowMs (disk st) (disk (writeRoot st io r).1).
Proof.
  intros Hr. unfold writeRoot. destruct (encodeFollowupTaskStore r) as [r'|] eqn:E; [|by left].
  apply encode_parse in E. case_match; [by left|]. simpl. unfold replaceDurableFile.
  repeat case_match; simpl; (by left) || (right; exists r'; split; [done|]; by exists r).
Qed.

Lemma persist_step {A} cmd nowMs st io new (v : A) :
  (∀ r, new = Some r → rtc (change cmd nowMs) (rootOf (disk st)) r) →
  diskStep cmd nowMs (disk st) (disk (persist st io new v).1).
Proof.
  intros Hn. destruct new as [r|]; simpl; [|by left]. apply writeRoot_step. by apply Hn.
Qed.

Lemma withStoreLock_step {A} cmd nowMs st io (k : Store → Store * Result A StoreError) :
  diskStep cmd nowMs (disk st) (disk (k st).1) →
  diskStep cmd nowMs (disk st) (disk (withStoreLock options st io k).1).
Proof. intros Hk. unfold withStoreLock. repeat case_match; simpl; (by left) || done. Qed.

(** An operation on an initialized store works on the root of the file. *)
Lemma openRoot_step {A} cmd nowMs st io (k : Store → FollowupTaskStoreFile → Store * Result A StoreError) :
  trusted (disk st) →
  (∀ r, disk st = DRoot r → parseFollowupTaskStoreFile r = Ok r →
     diskStep cmd nowMs (disk st) (disk (k st r).1)) →
  diskStep cmd nowMs (disk st) (disk (openRoot options st io k).1).
Proof.
  intros Ht Hk. unfold openRoot. apply withStoreLock_step. destruct (initialized st); simpl; [|by left].
  unfold readRoot. destruct (ioReadOk io); simpl; [|by left].
  destruct (disk st) as [| | | |r] eqn:Ed; try done; [simpl; rewrite Ed; by left|].
  simpl in Ht. rewrite Ht. destruct (MAX_FOLLOWUP_TASK_STORE_BYTES <? _); [simpl; rewrite Ed; by left|].
  destruct (validTaskStoreTime _); simpl; [|rewrite Ed; by left]. by apply Hk.
Qed.

Lemma maintained_rtc cmd nowMs r r' :
  maintainRoot r nowMs = Some r' → rtc (change cmd nowMs) r r'.
Proof. intros. apply rtc_once. by apply ch_maintain. Qed.

Lemma default_rtc cmd nowMs r : rtc (change cmd nowMs) r (default r (maintainRoot r nowMs)).
Proof. destruct (maintainRoot r nowMs) eqn:E; simpl; [by apply maintained_rtc|done]. Qed.

Lemma mutate_step {A} cmd st io (f : FollowupTaskStoreFile → Z → Result (option FollowupTaskStoreFile * A) StoreError) :
  trusted (disk st) →
  (∀ r r' v, parseFollowupTaskStoreFile (rootOf (disk st)) = Ok (rootOf (disk st)) →
     rtc (change cmd (ioNow io)) (rootOf (disk st)) r →
     f r (ioNow io) = Ok (Some r', v) → NoDup (aId <$> attempts r) →
     rtc (change cmd (ioNow io)) r r') →
  diskStep cmd (ioNow io) (disk st) (disk (mutate options st io f).1).
Proof.
  intros Ht Hf. unfold mutate. apply openRoot_step; [done|]. intros r Ed Hp.
  destruct (f _ _) as [[new v]|] eqn:Ef; [|by left]. case_match; [by left|].
  apply persist_step. rewrite Ed. simpl. intros r' Hr'.
  destruct new as [r2|]; simplify_eq; [|by apply maintained_rtc].
  etrans; [apply default_rtc|]. eapply Hf; rewrite ?Ed; simpl; [done| |exact Ef|].
  - apply default_rtc.
  - apply parse_wf in Hp as [Hwf _]. unfold maintainRoot. case_match; simpl; [|apply (wf_attempt_ids r Hwf)].
    eapply sublist_NoDup; [apply (wf_attempt_ids r Hwf)|]. apply fmap_sublist, sublist_filter.
Qed.

Lemma rtc_change cmd nowMs r r' : change cmd nowMs r r' → rtc (change cmd nowMs) r r'.
Proof. apply rtc_once. Qed.

Lemma replaceAttempt_ids l a : aId <$> replaceAttempt l a = aId <$> l.
Proof. unfold replaceAttempt. apply fmap_key. intros. by case_decide. Qed.

Lemma recoverOne_attempts r a nowMs r' v :
  recoverOne options r a nowMs = Ok (r', v) →
  ∃ s, attempts r' = replaceAttempt (attempts r) (setAttemptStatus a s).
Proof.
  unfold recoverOne, buildDeliveryTerminal, buildRetryableFailure.
  repeat case_match; intros; simplify_eq/=; eauto.
Qed.

Lemma recoverAll_rtc boot excl initial r stale nowMs r' v :
  recoverAll options initial r stale nowMs = Ok (r', v) →
  NoDup (aId <$> attempts r) → NoDup (aId <$> stale) →
  (∀ a, a ∈ stale → a ∈ attempts r ∧ isActiveAttempt a = true) →
  rtc (change (CReconcile boot excl) nowMs) r r'.
Proof.
  revert r v. induction stale as [|a stale IH]; intros r v; csimpl; [by intros [= -> _]|].
  destruct (recoverOne options r a nowMs) as [[r1 o]|] eqn:E1; [|done]. simpl.
  destruct (recoverAll options initial r1 stale nowMs) as [[r2 l]|] eqn:E2; [|done]. intros [= <- _].
  intros Hnd [Hna Hns]%NoDup_cons Hst. destruct (recoverOne_attempts _ _ _ _ _ E1) as [s Es].
  eapply rtc_l; [eapply ch_recover; [done|apply Hst; left|apply Hst; left|exact E1]|].
  eapply IH; [exact E2|by rewrite Es, replaceAttempt_ids|done|].
  intros c Hc. destruct (Hst c) as [Hin Hact]; [by right|]. split; [|done]. rewrite Es.
  unfold replaceAttempt. apply list_elem_of_fmap. exists c. split; [|done].
  rewrite decide_False; [done|]. simpl. intros E. apply Hna. rewrite <- E. apply list_elem_of_fmap. by exists c.
Qed.

Lemma admitAll_rtc cs0 cs thr nowMs current root new v r' :
  (∀ p, p ∈ cs → p ∈ cs0) →
  admitAll root current cs thr nowMs MAX_ACTIVE_FOLLOWUP_TASKS encodedWithinCapacity = Ok (new, v) →
  new = Some r' → rtc (change (CAdmit cs0 thr) nowMs) (default current root) r'.
Proof.
  revert root v. induction cs as [|[c newId] cs IH]; intros root v Hcs; csimpl.
  { intros [= -> _] ->. done. }
  destruct (admitTaskCandidate _ _ _ _ _ _ _) as [[o d]|] eqn:E1; [|done].
  destruct (admitAll _ _ _ _ _ _ _) as [[n l]|] eqn:E2; [|done]. simpl. intros [= <- _] ->.
  assert (∀ p, p ∈ cs → p ∈ cs0) as Hcs' by (intros; apply Hcs; by right).
  pose proof (IH _ _ Hcs' E2 eq_refl) as Hrtc. simpl in Hrtc. destruct o as [r1|]; [|done].
  eapply rtc_l; [|exact Hrtc]. eapply ch_admit; [done|apply Hcs; left|exact E1].
Qed.

Lemma maintain_empty nowMs : maintainRoot emptyRoot nowMs = None.
Proof. done. Qed.

Lemma initialize_step st io :
  trusted (disk st) → diskStep CInitialize (ioNow io) (disk st) (disk (initialize options st io).1).
Proof.
  intros Ht. unfold initialize. apply withStoreLock_step. destruct (validTaskStoreTime _); simpl; [|by left].
  unfold readRoot. destruct (ioReadOk io); simpl; [|by left].
  destruct (disk st) as [| | | |r] eqn:Ed; try done.
  - assert (diskStep CInitialize (ioNow io) (disk st) (disk (writeRoot st io emptyRoot).1)) as Hw.
    { apply writeRoot_step. by rewrite Ed. }
    rewrite Ed in Hw. destruct (writeRoot st io emptyRoot) as [st1 [[]|]]; simpl in *; [|done]. done.
  - simpl in Ht. rewrite Ht. destruct (MAX_FOLLOWUP_TASK_STORE_BYTES <? _); [simpl; rewrite Ed; by left|].
    assert (diskStep CInitialize (ioNow io) (disk st)
      (disk (persist st io (maintainRoot r (ioNow io)) (default r (maintainRoot r (ioNow io)))).1)) as Hp.
    { apply persist_step. rewrite Ed. intros r' Hr. by apply maintained_rtc. }
    rewrite Ed in Hp. by destruct (persist _ _ _ _) as [st2 [v|]].
Qed.

(** Every command changes the file by steps of the root, or not at all. *)
Lemma exec_step cmd st io :
  trusted (disk st) → diskStep cmd (ioNow io) (disk st) (disk (exec cmd st io)).
Proof.
  intros Ht. destruct cmd as [| | |agent task|cs thr|input|i check|i outcome|i check|i input|boot excl]; simpl.
  - by apply initialize_step.
  - unfold read. apply openRoot_step; [done|]. intros r Ed Hp. apply persist_step. rewrite Ed.
    intros r' Hr. by apply maintained_rtc.
  - unfold inspect. apply openRoot_step; [done|]. intros r Ed Hp.
    assert (diskStep CInspect (ioNow io) (disk st) (disk (persist st io (maintainRoot r (ioNow io)) tt).1)) as Hs.
    { apply persist_step. rewrite Ed. intros r' Hr. by apply maintained_rtc. }
    destruct (persist _ _ _ _) as [st1 [v|]]; [|done]. repeat case_match; done.
  - unfold cancelPending. case_match; [by left|]. apply mutate_step; [done|].
    intros r r' v _ _ Hc _. apply rtc_change. by eapply ch_cancel.
  - unfold admitCandidates. case_match; [by left|]. apply openRoot_step; [done|]. intros r Ed Hp.
    set (enabled := match candidateAgent <$> cs.*1 with [] => _ | _ => _ end). clearbody enabled.
    destruct enabled; [|by left]. destruct (admitAll _ _ _ _ _ _ _) as [[new res]|] eqn:Ea; [|by left].
    apply persist_step. rewrite Ed. simpl. intros r' Hr'. etrans; [apply default_rtc|].
    by eapply admitAll_rtc in Ea.
  - unfold claimDue. case_match eqn:Eg; [by left|]. apply mutate_step; [done|]. intros r r' v _ _ Hc _.
    unfold claimChange in Hc. repeat case_match; try done. simplify_eq. apply rtc_change.
    eapply (ch_claim _ _ input (rcQuietUntilMs value)); [done| |bools; lia|rewrite <- Hc; apply surjective_pairing].
    intros Hin%list_elem_of_fmap. destruct Hin as (a & E & Ha).
    match goal with Hx : existsb _ _ = false |- _ => rewrite <- not_true_iff_false, existsb_exists in Hx; apply Hx end.
    exists a. rewrite <- list_elem_of_In. split; [done|]. by apply bool_decide_eq_true.
  - unfold beginDelivery. case_match; [by left|]. apply mutate_step; [done|].
    intros r r' v _ _ Hc _. apply rtc_change. by eapply ch_begin.
  - unfold settleDelivery. case_match; [by left|]. apply mutate_step; [done|].
    intros r r' v _ _ Hc _. apply rtc_change. by eapply ch_settle.
  - unfold dismissAttempt. case_match; [by left|]. apply mutate_step; [done|].
    intros r r' v _ _ Hc _. apply rtc_change. by eapply ch_dismiss.
  - unfold failAttempt. case_match; [by left|]. apply mutate_step; [done|].
    intros r r' v _ _ Hc _. apply rtc_change. by eapply ch_fail.
  - unfold reconcileOwnership. case_match; [by left|]. case_match; [by left|]. apply mutate_step; [done|].
    intros r r' v _ _ Hc Hnd. unfold reconcileChange in Hc.
    destruct (recoverAll _ _ _ _ _) as [[r1 l]|] eqn:Er; [|done].
    destruct (staleAttempts r boot) as [|a0 stale] eqn:Es; [done|]. injection Hc as <- _.
    apply (recoverAll_rtc boot excl r r (a0 :: stale) _ _ l Er Hnd).
    + rewrite <- Es. eapply sublist_NoDup; [exact Hnd|]. apply fmap_sublist, sublist_filter.
    + rewrite <- Es. by intros a [[_ ?] ?]%list_elem_of_filter.
Qed.
End Steps.
End TaskStoreSteps.
