(* ===== verification/TaskStoreShapes.v ===== *)
(** * The shapes of a change

  Every change of a run is one of five shapes: retention, a change of pending
  tasks only, the creation of a task, the start of an attempt, or a change of
  one active attempt together with the tasks it lists.  The safety theorems are
  proved for the shapes; this file classifies the changes.

  [Own] is the invariant the classification needs: a task listed by an attempt
  that has not failed is in the state that attempt put it in. *)

From Stdlib Require Import Ascii QArith_base.
From S2P Require Import Prelude ConversationScope TaskTypes TaskTransitions TaskAdmission TaskQuarantine TaskStore.
From S2P Require Import TaskStoreTypes TaskStoreInvariants TaskStoreSoundness TaskStoreSteps.

Open Scope string_scope.
Open Scope list_scope.
Open Scope Z_scope.

Module TaskStoreShapes.
Import TaskTypes TaskTransitions TaskAdmission TaskQuarantine TaskStore TaskStoreTypes TaskStoreInvariants TaskStoreSoundness
  TaskStoreSteps.

(** ** Ownership *)

(** The status of a task listed by an attempt with id [i] and status [s]. *)
Definition attemptTask (s : AttemptStatus) (i : string) (ts : TaskStatus) : Prop :=
  match s with
  | AChecking => ts = TChecking i
  | ADelivering _ _ => ts = TDelivering i
  | ADelivered _ _ _ _ _ _ _ => ∃ m, ts = TDelivered i m
  | ADeliveryPartial _ _ _ _ _ _ _ _ => ∃ m, ts = TDeliveryPartial i m
  | ADeliveryUnknown _ _ _ _ => ∃ m, ts = TDeliveryUnknown i m
  | ADismissed _ _ => ∃ m, ts = TDismissed i m
  | AFailed _ _ _ _ _ _ => True
  end.

Definition isFailed (a : FollowupTaskAttemptRecord) : bool :=
  match aStatus a with AFailed _ _ _ _ _ _ => true | _ => false end.

Record Own (r : FollowupTaskStoreFile) : Prop := {
  own_tasks : NoDup (tId <$> tasks r);
  own_attempts : NoDup (aId <$> attempts r);
  own_listed a t : a ∈ attempts r → t ∈ tasks r → tId t ∈ aTaskIds a →
    attemptTask (aStatus a) (aId a) (tStatus t);
}.

(** ** Steps of one task *)

(** What no change touches. *)
Record sameCore (t u : FollowupTaskRecord) : Prop := {
  core_id : tId u = tId t;
  core_agent : tAgentId u = tAgentId t;
  core_origin : tOrigin u = tOrigin t;
  core_dedupe : tDedupeKey u = tDedupeKey t;
}.

(** Failures are counted, and a task with more than three of them is over. *)
Definition failureStep (t u : FollowupTaskRecord) : Prop :=
  tPreAcceptanceFailureCount u = tPreAcceptanceFailureCount t ∨
  (tPreAcceptanceFailureCount u = tPreAcceptanceFailureCount t + 1 ∧
   (isActiveTask u = true → tPreAcceptanceFailureCount u <= 3)).

(** A pending task is rescheduled, expires or is cancelled. *)
Definition pendStep (t u : FollowupTaskRecord) : Prop :=
  u = t ∨
  (isPending t = true ∧ sameCore t u ∧ tPreAcceptanceFailureCount u = tPreAcceptanceFailureCount t ∧
   ((∃ n, tStatus u = TPending n) ∨ (∃ m, tStatus u = TExpired None m) ∨ (∃ m, tStatus u = TCancelled m))).

(** A task of attempt [a] follows it to status [s]. *)
Definition settleStep (a : FollowupTaskAttemptRecord) (s : AttemptStatus) (t u : FollowupTaskRecord) : Prop :=
  sameCore t u ∧ failureStep t u ∧ attemptTask s (aId a) (tStatus u) ∧
  (if match s with AFailed _ _ _ _ _ _ => true | _ => false end
   then (∃ n, tStatus u = TPending n) ∨ (∃ m, tStatus u = TExpired (Some (aId a)) m) else True).

(** The steps of an attempt: a delivering attempt fails only when the platform
    rejected the message. *)
Definition attemptStep (s s' : AttemptStatus) : Prop :=
  match s, s' with
  | AChecking, ADelivering _ _ | AChecking, ADismissed _ _ | AChecking, AFailed _ None _ _ _ _ => True
  | ADelivering _ m, AFailed _ (Some m') SDeliveryRejected _ _ _ => m' = m
  | ADelivering _ m, ADelivered _ m' _ _ _ _ _ | ADelivering _ m, ADeliveryPartial _ m' _ _ _ _ _ _
  | ADelivering _ m, ADeliveryUnknown _ m' _ _ => m' = m
  | _, _ => False
  end.

Lemma sameCore_refl t : sameCore t t.
Proof. by split. Qed.
Lemma sameCore_upd t n m s : sameCore t (updTask t n m s).
Proof. by split. Qed.
#[export] Hint Resolve sameCore_refl sameCore_upd : core.

Lemma pendStep_core t u : pendStep t u → sameCore t u.
Proof. intros [->|(_ & ? & _)]; auto. Qed.

Section Shapes.
Context `{TaskPlatform} (options : StoreOptions).
Implicit Types (r : FollowupTaskStoreFile) (t u : FollowupTaskRecord) (a c : FollowupTaskAttemptRecord).

(** ** Shapes *)

Inductive shape (cmd : Command) (nowMs : Z) r : FollowupTaskStoreFile → Prop :=
| sh_retain (f : FollowupTaskRecord → FollowupTaskRecord) ts ats ps :
    (∀ t, t ∈ tasks r → pendStep t (f t)) → sublist ts (f <$> tasks r) → sublist ats (attempts r) →
    shape cmd nowMs r {| tasks := ts; attempts := ats; policySnapshots := ps |}
| sh_create t0 ps :
    isPending t0 = true → tPreAcceptanceFailureCount t0 = 0 →
    (∀ t, t ∈ tasks r → isActiveTask t = true → tDedupeKey t ≠ tDedupeKey t0) →
    activeTaskCount r < MAX_ACTIVE_FOLLOWUP_TASKS →
    NoDup (tId <$> (tasks r ++ [t0])) →
    (∃ cs thr (b : BoundTaskCandidate), cmd = CAdmit cs thr ∧ (b, tId t0) ∈ cs) →
    shape cmd nowMs r {| tasks := tasks r ++ [t0]; attempts := attempts r; policySnapshots := ps |}
| sh_claim (f g : FollowupTaskRecord → FollowupTaskRecord) a input :
    cmd = CClaim input →
    (∀ t, t ∈ tasks r → pendStep t (f t)) →
    aId a ∉ aId <$> attempts r → aStatus a = AChecking → aStartedAtMs a = nowMs →
    (∀ u, u ∈ f <$> tasks r → tId u ∉ aTaskIds a → g u = u) →
    (∀ u, u ∈ f <$> tasks r → tId u ∈ aTaskIds a →
       isPending u = true ∧ sameCore u (g u) ∧ tStatus (g u) = TChecking (aId a) ∧
       tPreAcceptanceFailureCount (g u) = tPreAcceptanceFailureCount u) →
    (reserve (attempts r) (aTenantId a) (aAgentId a) (aConversationRef a) (nowMs - ROLLING_DAY_MS) 0 None).1
      < ciMaxPerDayPerConversation input →
    shape cmd nowMs r
      {| tasks := g <$> (f <$> tasks r); attempts := attempts r ++ [a]; policySnapshots := policySnapshots r |}
| sh_settle a s (f : FollowupTaskRecord → FollowupTaskRecord) :
    a ∈ attempts r → isActiveAttempt a = true → attemptStep (aStatus a) s →
    (∀ t, t ∈ tasks r → tId t ∉ aTaskIds a → f t = t) →
    (∀ t, t ∈ tasks r → tId t ∈ aTaskIds a → settleStep a s t (f t)) →
    shape cmd nowMs r (withTasksAttempt r (f <$> tasks r) (setAttemptStatus a s)).

Section Classify.
Variables (cmd : Command) (nowMs : Z) (r : FollowupTaskStoreFile).
Hypothesis HO : Own r.

Lemma sh_pend (f : FollowupTaskRecord → FollowupTaskRecord) :
  (∀ t, t ∈ tasks r → pendStep t (f t)) → shape cmd nowMs r (withTasks r (f <$> tasks r)).
Proof. intros Hf. by apply (sh_retain _ _ _ f). Qed.

Lemma own_checking a t :
  a ∈ attempts r → aStatus a = AChecking → t ∈ tasks r → tId t ∈ aTaskIds a → tStatus t = TChecking (aId a).
Proof. intros Ha Hs Ht Hi. pose proof (own_listed r HO a t Ha Ht Hi) as Ho. by rewrite Hs in Ho. Qed.

Lemma own_delivering a check m t :
  a ∈ attempts r → aStatus a = ADelivering check m → t ∈ tasks r → tId t ∈ aTaskIds a →
  tStatus t = TDelivering (aId a).
Proof. intros Ha Hs Ht Hi. pose proof (own_listed r HO a t Ha Ht Hi) as Ho. by rewrite Hs in Ho. Qed.

Lemma own_active a t :
  a ∈ attempts r → isActiveAttempt a = true → t ∈ tasks r → tId t ∈ aTaskIds a →
  activeAttemptId (tStatus t) = Some (aId a).
Proof.
  intros Ha Hact Ht Hi. pose proof (own_listed r HO a t Ha Ht Hi) as Ho. unfold isActiveAttempt in Hact.
  destruct (aStatus a); try done; simpl in Ho; by rewrite Ho.
Qed.

Lemma shape_maintain r' : maintainRoot r nowMs = Some r' → shape cmd nowMs r r'.
Proof.
  unfold maintainRoot. case_match; [|done]. intros [= <-]. unfold retained.
  apply (sh_retain _ _ _ (fun t => default t (expireOverdue nowMs t))); [|apply sublist_filter|apply sublist_filter].
  intros t Ht. unfold expireOverdue. destruct (tStatus t) eqn:Es; try (by left). case_match; [|by left].
  right. split; [unfold isPending; by rewrite Es|]. split; [apply sameCore_upd|]. split; [done|].
  right; left. by eexists.
Qed.

Lemma shape_cancel agent task v r' :
  cancelChange agent task r nowMs = Ok (Some r', v) → shape cmd nowMs r r'.
Proof.
  assert (∀ ids, shape cmd nowMs r (cancelIds r ids nowMs)) as Hids.
  { intros ids. unfold cancelIds. apply sh_pend. intros t Ht. case_decide; [|by left].
    unfold cancelTask. destruct (tStatus t) eqn:Es; try (by left). right.
    split; [unfold isPending; by rewrite Es|]. split; [apply sameCore_upd|]. split; [done|]. right; right. by eexists. }
  unfold cancelChange. destruct task as [i|].
  - destruct (findTask _ i) as [t|]; [|done]. destruct (tStatus t); intros; simplify_eq; by apply Hids.
  - destruct (tId <$> _) as [|i ids] eqn:Ei; intros; simplify_eq. by apply Hids.
Qed.

Lemma shape_disabled a check :
  a ∈ attempts r → aStatus a = AChecking →
  shape cmd nowMs r (terminalizeConfigurationDisabled r a check nowMs).
Proof.
  intros Ha Hs. apply sh_settle; [done|unfold isActiveAttempt; by rewrite Hs|by rewrite Hs| |].
  - intros t Ht Hn. by rewrite bool_decide_false.
  - intros t Ht Hi. rewrite bool_decide_true by done. unfold isCheckingTask.
    rewrite (own_checking a t Ha Hs Ht Hi). simpl. split; [apply sameCore_upd|]. split; [by left|]. split; [done|].
    left. by eexists.
Qed.

Lemma shape_closed a check ts :
  a ∈ attempts r → aStatus a = AChecking → resolveClaimedTasks r a = Ok ts →
  shape cmd nowMs r (terminalizeClosedWindow r a check ts nowMs).
Proof.
  intros Ha Hs Hr.
  assert (∀ t, t ∈ tasks r → findTask ts (tId t) = if decide (tId t ∈ aTaskIds a) then Some t else None) as Hfind.
  { intros t Ht. rewrite (resolveClaimed_find r a _ _ _ Hr). case_decide; [|done].
    apply findTask_iff; [apply (own_tasks r HO)|done]. }
  apply sh_settle; [done|unfold isActiveAttempt; by rewrite Hs|by rewrite Hs| |].
  - intros t Ht Hn. by rewrite Hfind, decide_False.
  - intros t Ht Hi. rewrite Hfind, decide_True by done.
    destruct (windowClosed nowMs t); (split; [apply sameCore_upd|]; split; [by left|]; split; [done|]); [right|left]; by eexists.
Qed.

Lemma shape_begin i check v r' :
  beginDeliveryChange options i check r nowMs = Ok (Some r', v) → shape cmd nowMs r r'.
Proof.
  unfold beginDeliveryChange. destruct (findAttempt (attempts r) i) as [a|] eqn:Ea; [|done].
  apply findAttempt_Some in Ea as [Ha _]. destruct (aStatus a) eqn:Hs; try done.
  destruct (resolveRuntimeConfig _ _) as [config|]; [|done].
  destruct (negb _); [intros [= <- _]; by apply shape_disabled|].
  destruct (resolveClaimedTasks r a) as [ts|] eqn:Er; [|done].
  destruct (existsb _ ts); intros [= <- _]; [by apply shape_closed|].
  apply sh_settle; [done|unfold isActiveAttempt; by rewrite Hs|by rewrite Hs| |].
  - intros t Ht Hn. destruct (tStatus t); try done. by rewrite bool_decide_false.
  - intros t Ht Hi. rewrite (own_checking a t Ha Hs Ht Hi), bool_decide_true by done.
    split; [apply sameCore_upd|]. split; [by left|done].
Qed.

Lemma shape_terminal a check m outcome r' :
  a ∈ attempts r → aStatus a = ADelivering check m →
  buildDeliveryTerminal r a check m outcome nowMs = Ok r' → shape cmd nowMs r r'.
Proof.
  intros Ha Hs. unfold buildDeliveryTerminal.
  destruct (deliveryTerminalStatus _ _ _ _ _) as [[s ts]|] eqn:E; [|done]. intros [= <-]. simpl.
  assert (attemptTask s (aId a) ts ∧ match s with AFailed _ _ _ _ _ _ => false | _ => true end = true ∧
          attemptStep (ADelivering check m) s) as (Hat & Hnf & Hstep).
  { unfold deliveryTerminalStatus in E. repeat case_match; simplify_eq; simpl; eauto. }
  apply sh_settle; [done|unfold isActiveAttempt; by rewrite Hs|by rewrite Hs| |].
  - intros t Ht Hn. destruct (tStatus t); try done. by rewrite bool_decide_false.
  - intros t Ht Hi. rewrite (own_delivering a check m t Ha Hs Ht Hi), !bool_decide_true by done.
    simpl. split; [apply sameCore_upd|]. split; [by left|]. split; [done|]. by destruct s.
Qed.

Lemma shape_dismissed a check :
  a ∈ attempts r → aStatus a = AChecking → shape cmd nowMs r (buildDismissedTerminal r a check nowMs).
Proof.
  intros Ha Hs. apply sh_settle; [done|unfold isActiveAttempt; by rewrite Hs|by rewrite Hs| |].
  - intros t Ht Hn. destruct (tStatus t); try done. by rewrite bool_decide_false.
  - intros t Ht Hi. rewrite (own_checking a t Ha Hs Ht Hi), !bool_decide_true by done.
    simpl. split; [apply sameCore_upd|]. split; [by left|]. split; [by eexists|done].
Qed.

Lemma shape_failed a check stage kind failed limit d r' :
  a ∈ attempts r → isActiveAttempt a = true → limit <= 3 →
  (∀ ck m, aStatus a = ADelivering ck m → stage = SDeliveryRejected) →
  buildRetryableFailure r a check stage kind failed nowMs limit = Ok (r', d) → shape cmd nowMs r r'.
Proof.
  intros Ha Hact Hlim Hst. unfold buildRetryableFailure. case_match; [done|]. intros [= <- _].
  rewrite <- list_fmap_compose. apply sh_settle; [done|done| | |].
  - unfold isActiveAttempt in Hact. destruct (aStatus a) as [|ck m| | | | |] eqn:Es; try done; simpl.
    rewrite (Hst ck m eq_refl). by rewrite decide_True.
  - intros t Ht Hn. simpl. unfold failTask. by rewrite bool_decide_false.
  - intros t Ht Hi. simpl. unfold failTask. rewrite !bool_decide_true by (done || by apply own_active). simpl.
    assert (∀ u, tStatus u = TExpired (Some (aId a)) nowMs → sameCore t u →
      tPreAcceptanceFailureCount u = tPreAcceptanceFailureCount t + 1 →
      settleStep a (AFailed check (match aStatus a with
        | ADelivering _ m => if decide (stage = SDeliveryRejected) then Some m else None
        | _ => None end) stage kind failed nowMs) t u) as Hexp.
    { intros u Hu Hc Hf. split; [done|]. split; [|split; [done|right; by eexists]].
      right. split; [done|]. unfold isActiveTask. by rewrite Hu. }
    destruct (RETRY_DELAYS_MS !! _) as [delay|]; [|by apply Hexp].
    match goal with |- context [if ?b then _ else _] => destruct b eqn:Ec; [|by apply Hexp] end. bools.
    split; [apply sameCore_upd|]. split; [|split; [done|left; by eexists]]. right. simpl. split; [done|]. intros _. lia.
Qed.

Lemma runtimeConfig_limit agent config :
  resolveRuntimeConfig options agent = Ok config → rcPreAcceptanceRetryLimit config <= 3.
Proof.
  unfold resolveRuntimeConfig. destruct (getRuntimeConfig options agent) as [c|]; [|done].
  match goal with |- context [if ?b then _ else _] => destruct b eqn:Ec; [done|] end.
  intros ->%Ok_inj. bools. done.
Qed.

Lemma shape_settleDelivery i outcome v r' :
  settleDeliveryChange i outcome r nowMs = Ok (Some r', v) → shape cmd nowMs r r'.
Proof.
  unfold settleDeliveryChange. destruct (findAttempt (attempts r) i) as [a|] eqn:Ea; [|done].
  apply findAttempt_Some in Ea as [Ha _]. destruct (aStatus a) eqn:Hs; try done.
  destruct (buildDeliveryTerminal _ _ _ _ _ _) as [r1|] eqn:Eb; [|done]. intros [= <- _].
  by eapply shape_terminal.
Qed.

Lemma shape_dismiss i check v r' :
  dismissChange i check r nowMs = Ok (Some r', v) → shape cmd nowMs r r'.
Proof.
  unfold dismissChange. destruct (findAttempt (attempts r) i) as [a|] eqn:Ea; [|done].
  apply findAttempt_Some in Ea as [Ha _]. destruct (aStatus a) eqn:Hs; try done. intros [= <- _].
  by apply shape_dismissed.
Qed.

Lemma shape_failWith a check stage kind failed v r' :
  a ∈ attempts r → isActiveAttempt a = true →
  (∀ ck m, aStatus a = ADelivering ck m → stage = SDeliveryRejected) →
  failWith options r a check stage kind failed nowMs = Ok (Some r', v) → shape cmd nowMs r r'.
Proof.
  intros Ha Hact Hst. unfold failWith. destruct (resolveRuntimeConfig _ _) as [config|] eqn:Ec; [|done].
  destruct (buildRetryableFailure _ _ _ _ _ _ _ _) as [[r1 d]|] eqn:Eb; [|done]. intros [= <- _].
  eapply shape_failed; [done|done| |done|exact Eb]. by eapply runtimeConfig_limit.
Qed.

Lemma shape_fail i input v r' :
  failChange options i input r nowMs = Ok (Some r', v) → shape cmd nowMs r r'.
Proof.
  unfold failChange. destruct (findAttempt (attempts r) i) as [a|] eqn:Ea; [|done].
  apply findAttempt_Some in Ea as [Ha _].
  destruct (aStatus a) eqn:Hs, input; try done; 
    (apply shape_failWith; [done|unfold isActiveAttempt; by rewrite Hs|by rewrite Hs]).
Qed.

Lemma shape_recover a v r' :
  a ∈ attempts r → isActiveAttempt a = true →
  recoverOne options r a nowMs = Ok (r', v) → shape cmd nowMs r r'.
Proof.
  intros Ha Hact. unfold recoverOne.
  assert (∀ (o : Result (FollowupTaskStoreFile * RecoveryOutcome) StoreError),
    (∀ ck m, aStatus a ≠ ADelivering ck m) → o = (let? config := resolveRuntimeConfig options (aAgentId a) in
         let? failed := buildRetryableFailure r a NotReturned SOwnerRecoveryBeforeDelivery KInternal 0 nowMs
                          (rcPreAcceptanceRetryLimit config) in
         Ok (failed.1, match failed.2 with RetryScheduled => RRetryScheduled | FailureExpired => RExpired end)) →
    o = Ok (r', v) → shape cmd nowMs r r') as Hf.
  { intros o Hnd ->. destruct (resolveRuntimeConfig _ _) as [config|] eqn:Ec; [|done].
    destruct (buildRetryableFailure _ _ _ _ _ _ _ _) as [[r1 d]|] eqn:Eb; [|done]. intros [= <- _].
    eapply shape_failed; [done|done| | |exact Eb]; [by eapply runtimeConfig_limit|].
    intros c m E. by destruct (Hnd c m). }
  destruct (aStatus a) eqn:Hs; try (by apply Hf; rewrite ?Hs).
  destruct (buildDeliveryTerminal _ _ _ _ _ _) as [r1|] eqn:Eb; [|done]. intros [= <- _].
  by eapply shape_terminal.
Qed.

End Classify.

(** ** Parsing keeps what the invariants read *)

Record sameParsed t u : Prop := {
  parsed_id : tId u = tId t;
  parsed_agent : tAgentId u = tAgentId t;
  parsed_dedupe : tDedupeKey u = tDedupeKey t;
  parsed_failures : tPreAcceptanceFailureCount u = tPreAcceptanceFailureCount t;
  parsed_status : tStatus u = tStatus t;
  parsed_latest : tDueLatestMs u = tDueLatestMs t;
  parsed_expires : tExpiresAtMs u = tExpiresAtMs t;
}.

Lemma parse_same r r' :
  parseFollowupTaskStoreFile r = Ok r' → attempts r' = attempts r ∧ Forall2 sameParsed (tasks r) (tasks r').
Proof.
  unfold parseFollowupTaskStoreFile, FollowupTaskStoreFileSchema. case_match; [done|].
  destruct (mapM FollowupTaskRecordSchema _) as [ts|] eqn:Et; [|done].
  destruct (mapM WorkspacePolicySnapshotSchema _) as [ps|]; [|done].
  repeat case_match; intros Hr; simplify_eq. split; [done|]. simpl. apply mapM_Some in Et.
  eapply Forall2_impl; [exact Et|]. intros t u Hu. unfold FollowupTaskRecordSchema in Hu.
  repeat case_match; simplify_eq. by split.
Qed.

Lemma parsed_ids l k : Forall2 sameParsed l k → tId <$> k = tId <$> l.
Proof. induction 1 as [|t u l k [Hi _ _ _ _ _ _] _ IH]; [done|]. csimpl. by rewrite Hi, IH. Qed.

Lemma parsed_elem l k u : Forall2 sameParsed l k → u ∈ k → ∃ t, t ∈ l ∧ sameParsed t u.
Proof.
  intros HF [i Hi]%list_elem_of_lookup. eapply Forall2_lookup_r in HF as (t & Ht & Hs); [|done].
  exists t. split; [by eapply list_elem_of_lookup_2|done].
Qed.

Lemma parse_Own r r' : parseFollowupTaskStoreFile r = Ok r' → Own r → Own r'.
Proof.
  intros [Ha Ht]%parse_same [H1 H2 H3]. split; [by rewrite (parsed_ids _ _ Ht)|by rewrite Ha|].
  rewrite Ha. intros a u Hain Hu Hi. destruct (parsed_elem _ _ _ Ht Hu) as (t & Htin & [E _ _ _ Es _ _]).
  rewrite Es. apply H3; [done|done|congruence].
Qed.

Lemma capacity_ids r : encodedWithinCapacity r = true → NoDup (tId <$> tasks r).
Proof.
  unfold encodedWithinCapacity. destruct (encodeFollowupTaskStore r) as [r'|] eqn:E; [|done]. intros _.
  apply encode_parse in E. pose proof (parse_same _ _ E) as [_ Ht]. apply parse_wf in E as [Hwf _].
  rewrite <- (parsed_ids _ _ Ht). apply (wf_task_ids r' Hwf).
Qed.

(** ** Admissions and claims *)

Lemma findDuplicate_spec r key dup :
  findDuplicate r key = Some dup → dup ∈ tasks r ∧ tDedupeKey dup = key ∧ isActiveTask dup = true.
Proof.
  unfold findDuplicate. intros [Hin Hb]%List.find_some. apply list_elem_of_In in Hin. by bools.
Qed.

Lemma findDuplicate_absent r key t :
  findDuplicate r key = None → t ∈ tasks r → isActiveTask t = true → tDedupeKey t ≠ key.
Proof.
  unfold findDuplicate. intros Hn Ht Hact E. apply list_elem_of_In in Ht.
  pose proof (List.find_none _ _ Hn t Ht) as Hx. simpl in Hx. by rewrite bool_decide_true, Hact in Hx.
Qed.

Lemma shape_admit cs thr (c : BoundTaskCandidate) newId nowMs r r' v :
  Own r → (c, newId) ∈ cs →
  admitTaskCandidate r c thr nowMs newId MAX_ACTIVE_FOLLOWUP_TASKS encodedWithinCapacity = Ok (Some r', v) →
  shape (CAdmit cs thr) nowMs r r'.
Proof.
  intros HO Hcs. unfold admitTaskCandidate. destruct (validateCandidate c); [|done].
  destruct (negb (Qle_bool _ _)); [done|].
  assert (∀ warn, admitChecked r c nowMs newId MAX_ACTIVE_FOLLOWUP_TASKS encodedWithinCapacity warn =
            Ok (Some r', v) → shape (CAdmit cs thr) nowMs r r') as Hmain;
    [|destruct (validateMemoryWrite (bText c)); (done || apply Hmain)].
  intros warn. unfold admitChecked. destruct (_ || _); [done|].
  destruct (findDuplicate r (computeTaskDedupeKey c)) as [dup|] eqn:Ed.
  - apply findDuplicate_spec in Ed as (Hdup & _ & _). destruct (tStatus dup) as [next| | | | | | | |] eqn:Es; try done.
    destruct (tExpiresAtMs dup <? bDueLatestMs c); [done|]. destruct (encodedWithinCapacity _); [|done].
    intros [= <- _]. apply sh_pend. intros t Ht. case_decide as E; [|by left].
    assert (t = dup) as -> by (by eapply (key_inj tId); [apply (own_tasks r HO)| | |]).
    right. split; [unfold isPending; by rewrite Es|]. split; [by split|]. split; [done|]. left. by eexists.
  - destruct (MAX_ACTIVE_FOLLOWUP_TASKS <=? activeTaskCount r) eqn:Em; [done|].
    destruct (negb _); [done|]. destruct (addPolicy _ _) as [ps|]; [|done].
    destruct (encodedWithinCapacity _) eqn:Ecap; [|done]. intros [= <- _]. bools.
    apply sh_create; [done|done| |done|by apply capacity_ids in Ecap|by eauto].
    intros t Ht Hact. simpl. by eapply findDuplicate_absent.
Qed.

Lemma pendStep_trans t u w : pendStep t u → pendStep u w → pendStep t w.
Proof.
  intros [->|(H1 & [? ? ? ?] & H3 & H4)] [->|(H1' & [? ? ? ?] & H3' & H4')]; [by left| | |].
  - by right.
  - right. auto using Build_sameCore.
  - right. split; [done|]. split; [split; congruence|]. split; [congruence|done].
Qed.

Lemma pendStep_defer next nowMs t : pendStep t (deferTask next nowMs t).
Proof.
  unfold deferTask. destruct (tStatus t) eqn:Es; try (by left). right.
  split; [unfold isPending; by rewrite Es|].
  case_match; (split; [apply sameCore_upd|]; split; [done|]); [right; left|left]; by eexists.
Qed.

Lemma shape_claimGroups input nowMs agent r gs (f : FollowupTaskRecord → FollowupTaskRecord) sat :
  Own r → ciAttemptId input ∉ aId <$> attempts r →
  (∀ t, t ∈ tasks r → pendStep t (f t)) →
  (∀ t, t ∈ concat gs → t ∈ f <$> tasks r ∧ isDue agent nowMs t = true) →
  NoDup (tId <$> concat gs) →
  shape (CClaim input) nowMs r (claimGroups r input nowMs (f <$> tasks r) sat gs).1.
Proof.
  intros HO Hfresh. revert f sat. induction gs as [|[|first group] gs IH]; intros f sat Hf Hdue Hnd.
  { by apply sh_pend. }
  { simpl. by apply IH. }
  simpl in Hdue. change (NoDup (tId <$> (first :: group) ++ concat gs)) in Hnd. rewrite fmap_app in Hnd.
  apply NoDup_app in Hnd as (Hnd1 & Hdis & Hnd2). simpl claimGroups.
  destruct (ciMaxPerDayPerConversation input <=? _) eqn:Ecap; simpl.
  - unfold deferGroup. rewrite <- list_fmap_compose. apply IH; [| |done].
    + intros t Ht. simpl. case_bool_decide; [|by apply Hf].
      eapply pendStep_trans; [by apply Hf|apply pendStep_defer].
    + intros t Ht. assert (t ∈ first :: group ++ concat gs) as Hall by (right; apply elem_of_app; by right).
      destruct (Hdue t Hall) as [(t0 & -> & Ht0)%list_elem_of_fmap Hd]. split; [|done].
      apply list_elem_of_fmap. exists t0. split; [|done]. simpl. rewrite bool_decide_false; [done|].
      intros Hg. apply (Hdis _ Hg). apply list_elem_of_fmap. by eexists.
  - bools. set (sel := take (Z.to_nat (ciMaxPerCheck input)) (first :: group)).
    assert (∀ u, u ∈ sel → u ∈ f <$> tasks r ∧ isPending u = true) as Hsel.
    { intros u Hu. assert (u ∈ first :: group) as Hg by (by eapply subseteq_take).
      assert (u ∈ first :: group ++ concat gs) as Hall by (rewrite app_comm_cons; apply elem_of_app; by left).
      destruct (Hdue u Hall) as [Hu' Hd]. split; [done|]. by apply isDue_pending in Hd as [? _]. }
    apply sh_claim with input; try done.
    + intros u Hu Hn. unfold findTask. rewrite find_fmap_key by done.
      by rewrite (proj2 (find_key_None tId _ _) Hn).
    + intros u Hu Hi. simpl in Hi. unfold findTask. rewrite find_fmap_key by done.
      apply list_elem_of_fmap in Hi as (w & Ew & Hw). destruct (Hsel w Hw) as [Hw' Hpen].
      assert (u = w) as ->.
      { eapply (key_inj tId (f <$> tasks r)); [|done|done|done].
        rewrite fmap_key; [apply (own_tasks r HO)|]. intros t Ht. by apply core_id, pendStep_core, Hf. }
      assert (NoDup (tId <$> sel)) as Hnds
        by (eapply sublist_NoDup; [exact Hnd1|apply fmap_sublist, sublist_take]).
      rewrite (find_key_in tId) by done.
      simpl. split; [done|]. split; [apply sameCore_upd|]. done.
Qed.

Lemma shape_plan input nowMs quiet r r' v :
  Own r → ciAttemptId input ∉ aId <$> attempts r →
  planDueTaskClaim r nowMs input quiet = (Some r', v) → shape (CClaim input) nowMs r r'.
Proof.
  intros HO Hfresh. unfold planDueTaskClaim. pose proof (due_spec r (ciAgentId input) nowMs) as Hspec.
  assert (shape (CClaim input) nowMs r
    (claimGroups r input nowMs (tasks r) [] (groupExactOrigin (dueTasks r (ciAgentId input) nowMs))).1) as Hcl.
  { destruct (groupExactOrigin_spec (dueTasks r (ciAgentId input) nowMs)) as [Hp _].
    pose proof (shape_claimGroups input nowMs (ciAgentId input) r
      (groupExactOrigin (dueTasks r (ciAgentId input) nowMs)) id []) as Hs.
    rewrite list_fmap_id in Hs. apply Hs; [done|done|by left| |].
    - intros t Ht. rewrite Hp in Ht. by apply Hspec.
    - rewrite Hp. unfold dueTasks. rewrite sortTasks_perm.
      eapply sublist_NoDup; [apply (own_tasks r HO)|]. apply fmap_sublist, sublist_filter. }
  destruct (dueTasks r (ciAgentId input) nowMs) as [|t0 due]; [done|].
  destruct quiet as [q|]; [destruct (nowMs <? q)|]; intros [= <- <-]; [|done|done].
  unfold deferGroup. apply sh_pend. intros t Ht. case_bool_decide; [apply pendStep_defer|by left].
Qed.

(** Every change has one of the shapes. *)
Lemma change_shape cmd nowMs r r' : Own r → change options cmd nowMs r r' → shape cmd nowMs r r'.
Proof.
  intros HO Hch. destruct Hch; subst.
  - by apply shape_maintain.
  - by eapply shape_cancel.
  - by eapply shape_admit.
  - by eapply shape_plan.
  - by eapply shape_begin.
  - by eapply shape_settleDelivery.
  - by eapply shape_dismiss.
  - by eapply shape_fail.
  - by eapply shape_recover.
Qed.

End Shapes.
End TaskStoreShapes.
