(* ===== verification/TaskStoreSafety.v ===== *)
(** * Safety of the follow-up task store

  The invariants of every run of the store, by induction on the changes, and
  the theorems that rest on them: a task is sent at most once, no conversation
  gets more follow-ups in any 24 hours than the cap, finished tasks stay
  finished, retries are bounded, and two active tasks never ask for the same
  thing. *)

From Stdlib Require Import Ascii QArith_base.
From S2P Require Import Prelude ConversationScope TaskTypes TaskTransitions TaskAdmission TaskQuarantine TaskStore.
From S2P Require Import TaskStoreTypes TaskStoreInvariants TaskStoreSoundness TaskStoreSteps TaskStoreShapes.

Open Scope string_scope.
Open Scope list_scope.
Open Scope Z_scope.

Module TaskStoreSafety.
Import TaskTypes TaskTransitions TaskAdmission TaskQuarantine TaskStore TaskStoreTypes TaskStoreInvariants TaskStoreSoundness
  TaskStoreSteps TaskStoreShapes.

Section Safety.
Context `{TaskPlatform} (options : StoreOptions).
Implicit Types (r : FollowupTaskStoreFile) (t u : FollowupTaskRecord) (a b c : FollowupTaskAttemptRecord).

(** ** Ownership is an invariant *)

(** Two attempts that have not failed do not list the same task. *)
Lemma own_exclusive r a b t :
  Own r → a ∈ attempts r → b ∈ attempts r → t ∈ tasks r → tId t ∈ aTaskIds a → tId t ∈ aTaskIds b →
  isFailed a = false → isFailed b = false → a = b.
Proof.
  intros HO Ha Hb Ht Hia Hib Hfa Hfb.
  pose proof (own_listed r HO a t Ha Ht Hia) as H1. pose proof (own_listed r HO b t Hb Ht Hib) as H2.
  eapply (key_inj aId); [apply (own_attempts r HO)|done|done|].
  unfold isFailed in *. destruct (aStatus a), (aStatus b); simpl in *; try done; naive_solver congruence.
Qed.

(** A pending or detached task is listed by failed attempts only. *)
Lemma own_detached r a t :
  Own r → a ∈ attempts r → t ∈ tasks r → tId t ∈ aTaskIds a → detached (tStatus t) → isFailed a = true.
Proof.
  intros HO Ha Ht Hi [H1 H2]. pose proof (own_listed r HO a t Ha Ht Hi) as Ho. unfold isFailed.
  destruct (aStatus a), (tStatus t); simpl in *; naive_solver.
Qed.

Lemma attemptTask_failed a i ts : isFailed a = true → attemptTask (aStatus a) i ts.
Proof. unfold isFailed. by destruct (aStatus a). Qed.

Lemma Own_pend r f :
  Own r → (∀ t, t ∈ tasks r → pendStep t (f t)) → Own (withTasks r (f <$> tasks r)).
Proof.
  intros HO Hf. split; simpl; [|apply (own_attempts r HO)|].
  - rewrite fmap_key; [apply (own_tasks r HO)|]. intros t Ht. by apply core_id, pendStep_core, Hf.
  - intros a u Ha (t & -> & Ht)%list_elem_of_fmap Hi. pose proof (Hf t Ht) as Hs.
    rewrite (core_id _ _ (pendStep_core _ _ Hs)) in Hi. destruct Hs as [->|(Hp & _)].
    + by apply (own_listed r HO).
    + apply attemptTask_failed. eapply own_detached; [done|done|exact Ht|done|by apply pending_detached].
Qed.

Lemma Own_sub r ts ats ps :
  Own r → sublist ts (tasks r) → sublist ats (attempts r) →
  Own {| tasks := ts; attempts := ats; policySnapshots := ps |}.
Proof.
  intros [H1 H2 H3] Ht Ha. split; simpl.
  - eapply sublist_NoDup; [exact H1|by apply fmap_sublist].
  - eapply sublist_NoDup; [exact H2|by apply fmap_sublist].
  - intros a t Hain Htin. apply H3; by eapply elem_of_sublist.
Qed.

Lemma Own_claim r a (g : FollowupTaskRecord → FollowupTaskRecord) :
  Own r → aId a ∉ aId <$> attempts r → aStatus a = AChecking →
  (∀ u, u ∈ tasks r → tId u ∉ aTaskIds a → g u = u) →
  (∀ u, u ∈ tasks r → tId u ∈ aTaskIds a →
     isPending u = true ∧ sameCore u (g u) ∧ tStatus (g u) = TChecking (aId a)) →
  Own {| tasks := g <$> tasks r; attempts := attempts r ++ [a]; policySnapshots := policySnapshots r |}.
Proof.
  intros HO Hfresh Hs Hother Hlisted.
  assert (∀ u, u ∈ tasks r → tId (g u) = tId u) as Hid.
  { intros u Hu. destruct (decide (tId u ∈ aTaskIds a)) as [Hi|Hi]; [|by rewrite Hother].
    by destruct (Hlisted u Hu Hi) as (_ & ? & _); apply core_id. }
  split; simpl.
  - rewrite fmap_key; [apply (own_tasks r HO)|done].
  - rewrite fmap_app. apply NoDup_app. split; [apply (own_attempts r HO)|].
    split; [|apply NoDup_singleton]. csimpl. intros i Hi ->%list_elem_of_singleton. done.
  - intros b u Hb (t & -> & Ht)%list_elem_of_fmap Hi. rewrite Hid in Hi by done.
    apply elem_of_app in Hb as [Hb|Hb%list_elem_of_singleton].
    + destruct (decide (tId t ∈ aTaskIds a)) as [Hia|Hia]; [|rewrite Hother by done; by apply (own_listed r HO)].
      apply attemptTask_failed. eapply own_detached; [done|done|exact Ht|done|].
      apply pending_detached. by apply Hlisted.
    + subst b. rewrite Hs. by apply (Hlisted t).
Qed.

Lemma Own_settle r a s f :
  Own r → a ∈ attempts r → isActiveAttempt a = true →
  (∀ t, t ∈ tasks r → tId t ∉ aTaskIds a → f t = t) →
  (∀ t, t ∈ tasks r → tId t ∈ aTaskIds a → settleStep a s t (f t)) →
  Own (withTasksAttempt r (f <$> tasks r) (setAttemptStatus a s)).
Proof.
  intros HO Ha Hact Hother Hlisted.
  assert (∀ t, t ∈ tasks r → tId (f t) = tId t) as Hid.
  { intros t Ht. destruct (decide (tId t ∈ aTaskIds a)) as [Hi|Hi]; [|by rewrite Hother].
    by destruct (Hlisted t Ht Hi) as (? & _); apply core_id. }
  split; simpl.
  - rewrite fmap_key; [apply (own_tasks r HO)|done].
  - rewrite replaceAttempt_ids. apply (own_attempts r HO).
  - unfold replaceAttempt. intros b u (c & -> & Hc)%list_elem_of_fmap (t & -> & Ht)%list_elem_of_fmap Hi.
    rewrite Hid in Hi by done. simpl in *. destruct (decide (aId c = aId a)) as [E|E]; simpl in *.
    + by destruct (Hlisted t Ht Hi) as (_ & _ & ? & _).
    + destruct (decide (tId t ∈ aTaskIds a)) as [Hia|Hia]; [|rewrite Hother by done; by apply (own_listed r HO)].
      apply attemptTask_failed. destruct (isFailed c) eqn:Ef; [done|]. exfalso. apply E. f_equal.
      eapply own_exclusive; [done|done|done|exact Ht|done|done|done|].
      unfold isFailed. unfold isActiveAttempt in Hact. by destruct (aStatus a).
Qed.

(** New ids are not those of tasks the file knows. *)
Definition unlisted (cmd : Command) r : Prop :=
  ∀ cs thr (cand : BoundTaskCandidate) i, cmd = CAdmit cs thr → (cand, i) ∈ cs →
  ∀ b, b ∈ attempts r → i ∉ aTaskIds b.

Lemma shape_Own cmd nowMs r r' : Own r → unlisted cmd r → shape cmd nowMs r r' → Own r'.
Proof.
  intros HO Hun [f ts ats ps Hf Hts Hats|t0 ps Hp _ _ _ Hnd (cs & thr & cand & -> & Hcs)
    |f g a input -> Hf Hfresh Hs _ Hother Hlisted _|a s f Ha Hact _ Hother Hlisted].
  - exact (Own_sub (withTasks r (f <$> tasks r)) ts ats ps (Own_pend r f HO Hf) Hts Hats).
  - split; simpl; [done|apply (own_attempts r HO)|].
    intros b t Hb [Ht|Ht%list_elem_of_singleton]%elem_of_app Hi; [by apply (own_listed r HO)|].
    subst t. by destruct (Hun _ _ _ _ eq_refl Hcs b Hb).
  - apply (Own_claim (withTasks r (f <$> tasks r)) a g (Own_pend r f HO Hf)); [done|done|done|].
    intros u Hu Hi. destruct (Hlisted u Hu Hi) as (? & ? & ? & _). auto.
  - by apply Own_settle.
Qed.

(** ** Steps of a task *)

(** The life of a task. *)
Inductive statusStep : TaskStatus → TaskStatus → Prop :=
| ss_same s : statusStep s s
| ss_reschedule n n' : statusStep (TPending n) (TPending n')
| ss_claim n i : statusStep (TPending n) (TChecking i)
| ss_expire n m : statusStep (TPending n) (TExpired None m)
| ss_cancel n m : statusStep (TPending n) (TCancelled m)
| ss_send i : statusStep (TChecking i) (TDelivering i)
| ss_dismiss i m : statusStep (TChecking i) (TDismissed i m)
| ss_delivered i m : statusStep (TDelivering i) (TDelivered i m)
| ss_partial i m : statusStep (TDelivering i) (TDeliveryPartial i m)
| ss_unknown i m : statusStep (TDelivering i) (TDeliveryUnknown i m)
| ss_retry s i n : activeAttemptId s = Some i → statusStep s (TPending n)
| ss_fail s i m : activeAttemptId s = Some i → statusStep s (TExpired (Some i) m).

(** At most four failures, and at most three of a task that is not over. *)
Definition retryOk t : Prop :=
  tPreAcceptanceFailureCount t <= 4 ∧ (isActiveTask t = true → tPreAcceptanceFailureCount t <= 3).

Record taskStep t u : Prop := {
  ts_core : sameCore t u;
  ts_final : isActiveTask t = false → u = t;
  ts_status : statusStep (tStatus t) (tStatus u);
  ts_retry : retryOk t → retryOk u;
}.

Lemma taskStep_refl t : taskStep t t.
Proof. split; auto using ss_same. Qed.

Lemma taskStep_pend t u : pendStep t u → taskStep t u.
Proof.
  intros [->|(Hp & Hc & Hf & Hs)]; [apply taskStep_refl|]. unfold isPending in Hp.
  destruct (tStatus t) as [n| | | | | | | |] eqn:Est; try done. split; [done| | |].
  - unfold isActiveTask. by rewrite Est.
  - rewrite Est. destruct Hs as [[k ->]|[[m ->]|[m ->]]]; constructor.
  - intros [H1 H2]. unfold isActiveTask in H2. rewrite Est in H2. specialize (H2 eq_refl).
    split; intros; lia.
Qed.

Lemma pending_inv t u n : pendStep t u → tStatus u = TPending n → isPending t = true.
Proof. intros [->|(? & _)]; [|done]. unfold isPending. by intros ->. Qed.

Lemma taskStep_claim t u w i :
  pendStep t u → isPending u = true → sameCore u w → tStatus w = TChecking i →
  tPreAcceptanceFailureCount w = tPreAcceptanceFailureCount u → taskStep t w.
Proof.
  intros Hs Hu [? ? ? ?] Hw Hf. pose proof (pendStep_core _ _ Hs) as [? ? ? ?].
  assert (isPending t = true ∧ tPreAcceptanceFailureCount u = tPreAcceptanceFailureCount t) as [Ht Hfu].
  { destruct Hs as [->|(? & _ & ? & _)]; auto. }
  unfold isPending in Ht. destruct (tStatus t) as [n| | | | | | | |] eqn:Est; try done. split.
  - split; congruence.
  - unfold isActiveTask. by rewrite Est.
  - rewrite Est, Hw. constructor.
  - intros [H5 H6]. unfold isActiveTask in H6. rewrite Est in H6. specialize (H6 eq_refl).
    split; intros; lia.
Qed.

Lemma taskStep_settle r a s t u :
  Own r → a ∈ attempts r → isActiveAttempt a = true → attemptStep (aStatus a) s →
  t ∈ tasks r → tId t ∈ aTaskIds a → settleStep a s t u → taskStep t u.
Proof.
  intros HO Ha Hact Hstep Ht Hi (Hc & Hf & Hat & Hst). pose proof (own_active r HO a t Ha Hact Ht Hi) as Hown.
  pose proof (own_listed r HO a t Ha Ht Hi) as Hold.
  assert (isActiveTask t = true) as Hta by (unfold isActiveTask; by destruct (tStatus t)).
  split; [done|congruence| |].
  - unfold isActiveAttempt in Hact. destruct (aStatus a); try done; simpl in Hold; rewrite Hold in *.
    all: destruct s; try done; simpl in *;
      try match goal with
      | Hx : ∃ _, tStatus ?x = _ |- _ => destruct Hx as [? ->]; constructor
      | Hx : tStatus ?x = _ |- statusStep _ (tStatus ?x) => rewrite Hx; constructor
      end.
    all: destruct Hst as [[? ->]|[? ->]]; econstructor; done.
  - intros [H1 H2]. specialize (H2 Hta). destruct Hf as [Hf|[Hf Hle]]; split; intros; try lia. auto.
Qed.

(** A change other than a creation maps the tasks, dropping some. *)
Lemma shape_tasks cmd nowMs r r' :
  Own r → shape cmd nowMs r r' →
  (∃ h, (∀ t, t ∈ tasks r → taskStep t (h t)) ∧ sublist (tasks r') (h <$> tasks r)) ∨
  (∃ t0, tasks r' = tasks r ++ [t0] ∧ isPending t0 = true ∧ tPreAcceptanceFailureCount t0 = 0 ∧
     (∀ t, t ∈ tasks r → isActiveTask t = true → tDedupeKey t ≠ tDedupeKey t0) ∧
     activeTaskCount r < MAX_ACTIVE_FOLLOWUP_TASKS ∧ NoDup (tId <$> tasks r')).
Proof.
  intros HO [f ts ats ps Hf Hts Hats|t0 ps Hp Hf Hd Hact Hnd _
    |f g a input -> Hf Hfresh Hs _ Hother Hlisted _|a s f Ha Hact Hstep Hother Hlisted].
  - left. exists f. split; [|done]. intros t Ht. by apply taskStep_pend, Hf.
  - right. by exists t0.
  - left. exists (g ∘ f). rewrite list_fmap_compose. split; [|done]. intros t Ht. simpl.
    assert (f t ∈ f <$> tasks r) as Hft by (apply list_elem_of_fmap; by exists t).
    destruct (decide (tId (f t) ∈ aTaskIds a)) as [Hi|Hi].
    + destruct (Hlisted _ Hft Hi) as (H1 & H2 & H3 & H4). by eapply taskStep_claim; [by apply Hf|..].
    + rewrite Hother by done. by apply taskStep_pend, Hf.
  - left. exists f. split; [|done]. intros t Ht. destruct (decide (tId t ∈ aTaskIds a)) as [Hi|Hi].
    + by eapply taskStep_settle; [..|by apply Hlisted].
    + rewrite Hother by done. apply taskStep_refl.
Qed.

(** ** The daily cap *)

Definition countsAt (tenant agent ref : string) (cutoff : Z) a : bool :=
  sameConversation a tenant agent ref &&
  (isActiveAttempt a || match visibleAtMs (aStatus a) with Some v => cutoff <=? v | None => false end).

Definition countAt (tenant agent ref : string) (cutoff : Z) (l : list FollowupTaskAttemptRecord) : nat :=
  length (filter (fun a => countsAt tenant agent ref cutoff a = true) l).

Lemma countAt_cons tenant agent ref cutoff a l :
  countAt tenant agent ref cutoff (a :: l) =
  ((if countsAt tenant agent ref cutoff a then 1 else 0) + countAt tenant agent ref cutoff l)%nat.
Proof.
  unfold countAt. rewrite filter_cons. by destruct (countsAt tenant agent ref cutoff a).
Qed.

Lemma reserve_count l tenant agent ref cutoff n next :
  (reserve l tenant agent ref cutoff n next).1 = n + Z.of_nat (countAt tenant agent ref cutoff l).
Proof.
  revert n next. induction l as [|a l IH]; intros n next; simpl; [unfold countAt; simpl; lia|].
  rewrite countAt_cons. unfold countsAt.
  destruct (sameConversation a tenant agent ref); simpl; [|apply IH].
  destruct (isActiveAttempt a); simpl; [rewrite IH; lia|].
  destruct (visibleAtMs (aStatus a)) as [v|]; [|apply IH].
  rewrite Z.leb_antisym. destruct (v <? cutoff); simpl; [apply IH|]. rewrite IH. lia.
Qed.

(** When each attempt started, its conversation was within the cap. *)
Definition capInv (N : Z) (l : list FollowupTaskAttemptRecord) : Prop :=
  ∀ l1 a l2, l = l1 ++ a :: l2 →
  Z.of_nat (countAt (aTenantId a) (aAgentId a) (aConversationRef a) (aStartedAtMs a - ROLLING_DAY_MS) (l1 ++ [a])) <= N.

Lemma countAt_sublist tenant agent ref cutoff l k :
  sublist l k → (countAt tenant agent ref cutoff l <= countAt tenant agent ref cutoff k)%nat.
Proof.
  unfold countAt. induction 1 as [|x l k _ IH|x l k _ IH]; [done| |];
    rewrite !filter_cons; case_decide; simpl; lia.
Qed.

Lemma countAt_fmap tenant agent ref cutoff (g : FollowupTaskAttemptRecord → FollowupTaskAttemptRecord) l :
  (∀ x, x ∈ l → countsAt tenant agent ref cutoff (g x) = true → countsAt tenant agent ref cutoff x = true) →
  (countAt tenant agent ref cutoff (g <$> l) <= countAt tenant agent ref cutoff l)%nat.
Proof.
  unfold countAt. induction l as [|x l IH]; intros Hg; [done|]. rewrite fmap_cons, !filter_cons.
  assert (∀ y, y ∈ l → countsAt tenant agent ref cutoff (g y) = true → countsAt tenant agent ref cutoff y = true) as Hg'
    by (intros; apply Hg; [by right|done]).
  specialize (IH Hg'). pose proof (Hg x ltac:(left)). repeat case_decide; simpl; try lia. tauto.
Qed.

Lemma capInv_sublist N l k : sublist l k → capInv N k → capInv N l.
Proof.
  intros Hs Hk l1 a l2 ->. apply sublist_app_l in Hs as (k1 & k2 & -> & H1 & H2).
  apply sublist_cons_l in H2 as (k3 & k4 & -> & H4).
  specialize (Hk (k1 ++ k3) a k4 ltac:(by rewrite <- (assoc_L (++)))).
  pose proof (countAt_sublist (aTenantId a) (aAgentId a) (aConversationRef a) (aStartedAtMs a - ROLLING_DAY_MS)
    (l1 ++ [a]) ((k1 ++ k3) ++ [a])) as Hc.
  assert (sublist (l1 ++ [a]) ((k1 ++ k3) ++ [a])) as Hsub.
  { apply sublist_app; [|done]. rewrite <- (app_nil_r l1). apply sublist_app; [done|apply sublist_nil_l]. }
  specialize (Hc Hsub). lia.
Qed.

Lemma capInv_settle N r a s :
  Own r → a ∈ attempts r → isActiveAttempt a = true →
  capInv N (attempts r) → capInv N (replaceAttempt (attempts r) (setAttemptStatus a s)).
Proof.
  intros HO Ha Hact Hcap l1 b l2 Hl.
  set (g := fun x => if decide (aId x = aId (setAttemptStatus a s)) then setAttemptStatus a s else x).
  change (g <$> attempts r = l1 ++ b :: l2) in Hl.
  apply fmap_app_inv in Hl as (k1 & k2 & -> & Hk & Hl). symmetry in Hk.
  apply fmap_cons_inv in Hk as (c & k3 & -> & -> & ->).
  assert (∀ x, x ∈ attempts r → ∀ te ag re cu, countsAt te ag re cu (g x) = true → countsAt te ag re cu x = true) as Hg.
  { intros x Hx te ag re cu. unfold g. simpl. case_decide as E; [|done].
    assert (x = a) as -> by (by eapply (key_inj aId); [apply (own_attempts r HO)| | |]).
    unfold countsAt, sameConversation. simpl. rewrite Hact. intros. bools; by apply bool_decide_eq_true || done. }
  assert (c ∈ attempts r) as Hc by (rewrite Hl; apply elem_of_app; right; left).
  assert (aTenantId (g c) = aTenantId c ∧ aAgentId (g c) = aAgentId c ∧ aConversationRef (g c) = aConversationRef c ∧
          aStartedAtMs (g c) = aStartedAtMs c) as (-> & -> & -> & ->).
  { unfold g. simpl. case_decide as E; [|done].
    assert (c = a) as -> by (by eapply (key_inj aId); [apply (own_attempts r HO)| | |]). done. }
  specialize (Hcap k1 c k3 Hl).
  change ([g c]) with (g <$> [c]). rewrite <- fmap_app.
  etrans; [|exact Hcap]. apply Nat2Z.inj_le, countAt_fmap. intros x Hx. apply Hg. rewrite Hl.
  apply elem_of_app in Hx as [Hx|Hx%list_elem_of_singleton]; apply elem_of_app; [by left|right; subst; left].
Qed.

Lemma capInv_claim N l a :
  capInv N l →
  (reserve l (aTenantId a) (aAgentId a) (aConversationRef a) (aStartedAtMs a - ROLLING_DAY_MS) 0 None).1 < N →
  capInv N (l ++ [a]).
Proof.
  intros Hcap Hres l1 b l2 E. destruct l2 as [|x l2 _] using rev_ind.
  - apply app_inj_tail in E as [<- <-]. rewrite reserve_count in Hres.
    unfold countAt in *. rewrite filter_app, length_app. 
    assert (length (filter (fun x => countsAt (aTenantId a) (aAgentId a) (aConversationRef a)
      (aStartedAtMs a - ROLLING_DAY_MS) x = true) [a]) <= 1)%nat.
    { rewrite filter_cons. case_decide; simpl; lia. }
    lia.
  - rewrite app_comm_cons, (assoc_L (++)) in E. apply app_inj_tail in E as [-> ->]. by eapply Hcap.
Qed.

(** ** The invariant of a run *)

Record Inv (N : Z) r : Prop := {
  inv_own : Own r;
  inv_retry t : t ∈ tasks r → retryOk t;
  inv_dedupe t u : t ∈ tasks r → u ∈ tasks r → isActiveTask t = true → isActiveTask u = true →
    tDedupeKey t = tDedupeKey u → tId t = tId u;
  inv_active : activeTaskCount r <= MAX_ACTIVE_FOLLOWUP_TASKS;
  inv_cap : capInv N (attempts r);
}.

Lemma Inv_empty N : Inv N emptyRoot.
Proof.
  split.
  - split; simpl; [apply NoDup_nil_2|apply NoDup_nil_2|]. by intros ? ? ?%elem_of_nil.
  - by intros ? ?%elem_of_nil.
  - by intros ? ? ?%elem_of_nil.
  - unfold activeTaskCount, MAX_ACTIVE_FOLLOWUP_TASKS. simpl. lia.
  - by intros [|? ?] ? ? ?.
Qed.

Definition capped (N : Z) (cmd : Command) : Prop :=
  ∀ input, cmd = CClaim input → ciMaxPerDayPerConversation input <= N.

Lemma shape_cap N cmd nowMs r r' :
  Own r → capped N cmd → capInv N (attempts r) → shape cmd nowMs r r' → capInv N (attempts r').
Proof.
  intros HO Hcap HI [f ts ats ps Hf Hts Hats|t0 ps Hp Hf Hd Hact Hnd _
    |f g a input -> Hf Hfresh Hs Hst Hother Hlisted Hres|a s f Ha Hact Hstep Hother Hlisted]; simpl.
  - by eapply capInv_sublist.
  - done.
  - apply capInv_claim; [done|]. rewrite Hst. specialize (Hcap input eq_refl). lia.
  - by apply capInv_settle.
Qed.

Lemma activeCount_step (h : FollowupTaskRecord → FollowupTaskRecord) ts l :
  (∀ t, t ∈ l → taskStep t (h t)) → sublist ts (h <$> l) →
  (length (filter (fun t => isActiveTask t = true) ts) <= length (filter (fun t => isActiveTask t = true) l))%nat.
Proof.
  intros Hh Hs. transitivity (length (filter (fun t => isActiveTask t = true) (h <$> l))).
  - clear Hh. induction Hs as [|x ? ? _ IH|x ? ? _ IH]; [done| |]; rewrite !filter_cons; case_decide; simpl; lia.
  - clear Hs. induction l as [|t l IH]; [done|]. rewrite fmap_cons, !filter_cons.
    assert (∀ t, t ∈ l → taskStep t (h t)) as Hh' by (intros; apply Hh; by right). specialize (IH Hh').
    assert (taskStep t (h t)) as [_ Hfin _ _] by (apply Hh; left).
    repeat case_decide; simpl; try lia. exfalso. destruct (isActiveTask t) eqn:Et; [done|].
    rewrite Hfin in *; congruence.
Qed.

Lemma taskStep_active t u : taskStep t u → isActiveTask u = true → isActiveTask t = true.
Proof. intros [_ Hf _ _] Hu. destruct (isActiveTask t) eqn:Et; [done|]. rewrite Hf in Hu; congruence. Qed.

Lemma shape_Inv N cmd nowMs r r' :
  Inv N r → unlisted cmd r → capped N cmd → shape cmd nowMs r r' → Inv N r'.
Proof.
  intros [HO Hre Hde Hac Hca] Hun Hcap Hs. split.
  - by eapply shape_Own.
  - destruct (shape_tasks _ _ _ _ HO Hs) as [(h & Hh & Hsub)|(t0 & -> & Hp & Hf & _)].
    + intros u Hu. eapply elem_of_sublist in Hu; [|done]. apply list_elem_of_fmap in Hu as (t & -> & Ht).
      by apply (ts_retry _ _ (Hh t Ht)), Hre.
    + intros u [Hu|Hu%list_elem_of_singleton]%elem_of_app; [by apply Hre|]. subst. split; [|intros _]; lia.
  - destruct (shape_tasks _ _ _ _ HO Hs) as [(h & Hh & Hsub)|(t0 & -> & Hp & Hf & Hd & _)].
    + intros t u Ht Hu Hta Hua He. eapply elem_of_sublist in Ht, Hu; [|done|done].
      apply list_elem_of_fmap in Ht as (t' & -> & Ht). apply list_elem_of_fmap in Hu as (u' & -> & Hu).
      pose proof (Hh t' Ht) as S1. pose proof (Hh u' Hu) as S2.
      pose proof (ts_core _ _ S1) as [-> _ _ E1]. pose proof (ts_core _ _ S2) as [-> _ _ E2].
      apply Hde; [done|done|by eapply taskStep_active|by eapply taskStep_active|congruence].
    + intros t u [Ht|Ht%list_elem_of_singleton]%elem_of_app [Hu|Hu%list_elem_of_singleton]%elem_of_app Hta Hua He;
        subst; [by apply Hde|by destruct (Hd t Ht Hta)|by destruct (Hd u Hu Hua)|done].
  - destruct (shape_tasks _ _ _ _ HO Hs) as [(h & Hh & Hsub)|(t0 & E & Hp & Hf & Hd & Hlt & _)].
    + unfold activeTaskCount in *. pose proof (activeCount_step h _ _ Hh Hsub). lia.
    + unfold activeTaskCount in *. rewrite E, filter_app, length_app, filter_cons. case_decide; simpl; lia.
  - by eapply shape_cap.
Qed.

Lemma parse_Inv N r r' : parseFollowupTaskStoreFile r = Ok r' → Inv N r → Inv N r'.
Proof.
  intros Hp [HO Hre Hde Hac Hca]. pose proof (parse_Own r r' Hp HO) as HO'.
  apply parse_same in Hp as [Ha Ht].
  assert (∀ t u, sameParsed t u → isActiveTask u = isActiveTask t) as Hact.
  { intros t u [_ _ _ _ Es _ _]. unfold isActiveTask. by rewrite Es. }
  split; [done| | | |by rewrite Ha].
  - intros u Hu. destruct (parsed_elem _ _ _ Ht Hu) as (t & Hin & Hs). pose proof (Hact t u Hs) as E.
    destruct Hs as [_ _ _ Ef _ _ _]. unfold retryOk in *. rewrite Ef, E. by apply Hre.
  - intros u v Hu Hv Hua Hva He.
    destruct (parsed_elem _ _ _ Ht Hu) as (t & Hin & Hs). destruct (parsed_elem _ _ _ Ht Hv) as (w & Hin' & Hs').
    rewrite (Hact _ _ Hs) in Hua. rewrite (Hact _ _ Hs') in Hva.
    destruct Hs as [-> _ E1 _ _ _ _], Hs' as [-> _ E2 _ _ _ _]. apply Hde; congruence.
  - unfold activeTaskCount in *.
    assert (length (filter (fun t => isActiveTask t = true) (tasks r')) =
            length (filter (fun t => isActiveTask t = true) (tasks r))) as ->; [|done].
    clear -Ht Hact. induction Ht as [|t u l k Hs _ IH]; [done|].
    rewrite !filter_cons, (Hact t u Hs). case_decide; simpl; lia.
Qed.

(** ** Reachable stores *)

(** The id factory does not return the id of a task in the file. *)
Definition freshIds (cmd : Command) (d : Disk) : Prop :=
  ∀ cs thr (cand : BoundTaskCandidate) i, cmd = CAdmit cs thr → (cand, i) ∈ cs → i ∉ tId <$> tasks (rootOf d).

(** Runs that start without a file, with restarts of the process, and claims
    with a daily cap of at most [N]. *)
Inductive reachable (N : Z) : Store → Prop :=
| reach_start : reachable N {| initialized := false; disk := DMissing; quarantine := None |}
| reach_restart st : reachable N st → reachable N {| initialized := false; disk := disk st; quarantine := quarantine st |}
| reach_exec st cmd io :
    reachable N st → freshIds cmd (disk st) → capped N cmd → reachable N (exec options cmd st io).

Lemma admit_attempts cs thr nowMs r r' :
  change options (CAdmit cs thr) nowMs r r' → attempts r' ⊆ attempts r.
Proof.
  intros Hch. inversion Hch as [? ? Hm| |? ? ? ? ? ? ? ? ? Hadm| | | | | |]; subst; try done.
  - unfold maintainRoot in Hm. case_match; simplify_eq. simpl. intros a Ha.
    by apply list_elem_of_filter in Ha as [_ ?].
  - unfold admitTaskCandidate in Hadm. destruct (validateCandidate c); [|done].
    assert (∀ w, admitChecked r c nowMs newId MAX_ACTIVE_FOLLOWUP_TASKS encodedWithinCapacity w = Ok (Some r', v) →
      attempts r' ⊆ attempts r) as Hx; [|repeat case_match; try done; by eapply Hx].
    intros w. unfold admitChecked. repeat case_match; intros; by simplify_eq/=.
Qed.

Lemma rtc_Inv N cmd nowMs r0 r r' :
  rtc (change options cmd nowMs) r r' → capped N cmd →
  (∀ cs thr (cand : BoundTaskCandidate) i, cmd = CAdmit cs thr → (cand, i) ∈ cs →
     ∀ b, b ∈ attempts r0 → i ∉ aTaskIds b) →
  (∀ cs thr, cmd = CAdmit cs thr → attempts r ⊆ attempts r0) →
  Inv N r → Inv N r'.
Proof.
  intros Hrtc Hcap Hfresh. induction Hrtc as [|r r1 r2 Hch _ IH]; intros Hsub HI; [done|].
  apply IH.
  - intros cs thr ->. etrans; [by eapply admit_attempts|by eapply Hsub].
  - eapply shape_Inv; [done| |done|eapply change_shape; [apply HI|exact Hch]].
    intros cs thr cand i -> Hin b Hb. eapply Hfresh; [done|done|]. by eapply Hsub.
Qed.

Lemma trusted_exec cmd st io : trusted (disk st) → trusted (disk (exec options cmd st io)).
Proof.
  intros Ht. destruct (exec_step options cmd st io Ht) as [->|(r' & -> & r1 & _ & Hp)]; [done|].
  simpl. by eapply parse_parse.
Qed.

Lemma reachable_Store_Inv N st : reachable N st → trusted (disk st) ∧ Inv N (rootOf (disk st)).
Proof.
  induction 1 as [|st _ [IHt IH]|st cmd io _ [IHt IH] Hfr Hcap]; [split; [done|apply Inv_empty]|done|].
  split; [by apply trusted_exec|].
  destruct (exec_step options cmd st io IHt) as [->|(r' & -> & r1 & Hrtc & Hp)]; [done|]. simpl.
  eapply parse_Inv; [exact Hp|]. eapply rtc_Inv; [exact Hrtc|done| |done|done].
  intros cs thr cand i -> Hin b Hb Hi. eapply Hfr; [done|done|].
  destruct (disk st) as [| | | |r]; try (by apply elem_of_nil in Hb). simpl in *.
  apply parse_wf in IHt as [Hwf _]. pose proof (wf_links r Hwf b i Hb Hi) as Hl. unfold attemptLinkOk in Hl.
  destruct (findTask (tasks r) i) as [t|] eqn:Et; [|done]. apply findTask_Some in Et as [Ht <-].
  apply list_elem_of_fmap. by exists t.
Qed.

Lemma attempt_visible_after a v :
  FollowupTaskAttemptRecordSchema a = true → visibleAtMs (aStatus a) = Some v → aStartedAtMs a <= v.
Proof.
  unfold FollowupTaskAttemptRecordSchema, attemptTimesOk. intros Hs Hv.
  destruct (aStatus a); simplify_eq/=; bools; lia.
Qed.

(** The last element of a list with a decidable property. *)
Lemma filter_last {A} (P : A → Prop) `{!∀ x, Decision (P x)} (l : list A) :
  filter P l = [] ∨ ∃ l1 x l2, l = l1 ++ x :: l2 ∧ P x ∧ filter P l = filter P (l1 ++ [x]).
Proof.
  induction l as [|x l IH] using rev_ind; [by left|]. rewrite filter_app, filter_cons. case_decide as Hx.
  - right. exists l, x, []. split; [done|]. split; [done|]. rewrite filter_app, filter_cons.
    by rewrite decide_True.
  - rewrite filter_nil, app_nil_r. destruct IH as [->|(l1 & y & l2 & -> & Hy & E)]; [by left|].
    right. exists l1, y, (l2 ++ [x]). rewrite E. split; [by rewrite <- (assoc_L (++))|done].
Qed.

(** ** The life of a task along a command *)

Definition continues (t0 u : FollowupTaskRecord) : Prop :=
  tId t0 = tId u ∧ rtc statusStep (tStatus t0) (tStatus u) ∧
  (isActiveTask t0 = false → tStatus u = tStatus t0).

Lemma continues_step t0 t u : continues t0 t → taskStep t u → continues t0 u.
Proof.
  intros (Hi & Hs & Hf) [Hc Hfin Hst _]. split; [by rewrite (core_id _ _ Hc)|].
  split; [by eapply rtc_r|]. intros Hin. specialize (Hf Hin). rewrite Hfin; [done|].
  unfold isActiveTask in *. by rewrite Hf.
Qed.

Lemma rtc_life N cmd nowMs r0 r :
  rtc (change options cmd nowMs) r0 r → Inv N r0 → unlisted cmd r0 → capped N cmd →
  Inv N r ∧ (∀ cs thr, cmd = CAdmit cs thr → attempts r ⊆ attempts r0) ∧
  ∀ u, u ∈ tasks r → (∃ t0, t0 ∈ tasks r0 ∧ continues t0 u) ∨
    ∃ cs thr (cand : BoundTaskCandidate), cmd = CAdmit cs thr ∧ (cand, tId u) ∈ cs.
Proof.
  intros Hrtc HI Hun Hcap. revert r Hrtc. refine (rtc_ind_r _ _ _ _).
  { split; [done|]. split; [done|]. intros u Hu. left. exists u. split; [done|]. by split. }
  intros r1 r2 _ Hch (HI1 & Hsub & Hlife).
  pose proof (change_shape options cmd nowMs r1 r2 (inv_own _ _ HI1) Hch) as Hshape. split; [|split].
  - eapply shape_Inv; [exact HI1| |done|exact Hshape].
    intros cs thr cand i -> Hin b Hb. eapply Hun; [done|done|]. by eapply Hsub.
  - intros cs thr ->. etrans; [by eapply admit_attempts|by eapply Hsub].
  - intros u Hu. destruct (shape_tasks _ _ _ _ (inv_own _ _ HI1) Hshape) as [(h & Hh & Hs)|(t0 & E & _)].
    + eapply elem_of_sublist in Hu; [|done]. apply list_elem_of_fmap in Hu as (t & -> & Ht).
      destruct (Hlife t Ht) as [(t0 & Ht0 & Hc)|(cs & thr & cand & -> & Hin)].
      * left. exists t0. split; [done|]. eapply continues_step; [done|by apply Hh].
      * right. exists cs, thr, cand. split; [done|]. by rewrite (core_id _ _ (ts_core _ _ (Hh t Ht))).
    + inversion Hshape as [? ? ? ? Hf Hts|t1 ? ? ? ? ? ? (cs & thr & cand & -> & Hin)| |]; subst; simpl in *.
      * apply (elem_of_sublist _ _ _ Hu) in Hts. apply list_elem_of_fmap in Hts as (t & -> & Ht).
        destruct (Hlife t Ht) as [(t2 & Ht2 & Hc)|(cs & thr & cand & -> & Hin)].
        -- left. exists t2. split; [done|]. eapply continues_step; [done|by apply taskStep_pend, Hf].
        -- right. exists cs, thr, cand. split; [done|]. by rewrite (core_id _ _ (pendStep_core _ _ (Hf t Ht))).
      * apply elem_of_app in Hu as [Hu|Hu%list_elem_of_singleton]; [by apply Hlife|]. subst. right. eauto.
      * apply (f_equal length) in E. rewrite length_app, !length_fmap in E. simpl in E. lia.
      * apply (f_equal length) in E. rewrite length_app, length_fmap in E. simpl in E. lia.
Qed.

End Safety.
End TaskStoreSafety.
