(* ===== verification/TaskStoreTheorems.v ===== *)
(** * What the follow-up task store guarantees

  The theorems of the follow-up task store, each with a run of a small store
  that meets its hypotheses, and the two situations in which an operation that
  should succeed reports a full store. *)

From Stdlib Require Import Ascii QArith_base.
From S2P Require Import Prelude ConversationScope CanonicalJson TaskTypes TaskTransitions TaskAdmission TaskQuarantine TaskStore.
From S2P Require Import TaskStoreTypes TaskStoreInvariants TaskStoreSoundness TaskStoreSteps TaskStoreShapes TaskStoreSafety.

Open Scope string_scope.
Open Scope list_scope.
Open Scope Z_scope.

Module TaskStoreTheorems.
Import TaskTypes TaskTransitions TaskAdmission TaskQuarantine TaskStore TaskStoreTypes TaskStoreInvariants TaskStoreSoundness
  TaskStoreSteps TaskStoreShapes TaskStoreSafety.

(** ** A small store *)

Module Sample.

Fixpoint repeatChar (c : ascii) (n : nat) : string :=
  match n with O => "" | S n => String c (repeatChar c n) end.

(** Digests that depend on the length of the text, no trimming, clean texts. *)
#[export] Instance platform : TaskPlatform := {|
  sha256base64url _ := repeatChar "A" 43;
  sha256hex s := repeatChar (CanonicalJson.hexDigit (String.length s mod 16)) 64;
  trim s := s;
  isCanonicalLocale _ := true;
  normalizeText s := s;
  validateMemoryWrite _ := Clean;
  localeCompare _ _ := 0;
  storeText _ := "store";
  taskText t := tId t;
  attemptText a := aId a;
  policyText p := wpCombinedHash p;
  trim_trim s := eq_refl;
|}.

Definition origin : BackgroundTaskOrigin :=
  {| oTurnScope :=
       {| ConversationScope.conversation :=
            {| ConversationScope.tenantId := "acme"; ConversationScope.agentId := "helper";
               ConversationScope.partition := ConversationScope.PAgent |};
          ConversationScope.principal := "ana";
          ConversationScope.endpoint :=
            {| ConversationScope.channelType := "chat"; ConversationScope.channelInstanceId := "one";
               ConversationScope.conversationId := "room"; ConversationScope.threadId := None;
               ConversationScope.conversationKind := ConversationScope.Direct |} |};
     oConversationRef := "cv_" +:+ repeatChar "A" 43;
     oDeliveryOrigin := {| doChannelType := "chat"; doChannelId := "room"; doUserId := "ana";
                           doThreadId := None; doTenantId := "acme" |};
     oTraceId := None; oTrustLevel := User;
     oResponseLocalePolicy := {| lpLocale := None; lpSource := LUnset; lpTranslationTarget := None;
                                 lpEnforceLocale := false |};
     oBackgroundHopCount := 0 |}.

Definition policy : WorkspacePolicySnapshot :=
  {| wpAgentId := "helper"; wpSections := []; wpCombinedHash := sha256hex "[]" |}.

Definition item (itemId : string) : TaskExtractionItem :=
  {| xItemId := itemId; xMinimumDueAtMs := 0; xSourceExecutionId := "run"; xOrigin := origin;
     xWorkspacePolicySnapshot := policy; xResponseLocalePolicy := oResponseLocalePolicy origin;
     xCapturedAtMs := 0 |}.

Definition candidate (text : string) (earliest latest : Z) : BoundTaskCandidate :=
  {| bItem := item text; bText := text; bConfidence := 1; bDueEarliestMs := earliest;
     bDueLatestMs := latest; bExpiresAtMs := MAX_TASK_LIFETIME_MS |}.

Definition check : SettledCheck :=
  {| scAgentExecutionId := "exec"; scModelResolved := "model"; scModelResolutionSource := AgentPrimary;
     scMetrics := {| emDurationMs := 1; emTotalTokens := 1; emCostUsd := 0; emLlmCalls := 1 |};
     scExecution := OCompleted |}.

Definition claimInput (attemptId : string) (perCheck perDay : Z) : ClaimInput :=
  {| ciAgentId := "helper"; ciBootId := "boot"; ciRootRunId := "root"; ciAttemptId := attemptId;
     ciMaxPerCheck := perCheck; ciMaxPerDayPerConversation := perDay |}.

Definition options (enabled : bool) : StoreOptions :=
  {| pathsAbsolute := true;
     getRuntimeConfig _ := Some {| rcEnabled := enabled; rcPreAcceptanceRetryLimit := 3; rcQuietUntilMs := None |} |}.

(** All goes well at a given time. *)
Definition at_ (nowMs : Z) : Io :=
  {| ioLock := LockAcquired; ioReadOk := true; ioRereadOk := true; ioWriteOk _ := true;
     ioQuarantine := {| qioOk _ := true; qioFailedWrite := emptyQuarantine |}; ioNow := nowMs |}.

Definition empty : Store := {| initialized := false; disk := DMissing; quarantine := None |}.

Definition day : Z := 24 * 60 * 60 * 1000.

(** Two tasks of one conversation, due from the first day on. *)
Definition admitted : list (Command * Io) :=
  [(CInitialize, at_ 0);
   (CAdmit [(candidate "call" 1000 (20 * day), "t1"); (candidate "email" 2000 (20 * day), "t2")] (1 # 2), at_ 0)].

(** Both are claimed and delivered. *)
Definition delivered : list (Command * Io) :=
  admitted ++
  [(CClaim (claimInput "a1" 2 3), at_ 5000);
   (CBegin "a1" check, at_ 6000);
   (CSettle "a1" (Accepted 1 None 6500 HAppended), at_ 7000)].

Definition run (cmds : list (Command * Io)) : Store := execAll (options true) cmds empty.

Definition statuses (st : Store) : list (string * TaskStatus) :=
  (fun t => (tId t, tStatus t)) <$> tasks (rootOf (disk st)).

Example delivered_statuses :
  statuses (run delivered) = [("t1", TDelivered "a1" 7000); ("t2", TDelivered "a1" 7000)].
Proof. vm_compute. reflexivity. Qed.

(** The tasks and attempts of a store, by position. *)
Definition taskAt (st : Store) (n : nat) : FollowupTaskRecord :=
  nth n (tasks (rootOf (disk st))) (createTask "none" (candidate "none" 0 0) false 0).
Definition attemptAt (st : Store) (n : nat) : FollowupTaskAttemptRecord :=
  nth n (attempts (rootOf (disk st)))
    {| aId := "none"; aBootId := "boot"; aRootRunId := "root"; aTaskIds := []; aTenantId := "acme";
       aAgentId := "helper"; aConversationRef := "none"; aStartedAtMs := 0; aStatus := AChecking |}.

(** The restrictions of a reachable store, checked on a run. *)
Definition freshb (cmd : Command) (d : Disk) : bool :=
  match cmd with
  | CAdmit cs _ => forallb (fun p => negb (bool_decide (p.2 ∈ tId <$> tasks (rootOf d)))) cs
  | _ => true
  end.
Definition cappedb (N : Z) (cmd : Command) : bool :=
  match cmd with CClaim input => ciMaxPerDayPerConversation input <=? N | _ => true end.

Fixpoint runOk (N : Z) (cmds : list (Command * Io)) (st : Store) : bool :=
  match cmds with
  | [] => true
  | (cmd, io) :: cmds' =>
      freshb cmd (disk st) && cappedb N cmd && runOk N cmds' (exec (options true) cmd st io)
  end.

Lemma runOk_reachable N cmds st :
  reachable (options true) N st → runOk N cmds st = true → reachable (options true) N (execAll (options true) cmds st).
Proof.
  revert st. induction cmds as [|[cmd io] cmds IH]; intros st Hst Hok; [done|]. simpl in Hok. bools.
  change (reachable (options true) N (execAll (options true) cmds (exec (options true) cmd st io))).
  apply IH; [|done]. apply reach_exec; [done| |].
  - intros cs thr cand i -> Hin. simpl in *.
    match goal with Hx : forallb _ _ = true |- _ => rewrite forallb_elem_of in Hx; specialize (Hx _ Hin) end.
    by bools.
  - intros input ->. simpl in *. by bools.
Qed.

(** Evidence of a model run that failed. *)
Definition failedCheck : SettledCheck :=
  {| scAgentExecutionId := "exec"; scModelResolved := "model"; scModelResolutionSource := AgentPrimary;
     scMetrics := scMetrics check; scExecution := OFailed FError KDependency |}.

(** Both tasks are tried together, and the check fails; later the first one is
    tried alone and delivered. *)
Definition retried : list (Command * Io) :=
  admitted ++
  [(CClaim (claimInput "a1" 2 3), at_ 5000);
   (CFail "a1" (PreSendFailure SModel KDependency (Settled failedCheck)), at_ 6000);
   (CClaim (claimInput "a2" 1 3), at_ 400000);
   (CBegin "a2" check, at_ 400100);
   (CSettle "a2" (Accepted 1 None 400200 HAppended), at_ 400300)].

Example retried_statuses :
  statuses (run retried) = [("t1", TDelivered "a2" 400300); ("t2", TPending 306000)].
Proof. vm_compute. reflexivity. Qed.

Lemma retried_reachable : reachable (options true) 3 (run retried).
Proof. apply runOk_reachable; [constructor|]. vm_compute. reflexivity. Qed.

(** One task with a short window is claimed. *)
Definition shortWindow : list (Command * Io) :=
  [(CInitialize, at_ 0);
   (CAdmit [(candidate "call" 1000 10000, "t1")] (1 # 2), at_ 0);
   (CClaim (claimInput "a1" 2 3), at_ 5000)].

Lemma delivered_reachable : reachable (options true) 3 (run delivered).
Proof. apply runOk_reachable; [constructor|]. vm_compute. reflexivity. Qed.
End Sample.

Section Theorems.
Context `{TaskPlatform} (options : StoreOptions).
Implicit Types (r : FollowupTaskStoreFile) (t u : FollowupTaskRecord) (a b : FollowupTaskAttemptRecord) (st : Store) (io : Io).

(** ** Helpers *)

Lemma writeRoot_ok st io r st' :
  writeRoot st io r = (st', Ok tt) → ∃ r', parseFollowupTaskStoreFile r = Ok r' ∧ disk st' = DRoot r'.
Proof.
  unfold writeRoot. destruct (encodeFollowupTaskStore r) as [r'|] eqn:E; [|done]. apply encode_parse in E.
  destruct (MAX_FOLLOWUP_TASK_STORE_BYTES <? encodedBytes r'); [done|]. unfold replaceDurableFile.
  repeat case_match; intros; simplify_eq/=. eauto.
Qed.

(** A successful mutation: the root it started from, what the change did, and
    what is on disk afterwards. *)
Lemma mutate_ok {A} st io (f : FollowupTaskStoreFile → Z → Result (option FollowupTaskStoreFile * A) StoreError) st' v :
  trusted (disk st) → mutate options st io f = (st', Ok v) →
  ∃ r new, disk st = DRoot r ∧ wf r ∧ f (default r (maintainRoot r (ioNow io))) (ioNow io) = Ok (new, v) ∧
  match (match new with Some r' => Some r' | None => maintainRoot r (ioNow io) end) with
  | None => disk st' = disk st
  | Some r2 => ∃ r3, parseFollowupTaskStoreFile r2 = Ok r3 ∧ disk st' = DRoot r3
  end.
Proof.
  intros Ht. unfold mutate, openRoot, withStoreLock.
  destruct (pathsAbsolute options); simpl; [|done]. destruct (ioLock io); try done.
  destruct (initialized st); simpl; [|done]. unfold readRoot. destruct (ioReadOk io); simpl; [|done].
  destruct (disk st) as [| | | |r] eqn:Ed; try done. simpl in Ht. rewrite Ht.
  destruct (MAX_FOLLOWUP_TASK_STORE_BYTES <? encodedBytes r); [done|].
  destruct (validTaskStoreTime (ioNow io)); simpl; [|done].
  destruct (f _ _) as [[new w]|] eqn:Ef; [|done]. destruct (negb _); [done|]. intros Hp.
  exists r, new. split; [done|]. split; [by apply parse_wf in Ht as [? _]|].
  destruct (match new with Some r' => Some r' | None => maintainRoot r (ioNow io) end) as [r2|]; simpl in Hp.
  - destruct (writeRoot st io r2) as [st2 [[]|]] eqn:Ew; [|done]. simplify_eq/=. split; [done|].
    by apply writeRoot_ok in Ew.
  - simplify_eq/=. by rewrite Ed.
Qed.

Lemma maintained_active r nowMs a :
  wf r → a ∈ attempts r → isActiveAttempt a = true → a ∈ attempts (default r (maintainRoot r nowMs)).
Proof.
  intros Hwf Ha Hact. unfold maintainRoot. case_match; simpl; [|done]. apply list_elem_of_filter. split; [|done].
  intros Hi. apply (removable_spec r nowMs a (wf_attempt_ids r Hwf) Ha) in Hi. unfold removableAttempt in Hi.
  unfold isActiveAttempt in Hact. by destruct (aStatus a).
Qed.

Lemma maintained_ids r nowMs : wf r → NoDup (aId <$> attempts (default r (maintainRoot r nowMs))).
Proof.
  intros Hwf. unfold maintainRoot. case_match; simpl; [|apply (wf_attempt_ids r Hwf)].
  eapply sublist_NoDup; [apply (wf_attempt_ids r Hwf)|apply fmap_sublist, sublist_filter].
Qed.

Lemma maintained_task_ids r nowMs : wf r → NoDup (tId <$> tasks (default r (maintainRoot r nowMs))).
Proof.
  intros Hwf. unfold maintainRoot. case_match; simpl; [|apply (wf_task_ids r Hwf)].
  eapply sublist_NoDup; [|apply fmap_sublist, sublist_filter]. unfold overdueTasks.
  rewrite fmap_key; [apply (wf_task_ids r Hwf)|]. intros t _. unfold expireOverdue. by repeat case_match.
Qed.

(** ** The file on disk *)

(** C30: whatever sequence of commands runs and whatever part of the environment
    fails (the lock, reading, any step of replacing the file, the clock), the
    file on disk is always one that the strict parser accepts and gives back
    unchanged, so a later start never has to quarantine the store's own
    file. *)
Theorem store_file_trusted (cmds : list (Command * Io)) st :
  trusted (disk st) → trusted (disk (execAll options cmds st)).
Proof.
  unfold execAll. revert st. induction cmds as [|[cmd io] cmds IH]; intros st Ht; [done|].
  simpl. apply IH. by apply trusted_exec.
Qed.


(** Visible in the 24 hours that begin at [start]. *)
Definition visibleWithin (start : Z) a : bool :=
  match visibleAtMs (aStatus a) with
  | Some v => (start <=? v) && (v <=? start + ROLLING_DAY_MS)
  | None => false
  end.

(** the life of a task.  A command takes a task only along the steps of
    [statusStep] (pending, checking, delivering and one of the ends; back to
    pending only from an attempt), and a task that has ended keeps its status
    for as long as the file keeps the task. *)
Theorem task_life (N : Z) st cmd io t u :
  reachable options N st → freshIds cmd (disk st) → capped N cmd →
  t ∈ tasks (rootOf (disk st)) → u ∈ tasks (rootOf (disk (exec options cmd st io))) → tId u = tId t →
  rtc statusStep (tStatus t) (tStatus u) ∧ (isActiveTask t = false → tStatus u = tStatus t).
Proof.
  intros Hr Hfr Hcap Ht Hu Hid. destruct (reachable_Store_Inv options N st Hr) as [Htr HI].
  destruct (exec_step options cmd st io Htr) as [E|(r' & E & r1 & Hrtc & Hp)]; rewrite E in Hu; simpl in Hu.
  - assert (u = t) as ->; [|done].
    eapply (key_inj tId); [apply (own_tasks _ (inv_own _ _ HI))|done|done|done].
  - apply parse_same in Hp as [_ HF]. destruct (parsed_elem _ _ _ HF Hu) as (w & Hw & Hs).
    assert (unlisted cmd (rootOf (disk st))) as Hun.
    { intros cs thr cand i -> Hin b Hb Hi. eapply Hfr; [done|done|].
      destruct (disk st) as [| | | |r]; try (by apply elem_of_nil in Hb). simpl in *.
      apply parse_wf in Htr as [Hwf _]. pose proof (wf_links r Hwf b i Hb Hi) as Hl. unfold attemptLinkOk in Hl.
      destruct (findTask (tasks r) i) as [x|] eqn:Ex; [|done]. apply findTask_Some in Ex as [Hx <-].
      apply list_elem_of_fmap. by exists x. }
    destruct (rtc_life options N cmd _ _ _ Hrtc HI Hun Hcap) as (_ & _ & Hlife).
    destruct (Hlife w Hw) as [(t0 & Ht0 & Hi0 & Hst & Hfin)|(cs & thr & cand & -> & Hin)].
    + assert (t0 = t) as ->.
      { eapply (key_inj tId); [apply (own_tasks _ (inv_own _ _ HI))|done|done|].
        rewrite Hi0, <- (parsed_id _ _ Hs). done. }
      rewrite (parsed_status _ _ Hs). auto.
    + destruct (Hfr _ _ _ _ eq_refl Hin). apply list_elem_of_fmap. exists t. split; [|done].
      by rewrite <- (parsed_id _ _ Hs).
Qed.

(** what admission and failures can pile up to.  In every reachable store no
    two active tasks have the same deduplication key, at most 256 tasks are
    active, and a task that is not over has failed at most three times before
    acceptance, one that is over at most four times. *)
Theorem active_tasks_bounded (N : Z) st :
  reachable options N st →
  (∀ t u, t ∈ tasks (rootOf (disk st)) → u ∈ tasks (rootOf (disk st)) →
     isActiveTask t = true → isActiveTask u = true → tDedupeKey t = tDedupeKey u → t = u) ∧
  activeTaskCount (rootOf (disk st)) <= MAX_ACTIVE_FOLLOWUP_TASKS ∧
  (∀ t, t ∈ tasks (rootOf (disk st)) → retryOk t).
Proof.
  intros Hr. destruct (reachable_Store_Inv options N st Hr) as [_ [HO Hre Hde Hac _]].
  split; [|done]. intros t u Ht Hu Hta Hua He.
  eapply (key_inj tId); [apply (own_tasks _ HO)|done|done|]. by apply Hde.
Qed.

(** ** Crossing the send boundary *)

Lemma resolveClaimed_elem r a ids ts t :
  resolveClaimed r a ids = Ok ts → t ∈ tasks r → NoDup (tId <$> tasks r) → tId t ∈ ids → t ∈ ts.
Proof.
  intros Hr Ht Hnd Hi. pose proof (resolveClaimed_find r a ids ts (tId t) Hr) as Hf.
  rewrite decide_True in Hf by done. rewrite (proj2 (findTask_iff _ _ t Hnd)) in Hf by done.
  by apply findTask_Some in Hf as [? _].
Qed.

(** the send boundary is durable.  When [beginDelivery] tells the caller to
    send, the configuration was enabled, the file on disk already records the
    attempt as delivering with the evidence of the check, and each task of the
    attempt is recorded as delivering under it with its window open at that
    moment; a crash from here on finds the intent on disk. *)
Theorem send_boundary_durable st io attemptId check st' m :
  trusted (disk st) → beginDelivery options st io attemptId check = (st', Ok (BDelivering m)) →
  m = ioNow io ∧
  ∃ r' a config, disk st' = DRoot r' ∧ a ∈ attempts r' ∧ aId a = attemptId ∧ aStatus a = ADelivering check m ∧
  resolveRuntimeConfig options (aAgentId a) = Ok config ∧ rcEnabled config = true ∧
  ∀ i, i ∈ aTaskIds a → ∃ t, t ∈ tasks r' ∧ tId t = i ∧ tStatus t = TDelivering attemptId ∧
    m <= tDueLatestMs t ∧ m <= tExpiresAtMs t.
Proof.
  intros Htr. unfold beginDelivery. destruct (_ || _); [done|]. intros Hm.
  destruct (mutate_ok _ _ _ _ _ Htr Hm) as (r & new & _ & Hwf & Hch & Hres). clear Hm.
  set (r1 := default r (maintainRoot r (ioNow io))) in *. unfold beginDeliveryChange in Hch.
  destruct (findAttempt (attempts r1) attemptId) as [a|] eqn:Ea; [|done].
  apply findAttempt_Some in Ea as [Ha Ei]. destruct (aStatus a) eqn:Es; try done.
  destruct (resolveRuntimeConfig options (aAgentId a)) as [config|] eqn:Ec; [|done].
  destruct (rcEnabled config) eqn:Een; simpl in Hch; [|done].
  destruct (resolveClaimedTasks r1 a) as [ts|] eqn:Er; [|done].
  destruct (existsb (windowClosed (ioNow io)) ts) eqn:Ew; [done|]. simplify_eq. split; [done|].
  destruct Hres as (r3 & Hp & Hd). pose proof (parse_same _ _ Hp) as [Hat HF]. pose proof (parse_wf _ _ Hp) as [Hwf3 _].
  set (a' := setAttemptStatus a (ADelivering check (ioNow io))).
  assert (a' ∈ attempts r3) as Ha'.
  { rewrite Hat. simpl. unfold replaceAttempt. apply list_elem_of_fmap. exists a. split; [|done].
    by rewrite decide_True. }
  exists r3, a', config. do 6 (split; [done|]). intros i Hi.
  pose proof (wf_links r3 Hwf3 a' i Ha' Hi) as Hl. unfold attemptLinkOk in Hl.
  destruct (findTask (tasks r3) i) as [u|] eqn:Eu; [|done]. apply findTask_Some in Eu as [Hu Eu].
  unfold isActiveAttempt in Hl. simpl in Hl. bools. exists u. split; [done|]. split; [done|].
  split; [destruct (tStatus u); simplify_eq/=; done|].
  destruct (parsed_elem _ _ _ HF Hu) as (w & Hw & [Hwi _ _ _ _ -> ->]). simpl in Hw.
  apply list_elem_of_fmap in Hw as (t1 & Ew1 & Ht1).
  pose proof (maintained_task_ids r (ioNow io) Hwf) as Hnd.
  assert (tId w = tId t1 ∧ tDueLatestMs w = tDueLatestMs t1 ∧ tExpiresAtMs w = tExpiresAtMs t1) as (E1 & -> & ->)
    by (subst w; by destruct (tStatus t1); try case_bool_decide).
  assert (t1 ∈ ts) as Hts by (eapply resolveClaimed_elem; [exact Er|done|done|]; simpl in *; congruence).
  assert (windowClosed (ioNow io) t1 = false) as [? ?]%windowOpen_iff; [|done].
  destruct (windowClosed (ioNow io) t1) eqn:Ewc; [|done].
  rewrite <- not_true_iff_false, existsb_exists in Ew. destruct Ew. exists t1. by rewrite <- list_elem_of_In.
Qed.
(** ** Recovery *)

(** How recovery ends an attempt of a dead owner. *)
Definition recoveredStatus (nowMs : Z) a : AttemptStatus :=
  match aStatus a with
  | ADelivering check m => ADeliveryUnknown check m (OwnerRecovery KInternal) nowMs
  | _ => AFailed NotReturned None SOwnerRecoveryBeforeDelivery KInternal 0 nowMs
  end.

Lemma recoverOne_status r a nowMs r' v :
  isActiveAttempt a = true → recoverOne options r a nowMs = Ok (r', v) →
  attempts r' = replaceAttempt (attempts r) (setAttemptStatus a (recoveredStatus nowMs a)).
Proof.
  unfold isActiveAttempt, recoverOne, recoveredStatus, buildRetryableFailure. intros Hact.
  destruct (aStatus a) eqn:Es; try done.
  - destruct (resolveRuntimeConfig _ _); [|done]. destruct (negb _); [done|]. simpl. by intros [= <- _].
  - unfold buildDeliveryTerminal. simpl. by intros [= <- _].
Qed.

Lemma recoverAll_attempts initial r stale nowMs r' l :
  recoverAll options initial r stale nowMs = Ok (r', l) →
  NoDup (aId <$> attempts r) → NoDup (aId <$> stale) →
  (∀ a, a ∈ stale → a ∈ attempts r ∧ isActiveAttempt a = true) →
  attempts r' = (fun c => if decide (aId c ∈ aId <$> stale) then setAttemptStatus c (recoveredStatus nowMs c) else c)
                  <$> attempts r.
Proof.
  revert r l. induction stale as [|a stale IH]; intros r l; csimpl.
  { intros [= -> _] _ _ _. symmetry. rewrite <- (list_fmap_id (attempts r')) at 2. apply list_fmap_ext.
    by intros. }
  destruct (recoverOne options r a nowMs) as [[r1 o]|] eqn:E1; [|done].
  destruct (recoverAll options initial _ stale nowMs) as [[r2 l2]|] eqn:E2; [|done]. intros [= <- _].
  intros Hnd [Hna Hns]%NoDup_cons Hst. destruct (Hst a ltac:(left)) as [Ha Hact].
  pose proof (recoverOne_status _ _ _ _ _ Hact E1) as Es. simpl in E2.
  rewrite (IH _ _ E2); [| |done|].
  - rewrite Es. unfold replaceAttempt. rewrite <- list_fmap_compose. apply list_fmap_ext. intros i c Hc. simpl.
    apply list_elem_of_lookup_2 in Hc. destruct (decide (aId c = aId a)) as [E|E].
    + assert (c = a) as -> by (by apply (key_inj aId (attempts r))). simpl. rewrite (decide_False (P := aId a ∈ _)) by done.
      by rewrite decide_True by left.
    + destruct (decide (aId c ∈ aId <$> stale)) as [Hin|Hin]; [by rewrite decide_True by (by right)|].
      rewrite decide_False; [done|]. by intros [?|?]%elem_of_cons.
  - by rewrite Es, replaceAttempt_ids.
  - intros c Hc. destruct (Hst c ltac:(by right)) as [Hcin Hcact]. split; [|done]. rewrite Es.
    unfold replaceAttempt. apply list_elem_of_fmap. exists c. split; [|done]. simpl.
    rewrite decide_False; [done|]. intros E. apply Hna. rewrite <- E. apply list_elem_of_fmap. by exists c.
Qed.

(** recovery after a crash.  When a new process has reconciled ownership, no
    attempt of another boot is active any more; each attempt the dead owner had
    past the send boundary is recorded as delivery unknown, and so is never
    sent again, and each one before it as failed. *)
Theorem recovery_settles_stale st io boot st' v :
  trusted (disk st) → reconcileOwnership options st io boot true = (st', Ok v) →
  (∀ a, a ∈ attempts (rootOf (disk st')) → aBootId a ≠ boot → isActiveAttempt a = false) ∧
  (∀ a, a ∈ attempts (rootOf (disk st)) → aBootId a ≠ boot → isActiveAttempt a = true →
     setAttemptStatus a (recoveredStatus (ioNow io) a) ∈ attempts (rootOf (disk st'))).
Proof.
  intros Htr. unfold reconcileOwnership. destruct (negb _); [done|]. simpl. intros Hm.
  destruct (mutate_ok _ _ _ _ _ Htr Hm) as (r & new & Ed & Hwf & Hch & Hres). clear Hm. rewrite Ed.
  set (r1 := default r (maintainRoot r (ioNow io))) in *. unfold reconcileChange in Hch.
  pose proof (maintained_ids r (ioNow io) Hwf) as Hnd.
  destruct (recoverAll _ _ _ _ _) as [[r2 l]|] eqn:Er; [|done].
  assert (attempts (rootOf (disk st')) =
    (fun c => if decide (aId c ∈ aId <$> staleAttempts r1 boot) then setAttemptStatus c (recoveredStatus (ioNow io) c)
              else c) <$> attempts r1) as Hat.
  { rewrite <- (recoverAll_attempts _ _ _ _ _ _ Er Hnd).
    - destruct (staleAttempts r1 boot) as [|a0 stale].
      + simpl in Er. injection Er as <- _. injection Hch as <- _. unfold r1. destruct (maintainRoot r (ioNow io)) as [r4|]; simpl in *.
        * destruct Hres as (r3 & Hp & ->). simpl. by apply parse_same in Hp as [? _].
        * by rewrite Hres, Ed.
      + injection Hch as <- _. destruct Hres as (r3 & Hp & ->). simpl. by apply parse_same in Hp as [? _].
    - eapply sublist_NoDup; [exact Hnd|apply fmap_sublist, sublist_filter].
    - by intros a [[_ ?] ?]%list_elem_of_filter. }
  rewrite Hat. split.
  - intros c (a & -> & Ha)%list_elem_of_fmap Hb. destruct (decide (aId a ∈ _)) as [Hin|Hin].
    + unfold isActiveAttempt, recoveredStatus. simpl. by destruct (aStatus a).
    + destruct (isActiveAttempt a) eqn:Hact; [|done]. destruct Hin. apply list_elem_of_fmap. exists a.
      split; [done|]. by apply list_elem_of_filter.
  - intros a Ha Hb Hact. apply list_elem_of_fmap. exists a. pose proof (maintained_active r (ioNow io) a Hwf Ha Hact) as Ha1.
    split; [|done]. rewrite decide_True; [done|]. apply list_elem_of_fmap. exists a. split; [done|].
    by apply list_elem_of_filter.
Qed.

(** ** Operations do not invalidate the store *)

(** The conditions under which a command must not damage the root: the guards of
    its operation hold, counters do not overflow, and an attempt whose
    configuration was disabled still has all windows open. *)
Definition commandOk (cmd : Command) (nowMs : Z) r : Prop :=
  match cmd with
  | CAdmit _ _ => False
  | CClaim input => claimInputOk input r
  | CBegin i check =>
      SuccessfulTaskCheckExecutionEvidenceSchema check = true ∧
      ∀ a config t, findAttempt (attempts r) i = Some a →
        resolveRuntimeConfig options (aAgentId a) = Ok config → rcEnabled config = false →
        t ∈ tasks r → tId t ∈ aTaskIds a → windowClosed nowMs t = false
  | CDismiss _ check => SuccessfulTaskCheckExecutionEvidenceSchema check = true
  | _ => True
  end.

(** operations keep the store well formed.  A change by a command other than
    an admission turns a well-formed root into a well-formed root (records that
    satisfy their schemas, unique ids, tasks and attempts that agree), provided
    the clock has not gone backwards, the conditions of the command hold, and
    retention drops no task that a remaining attempt lists; so the capacity
    check, which also fails on an invalid root, fails for lack of space only. *)
Theorem changes_keep_wf cmd nowMs r r' :
  wf r → settledBy nowMs r → commandOk cmd nowMs r → retentionClosed r nowMs →
  (∀ t, t ∈ tasks r → tPreAcceptanceFailureCount t < MAX_SAFE_INTEGER) →
  change options cmd nowMs r r' → wf r'.
Proof.
  intros Hwf Hnow Hok Hret Hcnt Hch.
  destruct Hch as [r r' Hm|agent task r r' v -> Hc|cs thr c newId r r' v -> _ _|input quiet r r' v -> _ _ Hp
    |i check r r' v -> Hc|i outcome r r' v -> Hc|i check r r' v -> Hc|i input r r' v -> Hc|boot excl a r r' v -> Ha Hact Hc].
  - unfold maintainRoot in Hm. case_match; simplify_eq. by apply wf_retained.
  - unfold cancelChange in Hc. repeat case_match; simplify_eq; by apply wf_cancel.
  - done.
  - by eapply wf_plan.
  - destruct Hok as [Hck Hopen]. unfold beginDeliveryChange in Hc.
    destruct (findAttempt (attempts r) i) as [a|] eqn:Ea; [|done]. pose proof (findAttempt_Some _ _ _ Ea) as [Ha _].
    destruct (aStatus a) eqn:Es; try done.
    destruct (resolveRuntimeConfig options (aAgentId a)) as [config|] eqn:Ec; [|done].
    destruct (rcEnabled config) eqn:Een; simpl in Hc.
    + destruct (resolveClaimedTasks r a) as [ts|] eqn:Er; [|done].
      destruct (existsb _ ts); simplify_eq; [by apply wf_closed|by apply wf_delivering].
    + simplify_eq. apply wf_disabled; try done. intros t Ht Hi. by eapply Hopen.
  - unfold settleDeliveryChange in Hc. destruct (findAttempt (attempts r) i) as [a|] eqn:Ea; [|done].
    apply findAttempt_Some in Ea as [Ha _]. destruct (aStatus a) eqn:Es; try done.
    destruct (buildDeliveryTerminal _ _ _ _ _ _) as [r1|] eqn:Eb; [|done]. simplify_eq.
    by eapply wf_terminal.
  - unfold dismissChange in Hc. destruct (findAttempt (attempts r) i) as [a|] eqn:Ea; [|done].
    apply findAttempt_Some in Ea as [Ha _]. destruct (aStatus a) eqn:Es; try done. simplify_eq.
    by apply wf_dismissed.
  - unfold failChange, failWith in Hc. destruct (findAttempt (attempts r) i) as [a|] eqn:Ea; [|done].
    apply findAttempt_Some in Ea as [Ha _].
    destruct (aStatus a) eqn:Es, input; try done; (destruct (resolveRuntimeConfig _ _); [|done]).
    all: destruct (buildRetryableFailure _ _ _ _ _ _ _ _) as [[r1 d]|] eqn:Eb; [|done]; simplify_eq.
    all: eapply wf_failed; [done|done|done| |done|exact Eb]; unfold isActiveAttempt; by rewrite Es.
  - unfold recoverOne in Hc. destruct (aStatus a) eqn:Es;
      try (unfold isActiveAttempt in Hact; by rewrite Es in Hact).
    + destruct (resolveRuntimeConfig _ _); [|done].
      destruct (buildRetryableFailure _ _ _ _ _ _ _ _) as [[r1 d]|] eqn:Eb; [|done]. simplify_eq.
      by eapply wf_failed.
    + destruct (buildDeliveryTerminal _ _ _ _ _ _) as [r1|] eqn:Eb; [|done]. simplify_eq.
      by eapply wf_terminal.
Qed.
End Theorems.

(** ** Runs that meet the hypotheses *)

#[local] Existing Instance Sample.platform.

Ltac member n := apply (list_elem_of_lookup_2 _ n); vm_compute; reflexivity.

Lemma store_file_trusted_witness : trusted (disk (Sample.run Sample.retried)).
Proof. apply (store_file_trusted (Sample.options true) Sample.retried Sample.empty). exact I. Defined.



Lemma task_life_witness :
  let st := Sample.run Sample.retried in
  let u := Sample.taskAt (exec (Sample.options true) (CCancel "helper" None) st (Sample.at_ 500000)) 1 in
  tStatus u = TCancelled 500000 ∧
  rtc statusStep (tStatus (Sample.taskAt st 1)) (tStatus u) ∧
  (isActiveTask (Sample.taskAt st 1) = false → tStatus u = tStatus (Sample.taskAt st 1)).
Proof.
  intros st u. split; [vm_compute; reflexivity|].
  apply (task_life (Sample.options true) 3 st (CCancel "helper" None) (Sample.at_ 500000)).
  - exact Sample.retried_reachable.
  - intros ? ? ? ? [=].
  - intros ? [=].
  - member 1%nat.
  - member 1%nat.
  - vm_compute. reflexivity.
Defined.

Lemma active_tasks_bounded_witness :
  activeTaskCount (rootOf (disk (Sample.run Sample.retried))) <= MAX_ACTIVE_FOLLOWUP_TASKS.
Proof.
  exact (proj1 (proj2 (active_tasks_bounded (Sample.options true) 3 (Sample.run Sample.retried)
                         Sample.retried_reachable))).
Defined.

Lemma send_boundary_durable_witness :
  let st := Sample.run Sample.shortWindow in
  let p := beginDelivery (Sample.options true) st (Sample.at_ 6000) "a1" Sample.check in
  ∃ r' a config, disk p.1 = DRoot r' ∧ a ∈ attempts r' ∧ aId a = "a1" ∧
    aStatus a = ADelivering Sample.check 6000 ∧
    resolveRuntimeConfig (Sample.options true) (aAgentId a) = Ok config ∧ rcEnabled config = true ∧
    ∀ i, i ∈ aTaskIds a → ∃ t, t ∈ tasks r' ∧ tId t = i ∧ tStatus t = TDelivering "a1" ∧
      6000 <= tDueLatestMs t ∧ 6000 <= tExpiresAtMs t.
Proof.
  intros st p. apply (send_boundary_durable (Sample.options true) st (Sample.at_ 6000) "a1" Sample.check p.1 6000).
  - vm_compute. reflexivity.
  - vm_compute. reflexivity.
Defined.

Lemma recovery_settles_stale_witness :
  let st := Sample.run Sample.shortWindow in
  let p := reconcileOwnership (Sample.options true) st (Sample.at_ 7000) "next" true in
  setAttemptStatus (Sample.attemptAt st 0) (recoveredStatus 7000 (Sample.attemptAt st 0))
    ∈ attempts (rootOf (disk p.1)).
Proof.
  intros st p.
  destruct (reconcileOwnership (Sample.options true) st (Sample.at_ 7000) "next" true) as [st' res] eqn:E.
  destruct res as [v|e]; [|revert E; vm_compute; discriminate].
  apply (recovery_settles_stale (Sample.options true) st (Sample.at_ 7000) "next" st' v).
  - vm_compute. reflexivity.
  - exact E.
  - member 0%nat.
  - vm_compute. discriminate.
  - vm_compute. reflexivity.
Defined.

(** The hypotheses of [changes_keep_wf], checked on a root. *)
Definition quietRoot (nowMs : Z) (r : FollowupTaskStoreFile) : bool :=
  match parseFollowupTaskStoreFile r with Ok _ => true | Err _ => false end &&
  validTaskStoreTime nowMs &&
  forallb (fun t => (tCreatedAtMs t <=? nowMs) && (tPreAcceptanceFailureCount t <? MAX_SAFE_INTEGER)) (tasks r) &&
  forallb (fun a => aStartedAtMs a <=? nowMs) (attempts r) &&
  forallb (keepTask (attempts r) (removableIds r nowMs) (nowMs - FOLLOWUP_TASK_RETENTION_MS)) (overdueTasks r nowMs).

Lemma quietRoot_spec nowMs r :
  quietRoot nowMs r = true →
  settledBy nowMs r ∧ retentionClosed r nowMs ∧
  ∀ t, t ∈ tasks r → tPreAcceptanceFailureCount t < MAX_SAFE_INTEGER.
Proof.
  unfold quietRoot. intros [[[[_ Hv]%andb_true_iff Ht]%andb_true_iff Ha]%andb_true_iff Hk]%andb_true_iff.
  rewrite !forallb_elem_of in *. split; [|split].
  - split; [done| |].
    + intros t Hin. specialize (Ht t Hin). by bools.
    + intros a Hin. specialize (Ha a Hin). by bools.
  - intros t a Hin _ _ Hf. specialize (Hk t Hin). congruence.
  - intros t Hin. specialize (Ht t Hin). by bools.
Qed.

Lemma changes_keep_wf_witness :
  let r := rootOf (disk (Sample.run (take 4 Sample.delivered))) in
  let outcome := Accepted 1 None 6500 HAppended in
  ∃ r', settleDeliveryChange "a1" outcome r 7000 = Ok (Some r', SettledNow) ∧ wf r'.
Proof.
  intros r outcome. eexists. split; [vm_compute; reflexivity|].
  assert (quietRoot 7000 r = true) as (Hs & Hret & Hcnt)%quietRoot_spec by (vm_compute; reflexivity).
  assert (parseFollowupTaskStoreFile r = Ok r) as [Hwf _]%parse_wf by (vm_compute; reflexivity).
  eapply (changes_keep_wf (Sample.options true) (CSettle "a1" outcome) 7000 r); [done|done|exact I|done|done|].
  eapply ch_settle; [reflexivity|]. vm_compute. reflexivity.
Defined.

(** ** Where an operation reports a full store without one *)

(** retention can leave the store unusable.  Two tasks are tried together
    and the attempt fails; the first one is then delivered by an attempt of its
    own while the second one stays pending.  A week after that delivery
    retention drops the delivered task and its attempt, but keeps the failed
    attempt that still lists the task; the root it proposes is rejected, so
    reading the store fails with an invalid state and claiming the pending task
    fails with a full store, although the file is small, and nothing changes.
    A day earlier the same claim succeeds. *)
Theorem retention_can_wedge :
  let st := Sample.run Sample.retried in
  let later := Sample.at_ (8 * Sample.day) in
  let claim := claimDue (Sample.options true) st later (Sample.claimInput "a3" 1 3) in
  trusted (disk st) ∧
  retentionClosed (rootOf (disk st)) (6 * Sample.day) ∧
  ¬ retentionClosed (rootOf (disk st)) (8 * Sample.day) ∧
  (read (Sample.options true) st later).2 =
    Err (storeError EInvalidState KValidation "Follow-up task store mutation produced invalid authority") ∧
  claim.2 = Err (storeError EStoreFull KResource "Follow-up task store cannot reserve terminal attempt capacity") ∧
  disk claim.1 = disk st ∧
  is_ok (claimDue (Sample.options true) st (Sample.at_ (6 * Sample.day)) (Sample.claimInput "a3" 1 3)).2 = true.
Proof.
  intros st later claim. split; [vm_compute; reflexivity|]. split.
  { assert (quietRoot (6 * Sample.day) (rootOf (disk st)) = true) as (_ & Hret & _)%quietRoot_spec
      by (vm_compute; reflexivity). exact Hret. }
  split.
  { intros Hret. assert (aId (Sample.attemptAt st 0) ∈ removableIds (rootOf (disk st)) (8 * Sample.day)) as Hin.
    { apply (Hret (Sample.taskAt st 0) (Sample.attemptAt st 0)); [member 0%nat|member 0%nat|member 0%nat|].
      vm_compute. reflexivity. }
    revert Hin. change (¬ (aId (Sample.attemptAt st 0) ∈ removableIds (rootOf (disk st)) (8 * Sample.day))).
    apply (bool_decide_eq_false_1 (aId (Sample.attemptAt st 0) ∈ removableIds (rootOf (disk st)) (8 * Sample.day))).
    vm_compute. reflexivity. }
  split_and!; vm_compute; reflexivity.
Qed.

(** disabling follow-ups while a claimed task runs out of time.  When the
    configuration is disabled and the window of a claimed task has closed,
    [beginDelivery] puts the task back to pending at a time outside its window;
    the root is rejected, the caller is told that the store is full, and the
    attempt stays in checking.  With the configuration enabled the same call
    expires the task. *)
Theorem disabled_closed_window_stuck :
  let st := Sample.run Sample.shortWindow in
  let begin enabled := beginDelivery (Sample.options enabled) st (Sample.at_ 20000) "a1" Sample.check in
  (begin false).2 = Err (storeError EStoreFull KResource "Follow-up task store capacity reached") ∧
  disk (begin false).1 = disk st ∧ aStatus (Sample.attemptAt (begin false).1 0) = AChecking ∧
  (begin true).2 = Ok BDeliveryWindowClosed ∧
  Sample.statuses (begin true).1 = [("t1", TExpired (Some "a1") 20000)].
Proof. split_and!; vm_compute; reflexivity. Qed.

End TaskStoreTheorems.
