(* ===== verification/TaskQuarantineSafety.v ===== *)
(** * What the quarantine guarantees

  The group that [planQuarantine] sets aside is the least one that contains the
  malformed records and is closed under references; its computation ends; no
  record of the file is lost, neither by the plan nor by a failure between the
  two files. *)

From Stdlib Require Import Ascii QArith_base.
From S2P Require Import Prelude ConversationScope CanonicalJson TaskTypes TaskTransitions TaskAdmission.
From S2P Require Import TaskQuarantine TaskStore.
From S2P Require Import TaskStoreTypes TaskStoreSteps TaskStoreTheorems.

Open Scope string_scope.
Open Scope list_scope.
Open Scope Z_scope.

Module TaskQuarantineSafety.
Import TaskTypes TaskTransitions TaskAdmission TaskQuarantine TaskStore TaskStoreTypes TaskStoreSteps.

(** ** Groups *)

Definition members (g : Group) (k : QuarantineRecordKind) : list string :=
  match k with KTask => gTasks g | KAttempt => gAttempts g | KPolicySnapshot => gPolicies g end.

(** [g'] is [g] with identifiers added at the end of its lists. *)
Definition extends (g g' : Group) : Prop := ∀ k, members g k `prefix_of` members g' k.

Definition distinct (g : Group) : Prop := ∀ k, NoDup (members g k).

#[global] Instance extends_preorder : PreOrder extends.
Proof. split; [by intros g k|intros g1 g2 g3 H1 H2 k; by trans (members g2 k)]. Qed.

Lemma extends_elem g g' k i : extends g g' → i ∈ members g k → i ∈ members g' k.
Proof. intros Hg Hi. destruct (Hg k) as [l ->]. apply elem_of_app. by left. Qed.

Lemma extends_size g g' : extends g g' → (groupSize g ≤ groupSize g')%nat.
Proof.
  intros Hg. unfold groupSize. pose proof (prefix_length _ _ (Hg KTask)).
  pose proof (prefix_length _ _ (Hg KAttempt)). pose proof (prefix_length _ _ (Hg KPolicySnapshot)).
  simpl in *. lia.
Qed.

(** A group of the same size is the same group. *)
Lemma extends_eq g g' : extends g g' → groupSize g' = groupSize g → g' = g.
Proof.
  intros Hg Hs. destruct g as [t a p], g' as [t' a' p'].
  destruct (Hg KTask) as [x Hx], (Hg KAttempt) as [y Hy], (Hg KPolicySnapshot) as [z Hz]. simpl in *.
  subst. unfold groupSize in Hs. simpl in Hs. rewrite !length_app in Hs.
  assert (length x = 0 ∧ length y = 0 ∧ length z = 0)%nat as (Ex & Ey & Ez) by lia.
  apply nil_length_inv in Ex, Ey, Ez. subst. by rewrite !app_nil_r.
Qed.

Lemma addTo_prefix l i : l `prefix_of` addTo l i.
Proof. unfold addTo. case_decide; [done|by exists [i]]. Qed.

Lemma addTo_NoDup l i : NoDup l → NoDup (addTo l i).
Proof. intros Hl. unfold addTo. case_decide; [done|]. apply NoDup_app. split_and!; [done|set_solver|apply NoDup_singleton]. Qed.

Lemma elem_of_addTo l i j : j ∈ addTo l i ↔ j ∈ l ∨ j = i.
Proof. unfold addTo. case_decide; [naive_solver|]. rewrite elem_of_app, list_elem_of_singleton. done. Qed.

Lemma addTask_extends g i : extends g (addTask g i).
Proof. intros []; simpl; (done || apply addTo_prefix). Qed.
Lemma addAttempt_extends g i : extends g (addAttempt g i).
Proof. intros []; simpl; (done || apply addTo_prefix). Qed.
Lemma addPolicyId_extends g i : extends g (addPolicyId g i).
Proof. intros []; simpl; (done || apply addTo_prefix). Qed.

Lemma addTasks_extends g l : extends g (foldl addTask g l).
Proof. revert g. induction l as [|i l IH]; intros g; simpl; [done|]. etrans; [apply addTask_extends|apply IH]. Qed.

Lemma addTasks_members g l k i :
  i ∈ members (foldl addTask g l) k ↔ i ∈ members g k ∨ k = KTask ∧ i ∈ l.
Proof.
  revert g. induction l as [|j l IH]; intros g; simpl; [set_solver|]. rewrite IH.
  destruct k; simpl; rewrite ?elem_of_addTo; set_solver.
Qed.

Lemma addTasks_distinct g l : distinct g → distinct (foldl addTask g l).
Proof.
  revert g. induction l as [|i l IH]; intros g Hg; [done|]. apply IH.
  intros []; simpl; [apply addTo_NoDup| |]; apply (Hg KTask) || apply (Hg KAttempt) || apply (Hg KPolicySnapshot).
Qed.

(** ** Visits *)

Section Closure.
Context (ts : list TaskEnvelope) (ats : list AttemptEnvelope) (ps : list PolicyEnvelope) (invalid : Group).

(** What must go with the malformed records. *)
Inductive tainted : QuarantineRecordKind → string → Prop :=
| tainted_invalid k i : i ∈ members invalid k → tainted k i
| tainted_task_policy t : t ∈ ts → tainted KTask (teId t) → tainted KPolicySnapshot (teWorkspacePolicyHash t)
| tainted_task_attempt t a :
    t ∈ ts → tainted KTask (teId t) → teTerminalAttemptId t = Some (Some a) → tainted KAttempt a
| tainted_attempt_task a i : a ∈ ats → tainted KAttempt (aeId a) → i ∈ aeTaskIds a → tainted KTask i
| tainted_policy_task t : t ∈ ts → tainted KPolicySnapshot (teWorkspacePolicyHash t) → tainted KTask (teId t).

(** A visit of the group: it adds identifiers that the visited one taints. *)
Definition visitOk (k : QuarantineRecordKind) (visit : Group → string → option Group) : Prop :=
  ∀ g g' i, visit g i = Some g' →
    extends g g' ∧ (distinct g → distinct g') ∧
    (tainted k i → ∀ k' j, j ∈ members g' k' → j ∈ members g k' ∨ tainted k' j).

Lemma visitTask_ok : visitOk KTask (visitTask ts).
Proof.
  intros g g' i. unfold visitTask. destruct (findTaskEnvelope ts i) as [t|] eqn:Ef; [|done].
  apply find_key in Ef as [Ht <-]. destruct (TerminalTaskStatusSchema _); [|done]. intros [= <-].
  assert (extends g (addPolicyId g (teWorkspacePolicyHash t))) as He by apply addPolicyId_extends.
  assert (distinct g → distinct (addPolicyId g (teWorkspacePolicyHash t))) as Hd.
  { intros Hd []; simpl; [apply (Hd KTask)|apply (Hd KAttempt)|apply addTo_NoDup, (Hd KPolicySnapshot)]. }
  destruct (teTerminalAttemptId t) as [[a|]|] eqn:Ea.
  - split_and!; [etrans; [exact He|apply addAttempt_extends]| |].
    + intros Hg. specialize (Hd Hg).
      intros []; simpl; [apply (Hd KTask)|apply addTo_NoDup, (Hd KAttempt)|apply (Hd KPolicySnapshot)].
    + intros Ti [] j; simpl; rewrite ?elem_of_addTo; [naive_solver| |];
        intros [?| ->]; auto; right; [by eapply tainted_task_attempt|by apply tainted_task_policy].
  - split_and!; [done|done|]. intros Ti [] j; simpl; rewrite ?elem_of_addTo; [naive_solver..|].
    intros [?| ->]; auto. right. by apply tainted_task_policy.
  - split_and!; [done|done|]. intros Ti [] j; simpl; rewrite ?elem_of_addTo; [naive_solver..|].
    intros [?| ->]; auto. right. by apply tainted_task_policy.
Qed.

Lemma visitAttempt_ok : visitOk KAttempt (visitAttempt ats).
Proof.
  intros g g' i. unfold visitAttempt. destruct (findAttemptEnvelope ats i) as [a|] eqn:Ef; [|done].
  apply find_key in Ef as [Ha <-]. destruct (TerminalAttemptStatusSchema _); [|done]. intros [= <-].
  split_and!; [apply addTasks_extends|apply addTasks_distinct|].
  intros Ti k j [?|[-> ?]]%addTasks_members; [by left|]. right. by eapply tainted_attempt_task.
Qed.

Lemma visitPolicy_ok : visitOk KPolicySnapshot (visitPolicy ts ps).
Proof.
  intros g g' i. unfold visitPolicy. destruct (findPolicyEnvelope ps i) as [p|] eqn:Ef; [|done]. intros [= <-].
  split_and!; [apply addTasks_extends|apply addTasks_distinct|].
  intros Ti k j [?|[-> (t & -> & [<- Ht]%list_elem_of_filter)%list_elem_of_fmap]]%addTasks_members; [by left|].
  right. by apply tainted_policy_task.
Qed.

(** *** A phase of the loop *)

Lemma visitAll_ok k visit g l g' :
  visitOk k visit → visitAll visit g l = Some g' →
  extends g g' ∧ (distinct g → distinct g') ∧
  ((∀ i, i ∈ l → tainted k i) → ∀ k' j, j ∈ members g' k' → j ∈ members g k' ∨ tainted k' j).
Proof.
  intros Hv. revert g. induction l as [|i l IH]; intros g; simpl; [intros [= <-]; split_and!; [done|done|naive_solver]|].
  destruct (visit g i) as [g1|] eqn:E; [|done]. intros Hl. destruct (IH _ Hl) as (He & Hd & Ht).
  destruct (Hv _ _ _ E) as (He1 & Hd1 & Ht1). split_and!; [by etrans|naive_solver|].
  intros Hi k' j Hj. destruct (Ht (fun x Hx => Hi x (list_elem_of_further x i l Hx)) k' j Hj); [|by right].
  apply Ht1; [|done]. apply Hi. by left.
Qed.

(** Every identifier of the list was visited, on a group that only grew since. *)
Lemma visitAll_visited k visit g l g' i :
  visitOk k visit → visitAll visit g l = Some g' → i ∈ l →
  ∃ g1 g2, visit g1 i = Some g2 ∧ extends g g1 ∧ extends g2 g'.
Proof.
  intros Hv. revert g. induction l as [|j l IH]; intros g; simpl; [by intros _ ?%elem_of_nil|].
  destruct (visit g j) as [g1|] eqn:E; [|done]. intros Hl [->|Hi]%elem_of_cons.
  - exists g, g1. split_and!; [done|done|]. by eapply visitAll_ok.
  - destruct (IH _ Hl Hi) as (x & y & Hx & H1 & H2). exists x, y. split_and!; [done| |done].
    etrans; [|exact H1]. by eapply Hv.
Qed.

Lemma closePass_ok g g' :
  closePass ts ats ps g = Some g' →
  extends g g' ∧ (distinct g → distinct g') ∧
  ((∀ k i, i ∈ members g k → tainted k i) → ∀ k i, i ∈ members g' k → tainted k i).
Proof.
  unfold closePass. intros (g1 & H1 & (g2 & H2 & H3)%bind_Some)%bind_Some.
  destruct (visitAll_ok _ _ _ _ _ visitTask_ok H1) as (E1 & D1 & T1).
  destruct (visitAll_ok _ _ _ _ _ visitAttempt_ok H2) as (E2 & D2 & T2).
  destruct (visitAll_ok _ _ _ _ _ visitPolicy_ok H3) as (E3 & D3 & T3).
  split_and!; [by do 2 (etrans; [eassumption|])|naive_solver|]. intros Hg.
  assert (∀ k i, i ∈ members g1 k → tainted k i) as Hg1.
  { intros k i Hi. destruct (T1 (fun i Hi => Hg KTask i Hi) k i Hi); auto. }
  assert (∀ k i, i ∈ members g2 k → tainted k i) as Hg2.
  { intros k i Hi. destruct (T2 (fun i Hi => Hg1 KAttempt i Hi) k i Hi); auto. }
  intros k i Hi. destruct (T3 (fun i Hi => Hg2 KPolicySnapshot i Hi) k i Hi); auto.
Qed.

(** *** What a round has checked *)

(** The record of an identifier exists and has ended. *)
Definition settledId (k : QuarantineRecordKind) (i : string) : Prop :=
  match k with
  | KTask => ∃ t, findTaskEnvelope ts i = Some t ∧ TerminalTaskStatusSchema (teStatus t) = true
  | KAttempt => ∃ a, findAttemptEnvelope ats i = Some a ∧ TerminalAttemptStatusSchema (aeStatus a) = true
  | KPolicySnapshot => is_Some (findPolicyEnvelope ps i)
  end.

Lemma visitAttempt_keeps g i g' k :
  visitAttempt ats g i = Some g' → k ≠ KTask → members g' k = members g k.
Proof.
  unfold visitAttempt. destruct (findAttemptEnvelope ats i) as [a|]; [|done]. destruct (TerminalAttemptStatusSchema _); [|done].
  intros [= <-] Hk. revert g. induction (aeTaskIds a) as [|x l IH]; intros g; [done|]. simpl. rewrite IH. by destruct k.
Qed.

Lemma visitPolicy_keeps g i g' k :
  visitPolicy ts ps g i = Some g' → k ≠ KTask → members g' k = members g k.
Proof.
  unfold visitPolicy. destruct (findPolicyEnvelope ps i) as [p|]; [|done].
  intros [= <-] Hk. revert g. induction (teId <$> filter _ ts) as [|x l IH]; intros g; [done|]. simpl. rewrite IH. by destruct k.
Qed.

Lemma visitAll_keeps visit g l g' k :
  (∀ g i g', visit g i = Some g' → members g' k = members g k) →
  visitAll visit g l = Some g' → members g' k = members g k.
Proof.
  intros Hv. revert g. induction l as [|i l IH]; intros g; simpl; [by intros [= <-]|].
  destruct (visit g i) as [g1|] eqn:E; [|done]. intros Hl. rewrite (IH _ Hl). by eapply Hv.
Qed.

Lemma visited_settled k g i g' :
  match k with KTask => visitTask ts | KAttempt => visitAttempt ats | KPolicySnapshot => visitPolicy ts ps end g i
    = Some g' → settledId k i.
Proof.
  destruct k; simpl.
  - unfold visitTask. destruct (findTaskEnvelope ts i) as [t|]; [|done].
    destruct (TerminalTaskStatusSchema _) eqn:E; [|done]. by exists t.
  - unfold visitAttempt. destruct (findAttemptEnvelope ats i) as [t|]; [|done].
    destruct (TerminalAttemptStatusSchema _) eqn:E; [|done]. by exists t.
  - unfold visitPolicy. by destruct (findPolicyEnvelope ps i).
Qed.

(** After a round the tasks it started from, and all its attempts and policies, are settled. *)
Lemma closePass_settled g g' :
  closePass ts ats ps g = Some g' →
  (∀ i, i ∈ gTasks g → settledId KTask i) ∧
  (∀ k i, k ≠ KTask → i ∈ members g' k → settledId k i).
Proof.
  unfold closePass. intros (g1 & H1 & (g2 & H2 & H3)%bind_Some)%bind_Some. split.
  - intros i Hi. destruct (visitAll_visited _ _ _ _ _ _ visitTask_ok H1 Hi) as (x & y & Hv & _).
    by apply (visited_settled KTask) in Hv.
  - intros [] i Hk Hi; [done| |].
    + rewrite (visitAll_keeps _ _ _ _ KAttempt (fun g i g' E => visitPolicy_keeps g i g' _ E Hk) H3) in Hi.
      rewrite (visitAll_keeps _ _ _ _ KAttempt (fun g i g' E => visitAttempt_keeps g i g' _ E Hk) H2) in Hi.
      destruct (visitAll_visited _ _ _ _ _ _ visitAttempt_ok H2 Hi) as (x & y & Hv & _).
      by apply (visited_settled KAttempt) in Hv.
    + rewrite (visitAll_keeps _ _ _ _ KPolicySnapshot (fun g i g' E => visitPolicy_keeps g i g' _ E Hk) H3) in Hi.
      destruct (visitAll_visited _ _ _ _ _ _ visitPolicy_ok H3 Hi) as (x & y & Hv & _).
      by apply (visited_settled KPolicySnapshot) in Hv.
Qed.

(** *** The loop ends *)

Lemma known_length {A} (key : A → string) (l : list A) (ids : list string) :
  NoDup ids → (∀ i, i ∈ ids → is_Some (List.find (fun a => bool_decide (key a = i)) l)) →
  (length ids ≤ length l)%nat.
Proof.
  intros Hnd Hk. rewrite <- (length_fmap key l). apply submseteq_length, NoDup_submseteq; [done|].
  intros i Hi. destruct (Hk i Hi) as [x [Hx <-]%find_key]. apply list_elem_of_fmap. by exists x.
Qed.

Lemma pass_size g g' :
  distinct g → closePass ts ats ps g = Some g' → (groupSize g ≤ length ts + length ats + length ps)%nat.
Proof.
  intros Hd Hp. destruct (closePass_settled _ _ Hp) as [Ht Ho]. destruct (closePass_ok _ _ Hp) as (He & _).
  unfold groupSize.
  assert (length (gTasks g) ≤ length ts)%nat.
  { apply (known_length teId); [apply (Hd KTask)|]. intros i Hi. destruct (Ht i Hi) as (t & E & _). by exists t. }
  assert (length (gAttempts g) ≤ length ats)%nat.
  { apply (known_length aeId); [apply (Hd KAttempt)|]. intros i Hi.
    destruct (Ho KAttempt i) as (t & E & _); [done|by apply (extends_elem g)|]. by exists t. }
  assert (length (gPolicies g) ≤ length ps)%nat.
  { apply (known_length peCombinedHash); [apply (Hd KPolicySnapshot)|]. intros i Hi.
    apply (Ho KPolicySnapshot i); [done|by apply (extends_elem g)]. }
  lia.
Qed.

Lemma closeGroup_returns fuel g :
  distinct g → (1 ≤ fuel)%nat →
  (length ts + length ats + length ps < groupSize g ∨ closeFuel ts ats ps ≤ fuel + groupSize g)%nat →
  is_Some (closeGroup ts ats ps fuel g).
Proof.
  revert g. induction fuel as [|fuel IH]; intros g Hd Hf Hs; [lia|]. simpl.
  destruct (closePass ts ats ps g) as [g'|] eqn:Ep; [|done]. case_bool_decide as Eq; [done|].
  pose proof (pass_size _ _ Hd Ep). destruct (closePass_ok _ _ Ep) as (He & Hd' & _).
  pose proof (extends_size _ _ He). unfold closeFuel in *. apply IH; [auto|lia|lia].
Qed.

(** *** The group is the least closed one *)

Lemma closeGroup_inv fuel g r :
  distinct g → (∀ k i, i ∈ members g k → tainted k i) → closeGroup ts ats ps fuel g = Some r →
  ∃ g1, distinct g1 ∧ extends g g1 ∧ (∀ k i, i ∈ members g1 k → tainted k i) ∧
    match r with
    | None => closePass ts ats ps g1 = None
    | Some g' => closePass ts ats ps g1 = Some g1 ∧ g' = g1
    end.
Proof.
  revert g. induction fuel as [|fuel IH]; intros g Hd Ht; [done|]. simpl.
  destruct (closePass ts ats ps g) as [g'|] eqn:Ep; [|intros [= <-]; by exists g].
  destruct (closePass_ok _ _ Ep) as (He & Hd' & Ht'). case_bool_decide as Eq.
  - intros [= <-]. apply extends_eq in Eq; [subst|done]. by exists g.
  - intros Hc. destruct (IH g' (Hd' Hd) (Ht' Ht) Hc) as (g1 & D & E & T & R).
    exists g1. split_and!; [done|by etrans|done|done].
Qed.

(** A round that adds nothing has all that its records taint. *)
Lemma stable_visited k visit g l i :
  visitOk k visit → visitAll visit g l = Some g → i ∈ l → visit g i = Some g.
Proof.
  intros Hv Hl Hi. destruct (visitAll_visited _ _ _ _ _ _ Hv Hl Hi) as (x & y & Hxy & H1 & H2).
  destruct (Hv _ _ _ Hxy) as (H3 & _). pose proof (extends_size _ _ H1). pose proof (extends_size _ _ H2).
  pose proof (extends_size _ _ H3).
  assert (x = g) as -> by (apply extends_eq; [done|lia]). by rewrite Hxy, (extends_eq g y H3) by lia.
Qed.

Lemma stable_phases g :
  closePass ts ats ps g = Some g →
  visitAll (visitTask ts) g (gTasks g) = Some g ∧ visitAll (visitAttempt ats) g (gAttempts g) = Some g ∧
  visitAll (visitPolicy ts ps) g (gPolicies g) = Some g.
Proof.
  unfold closePass. intros (g1 & H1 & (g2 & H2 & H3)%bind_Some)%bind_Some.
  destruct (visitAll_ok _ _ _ _ _ visitTask_ok H1) as (E1 & _).
  destruct (visitAll_ok _ _ _ _ _ visitAttempt_ok H2) as (E2 & _).
  destruct (visitAll_ok _ _ _ _ _ visitPolicy_ok H3) as (E3 & _).
  pose proof (extends_size _ _ E1). pose proof (extends_size _ _ E2). pose proof (extends_size _ _ E3).
  assert (g1 = g) as -> by (apply extends_eq; [done|lia]).
  assert (g2 = g) as -> by (apply extends_eq; [done|lia]). done.
Qed.

Lemma stable_closed g k i :
  NoDup (teId <$> ts) → NoDup (aeId <$> ats) → extends invalid g → closePass ts ats ps g = Some g →
  tainted k i → i ∈ members g k.
Proof.
  intros Nt Na He Hp. destruct (stable_phases g Hp) as (H1 & H2 & H3).
  induction 1 as [k i Hi|t Ht _ IH|t a Ht _ IH Ea|a i Ha _ IH Hi|t Ht _ IH].
  - by eapply extends_elem.
  - pose proof (stable_visited _ _ _ _ _ visitTask_ok H1 IH) as Hv. unfold visitTask, findTaskEnvelope in Hv.
    rewrite (find_key_in teId ts t Nt Ht) in Hv. destruct (TerminalTaskStatusSchema _); [|done].
    injection Hv as Hv. rewrite <- Hv. destruct (teTerminalAttemptId t) as [[]|]; simpl; apply elem_of_addTo; by right.
  - pose proof (stable_visited _ _ _ _ _ visitTask_ok H1 IH) as Hv. unfold visitTask, findTaskEnvelope in Hv.
    rewrite (find_key_in teId ts t Nt Ht) in Hv. destruct (TerminalTaskStatusSchema _); [|done].
    injection Hv as Hv. rewrite <- Hv, Ea. simpl. apply elem_of_addTo. by right.
  - pose proof (stable_visited _ _ _ _ _ visitAttempt_ok H2 IH) as Hv. unfold visitAttempt, findAttemptEnvelope in Hv.
    rewrite (find_key_in aeId ats a Na Ha) in Hv. destruct (TerminalAttemptStatusSchema _); [|done].
    injection Hv as Hv. rewrite <- Hv. apply (addTasks_members g _ KTask). by right.
  - pose proof (stable_visited _ _ _ _ _ visitPolicy_ok H3 IH) as Hv. unfold visitPolicy in Hv.
    destruct (findPolicyEnvelope _ _); [|done]. injection Hv as Hv. rewrite <- Hv.
    apply (addTasks_members g _ KTask). right. split; [done|]. apply list_elem_of_fmap. exists t.
    split; [done|]. by apply list_elem_of_filter.
Qed.

(** A round fails on a member of the group without a settled record. *)
Lemma visitAll_fails visit g l :
  visitAll visit g l = None → ∃ i g', i ∈ l ∧ visit g' i = None.
Proof.
  revert g. induction l as [|i l IH]; intros g; simpl; [done|].
  destruct (visit g i) as [g1|] eqn:E; [|intros _; exists i, g; split; [by left|done]].
  intros (j & x & Hj & Hx)%IH. exists j, x. split; [by right|done].
Qed.

Lemma closePass_fails g :
  closePass ts ats ps g = None → (∀ k i, i ∈ members g k → tainted k i) → ∃ k i, tainted k i ∧ ¬ settledId k i.
Proof.
  unfold closePass. intros Hp Hg. destruct (visitAll (visitTask ts) g (gTasks g)) as [g1|] eqn:E1; simpl in Hp.
  - destruct (visitAll_ok _ _ _ _ _ visitTask_ok E1) as (_ & _ & T1).
    assert (∀ k i, i ∈ members g1 k → tainted k i) as Hg1.
    { intros k i Hi. destruct (T1 (fun i Hi => Hg KTask i Hi) k i Hi); auto. }
    destruct (visitAll (visitAttempt ats) g1 (gAttempts g1)) as [g2|] eqn:E2; simpl in Hp.
    + destruct (visitAll_ok _ _ _ _ _ visitAttempt_ok E2) as (_ & _ & T2).
      apply visitAll_fails in Hp as (i & x & Hi & Hx). exists KPolicySnapshot, i. split.
      * destruct (T2 (fun i Hi => Hg1 KAttempt i Hi) KPolicySnapshot i Hi); auto.
      * intros [p Ep]. unfold visitPolicy in Hx. by rewrite Ep in Hx.
    + apply visitAll_fails in E2 as (i & x & Hi & Hx). exists KAttempt, i. split; [by apply Hg1|].
      intros (a & Ea & Ht). unfold visitAttempt in Hx. by rewrite Ea, Ht in Hx.
  - apply visitAll_fails in E1 as (i & x & Hi & Hx). exists KTask, i. split; [by apply Hg|].
    intros (a & Ea & Ht). unfold visitTask in Hx. by rewrite Ea, Ht in Hx.
Qed.

(** The verdict of the loop, with the fuel of the code's bound. *)
Lemma closeGroup_spec :
  NoDup (teId <$> ts) → NoDup (aeId <$> ats) → distinct invalid →
  ∃ r, closeGroup ts ats ps (closeFuel ts ats ps) invalid = Some r ∧
    match r with
    | Some g => distinct g ∧ ∀ k i, (i ∈ members g k ↔ tainted k i) ∧ (tainted k i → settledId k i)
    | None => ∃ k i, tainted k i ∧ ¬ settledId k i
    end.
Proof.
  intros Nt Na Hd. destruct (closeGroup_returns (closeFuel ts ats ps) invalid) as [r Hr]; [done|unfold closeFuel; lia..|].
  exists r. split; [done|]. apply closeGroup_inv in Hr as (g & Dg & Eg & Tg & Hg); [|done|by apply tainted_invalid].
  destruct r as [g'|]; [destruct Hg as [Hp ->]|by apply closePass_fails in Hg]. split; [done|]. intros k i.
  assert (tainted k i → i ∈ members g k) by by apply stable_closed. split; [naive_solver|].
  destruct (closePass_settled _ _ Hp) as [Ht Ho]. intros Hi. destruct k; [apply Ht|apply Ho..]; auto.
Qed.

End Closure.

(** ** The plan *)

Section Values.
Context {E T : Type} (key : E → string).
Implicit Types (l : list (RawValue E T)) (es : list E).

Lemma invalidIds_sublist (ok : T → bool) l es : invalidIds ok key l es `sublist_of` key <$> es.
Proof.
  revert es. induction l as [|v l IH]; intros [|e es]; try (apply sublist_nil_l).
  unfold invalidIds. simpl. csimpl.
  destruct (typedRecord v) as [r|]; [destruct (ok r); [apply sublist_cons|apply sublist_skip]|apply sublist_skip];
    apply IH.
Qed.

Lemma elem_of_keepRaw removed l es v :
  v ∈ keepRaw key removed l es ↔ ∃ e, (v, e) ∈ zip l es ∧ key e ∉ removed.
Proof.
  unfold keepRaw. rewrite list_elem_of_fmap. split.
  - intros ([v' e] & -> & [Hk Hz]%list_elem_of_filter). by exists e.
  - intros (e & Hz & Hk). exists (v, e). split; [done|]. by apply list_elem_of_filter.
Qed.

Lemma elem_of_recordsOf kind ids l es r :
  NoDup (key <$> es) →
  r ∈ recordsOf kind key ids l es ↔
  ∃ v e, (v, e) ∈ zip l es ∧ key e ∈ ids ∧ r = {| rrKind := kind; rrId := key e; rrValue := rawText v |}.
Proof.
  intros Hnd. assert (NoDup ((fun p => key p.2) <$> zip l es)) as Hz.
  { eapply sublist_NoDup; [exact Hnd|]. clear. revert es.
    induction l as [|v l IH]; intros [|e es]; try (apply sublist_nil_l). csimpl. apply sublist_skip, IH. }
  unfold recordsOf. rewrite list_elem_of_omap. split.
  - intros (i & Hi & ([v e] & [Hp Hk]%(find_key (fun p => key p.2)) & [= <-])%bind_Some). simpl in Hk. subst i.
    by exists v, e.
  - intros (v & e & Hp & Hi & ->). exists (key e). split; [done|].
    pose proof (find_key_in (fun p => key p.2) _ (v, e) Hz Hp) as Hf. simpl in Hf. by rewrite Hf.
Qed.

Lemma zip_value (schema : E → bool) (toEnvelope : T → E) l es v :
  parseEnvelopes schema toEnvelope l = Some es → v ∈ l → ∃ e, (v, e) ∈ zip l es.
Proof.
  unfold parseEnvelopes. revert es. induction l as [|w l IH]; intros es; [by intros _ ?%elem_of_nil|]. simpl.
  intros (e & Ee & (es' & Es & [= <-])%bind_Some)%bind_Some [->|Hv]%elem_of_cons; simpl.
  - exists e. by left.
  - destruct (IH _ Es Hv) as [e' He']. exists e'. by right.
Qed.

Lemma zip_envelope (schema : E → bool) (toEnvelope : T → E) l es e :
  parseEnvelopes schema toEnvelope l = Some es → e ∈ es → ∃ v, (v, e) ∈ zip l es.
Proof.
  unfold parseEnvelopes. revert es. induction l as [|w l IH]; intros es; simpl; [by intros [= <-] ?%elem_of_nil|].
  intros (e' & Ee & (es' & Es & [= <-])%bind_Some)%bind_Some [->|He]%elem_of_cons; simpl.
  - exists w. by left.
  - destruct (IH _ Es He) as [v Hv]. exists v. by right.
Qed.
End Values.

Section Plan.
Context `{TaskPlatform}.
Implicit Types (raw : RawTaskRoot) (root : FollowupTaskStoreFile).

(** The identifiers that must be set aside. *)
Definition mustGo raw ts ats ps : QuarantineRecordKind → string → Prop :=
  tainted ts ats (invalidGroup raw ts ats ps).

(** The parse of the three lists of a file. *)
Definition envelopes raw ts ats ps : Prop :=
  parseEnvelopes TaskEnvelopeSchema taskEnvelope (rawTasks raw) = Some ts ∧
  parseEnvelopes AttemptEnvelopeSchema attemptEnvelope (rawAttempts raw) = Some ats ∧
  parseEnvelopes PolicyEnvelopeSchema policyEnvelope (rawPolicySnapshots raw) = Some ps ∧
  NoDup (teId <$> ts) ∧ NoDup (aeId <$> ats) ∧ NoDup (peCombinedHash <$> ps).

Lemma invalidGroup_distinct raw ts ats ps : envelopes raw ts ats ps → distinct (invalidGroup raw ts ats ps).
Proof.
  intros (_ & _ & _ & Nt & Na & Np) []; simpl; (eapply sublist_NoDup; [|apply invalidIds_sublist]); done.
Qed.

Lemma planQuarantine_inv raw root records :
  planQuarantine raw = Ok (root, records) →
  ∃ ts ats ps g r, envelopes raw ts ats ps ∧ groupSize (invalidGroup raw ts ats ps) ≠ 0%nat ∧
    (∀ k i, (i ∈ members g k ↔ mustGo raw ts ats ps k i) ∧ (mustGo raw ts ats ps k i → settledId ts ats ps k i)) ∧
    referredFromOutside ts ats g = false ∧
    remainingRaw raw ts ats ps g = Some r ∧ parseFollowupTaskStoreFile r = Ok root ∧
    records = groupRecords raw ts ats ps g.
Proof.
  unfold planQuarantine. destruct (parseEnvelopes _ _ (rawTasks raw)) as [ts|] eqn:Et; [|done].
  destruct (parseEnvelopes _ _ (rawAttempts raw)) as [ats|] eqn:Ea; [|done].
  destruct (parseEnvelopes _ _ (rawPolicySnapshots raw)) as [ps|] eqn:Ep; [|done].
  destruct (_ || _) eqn:Hdup; [done|]. unfold hasDuplicate in Hdup. bools.
  destruct (_ =? _)%nat eqn:E0; [done|]. apply Nat.eqb_neq in E0.
  assert (envelopes raw ts ats ps) as He by done.
  destruct (closeGroup_spec ts ats ps (invalidGroup raw ts ats ps)) as (r & -> & Hr);
    [done|done|by apply invalidGroup_distinct|].
  destruct r as [g|]; [|done]. destruct Hr as [_ Hg]. unfold settleGroup.
  destruct (referredFromOutside ts ats g) eqn:Eo; [done|].
  destruct (remainingRaw raw ts ats ps g) as [r|] eqn:Em; [|done].
  destruct (parseFollowupTaskStoreFile r) as [root'|] eqn:Er; [|done]. intros [= -> <-].
  by exists ts, ats, ps, g, r.
Qed.

Lemma parse_lists root0 r :
  parseFollowupTaskStoreFile root0 = Ok r →
  mapM FollowupTaskRecordSchema (tasks root0) = Some (tasks r) ∧ attempts r = attempts root0 ∧
  mapM WorkspacePolicySnapshotSchema (policySnapshots root0) = Some (policySnapshots r).
Proof.
  unfold parseFollowupTaskStoreFile. destruct (FollowupTaskStoreEnvelopeSchema root0); [|done]. simpl.
  destruct (FollowupTaskStoreFileSchema root0) as [root|] eqn:E; [|done].
  destruct (_ || _); [done|]. destruct (hasDuplicate _); [done|]. destruct (negb _); [done|].
  destruct (validateGraph root); [|done]. intros ?%Ok_inj; subst. revert E. unfold FollowupTaskStoreFileSchema.
  destruct (mapM FollowupTaskRecordSchema _) as [ts|]; [|done].
  destruct (mapM WorkspacePolicySnapshotSchema _) as [ps|]; [|done]. by destruct (_ && _); intros [= <-].
Qed.

Lemma mapM_elem {A B} (f : A → option B) l k x : mapM f l = Some k → x ∈ l → ∃ y, f x = Some y ∧ y ∈ k.
Proof.
  intros Hm. apply mapM_Some_1 in Hm. induction Hm as [|a b l k Hab Hf IH]; [by intros ?%elem_of_nil|].
  intros [->|Hx]%elem_of_cons; [exists b; split; [done|by left]|].
  destruct (IH Hx) as (y & Hy & Hin). exists y. split; [done|by right].
Qed.

(** Every value of the file is either among the records set aside, with its text,
    or stays in the store as the parser reads it. *)
Definition nothingLost raw root (records : list RawRecord) : Prop :=
  (∀ v, v ∈ rawTasks raw →
     (∃ r, r ∈ records ∧ rrKind r = KTask ∧ rrValue r = rawText v) ∨
     (∃ t u, rawShape v = Typed t ∧ FollowupTaskRecordSchema t = Some u ∧ u ∈ tasks root)) ∧
  (∀ v, v ∈ rawAttempts raw →
     (∃ r, r ∈ records ∧ rrKind r = KAttempt ∧ rrValue r = rawText v) ∨
     (∃ a, rawShape v = Typed a ∧ a ∈ attempts root)) ∧
  (∀ v, v ∈ rawPolicySnapshots raw →
     (∃ r, r ∈ records ∧ rrKind r = KPolicySnapshot ∧ rrValue r = rawText v) ∨
     (∃ p q, rawShape v = Typed p ∧ WorkspacePolicySnapshotSchema p = Some q ∧ q ∈ policySnapshots root)).

Lemma kept_or_recorded {E T} kind (key : E → string) (ids : list string) (l : list (RawValue E T)) es ts v :
  NoDup (key <$> es) → (∃ e, (v, e) ∈ zip l es) → mapM typedRecord (keepRaw key ids l es) = Some ts →
  (∃ r, r ∈ recordsOf kind key ids l es ∧ rrKind r = kind ∧ rrValue r = rawText v) ∨
  (∃ t, rawShape v = Typed t ∧ t ∈ ts).
Proof.
  intros Hnd [e He] Hm. destruct (decide (key e ∈ ids)) as [Hi|Hi].
  - left. exists {| rrKind := kind; rrId := key e; rrValue := rawText v |}. split; [|done].
    apply elem_of_recordsOf; [done|]. by exists v, e.
  - right. destruct (mapM_elem _ _ _ v Hm) as (t & Ht & Hin); [apply elem_of_keepRaw; by exists e|].
    exists t. split; [|done]. unfold typedRecord in Ht. by destruct (rawShape v); simplify_eq.
Qed.

Lemma groupRecords_elem raw ts ats ps g k i :
  envelopes raw ts ats ps → (∀ k i, i ∈ members g k → settledId ts ats ps k i) →
  (∃ r, r ∈ groupRecords raw ts ats ps g ∧ rrKind r = k ∧ rrId r = i) ↔ i ∈ members g k.
Proof.
  intros (Et & Ea & Ep & Nt & Na & Np) Hs. unfold groupRecords. split.
  - intros (r & Hr & <- & <-). rewrite !elem_of_app, !elem_of_recordsOf in Hr by done.
    destruct Hr as [Hr|[Hr|Hr]]; destruct Hr as (v & e & _ & Hi & ->); done.
  - intros Hi. pose proof (Hs _ _ Hi) as Hset. destruct k; simpl in *.
    + destruct Hset as (e & [He <-]%(find_key teId) & _). destruct (zip_envelope _ _ _ _ _ Et He) as [v Hv].
      exists {| rrKind := KTask; rrId := teId e; rrValue := rawText v |}. split; [|done].
      rewrite !elem_of_app, !elem_of_recordsOf by done. left. by exists v, e.
    + destruct Hset as (e & [He <-]%(find_key aeId) & _). destruct (zip_envelope _ _ _ _ _ Ea He) as [v Hv].
      exists {| rrKind := KAttempt; rrId := aeId e; rrValue := rawText v |}. split; [|done].
      rewrite !elem_of_app, !elem_of_recordsOf by done. right; left. by exists v, e.
    + destruct Hset as (e & [He <-]%(find_key peCombinedHash)). destruct (zip_envelope _ _ _ _ _ Ep He) as [v Hv].
      exists {| rrKind := KPolicySnapshot; rrId := peCombinedHash e; rrValue := rawText v |}. split; [|done].
      rewrite !elem_of_app, !elem_of_recordsOf by done. right; right. by exists v, e.
Qed.

(** C31: when the quarantine accepts a damaged store file, the records it sets
    aside are exactly the malformed ones and those tied to them by references,
    each of them exists and has ended, the store that stays passes the strict
    parser unchanged, and every value of the file is either set aside with its
    text or stays. *)
Theorem quarantine_exact raw root records :
  planQuarantine raw = Ok (root, records) →
  ∃ ts ats ps, envelopes raw ts ats ps ∧
    (∀ k i, (∃ r, r ∈ records ∧ rrKind r = k ∧ rrId r = i) ↔ mustGo raw ts ats ps k i) ∧
    (∀ k i, mustGo raw ts ats ps k i → settledId ts ats ps k i) ∧
    parseFollowupTaskStoreFile root = Ok root ∧ nothingLost raw root records.
Proof.
  intros (ts & ats & ps & g & r & He & _ & Hg & _ & Hr & Hp & ->)%planQuarantine_inv.
  exists ts, ats, ps. split; [done|].
  assert (∀ k i, i ∈ members g k → settledId ts ats ps k i) as Hs by (intros k i Hi; by apply Hg, Hg).
  split_and!; [intros k i; rewrite groupRecords_elem by done; apply Hg|intros k i; apply Hg|by eapply parse_parse|..].
  destruct He as (Et & Ea & Ep & Nt & Na & Np). unfold remainingRaw in Hr.
  apply bind_Some in Hr as (l1 & H1 & (l2 & H2 & (l3 & H3 & [= <-])%bind_Some)%bind_Some).
  apply parse_lists in Hp as (Pt & Pa & Pp). simpl in *. unfold groupRecords. split_and!; intros v Hv.
  - destruct (kept_or_recorded KTask teId (gTasks g) (rawTasks raw) ts l1 v Nt) as [(x & Hx & ?)|(t & Hs' & Ht)];
      [by eapply zip_value|done|left; exists x; rewrite elem_of_app; auto|].
    right. destruct (mapM_elem _ _ _ _ Pt Ht) as (u & Hu & Hin). by exists t, u.
  - destruct (kept_or_recorded KAttempt aeId (gAttempts g) (rawAttempts raw) ats l2 v Na) as [(x & Hx & ?)|(t & Hs' & Ht)];
      [by eapply zip_value|done|left; exists x; rewrite !elem_of_app; auto|].
    right. exists t. by rewrite Pa.
  - destruct (kept_or_recorded KPolicySnapshot peCombinedHash (gPolicies g) (rawPolicySnapshots raw) ps l3 v Np)
      as [(x & Hx & ?)|(t & Hs' & Ht)]; [by eapply zip_value|done|left; exists x; rewrite !elem_of_app; auto|].
    right. destruct (mapM_elem _ _ _ _ Pp Ht) as (u & Hu & Hin). by exists t, u.
Qed.

(** the search for the group to set aside ends: on a file with distinct
    identifiers it returns within one round per record and two more, and it
    gives up only when a record that would have to go is missing or has not
    ended. *)
Theorem quarantine_search_ends raw ts ats ps :
  envelopes raw ts ats ps →
  ∃ r, closeGroup ts ats ps (closeFuel ts ats ps) (invalidGroup raw ts ats ps) = Some r ∧
    (r = None ↔ ∃ k i, mustGo raw ts ats ps k i ∧ ¬ settledId ts ats ps k i).
Proof.
  intros He. destruct (closeGroup_spec ts ats ps (invalidGroup raw ts ats ps)) as (r & Hr & Hs);
    [apply He|apply He|by apply invalidGroup_distinct|].
  exists r. split; [done|]. destruct r as [g|]; [|done]. split; [done|]. intros (k & i & Hi & Hn).
  destruct Hn. by apply (proj2 Hs k i).
Qed.

(** ** The quarantine file *)

Lemma hexChar_jsLength s :
  forallb hexChar (String.list_ascii_of_string s) = true → jsLength s = Z.of_nat (String.length s).
Proof.
  induction s as [|c s IH]; [done|]. cbn [jsLength String.length String.list_ascii_of_string forallb].
  intros [Hc Hs]%andb_true_iff. rewrite (IH Hs). unfold hexChar in Hc.
  rewrite orb_true_iff, !andb_true_iff, !Nat.leb_le in Hc. generalize dependent (nat_of_ascii c). intros n Hc.
  rewrite (proj2 (Nat.leb_gt 128 n)), (proj2 (Nat.leb_gt 240 n)) by lia. simpl. lia.
Qed.

Lemma hex64_Id s : hex64 s = true → IdSchema s = true.
Proof.
  unfold hex64, IdSchema, boundedString. intros [Hl Hs]%andb_true_iff. apply Nat.eqb_eq in Hl.
  rewrite (hexChar_jsLength _ Hs), Hl. done.
Qed.

Lemma decode_lines ids l rows :
  decodeQuarantineRows ids l = Ok rows ↔
  l = LRow <$> rows ∧ (∀ r, r ∈ rows → rowEvidenceOk r = true) ∧ NoDup (qrEntryId <$> rows) ∧
  (∀ r, r ∈ rows → qrEntryId r ∉ ids).
Proof.
  revert ids rows. induction l as [|[| |r] l IH]; intros ids rows; simpl.
  - split; [intros [= <-]; split_and!; [done|set_solver|apply NoDup_nil_2|set_solver]|]. by destruct rows; intros [? _].
  - split; [done|]. by destruct rows; intros [? _].
  - split; [done|]. by destruct rows; intros [? _].
  - destruct rows as [|x rows].
    { split; [|by intros [? _]]. destruct (_ || _); [done|]. by destruct (decodeQuarantineRows _ l). }
    csimpl. rewrite NoDup_cons. split.
    + destruct (rowEvidenceOk r) eqn:Eo; simpl; [|done]. case_bool_decide as Hi; [done|]. simpl.
      destruct (decodeQuarantineRows _ l) as [rows'|] eqn:Ed; [|done]. intros [= -> ->].
      apply IH in Ed as (-> & He & Hn & Ha). split_and!; [done|set_solver| |done|set_solver].
      intros (y & Ey & Hy)%list_elem_of_fmap. eapply (Ha y Hy). rewrite <- Ey. by left.
    + intros ([= -> ->] & He & [Hx Hn] & Ha). rewrite (He x) by by left. simpl.
      rewrite bool_decide_false by (apply Ha; by left). simpl.
      rewrite (proj2 (IH (qrEntryId x :: ids) rows)); [done|]. split_and!; [done|set_solver|done|].
      intros y Hy [E|?]%elem_of_cons; [|apply (Ha y); [by right|done]].
      apply Hx. rewrite <- E. apply list_elem_of_fmap. by exists y.
Qed.

Definition terminated (f : option QuarantineFile) : Prop := match f with Some f => qfTerminated f = true | None => True end.

Definition linesOf (f : option QuarantineFile) : list QuarantineLine := match f with Some f => qfLines f | None => [] end.

Lemma readQuarantine_lines io f rows :
  readQuarantine io f = Ok rows → decodeQuarantineRows [] (linesOf f) = Ok rows.
Proof.
  unfold readQuarantine, readPrivateQuarantineFile. destruct (negb _); [done|]. destruct f as [f|]; simpl; [|done].
  repeat (destruct (negb _); [done|]; simpl). destruct (_ <? _); simpl; [done|].
  by repeat (destruct (negb _); [done|]; simpl).
Qed.

Lemma appendPrivateFile_ok io f rows f' :
  terminated f → appendPrivateFile io f rows = (f', Ok tt) →
  ∃ q, f' = Some q ∧ qfLines q = linesOf f ++ (LRow <$> rows) ∧ qfRegular q = true ∧ qfPrivate q = true ∧
    qfSize q <= MAX_FOLLOWUP_TASK_QUARANTINE_BYTES ∧ qfTerminated q = true.
Proof.
  intros Ht. unfold appendPrivateFile. do 3 (destruct (negb (qioOk _ _)); [done|]).
  destruct (negb (qfRegular _)) eqn:Er; [done|]. destruct (_ || _) eqn:Es; [done|].
  repeat (destruct (negb (qioOk _ _)); [done|]). intros [= <-]. eexists. split; [done|]. bools. simpl.
  split_and!; [|done|done|lia|done]. destruct f as [f|]; simpl in *; [by rewrite Ht|done].
Qed.

(** A record is in the file: a row has its entry id, the digest of its kind,
    identifier and text. *)
Definition onFile (f : option QuarantineFile) (r : RawRecord) : Prop :=
  ∃ row, LRow row ∈ linesOf f ∧ qrEntryId row = qrEntryId (buildRow 0 r).

Lemma quarantine_ok io f raw now f' root n :
  terminated f → quarantineMalformedTerminalTaskGroups io f raw now = (f', Ok (root, n)) →
  ∃ records, planQuarantine raw = Ok (root, records) ∧ terminated f' ∧ ∀ r, r ∈ records → onFile f' r.
Proof.
  intros Ht. unfold quarantineMalformedTerminalTaskGroups. destruct (negb _); [done|].
  destruct (planQuarantine raw) as [[root' records]|]; [|done].
  destruct (readQuarantine io f) as [existing|] eqn:Er; [|done].
  apply readQuarantine_lines, decode_lines in Er as (Hl & _).
  set (missing := filter _ _). intros Hm.
  assert (∃ extra, terminated f' ∧ linesOf f' = linesOf f ++ (LRow <$> extra) ∧ extra = missing ∧ root' = root) as
    (extra & Ht' & Hl' & -> & ->).
  { destruct missing as [|row rows] eqn:Em; [simplify_eq; exists []; by rewrite app_nil_r|].
    destruct (appendPrivateFile io f (row :: rows)) as [f1 [[]|]] eqn:Ea; simplify_eq/=.
    apply appendPrivateFile_ok in Ea as (q & -> & Hq & _ & _ & _ & Hqt); [|done]. by exists (row :: rows). }
  exists records. split_and!; [done|done|]. intros r Hr. unfold onFile. rewrite Hl'.
  destruct (decide (qrEntryId (buildRow now r) ∈ qrEntryId <$> existing)) as [Hin|Hin].
  - apply list_elem_of_fmap in Hin as (row & E & Hrow). exists row. split; [|done].
    apply elem_of_app. left. rewrite Hl. apply list_elem_of_fmap. by exists row.
  - exists (buildRow now r). split; [|done]. apply elem_of_app. right. apply list_elem_of_fmap. eexists. split; [done|].
    unfold missing. apply list_elem_of_filter. split; [done|]. apply list_elem_of_fmap. by exists r.
Qed.

(** ** The two files *)

(** What the store reads when it starts: the values of a file that is JSON. *)
Definition rawDisk (d : Disk) : option RawTaskRoot :=
  match d with DRoot r => Some (rawOf r) | DMalformed raw => raw | _ => None end.

Lemma writeRoot_disk st io r :
  quarantine (writeRoot st io r).1 = quarantine st ∧
  (disk (writeRoot st io r).1 = disk st ∨
   ∃ r', parseFollowupTaskStoreFile r = Ok r' ∧ disk (writeRoot st io r).1 = DRoot r').
Proof.
  unfold writeRoot. destruct (encodeFollowupTaskStore r) as [r'|] eqn:E; [|auto]. apply encode_parse in E.
  destruct (_ <? _); [auto|]. simpl. split; [done|]. unfold replaceDurableFile.
  repeat (destruct (negb _); [simpl; eauto|]). simpl. eauto.
Qed.

Lemma quarantineRoot_disk st io raw now :
  terminated (quarantine st) →
  disk (quarantineRoot st io raw now).1 = disk st ∨
  ∃ root records, planQuarantine raw = Ok (root, records) ∧ disk (quarantineRoot st io raw now).1 = DRoot root ∧
    ∀ r, r ∈ records → onFile (quarantine (quarantineRoot st io raw now).1) r.
Proof.
  intros Ht. unfold quarantineRoot.
  destruct (quarantineMalformedTerminalTaskGroups _ _ _ _) as [f' [[root n]|]] eqn:Eq; simpl; [|by left].
  apply quarantine_ok in Eq as (records & Hp & _ & Hr); [|done].
  destruct (writeRoot_disk (setQuarantine st f') io root) as [Hq [->|(r' & Hr' & ->)]]; [by left|].
  right. exists r', records. rewrite Hq. split_and!; [|done|done].
  destruct (planQuarantine_inv _ _ _ Hp) as (ts & ats & ps & g & r & _ & _ & _ & _ & _ & Hpr & _).
  apply parse_parse in Hpr. rewrite Hr' in Hpr. apply Ok_inj in Hpr as ->. done.
Qed.

(** when the store starts on a damaged file, the records it sets aside are
    in the quarantine file before the store file is replaced: whatever call to
    the file system fails, either the store file is the one that was there, or
    the plan's records are all on the quarantine file and the store file holds
    the rest. *)
Theorem quarantine_before_rewrite st io createMissing now :
  terminated (quarantine st) →
  let st' := (readRoot st io createMissing (Some now)).1 in
  disk st' = disk st ∨ (disk st = DMissing ∧ disk st' = DRoot emptyRoot) ∨
  ∃ raw root records, rawDisk (disk st) = Some raw ∧ planQuarantine raw = Ok (root, records) ∧
    disk st' = DRoot root ∧ ∀ r, r ∈ records → onFile (quarantine st') r.
Proof.
  intros Ht st'. subst st'. unfold readRoot. destruct (negb _); [by left|].
  destruct (disk st) as [| | |[raw|]|root] eqn:Ed; try (simpl; by left).
  - destruct createMissing; [|by left]. simpl.
    destruct (writeRoot_disk st io emptyRoot) as [_ [->|(r' & Hr' & ->)]]; [by left|]. right; left. split; [done|].
    apply parse_lists in Hr' as (Ht' & Ha & Hp). destruct r' as [a b c]. simpl in *. injection Ht' as <-. injection Hp as <-. by subst.
  - destruct (rawEnvelopeOk raw); [|by left]. destruct (quarantineRoot_disk st io raw now Ht) as [->|(r & recs & ?)];
      [by left|]. right; right. by exists raw, r, recs.
  - destruct (_ <? _); [by left|]. destruct (parseFollowupTaskStoreFile root); [by left|].
    destruct (rawEnvelopeOk _); [|by left].
    destruct (quarantineRoot_disk st io (rawOf root) now Ht) as [->|(r & recs & ?)]; [by left|].
    right; right. by exists (rawOf root), r, recs.
Qed.

(** ** Starting again after a crash between the two files *)

Lemma record_ids raw root records r :
  planQuarantine raw = Ok (root, records) → r ∈ records → IdSchema (rrId r) = true.
Proof.
  intros (ts & ats & ps & g & r0 & (Et & Ea & Ep & Nt & Na & Np) & _ & _ & _ & _ & _ & ->)%planQuarantine_inv.
  assert (∀ E T (schema : E → bool) (toE : T → E) l es v e,
    parseEnvelopes schema toE l = Some es → (v, e) ∈ zip l es → schema e = true) as Hsch.
  { intros E T schema toE l. unfold parseEnvelopes. induction l as [|w l IH]; intros es v e; simpl.
    - intros [= <-] ?%elem_of_nil. done.
    - intros (e1 & E1 & (es' & Es & [= <-])%bind_Some)%bind_Some. simpl. intros [E2|Hz]%elem_of_cons; [|by eapply IH].
      simplify_eq. unfold parseEnvelope in E1. destruct (rawShape w); [|destruct (schema envelope) eqn:Es1; by simplify_eq|done].
      destruct (schema (toE record)) eqn:Es1; by simplify_eq. }
  unfold groupRecords. rewrite !elem_of_app, !elem_of_recordsOf by done.
  intros [(v & e & Hz & _ & ->)|[(v & e & Hz & _ & ->)|(v & e & Hz & _ & ->)]]; simpl;
    (eapply Hsch in Hz; [|eassumption]).
  - unfold TaskEnvelopeSchema in Hz. by bools.
  - unfold AttemptEnvelopeSchema in Hz. by bools.
  - unfold PolicyEnvelopeSchema in Hz. apply hex64_Id. by bools.
Qed.

Lemma built_evidence raw root records r now :
  (∀ s, hex64 (sha256hex s) = true) → validTaskStoreTime now = true →
  planQuarantine raw = Ok (root, records) → r ∈ records → rowEvidenceOk (buildRow now r) = true.
Proof.
  intros Hx Hn Hp Hr. unfold rowEvidenceOk, QuarantineRowSchema. simpl. rewrite !bool_decide_true by done.
  unfold quarantineEntryId, hashRecord. rewrite !Hx, (validTime_safe _ Hn). by rewrite (record_ids _ _ _ _ Hp Hr).
Qed.

(** The file reads the same when nothing fails. *)
Lemma readQuarantine_again io io' f rows :
  readQuarantine io f = Ok rows → (∀ s, qioOk io' s = true) → readQuarantine io' f = Ok rows.
Proof.
  intros Er Hio. revert Er. unfold readQuarantine, readPrivateQuarantineFile. rewrite !Hio.
  destruct (negb (qioOk io QInspect)); [done|]. destruct f as [q|]; [|done]. simpl.
  destruct (_ || _); [done|]. by repeat (destruct (negb (qioOk io _)); [done|]).
Qed.

(** So does a file that sound new rows were appended to. *)
Lemma appended_readable io io' f f' existing missing :
  decodeQuarantineRows [] (linesOf f) = Ok existing → terminated f →
  appendPrivateFile io f missing = (f', Ok tt) → (∀ s, qioOk io' s = true) →
  (∀ r, r ∈ missing → rowEvidenceOk r = true) → NoDup (qrEntryId <$> existing ++ missing) →
  readQuarantine io' f' = Ok (existing ++ missing).
Proof.
  intros Hd Ht Ha Hio He Hnd. apply appendPrivateFile_ok in Ha as (q & -> & Hl & Hr & Hpv & Hs & _); [|done].
  unfold readQuarantine, readPrivateQuarantineFile. rewrite !Hio, Hr, Hpv. simpl.
  rewrite (proj2 (Z.ltb_ge _ _) Hs), Hl. simpl. apply decode_lines in Hd as (-> & He' & _).
  apply decode_lines. split_and!; [by rewrite fmap_app| |done|set_solver]. intros x [Hx|Hx]%elem_of_app; auto.
Qed.

(** a start that was interrupted after the quarantine file was written can be
    repeated: the next start reads the file back, finds every record there and
    returns the same remainder without writing the quarantine file again, so
    no record is ever listed twice.  The digests are 64 hexadecimal digits and
    the records of the plan have distinct ones. *)
Theorem quarantine_retry_idempotent raw root records n io io' f f' now now' :
  (∀ s, hex64 (sha256hex s) = true) →
  planQuarantine raw = Ok (root, records) → NoDup ((fun r => qrEntryId (buildRow 0 r)) <$> records) →
  terminated f → quarantineMalformedTerminalTaskGroups io f raw now = (f', Ok (root, n)) →
  (∀ s, qioOk io' s = true) → validTaskStoreTime now' = true →
  quarantineMalformedTerminalTaskGroups io' f' raw now' = (f', Ok (root, n)).
Proof.
  intros Hx Hp Hnd Ht Hq Hio Hn'. pose proof (quarantine_ok _ _ _ _ _ _ _ Ht Hq) as (recs & Hp' & _ & Hon).
  rewrite Hp in Hp'. injection Hp' as <-. revert Hq.
  unfold quarantineMalformedTerminalTaskGroups. rewrite Hp, Hn'. simpl.
  destruct (validTaskStoreTime now) eqn:En; simpl; [|done].
  destruct (readQuarantine io f) as [existing|] eqn:Er; [|done].
  set (missing := filter _ _). intros Hm.
  assert (∃ rows, readQuarantine io' f' = Ok rows ∧ n = length records) as (rows & Hrows & ->).
  { destruct missing as [|row rows] eqn:Em; [simplify_eq; eexists; split; [by eapply readQuarantine_again|done]|].
    destruct (appendPrivateFile io f (row :: rows)) as [f1 [[]|]] eqn:Ea; simplify_eq/=. rewrite <- Em in Ea.
    eexists. split; [|done]. eapply (appended_readable io io' f); [by eapply readQuarantine_lines|done|exact Ea|done| |].
    - intros x [_ (y & -> & Hy)%list_elem_of_fmap]%list_elem_of_filter. by eapply built_evidence.
    - rewrite fmap_app. apply NoDup_app. split_and!.
      + by apply readQuarantine_lines, decode_lines in Er as (_ & _ & ? & _).
      + intros i Hi (x & -> & [Hx1 _]%list_elem_of_filter)%list_elem_of_fmap. done.
      + eapply sublist_NoDup; [|apply fmap_sublist, sublist_filter]. rewrite <- list_fmap_compose. exact Hnd. }
  rewrite Hrows. destruct (filter _ (buildRow now' <$> records)) as [|x l] eqn:Ef; [done|].
  assert (x ∈ x :: l) as Hin by left. rewrite <- Ef in Hin.
  apply list_elem_of_filter in Hin as [Hc (r & -> & Hr)%list_elem_of_fmap]. destruct Hc.
  destruct (Hon r Hr) as (row & Hrow & E).
  apply readQuarantine_lines, decode_lines in Hrows as (Hl & _). rewrite Hl in Hrow.
  apply list_elem_of_fmap in Hrow as (row' & [= ->] & Hr'). apply list_elem_of_fmap. by exists row'.
Qed.

End Plan.

(** ** A damaged file *)

Module Damaged.
Import TaskStoreTheorems.Sample.

Definition lostHash : string := repeatChar "b" 64.

(** Two pending tasks with their policy, and a cancelled task that lost its text
    together with a policy that lost its sections. *)
Definition raw : RawTaskRoot :=
  let r := rawOf (rootOf (disk (run admitted))) in
  {| rawTasks :=
       {| rawText := "task"; rawShape := Fields {| teId := "x"; teAgentId := "helper"; teStatus := "cancelled";
            teWorkspacePolicyHash := lostHash; teActiveAttemptId := None; teTerminalAttemptId := None |} |}
       :: rawTasks r;
     rawAttempts := rawAttempts r;
     rawPolicySnapshots :=
       {| rawText := "policy"; rawShape := Fields {| peAgentId := "helper"; peCombinedHash := lostHash |} |}
       :: rawPolicySnapshots r |}.

Definition planned : FollowupTaskStoreFile * list RawRecord :=
  match planQuarantine raw with Ok p => p | Err _ => (emptyRoot, []) end.

Definition parsed : list TaskEnvelope * list AttemptEnvelope * list PolicyEnvelope :=
  (default [] (parseEnvelopes TaskEnvelopeSchema taskEnvelope (rawTasks raw)),
   default [] (parseEnvelopes AttemptEnvelopeSchema attemptEnvelope (rawAttempts raw)),
   default [] (parseEnvelopes PolicyEnvelopeSchema policyEnvelope (rawPolicySnapshots raw))).

Definition started : Store := {| initialized := false; disk := DMalformed (Some raw); quarantine := None |}.

Example planned_ids :
  tId <$> tasks planned.1 = ["t1"; "t2"] ∧
  (fun r => (rrKind r, rrValue r)) <$> planned.2 = [(KTask, "task"); (KPolicySnapshot, "policy")].
Proof. split; vm_compute; reflexivity. Qed.

(** The digests of the sample are 64 hexadecimal digits. *)
Lemma repeatChar_hex c n : hexChar c = true → forallb hexChar (String.list_ascii_of_string (repeatChar c n)) = true.
Proof. intros Hc. induction n as [|n IH]; [done|]. cbn. by rewrite Hc. Qed.

Lemma sample_hex s : hex64 (sha256hex s) = true.
Proof.
  unfold hex64. apply andb_true_iff. split.
  - cbn. reflexivity.
  - apply (repeatChar_hex (CanonicalJson.hexDigit (String.length s mod 16)) 64). assert (String.length s mod 16 < 16)%nat as Hn by (apply Nat.mod_upper_bound; lia).
    generalize dependent (String.length s mod 16)%nat. intros n Hn. do 16 (destruct n as [|n]; [done|]). lia.
Qed.

End Damaged.

Import TaskStoreTheorems.Sample.

Lemma quarantine_exact_witness :
  ∃ ts ats ps, envelopes Damaged.raw ts ats ps ∧
    (∀ k i, (∃ r, r ∈ Damaged.planned.2 ∧ rrKind r = k ∧ rrId r = i) ↔ mustGo Damaged.raw ts ats ps k i) ∧
    (∀ k i, mustGo Damaged.raw ts ats ps k i → settledId ts ats ps k i) ∧
    parseFollowupTaskStoreFile Damaged.planned.1 = Ok Damaged.planned.1 ∧
    nothingLost Damaged.raw Damaged.planned.1 Damaged.planned.2.
Proof. apply (quarantine_exact Damaged.raw Damaged.planned.1 Damaged.planned.2). vm_compute. reflexivity. Defined.

Lemma quarantine_search_ends_witness :
  let '(ts, ats, ps) := Damaged.parsed in
  ∃ r, closeGroup ts ats ps (closeFuel ts ats ps) (invalidGroup Damaged.raw ts ats ps) = Some r ∧
    (r = None ↔ ∃ k i, mustGo Damaged.raw ts ats ps k i ∧ ¬ settledId ts ats ps k i).
Proof.
  apply (quarantine_search_ends Damaged.raw Damaged.parsed.1.1 Damaged.parsed.1.2 Damaged.parsed.2).
  split_and!; [vm_compute; reflexivity..| | |]; refine (bool_decide_eq_true_1 _ _); vm_compute; reflexivity.
Defined.

Lemma quarantine_before_rewrite_witness :
  let st' := (readRoot Damaged.started (TaskStoreTheorems.Sample.at_ 5) true (Some 5)).1 in
  disk st' ≠ disk Damaged.started ∧
  (disk st' = disk Damaged.started ∨ (disk Damaged.started = DMissing ∧ disk st' = DRoot emptyRoot) ∨
   ∃ raw root records, rawDisk (disk Damaged.started) = Some raw ∧ planQuarantine raw = Ok (root, records) ∧
     disk st' = DRoot root ∧ ∀ r, r ∈ records → onFile (quarantine st') r).
Proof.
  split; [vm_compute; discriminate|].
  apply (quarantine_before_rewrite Damaged.started (TaskStoreTheorems.Sample.at_ 5) true 5). exact I.
Defined.

Lemma quarantine_retry_idempotent_witness :
  let io := ioQuarantine (TaskStoreTheorems.Sample.at_ 5) in
  let f := (quarantineMalformedTerminalTaskGroups io None Damaged.raw 5).1 in
  length (linesOf f) = 2%nat ∧
  quarantineMalformedTerminalTaskGroups io f Damaged.raw 9 = (f, Ok (Damaged.planned.1, 2%nat)).
Proof.
  split; [vm_compute; reflexivity|].
  apply (quarantine_retry_idempotent Damaged.raw Damaged.planned.1 Damaged.planned.2 2
           (ioQuarantine (TaskStoreTheorems.Sample.at_ 5)) _ None _ 5 9).
  - exact Damaged.sample_hex.
  - vm_compute. reflexivity.
  - refine (bool_decide_eq_true_1 _ _). vm_compute. reflexivity.
  - exact I.
  - vm_compute. reflexivity.
  - done.
  - reflexivity.
Defined.

End TaskQuarantineSafety.
