(* ===== verification/SessionKeys.v ===== *)
(** * Session keys and their text

  Model of packages/core/src/domain/session-key.ts: the human-readable key of a
  conversation, its text and the parser of that text.  The text is not escaped;
  the parser reserves the suffix markers and accepts a text only if formatting
  the result gives it back. *)

From Stdlib Require Import Ascii.
From S2P Require Import Prelude.

Open Scope string_scope.
Open Scope list_scope.

Module SessionKeys.

Record SessionKey := {
  tenantId : string;
  agentId : string;
  userId : string;
  channelId : string;
  peerId : option string;
  guildId : option string;
  threadId : option string;
}.

#[global] Instance SessionKey_eq_dec : EqDecision SessionKey.
Proof. solve_decision. Defined.

Definition nonEmpty (s : string) : bool := negb (bool_decide (s = "")).

(** [SessionKeySchema]: the required fields are not empty. *)
Definition parseSessionKey (k : SessionKey) : option SessionKey :=
  if nonEmpty (tenantId k) && nonEmpty (agentId k) && nonEmpty (userId k) && nonEmpty (channelId k)
  then Some k else None.

Definition suffix (marker : string) (o : option string) : string :=
  match o with Some v => ":" +:+ marker +:+ ":" +:+ v | None => "" end.

Definition formatSessionKey (k : SessionKey) : string :=
  tenantId k +:+ ":agent:" +:+ agentId k +:+ ":" +:+ userId k +:+ ":" +:+ channelId k +:+
  suffix "peer" (peerId k) +:+ suffix "guild" (guildId k) +:+ suffix "thread" (threadId k).

(** ** Parsing *)

Definition colon : ascii := ":".

(** [formatted.split(":")] *)
Fixpoint splitColon (s : string) : list string :=
  match s with
  | "" => [""]
  | String c s =>
      match splitColon s with
      | p :: ps => if decide (c = colon) then "" :: p :: ps else String c p :: ps
      | [] => [""]
      end
  end.

(** [parts.join(":")] *)
Fixpoint joinColon (l : list string) : string :=
  match l with
  | [] => ""
  | [p] => p
  | p :: l => p +:+ ":" +:+ joinColon l
  end.

Definition suffixOrder (part : string) : option nat :=
  if decide (part = "peer") then Some 0
  else if decide (part = "guild") then Some 1
  else if decide (part = "thread") then Some 2
  else None.

(** The segments before the first marker, and the rest. *)
Fixpoint takeSegment (parts : list string) : list string * list string :=
  match parts with
  | [] => ([], [])
  | p :: parts' =>
      match suffixOrder p with
      | Some _ => ([], parts)
      | None => let r := takeSegment parts' in (p :: r.1, r.2)
      end
  end.

Definition setSuffix (order : nat) (v : string) (k : SessionKey) : SessionKey :=
  {| tenantId := tenantId k; agentId := agentId k; userId := userId k; channelId := channelId k;
     peerId := if decide (order = 0) then Some v else peerId k;
     guildId := if decide (order = 1) then Some v else guildId k;
     threadId := if decide (order = 2) then Some v else threadId k |}.

(** The loop over the suffixes: [next] is the least order still allowed.  A round
    consumes a marker, so the number of segments is enough fuel. *)
Fixpoint parseSuffixes (fuel : nat) (parts : list string) (next : nat) (k : SessionKey) : option SessionKey :=
  match fuel, parts with
  | _, [] => Some k
  | O, _ => None
  | S fuel, marker :: parts =>
      match suffixOrder marker with
      | None => None
      | Some order =>
          if (order <? next)%nat then None else
          let r := takeSegment parts in
          match r.1 with
          | [] => None
          | segments =>
              let value := joinColon segments in
              if negb (nonEmpty value) then None
              else parseSuffixes fuel r.2 (S order) (setSuffix order value k)
          end
      end
  end.

Definition parseFormattedSessionKey (formatted : string) : option SessionKey :=
  if negb (nonEmpty formatted) then None else
  match splitColon formatted with
  | tenant :: agentMarker :: agent :: user :: ((_ :: _) as rest) =>
      if negb (bool_decide (agentMarker = "agent")) || negb (nonEmpty tenant) || negb (nonEmpty agent) ||
         negb (nonEmpty user)
      then None else
        let r := takeSegment rest in
        let channel := joinColon r.1 in
        if negb (nonEmpty channel) then None else
        k ← parseSuffixes (length rest) r.2 0
              {| tenantId := tenant; agentId := agent; userId := user; channelId := channel;
                 peerId := None; guildId := None; threadId := None |};
        parsed ← parseSessionKey k;
        if bool_decide (formatSessionKey parsed = formatted) then Some parsed else None
  | _ => None
  end.

(** ** Splitting and joining *)

Lemma splitColon_cons s : ∃ p ps, splitColon s = p :: ps.
Proof.
  induction s as [|c s (p & ps & IH)]; simpl; [by eexists _, _|]. rewrite IH. case_decide; eauto.
Qed.

Lemma joinColon_split s : joinColon (splitColon s) = s.
Proof.
  induction s as [|c s IH]; [done|]. simpl. destruct (splitColon_cons s) as (p & ps & E). rewrite E in IH |- *.
  case_decide as Hc; [subst c; simpl; by rewrite <- IH|]. rewrite <- IH. by destruct ps.
Qed.

(** Segments have no colon. *)
Definition flat (s : string) : Prop := splitColon s = [s].

Lemma split_app p s : flat p → splitColon (p +:+ ":" +:+ s) = p :: splitColon s.
Proof.
  unfold flat. induction p as [|c p IH]; intros Hp.
  - rewrite app_nil, app_cons, app_nil. simpl. by destruct (splitColon_cons s) as (q & qs & ->).
  - revert Hp. change (String c p +:+ ":" +:+ s) with (String c (p +:+ ":" +:+ s)). simpl.
    destruct (splitColon_cons p) as (q & qs & E). rewrite E. case_decide as Hc; [by intros [=]|].
    intros [= -> ->]. by rewrite (IH E).
Qed.

Lemma split_app_any t s : splitColon (t +:+ ":" +:+ s) = splitColon t ++ splitColon s.
Proof.
  induction t as [|c t IH]; [apply (split_app ""); done|].
  rewrite app_cons. simpl. rewrite IH.
  destruct (splitColon_cons t) as (p & ps & ->). simpl. by case_decide.
Qed.

(** ** The round trip *)

(** A channel or suffix value the text can carry: not empty, no marker among its segments. *)
Definition carried (v : string) : Prop := v ≠ "" ∧ Forall (fun p => suffixOrder p = None) (splitColon v).

(** Keys the text can carry. *)
Record plain (k : SessionKey) : Prop := {
  plain_tenant : flat (tenantId k) ∧ tenantId k ≠ "";
  plain_agent : flat (agentId k) ∧ agentId k ≠ "";
  plain_user : flat (userId k) ∧ userId k ≠ "";
  plain_channel : carried (channelId k);
  plain_peer v : peerId k = Some v → carried v;
  plain_guild v : guildId k = Some v → carried v;
  plain_thread v : threadId k = Some v → carried v;
}.

Lemma append_empty (s : string) : s +:+ "" = s.
Proof. induction s as [|c s IH]; [done|]. by rewrite app_cons, IH. Qed.

(** The segments of the suffixes of a key. *)
Definition suffixParts (marker : string) (o : option string) : list string :=
  match o with Some v => marker :: splitColon v | None => [] end.

Lemma split_suffix t marker o :
  flat marker → splitColon (t +:+ suffix marker o) = splitColon t ++ suffixParts marker o.
Proof.
  intros Hm. destruct o as [v|]; simpl; [|by rewrite append_empty, app_nil_r].
  rewrite split_app_any. f_equal. by apply split_app.
Qed.

Lemma takeSegment_carried v rest :
  Forall (fun p => suffixOrder p = None) (splitColon v) →
  match rest with [] => True | p :: _ => is_Some (suffixOrder p) end →
  takeSegment (splitColon v ++ rest) = (splitColon v, rest).
Proof.
  intros Hv Hr. induction Hv as [|p l Hp Hl IH]; simpl.
  - destruct rest as [|p rest]; [done|]. simpl. destruct Hr as [n ->]. done.
  - by rewrite Hp, IH.
Qed.

Lemma nonEmpty_true s : s ≠ "" → nonEmpty s = true.
Proof. intros. unfold nonEmpty. by rewrite bool_decide_false. Qed.

(** One suffix is read back. *)
Lemma parseSuffixes_some fuel marker order v rest next k :
  suffixOrder marker = Some order → (next ≤ order)%nat → carried v →
  match rest with [] => True | p :: _ => is_Some (suffixOrder p) end →
  parseSuffixes (S fuel) (suffixParts marker (Some v) ++ rest) next k =
  parseSuffixes fuel rest (S order) (setSuffix order v k).
Proof.
  intros Hm Hn [Hv Hc] Hr. simpl. rewrite Hm. rewrite (proj2 (Nat.ltb_ge order next)) by done.
  rewrite (takeSegment_carried v rest Hc Hr). cbn [fst snd].
  assert (joinColon (splitColon v) = v) as Hj by apply joinColon_split.
  destruct (splitColon_cons v) as (p & ps & E). rewrite E in Hj |- *. simpl in Hj |- *. by rewrite Hj, nonEmpty_true.
Qed.

Definition setOptional (order : nat) (o : option string) (k : SessionKey) : SessionKey :=
  match o with Some v => setSuffix order v k | None => k end.

(** An optional suffix is read back, and the fuel left is enough for the rest. *)
Lemma parseSuffixes_optional fuel marker order o rest next k :
  suffixOrder marker = Some order → (next ≤ order)%nat → (∀ v, o = Some v → carried v) →
  match rest with [] => True | p :: _ => is_Some (suffixOrder p) end →
  (length (suffixParts marker o ++ rest) ≤ fuel)%nat →
  ∃ fuel' next', (length rest ≤ fuel')%nat ∧ (next' ≤ S order)%nat ∧
    parseSuffixes fuel (suffixParts marker o ++ rest) next k =
    parseSuffixes fuel' rest next' (setOptional order o k).
Proof.
  intros Hm Hn Hv Hr Hf. destruct o as [v|]; [|exists fuel, next; simpl in *; auto with lia].
  destruct fuel as [|fuel]; [simpl in Hf; lia|]. exists fuel, (S order).
  rewrite length_app in Hf. simpl in Hf. split; [lia|]. split; [done|].
  apply parseSuffixes_some; auto.
Qed.

Definition allSuffixes (k : SessionKey) : list string :=
  suffixParts "peer" (peerId k) ++ suffixParts "guild" (guildId k) ++ suffixParts "thread" (threadId k).

Lemma split_formatted k :
  plain k →
  splitColon (formatSessionKey k) =
  tenantId k :: "agent" :: agentId k :: userId k :: (splitColon (channelId k) ++ allSuffixes k).
Proof.
  intros [[Ht _] [Ha _] [Hu _] _ _ _ _]. unfold formatSessionKey, allSuffixes.
  change (":agent:" +:+ ?x) with (":" +:+ "agent" +:+ ":" +:+ x).
  rewrite (split_app _ _ Ht), (split_app "agent" _ eq_refl), (split_app _ _ Ha), (split_app _ _ Hu).
  do 4 f_equal. rewrite <- !app_assoc_str. rewrite !split_suffix by done.
  by rewrite !(assoc_L app).
Qed.

Lemma suffixes_start k : match allSuffixes k with [] => True | p :: _ => is_Some (suffixOrder p) end.
Proof. unfold allSuffixes. destruct (peerId k), (guildId k), (threadId k); simpl; eauto. Qed.

Lemma parse_suffixes k fuel :
  plain k → (length (allSuffixes k) ≤ fuel)%nat →
  parseSuffixes fuel (allSuffixes k) 0
    {| tenantId := tenantId k; agentId := agentId k; userId := userId k; channelId := channelId k;
       peerId := None; guildId := None; threadId := None |} = Some k.
Proof.
  intros [_ _ _ _ Hp Hg Ht] Hf. unfold allSuffixes in *.
  edestruct (parseSuffixes_optional fuel "peer" 0 (peerId k)) as (f1 & n1 & Hf1 & Hn1 & ->); [done..| |done|].
  { destruct (guildId k), (threadId k); simpl; eauto. }
  edestruct (parseSuffixes_optional f1 "guild" 1 (guildId k)) as (f2 & n2 & Hf2 & Hn2 & ->); [done..| |done|].
  { destruct (threadId k); simpl; eauto. }
  rewrite <- (app_nil_r (suffixParts "thread" _)) in Hf2 |- *.
  edestruct (parseSuffixes_optional f2 "thread" 2 (threadId k)) as (f3 & n3 & _ & _ & ->); [done..|].
  destruct k as [tn ag us ch [] [] []], f3; done.
Qed.

(** C38: the text of a session key can be parsed back: for a key whose required
    leading fields have no colon and whose other values have no reserved
    segment, parsing the text gives the key; and whatever the parser accepts is
    the text of the key it returns. *)
Theorem session_key_roundtrip :
  (∀ k, plain k → parseFormattedSessionKey (formatSessionKey k) = Some k) ∧
  (∀ s k, parseFormattedSessionKey s = Some k → formatSessionKey k = s).
Proof.
  split.
  - intros k Hk. unfold parseFormattedSessionKey. rewrite nonEmpty_true.
    2: { intros E. apply (f_equal splitColon) in E. rewrite (split_formatted k Hk) in E. done. }
    cbn [negb]. rewrite (split_formatted k Hk).
    destruct (splitColon_cons (channelId k)) as (p & ps & E). rewrite E. cbn [app]. cbv zeta.
    rewrite app_comm_cons, <- E.
    rewrite bool_decide_true by done. rewrite !nonEmpty_true by apply Hk. cbn [negb orb].
    destruct (plain_channel k Hk) as [Hc1 Hc2]. rewrite takeSegment_carried by (done || apply suffixes_start).
    cbn [fst snd]. rewrite joinColon_split, nonEmpty_true by done. cbn [negb].
    rewrite parse_suffixes by (done || (rewrite length_app; lia)). simpl. unfold parseSessionKey. rewrite !nonEmpty_true by apply Hk. simpl.
    by rewrite bool_decide_true.
  - intros s k. unfold parseFormattedSessionKey. destruct (negb (nonEmpty s)); [done|].
    destruct (splitColon s) as [|t [|m [|a [|u [|r rest]]]]]; try done. destruct (_ || _); [done|].
    destruct (negb _); [done|]. intros (k1 & _ & (k2 & _ & H)%bind_Some)%bind_Some.
    case_bool_decide as E; [|done]. by injection H as <-.
Qed.

(** A key of a forum thread in a group. *)
Definition sampleKey : SessionKey :=
  {| tenantId := "acme"; agentId := "helper"; userId := "ana"; channelId := "chat:one:room";
     peerId := None; guildId := Some "guild-7"; threadId := Some "topic:3" |}.

Example sampleKey_text : formatSessionKey sampleKey = "acme:agent:helper:ana:chat:one:room:guild:guild-7:thread:topic:3".
Proof. reflexivity. Qed.

End SessionKeys.
