(* ===== verification/SourceTerminal.v ===== *)
(** * Terminal outcomes of source messages

  Model of packages/orchestrator/src/source-message-terminal.ts.  Every ingress
  message owns a cell; a scope is a list of cells and publishes the terminal
  outcome of each of them at most once.  Cells of equal identity that meet in a
  merge share one [linked] set, a mutable object: the sets live in a heap and a
  cell holds a reference.  Publishing is split where observers run: the claim of
  the whole scope, then one event per claimed cell, so that an observer that
  publishes or merges in between is an interleaving of these steps. *)

From S2P Require Import Prelude CanonicalJson.

Open Scope string_scope.
Open Scope list_scope.

Module SourceTerminal.

(** [DeliveryStatus] and [SourceMessageTerminalReason] *)
Inductive Outcome := OSuccess | OError | OTimeout | OFiltered | OAborted.

Inductive Reason :=
| RGateHandled | RGateSkipped | RInboundRejected | RQueueDropped | RQueueRejected | RQueueAborted
| RForwarded | RExecutionCompleted.

Record Identity := { channelType : string; channelId : string; sourceMessageId : string }.

#[global] Instance Identity_eq_dec : EqDecision Identity.
Proof. solve_decision. Defined.

(** [linked] is the reference of a set of the heap. *)
Record Cell := { identity : Identity; published : bool; publishing : bool; linked : nat }.

(** An emitted [message:terminal] event, with the cell that emitted it. *)
Record Terminal := { tCell : nat; tIdentity : Identity; tOutcome : Outcome; tReason : Reason; tTimestamp : Z }.

Record Heap := { cells : list Cell; sets : list (list nat); emitted : list Terminal }.

Definition Scope := list nat.

Definition emptyHeap : Heap := {| cells := []; sets := []; emitted := [] |}.

Definition setCells (cs : list Cell) (h : Heap) : Heap := {| cells := cs; sets := sets h; emitted := emitted h |}.

Definition linkedOf (h : Heap) (c : Cell) : list nat := default [] (sets h !! linked c).

(** The assignments of a loop over a set of cells. *)
Definition assign (f : Cell → Cell) (ids : list nat) (cs : list Cell) : list Cell :=
  foldr (fun i cs => alter f i cs) cs ids.

Definition markPublished (c : Cell) : Cell :=
  {| identity := identity c; published := true; publishing := false; linked := linked c |}.

Definition markPublishing (c : Cell) : Cell :=
  {| identity := identity c; published := published c; publishing := true; linked := linked c |}.

Definition publishCell (o : Outcome) (r : Reason) (now : Z) (h : Heap) (i : nat) : Heap :=
  match cells h !! i with
  | Some c =>
      {| cells := assign markPublished (linkedOf h c) (cells h); sets := sets h;
         emitted := emitted h ++ [{| tCell := i; tIdentity := identity c; tOutcome := o; tReason := r; tTimestamp := now |}] |}
  | None => h
  end.

Definition openCell (h : Heap) (i : nat) : bool :=
  match cells h !! i with Some c => negb (published c) && negb (publishing c) | None => false end.

Definition claimed (h : Heap) (s : Scope) : list nat := filter (fun i => openCell h i = true) s.

Definition claimCell (h : Heap) (i : nat) : Heap :=
  match cells h !! i with
  | Some c => setCells (assign markPublishing (linkedOf h c) (cells h)) h
  | None => h
  end.

(** The claim of a whole scope, before the first observer runs. *)
Definition claim (h : Heap) (s : Scope) : Heap := foldl claimCell h (claimed h s).

(** [publish]: the heap after it and the number of events emitted. *)
Definition publish (s : Scope) (o : Outcome) (r : Reason) (now : Z) (h : Heap) : Heap * nat :=
  (foldl (publishCell o r now) (claim h s) (claimed h s), length (claimed h s)).

Definition isPublished (h : Heap) (s : Scope) : bool :=
  negb (bool_decide (s = [])) &&
  forallb (fun i => match cells h !! i with Some c => published c | None => false end) s.

(** [createSourceTerminalScope] *)
Definition createSourceTerminalScope (mChannelType mChannelId mId expectedChannelType : string) (h : Heap) : Heap * Scope :=
  if negb (bool_decide (mChannelType = expectedChannelType)) || bool_decide (mChannelId = "") || bool_decide (mId = "")
  then (h, [])
  else
    let i := length (cells h) in
    ({| cells := cells h ++ [{| identity := {| channelType := mChannelType; channelId := mChannelId; sourceMessageId := mId |};
                                published := false; publishing := false; linked := length (sets h) |}];
        sets := sets h ++ [[i]]; emitted := emitted h |}, [i]).

Definition someCell (P : Cell → bool) (h : Heap) (ids : list nat) : bool :=
  existsb (fun i => match cells h !! i with Some c => P c | None => false end) ids.

(** [new Set([...first, ...second])] *)
Definition union (a b : list nat) : list nat := a ++ filter (fun i => i ∉ a) b.

(** [linkDuplicateCells] *)
Definition linkDuplicateCells (h : Heap) (i j : nat) : Heap :=
  match cells h !! i, cells h !! j with
  | Some a, Some b =>
      if decide (linked a = linked b) then h else
      let l := union (linkedOf h a) (linkedOf h b) in
      let isPublished := someCell published h l in
      let isPublishing := negb isPublished && someCell publishing h l in
      let r := length (sets h) in
      {| cells := assign (fun c => {| identity := identity c; published := isPublished || published c;
                                      publishing := isPublishing; linked := r |}) l (cells h);
         sets := sets h ++ [l]; emitted := emitted h |}
  | _, _ => h
  end.

(** The key of a tuple in the merge: the JSON text of three strings. *)
Definition identityKey (d : Identity) : string :=
  CanonicalJson.stringifyArray [Some (channelType d); Some (channelId d); Some (sourceMessageId d)].

(** One cell of the merge: kept under its key, or linked to the cell kept there. *)
Definition mergeCell (st : Heap * jsmap string nat) (i : nat) : Heap * jsmap string nat :=
  let (h, m) := st in
  match cells h !! i with
  | Some c =>
      match mget m (identityKey (identity c)) with
      | None => (h, mset m (identityKey (identity c)) i)
      | Some j => (linkDuplicateCells h j i, m)
      end
  | None => st
  end.

(** [mergeSourceTerminalScopes] *)
Definition mergeSourceTerminalScopes (scopes : list Scope) (h : Heap) : Heap * Scope :=
  let r := foldl mergeCell (h, []) (mjoin scopes) in
  (r.1, r.2.*2).

(** ** Interleavings *)

(** A publication in progress: the cells claimed and not yet emitted. *)
Record Frame := { fCells : list nat; fOutcome : Outcome; fReason : Reason; fTimestamp : Z }.

(** The heap, the scopes handed out and the publications in progress; a publication
    is in progress while the observers of its events run. *)
Record Conf := { heap : Heap; scopes : list Scope; frames : list Frame }.

Definition start : Conf := {| heap := emptyHeap; scopes := []; frames := [] |}.

Inductive step : Conf → Conf → Prop :=
| StepCreate ct ci id ec h ss fs :
    let r := createSourceTerminalScope ct ci id ec h in
    step {| heap := h; scopes := ss; frames := fs |} {| heap := r.1; scopes := ss ++ [r.2]; frames := fs |}
| StepMerge l h ss fs :
    l ⊆ ss →
    let r := mergeSourceTerminalScopes l h in
    step {| heap := h; scopes := ss; frames := fs |} {| heap := r.1; scopes := ss ++ [r.2]; frames := fs |}
| StepClaim s o r now h ss fs :
    s ∈ ss →
    step {| heap := h; scopes := ss; frames := fs |}
         {| heap := claim h s; scopes := ss;
            frames := {| fCells := claimed h s; fOutcome := o; fReason := r; fTimestamp := now |} :: fs |}
| StepEmit i l o r now h ss fs :
    step {| heap := h; scopes := ss;
            frames := {| fCells := i :: l; fOutcome := o; fReason := r; fTimestamp := now |} :: fs |}
         {| heap := publishCell o r now h i; scopes := ss;
            frames := {| fCells := l; fOutcome := o; fReason := r; fTimestamp := now |} :: fs |}
| StepReturn o r now h ss fs :
    step {| heap := h; scopes := ss; frames := {| fCells := []; fOutcome := o; fReason := r; fTimestamp := now |} :: fs |}
         {| heap := h; scopes := ss; frames := fs |}.

(** ** Assignments to a set of cells *)

Lemma assign_length f ids cs : length (assign f ids cs) = length cs.
Proof. induction ids as [|i ids IH]; [done|]. simpl. by rewrite length_alter. Qed.

Lemma assign_lookup f ids cs j :
  (∀ c, f (f c) = f c) → assign f ids cs !! j = (if decide (j ∈ ids) then f else id) <$> cs !! j.
Proof.
  intros Hf. induction ids as [|i ids IH]; simpl.
  - destruct (decide (j ∈ [])) as [H|]; [by apply not_elem_of_nil in H|]. by destruct (cs !! j).
  - rewrite list_lookup_alter. destruct (decide (i = j)) as [->|Hne]; rewrite IH;
      destruct (decide (j ∈ _ :: ids)) as [Hj|Hj], (decide (j ∈ ids)) as [Hd|Hd];
      try done; try (rewrite elem_of_cons in Hj; naive_solver); destruct (cs !! j); simpl; by rewrite ?Hf.
Qed.

Lemma union_spec a b i : i ∈ union a b ↔ i ∈ a ∨ i ∈ b.
Proof. unfold union. rewrite elem_of_app, list_elem_of_filter. destruct (decide (i ∈ a)); naive_solver. Qed.

(** ** Well-formed heaps *)

Definition sameClass (h : Heap) (i j : nat) : Prop :=
  ∃ c d, cells h !! i = Some c ∧ cells h !! j = Some d ∧ linked c = linked d.

(** A cell's set is its class; a class has one identity and one state. *)
Record WfHeap (h : Heap) : Prop := {
  wf_class i c : cells h !! i = Some c →
    is_Some (sets h !! linked c) ∧ ∀ j, j ∈ linkedOf h c ↔ ∃ d, cells h !! j = Some d ∧ linked d = linked c;
  wf_uniform i j c d : cells h !! i = Some c → cells h !! j = Some d → linked c = linked d →
    identity c = identity d ∧ published c = published d ∧ publishing c = publishing d;
}.

Lemma sameClass_refl h i c : cells h !! i = Some c → sameClass h i i.
Proof. intros H. by exists c, c. Qed.

Lemma sameClass_trans h i j k : sameClass h i j → sameClass h j k → sameClass h i k.
Proof. intros (c & d & Hc & Hd & E) (d' & e & Hd' & He & E'). simplify_eq. exists c, e. split_and!; congruence. Qed.

Lemma sameClass_sym h i j : sameClass h i j → sameClass h j i.
Proof. intros (c & d & ? & ? & ?). by exists d, c. Qed.

(** The marking of a class. *)
Lemma mark_lookup (f : Cell → Cell) h i c j :
  WfHeap h → (∀ c, f (f c) = f c) → cells h !! i = Some c →
  assign f (linkedOf h c) (cells h) !! j =
  (fun d => if decide (linked d = linked c) then f d else d) <$> cells h !! j.
Proof.
  intros Hwf Hf Hc. rewrite (assign_lookup f _ _ j Hf). destruct (wf_class h Hwf i c Hc) as [_ Hl].
  specialize (Hl j). destruct (cells h !! j) as [d|]; [|done]. simpl. f_equal.
  destruct (decide (j ∈ linkedOf h c)) as [Hj|Hj], (decide (linked d = linked c)) as [Hd|Hd]; try done.
  - destruct Hl as [Hl _]. destruct (Hl Hj) as (? & [= <-] & ?). done.
  - destruct Hj. apply Hl. eauto.
Qed.

(** A change of the cells that keeps identities and sets, and treats a class alike. *)
Lemma wf_mark (f : Cell → Cell) h i c (es : list Terminal) :
  WfHeap h → (∀ c, f (f c) = f c) → (∀ c, identity (f c) = identity c ∧ linked (f c) = linked c) →
  (∀ c d, published c = published d → publishing c = publishing d →
     published (f c) = published (f d) ∧ publishing (f c) = publishing (f d)) →
  cells h !! i = Some c →
  let h' := {| cells := assign f (linkedOf h c) (cells h); sets := sets h; emitted := es |} in
  WfHeap h' ∧ ∀ j k, sameClass h' j k ↔ sameClass h j k.
Proof.
  intros Hwf Hf Hid Hfl Hc h'.
  assert (∀ j, cells h' !! j = (fun d => if decide (linked d = linked c) then f d else d) <$> cells h !! j) as Hlk
    by (intros j; by apply (mark_lookup f h i c j)).
  assert (∀ d, linked (if decide (linked d = linked c) then f d else d) = linked d) as Hln
    by (intros d; case_decide; [apply Hid|done]).
  split.
  - split.
    + intros j d Hd. rewrite Hlk in Hd. apply fmap_Some in Hd as (d0 & Hd0 & ->). unfold linkedOf. rewrite Hln. simpl.
      destruct (wf_class h Hwf j d0 Hd0) as [Hs Hl]. split; [done|]. intros k. unfold linkedOf in Hl. rewrite Hl.
      split; intros (e & He & El).
      * eexists. change (assign f (linkedOf h c) (cells h)) with (cells h').
        rewrite Hlk, He. simpl. split; [done|]. by rewrite Hln.
      * change (assign f (linkedOf h c) (cells h)) with (cells h') in He. rewrite Hlk in He.
        apply fmap_Some in He as (e0 & He0 & ->). rewrite Hln in El. eauto.
    + intros j k d e Hd He El. rewrite Hlk in Hd, He. apply fmap_Some in Hd as (d0 & Hd0 & ->).
      apply fmap_Some in He as (e0 & He0 & ->). rewrite !Hln in El.
      destruct (wf_uniform h Hwf j k d0 e0 Hd0 He0 El) as (? & ? & ?). rewrite El.
      case_decide; [|done]. destruct (Hid d0) as [-> _], (Hid e0) as [-> _]. split; [done|]. by apply Hfl.
  - intros j k. unfold sameClass. setoid_rewrite Hlk. split.
    + intros (d & e & (d0 & ? & ->)%fmap_Some & (e0 & ? & ->)%fmap_Some & El). rewrite !Hln in El. by exists d0, e0.
    + intros (d & e & Hd & He & El). rewrite Hd, He. simpl. do 2 eexists. split; [done|]. split; [done|]. by rewrite !Hln.
Qed.

(** ** Linking *)

Section Link.
Context (h : Heap) (i j : nat) (a b : Cell).
Hypotheses (Hwf : WfHeap h) (Ha : cells h !! i = Some a) (Hb : cells h !! j = Some b)
  (Hne : linked a ≠ linked b) (Hid : identity a = identity b).

Definition merged (d : Cell) : Prop := linked d = linked a ∨ linked d = linked b.

#[local] Instance merged_dec d : Decision (merged d) := ltac:(unfold merged; apply _).

Definition joined (d : Cell) : Cell :=
  {| identity := identity d; published := published a || published b;
     publishing := negb (published a || published b) && (publishing a || publishing b); linked := length (sets h) |}.

Lemma in_union k : k ∈ union (linkedOf h a) (linkedOf h b) ↔ ∃ d, cells h !! k = Some d ∧ merged d.
Proof.
  rewrite union_spec. destruct (wf_class h Hwf i a Ha) as [_ ->], (wf_class h Hwf j b Hb) as [_ ->].
  unfold merged. naive_solver.
Qed.

Lemma someCell_union (P : Cell → bool) :
  (∀ c d, published c = published d → publishing c = publishing d → P c = P d) →
  someCell P h (union (linkedOf h a) (linkedOf h b)) = P a || P b.
Proof.
  intros HP. apply Bool.eq_iff_eq_true. unfold someCell. rewrite existsb_exists, orb_true_iff. split.
  - intros (k & Hk%list_elem_of_In & Hp). apply in_union in Hk as (d & Hd & Hm). rewrite Hd in Hp.
    destruct Hm as [E|E]; [left|right].
    + destruct (wf_uniform h Hwf k i d a Hd Ha E) as (_ & E1 & E2). by rewrite <- (HP d a E1 E2).
    + destruct (wf_uniform h Hwf k j d b Hd Hb E) as (_ & E1 & E2). by rewrite <- (HP d b E1 E2).
  - intros [Hp|Hp]; [exists i|exists j]; (split; [apply list_elem_of_In, in_union; unfold merged; eauto|]).
    + by rewrite Ha.
    + by rewrite Hb.
Qed.

Lemma link_unfold :
  linkDuplicateCells h i j =
  {| cells := assign (fun c => {| identity := identity c; published := published a || published b || published c;
                                  publishing := negb (published a || published b) && (publishing a || publishing b);
                                  linked := length (sets h) |})
                     (union (linkedOf h a) (linkedOf h b)) (cells h);
     sets := sets h ++ [union (linkedOf h a) (linkedOf h b)]; emitted := emitted h |}.
Proof.
  unfold linkDuplicateCells. rewrite Ha, Hb, decide_False by done. cbv zeta.
  rewrite (someCell_union published) by done. by rewrite (someCell_union publishing) by done.
Qed.

Lemma link_lookup k :
  cells (linkDuplicateCells h i j) !! k = (fun d => if decide (merged d) then joined d else d) <$> cells h !! k.
Proof.
  rewrite link_unfold. simpl. rewrite assign_lookup; [|intros []; simpl; by rewrite orb_assoc, orb_diag].
  pose proof (in_union k) as Hu. destruct (cells h !! k) as [d|] eqn:Hd; [|done]. simpl. f_equal.
  destruct (decide (k ∈ union _ _)) as [Hk|Hk], (decide (merged d)) as [Hm|Hm]; try done.
  - unfold joined. f_equal. destruct (published a || published b) eqn:E; [done|]. simpl.
    apply orb_false_iff in E as [E1 E2].
    destruct Hm as [El|El].
    + destruct (wf_uniform h Hwf k i d a Hd Ha El) as (_ & -> & _). done.
    + destruct (wf_uniform h Hwf k j d b Hd Hb El) as (_ & -> & _). done.
  - destruct Hm. apply Hu in Hk as (? & [= <-] & ?). done.
  - destruct Hk. apply Hu. eauto.
Qed.

Lemma linked_fresh k d : cells h !! k = Some d → (linked d < length (sets h))%nat.
Proof. intros Hd. destruct (wf_class h Hwf k d Hd) as [[l Hl] _]. by apply lookup_lt_Some in Hl. Qed.

Lemma link_linked d e :
  (linked d < length (sets h))%nat → (linked e < length (sets h))%nat →
  (linked (if decide (merged d) then joined d else d) = linked (if decide (merged e) then joined e else e) ↔
   linked d = linked e ∨ (merged d ∧ merged e)).
Proof.
  intros Hd He. unfold merged. destruct (decide _) as [Hd'|Hd'], (decide _) as [He'|He']; simpl; split; try naive_solver lia.
Qed.

Lemma merged_identity k d : cells h !! k = Some d → merged d → identity d = identity a.
Proof.
  intros Hd [E|E]; [by apply (wf_uniform h Hwf k i d a)|]. rewrite Hid. by apply (wf_uniform h Hwf k j d b).
Qed.

Lemma link_wf : WfHeap (linkDuplicateCells h i j).
Proof.
  split.
  - intros k c Hc. rewrite link_lookup in Hc. apply fmap_Some in Hc as (c0 & Hc0 & ->).
    assert (sets (linkDuplicateCells h i j) = sets h ++ [union (linkedOf h a) (linkedOf h b)]) as Hs by by rewrite link_unfold.
    pose proof (linked_fresh k c0 Hc0) as Hf. unfold linkedOf at 1. rewrite Hs.
    setoid_rewrite link_lookup. destruct (decide (merged c0)) as [Hm|Hm].
    + simpl. rewrite list_lookup_middle by done. split; [by eexists|]. intros m. simpl. rewrite in_union.
      split; [intros (d & -> & Hd); eexists; simpl; split; [done|]; by rewrite decide_True|].
      intros (d & (d0 & Hd0 & ->)%fmap_Some & E). exists d0. split; [done|].
      case_decide as Hd; [done|]. pose proof (linked_fresh m d0 Hd0). lia.
    + rewrite lookup_app_l by done. destruct (wf_class h Hwf k c0 Hc0) as [Hsome Hl]. split; [done|].
      intros m. unfold linkedOf in Hl. rewrite Hl. split.
      * intros (d & -> & E). eexists. split; [done|]. rewrite decide_False; [done|].
        intros Hd. apply Hm. destruct Hd as [Hd|Hd]; rewrite E in Hd; unfold merged; auto.
      * intros (d & (d0 & Hd0 & ->)%fmap_Some & E). exists d0. split; [done|].
        case_decide as Hd; [|done]. simpl in E. lia.
  - intros k m c d Hc Hd E. rewrite link_lookup in Hc, Hd. apply fmap_Some in Hc as (c0 & Hc0 & ->).
    apply fmap_Some in Hd as (d0 & Hd0 & ->).
    apply link_linked in E; [|by eapply linked_fresh..].
    pose proof (merged_identity k c0 Hc0) as Hic. pose proof (merged_identity m d0 Hd0) as Hidd.
    destruct (decide (merged c0)) as [Hmc|Hmc], (decide (merged d0)) as [Hmd|Hmd]; simpl.
    + split; [by rewrite Hic, Hidd|done].
    + exfalso. unfold merged in *. naive_solver congruence.
    + exfalso. unfold merged in *. naive_solver congruence.
    + destruct E as [E|[]]; [|done]. by apply (wf_uniform h Hwf k m c0 d0).
Qed.

(** A merged cell had the state of one of the two cells. *)
Lemma merged_state k d :
  cells h !! k = Some d → merged d →
  (published d = published a ∧ publishing d = publishing a) ∨ (published d = published b ∧ publishing d = publishing b).
Proof.
  intros Hd [E|E]; [left; by apply (wf_uniform h Hwf k i d a)|right; by apply (wf_uniform h Hwf k j d b)].
Qed.

Lemma link_sameClass k m :
  sameClass (linkDuplicateCells h i j) k m ↔
  sameClass h k m ∨ (∃ c d, cells h !! k = Some c ∧ cells h !! m = Some d ∧ merged c ∧ merged d).
Proof.
  unfold sameClass. setoid_rewrite link_lookup. split.
  - intros (c & d & (c0 & Hc0 & ->)%fmap_Some & (d0 & Hd0 & ->)%fmap_Some & E).
    apply link_linked in E as [E|[]]; [left|right|by eapply linked_fresh..]; by exists c0, d0.
  - intros H. assert (∃ c d, cells h !! k = Some c ∧ cells h !! m = Some d ∧ (linked c = linked d ∨ (merged c ∧ merged d)))
      as (c & d & Hc & Hd & E) by naive_solver.
    rewrite Hc, Hd. simpl. do 2 eexists. split; [done|]. split; [done|]. apply link_linked; [by eapply linked_fresh..|done].
Qed.

Lemma link_merged k d : cells h !! k = Some d → merged d →
  sameClass (linkDuplicateCells h i j) k i ∧ sameClass (linkDuplicateCells h i j) k j.
Proof. intros Hd Hm. split; apply link_sameClass; right; [exists d, a|exists d, b]; unfold merged; auto. Qed.

(** A cell reached from either of the two cells before is reached from a merged one after. *)
Lemma link_reach k d m : cells h !! k = Some d → merged d → sameClass h i m ∨ sameClass h j m →
  sameClass (linkDuplicateCells h i j) k m.
Proof.
  intros Hd Hm H. destruct (link_merged k d Hd Hm) as [H1 H2].
  destruct H as [H|H]; [apply (sameClass_trans _ k i m H1)|apply (sameClass_trans _ k j m H2)];
    apply link_sameClass; by left.
Qed.

End Link.

(** ** The invariant of publication *)

(** [pend] are the cells claimed and not yet emitted. *)
Record Inv (h : Heap) (pend : list nat) : Prop := {
  inv_wf : WfHeap h;
  inv_once : NoDup (pend ++ (tCell <$> emitted h));
  inv_pend i : i ∈ pend → ∃ c, cells h !! i = Some c ∧ published c || publishing c = true;
  inv_emit t : t ∈ emitted h → ∃ c, cells h !! tCell t = Some c ∧ published c = true ∧ identity c = tIdentity t;
  inv_publishing i c : cells h !! i = Some c → publishing c = true → ∃ j, j ∈ pend ∧ sameClass h i j;
  inv_published i c : cells h !! i = Some c → published c = true → ∃ t, t ∈ emitted h ∧ sameClass h i (tCell t);
}.

#[global] Instance Inv_perm : Proper (eq ==> (≡ₚ) ==> iff) Inv.
Proof.
  assert (∀ h l k, l ≡ₚ k → Inv h l → Inv h k) as H.
  { intros h l k Hp [H1 H2 H3 H4 H5 H6]. split; try done.
    - by rewrite <- Hp.
    - intros i. rewrite <- Hp. apply H3.
    - intros i c Hc Hpub. destruct (H5 i c Hc Hpub) as (j & Hj & ?). exists j. by rewrite <- Hp. }
  intros h ? <- l k Hp. split; apply H; [done|by symmetry].
Qed.

Lemma inv_empty : Inv emptyHeap [].
Proof. split; simpl; try constructor; simpl; try done; intros ? Hx; by apply not_elem_of_nil in Hx. Qed.

Lemma openCell_true h i : openCell h i = true ↔ ∃ c, cells h !! i = Some c ∧ published c = false ∧ publishing c = false.
Proof.
  unfold openCell. destruct (cells h !! i) as [c|]; [|naive_solver].
  rewrite andb_true_iff, !negb_true_iff. naive_solver.
Qed.

(** An open cell was never claimed. *)
Lemma open_unclaimed h pend i : Inv h pend → openCell h i = true → i ∉ pend ++ (tCell <$> emitted h).
Proof.
  intros HI (c & Hc & H1 & H2)%openCell_true [Hp|(t & -> & Ht)%list_elem_of_fmap]%elem_of_app.
  - destruct (inv_pend h pend HI i Hp) as (c' & Hc' & E). simplify_eq. by rewrite H1, H2 in E.
  - destruct (inv_emit h pend HI t Ht) as (c' & Hc' & E & _). simplify_eq. congruence.
Qed.

Lemma claimCell_lookup h i c j :
  WfHeap h → cells h !! i = Some c →
  cells (claimCell h i) !! j = (fun d => if decide (linked d = linked c) then markPublishing d else d) <$> cells h !! j.
Proof. intros Hwf Hc. unfold claimCell. rewrite Hc. simpl. by apply (mark_lookup _ h i c j). Qed.

Lemma claimCell_class h i : WfHeap h → WfHeap (claimCell h i) ∧ ∀ j k, sameClass (claimCell h i) j k ↔ sameClass h j k.
Proof.
  intros Hwf. unfold claimCell. destruct (cells h !! i) as [c|] eqn:Hc; [|done].
  apply (wf_mark markPublishing h i c (emitted h)); done.
Qed.

Lemma claimCell_emitted h i : emitted (claimCell h i) = emitted h.
Proof. unfold claimCell. by destruct (cells h !! i). Qed.

Lemma claimCell_inv h pend i : Inv h pend → openCell h i = true → Inv (claimCell h i) (i :: pend).
Proof.
  intros HI Ho. pose proof (open_unclaimed h pend i HI Ho) as Hfresh.
  apply openCell_true in Ho as (c & Hc & Hp & Hq). pose proof (inv_wf h pend HI) as Hwf.
  destruct (claimCell_class h i Hwf) as [Hwf' Hsc]. pose proof (fun j => claimCell_lookup h i c j Hwf Hc) as Hlk.
  split; [done|..]; rewrite ?claimCell_emitted.
  - simpl. constructor; [done|apply HI].
  - intros j Hj. rewrite Hlk. apply elem_of_cons in Hj as [->|Hj].
    + rewrite Hc. simpl. eexists; split; [done|]. rewrite decide_True by done. simpl. by rewrite orb_true_r.
    + destruct (inv_pend h pend HI j Hj) as (d & -> & E). simpl. eexists; split; [done|].
      case_decide; simpl; [by rewrite orb_true_r|done].
  - intros t Ht. rewrite Hlk. destruct (inv_emit h pend HI t Ht) as (d & -> & E & Hi). simpl.
    eexists; split; [done|]. by case_decide.
  - intros j d Hd Hpub. setoid_rewrite Hsc. rewrite Hlk in Hd. apply fmap_Some in Hd as (d0 & Hd0 & ->).
    case_decide as El; [exists i; split; [left|by exists d0, c]|].
    destruct (inv_publishing h pend HI j d0 Hd0 Hpub) as (k & ? & ?). exists k. split; [by right|done].
  - intros j d Hd Hpub. setoid_rewrite Hsc. rewrite Hlk in Hd. apply fmap_Some in Hd as (d0 & Hd0 & ->).
    apply (inv_published h pend HI j d0 Hd0). by case_decide.
Qed.

Lemma claims_inv l h pend :
  Inv h pend → NoDup l → (∀ i, i ∈ l → openCell h i = true) →
  (∀ i j, i ∈ l → j ∈ l → sameClass h i j → i = j) →
  Inv (foldl claimCell h l) (l ++ pend).
Proof.
  revert h pend. induction l as [|i l IH]; intros h pend HI Hnd Ho Hc; [done|].
  apply NoDup_cons in Hnd as [Hi Hnd]. simpl.
  assert (i :: l ++ pend ≡ₚ l ++ i :: pend) as -> by apply Permutation_middle.
  pose proof (inv_wf h pend HI) as Hwf. destruct (claimCell_class h i Hwf) as [_ Hsc].
  assert (openCell h i = true) as Hoi by (apply Ho; left).
  apply IH; [by apply claimCell_inv|done| |].
  - intros j Hj. assert (openCell h j = true) as Hoj by (apply Ho; by right).
    apply openCell_true in Hoi as (c & Hci & _). apply openCell_true in Hoj as (d & Hd & Hd1 & Hd2). apply openCell_true.
    rewrite (claimCell_lookup h i c j Hwf Hci), Hd. simpl. exists d. rewrite decide_False; [done|].
    intros E. destruct Hi. rewrite (Hc i j); [done|left|by right|by exists c, d].
  - intros j k Hj Hk. rewrite Hsc. apply Hc; by right.
Qed.

Lemma publishCell_inv o r now h pend i : Inv h (i :: pend) → Inv (publishCell o r now h i) pend.
Proof.
  intros HI. pose proof (inv_wf h _ HI) as Hwf. destruct (inv_pend h _ HI i ltac:(left)) as (c & Hc & Hcp).
  unfold publishCell. rewrite Hc.
  set (h' := {| cells := _; sets := _; emitted := _ |}).
  destruct (wf_mark markPublished h i c (emitted h') Hwf) as [Hwf' Hsc]; [done..|].
  change {| cells := _; sets := _; emitted := _ |} with h' in Hsc.
  assert (∀ j, cells h' !! j = (fun d => if decide (linked d = linked c) then markPublished d else d) <$> cells h !! j) as Hlk
    by (intros j; by apply (mark_lookup _ h i c j)).
  split; [done|..].
  - pose proof (inv_once h _ HI) as Hn. simpl. rewrite fmap_app. simpl.
    by rewrite (assoc_L app), (comm app).
  - intros j Hj. rewrite Hlk. destruct (inv_pend h _ HI j ltac:(by right)) as (d & -> & E). simpl. eexists; split; [done|].
    case_decide; done.
  - intros t Ht. rewrite Hlk. simpl in Ht. apply elem_of_app in Ht as [Ht| ->%list_elem_of_singleton].
    + destruct (inv_emit h _ HI t Ht) as (d & -> & E & Hi). simpl. eexists; split; [done|]. by case_decide.
    + simpl. rewrite Hc. simpl. eexists; split; [done|]. by rewrite decide_True.
  - intros j d Hd Hpub. setoid_rewrite Hsc. rewrite Hlk in Hd. apply fmap_Some in Hd as (d0 & Hd0 & ->).
    case_decide as El; [done|]. destruct (inv_publishing h _ HI j d0 Hd0 Hpub) as (k & Hk & Hs).
    apply elem_of_cons in Hk as [->|Hk]; [|by exists k]. destruct Hs as (? & ? & ? & ? & ?). simplify_eq.
  - intros j d Hd Hpub. setoid_rewrite Hsc. rewrite Hlk in Hd. apply fmap_Some in Hd as (d0 & Hd0 & ->). simpl.
    setoid_rewrite elem_of_app. case_decide as El.
    + eexists. split; [right; by apply list_elem_of_singleton|]. by exists d0, c.
    + destruct (inv_published h _ HI j d0 Hd0 Hpub) as (t & Ht & Hs). exists t. auto.
Qed.

Lemma link_inv h pend i j :
  Inv h pend →
  (∀ a b, cells h !! i = Some a → cells h !! j = Some b → identity a = identity b) →
  Inv (linkDuplicateCells h i j) pend.
Proof.
  intros HI Hid. destruct (cells h !! i) as [a|] eqn:Ha; [|unfold linkDuplicateCells; by rewrite Ha].
  destruct (cells h !! j) as [b|] eqn:Hb; [|unfold linkDuplicateCells; by rewrite Ha, Hb].
  destruct (decide (linked a = linked b)) as [El|El];
    [unfold linkDuplicateCells; by rewrite Ha, Hb, decide_True|].
  specialize (Hid a b eq_refl eq_refl). pose proof (inv_wf h _ HI) as Hwf.
  pose proof (link_lookup h i j a b Hwf Ha Hb El) as Hlk. pose proof (link_sameClass h i j a b Hwf Ha Hb El) as Hsc.
  assert (emitted (linkDuplicateCells h i j) = emitted h) as Hem by by rewrite (link_unfold h i j a b).
  assert (∀ k d, cells h !! k = Some d → merged a b d → _) as Hst by exact (merged_state h i j a b Hwf Ha Hb).
  assert (∀ k d m, cells h !! k = Some d → merged a b d → _) as Hre by exact (link_reach h i j a b Hwf Ha Hb El).
  split; rewrite ?Hem; [by apply (link_wf h i j a b)|apply HI|..].
  - intros k Hk. rewrite Hlk. destruct (inv_pend h _ HI k Hk) as (d & Hd & E). rewrite Hd. simpl. eexists; split; [done|].
    case_decide as Hm; [|done]. simpl. destruct (Hst k d Hd Hm) as [[E1 E2]|[E1 E2]]; rewrite E1, E2 in E;
      destruct (published a), (published b), (publishing a), (publishing b); done.
  - intros t Ht. rewrite Hlk. destruct (inv_emit h _ HI t Ht) as (d & Hd & E & Hi). rewrite Hd. simpl.
    eexists; split; [done|]. case_decide as Hm; [|done]. simpl. split; [|done]. apply orb_true_iff.
    destruct (Hst _ d Hd Hm) as [[E1 _]|[E1 _]]; [left|right]; congruence.
  - intros k d Hd Hpub. rewrite Hlk in Hd. apply fmap_Some in Hd as (d0 & Hd0 & ->). case_decide as Hm.
    + simpl in Hpub. apply andb_true_iff in Hpub as [_ [Hq|Hq]%orb_true_iff].
      * destruct (inv_publishing h _ HI i a Ha Hq) as (m & ? & ?). eauto.
      * destruct (inv_publishing h _ HI j b Hb Hq) as (m & ? & ?). eauto.
    + destruct (inv_publishing h _ HI k d0 Hd0 Hpub) as (m & ? & ?). exists m. rewrite Hsc. auto.
  - intros k d Hd Hpub. rewrite Hlk in Hd. apply fmap_Some in Hd as (d0 & Hd0 & ->). case_decide as Hm.
    + simpl in Hpub. apply orb_true_iff in Hpub as [Hq|Hq].
      * destruct (inv_published h _ HI i a Ha Hq) as (m & ? & ?). eauto.
      * destruct (inv_published h _ HI j b Hb Hq) as (m & ? & ?). eauto.
    + destruct (inv_published h _ HI k d0 Hd0 Hpub) as (m & ? & ?). exists m. rewrite Hsc. auto.
Qed.

(** ** What every operation keeps *)

(** Cells, identities and classes stay, outcomes and events are only added. *)
Record Grows (h h' : Heap) : Prop := {
  gr_cells k c : cells h !! k = Some c → ∃ c', cells h' !! k = Some c' ∧ identity c' = identity c ∧
                   (published c = true → published c' = true);
  gr_class k m : sameClass h k m → sameClass h' k m;
  gr_emitted : emitted h `prefix_of` emitted h';
}.

#[global] Instance Grows_preorder : PreOrder Grows.
Proof.
  split.
  - intros h. split; [eauto|done|done].
  - intros h1 h2 h3 [A1 B1 C1] [A2 B2 C2]. split.
    + intros k c Hc. destruct (A1 k c Hc) as (c1 & H1 & E1 & P1). destruct (A2 k c1 H1) as (c2 & H2 & E2 & P2).
      exists c2. split_and!; [done|congruence|auto].
    + auto.
    + by etrans.
Qed.

Lemma claimCell_grows h i : WfHeap h → Grows h (claimCell h i).
Proof.
  intros Hwf. destruct (claimCell_class h i Hwf) as [_ Hsc]. split; [|naive_solver|by rewrite claimCell_emitted].
  intros k c Hc. destruct (cells h !! i) as [d|] eqn:Hd; [|unfold claimCell; rewrite Hd; eauto].
  rewrite (claimCell_lookup h i d k Hwf Hd), Hc. simpl. eexists; split; [done|]. by case_decide.
Qed.

Lemma publishCell_grows o r now h i : WfHeap h → WfHeap (publishCell o r now h i) ∧ Grows h (publishCell o r now h i).
Proof.
  intros Hwf. unfold publishCell. destruct (cells h !! i) as [c|] eqn:Hc; [|done].
  destruct (wf_mark markPublished h i c (emitted h ++
    [{| tCell := i; tIdentity := identity c; tOutcome := o; tReason := r; tTimestamp := now |}]) Hwf) as [Hwf' Hsc]; [done..|].
  split; [done|]. split; [|naive_solver|by eexists]. intros k d Hd. simpl.
  rewrite (mark_lookup markPublished h i c k Hwf) by done. rewrite Hd. simpl. eexists; split; [done|]. by case_decide.
Qed.

Lemma link_grows h i j :
  WfHeap h → (∀ a b, cells h !! i = Some a → cells h !! j = Some b → identity a = identity b) →
  WfHeap (linkDuplicateCells h i j) ∧ Grows h (linkDuplicateCells h i j) ∧
  (is_Some (cells h !! i) → is_Some (cells h !! j) → sameClass (linkDuplicateCells h i j) i j).
Proof.
  intros Hwf Hid. destruct (cells h !! i) as [a|] eqn:Ha; [|unfold linkDuplicateCells; rewrite Ha; by split_and!; [..|intros []]].
  destruct (cells h !! j) as [b|] eqn:Hb; [|unfold linkDuplicateCells; rewrite Ha, Hb; by split_and!; [..|intros _ []]].
  destruct (decide (linked a = linked b)) as [El|El].
  { unfold linkDuplicateCells. rewrite Ha, Hb, decide_True by done. split_and!; [done..|]. intros _ _. by exists a, b. }
  specialize (Hid a b eq_refl eq_refl). pose proof (link_sameClass h i j a b Hwf Ha Hb El) as Hsc.
  split; [by apply (link_wf h i j a b)|]. split.
  - split; [|intros k m Hs; rewrite Hsc; by left|by rewrite (link_unfold h i j a b)].
    intros k c Hc. rewrite (link_lookup h i j a b) by done. rewrite Hc. simpl. eexists; split; [done|].
    case_decide as Hm; [|done]. simpl. split; [done|]. intros Hp. apply orb_true_iff.
    destruct (merged_state h i j a b Hwf Ha Hb k c Hc Hm) as [[E1 _]|[E1 _]]; [left|right]; congruence.
  - intros _ _. apply Hsc. right. exists a, b. unfold merged. auto.
Qed.

(** ** Merging *)

Lemma identityKey_inj d e : identityKey d = identityKey e → d = e.
Proof. intros E%CanonicalJson.stringifyArray_inj. destruct d, e. simpl in E. by simplify_eq. Qed.

(** The table of a merge: every cell is kept under the key of its identity. *)
Definition TableOk (h : Heap) (m : jsmap string nat) : Prop :=
  NoDup (mkeys m) ∧ ∀ k i, (k, i) ∈ m → ∃ c, cells h !! i = Some c ∧ identityKey (identity c) = k.

Lemma table_grows h h' m : Grows h h' → TableOk h m → TableOk h' m.
Proof.
  intros HG [Hn Hm]. split; [done|]. intros k i Hi. destruct (Hm k i Hi) as (c & Hc & E).
  destruct (gr_cells h h' HG i c Hc) as (c' & Hc' & Ei & _). exists c'. by rewrite Ei.
Qed.

(** The kept cells cover the cells met so far. *)
Definition covers (h : Heap) (s : list nat) (i : nat) : Prop := ∃ j, j ∈ s ∧ sameClass h i j.

Lemma covers_grows h h' s i : Grows h h' → covers h s i → covers h' s i.
Proof. intros HG (j & Hj & Hs). exists j. split; [done|]. by apply (gr_class h h' HG). Qed.

Lemma mergeCell_spec h m pend i h' m' :
  Inv h pend → TableOk h m → is_Some (cells h !! i) → mergeCell (h, m) i = (h', m') →
  Inv h' pend ∧ TableOk h' m' ∧ Grows h h' ∧ covers h' m'.*2 i ∧ (∀ k, k ∈ m.*2 → k ∈ m'.*2) ∧
  (∀ k, k ∈ m'.*2 → k ∈ m.*2 ∨ k = i) ∧ length (cells h') = length (cells h).
Proof.
  intros HI [Hn Hm] [c Hc]. unfold mergeCell. rewrite Hc.
  destruct (mget m (identityKey (identity c))) as [j|] eqn:Hj; intros [= <- <-].
  - apply mget_elem_of in Hj. destruct (Hm _ _ Hj) as (d & Hd & Ed). apply identityKey_inj in Ed.
    assert (∀ a b, cells h !! j = Some a → cells h !! i = Some b → identity a = identity b) as Hid by (intros; by simplify_eq).
    destruct (link_grows h j i (inv_wf h pend HI) Hid) as (_ & HG & Hs).
    split; [by apply link_inv|]. split; [by apply (table_grows h)|]. split; [done|]. split; [|split_and!; auto].
    + exists j. split; [apply list_elem_of_fmap; by exists (identityKey (identity c), j)|]. apply sameClass_sym, Hs; eauto.
    + unfold linkDuplicateCells. rewrite Hc, Hd. case_decide; [done|]. simpl. apply assign_length.
  - apply mget_None in Hj. split; [done|]. rewrite mset_notin by done. rewrite fmap_app.
    split; [|split; [done|]; split; [|split_and!; [set_solver..|done]]].
    + split; [unfold mkeys; rewrite fmap_app; apply NoDup_app; split; [done|]; split; [|by apply NoDup_singleton];
        intros k Hk ->%list_elem_of_singleton; by apply Hj|].
      intros k x [Hk|[= -> ->]%list_elem_of_singleton]%elem_of_app; eauto.
    + exists i. split; [set_solver|]. by apply (sameClass_refl h i c).
Qed.

(** A scope: distinct cells of the heap, with distinct identities. *)
Record ScopeOk (h : Heap) (s : Scope) : Prop := {
  so_cells i : i ∈ s → is_Some (cells h !! i);
  so_nodup : NoDup s;
  so_ids i j c d : i ∈ s → j ∈ s → cells h !! i = Some c → cells h !! j = Some d → identity c = identity d → i = j;
}.

Lemma scope_grows h h' s : Grows h h' → ScopeOk h s → ScopeOk h' s.
Proof.
  intros HG [H1 H2 H3]. split; [|done|].
  - intros i Hi. destruct (H1 i Hi) as [c Hc]. destruct (gr_cells h h' HG i c Hc) as (c' & ? & _). eauto.
  - intros i j c d Hi Hj Hc Hd E. destruct (H1 i Hi) as [c0 Hc0], (H1 j Hj) as [d0 Hd0].
    destruct (gr_cells h h' HG i c0 Hc0) as (? & ? & ? & _), (gr_cells h h' HG j d0 Hd0) as (? & ? & ? & _). simplify_eq.
    apply (H3 i j c0 d0); congruence.
Qed.

Lemma table_scope h m : TableOk h m → ScopeOk h m.*2.
Proof.
  intros [Hn Hm].
  assert (∀ i c, i ∈ m.*2 → cells h !! i = Some c → (identityKey (identity c), i) ∈ m) as Hin.
  { intros i c ((k & j) & -> & Hj)%list_elem_of_fmap Hc. simpl in *. destruct (Hm k j Hj) as (c' & Hc' & <-). by simplify_eq. }
  split.
  - intros i ((k & j) & -> & Hj)%list_elem_of_fmap. simpl. destruct (Hm k j Hj) as (c & -> & _). eauto.
  - clear Hin. induction m as [|[k i] m IH]; simpl; [constructor|]. apply NoDup_cons in Hn as [Hk Hn]. constructor.
    + intros ((k' & j) & E & Hj)%list_elem_of_fmap. simpl in E. subst j.
      destruct (Hm k i ltac:(left)) as (c & Hc & <-), (Hm k' i ltac:(by right)) as (c' & Hc' & <-).
      rewrite Hc in Hc'. injection Hc' as <-. apply Hk. apply list_elem_of_fmap. by exists (identityKey (identity c), i).
    + apply IH; [done|]. intros k' j Hj. apply Hm. by right.
  - intros i j c d Hi Hj Hc Hd E. pose proof (Hin i c Hi Hc) as H1. pose proof (Hin j d Hj Hd) as H2. rewrite E in H1.
    apply elem_of_mget in H1, H2; [|done..]. congruence.
Qed.

Lemma merge_cells_spec l h m pend :
  Inv h pend → TableOk h m → (∀ i, i ∈ l → is_Some (cells h !! i)) →
  let r := foldl mergeCell (h, m) l in
  Inv r.1 pend ∧ TableOk r.1 r.2 ∧ Grows h r.1 ∧ (∀ i, i ∈ l → covers r.1 r.2.*2 i) ∧
  (∀ i, i ∈ m.*2 → i ∈ r.2.*2) ∧ (∀ i, i ∈ r.2.*2 → i ∈ m.*2 ∨ i ∈ l) ∧ length (cells r.1) = length (cells h).
Proof.
  revert h m. induction l as [|i l IH]; intros h m HI Hm Hl; [simpl; split_and!; auto; set_solver|].
  cbn [foldl].
  destruct (mergeCell (h, m) i) as [h1 m1] eqn:E.
  destruct (mergeCell_spec h m pend i h1 m1 HI Hm (Hl i ltac:(left)) E) as (HI1 & Hm1 & HG & Hc & Hk & Hk' & Hlen).
  assert (∀ j, j ∈ l → is_Some (cells h1 !! j)) as Hl1.
  { intros j Hj. destruct (Hl j ltac:(by right)) as [c Hcj]. destruct (gr_cells h h1 HG j c Hcj) as (? & ? & _). eauto. }
  destruct (IH h1 m1 HI1 Hm1 Hl1) as (A & B & C & D & F & G & L). split_and!; [done..| | | | |by rewrite L].
  - by etrans.
  - intros j [->|Hj]%elem_of_cons; [|by apply D]. apply (covers_grows _ _ _ _ C) in Hc as (k & Hk1 & Hk2). exists k. auto.
  - auto.
  - intros j Hj. destruct (G j Hj) as [Hj'|Hj']; [destruct (Hk' j Hj') as [?| ->]|]; set_solver.
Qed.

Lemma merge_spec scopes h pend :
  Inv h pend → (∀ s, s ∈ scopes → ScopeOk h s) →
  let r := mergeSourceTerminalScopes scopes h in
  Inv r.1 pend ∧ Grows h r.1 ∧ ScopeOk r.1 r.2 ∧
  (∀ s i, s ∈ scopes → i ∈ s → covers r.1 r.2 i) ∧ (∀ i, i ∈ r.2 → ∃ s, s ∈ scopes ∧ i ∈ s) ∧
  length (cells r.1) = length (cells h).
Proof.
  intros HI Hs. unfold mergeSourceTerminalScopes.
  assert (TableOk h []) as H0 by (split; [constructor|intros k i Hx; by apply not_elem_of_nil in Hx]).
  destruct (merge_cells_spec (mjoin scopes) h [] pend HI H0) as (A & B & C & D & F & G & L).
  { intros i (s & Hi & Hs')%list_elem_of_join. by apply (so_cells h s (Hs s Hs')). }
  simpl. split_and!; [done..|by apply table_scope| | |done].
  - intros s i Hs' Hi. apply D. apply list_elem_of_join. eauto.
  - intros i Hi. destruct (G i Hi) as [Hx|(s & ? & ?)%list_elem_of_join]; [by apply not_elem_of_nil in Hx|eauto].
Qed.

(** ** Creating and publishing *)

Section Create.
Context (h : Heap) (d : Identity).
Hypothesis Hwf : WfHeap h.

Definition freshCell : Cell := {| identity := d; published := false; publishing := false; linked := length (sets h) |}.

Definition withCell : Heap :=
  {| cells := cells h ++ [freshCell]; sets := sets h ++ [[length (cells h)]]; emitted := emitted h |}.

Lemma create_lookup k c :
  cells withCell !! k = Some c ↔ cells h !! k = Some c ∨ (k = length (cells h) ∧ c = freshCell).
Proof.
  simpl. rewrite lookup_snoc_Some. split; [intros [[? ?]|[? ?]]|intros [H|[? ?]]]; auto.
  left. split; [by apply lookup_lt_Some in H|done].
Qed.

Lemma create_sameClass k m : sameClass h k m → sameClass withCell k m.
Proof. intros (c & e & Hc & He & E). exists c, e. rewrite !create_lookup. auto. Qed.

Lemma create_wf : WfHeap withCell.
Proof.
  pose proof (linked_fresh h Hwf) as Hfr. split.
  - intros k c [Hc|[-> ->]]%create_lookup; setoid_rewrite create_lookup.
    + destruct (wf_class h Hwf k c Hc) as [Hs Hm]. unfold linkedOf in *. cbn [sets withCell].
      rewrite lookup_app_l by by eapply Hfr. split; [done|]. intros j. rewrite Hm.
      split; [naive_solver|]. intros (e & [?|[-> ->]] & E); [eauto|]. specialize (Hfr k c Hc). simpl in E. lia.
    + unfold linkedOf. cbn [sets withCell linked freshCell]. rewrite list_lookup_middle by done. split; [by eexists|].
      intros j. cbn [default]. unfold id. rewrite list_elem_of_singleton. split; [intros ->; eauto|].
      intros (e & [He|[? _]] & E); [|done]. specialize (Hfr j e He). simpl in E. lia.
  - intros i j c e [Hc|[-> ->]]%create_lookup [He|[-> ->]]%create_lookup E; [by apply (wf_uniform h Hwf i j)|..|done].
    + specialize (Hfr i c Hc). simpl in E. lia.
    + specialize (Hfr j e He). simpl in E. lia.
Qed.

Lemma create_grows : Grows h withCell.
Proof. split; [|apply create_sameClass|done]. intros k c Hc. exists c. rewrite create_lookup. auto. Qed.

Lemma create_inv pend : Inv h pend → Inv withCell pend.
Proof.
  intros HI. pose proof create_sameClass. split; [apply create_wf|apply HI|..].
  - intros i Hi. destruct (inv_pend h pend HI i Hi) as (c & Hc & ?). exists c. rewrite create_lookup. auto.
  - intros t Ht. destruct (inv_emit h pend HI t Ht) as (c & Hc & ?). exists c. rewrite create_lookup. auto.
  - intros i c [Hc|[-> ->]]%create_lookup Hp; [|done]. destruct (inv_publishing h pend HI i c Hc Hp) as (j & ? & ?). eauto.
  - intros i c [Hc|[-> ->]]%create_lookup Hp; [|done]. destruct (inv_published h pend HI i c Hc Hp) as (j & ? & ?). eauto.
Qed.

Lemma create_scope : ScopeOk withCell [length (cells h)].
Proof.
  split; [|by apply NoDup_singleton|by intros i j c e ->%list_elem_of_singleton ->%list_elem_of_singleton].
  intros i ->%list_elem_of_singleton. exists freshCell. rewrite create_lookup. auto.
Qed.

End Create.

Lemma scope_nil h : ScopeOk h [].
Proof. split; [intros i Hi; by apply not_elem_of_nil in Hi|constructor|intros i j c e Hi; by apply not_elem_of_nil in Hi]. Qed.

Lemma create_spec ct ci id ec h pend :
  Inv h pend →
  let r := createSourceTerminalScope ct ci id ec h in
  Inv r.1 pend ∧ Grows h r.1 ∧ ScopeOk r.1 r.2.
Proof.
  intros HI. unfold createSourceTerminalScope. pose proof (inv_wf h pend HI).
  destruct (_ || _); [split_and!; [done..|apply scope_nil]|].
  split_and!; [by apply create_inv|apply create_grows|apply create_scope].
Qed.

Lemma foldl_grows (f : Heap → nat → Heap) l h :
  (∀ h i, WfHeap h → WfHeap (f h i) ∧ Grows h (f h i)) → WfHeap h →
  WfHeap (foldl f h l) ∧ Grows h (foldl f h l).
Proof.
  intros Hf. revert h. induction l as [|i l IH]; intros h Hwf; [done|]. simpl.
  destruct (Hf h i Hwf) as [H1 H2]. destruct (IH _ H1) as [H3 H4]. split; [done|by etrans].
Qed.

Lemma claim_grows h s : WfHeap h → WfHeap (claim h s) ∧ Grows h (claim h s).
Proof.
  intros Hwf. apply foldl_grows; [|done]. intros h0 i H0. split; [apply claimCell_class|apply claimCell_grows]; done.
Qed.

Lemma claim_inv h pend s : Inv h pend → ScopeOk h s → Inv (claim h s) (claimed h s ++ pend).
Proof.
  intros HI Hs. apply claims_inv; [done|apply NoDup_filter, Hs|..].
  - by intros i [? _]%list_elem_of_filter.
  - intros i j [_ Hi]%list_elem_of_filter [_ Hj]%list_elem_of_filter (c & d & Hc & Hd & E).
    apply (so_ids h s Hs i j c d); try done. by apply (wf_uniform h (inv_wf h _ HI) i j).
Qed.

Lemma publish_cells_inv o r now l h pend : Inv h (l ++ pend) → Inv (foldl (publishCell o r now) h l) pend.
Proof. revert h. induction l as [|i l IH]; intros h HI; [done|]. simpl. by apply IH, publishCell_inv. Qed.

Lemma publish_cells_emitted o r now l h :
  WfHeap h → (∀ i, i ∈ l → is_Some (cells h !! i)) →
  tCell <$> emitted (foldl (publishCell o r now) h l) = (tCell <$> emitted h) ++ l.
Proof.
  revert h. induction l as [|i l IH]; intros h Hwf Hl; [by rewrite app_nil_r|]. simpl.
  destruct (publishCell_grows o r now h i Hwf) as [Hwf' HG]. rewrite IH; [|done|].
  - unfold publishCell. destruct (Hl i ltac:(left)) as [c ->]. simpl. rewrite fmap_app. simpl. by rewrite <- (assoc_L app).
  - intros j Hj. destruct (Hl j ltac:(by right)) as [c Hc]. destruct (gr_cells _ _ HG j c Hc) as (? & ? & _). eauto.
Qed.

Lemma claims_emitted l h : emitted (foldl claimCell h l) = emitted h.
Proof. revert h. induction l as [|i l IH]; intros h; [done|]. simpl. by rewrite IH, claimCell_emitted. Qed.

(** Publishing a scope when no publication is in progress: exactly its unpublished
    cells emit, in order, and everything the scope covers is published. *)
Lemma publish_spec s o r now h :
  Inv h [] → ScopeOk h s →
  let p := publish s o r now h in
  Inv p.1 [] ∧ Grows h p.1 ∧
  (∀ i, covers h s i → ∃ c, cells p.1 !! i = Some c ∧ published c = true) ∧
  tCell <$> emitted p.1 = (tCell <$> emitted h) ++ claimed h s.
Proof.
  intros HI Hs. unfold publish. cbn [fst]. pose proof (inv_wf h _ HI) as Hwf.
  destruct (claim_grows h s Hwf) as [Hwf1 HG1].
  pose proof (claim_inv h [] s HI Hs) as HI1. pose proof (publish_cells_inv o r now _ _ _ HI1) as HI2.
  destruct (foldl_grows (publishCell o r now) (claimed h s) (claim h s)) as [Hwf2 HG2]; [|done|];
    [intros; by apply publishCell_grows|].
  assert (Grows h (foldl (publishCell o r now) (claim h s) (claimed h s))) as HG by by etrans.
  assert (tCell <$> emitted (foldl (publishCell o r now) (claim h s) (claimed h s)) =
          (tCell <$> emitted h) ++ claimed h s) as Hem.
  { rewrite publish_cells_emitted; [|done|].
    - unfold claim. by rewrite claims_emitted.
    - intros i [_ Hi]%list_elem_of_filter. destruct (so_cells h s Hs i Hi) as [c Hc].
      destruct (gr_cells _ _ HG1 i c Hc) as (? & ? & _). eauto. }
  split_and!; [done..| |done]. intros i (j & Hj & Hij).
  destruct (so_cells h s Hs j Hj) as [c Hc].
  assert (∃ c', cells (foldl (publishCell o r now) (claim h s) (claimed h s)) !! j = Some c' ∧ published c' = true) as (c' & Hc' & Hp).
  { destruct (published c) eqn:Hp; [destruct (gr_cells _ _ HG j c Hc) as (? & ? & ? & ?); eauto|].
    assert (j ∈ tCell <$> emitted (foldl (publishCell o r now) (claim h s) (claimed h s))) as (t & -> & Ht)%list_elem_of_fmap.
    { rewrite Hem. apply elem_of_app. right. apply list_elem_of_filter. split; [|done]. apply openCell_true. exists c.
      split_and!; [done..|]. destruct (publishing c) eqn:Hq; [|done].
      destruct (inv_publishing h _ HI j c Hc Hq) as (k & Hk & _). by apply not_elem_of_nil in Hk. }
    destruct (inv_emit _ _ HI2 t Ht) as (c' & ? & ? & _). eauto. }
  apply (gr_class _ _ HG) in Hij as (a & b & Ha & Hb & E). rewrite Hc' in Hb.
  injection Hb as <-. exists a. split; [done|].
  by destruct (wf_uniform _ Hwf2 i j a c' Ha Hc' E) as (_ & -> & _).
Qed.

(** ** Every reachable configuration *)

Definition ConfOk (x : Conf) : Prop :=
  Inv (heap x) (mjoin (fCells <$> frames x)) ∧ ∀ s, s ∈ scopes x → ScopeOk (heap x) s.

Lemma step_ok x y : step x y → ConfOk x → ConfOk y.
Proof.
  assert (∀ h h' ss (s' : Scope), Grows h h' → ScopeOk h' s' → (∀ s, s ∈ ss → ScopeOk h s) →
    ∀ s, s ∈ ss ++ [s'] → ScopeOk h' s) as Hadd.
  { intros h h' ss s' HG Hs' Hss s [Hs| ->%list_elem_of_singleton]%elem_of_app; [|done].
    by apply (scope_grows h h' s HG), Hss. }
  intros Hst [HI Hss]. destruct Hst as [ct ci id ec h ss fs res|l h ss fs Hl res|s o r now h ss fs Hs|
    i l o r now h ss fs|o r now h ss fs]; simpl in *.
  - destruct (create_spec ct ci id ec h _ HI) as (A & B & C). split; [done|]. by apply (Hadd h).
  - destruct (merge_spec l h _ HI) as (A & B & C & _); [by auto|]. split; [done|]. by apply (Hadd h).
  - split; [by apply claim_inv; [|apply Hss]|]. intros s' Hs'. apply (scope_grows h); [|by apply Hss].
    apply claim_grows, HI.
  - split; [by apply publishCell_inv|]. intros s' Hs'. apply (scope_grows h); [|by apply Hss].
    apply publishCell_grows, HI.
  - by split.
Qed.

(** whatever observers do while terminal events are emitted (publish again,
    merge or create scopes), a source message's cell emits at most one terminal
    event, the event carries the identity of its cell, and once no publication
    is in progress a cell counts as published exactly when an event was emitted
    for it or for a duplicate of the same message linked to it. *)
Theorem terminal_once (x : Conf) (Hx : rtc step start x) :
  NoDup (tCell <$> emitted (heap x)) ∧
  (∀ t, t ∈ emitted (heap x) → ∃ c, cells (heap x) !! tCell t = Some c ∧ identity c = tIdentity t) ∧
  (frames x = [] → ∀ i c, cells (heap x) !! i = Some c →
    publishing c = false ∧
    (published c = true ↔ ∃ t, t ∈ emitted (heap x) ∧ sameClass (heap x) i (tCell t))).
Proof.
  assert (ConfOk x) as [HI _].
  { assert (ConfOk start) as H0 by (split; [apply inv_empty|intros s Hs; by apply not_elem_of_nil in Hs]).
    induction Hx as [x|x y z Hxy _ IH]; [done|]. apply IH. by eapply step_ok. }
  split_and!.
  - pose proof (inv_once _ _ HI) as Hn. by apply NoDup_app in Hn as (_ & _ & ?).
  - intros t Ht. destruct (inv_emit _ _ HI t Ht) as (c & ? & _ & ?). eauto.
  - intros Hf i c Hc. rewrite Hf in HI. split.
    + destruct (publishing c) eqn:Hp; [|done]. destruct (inv_publishing _ _ HI i c Hc Hp) as (j & Hj & _).
      by apply not_elem_of_nil in Hj.
    + split; [intros Hp; by apply (inv_published _ _ HI i c)|]. intros (t & Ht & (a & b & Ha & Hb & E)).
      destruct (inv_emit _ _ HI t Ht) as (b' & Hb' & Hp & _).
      rewrite Hb in Hb'. injection Hb' as <-. rewrite Hc in Ha. injection Ha as <-.
      by destruct (wf_uniform _ (inv_wf _ _ HI) i _ c b Hc Hb E) as (_ & -> & _).
Qed.

(** Two deliveries of one message, merged and published once. *)
Definition demoHeap : Heap * list Scope :=
  let a := createSourceTerminalScope "chat" "room" "m1" "chat" emptyHeap in
  let b := createSourceTerminalScope "chat" "room" "m1" "chat" a.1 in
  let m := mergeSourceTerminalScopes [a.2; b.2] b.1 in
  (m.1, [a.2; b.2; m.2]).

Definition demoConf : Conf :=
  {| heap := (publish [0] OError RQueueDropped 7 demoHeap.1).1; scopes := demoHeap.2; frames := [] |}.

Lemma demo_reachable : rtc step start demoConf.
Proof.
  eapply rtc_l; [apply (StepCreate "chat" "room" "m1" "chat")|]. eapply rtc_l; [apply (StepCreate "chat" "room" "m1" "chat")|].
  eapply rtc_l; [apply (StepMerge [[0]; [1]]); vm_compute; set_solver|].
  eapply rtc_l; [apply (StepClaim [0] OError RQueueDropped 7); vm_compute; set_solver|].
  eapply rtc_l; [apply StepEmit|]. eapply rtc_l; [apply StepReturn|]. apply rtc_refl.
Qed.

Lemma terminal_once_witness :
  rtc step start demoConf ∧ length (emitted (heap demoConf)) = 1 ∧
  (published <$> cells (heap demoConf)) = [true; true] ∧ NoDup (tCell <$> emitted (heap demoConf)).
Proof.
  split; [exact demo_reachable|]. split; [vm_compute; reflexivity|]. split; [vm_compute; reflexivity|].
  exact (proj1 (terminal_once demoConf demo_reachable)).
Defined.

End SourceTerminal.
