(* ===== verification/QueueEntries.v ===== *)
(** * Queued messages

  Model of packages/orchestrator/src/queue/{lane,coalescer,overflow,
  queue-entry-lifecycle}.ts and of the message type they carry
  (packages/core/src/domain/normalized-message.ts): coalescing, the overflow
  policies, the lane key and the release of resources.  Ownership records are
  mutable and shared between an entry and the entries made from it, so they live
  in a heap; so do the terminal cells of [SourceTerminal].  Handlers and
  provenance plans are only carried along: they are references. *)

From Stdlib Require Import Ascii.
From S2P Require Import Prelude CanonicalJson SessionKeys SourceTerminal.
Import CanonicalJson SessionKeys.

Open Scope string_scope.
Open Scope list_scope.

Module QueueEntries.

(** ** Messages *)

Inductive AttachmentType := AImage | AFile | AAudio | AVideo | ALink.

Record Attachment := {
  aType : AttachmentType;
  aUrl : string;
  aMimeType : option string;
  aFileName : option string;
  aSizeBytes : option Z;
  aDurationMs : option Z;
  aIsVoiceNote : option bool;
  aVoiceMeta : option (option string * option string);
  aTranscription : option string;
}.

Record OriginalInboundMessage := {
  oId : string;
  oChannelId : string;
  oChannelType : string;
  oSenderId : string;
  oText : string;
  oTimestamp : Z;
  oInteraction : bool;
  oIsForwarded : bool;
}.

Record NormalizedMessage := {
  mId : string;
  mChannelId : string;
  mChannelType : string;
  mSenderId : string;
  mText : string;
  mTimestamp : Z;
  mAttachments : option (list Attachment);
  mReplyTo : option string;
  mChatType : option string;
  mMetadata : option (jsmap string Json);
  mOriginalMessages : option (list OriginalInboundMessage);
}.

Definition metaFlag (m : NormalizedMessage) (k : string) : bool :=
  match mMetadata m ≫= fun md => mget md k with Some (JBoolean true) => true | _ => false end.

Definition getOriginalInboundMessages (m : NormalizedMessage) : list OriginalInboundMessage :=
  match mOriginalMessages m with
  | Some l => l
  | None =>
      [{| oId := mId m; oChannelId := mChannelId m; oChannelType := mChannelType m;
          oSenderId := if metaFlag m "isRestartContinuation" then "system" else mSenderId m;
          oText := mText m; oTimestamp := mTimestamp m; oInteraction := metaFlag m "isButtonCallback";
          oIsForwarded := metaFlag m "isForwarded" |}]
  end.

Definition newline : string := String "010" "".

(** [l.join(sep)] *)
Fixpoint joinWith (sep : string) (l : list string) : string :=
  match l with
  | [] => ""
  | [x] => x
  | x :: l => x +:+ sep +:+ joinWith sep l
  end.

(** [Object.assign] of every metadata record in turn. *)
Definition mergeMetadata (ms : list NormalizedMessage) : jsmap string Json :=
  foldl (fun acc m => match mMetadata m with
                      | Some md => foldl (fun acc p => mset acc p.1 p.2) acc md
                      | None => acc
                      end) [] ms.

Definition allAttachments (ms : list NormalizedMessage) : list Attachment :=
  ms ≫= fun m => default [] (mAttachments m).

Definition allOriginals (ms : list NormalizedMessage) : list OriginalInboundMessage := ms ≫= getOriginalInboundMessages.

Definition maxOf (l : list Z) : Z := match l with [] => 0 | x :: l => foldl Z.max x l end.

Definition minOf (l : list Z) : Z := match l with [] => 0 | x :: l => foldl Z.min x l end.

(** [coalesceMessages]; [None] is the precondition error it throws. *)
Definition coalesceMessages (ms : list NormalizedMessage) : option NormalizedMessage :=
  match ms with
  | [] => None
  | [m] => Some m
  | _ =>
      lastMsg ← last ms;
      Some {| mId := mId lastMsg; mChannelId := mChannelId lastMsg; mChannelType := mChannelType lastMsg;
              mSenderId := mSenderId lastMsg;
              mText := joinWith (newline +:+ newline)
                         (imap (fun i m => "[Message " +:+ pretty (i + 1)%nat +:+ "]: " +:+ mText m) ms);
              mTimestamp := maxOf (mTimestamp <$> ms);
              mAttachments := Some (allAttachments ms); mReplyTo := None; mChatType := None;
              mMetadata := Some (mergeMetadata ms);
              mOriginalMessages := Some (allOriginals ms) |}
  end.

(** [summarizeMessages] of a list whose last element is [lastMsg]. *)
Definition summarizeMessages (ms : list NormalizedMessage) (lastMsg : NormalizedMessage) : NormalizedMessage :=
  {| mId := mId lastMsg; mChannelId := mChannelId lastMsg; mChannelType := mChannelType lastMsg;
     mSenderId := mSenderId lastMsg;
     mText := "[Summarized from " +:+ pretty (length ms) +:+ " messages]:" +:+ newline +:+
              joinWith (newline +:+ "---" +:+ newline) (mText <$> ms);
     mTimestamp := mTimestamp lastMsg;
     mAttachments := Some (allAttachments ms); mReplyTo := None; mChatType := None;
     mMetadata := Some (mergeMetadata ms);
     mOriginalMessages := Some (allOriginals ms) |}.

(** ** Request contexts and lane keys *)

Inductive TrustLevel := Admin | User | Guest.

Definition trustText (t : TrustLevel) : string :=
  match t with Admin => "admin" | User => "user" | Guest => "guest" end.

Record Origin := {
  orTenantId : string;
  orChannelType : string;
  orChannelId : string;
  orUserId : string;
  orThreadId : option string;
}.

(** The fields of [RequestContext] the queue reads. *)
Record RequestContext := {
  cTenantId : string;
  cUserId : option string;
  cSessionKey : option string;
  cAgentId : option string;
  cTrustLevel : TrustLevel;
  cClientId : option string;
  cDeliveryOrigin : option Origin;
  cStartedAt : Z;
}.

Definition nullable (o : option string) : Json := match o with Some s => JString s | None => JNull end.

(** [createQueueLaneIdentity]: the base session key and the lane key. *)
Definition createQueueLaneIdentity (k : SessionKey) (channelType : string) (context : option RequestContext) : string * string :=
  let baseSessionKey := formatSessionKey k in
  let fallbackAgentId := match context with None => Some (agentId k) | Some _ => None end in
  (baseSessionKey,
   render (JArray
     [JString baseSessionKey; JString channelType;
      nullable (cTenantId <$> context);
      nullable (context ≫= cUserId);
      nullable (context ≫= cSessionKey);
      nullable (match context ≫= cAgentId with Some a => Some a | None => fallbackAgentId end);
      nullable (trustText ∘ cTrustLevel <$> context);
      nullable (context ≫= cClientId);
      match context ≫= cDeliveryOrigin with
      | None => JNull
      | Some o => JArray [JString (orTenantId o); JString (orChannelType o); JString (orChannelId o);
                          JString (orUserId o); nullable (orThreadId o)]
      end])).

(** ** Entries *)

Record Ownership := {
  executionStarted : bool;
  resourcesReleased : bool;
  releaseResources : bool;  (** whether a release callback was given *)
}.

(** [ownership] and [sourceTerminalScope] are references into the heaps. *)
Record Entry := {
  message : NormalizedMessage;
  inboundProvenancePlans : list nat;
  eSessionKey : SessionKey;
  eChannelType : string;
  enqueuedAt : Z;
  receivedAt : Z;
  logicalCount : nat;
  handler : nat;
  asyncScope : option RequestContext;
  ownership : nat;
  sourceTerminalScope : SourceTerminal.Scope;
}.

Inductive DiscardReason := DCoalesced | DOverflow | DShutdown.

#[global] Instance DiscardReason_eq_dec : EqDecision DiscardReason.
Proof. solve_decision. Defined.

Inductive QueueMode := Followup | Collect | Steer | SteerFollowup.

#[global] Instance QueueMode_eq_dec : EqDecision QueueMode.
Proof. solve_decision. Defined.

Inductive OverflowPolicy := DropOld | DropNew | Summarize.

Record OverflowConfig := { maxDepth : nat; policy : OverflowPolicy }.

(** What the queue makes visible; [EHandler] is the call of an entry's handler by a task. *)
Inductive QueueEvent :=
| EEnqueued (k : SessionKey) (channelType : string) (queueDepth : Z) (mode : QueueMode) (now : Z)
| EDequeued (k : SessionKey) (channelType : string) (waitTimeMs : Z) (now : Z)
| ECoalesced (k : SessionKey) (channelType : string) (messageCount : nat) (now : Z)
| EOverflow (k : SessionKey) (channelType : string) (p : OverflowPolicy) (droppedCount : nat) (now : Z)
| ERelease (owner : nat) (reason : DiscardReason)
| EHandler (task : nat) (e : Entry).

(** The heaps and the log the operations on entries work on. *)
Record World := { owners : list Ownership; terminals : SourceTerminal.Heap; events : list QueueEvent }.

Definition emit (ev : QueueEvent) (w : World) : World :=
  {| owners := owners w; terminals := terminals w; events := events w ++ [ev] |}.

Definition setOwners (f : list Ownership → list Ownership) (w : World) : World :=
  {| owners := f (owners w); terminals := terminals w; events := events w |}.

Definition setTerminals (h : SourceTerminal.Heap) (w : World) : World :=
  {| owners := owners w; terminals := h; events := events w |}.

Definition markReleased (o : Ownership) : Ownership :=
  {| executionStarted := executionStarted o; resourcesReleased := true; releaseResources := releaseResources o |}.

Definition markStarted (o : Ownership) : Ownership :=
  {| executionStarted := true; resourcesReleased := resourcesReleased o; releaseResources := releaseResources o |}.

(** [releaseQueueEntryResources]; a callback that throws is contained. *)
Definition releaseQueueEntryResources (e : Entry) (reason : DiscardReason) (w : World) : World :=
  match owners w !! ownership e with
  | Some o =>
      if resourcesReleased o || (executionStarted o && negb (bool_decide (reason = DShutdown))) then w else
      let w := setOwners (alter markReleased (ownership e)) w in
      if releaseResources o then emit (ERelease (ownership e) reason) w else w
  | None => w
  end.

Definition releaseAll (es : list Entry) (reason : DiscardReason) (w : World) : World :=
  foldl (fun w e => releaseQueueEntryResources e reason w) w es.

(** [coalesceQueuedEntries]; [None] only for an empty list. *)
Definition coalesceQueuedEntries (es : list Entry) (w : World) : option (World * Entry) :=
  lastEntry ← last es;
  let w := releaseAll (take (length es - 1) es) DCoalesced w in
  msg ← coalesceMessages (message <$> es);
  let r := SourceTerminal.mergeSourceTerminalScopes (sourceTerminalScope <$> es) (terminals w) in
  Some (setTerminals r.1 w,
        {| message := msg;
           inboundProvenancePlans := es ≫= inboundProvenancePlans;
           eSessionKey := eSessionKey lastEntry; eChannelType := eChannelType lastEntry;
           enqueuedAt := minOf (enqueuedAt <$> es); receivedAt := minOf (receivedAt <$> es);
           logicalCount := sum_list (logicalCount <$> es);
           handler := handler lastEntry; asyncScope := asyncScope lastEntry; ownership := ownership lastEntry;
           sourceTerminalScope := r.2 |}).

(** ** Overflow *)

(** [applyOverflowPolicyToItems]: the items kept and the number dropped.  [W] is what
    the summary and the overflow event change. *)
Definition applyOverflowPolicyToItems {T W} (items : list T) (config : OverflowConfig)
    (getMessage : T → NormalizedMessage) (createSummary : list T → T → NormalizedMessage → W → W * T)
    (emitOverflow : nat → W → W) (w : W) : W * (list T * nat) :=
  if (length items <=? maxDepth config)%nat then (w, (items, 0)) else
  let r :=
    match policy config with
    | DropOld => let excess := (length items - maxDepth config)%nat in (w, (drop excess items, excess))
    | DropNew => (w, (take (length items - 1) items, 1))
    | Summarize =>
        match last items with
        | Some lastItem =>
            let s := createSummary items lastItem (summarizeMessages (getMessage <$> items) (getMessage lastItem)) w in
            (s.1, ([s.2], (length items - 1)%nat))
        | None => (w, (items, 0))
        end
    end in
  (emitOverflow r.2.2 r.1, r.2).

(** [applyOverflowPolicy]: the same on messages alone. *)
Definition applyOverflowPolicy (pendingMessages : list NormalizedMessage) (config : OverflowConfig) : list NormalizedMessage * nat :=
  (applyOverflowPolicyToItems pendingMessages config id (fun _ _ m w => (w, m)) (fun _ w => w) tt).2.

Definition createSummaryEntry (es : list Entry) (lastEntry : Entry) (summary : NormalizedMessage) (w : World) : World * Entry :=
  let r := SourceTerminal.mergeSourceTerminalScopes (sourceTerminalScope <$> es) (terminals w) in
  (setTerminals r.1 w,
   {| message := summary;
      inboundProvenancePlans := inboundProvenancePlans lastEntry;
      eSessionKey := eSessionKey lastEntry; eChannelType := eChannelType lastEntry;
      enqueuedAt := minOf (enqueuedAt <$> es); receivedAt := minOf (receivedAt <$> es);
      logicalCount := 1;
      handler := handler lastEntry; asyncScope := asyncScope lastEntry; ownership := ownership lastEntry;
      sourceTerminalScope := r.2 |}).

Definition applyOverflowPolicyToQueueEntries (pendingEntries : list Entry) (config : OverflowConfig)
    (k : SessionKey) (channelType : string) (now : Z) (w : World) : World * (list Entry * nat) :=
  applyOverflowPolicyToItems pendingEntries config message createSummaryEntry
    (fun dropped => emit (EOverflow k channelType (policy config) dropped now)) w.

(** ** Lane keys *)

(** What a lane key is made of, besides the session. *)
Definition principal (k : SessionKey) (context : option RequestContext) :
    option (string * option string * option string * option string * TrustLevel * option string * option Origin) + string :=
  match context with
  | Some c => inl (Some (cTenantId c, cUserId c, cSessionKey c, cAgentId c, cTrustLevel c, cClientId c, cDeliveryOrigin c))
  | None => inr (agentId k)
  end.

Lemma nullable_inj a b : nullable a = nullable b → a = b.
Proof. destruct a, b; simpl; congruence. Qed.

Lemma render_inj j j' : render j = render j' → j = j'.
Proof. intros E. destruct (render_Decodes j j' "" "") as [-> _]; try done. by rewrite E. Qed.

(** The lane key of a request determines its session, its channel type and the
    principal it was made by. *)
Lemma laneKey_inj k k' ct ct' c c' :
  (createQueueLaneIdentity k ct c).2 = (createQueueLaneIdentity k' ct' c').2 →
  formatSessionKey k = formatSessionKey k' ∧ ct = ct' ∧ principal k c = principal k' c'.
Proof.
  unfold createQueueLaneIdentity. cbn [snd]. intros [= Eb Ec Et Eu Es Ea Etr Ecl Eo]%render_inj. split; [done|]. split; [done|].
  apply nullable_inj in Et, Eu, Es, Ea, Etr, Ecl. unfold principal.
  destruct c as [c|], c' as [c'|]; simpl in *; try done; [|congruence].
  injection Et as ->. injection Etr as Etr.
  assert (cTrustLevel c = cTrustLevel c') as -> by (destruct (cTrustLevel c), (cTrustLevel c'); done).
  assert (cAgentId c = cAgentId c') as -> by (destruct (cAgentId c), (cAgentId c'); congruence).
  assert (cDeliveryOrigin c = cDeliveryOrigin c') as ->.
  { destruct (cDeliveryOrigin c) as [[]|], (cDeliveryOrigin c') as [[]|]; simpl in Eo; try done.
    injection Eo as -> -> -> -> ->%nullable_inj. done. }
  by rewrite Eu, Es, Ecl.
Qed.

(** ** Coalescing *)

Lemma coalesceMessages_Some ms : ms ≠ [] → is_Some (coalesceMessages ms).
Proof.
  destruct ms as [|m [|m' ms]]; [done|by eexists|]. intros _. unfold coalesceMessages.
  destruct (last (m :: m' :: ms)) eqn:E; [by eexists|]. by apply last_None in E.
Qed.

Lemma coalesce_Some es w : es ≠ [] → is_Some (coalesceQueuedEntries es w).
Proof.
  intros Hes. unfold coalesceQueuedEntries. destruct (last es) as [e|] eqn:E; [|by apply last_None in E]. simpl.
  destruct (coalesceMessages_Some (message <$> es)) as [m ->]; [by destruct es|]. simpl. eauto.
Qed.

Lemma coalesce_nil w : coalesceQueuedEntries [] w = None.
Proof. done. Qed.

(** No physical message is lost, and their order is kept. *)
Lemma coalesceMessages_originals ms m : coalesceMessages ms = Some m → getOriginalInboundMessages m = allOriginals ms.
Proof.
  destruct ms as [|m1 [|m2 ms]]; [done|intros [= <-]; unfold allOriginals; simpl; by rewrite app_nil_r|].
  unfold coalesceMessages. intros (lm & _ & Hm)%bind_Some. by injection Hm as <-.
Qed.

Lemma summarizeMessages_originals ms lm : getOriginalInboundMessages (summarizeMessages ms lm) = allOriginals ms.
Proof. done. Qed.

End QueueEntries.
