(* ===== verification/CommandQueue.v ===== *)
(** * The command queue

  Model of packages/orchestrator/src/queue/command-queue.ts: per-session lanes
  that share one queue of concurrency 1 per base session, a global gate, the
  queue modes, idle cleanup and shutdown.  The queue library (p-queue) is not
  part of the program: it is the class [PQueue], with the documented behaviour
  the code relies on as [PQueueLaws].

  Objects shared by reference (lanes, tasks, queues, ownership records, terminal
  cells) live in heaps and are named by their index, so a lane that was removed
  from the map can still be referred to by a running task.  Code between two
  suspension points is one operation; what the event loop does on its own (a
  queue starts a task, a handler ends, a slot is freed, a timer fires) is an
  operation too, and an execution is any sequence of enabled operations. *)

From S2P Require Import Prelude SessionKeys SourceTerminal QueueEntries.
Import QueueEntries.

Open Scope string_scope.
Open Scope list_scope.

Module CommandQueue.

(** ** The queue library *)

(** A queue of tasks.  [pqStart] is the library's own move: it gives the task the
    queue starts next and the queue afterwards; [pqDone] frees the slot of a
    task whose function has settled; [pqAbort] is the abort of the signal of a
    task that has not been started. *)
Class PQueue (Q : Type) := {
  pqNew : nat → Q;
  pqAdd : nat → Q → Q;
  pqStart : Q → option (nat * Q);
  pqDone : nat → Q → Q;
  pqAbort : nat → Q → Q;
  pqPause : Q → Q;
  pqClear : Q → Q;
  pqWaiting : Q → list nat;
  pqRunning : Q → list nat;
  pqConcurrency : Q → nat;
  pqPaused : Q → bool;
}.

(** The view of a queue: waiting, running, concurrency, paused. *)
Definition view {Q} `{PQueue Q} (q : Q) : list nat * list nat * nat * bool :=
  (pqWaiting q, pqRunning q, pqConcurrency q, pqPaused q).

Definition without (t : nat) (l : list nat) : list nat := filter (fun x => x ≠ t) l.

(** The documented behaviour: first in first out, at most [concurrency] running
    tasks, none started while paused, an aborted waiting task leaves the queue,
    and a queue that can start a task does not stay idle. *)
Class PQueueLaws (Q : Type) `{PQueue Q} := {
  law_new c : view (pqNew c) = ([], [], c, false);
  law_add t q : view (pqAdd t q) = (pqWaiting q ++ [t], pqRunning q, pqConcurrency q, pqPaused q);
  law_start t q q' : pqStart q = Some (t, q') →
    pqPaused q = false ∧ (length (pqRunning q) < pqConcurrency q)%nat ∧
    ∃ rest, pqWaiting q = t :: rest ∧ view q' = (rest, t :: pqRunning q, pqConcurrency q, false);
  law_starts q : pqPaused q = false → (length (pqRunning q) < pqConcurrency q)%nat → pqWaiting q ≠ [] → is_Some (pqStart q);
  law_done t q : view (pqDone t q) = (pqWaiting q, without t (pqRunning q), pqConcurrency q, pqPaused q);
  law_abort t q : view (pqAbort t q) = (without t (pqWaiting q), pqRunning q, pqConcurrency q, pqPaused q);
  law_pause q : view (pqPause q) = (pqWaiting q, pqRunning q, pqConcurrency q, true);
  law_clear q : view (pqClear q) = ([], pqRunning q, pqConcurrency q, pqPaused q);
}.

(** ** Configuration *)

Record PerChannelQueueConfig := { mode : QueueMode; overflow : OverflowConfig; debounceMs : Z }.

Record QueueConfig := {
  maxConcurrentSessions : nat;
  cleanupIdleMs : Z;
  defaultMode : QueueMode;
  defaultOverflow : OverflowConfig;
  defaultDebounceMs : Z;
  perChannel : jsmap string PerChannelQueueConfig;
}.

(** ** State *)

(** [queue] is a reference; [abortController] and [activeEntry] name the task whose
    execution controller and entry they are. *)
Record SessionLane := {
  baseSessionKey : string;
  queue : nat;
  pendingEntries : list Entry;
  logicalDepth : Z;
  isExecuting : bool;
  lastActivityMs : Z;
  abortController : option nat;
  activeEntry : option nat;
}.

(** The function given to the lane's queue: run an entry, with or without
    [processCollectedMessages] on completion, or the steer re-execution. *)
Inductive Body := RunEntry (collects : bool) | SteerAgain.

(** Where a task is: waiting in its lane's queue, running there and waiting in the
    gate, inside its handler, past the handler with the gate slot still taken,
    past the gate with the lane slot still taken, settled with its continuations
    still to run, gone. *)
Inductive Phase := LaneWaiting | GateWaiting | Executing | GateLeaving | LaneLeaving | Settled | Gone.

#[global] Instance Phase_eq_dec : EqDecision Phase.
Proof. solve_decision. Defined.

(** [ScheduledQueueTask] with its closure: [signalled] is the state of the execution
    controller, [observed] says that [observeSubmittedTask] watches the task,
    [failed] that its promise is rejected. *)
Record Task := {
  tLane : nat;
  tBody : Body;
  tEntry : option Entry;
  tStarted : bool;
  tAborted : bool;
  tSignalled : bool;
  tObserved : bool;
  tFailed : bool;
  tPhase : Phase;
}.

Section Queue.
Context {Q : Type} `{PQueue Q}.
Context (config : QueueConfig).

(** [scopes] are the terminal scopes the callers hold; [shutdownWait] the tasks
    [performShutdown] waits for. *)
Record State := {
  lanes : jsmap string nat;
  laneHeap : list SessionLane;
  queues : list Q;
  globalGate : Q;
  tasks : list Task;
  scheduledTasks : list nat;
  debounceTimers : jsmap string nat;
  isShutdown : bool;
  shutdownWait : option (list nat);
  scopes : list SourceTerminal.Scope;
  world : World;
}.

Definition createCommandQueue (w : World) : State :=
  {| lanes := []; laneHeap := []; queues := []; globalGate := pqNew (maxConcurrentSessions config); tasks := [];
     scheduledTasks := []; debounceTimers := []; isShutdown := false; shutdownWait := None; scopes := []; world := w |}.

Definition setLaneHeap (f : list SessionLane → list SessionLane) (s : State) : State :=
  {| lanes := lanes s; laneHeap := f (laneHeap s); queues := queues s; globalGate := globalGate s; tasks := tasks s;
     scheduledTasks := scheduledTasks s; debounceTimers := debounceTimers s; isShutdown := isShutdown s;
     shutdownWait := shutdownWait s; scopes := scopes s; world := world s |}.

Definition updLane (l : nat) (f : SessionLane → SessionLane) : State → State := setLaneHeap (alter f l).

Definition setTasks (f : list Task → list Task) (s : State) : State :=
  {| lanes := lanes s; laneHeap := laneHeap s; queues := queues s; globalGate := globalGate s; tasks := f (tasks s);
     scheduledTasks := scheduledTasks s; debounceTimers := debounceTimers s; isShutdown := isShutdown s;
     shutdownWait := shutdownWait s; scopes := scopes s; world := world s |}.

Definition updTask (t : nat) (f : Task → Task) : State → State := setTasks (alter f t).

Definition setQueues (f : list Q → list Q) (s : State) : State :=
  {| lanes := lanes s; laneHeap := laneHeap s; queues := f (queues s); globalGate := globalGate s; tasks := tasks s;
     scheduledTasks := scheduledTasks s; debounceTimers := debounceTimers s; isShutdown := isShutdown s;
     shutdownWait := shutdownWait s; scopes := scopes s; world := world s |}.

Definition setGate (f : Q → Q) (s : State) : State :=
  {| lanes := lanes s; laneHeap := laneHeap s; queues := queues s; globalGate := f (globalGate s); tasks := tasks s;
     scheduledTasks := scheduledTasks s; debounceTimers := debounceTimers s; isShutdown := isShutdown s;
     shutdownWait := shutdownWait s; scopes := scopes s; world := world s |}.

Definition setLanes (f : jsmap string nat → jsmap string nat) (s : State) : State :=
  {| lanes := f (lanes s); laneHeap := laneHeap s; queues := queues s; globalGate := globalGate s; tasks := tasks s;
     scheduledTasks := scheduledTasks s; debounceTimers := debounceTimers s; isShutdown := isShutdown s;
     shutdownWait := shutdownWait s; scopes := scopes s; world := world s |}.

Definition setScheduled (f : list nat → list nat) (s : State) : State :=
  {| lanes := lanes s; laneHeap := laneHeap s; queues := queues s; globalGate := globalGate s; tasks := tasks s;
     scheduledTasks := f (scheduledTasks s); debounceTimers := debounceTimers s; isShutdown := isShutdown s;
     shutdownWait := shutdownWait s; scopes := scopes s; world := world s |}.

Definition setTimers (f : jsmap string nat → jsmap string nat) (s : State) : State :=
  {| lanes := lanes s; laneHeap := laneHeap s; queues := queues s; globalGate := globalGate s; tasks := tasks s;
     scheduledTasks := scheduledTasks s; debounceTimers := f (debounceTimers s); isShutdown := isShutdown s;
     shutdownWait := shutdownWait s; scopes := scopes s; world := world s |}.

Definition setShutdown (down : bool) (wait : option (list nat)) (s : State) : State :=
  {| lanes := lanes s; laneHeap := laneHeap s; queues := queues s; globalGate := globalGate s; tasks := tasks s;
     scheduledTasks := scheduledTasks s; debounceTimers := debounceTimers s; isShutdown := down;
     shutdownWait := wait; scopes := scopes s; world := world s |}.

Definition setScopes (f : list SourceTerminal.Scope → list SourceTerminal.Scope) (s : State) : State :=
  {| lanes := lanes s; laneHeap := laneHeap s; queues := queues s; globalGate := globalGate s; tasks := tasks s;
     scheduledTasks := scheduledTasks s; debounceTimers := debounceTimers s; isShutdown := isShutdown s;
     shutdownWait := shutdownWait s; scopes := f (scopes s); world := world s |}.

Definition setWorld (f : World → World) (s : State) : State :=
  {| lanes := lanes s; laneHeap := laneHeap s; queues := queues s; globalGate := globalGate s; tasks := tasks s;
     scheduledTasks := scheduledTasks s; debounceTimers := debounceTimers s; isShutdown := isShutdown s;
     shutdownWait := shutdownWait s; scopes := scopes s; world := f (world s) |}.

(** ** Outcomes of entries the queue gives up *)

Definition publishEntry (o : SourceTerminal.Outcome) (r : SourceTerminal.Reason) (now : Z) (e : Entry) (w : World) : World :=
  setTerminals (SourceTerminal.publish (sourceTerminalScope e) o r now (terminals w)).1 w.

Definition emitRejectedEntries (es : list Entry) (r : SourceTerminal.Reason) (o : SourceTerminal.Outcome) (now : Z) (w : World) : World :=
  foldl (fun w e => releaseQueueEntryResources e
                      (match r with SourceTerminal.RQueueDropped => DOverflow | _ => DShutdown end)
                      (publishEntry o r now e w)) w es.

Definition emitDroppedEntries (before after : list Entry) (p : OverflowPolicy) (now : Z) (w : World) : World :=
  let removed := filter (fun e => ownership e ∉ (ownership <$> after)) before in
  match p with
  | Summarize => releaseAll removed DOverflow w
  | _ => emitRejectedEntries removed SourceTerminal.RQueueDropped SourceTerminal.OError now w
  end.

(** ** Lanes *)

Definition laneValues (s : State) : list SessionLane := omap (fun p => laneHeap s !! p.2) (lanes s).

Definition touch (now : Z) (l : SessionLane) : SessionLane :=
  {| baseSessionKey := baseSessionKey l; queue := queue l; pendingEntries := pendingEntries l;
     logicalDepth := logicalDepth l; isExecuting := isExecuting l; lastActivityMs := now;
     abortController := abortController l; activeEntry := activeEntry l |}.

Definition setPending (es : list Entry) (l : SessionLane) : SessionLane :=
  {| baseSessionKey := baseSessionKey l; queue := queue l; pendingEntries := es;
     logicalDepth := logicalDepth l; isExecuting := isExecuting l; lastActivityMs := lastActivityMs l;
     abortController := abortController l; activeEntry := activeEntry l |}.

Definition setDepth (d : Z) (l : SessionLane) : SessionLane :=
  {| baseSessionKey := baseSessionKey l; queue := queue l; pendingEntries := pendingEntries l;
     logicalDepth := d; isExecuting := isExecuting l; lastActivityMs := lastActivityMs l;
     abortController := abortController l; activeEntry := activeEntry l |}.

(** The queue of a new lane: that of a lane of the same base session, if there is one. *)
Definition sessionQueue (base : string) (s : State) : option nat :=
  queue <$> head (filter (fun l => baseSessionKey l = base) (laneValues s)).

Definition getOrCreateLane (key base : string) (now : Z) (s : State) : State * nat :=
  match mget (lanes s) key with
  | Some l => (updLane l (touch now) s, l)
  | None =>
      let (s, q) := match sessionQueue base s with
                    | Some q => (s, q)
                    | None => (setQueues (fun qs => qs ++ [pqNew 1]) s, length (queues s))
                    end in
      let l := length (laneHeap s) in
      (setLanes (fun m => mset m key l)
        (setLaneHeap (fun h => h ++ [{| baseSessionKey := base; queue := q; pendingEntries := []; logicalDepth := 0;
                                        isExecuting := false; lastActivityMs := now; abortController := None;
                                        activeEntry := None |}]) s), l)
  end.

Definition resolveChannelConfig (channelType : string) : PerChannelQueueConfig :=
  match mget (perChannel config) channelType with
  | Some o => o
  | None => {| mode := defaultMode config; overflow := defaultOverflow config; debounceMs := defaultDebounceMs config |}
  end.

(** ** Tasks *)

Definition setPhase (p : Phase) (t : Task) : Task :=
  {| tLane := tLane t; tBody := tBody t; tEntry := tEntry t; tStarted := tStarted t; tAborted := tAborted t;
     tSignalled := tSignalled t; tObserved := tObserved t; tFailed := tFailed t; tPhase := p |}.

Definition setEntry (e : Entry) (t : Task) : Task :=
  {| tLane := tLane t; tBody := tBody t; tEntry := Some e; tStarted := tStarted t; tAborted := tAborted t;
     tSignalled := tSignalled t; tObserved := tObserved t; tFailed := tFailed t; tPhase := tPhase t |}.

Definition setStarted (t : Task) : Task :=
  {| tLane := tLane t; tBody := tBody t; tEntry := tEntry t; tStarted := true; tAborted := tAborted t;
     tSignalled := tSignalled t; tObserved := tObserved t; tFailed := tFailed t; tPhase := tPhase t |}.

Definition setAborted (t : Task) : Task :=
  {| tLane := tLane t; tBody := tBody t; tEntry := tEntry t; tStarted := tStarted t; tAborted := true;
     tSignalled := tSignalled t; tObserved := tObserved t; tFailed := tFailed t; tPhase := tPhase t |}.

Definition setSignalled (t : Task) : Task :=
  {| tLane := tLane t; tBody := tBody t; tEntry := tEntry t; tStarted := tStarted t; tAborted := tAborted t;
     tSignalled := true; tObserved := tObserved t; tFailed := tFailed t; tPhase := tPhase t |}.

Definition setFailed (b : bool) (t : Task) : Task :=
  {| tLane := tLane t; tBody := tBody t; tEntry := tEntry t; tStarted := tStarted t; tAborted := tAborted t;
     tSignalled := tSignalled t; tObserved := tObserved t; tFailed := b; tPhase := tPhase t |}.

Definition laneQueue (l : nat) (s : State) : option nat := queue <$> laneHeap s !! l.

Definition onLaneQueue (l : nat) (f : Q → Q) (s : State) : State :=
  match laneQueue l s with Some q => setQueues (alter f q) s | None => s end.

(** [scheduleLaneTask] *)
Definition scheduleLaneTask (l : nat) (body : Body) (e : option Entry) (observed : bool) (s : State) : State :=
  let t := length (tasks s) in
  onLaneQueue l (pqAdd t)
    (setScheduled (fun ts => ts ++ [t])
      (setTasks (fun ts => ts ++ [{| tLane := l; tBody := body; tEntry := e; tStarted := false; tAborted := false;
                                     tSignalled := false; tObserved := observed; tFailed := false;
                                     tPhase := LaneWaiting |}]) s)).

(** [executeLaneTask] *)
Definition executeLaneTask (l : nat) (e : Entry) (collects observed : bool) (s : State) : State :=
  scheduleLaneTask l (RunEntry collects) (Some e) observed s.

Definition countOf (es : list Entry) : Z := Z.of_nat (sum_list (logicalCount <$> es)).

Definition lowerDepth (d : Z) (l : SessionLane) : SessionLane := setDepth (Z.max 0 (logicalDepth l - d)) l.

(** [processCollectedMessages] *)
Definition processCollectedMessages (l : nat) (now : Z) (s : State) : State :=
  match laneHeap s !! l with
  | None => s
  | Some lane =>
      if bool_decide (pendingEntries lane = []) then s else
      if isShutdown s then
        setWorld (emitRejectedEntries (pendingEntries lane) SourceTerminal.RQueueRejected SourceTerminal.OError now)
          (updLane l (lowerDepth (countOf (pendingEntries lane)) ∘ setPending []) s)
      else
        match coalesceQueuedEntries (pendingEntries lane) (world s) with
        | None => s
        | Some (w, e) =>
            executeLaneTask l e true false
              (setWorld (fun _ => emit (ECoalesced (eSessionKey e) (eChannelType e) (length (pendingEntries lane)) now) w)
                (updLane l (setPending []) s))
        end
  end.

(** What the function of a lane task does until it waits for the gate: the entry of
    a run is known, a steer task takes the messages pending by then, if any. *)
Definition runLaneTask (t : nat) (now : Z) (s : State) : State :=
  match tasks s !! t with
  | None => s
  | Some task =>
      let waitForGate s := setGate (pqAdd t) (updTask t (setPhase GateWaiting) s) in
      match tBody task with
      | RunEntry _ => waitForGate s
      | SteerAgain =>
          match laneHeap s !! tLane task with
          | None => s
          | Some lane =>
              match coalesceQueuedEntries (pendingEntries lane) (world s) with
              | None => updTask t (setPhase LaneLeaving) s
              | Some (w, e) =>
                  waitForGate
                    (setWorld (fun _ => emit (ECoalesced (eSessionKey e) (eChannelType e) (length (pendingEntries lane)) now) w)
                      (updTask t (setEntry e) (updLane (tLane task) (setPending []) s)))
              end
          end
      end
  end.

(** A lane queue starts its next task. *)
Definition laneStart (q : nat) (now : Z) (s : State) : option State :=
  pq ← queues s !! q;
  '(t, pq') ← pqStart pq;
  Some (runLaneTask t now (setQueues <[q := pq']> s)).

Definition beginExecution (t : nat) (l : SessionLane) : SessionLane :=
  {| baseSessionKey := baseSessionKey l; queue := queue l; pendingEntries := pendingEntries l;
     logicalDepth := logicalDepth l; isExecuting := true; lastActivityMs := lastActivityMs l;
     abortController := Some t; activeEntry := Some t |}.

(** The gate starts its next task: the body of [runEntryThroughGate] up to the
    handler's first suspension. *)
Definition gateStart (now : Z) (s : State) : option State :=
  '(t, gate') ← pqStart (globalGate s);
  task ← tasks s !! t;
  e ← tEntry task;
  let waitTimeMs := Z.max 0 (now - enqueuedAt e) in
  Some (setWorld (fun w => emit (EHandler t e) (setOwners (alter markStarted (ownership e))
                             (emit (EDequeued (eSessionKey e) (eChannelType e) waitTimeMs now) w)))
         (updLane (tLane task) (beginExecution t)
           (updTask t (setPhase Executing ∘ setStarted)
             (setGate (fun _ => gate') s)))).

Definition endExecution (t : nat) (e : Entry) (now : Z) (l : SessionLane) : SessionLane :=
  {| baseSessionKey := baseSessionKey l; queue := queue l; pendingEntries := pendingEntries l;
     logicalDepth := Z.max 0 (logicalDepth l - Z.of_nat (logicalCount e)); isExecuting := false; lastActivityMs := now;
     abortController := None;
     activeEntry := if decide (activeEntry l = Some t) then None else activeEntry l |}.

(** A handler returns ([succeeds]) or throws: the [finally] block.  A steer task
    contains the failure. *)
Definition handlerEnd (t : nat) (succeeds : bool) (now : Z) (s : State) : option State :=
  task ← tasks s !! t;
  e ← tEntry task;
  if negb (bool_decide (tPhase task = Executing)) then None else
  let failed := match tBody task with SteerAgain => false | RunEntry _ => negb succeeds end in
  let s := updLane (tLane task) (endExecution t e now) (updTask t (setPhase GateLeaving ∘ setFailed failed) s) in
  Some (match tBody task with
        | RunEntry true => processCollectedMessages (tLane task) now s
        | _ => s
        end).

(** The gate frees the slot of a finished task, the lane's queue does. *)
Definition gateLeave (t : nat) (s : State) : option State :=
  task ← tasks s !! t;
  if negb (bool_decide (tPhase task = GateLeaving)) then None else
  Some (setGate (pqDone t) (updTask t (setPhase LaneLeaving) s)).

Definition laneLeave (t : nat) (s : State) : option State :=
  task ← tasks s !! t;
  if negb (bool_decide (tPhase task = LaneLeaving)) then None else
  Some (onLaneQueue (tLane task) (pqDone t) (updTask t (setPhase Settled) s)).

(** The continuations of a settled task: it leaves [scheduledTasks] and, when it was
    submitted and rejected, its sources are told. *)
Definition settle (t : nat) (now : Z) (s : State) : option State :=
  task ← tasks s !! t;
  if negb (bool_decide (tPhase task = Settled)) then None else
  let s := setScheduled (without t) (updTask t (setPhase Gone) s) in
  Some (match tEntry task with
        | Some e => if tObserved task && tFailed task
                    then setWorld (publishEntry SourceTerminal.OError SourceTerminal.RQueueRejected now e) s else s
        | None => s
        end).

(** ** Enqueueing *)

(** The arguments of [enqueue] and [submit]: [wait] tells them apart, [context] is the
    request context of the caller. *)
Record Request := {
  rSessionKey : SessionKeys.SessionKey;
  rMessage : NormalizedMessage;
  rChannelType : string;
  rHandler : nat;
  rScope : option SourceTerminal.Scope;
  rRelease : bool;
  rPlan : option nat;
  rContext : option RequestContext;
  rWait : bool;
}.

Definition maxSafeInteger : Z := 9007199254740991.

Definition receivedTime (r : Request) (now : Z) : Z :=
  match rContext r with
  | Some c => if (cStartedAt c <=? maxSafeInteger)%Z && (0 <? cStartedAt c)%Z then Z.min (cStartedAt c) now else now
  | None => now
  end.

(** The entry of a request: a fresh ownership record, the caller's terminal scope or
    a fresh one. *)
Definition newEntry (r : Request) (now : Z) (w : World) : World * Entry :=
  let m := rMessage r in
  let hs := match rScope r with
            | Some sc => (terminals w, sc)
            | None => SourceTerminal.createSourceTerminalScope (mChannelType m) (mChannelId m) (mId m) (rChannelType r)
                        (terminals w)
            end in
  ({| owners := owners w ++ [{| executionStarted := false; resourcesReleased := false; releaseResources := rRelease r |}];
      terminals := hs.1; events := events w |},
   {| message := m; inboundProvenancePlans := match rPlan r with Some p => [p] | None => [] end;
      eSessionKey := rSessionKey r; eChannelType := rChannelType r; enqueuedAt := now; receivedAt := receivedTime r now;
      logicalCount := 1; handler := rHandler r; asyncScope := rContext r; ownership := length (owners w);
      sourceTerminalScope := hs.2 |}).

(** An entry for a busy lane: it is added to the pending ones and the overflow
    policy applied. *)
Definition accumulate (l : nat) (e : Entry) (c : OverflowConfig) (now : Z) (s : State) : State :=
  match laneHeap s !! l with
  | None => s
  | Some lane =>
      let before := pendingEntries lane ++ [e] in
      let r := applyOverflowPolicyToQueueEntries before c (eSessionKey e) (eChannelType e) now (world s) in
      updLane l (lowerDepth (Z.of_nat r.2.2) ∘ setPending r.2.1)
        (setWorld (fun _ => emitDroppedEntries before r.2.1 (policy c) now r.1) s)
  end.

(** [lane.abortController?.abort()] *)
Definition abortExecution (l : nat) (s : State) : State :=
  match laneHeap s !! l ≫= abortController with
  | Some t => updTask t setSignalled s
  | None => s
  end.

(** The modes: what [enqueueMessage] does with an entry of a lane. *)
Definition dispatch (c : PerChannelQueueConfig) (key : string) (l : nat) (e : Entry) (observed : bool) (now : Z) (s : State) : State :=
  let executing := default false (isExecuting <$> laneHeap s !! l) in
  match mode c with
  | Collect =>
      if executing then
        let s := accumulate l e (overflow c) now s in
        if (0 <? debounceMs c)%Z then setTimers (fun ts => mset ts key l) s else s
      else executeLaneTask l e true observed s
  | Steer =>
      if executing then
        let s := setTimers (fun ts => mdel ts key) (abortExecution l (accumulate l e (overflow c) now s)) in
        scheduleLaneTask l SteerAgain None false s
      else executeLaneTask l e false observed s
  | _ => executeLaneTask l e false observed s
  end.

(** [enqueueMessage] up to its first suspension; the second component is false when
    the queue refuses the message. *)
Definition enqueueMessage (r : Request) (now : Z) (s : State) : State * bool :=
  if isShutdown s then (s, false) else
  let (base, key) := createQueueLaneIdentity (rSessionKey r) (rChannelType r) (rContext r) in
  let (s, l) := getOrCreateLane key base now s in
  let c := resolveChannelConfig (rChannelType r) in
  let (w, e) := newEntry r now (world s) in
  let s := setWorld (fun _ => w) (updLane l (fun lane => setDepth (logicalDepth lane + 1) lane) s) in
  let depth := default 0%Z (logicalDepth <$> laneHeap s !! l) in
  let s := setWorld (emit (EEnqueued (rSessionKey r) (rChannelType r) depth (mode c) now)) s in
  (dispatch c key l e (negb (rWait r)) now s, true).

(** ** Timers *)

(** A debounce timer fires. *)
Definition debounce (key : string) (now : Z) (s : State) : option State :=
  l ← mget (debounceTimers s) key;
  lane ← laneHeap s !! l;
  let s := setTimers (fun ts => mdel ts key) s in
  Some (if isExecuting lane then s else processCollectedMessages l now s).

Definition idleLane (now : Z) (s : State) (l : nat) : bool :=
  match laneHeap s !! l with
  | Some lane =>
      negb (isExecuting lane) &&
      (match queues s !! queue lane with
       | Some q => bool_decide (pqWaiting q = []) && bool_decide (pqRunning q = [])
       | None => false
       end) &&
      bool_decide (pendingEntries lane = []) &&
      (cleanupIdleMs config <? now - lastActivityMs lane)%Z
  | None => false
  end.

(** The cleanup sweep. *)
Definition sweep (now : Z) (s : State) : State := setLanes (filter (fun p => idleLane now s p.2 = false)) s.

Definition touchLane (base : string) (now : Z) (s : State) : State :=
  setLaneHeap (imap (fun l lane =>
    if decide (l ∈ (lanes s).*2 ∧ baseSessionKey lane = base) then touch now lane else lane)) s.

(** ** Shutdown *)

(** The abort of a task that has not started: it leaves the queue it waits in. *)
Definition abortTask (t : nat) (s : State) : State :=
  match tasks s !! t with
  | None => s
  | Some task =>
      let s := updTask t setAborted s in
      match tPhase task with
      | LaneWaiting => onLaneQueue (tLane task) (pqAbort t) (updTask t (setPhase Settled ∘ setFailed true) s)
      | GateWaiting => setGate (pqAbort t) (updTask t (setPhase LaneLeaving ∘ setFailed true) s)
      | _ => s
      end
  end.

Definition rejectPending (now : Z) (s : State) (l : nat) : State :=
  match laneHeap s !! l with
  | None => s
  | Some lane =>
      let s := updLane l (setPending [])
        (setWorld (emitRejectedEntries (pendingEntries lane) SourceTerminal.RQueueRejected SourceTerminal.OError now) s) in
      let s := match (t ← activeEntry lane; task ← tasks s !! t; tEntry task) with
               | Some e => setWorld (emitRejectedEntries [e] SourceTerminal.RQueueAborted SourceTerminal.OAborted now) s
               | None => s
               end in
      abortExecution l s
  end.

(** [performShutdown] up to its first suspension. *)
Definition performShutdown (now : Z) (s : State) : State :=
  if isShutdown s then s else
  let s := setTimers (fun _ => []) s in
  let s := foldl (fun s l => onLaneQueue l pqPause s) s (lanes s).*2 in
  let s := setGate pqPause s in
  let notStarted := filter (fun t => (tStarted <$> tasks s !! t) = Some false) (scheduledTasks s) in
  let entries := omap (fun t => tasks s !! t ≫= tEntry) notStarted in
  let s := setWorld (emitRejectedEntries entries SourceTerminal.RQueueRejected SourceTerminal.OError now) s in
  let s := foldl (rejectPending now) s (lanes s).*2 in
  let s := foldl (fun s t => abortTask t s) s notStarted in
  setShutdown true (Some notStarted) s.

(** Its end, once the tasks it waits for are gone: the active ones may still run when
    the bounded wait ends. *)
Definition finishShutdown (s : State) : option State :=
  ts ← shutdownWait s;
  if negb (forallb (fun t => bool_decide ((tPhase <$> tasks s !! t) = Some Gone)) ts) then None else
  let s := foldl (fun s l => updLane l (setDepth 0 ∘ setPending []) (onLaneQueue l pqClear s)) s (lanes s).*2 in
  Some (setLanes (fun _ => []) (setGate pqClear (setShutdown true None s))).

(** ** Queries *)

Definition getQueueDepth (k : SessionKeys.SessionKey) (s : State) : Z :=
  foldl (fun d l => if decide (baseSessionKey l = SessionKeys.formatSessionKey k) then (d + logicalDepth l)%Z else d) 0%Z (laneValues s).

Definition isProcessing (k : SessionKeys.SessionKey) (s : State) : bool :=
  existsb (fun l => bool_decide (baseSessionKey l = SessionKeys.formatSessionKey k) && isExecuting l) (laneValues s).

Record QueueStats := { activeLanes : nat; totalPending : Z; totalExecuting : nat }.

Definition getStats (s : State) : QueueStats :=
  {| activeLanes := length (lanes s);
     totalPending := foldl (fun n l => (n + logicalDepth l)%Z) 0%Z (laneValues s);
     totalExecuting := length (filter (fun l => isExecuting l = true) (laneValues s)) |}.

(** ** Executions *)

Inductive Op :=
| OpIngress (channelType channelId messageId expectedChannelType : string)
| OpPublish (sc : SourceTerminal.Scope) (o : SourceTerminal.Outcome) (r : SourceTerminal.Reason) (now : Z)
| OpEnqueue (r : Request) (now : Z)
| OpLaneStart (q : nat) (now : Z)
| OpGateStart (now : Z)
| OpHandlerEnd (t : nat) (succeeds : bool) (now : Z)
| OpGateLeave (t : nat)
| OpLaneLeave (t : nat)
| OpSettle (t : nat) (now : Z)
| OpDebounce (key : string) (now : Z)
| OpSweep (now : Z)
| OpTouch (base : string) (now : Z)
| OpShutdown (now : Z)
| OpFinishShutdown.

(** [None]: the operation is not enabled.  A request's scope is one the caller holds,
    and callers publish their scopes whenever they like. *)
Definition exec (o : Op) (s : State) : option State :=
  match o with
  | OpIngress ct ci id ec =>
      let r := SourceTerminal.createSourceTerminalScope ct ci id ec (terminals (world s)) in
      Some (setScopes (fun l => l ++ [r.2]) (setWorld (setTerminals r.1) s))
  | OpPublish sc out r now =>
      if bool_decide (sc ∈ scopes s)
      then Some (setWorld (fun w => setTerminals (SourceTerminal.publish sc out r now (terminals w)).1 w) s) else None
  | OpEnqueue r now =>
      if match rScope r with Some sc => bool_decide (sc ∈ scopes s) | None => true end
      then Some (enqueueMessage r now s).1 else None
  | OpLaneStart q now => laneStart q now s
  | OpGateStart now => gateStart now s
  | OpHandlerEnd t ok now => handlerEnd t ok now s
  | OpGateLeave t => gateLeave t s
  | OpLaneLeave t => laneLeave t s
  | OpSettle t now => settle t now s
  | OpDebounce key now => debounce key now s
  | OpSweep now => if isShutdown s then None else Some (sweep now s)
  | OpTouch base now => Some (touchLane base now s)
  | OpShutdown now => Some (performShutdown now s)
  | OpFinishShutdown => finishShutdown s
  end.

Fixpoint run (ops : list Op) (s : State) : option State :=
  match ops with
  | [] => Some s
  | o :: ops => s ← exec o s; run ops s
  end.

Definition emptyWorld : World := {| owners := []; terminals := SourceTerminal.emptyHeap; events := [] |}.

(** The states some execution reaches. *)
Definition reachable (s : State) : Prop := ∃ ops, run ops (createCommandQueue emptyWorld) = Some s.

End Queue.

Arguments State : clear implicits.

(** ** A queue that meets the laws *)

Record Fifo := { fWaiting : list nat; fRunning : list nat; fConcurrency : nat; fPaused : bool }.

#[global] Instance fifo_pqueue : PQueue Fifo := {|
  pqNew c := {| fWaiting := []; fRunning := []; fConcurrency := c; fPaused := false |};
  pqAdd t q := {| fWaiting := fWaiting q ++ [t]; fRunning := fRunning q; fConcurrency := fConcurrency q; fPaused := fPaused q |};
  pqStart q :=
    match fWaiting q with
    | t :: rest =>
        if negb (fPaused q) && (length (fRunning q) <? fConcurrency q)%nat
        then Some (t, {| fWaiting := rest; fRunning := t :: fRunning q; fConcurrency := fConcurrency q; fPaused := fPaused q |})
        else None
    | [] => None
    end;
  pqDone t q := {| fWaiting := fWaiting q; fRunning := without t (fRunning q); fConcurrency := fConcurrency q; fPaused := fPaused q |};
  pqAbort t q := {| fWaiting := without t (fWaiting q); fRunning := fRunning q; fConcurrency := fConcurrency q; fPaused := fPaused q |};
  pqPause q := {| fWaiting := fWaiting q; fRunning := fRunning q; fConcurrency := fConcurrency q; fPaused := true |};
  pqClear q := {| fWaiting := []; fRunning := fRunning q; fConcurrency := fConcurrency q; fPaused := fPaused q |};
  pqWaiting := fWaiting;
  pqRunning := fRunning;
  pqConcurrency := fConcurrency;
  pqPaused := fPaused;
|}.

#[global] Instance fifo_laws : PQueueLaws Fifo.
Proof.
  split; try done.
  - intros t q q'. simpl. destruct (fWaiting q) as [|t' rest] eqn:E; [done|].
    destruct (negb (fPaused q)) eqn:Hp; [|done]. destruct (Nat.ltb_spec (length (fRunning q)) (fConcurrency q)); [|done].
    intros [= <- <-]. apply negb_true_iff in Hp. split_and!; [done..|]. exists rest. unfold view. simpl. by rewrite Hp.
  - intros q. simpl. intros Hp Hc Hw. destruct (fWaiting q); [done|]. rewrite Hp. simpl.
    rewrite (proj2 (Nat.ltb_lt _ _) Hc). eauto.
Qed.

End CommandQueue.
