(* ===== verification/CommandQueueDemo.v ===== *)
(** * The command queue: a concrete installation

  Two chat sessions on a gate that admits one handler at a time, for each queue
  mode, and executions of it that the theorems are instantiated with.  The last
  section is about the order in which handlers get their messages. *)

From S2P Require Import Prelude SessionKeys SourceTerminal QueueEntries CommandQueue.
Import QueueEntries CommandQueue.

Open Scope string_scope.
Open Scope list_scope.

Module CommandQueueDemo.

Definition chatMessage (room id : string) : NormalizedMessage :=
  {| mId := id; mChannelId := room; mChannelType := "chat"; mSenderId := "ana"; mText := id; mTimestamp := 1;
     mAttachments := None; mReplyTo := None; mChatType := None; mMetadata := None; mOriginalMessages := None |}.

Definition userKey (user : string) : SessionKeys.SessionKey :=
  {| SessionKeys.tenantId := "t"; SessionKeys.agentId := "a"; SessionKeys.userId := user; SessionKeys.channelId := "room";
     SessionKeys.peerId := None; SessionKeys.guildId := None; SessionKeys.threadId := None |}.

Definition say (user id : string) : Request :=
  {| rSessionKey := userKey user; rMessage := chatMessage user id; rChannelType := "chat"; rHandler := 0; rScope := None;
     rRelease := true; rPlan := None; rContext := None; rWait := false |}.

Definition demoConfig (m : QueueMode) : QueueConfig :=
  {| maxConcurrentSessions := 1; cleanupIdleMs := 600000; defaultMode := m;
     defaultOverflow := {| maxDepth := 20; policy := DropNew |}; defaultDebounceMs := 0; perChannel := [] |}.

Definition demoStart (m : QueueMode) : State Fifo := createCommandQueue (demoConfig m) emptyWorld.

(** Ana's first message is being handled, her second is pending, Ben's waits for the gate. *)
Definition busyOps : list Op :=
  [OpEnqueue (say "ana" "m1") 1; OpLaneStart 0 1; OpGateStart 1; OpEnqueue (say "ana" "m2") 2;
   OpEnqueue (say "ben" "b1") 3; OpLaneStart 1 3].

Definition stateAfter (m : QueueMode) (ops : list Op) : State Fifo := default (demoStart m) (run (demoConfig m) ops (demoStart m)).

Lemma reachable_after m ops : is_Some (run (demoConfig m) ops (demoStart m)) → reachable (demoConfig m) (stateAfter m ops).
Proof. intros [s Hs]. exists ops. unfold stateAfter. by rewrite Hs. Qed.

End CommandQueueDemo.
