(* ===== verification/QueueCore.v ===== *)
(** * The scheduling core of the command queue

  An abstract machine for the command queue: which lane, queue and gate slots the
  tasks hold, which lane executes, which lane has pending messages.  Entries,
  messages, clocks and the queue library are abstracted away.  [cstep] has one
  rule per move; [CInv] is its invariant.  [CommandQueueRefines] shows that every
  operation of the detailed queue is a sequence of these moves. *)

From S2P Require Import Prelude CommandQueue.
Import CommandQueue.

Open Scope list_scope.

Module QueueCore.

(** ** State *)

Record Lane := {
  lBase : string;
  lQueue : nat;
  lExec : bool;
  lAbort : option nat;
  lActive : option nat;
  lPending : bool;
}.

Record View := { vWaiting : list nat; vRunning : list nat; vConcurrency : nat; vPaused : bool }.

Record Work := { wLane : nat; wBody : Body; wPhase : Phase; wStarted : bool; wEntry : bool }.

Record Core := {
  cLanes : jsmap string nat;
  cHeap : list Lane;
  cQueues : list View;
  cGate : View;
  cTasks : list Work;
  cDown : bool;
}.

(** A task holds a slot of its lane's queue and of the gate according to its phase. *)
Inductive Slot := None' | Waiting | Running.

#[global] Instance Slot_eq_dec : EqDecision Slot.
Proof. solve_decision. Defined.

Definition laneSlot (p : Phase) : Slot :=
  match p with
  | LaneWaiting => Waiting
  | GateWaiting | Executing | GateLeaving | LaneLeaving => Running
  | Settled | Gone => None'
  end.

Definition gateSlot (p : Phase) : Slot :=
  match p with
  | GateWaiting => Waiting
  | Executing | GateLeaving => Running
  | _ => None'
  end.

(** Live tasks hold a slot of their lane's queue. *)
Definition live (p : Phase) : bool := match p with Settled | Gone => false | _ => true end.

Definition setView (w r : list nat) (v : View) : View :=
  {| vWaiting := w; vRunning := r; vConcurrency := vConcurrency v; vPaused := vPaused v |}.

(** The change of a queue when the slot of a task changes. *)
Definition slotOp (a b : Slot) (t : nat) (v : View) : View :=
  match a, b with
  | None', Waiting => setView (vWaiting v ++ [t]) (vRunning v) v
  | Waiting, Running => setView (tail (vWaiting v)) (t :: vRunning v) v
  | Waiting, None' => setView (without t (vWaiting v)) (vRunning v) v
  | Running, None' => setView (vWaiting v) (without t (vRunning v)) v
  | _, _ => v
  end.

(** A start needs a free slot, the head of the line and a queue that is not paused. *)
Definition slotOk (a b : Slot) (t : nat) (v : View) : Prop :=
  match a, b with
  | Waiting, Running => head (vWaiting v) = Some t ∧ vPaused v = false ∧ (length (vRunning v) < vConcurrency v)%nat
  | _, _ => True
  end.

(** ** Moves *)

Definition pauseView (v : View) : View :=
  {| vWaiting := vWaiting v; vRunning := vRunning v; vConcurrency := vConcurrency v; vPaused := true |}.

Definition freshView : View := {| vWaiting := []; vRunning := []; vConcurrency := 1; vPaused := false |}.

Definition setPendingBit (b : bool) (l : Lane) : Lane :=
  {| lBase := lBase l; lQueue := lQueue l; lExec := lExec l; lAbort := lAbort l; lActive := lActive l; lPending := b |}.

(** What a phase change does to the lane of the task. *)
Definition laneMove (t : nat) (b : Body) (p p' : Phase) (l : Lane) : Lane :=
  match p, p' with
  | LaneWaiting, GateWaiting => match b with SteerAgain => setPendingBit false l | RunEntry _ => l end
  | GateWaiting, Executing =>
      {| lBase := lBase l; lQueue := lQueue l; lExec := true; lAbort := Some t; lActive := Some t; lPending := lPending l |}
  | Executing, GateLeaving =>
      {| lBase := lBase l; lQueue := lQueue l; lExec := false; lAbort := None;
         lActive := if decide (lActive l = Some t) then None else lActive l;
         lPending := match b with RunEntry true => false | _ => lPending l end |}
  | _, _ => l
  end.

Definition workMove (p' : Phase) (w : Work) : Work :=
  {| wLane := wLane w; wBody := wBody w; wPhase := p';
     wStarted := match p' with Executing => true | _ => wStarted w end;
     wEntry := match p' with GateWaiting => true | _ => wEntry w end |}.

(** The phase changes: the normal course, the steer task that finds nothing to do
    and the two aborts; the last three need a lane with nothing pending. *)
Definition allowed (b : Body) (pending : bool) (p p' : Phase) : Prop :=
  match p, p' with
  | LaneWaiting, GateWaiting | GateWaiting, Executing | Executing, GateLeaving
  | GateLeaving, LaneLeaving | LaneLeaving, Settled | Settled, Gone => True
  | LaneWaiting, LaneLeaving => b = SteerAgain ∧ pending = false
  | LaneWaiting, Settled | GateWaiting, LaneLeaving => pending = false
  | _, _ => False
  end.

Definition move (t : nat) (w : Work) (l : Lane) (p' : Phase) (c : Core) : Core :=
  {| cLanes := cLanes c;
     cHeap := alter (laneMove t (wBody w) (wPhase w) p') (wLane w) (cHeap c);
     cQueues := alter (slotOp (laneSlot (wPhase w)) (laneSlot p') t) (lQueue l) (cQueues c);
     cGate := slotOp (gateSlot (wPhase w)) (gateSlot p') t (cGate c);
     cTasks := alter (workMove p') t (cTasks c);
     cDown := cDown c |}.

Definition addTask (l : nat) (q : nat) (b : Body) (e : bool) (c : Core) : Core :=
  {| cLanes := cLanes c; cHeap := cHeap c;
     cQueues := alter (slotOp None' Waiting (length (cTasks c))) q (cQueues c);
     cGate := cGate c;
     cTasks := cTasks c ++ [{| wLane := l; wBody := b; wPhase := LaneWaiting; wStarted := false; wEntry := e |}];
     cDown := cDown c |}.

Definition addLane (key base : string) (q : nat) (qs : list View) (c : Core) : Core :=
  {| cLanes := mset (cLanes c) key (length (cHeap c));
     cHeap := cHeap c ++ [{| lBase := base; lQueue := q; lExec := false; lAbort := None; lActive := None; lPending := false |}];
     cQueues := qs; cGate := cGate c; cTasks := cTasks c; cDown := cDown c |}.

Definition onLane (l : nat) (f : Lane → Lane) (c : Core) : Core :=
  {| cLanes := cLanes c; cHeap := alter f l (cHeap c); cQueues := cQueues c; cGate := cGate c; cTasks := cTasks c;
     cDown := cDown c |}.

Definition withQueues (qs : list View) (g : View) (c : Core) : Core :=
  {| cLanes := cLanes c; cHeap := cHeap c; cQueues := qs; cGate := g; cTasks := cTasks c; cDown := cDown c |}.

Definition withLanes (m : jsmap string nat) (down : bool) (c : Core) : Core :=
  {| cLanes := m; cHeap := cHeap c; cQueues := cQueues c; cGate := cGate c; cTasks := cTasks c; cDown := down |}.

Definition mapped (c : Core) (l : nat) : Prop := ∃ key, (key, l) ∈ cLanes c.

Definition idle (c : Core) (l : nat) : Prop :=
  ∃ L v, cHeap c !! l = Some L ∧ lExec L = false ∧ lPending L = false ∧
         cQueues c !! lQueue L = Some v ∧ vWaiting v = [] ∧ vRunning v = [].

(** A run has its entry from the start, a steer task takes one when it starts. *)
Definition hasEntry (b : Body) : bool := match b with RunEntry _ => true | SteerAgain => false end.

(** A task that will take the pending messages of a lane: the executing one, when it
    collects on completion, or a steer task still in line. *)
Definition carried (c : Core) (l : nat) : Prop :=
  ∃ t w, cTasks c !! t = Some w ∧ wLane w = l ∧
    ((wPhase w = Executing ∧ wBody w = RunEntry true) ∨ (wPhase w = LaneWaiting ∧ wBody w = SteerAgain)).

Inductive cstep : Core → Core → Prop :=
| CsLane key base q l L c :
    cDown c = false → mget (cLanes c) key = None → mapped c l → cHeap c !! l = Some L → lBase L = base → lQueue L = q →
    cstep c (addLane key base q (cQueues c) c)
| CsLaneNew key base c :
    cDown c = false → mget (cLanes c) key = None →
    (∀ l L, mapped c l → cHeap c !! l = Some L → lBase L ≠ base) →
    cstep c (addLane key base (length (cQueues c)) (cQueues c ++ [freshView]) c)
| CsAdd l L b e c :
    cDown c = false → mapped c l → cHeap c !! l = Some L → e = hasEntry b →
    cstep c (addTask l (lQueue L) b e c)
| CsPend l b c :
    cDown c = false → mapped c l → carried c l → cstep c (onLane l (setPendingBit b) c)
| CsClear l c : cstep c (onLane l (setPendingBit false) c)
| CsMove t w L v p' c :
    cTasks c !! t = Some w → cHeap c !! wLane w = Some L → cQueues c !! lQueue L = Some v →
    allowed (wBody w) (lPending L) (wPhase w) p' →
    slotOk (laneSlot (wPhase w)) (laneSlot p') t v →
    slotOk (gateSlot (wPhase w)) (gateSlot p') t (cGate c) →
    cstep c (move t w L p' c)
| CsSweep P c :
    (∀ key l, (key, l) ∈ cLanes c → P (key, l) = true ∨ idle c l) →
    cstep c (withLanes (filter (fun p => P p = true) (cLanes c)) (cDown c) c)
| CsPause q c : cstep c (withQueues (alter pauseView q (cQueues c)) (cGate c) c)
| CsPauseGate c : cstep c (withQueues (cQueues c) (pauseView (cGate c)) c)
| CsDown c :
    (∀ t w, cTasks c !! t = Some w → wPhase w ≠ LaneWaiting ∧ wPhase w ≠ GateWaiting) →
    (∀ l L, cHeap c !! l = Some L → lPending L = false) →
    cstep c (withLanes (cLanes c) true c)
| CsFinish c : cDown c = true → cstep c (withLanes [] true c).

Definition initial (max : nat) : Core :=
  {| cLanes := []; cHeap := []; cQueues := [];
     cGate := {| vWaiting := []; vRunning := []; vConcurrency := max; vPaused := false |}; cTasks := []; cDown := false |}.

(** ** Slots *)

(** A queue holds exactly the tasks that have a slot in it. *)
Record Tracks (v : View) (f : nat → Slot) : Prop := {
  tr_waiting t : t ∈ vWaiting v ↔ f t = Waiting;
  tr_running t : t ∈ vRunning v ↔ f t = Running;
  tr_nodup_waiting : NoDup (vWaiting v);
  tr_nodup_running : NoDup (vRunning v);
}.

Definition upd (f : nat → Slot) (t : nat) (x : Slot) (u : nat) : Slot := if decide (u = t) then x else f u.

Lemma tracks_ext v f g : (∀ t, f t = g t) → Tracks v f → Tracks v g.
Proof. intros E [H1 H2 H3 H4]. split; intros; rewrite <- ?E; auto. Qed.

Lemma elem_of_without t u l : u ∈ without t l ↔ u ≠ t ∧ u ∈ l.
Proof. unfold without. by rewrite list_elem_of_filter. Qed.

(** The slot changes that occur. *)
Definition slotMove (a b : Slot) : Prop :=
  match a, b with None', Running | Running, Waiting => False | _, _ => True end.

Lemma upd_id f t a : f t = a → ∀ u, f u = upd f t a u.
Proof. intros <- u. unfold upd. by case_decide; subst. Qed.

Lemma slotOp_tracks v f t a b :
  Tracks v f → f t = a → slotMove a b → slotOk a b t v → Tracks (slotOp a b t v) (upd f t b).
Proof.
  intros HT Ef Hm Hok. pose proof HT as [H1 H2 H3 H4].
  destruct a, b; try done; simpl in *; try (eapply tracks_ext; [by apply upd_id|done]);
    (split; simpl; [intros u; unfold upd|intros u; unfold upd|..]); rewrite ?elem_of_without, ?elem_of_app, ?list_elem_of_singleton.
  - case_decide; [naive_solver|]. rewrite H1. naive_solver.
  - case_decide; [|done]. subst. rewrite H2. split; congruence.
  - apply NoDup_app. split; [done|]. split; [|by apply NoDup_singleton]. intros u Hu ->%list_elem_of_singleton.
    apply H1 in Hu. congruence.
  - done.
  - case_decide; [subst; split; [naive_solver|congruence]|]. rewrite H1. naive_solver.
  - case_decide; [|done]. subst. rewrite H2. split; congruence.
  - by apply NoDup_filter.
  - done.
  - destruct Hok as [Hh _]. destruct (vWaiting v) as [|x r]; [done|]. simpl in *. injection Hh as ->.
    apply NoDup_cons in H3 as [Hx _]. case_decide; [naive_solver|]. rewrite <- H1, elem_of_cons. naive_solver.
  - rewrite elem_of_cons. case_decide; [naive_solver|]. rewrite H2. naive_solver.
  - destruct (vWaiting v) as [|x r]; [done|]. simpl. by apply NoDup_cons in H3 as [_ ?].
  - constructor; [|done]. rewrite H2. congruence.
  - case_decide; [|done]. subst. rewrite H1. split; congruence.
  - case_decide; [subst; split; [naive_solver|congruence]|]. rewrite H2. naive_solver.
  - done.
  - by apply NoDup_filter.
Qed.

Lemma slotOp_running a b t v :
  slotOk a b t v → (length (vRunning v) ≤ vConcurrency v)%nat →
  (length (vRunning (slotOp a b t v)) ≤ vConcurrency (slotOp a b t v))%nat ∧
  vConcurrency (slotOp a b t v) = vConcurrency v.
Proof.
  intros Hok Hl. destruct a, b; simpl in *; try done; [lia|]. split; [|done].
  pose proof (length_filter (fun x => x ≠ t) (vRunning v)). unfold without. lia.
Qed.

(** ** The invariant *)

Definition laneSlotAt (c : Core) (q t : nat) : Slot :=
  match cTasks c !! t with
  | Some w =>
      match cHeap c !! wLane w with
      | Some L => if decide (lQueue L = q) then laneSlot (wPhase w) else None'
      | None => None'
      end
  | None => None'
  end.

Definition gateSlotAt (c : Core) (t : nat) : Slot :=
  match cTasks c !! t with Some w => gateSlot (wPhase w) | None => None' end.

(** The queues hold exactly the tasks whose phase says so, within their concurrency. *)
Record QInv (c : Core) : Prop := {
  qi_lane l L : cHeap c !! l = Some L → is_Some (cQueues c !! lQueue L);
  qi_task t w : cTasks c !! t = Some w → is_Some (cHeap c !! wLane w);
  qi_queue q v : cQueues c !! q = Some v →
    Tracks v (laneSlotAt c q) ∧ vConcurrency v = 1 ∧ (length (vRunning v) ≤ vConcurrency v)%nat;
  qi_gate : Tracks (cGate c) (gateSlotAt c) ∧ (length (vRunning (cGate c)) ≤ vConcurrency (cGate c))%nat;
}.

Definition liveOn (c : Core) (l : nat) : Prop := ∃ t w, cTasks c !! t = Some w ∧ wLane w = l ∧ live (wPhase w) = true.

Definition used (c : Core) (l : nat) : Prop := mapped c l ∨ liveOn c l.

(** Lanes in use stay in the map until shutdown; lanes of one session share a queue. *)
Record LInv (c : Core) : Prop := {
  li_nodup : NoDup (mkeys (cLanes c));
  li_heap l : mapped c l → is_Some (cHeap c !! l);
  li_live l : cDown c = false → liveOn c l → mapped c l;
  li_pending l L : cHeap c !! l = Some L → lPending L = true → cDown c = false ∧ mapped c l;
  li_base l l' L L' : used c l → used c l' → cHeap c !! l = Some L → cHeap c !! l' = Some L' →
    lBase L = lBase L' → lQueue L = lQueue L';
  li_down t w : cDown c = true → cTasks c !! t = Some w → wPhase w ≠ LaneWaiting ∧ wPhase w ≠ GateWaiting;
}.

(** A lane knows the task that executes on it; a task past its lane's queue has an
    entry; pending messages have a task that will take them. *)
Record EInv (c : Core) : Prop := {
  ei_exec t w : cTasks c !! t = Some w → wPhase w = Executing →
    ∃ L, cHeap c !! wLane w = Some L ∧ lExec L = true ∧ lAbort L = Some t ∧ lActive L = Some t;
  ei_lane l L : cHeap c !! l = Some L →
    if lExec L then ∃ t w, lAbort L = Some t ∧ lActive L = Some t ∧ cTasks c !! t = Some w ∧ wLane w = l ∧ wPhase w = Executing
    else lAbort L = None ∧ lActive L = None;
  ei_entry t w : cTasks c !! t = Some w →
    gateSlot (wPhase w) ≠ None' ∨ wBody w ≠ SteerAgain → wEntry w = true;
  ei_steer t w : cTasks c !! t = Some w → wBody w = SteerAgain → wPhase w = LaneWaiting → wEntry w = false;
  ei_started t w : cTasks c !! t = Some w →
    (gateSlot (wPhase w) = Running → wStarted w = true) ∧
    (laneSlot (wPhase w) = Waiting ∨ gateSlot (wPhase w) = Waiting → wStarted w = false);
  ei_carried l L : cHeap c !! l = Some L → lPending L = true → carried c l;
}.

Record CInv (c : Core) : Prop := { ci_queues : QInv c; ci_lanes : LInv c; ci_exec : EInv c }.

Lemma cinv_initial max : CInv (initial max).
Proof.
  split; split; simpl; try done; try (intros ? ? (?&Hx%not_elem_of_nil)); try done.
  - split; [|lia]. split; simpl; [| |constructor..]; intros t; (split; [intros Hx; by apply not_elem_of_nil in Hx|done]).
  - constructor.
  - intros l (key & Hx). by apply not_elem_of_nil in Hx.
  - intros l _ (t & w & Hx & _). done.
Qed.

(** Two tasks running in one queue are the same. *)
Lemma running_unique c t t' w w' L L' :
  QInv c → cTasks c !! t = Some w → cTasks c !! t' = Some w' →
  cHeap c !! wLane w = Some L → cHeap c !! wLane w' = Some L' → lQueue L = lQueue L' →
  laneSlot (wPhase w) = Running → laneSlot (wPhase w') = Running → t = t'.
Proof.
  intros HQ Ht Ht' HL HL' Eq Hr Hr'. destruct (qi_lane c HQ _ L HL) as [v Hv].
  destruct (qi_queue c HQ _ v Hv) as (HT & Hc & Hlen). rewrite Hc in Hlen.
  assert (t ∈ vRunning v) as H1.
  { apply (tr_running v _ HT). unfold laneSlotAt. by rewrite Ht, HL, decide_True. }
  assert (t' ∈ vRunning v) as H2.
  { apply (tr_running v _ HT). unfold laneSlotAt. by rewrite Ht', HL', decide_True. }
  destruct (vRunning v) as [|x [|y r]]; simpl in Hlen; [by apply not_elem_of_nil in H1| |lia].
  apply list_elem_of_singleton in H1, H2. congruence.
Qed.

(** ** The queues *)

(** Lookups in an altered list. *)
Lemma alter_Some {A} (f : A → A) i (l : list A) j x :
  alter f i l !! j = Some x ↔ ∃ y, l !! j = Some y ∧ x = if decide (i = j) then f y else y.
Proof. rewrite list_lookup_alter. case_decide; subst; destruct (l !! j); naive_solver. Qed.

Lemma alter_is_Some {A} (f : A → A) i (l : list A) j : is_Some (alter f i l !! j) ↔ is_Some (l !! j).
Proof. unfold is_Some. setoid_rewrite alter_Some. naive_solver. Qed.

Definition keepsQueue (f : Lane → Lane) : Prop := ∀ L, lQueue (f L) = lQueue L ∧ lBase (f L) = lBase L.

Lemma keeps_pending b : keepsQueue (setPendingBit b).
Proof. done. Qed.

Lemma keeps_move t b p p' : keepsQueue (laneMove t b p p').
Proof. intros L. by destruct p, p', b; simpl. Qed.

#[local] Hint Resolve keeps_pending keeps_move : core.

Lemma laneSlotAt_lane f l c ts q t :
  keepsQueue f →
  laneSlotAt {| cLanes := cLanes c; cHeap := alter f l (cHeap c); cQueues := cQueues c; cGate := cGate c; cTasks := ts; cDown := cDown c |} q t =
  laneSlotAt {| cLanes := cLanes c; cHeap := cHeap c; cQueues := cQueues c; cGate := cGate c; cTasks := ts; cDown := cDown c |} q t.
Proof.
  intros Hf. unfold laneSlotAt. simpl. destruct (ts !! t) as [w|]; [|done]. rewrite list_lookup_alter.
  case_decide; [subst|done]. destruct (cHeap c !! wLane w) as [L|]; simpl; [|done]. by rewrite (proj1 (Hf L)).
Qed.

Lemma qinv_onLane f l c : keepsQueue f → QInv c → QInv (onLane l f c).
Proof.
  intros Hf [H1 H2 H3 H4]. split; simpl.
  - intros l' L (L0 & HL0 & ->)%alter_Some. case_decide; [rewrite (proj1 (Hf L0))|]; eauto.
  - intros t w Hw. apply alter_is_Some. eauto.
  - intros q v Hv. destruct (H3 q v Hv) as (HT & ?). split; [|done]. eapply tracks_ext; [|done]. intros t. symmetry.
    apply (laneSlotAt_lane f l c (cTasks c) q t Hf).
  - done.
Qed.

Lemma slotMove_allowed b pd p p' : allowed b pd p p' → slotMove (laneSlot p) (laneSlot p') ∧ slotMove (gateSlot p) (gateSlot p').
Proof. by destruct p, p'. Qed.

Lemma move_laneSlot t w L p' c q u :
  cTasks c !! t = Some w → cHeap c !! wLane w = Some L →
  laneSlotAt (move t w L p' c) q u =
  if decide (u = t) then if decide (lQueue L = q) then laneSlot p' else None' else laneSlotAt c q u.
Proof.
  intros Ht HL. unfold move. unfold laneSlotAt at 1. simpl. destruct (decide (u = t)) as [->|Hu];
    [rewrite list_lookup_alter_eq, Ht; simpl|rewrite list_lookup_alter_ne by done].
  - rewrite list_lookup_alter_eq, HL. simpl. by rewrite (proj1 (keeps_move t _ _ p' L)).
  - unfold laneSlotAt. destruct (cTasks c !! u) as [wu|]; [|done]. rewrite list_lookup_alter.
    case_decide as El; [rewrite El|done]. destruct (cHeap c !! wLane wu) as [Lu|]; simpl; [|done].
    by rewrite (proj1 (keeps_move t _ _ p' Lu)).
Qed.

Lemma qinv_move t w L v p' c :
  cTasks c !! t = Some w → cHeap c !! wLane w = Some L → cQueues c !! lQueue L = Some v →
  allowed (wBody w) (lPending L) (wPhase w) p' →
  slotOk (laneSlot (wPhase w)) (laneSlot p') t v → slotOk (gateSlot (wPhase w)) (gateSlot p') t (cGate c) →
  QInv c → QInv (move t w L p' c).
Proof.
  intros Ht HL Hv Hal Hq Hg HQ. destruct (slotMove_allowed _ _ _ _ Hal) as [Hm Hm'].
  pose proof HQ as [H1 H2 H3 H4]. split; simpl.
  - intros l L' (L0 & HL0 & ->)%alter_Some. apply alter_is_Some.
    case_decide; [rewrite (proj1 (keeps_move t (wBody w) (wPhase w) p' L0))|]; eauto.
  - intros t' w' (w0 & Hw0 & ->)%alter_Some. apply alter_is_Some. case_decide; simpl; eauto.
  - intros q v' (v0 & Hv0 & ->)%alter_Some. destruct (H3 q v0 Hv0) as (HT & Hc & Hlen).
    pose proof (fun u => move_laneSlot t w L p' c q u Ht HL) as Hs.
    assert (laneSlotAt c q t = if decide (lQueue L = q) then laneSlot (wPhase w) else None') as Hst.
    { unfold laneSlotAt. by rewrite Ht, HL. }
    case_decide as Eq.
    + subst q. rewrite Hv in Hv0. injection Hv0 as <-.
      destruct (slotOp_running _ _ t v Hq Hlen) as [Hlen' Hc']. split; [|split; [congruence|done]].
      eapply tracks_ext; [|by apply (slotOp_tracks v _ t _ (laneSlot p') HT Hst)].
      intros u. by rewrite Hs.
    + split; [|done]. eapply tracks_ext; [|exact HT]. intros u. rewrite Hs.
      case_decide; [|done]. by subst u.
  - destruct H4 as [HT Hlen]. destruct (slotOp_running _ _ t _ Hg Hlen) as [Hlen' _]. split; [|done].
    assert (gateSlotAt c t = gateSlot (wPhase w)) as Hst by (unfold gateSlotAt; by rewrite Ht).
    eapply tracks_ext; [|by apply (slotOp_tracks _ _ t _ (gateSlot p') HT Hst)].
    intros u. unfold upd, gateSlotAt. simpl. rewrite list_lookup_alter. destruct (decide (u = t)) as [->|].
    + by rewrite Ht, decide_True.
    + by rewrite decide_False.
Qed.

Lemma snoc_Some {A} (l : list A) x i y : (l ++ [x]) !! i = Some y ↔ l !! i = Some y ∨ (i = length l ∧ y = x).
Proof.
  rewrite lookup_snoc_Some. split; [intros [[? ?]|[? ?]]|intros [H|[? ?]]]; auto.
  left. split; [by apply lookup_lt_Some in H|done].
Qed.

Lemma qinv_addTask l L b e c : cHeap c !! l = Some L → QInv c → QInv (addTask l (lQueue L) b e c).
Proof.
  intros HL HQ. pose proof HQ as [H1 H2 H3 H4].
  assert (∀ q u, laneSlotAt (addTask l (lQueue L) b e c) q u =
    if decide (u = length (cTasks c)) then if decide (lQueue L = q) then Waiting else None' else laneSlotAt c q u) as Hs.
  { intros q u. unfold laneSlotAt. simpl. case_decide as Hu; [subst u; rewrite list_lookup_middle by done; simpl; by rewrite HL|].
    rewrite lookup_app. destruct (cTasks c !! u) as [w|] eqn:E; [done|].
    apply lookup_ge_None in E. rewrite (lookup_ge_None_2 [_]); [done|simpl; lia]. }
  assert (∀ q, laneSlotAt c q (length (cTasks c)) = None') as Hn.
  { intros q. unfold laneSlotAt. by rewrite lookup_ge_None_2. }
  split.
  - intros l' L' HL'. apply alter_is_Some. eauto.
  - intros t w [Hw|[-> ->]]%snoc_Some; [eauto|]. simpl. eauto.
  - intros q v' (v & Hv & ->)%alter_Some. destruct (H3 q v Hv) as (HT & Hc & Hlen). case_decide as Eq.
    + split; [|done]. eapply tracks_ext; [|by apply (slotOp_tracks v _ (length (cTasks c)) _ Waiting HT (Hn q))].
      intros u. rewrite Hs. unfold upd. subst q. by rewrite (decide_True (P := lQueue L = lQueue L)).
    + split; [|done]. eapply tracks_ext; [|exact HT]. intros u. rewrite Hs. rewrite (decide_False (P := _ = q)) by done.
      case_decide; [subst u; by rewrite Hn|done].
  - split; [|apply H4]. eapply tracks_ext; [|apply H4]. intros u. unfold gateSlotAt. simpl. rewrite lookup_app.
    destruct (cTasks c !! u) as [w|]; [done|]. by destruct (_ - _)%nat.
Qed.

Lemma qinv_addLane key base q qs c :
  (∀ i, is_Some (cQueues c !! i) → qs !! i = cQueues c !! i) →
  (∀ i v, qs !! i = Some v → cQueues c !! i = Some v ∨ (cQueues c !! i = None ∧ v = freshView)) →
  is_Some (qs !! q) → QInv c → QInv (addLane key base q qs c).
Proof.
  intros Hqs Hqs' Hq HQ. pose proof HQ as [H1 H2 H3 H4].
  assert (∀ i u, laneSlotAt (addLane key base q qs c) i u = laneSlotAt c i u) as Hs.
  { intros i u. unfold laneSlotAt. simpl. destruct (cTasks c !! u) as [w|] eqn:Hw; [|done].
    destruct (H2 u w Hw) as [L HL]. rewrite lookup_app_l by (by eapply lookup_lt_Some). done. }
  split.
  - intros l L [HL|[-> ->]]%snoc_Some; simpl; [|done]. rewrite Hqs; eauto.
  - intros t w Hw. destruct (H2 t w Hw) as [L HL]. exists L. apply snoc_Some. auto.
  - intros i v Hv. destruct (Hqs' i v Hv) as [Hv'|[Hi ->]].
    + destruct (H3 i v Hv') as (HT & ?). split; [|done]. eapply tracks_ext; [|exact HT]. intros u. by rewrite Hs.
    + split; [|by split; [|simpl; lia]]. eapply tracks_ext; [intros u; symmetry; apply Hs|].
      assert (∀ u, laneSlotAt c i u = None') as Hn.
      { intros u. unfold laneSlotAt. destruct (cTasks c !! u) as [w|]; [|done]. destruct (cHeap c !! wLane w) as [L|] eqn:HL; [|done].
        case_decide as E; [|done]. destruct (H1 _ L HL) as [v Hv']. rewrite E, Hi in Hv'. done. }
      split; simpl; [| |constructor..]; intros u; rewrite Hn; (split; [intros Hx; by apply not_elem_of_nil in Hx|done]).
  - done.
Qed.

Lemma tracks_pause v f : Tracks v f → Tracks (pauseView v) f.
Proof. by intros [H1 H2 H3 H4]. Qed.

Lemma qinv_step c c' : QInv c → LInv c → cstep c c' → QInv c'.
Proof.
  intros HQ HL Hst. destruct Hst.
  - apply qinv_addLane; try done; [by left; eauto|]. subst. by eapply (qi_lane c HQ).
  - apply qinv_addLane; try done.
    + intros i [v Hv]. by rewrite lookup_app_l by (by eapply lookup_lt_Some).
    + intros i v [Hv|[-> ->]]%snoc_Some; [by left|right]. split; [by apply lookup_ge_None_2|done].
    + rewrite list_lookup_middle by done. eauto.
  - by apply qinv_addTask.
  - by apply qinv_onLane.
  - by apply qinv_onLane.
  - by eapply qinv_move.
  - by destruct HQ.
  - destruct HQ as [H1 H2 H3 H4]. split; simpl; [|done| |done].
    + intros l L HL'. apply alter_is_Some. eauto.
    + intros i v' (v & Hv & ->)%alter_Some. destruct (H3 i v Hv) as (HT & ?). split; [|by case_decide].
      case_decide; [by apply tracks_pause|done].
  - destruct HQ as [H1 H2 H3 [H4 H5]]. split; simpl; [done..|]. split; [by apply tracks_pause|done].
  - by destruct HQ.
  - by destruct HQ.
Qed.

(** ** The lanes *)

Lemma live_move b pd p p' : allowed b pd p p' → live p' = true → live p = true.
Proof. by destruct p, p'. Qed.

Lemma laneMove_pending t b p p' L : lPending (laneMove t b p p' L) = true → lPending L = true.
Proof. by destruct p, p', b as [[]|]. Qed.

(** A lane map that shrinks, lanes that keep their session and queue and gain no
    pending messages, tasks that do not come back to life. *)
Lemma linv_shrink c c' :
  LInv c →
  (∀ p, p ∈ cLanes c' → p ∈ cLanes c) → NoDup (mkeys (cLanes c')) →
  (∀ l L, cHeap c' !! l = Some L → ∃ L0, cHeap c !! l = Some L0 ∧ lBase L = lBase L0 ∧ lQueue L = lQueue L0 ∧
     (lPending L = true → lPending L0 = true)) →
  (∀ l, is_Some (cHeap c !! l) → is_Some (cHeap c' !! l)) →
  (∀ l, liveOn c' l → liveOn c l) →
  (∀ l L, cHeap c' !! l = Some L → liveOn c' l ∨ lPending L = true → mapped c l → cDown c' = false → mapped c' l) →
  (cDown c' = false → cDown c = false) →
  (∀ l L, cHeap c' !! l = Some L → lPending L = true → cDown c = false → cDown c' = false) →
  (∀ t w, cDown c' = true → cTasks c' !! t = Some w → wPhase w ≠ LaneWaiting ∧ wPhase w ≠ GateWaiting) →
  (∀ l, liveOn c' l → is_Some (cHeap c' !! l)) →
  LInv c'.
Proof.
  intros HL Hmap Hnd Hheap Hheap' Hlive Hkeep Hdn Hdn' Hdown Hex.
  assert (∀ l, used c' l → used c l) as Hused.
  { intros l [(k & Hk)|Hl]; [left; exists k; auto|right; auto]. }
  split; [done|..].
  - intros l (k & Hk). apply Hheap', (li_heap c HL). exists k. auto.
  - intros l Hd Hl. destruct (Hex l Hl) as [L HL']. apply (Hkeep l L); auto. apply (li_live c HL); auto.
  - intros l L HL' Hp. destruct (Hheap l L HL') as (L0 & HL0 & _ & _ & Hpp).
    destruct (li_pending c HL l L0 HL0 (Hpp Hp)) as [Hd Hm]. pose proof (Hdn' l L HL' Hp Hd). eauto.
  - intros l l' L L' Hu Hu' HL1 HL2 E. destruct (Hheap l L HL1) as (L0 & HL0 & Eb & Eq & _).
    destruct (Hheap l' L' HL2) as (L0' & HL0' & Eb' & Eq' & _). rewrite Eq, Eq'. apply (li_base c HL l l'); auto. congruence.
  - auto.
Qed.

Lemma linv_onLane l b c : (b = true → cDown c = false ∧ mapped c l) → LInv c → LInv (onLane l (setPendingBit b) c).
Proof.
  intros Hb HL. pose proof HL as [H1 H2 H3 H4 H5 H6]. split; simpl; try done.
  - intros l' Hm. apply alter_is_Some. by apply H2.
  - intros l' L (L0 & HL0 & ->)%alter_Some. case_decide; [subst; simpl; exact Hb|by apply H4].
  - intros l1 l2 L1 L2 Hu1 Hu2 (M1 & HM1 & ->)%alter_Some (M2 & HM2 & ->)%alter_Some E.
    pose proof (H5 l1 l2 M1 M2 Hu1 Hu2 HM1 HM2). repeat case_decide; simpl in *; auto.
Qed.

Lemma linv_move t w L v p' c :
  cTasks c !! t = Some w → cHeap c !! wLane w = Some L → cQueues c !! lQueue L = Some v →
  allowed (wBody w) (lPending L) (wPhase w) p' → QInv c → LInv c → LInv (move t w L p' c).
Proof.
  intros Ht HL Hv Hal HQ Hl.
  assert (∀ l, liveOn (move t w L p' c) l → liveOn c l) as Hlive.
  { intros l (u & wu & (w0 & Hw0 & ->)%alter_Some & E & Hlv). case_decide as Hu; [subst u|by exists u, w0].
    rewrite Ht in Hw0. injection Hw0 as <-. exists t, w. split_and!; [done..|]. by eapply live_move. }
  apply (linv_shrink c); simpl; try done; try apply Hl; auto.
  - intros l L' (L0 & HL0 & ->)%alter_Some. exists L0. split; [done|].
    case_decide; [|done]. destruct (keeps_move t (wBody w) (wPhase w) p' L0) as [-> ->]. split_and!; [done..|].
    apply laneMove_pending.
  - intros l ?. by apply alter_is_Some.
  - intros u wu Hd (w0 & Hw0 & ->)%alter_Some. pose proof (li_down c Hl u w0 Hd Hw0) as [Hx Hy].
    case_decide as Hu; [subst u|done]. rewrite Ht in Hw0. injection Hw0 as <-. simpl. by destruct (wPhase w), p'.
  - intros l Hlv. destruct (Hlive l Hlv) as (u & wu & Hwu & <- & _). apply alter_is_Some. by apply (qi_task c HQ u).
Qed.

Lemma linv_addTask l L b e c :
  cDown c = false → mapped c l → cHeap c !! l = Some L → LInv c → LInv (addTask l (lQueue L) b e c).
Proof.
  intros Hd Hm HL Hl. pose proof Hl as [H1 H2 H3 H4 H5 H6].
  assert (∀ l', liveOn (addTask l (lQueue L) b e c) l' → mapped c l') as Hlive.
  { intros l' (u & wu & [Hwu|[-> ->]]%snoc_Some & E & Hlv); [|simpl in E; by subst]. apply H3; [done|]. by exists u, wu. }
  split; simpl; try done.
  - intros l' _ Hlv. by apply Hlive.
  - intros l1 l2 L1 L2 Hu1 Hu2. apply H5.
    + destruct Hu1 as [?|Hx]; left; [done|by apply Hlive in Hx].
    + destruct Hu2 as [?|Hx]; left; [done|by apply Hlive in Hx].
  - congruence.
Qed.

Lemma linv_addLane key base q qs c :
  cDown c = false → mget (cLanes c) key = None →
  (∀ l L, mapped c l → cHeap c !! l = Some L → lBase L = base → lQueue L = q) →
  QInv c → LInv c → LInv (addLane key base q qs c).
Proof.
  intros Hd Hk Hb HQ Hl. pose proof Hl as [H1 H2 H3 H4 H5 H6].
  apply mget_None in Hk.
  assert (∀ l, mapped (addLane key base q qs c) l ↔ mapped c l ∨ l = length (cHeap c)) as Hmap.
  { intros l. unfold mapped. simpl. rewrite mset_notin by done. setoid_rewrite elem_of_app. setoid_rewrite list_elem_of_singleton.
    naive_solver. }
  assert (∀ l, used (addLane key base q qs c) l → mapped c l ∨ l = length (cHeap c)) as Hused.
  { intros l [Hm|Hlv]; [by apply Hmap|]. left. by apply H3. }
  assert (∀ l L, (mapped c l ∨ l = length (cHeap c)) → cHeap (addLane key base q qs c) !! l = Some L →
    (mapped c l ∧ cHeap c !! l = Some L) ∨ (lBase L = base ∧ lQueue L = q)) as Hcase.
  { intros l L Hm [HL|[-> ->]]%snoc_Some; [|by right]. destruct Hm as [Hm|E]; [by left|]. subst l. apply lookup_lt_Some in HL. lia. }
  split.
  - simpl. by apply NoDup_mkeys_mset.
  - intros l Hm. simpl. apply Hmap in Hm as [Hm| ->]; [|rewrite list_lookup_middle by done; eauto].
    destruct (H2 l Hm) as [L HL]. exists L. apply snoc_Some. auto.
  - intros l _ Hlv. apply Hmap. left. by apply H3.
  - intros l L [HL|[-> ->]]%snoc_Some Hp; [|done]. destruct (H4 l L HL Hp). split; [done|]. apply Hmap. auto.
  - intros l l' L L' Hu%Hused Hu'%Hused HL HL' E.
    destruct (Hcase l L Hu HL) as [[Hm HL1]|[E1 E2]], (Hcase l' L' Hu' HL') as [[Hm' HL1']|[E1' E2']].
    + apply (H5 l l'); try done; by left.
    + rewrite E2'. apply (Hb l L); [done..|congruence].
    + rewrite E2. symmetry. apply (Hb l' L'); [done..|congruence].
    + congruence.
  - simpl. congruence.
Qed.

(** A lane that is idle has no live task. *)
Lemma idle_not_live c l : QInv c → idle c l → ¬ liveOn c l.
Proof.
  intros HQ (L & v & HL & _ & _ & Hv & Hw & Hr) (t & w & Ht & <- & Hlv).
  destruct (qi_queue c HQ _ v Hv) as (HT & _).
  assert (laneSlotAt c (lQueue L) t = laneSlot (wPhase w)) as Es by (unfold laneSlotAt; by rewrite Ht, HL, decide_True).
  assert (laneSlot (wPhase w) = Waiting ∨ laneSlot (wPhase w) = Running) as [E|E] by (destruct (wPhase w); naive_solver).
  - rewrite E in Es. apply (tr_waiting v _ HT) in Es. rewrite Hw in Es. by apply not_elem_of_nil in Es.
  - rewrite E in Es. apply (tr_running v _ HT) in Es. rewrite Hr in Es. by apply not_elem_of_nil in Es.
Qed.

Lemma linv_lanes m d c :
  QInv c → LInv c → (∀ p, p ∈ m → p ∈ cLanes c) → NoDup (mkeys m) →
  (∀ l, d = false → mapped c l → mapped (withLanes m d c) l ∨ idle c l) → (cDown c = true → d = true) →
  (d = true → cDown c = false → (∀ l L, cHeap c !! l = Some L → lPending L = false)) →
  (d = true → ∀ t w, cTasks c !! t = Some w → wPhase w ≠ LaneWaiting ∧ wPhase w ≠ GateWaiting) →
  LInv (withLanes m d c).
Proof.
  intros HQ Hl Hm Hnd Hkeep Hd Hp Hd'. apply (linv_shrink c); simpl; auto.
  - eauto 6.
  - intros l L HL Hor Hmp Hdf. destruct (Hkeep l Hdf Hmp) as [?|Hi]; [done|]. destruct Hor as [Hlv|Hpd].
    + destruct (idle_not_live c l HQ Hi Hlv).
    + destruct Hi as (L' & v & HL' & _ & Hpf & _). simpl in HL. congruence.
  - intros ->. by destruct (cDown c); [rewrite Hd|].
  - intros l L HL Hpd Hdf. destruct d; [|done]. rewrite (Hp eq_refl Hdf l L HL) in Hpd. done.
  - eauto.
  - intros l (t & w & Hw & <- & _). by apply (qi_task c HQ t).
Qed.

Lemma linv_step c c' : QInv c → LInv c → cstep c c' → LInv c'.
Proof.
  intros HQ HL Hst. destruct Hst.
  - apply linv_addLane; try done. intros l' L' Hm' HL' E. subst. symmetry.
    apply (li_base c HL l l' L L'); try done; by left.
  - apply linv_addLane; try done. intros l L Hm HL' E. by destruct (H1 l L Hm HL').
  - by apply linv_addTask.
  - apply linv_onLane; auto.
  - by apply linv_onLane.
  - by eapply linv_move.
  - apply linv_lanes; try done.
    + intros p Hp. by apply list_elem_of_filter in Hp as [_ ?].
    + apply NoDup_mkeys_filter, HL.
    + intros l _ (key & Hk). destruct (H key l Hk) as [Hp|Hi]; [left|by right]. exists key. simpl. by apply list_elem_of_filter.
    + congruence.
    + intros Hd t w Hw. by apply (li_down c HL t w Hd).
  - by destruct HL.
  - by destruct HL.
  - apply linv_lanes; try done. apply HL.
  - apply linv_lanes; try done.
    + intros p Hp. by apply not_elem_of_nil in Hp.
    + constructor.
    + congruence.
    + intros _ t w Hw. by apply (li_down c HL t w H).
Qed.

(** ** Execution *)

(** The execution marks of a lane change only when its task enters or leaves the handler. *)
Lemma laneMove_marks t b pd p p' L :
  allowed b pd p p' → (p, p') ≠ (GateWaiting, Executing) → (p, p') ≠ (Executing, GateLeaving) →
  lExec (laneMove t b p p' L) = lExec L ∧ lAbort (laneMove t b p p' L) = lAbort L ∧ lActive (laneMove t b p p' L) = lActive L.
Proof. by destruct p, p', b. Qed.

Section Move.
Context (c : Core) (t : nat) (w : Work) (L : Lane) (v : View) (p' : Phase).
Hypotheses (Ht : cTasks c !! t = Some w) (HL : cHeap c !! wLane w = Some L) (Hv : cQueues c !! lQueue L = Some v)
  (Hal : allowed (wBody w) (lPending L) (wPhase w) p') (HQ : QInv c) (HE : EInv c).

Lemma move_task u wu : u ≠ t → cTasks (move t w L p' c) !! u = Some wu ↔ cTasks c !! u = Some wu.
Proof. intros Hu. simpl. by rewrite list_lookup_alter_ne by done. Qed.

Lemma move_self : cTasks (move t w L p' c) !! t = Some (workMove p' w).
Proof. simpl. by rewrite list_lookup_alter_eq, Ht. Qed.

Lemma move_lane : cHeap (move t w L p' c) !! wLane w = Some (laneMove t (wBody w) (wPhase w) p' L).
Proof. simpl. by rewrite list_lookup_alter_eq, HL. Qed.

Lemma move_other l : l ≠ wLane w → cHeap (move t w L p' c) !! l = cHeap c !! l.
Proof. intros Hl. simpl. by rewrite list_lookup_alter_ne by done. Qed.

(** Another task executing on the lane rules out a change of its marks. *)
Lemma move_other_exec u wu : u ≠ t → cTasks c !! u = Some wu → wPhase wu = Executing → wLane wu = wLane w →
  (wPhase w, p') ≠ (GateWaiting, Executing) ∧ (wPhase w, p') ≠ (Executing, GateLeaving).
Proof.
  intros Hu Hwu Hex El. assert (laneSlot (wPhase w) ≠ Running) as Hn.
  { intros Hr. apply Hu. eapply (running_unique c u t wu w L L); try done; [by rewrite El|by rewrite Hex]. }
  split; intros [= E1 E2]; rewrite E1 in Hn; done.
Qed.

Lemma einv_move_exec u wu : cTasks (move t w L p' c) !! u = Some wu → wPhase wu = Executing →
  ∃ M, cHeap (move t w L p' c) !! wLane wu = Some M ∧ lExec M = true ∧ lAbort M = Some u ∧ lActive M = Some u.
Proof.
  intros Hu Hex. destruct (decide (u = t)) as [->|Hne].
  - rewrite move_self in Hu. injection Hu as <-. simpl in *. subst p'. rewrite list_lookup_alter_eq, HL. simpl. eexists; split; [done|].
    destruct (wPhase w); done.
  - apply move_task in Hu; [|done]. destruct (ei_exec c HE u wu Hu Hex) as (M & HM & H1 & H2 & H3).
    destruct (decide (wLane wu = wLane w)) as [El|El]; [|rewrite move_other by done; eauto].
    destruct (move_other_exec u wu Hne Hu Hex El) as [Hx Hy]. rewrite El in *. rewrite HL in HM. injection HM as <-.
    rewrite move_lane. eexists; split; [done|]. destruct (laneMove_marks t (wBody w) _ (wPhase w) p' L Hal Hx Hy) as (-> & -> & ->). done.
Qed.

Lemma einv_move_lane l M : cHeap (move t w L p' c) !! l = Some M →
  if lExec M then ∃ u wu, lAbort M = Some u ∧ lActive M = Some u ∧ cTasks (move t w L p' c) !! u = Some wu ∧ wLane wu = l ∧ wPhase wu = Executing
  else lAbort M = None ∧ lActive M = None.
Proof.
  intros HM. destruct (decide (l = wLane w)) as [->|Hl].
  - rewrite move_lane in HM. injection HM as <-.
    destruct (decide ((wPhase w, p') = (GateWaiting, Executing))) as [[= E1 E2]|Hx].
    { pose proof move_self as Hself. rewrite E1. rewrite E2 in Hself |- *. simpl. exists t, (workMove Executing w). auto. }
    destruct (decide ((wPhase w, p') = (Executing, GateLeaving))) as [[= E1 E2]|Hy].
    { rewrite E1, E2. simpl. destruct (ei_exec c HE t w Ht E1) as (M & HM & _ & _ & ?). rewrite HL in HM. injection HM as <-.
      by rewrite decide_True. }
    destruct (laneMove_marks t (wBody w) _ (wPhase w) p' L Hal Hx Hy) as (-> & -> & ->).
    pose proof (ei_lane c HE _ L HL) as Hlane. destruct (lExec L); [|done].
    destruct Hlane as (u & wu & ? & ? & Hwu & El & Hex). exists u, wu. rewrite move_task; [done|].
    intros ->. rewrite Ht in Hwu. injection Hwu as <-. rewrite Hex in *. by destruct p'.
  - rewrite move_other in HM by done. pose proof (ei_lane c HE l M HM) as Hlane. destruct (lExec M); [|done].
    destruct Hlane as (u & wu & ? & ? & Hwu & El & Hex). exists u, wu. rewrite move_task; [done|].
    intros ->. rewrite Ht in Hwu. injection Hwu as <-. done.
Qed.

Lemma einv_move_carried l M : cHeap (move t w L p' c) !! l = Some M → lPending M = true → carried (move t w L p' c) l.
Proof.
  intros HM Hp. assert (∃ M0, cHeap c !! l = Some M0 ∧ lPending M0 = true) as (M0 & HM0 & Hp0).
  { apply alter_Some in HM as (M0 & HM0 & ->). exists M0. split; [done|]. case_decide; [by eapply laneMove_pending|done]. }
  destruct (ei_carried c HE l M0 HM0 Hp0) as (u & wu & Hwu & El & Hor). exists u, wu. rewrite move_task; [done|].
  intros ->. rewrite Ht in Hwu. injection Hwu as <-. subst l. rewrite move_lane in HM. injection HM as <-.
  rewrite HL in HM0. injection HM0 as <-. destruct Hor as [[E1 E2]|[E1 E2]]; rewrite E1, E2 in *; destruct p'; naive_solver congruence.
Qed.

Lemma einv_move : EInv (move t w L p' c).
Proof.
  split; [exact einv_move_exec|exact einv_move_lane|..|exact einv_move_carried].
  - intros u wu Hu. destruct (decide (u = t)) as [->|Hne]; [|apply move_task in Hu; [by apply (ei_entry c HE u)|done]].
    rewrite move_self in Hu. injection Hu as <-. simpl. pose proof (ei_entry c HE t w Ht) as Hen.
    destruct (wPhase w), p'; simpl in *; naive_solver.
  - intros u wu Hu. destruct (decide (u = t)) as [->|Hne]; [|apply move_task in Hu; [by apply (ei_steer c HE u)|done]].
    rewrite move_self in Hu. injection Hu as <-. simpl. intros _ ->. by destruct (wPhase w).
  - intros u wu Hu. destruct (decide (u = t)) as [->|Hne]; [|apply move_task in Hu; [by apply (ei_started c HE u)|done]].
    rewrite move_self in Hu. injection Hu as <-. simpl. pose proof (ei_started c HE t w Ht) as Hst.
    destruct (wPhase w), p'; simpl in *; naive_solver.
Qed.

End Move.

Lemma einv_addTask l q b e c : e = hasEntry b → EInv c → EInv (addTask l q b e c).
Proof.
  intros -> [H1 H2 H3 H6 H4 H5].
  assert (∀ u wu, cTasks c !! u = Some wu → cTasks (addTask l q b (hasEntry b) c) !! u = Some wu) as Hin
    by (intros u wu Hu; apply snoc_Some; by left).
  split; simpl.
  - intros t w [Hw|[-> ->]]%snoc_Some Hex; [by apply H1|done].
  - intros l' L HL. pose proof (H2 l' L HL) as Hl. destruct (lExec L); [|done].
    destruct Hl as (u & wu & ? & ? & Hu & ? & ?). exists u, wu. split_and!; auto.
  - intros t w [Hw|[-> ->]]%snoc_Some Hor; [by apply (H3 t)|]. simpl in *. destruct b; naive_solver.
  - intros t w [Hw|[-> ->]]%snoc_Some Hb; [by apply (H6 t)|]. simpl in *. by rewrite Hb.
  - intros t w [Hw|[-> ->]]%snoc_Some; [by apply (H4 t)|]. done.
  - intros l' L HL Hp. destruct (H5 l' L HL Hp) as (u & wu & Hu & ?). exists u, wu. auto.
Qed.

Lemma einv_addLane key base q qs c : QInv c → EInv c → EInv (addLane key base q qs c).
Proof.
  intros HQ [H1 H2 H3 H6 H4 H5]. split; simpl; try done.
  - intros t w Hw Hex. destruct (H1 t w Hw Hex) as (L & HL & ?). exists L. split; [|done]. apply snoc_Some. auto.
  - intros l L [HL|[-> ->]]%snoc_Some; [by apply H2|done].
  - intros l L [HL|[-> ->]]%snoc_Some Hp; [by apply (H5 l L)|done].
Qed.

Lemma einv_onLane l b c : (b = true → carried c l) → EInv c → EInv (onLane l (setPendingBit b) c).
Proof.
  intros Hb [H1 H2 H3 H6 H4 H5]. split; simpl; try done.
  - intros t w Hw Hex. destruct (H1 t w Hw Hex) as (L & HL & ?).
    exists (if decide (l = wLane w) then setPendingBit b L else L).
    split; [apply alter_Some; eauto|]. by case_decide.
  - intros l' L' (L & HL & ->)%alter_Some. pose proof (H2 l' L HL). by case_decide.
  - intros l' L' (L & HL & ->)%alter_Some Hp. case_decide; [subst; simpl in Hp; by apply Hb|by apply (H5 l' L)].
Qed.

Lemma cinv_step c c' : CInv c → cstep c c' → CInv c'.
Proof.
  intros [HQ HL HE] Hst. split; [by eapply qinv_step|by eapply linv_step|]. destruct Hst.
  - by apply einv_addLane.
  - by apply einv_addLane.
  - by apply einv_addTask.
  - by apply einv_onLane.
  - by apply einv_onLane.
  - by eapply einv_move.
  - by destruct HE.
  - by destruct HE.
  - by destruct HE.
  - by destruct HE.
  - by destruct HE.
Qed.

Lemma cinv_steps c c' : rtc cstep c c' → CInv c → CInv c'.
Proof. induction 1; [done|]. intros HI. by eauto using cinv_step. Qed.

(** ** Mutual exclusion *)

Lemma exec_alone c t t' w w' L L' :
  CInv c → cTasks c !! t = Some w → cTasks c !! t' = Some w' → wPhase w = Executing → wPhase w' = Executing →
  cHeap c !! wLane w = Some L → cHeap c !! wLane w' = Some L' → lBase L = lBase L' → t = t'.
Proof.
  intros [HQ HL HE] Ht Ht' Hex Hex' HLa HLb Eb. eapply (running_unique c t t' w w' L L'); try done; [|by rewrite Hex|by rewrite Hex'].
  eapply (li_base c HL); [| |done..]; right; [exists t, w|exists t', w']; rewrite ?Hex, ?Hex'; done.
Qed.

(** Distinct executing tasks hold distinct slots of the gate. *)
Lemma exec_bound c ts :
  CInv c → NoDup ts → (∀ t, t ∈ ts → ∃ w, cTasks c !! t = Some w ∧ wPhase w = Executing) →
  (length ts ≤ vConcurrency (cGate c))%nat.
Proof.
  intros [HQ _ _] Hnd Hts. destruct (qi_gate c HQ) as [HT Hlen]. etrans; [|exact Hlen].
  apply NoDup_incl_length; [by apply NoDup_ListNoDup|]. intros t Ht%list_elem_of_In. apply list_elem_of_In.
  apply (tr_running _ _ HT). destruct (Hts t Ht) as (w & Hw & Hex). unfold gateSlotAt. by rewrite Hw, Hex.
Qed.

Lemma slotOp_concurrency a b t v : vConcurrency (slotOp a b t v) = vConcurrency v.
Proof. by destruct a, b. Qed.

Lemma gate_concurrency c c' : rtc cstep c c' → vConcurrency (cGate c') = vConcurrency (cGate c).
Proof. induction 1 as [|x y z Hst _ IH]; [done|]. rewrite IH. destruct Hst; simpl; auto using slotOp_concurrency. Qed.

Lemma down_mono c c' : rtc cstep c c' → cDown c' = false → cDown c = false.
Proof. induction 1 as [|x y z Hst _ IH]; [done|]. intros Hd. specialize (IH Hd). by destruct Hst. Qed.

(** ** Progress *)

(** A single phase change. *)
Definition cmove (c c' : Core) : Prop :=
  ∃ t w L v p', cTasks c !! t = Some w ∧ cHeap c !! wLane w = Some L ∧ cQueues c !! lQueue L = Some v ∧
    allowed (wBody w) (lPending L) (wPhase w) p' ∧
    slotOk (laneSlot (wPhase w)) (laneSlot p') t v ∧ slotOk (gateSlot (wPhase w)) (gateSlot p') t (cGate c) ∧
    c' = move t w L p' c.

Lemma cmove_step c c' : cmove c c' → cstep c c'.
Proof. intros (t & w & L & v & p' & ? & ? & ? & ? & ? & ? & ->). by eapply CsMove. Qed.

(** The work left: every task has at most six phases ahead, and a lane with pending
    messages will need one more task. *)
Definition rank (p : Phase) : nat :=
  match p with
  | LaneWaiting => 6 | GateWaiting => 5 | Executing => 4 | GateLeaving => 3 | LaneLeaving => 2 | Settled => 1 | Gone => 0
  end.

Definition pendingRank (l : Lane) : nat := if lPending l then 7 else 0.

Definition workLeft (c : Core) : nat :=
  sum_list (rank ∘ wPhase <$> cTasks c) + sum_list (pendingRank <$> cHeap c).

Lemma sum_alter {A} (r : A → nat) f i (l : list A) x :
  l !! i = Some x → (sum_list (r <$> alter f i l) + r x = sum_list (r <$> l) + r (f x))%nat.
Proof.
  revert i. induction l as [|y l IH]; intros [|i] Hx; try done.
  - injection Hx as ->. simpl. lia.
  - change (alter f (S i) (y :: l)) with (y :: alter f i l). specialize (IH i Hx). rewrite !fmap_cons. cbn [sum_list]. lia.
Qed.

Lemma allowed_rank b pd p p' : allowed b pd p p' → (rank p' < rank p)%nat.
Proof. destruct p, p'; simpl; try done; lia. Qed.

Lemma laneMove_rank t b p p' L : (pendingRank (laneMove t b p p' L) ≤ pendingRank L)%nat.
Proof. unfold pendingRank. destruct (lPending (laneMove t b p p' L)) eqn:E; [|lia]. by rewrite (laneMove_pending t b p p' L E). Qed.

Lemma move_workLeft t w L p' c :
  cTasks c !! t = Some w → cHeap c !! wLane w = Some L → allowed (wBody w) (lPending L) (wPhase w) p' →
  (workLeft (move t w L p' c) + pendingRank L < workLeft c + pendingRank (laneMove t (wBody w) (wPhase w) p' L) + 1)%nat ∧
  (workLeft (move t w L p' c) < workLeft c)%nat.
Proof.
  intros Ht HL Hal. unfold workLeft. simpl. pose proof (allowed_rank _ _ _ _ Hal).
  pose proof (sum_alter (rank ∘ wPhase) (workMove p') t (cTasks c) w Ht) as H1. simpl in H1.
  pose proof (sum_alter pendingRank (laneMove t (wBody w) (wPhase w) p') _ (cHeap c) L HL) as H2.
  pose proof (laneMove_rank t (wBody w) (wPhase w) p' L). lia.
Qed.

Lemma cmove_workLeft c c' : cmove c c' → (workLeft c' < workLeft c)%nat.
Proof. intros (t & w & L & v & p' & Ht & HL & _ & Hal & _ & _ & ->). by apply move_workLeft. Qed.

Lemma sum_app (l k : list nat) : sum_list (l ++ k) = (sum_list l + sum_list k)%nat.
Proof. induction l as [|x l IH]; simpl; [done|]. rewrite IH. lia. Qed.

Lemma addTask_workLeft l q b e c : workLeft (addTask l q b e c) = (workLeft c + 6)%nat.
Proof. unfold workLeft. simpl. rewrite fmap_app, sum_app. simpl. lia. Qed.

(** A lane with room and a task in line, or a gate with both, can start; any other
    task that is not gone can move on by itself. *)
Definition unpaused (c : Core) : Prop := vPaused (cGate c) = false ∧ ∀ q v, cQueues c !! q = Some v → vPaused v = false.

Lemma progress c t w :
  CInv c → cTasks c !! t = Some w → wPhase w ≠ Gone → (0 < vConcurrency (cGate c))%nat →
  (∃ u wu, cTasks c !! u = Some wu ∧ (wPhase wu = Executing ∨ wPhase wu = GateLeaving ∨ wPhase wu = LaneLeaving ∨ wPhase wu = Settled)) ∨
  (vWaiting (cGate c) ≠ [] ∧ (length (vRunning (cGate c)) < vConcurrency (cGate c))%nat) ∨
  (∃ q v, cQueues c !! q = Some v ∧ vWaiting v ≠ [] ∧ (length (vRunning v) < vConcurrency v)%nat).
Proof.
  intros [HQ HL HE] Ht Hg Hc.
  set (P := fun wu => wPhase wu = Executing ∨ wPhase wu = GateLeaving ∨ wPhase wu = LaneLeaving ∨ wPhase wu = Settled).
  destruct (decide (Exists P (cTasks c))) as [(wu & Hin & HP)%Exists_exists|Hno].
  { left. apply list_elem_of_lookup in Hin as [u Hu]. by exists u, wu. }
  right. rewrite <- Forall_Exists_neg, Forall_lookup in Hno. destruct (qi_gate c HQ) as [HT _].
  assert (vRunning (cGate c) = []) as Hgr.
  { destruct (vRunning (cGate c)) as [|u r] eqn:E; [done|]. assert (gateSlotAt c u = Running) as Hs by (apply (tr_running _ _ HT); rewrite E; left).
    unfold gateSlotAt in Hs. destruct (cTasks c !! u) as [wu|] eqn:Hu; [|done]. destruct (Hno u wu Hu). unfold P. destruct (wPhase wu); naive_solver. }
  destruct (vWaiting (cGate c)) as [|u r] eqn:Egw; [right|left; rewrite Hgr; simpl; auto].
  destruct (qi_task c HQ t w Ht) as [L HLn]. destruct (qi_lane c HQ _ L HLn) as [v Hv]. exists (lQueue L), v.
  destruct (qi_queue c HQ _ v Hv) as (HTv & Hcv & _). split; [done|]. split.
  - assert (wPhase w ≠ GateWaiting) as Hgw.
    { intros E. assert (t ∈ []) as Hx; [|by apply not_elem_of_nil in Hx]. rewrite <- Egw. apply (tr_waiting _ _ HT). unfold gateSlotAt. by rewrite Ht, E. }
    assert (t ∈ vWaiting v) as Hin; [|intros E; rewrite E in Hin; by apply not_elem_of_nil in Hin].
    apply (tr_waiting v _ HTv). unfold laneSlotAt. rewrite Ht, HLn, decide_True by done.
    pose proof (Hno t w Ht) as Hn. unfold P in Hn. destruct (wPhase w); naive_solver.
  - destruct (vRunning v) as [|u r] eqn:E; [simpl; lia|]. exfalso.
    assert (laneSlotAt c (lQueue L) u = Running) as Hs by (apply (tr_running v _ HTv); rewrite E; left).
    unfold laneSlotAt in Hs. destruct (cTasks c !! u) as [wu|] eqn:Hu; [|done]. destruct (cHeap c !! wLane wu); [|done].
    case_decide; [|done]. pose proof (Hno u wu Hu) as Hn. unfold P in Hn.
    assert (wPhase wu = GateWaiting) as Eg by (destruct (wPhase wu); naive_solver).
    assert (u ∈ []) as Hx; [|by apply not_elem_of_nil in Hx]. rewrite <- Egw. apply (tr_waiting _ _ HT). unfold gateSlotAt. by rewrite Hu, Eg.
Qed.

End QueueCore.
