(* ===== verification/CommandQueueRefines.v ===== *)
(** * The command queue refines its scheduling core

  [core] abstracts a state of the command queue to the scheduling machine of
  [QueueCore]; every enabled operation is a sequence of its moves
  ([exec_refines]), so the core's invariant holds in every reachable state. *)

From S2P Require Import Prelude CanonicalJson SessionKeys SourceTerminal QueueEntries CommandQueue QueueCore.
Import QueueEntries CommandQueue QueueCore.

Open Scope list_scope.

Module CommandQueueRefines.

Section Refines.
Context {Q : Type} `{PQueueLaws Q}.
Context (config : QueueConfig).

(** ** The abstraction *)

Definition laneShape (l : SessionLane) : Lane :=
  {| lBase := baseSessionKey l; lQueue := queue l; lExec := isExecuting l; lAbort := abortController l;
     lActive := activeEntry l; lPending := match pendingEntries l with [] => false | _ => true end |}.

Definition viewOf (q : Q) : View :=
  {| vWaiting := pqWaiting q; vRunning := pqRunning q; vConcurrency := pqConcurrency q; vPaused := pqPaused q |}.

Definition workShape (t : Task) : Work :=
  {| wLane := tLane t; wBody := tBody t; wPhase := tPhase t; wStarted := tStarted t;
     wEntry := match tEntry t with Some _ => true | None => false end |}.

Definition core (s : State Q) : Core :=
  {| cLanes := lanes s; cHeap := laneShape <$> laneHeap s; cQueues := viewOf <$> queues s;
     cGate := viewOf (globalGate s); cTasks := workShape <$> tasks s; cDown := isShutdown s |}.

(** ** The library's laws on views *)

Lemma viewOf_eq q w r c p : view q = (w, r, c, p) → viewOf q = {| vWaiting := w; vRunning := r; vConcurrency := c; vPaused := p |}.
Proof. unfold view, viewOf. by intros [= -> -> -> ->]. Qed.

Lemma viewOf_add t q : viewOf (pqAdd t q) = slotOp None' Waiting t (viewOf q).
Proof. by rewrite (viewOf_eq _ _ _ _ _ (law_add t q)). Qed.

Lemma viewOf_done t q : viewOf (pqDone t q) = slotOp Running None' t (viewOf q).
Proof. by rewrite (viewOf_eq _ _ _ _ _ (law_done t q)). Qed.

Lemma viewOf_abort t q : viewOf (pqAbort t q) = slotOp Waiting None' t (viewOf q).
Proof. by rewrite (viewOf_eq _ _ _ _ _ (law_abort t q)). Qed.

Lemma viewOf_pause q : viewOf (pqPause q) = pauseView (viewOf q).
Proof. by rewrite (viewOf_eq _ _ _ _ _ (law_pause q)). Qed.

Lemma viewOf_new c : viewOf (pqNew c) = {| vWaiting := []; vRunning := []; vConcurrency := c; vPaused := false |}.
Proof. by rewrite (viewOf_eq _ _ _ _ _ (law_new c)). Qed.

Lemma viewOf_start t q q' : pqStart q = Some (t, q') →
  viewOf q' = slotOp Waiting Running t (viewOf q) ∧ slotOk Waiting Running t (viewOf q).
Proof.
  intros (Hp & Hc & rest & Hw & Hv)%law_start. rewrite (viewOf_eq _ _ _ _ _ Hv). simpl. unfold setView. simpl.
  rewrite Hw, Hp. done.
Qed.

Lemma viewOf_clear q : pqWaiting q = [] → viewOf (pqClear q) = viewOf q.
Proof. intros Hw. rewrite (viewOf_eq _ _ _ _ _ (law_clear q)). unfold viewOf. by rewrite Hw. Qed.

(** ** Updates *)

Lemma fmap_alter {A B} (f : A → B) (g : A → A) (h : B → B) i (l : list A) :
  (∀ x, l !! i = Some x → f (g x) = h (f x)) → f <$> alter g i l = alter h i (f <$> l).
Proof.
  intros Hg. apply list_eq. intros j. rewrite list_lookup_fmap, !list_lookup_alter, !list_lookup_fmap.
  case_decide; [subst|done]. destruct (l !! j) as [x|] eqn:E; simpl; [|done]. by rewrite Hg.
Qed.

Lemma alter_same {A} (f : A → A) i (l : list A) : (∀ x, l !! i = Some x → f x = x) → alter f i l = l.
Proof.
  intros Hf. apply list_eq. intros j. rewrite list_lookup_alter. case_decide; [subst|done].
  destruct (l !! j) as [x|] eqn:E; simpl; [|done]. by rewrite Hf.
Qed.

Lemma alter_alter {A} (f g : A → A) i (l : list A) : alter f i (alter g i l) = alter (f ∘ g) i l.
Proof. apply list_eq. intros j. rewrite !list_lookup_alter. case_decide; [|done]. subst. rewrite decide_True by done. by destruct (l !! j). Qed.

Lemma core_updLane l f g s :
  (∀ x, laneHeap s !! l = Some x → laneShape (f x) = g (laneShape x)) → core (updLane l f s) = onLane l g (core s).
Proof. intros Hf. unfold core, onLane. simpl. f_equal. by apply fmap_alter. Qed.

Lemma core_updLane_same l f s : (∀ x, laneShape (f x) = laneShape x) → core (updLane l f s) = core s.
Proof. intros Hf. rewrite (core_updLane l f id) by done. unfold onLane. simpl. by rewrite (alter_same id). Qed.

Lemma core_updTask_same t f s : (∀ x, workShape (f x) = workShape x) → core (updTask t f s) = core s.
Proof.
  intros Hf. unfold core. simpl. f_equal. rewrite (fmap_alter _ _ id) by done. by apply alter_same.
Qed.

Lemma core_task s t task : tasks s !! t = Some task → cTasks (core s) !! t = Some (workShape task).
Proof. intros Ht. simpl. by rewrite list_lookup_fmap, Ht. Qed.

Lemma core_lane s l lane : laneHeap s !! l = Some lane → cHeap (core s) !! l = Some (laneShape lane).
Proof. intros Hl. simpl. by rewrite list_lookup_fmap, Hl. Qed.

Lemma core_queue s q v : queues s !! q = Some v → cQueues (core s) !! q = Some (viewOf v).
Proof. intros Hq. simpl. by rewrite list_lookup_fmap, Hq. Qed.

(** The lane and the queue of a task of a state whose core is well formed. *)
Lemma task_lane s t task : QInv (core s) → tasks s !! t = Some task →
  ∃ lane v, laneHeap s !! tLane task = Some lane ∧ queues s !! queue lane = Some v.
Proof.
  intros HQ Ht. destruct (qi_task _ HQ t _ (core_task s t task Ht)) as [L HL]. simpl in HL.
  rewrite list_lookup_fmap in HL. apply fmap_Some in HL as (lane & Hlane & ->). exists lane.
  destruct (qi_lane _ HQ _ _ (core_lane s _ lane Hlane)) as [v Hv]. simpl in Hv. rewrite list_lookup_fmap in Hv.
  apply fmap_Some in Hv as (v' & Hv' & _). eauto.
Qed.

(** ** Single moves *)

(** A move of the core, from what the state's parts become. *)
Lemma core_move s s' t task lane v p' :
  tasks s !! t = Some task → laneHeap s !! tLane task = Some lane → queues s !! queue lane = Some v →
  allowed (tBody task) (lPending (laneShape lane)) (tPhase task) p' →
  slotOk (laneSlot (tPhase task)) (laneSlot p') t (viewOf v) →
  slotOk (gateSlot (tPhase task)) (gateSlot p') t (viewOf (globalGate s)) →
  core s' = move t (workShape task) (laneShape lane) p' (core s) →
  cmove (core s) (core s').
Proof.
  intros Ht Hl Hv Ha H1 H2 ->. exists t, (workShape task), (laneShape lane), (viewOf v), p'.
  split_and!; auto using core_task, core_lane, core_queue.
Qed.

Lemma cmove_rtc c c' : cmove c c' → rtc cstep c c'.
Proof. intros. by apply rtc_once, cmove_step. Qed.

Lemma gateLeave_move t s s' : QInv (core s) → gateLeave t s = Some s' → cmove (core s) (core s').
Proof.
  intros HQ (task & Ht & Hs)%bind_Some. case_bool_decide as Hp; [|done]. simpl in Hs. injection Hs as <-.
  destruct (task_lane s t task HQ Ht) as (lane & v & Hl & Hv).
  apply (core_move s _ t task lane v LaneLeaving Ht Hl Hv); try (by rewrite Hp).
  unfold core, move. simpl. rewrite Hp. simpl. f_equal.
  - by rewrite alter_same.
  - by rewrite alter_same.
  - apply viewOf_done.
  - by apply fmap_alter.
Qed.

Lemma laneLeave_move t s s' : QInv (core s) → laneLeave t s = Some s' → cmove (core s) (core s').
Proof.
  intros HQ (task & Ht & Hs)%bind_Some. case_bool_decide as Hp; [|done]. simpl in Hs. injection Hs as <-.
  destruct (task_lane s t task HQ Ht) as (lane & v & Hl & Hv).
  apply (core_move s _ t task lane v Settled Ht Hl Hv); try (by rewrite Hp).
  unfold onLaneQueue, laneQueue. simpl. rewrite Hl. simpl. unfold core, move. simpl. rewrite Hp. simpl. f_equal.
  - by rewrite alter_same.
  - apply fmap_alter. intros. apply viewOf_done.
  - by apply fmap_alter.
Qed.

Lemma settle_move t now s s' : QInv (core s) → settle t now s = Some s' → cmove (core s) (core s').
Proof.
  intros HQ (task & Ht & Hs)%bind_Some. case_bool_decide as Hp; [|done]. simpl in Hs. injection Hs as <-.
  destruct (task_lane s t task HQ Ht) as (lane & v & Hl & Hv).
  apply (core_move s _ t task lane v Gone Ht Hl Hv); try (by rewrite Hp).
  transitivity (core (updTask t (setPhase Gone) s)); [by destruct (tEntry task), (tObserved task && tFailed task)|].
  unfold core, move. simpl. rewrite Hp. simpl. f_equal.
  - by rewrite alter_same.
  - by rewrite alter_same.
  - by apply fmap_alter.
Qed.

Lemma gateStart_move now s s' : CInv (core s) → gateStart now s = Some s' → cmove (core s) (core s').
Proof.
  intros HI ((t & gate') & Hst & (task & Ht & (e & He & Hs)%bind_Some)%bind_Some)%bind_Some. injection Hs as <-.
  destruct (viewOf_start t _ gate' Hst) as [Hv' Hok]. pose proof (ci_queues _ HI) as HQ.
  destruct (task_lane s t task HQ Ht) as (lane & v & Hl & Hv).
  assert (tPhase task = GateWaiting) as Hp.
  { destruct (qi_gate _ HQ) as [HT _]. simpl in HT. destruct Hok as [Hh _]. simpl in Hh.
    assert (t ∈ pqWaiting (globalGate s)) as Hin by (destruct (pqWaiting (globalGate s)); [done|]; injection Hh as ->; left).
    apply (tr_waiting _ _ HT) in Hin. unfold gateSlotAt in Hin. rewrite (core_task s t task Ht) in Hin. simpl in Hin.
    by destruct (tPhase task). }
  apply (core_move s _ t task lane v Executing Ht Hl Hv); try (by rewrite Hp).
  unfold core, move. simpl. rewrite Hp. simpl. f_equal.
  - by apply fmap_alter.
  - by rewrite alter_same.
  - done.
  - by apply fmap_alter.
Qed.

(** ** Scheduling *)

Lemma core_schedule l b e o lane s :
  laneHeap s !! l = Some lane →
  core (scheduleLaneTask l b e o s) =
  addTask l (queue lane) b (match e with Some _ => true | None => false end) (core s).
Proof.
  intros Hl. unfold scheduleLaneTask, onLaneQueue, laneQueue. simpl. rewrite Hl. simpl. unfold core, addTask. simpl. f_equal.
  - rewrite length_fmap. apply fmap_alter. intros. apply viewOf_add.
  - by rewrite fmap_app.
Qed.

Lemma pending_shape lane : lPending (laneShape lane) = true ↔ pendingEntries lane ≠ [].
Proof. simpl. by destruct (pendingEntries lane). Qed.

Lemma core_processCollected l lane now s :
  laneHeap s !! l = Some lane → pendingEntries lane ≠ [] → isShutdown s = false →
  core (processCollectedMessages l now s) =
  addTask l (queue lane) (RunEntry true) true (onLane l (setPendingBit false) (core s)).
Proof.
  intros Hl Hp Hd. unfold processCollectedMessages. rewrite Hl, bool_decide_false by done. rewrite Hd.
  destruct (coalesce_Some (pendingEntries lane) (world s) Hp) as [[w e] ->].
  unfold executeLaneTask. rewrite (core_schedule l _ _ _ (setPending [] lane)).
  - simpl. f_equal. by apply (core_updLane l (setPending []) (setPendingBit false) s).
  - simpl. by rewrite list_lookup_alter_eq, Hl.
Qed.

Lemma processCollected_empty l now s :
  (∀ lane, laneHeap s !! l = Some lane → pendingEntries lane = []) → processCollectedMessages l now s = s.
Proof.
  intros Hl. unfold processCollectedMessages. destruct (laneHeap s !! l) as [lane|] eqn:E; [|done].
  by rewrite (Hl lane eq_refl), bool_decide_true.
Qed.

Lemma processCollected_refines l now s :
  CInv (core s) → rtc cstep (core s) (core (processCollectedMessages l now s)).
Proof.
  intros HI. destruct (laneHeap s !! l) as [lane|] eqn:Hl; [|unfold processCollectedMessages; by rewrite Hl].
  destruct (pendingEntries lane) as [|e0 es] eqn:Hp.
  { rewrite processCollected_empty; [done|]. intros lane' Hl'. congruence. }
  assert (pendingEntries lane ≠ []) as Hne by by rewrite Hp.
  destruct (li_pending _ (ci_lanes _ HI) l _ (core_lane s l lane Hl)) as [Hd Hm]; [by apply pending_shape|].
  rewrite (core_processCollected l lane now s Hl Hne Hd).
  eapply rtc_l; [apply (CsClear l)|]. apply rtc_once.
  apply (CsAdd l (setPendingBit false (laneShape lane))); [done|done| |done].
  simpl. by rewrite list_lookup_alter_eq, list_lookup_fmap, Hl.
Qed.

Lemma debounce_refines key now s s' : CInv (core s) → debounce key now s = Some s' → rtc cstep (core s) (core s').
Proof.
  intros HI (l & _ & (lane & _ & Hs)%bind_Some)%bind_Some. injection Hs as <-. destruct (isExecuting lane); [done|].
  by apply (processCollected_refines l now (setTimers (fun ts => mdel ts key) s)).
Qed.

(** The end of an execution; a task that collects also clears the pending bit. *)
Lemma core_endExecution t task e now lane f s :
  tasks s !! t = Some task → laneHeap s !! tLane task = Some lane → tPhase task = Executing →
  let s1 := updLane (tLane task) (endExecution t e now) (updTask t (setPhase GateLeaving ∘ setFailed f) s) in
  move t (workShape task) (laneShape lane) GateLeaving (core s) =
  match tBody task with RunEntry true => onLane (tLane task) (setPendingBit false) (core s1) | _ => core s1 end.
Proof.
  intros Ht Hl Hp s1. assert (∀ h, (∀ x, laneShape (endExecution t e now x) = h (laneShape x)) →
    laneShape <$> laneHeap s1 = alter h (tLane task) (laneShape <$> laneHeap s)) as Hh by (intros; by apply fmap_alter).
  assert (workShape <$> tasks s1 = alter (workMove GateLeaving) t (workShape <$> tasks s)) as Hts by by apply fmap_alter.
  unfold move. simpl. rewrite Hp. simpl.
  destruct (tBody task) as [[]|]; unfold core, onLane; cbn [cLanes cHeap cQueues cGate cTasks cDown]; rewrite Hts; f_equal;
    rewrite ?alter_same by done; try done.
  - rewrite (Hh (laneMove t (RunEntry false) Executing GateLeaving)) by done. by rewrite alter_alter.
  - symmetry. by apply Hh.
  - symmetry. by apply Hh.
Qed.

(** The end of a handler: its task moves on; one that collects schedules a task for
    the messages pending by then. *)
Lemma handlerEnd_move t ok now s s' : CInv (core s) → handlerEnd t ok now s = Some s' →
  cmove (core s) (core s') ∨
  (∃ task lane, tasks s !! t = Some task ∧ laneHeap s !! tLane task = Some lane ∧ tPhase task = Executing ∧
     tBody task = RunEntry true ∧ pendingEntries lane ≠ [] ∧
     let c1 := move t (workShape task) (laneShape lane) GateLeaving (core s) in
     cmove (core s) c1 ∧ cstep c1 (core s') ∧ core s' = addTask (tLane task) (queue lane) (RunEntry true) true c1).
Proof.
  intros HI (task & Ht & (e & He & Hs)%bind_Some)%bind_Some. case_bool_decide as Hp; [|done]. simpl in Hs.
  injection Hs as <-. pose proof (ci_queues _ HI) as HQ. destruct (task_lane s t task HQ Ht) as (lane & v & Hl & Hv).
  set (f := match tBody task with SteerAgain => false | RunEntry _ => negb ok end).
  set (s1 := updLane (tLane task) (endExecution t e now) (updTask t (setPhase GateLeaving ∘ setFailed f) s)).
  assert (laneHeap s1 !! tLane task = Some (endExecution t e now lane)) as Hl1 by (simpl; by rewrite list_lookup_alter_eq, Hl).
  pose proof (core_endExecution t task e now lane f s Ht Hl Hp) as Hmv. cbv zeta in Hmv. fold s1 in Hmv.
  assert (cmove (core s) (move t (workShape task) (laneShape lane) GateLeaving (core s))) as Hst.
  { exists t, (workShape task), (laneShape lane), (viewOf v), GateLeaving.
    split_and!; auto using core_task, core_lane, core_queue; simpl; by rewrite Hp. }
  destruct (tBody task) as [[]|] eqn:Hb; [|left; by rewrite Hmv in Hst..].
  destruct (pendingEntries lane) as [|e0 es] eqn:Hpe.
  - left. rewrite processCollected_empty; [|intros lane' Hl'; rewrite Hl1 in Hl'; by injection Hl' as <-].
    replace (core s1) with (onLane (tLane task) (setPendingBit false) (core s1)); [by rewrite <- Hmv|].
    unfold onLane, core. simpl. f_equal. apply alter_same. intros x Hx. rewrite list_lookup_fmap, list_lookup_alter_eq, Hl in Hx.
    injection Hx as <-. unfold laneShape, setPendingBit. simpl. by rewrite Hpe.
  - right. assert (pendingEntries (endExecution t e now lane) ≠ []) as Hne by (simpl; by rewrite Hpe).
    destruct (li_pending _ (ci_lanes _ HI) _ _ (core_lane s _ lane Hl)) as [Hd Hm]; [apply pending_shape; by rewrite Hpe|].
    exists task, lane. do 4 (split; [done|]). split; [congruence|]. cbv zeta.
    assert (core (processCollectedMessages (tLane task) now s1) =
      addTask (tLane task) (queue lane) (RunEntry true) true (move t (workShape task) (laneShape lane) GateLeaving (core s))) as Ec.
    { by rewrite (core_processCollected _ _ _ s1 Hl1 Hne Hd), <- Hmv. }
    split_and!; [done| |done]. rewrite Ec. change (queue lane) with (lQueue (laneShape lane)).
    rewrite <- (proj1 (keeps_move t (tBody task) (tPhase task) GateLeaving (laneShape lane))).
    apply CsAdd; [done|done| |done]. simpl. by rewrite list_lookup_alter_eq, list_lookup_fmap, Hl.
Qed.

Lemma handlerEnd_refines t ok now s s' : CInv (core s) → handlerEnd t ok now s = Some s' → rtc cstep (core s) (core s').
Proof.
  intros HI Hs. destruct (handlerEnd_move t ok now s s' HI Hs) as [Hm|(task & lane & _ & _ & _ & _ & _ & Hm & Hst & _)];
    [by apply cmove_rtc|]. eapply rtc_l; [by apply cmove_step|by apply rtc_once].
Qed.

(** The task a lane's queue starts was waiting in it. *)
Lemma started_task q pq pq' t s :
  QInv (core s) → queues s !! q = Some pq → pqStart pq = Some (t, pq') →
  ∃ task lane, tasks s !! t = Some task ∧ laneHeap s !! tLane task = Some lane ∧ queue lane = q ∧ tPhase task = LaneWaiting.
Proof.
  intros HQ Hq Hst. destruct (viewOf_start t pq pq' Hst) as [_ [Hh _]].
  destruct (qi_queue _ HQ q _ (core_queue s q pq Hq)) as [HT _].
  assert (t ∈ vWaiting (viewOf pq)) as Hin by (destruct (vWaiting (viewOf pq)); [done|]; injection Hh as ->; left).
  apply (tr_waiting _ _ HT) in Hin. unfold laneSlotAt in Hin. simpl in Hin. rewrite list_lookup_fmap in Hin.
  destruct (tasks s !! t) as [task|] eqn:Ht; [|done]. simpl in Hin. rewrite list_lookup_fmap in Hin.
  destruct (laneHeap s !! tLane task) as [lane|] eqn:Hl; [|done]. simpl in Hin. case_decide as Eq; [|done].
  exists task, lane. split_and!; [done..|]. by destruct (tPhase task).
Qed.

Lemma insert_alter {A} (f : A → A) i (l : list A) x : l !! i = Some x → <[i := f x]> l = alter f i l.
Proof. intros Hx. symmetry. apply list_eq. intros j. rewrite list_lookup_alter, list_lookup_insert.
  destruct (decide (i = j)) as [->|Hne]; [rewrite decide_True, Hx by (split; [done|by eapply lookup_lt_Some]); done|].
  rewrite decide_False; [done|]. by intros [? _]. Qed.

Lemma laneStart_move q now s s' : CInv (core s) → laneStart q now s = Some s' → cmove (core s) (core s').
Proof.
  intros HI (pq & Hq & ((t & pq') & Hst & Hs)%bind_Some)%bind_Some. injection Hs as <-. pose proof (ci_queues _ HI) as HQ.
  destruct (started_task q pq pq' t s HQ Hq Hst) as (task & lane & Ht & Hl & Eq & Hp). subst q.
  destruct (viewOf_start t pq pq' Hst) as [Hv' Hok].
  assert (viewOf <$> <[queue lane := pq']> (queues s) = alter (slotOp Waiting Running t) (queue lane) (viewOf <$> queues s)) as Hqs.
  { rewrite list_fmap_insert, Hv'. apply insert_alter. by rewrite list_lookup_fmap, Hq. }
  unfold runLaneTask. cbn [tasks setQueues]. rewrite Ht. destruct (tBody task) as [cb|] eqn:Hb.
  - apply (core_move s _ t task lane pq GateWaiting Ht Hl Hq); rewrite ?Hp; try done.
    unfold core, move. simpl. rewrite Hp, Hb. simpl. rewrite Hqs. f_equal.
    + by rewrite alter_same.
    + apply viewOf_add.
    + apply fmap_alter. intros x Hx. rewrite Ht in Hx. injection Hx as <-. unfold workShape, workMove. simpl. f_equal.
      pose proof (ei_entry _ (ci_exec _ HI) t _ (core_task s t task Ht)) as Hen. simpl in Hen. rewrite Hb in Hen.
      destruct (tEntry task); [done|]. apply Hen. by right.
  - cbn [laneHeap setQueues world]. rewrite Hl. destruct (pendingEntries lane) as [|e0 es] eqn:Hpe.
    + rewrite coalesce_nil. apply (core_move s _ t task lane pq LaneLeaving Ht Hl Hq); rewrite ?Hp, ?Hb; try done;
        [simpl; by rewrite Hpe|]. unfold core, move. simpl. rewrite Hp, Hb. simpl. rewrite Hqs. f_equal.
      * by rewrite alter_same.
      * by apply fmap_alter.
    + destruct (coalesce_Some (e0 :: es) (world s)) as [[w e] ->]; [done|].
      apply (core_move s _ t task lane pq GateWaiting Ht Hl Hq); rewrite ?Hp, ?Hb; try done.
      unfold core, move. simpl. rewrite Hp, Hb. simpl. rewrite Hqs. f_equal.
      * by apply fmap_alter.
      * apply viewOf_add.
      * rewrite alter_alter. by apply fmap_alter.
Qed.

(** ** The mode of a lane *)

Definition modeFor (channelType : string) : QueueMode := mode (resolveChannelConfig config channelType).

Definition bodyFor (m : QueueMode) (b : Body) : Prop :=
  match m with
  | Collect => b = RunEntry true
  | Steer => b = RunEntry false ∨ b = SteerAgain
  | _ => b = RunEntry false
  end.

(** The channel type is part of the lane key, so a lane has one mode: its tasks and
    its timer fit it.  A task is listed until it is gone; a shutdown that waits
    has begun. *)
Record Kinds (f : nat → QueueMode) (s : State Q) : Prop := {
  k_lane key l : (key, l) ∈ lanes s →
    ∃ k ct c, key = (createQueueLaneIdentity k ct c).2 ∧ f l = modeFor ct;
  k_task t task : tasks s !! t = Some task → bodyFor (f (tLane task)) (tBody task);
  k_timer key l : (key, l) ∈ debounceTimers s → f l = Collect ∧ (l < length (laneHeap s))%nat;
  k_listed t task : tasks s !! t = Some task → tPhase task ≠ Gone → t ∈ scheduledTasks s;
  k_wait : is_Some (shutdownWait s) → isShutdown s = true;
}.

(** ** Enqueueing *)

Lemma laneValues_mapped base s :
  match sessionQueue base s with
  | Some q => ∃ l lane, mapped (core s) l ∧ laneHeap s !! l = Some lane ∧ baseSessionKey lane = base ∧ queue lane = q
  | None => ∀ l lane, mapped (core s) l → laneHeap s !! l = Some lane → baseSessionKey lane ≠ base
  end.
Proof.
  unfold sessionQueue. destruct (filter (fun l => baseSessionKey l = base) (laneValues s)) as [|lane ls] eqn:E; simpl.
  - intros l lane (key & Hk) Hl Eb. assert (lane ∈ []) as Hx; [|by apply not_elem_of_nil in Hx].
    rewrite <- E. apply list_elem_of_filter. split; [done|]. unfold laneValues. apply list_elem_of_omap. by exists (key, l).
  - assert (lane ∈ filter (fun l => baseSessionKey l = base) (laneValues s)) as [Eb Hv]%list_elem_of_filter by (rewrite E; left).
    unfold laneValues in Hv. apply list_elem_of_omap in Hv as ((key & l) & Hk & Hl). exists l, lane. split; [by exists key|done].
Qed.

Lemma cstep_eq c c1 c2 : cstep c c1 → c1 = c2 → cstep c c2.
Proof. by intros ? <-. Qed.

Lemma getOrCreate_refines key base now s s' l :
  CInv (core s) → isShutdown s = false → getOrCreateLane key base now s = (s', l) →
  rtc cstep (core s) (core s') ∧ (key, l) ∈ lanes s' ∧ isShutdown s' = false ∧ tasks s' = tasks s ∧ world s' = world s ∧
  debounceTimers s' = debounceTimers s ∧ (∃ lane, laneHeap s' !! l = Some lane) ∧
  (((key, l) ∈ lanes s ∧ lanes s' = lanes s ∧ length (laneHeap s') = length (laneHeap s)) ∨
   (l = length (laneHeap s) ∧ lanes s' = mset (lanes s) key l ∧ (key ∉ mkeys (lanes s)) ∧
   length (laneHeap s') = S (length (laneHeap s)) ∧ (∃ lane, laneHeap s' !! l = Some lane ∧ isExecuting lane = false))).
Proof.
  intros HI Hd. unfold getOrCreateLane. destruct (mget (lanes s) key) as [l0|] eqn:Hk.
  - intros [= <- <-]. apply mget_elem_of in Hk. split; [by rewrite core_updLane_same|]. split_and!; try done.
    + destruct (li_heap _ (ci_lanes _ HI) l0) as [L HL]; [by exists key|]. simpl in HL. rewrite list_lookup_fmap in HL.
      apply fmap_Some in HL as (lane & Hl & _). exists (touch now lane). simpl. by rewrite list_lookup_alter_eq, Hl.
    + left. split_and!; try done. simpl. by rewrite length_alter.
  - pose proof (laneValues_mapped base s) as Hv. apply mget_None in Hk as Hk'.
    destruct (sessionQueue base s) as [q|]; intros [= <- <-]; (split; [apply rtc_once|split_and!; try done]).
    1: { destruct Hv as (l & lane & Hm & Hl & Eb & Eq).
      eapply (cstep_eq _ (addLane key base q (cQueues (core s)) (core s))).
      - by apply (CsLane key base q l (laneShape lane)); auto using core_lane.
      - unfold addLane, core. simpl. rewrite length_fmap, fmap_app. done. }
    4: { eapply (cstep_eq _ (addLane key base (length (cQueues (core s))) (cQueues (core s) ++ [freshView]) (core s))).
      - apply CsLaneNew; [done|done|]. intros l L Hm HL. simpl in HL. rewrite list_lookup_fmap in HL.
        apply fmap_Some in HL as (lane & Hl & ->). by apply (Hv l).
      - unfold addLane, core. simpl. rewrite !length_fmap, !fmap_app. simpl. by rewrite viewOf_new. }
    all: simpl; rewrite ?mset_notin, ?list_lookup_middle, ?length_app by done; simpl; try by eauto.
    all: try (apply elem_of_app; right; by left).
    all: right; split_and!; try done; try lia; by eexists.
Qed.

(** The pending bit after an overflow policy was applied. *)
Lemma core_accumulate l e c now s : is_Some (laneHeap s !! l) →
  ∃ b, core (accumulate l e c now s) = onLane l (setPendingBit b) (core s).
Proof.
  intros [lane Hl]. unfold accumulate. rewrite Hl.
  set (r := applyOverflowPolicyToQueueEntries _ _ _ _ _ _). exists (match r.2.1 with [] => false | _ => true end).
  by rewrite (core_updLane l _ (setPendingBit (match r.2.1 with [] => false | _ => true end))).
Qed.

Lemma core_abortExecution l s : core (abortExecution l s) = core s.
Proof. unfold abortExecution. destruct (_ ≫= _); [|done]. by apply core_updTask_same. Qed.

(** A lane that executes has an executing task. *)
Lemma executing_task l lane s : CInv (core s) → laneHeap s !! l = Some lane → isExecuting lane = true →
  ∃ t task, tasks s !! t = Some task ∧ tLane task = l ∧ tPhase task = Executing.
Proof.
  intros HI Hl Hex. pose proof (ei_lane _ (ci_exec _ HI) l _ (core_lane s l lane Hl)) as Hln. simpl in Hln. rewrite Hex in Hln.
  destruct Hln as (t & w & _ & _ & Hw & E & Hp). simpl in Hw. rewrite list_lookup_fmap in Hw.
  apply fmap_Some in Hw as (task & Ht & ->). by exists t, task.
Qed.

Lemma schedule_refines l key b e o s :
  CInv (core s) → isShutdown s = false → (key, l) ∈ lanes s → (match e with Some _ => true | None => false end) = hasEntry b →
  rtc cstep (core s) (core (scheduleLaneTask l b e o s)).
Proof.
  intros HI Hd Hk Hb. assert (mapped (core s) l) as Hm by by exists key.
  destruct (li_heap _ (ci_lanes _ HI) l Hm) as [L HL]. simpl in HL. rewrite list_lookup_fmap in HL.
  apply fmap_Some in HL as (lane & Hl & ->). rewrite (core_schedule l b e o lane s Hl). apply rtc_once.
  by apply (CsAdd l (laneShape lane)); [done|done|apply core_lane|].
Qed.

(** [enqueueMessage] in three steps: the lane, the entry, the dispatch. *)
Lemma enqueue_unfold r now s base key s1 l w e :
  isShutdown s = false → createQueueLaneIdentity (rSessionKey r) (rChannelType r) (rContext r) = (base, key) →
  getOrCreateLane key base now s = (s1, l) → newEntry r now (world s1) = (w, e) →
  ∃ depth, (enqueueMessage config r now s).1 =
    dispatch (resolveChannelConfig config (rChannelType r)) key l e (negb (rWait r)) now
      (setWorld (fun _ => emit (EEnqueued (rSessionKey r) (rChannelType r) depth (modeFor (rChannelType r)) now) w) (updLane l (fun lane => setDepth (logicalDepth lane + 1) lane) s1)).
Proof. intros Hd Eid Eg En. unfold enqueueMessage. rewrite Hd, Eid, Eg, En. by eexists. Qed.

Lemma dispatch_refines c key l e o now s :
  CInv (core s) → isShutdown s = false → (key, l) ∈ lanes s → is_Some (laneHeap s !! l) →
  (mode c = Collect → ∀ t task, tasks s !! t = Some task → tLane task = l → tBody task = RunEntry true) →
  rtc cstep (core s) (core (dispatch c key l e o now s)).
Proof.
  intros HI Hd Hk [lane Hl] Hm. assert (mapped (core s) l) as Hmp by by exists key.
  assert (∀ b, rtc cstep (core s) (core (executeLaneTask l e b o s))) as Hrun.
  { intros b. apply (schedule_refines l key); eauto. }
  unfold dispatch. rewrite Hl. simpl. destruct (mode c) eqn:Em; [apply Hrun| | |apply Hrun].
  - destruct (isExecuting lane) eqn:Hex; [|apply Hrun].
    transitivity (core (accumulate l e (overflow c) now s)); [|by destruct (0 <? debounceMs c)%Z].
    destruct (core_accumulate l e (overflow c) now s) as [b ->]; [eauto|]. apply rtc_once. apply CsPend; [done|done|].
    destruct (executing_task l lane s HI Hl Hex) as (t & task & Ht & El & Hp). exists t, (workShape task).
    split; [by apply core_task|]. split; [done|]. left. split; [done|]. by apply (Hm eq_refl t task).
  - destruct (isExecuting lane) eqn:Hex; [|apply Hrun].
    destruct (core_accumulate l e (overflow c) now s) as [b Hb]; [eauto|].
    set (s1 := setTimers _ _). assert (core s1 = onLane l (setPendingBit b) (core s)) as Hc1.
    { transitivity (core (abortExecution l (accumulate l e (overflow c) now s))); [done|]. by rewrite core_abortExecution. }
    assert (∃ lane', laneHeap s1 !! l = Some lane' ∧ queue lane' = queue lane) as (lane' & Hl' & Eq).
    { assert (cHeap (core s1) !! l = Some (setPendingBit b (laneShape lane))) as Hx.
      { rewrite Hc1. simpl. by rewrite list_lookup_alter_eq, list_lookup_fmap, Hl. }
      simpl in Hx. rewrite list_lookup_fmap in Hx. apply fmap_Some in Hx as (lane' & Hl' & E). exists lane'. split; [done|].
      change (queue lane') with (lQueue (laneShape lane')). by rewrite <- E. }
    rewrite (core_schedule l _ _ _ lane' s1 Hl'), Hc1, Eq.
    transitivity (addTask l (queue lane) SteerAgain false (core s)).
    + apply rtc_once. apply (CsAdd l (laneShape lane)); [done|done|by apply core_lane|done].
    + apply rtc_once. apply (CsPend l b (addTask l (queue lane) SteerAgain false (core s))); [done|done|].
      exists (length (tasks s)). eexists. split; [simpl; rewrite <- (length_fmap workShape); by rewrite list_lookup_middle|]. auto.
Qed.

(** A lane found under the key of a request has the request's mode; a new one has no task. *)
Lemma lane_mode f r base key now s s1 l :
  CInv (core s) → Kinds f s → isShutdown s = false →
  createQueueLaneIdentity (rSessionKey r) (rChannelType r) (rContext r) = (base, key) →
  getOrCreateLane key base now s = (s1, l) →
  ∀ t task, tasks s1 !! t = Some task → tLane task = l → bodyFor (modeFor (rChannelType r)) (tBody task).
Proof.
  intros HI HK Hd Eid Eg t task Ht El.
  destruct (getOrCreate_refines key base now s s1 l HI Hd Eg) as (_ & _ & _ & Ets & _ & _ & _ & Hcase).
  rewrite Ets in Ht. destruct Hcase as [(Hk & _)|(-> & _)].
  - destruct (k_lane f s HK key l Hk) as (k & ct & c & Ek & Ef).
    assert (key = (createQueueLaneIdentity (rSessionKey r) (rChannelType r) (rContext r)).2) as Ek' by by rewrite Eid.
    rewrite Ek in Ek'. apply laneKey_inj in Ek' as (_ & -> & _). rewrite <- Ef, <- El. by apply (k_task f s HK t).
  - destruct (task_lane s t task (ci_queues _ HI) Ht) as (lane & v & Hl & _). apply lookup_lt_Some in Hl. lia.
Qed.

Lemma enqueue_refines f r now s :
  CInv (core s) → Kinds f s → rtc cstep (core s) (core (enqueueMessage config r now s).1).
Proof.
  intros HI HK. destruct (isShutdown s) eqn:Hd; [unfold enqueueMessage; by rewrite Hd|].
  destruct (createQueueLaneIdentity (rSessionKey r) (rChannelType r) (rContext r)) as [base key] eqn:Eid.
  destruct (getOrCreateLane key base now s) as [s1 l] eqn:Eg. destruct (newEntry r now (world s1)) as [w e] eqn:En.
  destruct (enqueue_unfold r now s base key s1 l w e Hd Eid Eg En) as [ev ->].
  destruct (getOrCreate_refines key base now s s1 l HI Hd Eg) as (Hr & Hk & Hd1 & Ets & _ & _ & [lane Hl] & _).
  etrans; [exact Hr|]. set (s2 := setWorld _ _).
  assert (core s2 = core s1) as Ec by (apply (core_updLane_same l (fun lane => setDepth (logicalDepth lane + 1) lane)); done).
  rewrite <- Ec. apply dispatch_refines; [rewrite Ec; by eapply cinv_steps|done|done| |].
  - exists (setDepth (logicalDepth lane + 1) lane). simpl. by rewrite list_lookup_alter_eq, Hl.
  - intros Em t task Ht El. pose proof (lane_mode f r base key now s s1 l HI HK Hd Eid Eg t task Ht El) as Hb.
    unfold modeFor in Hb. by rewrite Em in Hb.
Qed.

(** ** Cleanup *)

Lemma sweep_refines now s : rtc cstep (core s) (core (sweep config now s)).
Proof.
  apply rtc_once. eapply cstep_eq; [apply (CsSweep (fun p => negb (idleLane config now s p.2)) (core s))|].
  - intros key l Hk. simpl. destruct (idleLane config now s l) eqn:E; [right|by left]. unfold idleLane in E.
    destruct (laneHeap s !! l) as [lane|] eqn:Hl; [|done]. rewrite !andb_true_iff in E. destruct E as [[[E1 E2] E3] _].
    destruct (queues s !! queue lane) as [q|] eqn:Hq; [|done]. apply andb_true_iff in E2 as [E2 E4].
    apply bool_decide_eq_true in E2, E3, E4. apply negb_true_iff in E1.
    exists (laneShape lane), (viewOf q). simpl. rewrite E3, !list_lookup_fmap, Hl. simpl. by rewrite Hq.
  - unfold withLanes, core, sweep. simpl. f_equal. apply list_filter_iff. intros [key l]. simpl. by destruct (idleLane config now s l).
Qed.

Lemma core_touch base now s : core (touchLane base now s) = core s.
Proof.
  unfold core, touchLane. simpl. f_equal. apply list_eq. intros i. rewrite !list_lookup_fmap, list_lookup_imap.
  destruct (laneHeap s !! i) as [lane|]; simpl; [|done]. by case_decide.
Qed.

(** ** Shutdown *)

(** A loop whose rounds are moves of the core and keep [P] moves the core and keeps [P]. *)
Lemma foldl_refines {A} (P : State Q → Prop) (g : State Q → A → State Q) (l : list A) s :
  (∀ s x, x ∈ l → P s → P (g s x) ∧ rtc cstep (core s) (core (g s x))) → P s →
  P (foldl g s l) ∧ rtc cstep (core s) (core (foldl g s l)).
Proof.
  revert s. induction l as [|x l IH]; intros s Hg HP; [done|]. simpl. destruct (Hg s x ltac:(left) HP) as [HP' Hr].
  destruct (IH (g s x)) as [HP'' Hr']; [intros s' y Hy; apply Hg; by right|done|]. split; [done|by etrans].
Qed.

Lemma pause_refines l s : rtc cstep (core s) (core (onLaneQueue l pqPause s)).
Proof.
  unfold onLaneQueue. destruct (laneQueue l s) as [q|]; [|done]. apply rtc_once.
  eapply cstep_eq; [apply (CsPause q)|]. unfold withQueues, core. simpl. f_equal. symmetry. apply fmap_alter. intros. apply viewOf_pause.
Qed.

Lemma core_rejectPending now l s :
  core (rejectPending now s l) = onLane l (setPendingBit false) (core s).
Proof.
  unfold rejectPending. destruct (laneHeap s !! l) as [lane|] eqn:Hl.
  - rewrite core_abortExecution. transitivity (core (updLane l (setPending []) s)); [by destruct (_ ≫= _)|].
    by apply core_updLane.
  - unfold onLane, core. simpl. f_equal. symmetry. apply alter_same. intros x. by rewrite list_lookup_fmap, Hl.
Qed.

Definition nothingPending (c : Core) : Prop := ∀ l L, cHeap c !! l = Some L → lPending L = false.

Lemma abortTask_refines t s :
  QInv (core s) → nothingPending (core s) → rtc cstep (core s) (core (abortTask t s)).
Proof.
  intros HQ Hnp. unfold abortTask. destruct (tasks s !! t) as [task|] eqn:Ht; [|done].
  destruct (task_lane s t task HQ Ht) as (lane & v & Hl & Hv).
  pose proof (Hnp _ _ (core_lane s _ lane Hl)) as Hp0.
  destruct (tPhase task) eqn:Hp; try (by rewrite core_updTask_same).
  - apply cmove_rtc, (core_move s _ t task lane v Settled Ht Hl Hv); rewrite ?Hp, ?Hp0; try done.
    unfold onLaneQueue, laneQueue. simpl. rewrite Hl. simpl. unfold core, move. simpl. rewrite Hp. simpl. f_equal.
    + by rewrite alter_same.
    + apply fmap_alter. intros. apply viewOf_abort.
    + rewrite alter_alter. by apply fmap_alter.
  - apply cmove_rtc, (core_move s _ t task lane v LaneLeaving Ht Hl Hv); rewrite ?Hp, ?Hp0; try done.
    unfold core, move. simpl. rewrite Hp. simpl. f_equal.
    + by rewrite alter_same.
    + by rewrite alter_same.
    + apply viewOf_abort.
    + rewrite alter_alter. by apply fmap_alter.
Qed.

(** An abort ends the wait of its task and leaves the others alone. *)
Lemma abortTask_tasks t s : QInv (core s) →
  tasks (abortTask t s) = alter (fun task =>
    match tPhase task with
    | LaneWaiting => setPhase Settled (setFailed true (setAborted task))
    | GateWaiting => setPhase LaneLeaving (setFailed true (setAborted task))
    | _ => setAborted task
    end) t (tasks s).
Proof.
  intros HQ. unfold abortTask. destruct (tasks s !! t) as [task|] eqn:Ht.
  - destruct (task_lane s t task HQ Ht) as (lane & v & Hl & Hv). apply list_eq. intros j.
    destruct (tPhase task) eqn:Hp; unfold onLaneQueue, laneQueue; simpl; rewrite ?Hl; simpl; rewrite !list_lookup_alter;
      case_decide; try done; subst; rewrite ?decide_True by done; rewrite Ht; simpl; by rewrite Hp.
  - symmetry. apply alter_same. congruence.
Qed.

Definition waiting (p : Phase) : Prop := p = LaneWaiting ∨ p = GateWaiting.

Lemma abortTask_heap t s : laneHeap (abortTask t s) = laneHeap s ∧ lanes (abortTask t s) = lanes s ∧ isShutdown (abortTask t s) = isShutdown s.
Proof.
  unfold abortTask. destruct (tasks s !! t) as [task|]; [|done].
  destruct (tPhase task); try done. unfold onLaneQueue. by destruct (laneQueue _ _).
Qed.

(** After the aborts only tasks that were not aborted can be waiting. *)
Lemma aborts_refine ts s :
  CInv (core s) → nothingPending (core s) →
  let s' := foldl (fun s t => abortTask t s) s ts in
  rtc cstep (core s) (core s') ∧ laneHeap s' = laneHeap s ∧ lanes s' = lanes s ∧ isShutdown s' = isShutdown s ∧
  ∀ t task, tasks s' !! t = Some task → waiting (tPhase task) → (t ∉ ts) ∧ tasks s !! t = Some task.
Proof.
  revert s. induction ts as [|t ts IH]; intros s HI Hnp; simpl.
  { split_and!; try done. intros t task Ht _. split; [apply not_elem_of_nil|done]. }
  pose proof (abortTask_refines t s (ci_queues _ HI) Hnp) as Hr. destruct (abortTask_heap t s) as (Eh & El & Ed).
  destruct (IH (abortTask t s)) as (Hr' & Eh' & El' & Ed' & Hw).
  { by eapply cinv_steps. }
  { intros l L HL. apply (Hnp l L). simpl in HL |- *. by rewrite <- Eh. }
  split_and!; [by etrans|congruence..|]. intros u task Hu Hph. destruct (Hw u task Hu Hph) as [Hn Hu'].
  rewrite (abortTask_tasks t s (ci_queues _ HI)) in Hu'. apply alter_Some in Hu' as (task0 & Hu0 & ->).
  destruct (decide (t = u)) as [->|Hne].
  - exfalso. unfold waiting in Hph. destruct (tPhase task0) eqn:E; simpl in Hph; rewrite ?E in Hph; naive_solver.
  - split; [|done]. by intros [->|?]%elem_of_cons.
Qed.

(** The loop that rejects the pending entries of the mapped lanes. *)
Lemma rejects_refine now ls s :
  let s' := foldl (rejectPending now) s ls in
  rtc cstep (core s) (core s') ∧ cTasks (core s') = cTasks (core s) ∧ lanes s' = lanes s ∧ isShutdown s' = isShutdown s ∧
  ∀ l L, cHeap (core s') !! l = Some L → ∃ L0, cHeap (core s) !! l = Some L0 ∧ (lPending L = true → lPending L0 = true ∧ (l ∉ ls)).
Proof.
  revert s. induction ls as [|l ls IH]; intros s; cbn [foldl].
  { split_and!; try done. intros l L HL. exists L. split; [done|]. intros. split; [done|apply not_elem_of_nil]. }
  pose proof (core_rejectPending now l s) as Ec. destruct (IH (rejectPending now s l)) as (Hr & Et & El & Ed & Hh).
  split_and!.
  - eapply rtc_l; [apply (CsClear l)|]. by rewrite <- Ec.
  - by rewrite Et, Ec.
  - rewrite El. change (lanes ?x) with (cLanes (core x)). by rewrite Ec.
  - rewrite Ed. change (isShutdown ?x) with (cDown (core x)). by rewrite Ec.
  - intros l' L HL. destruct (Hh l' L HL) as (L1 & HL1 & Hp). rewrite Ec in HL1. apply alter_Some in HL1 as (L0 & HL0 & ->).
    exists L0. split; [done|]. intros HpL. destruct (Hp HpL) as [Hp1 Hn]. case_decide as E; [done|]. split; [done|].
    rewrite not_elem_of_cons. auto.
Qed.

Lemma pauses_refine ls s :
  let s' := setGate pqPause (foldl (fun s l => onLaneQueue l pqPause s) (setTimers (fun _ => []) s) ls) in
  rtc cstep (core s) (core s') ∧ tasks s' = tasks s ∧ lanes s' = lanes s ∧ laneHeap s' = laneHeap s ∧
  isShutdown s' = isShutdown s ∧ scheduledTasks s' = scheduledTasks s.
Proof.
  intros s'. destruct (foldl_refines (fun x => tasks x = tasks s ∧ lanes x = lanes s ∧ laneHeap x = laneHeap s ∧
    isShutdown x = isShutdown s ∧ scheduledTasks x = scheduledTasks s)
    (fun s l => onLaneQueue l pqPause s) ls (setTimers (fun _ => []) s)) as [HP Hr]; [|done|].
  - intros x l _ HP. split; [|apply pause_refines]. unfold onLaneQueue. by destruct (laneQueue l x).
  - split; [|done]. etrans; [exact Hr|]. apply rtc_once.
    eapply cstep_eq; [apply CsPauseGate|]. unfold withQueues, core, s'. simpl. f_equal. by rewrite viewOf_pause.
Qed.

Lemma shutdown_refines f now s :
  CInv (core s) → Kinds f s → rtc cstep (core s) (core (performShutdown now s)).
Proof.
  intros HI HK. unfold performShutdown. destruct (isShutdown s) eqn:Hd; [done|].
  destruct (pauses_refine (lanes (setTimers (fun _ => []) s)).*2 s) as (R1 & T1 & L1 & H1 & D1 & S1).
  set (s1 := setGate pqPause _) in *. set (ns := filter _ _). set (es := omap _ _).
  set (s2 := setWorld _ s1). pose proof (cinv_steps _ _ R1 HI) as HI1.
  destruct (rejects_refine now (lanes s2).*2 s2) as (R2 & T2 & L2 & D2 & H2).
  set (s3 := foldl (rejectPending now) s2 _) in *. change (core s2) with (core s1) in *.
  pose proof (cinv_steps _ _ R2 HI1) as HI3.
  assert (nothingPending (core s3)) as Hnp.
  { intros l L HL. destruct (H2 l L HL) as (L0 & HL0 & Hp). destruct (lPending L) eqn:E; [|done]. destruct (Hp eq_refl) as [Hp0 Hn].
    destruct (li_pending _ (ci_lanes _ HI1) l L0 HL0 Hp0) as [_ (key & Hk)]. destruct Hn. apply list_elem_of_fmap. by exists (key, l). }
  destruct (aborts_refine ns s3 HI3 Hnp) as (R3 & H3 & L3 & D3 & Hw). set (s4 := foldl _ s3 ns) in *.
  transitivity (core s4); [etrans; [exact R1|]; etrans; [exact R2|exact R3]|]. apply rtc_once.
  eapply cstep_eq; [apply CsDown|done].
  - intros t w Htw. 
    assert (¬ waiting (wPhase w)) as Hx; [|unfold waiting in Hx; naive_solver]. intros Hph.
    simpl in Htw. rewrite list_lookup_fmap in Htw. apply fmap_Some in Htw as (task & Ht4 & ->).
    destruct (Hw t task Ht4 Hph) as [Hn Ht3]. apply Hn. pose proof (core_task s3 t task Ht3) as Ht1. rewrite T2 in Ht1.
    change (cTasks (core s1)) with (workShape <$> tasks s1) in Ht1. rewrite list_lookup_fmap in Ht1. apply fmap_Some in Ht1 as (task1 & Ht1 & E).
    apply list_elem_of_filter. rewrite Ht1. split.
    + destruct (ei_started _ (ci_exec _ HI1) t _ (core_task s1 t task1 Ht1)) as [_ Hst]. simpl. f_equal. apply Hst. rewrite <- E.
      simpl in Hph |- *. destruct Hph as [->| ->]; auto.
    + rewrite S1. rewrite T1 in Ht1. apply (k_listed f s HK t task1 Ht1). injection E as _ _ E _ _. rewrite <- E.
      simpl in Hph. unfold waiting in Hph. by destruct Hph as [->| ->].
  - intros l L HL. apply (Hnp l L). simpl in HL |- *. by rewrite <- H3.
Qed.

(** After shutdown nothing waits, so clearing the queues changes nothing. *)
Lemma down_waiting c : CInv c → cDown c = true →
  (∀ q v, cQueues c !! q = Some v → vWaiting v = []) ∧ vWaiting (cGate c) = [].
Proof.
  intros [HQ HL HE] Hd.
  assert (∀ v f, Tracks v f → (∀ t, f t ≠ Waiting) → vWaiting v = []) as Hnil.
  { intros v f HT Hf. destruct (vWaiting v) as [|t r] eqn:E; [done|]. destruct (Hf t). apply (tr_waiting v f HT). rewrite E. left. }
  split.
  - intros q v Hv. destruct (qi_queue c HQ q v Hv) as [HT _]. apply (Hnil v _ HT). intros t. unfold laneSlotAt.
    destruct (cTasks c !! t) as [w|] eqn:Ht; [|done]. destruct (cHeap c !! wLane w); [|done]. case_decide; [|done].
    destruct (li_down c HL t w Hd Ht). by destruct (wPhase w).
  - destruct (qi_gate c HQ) as [HT _]. apply (Hnil _ _ HT). intros t. unfold gateSlotAt.
    destruct (cTasks c !! t) as [w|] eqn:Ht; [|done]. destruct (li_down c HL t w Hd Ht). by destruct (wPhase w).
Qed.

Lemma core_clearQueue l s : CInv (core s) → isShutdown s = true → core (onLaneQueue l pqClear s) = core s.
Proof.
  intros HI Hd. unfold onLaneQueue. destruct (laneQueue l s) as [q|]; [|done]. unfold core. simpl. f_equal.
  rewrite (fmap_alter _ _ id); [by apply alter_same|]. intros x Hx. apply viewOf_clear.
  destruct (down_waiting _ HI Hd) as [Hw _]. apply (Hw q (viewOf x)). by apply core_queue.
Qed.

Lemma finishShutdown_refines f s s' : CInv (core s) → Kinds f s → finishShutdown s = Some s' → rtc cstep (core s) (core s').
Proof.
  intros HI HK (ts & Hts & Hs)%bind_Some. destruct (forallb _ ts); [|done]. simpl in Hs. injection Hs as <-.
  assert (isShutdown s = true) as Hd by (apply (k_wait f s HK); eauto).
  set (g := fun s l => updLane l (setDepth 0 ∘ setPending []) (onLaneQueue l pqClear s)).
  destruct (foldl_refines (fun x => CInv (core x) ∧ isShutdown x = true) g (lanes s).*2 s) as [[HI' Hd'] Hr]; [|done|].
  - intros x l _ [HIx Hdx].
    assert (rtc cstep (core x) (core (g x l))) as Hr.
    { unfold g. rewrite (core_updLane l _ (setPendingBit false)) by done. rewrite core_clearQueue by done.
      apply rtc_once, CsClear. }
    split; [|done]. split; [by eapply cinv_steps|]. unfold g, onLaneQueue. simpl. by destruct (laneQueue l x).
  - etrans; [exact Hr|]. apply rtc_once. eapply cstep_eq; [apply CsFinish; exact Hd'|].
    unfold withLanes, core. simpl. f_equal. symmetry. apply viewOf_clear. by apply (down_waiting _ HI' Hd').
Qed.

(** Every operation is a sequence of moves of the core. *)
Lemma exec_refines f o s s' : CInv (core s) → Kinds f s → exec config o s = Some s' → rtc cstep (core s) (core s').
Proof.
  intros HI HK Hs. destruct o; simpl in Hs.
  - by injection Hs as <-.
  - case_bool_decide; [|done]. by injection Hs as <-.
  - destruct (match rScope r with Some _ => _ | None => _ end); [|done]. injection Hs as <-. by apply (enqueue_refines f).
  - by eapply cmove_rtc, laneStart_move.
  - by eapply cmove_rtc, gateStart_move.
  - by eapply handlerEnd_refines.
  - by eapply cmove_rtc, gateLeave_move; [apply HI|].
  - by eapply cmove_rtc, laneLeave_move; [apply HI|].
  - by eapply cmove_rtc, settle_move; [apply HI|].
  - by eapply debounce_refines.
  - destruct (isShutdown s); [done|]. injection Hs as <-. apply sweep_refines.
  - injection Hs as <-. by rewrite core_touch.
  - injection Hs as <-. by apply (shutdown_refines f).
  - by eapply finishShutdown_refines.
Qed.

End Refines.

End CommandQueueRefines.
