(* ===== verification/CommandQueueInvariants.v ===== *)
(** * Invariants of reachable command queues

  The invariant of the scheduling core and the lane modes hold in every state an
  execution reaches ([reachable_core]). *)

From S2P Require Import Prelude CanonicalJson SessionKeys SourceTerminal QueueEntries CommandQueue QueueCore CommandQueueRefines.
Import QueueEntries CommandQueue QueueCore CommandQueueRefines.

Open Scope list_scope.

Module CommandQueueInvariants.

Section Invariants.
Context {Q : Type} `{PQueueLaws Q}.
Context (config : QueueConfig).

Implicit Types s : State Q.

(** ** Changes that do not concern the modes *)

Record Frame s s' : Prop := {
  fr_lanes p : p ∈ lanes s' → p ∈ lanes s;
  fr_tasks t task' : tasks s' !! t = Some task' → ∃ task, tasks s !! t = Some task ∧ tLane task' = tLane task ∧
    tBody task' = tBody task ∧ (tPhase task' ≠ Gone → tPhase task ≠ Gone ∧ (t ∈ scheduledTasks s → t ∈ scheduledTasks s'));
  fr_timers p : p ∈ debounceTimers s' → p ∈ debounceTimers s;
  fr_heap : length (laneHeap s') = length (laneHeap s);
  fr_down : isShutdown s = true → isShutdown s' = true;
  fr_wait : is_Some (shutdownWait s') → isShutdown s' = true ∨ is_Some (shutdownWait s);
}.

#[global] Instance Frame_preorder : PreOrder Frame.
Proof.
  split.
  - intros s. split; eauto 10.
  - intros s1 s2 s3 [A1 A2 A3 A4 A5 A6] [B1 B2 B3 B4 B5 B6]. split; [by eauto| |by eauto|by rewrite B4, A4|by eauto|].
    + intros t task3 H3. destruct (B2 t task3 H3) as (task2 & H2 & E1 & E2 & E3).
      destruct (A2 t task2 H2) as (task1 & H1 & F1 & F2 & F3). exists task1. split; [done|]. split; [congruence|]. split; [congruence|].
      intros Hg. destruct (E3 Hg) as [Hg2 Hs2]. destruct (F3 Hg2) as [Hg1 Hs1]. auto.
    + intros Hw. destruct (B6 Hw) as [?|Hw2]; [by left|]. destruct (A6 Hw2) as [Hd|?]; [left; auto|by right].
Qed.

Lemma kinds_frame f s s' : Kinds config f s → Frame s s' → Kinds config f s'.
Proof.
  intros [H1 H2 H3 H4 H5] [A1 A2 A3 A4 A5 A6]. split.
  - intros key l Hk. auto.
  - intros t task' Ht. destruct (A2 t task' Ht) as (task & Ht0 & -> & -> & _). eauto.
  - intros key l Hk. rewrite A4. eauto.
  - intros t task' Ht Hg. destruct (A2 t task' Ht) as (task & Ht0 & _ & _ & Hx). destruct (Hx Hg). eauto.
  - intros Hw. destruct (A6 Hw); auto.
Qed.

(** Updates that keep the relevant parts of the state. *)
Lemma frame_setWorld g s : Frame s (setWorld g s).
Proof. split; simpl; eauto 10. Qed.

Lemma frame_updLane l g s : Frame s (updLane l g s).
Proof. split; simpl; eauto 10. apply length_alter. Qed.

Lemma frame_setQueues g s : Frame s (setQueues g s).
Proof. split; simpl; eauto 10. Qed.

Lemma frame_setGate g s : Frame s (setGate g s).
Proof. split; simpl; eauto 10. Qed.

Lemma frame_setScopes g s : Frame s (setScopes g s).
Proof. split; simpl; eauto 10. Qed.

Lemma frame_setLanes g s : (∀ p, p ∈ g (lanes s) → p ∈ lanes s) → Frame s (setLanes g s).
Proof. intros Hg. split; simpl; eauto 10. Qed.

Lemma frame_setTimers g s : (∀ p, p ∈ g (debounceTimers s) → p ∈ debounceTimers s) → Frame s (setTimers g s).
Proof. intros Hg. split; simpl; eauto 10. Qed.

Lemma frame_onLaneQueue l g s : Frame s (onLaneQueue l g s).
Proof. unfold onLaneQueue. destruct (laneQueue l s); [apply frame_setQueues|done]. Qed.

Lemma frame_setShutdown w s : Frame s (setShutdown true w s).
Proof. split; simpl; eauto 10. Qed.

Lemma frame_updTask t g s :
  (∀ task, tLane (g task) = tLane task ∧ tBody (g task) = tBody task ∧ (tPhase (g task) ≠ Gone → tasks s !! t = Some task → tPhase task ≠ Gone)) →
  Frame s (updTask t g s).
Proof.
  intros Hg. split; simpl; eauto 10. intros u task' (task & Hu & ->)%alter_Some. exists task.
  case_decide; [subst u|by auto]. destruct (Hg task) as (-> & -> & Hp). split_and!; try done. auto.
Qed.

Lemma frame_foldl {A} (g : State Q → A → State Q) l s : (∀ s x, Frame s (g s x)) → Frame s (foldl g s l).
Proof. intros Hg. revert s. induction l as [|x l IH]; intros s; [done|]. simpl. etrans; [apply Hg|apply IH]. Qed.

End Invariants.

Section Preserved.
Context {Q : Type} `{PQueueLaws Q}.
Context (config : QueueConfig).

Implicit Types s : State Q.

Lemma frame_abortExecution l s : Frame s (abortExecution l s).
Proof. unfold abortExecution. destruct (_ ≫= _); [|done]. by apply frame_updTask. Qed.

Lemma frame_accumulate l e c now s : Frame s (accumulate l e c now s).
Proof. unfold accumulate. destruct (laneHeap s !! l); [|done]. etrans; [apply frame_setWorld|apply frame_updLane]. Qed.

Lemma frame_rejectPending now l s : Frame s (rejectPending now s l).
Proof.
  unfold rejectPending. destruct (laneHeap s !! l) as [lane|]; [|done]. etrans; [|apply frame_abortExecution].
  etrans; [apply frame_setWorld|]. etrans; [apply frame_updLane|]. destruct (_ ≫= _); [apply frame_setWorld|done].
Qed.

Lemma frame_abortTask t s : Frame s (abortTask t s).
Proof.
  unfold abortTask. destruct (tasks s !! t) as [task|] eqn:Ht; [|done].
  assert (Frame s (updTask t setAborted s)) as Ha by by apply frame_updTask.
  destruct (tPhase task) eqn:Hp; try done.
  - etrans; [exact Ha|]. etrans; [|apply frame_onLaneQueue]. apply frame_updTask. intros x. split_and!; try done.
    intros _ Hx. simpl in Hx. rewrite list_lookup_alter_eq, Ht in Hx. injection Hx as <-. simpl. by rewrite Hp.
  - etrans; [exact Ha|]. etrans; [|apply frame_setGate]. apply frame_updTask. intros x. split_and!; try done.
    intros _ Hx. simpl in Hx. rewrite list_lookup_alter_eq, Ht in Hx. injection Hx as <-. simpl. by rewrite Hp.
Qed.

Lemma frame_performShutdown now s : Frame s (performShutdown now s).
Proof.
  unfold performShutdown. destruct (isShutdown s); [done|]. etrans; [|apply frame_setShutdown].
  etrans; [|apply frame_foldl; intros; apply frame_abortTask]. etrans; [|apply frame_foldl; intros; apply frame_rejectPending].
  etrans; [|apply frame_setWorld]. etrans; [|apply frame_setGate]. etrans; [|apply frame_foldl; intros; apply frame_onLaneQueue].
  apply frame_setTimers. intros p Hp. by apply not_elem_of_nil in Hp.
Qed.

Lemma frame_finishShutdown s s' : finishShutdown s = Some s' → Frame s s'.
Proof.
  intros (ts & Hts & Hs)%bind_Some. destruct (forallb _ ts); [|done]. simpl in Hs. injection Hs as <-.
  etrans; [|apply frame_setLanes; intros p Hp; by apply not_elem_of_nil in Hp]. etrans; [|apply frame_setGate].
  etrans; [|apply frame_setShutdown]. apply frame_foldl. intros x l. etrans; [apply frame_onLaneQueue|apply frame_updLane].
Qed.

(** ** Scheduling *)

Lemma kinds_schedule f l b e o s : Kinds config f s → bodyFor (f l) b → Kinds config f (scheduleLaneTask l b e o s).
Proof.
  intros [H1 H2 H3 H4 H5] Hb. eapply kinds_frame; [|apply frame_onLaneQueue]. split; simpl; try done.
  - intros t task [Ht|[-> ->]]%snoc_Some; [by eauto|done].
  - intros t task [Ht|[-> ->]]%snoc_Some Hg; apply elem_of_app; [left; eauto|right; by left].
Qed.

Lemma kinds_processCollected f l now s : Kinds config f s → f l = Collect → Kinds config f (processCollectedMessages l now s).
Proof.
  intros HK Hf. unfold processCollectedMessages. destruct (laneHeap s !! l) as [lane|]; [|done].
  destruct (bool_decide _); [done|]. destruct (isShutdown s); [eapply kinds_frame; [done|]; etrans; [apply frame_updLane|apply frame_setWorld]|].
  destruct (coalesceQueuedEntries _ _) as [[w e]|]; [|done]. apply kinds_schedule; [|by rewrite Hf].
  eapply kinds_frame; [done|]. etrans; [apply frame_updLane|apply frame_setWorld].
Qed.

Lemma frame_phase t task p s : tasks s !! t = Some task → tPhase task ≠ Gone → Frame s (updTask t (setPhase p) s).
Proof. intros Ht Hp. apply frame_updTask. intros x. split_and!; try done. intros _ Hx. congruence. Qed.

Lemma kinds_laneStart f q now s s' : CInv (core s) → Kinds config f s → laneStart q now s = Some s' → Kinds config f s'.
Proof.
  intros HI HK (pq & Hq & ((t & pq') & Hst & Hs)%bind_Some)%bind_Some. injection Hs as <-.
  destruct (started_task q pq pq' t s (ci_queues _ HI) Hq Hst) as (task & lane & Ht & Hl & Eq & Hp).
  eapply kinds_frame; [exact HK|]. unfold runLaneTask. cbn [tasks setQueues]. rewrite Ht. etrans; [apply frame_setQueues|].
  destruct (tBody task).
  - etrans; [|apply frame_setGate]. eapply frame_phase; [done|]. by rewrite Hp.
  - cbn [laneHeap setQueues]. rewrite Hl. destruct (coalesceQueuedEntries _ _) as [[w e]|].
    + etrans; [|apply frame_setGate]. etrans; [apply frame_updLane|]. etrans; [by apply (frame_updTask t (setEntry e))|].
      etrans; [apply frame_setWorld|]. eapply frame_phase; [simpl; by rewrite list_lookup_alter_eq, Ht|]. simpl. by rewrite Hp.
    + eapply frame_phase; [done|]. by rewrite Hp.
Qed.

Lemma frame_gateStart now s s' : CInv (core s) → gateStart now s = Some s' → Frame s s'.
Proof.
  intros HI ((t & gate') & Hst & (task & Ht & (e & He & Hs)%bind_Some)%bind_Some)%bind_Some. injection Hs as <-.
  assert (tPhase task ≠ Gone) as Hp.
  { destruct (viewOf_start t _ gate' Hst) as [_ [Hh _]]. destruct (qi_gate _ (ci_queues _ HI)) as [HT _].
    assert (t ∈ vWaiting (cGate (core s))) as Hin by (simpl in *; destruct (pqWaiting (globalGate s)); [done|]; injection Hh as ->; left).
    apply (tr_waiting _ _ HT) in Hin. unfold gateSlotAt in Hin. rewrite (core_task s t task Ht) in Hin. simpl in Hin. by intros Hg; rewrite Hg in Hin. }
  etrans; [|apply frame_setWorld]. etrans; [|apply frame_updLane]. etrans; [apply frame_setGate|]. apply frame_updTask.
  intros x. split_and!; try done. intros _ Hx. simpl in Hx. congruence.
Qed.

Lemma kinds_handlerEnd f t ok now s s' : Kinds config f s → handlerEnd t ok now s = Some s' → Kinds config f s'.
Proof.
  intros HK (task & Ht & (e & He & Hs)%bind_Some)%bind_Some. case_bool_decide as Hp; [|done]. simpl in Hs. injection Hs as <-.
  set (fl := match tBody task with SteerAgain => false | RunEntry _ => negb ok end).
  assert (Kinds config f (updLane (tLane task) (endExecution t e now) (updTask t (setPhase GateLeaving ∘ setFailed fl) s))) as HK1.
  { eapply kinds_frame; [exact HK|]. etrans; [|apply frame_updLane]. apply frame_updTask. intros x. split_and!; try done.
    intros _ Hx. rewrite Ht in Hx. injection Hx as <-. by rewrite Hp. }
  pose proof (k_task _ f s HK t task Ht) as Hb. destruct (tBody task) as [[]|]; try done.
  apply kinds_processCollected; [done|]. by destruct (f (tLane task)); naive_solver.
Qed.

Lemma frame_gateLeave t s s' : gateLeave t s = Some s' → Frame s s'.
Proof.
  intros (task & Ht & Hs)%bind_Some. case_bool_decide as Hp; [|done]. simpl in Hs. injection Hs as <-.
  etrans; [|apply frame_setGate]. eapply frame_phase; [done|by rewrite Hp].
Qed.

Lemma frame_laneLeave t s s' : laneLeave t s = Some s' → Frame s s'.
Proof.
  intros (task & Ht & Hs)%bind_Some. case_bool_decide as Hp; [|done]. simpl in Hs. injection Hs as <-.
  etrans; [|apply frame_onLaneQueue]. eapply frame_phase; [done|by rewrite Hp].
Qed.

Lemma frame_settle t now s s' : settle t now s = Some s' → Frame s s'.
Proof.
  intros (task & Ht & Hs)%bind_Some. case_bool_decide as Hp; [|done]. simpl in Hs. injection Hs as <-.
  transitivity (setScheduled (without t) (updTask t (setPhase Gone) s)).
  - split; simpl; eauto 10. intros u task' (task0 & Hu & ->)%alter_Some. exists task0. case_decide as E; [done|].
    split_and!; try done. intros Hg. split; [done|]. intros Hin. apply elem_of_without. auto.
  - destruct (tEntry task), (tObserved task && tFailed task); try done. apply frame_setWorld.
Qed.

Lemma kinds_debounce f key now s s' : Kinds config f s → debounce key now s = Some s' → Kinds config f s'.
Proof.
  intros HK (l & Hl & (lane & Hlane & Hs)%bind_Some)%bind_Some. injection Hs as <-. apply mget_elem_of in Hl.
  destruct (k_timer _ f s HK key l Hl) as [Hf _].
  assert (Kinds config f (setTimers (fun ts => mdel ts key) s)) as HK1.
  { eapply kinds_frame; [exact HK|]. apply frame_setTimers. by intros p [? _]%elem_of_mdel_inv. }
  destruct (isExecuting lane); [done|]. by apply kinds_processCollected.
Qed.

Lemma frame_sweep now s : Frame s (sweep config now s).
Proof. apply frame_setLanes. by intros p [_ ?]%list_elem_of_filter. Qed.

Lemma frame_touch base now s : Frame s (touchLane base now s).
Proof. split; simpl; eauto 10. apply length_imap. Qed.

(** ** Enqueueing *)

Lemma kinds_dispatch f c key l e o now s :
  Kinds config f s → f l = mode c → (l < length (laneHeap s))%nat → Kinds config f (dispatch c key l e o now s).
Proof.
  intros HK Hf Hl. unfold dispatch. destruct (mode c) eqn:Em.
  - apply kinds_schedule; [done|]. by rewrite Hf.
  - destruct (default false _); [|apply kinds_schedule; [done|by rewrite Hf]].
    assert (Kinds config f (accumulate l e (overflow c) now s)) as HK1 by (eapply kinds_frame; [done|apply frame_accumulate]).
    destruct (0 <? debounceMs c)%Z; [|done]. destruct HK1 as [H1 H2 H3 H4 H5]. split; simpl; try done.
    intros key' l' [[= -> ->]|Hin]%elem_of_mset_inv; [|by eauto]. split; [done|].
    by rewrite (fr_heap _ _ (frame_accumulate l e (overflow c) now s)).
  - destruct (default false _); [|apply kinds_schedule; [done|rewrite Hf; by left]].
    apply kinds_schedule; [|rewrite Hf; by right]. eapply kinds_frame; [exact HK|].
    etrans; [apply frame_accumulate|]. etrans; [apply frame_abortExecution|]. apply frame_setTimers. by intros p [? _]%elem_of_mdel_inv.
  - apply kinds_schedule; [done|]. by rewrite Hf.
Qed.

Lemma getOrCreate_same key base now s s1 l :
  getOrCreateLane key base now s = (s1, l) → scheduledTasks s1 = scheduledTasks s ∧ shutdownWait s1 = shutdownWait s.
Proof.
  unfold getOrCreateLane. destruct (mget (lanes s) key); [by intros [= <- <-]|].
  destruct (sessionQueue base s); by intros [= <- <-].
Qed.

Lemma kinds_enqueue f r now s :
  CInv (core s) → Kinds config f s → ∃ f', Kinds config f' (enqueueMessage config r now s).1.
Proof.
  intros HI HK. destruct (isShutdown s) eqn:Hd; [exists f; unfold enqueueMessage; by rewrite Hd|].
  destruct (createQueueLaneIdentity (rSessionKey r) (rChannelType r) (rContext r)) as [base key] eqn:Eid.
  destruct (getOrCreateLane key base now s) as [s1 l] eqn:Eg. destruct (newEntry r now (world s1)) as [w e] eqn:En.
  destruct (enqueue_unfold config r now s base key s1 l w e Hd Eid Eg En) as [ev ->].
  destruct (getOrCreate_refines key base now s s1 l HI Hd Eg) as (_ & Hk & Hd1 & Ets & _ & Etm & [lane Hl] & Hcase).
  assert (key = (createQueueLaneIdentity (rSessionKey r) (rChannelType r) (rContext r)).2) as Ek by by rewrite Eid.
  assert (∃ f', Kinds config f' s1 ∧ f' l = modeFor config (rChannelType r)) as (f' & HK' & Hf').
  { destruct (getOrCreate_same key base now s s1 l Eg) as [Esc Esw]. pose proof HK as [H1 H2 H3 H4 H5].
    destruct Hcase as [(Hk0 & El & Eh)|(-> & El & Hn & Eh & _)].
    - exists f. split; [split; rewrite ?Ets, ?Etm, ?El, ?Eh, ?Esc, ?Esw, ?Hd1; try done; by rewrite <- Hd|].
      destruct (H1 key l Hk0) as (k & ct & c & Ek' & ->). rewrite Ek in Ek'. by apply laneKey_inj in Ek' as (_ & -> & _).
    - exists (fun i => if decide (i = length (laneHeap s)) then modeFor config (rChannelType r) else f i).
      split; [|by rewrite decide_True]. split; rewrite ?Ets, ?Etm, ?El, ?Eh, ?Esc, ?Esw, ?Hd1; try (by rewrite <- Hd).
      + intros key' l'. rewrite mset_notin by done. intros [Hin|[= -> ->]%list_elem_of_singleton]%elem_of_app.
        * rewrite decide_False; [by apply H1|]. intros ->. destruct (li_heap _ (ci_lanes _ HI) (length (laneHeap s))) as [L HL]; [by exists key'|].
          apply lookup_lt_Some in HL. simpl in HL. rewrite length_fmap in HL. lia.
        * rewrite decide_True by done. rewrite Ek. eauto.
      + intros t task Ht. rewrite decide_False; [by apply (H2 t)|]. intros E.
        destruct (task_lane s t task (ci_queues _ HI) Ht) as (lane' & v & Hl' & _). apply lookup_lt_Some in Hl'. lia.
      + intros key' l' Hin. destruct (H3 key' l' Hin). rewrite decide_False by lia. split; [done|lia].
      + done. }
  exists f'. apply kinds_dispatch; [|done|simpl; rewrite length_alter; by eapply lookup_lt_Some].
  eapply kinds_frame; [exact HK'|]. etrans; [apply frame_updLane|apply frame_setWorld].
Qed.

(** ** Reachable states *)

Lemma exec_kinds f o s s' : CInv (core s) → Kinds config f s → exec config o s = Some s' → ∃ f', Kinds config f' s'.
Proof.
  intros HI HK Hs. destruct o; simpl in Hs; [exists f|exists f| |exists f..].
  - injection Hs as <-. eapply kinds_frame; [done|]. etrans; [apply frame_setWorld|apply frame_setScopes].
  - case_bool_decide; [|done]. injection Hs as <-. eapply kinds_frame; [done|apply frame_setWorld].
  - destruct (match rScope r with Some _ => _ | None => _ end); [|done]. injection Hs as <-. by eapply kinds_enqueue.
  - by eapply kinds_laneStart.
  - eapply kinds_frame; [done|by eapply frame_gateStart].
  - by eapply kinds_handlerEnd.
  - eapply kinds_frame; [done|by eapply frame_gateLeave].
  - eapply kinds_frame; [done|by eapply frame_laneLeave].
  - eapply kinds_frame; [done|by eapply frame_settle].
  - by eapply kinds_debounce.
  - destruct (isShutdown s); [done|]. injection Hs as <-. eapply kinds_frame; [done|apply frame_sweep].
  - injection Hs as <-. eapply kinds_frame; [done|apply frame_touch].
  - injection Hs as <-. eapply kinds_frame; [done|apply frame_performShutdown].
  - eapply kinds_frame; [done|by eapply frame_finishShutdown].
Qed.

(** The states an execution passes through. *)
Definition Good s : Prop := CInv (core s) ∧ (∃ f, Kinds config f s).

Lemma good_initial w : Good (createCommandQueue config w).
Proof.
  split.
  - replace (core (createCommandQueue config w)) with (initial (maxConcurrentSessions config)); [apply cinv_initial|].
    unfold initial, core, createCommandQueue. simpl. by rewrite viewOf_new.
  - exists (fun _ => Followup). split; simpl; try done; try (intros ? ? Hx; by apply not_elem_of_nil in Hx).
Qed.

Lemma good_exec o s s' : Good s → exec config o s = Some s' → Good s'.
Proof.
  intros [HI [f HK]] Hs. split; [|by eapply exec_kinds]. eapply cinv_steps; [by eapply exec_refines|done].
Qed.

(** Induction over an execution, with the invariants at hand. *)
Lemma run_ind (P : State Q → Prop) :
  (∀ o s s', Good s → P s → exec config o s = Some s' → P s') →
  ∀ ops s s', Good s → P s → run config ops s = Some s' → Good s' ∧ P s'.
Proof.
  intros HP ops. induction ops as [|o ops IH]; intros s s' HG Hs; simpl.
  - by intros [= <-].
  - intros (s1 & H1 & H2)%bind_Some. apply (IH s1); [by eapply good_exec|by eapply HP|done].
Qed.

Lemma reachable_ind (P : State Q → Prop) :
  P (createCommandQueue config emptyWorld) → (∀ o s s', Good s → P s → exec config o s = Some s' → P s') →
  ∀ s, reachable config s → Good s ∧ P s.
Proof. intros H0' HP s [ops Hr]. eapply run_ind; [exact HP|apply good_initial|exact H0'|exact Hr]. Qed.

Lemma reachable_good s : reachable config s → Good s.
Proof. intros Hr. by apply (reachable_ind (fun _ => True)) in Hr as [? _]. Qed.

End Preserved.

End CommandQueueInvariants.
