(* ===== verification/CommandQueueTheorems.v ===== *)
(** * The command queue: exclusion and progress

  In every reachable state at most one handler runs per session and at most
  [maxConcurrentSessions] in all; the queue never gets stuck with work to do and,
  without new messages, runs dry within a bounded number of steps. *)

From S2P Require Import Prelude CanonicalJson SessionKeys SourceTerminal QueueEntries CommandQueue CommandQueueDemo QueueCore CommandQueueRefines CommandQueueInvariants.
Import QueueEntries CommandQueue CommandQueueDemo QueueCore CommandQueueRefines CommandQueueInvariants.

Open Scope list_scope.

Module CommandQueueTheorems.

(** ** Executing tasks *)

Definition executing {Q} (s : State Q) : list nat :=
  filter (fun t => (tPhase <$> tasks s !! t) = Some Executing) (seq 0 (length (tasks s))).

(** The session of a task. *)
Definition sessionOf {Q} (s : State Q) (t : nat) : option string :=
  task ← tasks s !! t; baseSessionKey <$> laneHeap s !! tLane task.

Definition executingFor {Q} (base : string) (s : State Q) : list nat :=
  filter (fun t => sessionOf s t = Some base) (executing s).

Section Theorems.
Context {Q : Type} `{PQueueLaws Q}.
Context (config : QueueConfig).

Implicit Types s : State Q.

Lemma elem_of_executing t s : t ∈ executing s ↔ ∃ task, tasks s !! t = Some task ∧ tPhase task = Executing.
Proof.
  unfold executing. rewrite list_elem_of_filter, elem_of_seq. destruct (tasks s !! t) as [task|] eqn:Ht; simpl; [|naive_solver].
  apply lookup_lt_Some in Ht. split; [intros [[= E] _]; eauto|]. intros (task' & [= ->] & ->). split; [done|lia].
Qed.

Lemma executing_nodup s : NoDup (executing s).
Proof. apply NoDup_filter, NoDup_seq. Qed.

Lemma reachable_gate s : reachable config s → pqConcurrency (globalGate s) = maxConcurrentSessions config.
Proof.
  intros Hr. apply (reachable_ind config (fun s => pqConcurrency (globalGate s) = maxConcurrentSessions config)) in Hr as [_ ?]; [done|..].
  - simpl. pose proof (viewOf_new (maxConcurrentSessions config)) as E. by injection E.
  - intros o s1 s2 [HI [f HK]] E Hs. rewrite <- E. apply (gate_concurrency (core s1) (core s2)). by eapply exec_refines.
Qed.

(** C20: at most one handler runs for a session at a time, whichever principals and
    channels its messages come from, and at most [maxConcurrentSessions] handlers
    run in all, in every reachable state. *)
Theorem session_executes_alone s (Hs : reachable config s) :
  (∀ base, length (executingFor base s) ≤ 1)%nat ∧ (length (executing s) ≤ maxConcurrentSessions config)%nat.
Proof.
  pose proof (reachable_good config s Hs) as [HI _]. split.
  - intros base. assert (NoDup (executingFor base s)) as Hnd by apply NoDup_filter, executing_nodup.
    assert (∀ t, t ∈ executingFor base s → ∃ task lane, tasks s !! t = Some task ∧ tPhase task = Executing ∧
      laneHeap s !! tLane task = Some lane ∧ baseSessionKey lane = base) as Hin.
    { intros t [Hb (task & Ht & Hp)%elem_of_executing]%list_elem_of_filter. unfold sessionOf in Hb. rewrite Ht in Hb. simpl in Hb.
      destruct (laneHeap s !! tLane task) as [lane|] eqn:Hl; [|done]. exists task, lane. naive_solver. }
    destruct (executingFor base s) as [|t [|t' r]]; simpl; [lia..|exfalso].
    apply NoDup_cons in Hnd as [Hn _]. destruct (Hin t ltac:(left)) as (task & lane & Ht & Hp & Hl & Eb).
    destruct (Hin t' ltac:(right; left)) as (task' & lane' & Ht' & Hp' & Hl' & Eb').
    apply Hn. rewrite (exec_alone (core s) t t' (workShape task) (workShape task') (laneShape lane) (laneShape lane'));
      auto using core_task, core_lane; [left|simpl; congruence].
  - rewrite <- (reachable_gate s Hs). apply (exec_bound (core s) (executing s) HI (executing_nodup s)).
    intros t (task & Ht & Hp)%elem_of_executing. exists (workShape task). auto using core_task.
Qed.

(** ** Queues are paused only by shutdown *)

Definition Unpaused s : Prop := pqPaused (globalGate s) = false ∧ ∀ q v, queues s !! q = Some v → pqPaused v = false.

Lemma view_paused (q q' : Q) v : viewOf q' = v → vPaused v = pqPaused q → pqPaused q' = pqPaused q.
Proof. intros <- E. done. Qed.

Lemma unpaused_queue g l s : (∀ q, pqPaused (g q) = pqPaused q) → Unpaused s → Unpaused (onLaneQueue l g s).
Proof.
  intros Hg [H1 H2]. unfold onLaneQueue. destruct (laneQueue l s) as [q|]; [|done]. split; [done|].
  intros i v (v0 & Hv0 & ->)%alter_Some. case_decide; [rewrite Hg|]; eauto.
Qed.

Lemma unpaused_gate g s : (∀ q, pqPaused (g q) = pqPaused q) → Unpaused s → Unpaused (setGate g s).
Proof. intros Hg [H1 H2]. split; [|done]. simpl. by rewrite Hg. Qed.

Lemma paused_add t (q : Q) : pqPaused (pqAdd t q) = pqPaused q.
Proof. by apply (view_paused q _ _ (viewOf_add t q)). Qed.

Lemma paused_done t (q : Q) : pqPaused (pqDone t q) = pqPaused q.
Proof. by apply (view_paused q _ _ (viewOf_done t q)). Qed.

Lemma paused_start t (q q' : Q) : pqStart q = Some (t, q') → pqPaused q' = pqPaused q.
Proof. intros [E _]%viewOf_start. by apply (view_paused q _ _ E). Qed.

Lemma unpaused_schedule l b e o s : Unpaused s → Unpaused (scheduleLaneTask l b e o s).
Proof. intros Hs. apply unpaused_queue; [intros; apply paused_add|]. done. Qed.

Lemma unpaused_process l now s : Unpaused s → Unpaused (processCollectedMessages l now s).
Proof.
  intros Hs. unfold processCollectedMessages. destruct (laneHeap s !! l); [|done]. destruct (bool_decide _); [done|].
  destruct (isShutdown s); [done|]. destruct (coalesceQueuedEntries _ _) as [[w e]|]; [|done]. by apply unpaused_schedule.
Qed.

Lemma unpaused_same s s' : globalGate s' = globalGate s → queues s' = queues s → Unpaused s → Unpaused s'.
Proof. unfold Unpaused. by intros -> ->. Qed.

Lemma unpaused_getOrCreate key base now s : Unpaused s → Unpaused (getOrCreateLane key base now s).1.
Proof.
  intros [H1 H2]. unfold getOrCreateLane. destruct (mget (lanes s) key); [done|]. destruct (sessionQueue base s); [done|].
  split; [done|]. intros i v [Hv|[-> ->]]%snoc_Some; [eauto|]. pose proof (viewOf_new 1) as E. by injection E.
Qed.

Lemma accumulate_same l e c now s : globalGate (accumulate l e c now s) = globalGate s ∧ queues (accumulate l e c now s) = queues s.
Proof. unfold accumulate. by destruct (laneHeap s !! l). Qed.

Lemma abortExecution_same l s : globalGate (abortExecution l s) = globalGate s ∧ queues (abortExecution l s) = queues s.
Proof. unfold abortExecution. by destruct (_ ≫= _). Qed.

Lemma unpaused_dispatch c key l e o now s : Unpaused s → Unpaused (dispatch c key l e o now s).
Proof.
  intros Hs. unfold dispatch. destruct (accumulate_same l e (overflow c) now s) as [E1 E2].
  assert (Unpaused (accumulate l e (overflow c) now s)) as Ha by by eapply unpaused_same.
  destruct (mode c); try by apply unpaused_schedule.
  - destruct (default false _); [|by apply unpaused_schedule]. by destruct (0 <? debounceMs c)%Z.
  - destruct (default false _); apply unpaused_schedule; [|done].
    destruct (abortExecution_same l (accumulate l e (overflow c) now s)). by eapply (unpaused_same (accumulate l e (overflow c) now s)).
Qed.

Lemma unpaused_runLaneTask t now s : Unpaused s → Unpaused (runLaneTask t now s).
Proof.
  intros Hs. unfold runLaneTask. destruct (tasks s !! t) as [task|]; [|done].
  destruct (tBody task); [apply unpaused_gate; [intros; apply paused_add|done]|].
  destruct (laneHeap s !! tLane task); [|done]. destruct (coalesceQueuedEntries _ _) as [[w e]|]; [|done].
  apply unpaused_gate; [intros; apply paused_add|done].
Qed.

Lemma unpaused_exec o s s' : exec config o s = Some s' → isShutdown s' = false → Unpaused s → Unpaused s'.
Proof.
  intros Hs Hd Hu. destruct o; simpl in Hs.
  - by injection Hs as <-.
  - case_bool_decide; [|done]. by injection Hs as <-.
  - destruct (match rScope r with Some _ => _ | None => _ end); [|done]. injection Hs as <-. unfold enqueueMessage.
    destruct (isShutdown s); [done|]. destruct (createQueueLaneIdentity _ _ _) as [base key].
    pose proof (unpaused_getOrCreate key base now s Hu) as Hg. destruct (getOrCreateLane key base now s) as [s1 l]. simpl in Hg.
    destruct (newEntry _ _ _) as [w e]. by apply unpaused_dispatch.
  - apply bind_Some in Hs as (pq & Hq & ((t & pq') & Hst & Hs)%bind_Some). injection Hs as <-. apply unpaused_runLaneTask.
    destruct Hu as [H1 H2]. split; [done|]. intros i v Hv. simpl in Hv. apply list_lookup_insert_Some in Hv as [(-> & <- & _)|[_ Hv]]; [|eauto].
    rewrite (paused_start t pq pq' Hst). eauto.
  - apply bind_Some in Hs as ((t & g) & Hst & (task & Ht & (e & He & Hs)%bind_Some)%bind_Some). injection Hs as <-.
    destruct Hu as [H1 H2]. split; [|done]. simpl. by rewrite (paused_start t _ g Hst).
  - apply bind_Some in Hs as (task & Ht & (e & He & Hs)%bind_Some). destruct (negb _); [done|]. injection Hs as <-.
    destruct (tBody task) as [[]|]; [|done..]. by apply unpaused_process.
  - apply bind_Some in Hs as (task & Ht & Hs). destruct (negb _); [done|]. injection Hs as <-.
    apply unpaused_gate; [intros; apply paused_done|done].
  - apply bind_Some in Hs as (task & Ht & Hs). destruct (negb _); [done|]. injection Hs as <-.
    apply unpaused_queue; [intros; apply paused_done|done].
  - apply bind_Some in Hs as (task & Ht & Hs). destruct (negb _); [done|]. injection Hs as <-.
    by destruct (tEntry task), (tObserved task && tFailed task).
  - apply bind_Some in Hs as (l & Hl & (lane & Hlane & Hs)%bind_Some). injection Hs as <-.
    destruct (isExecuting lane); [done|]. by apply unpaused_process.
  - destruct (isShutdown s); [done|]. by injection Hs as <-.
  - by injection Hs as <-.
  - injection Hs as <-. unfold performShutdown in *. by destruct (isShutdown s).
  - apply bind_Some in Hs as (ts & Hts & Hs). destruct (negb _); [done|]. by injection Hs as <-.
Qed.

Lemma reachable_unpaused s : reachable config s → isShutdown s = false → Unpaused s.
Proof.
  intros Hr. apply (reachable_ind config (fun s => isShutdown s = false → Unpaused s)) in Hr as [_ ?]; [done|..].
  - intros _. split; [|done]. simpl. pose proof (viewOf_new (maxConcurrentSessions config)) as E. by injection E.
  - intros o s1 s2 [HI [f HK]] HP Hs Hd. eapply unpaused_exec; [done|done|]. apply HP.
    apply (down_mono (core s1) (core s2)); [by eapply exec_refines|done].
Qed.

(** ** Running dry *)

(** The moves the queue makes on its own, and the end of a handler. *)
Definition internal (o : Op) : bool :=
  match o with
  | OpLaneStart _ _ | OpGateStart _ | OpHandlerEnd _ _ _ | OpGateLeave _ | OpLaneLeave _ | OpSettle _ _ => true
  | _ => false
  end.

Lemma internal_decreases o s s' : Good config s → internal o = true → exec config o s = Some s' →
  (workLeft (core s') < workLeft (core s))%nat.
Proof.
  intros [HI _] Ho Hs. destruct o; try done; simpl in Hs.
  - by eapply cmove_workLeft, laneStart_move.
  - by eapply cmove_workLeft, gateStart_move.
  - destruct (handlerEnd_move t succeeds now s s' HI Hs) as [Hm|(task & lane & Ht & Hl & Hp & Hb & Hne & _ & _ & Ec)]; [by apply cmove_workLeft|].
    rewrite Ec, addTask_workLeft.
    destruct (move_workLeft t (workShape task) (laneShape lane) GateLeaving (core s)) as [Hw _];
      auto using core_task, core_lane; [simpl; by rewrite Hp|].
    revert Hw. change (wPhase (workShape task)) with (tPhase task). change (wBody (workShape task)) with (tBody task).
    rewrite Hp, Hb. unfold pendingRank. rewrite (proj2 (pending_shape lane) Hne). simpl. lia.
  - by eapply cmove_workLeft, gateLeave_move; [apply HI|].
  - by eapply cmove_workLeft, laneLeave_move; [apply HI|].
  - by eapply cmove_workLeft, settle_move; [apply HI|].
Qed.

Lemma internal_bounded ops s s' :
  Good config s → Forall (fun o => internal o = true) ops → run config ops s = Some s' → (length ops + workLeft (core s') ≤ workLeft (core s))%nat.
Proof.
  revert s. induction ops as [|o ops IH]; intros s HG Hops Hr; simpl in *; [injection Hr as <-; lia|].
  apply bind_Some in Hr as (s1 & H1 & H2). apply Forall_cons in Hops as [Ho Hops].
  pose proof (internal_decreases o s s1 HG Ho H1). specialize (IH s1 (good_exec config o s s1 HG H1) Hops H2). lia.
Qed.

(** Some internal move is enabled while a task is not gone. *)
Lemma internal_enabled s t task :
  Good config s → Unpaused s → (1 ≤ pqConcurrency (globalGate s))%nat → tasks s !! t = Some task → tPhase task ≠ Gone →
  ∃ o, internal o = true ∧ is_Some (exec config o s).
Proof.
  intros [HI _] [Hg Hq] Hc Ht Hp.
  destruct (progress (core s) t (workShape task) HI (core_task s t task Ht) Hp Hc) as [(u & wu & Hu & Hor)|[[Hw Hr]|(q & v & Hv & Hw & Hr)]].
  - simpl in Hu. rewrite list_lookup_fmap in Hu. apply fmap_Some in Hu as (tu & Hu & ->). simpl in Hor. destruct Hor as [E|[E|[E|E]]].
    + exists (OpHandlerEnd u true 0). split; [done|]. simpl. unfold handlerEnd. rewrite Hu. simpl.
      pose proof (ei_entry _ (ci_exec _ HI) u _ (core_task s u tu Hu)) as He. simpl in He. rewrite E in He.
      destruct (tEntry tu) as [e|]; [|discriminate He; by left]. simpl. rewrite E. simpl. eauto.
    + exists (OpGateLeave u). split; [done|]. simpl. unfold gateLeave. rewrite Hu. simpl. rewrite E. simpl. eauto.
    + exists (OpLaneLeave u). split; [done|]. simpl. unfold laneLeave. rewrite Hu. simpl. rewrite E. simpl. eauto.
    + exists (OpSettle u 0). split; [done|]. simpl. unfold settle. rewrite Hu. simpl. rewrite E. simpl. eauto.
  - destruct (law_starts (globalGate s) Hg Hr Hw) as [[u g'] Hst]. exists (OpGateStart 0). split; [done|]. simpl. unfold gateStart.
    rewrite Hst. simpl. destruct (viewOf_start u _ g' Hst) as [_ [Hh _]]. destruct (qi_gate _ (ci_queues _ HI)) as [HT _].
    assert (u ∈ vWaiting (cGate (core s))) as Hin by (simpl in *; destruct (pqWaiting (globalGate s)); [done|]; injection Hh as ->; left).
    apply (tr_waiting _ _ HT) in Hin. unfold gateSlotAt in Hin. simpl in Hin. rewrite list_lookup_fmap in Hin.
    destruct (tasks s !! u) as [tu|] eqn:Hu; [|done]. simpl in *.
    pose proof (ei_entry _ (ci_exec _ HI) u _ (core_task s u tu Hu)) as He. simpl in He. rewrite Hin in He.
    destruct (tEntry tu) as [e|]; [simpl; eauto|discriminate He; by left].
  - simpl in Hv. rewrite list_lookup_fmap in Hv. apply fmap_Some in Hv as (pq & Hpq & ->). simpl in *.
    destruct (law_starts pq (Hq q pq Hpq) Hr Hw) as [[u pq'] Hst]. exists (OpLaneStart q 0). split; [done|]. simpl. unfold laneStart.
    rewrite Hpq. simpl. rewrite Hst. simpl. eauto.
Qed.

(** C23: without new messages the queue runs dry.  Every sequence of internal moves
    (starts, handler ends, freed slots, continuations) is bounded by the work
    left; and as long as the queue is not shut down and the gate admits anyone, a
    state in which no internal move is possible has only finished tasks and no
    pending message: nothing accepted is left behind. *)
Theorem queue_runs_dry s (Hs : reachable config s) (Hd : isShutdown s = false) (Hc : (1 ≤ maxConcurrentSessions config)%nat) :
  (∀ ops s', Forall (fun o => internal o = true) ops → run config ops s = Some s' → (length ops ≤ workLeft (core s))%nat) ∧
  ((∀ o, internal o = true → exec config o s = None) →
   (∀ t task, tasks s !! t = Some task → tPhase task = Gone) ∧
   (∀ l lane, laneHeap s !! l = Some lane → pendingEntries lane = [])).
Proof.
  pose proof (reachable_good config s Hs) as HG. split.
  - intros ops s' Hops Hr. pose proof (internal_bounded ops s s' HG Hops Hr). lia.
  - intros Hstuck. assert (∀ t task, tasks s !! t = Some task → tPhase task = Gone) as Hgone.
    { intros t task Ht. destruct (decide (tPhase task = Gone)) as [|Hp]; [done|].
      destruct (internal_enabled s t task HG (reachable_unpaused s Hs Hd)) as (o & Ho & [s' Hx]); [by rewrite (reachable_gate s Hs)|done..|].
      rewrite (Hstuck o Ho) in Hx. done. }
    split; [done|]. intros l lane Hl. destruct (pendingEntries lane) as [|e es] eqn:Hp; [done|].
    destruct HG as [HI _]. destruct (ei_carried _ (ci_exec _ HI) l _ (core_lane s l lane Hl)) as (t & w & Hw & _ & Hor);
      [apply pending_shape; by rewrite Hp|].
    simpl in Hw. rewrite list_lookup_fmap in Hw. apply fmap_Some in Hw as (task & Ht & ->). simpl in Hor.
    rewrite (Hgone t task Ht) in Hor. naive_solver.
Qed.

(** C24: the queue refines its scheduling core.  Every operation of the detailed queue,
    in a reachable state, is a sequence of moves of the abstract machine, which knows
    only slots, phases and flags; in particular its invariants hold of the queue. *)
Theorem queue_refines_core s o s' (Hs : reachable config s) (He : exec config o s = Some s') :
  rtc cstep (core s) (core s') ∧ CInv (core s').
Proof.
  pose proof (reachable_good config s Hs) as HG. pose proof HG as [HI [f HK]].
  split; [by eapply exec_refines|]. apply (good_exec config o s s' HG He).
Qed.

End Theorems.

(** The handler of Ana's first message ends: its lane is idle again and the pending
    message gets a task. *)
Lemma queue_refines_core_witness :
  let s := stateAfter Collect busyOps in
  ∃ s', exec (demoConfig Collect) (OpHandlerEnd 0 true 4) s = Some s' ∧ length (cTasks (core s')) = 3 ∧
  rtc cstep (core s) (core s') ∧ CInv (core s').
Proof.
  intros s. destruct (exec (demoConfig Collect) (OpHandlerEnd 0 true 4) s) as [s'|] eqn:He; [|by vm_compute in He].
  exists s'. split; [done|]. split; [revert He; vm_compute; by intros [= <-]|].
  apply (queue_refines_core (demoConfig Collect) s (OpHandlerEnd 0 true 4)); [apply reachable_after; vm_compute; eauto|exact He].
Defined.

(** One handler runs, for Ana; Ben's message waits. *)
Lemma session_executes_alone_witness :
  let s := stateAfter Steer busyOps in
  length (tasks s) = 3 ∧ executing s = [0] ∧
  (∀ base, length (executingFor base s) ≤ 1)%nat ∧ (length (executing s) ≤ 1)%nat.
Proof.
  split; [by vm_compute|]. split; [by vm_compute|].
  apply (session_executes_alone (demoConfig Steer)). apply reachable_after. vm_compute. eauto.
Defined.

(** The state has work left, and every way of doing it ends. *)
Lemma queue_runs_dry_witness :
  let s := stateAfter Collect busyOps in
  workLeft (core s) ≠ 0 ∧
  (∀ ops s', Forall (fun o => internal o = true) ops → run (demoConfig Collect) ops s = Some s' → (length ops ≤ workLeft (core s))%nat) ∧
  ((∀ o, internal o = true → exec (demoConfig Collect) o s = None) →
   (∀ t task, tasks s !! t = Some task → tPhase task = Gone) ∧
   (∀ l lane, laneHeap s !! l = Some lane → pendingEntries lane = [])).
Proof.
  split; [by vm_compute|].
  apply (queue_runs_dry (demoConfig Collect)); [apply reachable_after; vm_compute; eauto|by vm_compute|simpl; lia].
Defined.

End CommandQueueTheorems.
