(* ===== verification/CommandQueueAccounting.v ===== *)
(** * The command queue: depth and overflow

  The logical depth of a lane counts exactly the accepted messages that are
  pending, waiting or being handled; the pending list stays within the configured
  bound. *)

From S2P Require Import Prelude CanonicalJson SessionKeys SourceTerminal QueueEntries CommandQueue CommandQueueDemo QueueCore CommandQueueRefines CommandQueueInvariants.
Import QueueEntries CommandQueue CommandQueueDemo QueueCore CommandQueueRefines CommandQueueInvariants.

Open Scope list_scope.

Module CommandQueueAccounting.

(** ** Overflow *)

Lemma count_ones es : Forall (fun e => logicalCount e = 1) es → countOf es = Z.of_nat (length es).
Proof. intros He. unfold countOf. f_equal. induction He as [|e es E _ IH]; [done|]. rewrite fmap_cons. simpl. by rewrite E, IH. Qed.

(** What is kept and what is dropped add up; the kept entries fit. *)
Lemma overflow_spec es c k ct now w w' kept dropped :
  Forall (fun e => logicalCount e = 1) es →
  applyOverflowPolicyToQueueEntries es c k ct now w = (w', (kept, dropped)) →
  Forall (fun e => logicalCount e = 1) kept ∧ (length kept + dropped = length es)%nat ∧
  ((1 ≤ maxDepth c)%nat → (length kept ≤ Nat.max (maxDepth c) (length es - 1))%nat).
Proof.
  intros He. unfold applyOverflowPolicyToQueueEntries, applyOverflowPolicyToItems.
  destruct (Nat.leb_spec (length es) (maxDepth c)) as [Hle|Hlt]; [intros [= <- <- <-]; split_and!; [done|lia|lia]|].
  assert (∃ lastItem, last es = Some lastItem) as [e0 He0].
  { destruct (last es) eqn:E; [eauto|]. apply last_None in E. subst. simpl in Hlt. lia. }
  destruct (policy c).
  - intros [= <- <- <-]. rewrite length_drop. split_and!; [by apply Forall_drop|lia|lia].
  - intros [= <- <- <-]. rewrite length_take. split_and!; [by apply Forall_take|lia|lia].
  - rewrite He0. intros [= <- <- <-]. simpl. split_and!; [by constructor|lia|lia].
Qed.

(** ** Depth *)

(** A task holds its messages until its handler has ended. *)
Definition inFlight (p : Phase) : bool := match p with LaneWaiting | GateWaiting | Executing => true | _ => false end.

Definition entryCount (o : option Entry) : nat := match o with Some e => logicalCount e | None => 0 end.

Definition taskCount (l : nat) (task : Task) : nat :=
  if decide (tLane task = l) then if inFlight (tPhase task) then entryCount (tEntry task) else 0 else 0.

(** The messages held by the tasks of a lane. *)
Definition heldBy (ts : list Task) (l : nat) : Z := Z.of_nat (sum_list (taskCount l <$> ts)).

Record Depths (M : nat) (lh : list SessionLane) (ts : list Task) : Prop := {
  dp_ones l lane : lh !! l = Some lane → Forall (fun e => logicalCount e = 1) (pendingEntries lane);
  dp_bound l lane : lh !! l = Some lane → (length (pendingEntries lane) ≤ M)%nat;
  dp_depth l lane : lh !! l = Some lane → logicalDepth lane = (countOf (pendingEntries lane) + heldBy ts l)%Z;
}.

Lemma heldBy_app ts task l : heldBy (ts ++ [task]) l = (heldBy ts l + Z.of_nat (taskCount l task))%Z.
Proof. unfold heldBy. rewrite fmap_app, sum_app. simpl. lia. Qed.

Lemma heldBy_alter ts t g task l : ts !! t = Some task →
  heldBy (alter g t ts) l = (heldBy ts l - Z.of_nat (taskCount l task) + Z.of_nat (taskCount l (g task)))%Z.
Proof. intros Ht. unfold heldBy. pose proof (sum_alter (taskCount l) g t ts task Ht). lia. Qed.

Lemma heldBy_nonneg ts l : (0 ≤ heldBy ts l)%Z.
Proof. unfold heldBy. lia. Qed.

Lemma heldBy_zero ts l : (∀ x, x ∈ ts → tLane x ≠ l) → heldBy ts l = 0%Z.
Proof.
  intros Hz. unfold heldBy. induction ts as [|x ts IH]; [done|]. rewrite fmap_cons. simpl. unfold taskCount at 1.
  rewrite decide_False by (apply Hz; left). apply IH. intros y Hy. apply Hz. by right.
Qed.

(** One lane changes, and the tasks' holdings change accordingly on it and nowhere else. *)
Lemma depths_lane M lh ts ts' l g :
  Depths M lh ts →
  (∀ l', l' ≠ l → heldBy ts' l' = heldBy ts l') →
  (∀ lane, lh !! l = Some lane →
     Forall (fun e => logicalCount e = 1) (pendingEntries (g lane)) ∧ (length (pendingEntries (g lane)) ≤ M)%nat ∧
     logicalDepth (g lane) = (countOf (pendingEntries (g lane)) + heldBy ts' l)%Z) →
  Depths M (alter g l lh) ts'.
Proof.
  intros [H1 H2 H3] Ho Hg. split; intros l' lane' (lane & Hl & ->)%alter_Some.
  - case_decide; [subst l'; by apply (Hg lane Hl)|by apply (H1 l')].
  - case_decide; [subst l'; by apply (Hg lane Hl)|by apply (H2 l')].
  - case_decide; [subst l'; by apply (Hg lane Hl)|]. rewrite Ho by done. by apply H3.
Qed.

Lemma depths_tasks M lh ts ts' : Depths M lh ts → (∀ l, heldBy ts' l = heldBy ts l) → Depths M lh ts'.
Proof. intros [H1 H2 H3] E. split; [done..|]. intros l lane Hl. rewrite E. by apply H3. Qed.

Lemma taskCount_other task l l' : tLane task = l → l' ≠ l → taskCount l' task = 0.
Proof. intros El Hl. unfold taskCount. by rewrite decide_False by congruence. Qed.

Section Accounting.
Context {Q : Type} `{PQueueLaws Q}.
Context (config : QueueConfig).

(** Every channel's overflow bound is positive (schema) and at most [M]. *)
Context (M : nat).
Hypothesis HM : ∀ ct, (1 ≤ maxDepth (overflow (resolveChannelConfig config ct)) ≤ M)%nat.

Implicit Types s : State Q.

Definition DInv s : Prop := isShutdown s = false → Depths M (laneHeap s) (tasks s).

Lemma schedule_parts l b e o s :
  laneHeap (scheduleLaneTask l b e o s) = laneHeap s ∧ isShutdown (scheduleLaneTask l b e o s) = isShutdown s ∧
  tasks (scheduleLaneTask l b e o s) = tasks s ++
    [{| tLane := l; tBody := b; tEntry := e; tStarted := false; tAborted := false; tSignalled := false; tObserved := o;
        tFailed := false; tPhase := LaneWaiting |}] ∧ world (scheduleLaneTask l b e o s) = world s.
Proof. unfold scheduleLaneTask, onLaneQueue, laneQueue. simpl. by destruct (laneHeap s !! l). Qed.

(** A lane that lacks the count of an entry gets it back with the entry's task. *)
Lemma depths_schedule M' l b e o lh ts g :
  Depths M' lh ts →
  (∀ lane, lh !! l = Some lane →
     Forall (fun e => logicalCount e = 1) (pendingEntries (g lane)) ∧ (length (pendingEntries (g lane)) ≤ M')%nat ∧
     logicalDepth (g lane) = (countOf (pendingEntries (g lane)) + heldBy ts l + Z.of_nat (entryCount e))%Z) →
  Depths M' (alter g l lh) (ts ++
    [{| tLane := l; tBody := b; tEntry := e; tStarted := false; tAborted := false; tSignalled := false; tObserved := o;
        tFailed := false; tPhase := LaneWaiting |}]).
Proof.
  intros HD Hg. apply (depths_lane M' lh ts); [done|..].
  - intros l' Hl'. rewrite heldBy_app, (taskCount_other _ l) by done. lia.
  - intros lane Hl. destruct (Hg lane Hl) as (? & ? & E). split_and!; [done..|]. rewrite E, heldBy_app.
    unfold taskCount. simpl. rewrite decide_True by done. lia.
Qed.

Lemma process_depths l now s : DInv s → DInv (processCollectedMessages l now s).
Proof.
  intros HD. destruct (laneHeap s !! l) as [lane|] eqn:Hl; [|unfold processCollectedMessages; by rewrite Hl].
  unfold processCollectedMessages. rewrite Hl. case_bool_decide as Hp; [done|]. destruct (isShutdown s) eqn:Hd; [intros Hx; simpl in Hx; congruence|].
  destruct (coalesceQueuedEntries (pendingEntries lane) (world s)) as [[w e]|] eqn:Ec; [|done]. specialize (HD Hd).
  intros _. unfold executeLaneTask. destruct (schedule_parts l (RunEntry true) (Some e) false
    (setWorld (fun _ => emit (ECoalesced (eSessionKey e) (eChannelType e) (length (pendingEntries lane)) now) w) (updLane l (setPending []) s)))
    as (-> & _ & -> & _). simpl. apply depths_schedule; [done|]. intros lane' Hl'. rewrite Hl in Hl'. injection Hl' as <-. simpl.
  split_and!; [constructor|lia|]. rewrite (dp_depth _ _ _ HD l lane Hl).
  assert (Z.of_nat (logicalCount e) = countOf (pendingEntries lane)) as ->; [|unfold countOf at 2; simpl; lia].
  unfold coalesceQueuedEntries in Ec. apply bind_Some in Ec as (le & _ & (msg & _ & Ec)%bind_Some). by injection Ec as _ <-.
Qed.

(** A phase change of a task whose holding does not change. *)
Lemma depths_move lh ts t g task M' : Depths M' lh ts → ts !! t = Some task → (∀ l, taskCount l (g task) = taskCount l task) →
  Depths M' lh (alter g t ts).
Proof. intros HD Ht Hg. apply (depths_tasks M' lh ts); [done|]. intros l. rewrite (heldBy_alter ts t g task l Ht), Hg. lia. Qed.

(** Lanes that keep their pending entries and their depth. *)
Lemma depths_heap M' lh lh' ts : Depths M' lh ts →
  (∀ l lane', lh' !! l = Some lane' → ∃ lane, lh !! l = Some lane ∧ pendingEntries lane' = pendingEntries lane ∧ logicalDepth lane' = logicalDepth lane) →
  Depths M' lh' ts.
Proof.
  intros [H1 H2 H3] Hh. split; intros l lane' Hl'; destruct (Hh l lane' Hl') as (lane & Hl & -> & E).
  - eauto.
  - eauto.
  - rewrite E. eauto.
Qed.

Lemma depths_heap_alter M' lh ts l g : Depths M' lh ts →
  (∀ lane, pendingEntries (g lane) = pendingEntries lane ∧ logicalDepth (g lane) = logicalDepth lane) → Depths M' (alter g l lh) ts.
Proof.
  intros HD Hg. apply (depths_heap M' lh); [done|]. intros l' lane' (lane & Hl & ->)%alter_Some. exists lane. case_decide; [|done].
  destruct (Hg lane) as [-> ->]. done.
Qed.

Lemma coalesce_count es w w' e : coalesceQueuedEntries es w = Some (w', e) → logicalCount e = sum_list (logicalCount <$> es).
Proof. intros (le & _ & (msg & _ & Ec)%bind_Some)%bind_Some. by injection Ec as _ <-. Qed.

(** A steer task in line holds no message yet. *)
Lemma steer_empty s t task : CInv (core s) → tasks s !! t = Some task → tBody task = SteerAgain → tPhase task = LaneWaiting →
  tEntry task = None.
Proof.
  intros HI Ht Hb Hp. pose proof (ei_steer _ (ci_exec _ HI) t _ (core_task s t task Ht) Hb Hp) as He. simpl in He.
  by destruct (tEntry task).
Qed.

Lemma laneStart_depths q now s s' : CInv (core s) → DInv s → laneStart q now s = Some s' → DInv s'.
Proof.
  intros HI HD (pq & Hq & ((t & pq') & Hst & Hs)%bind_Some)%bind_Some Hd'. injection Hs as <-.
  destruct (started_task q pq pq' t s (ci_queues _ HI) Hq Hst) as (task & lane & Ht & Hl & _ & Hp).
  assert (isShutdown s = false) as Hd.
  { revert Hd'. unfold runLaneTask. simpl. rewrite Ht. destruct (tBody task); [done|]. rewrite Hl. by destruct (coalesceQueuedEntries _ _) as [[]|]. }
  specialize (HD Hd). clear Hd'. unfold runLaneTask. cbn [tasks setQueues]. rewrite Ht. destruct (tBody task) eqn:Hb.
  - simpl. apply (depths_move _ _ t _ task); [done..|]. intros l. unfold taskCount. simpl. by rewrite Hp.
  - pose proof (steer_empty s t task HI Ht Hb Hp) as He.
    cbn [laneHeap setQueues world]. rewrite Hl. destruct (coalesceQueuedEntries (pendingEntries lane) (world s)) as [[w e]|] eqn:Ec.
    + simpl. rewrite alter_alter. apply coalesce_count in Ec. apply (depths_lane _ _ (tasks s)); [done|..].
      * intros l' Hl'. rewrite (heldBy_alter _ t _ task l' Ht), !(taskCount_other _ (tLane task)) by done. lia.
      * intros lane' Hl'. rewrite Hl in Hl'. injection Hl' as <-. simpl. split_and!; [constructor|lia|].
        rewrite (heldBy_alter _ t _ task _ Ht). unfold taskCount. simpl. rewrite !decide_True by done. rewrite Hp, He. simpl.
        rewrite (dp_depth _ _ _ HD _ lane Hl), Ec. unfold countOf. simpl. lia.
    + simpl. apply (depths_move _ _ t _ task); [done..|]. intros l. unfold taskCount. simpl. rewrite Hp, He. simpl. by case_decide.
Qed.

Lemma gateStart_depths now s s' : CInv (core s) → DInv s → gateStart now s = Some s' → DInv s'.
Proof.
  intros HI HD ((t & gate') & Hst & (task & Ht & (e & He & Hs)%bind_Some)%bind_Some)%bind_Some Hd. injection Hs as <-.
  destruct (viewOf_start t _ gate' Hst) as [_ [Hh _]]. destruct (qi_gate _ (ci_queues _ HI)) as [HT _].
  assert (t ∈ vWaiting (cGate (core s))) as Hin by (simpl in *; destruct (pqWaiting (globalGate s)); [done|]; injection Hh as ->; left).
  apply (tr_waiting _ _ HT) in Hin. unfold gateSlotAt in Hin. rewrite (core_task s t task Ht) in Hin. simpl in Hin.
  simpl. apply depths_heap_alter; [|done]. apply (depths_move _ _ t _ task); [by apply HD|done|].
  intros l. unfold taskCount. simpl. by destruct (tPhase task).
Qed.

Lemma handlerEnd_depths t ok now s s' : CInv (core s) → DInv s → handlerEnd t ok now s = Some s' → DInv s'.
Proof.
  intros HI HD Hs0. pose proof Hs0 as (task & Ht & (e & He & Hs)%bind_Some)%bind_Some. case_bool_decide as Hp; [|done]. simpl in Hs.
  injection Hs as <-. destruct (task_lane s t task (ci_queues _ HI) Ht) as (lane & v & Hl & _).
  set (fl := match tBody task with SteerAgain => false | RunEntry _ => negb ok end).
  set (s1 := updLane (tLane task) (endExecution t e now) (updTask t (setPhase GateLeaving ∘ setFailed fl) s)).
  assert (DInv s1) as HD1.
  { intros Hd. specialize (HD Hd). simpl. apply (depths_lane _ _ (tasks s)); [done|..].
    - intros l' Hl'. rewrite (heldBy_alter _ t _ task l' Ht), !(taskCount_other _ (tLane task)) by done. lia.
    - intros lane' Hl'. rewrite Hl in Hl'. injection Hl' as <-. cbn [pendingEntries logicalDepth endExecution].
      split_and!; [by eapply dp_ones|by eapply dp_bound|]. pose proof (heldBy_nonneg (alter (setPhase GateLeaving ∘ setFailed fl) t (tasks s)) (tLane task)).
      revert H1. rewrite (heldBy_alter _ t _ task _ Ht). unfold taskCount. simpl. rewrite !decide_True by done. rewrite Hp, He. simpl.
      rewrite (dp_depth _ _ _ HD _ lane Hl). unfold countOf. lia. }
  destruct (tBody task) as [[]|] eqn:Hb; try done. by apply process_depths.
Qed.

(** ** Enqueueing *)

(** The lane of a request, after its depth was raised for the new entry. *)
Definition Owes (l : nat) s : Prop :=
  ∀ l' lane, laneHeap s !! l' = Some lane →
    Forall (fun e => logicalCount e = 1) (pendingEntries lane) ∧ (length (pendingEntries lane) ≤ M)%nat ∧
    logicalDepth lane = (countOf (pendingEntries lane) + heldBy (tasks s) l' + (if decide (l' = l) then 1 else 0))%Z.

Lemma owes_schedule l b e o s : logicalCount e = 1 → Owes l s → Depths M (laneHeap (scheduleLaneTask l b (Some e) o s)) (tasks (scheduleLaneTask l b (Some e) o s)).
Proof.
  intros He HO. destruct (schedule_parts l b (Some e) o s) as (-> & _ & -> & _).
  split; intros l' lane Hl; destruct (HO l' lane Hl) as (H1 & H2 & H3); [done..|]. rewrite H3, heldBy_app. unfold taskCount. simpl.
  rewrite He. repeat case_decide; try lia; congruence.
Qed.

Lemma owes_accumulate l e ct now s : logicalCount e = 1 → is_Some (laneHeap s !! l) → Owes l s →
  let s' := accumulate l e (overflow (resolveChannelConfig config ct)) now s in
  Depths M (laneHeap s') (tasks s').
Proof.
  intros He [lane Hl] HO. unfold accumulate. rewrite Hl. set (c := overflow _).
  destruct (applyOverflowPolicyToQueueEntries (pendingEntries lane ++ [e]) c (eSessionKey e) (eChannelType e) now (world s)) as [w' [kept dropped]] eqn:Eo.
  destruct (HO l lane Hl) as (H1 & H2 & H3). rewrite decide_True in H3 by done.
  assert (Forall (fun e => logicalCount e = 1) (pendingEntries lane ++ [e])) as Hones by (apply Forall_app; auto).
  destruct (overflow_spec _ c _ _ now (world s) w' kept dropped Hones Eo) as (Hk & Hsum & Hbnd).
  destruct (HM ct) as [HM1 HM2]. fold c in HM1, HM2. rewrite length_app in Hsum, Hbnd. simpl in Hsum, Hbnd.
  split; intros l' lane' (lane0 & Hl0 & ->)%alter_Some; destruct (HO l' lane0 Hl0) as (G1 & G2 & G3).
  - destruct (decide (l = l')); [exact Hk|done].
  - destruct (decide (l = l')); [simpl; specialize (Hbnd HM1); lia|done].
  - destruct (decide (l = l')) as [<-|Hne].
    + change (laneHeap s !! l = Some lane0) in Hl0. rewrite Hl in Hl0. injection Hl0 as <-. cbn. rewrite H3, !count_ones by done. pose proof (heldBy_nonneg (tasks s) l). lia.
    + rewrite G3, decide_False by congruence. simpl. lia.
Qed.

Lemma owes_getOrCreate key base now s s1 l :
  CInv (core s) → isShutdown s = false → Depths M (laneHeap s) (tasks s) → getOrCreateLane key base now s = (s1, l) →
  Owes l (updLane l (fun lane => setDepth (logicalDepth lane + 1) lane) s1).
Proof.
  intros HI Hd HD Eg. destruct (getOrCreate_refines key base now s s1 l HI Hd Eg) as (_ & _ & _ & Ets & _).
  assert (Depths M (laneHeap s1) (tasks s1)) as HD1.
  { rewrite Ets. revert Eg. unfold getOrCreateLane. destruct (mget (lanes s) key) as [l0|].
    - intros [= <- <-]. simpl. by apply depths_heap_alter.
    - assert (∀ q, Depths M (laneHeap s ++ [{| baseSessionKey := base; queue := q; pendingEntries := []; logicalDepth := 0;
          isExecuting := false; lastActivityMs := now; abortController := None; activeEntry := None |}]) (tasks s)) as Hq.
      { intros q. destruct HD as [H1 H2 H3]. split; intros l' lane Hl; apply snoc_Some in Hl as [Hl|[-> ->]]; [by eauto|by constructor|by eauto|simpl; lia|by eauto|].
        simpl. rewrite heldBy_zero; [done|]. intros x [t Ht]%list_elem_of_lookup.
        destruct (task_lane s t x (ci_queues _ HI) Ht) as (lx & v & Hlx & _). apply lookup_lt_Some in Hlx. lia. }
      destruct (sessionQueue base s); intros [= <- <-]; apply Hq. }
  intros l' lane' (lane & Hl & ->)%alter_Some. destruct HD1 as [H1 H2 H3]. pose proof (H3 l' lane Hl) as E.
  destruct (decide (l = l')) as [<-|Hne].
  - rewrite decide_True by done. simpl. split_and!; [by eauto..|]. lia.
  - rewrite decide_False by congruence. split_and!; [by eauto..|]. simpl. lia.
Qed.

Lemma enqueue_depths r now s : CInv (core s) → DInv s → DInv (enqueueMessage config r now s).1.
Proof.
  intros HI HD. destruct (isShutdown s) eqn:Hd; [unfold enqueueMessage; by rewrite Hd|].
  destruct (createQueueLaneIdentity (rSessionKey r) (rChannelType r) (rContext r)) as [base key] eqn:Eid.
  destruct (getOrCreateLane key base now s) as [s1 l] eqn:Eg. destruct (newEntry r now (world s1)) as [w e] eqn:En.
  destruct (enqueue_unfold config r now s base key s1 l w e Hd Eid Eg En) as [ev ->]. intros _.
  pose proof (owes_getOrCreate key base now s s1 l HI Hd (HD Hd) Eg) as HO.
  assert (logicalCount e = 1) as He by (unfold newEntry in En; by injection En as _ <-).
  destruct (getOrCreate_refines key base now s s1 l HI Hd Eg) as (_ & _ & _ & _ & _ & _ & [lane Hl] & _).
  set (s2 := setWorld _ _). assert (Owes l s2) as HO2 by exact HO.
  assert (is_Some (laneHeap s2 !! l)) as Hl2 by (simpl; by rewrite list_lookup_alter_eq, Hl).
  unfold dispatch. destruct (mode _); try by apply owes_schedule.
  - destruct (default false _); [|by apply owes_schedule].
    pose proof (owes_accumulate l e (rChannelType r) now s2 He Hl2 HO2) as Ha. by destruct (0 <? debounceMs _)%Z.
  - destruct (default false _); [|by apply owes_schedule].
    pose proof (owes_accumulate l e (rChannelType r) now s2 He Hl2 HO2) as Ha. cbv zeta in Ha. set (s3 := accumulate _ _ _ _ _) in *.
    destruct (schedule_parts l SteerAgain None false (setTimers (fun ts => mdel ts key) (abortExecution l s3))) as (-> & _ & -> & _).
    apply (depths_tasks _ _ (tasks (abortExecution l s3))).
    + unfold abortExecution. destruct (_ ≫= _) as [t|]; [|done]. simpl. destruct (tasks s3 !! t) as [task|] eqn:Ht.
      * by apply (depths_move _ _ t _ task).
      * by rewrite alter_same by congruence.
    + intros l'. rewrite heldBy_app. unfold taskCount. simpl. case_decide; lia.
Qed.

(** ** Every execution *)

Lemma exec_depths o s s' : Good config s → DInv s → exec config o s = Some s' → DInv s'.
Proof.
  intros [HI [f HK]] HD Hs. destruct o; simpl in Hs.
  - by injection Hs as <-.
  - case_bool_decide; [|done]. by injection Hs as <-.
  - destruct (match rScope r with Some _ => _ | None => _ end); [|done]. injection Hs as <-. by apply enqueue_depths.
  - by eapply laneStart_depths.
  - by eapply gateStart_depths.
  - by eapply handlerEnd_depths.
  - apply bind_Some in Hs as (task & Ht & Hs). case_bool_decide as Hp; [|done]. injection Hs as <-. intros Hd.
    simpl. apply (depths_move _ _ t _ task); [by apply HD|done|]. intros l. unfold taskCount. simpl. by rewrite Hp.
  - apply bind_Some in Hs as (task & Ht & Hs). case_bool_decide as Hp; [|done]. injection Hs as <-.
    intros Hd. unfold onLaneQueue in *. destruct (laneQueue _ _); simpl in *;
      (apply (depths_move _ _ t _ task); [by apply HD|done|]; intros l; unfold taskCount; simpl; by rewrite Hp).
  - apply bind_Some in Hs as (task & Ht & Hs). case_bool_decide as Hp; [|done]. injection Hs as <-. intros Hd.
    assert (Depths M (laneHeap s) (alter (setPhase Gone) t (tasks s))) as Hx.
    { apply (depths_move _ _ t _ task); [apply HD; by destruct (tEntry task), (tObserved task && tFailed task)|done|].
      intros l. unfold taskCount. simpl. by rewrite Hp. }
    by destruct (tEntry task), (tObserved task && tFailed task).
  - apply bind_Some in Hs as (l & _ & (lane & _ & Hs)%bind_Some). injection Hs as <-.
    destruct (isExecuting lane); [done|]. by apply process_depths.
  - destruct (isShutdown s); [done|]. by injection Hs as <-.
  - injection Hs as <-. intros Hd. apply (depths_heap _ (laneHeap s)); [by apply HD|]. intros l lane' Hl. simpl in Hl.
    rewrite list_lookup_imap in Hl. apply fmap_Some in Hl as (lane & Hl & ->). exists lane. by case_decide.
  - injection Hs as <-. unfold performShutdown. by destruct (isShutdown s).
  - apply bind_Some in Hs as (ts & _ & Hs). destruct (negb _); [done|]. by injection Hs as <-.
Qed.

(** until shutdown the depth of a lane counts exactly the accepted messages it
    still owes an answer for: those pending and those held by its tasks that wait or
    execute; the clamp at zero is never needed.  And the pending list never grows
    beyond the largest overflow bound configured. *)
Theorem queue_depth_exact s (Hs : reachable config s) (Hd : isShutdown s = false) l lane (Hl : laneHeap s !! l = Some lane) :
  logicalDepth lane = (countOf (pendingEntries lane) + heldBy (tasks s) l)%Z ∧
  (length (pendingEntries lane) ≤ M)%nat.
Proof.
  apply (reachable_ind config DInv) in Hs as [_ HD].
  - split; [by apply (dp_depth M _ _ (HD Hd))|by apply (dp_bound M _ _ (HD Hd) l)].
  - intros _. split; simpl; intros; by rewrite lookup_nil in *.
  - intros o s1 s2 HG. by apply exec_depths.
Qed.

End Accounting.

(** Ana's lane owes two answers: one is being worked on, one is pending. *)
Lemma queue_depth_exact_witness :
  let s := stateAfter Collect busyOps in
  ∃ lane, laneHeap s !! 0 = Some lane ∧ logicalDepth lane = 2%Z ∧
  logicalDepth lane = (countOf (pendingEntries lane) + heldBy (tasks s) 0)%Z ∧ (length (pendingEntries lane) ≤ 20)%nat.
Proof.
  intros s. destruct (laneHeap s !! 0) as [lane|] eqn:Hl; [|by vm_compute in Hl]. exists lane. split; [done|].
  split; [revert Hl; vm_compute; by intros [= <-]|].
  apply (queue_depth_exact (demoConfig Collect) 20); [|apply reachable_after; vm_compute; eauto|by vm_compute|exact Hl].
  intros ct. unfold resolveChannelConfig. simpl. lia.
Defined.

End CommandQueueAccounting.
