(* ===== verification/CommandQueueOwnership.v ===== *)
(** * The command queue: what becomes of the entries it gives up

  Publishing, releasing, coalescing and dropping entries, on the heaps alone: the
  terminal cells of an entry that leaves the pending list are published or covered
  by the entry that replaces it. *)

From S2P Require Import Prelude CanonicalJson SessionKeys SourceTerminal QueueEntries CommandQueue QueueCore CommandQueueRefines CommandQueueInvariants CommandQueueAccounting.
Import QueueEntries CommandQueue QueueCore CommandQueueRefines CommandQueueInvariants CommandQueueAccounting.

Open Scope list_scope.

Module CommandQueueOwnership.

(** ** The heaps *)

Abbreviation cellsOk h := (SourceTerminal.Inv h []).
Abbreviation scopeOk w e := (SourceTerminal.ScopeOk (terminals w) (sourceTerminalScope e)).
Abbreviation coversIn w e i := (SourceTerminal.covers (terminals w) (sourceTerminalScope e) i).

Definition publishedIn (w : World) (i : nat) : Prop :=
  ∃ c, SourceTerminal.cells (terminals w) !! i = Some c ∧ SourceTerminal.published c = true.

(** What every operation on the heaps does. *)
Record Later (w w' : World) : Prop := {
  la_cells : cellsOk (terminals w) → cellsOk (terminals w');
  la_grows : cellsOk (terminals w) → SourceTerminal.Grows (terminals w) (terminals w');
  la_owners : (length (owners w) ≤ length (owners w'))%nat;
  la_events ev : ev ∈ events w → ev ∈ events w';
}.

#[global] Instance Later_preorder : PreOrder Later.
Proof.
  split; [intros w; split; done|]. intros w1 w2 w3 [A1 A2 A3 A4] [B1 B2 B3 B4]. split; [auto| |lia|auto].
  intros Hw. etrans; [by apply A2|]. by apply B2, A1.
Qed.

Lemma later_same w w' : terminals w' = terminals w → (length (owners w) ≤ length (owners w'))%nat →
  (∀ ev, ev ∈ events w → ev ∈ events w') → Later w w'.
Proof. intros E Ho He. split; [by rewrite E|by rewrite E|done..]. Qed.

Lemma later_terminals h w : (cellsOk (terminals w) → cellsOk h ∧ SourceTerminal.Grows (terminals w) h) → Later w (setTerminals h w).
Proof. intros Hh. by split; [apply Hh|apply Hh|..]. Qed.

Section LaterFacts.
Context (w w' : World) (HL : Later w w') (Hw : cellsOk (terminals w)).

Lemma later_published i : publishedIn w i → publishedIn w' i.
Proof.
  intros (c & Hc & Hp). destruct (SourceTerminal.gr_cells _ _ (la_grows _ _ HL Hw) i c Hc) as (c' & Hc' & _ & Hp').
  exists c'. auto.
Qed.

Lemma later_scope sc : SourceTerminal.ScopeOk (terminals w) sc → SourceTerminal.ScopeOk (terminals w') sc.
Proof. apply SourceTerminal.scope_grows. by apply (la_grows _ _ HL). Qed.

Lemma later_covers sc i : SourceTerminal.covers (terminals w) sc i → SourceTerminal.covers (terminals w') sc i.
Proof. apply SourceTerminal.covers_grows. by apply (la_grows _ _ HL). Qed.

End LaterFacts.

Lemma later_emit ev w : Later w (emit ev w).
Proof. apply later_same; [done..|]. intros x Hx. apply elem_of_app. by left. Qed.

Lemma release_later e r w : terminals (releaseQueueEntryResources e r w) = terminals w ∧ Later w (releaseQueueEntryResources e r w).
Proof.
  unfold releaseQueueEntryResources. destruct (owners w !! ownership e) as [o|]; [|done].
  destruct (resourcesReleased o || _); [done|]. assert (∀ f, Later w (setOwners (alter f (ownership e)) w)) as HL.
  { intros f. apply later_same; simpl; [done|by rewrite length_alter|done]. }
  destruct (releaseResources o); [|by split]. split; [done|]. etrans; [apply HL|apply later_emit].
Qed.

Lemma releaseAll_later es r w : terminals (releaseAll es r w) = terminals w ∧ Later w (releaseAll es r w).
Proof.
  unfold releaseAll. revert w. induction es as [|e es IH]; intros w; [done|]. simpl. destruct (release_later e r w) as [E HL].
  destruct (IH (releaseQueueEntryResources e r w)) as [-> HL']. split; [done|by etrans].
Qed.

(** Publishing the scope of an entry publishes everything it covers. *)
Lemma publishEntry_spec o r now e w : cellsOk (terminals w) → scopeOk w e →
  Later w (publishEntry o r now e w) ∧ ∀ i, coversIn w e i → publishedIn (publishEntry o r now e w) i.
Proof.
  intros Hw Hs. destruct (SourceTerminal.publish_spec (sourceTerminalScope e) o r now (terminals w) Hw Hs) as (H1 & H2 & H3 & _).
  split; [by split|done].
Qed.

Lemma emitRejected_spec es r o now w : cellsOk (terminals w) → (∀ e, e ∈ es → scopeOk w e) →
  Later w (emitRejectedEntries es r o now w) ∧
  ∀ e i, e ∈ es → coversIn w e i → publishedIn (emitRejectedEntries es r o now w) i.
Proof.
  unfold emitRejectedEntries. revert w. induction es as [|e es IH]; intros w Hw Hs; [split; [done|intros e i Hx; by apply not_elem_of_nil in Hx]|].
  cbn [foldl]. set (d := match r with SourceTerminal.RQueueDropped => DOverflow | _ => DShutdown end) in *.
  destruct (publishEntry_spec o r now e w Hw (Hs e ltac:(left))) as [HL1 Hp1].
  set (w1 := publishEntry o r now e w) in *. destruct (release_later e d w1) as [_ HL2]. set (w2 := releaseQueueEntryResources e d w1) in *.
  assert (Later w w2) as HL by by etrans. pose proof (la_cells _ _ HL Hw) as Hw2.
  destruct (IH w2) as [HL3 Hp3]; [done|intros e' He'; apply (later_scope w); auto; apply Hs; by right|].
  split; [by etrans|]. intros e' i [->|He']%elem_of_cons Hc.
  - apply (later_published w2); [done..|]. apply (later_published w1); [done|by apply (la_cells _ _ HL1)|]. by apply Hp1.
  - apply (Hp3 e' i He'). by apply (later_covers w).
Qed.

(** Cells of one class are published together. *)
Definition entryPublished (w : World) (e : Entry) : Prop := ∀ j, j ∈ sourceTerminalScope e → publishedIn w j.

Lemma entryPublished_covers w e i : cellsOk (terminals w) → entryPublished w e → coversIn w e i → publishedIn w i.
Proof.
  intros Hw Hp (j & Hj & (c & d & Hc & Hd & E)). destruct (Hp j Hj) as (d' & Hd' & Hpub). simplify_eq.
  destruct (SourceTerminal.wf_uniform _ (SourceTerminal.inv_wf _ _ Hw) i j c d Hc Hd E) as (_ & Ep & _).
  exists c. split; [done|congruence].
Qed.

Lemma scope_covers w e j : scopeOk w e → j ∈ sourceTerminalScope e → coversIn w e j.
Proof. intros Hs Hj. destruct (SourceTerminal.so_cells _ _ Hs j Hj) as [c Hc]. exists j. split; [done|]. by eapply SourceTerminal.sameClass_refl. Qed.

(** A merge of scopes covers what they covered. *)
Lemma merge_covers (w : World) (scs : list SourceTerminal.Scope) : cellsOk (terminals w) → (∀ sc, sc ∈ scs → SourceTerminal.ScopeOk (terminals w) sc) →
  let r := SourceTerminal.mergeSourceTerminalScopes scs (terminals w) in
  Later w (setTerminals r.1 w) ∧ SourceTerminal.ScopeOk r.1 r.2 ∧
  ∀ sc i, sc ∈ scs → SourceTerminal.covers (terminals w) sc i → SourceTerminal.covers r.1 r.2 i.
Proof.
  intros Hw Hs r. destruct (SourceTerminal.merge_spec scs (terminals w) [] Hw Hs) as (H1 & H2 & H3 & H4 & _). fold r in H1, H2, H3, H4.
  split; [by split|]. split; [done|]. intros sc i Hsc (j & Hj & Hij). destruct (H4 sc j Hsc Hj) as (k & Hk & Hjk).
  exists k. split; [done|]. eapply SourceTerminal.sameClass_trans; [|exact Hjk]. by apply (SourceTerminal.gr_class _ _ H2).
Qed.

Lemma last_elem {A} (l : list A) x : last l = Some x → x ∈ l.
Proof. intros (l' & ->)%last_Some. apply elem_of_app. right. by left. Qed.

(** Coalescing: the new entry covers what the old ones did, and has the ownership of the last. *)
Lemma coalesce_spec es w w' e : cellsOk (terminals w) → (∀ e, e ∈ es → scopeOk w e) →
  coalesceQueuedEntries es w = Some (w', e) →
  Later w w' ∧ scopeOk w' e ∧ (∀ e0 i, e0 ∈ es → coversIn w e0 i → coversIn w' e i) ∧ (∃ e0, last es = Some e0 ∧ ownership e = ownership e0).
Proof.
  intros Hw Hs (le & Hle & (msg & _ & Ec)%bind_Some)%bind_Some. injection Ec as <- <-.
  set (w1 := releaseAll _ _ w). destruct (releaseAll_later (take (length es - 1) es) DCoalesced w) as [Et HL1]. fold w1 in HL1, Et.
  destruct (merge_covers w1 (sourceTerminalScope <$> es)) as (HL2 & Hok & Hcov).
  - by apply (la_cells _ _ HL1).
  - intros sc (e & -> & He)%list_elem_of_fmap. rewrite Et. by apply Hs.
  - split; [by etrans|]. split; [done|]. split; [|simpl; eauto]. intros e0 i He0 Hc. apply (Hcov (sourceTerminalScope e0)).
    + apply list_elem_of_fmap. eauto.
    + by rewrite Et.
Qed.

(** ** Overflow *)

Lemma nodup_fmap_inj {A B} (f : A → B) l x y : NoDup (f <$> l) → x ∈ l → y ∈ l → f x = f y → x = y.
Proof.
  induction l as [|z l IH]; simpl; intros Hnd Hx Hy E; [by apply not_elem_of_nil in Hx|]. apply NoDup_cons in Hnd as [Hn Hnd].
  apply elem_of_cons in Hx as [->|Hx], Hy as [->|Hy]; auto.
  - destruct Hn. apply list_elem_of_fmap. eauto.
  - destruct Hn. apply list_elem_of_fmap. eauto.
Qed.

(** What becomes of the entries given to the overflow policy. *)
Definition Kept (es : list Entry) (w w' : World) (kept : list Entry) : Prop :=
  Later w w' ∧ (∀ e, e ∈ kept → scopeOk w' e) ∧ NoDup (ownership <$> kept) ∧
  (∀ e, e ∈ kept → ∃ e0, e0 ∈ es ∧ ownership e = ownership e0) ∧
  (∀ e0 i, e0 ∈ es → coversIn w e0 i → publishedIn w' i ∨ ∃ e, e ∈ kept ∧ coversIn w' e i).

(** The entries kept are some of those given; the others are told their outcome. *)
Lemma kept_rest es kept w w' : cellsOk (terminals w) → (∀ e, e ∈ es → scopeOk w e) → NoDup (ownership <$> es) → kept `sublist_of` es →
  Later w w' → (∀ e i, e ∈ es → ownership e ∉ ownership <$> kept → coversIn w e i → publishedIn w' i) → Kept es w w' kept.
Proof.
  intros Hw Hs Hnd Hsub HL Hpub. assert (∀ e, e ∈ kept → e ∈ es) as Hin by (intros e He; by eapply elem_of_sublist).
  split; [done|]. split; [|split; [|split]].
  - intros e He. apply (later_scope w); auto.
  - eapply sublist_NoDup; [exact Hnd|]. by apply fmap_sublist.
  - eauto.
  - intros e0 i He0 Hc. destruct (decide (ownership e0 ∈ ownership <$> kept)) as [(e & E & He)%list_elem_of_fmap|Hn]; [right|left; eauto].
    exists e. split; [done|]. apply (later_covers w); [done..|]. by rewrite <- (nodup_fmap_inj ownership es e0 e Hnd He0 (Hin e He) E).
Qed.

(** The policies that drop entries. *)
Lemma dropped_kept es kept p now w w1 :
  cellsOk (terminals w) → (∀ e, e ∈ es → scopeOk w e) → NoDup (ownership <$> es) → kept `sublist_of` es →
  terminals w1 = terminals w → Later w w1 → p ≠ Summarize → Kept es w (emitDroppedEntries es kept p now w1) kept.
Proof.
  intros Hw Hs Hnd Hsub Et HL Hp. unfold emitDroppedEntries. set (removed := filter _ es).
  destruct (emitRejected_spec removed SourceTerminal.RQueueDropped SourceTerminal.OError now w1) as [HL1 Hp1];
    [by rewrite Et|intros e [_ He]%list_elem_of_filter; rewrite Et; auto|].
  assert (Kept es w (emitRejectedEntries removed SourceTerminal.RQueueDropped SourceTerminal.OError now w1) kept) as HK.
  { apply kept_rest; [done..|by etrans|]. intros e i He Hn Hc. apply (Hp1 e); [by apply list_elem_of_filter|by rewrite Et]. }
  by destruct p.
Qed.

(** The overflow policy on the pending entries of a lane, with what [emitDroppedEntries]
    does afterwards. *)
Lemma overflow_kept es c k ct now w :
  cellsOk (terminals w) → (∀ e, e ∈ es → scopeOk w e) → NoDup (ownership <$> es) →
  let r := applyOverflowPolicyToQueueEntries es c k ct now w in
  Kept es w (emitDroppedEntries es r.2.1 (policy c) now r.1) r.2.1.
Proof.
  intros Hw Hs Hnd. unfold applyOverflowPolicyToQueueEntries, applyOverflowPolicyToItems.
  destruct (length es <=? maxDepth c)%nat eqn:Hle.
  - cbn [fst snd]. destruct (policy c); [by apply dropped_kept..|].
    unfold emitDroppedEntries. apply kept_rest; [done..|apply releaseAll_later|]. intros e i He Hn. destruct Hn.
    apply list_elem_of_fmap. eauto.
  - destruct (policy c) eqn:Hp; cbn [fst snd].
    + apply dropped_kept; [done..|apply sublist_drop|done|apply later_emit|done].
    + apply dropped_kept; [done..|apply sublist_take|done|apply later_emit|done].
    + destruct (last es) as [le|] eqn:Hle'; cbn [fst snd].
      2: { apply last_None in Hle'. subst. by simpl in Hle. }
      unfold createSummaryEntry, emitDroppedEntries. cbn.
      destruct (merge_covers w (sourceTerminalScope <$> es) Hw) as (HL & Hok & Hcov);
        [intros sc (e & -> & He)%list_elem_of_fmap; auto|].
      set (m := SourceTerminal.mergeSourceTerminalScopes _ _) in *. set (w1 := emit _ _).
      assert (Later w w1) as HL1 by (etrans; [exact HL|apply later_emit]).
      destruct (releaseAll_later (filter (fun e => ownership e ∉ [ownership le]) es) DOverflow w1) as [Et HL2].
      set (w2 := releaseAll _ _ w1) in *. assert (Later w w2) as HL' by by etrans. split; [done|]. split; [|split; [|split]].
      * intros e ->%list_elem_of_singleton. simpl. rewrite Et. exact Hok.
      * apply NoDup_singleton.
      * intros e ->%list_elem_of_singleton. exists le. split; [by apply last_elem|done].
      * intros e0 i He0 Hc. right. eexists. split; [by left|]. simpl. rewrite Et. apply (Hcov (sourceTerminalScope e0)); [|done].
        apply list_elem_of_fmap. eauto.
Qed.

End CommandQueueOwnership.
