(* ===== verification/CommandQueueDelivery.v ===== *)
(** * The command queue: no accepted message is lost

  From the moment a message is accepted, each of its terminal cells has an outcome
  published, or was given to a handler, or is covered by an entry that is pending or
  held by a task still in line.  A queue that has run dry, or was shut down, has
  published or handled them all. *)

From S2P Require Import Prelude CanonicalJson SessionKeys SourceTerminal QueueEntries CommandQueue CommandQueueDemo QueueCore CommandQueueRefines CommandQueueInvariants CommandQueueAccounting CommandQueueOwnership.
Import QueueEntries CommandQueue CommandQueueDemo QueueCore CommandQueueRefines CommandQueueInvariants CommandQueueAccounting CommandQueueOwnership.

Open Scope list_scope.

Module CommandQueueDelivery.

Section Delivery.
Context {Q : Type} `{PQueueLaws Q}.
Context (config : QueueConfig).

Implicit Types (s : State Q) (X : list Entry).

(** ** Who holds an entry *)

Definition pendingAt s (l : nat) : list Entry := default [] (pendingEntries <$> laneHeap s !! l).

Definition taskEntry s (t : nat) : option Entry := tasks s !! t ≫= tEntry.

Definition waits (p : Phase) : bool := match p with LaneWaiting | GateWaiting => true | _ => false end.

Definition waitingEntry s (t : nat) : option Entry := task ← tasks s !! t; if waits (tPhase task) then tEntry task else None.

(** A handler was called with an entry that covers the cell. *)
Definition handled s (i : nat) : Prop := ∃ t e, EHandler t e ∈ events (world s) ∧ coversIn (world s) e i.

Definition answered s (i : nat) : Prop := publishedIn (world s) i ∨ handled s i.

(** [X]: the entries an operation holds between two assignments. *)
Definition held X s (e : Entry) : Prop := e ∈ X ∨ (∃ l, e ∈ pendingAt s l) ∨ (∃ t, waitingEntry s t = Some e).

Definition known X s (e : Entry) : Prop := e ∈ X ∨ (∃ l, e ∈ pendingAt s l) ∨ (∃ t, taskEntry s t = Some e).

Definition accountedWith X s (i : nat) : Prop := answered s i ∨ ∃ e, held X s e ∧ coversIn (world s) e i.

(** The entries of a lane are told apart by their ownership records. *)
Definition Owned (w : World) (es : list Entry) : Prop :=
  NoDup (ownership <$> es) ∧ ∀ e, e ∈ es → (ownership e < length (owners w))%nat.

Record SInv X s : Prop := {
  si_cells : cellsOk (terminals (world s));
  si_scopes sc : sc ∈ scopes s → SourceTerminal.ScopeOk (terminals (world s)) sc;
  si_entry e : known X s e → scopeOk (world s) e;
  si_owned l : Owned (world s) (pendingAt s l);
}.

(** An operation keeps the invariant and everything accounted for. *)
Definition Keeps X s X' s' : Prop :=
  SInv X s → SInv X' s' ∧ Later (world s) (world s') ∧ ∀ i, accountedWith X s i → accountedWith X' s' i.

Lemma keeps_refl X s : Keeps X s X s.
Proof. by intros HS. Qed.

Lemma keeps_trans X s X1 s1 X2 s2 : Keeps X s X1 s1 → Keeps X1 s1 X2 s2 → Keeps X s X2 s2.
Proof. intros H1 H2 HS. destruct (H1 HS) as (HS1 & L1 & A1). destruct (H2 HS1) as (HS2 & L2 & A2). split; [done|]. split; [by etrans|auto]. Qed.

Lemma owned_later w w' es : Later w w' → Owned w es → Owned w' es.
Proof. intros HL [Hn Ho]. split; [done|]. intros e He. specialize (Ho e He). pose proof (la_owners _ _ HL). lia. Qed.

Lemma owned_nil w : Owned w [].
Proof. split; [constructor|]. intros e Hx. by apply not_elem_of_nil in Hx. Qed.

Lemma answered_later s s' i : cellsOk (terminals (world s)) → Later (world s) (world s') → answered s i → answered s' i.
Proof.
  intros Hw HL [Hp|(t & e & He & Hc)]; [left; by apply (later_published (world s))|right].
  exists t, e. split; [by apply (la_events _ _ HL)|]. by apply (later_covers (world s)).
Qed.

Lemma keeps_intro X s X' s' :
  Later (world s) (world s') → (∀ sc, sc ∈ scopes s' → sc ∈ scopes s) →
  (∀ e, known X' s' e → known X s e ∨ scopeOk (world s') e) →
  (∀ l, pendingAt s' l = pendingAt s l ∨ Owned (world s') (pendingAt s' l)) →
  (∀ e i, held X s e → coversIn (world s) e i → held X' s' e ∨ accountedWith X' s' i) →
  Keeps X s X' s'.
Proof.
  intros HL Hsc Hk Hp Hh [H1 H2 H3 H4]. split; [split|split; [done|]].
  - by apply (la_cells _ _ HL).
  - intros sc Hx. apply (later_scope (world s)); auto.
  - intros e [He|He]%Hk; [|done]. apply (later_scope (world s)); auto.
  - intros l. destruct (Hp l) as [->|?]; [|done]. by apply (owned_later (world s)).
  - intros i [Ha|(e & He & Hc)]; [left; by apply (answered_later s)|].
    destruct (Hh e i He Hc) as [?|?]; [right; exists e|done]. split; [done|]. by apply (later_covers (world s)).
Qed.

(** Changes that concern neither pending entries nor tasks. *)
Lemma keeps_frame X s s' :
  Later (world s) (world s') → scopes s' = scopes s → (∀ l, pendingAt s' l = pendingAt s l) → tasks s' = tasks s → Keeps X s X s'.
Proof.
  intros HL Hsc Hp Ht. apply keeps_intro; [done|by rewrite Hsc| |by auto|].
  - intros e. unfold known, taskEntry. rewrite Ht. setoid_rewrite Hp. auto.
  - intros e i He _. left. unfold held, waitingEntry in *. rewrite Ht. setoid_rewrite Hp. done.
Qed.

Lemma keeps_world X f s : Later (world s) (f (world s)) → Keeps X s X (setWorld f s).
Proof. intros HL. by apply keeps_frame. Qed.

Lemma pendingAt_updLane l f s l' :
  pendingAt (updLane l f s) l' = if decide (l = l') then default [] (pendingEntries ∘ f <$> laneHeap s !! l') else pendingAt s l'.
Proof. unfold pendingAt. simpl. rewrite list_lookup_alter. case_decide; [subst|done]. by destruct (laneHeap s !! l'). Qed.

Lemma keeps_updLane X l f s : (∀ x, pendingEntries (f x) = pendingEntries x) → Keeps X s X (updLane l f s).
Proof.
  intros Hf. apply keeps_frame; [done..| |done]. intros l'. rewrite pendingAt_updLane. case_decide; [subst|done].
  unfold pendingAt. destruct (laneHeap s !! l'); simpl; [apply Hf|done].
Qed.

(** A task moves on: what it held while in line is still held, or was answered. *)
Lemma keeps_updTask X t f s :
  (∀ x, tasks s !! t = Some x → tEntry (f x) = tEntry x) →
  (∀ x e i, tasks s !! t = Some x → waits (tPhase x) = true → waits (tPhase (f x)) = false → tEntry x = Some e →
     coversIn (world s) e i → answered s i) →
  Keeps X s X (updTask t f s).
Proof.
  intros He Hw. apply keeps_intro; [done..| |by auto|].
  - intros e [?|[?|(t' & Ht')]]; left; [by left|by right; left|right; right]. exists t'. unfold taskEntry in *. simpl in Ht'.
    rewrite list_lookup_alter in Ht'. destruct (decide (t = t')) as [->|]; [|done]. destruct (tasks s !! t') as [x|] eqn:Hx; [|done].
    simpl in *. by rewrite <- (He x eq_refl).
  - intros e i [?|[?|(t' & Ht')]] Hc; [left; by left|left; by right; left|].
    unfold waitingEntry in Ht'. destruct (tasks s !! t') as [x|] eqn:Hx; [|done]. simpl in Ht'. destruct (waits (tPhase x)) eqn:Hwx; [|done].
    destruct (decide (t = t')) as [->|Hne].
    + destruct (waits (tPhase (f x))) eqn:Hwf; [left; right; right; exists t'|right; left; by eapply Hw].
      unfold waitingEntry. simpl. rewrite list_lookup_alter_eq, Hx. simpl. by rewrite Hwf, He.
    + left. right. right. exists t'. unfold waitingEntry. simpl. rewrite list_lookup_alter_ne, Hx by done. simpl. by rewrite Hwx.
Qed.

(** A change that leaves a waiting task in line, or concerns one that is not. *)
Lemma keeps_phase X t f s x : tasks s !! t = Some x → tEntry (f x) = tEntry x → (waits (tPhase x) = true → waits (tPhase (f x)) = true) →
  Keeps X s X (updTask t f s).
Proof. intros Hx He Hw. apply keeps_updTask; [intros x' Hx'; congruence|]. intros x' e i Hx' Hw1 Hw2. simplify_eq. by rewrite Hw in Hw2. Qed.

Lemma keeps_abortExecution X l s : Keeps X s X (abortExecution l s).
Proof.
  unfold abortExecution. destruct (_ ≫= _) as [t|]; [|apply keeps_refl]. apply keeps_updTask; [done|]. intros x e i _ Hw Hw'. simpl in Hw'. congruence.
Qed.

(** ** Handing entries over *)

(** The pending entries of a lane are taken. *)
Lemma keeps_take l f s : (∀ x, pendingEntries (f x) = []) → Keeps [] s (pendingAt s l) (updLane l f s).
Proof.
  intros Hf. assert (∀ l', pendingAt (updLane l f s) l' = if decide (l = l') then [] else pendingAt s l') as Hp.
  { intros l'. rewrite pendingAt_updLane. case_decide; [|done]. destruct (laneHeap s !! l'); simpl; [apply Hf|done]. }
  apply keeps_intro; [done..| | |].
  - intros e [He|[(l' & He)|?]]; left; [right; left; by exists l| |by right; right]. rewrite Hp in He.
    case_decide; [by apply not_elem_of_nil in He|]. right. left. by exists l'.
  - intros l'. rewrite Hp. case_decide; [right; apply owned_nil|by left].
  - intros e i [He|[(l' & He)|?]] _; left; [by apply not_elem_of_nil in He| |by right; right].
    destruct (decide (l = l')) as [->|Hne]; [by left|]. right. left. exists l'. by rewrite Hp, decide_False.
Qed.

(** Entries that are told their outcome. *)
Lemma keeps_reject es r o now s : Keeps es s [] (setWorld (emitRejectedEntries es r o now) s).
Proof.
  intros HS. destruct (emitRejected_spec es r o now (world s)) as [HL Hpub]; [apply HS|intros e He; apply (si_entry _ _ HS); by left|].
  revert HS. apply keeps_intro; [done|done| |by auto|].
  - intros e [He|He]; [by apply not_elem_of_nil in He|left; by right].
  - intros e i [He|He] Hc; [right; left; left; by eapply Hpub|left; by right].
Qed.

(** Entries that are coalesced. *)
Lemma keeps_coalesce es s w e : coalesceQueuedEntries es (world s) = Some (w, e) → Keeps es s [e] (setWorld (fun _ => w) s).
Proof.
  intros Hc HS. destruct (coalesce_spec es (world s) w e) as (HL & Hok & Hcov & _); [apply HS|intros e0 He; apply (si_entry _ _ HS); by left|done|].
  revert HS. apply keeps_intro; [done|done| |by auto|].
  - intros e0 [->%list_elem_of_singleton|He]; [by right|left; by right].
  - intros e0 i [He|He] Hcv; [right; right; exists e|left; by right]. split; [left; by left|by eapply Hcov].
Qed.

(** An entry gets a task. *)
Lemma keeps_schedule l b e o s : Keeps (option_list e) s [] (scheduleLaneTask l b e o s).
Proof.
  destruct (schedule_parts l b e o s) as (Eh & _ & Et & Ew).
  assert (scopes (scheduleLaneTask l b e o s) = scopes s) as Es
    by (unfold scheduleLaneTask, onLaneQueue; by destruct (laneQueue _ _)).
  set (s' := scheduleLaneTask l b e o s) in *. assert (∀ l', pendingAt s' l' = pendingAt s l') as Hp by (intros l'; unfold pendingAt; by rewrite Eh).
  apply keeps_intro; [by rewrite Ew|by rewrite Es| |by auto|].
  - intros e0 [He|[(l' & He)|(t & He)]]; left; [by apply not_elem_of_nil in He|right; left; exists l'; by rewrite <- Hp|].
    unfold taskEntry in He. rewrite Et in He. apply bind_Some in He as (x & [Hx|[-> ->]]%snoc_Some & He).
    + right. right. exists t. unfold taskEntry. by rewrite Hx.
    + simpl in He. rewrite He. left. by left.
  - intros e0 i [He|[(l' & He)|(t & He)]] _; left; right; [right|left; exists l'; by rewrite Hp|right].
    + destruct e as [e|]; [|by apply not_elem_of_nil in He]. apply list_elem_of_singleton in He as ->. exists (length (tasks s)).
      unfold waitingEntry. rewrite Et, lookup_app_r, Nat.sub_diag by lia. done.
    + exists t. unfold waitingEntry in *. rewrite Et. apply bind_Some in He as (x & Hx & He).
      rewrite lookup_app_l by (by eapply lookup_lt_Some). by rewrite Hx.
Qed.

(** An entry is given to a task that has none. *)
Lemma keeps_give t x e s : tasks s !! t = Some x → tEntry x = None →
  Keeps [e] s [] (updTask t (setPhase GateWaiting ∘ setEntry e) s).
Proof.
  intros Hx Hn. set (s' := updTask _ _ s). assert (∀ t', tasks s' !! t' = if decide (t = t') then Some (setPhase GateWaiting (setEntry e x)) else tasks s !! t') as Ht.
  { intros t'. unfold s'. simpl. rewrite list_lookup_alter. case_decide; [subst|done]. by rewrite Hx. }
  apply keeps_intro; [done..| |by auto|].
  - intros e0 [He|[?|(t' & He)]]; left; [by apply not_elem_of_nil in He|by right; left|]. unfold taskEntry in He. rewrite Ht in He.
    case_decide; [simpl in He; injection He as <-; left; by left|]. right. right. by exists t'.
  - intros e0 i [->%list_elem_of_singleton|[?|(t' & He)]] _; left; right; [right|by left|right].
    + exists t. unfold waitingEntry. by rewrite Ht, decide_True.
    + exists t'. unfold waitingEntry in *. rewrite Ht. case_decide; [subst t'|done]. rewrite Hx in He. simpl in He. rewrite Hn in He.
      by destruct (waits _).
Qed.

(** ** Operations *)

Lemma keeps_process l now s : Keeps [] s [] (processCollectedMessages l now s).
Proof.
  unfold processCollectedMessages. destruct (laneHeap s !! l) as [lane|] eqn:Hl; [|apply keeps_refl].
  assert (pendingEntries lane = pendingAt s l) as Hp by (unfold pendingAt; by rewrite Hl).
  case_bool_decide; [apply keeps_refl|]. rewrite Hp. destruct (isShutdown s).
  - eapply keeps_trans; [|apply keeps_reject]. by apply keeps_take.
  - destruct (coalesceQueuedEntries (pendingAt s l) (world s)) as [[w e]|] eqn:Ec; [|apply keeps_refl].
    eapply keeps_trans; [by apply (keeps_take l (setPending []))|].
    eapply keeps_trans; [by apply (keeps_coalesce _ (updLane l (setPending []) s))|].
    eapply keeps_trans; [apply (keeps_world [e] (emit (ECoalesced (eSessionKey e) (eChannelType e) (length (pendingAt s l)) now))), later_emit|].
    apply (keeps_schedule l (RunEntry true) (Some e)).
Qed.

Lemma keeps_laneStart q now s s' : CInv (core s) → laneStart q now s = Some s' → Keeps [] s [] s'.
Proof.
  intros HI (pq & Hq & ((t & pq') & Hst & Hs)%bind_Some)%bind_Some. injection Hs as <-.
  destruct (started_task q pq pq' t s (ci_queues _ HI) Hq Hst) as (task & lane & Ht & Hl & _ & Hp).
  set (s0 := setQueues _ s). eapply keeps_trans; [by apply (keeps_frame [] s s0)|].
  assert (∀ s1, tasks s1 = tasks s0 → Keeps [] s1 [] (setGate (pqAdd t) (updTask t (setPhase GateWaiting) s1))) as Hgate.
  { intros s1 E. eapply keeps_trans; [apply (keeps_phase [] t (setPhase GateWaiting) s1 task); [by rewrite E|done..]|by apply keeps_frame]. }
  unfold runLaneTask. change (tasks s0) with (tasks s). rewrite Ht. destruct (tBody task) eqn:Hb; [by apply Hgate|].
  change (laneHeap s0) with (laneHeap s). rewrite Hl. pose proof (steer_empty s t task HI Ht Hb Hp) as He.
  assert (pendingEntries lane = pendingAt s0 (tLane task)) as -> by (unfold pendingAt; simpl; by rewrite Hl).
  destruct (coalesceQueuedEntries _ (world s0)) as [[w e]|] eqn:Ec.
  - set (ev := ECoalesced _ _ _ _). eapply keeps_trans; [by apply (keeps_take (tLane task) (setPending []))|].
    eapply keeps_trans; [by apply (keeps_coalesce _ (updLane (tLane task) (setPending []) s0))|].
    eapply keeps_trans; [apply (keeps_world [e] (emit ev)), later_emit|].
    eapply keeps_trans; [refine (keeps_give t task e _ _ He); exact Ht|]. apply keeps_frame; try done. simpl. by rewrite alter_alter.
  - apply keeps_updTask; [done|]. intros x e i Hx. change (tasks s0) with (tasks s) in Hx. rewrite Ht in Hx. congruence.
Qed.

Lemma keeps_gateStart now s s' : gateStart now s = Some s' → Keeps [] s [] s'.
Proof.
  intros ((t & gate') & Hst & (task & Ht & (e & He & Hs)%bind_Some)%bind_Some)%bind_Some. injection Hs as <-.
  set (f := fun w => emit _ _). set (s1 := setWorld f s).
  eapply keeps_trans; [apply (keeps_world [] f)|].
  { unfold f. etrans; [|apply later_emit]. etrans; [apply (later_emit (EDequeued (eSessionKey e) (eChannelType e) (Z.max 0 (now - enqueuedAt e)) now))|].
    apply later_same; [done|simpl; by rewrite length_alter|done]. }
  eapply keeps_trans; [apply (keeps_updTask [] t (setPhase Executing ∘ setStarted) s1)|].
  - done.
  - intros x e' i Hx _ _ He' Hc. change (tasks s !! t = Some x) in Hx. simplify_eq. right. exists t, e. split; [|done].
    simpl. apply elem_of_app. right. by left.
  - eapply keeps_trans; [by apply (keeps_updLane [] (tLane task) (beginExecution t))|]. by apply keeps_frame.
Qed.

Lemma keeps_handlerEnd t ok now s s' : handlerEnd t ok now s = Some s' → Keeps [] s [] s'.
Proof.
  intros (task & Ht & (e & He & Hs)%bind_Some)%bind_Some. case_bool_decide as Hp; [|done]. simpl in Hs. injection Hs as <-.
  set (fl := match tBody task with SteerAgain => false | RunEntry _ => negb ok end).
  set (s1 := updLane (tLane task) (endExecution t e now) (updTask t (setPhase GateLeaving ∘ setFailed fl) s)).
  assert (Keeps [] s [] s1) as H1.
  { eapply keeps_trans; [apply (keeps_phase [] t (setPhase GateLeaving ∘ setFailed fl) s task); [done..|by rewrite Hp]|by apply keeps_updLane]. }
  destruct (tBody task) as [[]|]; try done. eapply keeps_trans; [exact H1|apply keeps_process].
Qed.

Lemma pendingAt_onLaneQueue l f s l' : pendingAt (onLaneQueue l f s) l' = pendingAt s l'.
Proof. unfold onLaneQueue. by destruct (laneQueue l s). Qed.

Lemma keeps_onLaneQueue X l f s : Keeps X s X (onLaneQueue l f s).
Proof. unfold onLaneQueue. destruct (laneQueue l s); [by apply keeps_frame|apply keeps_refl]. Qed.

(** The end of a task. *)
Lemma keeps_leave t now s s' : gateLeave t s = Some s' ∨ laneLeave t s = Some s' ∨ settle t now s = Some s' →
  Keeps [] s [] s'.
Proof.
  intros [Hs|[Hs|Hs]]; apply bind_Some in Hs as (task & Ht & Hs); case_bool_decide as Hp; try done; simpl in Hs; injection Hs as <-.
  - eapply keeps_trans; [apply (keeps_phase [] t (setPhase LaneLeaving) s task); [done..|by rewrite Hp]|by apply keeps_frame].
  - eapply keeps_trans; [apply (keeps_phase [] t (setPhase Settled) s task); [done..|by rewrite Hp]|apply keeps_onLaneQueue].
  - set (s1 := setScheduled _ _). assert (Keeps [] s [] s1) as H1.
    { eapply keeps_trans; [apply (keeps_phase [] t (setPhase Gone) s task); [done..|by rewrite Hp]|by apply keeps_frame]. }
    destruct (tEntry task) as [e|] eqn:He; [|done]. destruct (tObserved task && tFailed task); [|done].
    eapply keeps_trans; [exact H1|]. intros HS. assert (scopeOk (world s1) e) as Hok.
    { apply (si_entry _ _ HS). right. right. exists t. unfold taskEntry. simpl. rewrite list_lookup_alter_eq, Ht. done. }
    revert HS. apply (keeps_world [] (publishEntry SourceTerminal.OError SourceTerminal.RQueueRejected now e)).
    split; [..|done|done]; intros Hw; by apply (publishEntry_spec SourceTerminal.OError SourceTerminal.RQueueRejected now e (world s1) Hw Hok).
Qed.

(** ** Enqueueing *)

Lemma owned_app w es e : Owned w es → ownership e ∉ ownership <$> es → (ownership e < length (owners w))%nat → Owned w (es ++ [e]).
Proof.
  intros [Hn Ho] He Hl. split.
  - rewrite fmap_app. apply NoDup_app. split_and!; [done| |apply NoDup_singleton].
    intros x Hx Hy. simpl in Hy. apply list_elem_of_singleton in Hy as ->. done.
  - intros e' [He'| ->%list_elem_of_singleton]%elem_of_app; [by apply Ho|done].
Qed.

Lemma keeps_accumulate l e c now s : is_Some (laneHeap s !! l) → ownership e ∉ ownership <$> pendingAt s l →
  (ownership e < length (owners (world s)))%nat → Keeps [e] s [] (accumulate l e c now s).
Proof.
  intros [lane Hl] Hfresh Hown HS. unfold accumulate. rewrite Hl.
  assert (pendingEntries lane = pendingAt s l) as -> by (unfold pendingAt; by rewrite Hl). set (es := pendingAt s l ++ [e]).
  destruct (owned_app (world s) (pendingAt s l) e (si_owned _ _ HS l) Hfresh Hown) as [Hnd Hlt].
  destruct (overflow_kept es c (eSessionKey e) (eChannelType e) now (world s)) as (HL & Hok & Hnd' & Hfrom & Hcov); [apply HS| |done|].
  { intros e0 [He0| ->%list_elem_of_singleton]%elem_of_app; apply (si_entry _ _ HS); [right; left; by exists l|left; by left]. }
  set (r := applyOverflowPolicyToQueueEntries _ _ _ _ _ _) in *. set (w' := emitDroppedEntries _ _ _ _ _) in *.
  set (s' := updLane l _ _). assert (∀ l', pendingAt s' l' = if decide (l = l') then r.2.1 else pendingAt s l') as Hp.
  { intros l'. unfold s'. rewrite pendingAt_updLane. case_decide; [subst|done]. simpl. by rewrite Hl. }
  revert HS. apply keeps_intro; [done|done|..].
  - intros e0 [He|[(l' & He)|?]]; [by apply not_elem_of_nil in He| |left; by right; right]. rewrite Hp in He.
    destruct (decide (l = l')); [right; by apply Hok|left]. right. left. by exists l'.
  - intros l'. rewrite Hp. case_decide; [right|by left]. split; [done|]. intros e1 (e2 & He0 & ->)%Hfrom.
    specialize (Hlt e2 He0). pose proof (la_owners _ _ HL). simpl. lia.
  - assert (∀ e0 i, e0 ∈ es → coversIn (world s) e0 i → held [] s' e0 ∨ accountedWith [] s' i) as Hes.
    { intros e0 i He0 Hc. right. destruct (Hcov e0 i He0 Hc) as [?|(e1 & He1 & Hc1)]; [left; by left|right]. exists e1. split; [|done].
      right. left. exists l. by rewrite Hp, decide_True. }
    intros e0 i [->%list_elem_of_singleton|[(l' & He)|?]] Hc.
    + apply Hes; [|done]. apply elem_of_app. right. by left.
    + destruct (decide (l = l')) as [<-|Hne]; [apply Hes; [apply elem_of_app; by left|done]|].
      left. right. left. exists l'. by rewrite Hp, decide_False.
    + left. by right; right.
Qed.

(** The entry of a request: new ownership, its scope the caller's or a new one. *)
Lemma newEntry_spec r now s w e : SInv [] s → match rScope r with Some sc => sc ∈ scopes s | None => True end →
  newEntry r now (world s) = (w, e) →
  Later (world s) w ∧ scopeOk w e ∧ ownership e = length (owners (world s)) ∧ length (owners w) = S (length (owners (world s))).
Proof.
  intros HS Hsc [= <- <-]. destruct (rScope r) as [sc|].
  - split; [by split; simpl; rewrite ?length_app; try lia|]. split; [by apply HS|]. simpl. rewrite length_app. simpl. split; [done|lia].
  - destruct (SourceTerminal.create_spec (mChannelType (rMessage r)) (mChannelId (rMessage r)) (mId (rMessage r)) (rChannelType r)
      (terminals (world s)) [] (si_cells _ _ HS)) as (H1 & H2 & H3).
    split; [by split; simpl; rewrite ?length_app; try lia|]. split; [done|]. simpl. rewrite length_app. simpl. split; [done|lia].
Qed.

Lemma keeps_dispatch c key l e o now s : is_Some (laneHeap s !! l) → ownership e ∉ ownership <$> pendingAt s l →
  (ownership e < length (owners (world s)))%nat → Keeps [e] s [] (dispatch c key l e o now s).
Proof.
  intros Hl Hf Ho. unfold dispatch. assert (∀ b, Keeps [e] s [] (executeLaneTask l e b o s)) as He
    by (intros b; apply (keeps_schedule l (RunEntry b) (Some e) o s)).
  destruct (mode c); try done; (destruct (default false _); [|done]).
  - eapply keeps_trans; [by apply (keeps_accumulate l e (overflow c) now)|]. destruct (0 <? debounceMs c)%Z; [by apply keeps_frame|apply keeps_refl].
  - eapply keeps_trans; [by apply (keeps_accumulate l e (overflow c) now)|]. set (s1 := accumulate _ _ _ _ _).
    eapply keeps_trans; [apply (keeps_abortExecution [] l)|].
    eapply keeps_trans; [by apply (keeps_frame [] _ (setTimers (fun ts => mdel ts key) (abortExecution l s1)))|].
    apply (keeps_schedule l SteerAgain None false).
Qed.

Lemma getOrCreate_pending key base now s s1 l : getOrCreateLane key base now s = (s1, l) →
  (∀ l', pendingAt s1 l' = pendingAt s l') ∧ scopes s1 = scopes s.
Proof.
  unfold getOrCreateLane. destruct (mget (lanes s) key) as [l0|].
  - intros [= <- <-]. split; [|done]. intros l'. rewrite pendingAt_updLane. case_decide; [subst|done]. unfold pendingAt.
    by destruct (laneHeap s !! l').
  - assert (∀ l' lane, pendingEntries lane = [] → default [] (pendingEntries <$> (laneHeap s ++ [lane]) !! l') = pendingAt s l') as Hn.
    { intros l' lane E. unfold pendingAt. destruct (decide (l' < length (laneHeap s))%nat); [by rewrite lookup_app_l|].
      rewrite lookup_app_r, (lookup_ge_None_2 (laneHeap s)) by lia. by destruct (l' - _)%nat. }
    destruct (sessionQueue base s) as [q|]; intros [= <- <-]; (split; [intros l'; by apply Hn|done]).
Qed.

Lemma keeps_enqueue r now s s' : CInv (core s) → match rScope r with Some sc => sc ∈ scopes s | None => True end →
  (enqueueMessage config r now s) = (s', true) →
  SInv [] s → SInv [] s' ∧ Later (world s) (world s') ∧ (∀ i, accountedWith [] s i → accountedWith [] s' i) ∧
  ∀ w e i, newEntry r now (world s) = (w, e) → i ∈ sourceTerminalScope e → accountedWith [] s' i.
Proof.
  intros HI Hsc Hs HS. destruct (isShutdown s) eqn:Hd; [unfold enqueueMessage in Hs; by rewrite Hd in Hs|].
  destruct (createQueueLaneIdentity (rSessionKey r) (rChannelType r) (rContext r)) as [base key] eqn:Eid.
  destruct (getOrCreateLane key base now s) as [s1 l] eqn:Eg. destruct (getOrCreate_pending key base now s s1 l Eg) as [Hp1 Hsc1].
  destruct (getOrCreate_refines key base now s s1 l HI Hd Eg) as (_ & _ & _ & Et1 & Ew1 & _ & [lane Hl] & _).
  destruct (newEntry r now (world s1)) as [w e] eqn:En.
  destruct (enqueue_unfold config r now s base key s1 l w e Hd Eid Eg En) as [d E]. rewrite Hs in E. simpl in E. subst s'.
  set (ev := EEnqueued _ _ d _ _) in *.
  set (s2 := updLane l _ s1). assert (Keeps [] s [] s2) as K2.
  { eapply keeps_trans; [apply (keeps_frame [] s s1); [by rewrite Ew1|done..]|by apply keeps_updLane]. }
  destruct (K2 HS) as (HS2 & HL2 & _). change (world s1) with (world s2) in En.
  destruct (newEntry_spec r now s2 w e HS2) as (HLw & Hok & Ho & Hlen); [simpl; by rewrite Hsc1|done|].
  assert (Keeps [] s2 [e] (setWorld (fun _ => emit ev w) s2)) as K3.
  { apply keeps_intro; [simpl; etrans; [exact HLw|apply later_emit]|done| |by auto|].
    - intros e0 [->%list_elem_of_singleton|He]; [by right|left; by right].
    - intros e0 i [Hx|He] _; [by apply not_elem_of_nil in Hx|left; by right]. }
  set (s3 := setWorld _ s2) in *.
  assert (Keeps [e] s3 [] (dispatch (resolveChannelConfig config (rChannelType r)) key l e (negb (rWait r)) now s3)) as K4.
  { apply keeps_dispatch; [simpl; rewrite list_lookup_alter_eq, Hl; eauto| |simpl; lia].
    intros (e0 & E0 & He0)%list_elem_of_fmap. change (pendingAt s3 l) with (pendingAt s2 l) in He0.
    destruct (si_owned _ _ HS2 l) as [_ Hlt]. specialize (Hlt e0 He0). simpl in *. lia. }
  destruct (K3 HS2) as (HS3 & HL3 & A3). destruct (K4 HS3) as (HS4 & HL4 & A4). destruct (K2 HS) as (_ & _ & A2).
  split; [done|]. split; [by do 2 (etrans; [eassumption|])|]. split; [auto|].
  intros w0 e0 i En0 Hi. rewrite <- Ew1 in En0. change (world s1) with (world s2) in En0. rewrite En in En0. injection En0 as <- <-.
  apply A4. right. exists e. split; [left; by left|]. by apply scope_covers.
Qed.

(** ** Shutdown *)

Lemma keeps_foldl {A} (P : State Q → Prop) (f : State Q → A → State Q) l s :
  (∀ x a, P x → SInv [] x → Keeps [] x [] (f x a) ∧ P (f x a)) → P s → SInv [] s →
  Keeps [] s [] (foldl f s l) ∧ P (foldl f s l).
Proof.
  intros Hf. revert s. induction l as [|a l IH]; intros s HP HS; simpl; [split; [apply keeps_refl|done]|].
  destruct (Hf s a HP HS) as [HK HP1]. destruct (HK HS) as (HS1 & _). destruct (IH (f s a) HP1 HS1) as [HK2 HP2].
  split; [by eapply keeps_trans|done].
Qed.

(** The entries of these tasks have been told. *)
Definition Told (ts : list nat) s : Prop := ∀ t e, t ∈ ts → taskEntry s t = Some e → entryPublished (world s) e.

Lemma told_later ts s s' : cellsOk (terminals (world s)) → Later (world s) (world s') → (∀ t, taskEntry s' t = taskEntry s t) → Told ts s → Told ts s'.
Proof. intros Hw HL He HT t e Ht. rewrite He. intros Hx j Hj. apply (later_published (world s)); [done..|]. by apply (HT t e). Qed.

Lemma taskEntry_updTask t f s t' : (∀ x, tEntry (f x) = tEntry x) → taskEntry (updTask t f s) t' = taskEntry s t'.
Proof. intros Hf. unfold taskEntry. simpl. rewrite list_lookup_alter. case_decide; [subst|done]. destruct (tasks s !! t'); simpl; [apply Hf|done]. Qed.

Lemma keeps_rejectPending ts now s l : Told ts s → SInv [] s → Keeps [] s [] (rejectPending now s l) ∧ Told ts (rejectPending now s l).
Proof.
  intros HT HS. unfold rejectPending. destruct (laneHeap s !! l) as [lane|] eqn:Hl; [|split; [apply keeps_refl|done]].
  assert (pendingEntries lane = pendingAt s l) as -> by (unfold pendingAt; by rewrite Hl). set (s1 := updLane l _ _).
  assert (Keeps [] s [] s1) as K1 by (eapply keeps_trans; [by apply (keeps_take l (setPending []))|];
    exact (keeps_reject (pendingAt s l) SourceTerminal.RQueueRejected SourceTerminal.OError now (updLane l (setPending []) s))).
  set (s2 := match _ with Some e => _ | None => s1 end).
  assert (Keeps [] s1 [] s2 ∧ tasks s2 = tasks s1) as [K2 Et2].
  { unfold s2. destruct (_ ≫= _) as [e|] eqn:Ea; [|split; [apply keeps_refl|done]]. split; [|done].
    apply bind_Some in Ea as (t & _ & (task & Ht & He)%bind_Some). intros HS1.
    destruct (emitRejected_spec [e] SourceTerminal.RQueueAborted SourceTerminal.OAborted now (world s1)) as [HL _]; [apply HS1| |].
    - intros e' ->%list_elem_of_singleton. apply (si_entry _ _ HS1). right. right. exists t. unfold taskEntry. by rewrite Ht.
    - revert HS1. by apply keeps_world. }
  assert (Keeps [] s [] (abortExecution l s2)) as K by (eapply keeps_trans; [exact K1|]; eapply keeps_trans; [exact K2|apply keeps_abortExecution]).
  split; [done|]. destruct (K HS) as (_ & HL & _). apply (told_later _ s); [apply HS|done| |done]. intros t.
  unfold abortExecution. clearbody s2. destruct (laneHeap s2 !! l ≫= abortController) as [t'|]; [rewrite taskEntry_updTask by done|]; unfold taskEntry; by rewrite Et2.
Qed.

Lemma keeps_abortTask ts t s : t ∈ ts → Told ts s → SInv [] s → Keeps [] s [] (abortTask t s) ∧ Told ts (abortTask t s).
Proof.
  intros Hin HT HS. unfold abortTask. destruct (tasks s !! t) as [task|] eqn:Ht; [|split; [apply keeps_refl|done]].
  assert (∀ p, Keeps [] s [] (updTask t (setPhase p ∘ setFailed true) (updTask t setAborted s))) as Hp.
  { intros p. eapply keeps_trans; [by apply (keeps_phase [] t setAborted s task)|]. apply keeps_updTask; [done|].
    intros x e i Hx _ _ He Hc. left. apply (entryPublished_covers (world s) e); [apply HS| |done]. apply (HT t e Hin).
    simpl in Hx. rewrite list_lookup_alter_eq, Ht in Hx. injection Hx as <-. unfold taskEntry. by rewrite Ht. }
  assert (∀ p, ∀ u, taskEntry (updTask t (setPhase p ∘ setFailed true) (updTask t setAborted s)) u = taskEntry s u) as He
    by (intros p u; by rewrite !taskEntry_updTask).
  assert (∀ s', world s' = world s → (∀ u, taskEntry s' u = taskEntry s u) → Told ts s') as Htold.
  { intros s' Ew Ee. apply (told_later _ s); [apply HS|by rewrite Ew|done|done]. }
  assert (Keeps [] s [] (updTask t setAborted s) ∧ Told ts (updTask t setAborted s)) as Hflag.
  { split; [by apply (keeps_phase [] t setAborted s task)|]. apply Htold; [done|]. intros u. by rewrite taskEntry_updTask. }
  destruct (tPhase task); try done.
  - split; [eapply keeps_trans; [apply (Hp Settled)|apply keeps_onLaneQueue]|].
    unfold onLaneQueue. destruct (laneQueue _ _); (apply Htold; [done|apply (He Settled)]).
  - split; [eapply keeps_trans; [apply (Hp LaneLeaving)|by apply keeps_frame]|]. apply Htold; [done|apply (He LaneLeaving)].
Qed.

Lemma keeps_shutdown now s : Keeps [] s [] (performShutdown now s).
Proof.
  unfold performShutdown. destruct (isShutdown s); [apply keeps_refl|]. set (s1 := setGate pqPause _). intros HS.
  assert (Keeps [] s [] s1) as K1.
  { destruct (keeps_foldl (fun _ => True) (fun s l => onLaneQueue l pqPause s) (lanes (setTimers (fun _ => []) s)).*2 (setTimers (fun _ => []) s))
      as [HK _]; [intros x l _ _; split; [apply keeps_onLaneQueue|done]|done|by apply (keeps_frame [] s)|].
    eapply keeps_trans; [by apply (keeps_frame [] s (setTimers (fun _ => []) s))|]. eapply keeps_trans; [exact HK|by apply keeps_frame]. }
  revert HS. eapply keeps_trans; [exact K1|]. clearbody s1. clear K1. set (ns := filter _ _). set (es := omap _ ns). set (s2 := setWorld _ s1).
  intros HS. assert (∀ e, e ∈ es → scopeOk (world s1) e) as Hes.
  { intros e (t & _ & He)%list_elem_of_omap. apply (si_entry _ _ HS). right. right. by exists t. }
  destruct (emitRejected_spec es SourceTerminal.RQueueRejected SourceTerminal.OError now (world s1) (si_cells _ _ HS) Hes) as [HL Hpub].
  assert (Keeps [] s1 [] s2) as K2 by by apply keeps_world.
  assert (Told ns s2) as HT.
  { intros t e Ht He j Hj. assert (e ∈ es) as Hin by (apply list_elem_of_omap; by exists t).
    apply (Hpub e j Hin). apply scope_covers; auto. }
  destruct (K2 HS) as (HS2 & _).
  destruct (keeps_foldl (Told ns) (rejectPending now) (lanes s2).*2 s2) as [K3 HT3]; [intros x l; apply keeps_rejectPending|done..|].
  destruct (K3 HS2) as (HS3 & _).
  destruct (keeps_foldl (fun x => Told ns x) (fun x t => if decide (t ∈ ns) then abortTask t x else x) ns (foldl (rejectPending now) s2 (lanes s2).*2)) as [K4 _];
    [|done..|].
  { intros x t HTx HSx. case_decide; [by apply keeps_abortTask|split; [apply keeps_refl|done]]. }
  revert HS. eapply keeps_trans; [exact K2|]. eapply keeps_trans; [exact K3|].
  apply (keeps_trans _ _ [] (foldl (fun s t => abortTask t s) (foldl (rejectPending now) s2 (lanes s2).*2) ns)); [|by apply keeps_frame].
  revert K4. generalize (foldl (rejectPending now) s2 (lanes s2).*2). clear. intros x HK.
  assert (∀ ts x, (∀ t, t ∈ ts → t ∈ ns) → foldl (fun x t => if decide (t ∈ ns) then abortTask t x else x) x ts = foldl (fun s t => abortTask t s) x ts) as E.
  { induction ts as [|t ts IH]; intros y Hts; simpl; [done|]. rewrite decide_True by (apply Hts; left). apply IH. intros u Hu. apply Hts. by right. }
  by rewrite E in HK.
Qed.

Lemma down_pending s l : CInv (core s) → isShutdown s = true → pendingAt s l = [].
Proof.
  intros HI Hd. unfold pendingAt. destruct (laneHeap s !! l) as [lane|] eqn:Hl; [|done]. simpl.
  destruct (pendingEntries lane) as [|e es] eqn:Hp; [done|]. destruct (li_pending _ (ci_lanes _ HI) l _ (core_lane s l lane Hl)) as [Hx _];
    [apply pending_shape; by rewrite Hp|]. simpl in Hx. congruence.
Qed.

Lemma keeps_finish s s' : Good config s → finishShutdown s = Some s' → Keeps [] s [] s'.
Proof.
  intros [HI [f HK]] (ts & Hts & Hs)%bind_Some HS. destruct (negb _); [done|]. injection Hs as <-.
  assert (isShutdown s = true) as Hd by (apply (k_wait _ _ _ HK); by rewrite Hts).
  destruct (keeps_foldl (fun x => ∀ l, pendingAt x l = []) (fun s l => updLane l (setDepth 0 ∘ setPending []) (onLaneQueue l pqClear s))
    (lanes s).*2 s) as [K _]; [| |done|].
  - intros x l Hx _. assert (∀ l', pendingAt (updLane l (setDepth 0 ∘ setPending []) (onLaneQueue l pqClear x)) l' = []) as Hp.
    { intros l'. rewrite pendingAt_updLane, pendingAt_onLaneQueue. case_decide; [|done]. by destruct (laneHeap _ !! l'). }
    split; [|done]. eapply keeps_trans; [apply (keeps_onLaneQueue [] l pqClear)|]. apply keeps_frame; [done..| |done].
    intros l'. by rewrite Hp, pendingAt_onLaneQueue.
  - intros l. by apply down_pending.
  - revert HS. eapply keeps_trans; [exact K|by apply keeps_frame].
Qed.

(** ** Every operation *)

Lemma keeps_exec o s s' : Good config s → exec config o s = Some s' → Keeps [] s [] s'.
Proof.
  intros HG Hs. pose proof HG as [HI _]. destruct o; simpl in Hs.
  - injection Hs as <-. intros HS.
    destruct (SourceTerminal.create_spec channelType channelId messageId expectedChannelType (terminals (world s)) [] (si_cells _ _ HS)) as (H1 & H2 & H3).
    set (r := SourceTerminal.createSourceTerminalScope _ _ _ _ _) in *. set (s1 := setWorld (setTerminals r.1) s).
    assert (Keeps [] s [] s1) as K1 by (apply keeps_world; by apply later_terminals).
    destruct (K1 HS) as ([G1 G2 G3 G4] & HL & HA). split; [|done]. split; [done| |done..].
    simpl. intros sc [Hx| ->%list_elem_of_singleton]%elem_of_app; [by apply G2|done].
  - case_bool_decide as Hin; [|done]. injection Hs as <-. intros HS.
    destruct (SourceTerminal.publish_spec sc o r now (terminals (world s)) (si_cells _ _ HS) (si_scopes _ _ HS sc Hin)) as (H1 & H2 & _).
    revert HS. apply (keeps_world [] (fun w => setTerminals (SourceTerminal.publish sc o r now (terminals w)).1 w)). by apply later_terminals.
  - destruct (match rScope r with Some _ => _ | None => _ end) eqn:Hsc; [|done]. injection Hs as <-.
    destruct (enqueueMessage config r now s) as [s' []] eqn:Ee.
    + intros HS. destruct (keeps_enqueue r now s s' HI) as (H1 & H2 & H3 & _); [|done..]. destruct (rScope r); [by apply bool_decide_eq_true_1 in Hsc|done].
    + assert (s' = s) as ->; [|apply keeps_refl]. revert Ee. unfold enqueueMessage. destruct (isShutdown s); [by intros [= <-]|].
      destruct (createQueueLaneIdentity _ _ _), (getOrCreateLane _ _ _ _), (newEntry _ _ _). done.
  - by eapply keeps_laneStart.
  - by eapply keeps_gateStart.
  - by eapply keeps_handlerEnd.
  - apply (keeps_leave t 0). by left.
  - apply (keeps_leave t 0). by right; left.
  - apply (keeps_leave t now). by right; right.
  - apply bind_Some in Hs as (l & _ & (lane & _ & Hs)%bind_Some). injection Hs as <-.
    eapply keeps_trans; [by apply (keeps_frame [] s (setTimers (fun ts => mdel ts key) s))|].
    destruct (isExecuting lane); [apply keeps_refl|apply keeps_process].
  - destruct (isShutdown s); [done|]. injection Hs as <-. by apply keeps_frame.
  - injection Hs as <-. apply keeps_frame; [done..| |done]. intros l. unfold pendingAt. simpl. rewrite list_lookup_imap.
    destruct (laneHeap s !! l); simpl; [by case_decide|done].
  - injection Hs as <-. apply keeps_shutdown.
  - by apply keeps_finish.
Qed.

Lemma reachable_sinv s : reachable config s → Good config s ∧ SInv [] s.
Proof.
  apply (reachable_ind config (SInv [])).
  - split; simpl.
    + apply SourceTerminal.inv_empty.
    + intros sc Hx. by apply not_elem_of_nil in Hx.
    + intros e [Hx|[(l & Hx)|(t & Hx)]]; [by apply not_elem_of_nil in Hx| |done].
      unfold pendingAt in Hx. simpl in Hx. by apply not_elem_of_nil in Hx.
    + intros l. unfold pendingAt. simpl. apply owned_nil.
  - intros o s1 s2 HG HS Hs. by apply (keeps_exec o s1 s2 HG Hs).
Qed.

Lemma run_accounted ops s s' : Good config s → SInv [] s → run config ops s = Some s' →
  Good config s' ∧ SInv [] s' ∧ ∀ i, accountedWith [] s i → accountedWith [] s' i.
Proof.
  revert s. induction ops as [|o ops IH]; intros s HG HS Hr; simpl in Hr; [injection Hr as <-; auto|].
  apply bind_Some in Hr as (s1 & H1 & H2). destruct (keeps_exec o s s1 HG H1 HS) as (HS1 & _ & HA).
  destruct (IH s1 (good_exec config o s s1 HG H1) HS1 H2) as (HG' & HS' & HA'). split; [done|]. split; [done|auto].
Qed.

(** Everything accepted has been dealt with: no message pending, no task in line. *)
Definition drained s : Prop :=
  (∀ l lane, laneHeap s !! l = Some lane → pendingEntries lane = []) ∧
  (∀ t task, tasks s !! t = Some task → waits (tPhase task) = false).

Lemma drained_answered s i : drained s → accountedWith [] s i → answered s i.
Proof.
  intros [Hp Ht] [?|(e & [Hx|[(l & Hx)|(t & Hx)]] & _)]; [done|by apply not_elem_of_nil in Hx|exfalso..].
  - unfold pendingAt in Hx. destruct (laneHeap s !! l) as [lane|] eqn:Hl; simpl in Hx; [rewrite (Hp l lane Hl) in Hx|]; by apply not_elem_of_nil in Hx.
  - unfold waitingEntry in Hx. destruct (tasks s !! t) as [task|] eqn:Htask; [|done]. simpl in Hx. by rewrite (Ht t task Htask) in Hx.
Qed.

Lemma down_drained s : CInv (core s) → isShutdown s = true → drained s.
Proof.
  intros HI Hd. split.
  - intros l lane Hl. pose proof (down_pending s l HI Hd) as Hp. unfold pendingAt in Hp. by rewrite Hl in Hp.
  - intros t task Ht. destruct (li_down _ (ci_lanes _ HI) t _ Hd (core_task s t task Ht)) as [H1 H2]. simpl in *. by destruct (tPhase task).
Qed.

(** C17: no accepted message is lost.  Take any reachable state of a queue that is not
    shut down, let it accept a message and let any operations follow.  Each terminal
    cell of the message then has a published outcome, or was covered by an entry a
    handler was called with, or is covered by an entry that is still pending or held
    by a task in line; whatever coalescing, overflow policies, steering, lane
    cleanup and failures did meanwhile.  Once nothing waits any more, and in any case
    after shutdown, it was published or given to a handler. *)
Theorem accepted_never_lost s r now ops s' (Hs : reachable config s) (Hd : isShutdown s = false)
    (Hr : run config (OpEnqueue r now :: ops) s = Some s') :
  ∀ i, i ∈ sourceTerminalScope (newEntry r now (world s)).2 →
    (answered s' i ∨ ∃ e, coversIn (world s') e i ∧
       ((∃ l lane, laneHeap s' !! l = Some lane ∧ e ∈ pendingEntries lane) ∨
        (∃ t task, tasks s' !! t = Some task ∧ waits (tPhase task) = true ∧ tEntry task = Some e))) ∧
    (drained s' ∨ isShutdown s' = true → answered s' i).
Proof.
  intros i Hi. destruct (reachable_sinv s Hs) as [HG HS]. simpl in Hr.
  destruct (match rScope r with Some _ => _ | None => _ end) eqn:Hsc; [|done]. simpl in Hr.
  destruct (enqueueMessage config r now s) as [s1 b] eqn:Ee. assert (b = true) as ->.
  { revert Ee. unfold enqueueMessage. rewrite Hd. destruct (createQueueLaneIdentity _ _ _), (getOrCreateLane _ _ _ _), (newEntry _ _ _). by intros [= _ <-]. }
  destruct (keeps_enqueue r now s s1 (proj1 HG)) as (HS1 & _ & _ & Hnew); [by destruct (rScope r); [apply bool_decide_eq_true_1 in Hsc|]|done..|].
  assert (Good config s1) as HG1.
  { apply (good_exec config (OpEnqueue r now) s); [done|]. simpl. by rewrite Hsc, Ee. }
  destruct (newEntry r now (world s)) as [w e] eqn:En. destruct (run_accounted ops s1 s' HG1 HS1 Hr) as (HG' & _ & HA).
  specialize (HA i (Hnew w e i eq_refl Hi)). split.
  - destruct HA as [?|(e' & [Hx|[(l & Hx)|(t & Hx)]] & Hc)]; [by left|by apply not_elem_of_nil in Hx|right; exists e'; (split; [done|])..].
    + left. exists l. unfold pendingAt in Hx. destruct (laneHeap s' !! l) as [lane|] eqn:Hl; [by exists lane|by apply not_elem_of_nil in Hx].
    + right. exists t. apply bind_Some in Hx as (task & Ht & Hx). exists task. by destruct (waits (tPhase task)).
  - intros Hq. apply drained_answered; [|done]. destruct Hq as [?|Hd']; [done|]. apply down_drained; [apply HG'|done].
Qed.

End Delivery.

(** A message that arrives while another is being handled, on a queue that is shut down
    right afterwards: its cell is the second one and its outcome is published. *)
Lemma accepted_never_lost_witness :
  let s := stateAfter Collect [OpEnqueue (say "ana" "m1") 1; OpLaneStart 0 1; OpGateStart 1] in
  sourceTerminalScope (newEntry (say "ana" "m2") 2 (world s)).2 = [1] ∧
  ∃ s', run (demoConfig Collect) [OpEnqueue (say "ana" "m2") 2; OpShutdown 3] s = Some s' ∧ answered s' 1.
Proof.
  intros s. split; [by vm_compute|]. destruct (run (demoConfig Collect) [OpEnqueue (say "ana" "m2") 2; OpShutdown 3] s) as [s'|] eqn:Hr; [|by vm_compute in Hr].
  exists s'. split; [done|]. apply (accepted_never_lost (demoConfig Collect) s (say "ana" "m2") 2 [OpShutdown 3] s').
  - apply reachable_after. vm_compute. eauto.
  - by vm_compute.
  - exact Hr.
  - vm_compute. left.
  - right. revert Hr. vm_compute. by intros [= <-].
Defined.

End CommandQueueDelivery.
