(* ===== verification/CommandQueueOrder.v ===== *)
(** * The command queue: first come, first served

  On a lane that was never steered, handlers get the entries in the order in which
  their messages were accepted, whatever coalescing, overflow policies and the gate
  do.  A steered lane can serve a message before an older one. *)

From S2P Require Import Prelude CanonicalJson SessionKeys SourceTerminal QueueEntries CommandQueue CommandQueueDemo QueueCore CommandQueueRefines CommandQueueInvariants CommandQueueAccounting CommandQueueOwnership CommandQueueDelivery.
Import QueueEntries CommandQueue CommandQueueDemo QueueCore CommandQueueRefines CommandQueueInvariants CommandQueueAccounting CommandQueueOwnership CommandQueueDelivery.

Open Scope list_scope.

Module CommandQueueOrder.

(** ** Sorted lists of numbers *)

Lemma sorted_sublist (l l' : list nat) : l' `sublist_of` l → StronglySorted lt l → StronglySorted lt l'.
Proof.
  induction 1 as [|x l' l Hs IH|x l' l Hs IH]; intros Hl; [done| |]; apply StronglySorted_inv in Hl as [Hl Hx]; [|auto].
  constructor; [auto|]. apply Forall_forall. intros y Hy. rewrite Forall_forall in Hx. apply Hx. by eapply elem_of_sublist.
Qed.

Lemma sorted_snoc (l : list nat) n : StronglySorted lt l → (∀ x, x ∈ l → x < n)%nat → StronglySorted lt (l ++ [n]).
Proof.
  induction 1 as [|x l Hs IH Hx]; intros Hn; [repeat constructor|]. simpl. constructor; [apply IH; intros y Hy; apply Hn; by right|].
  apply Forall_app. split; [done|]. apply Forall_singleton, Hn. left.
Qed.

Lemma sublist_omap_alter {A B} (g : A → option B) (f : A → A) i (l : list A) :
  (∀ x, l !! i = Some x → g (f x) = g x ∨ g (f x) = None) → omap g (alter f i l) `sublist_of` omap g l.
Proof.
  revert i. induction l as [|x l IH]; intros [|i] Hg; simpl; [done..| |].
  - destruct (Hg x eq_refl) as [->| ->]; [by destruct (g x)|]. destruct (g x); [by constructor|done].
  - specialize (IH i (fun y Hy => Hg y Hy)). destruct (g x); [by constructor|done].
Qed.

Lemma omap_same {A B} (f g : A → option B) (l : list A) : (∀ x, x ∈ l → f x = g x) → omap f l = omap g l.
Proof. intros Hf. induction l as [|x l IH]; [done|]. csimpl. rewrite Hf, IH by set_solver. done. Qed.

Lemma omap_first {A B} (g : A → option B) (f : A → A) t (ts : list A) x b :
  ts !! t = Some x → g x = Some b → g (f x) = None → (∀ u y, (u < t)%nat → ts !! u = Some y → g y = None) →
  omap g ts = b :: omap g (alter f t ts).
Proof.
  revert t. induction ts as [|y ts IH]; intros [|t] Ht Hx Hf Hu; simplify_eq/=; csimpl.
  - by rewrite Hx, Hf.
  - rewrite (Hu 0 y) by (done || lia). apply IH; [done..|]. intros u z Hlt. apply (Hu (S u)). lia.
Qed.

Lemma omap_alter_same {A B} (g : A → option B) (f : A → A) i (l : list A) :
  (∀ x, l !! i = Some x → g (f x) = g x) → omap g (alter f i l) = omap g l.
Proof.
  revert i. induction l as [|x l IH]; intros [|i] Hg; simplify_eq/=; csimpl; [done..| |].
  - by rewrite (Hg x).
  - by rewrite (IH i).
Qed.

(** ** The lines *)

(** Tasks stand in line in the order in which they were scheduled, behind the one that
    left the line last. *)
Definition COrd (c : Core) : Prop := ∀ q v, cQueues c !! q = Some v →
  StronglySorted lt (vWaiting v) ∧ ∀ t u, t ∈ vRunning v → u ∈ vWaiting v → (t < u)%nat.

Lemma cord_alter c q f qs : COrd c → qs = alter f q (cQueues c) →
  (∀ v, cQueues c !! q = Some v → StronglySorted lt (vWaiting (f v)) ∧ ∀ t u, t ∈ vRunning (f v) → u ∈ vWaiting (f v) → (t < u)%nat) →
  ∀ q' v, qs !! q' = Some v → StronglySorted lt (vWaiting v) ∧ ∀ t u, t ∈ vRunning v → u ∈ vWaiting v → (t < u)%nat.
Proof. intros HC -> Hf q' v (v0 & Hv & ->)%alter_Some. case_decide; [subst; eauto|by apply (HC q')]. Qed.

Lemma queue_bound c q v t : QInv c → cQueues c !! q = Some v → t ∈ vRunning v ∨ t ∈ vWaiting v → (t < length (cTasks c))%nat.
Proof.
  intros HQ Hv Ht. destruct (qi_queue c HQ q v Hv) as (HT & _). apply lookup_lt_is_Some. destruct (cTasks c !! t) eqn:E; [eauto|].
  destruct Ht as [Ht|Ht]; [apply (tr_running v _ HT) in Ht|apply (tr_waiting v _ HT) in Ht]; unfold laneSlotAt in Ht; by rewrite E in Ht.
Qed.

Lemma sublist_without t l : without t l `sublist_of` l.
Proof. apply sublist_filter. Qed.

(** A slot changes. *)
Lemma slotOp_ord a b t v : vConcurrency v = 1 → slotOk a b t v → a ≠ None' ∨ b ≠ Waiting →
  StronglySorted lt (vWaiting v) → (∀ t u, t ∈ vRunning v → u ∈ vWaiting v → (t < u)%nat) →
  StronglySorted lt (vWaiting (slotOp a b t v)) ∧ ∀ x u, x ∈ vRunning (slotOp a b t v) → u ∈ vWaiting (slotOp a b t v) → (x < u)%nat.
Proof.
  intros Hc Hok Hab Hs Hr. destruct a, b; simpl in *; try (by split); try (by destruct Hab).
  - split; [by eapply sorted_sublist; [apply sublist_without|]|]. intros x u Hx [_ Hu]%elem_of_without. auto.
  - destruct Hok as (Hh & _ & Hlen). destruct (vWaiting v) as [|t' r]; [done|]. injection Hh as ->. simpl.
    apply StronglySorted_inv in Hs as [Hs Ht]. split; [done|]. destruct (vRunning v) as [|y l]; simpl in Hlen; [|lia].
    intros x u ->%list_elem_of_singleton Hu. rewrite Forall_forall in Ht. by apply Ht.
  - split; [done|]. intros x u [_ Hx]%elem_of_without Hu. auto.
Qed.

Lemma cord_step c c' : CInv c → COrd c → cstep c c' → COrd c'.
Proof.
  intros HI HC Hs. pose proof (ci_queues c HI) as HQ. destruct Hs as [|key base c|l L b e c ? ? HL ?| | |t w L v p' c Ht HL Hv Ha Hl Hg| |q c| | |]; try exact HC.
  - intros q' v Hv. simpl in Hv. apply snoc_Some in Hv as [Hv|[_ ->]]; [by apply (HC q')|]. simpl.
    split; [constructor|]. intros t u Hx. by apply not_elem_of_nil in Hx.
  - unfold COrd. simpl. eapply cord_alter; [exact HC|done|]. intros v Hv. simpl. destruct (HC _ v Hv) as [Hs Hr]. split.
    + apply sorted_snoc; [done|]. intros x Hx. apply (queue_bound c (lQueue L) v); auto.
    + intros t u Ht [Hu| ->%list_elem_of_singleton]%elem_of_app; [auto|]. apply (queue_bound c (lQueue L) v); auto.
  - unfold COrd. simpl. eapply cord_alter; [exact HC|done|]. intros v' Hv'. rewrite Hv in Hv'. injection Hv' as <-.
    destruct (HC _ v Hv) as [Hs Hr]. destruct (qi_queue c HQ _ v Hv) as (_ & Hc & _). apply slotOp_ord; [done..| |done|done].
    destruct (wPhase w), p'; simpl in *; try done; naive_solver.
  - unfold COrd. simpl. eapply cord_alter; [exact HC|done|]. intros v Hv. simpl. by apply (HC q).
Qed.

Lemma cord_steps c c' : rtc cstep c c' → CInv c → COrd c → COrd c'.
Proof. induction 1 as [|x y z Hst _ IH]; [done|]. intros HI HC. eauto using cinv_step, cord_step. Qed.

Section Order.
Context {Q : Type} `{PQueueLaws Q}.
Context (config : QueueConfig).

Implicit Types s : State Q.

(** ** The entries of a lane, in order *)

Definition handlers (w : World) : list (nat * Entry) :=
  omap (fun ev => match ev with EHandler t e => Some (t, e) | _ => None end) (events w).

(** The entries handlers of a lane were called with, in the order of the calls. *)
Definition handledOn s (l : nat) : list Entry :=
  omap (fun p => if decide ((tLane <$> tasks s !! p.1) = Some l) then Some p.2 else None) (handlers (world s)).

Definition inLine (l : nat) (task : Task) : option Entry :=
  if decide (tLane task = l) then if waits (tPhase task) then tEntry task else None else None.

(** The entries of the tasks in line, in the order in which they were scheduled. *)
Definition waitingOn s (l : nat) : list Entry := omap (inLine l) (tasks s).

Definition sequence s (l : nat) : list nat := ownership <$> handledOn s l ++ waitingOn s l ++ pendingAt s l.

Definition neverSteered s (l : nat) : Prop := ∀ t task, tasks s !! t = Some task → tLane task = l → tBody task ≠ SteerAgain.

Record OInv s : Prop := {
  oi_line : COrd (core s);
  oi_known p : p ∈ handlers (world s) → (p.1 < length (tasks s))%nat;
  oi_sorted l : neverSteered s l → StronglySorted lt (sequence s l);
  oi_bound l n : neverSteered s l → n ∈ sequence s l → (n < length (owners (world s)))%nat;
}.

(** What an operation does to the sequences. *)
Record Shrinks s s' : Prop := {
  sh_tasks t task : tasks s !! t = Some task → ∃ task', tasks s' !! t = Some task' ∧ tLane task' = tLane task ∧ tBody task' = tBody task;
  sh_known p : p ∈ handlers (world s') → p ∈ handlers (world s) ∨ (p.1 < length (tasks s'))%nat;
  sh_owners : (length (owners (world s)) ≤ length (owners (world s')))%nat;
  sh_sequence l : neverSteered s' l → sequence s' l `sublist_of` sequence s l;
}.

Lemma never_back s s' l : (∀ t task, tasks s !! t = Some task → ∃ task', tasks s' !! t = Some task' ∧ tLane task' = tLane task ∧ tBody task' = tBody task) →
  neverSteered s' l → neverSteered s l.
Proof. intros Ht Hn t task Hx El Eb. destruct (Ht t task Hx) as (task' & Hx' & E1 & E2). apply (Hn t task' Hx'); congruence. Qed.

Lemma shrinks_refl s : Shrinks s s.
Proof. split; eauto. Qed.

Lemma shrinks_trans s1 s2 s3 : Shrinks s1 s2 → Shrinks s2 s3 → Shrinks s1 s3.
Proof.
  intros [A1 A2 A3 A4] [B1 B2 B3 B4]. split.
  - intros t task Ht. destruct (A1 t task Ht) as (x & Hx & E1 & E2). destruct (B1 t x Hx) as (y & Hy & F1 & F2). exists y. split_and!; congruence.
  - intros p [Hp|?]%B2; [|by right]. destruct (A2 p Hp) as [?|Hl]; [by left|right]. apply lookup_lt_is_Some in Hl as [x Hx].
    destruct (B1 _ x Hx) as (y & Hy & _). by eapply lookup_lt_Some.
  - lia.
  - intros l Hn. etrans; [by apply B4|]. apply A4. by eapply never_back.
Qed.

Lemma shrinks_oinv s s' : OInv s → COrd (core s') → Shrinks s s' → OInv s'.
Proof.
  intros [H1 H2 H3 H4] HC [A1 A2 A3 A4]. split; [done|..].
  - intros p [Hp|?]%A2; [|done]. apply H2, lookup_lt_is_Some in Hp as [x Hx]. destruct (A1 _ x Hx) as (y & Hy & _). by eapply lookup_lt_Some.
  - intros l Hn. eapply sorted_sublist; [by apply A4|]. apply H3. by eapply never_back.
  - intros l n Hn Hin. apply (elem_of_sublist _ (sequence s l)) in Hin; [|by apply A4].
    apply H4 in Hin; [lia|]. by eapply never_back.
Qed.

(** *** Changes of the parts *)

Lemma handledOn_same s s' l : handlers (world s') = handlers (world s) → (∀ t, (tLane <$> tasks s' !! t) = tLane <$> tasks s !! t) →
  handledOn s' l = handledOn s l.
Proof. intros Ew Et. unfold handledOn. rewrite Ew. apply omap_same. intros p _. by rewrite Et. Qed.

Lemma sequence_parts s s' l : handledOn s' l = handledOn s l → waitingOn s' l `sublist_of` waitingOn s l →
  (ownership <$> pendingAt s' l) `sublist_of` (ownership <$> pendingAt s l) → sequence s' l `sublist_of` sequence s l.
Proof.
  intros E Hw Hp. unfold sequence. rewrite E, !fmap_app. apply sublist_app; [done|]. apply sublist_app; [by apply fmap_sublist|done].
Qed.

(** The tasks stay as they are, pending entries may go. *)
Lemma shrinks_lane s s' : tasks s' = tasks s → handlers (world s') = handlers (world s) →
  (length (owners (world s)) ≤ length (owners (world s')))%nat →
  (∀ l, (ownership <$> pendingAt s' l) `sublist_of` (ownership <$> pendingAt s l)) → Shrinks s s'.
Proof.
  intros Et Ew Ho Hp. split; [rewrite Et; eauto|rewrite Ew; auto|done|].
  intros l _. apply sequence_parts; [by apply handledOn_same; [|intros t; rewrite Et]|unfold waitingOn; by rewrite Et|done].
Qed.

(** A task moves on. *)
Lemma shrinks_task t f s :
  (∀ x, tLane (f x) = tLane x ∧ tBody (f x) = tBody x) →
  (∀ x, tasks s !! t = Some x → tBody x ≠ SteerAgain → tEntry (f x) = tEntry x ∧ (waits (tPhase x) = false → waits (tPhase (f x)) = false)) →
  Shrinks s (updTask t f s).
Proof.
  intros Hf Hx. assert (∀ t' task, tasks s !! t' = Some task → ∃ task', tasks (updTask t f s) !! t' = Some task' ∧ tLane task' = tLane task ∧ tBody task' = tBody task) as Ht.
  { intros t' task Ht'. simpl. rewrite list_lookup_alter. case_decide; [subst|by eauto]. rewrite Ht'. simpl. eexists. split; [done|]. apply Hf. }
  split; [done|by auto|done|]. intros l Hn. apply sequence_parts; [apply handledOn_same; [done|]| |done].
  - intros t'. simpl. rewrite list_lookup_alter. case_decide; [subst|done]. destruct (tasks s !! t'); simpl; [|done]. f_equal. apply Hf.
  - apply sublist_omap_alter. intros x Ex. unfold inLine. destruct (Hf x) as [El Eb]. rewrite El. case_decide as Hl; [|by left].
    destruct (Hx x Ex) as [-> Hw]; [eapply (never_back _ _ l Ht Hn); eauto|].
    destruct (waits (tPhase (f x))) eqn:E; [|by right]. left. destruct (waits (tPhase x)); [done|]. specialize (Hw eq_refl). congruence.
Qed.

(** *** Worlds *)

Definition Quiet (w w' : World) : Prop := handlers w' = handlers w ∧ (length (owners w) ≤ length (owners w'))%nat.

#[local] Instance Quiet_preorder : PreOrder Quiet.
Proof. split; [intros w; by split|]. intros w1 w2 w3 [E1 L1] [E2 L2]. split; [congruence|lia]. Qed.

Lemma quiet_emit ev w : (∀ t e, ev ≠ EHandler t e) → Quiet w (emit ev w).
Proof. intros He. split; [|done]. unfold handlers. simpl. rewrite omap_app. destruct ev; simpl; rewrite ?app_nil_r; try done. by destruct (He task e). Qed.

Lemma quiet_release e r w : Quiet w (releaseQueueEntryResources e r w).
Proof.
  unfold releaseQueueEntryResources. destruct (owners w !! ownership e) as [o|]; [|done]. destruct (_ || _); [done|].
  assert (Quiet w (setOwners (alter markReleased (ownership e)) w)) as HQ by (split; simpl; [done|by rewrite length_alter]).
  destruct (releaseResources o); [|done]. etrans; [exact HQ|by apply quiet_emit].
Qed.

Lemma quiet_releaseAll es r w : Quiet w (releaseAll es r w).
Proof. unfold releaseAll. revert w. induction es as [|e es IH]; intros w; simpl; [done|]. etrans; [apply quiet_release|apply IH]. Qed.

Lemma quiet_reject es r o now w : Quiet w (emitRejectedEntries es r o now w).
Proof.
  unfold emitRejectedEntries. revert w. induction es as [|e es IH]; intros w; simpl; [done|]. etrans; [|apply IH].
  etrans; [|apply quiet_release]. done.
Qed.

Lemma quiet_coalesce es w w' e : coalesceQueuedEntries es w = Some (w', e) → Quiet w w' ∧ ∃ e0, last es = Some e0 ∧ ownership e = ownership e0.
Proof. intros (le & Hle & (msg & _ & Ec)%bind_Some)%bind_Some. injection Ec as <- <-. split; [|eauto]. etrans; [apply quiet_releaseAll|done]. Qed.

Lemma quiet_overflow es c k ct now w : let r := applyOverflowPolicyToQueueEntries es c k ct now w in
  Quiet w r.1 ∧ (ownership <$> r.2.1) `sublist_of` (ownership <$> es).
Proof.
  unfold applyOverflowPolicyToQueueEntries, applyOverflowPolicyToItems. destruct (_ <=? _)%nat; [done|]. destruct (policy c); cbn [fst snd].
  - split; [by apply quiet_emit|]. apply fmap_sublist, sublist_drop.
  - split; [by apply quiet_emit|]. apply fmap_sublist, sublist_take.
  - destruct (last es) as [le|] eqn:E; cbn [fst snd]; [|split; [by apply quiet_emit|done]].
    split; [etrans; [|by apply quiet_emit]; done|]. apply singleton_sublist_l, list_elem_of_fmap. exists le. split; [done|by apply last_elem].
Qed.

Lemma quiet_dropped before after p now w : Quiet w (emitDroppedEntries before after p now w).
Proof. unfold emitDroppedEntries. destruct p; auto using quiet_reject, quiet_releaseAll. Qed.

(** *** Scheduling *)

Definition Known s : Prop := ∀ p, p ∈ handlers (world s) → (p.1 < length (tasks s))%nat.

Lemma schedule_sequence l b e o s l' : Known s →
  sequence (scheduleLaneTask l b e o s) l' =
  ownership <$> handledOn s l' ++ (waitingOn s l' ++ (if decide (l = l') then option_list e else [])) ++ pendingAt s l'.
Proof.
  intros Hk. destruct (schedule_parts l b e o s) as (Eh & _ & Et & Ew). unfold sequence. f_equal. f_equal; [|f_equal].
  - unfold handledOn. rewrite Ew. apply omap_same. intros p Hp. by rewrite Et, lookup_app_l by by apply Hk.
  - unfold waitingOn. rewrite Et, omap_app. f_equal. csimpl. unfold inLine. simpl. case_decide; [|done]. by destruct e.
  - unfold pendingAt. by rewrite Eh.
Qed.

Lemma schedule_keeps l b e o s : (∀ t task, tasks s !! t = Some task → tasks (scheduleLaneTask l b e o s) !! t = Some task) ∧
  world (scheduleLaneTask l b e o s) = world s.
Proof.
  destruct (schedule_parts l b e o s) as (_ & _ & Et & ->). split; [|done]. intros t task Ht. rewrite Et.
  rewrite lookup_app_l by (by eapply lookup_lt_Some). done.
Qed.

Lemma fmap_pendingAt_upd l f s l' : (∀ x, laneHeap s !! l = Some x → (ownership <$> pendingEntries (f x)) `sublist_of` (ownership <$> pendingEntries x)) →
  (ownership <$> pendingAt (updLane l f s) l') `sublist_of` (ownership <$> pendingAt s l').
Proof.
  intros Hf. rewrite pendingAt_updLane. case_decide; [subst|done]. unfold pendingAt. destruct (laneHeap s !! l') as [x|] eqn:E; [|done]. by apply (Hf x).
Qed.

(** The pending entries of a lane become one task. *)
Lemma shrinks_process l now s : Known s → Shrinks s (processCollectedMessages l now s).
Proof.
  intros Hk. unfold processCollectedMessages. destruct (laneHeap s !! l) as [lane|] eqn:Hl; [|apply shrinks_refl].
  case_bool_decide as Hp; [apply shrinks_refl|]. destruct (isShutdown s).
  - apply shrinks_lane; [done|apply quiet_reject|apply quiet_reject|]. intros l'.
    apply (fmap_pendingAt_upd l (lowerDepth (countOf (pendingEntries lane)) ∘ setPending []) s). intros x _. apply sublist_nil_l.
  - destruct (coalesceQueuedEntries _ _) as [[w e]|] eqn:Ec; [|apply shrinks_refl].
    destruct (quiet_coalesce _ _ _ _ Ec) as [[Ew Ho] (e0 & He0 & Eo)]. set (s1 := setWorld _ _). unfold executeLaneTask.
    assert (handlers (world s1) = handlers (world s)) as Ew1.
    { simpl. rewrite <- Ew. by apply (quiet_emit (ECoalesced (eSessionKey e) (eChannelType e) (length (pendingEntries lane)) now) w). }
    destruct (schedule_keeps l (RunEntry true) (Some e) false s1) as [Hkeep Hw]. split.
    + intros t task Ht. exists task. split; [by apply Hkeep|done].
    + intros p. rewrite Hw, Ew1. by left.
    + rewrite Hw. done.
    + intros l' _. rewrite schedule_sequence by (intros p; rewrite Ew1; apply Hk). unfold sequence.
      change (waitingOn s1 l') with (waitingOn s l'). rewrite (handledOn_same s s1 l' Ew1) by done.
      rewrite !fmap_app. apply sublist_app; [done|]. rewrite <- app_assoc. apply sublist_app; [done|].
      change (pendingAt s1 l') with (pendingAt (updLane l (setPending []) s) l'). rewrite pendingAt_updLane. case_decide; [subst l'|done].
      rewrite Hl. unfold pendingAt. rewrite Hl. simpl. rewrite Eo. apply singleton_sublist_l, list_elem_of_fmap. exists e0.
      split; [done|by apply last_elem].
Qed.

(** *** A handler is called *)

(** The task the gate starts is the first of its lane in line. *)
Lemma gate_first s t task u x : CInv (core s) → COrd (core s) → tasks s !! t = Some task → tPhase task = GateWaiting →
  tasks s !! u = Some x → tLane x = tLane task → waits (tPhase x) = true → (t ≤ u)%nat.
Proof.
  intros HI HC Ht Hp Hu El Hw. pose proof (ci_queues _ HI) as HQ. destruct (task_lane s t task HQ Ht) as (lane & v & Hl & Hv).
  destruct (qi_queue _ HQ _ _ (core_queue s _ v Hv)) as (HT & _). destruct (HC _ _ (core_queue s _ v Hv)) as [_ Hr].
  assert (∀ y z, tasks s !! y = Some z → tLane z = tLane task → laneSlotAt (core s) (queue lane) y = laneSlot (tPhase z)) as Hslot.
  { intros y z Hy Ez. unfold laneSlotAt. rewrite (core_task s y z Hy). simpl. rewrite Ez, list_lookup_fmap, Hl. simpl. by rewrite decide_True. }
  destruct (tPhase x) eqn:Hpx; simplify_eq/=.
  - apply Nat.lt_le_incl, Hr; [apply (tr_running _ _ HT)|apply (tr_waiting _ _ HT)].
    + by rewrite (Hslot t task Ht eq_refl), Hp.
    + by rewrite (Hslot u x Hu El), Hpx.
  - apply Nat.eq_le_incl, (running_unique (core s) t u (workShape task) (workShape x) (laneShape lane) (laneShape lane)); auto using core_task, core_lane.
    + rewrite <- El in Hl. by apply core_lane.
    + simpl. by rewrite Hp.
    + simpl. by rewrite Hpx.
Qed.

Lemma gate_phase s t g' : CInv (core s) → pqStart (globalGate s) = Some (t, g') → ∃ task, tasks s !! t = Some task ∧ tPhase task = GateWaiting.
Proof.
  intros HI Hst. destruct (viewOf_start t _ g' Hst) as [_ [Hh _]]. destruct (qi_gate _ (ci_queues _ HI)) as [HT _].
  assert (t ∈ vWaiting (cGate (core s))) as Hin by (simpl in *; destruct (pqWaiting (globalGate s)); [done|]; injection Hh as ->; left).
  apply (tr_waiting _ _ HT) in Hin. unfold gateSlotAt in Hin. simpl in Hin. rewrite list_lookup_fmap in Hin.
  destruct (tasks s !! t) as [task|]; [|done]. exists task. split; [done|]. simpl in Hin. by destruct (tPhase task).
Qed.

Lemma shrinks_gateStart now s s' : CInv (core s) → COrd (core s) → gateStart now s = Some s' → Shrinks s s'.
Proof.
  intros HI HC ((t & gate') & Hst & (task & Ht & (e & He & Hs)%bind_Some)%bind_Some)%bind_Some. injection Hs as <-.
  destruct (gate_phase s t gate' HI Hst) as (task' & Ht' & Hp). rewrite Ht in Ht'. injection Ht' as <-. set (s' := setWorld _ _).
  assert (∀ u, (tLane <$> tasks s' !! u) = tLane <$> tasks s !! u) as Hlane.
  { intros u. simpl. rewrite list_lookup_alter. case_decide; [subst|done]. by destruct (tasks s !! u). }
  assert (handlers (world s') = handlers (world s) ++ [(t, e)]) as Eh
    by (unfold handlers; simpl; rewrite !omap_app; simpl; by rewrite app_nil_r).
  split.
  - intros u x Hu. simpl. rewrite list_lookup_alter. case_decide; [subst|by eauto]. rewrite Hu. simpl. eauto.
  - intros p. rewrite Eh. intros [?| ->%list_elem_of_singleton]%elem_of_app; [by left|right]. simpl. rewrite length_alter. by eapply lookup_lt_Some.
  - simpl. by rewrite length_alter.
  - intros l _. assert (handledOn s' l = handledOn s l ++ (if decide (tLane task = l) then [e] else [])) as E1.
    { unfold handledOn. rewrite Eh, omap_app. f_equal; [apply omap_same; intros p _; by rewrite Hlane|]. simpl. rewrite Hlane, Ht. simpl.
      destruct (decide (tLane task = l)) as [->|Hn]; [by rewrite decide_True|]. rewrite decide_False; [done|]. congruence. }
    unfold sequence. rewrite E1. change (pendingAt s' l) with (pendingAt (updLane (tLane task) (beginExecution t) s) l).
    rewrite <- !app_assoc, !(fmap_app ownership (handledOn s l)). apply sublist_app; [done|]. rewrite !fmap_app.
    assert (ownership <$> pendingAt (updLane (tLane task) (beginExecution t) s) l `sublist_of` ownership <$> pendingAt s l) as Hpend
      by by apply fmap_pendingAt_upd.
    rewrite app_assoc. apply sublist_app; [|done]. rewrite <- fmap_app. apply fmap_sublist. unfold waitingOn. simpl. case_decide as El.
    + rewrite (omap_first (inLine l) (setPhase Executing ∘ setStarted) t (tasks s) task e); [done..| | |].
      * unfold inLine. by rewrite decide_True, Hp.
      * unfold inLine. simpl. by case_decide.
      * intros u x Hlt Hu. unfold inLine. case_decide as Ex; [|done]. destruct (waits (tPhase x)) eqn:Hw; [|done].
        pose proof (gate_first s t task u x HI HC Ht Hp Hu ltac:(congruence) Hw). lia.
    + simpl. rewrite omap_alter_same; [done|]. intros x Hx. rewrite Ht in Hx. injection Hx as <-. unfold inLine. simpl. by rewrite !decide_False.
Qed.

(** *** The other moves *)

Lemma shrinks_laneStart q now s s' : CInv (core s) → laneStart q now s = Some s' → Shrinks s s'.
Proof.
  intros HI (pq & Hq & ((t & pq') & Hst & Hs)%bind_Some)%bind_Some. injection Hs as <-.
  destruct (started_task q pq pq' t s (ci_queues _ HI) Hq Hst) as (task & lane & Ht & Hl & _ & Hp).
  set (s0 := setQueues _ s). assert (∀ s1, Shrinks s s1 → tasks s1 !! t = Some task → ∀ f, (∀ x, tLane (f x) = tLane x ∧ tBody (f x) = tBody x) →
    (tBody task ≠ SteerAgain → tEntry (f task) = tEntry task) → Shrinks s (updTask t f s1)) as Hgo.
  { intros s1 H1 Ht1 f Hf He. eapply shrinks_trans; [exact H1|]. apply shrinks_task; [done|]. intros x Hx Hb. rewrite Ht1 in Hx. injection Hx as <-.
    split; [auto|by rewrite Hp]. }
  unfold runLaneTask. change (tasks s0) with (tasks s). rewrite Ht. destruct (tBody task) eqn:Hb.
  - eapply shrinks_trans; [apply (Hgo s (shrinks_refl s) Ht (setPhase GateWaiting)); done|by apply shrinks_lane].
  - change (laneHeap s0) with (laneHeap s). rewrite Hl. destruct (coalesceQueuedEntries _ _) as [[w e]|] eqn:Ec.
    + destruct (quiet_coalesce _ _ _ _ Ec) as [Hw _]. set (ev := ECoalesced _ _ _ _).
      set (s1 := setWorld (fun _ => emit ev w) (updLane (tLane task) (setPending []) s0)).
      assert (Quiet (world s) (emit ev w)) as [Eh Ho] by (etrans; [exact Hw|by apply quiet_emit]).
      eapply shrinks_trans; [apply (Hgo s1)|].
      * apply shrinks_lane; [done..|]. intros l'. apply (fmap_pendingAt_upd (tLane task) (setPending []) s). intros x _. apply sublist_nil_l.
      * done.
      * by instantiate (1 := setPhase GateWaiting ∘ setEntry e).
      * done.
      * apply shrinks_lane; try done. simpl. by rewrite alter_alter.
    + eapply shrinks_trans; [apply (Hgo s (shrinks_refl s) Ht (setPhase LaneLeaving)); done|by apply shrinks_lane].
Qed.

(** A task past its line changes its phase. *)
Lemma shrinks_past t f s x : tasks s !! t = Some x → (∀ x, tLane (f x) = tLane x ∧ tBody (f x) = tBody x) → tEntry (f x) = tEntry x →
  waits (tPhase (f x)) = false → Shrinks s (updTask t f s).
Proof. intros Hx Hf He Hw. apply shrinks_task; [done|]. intros y Hy _. rewrite Hx in Hy. by injection Hy as <-. Qed.

Lemma shrinks_onLaneQueue l f s : Shrinks s (onLaneQueue l f s).
Proof. unfold onLaneQueue. destruct (laneQueue l s); [by apply shrinks_lane|apply shrinks_refl]. Qed.

Lemma shrinks_world f s : Quiet (world s) (f (world s)) → Shrinks s (setWorld f s).
Proof. intros [Eh Ho]. by apply shrinks_lane. Qed.

Lemma shrinks_updLane l f s : (∀ x, pendingEntries (f x) = pendingEntries x ∨ pendingEntries (f x) = []) → Shrinks s (updLane l f s).
Proof.
  intros Hf. apply shrinks_lane; [done..|]. intros l'. apply fmap_pendingAt_upd. intros x _. destruct (Hf x) as [->| ->]; [done|apply sublist_nil_l].
Qed.

Lemma shrinks_handlerEnd t ok now s s' : Known s → handlerEnd t ok now s = Some s' → Shrinks s s'.
Proof.
  intros Hk (task & Ht & (e & He & Hs)%bind_Some)%bind_Some. case_bool_decide as Hp; [|done]. simpl in Hs. injection Hs as <-.
  set (fl := match tBody task with SteerAgain => false | RunEntry _ => negb ok end).
  set (s1 := updLane (tLane task) (endExecution t e now) (updTask t (setPhase GateLeaving ∘ setFailed fl) s)).
  assert (Shrinks s s1) as H1.
  { eapply shrinks_trans; [by apply (shrinks_past t (setPhase GateLeaving ∘ setFailed fl) s task)|]. apply shrinks_updLane. by left. }
  assert (Known s1) as Hk1 by (intros p Hp'; simpl; rewrite length_alter; by apply Hk).
  destruct (tBody task) as [[]|]; try done. eapply shrinks_trans; [exact H1|by apply shrinks_process].
Qed.

Lemma shrinks_leave t now s s' : gateLeave t s = Some s' ∨ laneLeave t s = Some s' ∨ settle t now s = Some s' → Shrinks s s'.
Proof.
  intros [Hs|[Hs|Hs]]; apply bind_Some in Hs as (task & Ht & Hs); case_bool_decide as Hp; try done; simpl in Hs; injection Hs as <-.
  - eapply shrinks_trans; [by apply (shrinks_past t (setPhase LaneLeaving) s task)|by apply shrinks_lane].
  - eapply shrinks_trans; [by apply (shrinks_past t (setPhase Settled) s task)|apply shrinks_onLaneQueue].
  - eapply shrinks_trans; [by apply (shrinks_past t (setPhase Gone) s task)|].
    destruct (tEntry task); [destruct (tObserved task && tFailed task)|]; by apply shrinks_lane.
Qed.

(** *** Shutdown *)

Lemma shrinks_foldl {A} (f : State Q → A → State Q) l s : (∀ x a, Shrinks x (f x a)) → Shrinks s (foldl f s l).
Proof. intros Hf. revert s. induction l as [|a l IH]; intros s; simpl; [apply shrinks_refl|]. by eapply shrinks_trans. Qed.

Lemma shrinks_abortExecution l s : Shrinks s (abortExecution l s).
Proof. unfold abortExecution. destruct (_ ≫= _); [|apply shrinks_refl]. by apply shrinks_task. Qed.

Lemma shrinks_rejectPending now s l : Shrinks s (rejectPending now s l).
Proof.
  unfold rejectPending. destruct (laneHeap s !! l) as [lane|]; [|apply shrinks_refl]. set (s1 := updLane l _ _).
  assert (Shrinks s s1) as H1.
  { eapply shrinks_trans; [apply (shrinks_world (emitRejectedEntries (pendingEntries lane) SourceTerminal.RQueueRejected SourceTerminal.OError now)), quiet_reject|].
    apply shrinks_updLane. by right. }
  eapply shrinks_trans; [exact H1|]. eapply shrinks_trans; [|apply shrinks_abortExecution]. destruct (_ ≫= _); [|apply shrinks_refl].
  apply shrinks_world, quiet_reject.
Qed.

Lemma shrinks_abortTask t s : Shrinks s (abortTask t s).
Proof.
  unfold abortTask. destruct (tasks s !! t) as [task|] eqn:Ht; [|apply shrinks_refl].
  assert (Shrinks s (updTask t setAborted s)) as H1 by by apply shrinks_task.
  assert (∀ p, waits p = false → Shrinks s (updTask t (setPhase p ∘ setFailed true) (updTask t setAborted s))) as Hp.
  { intros p Hw. eapply shrinks_trans; [exact H1|]. by apply shrinks_task. }
  destruct (tPhase task); try done.
  - eapply shrinks_trans; [by apply (Hp Settled)|apply shrinks_onLaneQueue].
  - eapply shrinks_trans; [by apply (Hp LaneLeaving)|by apply shrinks_lane].
Qed.

Lemma shrinks_shutdown now s : Shrinks s (performShutdown now s).
Proof.
  unfold performShutdown. destruct (isShutdown s); [apply shrinks_refl|].
  eapply shrinks_trans; [by apply (shrinks_lane s (setTimers (fun _ => []) s))|].
  eapply shrinks_trans; [apply (shrinks_foldl (fun s l => onLaneQueue l pqPause s) (lanes (setTimers (fun _ => []) s)).*2); intros x l; apply shrinks_onLaneQueue|].
  set (s1 := foldl _ _ _). set (s2 := setGate pqPause s1). eapply shrinks_trans; [by apply (shrinks_lane s1 s2)|]. clearbody s2.
  set (ns := filter _ _). set (es := omap _ ns).
  eapply shrinks_trans; [apply (shrinks_world (emitRejectedEntries es SourceTerminal.RQueueRejected SourceTerminal.OError now)), quiet_reject|].
  eapply shrinks_trans; [apply (shrinks_foldl (rejectPending now) (lanes s2).*2); intros x l; apply shrinks_rejectPending|].
  eapply shrinks_trans; [apply (shrinks_foldl (fun s t => abortTask t s) ns); intros x t; apply shrinks_abortTask|]. by apply shrinks_lane.
Qed.

Lemma shrinks_finish s s' : finishShutdown s = Some s' → Shrinks s s'.
Proof.
  intros (ts & _ & Hs)%bind_Some. destruct (negb _); [done|]. injection Hs as <-.
  eapply shrinks_trans; [apply (shrinks_foldl (fun s l => updLane l (setDepth 0 ∘ setPending []) (onLaneQueue l pqClear s)) (lanes s).*2)|by apply shrinks_lane].
  intros x l. eapply shrinks_trans; [apply (shrinks_onLaneQueue l pqClear)|]. apply shrinks_updLane. by right.
Qed.

(** ** Enqueueing *)

(** The new entry comes last. *)
Record Admits (n : nat) s s' : Prop := {
  ad_tasks t task : tasks s !! t = Some task → ∃ task', tasks s' !! t = Some task' ∧ tLane task' = tLane task ∧ tBody task' = tBody task;
  ad_known : handlers (world s') = handlers (world s);
  ad_owners : (n < length (owners (world s')))%nat;
  ad_sequence l : neverSteered s' l → sequence s' l `sublist_of` sequence s l ++ [n];
}.

Lemma admits_oinv s s' : OInv s → COrd (core s') → Admits (length (owners (world s))) s s' → OInv s'.
Proof.
  intros [H1 H2 H3 H4] HC [A1 A2 A3 A4]. split; [done|..].
  - intros p. rewrite A2. intros Hp. apply H2, lookup_lt_is_Some in Hp as [x Hx]. destruct (A1 _ x Hx) as (y & Hy & _). by eapply lookup_lt_Some.
  - intros l Hn. eapply sorted_sublist; [by apply A4|]. pose proof (never_back s s' l A1 Hn). apply sorted_snoc; eauto.
  - intros l n Hn Hin. apply (elem_of_sublist _ (sequence s l ++ [length (owners (world s))])) in Hin; [|by apply A4].
    apply elem_of_app in Hin as [Hin| ->%list_elem_of_singleton]; [|done]. apply H4 in Hin; [lia|]. by eapply never_back.
Qed.

(** A lane that does not execute, or does not collect, and was never steered has nothing pending. *)
Lemma nothing_pending s l : CInv (core s) → neverSteered s l →
  (isExecuting <$> laneHeap s !! l) ≠ Some true ∨ (∀ t task, tasks s !! t = Some task → tLane task = l → tBody task ≠ RunEntry true) → pendingAt s l = [].
Proof.
  intros HI Hn Hor. unfold pendingAt. destruct (laneHeap s !! l) as [lane|] eqn:Hl; [|done]. simpl. destruct (pendingEntries lane) as [|e es] eqn:Hp; [done|].
  exfalso. destruct (ei_carried _ (ci_exec _ HI) l _ (core_lane s l lane Hl)) as (t & w & Hw & El & Hc); [apply pending_shape; by rewrite Hp|].
  simpl in Hw. rewrite list_lookup_fmap in Hw. apply fmap_Some in Hw as (task & Ht & ->). simpl in El, Hc.
  destruct Hc as [[Hph Hb]|[_ Hb]]; [|by eapply Hn]. destruct Hor as [Hx|Hx]; [|by eapply Hx].
  destruct (ei_exec _ (ci_exec _ HI) t _ (core_task s t task Ht) Hph) as (L & HL & Hex & _). simpl in HL. rewrite El, list_lookup_fmap, Hl in HL.
  injection HL as <-. simpl in Hex, Hx. congruence.
Qed.

(** An entry is scheduled on a lane with nothing pending. *)
Lemma admits_schedule l b e o s : Known s → (ownership e < length (owners (world s)))%nat →
  (neverSteered s l → pendingAt s l = []) → Admits (ownership e) s (scheduleLaneTask l b (Some e) o s).
Proof.
  intros Hk Ho Hp. destruct (schedule_keeps l b (Some e) o s) as [Ht Hw]. split; [eauto|by rewrite Hw|by rewrite Hw|].
  intros l' Hn. rewrite schedule_sequence by done. unfold sequence. case_decide as El; [subst l'|rewrite app_nil_r; by apply sublist_inserts_r].
  rewrite Hp; [by rewrite !app_nil_r, !fmap_app, app_assoc|]. eapply (never_back s); [|exact Hn]. eauto.
Qed.

(** An entry joins the pending ones. *)
Lemma admits_accumulate l e c now s : is_Some (laneHeap s !! l) → (ownership e < length (owners (world s)))%nat →
  Admits (ownership e) s (accumulate l e c now s).
Proof.
  intros [lane Hl] Ho. unfold accumulate. rewrite Hl. set (es := pendingEntries lane ++ [e]).
  destruct (quiet_overflow es c (eSessionKey e) (eChannelType e) now (world s)) as [Hw Hsub]. set (r := applyOverflowPolicyToQueueEntries _ _ _ _ _ _) in *.
  assert (Quiet (world s) (emitDroppedEntries es r.2.1 (policy c) now r.1)) as [Eh Hown] by (etrans; [exact Hw|apply quiet_dropped]).
  split; [eauto|done|simpl; lia|]. set (s' := updLane l _ _). intros l' _. unfold sequence.
  change (handledOn s' l') with (omap (fun p => if decide ((tLane <$> tasks s !! p.1) = Some l') then Some p.2 else None) (handlers (world s'))).
  change (waitingOn s' l') with (waitingOn s l'). change (handlers (world s')) with (handlers (emitDroppedEntries es r.2.1 (policy c) now r.1)). rewrite Eh. fold (handledOn s l'). rewrite !fmap_app, <- !app_assoc. apply sublist_app; [done|].
  apply sublist_app; [done|]. unfold s'. rewrite pendingAt_updLane. case_decide; [subst l'|by apply sublist_inserts_r]. simpl. rewrite Hl. simpl.
  unfold pendingAt. rewrite Hl. simpl. etrans; [exact Hsub|]. unfold es. by rewrite fmap_app.
Qed.

Lemma admits_shrinks n s s1 s2 : Admits n s s1 → Shrinks s1 s2 → handlers (world s2) = handlers (world s1) → Admits n s s2.
Proof.
  intros [A1 A2 A3 A4] [B1 B2 B3 B4] Eh. split; [|congruence|lia|].
  - intros t task Ht. destruct (A1 t task Ht) as (x & Hx & E1 & E2). destruct (B1 t x Hx) as (y & Hy & F1 & F2). exists y. split_and!; congruence.
  - intros l Hn. etrans; [by apply B4|]. apply A4. by eapply never_back.
Qed.

(** A steer task is scheduled: the lane was steered. *)
Lemma shrinks_steer l o s : Known s → Shrinks s (scheduleLaneTask l SteerAgain None o s).
Proof.
  intros Hk. destruct (schedule_keeps l SteerAgain None o s) as [Ht Hw]. split; [eauto|rewrite Hw; auto|by rewrite Hw|].
  intros l' _. rewrite schedule_sequence by done. simpl. case_decide; by rewrite app_nil_r.
Qed.

Lemma dispatch_admits c key l e o now s : CInv (core s) → Known s → is_Some (laneHeap s !! l) → (ownership e < length (owners (world s)))%nat →
  (∀ t task, tasks s !! t = Some task → tLane task = l → bodyFor (mode c) (tBody task)) →
  Admits (ownership e) s (dispatch c key l e o now s).
Proof.
  intros HI Hk Hl Ho Hm. assert (default false (isExecuting <$> laneHeap s !! l) = false → (isExecuting <$> laneHeap s !! l) ≠ Some true) as Hne
    by (intros Hx E; by rewrite E in Hx).
  assert (∀ b, (isExecuting <$> laneHeap s !! l) ≠ Some true ∨ (∀ t task, tasks s !! t = Some task → tLane task = l → tBody task ≠ RunEntry true) →
    Admits (ownership e) s (executeLaneTask l e b o s)) as Hrun by (intros b Hor; apply admits_schedule; [done..|]; intros Hn; by apply nothing_pending).
  unfold dispatch. destruct (mode c) eqn:Em; simpl in Hm.
  - apply Hrun. right. intros t task Ht El. by rewrite (Hm t task Ht El).
  - destruct (default false _) eqn:Ex; [|apply Hrun; left; by apply Hne]. pose proof (admits_accumulate l e (overflow c) now s Hl Ho) as HA.
    destruct (0 <? debounceMs c)%Z; [|done]. eapply admits_shrinks; [exact HA|by apply shrinks_lane|done].
  - destruct (default false _) eqn:Ex; [|apply Hrun; left; by apply Hne]. pose proof (admits_accumulate l e (overflow c) now s Hl Ho) as HA.
    set (s1 := accumulate _ _ _ _ _) in *. set (s2 := setTimers _ (abortExecution l s1)).
    assert (Shrinks s1 s2 ∧ handlers (world s2) = handlers (world s1) ∧ length (tasks s2) = length (tasks s1)) as (H2 & E2 & L2).
    { split; [eapply shrinks_trans; [apply (shrinks_abortExecution l)|by apply shrinks_lane]|].
      unfold s2, abortExecution. destruct (_ ≫= _); [|done]. simpl. by rewrite length_alter. }
    assert (Known s2) as Hk2.
    { intros p. rewrite E2, (ad_known _ _ _ HA), L2. intros Hp. apply Hk, lookup_lt_is_Some in Hp as [x Hx].
      destruct (ad_tasks _ _ _ HA _ x Hx) as (y & Hy & _). by eapply lookup_lt_Some. }
    eapply admits_shrinks; [eapply admits_shrinks; [exact HA|exact H2|exact E2]|by apply (shrinks_steer l false)|].
    by destruct (schedule_keeps l SteerAgain None false s2) as [_ ->].
  - apply Hrun. right. intros t task Ht El. by rewrite (Hm t task Ht El).
Qed.

Lemma enqueue_admits f r now s : CInv (core s) → Kinds config f s → Known s → isShutdown s = false →
  Admits (length (owners (world s))) s (enqueueMessage config r now s).1.
Proof.
  intros HI HK Hk Hd. destruct (createQueueLaneIdentity (rSessionKey r) (rChannelType r) (rContext r)) as [base key] eqn:Eid.
  destruct (getOrCreateLane key base now s) as [s1 l] eqn:Eg. destruct (newEntry r now (world s1)) as [w e] eqn:En.
  destruct (enqueue_unfold config r now s base key s1 l w e Hd Eid Eg En) as [d ->].
  destruct (getOrCreate_refines key base now s s1 l HI Hd Eg) as (Hr & _ & _ & Et & Ew & _ & [lane Hl] & _).
  destruct (getOrCreate_pending key base now s s1 l Eg) as [Hp _]. pose proof (lane_mode config f r base key now s s1 l HI HK Hd Eid Eg) as Hm.
  set (s3 := setWorld _ _). assert (Quiet (world s) (world s3) ∧ ownership e = length (owners (world s)) ∧ (ownership e < length (owners (world s3)))%nat) as ([Eh Hlen] & Eo & Hlt).
  { rewrite Ew in En. injection En as <- <-. split; [|simpl; rewrite length_app; simpl; split; [done|lia]].
    split; [|simpl; rewrite length_app; lia]. unfold handlers. simpl. by rewrite omap_app, app_nil_r. }
  assert (core s3 = core s1) as Ec by by apply core_updLane_same.
  assert (∀ l', pendingAt s3 l' = pendingAt s l') as Hp3.
  { intros l'. rewrite <- Hp. unfold pendingAt. simpl. rewrite list_lookup_alter. case_decide; [subst|done]. by destruct (laneHeap s1 !! l'). }
  destruct (dispatch_admits (resolveChannelConfig config (rChannelType r)) key l e (negb (rWait r)) now s3) as [A1 A2 A3 A4].
  - rewrite Ec. by eapply cinv_steps.
  - intros p. rewrite Eh. change (tasks s3) with (tasks s1). rewrite Et. apply Hk.
  - simpl. rewrite list_lookup_alter_eq, Hl. eauto.
  - done.
  - exact Hm.
  - change (tasks s3) with (tasks s1) in A1. rewrite Et in A1. rewrite <- Eo. split; [done|congruence|done|]. intros l' Hn.
    assert (sequence s3 l' = sequence s l') as <-; [|by apply A4]. unfold sequence. rewrite Hp3. f_equal. f_equal; [|f_equal].
    + apply handledOn_same; [done|]. intros t. change (tasks s3) with (tasks s1). by rewrite Et.
    + unfold waitingOn. change (tasks s3) with (tasks s1). by rewrite Et.
Qed.

(** ** Every execution *)

Lemma oinv_exec o s s' : Good config s → OInv s → exec config o s = Some s' → OInv s'.
Proof.
  intros HG HO Hs. pose proof HG as [HI [f HK]]. pose proof HO as [HC Hk _ _].
  assert (COrd (core s')) as HC' by (eapply cord_steps; [by eapply exec_refines|done..]).
  assert (Shrinks s s' → OInv s') as Hshrink by by apply shrinks_oinv.
  destruct o; simpl in Hs.
  - injection Hs as <-. apply Hshrink. by apply shrinks_lane.
  - case_bool_decide; [|done]. injection Hs as <-. apply Hshrink. by apply shrinks_lane.
  - destruct (match rScope r with Some _ => _ | None => _ end); [|done]. injection Hs as <-.
    destruct (isShutdown s) eqn:Hd; [unfold enqueueMessage; by rewrite Hd|]. apply (admits_oinv s); [done..|]. by apply (enqueue_admits f).
  - by eapply Hshrink, shrinks_laneStart.
  - by eapply Hshrink, shrinks_gateStart.
  - by eapply Hshrink, shrinks_handlerEnd.
  - apply Hshrink, (shrinks_leave t 0). by left.
  - apply Hshrink, (shrinks_leave t 0). by right; left.
  - apply Hshrink, (shrinks_leave t now). by right; right.
  - apply bind_Some in Hs as (l & _ & (lane & _ & Hs)%bind_Some). injection Hs as <-. apply Hshrink.
    eapply shrinks_trans; [by apply (shrinks_lane s (setTimers (fun ts => mdel ts key) s))|].
    destruct (isExecuting lane); [apply shrinks_refl|by apply shrinks_process].
  - destruct (isShutdown s); [done|]. injection Hs as <-. apply Hshrink. by apply shrinks_lane.
  - injection Hs as <-. apply Hshrink. apply shrinks_lane; [done..|]. intros l. unfold pendingAt. simpl. rewrite list_lookup_imap.
    destruct (laneHeap s !! l); simpl; [by case_decide|done].
  - injection Hs as <-. apply Hshrink, shrinks_shutdown.
  - by apply Hshrink, shrinks_finish.
Qed.

(** on a lane that was never steered, first come is first served: the entries its
    handlers were called with, then those in line, then the pending ones stand in the
    order in which their (last) messages were accepted, in every reachable state. *)
Theorem lane_serves_in_order s (Hs : reachable config s) l (Hl : neverSteered s l) :
  StronglySorted lt (ownership <$> handledOn s l ++ waitingOn s l ++ pendingAt s l).
Proof.
  apply (reachable_ind config OInv) in Hs as [_ HO]; [by apply (oi_sorted s HO)| |apply oinv_exec].
  split; simpl.
  - intros q v Hx. done.
  - intros p Hx. by apply not_elem_of_nil in Hx.
  - intros l' _. constructor.
  - intros l' n _ Hx. by apply not_elem_of_nil in Hx.
Qed.

End Order.

(** Two messages were handled, one is in line, one pending. *)
Definition orderOps : list Op :=
  [OpEnqueue (say "ana" "m1") 1; OpEnqueue (say "ana" "m2") 1; OpEnqueue (say "ana" "m3") 2; OpLaneStart 0 3; OpGateStart 3; OpHandlerEnd 0 true 4;
   OpGateLeave 0; OpLaneLeave 0; OpLaneStart 0 5; OpGateStart 5; OpEnqueue (say "ana" "m4") 6].

Lemma lane_serves_in_order_witness :
  let s := stateAfter Collect orderOps in
  ownership <$> handledOn s 0 = [0; 1] ∧ ownership <$> waitingOn s 0 = [2] ∧ ownership <$> pendingAt s 0 = [3] ∧
  StronglySorted lt (ownership <$> handledOn s 0 ++ waitingOn s 0 ++ pendingAt s 0).
Proof.
  intros s. split; [by vm_compute|]. split; [by vm_compute|]. split; [by vm_compute|].
  apply (lane_serves_in_order (demoConfig Collect)); [apply reachable_after; vm_compute; eauto|].
  assert (Forall (fun task => tBody task = RunEntry true) (tasks s)) as Hall by (vm_compute; repeat constructor).
  intros t task Ht _. rewrite (Forall_lookup_1 _ _ _ _ Hall Ht). done.
Defined.

(** ** Steering *)

(** Ana is steered while Ben holds the gate: the first of two steer tasks takes what was
    pending, the second takes a message that came after one already in line. *)
Definition steerOps : list Op :=
  [OpEnqueue (say "ana" "m1") 1; OpLaneStart 0 1; OpGateStart 1; OpEnqueue (say "ana" "m2") 2; OpEnqueue (say "ana" "m3") 2;
   OpEnqueue (say "ben" "b1") 3; OpLaneStart 1 3; OpHandlerEnd 0 true 4; OpGateLeave 0; OpLaneLeave 0; OpGateStart 5; OpLaneStart 0 5;
   OpEnqueue (say "ana" "m4") 6; OpHandlerEnd 3 true 7; OpGateLeave 3; OpGateStart 8; OpEnqueue (say "ana" "m5") 9; OpHandlerEnd 1 true 10;
   OpGateLeave 1; OpLaneLeave 1; OpLaneStart 0 11; OpGateStart 11; OpHandlerEnd 2 true 12; OpGateLeave 2; OpLaneLeave 2; OpLaneStart 0 13;
   OpGateStart 13].

(** on a steered lane the order can be lost: there is an execution in which Ana's
    fifth message is handed to the handler, alone, before her fourth, although the
    queue runs them one at a time. *)
Theorem steer_can_reorder :
  ∃ s, run (demoConfig Steer) steerOps (demoStart Steer) = Some s ∧
    (fun e => oId <$> getOriginalInboundMessages (message e)) <$> handledOn s 0 =
      [["m1"]; ["m2"; "m3"]; ["m5"]; ["m4"]]%string.
Proof. eexists. split; [by vm_compute|]. by vm_compute. Qed.

End CommandQueueOrder.
