(* ===== verification/OutwardLedger.v ===== *)
(** * The outward-send ledger

  Models [packages/memory/src/outward-send-ledger-store.ts], the row schema of
  [outward-ledger-row-schema.ts] and the tables of [schema-outward-ledger.ts]:
  the five-state record of every irreversible platform send, the operation
  identities that map a caller's logical send to one step of its root, and the
  operator's terminal decisions.

  A table is the list of its rows in insertion order; a prepared statement is a
  function of the tables, an [UPDATE] or [DELETE] also returns how many rows it
  changed.  A method returns its [Result] and the tables after it; the body of a
  [db.transaction] that throws leaves the tables as they were.  SHA-256 is a
  parameter of the methods that hash; the [CHECK] on digest columns is part of
  the statements that insert them. *)

From S2P Require Import Prelude CanonicalJson TaskTypes.

Open Scope string_scope.
Open Scope list_scope.
Open Scope Z_scope.

Module OutwardLedger.

(** ** Rows *)

(** [OutwardSendState] *)
Inductive State := send_attempt_started | unknown_after_send | committed | failed | unresolved.

(** [StoredOutwardOperationKind] *)
Inductive Kind :=
| attachment_send | message_send | message_reply | message_react | cross_session_announcement
| retained_unclassified.

(** [OutwardTerminalDecision] *)
Inductive Decision := delivered | discarded | no_reply.

(** [ReconcileOutcome] has one member. *)
Inductive Reconcile := reconcile_unresolved.

#[global] Instance State_eq_dec : EqDecision State.
Proof. solve_decision. Defined.
#[global] Instance Kind_eq_dec : EqDecision Kind.
Proof. solve_decision. Defined.
#[global] Instance Decision_eq_dec : EqDecision Decision.
Proof. solve_decision. Defined.

#[global] Instance Reconcile_eq_dec : EqDecision Reconcile.
Proof. solve_decision. Defined.

(** A row of [outward_send_ledger]; the closed columns have their type from the
    table's [CHECK] constraints. *)
Record Row := mkRow {
  id : string;
  root_run_id : string;
  step_index : Z;
  agent_id : string;
  channel_type : string;
  channel_id : string;
  operation_kind : Kind;
  operation_fingerprint : string;
  state : State;
  platform_message_id : option string;
  content_digest : string;
  reconcile_outcome : option Reconcile;
  attempt_count : Z;
  last_error : option string;
  created_at_ms : Z;
  updated_at_ms : Z
}.

Definition nonEmpty (o : option string) : bool :=
  match o with Some s => negb (String.eqb s "") | None => false end.

Definition isState (s : State) (r : Row) : bool := bool_decide (state r = s).

(** [OutwardLedgerDbRowSchema] *)
Definition rowValid (r : Row) : bool :=
  TaskTypes.hex64 (operation_fingerprint r) && TaskTypes.hex64 (content_digest r)
  && TaskTypes.SafeCountSchema (attempt_count r) && TaskTypes.SafeTimeSchema (created_at_ms r) && TaskTypes.SafeTimeSchema (updated_at_ms r)
  && Bool.eqb (isState committed r) (nonEmpty (platform_message_id r))
  && Bool.eqb (isState unresolved r) (bool_decide (reconcile_outcome r = Some reconcile_unresolved))
  && Bool.eqb (isState failed r) (nonEmpty (last_error r)).

(** ** Tables *)

Record SequenceRow := { seq_root : string; last_step_index : Z; seq_updated_at_ms : Z }.

Record OperationRow := { op_root : string; operation_id : string; op_step : Z; op_created_at_ms : Z; op_updated_at_ms : Z }.

(** A row of either decision table; [no_reply] rows have a table of their own. *)
Record DecisionRow := { d_root : string; d_operation : string; outcome : Decision; decided_at_ms : Z }.

Record Db := mkDb {
  ledger : list Row;
  sequences : list SequenceRow;
  operations : list OperationRow;
  operator_decisions : list DecisionRow;
  no_reply_decisions : list DecisionRow
}.

Definition emptyDb : Db := mkDb [] [] [] [] [].

Definition setLedger (l : list Row) (d : Db) : Db :=
  mkDb l (sequences d) (operations d) (operator_decisions d) (no_reply_decisions d).

(** [OutwardSendBeginInput]; callers pick any kind but [retained_unclassified]. *)
Record BeginInput := {
  rootRunId : string;
  stepIndex : Z;
  agentId : string;
  channelType : string;
  channelId : string;
  operationKind : Kind;
  operationFingerprint : string;
  contentDigest : string
}.

(** ** Statements *)

Definition atKey (root : string) (step : Z) (r : Row) : bool :=
  String.eqb (root_run_id r) root && (step_index r =? step).

Definition opAt (root : string) (digest : string) (o : OperationRow) : bool :=
  String.eqb (op_root o) root && String.eqb (operation_id o) digest.

Definition opAtStep (root : string) (step : Z) (o : OperationRow) : bool :=
  String.eqb (op_root o) root && (op_step o =? step).

Definition decisionAt (root : string) (digest : string) (d : DecisionRow) : bool :=
  String.eqb (d_root d) root && String.eqb (d_operation d) digest.

(** [Statement.get]: the first row a query selects. *)
Definition get {A} (p : A -> bool) (l : list A) : option A := snd <$> list_find (fun x => p x = true) l.

(** [UPDATE ... WHERE] and [DELETE ... WHERE], with [changes]. *)
Definition update {A} (p : A -> bool) (f : A -> A) (l : list A) : list A * nat :=
  ((fun x => if p x then f x else x) <$> l, length (filter (fun x => p x = true) l)).

Definition delete {A} (p : A -> bool) (l : list A) : list A * nat :=
  (filter (fun x => p x = false) l, length (filter (fun x => p x = true) l)).

(** [${rootRunId}:${stepIndex}] *)
Definition rowId (root : string) (step : Z) : string := root +:+ ":" +:+ pretty step.

(** [beginStmt]: the primary key, then the unique index. *)
Definition beginStmt (i : BeginInput) (t : Z) (d : Db) : Result Db string :=
  let key := rowId (rootRunId i) (stepIndex i) in
  if existsb (fun r => String.eqb (id r) key) (ledger d)
  then Err "UNIQUE constraint failed: outward_send_ledger.id"
  else if existsb (atKey (rootRunId i) (stepIndex i)) (ledger d)
  then Err "UNIQUE constraint failed: outward_send_ledger.root_run_id, outward_send_ledger.step_index"
  else Ok (setLedger (ledger d ++
    [mkRow key (rootRunId i) (stepIndex i) (agentId i) (channelType i) (channelId i) (operationKind i)
       (operationFingerprint i) send_attempt_started None (contentDigest i) None 0 None t t]) d).

(** [COALESCE((SELECT MAX(...) ...), -1)] *)
Definition maxOr (l : list Z) : Z := foldr Z.max (-1) l.

Definition ledgerSteps (root : string) (d : Db) : list Z :=
  step_index <$> filter (fun r => root_run_id r = root) (ledger d).

Definition operationSteps (root : string) (d : Db) : list Z :=
  op_step <$> filter (fun o => op_root o = root) (operations d).

(** The highest step any retained row or mapping of the root uses. *)
Definition usedStep (root : string) (d : Db) : Z :=
  Z.max (maxOr (ledgerSteps root d)) (maxOr (operationSteps root d)).

(** [allocateStepStmt]: insert the sequence of the root or move it on. *)
Definition allocateStepStmt (root : string) (t : Z) (d : Db) : Z * Db :=
  let set s := mkDb (ledger d) s (operations d) (operator_decisions d) (no_reply_decisions d) in
  match get (fun s => String.eqb (seq_root s) root) (sequences d) with
  | None =>
      let v := usedStep root d + 1 in
      (v, set (sequences d ++ [{| seq_root := root; last_step_index := v; seq_updated_at_ms := t |}]))
  | Some s0 =>
      let v := Z.max (last_step_index s0) (usedStep root d) + 1 in
      (v, set (fst (update (fun s => String.eqb (seq_root s) root)
        (fun s => {| seq_root := seq_root s; last_step_index := v; seq_updated_at_ms := t |}) (sequences d))))
  end.

(** [insertOperationStmt]: the digest [CHECK], the primary key, the unique step. *)
Definition insertOperationStmt (root digest : string) (step t : Z) (d : Db) : Result Db string :=
  if negb (TaskTypes.hex64 digest) then Err "CHECK constraint failed: operation_id"
  else if existsb (opAt root digest) (operations d)
  then Err "UNIQUE constraint failed: outward_send_operations.root_run_id, outward_send_operations.operation_id"
  else if existsb (opAtStep root step) (operations d)
  then Err "UNIQUE constraint failed: outward_send_operations.root_run_id, outward_send_operations.step_index"
  else Ok (mkDb (ledger d) (sequences d)
    (operations d ++ [{| op_root := root; operation_id := digest; op_step := step;
                         op_created_at_ms := t; op_updated_at_ms := t |}])
    (operator_decisions d) (no_reply_decisions d)).

(** [insertOperatorDecisionStmt] and [insertNoReplyDecisionStmt] *)
Definition insertDecision (root digest : string) (o : Decision) (t : Z) (l : list DecisionRow)
  : Result (list DecisionRow) string :=
  if negb (TaskTypes.hex64 digest) then Err "CHECK constraint failed: operation_id"
  else if existsb (decisionAt root digest) l then Err "UNIQUE constraint failed: root_run_id, operation_id"
  else Ok (l ++ [{| d_root := root; d_operation := digest; outcome := o; decided_at_ms := t |}]).

(** [lookupOperatorDecisionStmt] and [lookupNoReplyDecisionStmt] *)
Definition lookupDecision (root digest : string) (l : list DecisionRow) : option Decision :=
  outcome <$> get (decisionAt root digest) l.

(** [lookupOperatorDecisionByStepStmt] and [lookupNoReplyDecisionByStepStmt]:
    the join of the operations at a step with a decision table. *)
Definition lookupDecisionByStep (root : string) (step : Z) (ops : list OperationRow) (l : list DecisionRow)
  : option Decision :=
  head (o ← filter (fun o => opAtStep root step o = true) ops;
        outcome <$> filter (fun x => decisionAt root (operation_id o) x = true) l).

(** [lookupOperationLedgerStateStmt] *)
Definition lookupOperationLedgerState (root digest : string) (d : Db) : option State :=
  head (o ← filter (fun o => opAt root digest o = true) (operations d);
        state <$> filter (fun r => atKey root (op_step o) r = true) (ledger d)).

Definition markUnknownStmt (t : Z) (root : string) (step : Z) (d : Db) : list Row * nat :=
  update (fun r => atKey root step r && isState send_attempt_started r)
    (fun r => mkRow (id r) (root_run_id r) (step_index r) (agent_id r) (channel_type r) (channel_id r)
       (operation_kind r) (operation_fingerprint r) unknown_after_send (platform_message_id r) (content_digest r)
       (reconcile_outcome r) (attempt_count r + 1) (last_error r) (created_at_ms r) t) (ledger d).

Definition reclaimPreSendStmt (root : string) (step : Z) (d : Db) : list Row * nat :=
  delete (fun r => atKey root step r && isState send_attempt_started r) (ledger d).

Definition commitStmt (receipt : string) (t : Z) (root : string) (step : Z) (d : Db) : list Row * nat :=
  update (fun r => atKey root step r && isState unknown_after_send r)
    (fun r => mkRow (id r) (root_run_id r) (step_index r) (agent_id r) (channel_type r) (channel_id r)
       (operation_kind r) (operation_fingerprint r) committed (Some receipt) (content_digest r)
       (reconcile_outcome r) (attempt_count r) (last_error r) (created_at_ms r) t) (ledger d).

Definition markFailedStmt (e : string) (t : Z) (root : string) (step : Z) (d : Db) : list Row * nat :=
  update (fun r => atKey root step r && isState unknown_after_send r)
    (fun r => mkRow (id r) (root_run_id r) (step_index r) (agent_id r) (channel_type r) (channel_id r)
       (operation_kind r) (operation_fingerprint r) failed (platform_message_id r) (content_digest r)
       (reconcile_outcome r) (attempt_count r) (Some e) (created_at_ms r) t) (ledger d).

Definition inFlight (r : Row) : bool := isState send_attempt_started r || isState unknown_after_send r.

Definition parkUncertainStmt (t : Z) (root : string) (step : Z) (d : Db) : list Row * nat :=
  update (fun r => atKey root step r && inFlight r)
    (fun r => mkRow (id r) (root_run_id r) (step_index r) (agent_id r) (channel_type r) (channel_id r)
       (operation_kind r) (operation_fingerprint r) unresolved (platform_message_id r) (content_digest r)
       (Some reconcile_unresolved) (attempt_count r) (last_error r) (created_at_ms r) t) (ledger d).

(** [hasUncertaintyStmt]: each open row of the root is joined with its
    operation; it counts unless that operation has a decision. *)
Definition decided (root digest : string) (d : Db) : bool :=
  existsb (decisionAt root digest) (operator_decisions d) || existsb (decisionAt root digest) (no_reply_decisions d).

Definition uncertaintyRows (root : string) (d : Db) : list (Row * option OperationRow) :=
  r ← filter (fun r => root_run_id r = root) (ledger d);
  if inFlight r || isState unresolved r then
    match filter (fun o => opAtStep root (step_index r) o = true) (operations d) with
    | [] => [(r, None)]
    | ops => (fun o => (r, Some o)) <$> filter (fun o => decided (op_root o) (operation_id o) d = false) ops
    end
  else [].

Definition hasUncertaintyStmt (root : string) (d : Db) : nat := length (uncertaintyRows root d).

(** [ORDER BY created_at_ms, root_run_id, step_index] *)
Definition rowLe (a b : Row) : bool :=
  (created_at_ms a <? created_at_ms b)
  || ((created_at_ms a =? created_at_ms b)
      && (if String.eqb (root_run_id a) (root_run_id b) then step_index a <=? step_index b
          else String.leb (root_run_id a) (root_run_id b))).

Fixpoint insertRow (r : Row) (l : list Row) : list Row :=
  match l with
  | [] => [r]
  | r' :: l' => if rowLe r r' then r :: l else r' :: insertRow r l'
  end.

Definition sortRows (l : list Row) : list Row := foldr insertRow [] l.

Definition listUnreconciledStmt (limit : Z) (d : Db) : list Row :=
  take (Z.to_nat limit) (sortRows (filter (fun r => inFlight r = true) (ledger d))).

(** ** The store's methods *)

(** The body of a [db.transaction]: what it throws undoes what it wrote. *)
Definition transaction {A} (d : Db) (body : Result (A * Db) string) : Result A string * Db :=
  match body with
  | Ok (a, d') => (Ok a, d')
  | Err e => (Err e, d)
  end.

(** [parseTerminalDecision] *)
Definition parseTerminalDecision (operatorRow noReplyRow : option Decision) : Result (option Decision) string :=
  match operatorRow, noReplyRow with
  | Some _, Some _ => Err "outward terminal decision has conflicting durable outcomes"
  | Some o, None => Ok (Some o)
  | None, o => Ok o
  end.

(** The mapper of a query for at most one ledger row. *)
Definition parseOptionalRow (r : option Row) : Result (option Row) string :=
  match r with
  | None => Ok None
  | Some r => if rowValid r then Ok (Some r) else Err "Row validation failed"
  end.

(** [parseRows] of the row mapper: the first row that fails ends it. *)
Fixpoint parseRows (l : list Row) : Result (list Row) string :=
  match l with
  | [] => Ok []
  | r :: l =>
      if rowValid r then match parseRows l with Ok rs => Ok (r :: rs) | Err e => Err e end
      else Err "Row validation failed"
  end.

Section Store.
Variable sha256 : string -> string.

Definition digestOperationId (operationId : string) : string := sha256 (CanonicalJson.stringify operationId).

(** The identity checks of the methods that take an operation id. *)
Definition identityInvalid (root operationId : string) : bool :=
  String.eqb root "" || String.eqb operationId "" || (256 <? TaskTypes.jsLength operationId).

Definition lookupTerminalDecision (root operationId : string) (d : Db) : Result (option Decision) string :=
  if identityInvalid root operationId then Err "outward terminal decision identity is invalid"
  else
    let digest := digestOperationId operationId in
    parseTerminalDecision (lookupDecision root digest (operator_decisions d))
      (lookupDecision root digest (no_reply_decisions d)).

Definition recordTerminalDecision (root operationId : string) (o : Decision) (now : Z) (d : Db)
  : Result unit string * Db :=
  if identityInvalid root operationId then (Err "outward terminal decision is invalid", d)
  else
    let digest := digestOperationId operationId in
    transaction d
      match parseTerminalDecision (lookupDecision root digest (operator_decisions d))
              (lookupDecision root digest (no_reply_decisions d)) with
      | Err e => Err e
      | Ok (Some existing) =>
          if decide (existing = o) then Ok (tt, d)
          else Err "outward terminal decision conflicts with its durable outcome"
      | Ok None =>
          match lookupOperationLedgerState root digest d with
          | Some send_attempt_started | Some unknown_after_send => Err "outward operation is still in flight"
          | s =>
              if bool_decide (s = Some committed) && negb (bool_decide (o = delivered))
              then Err "outward terminal decision conflicts with committed delivery receipt"
              else match o with
                | no_reply =>
                    match insertDecision root digest o now (no_reply_decisions d) with
                    | Err e => Err e
                    | Ok l => Ok (tt, mkDb (ledger d) (sequences d) (operations d) (operator_decisions d) l)
                    end
                | _ =>
                    match insertDecision root digest o now (operator_decisions d) with
                    | Err e => Err e
                    | Ok l => Ok (tt, mkDb (ledger d) (sequences d) (operations d) l (no_reply_decisions d))
                    end
                end
          end
      end.

(** [resolveOperation]: a known operation keeps its step, a new one takes the
    next step no row and no mapping of the root uses. *)
Definition allocateStep (root operationId : string) (now : Z) (d : Db) : Result Z string * Db :=
  if identityInvalid root operationId then (Err "outward operation identity is invalid", d)
  else
    let digest := digestOperationId operationId in
    transaction d
      match get (opAt root digest) (operations d) with
      | Some o =>
          if TaskTypes.SafeCountSchema (op_step o) then Ok (op_step o, d) else Err "Row validation failed"
      | None =>
          let '(v, d1) := allocateStepStmt root now d in
          if TaskTypes.SafeCountSchema v then
            match insertOperationStmt root digest v now d1 with
            | Ok d2 => Ok (v, d2)
            | Err e => Err e
            end
          else Err "Row validation failed"
      end.
End Store.

(** [beginOperation] *)
Definition beginOperation (i : BeginInput) (t : Z) (d : Db) : Result (unit * Db) string :=
  match parseTerminalDecision
          (lookupDecisionByStep (rootRunId i) (stepIndex i) (operations d) (operator_decisions d))
          (lookupDecisionByStep (rootRunId i) (stepIndex i) (operations d) (no_reply_decisions d)) with
  | Err e => Err e
  | Ok (Some _) => Err "outward operation has a terminal decision"
  | Ok None => match beginStmt i t d with Ok d' => Ok (tt, d') | Err e => Err e end
  end.

Definition begin (i : BeginInput) (now : Z) (d : Db) : Result unit string * Db :=
  if negb (TaskTypes.hex64 (contentDigest i)) then (Err "contentDigest must be a full SHA-256 hex digest", d)
  else if negb (TaskTypes.hex64 (operationFingerprint i))
  then (Err "operationFingerprint must be a full SHA-256 hex digest", d)
  else transaction d (beginOperation i now d).

Definition lookup (root : string) (step : Z) (d : Db) : Result (option Row) string :=
  parseOptionalRow (get (atKey root step) (ledger d)).

(** An [UPDATE] that must change one row. *)
Definition expectOne (p : list Row * nat) (e : string) (d : Db) : Result unit string * Db :=
  (if (p.2 =? 1)%nat then Ok tt else Err e, setLedger p.1 d).

Definition markUnknown (root : string) (step now : Z) (d : Db) : Result unit string * Db :=
  expectOne (markUnknownStmt now root step d) "outward ledger markUnknown transition rejected" d.

Definition reclaimPreSend (root : string) (step : Z) (d : Db) : Result bool string * Db :=
  let p := reclaimPreSendStmt root step d in (Ok (p.2 =? 1)%nat, setLedger p.1 d).

Definition commit (root : string) (step : Z) (receipt : string) (now : Z) (d : Db) : Result unit string * Db :=
  if String.eqb receipt "" then (Err "platformMessageId must be non-empty", d)
  else expectOne (commitStmt receipt now root step d) "outward ledger commit transition rejected" d.

Definition markFailed (root : string) (step : Z) (errorKind : string) (now : Z) (d : Db) : Result unit string * Db :=
  expectOne (markFailedStmt errorKind now root step d) "outward ledger markFailed transition rejected" d.

Definition parkUncertain (root : string) (step now : Z) (d : Db) : Result bool string * Db :=
  let p := parkUncertainStmt now root step d in (Ok (p.2 =? 1)%nat, setLedger p.1 d).

Definition hasUncertainty (root : string) (d : Db) : Result bool string := Ok (0 <? hasUncertaintyStmt root d)%nat.

Definition listUnreconciled (limit : Z) (d : Db) : Result (list Row) string :=
  if negb (TaskTypes.isSafeInteger limit) || (limit <=? 0) || (1001 <? limit)
  then Err "outward recovery scan limit is invalid"
  else parseRows (listUnreconciledStmt limit d).

(** ** Rows written before operations had a kind *)

Record RetainedRow := {
  r_id : string; r_root : string; r_step : Z; r_agent : string; r_channelType : string; r_channelId : string;
  r_state : State; r_message : option string; r_digest : string; r_reconcile : option string;
  r_attempts : Z; r_error : option string; r_created : Z; r_updated : Z
}.

(** [RetainedOutwardLedgerRowSchema] *)
Definition retainedValid (r : RetainedRow) : bool :=
  forallb (fun s => negb (String.eqb s "")) [r_id r; r_root r; r_agent r; r_channelType r; r_channelId r]
  && TaskTypes.SafeCountSchema (r_step r)
  && (TaskTypes.hex64 (r_digest r)
      || ((String.length (r_digest r) =? 16)%nat && forallb TaskTypes.hexChar (String.list_ascii_of_string (r_digest r))))
  && match r_reconcile r with
     | None => true | Some o => existsb (String.eqb o) ["sent"; "not_sent"; "unresolved"] end
  && TaskTypes.SafeCountSchema (r_attempts r) && TaskTypes.SafeTimeSchema (r_created r)
  && TaskTypes.SafeTimeSchema (r_updated r).

Record Normalized := { n_state : State; n_message : option string; n_reconcile : option Reconcile; n_error : option string }.

(** [retainedState]: only a proved receipt or a recorded error survives. *)
Definition retainedState (r : RetainedRow) : Normalized :=
  if bool_decide (r_state r = committed) && nonEmpty (r_message r)
  then {| n_state := committed; n_message := r_message r; n_reconcile := None; n_error := None |}
  else if bool_decide (r_state r = failed) && nonEmpty (r_error r)
  then {| n_state := failed; n_message := None; n_reconcile := None; n_error := r_error r |}
  else {| n_state := unresolved; n_message := None; n_reconcile := Some reconcile_unresolved; n_error := None |}.

Section Upgrade.
Variable sha256 : string -> string.

Definition retainedDigest (r : RetainedRow) : string :=
  if (String.length (r_digest r) =? 64)%nat then r_digest r
  else sha256 ("retained-content-digest:" +:+ r_digest r).

Definition retainedFingerprint (r : RetainedRow) : string :=
  sha256 (CanonicalJson.render (CanonicalJson.JObject
    [("kind", CanonicalJson.JString "retained_unclassified"); ("id", CanonicalJson.JString (r_id r));
     ("rootRunId", CanonicalJson.JString (r_root r)); ("stepIndex", CanonicalJson.JNumber (r_step r));
     ("agentId", CanonicalJson.JString (r_agent r)); ("channelType", CanonicalJson.JString (r_channelType r));
     ("channelId", CanonicalJson.JString (r_channelId r)); ("contentDigest", CanonicalJson.JString (r_digest r))])).

Definition retainedRow (r : RetainedRow) : Row :=
  let n := retainedState r in
  mkRow (r_id r) (r_root r) (r_step r) (r_agent r) (r_channelType r) (r_channelId r) retained_unclassified
    (retainedFingerprint r) (n_state n) (n_message n) (retainedDigest r) (n_reconcile n) (r_attempts r) (n_error n)
    (r_created r) (r_updated r).

(** [upgradeRetainedOutwardLedger] and the unique index created after it: every
    row must parse, ids and keys must be distinct. *)
Definition upgradeRetainedOutwardLedger (rows : list RetainedRow) : Result (list Row) string :=
  if forallb retainedValid rows then
    let rows' := sortRows (retainedRow <$> rows) in
    if bool_decide (NoDup (id <$> rows'))
    then if bool_decide (NoDup ((fun r => (root_run_id r, step_index r)) <$> rows')) then Ok rows'
         else Err "UNIQUE constraint failed: index 'idx_osl_idempotency'"
    else Err "UNIQUE constraint failed: outward_send_ledger_next.id"
  else Err "Retained outward ledger validation failed".
End Upgrade.

End OutwardLedger.
