(* ===== verification/OutwardLedgerFacts.v ===== *)
(** * The ledger seen by key

  What the statements of [OutwardLedger] do to the one row of a key, the
  invariant [Wf] of its tables, and that every method keeps it. *)

From S2P Require Import Prelude CanonicalJson TaskTypes OutwardLedger.

Open Scope string_scope.
Open Scope list_scope.
Open Scope Z_scope.

Module OutwardLedgerFacts.
Import OutwardLedger.

(** ** Queries *)

Lemma get_Some {A} (p : A -> bool) l x : get p l = Some x -> x ∈ l /\ p x = true.
Proof.
  unfold get. destruct (list_find _ l) as [[i y]|] eqn:E; [|done]. intros [= <-].
  apply list_find_Some in E as (Hl & Hp & _). split; [by eapply list_elem_of_lookup_2|done].
Qed.

Lemma get_None {A} (p : A -> bool) l : get p l = None <-> forall x, x ∈ l -> p x = false.
Proof.
  unfold get. destruct (list_find _ l) as [[i y]|] eqn:E; split; try done.
  - intros H. apply list_find_Some in E as (Hl & Hp & _).
    apply list_elem_of_lookup_2, H in Hl. congruence.
  - intros _ x Hx. apply list_find_None in E. rewrite Forall_forall in E.
    apply not_true_iff_false, E, Hx.
Qed.

Lemma get_cons {A} (p : A -> bool) x l : get p (x :: l) = if p x then Some x else get p l.
Proof.
  unfold get. simpl. destruct (p x) eqn:E.
  - by rewrite decide_True.
  - rewrite decide_False by congruence. by destruct (list_find _ l) as [[]|].
Qed.

Lemma get_app {A} (p : A -> bool) l l' :
  get p (l ++ l') = match get p l with Some x => Some x | None => get p l' end.
Proof. induction l as [|x l IH]; [done|]. simpl. rewrite !get_cons. by destruct (p x). Qed.

Lemma existsb_get {A} (p : A -> bool) l : existsb p l = match get p l with Some _ => true | None => false end.
Proof. induction l as [|x l IH]; [done|]. simpl. rewrite get_cons. by destruct (p x). Qed.

(** ** Keys *)

Abbreviation Key := (string * Z)%type.

Definition keyOf (r : Row) : Key := (root_run_id r, step_index r).

Lemma atKey_iff root step r : atKey root step r = true <-> keyOf r = (root, step).
Proof.
  unfold atKey, keyOf. rewrite andb_true_iff, String.eqb_eq, Z.eqb_eq.
  split; [intros [-> ->]; done|intros [= -> ->]; done].
Qed.

Lemma atKey_eq root step r : atKey root step r = bool_decide (keyOf r = (root, step)).
Proof. apply Bool.eq_iff_eq_true. by rewrite atKey_iff, bool_decide_eq_true. Qed.

(** The row of a key. *)
Definition rowAt (k : Key) (l : list Row) : option Row := get (atKey k.1 k.2) l.

Lemma rowAt_Some k l r : rowAt k l = Some r -> r ∈ l /\ keyOf r = k.
Proof. intros [? H]%get_Some. apply atKey_iff in H. by destruct k. Qed.

Lemma rowAt_None k l : rowAt k l = None <-> forall r, r ∈ l -> keyOf r <> k.
Proof.
  unfold rowAt. rewrite get_None. split; intros H r Hr.
  - intros Hk. apply H in Hr. destruct k as [a b]. apply atKey_iff in Hk. simpl in Hr. congruence.
  - apply not_true_iff_false. rewrite atKey_iff. destruct k. by apply H.
Qed.

Definition Unique (l : list Row) : Prop := NoDup (keyOf <$> l).

Lemma rowAt_in l r : Unique l -> r ∈ l -> rowAt (keyOf r) l = Some r.
Proof.
  unfold Unique. induction l as [|x l IH]; intros Hu Hr; [by apply not_elem_of_nil in Hr|].
  rewrite fmap_cons in Hu. apply NoDup_cons in Hu as [Hx Hu].
  unfold rowAt. rewrite get_cons, atKey_eq. apply elem_of_cons in Hr as [->|Hr].
  - by rewrite bool_decide_eq_true_2.
  - rewrite bool_decide_eq_false_2; [by apply IH|].
    intros E. apply Hx. destruct (keyOf r) eqn:Ek. simpl in E. rewrite E, <- Ek. by apply list_elem_of_fmap_2.
Qed.

(** ** Conditional updates of one key *)

Section Update.
Context (root : string) (step : Z) (c : Row -> bool) (f : Row -> Row).
Hypothesis Hf : forall r, keyOf (f r) = keyOf r.

Abbreviation p := (fun r => atKey root step r && c r).

Lemma update_keys l : keyOf <$> (update p f l).1 = keyOf <$> l.
Proof.
  simpl. rewrite <- list_fmap_compose. apply list_fmap_ext. intros _ x _. simpl.
  destruct (_ && _); [apply Hf|done].
Qed.

Lemma rowAt_update k l :
  rowAt k (update p f l).1 =
  if decide (k = (root, step)) then (fun r => if c r then f r else r) <$> rowAt k l else rowAt k l.
Proof.
  unfold rowAt, update. cbn [fst]. induction l as [|x l IH]; [by case_decide|].
  rewrite fmap_cons, !get_cons, IH, !atKey_eq, <- surjective_pairing.
  case_decide as Hk; [subst k; simpl|]; destruct (decide (keyOf x = (root, step))) as [E|E].
  - rewrite E, !(bool_decide_eq_true_2 _ eq_refl). simpl. destruct (c x); rewrite ?Hf, E;
      by rewrite (bool_decide_eq_true_2 _ eq_refl).
  - rewrite (bool_decide_eq_false_2 (keyOf x = (root, step))) by done. simpl.
    by rewrite (bool_decide_eq_false_2 (keyOf x = (root, step))) by done.
  - rewrite E, (bool_decide_eq_true_2 _ eq_refl). simpl.
    destruct (c x); rewrite ?Hf, E; by rewrite bool_decide_eq_false_2 by congruence.
  - rewrite (bool_decide_eq_false_2 (keyOf x = (root, step))) by done. done.
Qed.

(** With unique keys, at most one row changes. *)
Lemma matching_count l :
  Unique l ->
  length (filter (fun r => p r = true) l) =
  match rowAt (root, step) l with Some r => if c r then 1%nat else 0%nat | None => 0%nat end.
Proof.
  unfold Unique, rowAt. induction l as [|x l IH]; [done|].
  rewrite fmap_cons. intros [Hx Hu]%NoDup_cons. specialize (IH Hu).
  rewrite get_cons, filter_cons, !atKey_eq. simpl.
  destruct (decide (keyOf x = (root, step))) as [E|E].
  - rewrite E, (bool_decide_eq_true_2 _ eq_refl). simpl.
    assert (get (atKey root step) l = None) as Hn.
    { apply get_None. intros y Hy. apply not_true_iff_false. rewrite atKey_iff. intros Ey.
      apply Hx. rewrite E, <- Ey. by apply list_elem_of_fmap_2. }
    simpl in IH. rewrite Hn in IH. case_decide as Hc; [rewrite Hc; simpl; by rewrite IH|].
    apply not_true_is_false in Hc. by rewrite Hc.
  - rewrite !bool_decide_eq_false_2 by done. simpl. apply IH.
Qed.
End Update.

Lemma rowAt_delete root step (c : Row -> bool) k l :
  Unique l ->
  rowAt k (delete (fun r => atKey root step r && c r) l).1 =
  if decide (k = (root, step))
  then match rowAt k l with Some r => if c r then None else Some r | None => None end
  else rowAt k l.
Proof.
  unfold Unique, rowAt. simpl. induction l as [|x l IH]; [by case_decide|].
  rewrite fmap_cons. intros [Hx Hu]%NoDup_cons. specialize (IH Hu).
  rewrite filter_cons, get_cons. destruct (decide (keyOf x = (root, step))) as [E|E].
  - assert (atKey root step x = true) as Ha by by rewrite atKey_iff.
    rewrite Ha. simpl. destruct (c x) eqn:Ec; simpl.
    + rewrite IH. case_decide as Hk.
      * subst k. simpl. rewrite Ha, Ec.
        assert (get (atKey root step) l = None) as ->; [|done].
        apply get_None. intros y Hy. apply not_true_iff_false. rewrite atKey_iff. intros Ey.
        apply Hx. rewrite E, <- Ey. by apply list_elem_of_fmap_2.
      * rewrite atKey_eq, bool_decide_eq_false_2; [done|]. rewrite E. by destruct k.
    + rewrite get_cons, IH. case_decide as Hk; [|done]. subst k. simpl. by rewrite Ha, Ec.
  - assert (atKey root step x = false) as Ha by (apply not_true_iff_false; by rewrite atKey_iff).
    rewrite Ha. simpl. rewrite get_cons, IH. case_decide as Hk; [|done].
    subst k. simpl. by rewrite Ha.
Qed.

Lemma delete_unique (q : Row -> bool) l : Unique l -> Unique (delete q l).1.
Proof.
  unfold Unique. simpl. induction l as [|x l IH]; [done|]. rewrite fmap_cons. intros [Hx Hu]%NoDup_cons.
  rewrite filter_cons. case_decide; [|by apply IH]. rewrite fmap_cons. apply NoDup_cons. split; [|by apply IH].
  intros Hin. apply Hx. apply list_elem_of_fmap in Hin as (y & -> & [_ Hy]%list_elem_of_filter).
  by apply list_elem_of_fmap_2.
Qed.

(** ** The lifecycle of a row *)

(** What identifies the operation of a row. *)
Definition identity (r : Row) : Key * (string * string * string) * (Kind * string * string) :=
  (keyOf r, (agent_id r, channel_type r, channel_id r), (operation_kind r, operation_fingerprint r, content_digest r)).

(** What one method does to the row of a key: nothing; it begins; it moves on
    from an in-flight state and keeps its identity; a begin is taken back. *)
Inductive RowStep : option Row -> option Row -> Prop :=
| row_same x : RowStep x x
| row_begun r : state r = send_attempt_started -> RowStep None (Some r)
| row_moved r r' :
    inFlight r = true -> state r' <> send_attempt_started -> identity r' = identity r -> RowStep (Some r) (Some r')
| row_reclaimed r : state r = send_attempt_started -> RowStep (Some r) None.

Lemma isState_true s r : isState s r = true <-> state r = s.
Proof. unfold isState. by rewrite bool_decide_eq_true. Qed.

Lemma inFlight_iff r : inFlight r = true <-> state r = send_attempt_started \/ state r = unknown_after_send.
Proof. unfold inFlight. by rewrite orb_true_iff, !isState_true. Qed.

(** A row is well formed when the schema accepts it and no attempt is counted
    before the first. *)
Definition RowOk (r : Row) : Prop :=
  rowValid r = true /\ (state r = send_attempt_started -> attempt_count r = 0).

Definition decisionOf (root digest : string) (d : Db) : option Decision :=
  match lookupDecision root digest (operator_decisions d) with
  | Some o => Some o
  | None => lookupDecision root digest (no_reply_decisions d)
  end.

(** What a decision rules out: its operation is not in flight, and a committed
    receipt means it was delivered. *)
Definition Settled (dec : Decision) (r : Row) : Prop :=
  inFlight r = false /\ (state r = committed -> dec = delivered).

Definition opKey (o : OperationRow) : Key := (op_root o, op_step o).
Definition opName (o : OperationRow) : string * string := (op_root o, operation_id o).

Record Wf (d : Db) : Prop := {
  wf_keys : Unique (ledger d);
  wf_rows : Forall RowOk (ledger d);
  wf_names : NoDup (opName <$> operations d);
  wf_steps : NoDup (opKey <$> operations d);
  wf_one : forall root digest, lookupDecision root digest (operator_decisions d) = None
             \/ lookupDecision root digest (no_reply_decisions d) = None;
  wf_final : forall o dec r, o ∈ operations d -> decisionOf (op_root o) (operation_id o) d = Some dec ->
               rowAt (opKey o) (ledger d) = Some r -> Settled dec r
}.

Lemma Wf_empty : Wf emptyDb.
Proof.
  split.
  - apply NoDup_nil_2.
  - by apply Forall_nil.
  - apply NoDup_nil_2.
  - apply NoDup_nil_2.
  - by left.
  - intros o dec r H. by apply not_elem_of_nil in H.
Qed.

(** ** Joins under the unique keys *)

Lemma head_filter {A} (p : A -> bool) l : head (filter (fun x => p x = true) l) = get p l.
Proof.
  induction l as [|x l IH]; [done|]. rewrite filter_cons, get_cons. destruct (p x) eqn:E.
  - by rewrite decide_True.
  - by rewrite decide_False by congruence.
Qed.

(** At most one element of a list satisfies a test on an injective key. *)
Lemma filter_key {A K} (key : A -> K) (p : A -> bool) l k :
  (forall x, p x = true <-> key x = k) -> NoDup (key <$> l) ->
  filter (fun x => p x = true) l = option_list (get p l).
Proof.
  intros Hp. induction l as [|x l IH]; [done|]. rewrite fmap_cons. intros [Hx Hn]%NoDup_cons.
  rewrite filter_cons, get_cons. destruct (p x) eqn:E.
  - rewrite decide_True by done. simpl. f_equal. rewrite IH by done.
    assert (get p l = None) as ->; [|done]. apply get_None. intros y Hy. apply not_true_iff_false.
    rewrite Hp. intros Ey. apply Hp in E. apply Hx. rewrite E, <- Ey. by apply list_elem_of_fmap_2.
  - rewrite decide_False by congruence. by apply IH.
Qed.

Lemma get_key {A K} (key : A -> K) (p : A -> bool) l k x :
  (forall x, p x = true <-> key x = k) -> NoDup (key <$> l) -> x ∈ l -> key x = k -> get p l = Some x.
Proof.
  intros Hp Hn Hx Hk. assert (x ∈ filter (fun x => p x = true) l) as H by (apply list_elem_of_filter; by rewrite Hp).
  rewrite (filter_key key p l k Hp Hn) in H. destruct (get p l); simpl in H; [|by apply not_elem_of_nil in H].
  by apply list_elem_of_singleton in H as ->.
Qed.

Lemma opAt_iff root digest o : opAt root digest o = true <-> opName o = (root, digest).
Proof.
  unfold opAt, opName. rewrite andb_true_iff, !String.eqb_eq. split; [intros [-> ->]; done|intros [= -> ->]; done].
Qed.

Lemma opAtStep_iff root step o : opAtStep root step o = true <-> opKey o = (root, step).
Proof.
  unfold opAtStep, opKey. rewrite andb_true_iff, String.eqb_eq, Z.eqb_eq.
  split; [intros [-> ->]; done|intros [= -> ->]; done].
Qed.

Lemma lookupDecisionByStep_eq root step ops l :
  NoDup (opKey <$> ops) ->
  lookupDecisionByStep root step ops l =
  match get (opAtStep root step) ops with Some o => lookupDecision root (operation_id o) l | None => None end.
Proof.
  intros Hn. unfold lookupDecisionByStep.
  rewrite (filter_key opKey (opAtStep root step) ops (root, step)) by (done || apply opAtStep_iff).
  destruct (get (opAtStep root step) ops) as [o|]; [|done]. simpl. rewrite app_nil_r. unfold lookupDecision.
  rewrite <- head_filter. by destruct (filter _ l).
Qed.

Lemma lookupOperationLedgerState_eq root digest d :
  NoDup (opName <$> operations d) ->
  lookupOperationLedgerState root digest d =
  match get (opAt root digest) (operations d) with
  | Some o => state <$> rowAt (root, op_step o) (ledger d)
  | None => None
  end.
Proof.
  intros Hn. unfold lookupOperationLedgerState, rowAt.
  rewrite (filter_key opName (opAt root digest) (operations d) (root, digest)) by (done || apply opAt_iff).
  destruct (get (opAt root digest) (operations d)) as [o|]; [|done]. simpl. rewrite app_nil_r.
  rewrite <- head_filter. by destruct (filter _ (ledger d)).
Qed.

Lemma get_opAtStep o ops : NoDup (opKey <$> ops) -> o ∈ ops -> get (opAtStep (op_root o) (op_step o)) ops = Some o.
Proof. intros Hn Ho. eapply (get_key opKey); [apply opAtStep_iff|done..]. Qed.

Lemma get_opAt o ops : NoDup (opName <$> ops) -> o ∈ ops -> get (opAt (op_root o) (operation_id o)) ops = Some o.
Proof. intros Hn Ho. eapply (get_key opName); [apply opAt_iff|done..]. Qed.
End OutwardLedgerFacts.
