(* ===== verification/OutwardLedgerWf.v ===== *)
(** * Every method of the ledger keeps its tables well formed

  The invariant [Wf] and the lifecycle [RowStep], method by method. *)

From S2P Require Import Prelude CanonicalJson TaskTypes OutwardLedger OutwardLedgerFacts.

Open Scope string_scope.
Open Scope list_scope.
Open Scope Z_scope.

Module OutwardLedgerWf.
Import OutwardLedger OutwardLedgerFacts.

(** ** Methods that change one row *)

Lemma Wf_setLedger l d :
  Wf d -> Unique l -> Forall RowOk l ->
  (forall k, RowStep (rowAt k (ledger d)) (rowAt k l)) ->
  (forall o r, o ∈ operations d -> rowAt (opKey o) (ledger d) = None -> rowAt (opKey o) l = Some r ->
     decisionOf (op_root o) (operation_id o) d = None) ->
  Wf (setLedger l d).
Proof.
  intros [] Hu Hr Hs Hn. split; try done. simpl. intros o dec r Ho Hd Hl.
  specialize (Hs (opKey o)). rewrite Hl in Hs.
  change (decisionOf (op_root o) (operation_id o) d = Some dec) in Hd.
  inversion Hs as [? E|? ? E|r0 ? Hf ? ? E|]; subst.
  - by eapply wf_final0.
  - specialize (Hn o r Ho (eq_sym E) Hl). congruence.
  - destruct (wf_final0 o dec r0 Ho Hd (eq_sym E)) as [Hf' _]. congruence.
Qed.

Section Moves.
Context (root : string) (step : Z) (c : Row -> bool) (f : Row -> Row) (d : Db).
Hypothesis Hflight : forall r, c r = true -> inFlight r = true.
Hypothesis Hstate : forall r, state (f r) <> send_attempt_started.
Hypothesis Hident : forall r, identity (f r) = identity r.
Hypothesis Hok : forall r, c r = true -> RowOk r -> RowOk (f r).

Abbreviation l' := (update (fun r => atKey root step r && c r) f (ledger d)).1.

Lemma Hkey r : keyOf (f r) = keyOf r.
Proof. pose proof (Hident r) as E. unfold identity in E. congruence. Qed.

Lemma move_step k : RowStep (rowAt k (ledger d)) (rowAt k l').
Proof.
  rewrite (rowAt_update root step c f Hkey). case_decide as Hk; [|constructor].
  destruct (rowAt k (ledger d)) as [r|]; [|constructor]. simpl.
  destruct (c r) eqn:Ec; [|constructor]. constructor; auto.
Qed.

Lemma move_wf : Wf d -> Wf (setLedger l' d).
Proof.
  intros Hw. pose proof Hw as []. apply Wf_setLedger; [done| | |apply move_step|].
  - unfold Unique. by rewrite (update_keys root step c f Hkey).
  - simpl. apply Forall_fmap. eapply Forall_impl; [exact wf_rows0|]. intros r Hr. simpl.
    destruct (atKey root step r), (c r) eqn:Ec; simpl; auto.
  - intros o r _ Hn Hl. rewrite (rowAt_update root step c f Hkey), Hn in Hl. by case_decide.
Qed.

Lemma move_count :
  Wf d ->
  (update (fun r => atKey root step r && c r) f (ledger d)).2 =
  match rowAt (root, step) (ledger d) with Some r => if c r then 1%nat else 0%nat | None => 0%nat end.
Proof. intros []. by apply matching_count. Qed.
End Moves.

(** ** The rows the updates write *)

(** The schema, field by field. *)
Lemma rowValid_iff r :
  rowValid r = true <->
  TaskTypes.hex64 (operation_fingerprint r) = true /\ TaskTypes.hex64 (content_digest r) = true
  /\ TaskTypes.SafeCountSchema (attempt_count r) = true
  /\ TaskTypes.SafeTimeSchema (created_at_ms r) = true /\ TaskTypes.SafeTimeSchema (updated_at_ms r) = true
  /\ nonEmpty (platform_message_id r) = bool_decide (state r = committed)
  /\ bool_decide (reconcile_outcome r = Some reconcile_unresolved) = bool_decide (state r = unresolved)
  /\ nonEmpty (last_error r) = bool_decide (state r = failed).
Proof. unfold rowValid, isState. rewrite !andb_true_iff, !Bool.eqb_true_iff. intuition congruence. Qed.

(** An in-flight row has no receipt, no recovery outcome and no error. *)
Lemma flight_fields r :
  rowValid r = true -> inFlight r = true ->
  nonEmpty (platform_message_id r) = false
  /\ bool_decide (reconcile_outcome r = Some reconcile_unresolved) = false /\ nonEmpty (last_error r) = false.
Proof.
  rewrite rowValid_iff, inFlight_iff. intros (_ & _ & _ & _ & _ & -> & -> & ->) [-> | ->]; done.
Qed.

Lemma SafeCount_1 : TaskTypes.SafeCountSchema (0 + 1) = true.
Proof. done. Qed.

(** ** Method by method *)

Section Methods.
Context (root : string) (step now : Z) (d : Db).
Hypothesis Hw : Wf d.
Hypothesis Hnow : TaskTypes.SafeTimeSchema now = true.

(** The moves keep rows well formed. *)
Ltac row_ok :=
  intros r Hc [Hv Ha]; pose proof Hv as Hv';
  apply rowValid_iff in Hv' as (? & ? & ? & ? & ? & ? & ? & ?);
  apply flight_fields in Hv as (? & ? & ?); [|by apply inFlight_iff; rewrite ?inFlight_iff, ?isState_true in Hc; auto];
  split; [apply rowValid_iff; simpl; repeat split; auto|by simpl].

Ltac flight := intros r Hc; rewrite ?isState_true in Hc; rewrite inFlight_iff; auto.

Lemma markUnknown_moves :
  let d' := (markUnknown root step now d).2 in
  Wf d' /\ (forall k, RowStep (rowAt k (ledger d)) (rowAt k (ledger d'))).
Proof.
  split; [apply move_wf|apply move_step]; try done; try flight.
  row_ok. apply isState_true in Hc. by rewrite (Ha Hc).
Qed.

Lemma commit_moves m :
  let d' := (commit root step m now d).2 in
  Wf d' /\ (forall k, RowStep (rowAt k (ledger d)) (rowAt k (ledger d'))).
Proof.
  unfold commit. destruct (String.eqb m "") eqn:Em; [split; [done|constructor]|].
  split; [apply move_wf|apply move_step]; try done; try flight.
  row_ok. by rewrite Em.
Qed.

Lemma markFailed_moves e :
  e <> "" ->
  let d' := (markFailed root step e now d).2 in
  Wf d' /\ (forall k, RowStep (rowAt k (ledger d)) (rowAt k (ledger d'))).
Proof.
  intros He. split; [apply move_wf|apply move_step]; try done; try flight.
  row_ok. apply String.eqb_neq in He. by rewrite He.
Qed.

Lemma parkUncertain_moves :
  let d' := (parkUncertain root step now d).2 in
  Wf d' /\ (forall k, RowStep (rowAt k (ledger d)) (rowAt k (ledger d'))).
Proof. split; [apply move_wf|apply move_step]; try done. row_ok. Qed.

Lemma reclaimPreSend_moves :
  let d' := (reclaimPreSend root step d).2 in
  Wf d' /\ (forall k, RowStep (rowAt k (ledger d)) (rowAt k (ledger d'))).
Proof.
  pose proof Hw as []. simpl.
  assert (forall k, RowStep (rowAt k (ledger d)) (rowAt k (reclaimPreSendStmt root step d).1)) as Hs.
  { intros k. unfold reclaimPreSendStmt. rewrite rowAt_delete by done. case_decide; [|constructor].
    destruct (rowAt k (ledger d)) as [r|]; [|constructor]. destruct (isState _ r) eqn:E; constructor.
    by apply isState_true. }
  split; [|done]. apply Wf_setLedger; [done|by apply delete_unique| |done|].
  - apply Forall_forall. intros r [_ Hr]%list_elem_of_filter. by eapply Forall_forall.
  - intros o r _ Hn Hl.
    pose proof (rowAt_delete root step (isState send_attempt_started) (opKey o) (ledger d) wf_keys0) as E.
    rewrite Hn in E. change (rowAt (opKey o) (reclaimPreSendStmt root step d).1 = Some r) in Hl.
    unfold reclaimPreSendStmt in Hl. rewrite E in Hl. by case_decide.
Qed.
End Methods.

(** ** Beginning a send *)

(** A begin that succeeds found no row and no decision for its key. *)
Lemma begin_Ok i now d d' :
  begin i now d = (Ok tt, d') ->
  TaskTypes.hex64 (contentDigest i) = true /\ TaskTypes.hex64 (operationFingerprint i) = true
  /\ rowAt (rootRunId i, stepIndex i) (ledger d) = None
  /\ lookupDecisionByStep (rootRunId i) (stepIndex i) (operations d) (operator_decisions d) = None
  /\ lookupDecisionByStep (rootRunId i) (stepIndex i) (operations d) (no_reply_decisions d) = None
  /\ d' = setLedger (ledger d ++
       [mkRow (rowId (rootRunId i) (stepIndex i)) (rootRunId i) (stepIndex i) (agentId i) (channelType i) (channelId i)
          (operationKind i) (operationFingerprint i) send_attempt_started None (contentDigest i) None 0 None now now]) d.
Proof.
  unfold begin, transaction, beginOperation, beginStmt, rowAt.
  destruct (TaskTypes.hex64 (contentDigest i)); [|done]. destruct (TaskTypes.hex64 (operationFingerprint i)); [|done].
  simpl. destruct (lookupDecisionByStep _ _ _ (operator_decisions d)), (lookupDecisionByStep _ _ _ (no_reply_decisions d));
    try done.
  destruct (existsb _ _); [done|]. rewrite existsb_get. destruct (get _ _); [done|]. by intros [= <-].
Qed.

Lemma begin_Err i now d e d' : begin i now d = (Err e, d') -> d' = d.
Proof.
  unfold begin, transaction. repeat case_match; naive_solver.
Qed.

Lemma rowAt_snoc k l r : rowAt (keyOf r) l = None ->
  rowAt k (l ++ [r]) = if decide (k = keyOf r) then Some r else rowAt k l.
Proof.
  intros Hn. unfold rowAt. rewrite get_app, get_cons, atKey_eq, <- surjective_pairing.
  case_decide as Hk; [subst; unfold rowAt in Hn; rewrite Hn; by rewrite bool_decide_eq_true_2|].
  rewrite bool_decide_eq_false_2 by done. by destruct (get _ l).
Qed.

Lemma begin_moves i now d :
  Wf d -> TaskTypes.SafeTimeSchema now = true ->
  let d' := (begin i now d).2 in
  Wf d' /\ (forall k, RowStep (rowAt k (ledger d)) (rowAt k (ledger d'))).
Proof.
  intros Hw Hnow. destruct (begin i now d) as [[[]|e] d'] eqn:E; simpl.
  2: { apply begin_Err in E as ->. split; [done|constructor]. }
  apply begin_Ok in E as (Hc & Hf & Hn & Ho & Hr & ->). pose proof Hw as [].
  set (r0 := mkRow _ _ _ _ _ _ _ _ _ _ _ _ _ _ _ _). change (rowAt (keyOf r0) (ledger d) = None) in Hn.
  assert (forall k, RowStep (rowAt k (ledger d)) (rowAt k (ledger d ++ [r0]))) as Hs.
  { intros k. rewrite rowAt_snoc by done. case_decide; [|constructor]. subst. rewrite Hn. by constructor. }
  split; [|done]. apply Wf_setLedger; [done| | |done|].
  - unfold Unique. rewrite fmap_app. apply NoDup_app. split; [done|]. split; [|apply NoDup_singleton].
    intros k Hk ->%list_elem_of_singleton. apply list_elem_of_fmap in Hk as (r & Hr' & Hin).
    rewrite rowAt_None in Hn. by apply (Hn r).
  - apply Forall_app. split; [done|]. apply Forall_singleton. split; [|done].
    apply rowValid_iff. by repeat split.
  - intros o r Hin Ha Hb. rewrite rowAt_snoc in Hb by done. case_decide as Hk; [|congruence].
    rewrite lookupDecisionByStep_eq in Ho, Hr by done. injection Hk as Hk1 Hk2. simpl in Hk1, Hk2.
    rewrite <- Hk1, <- Hk2, get_opAtStep in Ho, Hr by done. unfold decisionOf. by rewrite Ho.
Qed.

(** ** Allocating a step *)

Lemma maxOr_ge l x : x ∈ l -> x <= maxOr l.
Proof.
  induction l as [|y l IH]; [by intros ?%not_elem_of_nil|]. intros [-> | Hx]%elem_of_cons; simpl; [lia|].
  specialize (IH Hx). lia.
Qed.

Lemma maxOr_lb l : -1 <= maxOr l.
Proof. induction l; simpl; lia. Qed.

Lemma usedStep_row r d : r ∈ ledger d -> step_index r <= usedStep (root_run_id r) d.
Proof.
  intros Hr. unfold usedStep. etrans; [|apply Z.le_max_l]. apply maxOr_ge.
  apply list_elem_of_fmap_2. by apply list_elem_of_filter.
Qed.

Lemma usedStep_op o d : o ∈ operations d -> op_step o <= usedStep (op_root o) d.
Proof.
  intros Hr. unfold usedStep. etrans; [|apply Z.le_max_r]. apply maxOr_ge.
  apply list_elem_of_fmap_2. by apply list_elem_of_filter.
Qed.

(** The allocated step is above every step in use; only sequences change. *)
Lemma allocateStepStmt_spec root t d :
  let '(v, d') := allocateStepStmt root t d in
  usedStep root d < v /\ ledger d' = ledger d /\ operations d' = operations d
  /\ operator_decisions d' = operator_decisions d /\ no_reply_decisions d' = no_reply_decisions d.
Proof. unfold allocateStepStmt. destruct (get _ _); simpl; repeat split; lia. Qed.

Section Allocate.
Variable sha256 : string -> string.

(** What a successful allocation returned and wrote. *)
Lemma allocateStep_Ok root op now d v d' :
  allocateStep sha256 root op now d = (Ok v, d') ->
  let digest := digestOperationId sha256 op in
  TaskTypes.SafeCountSchema v = true /\ ledger d' = ledger d
  /\ operator_decisions d' = operator_decisions d /\ no_reply_decisions d' = no_reply_decisions d
  /\ match get (opAt root digest) (operations d) with
     | Some o => v = op_step o /\ d' = d
     | None => usedStep root d < v /\ exists o, opName o = (root, digest) /\ opKey o = (root, v)
                 /\ operations d' = operations d ++ [o]
     end.
Proof.
  unfold allocateStep. destruct (identityInvalid root op); [done|]. unfold transaction.
  destruct (get _ (operations d)) as [o|] eqn:Eg.
  - destruct (TaskTypes.SafeCountSchema (op_step o)) eqn:Es; [|done]. by intros [= <- <-].
  - pose proof (allocateStepStmt_spec root now d) as Ha. destruct (allocateStepStmt root now d) as [v0 d1].
    destruct Ha as (Hv & Hl & Ho & H1 & H2). destruct (TaskTypes.SafeCountSchema v0) eqn:Es; [|done].
    unfold insertOperationStmt. repeat case_match; try done. intros [= <- <-]. simplify_eq. simpl.
    rewrite Hl, Ho, H1, H2. repeat split; try done. eexists. split; [|split; [|done]]; done.
Qed.

Lemma allocateStep_Err root op now d e d' : allocateStep sha256 root op now d = (Err e, d') -> d' = d.
Proof. unfold allocateStep, transaction. repeat case_match; naive_solver. Qed.

Lemma NoDup_snoc_key {A K} (key : A -> K) l x :
  NoDup (key <$> l) -> (forall y, y ∈ l -> key y <> key x) -> NoDup (key <$> l ++ [x]).
Proof.
  intros Hn Hx. rewrite fmap_app. apply NoDup_app. split; [done|]. split; [|apply NoDup_singleton].
  intros k Hk ->%list_elem_of_singleton. apply list_elem_of_fmap in Hk as (y & E & Hy). by apply (Hx y).
Qed.

(** A step above every step in use belongs to no row and no operation. *)
Lemma unused_row root v d : usedStep root d < v -> rowAt (root, v) (ledger d) = None.
Proof.
  intros Hv. apply rowAt_None. intros r Hr [= E1 E2]. apply usedStep_row in Hr. rewrite E1, E2 in Hr. lia.
Qed.

Lemma unused_op root v d o : usedStep root d < v -> o ∈ operations d -> opKey o <> (root, v).
Proof. intros Hv Ho [= E1 E2]. apply usedStep_op in Ho. rewrite E1, E2 in Ho. lia. Qed.

Lemma allocateStep_moves root op now d :
  Wf d -> let d' := (allocateStep sha256 root op now d).2 in Wf d' /\ ledger d' = ledger d.
Proof.
  intros Hw. destruct (allocateStep sha256 root op now d) as [[v|e] d'] eqn:E; simpl.
  2: { by apply allocateStep_Err in E as ->. }
  apply allocateStep_Ok in E as (_ & Hl & Ho & Hr & Hm). cbn zeta in Hm. pose proof Hw as [].
  destruct (get _ (operations d)) eqn:Eg; [by destruct Hm as [_ ->]|].
  destruct Hm as (Hv & o & Hname & Hkey' & Hops). split; [|done].
  split; rewrite ?Hl, ?Ho, ?Hr, ?Hops; try done.
  - apply NoDup_snoc_key; [done|]. intros y Hy. rewrite Hname, <- opAt_iff.
    rewrite get_None in Eg. by rewrite (Eg y Hy).
  - apply NoDup_snoc_key; [done|]. intros y Hy. rewrite Hkey'. by eapply unused_op.
  - intros o' dec r Hin. unfold decisionOf. rewrite Ho, Hr.
    apply elem_of_app in Hin as [Hin | ->%list_elem_of_singleton]; [by apply wf_final0|].
    intros _. rewrite Hkey', (unused_row root v d Hv). done.
Qed.
End Allocate.

(** ** Deciding an operation *)

Lemma lookupDecision_snoc root digest l x :
  lookupDecision root digest (l ++ [x]) =
  match lookupDecision root digest l with
  | Some o => Some o
  | None => if decisionAt root digest x then Some (outcome x) else None
  end.
Proof.
  unfold lookupDecision. rewrite get_app. destruct (get _ l); [done|]. simpl. rewrite get_cons.
  by destruct (decisionAt root digest x).
Qed.

Lemma decisionAt_iff root digest x : decisionAt root digest x = true <-> (d_root x, d_operation x) = (root, digest).
Proof. unfold decisionAt. rewrite andb_true_iff, !String.eqb_eq. naive_solver. Qed.

(** The two tables after a new decision. *)
Definition withDecision (x : DecisionRow) (d : Db) : Db :=
  match outcome x with
  | no_reply => mkDb (ledger d) (sequences d) (operations d) (operator_decisions d) (no_reply_decisions d ++ [x])
  | _ => mkDb (ledger d) (sequences d) (operations d) (operator_decisions d ++ [x]) (no_reply_decisions d)
  end.

Section Decide.
Variable sha256 : string -> string.

(** A decision is recorded again, or it is new and its operation is not in
    flight and not committed against it. *)
Lemma recordTerminalDecision_Ok root op o now d d' :
  recordTerminalDecision sha256 root op o now d = (Ok tt, d') ->
  let digest := digestOperationId sha256 op in
  (decisionOf root digest d = Some o /\ d' = d)
  \/ (decisionOf root digest d = None
      /\ (exists x, d_root x = root /\ d_operation x = digest /\ outcome x = o /\ d' = withDecision x d)
      /\ forall s, lookupOperationLedgerState root digest d = Some s ->
           s <> send_attempt_started /\ s <> unknown_after_send /\ (s = committed -> o = delivered)).
Proof.
  unfold recordTerminalDecision, decisionOf, transaction. destruct (identityInvalid root op); [done|]. cbn zeta.
  set (digest := digestOperationId sha256 op).
  destruct (lookupDecision root digest (operator_decisions d)) as [e|],
    (lookupDecision root digest (no_reply_decisions d)) as [e'|]; simpl; try done;
    try (case_decide; [intros [= <-]; left; split; congruence|done]).
  intros H. right. split; [done|]. unfold withDecision, insertDecision in *.
  destruct (lookupOperationLedgerState root digest d) as [[]|] eqn:El, o; simpl in H; repeat case_match; simplify_eq/=;
    (split; [eexists {| outcome := _ |}; repeat split|intros s [= <-]]; done || naive_solver).
Qed.

Lemma recordTerminalDecision_Err root op o now d e d' :
  recordTerminalDecision sha256 root op o now d = (Err e, d') -> d' = d.
Proof. unfold recordTerminalDecision, transaction. repeat case_match; naive_solver. Qed.

Lemma decisionOf_with root digest x d :
  decisionOf (d_root x) (d_operation x) d = None ->
  decisionOf root digest (withDecision x d) =
  if decide ((d_root x, d_operation x) = (root, digest)) then Some (outcome x) else decisionOf root digest d.
Proof.
  unfold decisionOf, withDecision. intros Hn.
  destruct (lookupDecision (d_root x) (d_operation x) (operator_decisions d)) eqn:E1; [done|].
  case_decide as Hk.
  - injection Hk as <- <-. assert (decisionAt (d_root x) (d_operation x) x = true) as Ha by by apply decisionAt_iff.
    destruct (outcome x) eqn:Eo; simpl; rewrite ?lookupDecision_snoc, ?E1, ?Hn, Ha, Eo; done.
  - assert (decisionAt root digest x = false) as Ha by (apply not_true_iff_false; by rewrite decisionAt_iff).
    destruct (outcome x); simpl; rewrite lookupDecision_snoc, Ha; by repeat case_match.
Qed.

Lemma withDecision_tables x d :
  ledger (withDecision x d) = ledger d /\ operations (withDecision x d) = operations d.
Proof. unfold withDecision. by destruct (outcome x). Qed.

Lemma withDecision_one x d :
  decisionOf (d_root x) (d_operation x) d = None ->
  (forall root digest, lookupDecision root digest (operator_decisions d) = None
     \/ lookupDecision root digest (no_reply_decisions d) = None) ->
  forall root digest, lookupDecision root digest (operator_decisions (withDecision x d)) = None
     \/ lookupDecision root digest (no_reply_decisions (withDecision x d)) = None.
Proof.
  unfold decisionOf, withDecision. intros Hn Ho root digest. specialize (Ho root digest).
  destruct (lookupDecision (d_root x) (d_operation x) (operator_decisions d)) eqn:E1; [done|].
  destruct (decisionAt root digest x) eqn:Ha.
  - apply decisionAt_iff in Ha as [= <- <-].
    destruct (outcome x); simpl; rewrite ?lookupDecision_snoc, ?E1, ?Hn; auto.
  - destruct (outcome x); simpl; rewrite ?lookupDecision_snoc, Ha; destruct Ho as [-> | ->]; auto;
      by repeat case_match; auto.
Qed.

Lemma recordTerminalDecision_moves root op o now d :
  Wf d -> let d' := (recordTerminalDecision sha256 root op o now d).2 in Wf d' /\ ledger d' = ledger d.
Proof.
  intros Hw. destruct (recordTerminalDecision sha256 root op o now d) as [[[]|e] d'] eqn:E; simpl.
  2: { by apply recordTerminalDecision_Err in E as ->. }
  apply recordTerminalDecision_Ok in E as [[_ ->]|(Hn & (x & <- & Hx & Hox & ->) & Hs)]; [done|].
  rewrite <- Hx in *. pose proof Hw as []. destruct (withDecision_tables x d) as [El Eo].
  rewrite lookupOperationLedgerState_eq in Hs by done.
  split; [|done]. split; rewrite ?El, ?Eo; try done; [by apply withDecision_one|].
  intros op' dec r Hin. rewrite decisionOf_with by done. case_decide as Hk; [|by apply wf_final0].
  intros [= <-] Hr. injection Hk as Hk1 Hk2.
  assert (get (opAt (d_root x) (d_operation x)) (operations d) = Some op') as Hg by (rewrite Hk1, Hk2; by apply get_opAt).
  rewrite Hg, Hk1 in Hs. unfold opKey in Hr. rewrite Hr in Hs. destruct (Hs _ eq_refl) as (H1 & H2 & H3).
  split; [|rewrite <- Hox in H3; auto]. apply not_true_iff_false. rewrite inFlight_iff. naive_solver.
Qed.
End Decide.
End OutwardLedgerWf.
