(* ===== verification/OutwardSend.v ===== *)
(** * Senders over the outward-send ledger

  Models the code that sends through the ledger: [wrapOutwardSend] of
  [packages/daemon/src/api/outward-ledger-wrap.ts], the governed announcement
  sender of
  [packages/orchestrator/src/cross-session/announcement-outward-operation.ts],
  the delivery and reconciliation of background completions of
  [packages/daemon/src/wiring/setup-background-completion-runner.ts], and the
  parking loop of [packages/daemon/src/autonomy/durable-resume-engine.ts].

  An async function is a program: it returns, throws, awaits one ledger method,
  awaits the platform, or reads the clock.  Programs run interleaved at their
  awaits; every method of the ledger is atomic.  A [Send] names the ledger key
  under which the platform is called, which the code does not pass on: it labels
  the call for the theorems.  Log records and observational events are left
  out. *)

From Stdlib Require Import Ascii.
From S2P Require Import Prelude CanonicalJson TaskTypes ApprovalPolicy OutwardLedger.

Open Scope string_scope.
Open Scope list_scope.
Open Scope Z_scope.

Module OutwardSend.
Import OutwardLedger.

(** ** Programs *)

(** [OutwardSendPreSendError] or any other error, with its message. *)
Inductive Error := EPlain (message : string) | EPreSend (message : string).

Definition message (e : Error) : string := match e with EPlain m | EPreSend m => m end.

Definition Key : Type := string * Z.

(** A call of a method of [OutwardSendLedgerPort]. *)
Inductive Req :=
| QLookupTerminal (root operationId : string)
| QRecordTerminal (root operationId : string) (o : Decision)
| QAllocate (root operationId : string)
| QBegin (i : BeginInput)
| QLookup (root : string) (step : Z)
| QMarkUnknown (root : string) (step : Z)
| QReclaim (root : string) (step : Z)
| QCommit (root : string) (step : Z) (receipt : string)
| QMarkFailed (root : string) (step : Z) (errorKind : string)
| QPark (root : string) (step : Z)
| QHasUncertainty (root : string)
| QList (limit : Z).

Definition Ans (q : Req) : Type :=
  match q with
  | QLookupTerminal _ _ => option Decision
  | QAllocate _ _ => Z
  | QLookup _ _ => option Row
  | QReclaim _ _ | QPark _ _ | QHasUncertainty _ => bool
  | QList _ => list Row
  | _ => unit
  end.

(** What a platform call ends with: its promise rejects, it returns an error,
    the message was not accepted, or it was, perhaps with a receipt. *)
Inductive Platform :=
| PReject (e : string)
| PErr (e : string)
| PRejected
| PUnknown
| PAccepted (receipt : option string).

Inductive Prog (A : Type) : Type :=
| Ret (a : A)
| Throw (e : Error)
| Call (q : Req) (k : Result (Ans q) string -> Prog A)
| Send (key : option Key) (k : Platform -> Prog A)
| Now (k : Z -> Prog A).
Arguments Ret {A} _.
Arguments Throw {A} _.
Arguments Call {A} _ _.
Arguments Send {A} _ _.
Arguments Now {A} _.

Fixpoint bind {A B} (f : A -> Prog B) (p : Prog A) : Prog B :=
  match p with
  | Ret a => f a
  | Throw e => Throw e
  | Call q k => Call q (fun r => bind f (k r))
  | Send key k => Send key (fun r => bind f (k r))
  | Now k => Now (fun t => bind f (k t))
  end.

#[global] Instance Prog_bind : MBind Prog := @bind.

(** [fromPromise]: what was thrown becomes an error value. *)
Fixpoint fromPromise {A} (p : Prog A) : Prog (Result A Error) :=
  match p with
  | Ret a => Ret (Ok a)
  | Throw e => Ret (Err e)
  | Call q k => Call q (fun r => fromPromise (k r))
  | Send key k => Send key (fun r => fromPromise (k r))
  | Now k => Now (fun t => fromPromise (k t))
  end.

Definition call (q : Req) : Prog (Result (Ans q) string) := Call q Ret.

(** One method call on the tables. *)
Definition exec (sha256 : string -> string) (q : Req) (now : Z) (d : Db) : Result (Ans q) string * Db :=
  match q return Result (Ans q) string * Db with
  | QLookupTerminal root op => (lookupTerminalDecision sha256 root op d, d)
  | QRecordTerminal root op o => recordTerminalDecision sha256 root op o now d
  | QAllocate root op => allocateStep sha256 root op now d
  | QBegin i => begin i now d
  | QLookup root step => (OutwardLedger.lookup root step d, d)
  | QMarkUnknown root step => markUnknown root step now d
  | QReclaim root step => reclaimPreSend root step d
  | QCommit root step receipt => commit root step receipt now d
  | QMarkFailed root step kind => markFailed root step kind now d
  | QPark root step => parkUncertain root step now d
  | QHasUncertainty root => (hasUncertainty root d, d)
  | QList limit => (listUnreconciled limit d, d)
  end.

(** ** Values that enter a fingerprint *)

(** A JavaScript value.  [plain] tells whether an array is dense with data
    properties only, and whether an object has a plain prototype and enumerable
    data properties only; values are trees, so no cycle is met. *)
Inductive Js :=
| JsNull
| JsUndefined
| JsString (s : string)
| JsBool (b : bool)
| JsNumber (n : option Z)
| JsOther
| JsArray (plain : bool) (items : list Js)
| JsObject (plain : bool) (entries : list (string * Js)).

Definition isUndefined (v : Js) : bool := match v with JsUndefined => true | _ => false end.

(** The first error, or all values. *)
Fixpoint gather {A B} (l : list (A * Result B string)) : Result (list (A * B)) string :=
  match l with
  | [] => Ok []
  | (_, Err e) :: _ => Err e
  | (a, Ok b) :: l => match gather l with Ok bs => Ok ((a, b) :: bs) | Err e => Err e end
  end.

(** The value of a key that is an array index. *)
Fixpoint digitsValue (acc : N) (s : string) : option N :=
  match s with
  | "" => Some acc
  | String c s' =>
      let n := Ascii.N_of_ascii c in
      if ((48 <=? n) && (n <=? 57))%N then digitsValue (10 * acc + (n - 48)) s' else None
  end.

Definition arrayIndex (k : string) : option N :=
  match k with
  | "" => None
  | "0" => Some 0%N
  | String c _ =>
      if Ascii.eqb c "0"%char then None
      else match digitsValue 0 k with Some n => if (n <? 4294967295)%N then Some n else None | None => None end
  end.

Fixpoint insertIndex {A} (n : N) (p : string * A) (l : list (N * (string * A))) : list (N * (string * A)) :=
  match l with
  | [] => [(n, p)]
  | (m, q) :: l' => if (n <=? m)%N then (n, p) :: l else (m, q) :: insertIndex n p l'
  end.

(** The property order of [Object.fromEntries]: array indices first, ascending. *)
Definition fromEntries {A} (l : list (string * A)) : list (string * A) :=
  let indexed := omap (fun p => (fun n => (n, p)) <$> arrayIndex p.1) l in
  (snd <$> foldr (fun x acc => insertIndex x.1 x.2 acc) [] indexed)
  ++ filter (fun p => arrayIndex p.1 = None) l.

(** [sortKeys] with an order of its own. *)
Fixpoint insertBy {A} (le : string -> string -> bool) (p : string * A) (l : list (string * A)) : list (string * A) :=
  match l with
  | [] => [p]
  | q :: l' => if le p.1 q.1 then p :: l else q :: insertBy le p l'
  end.

Definition sortBy {A} (le : string -> string -> bool) (l : list (string * A)) : list (string * A) :=
  foldr (insertBy le) [] l.

Section Fingerprint.
Variable sha256 : string -> string.
Variable localeCompare : string -> string -> Z.

Definition localeLe (a b : string) : bool := localeCompare a b <=? 0.

(** [canonicalize]: the source sorts an object's entries first; canonicalizing
    first and sorting the results gives the same sequence. *)
Fixpoint canonicalize (v : Js) : Result CanonicalJson.Json string :=
  match v with
  | JsNull => Ok CanonicalJson.JNull
  | JsString s => Ok (CanonicalJson.JString s)
  | JsBool b => Ok (CanonicalJson.JBoolean b)
  | JsNumber (Some n) => Ok (CanonicalJson.JNumber n)
  | JsNumber None => Err "outward operation options contain a non-finite number"
  | JsArray _ items =>
      match gather ((fun v => (tt, if isUndefined v then Ok CanonicalJson.JNull else canonicalize v)) <$> items) with
      | Err e => Err e
      | Ok vs => Ok (CanonicalJson.JArray (snd <$> vs))
      end
  | JsObject _ entries =>
      let present := omap (fun p => if isUndefined p.2 then None else Some (p.1, canonicalize p.2)) entries in
      match gather (sortBy localeLe present) with
      | Err e => Err e
      | Ok vs => Ok (CanonicalJson.JObject (fromEntries vs))
      end
  | JsUndefined | JsOther => Err "outward operation options contain an unsupported value"
  end.

Definition kindName (k : Kind) : string :=
  match k with
  | attachment_send => "attachment_send"
  | message_send => "message_send"
  | message_reply => "message_reply"
  | message_react => "message_react"
  | cross_session_announcement => "cross_session_announcement"
  | retained_unclassified => "retained_unclassified"
  end.

(** The arguments of [wrapOutwardSend] that name the operation; an absent
    [operationOptions] is [JsUndefined]. *)
Record Operation := {
  o_agentId : string;
  o_channelType : string;
  o_channelId : string;
  o_kind : Kind;
  o_target : option string;
  o_options : Js;
  o_text : string
}.

Definition orNull (v : Js) : Js := match v with JsUndefined => JsNull | _ => v end.

Definition envelope (o : Operation) : Js :=
  JsObject true
    [("kind", JsString (kindName (o_kind o))); ("channelType", JsString (o_channelType o));
     ("channelId", JsString (o_channelId o));
     ("targetMessageId", match o_target o with Some t => JsString t | None => JsNull end);
     ("text", JsString (o_text o)); ("options", orNull (o_options o))].

(** The text [computeOperationFingerprint] hashes, and its hash. *)
Definition operationText (o : Operation) : Result string string :=
  match canonicalize (envelope o) with
  | Err e => Err e
  | Ok j => Ok (CanonicalJson.render j)
  end.

Definition computeOperationFingerprint (o : Operation) : Result string string :=
  match operationText o with Err e => Err e | Ok t => Ok (sha256 t) end.
End Fingerprint.

(** ** Permanent platform errors *)

(** The rest of a string after its first occurrence of a literal. *)
Fixpoint searchFrom (p a : string) (k : string -> bool) : bool :=
  match ApprovalPolicy.stripPrefix p a with Some rest => k rest | None => false end
  || match a with "" => false | String _ a' => searchFrom p a' k end.

(** [PERMANENT_ERROR_PATTERNS]; the last one has a [.*] in the middle. *)
Definition isPermanentError (error : string) : bool :=
  let e := toLowerCase error in
  existsb (fun p => searchFrom p e (fun _ => true))
    ["chat not found"; "user not found"; "bot was blocked"; "forbidden: bot was kicked"; "chat_id is empty";
     "no conversation reference found"]
  || searchFrom "ambiguous" e
       (ApprovalPolicy.dotStar (fun rest =>
          match ApprovalPolicy.stripPrefix "recipient" rest with Some _ => true | None => false end)).

(** ** wrapOutwardSend *)

(** A value of the source's [Result<_, Error>] from a store error. *)
Definition fail {A} (e : string) : Result A Error := Err (EPlain e).

Section Senders.
Variable sha256 : string -> string.
Variable localeCompare : string -> string -> Z.

(** [sameOperation] *)
Definition sameOperation (o : Operation) (fingerprint digest : string) (r : Row) : bool :=
  String.eqb (agent_id r) (o_agentId o) && String.eqb (channel_type r) (o_channelType o)
  && String.eqb (channel_id r) (o_channelId o) && bool_decide (operation_kind r = o_kind o)
  && String.eqb (operation_fingerprint r) fingerprint && String.eqb (content_digest r) digest.

(** What follows the platform's answer. *)
Definition wrapSettle (root : string) (step : Z) (sent : Result string Error) : Prog (Result string Error) :=
  match sent with
  | Ok messageId =>
      if String.eqb messageId "" then
        parked ← call (QPark root step);
        match parked with
        | Err e => Ret (fail e)
        | Ok _ => Ret (fail "platform send returned no durable receipt")
        end
      else
        committed ← call (QCommit root step messageId);
        match committed with
        | Err e =>
            parked ← call (QPark root step);
            match parked with
            | Err e' => Ret (fail e')
            | Ok _ => Ret (fail e)
            end
        | Ok _ => Ret sent
        end
  | Err failure =>
      if isPermanentError (message failure) then
        markedFailed ← call (QMarkFailed root step "permanent");
        match markedFailed with
        | Err e =>
            parked ← call (QPark root step);
            match parked with
            | Err e' => Ret (fail e')
            | Ok _ => Ret (fail e)
            end
        | Ok _ => Ret sent
        end
      else
        parked ← call (QPark root step);
        match parked with
        | Err e => Ret (fail e)
        | Ok _ => Ret sent
        end
  end.

(** [begin], [markUnknown], the platform call. *)
Definition wrapFresh (root : string) (step : Z) (o : Operation) (fingerprint digest : string)
  (doSend : option Key -> Prog (Result string Error)) : Prog (Result string Error) :=
  begun ← call (QBegin {| rootRunId := root; stepIndex := step; agentId := o_agentId o;
    channelType := o_channelType o; channelId := o_channelId o; operationKind := o_kind o;
    operationFingerprint := fingerprint; contentDigest := digest |});
  match begun with
  | Err e => Ret (fail e)
  | Ok _ =>
      markedUnknown ← call (QMarkUnknown root step);
      match markedUnknown with
      | Err e => Ret (Err (EPreSend e))
      | Ok _ => sent ← doSend (Some (root, step)); wrapSettle root step sent
      end
  end.

(** [target] is [None] without a ledger, a root or a step: pass through. *)
Definition wrapOutwardSend (target : option Key) (o : Operation)
  (doSend : option Key -> Prog (Result string Error)) : Prog (Result string Error) :=
  match target with
  | None => doSend None
  | Some (root, step) =>
      let digest := sha256 (o_text o) in
      match computeOperationFingerprint sha256 localeCompare o with
      | Err e => Ret (fail e)
      | Ok fingerprint =>
          existing ← call (QLookup root step);
          match existing with
          | Err e => Ret (fail e)
          | Ok (Some r) =>
              if negb (sameOperation o fingerprint digest r)
              then Ret (fail "outward operation identity does not match its ledger row")
              else if decide (state r = committed) then
                match platform_message_id r with
                | Some m =>
                    if String.eqb m "" then Ret (fail "committed outward operation has no platform receipt")
                    else Ret (Ok m)
                | None => Ret (fail "committed outward operation has no platform receipt")
                end
              else Ret (fail "outward operation is already in flight or unresolved")
          | Ok None => wrapFresh root step o fingerprint digest doSend
          end
      end
  end.

(** The [doSend] of [message.send] and [message.reply]. *)
Definition messageSend (key : option Key) : Prog (Result string Error) :=
  Send key (fun a =>
    match a with
    | PReject e => Throw (EPlain e)
    | PErr e => Ret (fail e)
    | PRejected | PUnknown => Ret (fail "Message delivery was not fully accepted by the platform")
    | PAccepted (Some (String c m)) => Ret (Ok (String c m))
    | PAccepted _ => Ret (fail "Message delivery returned no platform receipt")
    end).

(** ** Background completions *)

(** [BackgroundCompletionDeliveryOutcome] *)
Inductive Delivery :=
| DAccepted
| DPermanent (errorKind message : string)
| DUncertain (errorKind message : string)
| DRetryable (errorKind message : string).

(** What [deliver] reads of its input and of the daemon: whether the origin's
    adapter instance is active, and the answer of [onSendStart]. *)
Record Completion := {
  taskId : string;
  idempotencyKey : string;
  response : string;
  c_agentId : string;
  c_channelType : string;
  c_conversationId : string;
  adapterActive : bool;
  onSendStart : Result unit string
}.

Definition inactiveChannelAdapterOutcome (channelType : string) : Delivery :=
  if String.eqb channelType "scheduler"
  then DPermanent "precondition" "Scheduler-originated tasks do not have a user-facing delivery channel"
  else DRetryable "precondition" "The originating channel adapter instance is not active".

Definition completionRoot (c : Completion) : string := "background-task:" +:+ taskId c.

Definition completionOperation (c : Completion) : Operation :=
  {| o_agentId := c_agentId c; o_channelType := c_channelType c; o_channelId := c_conversationId c;
     o_kind := message_send; o_target := None; o_options := JsUndefined; o_text := response c |}.

(** The [doSend] of [deliver]. *)
Definition completionSend (ledgered : bool) (c : Completion) (key : option Key) : Prog (Result string Error) :=
  Send key (fun a => Ret match a with
    | PReject e | PErr e => fail e
    | PRejected | PUnknown => fail "The response was not fully accepted by the originating platform"
    | PAccepted (Some m) =>
        if String.eqb m "" then
          if ledgered then fail "The originating platform did not return a delivery receipt"
          else Ok (idempotencyKey c)
        else Ok m
    | PAccepted None =>
        if ledgered then fail "The originating platform did not return a delivery receipt"
        else Ok (idempotencyKey c)
    end).

(** What a failed send comes to, from the ledger. *)
Definition classifyFailure (target : option Key) (failure : Error) : Prog Delivery :=
  let m := message failure in
  match target with
  | None => Ret (if isPermanentError m then DPermanent "platform" m else DUncertain "dependency" m)
  | Some (root, step) =>
      match failure with
      | EPreSend _ =>
          reclaimed ← call (QReclaim root step);
          Ret match reclaimed with
          | Ok true => DRetryable "dependency" m
          | Ok false => DUncertain "dependency" "The proven pre-send attempt was not reclaimable"
          | Err e => DUncertain "dependency" e
          end
      | EPlain _ =>
          retained ← call (QLookup root step);
          Ret match retained with
          | Err e => DUncertain "dependency" e
          | Ok None => DRetryable "dependency" m
          | Ok (Some r) =>
              match state r with
              | committed => DAccepted
              | failed => DPermanent "platform" m
              | _ => DUncertain "dependency" m
              end
          end
      end
  end.

Definition deliverUnder (target : option Key) (ledgered : bool) (c : Completion) : Prog Delivery :=
  match onSendStart c with
  | Err e => Ret (DRetryable "resource" e)
  | Ok _ =>
      attempted ← fromPromise (wrapOutwardSend target (completionOperation c) (completionSend ledgered c));
      match attempted with
      | Err e => classifyFailure target e
      | Ok (Err e) => classifyFailure target e
      | Ok (Ok _) => Ret DAccepted
      end
  end.

(** [deliver]; [ledgered] tells whether the daemon has an outward ledger. *)
Definition deliver (ledgered : bool) (c : Completion) : Prog Delivery :=
  if adapterActive c then
    if ledgered then
      allocated ← call (QAllocate (completionRoot c) (idempotencyKey c));
      match allocated with
      | Err e => Ret (DRetryable "dependency" e)
      | Ok step => deliverUnder (Some (completionRoot c, step)) true c
      end
    else deliverUnder None false c
  else
    match inactiveChannelAdapterOutcome (c_channelType c), onSendStart c with
    | DPermanent _ _, Err e => Ret (DRetryable "resource" e)
    | unavailable, _ => Ret unavailable
    end.

(** [reconcileDelivery] *)
Definition reconcileDelivery (ledgered : bool) (c : Completion) : Prog (Result Delivery Error) :=
  if negb (adapterActive c) then Ret (Ok (inactiveChannelAdapterOutcome (c_channelType c)))
  else if negb ledgered
  then Ret (Ok (DUncertain "dependency" "Delivery reconciliation requires an outward-send ledger"))
  else
    allocated ← call (QAllocate (completionRoot c) (idempotencyKey c));
    match allocated with
    | Err e => Ret (fail e)
    | Ok step =>
        retained ← call (QLookup (completionRoot c) step);
        match retained with
        | Err e => Ret (fail e)
        | Ok None => Ret (Ok (DRetryable "dependency" "No outward send was attempted"))
        | Ok (Some r) =>
            match state r with
            | committed => Ret (Ok DAccepted)
            | failed => Ret (Ok (DPermanent "platform" "The outward send failed permanently"))
            | send_attempt_started =>
                reclaimed ← call (QReclaim (completionRoot c) step);
                Ret match reclaimed with
                | Err e => fail e
                | Ok true => Ok (DRetryable "dependency" "The outward send did not enter the platform adapter")
                | Ok false => fail "The pre-send ledger claim changed during reconciliation"
                end
            | _ => Ret (Ok (DUncertain "dependency" "The outward send may have entered the platform adapter"))
            end
        end
    end.
End Senders.

(** ** Governed announcements *)

(** [AnnouncementDeadLetterAttachmentSnapshot], as far as it is hashed. *)
Record Attachment := { a_contentDigest : string; a_fileName : string; a_mimeType : string; a_sizeBytes : Z }.

(** [GovernedAnnouncementRequest] *)
Record Announcement := {
  g_operationId : string;
  g_rootRunId : string;
  g_agentId : string;
  g_channelType : string;
  g_channelId : string;
  g_text : string;
  g_options : Js;
  g_attachment : option Attachment
}.

Inductive Failure :=
| operation_validation_blocked | allocation_blocked | lookup_blocked | operation_mismatch | operation_retained
| begin_blocked | uncertainty_transition_blocked | transport_failed | transport_rejected | transport_uncertain
| platform_receipt_missing | commit_blocked.

(** [GovernedAnnouncementSendOutcome]; the identity is the root and the step. *)
Inductive Governed :=
| GDelivered (key : Key) (receipt : string)
| GDecided (d : Decision)
| GFailed (key : option Key) (f : Failure).

Definition INVALID : string :=
  "Announcement delivery options must contain only finite JSON values in plain objects and dense arrays".

(** [canonicalJsonValue]; object keys in code-unit order. *)
Fixpoint canonicalJsonValue (v : Js) : Result string string :=
  match v with
  | JsNull => Ok "null"
  | JsString s => Ok (CanonicalJson.stringify s)
  | JsBool b => Ok (if b then "true" else "false")
  | JsNumber (Some n) => Ok (pretty n)
  | JsArray true items =>
      match gather ((fun v => (tt, canonicalJsonValue v)) <$> items) with
      | Err e => Err e
      | Ok vs => Ok ("[" +:+ CanonicalJson.join (snd <$> vs) +:+ "]")
      end
  | JsObject true entries =>
      match gather (CanonicalJson.sortKeys ((fun p => (p.1, canonicalJsonValue p.2)) <$> entries)) with
      | Err e => Err e
      | Ok vs => Ok ("{" +:+ CanonicalJson.join ((fun p => CanonicalJson.stringify p.1 +:+ ":" +:+ p.2) <$> vs) +:+ "}")
      end
  | _ => Err INVALID
  end.

Definition announcementEnvelope (g : Announcement) : Js :=
  JsObject true (
    match g_attachment g with
    | None => []
    | Some a => [("attachment", JsObject true
        [("contentDigest", JsString (a_contentDigest a)); ("fileName", JsString (a_fileName a));
         ("mimeType", JsString (a_mimeType a)); ("sizeBytes", JsNumber (Some (a_sizeBytes a)))])]
    end ++
    [("channelId", JsString (g_channelId g)); ("channelType", JsString (g_channelType g));
     ("kind", JsString "cross_session_announcement"); ("options", orNull (g_options g));
     ("targetMessageId", JsNull); ("text", JsString (g_text g))]).

Section Governed.
Variable sha256 : string -> string.

(** Content digest and operation fingerprint. *)
Definition createAnnouncementOperationDigests (g : Announcement) : Result (string * string) string :=
  match canonicalJsonValue (announcementEnvelope g) with
  | Err e => Err e
  | Ok t => Ok (sha256 match g_attachment g with None => g_text g | Some _ => t end, sha256 t)
  end.

Definition isSameOperation (g : Announcement) (digests : string * string) (r : Row) : bool :=
  String.eqb (root_run_id r) (g_rootRunId g) && String.eqb (agent_id r) (g_agentId g)
  && String.eqb (channel_type r) (g_channelType g) && String.eqb (channel_id r) (g_channelId g)
  && bool_decide (operation_kind r = cross_session_announcement)
  && String.eqb (operation_fingerprint r) digests.2 && String.eqb (content_digest r) digests.1.

(** [park], then an outcome. *)
Definition parkThen {A} (key : Key) (a : A) : Prog A := _ ← call (QPark key.1 key.2); Ret a.

(** What follows the platform's answer. *)
Definition governedSettle (key : Key) (a : Platform) : Prog Governed :=
  match a with
  | PReject _ | PErr _ => parkThen key (GFailed (Some key) transport_failed)
  | PRejected => parkThen key (GFailed (Some key) transport_rejected)
  | PUnknown => parkThen key (GFailed (Some key) transport_uncertain)
  | PAccepted receipt =>
      match receipt with
      | None | Some "" => parkThen key (GFailed (Some key) platform_receipt_missing)
      | Some m =>
          committed ← call (QCommit key.1 key.2 m);
          match committed with
          | Err _ => parkThen key (GFailed (Some key) commit_blocked)
          | Ok _ => Ret (GDelivered key m)
          end
      end
  end.

Definition governedFresh (key : Key) (g : Announcement) (digests : string * string) : Prog Governed :=
  begun ← call (QBegin {| rootRunId := key.1; stepIndex := key.2; agentId := g_agentId g;
    channelType := g_channelType g; channelId := g_channelId g; operationKind := cross_session_announcement;
    operationFingerprint := digests.2; contentDigest := digests.1 |});
  match begun with
  | Err _ => Ret (GFailed (Some key) begin_blocked)
  | Ok _ =>
      markedUnknown ← call (QMarkUnknown key.1 key.2);
      match markedUnknown with
      | Err _ => parkThen key (GFailed (Some key) uncertainty_transition_blocked)
      | Ok _ => Send (Some key) (governedSettle key)
      end
  end.

(** A ledger row already exists for the step. *)
Definition governedRetained (key : Key) (g : Announcement) (digests : string * string) (r : Row) : Prog Governed :=
  if negb (isSameOperation g digests r) then Ret (GFailed (Some key) operation_mismatch)
  else
    match state r, platform_message_id r with
    | committed, Some (String c m) => Ret (GDelivered key (String c m))
    | send_attempt_started, _ | unknown_after_send, _ => parkThen key (GFailed (Some key) operation_retained)
    | _, _ => Ret (GFailed (Some key) operation_retained)
    end.

(** [send] *)
Definition send (g : Announcement) : Prog Governed :=
  match createAnnouncementOperationDigests g with
  | Err _ => Ret (GFailed None operation_validation_blocked)
  | Ok digests =>
      terminalDecision ← call (QLookupTerminal (g_rootRunId g) (g_operationId g));
      match terminalDecision with
      | Err _ => Ret (GFailed None lookup_blocked)
      | Ok (Some d) => Ret (GDecided d)
      | Ok None =>
          allocated ← call (QAllocate (g_rootRunId g) (g_operationId g));
          match allocated with
          | Err _ => Ret (GFailed None allocation_blocked)
          | Ok step =>
              let key := (g_rootRunId g, step) in
              existing ← call (QLookup (g_rootRunId g) step);
              match existing with
              | Err _ => Ret (GFailed (Some key) lookup_blocked)
              | Ok (Some r) => governedRetained key g digests r
              | Ok None => governedFresh key g digests
              end
          end
      end
  end.
End Governed.

(** ** Parking what a crash left in flight *)

(** [reconcileLedgerRow]: whether the row was parked, and whether the operator
    was notified. *)
Inductive Reconciled := RCleared | RParked (notified : bool).

Definition reconcileLedgerRow (r : Row) : Prog (Result Reconciled Error) :=
  if decide (state r = committed) then Ret (Ok RCleared)
  else
    parked ← call (QPark (root_run_id r) (step_index r));
    Ret match parked with Err e => fail e | Ok won => Ok (RParked won) end.

Definition OUTWARD_RECOVERY_BATCH_SIZE : nat := 100.

(** The loop over the batch: the rows it did not reach when the deadline
    passes, or the first ledger error. *)
Fixpoint parkBatch (deadline : Z) (batch : list Row) : Prog (Result nat Error) :=
  match batch with
  | [] => Ret (Ok 0%nat)
  | r :: batch' =>
      Now (fun now =>
        if deadline <? now then Ret (Ok (length batch))
        else
          parked ← reconcileLedgerRow r;
          match parked with
          | Err e => Ret (Err e)
          | Ok _ => parkBatch deadline batch'
          end)
  end.

(** What the outward part of [resumeAll] ends with: the pass stops with an
    error, it defers the rest, or it goes on to the durable runs. *)
Inductive OutwardPass := OPFailed (e : Error) | OPDeferred (n : nat) | OPDone (overflow : nat).

Definition parkOutwardBy (deadline : Z) : Prog OutwardPass :=
  outwardScan ← call (QList (Z.of_nat (OUTWARD_RECOVERY_BATCH_SIZE + 1)));
  match outwardScan with
  | Err e => Ret (OPFailed (EPlain e))
  | Ok rows =>
      let outwardBatch := take OUTWARD_RECOVERY_BATCH_SIZE rows in
      let outwardOverflow := (length rows - OUTWARD_RECOVERY_BATCH_SIZE)%nat in
      left ← parkBatch deadline outwardBatch;
      Ret match left with
      | Err e => OPFailed e
      | Ok 0%nat => OPDone outwardOverflow
      | Ok n => OPDeferred (n + outwardOverflow)
      end
  end.

Definition parkOutward (recoveryBudgetMs : Z) : Prog OutwardPass :=
  Now (fun passStart => parkOutwardBy (passStart + recoveryBudgetMs)).
End OutwardSend.
