(* ===== verification/OutwardWorld.v ===== *)
(** * Senders running together

  The programs of [OutwardSend] run interleaved at their awaits over one
  ledger, with failing ledger calls, platform calls that never answer, and
  crashes that end every program and keep the tables.

  A program is verified once, on its own, against what it has learned so far
  ([Ghost]): [wp] says that it calls the platform under a key only right after
  its own [markUnknown] of that key succeeded, that it commits only what the
  platform accepted, and what holds when it ends.  The theorems about all
  programs together use only [wp]. *)

From S2P Require Import Prelude CanonicalJson TaskTypes ApprovalPolicy OutwardLedger OutwardLedgerFacts OutwardSend.

Open Scope string_scope.
Open Scope list_scope.
Open Scope Z_scope.

Module OutwardWorld.
Import OutwardLedger OutwardLedgerFacts OutwardSend.

(** ** What a program has learned *)

(** The key it may call the platform under, the answers it got, the receipts it
    read or committed. *)
Record Ghost := mkGhost {
  permit : option Key;
  heard : list (option Key * Platform);
  proved : list (Key * string)
}.

Definition nothing : Ghost := mkGhost None [] [].

Definition accepted (a : Platform) : bool := match a with PAccepted _ => true | _ => false end.

(** What the reply of a method adds. *)
Definition after (q : Req) (g : Ghost) : Result (Ans q) string -> Ghost :=
  match q return Result (Ans q) string -> Ghost with
  | QMarkUnknown root step => fun r =>
      match r with Ok _ => mkGhost (Some (root, step)) (heard g) (proved g) | Err _ => g end
  | QCommit root step m => fun r =>
      match r with Ok _ => mkGhost (permit g) (heard g) (((root, step), m) :: proved g) | Err _ => g end
  | QLookup root step => fun r =>
      match r with
      | Ok (Some row) =>
          match state row, platform_message_id row with
          | committed, Some m => mkGhost (permit g) (heard g) (((root, step), m) :: proved g)
          | _, _ => g
          end
      | _ => g
      end
  | _ => fun _ => g
  end.

(** A platform call uses the permit up; its answer is heard. *)
Definition spend (g : Ghost) : Ghost := mkGhost None (heard g) (proved g).
Definition hear (key : option Key) (a : Platform) (g : Ghost) : Ghost :=
  mkGhost (permit g) ((key, a) :: heard g) (proved g).

(** What a program must have learned before a call. *)
Definition Allowed (g : Ghost) (q : Req) : Prop :=
  match q with
  | QCommit root step _ => exists a, (Some (root, step), a) ∈ heard g /\ accepted a = true
  | QMarkFailed _ _ e => e <> ""
  | _ => True
  end.

(** A reply that does not contradict what was learned: a key whose platform
    call was answered still has a row past its begin; rows read are valid. *)
Definition Heard (root : string) (step : Z) (g : Ghost) : Prop := exists a, (Some (root, step), a) ∈ heard g.

Definition Plausible (q : Req) (g : Ghost) : Result (Ans q) string -> Prop :=
  match q return Result (Ans q) string -> Prop with
  | QLookup root step => fun r =>
      (r = Ok None -> ~ Heard root step g) /\ (forall row, r = Ok (Some row) -> rowValid row = true)
  | QReclaim root step => fun r => r = Ok true -> ~ Heard root step g
  | _ => fun _ => True
  end.

Fixpoint wp {A} (p : Prog A) (g : Ghost) (Q : Ghost -> Result A Error -> Prop) : Prop :=
  match p with
  | Ret a => Q g (Ok a)
  | Throw e => Q g (Err e)
  | Call q k => Allowed g q /\ forall r, Plausible q g r -> wp (k r) (after q g r) Q
  | Send key k =>
      (forall k, key = Some k -> permit g = Some k) /\ forall a, wp (k a) (hear key a (spend g)) Q
  | Now k => forall t, wp (k t) g Q
  end.

Lemma wp_mono {A} (p : Prog A) g (Q Q' : Ghost -> Result A Error -> Prop) :
  (forall g r, Q g r -> Q' g r) -> wp p g Q -> wp p g Q'.
Proof.
  intros HQ. revert g. induction p as [a|e|q k IH|key k IH|k IH]; intros g; simpl; [by apply HQ..| | |].
  - intros [Ha Hk]. split; [done|]. intros r Hr. by apply IH, Hk.
  - intros [Ha Hk]. split; [done|]. intros r. by apply IH.
  - intros Hk t. by apply IH.
Qed.

Lemma wp_bind {A B} (p : Prog A) (f : A -> Prog B) g Q :
  wp p g (fun g r => match r with Ok a => wp (f a) g Q | Err e => Q g (Err e) end) -> wp (p ≫= f) g Q.
Proof.
  revert g. induction p as [a|e|q k IH|key k IH|k IH]; intros g; simpl; [done..| | |].
  - intros [Ha Hk]. split; [done|]. intros r Hr. by apply IH, Hk.
  - intros [Ha Hk]. split; [done|]. intros r. by apply IH.
  - intros Hk t. by apply IH.
Qed.

Lemma wp_fromPromise {A} (p : Prog A) g (Q : Ghost -> Result (Result A Error) Error -> Prop) :
  wp p g (fun g r => Q g (Ok r)) -> wp (fromPromise p) g Q.
Proof.
  revert g. induction p as [a|e|q k IH|key k IH|k IH]; intros g; simpl; [done..| | |].
  - intros [Ha Hk]. split; [done|]. intros r Hr. by apply IH, Hk.
  - intros [Ha Hk]. split; [done|]. intros r. by apply IH.
  - intros Hk t. by apply IH.
Qed.

(** ** Worlds *)

(** What the theorems ask of the programs that run: each satisfies its goal on
    its own. *)
Class Programs := {
  Program : Type;
  resultOf : Program -> Type;
  start : forall p, Prog (resultOf p);
  goalOf : forall p, Ghost -> Result (resultOf p) Error -> Prop;
  start_wp : forall p, wp (start p) nothing (goalOf p)
}.

Section Run.
Context {PS : Programs}.
Variable sha256 : string -> string.

(** A running program; [awaiting] while the platform has its call. *)
Record Job := mkJob {
  origin : Program;
  body : Prog (resultOf origin);
  known : Ghost;
  awaiting : bool
}.

(** The platform's side is the log of the calls made and of the answers. *)
Record World := mkWorld {
  db : Db;
  jobs : list Job;
  calls : list (option Key);
  answers : list (option Key * Platform)
}.

Definition boot (d : Db) : World := mkWorld d [] [] [].

(** A ledger call runs, or fails and changes nothing. *)
Definition reply (q : Req) (now : Z) (fault : option string) (d : Db) : Result (Ans q) string * Db :=
  match fault with Some e => (Err e, d) | None => exec sha256 q now d end.

Inductive Step : World -> World -> Prop :=
| step_spawn w p : Step w (mkWorld (db w) (jobs w ++ [mkJob p (start p) nothing false]) (calls w) (answers w))
| step_call w i p q k g now fault :
    jobs w !! i = Some (mkJob p (Call q k) g false) ->
    TaskTypes.SafeTimeSchema now = true ->
    Step w (mkWorld (reply q now fault (db w)).2
      (<[i := mkJob p (k (reply q now fault (db w)).1) (after q g (reply q now fault (db w)).1) false]> (jobs w))
      (calls w) (answers w))
| step_issue w i p key k g :
    jobs w !! i = Some (mkJob p (Send key k) g false) ->
    Step w (mkWorld (db w) (<[i := mkJob p (Send key k) (spend g) true]> (jobs w)) (calls w ++ [key]) (answers w))
| step_answer w i p key k g a :
    jobs w !! i = Some (mkJob p (Send key k) g true) ->
    Step w (mkWorld (db w) (<[i := mkJob p (k a) (hear key a g) false]> (jobs w)) (calls w) (answers w ++ [(key, a)]))
| step_clock w i p k g t :
    jobs w !! i = Some (mkJob p (Now k) g false) ->
    Step w (mkWorld (db w) (<[i := mkJob p (k t) g false]> (jobs w)) (calls w) (answers w))
| step_crash w : Step w (mkWorld (db w) [] (calls w) (answers w)).

Inductive Run (w0 : World) : World -> Prop :=
| run_start : Run w0 w0
| run_step w w' : Run w0 w -> Step w w' -> Run w0 w'.
(** ** Schedules *)

(** One choice of what happens next, and the world after it. *)
Inductive Choice :=
| Spawn (p : Program)
| CallAt (i : nat) (now : Z) (fault : option string)
| IssueAt (i : nat)
| AnswerAt (i : nat) (a : Platform)
| ClockAt (i : nat) (t : Z)
| Crash.

Definition choose (c : Choice) (w : World) : option World :=
  match c with
  | Spawn p => Some (mkWorld (db w) (jobs w ++ [mkJob p (start p) nothing false]) (calls w) (answers w))
  | CallAt i now fault =>
      match jobs w !! i with
      | Some (mkJob p (Call q k) g false) =>
          if TaskTypes.SafeTimeSchema now then
            Some (mkWorld (reply q now fault (db w)).2
              (<[i := mkJob p (k (reply q now fault (db w)).1) (after q g (reply q now fault (db w)).1) false]> (jobs w))
              (calls w) (answers w))
          else None
      | _ => None
      end
  | IssueAt i =>
      match jobs w !! i with
      | Some (mkJob p (Send key k) g false) =>
          Some (mkWorld (db w) (<[i := mkJob p (Send key k) (spend g) true]> (jobs w)) (calls w ++ [key]) (answers w))
      | _ => None
      end
  | AnswerAt i a =>
      match jobs w !! i with
      | Some (mkJob p (Send key k) g true) =>
          Some (mkWorld (db w) (<[i := mkJob p (k a) (hear key a g) false]> (jobs w)) (calls w) (answers w ++ [(key, a)]))
      | _ => None
      end
  | ClockAt i t =>
      match jobs w !! i with
      | Some (mkJob p (Now k) g false) =>
          Some (mkWorld (db w) (<[i := mkJob p (k t) g false]> (jobs w)) (calls w) (answers w))
      | _ => None
      end
  | Crash => Some (mkWorld (db w) [] (calls w) (answers w))
  end.

Lemma choose_step c w w' : choose c w = Some w' -> Step w w'.
Proof.
  destruct c; simpl; intros E; repeat case_match; simplify_eq; by econstructor.
Qed.

(** The world a schedule leads to; a choice that is not possible is skipped. *)
Definition play (cs : list Choice) (w : World) : World := foldl (fun w c => default w (choose c w)) w cs.

Lemma play_run cs w0 w : Run w0 w -> Run w0 (play cs w).
Proof.
  revert w. induction cs as [|c cs IH]; intros w Hr; [done|]. simpl. apply IH.
  destruct (choose c w) as [w'|] eqn:E; [|done]. eapply run_step; [done|by apply choose_step in E].
Qed.
End Run.

End OutwardWorld.
