(* ===== verification/OutwardSafety.v ===== *)
(** * At most one platform call per key

  The invariant of the worlds of [OutwardWorld]: the tables are well formed;
  every program satisfies the rest of its [wp]; for every key the calls made
  and the permits held are at most one, and none before the row has left its
  begin; what programs have learned is true of the tables and the logs. *)

From S2P Require Import Prelude CanonicalJson TaskTypes ApprovalPolicy OutwardLedger OutwardLedgerFacts OutwardLedgerWf OutwardSend OutwardWorld.

Open Scope string_scope.
Open Scope list_scope.
Open Scope Z_scope.

Module OutwardSafety.
Import OutwardLedger OutwardLedgerFacts OutwardLedgerWf OutwardSend OutwardWorld.

(** ** What a method call does *)

(** The row has left its begin. *)
Definition enteredRow (x : option Row) : bool :=
  match x with Some r => negb (isState send_attempt_started r) | None => false end.

Lemma RowStep_entered x y : RowStep x y -> enteredRow x = true -> enteredRow y = true.
Proof.
  destruct 1 as [|r Hs|r r' Hf Hs Hi|r Hs]; simpl; try done.
  - intros _. apply negb_true_iff, not_true_iff_false. by rewrite isState_true.
  - apply isState_true in Hs. by rewrite Hs.
Qed.

Lemma RowStep_committed r y : RowStep (Some r) y -> state r = committed -> y = Some r.
Proof.
  intros H E. inversion H; subst; [done| |congruence].
  assert (inFlight r = true) as [Hf | Hf]%inFlight_iff by done; congruence.
Qed.

(** The permit is granted on the way out of the begin. *)
Lemma markUnknown_Ok root step now d :
  Wf d -> (markUnknown root step now d).1 = Ok tt ->
  enteredRow (rowAt (root, step) (ledger d)) = false
  /\ enteredRow (rowAt (root, step) (ledger (markUnknown root step now d).2)) = true.
Proof.
  intros Hw. unfold markUnknown, expectOne, markUnknownStmt. cbn [fst snd ledger setLedger].
  rewrite move_count, rowAt_update by done. rewrite decide_True by done.
  destruct (rowAt (root, step) (ledger d)) as [r|]; [|done]. simpl. by destruct (isState _ r).
Qed.

Lemma reclaim_true root step d :
  Wf d -> (reclaimPreSend root step d).1 = Ok true -> enteredRow (rowAt (root, step) (ledger d)) = false.
Proof.
  intros Hw. unfold reclaimPreSend, reclaimPreSendStmt, delete. cbn [fst snd].
  rewrite matching_count by apply Hw. destruct (rowAt _ _); [|done]. simpl. by destruct (isState _ _).
Qed.

Lemma lookup_Ok root step d x : OutwardLedger.lookup root step d = Ok x -> rowAt (root, step) (ledger d) = x.
Proof. unfold OutwardLedger.lookup, parseOptionalRow, rowAt. simpl. repeat case_match; naive_solver. Qed.

Lemma lookup_valid root step d row : OutwardLedger.lookup root step d = Ok (Some row) -> rowValid row = true.
Proof. unfold OutwardLedger.lookup, parseOptionalRow. repeat case_match; naive_solver. Qed.

Lemma commit_Ok root step m now d :
  Wf d -> (commit root step m now d).1 = Ok tt ->
  exists r, rowAt (root, step) (ledger (commit root step m now d).2) = Some r
    /\ state r = committed /\ platform_message_id r = Some m.
Proof.
  intros Hw. unfold commit. destruct (String.eqb m ""); [done|]. unfold expectOne, commitStmt.
  cbn [fst snd ledger setLedger].
  rewrite move_count, rowAt_update by done. rewrite decide_True by done.
  destruct (rowAt (root, step) (ledger d)) as [r|]; [|done]. simpl. destruct (isState _ r); [|done]. by eexists.
Qed.

(** Only [commit] makes a row committed. *)
Lemma update_committed root step (c : Row -> bool) f k l r :
  (forall r, keyOf (f r) = keyOf r) -> (forall r, state (f r) <> committed) ->
  rowAt k (update (fun r => atKey root step r && c r) f l).1 = Some r -> state r = committed -> rowAt k l = Some r.
Proof.
  intros Hk Hs. rewrite rowAt_update by done. case_decide; [|done]. destruct (rowAt k l) as [r0|]; [|done]. simpl.
  destruct (c r0); [|done]. intros [= <-] Hc. by apply Hs in Hc.
Qed.

Section Exec.
Variable sha256 : string -> string.

Lemma exec_moves q now d g :
  Wf d -> TaskTypes.SafeTimeSchema now = true -> Allowed g q ->
  let d' := (exec sha256 q now d).2 in
  Wf d' /\ forall k, RowStep (rowAt k (ledger d)) (rowAt k (ledger d')).
Proof.
  intros Hw Hn Ha. assert (forall d', Wf d' /\ ledger d' = ledger d -> Wf d' /\ forall k, RowStep (rowAt k (ledger d)) (rowAt k (ledger d'))) as Hsame.
  { intros d' [H1 ->]. split; [done|constructor]. }
  destruct q; simpl in Ha |- *; try (apply Hsame; done).
  - by apply Hsame, recordTerminalDecision_moves.
  - by apply Hsame, allocateStep_moves.
  - by apply begin_moves.
  - by apply markUnknown_moves.
  - by apply reclaimPreSend_moves.
  - by apply commit_moves.
  - by apply markFailed_moves.
  - by apply parkUncertain_moves.
Qed.

Lemma reply_moves q now fault d g :
  Wf d -> TaskTypes.SafeTimeSchema now = true -> Allowed g q ->
  let d' := (reply sha256 q now fault d).2 in
  Wf d' /\ forall k, RowStep (rowAt k (ledger d)) (rowAt k (ledger d')).
Proof. destruct fault; simpl; [by split; [|constructor]|apply exec_moves]. Qed.

Lemma exec_committed q now d g k r :
  Wf d -> TaskTypes.SafeTimeSchema now = true -> Allowed g q ->
  rowAt k (ledger (exec sha256 q now d).2) = Some r -> state r = committed ->
  rowAt k (ledger d) = Some r \/ exists m, q = QCommit k.1 k.2 m.
Proof.
  intros Hw Hn Ha Hr Hc. destruct (exec_moves q now d g Hw Hn Ha) as [_ Hs]. specialize (Hs k). rewrite Hr in Hs.
  destruct (rowAt k (ledger d)) as [r0|] eqn:E0; [|inversion Hs; congruence].
  destruct q; cbn [exec Ans] in Hr; try (left; simpl in Hr; congruence).
  - destruct (recordTerminalDecision_moves sha256 root operationId o now d Hw) as [_ El]. rewrite El in Hr. left; congruence.
  - destruct (allocateStep_moves sha256 root operationId now d Hw) as [_ El]. rewrite El in Hr. left; congruence.
  - inversion Hs; subst; [by left|]. destruct (begin i now d) as [[[]|e] d'] eqn:Eb.
    + apply begin_Ok in Eb as (_ & _ & Hnone & _ & _ & ->). simpl in Hr. rewrite rowAt_snoc in Hr by done.
      case_decide; [simplify_eq; done|left; congruence].
    + apply begin_Err in Eb as ->. left. simpl in Hr. congruence.
  - left. rewrite <- E0. eapply (update_committed root step (isState send_attempt_started)); [| |exact Hr|exact Hc]; done.
  - left. unfold reclaimPreSend, reclaimPreSendStmt in Hr. cbn [snd ledger setLedger] in Hr.
    rewrite rowAt_delete in Hr by apply Hw. repeat case_match; congruence.
  - unfold commit in Hr. destruct (String.eqb receipt ""); [left; simpl in Hr; congruence|].
    unfold expectOne, commitStmt in Hr. cbn [snd ledger setLedger] in Hr.
    rewrite rowAt_update in Hr by done. case_decide as Hk; [|left; congruence].
    right. exists receipt. by rewrite Hk.
  - left. rewrite <- E0. eapply (update_committed root step (isState unknown_after_send)); [| |exact Hr|exact Hc]; done.
  - left. rewrite <- E0. eapply (update_committed root step inFlight); [| |exact Hr|exact Hc]; done.
Qed.
End Exec.

(** ** Counting permits *)

Lemma cnt_insert {A} `{EqDecision A} (x y z : A) (l : list A) i :
  l !! i = Some y ->
  (cnt x (<[i := z]> l) + (if decide (y = x) then 1 else 0) = cnt x l + (if decide (z = x) then 1 else 0))%nat.
Proof.
  revert i. induction l as [|u l IH]; intros [|i] H; try done.
  - injection H as ->. simpl. rewrite !cnt_cons. lia.
  - simpl in H |- *. rewrite !cnt_cons. specialize (IH i H). lia.
Qed.

Section Invariant.
Context {PS : Programs}.

Definition permits (js : list Job) : list (option Key) := (fun j => permit (known j)) <$> js.

Lemma permits_insert js i j j' k :
  js !! i = Some j ->
  (cnt (Some k) (permits (<[i := j']> js)) + (if decide (permit (known j) = Some k) then 1 else 0)
   = cnt (Some k) (permits js) + (if decide (permit (known j') = Some k) then 1 else 0))%nat.
Proof.
  intros H. unfold permits. rewrite list_fmap_insert. apply cnt_insert. by rewrite list_lookup_fmap, H.
Qed.

(** ** The invariant *)

Definition JobOk (j : Job) : Prop :=
  if awaiting j then
    match body j with
    | Send key k => forall a, wp (k a) (hear key a (known j)) (goalOf (origin j))
    | _ => False
    end
  else wp (body j) (known j) (goalOf (origin j)).

(** The key a job waits for the platform under. *)
Definition waitsFor (j : Job) : option Key :=
  if awaiting j then match body j with Send key _ => key | _ => None end else None.

Definition entered (k : Key) (w : World) : bool := enteredRow (rowAt k (ledger (db w))).

(** [old] holds of the keys committed before the first boot. *)
Record WInv (old : Key -> Prop) (w : World) : Prop := {
  inv_wf : Wf (db w);
  inv_jobs : forall i j, jobs w !! i = Some j -> JobOk j;
  inv_once : forall k, (cnt (Some k) (calls w) + cnt (Some k) (permits (jobs w)) <= Nat.b2n (entered k w))%nat;
  inv_waiting : forall i j k, jobs w !! i = Some j -> waitsFor j = Some k -> Some k ∈ calls w;
  inv_heard : forall i j k a, jobs w !! i = Some j -> (Some k, a) ∈ heard (known j) -> (Some k, a) ∈ answers w;
  inv_answered : forall k a, (Some k, a) ∈ answers w -> Some k ∈ calls w;
  inv_proved : forall i j k m, jobs w !! i = Some j -> (k, m) ∈ proved (known j) ->
    exists r, rowAt k (ledger (db w)) = Some r /\ state r = committed /\ platform_message_id r = Some m;
  inv_receipt : forall k r, rowAt k (ledger (db w)) = Some r -> state r = committed ->
    old k \/ exists a, (Some k, a) ∈ answers w /\ accepted a = true
}.

Definition committedIn (d : Db) (k : Key) : Prop := exists r, rowAt k (ledger d) = Some r /\ state r = committed.

Lemma WInv_boot d : Wf d -> WInv (committedIn d) (boot d).
Proof.
  intros Hw. split; simpl; try done.
  - intros k. unfold permits. rewrite !cnt_nil. lia.
  - intros k a H. by apply not_elem_of_nil in H.
  - intros k r Hr Hc. left. by exists r.
Qed.

(** A key that was called or answered has left its begin. *)
Lemma called_entered old w k : WInv old w -> Some k ∈ calls w -> entered k w = true.
Proof. intros [] H%cnt_pos. specialize (inv_once0 k). destruct (entered k w); [done|simpl in *; lia]. Qed.

(** Replacing one job. *)
Lemma insert_cases (js : list Job) i j' i' j : <[i := j']> js !! i' = Some j -> j = j' \/ js !! i' = Some j.
Proof.
  intros H. destruct (decide (i = i')) as [-> | Hi].
  - destruct (decide (i' < length js)%nat).
    + rewrite list_lookup_insert_eq in H by done. left. congruence.
    + rewrite list_insert_ge in H by lia. by right.
  - rewrite list_lookup_insert_ne in H by done. by right.
Qed.

End Invariant.

#[local] Opaque OutwardLedger.lookup markUnknown reclaimPreSend commit.

Section Steps.
Context {PS : Programs}.
Variable sha256 : string -> string.
Variable old : Key -> Prop.

(** ** A ledger call *)

Section Call.
Context (w : World) (i : nat) (p : Program) (q : Req) (kont : Result (Ans q) string -> Prog (resultOf p)).
Context (g : Ghost) (now : Z) (fault : option string).
Hypothesis Hinv : WInv old w.
Hypothesis Hjob : jobs w !! i = Some (mkJob p (Call q kont) g false).
Hypothesis Hnow : TaskTypes.SafeTimeSchema now = true.

Abbreviation r := (reply sha256 q now fault (db w)).1.
Abbreviation d' := (reply sha256 q now fault (db w)).2.

Lemma call_allowed : Allowed g q /\ forall r, Plausible q g r -> wp (kont r) (after q g r) (goalOf p).
Proof. apply (inv_jobs old w Hinv i _ Hjob). Qed.

Lemma call_moves : Wf d' /\ forall k, RowStep (rowAt k (ledger (db w))) (rowAt k (ledger d')).
Proof. eapply reply_moves; [apply Hinv|done|apply call_allowed]. Qed.

Lemma heard_entered root step : Heard root step g -> enteredRow (rowAt (root, step) (ledger (db w))) = true.
Proof.
  intros [a Ha]. eapply (called_entered old w (root, step)); [done|].
  eapply inv_answered; [done|]. by eapply inv_heard.
Qed.

Lemma call_plausible : Plausible q g r.
Proof.
  pose proof (inv_wf old w Hinv) as Hw. pose proof heard_entered as He.
  destruct q; simpl; try done.
  - destruct fault; simpl; [done|]. split.
    + intros E Hh%He. apply lookup_Ok in E. by rewrite E in Hh.
    + intros row E. by eapply lookup_valid.
  - intros E Hh%He. destruct fault; simpl in E; [done|]. apply reclaim_true in E; [congruence|done].
Qed.

(** A permit is only granted on the way out of the begin. *)
Lemma call_permit k :
  permit (after q g r) = permit g
  \/ enteredRow (rowAt k (ledger (db w))) = false /\ enteredRow (rowAt k (ledger d')) = true
  \/ permit (after q g r) <> Some k.
Proof.
  pose proof (inv_wf old w Hinv) as Hw. destruct q; simpl; try (by left); destruct fault; simpl; try (by left).
  - left. by repeat case_match.
  - destruct (markUnknown root step now (db w)) as [[[]|e] d1] eqn:E; simpl; [|by left]. right.
    destruct (decide (k = (root, step))) as [->|Hk]; [left|right; congruence].
    pose proof (markUnknown_Ok root step now (db w) Hw) as H. rewrite E in H. by apply H.
  - left. by destruct (commit _ _ _ _ _) as [[]].
Qed.

Lemma call_proved k m :
  (k, m) ∈ proved (after q g r) -> (k, m) ∈ proved g \/
  exists row, rowAt k (ledger d') = Some row /\ state row = committed /\ platform_message_id row = Some m.
Proof.
  pose proof (inv_wf old w Hinv) as Hw. destruct q; simpl; try (by left); destruct fault; simpl; try (by left).
  - destruct (OutwardLedger.lookup root step (db w)) as [[row|]|e] eqn:E; [|by left..]. apply lookup_Ok in E.
    destruct (state row) eqn:Es, (platform_message_id row) eqn:Ep; try (by left).
    intros [[= -> ->]|H]%elem_of_cons; [|by left]. right. eauto.
  - destruct (markUnknown root step now (db w)) as [[[]|e] d1]; by left.
  - destruct (commit root step receipt now (db w)) as [[[]|e] d1] eqn:E; simpl; [|by left].
    intros [[= -> ->]|H]%elem_of_cons; [|by left]. right.
    pose proof (commit_Ok root step receipt now (db w) Hw) as H. rewrite E in H. by apply H.
Qed.

Lemma after_heard : heard (after q g r) = heard g.
Proof. destruct q; simpl; try done; by repeat case_match. Qed.

Lemma call_once k :
  (cnt (Some k) (calls w)
   + cnt (Some k) (permits (<[i := mkJob p (kont r) (after q g r) false]> (jobs w)))
   <= Nat.b2n (enteredRow (rowAt k (ledger d'))))%nat.
Proof.
  pose proof (inv_once old w Hinv k) as Ho. pose proof (proj2 call_moves k) as Hs.
  pose proof (permits_insert _ _ _ (mkJob p (kont r) (after q g r) false) k Hjob) as Hp. simpl in Hp.
  unfold entered in Ho. destruct (enteredRow (rowAt k (ledger (db w)))) eqn:He.
  - rewrite (RowStep_entered _ _ Hs He). simpl in *.
    destruct (call_permit k) as [E|[[E _]|E]]; [|congruence|].
    + rewrite E in Hp. repeat case_decide; lia.
    + rewrite (decide_False (P := permit (after q g r) = Some k)) in Hp by done. repeat case_decide; lia.
  - simpl in Ho. destruct (call_permit k) as [E|[[_ E]|E]].
    + rewrite E in Hp. repeat case_decide; lia.
    + rewrite E. simpl. repeat case_decide; lia.
    + rewrite (decide_False (P := permit (after q g r) = Some k)) in Hp by done. repeat case_decide; lia.
Qed.

Lemma call_receipt k row :
  rowAt k (ledger d') = Some row -> state row = committed ->
  old k \/ exists a, (Some k, a) ∈ answers w /\ accepted a = true.
Proof.
  intros Hr Hc. destruct call_allowed as [Ha _].
  destruct fault; [by eapply inv_receipt|].
  edestruct exec_committed as [H|[m Eq]]; [apply Hinv|exact Hnow|exact Ha|exact Hr|done|by eapply inv_receipt|].
  rewrite Eq in Ha. destruct Ha as (a & Hh & Hacc). right. exists a. split; [|done]. destruct k. by eapply inv_heard.
Qed.

Lemma call_inv :
  WInv old (mkWorld d' (<[i := mkJob p (kont r) (after q g r) false]> (jobs w)) (calls w) (answers w)).
Proof.
  destruct call_allowed as [_ Hk]. pose proof (proj2 call_moves) as Hs. split; simpl.
  - apply call_moves.
  - intros i' j [-> | Hj]%insert_cases; [apply Hk, call_plausible|by eapply inv_jobs].
  - apply call_once.
  - intros i' j k [-> | Hj]%insert_cases Hw; [done|by eapply inv_waiting].
  - intros i' j k a [-> | Hj]%insert_cases; [simpl; rewrite after_heard|by eapply inv_heard].
    intros Hh. by apply (inv_heard old w Hinv i _ k a Hjob).
  - apply Hinv.
  - assert (forall i j k m, jobs w !! i = Some j -> (k, m) ∈ proved (known j) ->
      exists row, rowAt k (ledger d') = Some row /\ state row = committed /\ platform_message_id row = Some m) as Hold.
    { intros i' j k m Hj Hp. destruct (inv_proved old w Hinv i' j k m Hj Hp) as (row & Hr & Hc & Hm).
      specialize (Hs k). rewrite Hr in Hs. exists row. by rewrite (RowStep_committed _ _ Hs Hc). }
    intros i' j k m [-> | Hj]%insert_cases Hp; [|by eapply Hold].
    apply call_proved in Hp as [Hp|?]; [|done]. by eapply (Hold i _ k m Hjob).
  - apply call_receipt.
Qed.
End Call.

(** ** The other steps *)

Lemma spawn_inv w p :
  WInv old w -> WInv old (mkWorld (db w) (jobs w ++ [mkJob p (start p) nothing false]) (calls w) (answers w)).
Proof.
  intros Hi. set (j := mkJob p (start p) nothing false).
  assert (forall i j', (jobs w ++ [j]) !! i = Some j' -> jobs w !! i = Some j' \/ j' = j) as Hl.
  { intros i j' [H|[_ H]]%lookup_app_Some; [by left|right]. by apply list_lookup_singleton_Some in H as [_ <-]. }
  split; simpl; try apply Hi.
  - intros i j' [H| ->]%Hl; [by eapply inv_jobs|apply start_wp].
  - intros k. unfold permits. rewrite fmap_app, cnt_app. simpl. rewrite cnt_cons, cnt_nil. simpl.
    pose proof (inv_once old w Hi k). unfold permits, entered in *. simpl. lia.
  - intros i j' k [H| ->]%Hl; [by eapply inv_waiting|done].
  - intros i j' k a [H| ->]%Hl; [by eapply inv_heard|]. simpl. by intros ?%not_elem_of_nil.
  - intros i j' k m [H| ->]%Hl; [by eapply inv_proved|]. simpl. by intros ?%not_elem_of_nil.
Qed.

Lemma issue_inv w i p key k g :
  WInv old w -> jobs w !! i = Some (mkJob p (Send key k) g false) ->
  WInv old (mkWorld (db w) (<[i := mkJob p (Send key k) (spend g) true]> (jobs w)) (calls w ++ [key]) (answers w)).
Proof.
  intros Hi Hj. destruct (inv_jobs old w Hi i _ Hj) as [Hp Hk]. split; simpl; try apply Hi.
  - intros i' j [-> | H]%insert_cases; [exact Hk|by eapply inv_jobs].
  - intros k'. pose proof (inv_once old w Hi k') as Ho. rewrite cnt_app, cnt_cons, cnt_nil.
    pose proof (permits_insert _ _ _ (mkJob p (Send key k) (spend g) true) k' Hj) as Hx. simpl in Hx.
    unfold entered in *. simpl. destruct (decide (key = Some k')) as [E|E]; [|repeat case_decide; lia].
    rewrite (decide_True (P := permit g = Some k')) in Hx by by apply Hp. repeat case_decide; lia.
  - intros i' j k' [-> | H]%insert_cases Hw; apply elem_of_app; [right|left; by eapply inv_waiting].
    apply list_elem_of_singleton. done.
  - intros i' j k' a [-> | H]%insert_cases; [|by eapply inv_heard]. apply (inv_heard old w Hi i _ k' a Hj).
  - intros k' a H. apply elem_of_app. left. by eapply inv_answered.
  - intros i' j k' m [-> | H]%insert_cases; [|by eapply inv_proved]. apply (inv_proved old w Hi i _ k' m Hj).
Qed.

Lemma answer_inv w i p key k g a :
  WInv old w -> jobs w !! i = Some (mkJob p (Send key k) g true) ->
  WInv old (mkWorld (db w) (<[i := mkJob p (k a) (hear key a g) false]> (jobs w)) (calls w) (answers w ++ [(key, a)])).
Proof.
  intros Hi Hj. pose proof (inv_jobs old w Hi i _ Hj) as Hk. split; simpl; try apply Hi.
  - intros i' j [-> | H]%insert_cases; [apply Hk|by eapply inv_jobs].
  - intros k'. pose proof (inv_once old w Hi k') as Ho.
    pose proof (permits_insert _ _ _ (mkJob p (k a) (hear key a g) false) k' Hj) as Hx. simpl in Hx.
    unfold entered in *. simpl. repeat case_decide; lia.
  - intros i' j k' [-> | H]%insert_cases Hw; [done|by eapply inv_waiting].
  - intros i' j k' b [-> | H]%insert_cases Hb; apply elem_of_app; [|left; by eapply inv_heard].
    apply elem_of_cons in Hb as [[= -> ->]|Hb]; [right; by apply list_elem_of_singleton|left].
    by apply (inv_heard old w Hi i _ k' b Hj).
  - intros k' b [H|[= <- <-]%list_elem_of_singleton]%elem_of_app; [by eapply inv_answered|].
    by apply (inv_waiting old w Hi i _ k' Hj).
  - intros i' j k' m [-> | H]%insert_cases; [|by eapply inv_proved]. apply (inv_proved old w Hi i _ k' m Hj).
  - intros k' r Hr Hc. destruct (inv_receipt old w Hi k' r Hr Hc) as [?|(b & Hb & ?)]; [by left|right].
    exists b. split; [apply elem_of_app; by left|done].
Qed.

Lemma clock_inv w i p k g t :
  WInv old w -> jobs w !! i = Some (mkJob p (Now k) g false) ->
  WInv old (mkWorld (db w) (<[i := mkJob p (k t) g false]> (jobs w)) (calls w) (answers w)).
Proof.
  intros Hi Hj. pose proof (inv_jobs old w Hi i _ Hj) as Hk. split; simpl; try apply Hi.
  - intros i' j [-> | H]%insert_cases; [apply Hk|by eapply inv_jobs].
  - intros k'. pose proof (inv_once old w Hi k') as Ho.
    pose proof (permits_insert _ _ _ (mkJob p (k t) g false) k' Hj) as Hx. simpl in Hx.
    unfold entered in *. simpl. repeat case_decide; lia.
  - intros i' j k' [-> | H]%insert_cases Hw; [done|by eapply inv_waiting].
  - intros i' j k' b [-> | H]%insert_cases; [|by eapply inv_heard]. apply (inv_heard old w Hi i _ k' b Hj).
  - intros i' j k' m [-> | H]%insert_cases; [|by eapply inv_proved]. apply (inv_proved old w Hi i _ k' m Hj).
Qed.

Lemma crash_inv w : WInv old w -> WInv old (mkWorld (db w) [] (calls w) (answers w)).
Proof.
  intros Hi. split; simpl; try apply Hi; try done.
  intros k. pose proof (inv_once old w Hi k). unfold permits, entered in *. simpl. rewrite cnt_nil. lia.
Qed.

(** ** Runs *)

Lemma Step_inv w w' : Step sha256 w w' -> WInv old w -> WInv old w'.
Proof.
  intros [] Hi.
  - by apply spawn_inv.
  - by apply call_inv.
  - by apply issue_inv.
  - by apply answer_inv.
  - by apply clock_inv.
  - by apply crash_inv.
Qed.

Lemma Run_inv w w' : WInv old w -> Run sha256 w w' -> WInv old w'.
Proof. induction 2; [done|by eapply Step_inv]. Qed.

(** Another caller of [allocateStep]. *)
Lemma allocate_inv w root op now d' :
  WInv old w -> d' = (allocateStep sha256 root op now (db w)).2 ->
  WInv old (mkWorld d' (jobs w) (calls w) (answers w)).
Proof.
  intros Hi ->. destruct (allocateStep_moves sha256 root op now (db w) (inv_wf _ _ Hi)) as [Hw Hl].
  destruct Hi. unfold entered in *. split; unfold entered; simpl; rewrite ?Hl; done.
Qed.
End Steps.
End OutwardSafety.
