(* ===== verification/OutwardClients.v ===== *)
(** * The daemon's senders, each verified on its own

  The programs of [OutwardSend] as an instance of [Programs]: what each
  establishes when it ends, proved with [wp]. *)

From S2P Require Import Prelude CanonicalJson TaskTypes ApprovalPolicy OutwardLedger OutwardLedgerFacts OutwardLedgerWf OutwardSend OutwardWorld.

Open Scope string_scope.
Open Scope list_scope.
Open Scope Z_scope.

Module OutwardClients.
Import OutwardLedger OutwardLedgerFacts OutwardLedgerWf OutwardSend OutwardWorld.

(** ** wrapOutwardSend *)

(** At most one answer was heard, under the key. *)
Definition HeardOnce (key : Key) (g : Ghost) : Prop :=
  heard g = [] \/ exists a, heard g = [(Some key, a)].

(** A returned receipt was proved under the key. *)
Definition WrapGoal (key : Key) (g : Ghost) (r : Result (Result string Error) Error) : Prop :=
  HeardOnce key g /\ forall m, r = Ok (Ok m) -> (key, m) ∈ proved g.

(** A [doSend] calls the platform once; a message id means it accepted. *)
Definition Sends (doSend : option Key -> Prog (Result string Error)) : Prop :=
  forall key g Q,
    (forall k, key = Some k -> permit g = Some k) ->
    (forall a x, (forall m, x = Ok (Ok m) -> accepted a = true) -> Q (hear key a (spend g)) x) ->
    wp (doSend key) g Q.

Lemma messageSend_sends : Sends messageSend.
Proof.
  intros key g Q Hp HQ. simpl. split; [done|]. intros [e|e| | |[[|c m]|]]; simpl; apply HQ; done.
Qed.

Lemma completionSend_sends b c : Sends (completionSend b c).
Proof.
  intros key g Q Hp HQ. simpl. split; [done|].
  intros [e|e| | |[m|]]; simpl; repeat case_match; apply HQ; done.
Qed.

Lemma wrapSettle_wp root step sent g :
  HeardOnce (root, step) g ->
  (forall m, sent = Ok m -> exists a, (Some (root, step), a) ∈ heard g /\ accepted a = true) ->
  wp (wrapSettle root step sent) g (WrapGoal (root, step)).
Proof.
  intros Hh Hs. unfold WrapGoal. destruct sent as [m|e]; simpl.
  - destruct (String.eqb m ""); simpl.
    + split; [done|]. by intros [] _.
    + split; [by eapply Hs|]. intros [[]|e] _; simpl; [|split; [done|]; by intros [] _].
      split; [done|]. intros m' [= <-]. left.
  - destruct (isPermanentError (message e)); simpl.
    + split; [done|]. intros [[]|e'] _; simpl; [done|]. split; [done|]. by intros [] _.
    + split; [done|]. by intros [] _.
Qed.

Section Wrap.
Variable sha256 : string -> string.
Variable localeCompare : string -> string -> Z.

Lemma wrapOutwardSend_wp root step o doSend g :
  Sends doSend -> heard g = [] ->
  wp (wrapOutwardSend sha256 localeCompare (Some (root, step)) o doSend) g (WrapGoal (root, step)).
Proof.
  intros Hd Hg. assert (HeardOnce (root, step) g) as Ho by by left. unfold WrapGoal in *. simpl.
  destruct (computeOperationFingerprint sha256 localeCompare o) as [fp|e]; simpl; [|done].
  split; [done|]. intros [[r|]|e] [Hn Hv]; simpl; [| |done].
  - specialize (Hv r eq_refl). apply rowValid_iff in Hv as (_ & _ & _ & _ & _ & Hm & _ & _).
    destruct (sameOperation _ _ _ r); simpl; [|by destruct (state r), (platform_message_id r)].
    case_decide as Hc; [|by destruct (state r), (platform_message_id r)].
    rewrite Hc in *. destruct (platform_message_id r) as [m|]; [|done].
    destruct (String.eqb m ""); [done|]. split; [done|]. intros m' [= <-]. left.
  - split; [done|]. intros [[]|e] _; simpl; [|done]. split; [done|].
    intros [[]|e] _; simpl; [|done]. apply wp_bind. apply Hd; [by intros k [= <-]|].
    intros a x Hx. assert (HeardOnce (root, step) (hear (Some (root, step)) a (spend
      (mkGhost (Some (root, step)) (heard g) (proved g))))) as Hh by (right; exists a; simpl; by rewrite Hg).
    destruct x as [sent|e]; [|done]. apply wrapSettle_wp; [done|].
    intros m ->. exists a. split; [left|by eapply Hx].
Qed.

(** Without a key, the platform is called and nothing is claimed. *)
Lemma passThrough_wp o doSend g :
  Sends doSend -> wp (wrapOutwardSend sha256 localeCompare None o doSend) g (fun _ _ => True).
Proof. intros Hd. by apply Hd. Qed.
End Wrap.

(** ** Background completions *)

(** With a ledger: it never throws, a retry means the platform was not called,
    acceptance means a proved receipt. *)
Definition DeliverGoal (ledgered : bool) (c : Completion) (g : Ghost) (r : Result Delivery Error) : Prop :=
  ledgered = true ->
  exists x, r = Ok x /\ (forall e m, x = DRetryable e m -> heard g = [])
    /\ (x = DAccepted -> exists step m, ((completionRoot c, step), m) ∈ proved g).

(** A receipt read from a valid row that says committed. *)
Lemma committed_receipt r : rowValid r = true -> state r = committed -> exists m, platform_message_id r = Some m.
Proof.
  rewrite rowValid_iff. intros (_ & _ & _ & _ & _ & Hm & _ & _) Hc. rewrite Hc in Hm.
  destruct (platform_message_id r) as [m|]; [by exists m|done].
Qed.

Lemma unheard root step g : HeardOnce (root, step) g -> ~ Heard root step g -> heard g = [].
Proof. intros [H|[a H]] Hn; [done|]. destruct Hn. exists a. rewrite H. left. Qed.

Lemma classifyFailure_wp c step failure g :
  HeardOnce (completionRoot c, step) g ->
  wp (classifyFailure (Some (completionRoot c, step)) failure) g (DeliverGoal true c).
Proof.
  intros Hh. unfold DeliverGoal. destruct failure as [m|m]; simpl; (split; [done|]); intros r Hr _.
  - destruct r as [[row|]|e]; simpl.
    + destruct Hr as [_ Hv]. specialize (Hv row eq_refl). destruct (state row) eqn:Es; eexists; (split; [done|]); try done.
      split; [done|]. intros _. destruct (committed_receipt row Hv Es) as [m' ->]. exists step, m'. left.
    + eexists. split; [done|]. split; [|done]. intros _ _ _. eapply unheard; [done|]. by apply Hr.
    + by eexists.
  - destruct r as [[]|e]; simpl; eexists; (split; [done|]); try done.
    split; [|done]. intros _ _ _. eapply unheard; [done|]. by apply Hr.
Qed.

Section Deliver.
Variable sha256 : string -> string.
Variable localeCompare : string -> string -> Z.

Lemma deliver_wp ledgered c : wp (deliver sha256 localeCompare ledgered c) nothing (DeliverGoal ledgered c).
Proof.
  unfold deliver. destruct (adapterActive c).
  2: { unfold DeliverGoal. destruct (inactiveChannelAdapterOutcome _) eqn:E, (onSendStart c); simpl; intros _;
       eexists; (split; [done|]); try done; by unfold inactiveChannelAdapterOutcome in E; case_match. }
  destruct ledgered; simpl.
  - split; [done|]. intros [step|e] _; simpl; [|by eexists].
    unfold deliverUnder. destruct (onSendStart c) as [[]|e]; simpl; [|by eexists].
    apply wp_bind, wp_fromPromise. eapply wp_mono; [|by apply wrapOutwardSend_wp; [apply completionSend_sends|]].
    intros g r [Hh Hr]. destruct r as [[m|e]|e]; simpl; [|by apply classifyFailure_wp..].
    intros _. eexists. split; [done|]. split; [done|]. intros _. exists step, m. by apply Hr.
  - unfold deliverUnder. destruct (onSendStart c) as [[]|e]; [|done].
    apply wp_bind, wp_fromPromise. eapply wp_mono; [|apply passThrough_wp, completionSend_sends].
    intros g r _. destruct r as [[m|e]|e]; simpl; [|case_match..]; done.
Qed.

(** Reconciliation calls no platform; acceptance means a proved receipt. *)
Definition ReconcileGoal (c : Completion) (g : Ghost) (r : Result (Result Delivery Error) Error) : Prop :=
  heard g = [] /\ (r = Ok (Ok DAccepted) -> exists step m, ((completionRoot c, step), m) ∈ proved g).

Lemma reconcileDelivery_wp ledgered c : wp (reconcileDelivery ledgered c) nothing (ReconcileGoal c).
Proof.
  unfold reconcileDelivery, ReconcileGoal. destruct (adapterActive c); simpl.
  2: { split; [done|]. unfold inactiveChannelAdapterOutcome. by case_match. }
  destruct ledgered; simpl; [|done]. split; [done|]. intros [step|e] _; simpl; [|done].
  split; [done|]. intros [[row|]|e] [_ Hv]; simpl; [|done..]. specialize (Hv row eq_refl).
  destruct (state row) eqn:Es; simpl; try done.
  - split; [done|]. intros [[]|e] _; done.
  - destruct (committed_receipt row Hv Es) as [m ->]. split; [done|]. intros _. exists step, m. left.
Qed.

(** ** Governed announcements *)

Definition GovernedGoal (a : Announcement) (g : Ghost) (r : Result Governed Error) : Prop :=
  exists x, r = Ok x /\ forall k m, x = GDelivered k m -> k.1 = g_rootRunId a /\ (k, m) ∈ proved g.

Lemma parkThen_wp a key x g :
  (forall k m, x <> GDelivered k m) -> wp (parkThen key x) g (GovernedGoal a).
Proof. intros Hx. simpl. split; [done|]. intros r _. exists x. split; [done|]. intros k m E. by apply Hx in E. Qed.

Lemma governedSettle_wp ann key a g :
  key.1 = g_rootRunId ann ->
  wp (governedSettle key a) (hear (Some key) a g) (GovernedGoal ann).
Proof.
  intros Hk. destruct a as [e|e| | |[[|c m]|]]; cbn [governedSettle]; try (by apply parkThen_wp).
  split; [exists (PAccepted (Some (String c m))); split; [destruct key; left|done]|].
  intros [[]|e] _; cbn [bind]; [|by apply parkThen_wp].
  eexists. split; [done|]. intros k m' [= <- <-]. split; [done|]. destruct key. left.
Qed.

Lemma governedRetained_wp ann key digests row g :
  rowValid row = true -> key.1 = g_rootRunId ann ->
  wp (governedRetained key ann digests row) (after (QLookup key.1 key.2) g (Ok (Some row))) (GovernedGoal ann).
Proof.
  intros Hv Hk. unfold governedRetained. destruct (isSameOperation ann digests row); simpl; [|by eexists].
  destruct (state row) eqn:Es; try (by apply parkThen_wp); try (by destruct (platform_message_id row); eexists).
  destruct (platform_message_id row) as [[|c m]|] eqn:Em; [by eexists| |by eexists].
  eexists. split; [done|]. intros k m' [= <- <-]. split; [done|]. destruct key. left.
Qed.

Lemma send_wp ann : wp (send sha256 ann) nothing (GovernedGoal ann).
Proof.
  unfold send. destruct (createAnnouncementOperationDigests sha256 ann) as [digests|e]; simpl; [|by eexists].
  split; [done|]. intros [[dec|]|e] _; simpl; [by eexists| |by eexists].
  split; [done|]. intros [step|e] _; simpl; [|by eexists].
  split; [done|]. intros [[row|]|e] [_ Hv]; simpl; [| |by eexists].
  - apply (governedRetained_wp ann (g_rootRunId ann, step)); [by apply Hv|done].
  - split; [done|]. intros [[]|e] _; simpl; [|by eexists].
    split; [done|]. intros [[]|e] _; simpl; [|split; [done|]; intros r _; by eexists].
    split; [by intros k [= <-]|]. intros a. by apply governedSettle_wp.
Qed.
End Deliver.

(** ** Parking and deciding call no platform *)

Definition Quiet {A} (g : Ghost) (r : Result A Error) : Prop := heard g = [].

Lemma parkBatch_wp deadline batch g : heard g = [] -> wp (parkBatch deadline batch) g Quiet.
Proof.
  revert g. induction batch as [|r batch IH]; intros g Hg; simpl; [done|]. intros t.
  destruct (deadline <? t); simpl; [done|]. unfold reconcileLedgerRow. case_decide; simpl; [by apply IH|].
  split; [done|]. intros [] _; simpl; [by apply IH|done].
Qed.

Lemma parkOutward_wp budget : wp (parkOutward budget) nothing Quiet.
Proof.
  intros t. cbn [parkOutward]. split; [done|]. intros [rows|e] _; [|done].
  cbn [mbind Prog_bind bind]. apply wp_bind. eapply wp_mono; [|by apply parkBatch_wp].
  intros g [[[]|]|] Hg; done.
Qed.
End OutwardClients.
