(* ===== verification/OutwardRecovery.v ===== *)
(** * Recovery and identity of outward sends

  What the boot pass does with rows a crash left in flight, what one row the
  schema rejects does to it, when a root counts as uncertain, what the upgrade
  of retained rows yields, and that the fingerprint text determines the
  operation. *)

From S2P Require Import Prelude CanonicalJson TaskTypes ApprovalPolicy OutwardLedger OutwardLedgerFacts OutwardLedgerWf OutwardSend.

Open Scope string_scope.
Open Scope list_scope.
Open Scope Z_scope.

Module OutwardRecovery.
Import OutwardLedger OutwardLedgerFacts OutwardLedgerWf OutwardSend.

(** ** The scan *)

Lemma insertRow_perm r l : insertRow r l ≡ₚ r :: l.
Proof.
  induction l as [|x l IH]; simpl; [done|]. destruct (rowLe r x); [done|]. rewrite IH. apply Permutation_swap.
Qed.

Lemma sortRows_perm l : sortRows l ≡ₚ l.
Proof. induction l as [|x l IH]; [done|]. simpl. by rewrite insertRow_perm, IH. Qed.

Lemma parseRows_valid l : Forall (fun r => rowValid r = true) l -> parseRows l = Ok l.
Proof. induction 1 as [|r l Hr _ IH]; simpl; [done|]. by rewrite Hr, IH. Qed.

Lemma parseRows_invalid l : Exists (fun r => rowValid r = false) l -> exists e, parseRows l = Err e.
Proof.
  induction 1 as [r l Hr|r l _ [e IH]]; simpl; [rewrite Hr; eauto|]. rewrite IH. destruct (rowValid r); eauto.
Qed.

(** ** A program running alone, at one time, without faults *)

Section Alone.
Variable sha256 : string -> string.

Fixpoint runAlone {A} (now : Z) (p : Prog A) (d : Db) : option (Result A Error) * Db :=
  match p with
  | Ret a => (Some (Ok a), d)
  | Throw e => (Some (Err e), d)
  | Call q k => let r := exec sha256 q now d in runAlone now (k r.1) r.2
  | Send _ _ => (None, d)
  | Now k => runAlone now (k now) d
  end.

Lemma runAlone_bind {A B} now (p : Prog A) (f : A -> Prog B) d :
  runAlone now (p ≫= f) d =
  match runAlone now p d with
  | (Some (Ok a), d') => runAlone now (f a) d'
  | (Some (Err e), d') => (Some (Err e), d')
  | (None, d') => (None, d')
  end.
Proof.
  revert d. induction p as [a|e|q k IH|key k IH|k IH]; intros d; simpl; try done; apply IH.
Qed.

(** What parking makes of a row. *)
Definition parkRow (now : Z) (r : Row) : Row :=
  if inFlight r then
    mkRow (id r) (root_run_id r) (step_index r) (agent_id r) (channel_type r) (channel_id r) (operation_kind r)
      (operation_fingerprint r) unresolved (platform_message_id r) (content_digest r) (Some reconcile_unresolved)
      (attempt_count r) (last_error r) (created_at_ms r) now
  else r.

Lemma parkRow_idem now r : parkRow now (parkRow now r) = parkRow now r.
Proof. unfold parkRow. by destruct (inFlight r) eqn:E; [|rewrite E]. Qed.

Lemma parkUncertain_rowAt root step now d k :
  rowAt k (ledger (parkUncertain root step now d).2) =
  if decide (k = (root, step)) then parkRow now <$> rowAt k (ledger d) else rowAt k (ledger d).
Proof.
  unfold parkUncertain, parkUncertainStmt. cbn [snd ledger setLedger]. rewrite rowAt_update by done.
  case_decide; [|done]. destruct (rowAt k (ledger d)); done.
Qed.

Lemma parkBatch_alone deadline now batch d :
  now <= deadline -> Forall (fun r => inFlight r = true) batch ->
  exists d', runAlone now (parkBatch deadline batch) d = (Some (Ok (Ok 0%nat)), d')
    /\ forall k, rowAt k (ledger d') =
         if decide (k ∈ keyOf <$> batch) then parkRow now <$> rowAt k (ledger d) else rowAt k (ledger d).
Proof.
  intros Hd. revert d. induction batch as [|r batch IH]; intros d Hf.
  - exists d. split; [done|]. intros k. by rewrite decide_False by apply not_elem_of_nil.
  - apply Forall_cons in Hf as [Hr Hf]. destruct (IH (parkUncertain (root_run_id r) (step_index r) now d).2 Hf) as (d' & He & Hk).
    exists d'. split.
    + simpl. rewrite (proj2 (Z.ltb_ge _ _) Hd). unfold reconcileLedgerRow.
      rewrite decide_False; [exact He|]. apply inFlight_iff in Hr. by destruct Hr as [-> | ->].
    + intros k. rewrite Hk, parkUncertain_rowAt, fmap_cons. change (root_run_id r, step_index r) with (keyOf r).
      destruct (rowAt k (ledger d)) as [x|]; [|by repeat case_decide].
      repeat case_decide; simpl; rewrite ?parkRow_idem; try done; set_solver.
Qed.

Lemma unreconciled_all d limit :
  (length (filter (fun r => inFlight r = true) (ledger d)) <= Z.to_nat limit)%nat ->
  listUnreconciledStmt limit d ≡ₚ filter (fun r => inFlight r = true) (ledger d).
Proof.
  intros Hl. unfold listUnreconciledStmt. rewrite take_ge; [apply sortRows_perm|]. by rewrite sortRows_perm.
Qed.

Lemma parkOutward_alone now budget d :
  runAlone now (parkOutward budget) d =
  match listUnreconciled (Z.of_nat (OUTWARD_RECOVERY_BATCH_SIZE + 1)) d with
  | Err e => (Some (Ok (OPFailed (EPlain e))), d)
  | Ok rows =>
      match runAlone now (parkBatch (now + budget) (take OUTWARD_RECOVERY_BATCH_SIZE rows)) d with
      | (Some (Ok rest), d') =>
          (Some (Ok match rest with
           | Err e => OPFailed e
           | Ok 0%nat => OPDone (length rows - OUTWARD_RECOVERY_BATCH_SIZE)
           | Ok n => OPDeferred (n + (length rows - OUTWARD_RECOVERY_BATCH_SIZE))
           end), d')
      | (Some (Err e), d') => (Some (Err e), d')
      | (None, d') => (None, d')
      end
  end.
Proof.
  change (runAlone now (parkOutward budget) d) with
    (runAlone now (match listUnreconciled (Z.of_nat (OUTWARD_RECOVERY_BATCH_SIZE + 1)) d with
      | Err e => Ret (OPFailed (EPlain e))
      | Ok rows =>
          rest ← parkBatch (now + budget) (take OUTWARD_RECOVERY_BATCH_SIZE rows);
          Ret match rest with
          | Err e => OPFailed e
          | Ok 0%nat => OPDone (length rows - OUTWARD_RECOVERY_BATCH_SIZE)
          | Ok n => OPDeferred (n + (length rows - OUTWARD_RECOVERY_BATCH_SIZE))
          end
      end) d).
  destruct (listUnreconciled _ d) as [rows|e]; [|done]. rewrite runAlone_bind.
  by destruct (runAlone now (parkBatch _ _) d) as [[[]|] ?].
Qed.

(** The boot pass leaves nothing in flight: if at most one batch of rows is
    in flight, the budget has not run out and the ledger answers, the pass ends
    normally and afterwards every row that was in flight is parked as
    unresolved with its identity, and every other row is as it was. *)
Theorem recovery_parks_in_flight (d : Db) (now budget : Z) :
  Wf d -> 0 <= budget ->
  (length (filter (fun r => inFlight r = true) (ledger d)) <= OUTWARD_RECOVERY_BATCH_SIZE)%nat ->
  exists d', runAlone now (parkOutward budget) d = (Some (Ok (OPDone 0)), d')
    /\ forall k, rowAt k (ledger d') = parkRow now <$> rowAt k (ledger d).
Proof.
  intros Hw Hb Hl. set (rows := listUnreconciledStmt (Z.of_nat (OUTWARD_RECOVERY_BATCH_SIZE + 1)) d).
  assert (rows ≡ₚ filter (fun r => inFlight r = true) (ledger d)) as Hp by (apply unreconciled_all; lia).
  assert (Forall (fun r => inFlight r = true) rows) as Hf.
  { rewrite Hp. apply Forall_forall. by intros r [? _]%list_elem_of_filter. }
  assert (parseRows rows = Ok rows) as Hv.
  { apply parseRows_valid. rewrite Hp. apply Forall_forall. intros r [_ Hr]%list_elem_of_filter.
    destruct Hw. rewrite Forall_forall in wf_rows0. by destruct (wf_rows0 r Hr). }
  assert (length rows <= OUTWARD_RECOVERY_BATCH_SIZE)%nat as Hlen by by rewrite Hp.
  destruct (parkBatch_alone (now + budget) now rows d) as (d' & He & Hk); [lia|done|]. exists d'. split.
  - assert (listUnreconciled (Z.of_nat (OUTWARD_RECOVERY_BATCH_SIZE + 1)) d = Ok rows) as Hlist by exact Hv.
    rewrite parkOutward_alone, Hlist, take_ge, He by done.
    by replace (length rows - OUTWARD_RECOVERY_BATCH_SIZE)%nat with 0%nat by lia.
  - intros k. rewrite Hk. case_decide as Hin; [done|]. destruct (rowAt k (ledger d)) as [r|] eqn:Er; [|done]. simpl.
    unfold parkRow. destruct (inFlight r) eqn:Ei; [|done]. destruct Hin. apply rowAt_Some in Er as [Hr <-].
    apply list_elem_of_fmap_2. rewrite Hp. by apply list_elem_of_filter.
Qed.

(** One row the schema rejects stops the whole recovery: if any of the rows
    the boot pass would scan is invalid, the pass fails before parking anything,
    and every in-flight row, the valid ones too, stays in flight. *)
Theorem bad_row_blocks_recovery (d : Db) (now budget : Z) :
  Exists (fun r => rowValid r = false) (listUnreconciledStmt (Z.of_nat (OUTWARD_RECOVERY_BATCH_SIZE + 1)) d) ->
  exists e, runAlone now (parkOutward budget) d = (Some (Ok (OPFailed e)), d).
Proof.
  intros He. rewrite parkOutward_alone. unfold listUnreconciled.
  destruct (parseRows_invalid _ He) as [e ->]. by exists (EPlain e).
Qed.
End Alone.

(** ** When a root is uncertain *)

Lemma decided_iff root digest d : decided root digest d = false <-> decisionOf root digest d = None.
Proof.
  unfold decided, decisionOf, lookupDecision. rewrite !existsb_get.
  by destruct (get _ (operator_decisions d)), (get _ (no_reply_decisions d)).
Qed.

(** A root is uncertain exactly when one of its rows is in flight or unresolved
    and no decision was recorded for that row's operation. *)
Theorem hasUncertainty_spec (root : string) (d : Db) :
  Wf d ->
  hasUncertainty root d = Ok true <->
  exists r, r ∈ ledger d /\ root_run_id r = root /\ (inFlight r = true \/ state r = unresolved)
    /\ forall o, o ∈ operations d -> opKey o = keyOf r -> decisionOf (op_root o) (operation_id o) d = None.
Proof.
  intros Hw. pose proof Hw as []. unfold hasUncertainty, hasUncertaintyStmt.
  assert (forall x : list (Row * option OperationRow),
    Ok (E := string) (0 <? length x)%nat = Ok true <-> exists y, y ∈ x) as Hlen.
  { intros x. destruct x as [|y x]; simpl; split; try done; [intros [y Hy]; by apply not_elem_of_nil in Hy|].
    intros _. exists y. left. }
  rewrite Hlen. unfold uncertaintyRows. split.
  - intros (y & (r & Hy & [Hroot Hr]%list_elem_of_filter)%list_elem_of_bind). exists r. split; [done|]. split; [done|].
    destruct (inFlight r || isState unresolved r) eqn:E; [|by apply not_elem_of_nil in Hy].
    rewrite orb_true_iff, isState_true in E. split; [done|]. intros o Ho Hk.
    pose proof (filter_key opKey (opAtStep root (step_index r)) (operations d) (root, step_index r)
      (opAtStep_iff _ _) wf_steps0) as Hf.
    pose proof (get_opAtStep o _ wf_steps0 Ho) as Hg. injection Hk as Hk1 Hk2. rewrite Hk1, Hk2, Hroot in Hg.
    rewrite Hf, Hg in Hy. simpl in Hy. rewrite filter_cons in Hy. case_decide as Hd; [by apply decided_iff|].
    by apply not_elem_of_nil in Hy.
  - intros (r & Hr & Hroot & Hs & Hn).
    assert (inFlight r || isState unresolved r = true) as E by by rewrite orb_true_iff, isState_true.
    destruct (filter (fun o => opAtStep root (step_index r) o = true) (operations d)) as [|o ops] eqn:Ef.
    + exists (r, None). apply list_elem_of_bind. exists r. rewrite E, Ef.
      split; [by apply list_elem_of_singleton|by apply list_elem_of_filter].
    + exists (r, Some o). apply list_elem_of_bind. exists r. rewrite E, Ef. split; [|by apply list_elem_of_filter].
      apply (list_elem_of_fmap_2 (fun o => (r, Some o))), list_elem_of_filter.
      assert (o ∈ filter (fun o => opAtStep root (step_index r) o = true) (operations d)) as Ho by (rewrite Ef; left).
      apply list_elem_of_filter in Ho as [Hk%opAtStep_iff Ho]. split; [|left].
      apply decided_iff, Hn; [done|]. unfold keyOf. by rewrite Hroot.
Qed.

(** ** The upgrade of retained rows *)

(** SHA-256 digests are 64 hexadecimal digits. *)
Definition Digests (sha256 : string -> string) : Prop := forall s, TaskTypes.hex64 (sha256 s) = true.

Lemma retainedRow_valid sha256 r :
  Digests sha256 -> retainedValid r = true -> RowOk (retainedRow sha256 r) /\ inFlight (retainedRow sha256 r) = false.
Proof.
  intros Hd Hv. unfold retainedValid in Hv. rewrite !andb_true_iff in Hv.
  destruct Hv as ((((((_ & _) & Hdig) & _) & Ha) & Hc) & Hu).
  assert (TaskTypes.hex64 (retainedDigest sha256 r) = true) as Hdigest.
  { unfold retainedDigest. destruct (_ =? 64)%nat eqn:E; [|apply Hd].
    apply orb_true_iff in Hdig as [H|[H _]%andb_true_iff]; [done|]. apply Nat.eqb_eq in E, H. lia. }
  unfold RowOk. rewrite rowValid_iff. unfold retainedRow, retainedState, inFlight, isState.
  destruct (bool_decide (r_state r = committed) && nonEmpty (r_message r)) eqn:E1;
    [apply andb_true_iff in E1 as [_ E1]|
     destruct (bool_decide (r_state r = failed) && nonEmpty (r_error r)) eqn:E2; [apply andb_true_iff in E2 as [_ E2]|]];
    simpl; rewrite ?E1, ?E2; repeat split; try done; apply Hd.
Qed.

(** The upgrade yields well-formed tables in which nothing is in flight: an old
    row becomes committed or failed with its proof, or unresolved. *)
Theorem upgrade_is_conservative (sha256 : string -> string) (rows : list RetainedRow) (l : list Row) :
  Digests sha256 -> upgradeRetainedOutwardLedger sha256 rows = Ok l ->
  Wf (mkDb l [] [] [] []) /\ Forall (fun r => inFlight r = false) l
  /\ l ≡ₚ (retainedRow sha256 <$> rows).
Proof.
  intros Hd. unfold upgradeRetainedOutwardLedger. destruct (forallb retainedValid rows) eqn:Hv; [|done].
  destruct (bool_decide _); [|done]. destruct (bool_decide _) eqn:Hn; [|done]. intros [= <-].
  apply bool_decide_eq_true in Hn. rewrite forallb_forall in Hv.
  assert (Forall (fun r => RowOk r /\ inFlight r = false) (sortRows (retainedRow sha256 <$> rows))) as Hall.
  { rewrite sortRows_perm. apply Forall_fmap, Forall_forall. intros r Hr. apply retainedRow_valid; [done|].
    by apply Hv, list_elem_of_In. }
  apply Forall_and in Hall as [H1 H2]. split; [|split; [done|apply sortRows_perm]].
  split; simpl; [exact Hn|done|apply NoDup_nil_2|apply NoDup_nil_2|by left|].
  intros o dec r Ho. by apply not_elem_of_nil in Ho.
Qed.

(** ** What the fingerprint covers *)

Lemma gather_Ok {A B} (l : list (A * Result B string)) vs : gather l = Ok vs -> l = (fun p => (p.1, Ok p.2)) <$> vs.
Proof.
  revert vs. induction l as [|[a [b|e]] l IH]; intros vs; simpl; [by intros [= <-]| |done].
  destruct (gather l) as [bs|e]; [|done]. intros [= <-]. simpl. f_equal. by apply IH.
Qed.

Lemma insertBy_perm {A} le (p : string * A) l : insertBy le p l ≡ₚ p :: l.
Proof. induction l as [|q l IH]; simpl; [done|]. destruct (le p.1 q.1); [done|]. rewrite IH. apply Permutation_swap. Qed.

Lemma sortBy_perm {A} le (l : list (string * A)) : sortBy le l ≡ₚ l.
Proof. induction l as [|p l IH]; [done|]. simpl. by rewrite insertBy_perm, IH. Qed.

Lemma insertIndex_perm {A} n (p : string * A) l : insertIndex n p l ≡ₚ (n, p) :: l.
Proof.
  induction l as [|[m q] l IH]; simpl; [done|]. destruct (n <=? m)%N; [done|]. rewrite IH. apply Permutation_swap.
Qed.

Lemma fromEntries_perm {A} (l : list (string * A)) : fromEntries l ≡ₚ l.
Proof.
  unfold fromEntries. induction l as [|p l IH]; [done|]. simpl. rewrite filter_cons.
  destruct (arrayIndex p.1) as [n|] eqn:E; simpl.
  - rewrite (insertIndex_perm n p). simpl. by rewrite IH.
  - rewrite <- Permutation_middle. by rewrite IH.
Qed.

(** The canonical fields of an operation. *)
Definition fields (localeCompare : string -> string -> Z) (o : Operation)
  : list (string * Result CanonicalJson.Json string) :=
  [("kind", Ok (CanonicalJson.JString (kindName (o_kind o))));
   ("channelType", Ok (CanonicalJson.JString (o_channelType o)));
   ("channelId", Ok (CanonicalJson.JString (o_channelId o)));
   ("targetMessageId", Ok match o_target o with Some t => CanonicalJson.JString t | None => CanonicalJson.JNull end);
   ("text", Ok (CanonicalJson.JString (o_text o)));
   ("options", canonicalize localeCompare (orNull (o_options o)))].

Lemma present_fields localeCompare o entries :
  envelope o = JsObject true entries ->
  omap (fun p => if isUndefined p.2 then None else Some (p.1, canonicalize localeCompare p.2)) entries = fields localeCompare o.
Proof. intros [= <-]. unfold fields. simpl. by destruct (o_target o), (o_options o). Qed.

Lemma operationText_entries localeCompare o t :
  operationText localeCompare o = Ok t ->
  exists es, t = CanonicalJson.render (CanonicalJson.JObject es)
    /\ forall k x, (k, x) ∈ es <-> (k, Ok x) ∈ fields localeCompare o.
Proof.
  unfold operationText. destruct (envelope o) as [| | | | | | |plain entries] eqn:Ee; try (unfold envelope in Ee; done).
  assert (plain = true) as -> by (unfold envelope in Ee; congruence). cbn [canonicalize].
  rewrite (present_fields localeCompare o entries Ee).
  destruct (gather (sortBy (localeLe localeCompare) (fields localeCompare o))) as [vs|e] eqn:Eg; [|done].
  intros [= <-]. exists (fromEntries vs). split; [done|]. intros k x. rewrite fromEntries_perm.
  apply gather_Ok in Eg. rewrite <- (sortBy_perm (localeLe localeCompare) (fields localeCompare o)), Eg.
  rewrite list_elem_of_fmap. split.
  - intros H. by exists (k, x).
  - by intros ([k' x'] & [= -> ->] & H).
Qed.

Lemma kindName_inj k k' : kindName k = kindName k' -> k = k'.
Proof. by destruct k, k'. Qed.

(** The text the fingerprint hashes determines the operation: two calls that
    hash the same text have the same kind, channel, target and message. *)
Theorem fingerprint_text_identifies (compare compare' : string -> string -> Z) (o o' : Operation) (t : string) :
  operationText compare o = Ok t -> operationText compare' o' = Ok t ->
  o_kind o = o_kind o' /\ o_channelType o = o_channelType o' /\ o_channelId o = o_channelId o'
  /\ o_target o = o_target o' /\ o_text o = o_text o'.
Proof.
  intros (es & -> & H)%operationText_entries (es' & E & H')%operationText_entries.
  assert (es = es') as <-.
  { destruct (CanonicalJson.render_Decodes (CanonicalJson.JObject es) (CanonicalJson.JObject es') "" "") as [[= ->] _];
      [done..|by rewrite E|done]. }
  assert (forall k x, (k, Ok x) ∈ fields compare o <-> (k, Ok x) ∈ fields compare' o') as Hf
    by (intros k x; by rewrite <- H, <- H').
  unfold fields in Hf. repeat split.
  - specialize (Hf "kind" (CanonicalJson.JString (kindName (o_kind o)))). apply kindName_inj. set_solver.
  - specialize (Hf "channelType" (CanonicalJson.JString (o_channelType o))). set_solver.
  - specialize (Hf "channelId" (CanonicalJson.JString (o_channelId o))). set_solver.
  - specialize (Hf "targetMessageId" (match o_target o with Some t => CanonicalJson.JString t | None => CanonicalJson.JNull end)).
    destruct (o_target o), (o_target o'); set_solver.
  - specialize (Hf "text" (CanonicalJson.JString (o_text o))). set_solver.
Qed.

(** ** Concrete tables *)

Definition hash : string := "1111111111111111111111111111111111111111111111111111111111111111".
Definition intent : BeginInput :=
  {| rootRunId := "root"; stepIndex := 0; agentId := "agent"; channelType := "telegram"; channelId := "42";
     operationKind := message_send; operationFingerprint := hash; contentDigest := hash |}.
Definition begunDb : Db := (begin intent 5 emptyDb).2.

(** The same row with a truncated digest beside it. *)
Definition damagedDb : Db :=
  setLedger (ledger begunDb ++
    [mkRow "root:1" "root" 1 "agent" "telegram" "42" message_send hash unknown_after_send None "1111" None 1 None 6 6])
    begunDb.

Lemma recovery_parks_in_flight_witness :
  exists d', runAlone (fun _ => hash) 7 (parkOutward 1000) begunDb = (Some (Ok (OPDone 0)), d')
    /\ rowAt ("root", 0) (ledger d') = parkRow 7 <$> rowAt ("root", 0) (ledger begunDb).
Proof.
  destruct (recovery_parks_in_flight (fun _ => hash) begunDb 7 1000) as (d' & H1 & H2).
  - apply (begin_moves intent 5 emptyDb); [apply Wf_empty|reflexivity].
  - lia.
  - vm_compute. lia.
  - exists d'. split; [exact H1|apply H2].
Defined.

Lemma bad_row_blocks_recovery_witness :
  exists e, runAlone (fun _ => hash) 7 (parkOutward 1000) damagedDb = (Some (Ok (OPFailed e)), damagedDb).
Proof.
  apply bad_row_blocks_recovery.
  replace (listUnreconciledStmt _ damagedDb) with (ledger damagedDb) by (vm_compute; reflexivity).
  apply Exists_cons_tl, Exists_cons_hd. reflexivity.
Defined.

Lemma hasUncertainty_spec_witness : hasUncertainty "root" begunDb = Ok true.
Proof.
  apply hasUncertainty_spec.
  - apply (begin_moves intent 5 emptyDb); [apply Wf_empty|reflexivity].
  - exists (mkRow "root:0" "root" 0 "agent" "telegram" "42" message_send hash send_attempt_started None hash None 0 None 5 5).
    split; [left|]. split; [reflexivity|]. split; [left; reflexivity|]. intros o Ho. by apply not_elem_of_nil in Ho.
Defined.
End OutwardRecovery.
