(* ===== verification/OutwardTheorems.v ===== *)
(** * What the outward-send ledger guarantees

  The theorems about the daemon's senders running together over one ledger:
  at most one platform call per operation, receipts that mean a delivery,
  operator decisions that stay true, operations that keep their step. *)

From S2P Require Import Prelude CanonicalJson TaskTypes ApprovalPolicy OutwardLedger OutwardLedgerFacts OutwardLedgerWf OutwardSend OutwardWorld OutwardSafety OutwardClients OutwardRecovery.

Open Scope string_scope.
Open Scope list_scope.
Open Scope Z_scope.

Module OutwardTheorems.
Import OutwardLedger OutwardLedgerFacts OutwardLedgerWf OutwardSend OutwardWorld OutwardSafety OutwardClients OutwardRecovery.

(** ** The daemon's programs *)

Inductive Daemon :=
| RunMessage (target : option Key) (o : Operation)
| RunAnnounce (a : Announcement)
| RunDeliver (ledgered : bool) (c : Completion)
| RunReconcile (ledgered : bool) (c : Completion)
| RunPark (recoveryBudgetMs : Z)
| RunDecide (root operationId : string) (d : Decision).

Definition daemonResult (p : Daemon) : Type :=
  match p with
  | RunMessage _ _ => Result string Error
  | RunAnnounce _ => Governed
  | RunDeliver _ _ => Delivery
  | RunReconcile _ _ => Result Delivery Error
  | RunPark _ => OutwardPass
  | RunDecide _ _ _ => Result unit string
  end.

Section Daemon.
Variable sha256 : string -> string.
Variable localeCompare : string -> string -> Z.

Definition daemonStart (p : Daemon) : Prog (daemonResult p) :=
  match p return Prog (daemonResult p) with
  | RunMessage target o => wrapOutwardSend sha256 localeCompare target o messageSend
  | RunAnnounce a => send sha256 a
  | RunDeliver ledgered c => deliver sha256 localeCompare ledgered c
  | RunReconcile ledgered c => reconcileDelivery ledgered c
  | RunPark budget => parkOutward budget
  | RunDecide root op d => call (QRecordTerminal root op d)
  end.

Definition daemonGoal (p : Daemon) : Ghost -> Result (daemonResult p) Error -> Prop :=
  match p return Ghost -> Result (daemonResult p) Error -> Prop with
  | RunMessage (Some k) _ => WrapGoal k
  | RunMessage None _ => fun _ _ => True
  | RunAnnounce a => GovernedGoal a
  | RunDeliver ledgered c => DeliverGoal ledgered c
  | RunReconcile _ c => ReconcileGoal c
  | RunPark _ => Quiet
  | RunDecide _ _ _ => Quiet
  end.

Lemma daemon_wp p : wp (daemonStart p) nothing (daemonGoal p).
Proof.
  destruct p as [[[root step]|] o|a|b c|b c|budget|root op d]; cbn [daemonStart daemonGoal].
  - apply wrapOutwardSend_wp; [apply messageSend_sends|done].
  - apply passThrough_wp, messageSend_sends.
  - apply send_wp.
  - apply deliver_wp.
  - apply reconcileDelivery_wp.
  - apply parkOutward_wp.
  - split; [done|]. by intros r _.
Qed.

#[global] Instance daemon : Programs := {| Program := Daemon; start_wp := daemon_wp |}.
End Daemon.

(** ** Stable facts *)

Section Stable.
Variable sha256 : string -> string.

Lemma exec_operations q now d o : o ∈ operations d -> o ∈ operations (exec sha256 q now d).2.
Proof.
  intros Ho. destruct q; try exact Ho; cbn [exec Ans].
  - destruct (recordTerminalDecision sha256 root operationId o0 now d) as [[[]|e] d'] eqn:E.
    + apply recordTerminalDecision_Ok in E as [[_ ->]|(_ & (x & _ & _ & _ & ->) & _)]; [done|].
      simpl. by rewrite (proj2 (withDecision_tables x d)).
    + by apply recordTerminalDecision_Err in E as ->.
  - destruct (allocateStep sha256 root operationId now d) as [[v|e] d'] eqn:E.
    + apply allocateStep_Ok in E as (_ & _ & _ & _ & Hm). simpl in *. destruct (get _ _).
      * by destruct Hm as [_ ->].
      * destruct Hm as (_ & o' & _ & _ & ->). apply elem_of_app. by left.
    + by apply allocateStep_Err in E as ->.
  - destruct (begin i now d) as [[[]|e] d'] eqn:E; [by apply begin_Ok in E as (_ & _ & _ & _ & _ & ->)|].
    by apply begin_Err in E as ->.
  - unfold commit. by destruct (String.eqb receipt "").
Qed.

Lemma exec_decision q now d root digest dec :
  decisionOf root digest d = Some dec -> decisionOf root digest (exec sha256 q now d).2 = Some dec.
Proof.
  intros Hd. destruct q; try exact Hd; cbn [exec Ans].
  - destruct (recordTerminalDecision sha256 root0 operationId o now d) as [[[]|e] d'] eqn:E.
    + apply recordTerminalDecision_Ok in E as [[_ ->]|(Hn & (x & <- & Hx & _ & ->) & _)]; [done|].
      rewrite <- Hx in Hn. simpl. rewrite decisionOf_with by done. case_decide as Hk; [|done].
      injection Hk as <- <-. congruence.
    + by apply recordTerminalDecision_Err in E as ->.
  - destruct (allocateStep sha256 root0 operationId now d) as [[v|e] d'] eqn:E.
    + apply allocateStep_Ok in E as (_ & _ & H1 & H2 & _). simpl. unfold decisionOf. by rewrite H1, H2.
    + by apply allocateStep_Err in E as ->.
  - destruct (begin i now d) as [[[]|e] d'] eqn:E; [by apply begin_Ok in E as (_ & _ & _ & _ & _ & ->)|].
    by apply begin_Err in E as ->.
  - unfold commit. by destruct (String.eqb receipt "").
Qed.

Context {PS : Programs}.

Lemma Run_stable (P : Db -> Prop) w w' :
  (forall q now d, P d -> P (exec sha256 q now d).2) -> Run sha256 w w' -> P (db w) -> P (db w').
Proof.
  intros Hp. induction 1 as [|w1 w2 Hr IH Hs]; [done|]. intros H%IH. destruct Hs; simpl in *; try done.
  destruct fault; simpl; [done|by apply Hp].
Qed.

Lemma Run_trans w1 w2 w3 : Run sha256 w1 w2 -> Run sha256 w2 w3 -> Run sha256 w1 w3.
Proof. intros H12. induction 1; [done|by eapply run_step]. Qed.
End Stable.

(** ** The theorems *)

Section Theorems.
Variable sha256 : string -> string.
Variable localeCompare : string -> string -> Z.
#[local] Existing Instance daemon.

Abbreviation Runs := (@Run (daemon sha256 localeCompare) sha256).

Lemma daemon_inv d w : Wf d -> Runs (boot d) w -> WInv (committedIn d) w.
Proof. intros Hw. apply Run_inv. by apply WInv_boot. Qed.

Lemma calls_bound old (w : @World (daemon sha256 localeCompare)) key : WInv old w -> (cnt (Some key) (calls w) <= 1)%nat.
Proof. intros [_ _ H _ _ _ _ _]. specialize (H key). destruct (entered key w); simpl in H; lia. Qed.

Lemma called_once old (w : @World (daemon sha256 localeCompare)) key a :
  WInv old w -> (Some key, a) ∈ answers w -> cnt (Some key) (calls w) = 1%nat.
Proof.
  intros Hi Ha. pose proof (calls_bound old w key Hi). apply (inv_answered _ _ Hi), cnt_pos in Ha. lia.
Qed.


(** A sender that ended and reported a receipt under a key. *)
Inductive Reports : @Job (daemon sha256 localeCompare) -> Key -> string -> Prop :=
| reports_message k o m g :
    Reports (@mkJob (daemon sha256 localeCompare) (RunMessage (Some k) o) (Ret (Ok m)) g false) k m
| reports_announce a k m g :
    Reports (@mkJob (daemon sha256 localeCompare) (RunAnnounce a) (Ret (GDelivered k m)) g false) k m.

(** C18: A receipt is never made up and never shared out wrongly: when a message
    send or an announcement reports one, the platform was called exactly once
    under that key, it accepted, and the ledger has the receipt.  Callers that
    report receipts under one key report the same one. *)
Theorem receipt_means_sent (w : @World (daemon sha256 localeCompare)) i j k m :
  Runs (boot emptyDb) w -> jobs w !! i = Some j -> Reports j k m ->
  cnt (Some k) (calls w) = 1%nat
  /\ (exists a, (Some k, a) ∈ answers w /\ accepted a = true)
  /\ (exists r, rowAt k (ledger (db w)) = Some r /\ state r = committed /\ platform_message_id r = Some m)
  /\ forall i' j' m', jobs w !! i' = Some j' -> Reports j' k m' -> m' = m.
Proof.
  intros Hr Hj Hrep. pose proof (daemon_inv _ _ Wf_empty Hr) as Hi.
  assert (forall i j m, jobs w !! i = Some j -> Reports j k m -> exists r,
    rowAt k (ledger (db w)) = Some r /\ state r = committed /\ platform_message_id r = Some m) as Hrow.
  { intros i' j' m' Hj' Hrep'. pose proof (inv_jobs _ _ Hi i' j' Hj') as Hok. apply (inv_proved _ _ Hi i' j'); [done|].
    destruct Hrep' as [k' o m'' g|a k' m'' g]; [by apply Hok|]. destruct Hok as (x & [= <-] & H). by apply H. }
  destruct (Hrow i j m Hj Hrep) as (r & Hat & Hc & Hm).
  destruct (inv_receipt _ _ Hi k r Hat Hc) as [(r' & Hr' & _)|(a & Ha & Hacc)]; [done|].
  repeat split; [|by exists a|by exists r|].
  - by eapply called_once.
  - intros i' j' m' Hj' Hrep'. destruct (Hrow i' j' m' Hj' Hrep') as (r' & Hat' & _ & Hm'). congruence.
Qed.

(** What [deliver] of a background completion returns with a ledger can be
    acted on: it always ends with an outcome; a retry is only offered when this
    delivery did not call the platform; acceptance means the ledger has a
    receipt for the task, from a platform call that was made once and
    accepted. *)
Theorem completion_outcome_sound (w : @World (daemon sha256 localeCompare)) i c b g :
  Runs (boot emptyDb) w ->
  jobs w !! i = Some (@mkJob (daemon sha256 localeCompare) (RunDeliver true c) b g false) ->
  (forall e, b <> Throw e)
  /\ (forall e m, b = Ret (DRetryable e m) -> heard g = [])
  /\ (b = Ret DAccepted -> exists step a,
        committedIn (db w) (completionRoot c, step) /\ cnt (Some (completionRoot c, step)) (calls w) = 1%nat
        /\ (Some (completionRoot c, step), a) ∈ answers w /\ accepted a = true).
Proof.
  intros Hr Hj. pose proof (daemon_inv _ _ Wf_empty Hr) as Hi. pose proof (inv_jobs _ _ Hi i _ Hj) as Hok.
  split; [intros e ->; by destruct (Hok eq_refl) as (x & ? & _)|].
  split; [intros e m ->; destruct (Hok eq_refl) as (x & [= <-] & H & _); by apply (H e m)|].
  intros ->. destruct (Hok eq_refl) as (x & [= <-] & _ & H). destruct (H eq_refl) as (step & m & Hp).
  destruct (inv_proved _ _ Hi i _ _ _ Hj Hp) as (r & Hat & Hc & Hm).
  destruct (inv_receipt _ _ Hi _ r Hat Hc) as [(r' & Hr' & _)|(a & Ha & Hacc)]; [done|].
  exists step, a. split; [by exists r|]. split; [|done]. by eapply called_once.
Qed.

(** A terminal decision stays as it was recorded and stays true: in every
    later world its operation is not in flight, and a committed receipt for it
    exists only if the decision was [delivered]. *)
Theorem decision_is_final (d : Db) (w w' : @World (daemon sha256 localeCompare)) root digest dec :
  Wf d -> Runs (boot d) w -> Runs w w' -> decisionOf root digest (db w) = Some dec ->
  decisionOf root digest (db w') = Some dec
  /\ forall o r, o ∈ operations (db w') -> opName o = (root, digest) -> rowAt (opKey o) (ledger (db w')) = Some r ->
       inFlight r = false /\ (state r = committed -> dec = delivered).
Proof.
  intros Hw Hr Hr' Hd.
  assert (decisionOf root digest (db w') = Some dec) as Hd'.
  { revert Hd. by apply (Run_stable sha256 (fun d => decisionOf root digest d = Some dec)); [intros; by apply exec_decision|]. }
  split; [done|]. intros o r Ho [= <- <-] Hat.
  destruct (inv_wf _ _ (daemon_inv d w' Hw (Run_trans _ _ _ _ Hr Hr'))). by eapply wf_final0.
Qed.

(** An operation keeps the step it was first given, across crashes and
    whatever else is sent meanwhile, and two operations of one root never get
    the same step: allocations return equal steps exactly when the digests of
    their operation ids are equal. *)
Theorem steps_identify_operations (d d1 d2 : Db) (w w' : @World (daemon sha256 localeCompare)) root op op' t t' v v' :
  Wf d -> Runs (boot d) w -> allocateStep sha256 root op t (db w) = (Ok v, d1) ->
  Runs (mkWorld d1 (jobs w) (calls w) (answers w)) w' ->
  allocateStep sha256 root op' t' (db w') = (Ok v', d2) ->
  v = v' <-> digestOperationId sha256 op = digestOperationId sha256 op'.
Proof.
  intros Hw Hr Ha Hr' Ha'.
  assert (exists o, o ∈ operations d1 /\ opName o = (root, digestOperationId sha256 op) /\ op_step o = v) as (o & Ho & Hn & Hv).
  { apply allocateStep_Ok in Ha as (_ & _ & _ & _ & Hm). cbn zeta in Hm.
    destruct (get _ (operations (db w))) as [o|] eqn:E.
    - destruct Hm as [-> ->]. apply get_Some in E as [? E%opAt_iff]. by exists o.
    - destruct Hm as (_ & o & Hn & Hk & ->). exists o. split; [apply elem_of_app; right; by apply list_elem_of_singleton|].
      split; [done|]. by injection Hk. }
  assert (o ∈ operations (db w')) as Ho'
    by by eapply (Run_stable sha256 (fun d => o ∈ operations d)); [intros; by apply exec_operations|exact Hr'|].
  assert (op_root o = root) as Hroot by by injection Hn.
  assert (Wf (db w')) as [].
  { eapply inv_wf, Run_inv; [|exact Hr']. eapply (allocate_inv sha256); [by apply (daemon_inv d)|]. by rewrite Ha. }
  apply allocateStep_Ok in Ha' as (_ & _ & _ & _ & Hm). cbn zeta in Hm.
  destruct (get (opAt root (digestOperationId sha256 op')) (operations (db w'))) as [o'|] eqn:E.
  - destruct Hm as [-> _]. apply get_Some in E as [Hin E%opAt_iff]. split.
    + intros Hvv. assert (o = o') as <-; [|congruence].
      pose proof (get_opAtStep o _ wf_steps0 Ho') as G1. pose proof (get_opAtStep o' _ wf_steps0 Hin) as G2.
      assert (op_root o' = root) as Hroot' by by injection E. rewrite Hroot, Hv, Hvv in G1. congruence.
    + intros Hdd. rewrite Hdd, <- E in Hn. pose proof (get_opAt o _ wf_names0 Ho') as G1.
      pose proof (get_opAt o' _ wf_names0 Hin) as G2. injection Hn as En1 En2. rewrite En1, En2 in G1. congruence.
  - destruct Hm as (Hu & _). split.
    + intros <-. apply usedStep_op in Ho'. rewrite Hroot, Hv in Ho'. lia.
    + intros Hdd. rewrite get_None in E. specialize (E o Ho'). rewrite <- Hdd in E. apply not_true_iff_false in E.
      by rewrite opAt_iff in E.
Qed.

(** The store never writes a row it would refuse to read: in every world the
    daemon reaches, every lookup and every recovery scan passes the row
    schema. *)
Theorem stored_rows_valid (d : Db) (w : @World (daemon sha256 localeCompare)) :
  Wf d -> Runs (boot d) w ->
  (forall root step, exists x, OutwardLedger.lookup root step (db w) = Ok x)
  /\ (forall limit, 0 < limit -> limit <= 1001 -> exists rows, listUnreconciled limit (db w) = Ok rows).
Proof.
  intros Hw Hr. destruct (inv_wf _ _ (daemon_inv d w Hw Hr)).
  assert (forall r, r ∈ ledger (db w) -> rowValid r = true) as Hv
    by (intros r Hin; rewrite Forall_forall in wf_rows0; by destruct (wf_rows0 r Hin)).
  split.
  - intros root step. unfold OutwardLedger.lookup, parseOptionalRow. destruct (get _ _) as [r|] eqn:E; [|by eexists].
    apply get_Some in E as [E _]. rewrite (Hv r E). by eexists.
  - intros limit H0 H1. unfold listUnreconciled.
    assert (TaskTypes.isSafeInteger limit = true) as ->
      by (unfold TaskTypes.isSafeInteger, TaskTypes.MAX_SAFE_INTEGER; lia).
    rewrite (proj2 (Z.leb_gt _ _)), (proj2 (Z.ltb_ge _ _)) by lia. eexists. apply parseRows_valid.
    apply Forall_forall. intros r (n & Hn & _)%elem_of_take. apply list_elem_of_lookup_2 in Hn.
    rewrite sortRows_perm in Hn. apply Hv. by apply list_elem_of_filter in Hn as [_ ?].
Qed.
End Theorems.

(** ** Concrete runs *)

Module Demo.

(** A stand-in for SHA-256 that tells one operation id from all other text. *)
Definition sha (s : string) : string :=
  if String.eqb s (CanonicalJson.stringify "op1")
  then "1111111111111111111111111111111111111111111111111111111111111111"
  else "2222222222222222222222222222222222222222222222222222222222222222".
Definition compare (_ _ : string) : Z := 0.

#[local] Instance programs : Programs := daemon sha compare.

Definition key : Key := ("root", 0).
Definition op : Operation :=
  {| o_agentId := "agent"; o_channelType := "telegram"; o_channelId := "42"; o_kind := message_send;
     o_target := None; o_options := JsUndefined; o_text := "hello" |}.
Definition task : Completion :=
  {| taskId := "t1"; idempotencyKey := "op1"; response := "done"; c_agentId := "agent"; c_channelType := "telegram";
     c_conversationId := "42"; adapterActive := true; onSendStart := Ok tt |}.

Definition ticks (i n : nat) : list Choice := replicate n (CallAt i 7 None).

(** Two callers of one key: the first sends, the second reads the receipt. *)
Definition twoCallers : World := play sha
  ([Spawn (RunMessage (Some key) op)] ++ ticks 0 3 ++ [IssueAt 0; AnswerAt 0 (PAccepted (Some "m1"))] ++ ticks 0 1
   ++ [Spawn (RunMessage (Some key) op)] ++ ticks 1 1) (boot emptyDb).

(** A delivery whose first attempt dies with the process while the platform has
    the call, and the parking after the restart. *)
Definition crashed : World := play sha
  ([Spawn (RunDeliver true task)] ++ ticks 0 4 ++ [IssueAt 0; Crash; Spawn (RunPark 1000); ClockAt 0 5]
   ++ ticks 0 1 ++ [ClockAt 0 6] ++ ticks 0 1) (boot emptyDb).

Definition completed : World := play sha
  ([Spawn (RunDeliver true task)] ++ ticks 0 4 ++ [IssueAt 0; AnswerAt 0 (PAccepted (Some "m1"))] ++ ticks 0 1)
  (boot emptyDb).

Definition afterDecision : World := play sha ([Spawn (RunDecide "root" "op1" discarded)] ++ ticks 0 1) (boot emptyDb).
Definition afterDecisionSend : World := play sha
  ([Spawn (RunMessage (Some key) op)] ++ ticks 1 3) afterDecision.

Lemma runs_boot cs : Run sha (boot emptyDb) (play sha cs (boot emptyDb)).
Proof. apply play_run, run_start. Qed.

Example crash_leaves_uncertain :
  (state <$> ledger (db crashed)) = [unresolved] /\ calls crashed = [Some ("background-task:t1", 0)].
Proof. vm_compute. done. Qed.


Definition second : Job := mkJob (RunMessage (Some key) op) (Ret (Ok "m1")) (mkGhost None [] [(key, "m1")]) false.

Lemma receipt_means_sent_witness :
  jobs twoCallers !! 1%nat = Some second /\ Reports sha compare second key "m1"
  /\ cnt (Some key) (calls twoCallers) = 1%nat.
Proof.
  split; [reflexivity|]. split; [constructor|].
  eapply (receipt_means_sent sha compare twoCallers 1 second); [apply runs_boot|reflexivity|constructor].
Defined.

Lemma completion_outcome_sound_witness :
  exists step, cnt (Some (completionRoot task, step)) (calls completed) = 1%nat.
Proof.
  destruct (completion_outcome_sound sha compare completed 0 task (Ret DAccepted)
    (mkGhost None [(Some (completionRoot task, 0), PAccepted (Some "m1"))] [((completionRoot task, 0), "m1")]))
    as (_ & _ & H); [apply runs_boot|reflexivity|].
  destruct (H eq_refl) as (step & a & _ & Hc & _). exists step. exact Hc.
Defined.

Lemma decision_is_final_witness :
  decisionOf "root" (digestOperationId sha "op1") (db afterDecisionSend) = Some discarded.
Proof.
  refine (proj1 (decision_is_final sha compare emptyDb afterDecision afterDecisionSend "root" _ discarded Wf_empty _ _ _)).
  - apply runs_boot.
  - apply play_run, run_start.
  - vm_compute. reflexivity.
Defined.

Lemma steps_identify_operations_witness : 0 = 1 <-> digestOperationId sha "op1" = digestOperationId sha "op2".
Proof.
  eapply (steps_identify_operations sha compare emptyDb _ _ (boot emptyDb)
    (mkWorld (allocateStep sha "root" "op1" 7 emptyDb).2 [] [] []) "root" "op1" "op2" 7 8).
  - apply Wf_empty.
  - apply run_start.
  - vm_compute. reflexivity.
  - apply run_start.
  - vm_compute. reflexivity.
Defined.

Lemma stored_rows_valid_witness : exists x, OutwardLedger.lookup "root" 0 (db twoCallers) = Ok x.
Proof. apply (stored_rows_valid sha compare emptyDb twoCallers); [apply Wf_empty|apply runs_boot]. Defined.
End Demo.
End OutwardTheorems.
