(* ===== verification/DurableRuns.v ===== *)
(** * Durable run checkpoints

  Models [packages/core/src/domain/durable-run.ts] (the record schema) and
  [packages/memory/src/durable-run-store.ts] with its tables
  ([schema-durable-runs.ts], [durable-run-row-schema.ts]): the persisted
  authority of a run that survives a restart, its claim for resume, its
  terminal states and the revocation of a whole tree.

  A row holds the record its columns decode to; [readable] is false for a row
  whose columns do not parse, [capsText] for one whose capability column is not
  even JSON.  A transaction that returns an error keeps what it wrote before;
  one that throws is undone.  Money, tokens and times are integers; the digest
  of conversation references is a parameter. *)

From S2P Require Import Prelude ConversationScope TaskTypes ApprovalPolicy ExecutionGraph.

Open Scope string_scope.
Open Scope list_scope.
Open Scope Z_scope.

Module DurableRuns.

(** ** Records *)

(** [AGENT_CAPABILITIES] *)
Inductive Cap :=
| orch_spawn | orch_graph | orch_cron | orch_message | orch_skill | orch_read | orch_web | orch_analyze
| orch_write | orch_browse | orch_mcp.

#[global] Instance Cap_eq_dec : EqDecision Cap.
Proof. solve_decision. Defined.

(** [DurableRunStatusSchema] and [DurableRunTerminalReasonSchema] *)
Inductive Status := running | orphaned | completed | revoked.

Inductive Terminal := t_completed | t_failed | t_killed | t_watchdog_timeout | t_ghost_sweep | t_superseded.

#[global] Instance Status_eq_dec : EqDecision Status.
Proof. solve_decision. Defined.
#[global] Instance Terminal_eq_dec : EqDecision Terminal.
Proof. solve_decision. Defined.

(** [DeliveryOriginSchema] *)
Record Origin := {
  d_channelType : string; d_channelId : string; d_userId : string; d_threadId : option string; d_tenantId : string
}.

#[global] Instance Origin_eq_dec : EqDecision Origin.
Proof. solve_decision. Defined.

(** [DurableRootBudgetSchema] *)
Record Budget := { startedAtMs : Z; tokensConsumed : Z; usdConsumed : Z }.

Record SpawnTreeNode := { t_nodeId : string; t_status : ExecutionGraph.NodeStatus; t_runId : option string }.

(** A flat run lists node ids, a graph run its nodes. *)
Inductive SpawnTree := Flat (ids : list string) | Dag (nodes : list SpawnTreeNode).

(** What a checkpoint may never change. *)
Record Principal := {
  p_rootRunId : string;
  p_tenantId : string;
  p_agentId : string;
  p_conversationRef : string;
  p_scope : ConversationScope.Scope;
  p_principalId : string;
  p_origin : option Origin;
  p_trust : ApprovalPolicy.UserTrustLevel
}.

#[global] Instance Trust_eq_dec : EqDecision ApprovalPolicy.UserTrustLevel.
Proof. solve_decision. Defined.
#[global] Instance Principal_eq_dec : EqDecision Principal.
Proof. solve_decision. Defined.

(** [DurableRunRecord] *)
Record Run := mkRun {
  checkpointId : string;
  principal : Principal;
  spawnTree : SpawnTree;
  caps : list Cap;
  leaseIds : list string;
  budgetConsumed : Z;
  rootBudget : Budget;
  cronOrigin : option string;
  status : Status;
  lastHeartbeatAt : Z;
  scriptRef : option string;
  checkpointRef : option string;
  workspacePolicyHash : option string;
  resumeDescriptorHash : option string;
  terminalReason : option Terminal
}.

Definition rootRunId (r : Run) : string := p_rootRunId (principal r).

Definition nonempty (s : string) : bool := negb (String.eqb s "").

Definition originValid (o : Origin) : bool :=
  nonempty (d_channelType o) && nonempty (d_channelId o) && nonempty (d_userId o) && nonempty (d_tenantId o).

Definition budgetValid (b : Budget) : bool :=
  (0 <=? startedAtMs b) && TaskTypes.SafeCountSchema (tokensConsumed b) && (0 <=? usdConsumed b).

Definition hashValid (h : option string) : bool := match h with None => true | Some s => TaskTypes.hex64 s end.

(** The principal a partition names, if any. *)
Definition partitionPrincipal (p : ConversationScope.ConversationPartition) : option string :=
  match p with
  | ConversationScope.PPrincipal pr | ConversationScope.PChannelPrincipal _ pr
  | ConversationScope.PEndpointPrincipal _ pr => Some pr
  | _ => None
  end.

Section Store.
Variable digest : string -> string.

(** [DurableRunRecordSchema], the cross-field refinements included. *)
Definition recordValid (r : Run) : bool :=
  let p := principal r in
  nonempty (checkpointId r) && nonempty (p_rootRunId p) && nonempty (p_tenantId p) && nonempty (p_agentId p)
  && ConversationScope.ConversationRefSchema (p_conversationRef p) && ConversationScope.ConversationScopeSchema (p_scope p)
  && nonempty (p_principalId p)
  && match p_origin p with None => true | Some o => originValid o end
  && (0 <=? budgetConsumed r) && budgetValid (rootBudget r)
  && hashValid (workspacePolicyHash r) && hashValid (resumeDescriptorHash r)
  && (budgetConsumed r =? usdConsumed (rootBudget r))
  && (startedAtMs (rootBudget r) <=? lastHeartbeatAt r)
  && match spawnTree r, checkpointRef r with Dag (_ :: _), None => false | _, _ => true end
  && String.eqb (ConversationScope.tenantId (p_scope p)) (p_tenantId p)
  && String.eqb (ConversationScope.agentId (p_scope p)) (p_agentId p)
  && match ConversationScope.createConversationRef digest (p_scope p) with
     | Ok expected => String.eqb expected (p_conversationRef p) | Err _ => false end
  && match partitionPrincipal (ConversationScope.partition (p_scope p)) with
     | Some pr => String.eqb pr (p_principalId p) | None => true end
  && match p_origin p with
     | Some o => String.eqb (d_tenantId o) (p_tenantId p) && String.eqb (d_userId o) (p_principalId p)
     | None => true end.

(** [parseDurableRunRecord] *)
Definition parseDurableRunRecord (r : Run) : Result Run string :=
  if recordValid r then Ok r else Err "durable record validation failed".

(** ** Tables *)

Record Row := mkRow {
  rec : Run;
  orphan_reason : option string;
  created_at_ms : Z;
  updated_at_ms : Z;
  readable : bool;
  capsText : bool
}.

Record RootRow := { root_run_id : string; revoked_at_ms : option Z }.

Record Db := mkDb { checkpoints : list Row; roots : list RootRow }.

Definition rowToRecord (r : Row) : Result Run string :=
  if readable r then parseDurableRunRecord (rec r) else Err "durable checkpoint validation failed".

(** ** Statements *)

Definition byId (cid : string) (r : Row) : bool := String.eqb (checkpointId (rec r)) cid.
Definition byRoot (root : string) (r : Row) : bool := String.eqb (rootRunId (rec r)) root.
Definition isRunning (r : Row) : bool := bool_decide (status (rec r) = running).

(** [getStmt] *)
Definition getStmt (cid : string) (d : Db) : option Row := head (filter (fun r => byId cid r = true) (checkpoints d)).

Definition updateRows (p : Row -> bool) (f : Row -> Row) (d : Db) : Db * nat :=
  (mkDb ((fun r => if p r then f r else r) <$> checkpoints d) (roots d),
   length (filter (fun r => p r = true) (checkpoints d))).

(** [checkpointArgs]: a fresh row. *)
Definition freshRow (r : Run) (t : Z) : Row := mkRow r None t t true true.

Definition isTerminal (s : Status) : bool := negb (bool_decide (s = running)).

Definition orElse {A} (a b : option A) : option A := match a with Some _ => a | None => b end.

(** The [DO UPDATE SET] of [upsertStmt]: a terminal row keeps every column. *)
Definition mergeRow (old : Row) (r : Run) (t : Z) : Row :=
  if isTerminal (status (rec old)) then old
  else mkRow (mkRun (checkpointId (rec old)) (principal (rec old)) (spawnTree r) (caps r) (leaseIds r)
               (budgetConsumed r) (rootBudget r) (cronOrigin r) (status r) (lastHeartbeatAt r)
               (orElse (scriptRef r) (scriptRef (rec old))) (orElse (checkpointRef r) (checkpointRef (rec old)))
               (workspacePolicyHash r) (resumeDescriptorHash r) (terminalReason r))
         (orphan_reason old) (created_at_ms old) t true true.

(** The [WHERE] of the conflict clause: same principal, no new capability. *)
Definition mayMerge (old : Row) (r : Run) : bool :=
  bool_decide (principal (rec old) = principal r) && forallb (fun c => bool_decide (c ∈ caps (rec old))) (caps r).

(** [upsertStmt]: the tables and the number of changed rows, or what SQLite
    throws on capability text it must read and cannot. *)
Definition upsertStmt (r : Run) (t : Z) (d : Db) : Result (Db * nat) string :=
  match getStmt (checkpointId r) d with
  | None => Ok (mkDb (checkpoints d ++ [freshRow r t]) (roots d), 1%nat)
  | Some old =>
      if bool_decide (principal (rec old) = principal r) && negb (bool_decide (caps r = [])) && negb (capsText old)
      then Err "malformed JSON"
      else if mayMerge old r then Ok (updateRows (byId (checkpointId r)) (fun x => mergeRow x r t) d)
      else Ok (d, 0%nat)
  end.

Definition insertCheckpointStmt (r : Run) (t : Z) (d : Db) : Result Db string :=
  match getStmt (checkpointId r) d with
  | None => Ok (mkDb (checkpoints d ++ [freshRow r t]) (roots d))
  | Some _ => Err "UNIQUE constraint failed: durable_run_checkpoints.checkpoint_id"
  end.

Definition getRoot (root : string) (d : Db) : option RootRow :=
  head (filter (fun r => String.eqb (root_run_id r) root = true) (roots d)).

(** [ensureRootStmt] and [tombstoneRootStmt] *)
Definition ensureRootStmt (root : string) (d : Db) : Db :=
  match getRoot root d with
  | Some _ => d
  | None => mkDb (checkpoints d) (roots d ++ [{| root_run_id := root; revoked_at_ms := None |}])
  end.

Definition tombstoneRootStmt (root : string) (t : Z) (d : Db) : Db :=
  match getRoot root d with
  | Some _ =>
      mkDb (checkpoints d)
        ((fun r => if String.eqb (root_run_id r) root
                   then {| root_run_id := root; revoked_at_ms := orElse (revoked_at_ms r) (Some t) |} else r) <$> roots d)
  | None => mkDb (checkpoints d) (roots d ++ [{| root_run_id := root; revoked_at_ms := Some t |}])
  end.

Definition setRun (f : Run -> Run) (reason : option string) (t : Z) (r : Row) : Row :=
  mkRow (f (rec r)) (orElse reason (orphan_reason r)) (created_at_ms r) t (readable r) (capsText r).

Definition withStatus (s : Status) (reason : option Terminal) (r : Run) : Run :=
  mkRun (checkpointId r) (principal r) (spawnTree r) (caps r) (leaseIds r) (budgetConsumed r) (rootBudget r)
    (cronOrigin r) s (lastHeartbeatAt r) (scriptRef r) (checkpointRef r) (workspacePolicyHash r)
    (resumeDescriptorHash r) (orElse reason (terminalReason r)).

Definition markOrphanedStmt (reason : string) (t : Z) (cid : string) (d : Db) : Db * nat :=
  updateRows (fun r => byId cid r && isRunning r) (setRun (withStatus orphaned None) (Some reason) t) d.

Definition terminalizeStmt (reason : Terminal) (t : Z) (cid : string) (d : Db) : Db * nat :=
  updateRows (fun r => byId cid r && isRunning r) (setRun (withStatus completed (Some reason)) None t) d.

Definition repairCompletedReasonStmt (reason : Terminal) (t : Z) (cid : string) (d : Db) : Db * nat :=
  updateRows (fun r => byId cid r && bool_decide (status (rec r) = completed)
                       && bool_decide (terminalReason (rec r) = None))
    (setRun (withStatus completed (Some reason)) None t) d.

Definition withHeartbeat (h : Z) (r : Run) : Run :=
  mkRun (checkpointId r) (principal r) (spawnTree r) (caps r) (leaseIds r) (budgetConsumed r) (rootBudget r)
    (cronOrigin r) (status r) h (scriptRef r) (checkpointRef r) (workspacePolicyHash r) (resumeDescriptorHash r)
    (terminalReason r).

Definition touchHeartbeatStmt (atMs t : Z) (cid : string) (d : Db) : Db * nat :=
  updateRows (fun r => byId cid r && isRunning r) (setRun (withHeartbeat atMs) None t) d.

Definition invalidateForRevokeStmt (t : Z) (root : string) (d : Db) : Db :=
  fst (updateRows (fun r => byRoot root r && isRunning r) (setRun (withStatus revoked None) (Some "revoked") t) d).

(** ** Root authority *)

Definition rootIsRevoked (root : string) (d : Db) : Result bool string :=
  match getRoot root d with
  | None => Err ("Durable root " +:+ root +:+ " was not initialized")
  | Some r => Ok (bool_decide (revoked_at_ms r <> None))
  end.

Definition mergeBudget (a b : Budget) : Budget :=
  {| startedAtMs := Z.min (startedAtMs a) (startedAtMs b); tokensConsumed := Z.max (tokensConsumed a) (tokensConsumed b);
     usdConsumed := Z.max (usdConsumed a) (usdConsumed b) |}.

(** The loop of [readRootBudgetAuthority]. *)
Fixpoint budgetAuthority (rows : list Row) (acc : option Budget) : Result (option Budget) string :=
  match rows with
  | [] => Ok acc
  | row :: rows =>
      match rowToRecord row with
      | Err e => Err e
      | Ok r =>
          if decide (status r = running)
          then budgetAuthority rows (Some match acc with None => rootBudget r | Some a => mergeBudget a (rootBudget r) end)
          else budgetAuthority rows acc
      end
  end.

Definition readRootBudgetAuthority (root : string) (d : Db) : Result (option Budget) string :=
  budgetAuthority (filter (fun r => byRoot root r = true) (checkpoints d)) None.

Definition resetsBudget (r : Run) (a : Budget) : bool :=
  (startedAtMs a <? startedAtMs (rootBudget r)) || (tokensConsumed (rootBudget r) <? tokensConsumed a)
  || (usdConsumed (rootBudget r) <? usdConsumed a).

Definition validateRootBudgetFloor (r : Run) (d : Db) : Result unit string :=
  match readRootBudgetAuthority (rootRunId r) d with
  | Err e => Err e
  | Ok authority =>
      if match authority with Some a => resetsBudget r a | None => false end
      then Err "durable checkpoint would reset budget authority"
      else match getStmt (checkpointId r) d with
        | None => Ok tt
        | Some row =>
            match rowToRecord row with
            | Err e => Err e
            | Ok existing =>
                if lastHeartbeatAt r <? lastHeartbeatAt existing
                then Err "durable checkpoint would move its heartbeat backward" else Ok tt
            end
        end
  end.

(** ** Methods *)

(** The write of [upsertTransaction]; [d] is what an exception restores. *)
Definition writeCheckpoint (r : Run) (t : Z) (d d1 : Db) : Result unit string * Db :=
  match upsertStmt r t d1 with
  | Err e => (Err e, d)
  | Ok (d2, changes) =>
      if (changes =? 1)%nat
      then (Ok tt, if decide (status r = revoked) then invalidateForRevokeStmt t (rootRunId r) d2 else d2)
      else (Err "durable checkpoint identity mismatch", d2)
  end.

(** [upsertTransaction]: a returned error keeps what was written before it, a
    thrown one is undone. *)
Definition upsertTransaction (r : Run) (t : Z) (d : Db) : Result unit string * Db :=
  if decide (status r = revoked) then writeCheckpoint r t d (tombstoneRootStmt (rootRunId r) t d)
  else
    match validateRootBudgetFloor r d with
    | Err e => (Err e, d)
    | Ok _ =>
        let d1 := ensureRootStmt (rootRunId r) d in
        match rootIsRevoked (rootRunId r) d1 with
        | Err e => (Err e, d1)
        | Ok true => (Err "durable root is revoked", d1)
        | Ok false => writeCheckpoint r t d d1
        end
    end.

Definition upsertCheckpoint (r : Run) (now : Z) (d : Db) : Result unit string * Db :=
  match parseDurableRunRecord r with
  | Err e => (Err e, d)
  | Ok checkpoint => upsertTransaction checkpoint now d
  end.

(** The authority that claims; the root comes from the stored record. *)
Record Claim := {
  c_checkpointId : string;
  c_replacementId : string;
  c_claimedAtMs : Z;
  c_tenantId : string;
  c_agentId : string;
  c_conversationRef : string;
  c_scope : ConversationScope.Scope;
  c_principalId : string;
  c_origin : option Origin;
  c_trust : ApprovalPolicy.UserTrustLevel;
  c_caps : list Cap
}.

(** [resumeClaimSchema] *)
Definition claimValid (c : Claim) : bool :=
  nonempty (c_checkpointId c) && nonempty (c_replacementId c) && (0 <=? c_claimedAtMs c) && nonempty (c_tenantId c)
  && nonempty (c_agentId c) && ConversationScope.ConversationRefSchema (c_conversationRef c)
  && ConversationScope.ConversationScopeSchema (c_scope c) && nonempty (c_principalId c)
  && match c_origin c with None => true | Some o => originValid o end
  && negb (String.eqb (c_checkpointId c) (c_replacementId c)).

Inductive ClaimOutcome := claimed (r : Run) | not_found | not_resumable | authorization_denied.

Definition trustRank (t : ApprovalPolicy.UserTrustLevel) : Z :=
  match t with ApprovalPolicy.guest => 0 | ApprovalPolicy.user => 1 | ApprovalPolicy.admin => 2 end.

Definition authorized (r : Run) (c : Claim) : bool :=
  let p := principal r in
  String.eqb (p_tenantId p) (c_tenantId c) && String.eqb (p_agentId p) (c_agentId c)
  && String.eqb (p_conversationRef p) (c_conversationRef c) && bool_decide (p_scope p = c_scope c)
  && String.eqb (p_principalId p) (c_principalId c) && bool_decide (p_origin p = c_origin c)
  && (trustRank (p_trust p) <=? trustRank (c_trust c)).

(** The replacement of a claimed run: the capabilities the claimer still holds,
    no leases, the source's heartbeat. *)
Definition replacementOf (r : Run) (c : Claim) : Run :=
  mkRun (c_replacementId c) (principal r) (spawnTree r) (filter (fun k => k ∈ c_caps c) (caps r)) []
    (budgetConsumed r) (rootBudget r) (cronOrigin r) running (lastHeartbeatAt r) (scriptRef r) (checkpointRef r)
    (workspacePolicyHash r) (resumeDescriptorHash r) (terminalReason r).

Definition withBudget (b : Budget) (r : Run) : Run :=
  mkRun (checkpointId r) (principal r) (spawnTree r) (caps r) (leaseIds r) (usdConsumed b) b (cronOrigin r) (status r)
    (lastHeartbeatAt r) (scriptRef r) (checkpointRef r) (workspacePolicyHash r) (resumeDescriptorHash r)
    (terminalReason r).

(** The two writes of a claim. *)
Definition supersede (record replacement : Run) (claimedAtMs : Z) (d : Db) : Result ClaimOutcome string * Db :=
  let '(d1, changes) := terminalizeStmt t_superseded claimedAtMs (checkpointId record) d in
  if (changes =? 1)%nat then
    match insertCheckpointStmt replacement claimedAtMs d1 with
    | Err e => (Err e, d)
    | Ok d2 => (Ok (claimed replacement), d2)
    end
  else (Ok not_resumable, d1).

Definition claimTransaction (c : Claim) (d : Db) : Result ClaimOutcome string * Db :=
  match getStmt (c_checkpointId c) d with
  | None => (Ok not_found, d)
  | Some row =>
      match rowToRecord row with
      | Err e => (Err e, d)
      | Ok record =>
          match rootIsRevoked (rootRunId record) d with
          | Err e => (Err e, d)
          | Ok isRevoked =>
              if isRevoked || negb (bool_decide (status record = running)) then (Ok not_resumable, d)
              else if c_claimedAtMs c <? lastHeartbeatAt record
              then (Err "durable resume claim would move the heartbeat backward", d)
              else if negb (authorized record c) then (Ok authorization_denied, d)
              else match getStmt (c_replacementId c) d with
                | Some target => (if readable target then Ok not_resumable else Err "Row validation failed", d)
                | None =>
                    match readRootBudgetAuthority (rootRunId record) d with
                    | Err e => (Err e, d)
                    | Ok None => (Err "Durable root has no checkpoint budget authority", d)
                    | Ok (Some b) =>
                        match parseDurableRunRecord (withBudget b record) with
                        | Err e => (Err e, d)
                        | Ok authoritative =>
                            match parseDurableRunRecord (replacementOf authoritative c) with
                            | Err e => (Err e, d)
                            | Ok replacement => supersede record replacement (c_claimedAtMs c) d
                            end
                        end
                    end
                end
          end
      end
  end.

Definition claimForResume (c : Claim) (d : Db) : Result ClaimOutcome string * Db :=
  if claimValid c then claimTransaction c d else (Err "durable resume claim validation failed", d).

Definition markOrphaned (cid reason : string) (now : Z) (d : Db) : Result unit string * Db :=
  (Ok tt, fst (markOrphanedStmt reason now cid d)).

Inductive TerminalOutcome := terminalized | already_terminal | t_not_found.

(** [terminalizeTransaction] *)
Definition terminalize (cid : string) (reason : Terminal) (now : Z) (d : Db) : Result TerminalOutcome string * Db :=
  match getStmt cid d with
  | None => (Ok t_not_found, d)
  | Some row =>
      match rowToRecord row with
      | Err e => (Err e, d)
      | Ok record =>
          match status record with
          | completed =>
              match terminalReason record with
              | Some r => (if decide (r = reason) then Ok already_terminal else Err "durable checkpoint is already terminal", d)
              | None =>
                  let '(d1, changes) := repairCompletedReasonStmt reason now cid d in
                  (if (changes =? 1)%nat then Ok terminalized else Err "terminal reason repair lost its CAS", d1)
              end
          | running =>
              let '(d1, changes) := terminalizeStmt reason now cid d in
              (if (changes =? 1)%nat then Ok terminalized else Err "terminalization lost its CAS", d1)
          | _ => (Ok already_terminal, d)
          end
      end
  end.

Definition touchHeartbeat (cid : string) (atMs now : Z) (d : Db) : Result unit string * Db :=
  let '(d1, changes) := touchHeartbeatStmt atMs now cid d in
  (if (changes =? 1)%nat then Ok tt else Err "durable checkpoint is not running", d1).

(** [revokeTransaction] *)
Definition invalidateForRevoke (root : string) (now : Z) (d : Db) : Result unit string * Db :=
  (Ok tt, invalidateForRevokeStmt now root (tombstoneRootStmt root now d)).

Definition getByCheckpoint (cid : string) (d : Db) : Result (option Run) string :=
  match getStmt cid d with
  | None => Ok None
  | Some row => match rowToRecord row with Ok r => Ok (Some r) | Err e => Err e end
  end.

(** [ORDER BY last_heartbeat_at ASC] *)
Fixpoint insertByHeartbeat (r : Row) (l : list Row) : list Row :=
  match l with
  | [] => [r]
  | x :: l' => if lastHeartbeatAt (rec r) <=? lastHeartbeatAt (rec x) then r :: l else x :: insertByHeartbeat r l'
  end.

(** [DurableRunResumeScan]; an invalid row by its checkpoint and root. *)
Record Scan := { records : list Run; invalid : list (string * string) }.

Definition listResumable (d : Db) : Result Scan string :=
  let rows := foldr insertByHeartbeat [] (filter (fun r => isRunning r = true) (checkpoints d)) in
  Ok {| records := omap (fun r => match rowToRecord r with Ok x => Some x | Err _ => None end) rows;
        invalid := omap (fun r => match rowToRecord r with
          | Ok _ => None | Err _ => Some (checkpointId (rec r), rootRunId (rec r)) end) rows |}.

(** [countByStatus]: orphaned, revoked, running, completed. *)
Definition countByStatus (sinceMs : Z) (d : Db) : nat * nat * nat * nat :=
  let n s := length (filter (fun r => sinceMs <= updated_at_ms r /\ status (rec r) = s) (checkpoints d)) in
  (n orphaned, n revoked, n running, n completed).
End Store.
End DurableRuns.
