(* ===== verification/DurableRunsFacts.v ===== *)
(** * What the durable run store preserves

  The unique checkpoint ids, what each method may do to the row of an id, and
  histories of calls by any number of processes. *)

From S2P Require Import Prelude ConversationScope TaskTypes ApprovalPolicy ExecutionGraph DurableRuns.

Open Scope string_scope.
Open Scope list_scope.
Open Scope Z_scope.

Module DurableRunsFacts.
Import DurableRuns.

Definition idOf (r : Row) : string := checkpointId (rec r).

(** The primary key. *)
Definition Keyed (d : Db) : Prop := NoDup (idOf <$> checkpoints d).

Lemma byId_iff cid r : byId cid r = true <-> idOf r = cid.
Proof. unfold byId. by rewrite String.eqb_eq. Qed.

Lemma getStmt_Some cid d r : getStmt cid d = Some r -> r ∈ checkpoints d /\ idOf r = cid.
Proof.
  unfold getStmt. intros H. assert (r ∈ filter (fun r => byId cid r = true) (checkpoints d)) as Hr.
  { destruct (filter _ _); [done|]. injection H as ->. left. }
  apply list_elem_of_filter in Hr as [Hr%byId_iff ?]. done.
Qed.

Lemma getStmt_None cid d : getStmt cid d = None <-> forall r, r ∈ checkpoints d -> idOf r <> cid.
Proof.
  unfold getStmt. rewrite head_None. split.
  - intros H r Hr E. apply byId_iff in E. assert (r ∈ filter (fun r => byId cid r = true) (checkpoints d)) as Hf
      by by apply list_elem_of_filter. rewrite H in Hf. by apply not_elem_of_nil in Hf.
  - intros H. destruct (filter _ _) as [|x l] eqn:E; [done|].
    assert (x ∈ filter (fun r => byId cid r = true) (checkpoints d)) as Hf by (rewrite E; left).
    apply list_elem_of_filter in Hf as [Hx%byId_iff Hx']. by destruct (H x Hx').
Qed.

Lemma getStmt_in r d : Keyed d -> r ∈ checkpoints d -> getStmt (idOf r) d = Some r.
Proof.
  unfold Keyed, getStmt. induction (checkpoints d) as [|x l IH]; [by intros _ ?%not_elem_of_nil|].
  rewrite fmap_cons. intros [Hx Hn]%NoDup_cons Hr. rewrite filter_cons. apply elem_of_cons in Hr as [-> | Hr].
  - rewrite decide_True by by apply byId_iff. done.
  - rewrite decide_False; [by apply IH|]. rewrite byId_iff. intros E. apply Hx. rewrite E. by apply list_elem_of_fmap_2.
Qed.

(** The rows an id selects. *)
Lemma keyed_count q cid row d :
  Keyed d -> getStmt cid d = Some row -> q row = true ->
  length (filter (fun r => byId cid r && q r = true) (checkpoints d)) = 1%nat.
Proof.
  unfold Keyed, getStmt. induction (checkpoints d) as [|x l IH]; [done|]. rewrite fmap_cons, !filter_cons.
  intros [Hx Hn]%NoDup_cons. case_decide as H1.
  - intros [= ->] Hq. rewrite decide_True by by rewrite H1, Hq. simpl. f_equal.
    destruct (filter (fun r => byId cid r && q r = true) l) as [|y l'] eqn:Ef; [done|].
    assert (y ∈ filter (fun r => byId cid r && q r = true) l) as Hy by (rewrite Ef; left).
    apply list_elem_of_filter in Hy as [[Hy _]%andb_true_iff Hin]. apply byId_iff in H1, Hy.
    exfalso. apply Hx. rewrite H1, <- Hy. by apply list_elem_of_fmap_2.
  - intros Hg Hq. rewrite decide_False by (rewrite andb_true_iff; naive_solver). by apply IH.
Qed.

(** ** The two ways to write *)

Section Update.
Context (p : Row -> bool) (f : Row -> Row).
Hypothesis Hf : forall r, idOf (f r) = idOf r.

Lemma updateRows_ids d : idOf <$> checkpoints (updateRows p f d).1 = idOf <$> checkpoints d.
Proof.
  simpl. rewrite <- list_fmap_compose. apply list_fmap_ext. intros _ x _. simpl. destruct (p x); [apply Hf|done].
Qed.

Lemma updateRows_keyed d : Keyed d -> Keyed (updateRows p f d).1.
Proof. unfold Keyed. by rewrite updateRows_ids. Qed.

Lemma getStmt_updateRows cid d :
  getStmt cid (updateRows p f d).1 = (fun r => if p r then f r else r) <$> getStmt cid d.
Proof.
  unfold getStmt, updateRows. cbn [fst checkpoints]. induction (checkpoints d) as [|x l IH]; [done|].
  rewrite fmap_cons, !filter_cons.
  assert (byId cid (if p x then f x else x) = byId cid x) as E
    by (unfold byId; destruct (p x); [change (checkpointId (rec (f x))) with (idOf (f x)); by rewrite Hf|done]).
  by repeat case_decide; try congruence.
Qed.
End Update.

Lemma insert_keyed r t d : Keyed d -> getStmt (checkpointId r) d = None -> Keyed (mkDb (checkpoints d ++ [freshRow r t]) (roots d)).
Proof.
  unfold Keyed. simpl. intros Hk Hn. rewrite fmap_app. apply NoDup_app. split; [done|]. split; [|apply NoDup_singleton].
  intros c Hc ->%list_elem_of_singleton. apply list_elem_of_fmap in Hc as (x & E & Hx).
  rewrite getStmt_None in Hn. by apply (Hn x).
Qed.

Lemma getStmt_insert cid r t d rs :
  getStmt (checkpointId r) d = None ->
  getStmt cid (mkDb (checkpoints d ++ [freshRow r t]) rs) =
  if decide (cid = checkpointId r) then Some (freshRow r t) else getStmt cid d.
Proof.
  intros Hn. unfold getStmt in *. simpl. rewrite filter_app, filter_cons, filter_nil.
  case_decide as H1; case_decide as H2.
  - subst. rewrite head_app. by rewrite head_None in Hn; rewrite Hn.
  - apply byId_iff in H1. unfold idOf in H1. simpl in H1. congruence.
  - rewrite byId_iff in H1. unfold idOf in H1. simpl in H1. congruence.
  - by rewrite app_nil_r.
Qed.

(** ** The fate of a row *)

(** What any write may do to a row: keep its principal, drop capabilities, and
    leave a terminal status alone. *)
Definition Narrows (r r' : Row) : Prop :=
  principal (rec r') = principal (rec r) /\ caps (rec r') ⊆ caps (rec r)
  /\ (status (rec r) <> running -> status (rec r') = status (rec r)).

#[global] Instance Narrows_preorder : PreOrder Narrows.
Proof.
  split; [by intros r|]. intros x y z (Hp & Hc & Hs) (Hp' & Hc' & Hs').
  split; [congruence|]. split; [set_solver|]. intros H. rewrite Hs'; rewrite Hs; done.
Qed.

(** A stored row never disappears. *)
Definition Evolves (x y : option Row) : Prop :=
  match x with None => True | Some r => exists r', y = Some r' /\ Narrows r r' end.

#[global] Instance Evolves_preorder : PreOrder Evolves.
Proof.
  split; [by intros [r|]; [exists r|]|]. intros [x|] y z; [|done]. intros (r' & -> & H) (r'' & -> & H').
  exists r''. split; [done|]. by transitivity r'.
Qed.

Definition RevokedRoot (root : string) (d : Db) : Prop := rootIsRevoked root d = Ok true.

(** ** Writes *)

(** Every method is a sequence of these; [grant] holds of the records a caller
    hands to the store. *)
Inductive Write (grant : Run -> Prop) (d : Db) : Db -> Prop :=
| w_update p f :
    (forall r, idOf (f r) = idOf r) -> (forall r, r ∈ checkpoints d -> p r = true -> Narrows r (f r)) ->
    Write grant d (updateRows p f d).1
| w_insert r t :
    getStmt (checkpointId r) d = None ->
    (status r = running -> ~ RevokedRoot (rootRunId r) d) ->
    grant r \/ (exists x, x ∈ checkpoints d /\ principal r = principal (rec x) /\ caps r ⊆ caps (rec x)) ->
    Write grant d (mkDb (checkpoints d ++ [freshRow r t]) (roots d))
| w_roots rs :
    (forall root, RevokedRoot root d -> RevokedRoot root (mkDb (checkpoints d) rs)) ->
    Write grant d (mkDb (checkpoints d) rs).

Definition Writes (grant : Run -> Prop) : Db -> Db -> Prop := rtc (Write grant).

Lemma Write_keyed g d d' : Write g d d' -> Keyed d -> Keyed d'.
Proof. intros [p f Hi _|r t Hn _ _|rs _] Hk; [by apply updateRows_keyed|by apply insert_keyed|done]. Qed.

Lemma Write_evolves g d d' cid : Write g d d' -> Evolves (getStmt cid d) (getStmt cid d').
Proof.
  intros [p f Hi Hf|r t Hn _ _|rs _]; [| |done].
  - rewrite getStmt_updateRows by done. destruct (getStmt cid d) as [r|] eqn:G; [|done]. apply getStmt_Some in G as [G _].
    simpl. eexists. split; [done|]. destruct (p r) eqn:E; [by apply Hf|done].
  - rewrite getStmt_insert by done. case_decide; [|done]. subst. by rewrite Hn.
Qed.

Lemma Writes_keyed g d d' : Writes g d d' -> Keyed d -> Keyed d'.
Proof. induction 1; eauto using Write_keyed. Qed.

Lemma Writes_evolves g d d' cid : Writes g d d' -> Evolves (getStmt cid d) (getStmt cid d').
Proof. induction 1 as [|x y z H _ IH]; [done|]. transitivity (getStmt cid y); [by eapply Write_evolves|done]. Qed.

(** A revoked tree: its root has a tombstone and none of its rows runs. *)
Definition Dead (root : string) (d : Db) : Prop :=
  RevokedRoot root d /\ forall r, r ∈ checkpoints d -> rootRunId (rec r) = root -> status (rec r) <> running.

Lemma Write_dead g d d' root : Write g d d' -> Dead root d -> Dead root d'.
Proof.
  intros [p f Hi Hf|r t Hn Hs _|rs Hr] [Ht Hd]; (split; [by eauto|]); [| |done].
  - intros r' (r & -> & Hr)%list_elem_of_fmap. destruct (p r) eqn:E; [|by apply Hd].
    destruct (Hf r Hr E) as (Hp & _ & Hst). unfold rootRunId. rewrite Hp. intros Hroot. rewrite Hst; by apply Hd.
  - intros r' [Hr | ->%list_elem_of_singleton]%elem_of_app; [by apply Hd|]. simpl. intros <- Hrun. by apply Hs.
Qed.

Lemma Writes_dead g d d' root : Writes g d d' -> Dead root d -> Dead root d'.
Proof. induction 1; eauto using Write_dead. Qed.

(** Where the authority of a row comes from. *)
Definition Granted (base : Run -> Prop) (d : Db) : Prop :=
  forall r, r ∈ checkpoints d -> exists g, base g /\ principal (rec r) = principal g /\ caps (rec r) ⊆ caps g.

Lemma Write_granted (g base : Run -> Prop) d d' :
  (forall r, g r -> base r) -> Write g d d' -> Granted base d -> Granted base d'.
Proof.
  intros Hg [p f Hi Hf|r t Hn Hs Hr|rs _] Hd; [| |done].
  - intros r' (r & -> & Hr)%list_elem_of_fmap. destruct (Hd r Hr) as (b & Hb & Hp & Hc). exists b. split; [done|].
    destruct (p r) eqn:E; [|done]. destruct (Hf r Hr E) as (Hp' & Hc' & _). split; [congruence|set_solver].
  - intros r' [Hr' | ->%list_elem_of_singleton]%elem_of_app; [by apply Hd|]. simpl.
    destruct Hr as [Hr|(x & Hx & Hp & Hc)]; [exists r; auto|]. destruct (Hd x Hx) as (b & Hb & Hp' & Hc').
    exists b. split; [done|]. split; [congruence|set_solver].
Qed.

Lemma Writes_granted (g base : Run -> Prop) d d' :
  (forall r, g r -> base r) -> Writes g d d' -> Granted base d -> Granted base d'.
Proof. intros Hg. induction 1; eauto using Write_granted. Qed.
End DurableRunsFacts.
