(* ===== verification/DurableRunsHistory.v ===== *)
(** * Histories of the durable run store

  Any sequence of calls by any number of processes, each call one transaction,
  and what every call is made of. *)

From S2P Require Import Prelude ConversationScope TaskTypes ApprovalPolicy ExecutionGraph DurableRuns DurableRunsFacts.

Open Scope string_scope.
Open Scope list_scope.
Open Scope Z_scope.

Module DurableRunsHistory.
Import DurableRuns DurableRunsFacts.

(** ** Roots *)

Lemma RevokedRoot_iff root d :
  RevokedRoot root d <-> exists x t, getRoot root d = Some x /\ revoked_at_ms x = Some t.
Proof.
  unfold RevokedRoot, rootIsRevoked. destruct (getRoot root d) as [x|]; [|naive_solver].
  destruct (revoked_at_ms x) as [t|] eqn:E; simpl; [|naive_solver].
  split; [|done]. intros _. by exists x, t.
Qed.

Lemma getRoot_app root cs rs new :
  getRoot root (mkDb cs (rs ++ [new])) =
  match getRoot root (mkDb cs rs) with Some x => Some x | None => if String.eqb (root_run_id new) root then Some new else None end.
Proof.
  unfold getRoot. simpl. rewrite filter_app, head_app. destruct (head (filter _ rs)); [done|].
  rewrite filter_cons, filter_nil. case_decide as H; [by rewrite H|]. by destruct (_ =? _)%string.
Qed.

Lemma getRoot_map root cs rs f :
  (forall x, root_run_id (f x) = root_run_id x) -> getRoot root (mkDb cs (f <$> rs)) = f <$> getRoot root (mkDb cs rs).
Proof.
  intros Hf. unfold getRoot. simpl. induction rs as [|x rs IH]; [done|]. rewrite fmap_cons, !filter_cons, Hf.
  by case_decide.
Qed.

(** The two statements that write roots. *)
Section Roots.
Context (g : Run -> Prop) (root : string) (t : Z) (d : Db).

Lemma ensureRoot_write : Writes g d (ensureRootStmt root d).
Proof.
  unfold ensureRootStmt. destruct (getRoot root d) eqn:E; [apply rtc_refl|]. apply rtc_once, w_roots. intros root'.
  rewrite !RevokedRoot_iff, getRoot_app. destruct d as [cs rs]. simpl. by intros (x & v & -> & ?); exists x, v.
Qed.

Lemma tombstone_write : Writes g d (tombstoneRootStmt root t d).
Proof.
  unfold tombstoneRootStmt. destruct (getRoot root d) eqn:E; apply rtc_once, w_roots; intros root';
    rewrite !RevokedRoot_iff; destruct d as [cs rs]; simpl.
  - rewrite getRoot_map.
    + intros (x & v & -> & Hv). simpl. rewrite Hv. destruct (_ =? _)%string; eauto.
    + intros x. destruct (root_run_id x =? root)%string eqn:Ex; [|done]. by apply String.eqb_eq in Ex.
  - rewrite getRoot_app. by intros (x & v & -> & ?); exists x, v.
Qed.

Lemma tombstone_revokes : RevokedRoot root (tombstoneRootStmt root t d).
Proof.
  unfold tombstoneRootStmt. destruct (getRoot root d) as [x|] eqn:E; rewrite RevokedRoot_iff; destruct d as [cs rs]; simpl.
  - rewrite getRoot_map.
    + rewrite E. assert (root_run_id x = root) as Hx.
      { unfold getRoot in E. simpl in E. apply head_Some_elem_of, list_elem_of_filter in E as [E _].
        by apply String.eqb_eq in E. }
      simpl. rewrite Hx, String.eqb_refl. destruct (revoked_at_ms x) eqn:Ex; simpl; eauto.
    + intros y. destruct (root_run_id y =? root)%string eqn:Ey; [|done]. by apply String.eqb_eq in Ey.
  - rewrite getRoot_app, E. simpl. rewrite String.eqb_refl. eauto.
Qed.
End Roots.

Lemma roots_same root d d' : roots d = roots d' -> RevokedRoot root d <-> RevokedRoot root d'.
Proof. unfold RevokedRoot, rootIsRevoked, getRoot. by intros ->. Qed.

(** ** Status updates *)

Lemma setRun_narrows f reason t (r : Row) :
  principal (f (rec r)) = principal (rec r) -> caps (f (rec r)) = caps (rec r) ->
  (status (rec r) <> running -> status (f (rec r)) = status (rec r)) -> Narrows r (setRun f reason t r).
Proof. intros Hp Hc Hs. unfold Narrows, setRun. cbn [rec]. rewrite Hp, Hc. done. Qed.

Lemma isRunning_iff r : isRunning r = true <-> status (rec r) = running.
Proof. unfold isRunning. by rewrite bool_decide_eq_true. Qed.

(** An update of running rows that keeps principal and capabilities. *)
Lemma running_update_write g p f reason t d :
  (forall r, p r = true -> isRunning r = true \/ status (f (rec r)) = status (rec r)) ->
  (forall r, checkpointId (f r) = checkpointId r /\ principal (f r) = principal r /\ caps (f r) = caps r) ->
  Write g d (updateRows p (setRun f reason t) d).1.
Proof.
  intros Hr Hf. apply w_update; [by intros r; apply (Hf (rec r))|]. intros r _ Hp. destruct (Hf (rec r)) as (_ & Hp' & Hc).
  apply setRun_narrows; [done..|]. intros Hn. destruct (Hr r Hp) as [H%isRunning_iff|H]; done.
Qed.

Ltac status_update :=
  apply running_update_write; [|done]; intros r H; rewrite ?andb_true_iff, ?bool_decide_eq_true in H; naive_solver.

Lemma markOrphaned_write g reason t cid d : Write g d (markOrphanedStmt reason t cid d).1.
Proof. status_update. Qed.

Lemma terminalizeStmt_write g reason t cid d : Write g d (terminalizeStmt reason t cid d).1.
Proof. status_update. Qed.

Lemma repair_write g reason t cid d : Write g d (repairCompletedReasonStmt reason t cid d).1.
Proof. status_update. Qed.

Lemma touch_write g h t cid d : Write g d (touchHeartbeatStmt h t cid d).1.
Proof. status_update. Qed.

Lemma invalidate_write g t root d : Write g d (invalidateForRevokeStmt t root d).
Proof. status_update. Qed.

(** Revoking leaves no running row under the root. *)
Lemma invalidate_dead root t d : RevokedRoot root d -> Dead root (invalidateForRevokeStmt t root d).
Proof.
  intros Hr. split; [done|]. intros r' (r & -> & Hr')%list_elem_of_fmap. unfold byRoot.
  destruct (rootRunId (rec r) =? root)%string eqn:E; simpl; [|by apply String.eqb_neq in E].
  destruct (isRunning r) eqn:Er; [done|]. intros _ H%isRunning_iff. congruence.
Qed.

(** ** Upserts *)

Lemma mayMerge_narrows old r t : mayMerge old r = true -> Narrows old (mergeRow old r t).
Proof.
  unfold mayMerge. rewrite andb_true_iff, bool_decide_eq_true, forallb_forall. intros [Hp Hc]. unfold mergeRow, isTerminal.
  case_bool_decide as Hs; simpl; [|done]. split; [done|]. split; [|done]. simpl. intros c Hin.
  apply list_elem_of_In, Hc in Hin. by apply bool_decide_eq_true in Hin.
Qed.

Lemma upsertStmt_writes r t d d' n :
  Keyed d -> upsertStmt r t d = Ok (d', n) -> (status r = running -> ~ RevokedRoot (rootRunId r) d) ->
  Writes (fun x => n = 1%nat /\ x = r) d d'.
Proof.
  intros Hk H Hs. unfold upsertStmt in H. destruct (getStmt (checkpointId r) d) as [old|] eqn:E.
  - destruct (_ && _ && _); [done|]. destruct (mayMerge old r) eqn:Em; [|injection H as <- <-; apply rtc_refl].
    injection H as <- _. apply rtc_once. refine (w_update _ _ _ _ _ _).
    + intros x. unfold mergeRow. by destruct (isTerminal _).
    + intros x Hx Hb%byId_iff. apply mayMerge_narrows. apply (getStmt_in _ _ Hk) in Hx. congruence.
  - injection H as <- <-. apply rtc_once. apply w_insert; auto.
Qed.

Lemma Writes_mono (g h : Run -> Prop) d d' : (forall r, g r -> h r) -> Writes g d d' -> Writes h d d'.
Proof.
  intros Hgh. induction 1 as [|x y z H _ IH]; [apply rtc_refl|]. eapply rtc_l; [|exact IH].
  destruct H as [p f Hi Hf|r t Hn Hs [Hr|Hr]|rs Hr]; [by apply w_update|..]; apply w_insert || apply w_roots; auto.
Qed.

(** ** Calls *)

Section Calls.
Variable digest : string -> string.

Inductive Op :=
| OUpsert (r : Run) (now : Z)
| OClaim (c : Claim)
| OOrphan (cid reason : string) (now : Z)
| OTerminalize (cid : string) (reason : Terminal) (now : Z)
| OTouch (cid : string) (atMs now : Z)
| ORevoke (root : string) (now : Z).

Inductive Reply :=
| RUnit (x : Result unit string)
| RClaim (x : Result ClaimOutcome string)
| RTerminal (x : Result TerminalOutcome string).

Definition exec (o : Op) (d : Db) : Reply * Db :=
  match o with
  | OUpsert r now => let '(x, d') := upsertCheckpoint digest r now d in (RUnit x, d')
  | OClaim c => let '(x, d') := claimForResume digest c d in (RClaim x, d')
  | OOrphan cid reason now => let '(x, d') := markOrphaned cid reason now d in (RUnit x, d')
  | OTerminalize cid reason now => let '(x, d') := terminalize digest cid reason now d in (RTerminal x, d')
  | OTouch cid atMs now => let '(x, d') := touchHeartbeat cid atMs now d in (RUnit x, d')
  | ORevoke root now => let '(x, d') := invalidateForRevoke root now d in (RUnit x, d')
  end.

(** The calls of a history with their replies, and the final tables. *)
Fixpoint history (ops : list Op) (d : Db) : list (Op * Reply) * Db :=
  match ops with
  | [] => ([], d)
  | o :: ops =>
      let '(x, d1) := exec o d in let '(log, d2) := history ops d1 in ((o, x) :: log, d2)
  end.

(** The record a call hands to the store, when the store accepts it. *)
Definition granted (o : Op) (x : Reply) (r : Run) : Prop :=
  match o, x with OUpsert r' _, RUnit (Ok _) => r = r' | _, _ => False end.

Lemma parse_Ok r r' : parseDurableRunRecord digest r = Ok r' -> r' = r /\ recordValid digest r = true.
Proof. unfold parseDurableRunRecord. destruct (recordValid digest r); by intros [= <-]. Qed.

Lemma rowToRecord_Ok row r : rowToRecord digest row = Ok r -> r = rec row /\ recordValid digest r = true.
Proof. unfold rowToRecord. destruct (readable row); [|done]. intros H. destruct (parse_Ok _ _ H) as [-> ?]. done. Qed.

Lemma writeCheckpoint_writes r now d d1 x d' :
  Keyed d -> Writes (fun _ => False) d d1 -> (status r = running -> ~ RevokedRoot (rootRunId r) d1) ->
  writeCheckpoint r now d d1 = (x, d') -> Writes (fun y => x = Ok tt /\ y = r) d d'.
Proof.
  intros Hk H1 Hr Hu. unfold writeCheckpoint in Hu.
  destruct (upsertStmt r now d1) as [[d2 n]|] eqn:E; [|by injection Hu as <- <-; apply rtc_refl].
  apply upsertStmt_writes in E; [|by eapply Writes_keyed|done].
  transitivity d1; [eapply Writes_mono; [|exact H1]; done|]. destruct (n =? 1)%nat eqn:En; injection Hu as <- <-.
  - assert (Writes (fun y => Ok (E := string) tt = Ok tt /\ y = r) d1 d2) as E2
      by (eapply Writes_mono; [|exact E]; by intros y [_ ->]).
    case_decide; [|done]. eapply rtc_r; [exact E2|]. apply invalidate_write.
  - eapply Writes_mono; [|exact E]. intros y [-> _]. done.
Qed.

Lemma upsert_writes r now d x d' :
  Keyed d -> upsertTransaction digest r now d = (x, d') -> Writes (fun y => x = Ok tt /\ y = r) d d'.
Proof.
  intros Hk H. unfold upsertTransaction in H. case_decide as Hs.
  - eapply writeCheckpoint_writes; [done|apply tombstone_write| |exact H]. congruence.
  - destruct (validateRootBudgetFloor digest r d); [|injection H as <- <-; apply rtc_refl]. cbv zeta in H.
    destruct (rootIsRevoked _ _) as [[]|] eqn:Er; try (injection H as <- <-; apply ensureRoot_write).
    eapply writeCheckpoint_writes; [done|apply ensureRoot_write| |exact H]. unfold RevokedRoot. congruence.
Qed.

(** What a granted claim did. *)
Record Claimed (c : Claim) (r : Run) (d d' : Db) : Prop := {
  cl_source : exists row b, getStmt (c_checkpointId c) d = Some row /\ rowToRecord digest row = Ok (rec row)
    /\ status (rec row) = running /\ authorized (rec row) c = true /\ lastHeartbeatAt (rec row) <= c_claimedAtMs c
    /\ rootIsRevoked (rootRunId (rec row)) d = Ok false
    /\ readRootBudgetAuthority digest (rootRunId (rec row)) d = Ok (Some b)
    /\ r = replacementOf (withBudget b (rec row)) c;
  cl_fresh : getStmt (c_replacementId c) d = None;
  cl_valid : recordValid digest r = true;
  cl_after : d' = mkDb (checkpoints (terminalizeStmt t_superseded (c_claimedAtMs c) (c_checkpointId c) d).1
                        ++ [freshRow r (c_claimedAtMs c)]) (roots d)
}.

Lemma supersede_claims row replacement t d :
  Keyed d -> getStmt (idOf row) d = Some row -> status (rec row) = running ->
  getStmt (checkpointId replacement) d = None ->
  supersede (rec row) replacement t d =
  (Ok (claimed replacement),
   mkDb (checkpoints (terminalizeStmt t_superseded t (idOf row) d).1 ++ [freshRow replacement t]) (roots d)).
Proof.
  intros Hk Hg Hs Hn. unfold supersede, terminalizeStmt, insertCheckpointStmt. fold (idOf row).
  rewrite (surjective_pairing (updateRows _ _ _)). unfold updateRows at 1. cbn [snd].
  rewrite (keyed_count isRunning (idOf row) row d Hk Hg) by by apply isRunning_iff.
  rewrite Nat.eqb_refl, getStmt_updateRows, Hn by done. done.
Qed.

(** A claim either does all of its work or none. *)
Lemma claim_cases c d x d' :
  Keyed d -> claimForResume digest c d = (x, d') ->
  (exists r, x = Ok (claimed r) /\ Claimed c r d d') \/ (d' = d /\ forall r, x <> Ok (claimed r)).
Proof.
  intros Hk H. unfold claimForResume in H. destruct (claimValid c); [|injection H as <- <-; by right].
  unfold claimTransaction in H.
  destruct (getStmt (c_checkpointId c) d) as [row|] eqn:Es; [|injection H as <- <-; by right].
  destruct (rowToRecord digest row) as [record|] eqn:Er; [|injection H as <- <-; by right].
  pose proof (rowToRecord_Ok _ _ Er) as [-> _].
  destruct (rootIsRevoked _ d) as [isr|] eqn:Ev; [|injection H as <- <-; by right].
  destruct (isr || _) eqn:Eo; [injection H as <- <-; by right|]. apply orb_false_iff in Eo as [-> Eo].
  apply negb_false_iff, bool_decide_eq_true in Eo.
  destruct (_ <? _) eqn:Eh; [injection H as <- <-; by right|]. apply Z.ltb_ge in Eh.
  destruct (authorized _ c) eqn:Ea; [|injection H as <- <-; by right]. cbn [negb] in H.
  destruct (getStmt (c_replacementId c) d) as [target|] eqn:Et;
    [destruct (readable target); injection H as <- <-; by right|].
  destruct (readRootBudgetAuthority _ _ d) as [[b|]|] eqn:Eb; [|injection H as <- <-; by right..].
  destruct (parseDurableRunRecord _ (withBudget b _)) as [a|] eqn:E1; [|injection H as <- <-; by right].
  apply parse_Ok in E1 as [-> _].
  destruct (parseDurableRunRecord _ (replacementOf _ c)) as [r|] eqn:E2; [|injection H as <- <-; by right].
  apply parse_Ok in E2 as [-> Hv]. pose proof (getStmt_Some _ _ _ Es) as [_ Hid].
  rewrite supersede_claims in H; [|done|by rewrite Hid|done|done]. injection H as <- <-. left.
  eexists. split; [done|]. split; [by exists row, b|done..|by rewrite Hid].
Qed.

Lemma Claimed_writes c r d d' : Claimed c r d d' -> Writes (fun _ => False) d d'.
Proof.
  intros [(row & b & Hg & _ & Hs & _ & _ & Hr & _ & ->) Hf _ ->].
  set (d1 := (terminalizeStmt t_superseded (c_claimedAtMs c) (c_checkpointId c) d).1).
  eapply rtc_l; [apply (terminalizeStmt_write _ t_superseded (c_claimedAtMs c) (c_checkpointId c))|]. fold d1.
  assert (getStmt (c_checkpointId c) d1 = Some (setRun (withStatus completed (Some t_superseded)) None (c_claimedAtMs c) row)) as Hg1.
  { unfold d1, terminalizeStmt. rewrite getStmt_updateRows, Hg by done. simpl. apply getStmt_Some in Hg as [_ Hid%byId_iff].
    apply isRunning_iff in Hs. by rewrite Hid, Hs. }
  apply rtc_once, (w_insert _ d1).
  - unfold d1, terminalizeStmt. rewrite getStmt_updateRows by done. cbn [replacementOf checkpointId]. by rewrite Hf.
  - unfold rootRunId. simpl. intros _ Hc. unfold RevokedRoot in Hc. change (rootIsRevoked _ d1) with (rootIsRevoked (rootRunId (rec row)) d) in Hc.
    congruence.
  - right. eexists. split; [by apply getStmt_Some in Hg1 as [? _]|]. split; [done|]. simpl.
    intros k [_ Hk]%list_elem_of_filter. done.
Qed.

Lemma terminalize_writes g cid reason now d : Writes g d (terminalize digest cid reason now d).2.
Proof.
  unfold terminalize. destruct (getStmt cid d) as [row|]; [|apply rtc_refl].
  destruct (rowToRecord digest row) as [r|]; [|apply rtc_refl].
  destruct (status r); [|apply rtc_refl| |apply rtc_refl].
  - pose proof (terminalizeStmt_write g reason now cid d). destruct (terminalizeStmt _ _ _ d). by apply rtc_once.
  - destruct (terminalReason r); [apply rtc_refl|]. pose proof (repair_write g reason now cid d).
    destruct (repairCompletedReasonStmt _ _ _ d). by apply rtc_once.
Qed.

(** Every call is a sequence of writes that inserts only what it was granted or
    what a stored row already held. *)
Lemma exec_writes o d x d' : Keyed d -> exec o d = (x, d') -> Writes (granted o x) d d'.
Proof.
  intros Hk. destruct o as [r now|c|cid reason now|cid reason now|cid atMs now|root now]; simpl.
  - unfold upsertCheckpoint. destruct (parseDurableRunRecord digest r) as [r'|] eqn:E;
      [|intros [= <- <-]; apply rtc_refl].
    apply parse_Ok in E as [-> _]. destruct (upsertTransaction digest r now d) as [y d2] eqn:Eu. intros [= <- <-].
    eapply Writes_mono; [|by eapply upsert_writes]. by intros z [-> ->].
  - destruct (claimForResume digest c d) as [y d2] eqn:E. intros [= <- <-].
    destruct (claim_cases _ _ _ _ Hk E) as [(r & -> & H)|[-> _]]; [|apply rtc_refl].
    eapply Writes_mono; [|by eapply Claimed_writes]. done.
  - intros [= <- <-]. apply rtc_once, markOrphaned_write.
  - pose proof (fun g => terminalize_writes g cid reason now d) as H.
    destruct (terminalize digest cid reason now d). intros [= <- <-]. apply H.
  - intros [= <- <-]. apply rtc_once, (touch_write _ atMs now cid d).
  - intros [= <- <-]. eapply rtc_r; [apply tombstone_write|]. apply invalidate_write.
Qed.

(** ** Histories *)

Definition grantedBy (log : list (Op * Reply)) (r : Run) : Prop := exists o x, (o, x) ∈ log /\ granted o x r.

Lemma history_writes ops d log d' :
  Keyed d -> history ops d = (log, d') -> Writes (grantedBy log) d d'.
Proof.
  revert d log. induction ops as [|o ops IH]; intros d log Hk H; simpl in H; [injection H as <- <-; apply rtc_refl|].
  destruct (exec o d) as [x d1] eqn:E. destruct (history ops d1) as [log2 d2] eqn:E2. injection H as <- <-.
  pose proof (exec_writes _ _ _ _ Hk E) as Hw. transitivity d1.
  - eapply Writes_mono; [|exact Hw]. intros r Hr. exists o, x. split; [left|done].
  - eapply Writes_mono; [|apply (IH d1)]; [|by eapply Writes_keyed|done].
    intros r (o' & x' & Hin & Hr). exists o', x'. split; [by right|done].
Qed.

Lemma history_app ops1 ops2 d :
  history (ops1 ++ ops2) d =
  let '(log1, d1) := history ops1 d in let '(log2, d2) := history ops2 d1 in (log1 ++ log2, d2).
Proof.
  revert d. induction ops1 as [|o ops IH]; intros d; simpl; [by destruct (history ops2 d)|].
  destruct (exec o d) as [x d1]. rewrite IH. destruct (history ops d1) as [l1 d2]. by destruct (history ops2 d2).
Qed.

(** The state a call of a history ran in. *)
Lemma history_at ops d log d' i o x :
  Keyed d -> history ops d = (log, d') -> log !! i = Some (o, x) ->
  exists d1 d2, Keyed d1 /\ Writes (grantedBy log) d d1 /\ exec o d1 = (x, d2)
    /\ history (drop (S i) ops) d2 = (drop (S i) log, d').
Proof.
  revert d log i. induction ops as [|o' ops IH]; intros d log i Hk H Hi; simpl in H; [by injection H as <- <-|].
  destruct (exec o' d) as [x' d1] eqn:E. destruct (history ops d1) as [log2 d2] eqn:E2. injection H as <- <-.
  destruct i as [|i]; simpl in Hi.
  - injection Hi as -> ->. exists d, d1. split; [done|]. split; [apply rtc_refl|]. by rewrite !drop_0 || done.
  - pose proof (exec_writes _ _ _ _ Hk E) as Hw.
    destruct (IH d1 log2 i) as (a & b & Ha & Hw' & He & Hd); [by eapply Writes_keyed|done|done|].
    exists a, b. split; [done|]. split; [|done]. transitivity d1.
    + eapply Writes_mono; [|exact Hw]. intros r Hr. exists o', x'. split; [left|done].
    + eapply Writes_mono; [|exact Hw']. intros r (o'' & x'' & Hin & Hr). exists o'', x''. split; [by right|done].
Qed.
End Calls.
End DurableRunsHistory.
