(* ===== verification/DurableRunsBudget.v ===== *)
(** * The budget authority of a run tree

  What the fold over the running rows of a root computes, and what one row that
  does not validate does to the rest of its tree. *)

From S2P Require Import Prelude ConversationScope TaskTypes ApprovalPolicy ExecutionGraph DurableRuns DurableRunsFacts DurableRunsHistory.

Open Scope string_scope.
Open Scope list_scope.
Open Scope Z_scope.

Module DurableRunsBudget.
Import DurableRuns DurableRunsFacts DurableRunsHistory.

(** [a] has started no later and consumed no less than [b]. *)
Definition Dominates (a b : Budget) : Prop :=
  startedAtMs a <= startedAtMs b /\ tokensConsumed b <= tokensConsumed a /\ usdConsumed b <= usdConsumed a.

#[global] Instance Dominates_preorder : PreOrder Dominates.
Proof. split; [by intros b|]. intros a b c (? & ? & ?) (? & ? & ?). split_and!; lia. Qed.

Lemma mergeBudget_lub a b c : Dominates c (mergeBudget a b) <-> Dominates c a /\ Dominates c b.
Proof. unfold Dominates. simpl. lia. Qed.

Lemma resetsBudget_false r a : resetsBudget r a = false <-> Dominates (rootBudget r) a.
Proof.
  unfold resetsBudget, Dominates. rewrite !orb_false_iff, !Z.ltb_ge. tauto.
Qed.

Definition RunningBudget (rows : list Row) (b : Budget) : Prop :=
  exists x, x ∈ rows /\ status (rec x) = running /\ b = rootBudget (rec x).

(** The running rows of a root, with the budget each records. *)
Definition TreeBudget (root : string) (d : Db) (b : Budget) : Prop :=
  exists x, x ∈ checkpoints d /\ rootRunId (rec x) = root /\ status (rec x) = running /\ b = rootBudget (rec x).

Lemma TreeBudget_filter root d b :
  RunningBudget (filter (fun r => byRoot root r = true) (checkpoints d)) b <-> TreeBudget root d b.
Proof.
  unfold RunningBudget, TreeBudget. apply exist_proper. intros x. unfold byRoot.
  rewrite list_elem_of_filter, String.eqb_eq. tauto.
Qed.

Section Authority.
Variable digest : string -> string.

(** The least budget above those of the running rows. *)
Lemma budgetAuthority_lub rows acc out :
  budgetAuthority digest rows acc = Ok out ->
  (out = None <-> acc = None /\ forall b, ~ RunningBudget rows b)
  /\ forall b, out = Some b -> forall c,
       Dominates c b <-> (forall a, acc = Some a -> Dominates c a) /\ (forall x, RunningBudget rows x -> Dominates c x).
Proof.
  revert acc. induction rows as [|row rows IH]; intros acc H; simpl in H.
  - injection H as <-. split; [split; [intros ->; split; [done|]|by intros [? _]]; by intros b (x & ?%not_elem_of_nil & _)|].
    intros b -> c. split; [intros Hc; split; [by intros ? [= <-]|by intros b' (x & ?%not_elem_of_nil & _)]|].
    intros [Ha _]. by apply Ha.
  - destruct (rowToRecord digest row) as [r|] eqn:E; [|done]. apply rowToRecord_Ok in E as [-> _].
    case_decide as Hs; apply IH in H as [H1 H2].
    + split; [split; [by intros [? _]%H1|]|].
      * intros [_ Hn]. destruct (Hn (rootBudget (rec row))). exists row. split; [left|done].
      * intros b Hb c. rewrite (H2 b Hb c). split.
        -- intros [Ha Hx]. specialize (Ha _ eq_refl). destruct acc as [a|]; [apply mergeBudget_lub in Ha as [Ha Hr]|];
             (split; [by try intros ? [= <-]|]); intros x (y & [-> | Hy]%elem_of_cons & Hys & ->); auto; apply Hx; by exists y.
        -- intros [Ha Hx]. split; [|intros x (y & Hy & ? & ->); apply Hx; exists y; split; [by right|done]].
           intros m [= <-]. assert (Dominates c (rootBudget (rec row))) as Hr by (apply Hx; exists row; split; [left|done]).
           destruct acc as [a|]; [apply mergeBudget_lub; auto|done].
    + assert (forall b, RunningBudget (row :: rows) b <-> RunningBudget rows b) as Heq.
      { intros b. split; intros (y & Hy & Hys & ->); [apply elem_of_cons in Hy as [-> | Hy]; [done|]; by exists y|].
        exists y. split; [by right|done]. }
      split; [rewrite H1; split; intros [? Hn]; (split; [done|]); intros b; specialize (Hn b); by rewrite Heq in *|].
      intros b Hb c. rewrite (H2 b Hb c). split; intros [Ha Hx]; (split; [done|]); intros x ?; apply Hx; by apply Heq.
Qed.

Lemma authority_lub root d b :
  readRootBudgetAuthority digest root d = Ok (Some b) ->
  forall c, Dominates c b <-> forall x, TreeBudget root d x -> Dominates c x.
Proof.
  intros H c. destruct (budgetAuthority_lub _ _ _ H) as [_ H2]. rewrite (H2 b eq_refl c). split.
  - intros [_ Hx] x Hr. apply Hx. by apply TreeBudget_filter.
  - intros Hx. split; [done|]. intros x Hr%TreeBudget_filter. by apply Hx.
Qed.

Lemma authority_None root d :
  readRootBudgetAuthority digest root d = Ok None -> forall b, ~ TreeBudget root d b.
Proof.
  intros H b. destruct (budgetAuthority_lub _ _ _ H) as [[H1 _] _]. destruct (H1 eq_refl) as [_ Hn]. intros Hb%TreeBudget_filter. by apply (Hn b).
Qed.

(** Every row of the tree validates. *)
Definition TreeValid (root : string) (d : Db) : Prop :=
  forall x, x ∈ checkpoints d -> rootRunId (rec x) = root -> rowToRecord digest x = Ok (rec x).

Lemma budgetAuthority_total rows acc :
  (forall x, x ∈ rows -> rowToRecord digest x = Ok (rec x)) <-> exists out, budgetAuthority digest rows acc = Ok out.
Proof.
  revert acc. induction rows as [|row rows IH]; intros acc; simpl.
  - split; [by exists acc|]. by intros _ x ?%not_elem_of_nil.
  - destruct (rowToRecord digest row) as [r|e] eqn:E.
    + pose proof (rowToRecord_Ok _ _ _ E) as [-> _]. case_decide; rewrite <- IH; split; intros Hx x.
      all: try (intros Hin; apply Hx; by right). all: intros [-> | Hin]%elem_of_cons; [done|by apply Hx].
    + split; [|by intros [? ?]]. intros Hx. rewrite (Hx row) in E; [done|left].
Qed.

Lemma authority_total root d : TreeValid root d <-> exists out, readRootBudgetAuthority digest root d = Ok out.
Proof.
  unfold readRootBudgetAuthority. rewrite <- budgetAuthority_total. unfold TreeValid, byRoot.
  apply forall_proper. intros x. rewrite list_elem_of_filter, String.eqb_eq. tauto.
Qed.

(** An accepted checkpoint found every row of its tree valid and claims no
    smaller budget than any running one. *)
Lemma floor_Ok r d :
  validateRootBudgetFloor digest r d = Ok tt ->
  TreeValid (rootRunId r) d /\ forall b, TreeBudget (rootRunId r) d b -> Dominates (rootBudget r) b.
Proof.
  unfold validateRootBudgetFloor. destruct (readRootBudgetAuthority _ _ _) as [a|] eqn:E; [|done]. intros H.
  split; [apply authority_total; by exists a|]. destruct a as [a|]; [|by intros b Hb%(authority_None _ _ E)].
  destruct (resetsBudget r a) eqn:Er; [done|]. apply resetsBudget_false in Er. by apply (authority_lub _ _ _ E).
Qed.

Lemma mergeRow_valid old r t :
  recordValid digest r = true -> idOf old = checkpointId r -> principal (rec old) = principal r ->
  status (rec old) = running -> rowToRecord digest (mergeRow old r t) = Ok (rec (mergeRow old r t)).
Proof.
  intros Hv Hid Hp Hs. unfold rowToRecord, mergeRow, isTerminal. rewrite bool_decide_true by done.
  cbn [negb readable rec]. unfold parseDurableRunRecord. fold (idOf old). rewrite Hid, Hp.
  enough (recordValid digest (mkRun (checkpointId r) (principal r) (spawnTree r) (caps r) (leaseIds r) (budgetConsumed r)
    (rootBudget r) (cronOrigin r) (status r) (lastHeartbeatAt r) (orElse (scriptRef r) (scriptRef (rec old)))
    (orElse (checkpointRef r) (checkpointRef (rec old))) (workspacePolicyHash r) (resumeDescriptorHash r)
    (terminalReason r)) = true) as -> by done.
  revert Hv. unfold recordValid. cbn. destruct (spawnTree r) as [|[|n ns]], (checkpointRef r) as [c|]; try done.
  rewrite !andb_false_r. done.
Qed.

(** The row an accepted running checkpoint leaves under its id. *)
Lemma upsert_rows r t d d' :
  Keyed d -> upsertStmt r t d = Ok (d', 1%nat) -> recordValid digest r = true -> TreeValid (rootRunId r) d ->
  TreeValid (rootRunId r) d'
  /\ forall b, TreeBudget (rootRunId r) d b -> TreeBudget (rootRunId r) d' b
       \/ (status r = running -> TreeBudget (rootRunId r) d' (rootBudget r)).
Proof.
  intros Hk H Hv Ht. unfold upsertStmt in H. destruct (getStmt (checkpointId r) d) as [old|] eqn:E.
  - destruct (_ && _ && _); [done|]. destruct (mayMerge old r) eqn:Em; [|done]. injection H as <- _.
    unfold mayMerge in Em. apply andb_true_iff in Em as [Hp _]. apply bool_decide_eq_true in Hp.
    assert (forall x, x ∈ checkpoints d -> byId (checkpointId r) x = true -> x = old) as Hold.
    { intros x Hx Hb%byId_iff. apply (getStmt_in _ _ Hk) in Hx. congruence. }
    split.
    + intros x (y & -> & Hy)%list_elem_of_fmap. destruct (byId _ y) eqn:Eb; [|by apply Ht].
      rewrite (Hold y) by done. destruct (decide (status (rec old) = running)) as [Hs|Hs].
      * intros _. apply getStmt_Some in E as [_ E]. by apply mergeRow_valid.
      * intros Hroot. unfold mergeRow, isTerminal in *. rewrite bool_decide_false in * by done. simpl in *.
        apply getStmt_Some in E as [E _]. by apply Ht.
    + intros b (x & Hx & Hroot & Hs & ->). destruct (byId (checkpointId r) x) eqn:Eb.
      * right. intros Hr. pose proof (Hold x Hx Eb) as ->. exists (mergeRow old r t). split.
        { apply list_elem_of_fmap. exists old. by rewrite Eb. }
        unfold mergeRow, isTerminal. by rewrite bool_decide_true.
      * left. exists x. split; [|done]. apply list_elem_of_fmap. exists x. by rewrite Eb.
  - injection H as <-. split.
    + intros x [Hx | ->%list_elem_of_singleton]%elem_of_app Hroot; [by apply Ht|].
      unfold rowToRecord, parseDurableRunRecord. simpl. by rewrite Hv.
    + intros b (x & Hx & ?). left. exists x. split; [|done]. apply elem_of_app. by left.
Qed.
End Authority.
End DurableRunsBudget.
