(* ===== verification/DurableRunsTheorems.v ===== *)
(** * What the durable run store guarantees

  Over every history of calls: one claim per checkpoint, revocation for good,
  authority that only narrows, a budget floor, and the cost of one bad row. *)

From S2P Require Import Prelude ConversationScope TaskTypes ApprovalPolicy ExecutionGraph DurableRuns DurableRunsFacts DurableRunsHistory DurableRunsBudget.

Open Scope string_scope.
Open Scope list_scope.
Open Scope Z_scope.

Module DurableRunsTheorems.
Import DurableRuns DurableRunsFacts DurableRunsHistory DurableRunsBudget.

(** ** Claims *)

Section Claims.
Variable digest : string -> string.

(** The source is spent and the replacement is there. *)
Lemma Claimed_rows c r d d' :
  Claimed digest c r d d' ->
  (exists x, getStmt (c_checkpointId c) d' = Some x /\ status (rec x) = completed)
  /\ getStmt (c_replacementId c) d' = Some (freshRow r (c_claimedAtMs c)).
Proof.
  intros [(row & b & Hg & _ & Hs & _ & _ & _ & _ & ->) Hf _ ->].
  assert (forall cid, getStmt cid (terminalizeStmt t_superseded (c_claimedAtMs c) (c_checkpointId c) d).1
    = (fun x => if byId (c_checkpointId c) x && isRunning x
                then setRun (withStatus completed (Some t_superseded)) None (c_claimedAtMs c) x else x) <$> getStmt cid d)
    as Hu by (intros; unfold terminalizeStmt; by rewrite getStmt_updateRows).
  assert (c_checkpointId c <> c_replacementId c) as Hne by congruence.
  split; rewrite getStmt_insert by (cbn [replacementOf checkpointId]; by rewrite Hu, Hf); cbn [replacementOf checkpointId].
  - rewrite decide_False, Hu, Hg by done. eexists. split; [done|].
    apply getStmt_Some in Hg as [_ Hid%byId_iff]. apply isRunning_iff in Hs. by rewrite Hid, Hs.
  - by rewrite decide_True.
Qed.

Lemma history_tail ops d log d' i j o x o' x' :
  Keyed d -> history digest ops d = (log, d') -> (i < j)%nat ->
  log !! i = Some (o, x) -> log !! j = Some (o', x') ->
  exists d1 d2 d3 d4 g, Keyed d1 /\ Keyed d3 /\ exec digest o d1 = (x, d2) /\ Writes g d2 d3 /\ exec digest o' d3 = (x', d4).
Proof.
  intros Hk H Hij Hi Hj. destruct (history_at _ _ _ _ _ _ _ _ Hk H Hi) as (d1 & d2 & Hk1 & _ & He & Ht).
  assert (Keyed d2) as Hk2 by (eapply Writes_keyed; [by eapply exec_writes|done]).
  destruct (history_at _ _ _ _ _ (j - S i)%nat o' x' Hk2 Ht) as (d3 & d4 & Hk3 & Hw & He' & _).
  { rewrite lookup_drop. rewrite <- Hj. f_equal. lia. }
  by exists d1, d2, d3, d4, (grantedBy (drop (S i) log)).
Qed.

Lemma exec_claim c r d d' :
  Keyed d -> exec digest (OClaim c) d = (RClaim (Ok (claimed r)), d') -> Claimed digest c r d d'.
Proof.
  simpl. destruct (claimForResume digest c d) as [x d2] eqn:E. intros Hk [= -> ->].
  destruct (claim_cases _ _ _ _ _ Hk E) as [(r' & [= <-] & H)|[_ H]]; [done|]. by destruct (H r).
Qed.

Lemma later_claim c c' r d d1 d2 d' r' g :
  Claimed digest c r d d1 -> Writes g d1 d2 -> Claimed digest c' r' d2 d' ->
  c_checkpointId c <> c_checkpointId c' /\ c_replacementId c <> c_replacementId c'.
Proof.
  intros H1 Hw [(row & b & Hg & _ & Hs & _) Hf _ _]. destruct (Claimed_rows _ _ _ _ H1) as [(x & Hx & Hc) Hr].
  split; intros E.
  - pose proof (Writes_evolves _ _ _ (c_checkpointId c) Hw) as He. rewrite Hx, E, Hg in He.
    destruct He as (x' & [= <-] & _ & _ & Hst). rewrite Hst in Hs; congruence.
  - pose proof (Writes_evolves _ _ _ (c_replacementId c) Hw) as He. rewrite Hr, E, Hf in He. by destruct He as (? & ? & _).
Qed.
End Claims.

(** C8: In any history of store calls, from any tables with unique checkpoint
    ids, a checkpoint is handed out to at most one resumer: two granted claims
    name different source checkpoints and different replacements. *)
Theorem checkpoint_claimed_once digest ops d log d' i j c c' r r' :
  Keyed d -> history digest ops d = (log, d') ->
  log !! i = Some (OClaim c, RClaim (Ok (claimed r))) -> log !! j = Some (OClaim c', RClaim (Ok (claimed r'))) ->
  c_checkpointId c = c_checkpointId c' \/ c_replacementId c = c_replacementId c' -> i = j.
Proof.
  intros Hk H Hi Hj He. destruct (Nat.lt_trichotomy i j) as [Hl|[?|Hl]]; [exfalso|done|exfalso].
  - destruct (history_tail _ _ _ _ _ _ _ _ _ _ _ Hk H Hl Hi Hj) as (d1 & d2 & d3 & d4 & g & K1 & K3 & E1 & Hw & E2).
    apply exec_claim in E1, E2; [|done..]. destruct (later_claim _ _ _ _ _ _ _ _ _ _ E1 Hw E2). tauto.
  - destruct (history_tail _ _ _ _ _ _ _ _ _ _ _ Hk H Hl Hj Hi) as (d1 & d2 & d3 & d4 & g & K1 & K3 & E1 & Hw & E2).
    apply exec_claim in E1, E2; [|done..]. destruct (later_claim _ _ _ _ _ _ _ _ _ _ E1 Hw E2). naive_solver.
Qed.

(** ** Revocation *)

Lemma revoked_upsert_refused digest r now d x d' :
  RevokedRoot (rootRunId r) d -> upsertCheckpoint digest r now d = (x, d') -> x = Ok tt -> status r = revoked.
Proof.
  intros Hr H ->. unfold upsertCheckpoint in H. destruct (parseDurableRunRecord digest r) as [r'|] eqn:E; [|done].
  apply parse_Ok in E as [-> _]. unfold upsertTransaction in H. case_decide; [done|].
  destruct (validateRootBudgetFloor digest r d); [|done]. unfold ensureRootStmt in H.
  pose proof Hr as Hr'. apply RevokedRoot_iff in Hr' as (y & t & Hy & _). rewrite Hy in H. cbv zeta in H.
  by rewrite Hr in H.
Qed.

(** What a call under a dead root may still achieve. *)
Lemma dead_call digest root o x d d' :
  Keyed d -> Dead root d -> exec digest o d = (x, d') ->
  (forall c r, o = OClaim c -> x = RClaim (Ok (claimed r)) -> rootRunId r <> root)
  /\ (forall r now, o = OUpsert r now -> x = RUnit (Ok tt) -> rootRunId r = root -> status r = revoked).
Proof.
  intros Hk [Hr Hd] He. split.
  - intros c r -> ->. apply exec_claim in He as [(row & b & Hg & _ & Hs & _ & _ & _ & _ & ->) _ _ _]; [|done].
    intros E. apply getStmt_Some in Hg as [Hg _]. by apply (Hd row Hg).
  - intros r now -> -> <-. simpl in He. destruct (upsertCheckpoint digest r now d) as [y d2] eqn:E.
    injection He as -> ->. by eapply revoked_upsert_refused.
Qed.

Lemma revoke_dead digest root now d x d' : exec digest (ORevoke root now) d = (x, d') -> Dead root d'.
Proof. intros [= <- <-]. apply invalidate_dead, tombstone_revokes. Qed.

(** C9: Once a root is revoked, whatever any process calls afterwards, no
    checkpoint of its tree is ever running again, none of its checkpoints can be
    claimed, and the only checkpoints the store still accepts under it are
    themselves revoked. *)
Theorem revocation_is_final digest root now ops d x log d' :
  Keyed d -> history digest (ORevoke root now :: ops) d = ((ORevoke root now, x) :: log, d') ->
  Dead root d'
  /\ forall o y, (o, y) ∈ log ->
       (forall c r, o = OClaim c -> y = RClaim (Ok (claimed r)) -> rootRunId r <> root)
       /\ (forall r t, o = OUpsert r t -> y = RUnit (Ok tt) -> rootRunId r = root -> status r = revoked).
Proof.
  intros Hk H. cbn [history] in H. destruct (exec digest (ORevoke root now) d) as [x1 d1] eqn:E.
  destruct (history digest ops d1) as [log2 d2] eqn:Eh. injection H as -> -> ->.
  pose proof (revoke_dead _ _ _ _ _ _ E) as Hd.
  assert (Keyed d1) as Hk1 by (eapply Writes_keyed; [by eapply exec_writes|done]).
  split; [by eapply Writes_dead; [eapply history_writes|]|].
  intros o y [i Hi]%list_elem_of_lookup.
  destruct (history_at _ _ _ _ _ _ _ _ Hk1 Eh Hi) as (a & b & Ha & Hw & He & _).
  eapply dead_call; [exact Ha|by eapply Writes_dead|exact He].
Qed.

(** ** Authority *)

(** C10: Authority only narrows.  After any history, every stored checkpoint has
    the principal, and at most the capabilities, of a record that was in the
    tables at the start or that a caller handed to an accepted upsert: claims
    and updates mint none.  And a checkpoint that exists keeps its principal,
    never gains a capability, and never leaves a terminal status. *)
Theorem authority_never_widens digest ops d log d' :
  Keyed d -> history digest ops d = (log, d') ->
  (forall x, x ∈ checkpoints d' ->
     exists g, (g ∈ (rec <$> checkpoints d) \/ grantedBy log g)
       /\ principal (rec x) = principal g /\ caps (rec x) ⊆ caps g)
  /\ forall cid, Evolves (getStmt cid d) (getStmt cid d').
Proof.
  intros Hk H. pose proof (history_writes _ _ _ _ _ Hk H) as Hw. split; [|intros cid; by eapply Writes_evolves].
  apply (Writes_granted (grantedBy log) (fun g => g ∈ (rec <$> checkpoints d) \/ grantedBy log g) d d'); [by right|done|].
  intros x Hx. exists (rec x). split; [left; by apply list_elem_of_fmap_2|done].
Qed.

(** A claim is all or nothing.  A granted claim was made by the principal,
    agent, tenant, conversation and delivery origin of the stored record at no
    lower trust; its replacement has that same principal, no leases, the
    capabilities of the source that the claimer still holds, the heartbeat of
    the source, and the smallest budget that covers every running checkpoint of
    the tree; the source is completed.  Any other answer leaves the tables as
    they were. *)
Theorem claim_attenuates digest c d x d' :
  Keyed d -> claimForResume digest c d = (x, d') ->
  (exists r src, x = Ok (claimed r) /\ getStmt (c_checkpointId c) d = Some src
     /\ status (rec src) = running /\ authorized (rec src) c = true
     /\ principal r = principal (rec src) /\ leaseIds r = [] /\ status r = running
     /\ caps r = filter (fun k => k ∈ c_caps c) (caps (rec src))
     /\ lastHeartbeatAt r = lastHeartbeatAt (rec src) /\ lastHeartbeatAt r <= c_claimedAtMs c
     /\ (forall b, Dominates b (rootBudget r) <-> forall y, TreeBudget (rootRunId r) d y -> Dominates b y)
     /\ (exists y, getStmt (c_checkpointId c) d' = Some y /\ status (rec y) = completed)
     /\ getStmt (c_replacementId c) d = None
     /\ getStmt (c_replacementId c) d' = Some (freshRow r (c_claimedAtMs c)))
  \/ (d' = d /\ forall r, x <> Ok (claimed r)).
Proof.
  intros Hk H. destruct (claim_cases _ _ _ _ _ Hk H) as [(r & -> & Hc)|?]; [left|by right].
  destruct (Claimed_rows _ _ _ _ _ Hc) as [Hs Hr].
  destruct Hc as [(row & b & Hg & _ & Hrun & Ha & Hh & _ & Hb & E) Hf _ _].
  exists r, row. pose proof (authority_lub _ _ _ _ Hb) as Hl. split_and!; try done; subst r; done.
Qed.

(** ** Budget *)

(** An accepted running checkpoint never lowers what its tree is known to
    have spent: the budget authority afterwards has started no later and
    consumed no less than before, in tokens and in money. *)
Theorem upsert_keeps_budget digest r now d d' b :
  Keyed d -> upsertCheckpoint digest r now d = (Ok tt, d') -> status r = running ->
  readRootBudgetAuthority digest (rootRunId r) d = Ok (Some b) ->
  exists b', readRootBudgetAuthority digest (rootRunId r) d' = Ok (Some b') /\ Dominates b' b.
Proof.
  intros Hk H Hs Hb. unfold upsertCheckpoint in H. destruct (parseDurableRunRecord digest r) as [r'|] eqn:E; [|done].
  apply parse_Ok in E as [-> Hv]. unfold upsertTransaction in H. rewrite decide_False in H by congruence.
  destruct (validateRootBudgetFloor digest r d) as [[]|] eqn:Ef; [|done]. apply floor_Ok in Ef as [Ht Hd]. cbv zeta in H.
  assert (checkpoints (ensureRootStmt (rootRunId r) d) = checkpoints d) as Ec
    by (unfold ensureRootStmt; by destruct (getRoot _ d)).
  destruct (rootIsRevoked _ _) as [[]|]; try done. unfold writeCheckpoint in H.
  destruct (upsertStmt r now _) as [[d2 n]|] eqn:Eu; [|done].
  destruct (n =? 1)%nat eqn:En; [|done]. apply Nat.eqb_eq in En as ->. rewrite decide_False in H by congruence.
  injection H as ->.
  destruct (upsert_rows digest r now (ensureRootStmt (rootRunId r) d) d') as [Ht' Hx];
    [unfold Keyed; by rewrite Ec|done|done|unfold TreeValid; by rewrite Ec|].
  assert (forall y, TreeBudget (rootRunId r) d y -> exists z, TreeBudget (rootRunId r) d' z /\ Dominates z y) as Hup.
  { intros y Hy. destruct (Hx y) as [?|?]; [unfold TreeBudget; by rewrite Ec|by exists y|].
    exists (rootBudget r). split; [auto|]. by apply Hd. }
  apply authority_total in Ht' as [[b'|] Hb'].
  - exists b'. split; [done|]. apply (authority_lub _ _ _ _ Hb). intros y Hy. destruct (Hup y Hy) as (z & Hz & Hzy).
    transitivity z; [|done]. by apply (authority_lub _ _ _ _ Hb').
  - destruct (budgetAuthority_lub _ _ _ _ Hb) as [[_ H1] _].
    enough (Some b = None) by done. apply H1. split; [done|]. intros y Hy%TreeBudget_filter.
    destruct (Hup y Hy) as (z & Hz & _). by apply (authority_None _ _ _ Hb' z).
Qed.

(** ** One bad row *)

Lemma bad_row_no_authority digest root d x :
  x ∈ checkpoints d -> rootRunId (rec x) = root -> rowToRecord digest x <> Ok (rec x) ->
  exists e', readRootBudgetAuthority digest root d = Err e'.
Proof.
  intros Hx Hr He. destruct (readRootBudgetAuthority digest root d) as [out|e'] eqn:E; [|by exists e'].
  assert (TreeValid digest root d) as Ht by (apply authority_total; by exists out). by destruct He; apply Ht.
Qed.

Lemma touch_row cid atMs now d d' row :
  Keyed d -> getStmt cid d = Some row -> status (rec row) = running -> (touchHeartbeat cid atMs now d).2 = d' ->
  (touchHeartbeat cid atMs now d).1 = Ok tt /\ Keyed d' /\ getStmt cid d' = Some (setRun (withHeartbeat atMs) None now row).
Proof.
  intros Hk Hg Hs <-. pose proof (Write_keyed _ _ _ (touch_write (fun _ => False) atMs now cid d) Hk) as Hk'.
  unfold touchHeartbeat. destruct (touchHeartbeatStmt atMs now cid d) as [d1 n] eqn:Et. cbn [fst snd] in *.
  unfold touchHeartbeatStmt in Et. pose proof (f_equal fst Et) as E1. pose proof (f_equal snd Et) as E2. cbn [fst snd] in *.
  pose proof (getStmt_Some _ _ _ Hg) as [_ Hid%byId_iff]. apply isRunning_iff in Hs.
  rewrite <- E2. unfold updateRows at 1. cbn [snd]. rewrite (keyed_count isRunning cid row d Hk Hg Hs). split; [done|].
  split; [done|]. rewrite <- E1, getStmt_updateRows, Hg by done. simpl. by rewrite Hid, Hs.
Qed.

Lemma late_start_invalid digest r : lastHeartbeatAt r < startedAtMs (rootBudget r) -> recordValid digest r = false.
Proof.
  intros H. unfold recordValid. cbv zeta.
  replace (startedAtMs (rootBudget r) <=? lastHeartbeatAt r) with false by (symmetry; apply Z.leb_gt; lia).
  by rewrite !andb_false_r, ?andb_false_l.
Qed.

(** A keep-alive is stored unchecked.  One whose clock reads earlier than
    the start of the tree is accepted, and from then on the store refuses every
    checkpoint of the whole tree that is not a revocation, and every claim on
    it, leaving the tables unchanged: a sibling's progress can no longer be
    saved and no checkpoint of the tree can be resumed. *)
Theorem early_heartbeat_blocks_tree digest cid atMs now d row :
  Keyed d -> getStmt cid d = Some row -> status (rec row) = running ->
  atMs < startedAtMs (rootBudget (rec row)) ->
  let d' := (touchHeartbeat cid atMs now d).2 in
  (touchHeartbeat cid atMs now d).1 = Ok tt
  /\ (forall r t, rootRunId r = rootRunId (rec row) -> status r <> revoked ->
       exists e, upsertCheckpoint digest r t d' = (Err e, d'))
  /\ (forall c src, getStmt (c_checkpointId c) d' = Some src -> rootRunId (rec src) = rootRunId (rec row) ->
       (claimForResume digest c d').2 = d' /\ forall r, (claimForResume digest c d').1 <> Ok (claimed r)).
Proof.
  intros Hk Hg Hs Hlt d'. destruct (touch_row _ _ now _ d' _ Hk Hg Hs eq_refl) as (H1 & Hk' & Hg').
  apply getStmt_Some in Hg' as [Hin _].
  destruct (bad_row_no_authority digest (rootRunId (rec row)) d' _ Hin eq_refl) as [e He].
  { unfold rowToRecord, parseDurableRunRecord. cbn [setRun readable rec]. destruct (readable row); [|done].
    by rewrite late_start_invalid. }
  split; [done|]. split.
  - intros r t Hr Hn. unfold upsertCheckpoint. destruct (parseDurableRunRecord digest r) as [r'|e'] eqn:E; [|by exists e'].
    apply parse_Ok in E as [-> _]. exists e. unfold upsertTransaction. rewrite decide_False by done.
    unfold validateRootBudgetFloor. by rewrite Hr, He.
  - intros c src Hsrc Hr. destruct (claimForResume digest c d') as [x d2] eqn:E. cbn [fst snd].
    destruct (claim_cases _ _ _ _ _ Hk' E) as [(r & -> & [(y & b & Hy & _ & _ & _ & _ & _ & Hb & _) _ _ _])|?]; [|done].
    rewrite Hsrc in Hy. injection Hy as <-. rewrite Hr in Hb. congruence.
Qed.

(** ** The resume scan *)

Lemma insertByHeartbeat_perm r l : insertByHeartbeat r l ≡ₚ r :: l.
Proof. induction l as [|x l IH]; simpl; [done|]. destruct (_ <=? _); [done|]. rewrite IH. apply Permutation_swap. Qed.

Lemma sortByHeartbeat_perm l : foldr insertByHeartbeat [] l ≡ₚ l.
Proof. induction l as [|x l IH]; simpl; [done|]. by rewrite insertByHeartbeat_perm, IH. Qed.

Definition ByHeartbeat (a b : Run) : Prop := lastHeartbeatAt a <= lastHeartbeatAt b.

Lemma insertByHeartbeat_sorted r l :
  Sorted ByHeartbeat (rec <$> l) -> Sorted ByHeartbeat (rec <$> insertByHeartbeat r l).
Proof.
  induction l as [|x l IH]; simpl; [by repeat constructor|]. intros Hs. destruct (_ <=? _) eqn:E.
  - constructor; [done|]. constructor. by apply Z.leb_le.
  - apply Z.leb_gt in E. inversion Hs as [|? ? Hs' Hd]; subst. simpl. constructor; [by apply IH|].
    destruct l as [|y l]; simpl; [constructor; unfold ByHeartbeat; lia|].
    inversion Hd; subst. destruct (_ <=? _); constructor; unfold ByHeartbeat in *; [lia|done].
Qed.

Lemma sortByHeartbeat_sorted l : Sorted ByHeartbeat (rec <$> foldr insertByHeartbeat [] l).
Proof. induction l as [|x l IH]; simpl; [constructor|]. by apply insertByHeartbeat_sorted. Qed.

Section Scan.
Variable digest : string -> string.

Definition asRecord (r : Row) : option Run := match rowToRecord digest r with Ok x => Some x | Err _ => None end.
Definition asInvalid (r : Row) : option (string * string) :=
  match rowToRecord digest r with Ok _ => None | Err _ => Some (checkpointId (rec r), rootRunId (rec r)) end.

Lemma row_split x :
  (asRecord x = Some (rec x) /\ asInvalid x = None) \/ (asRecord x = None /\ asInvalid x = Some (idOf x, rootRunId (rec x))).
Proof.
  unfold asRecord, asInvalid. destruct (rowToRecord digest x) eqn:E; [|by right].
  apply rowToRecord_Ok in E as [-> _]. by left.
Qed.

Lemma split_rows_perm rows :
  (checkpointId <$> omap asRecord rows) ++ (fst <$> omap asInvalid rows) ≡ₚ idOf <$> rows.
Proof.
  induction rows as [|x rows IH]; [done|]. rewrite fmap_cons, <- IH. cbn [omap list_omap].
  destruct (row_split x) as [[-> ->]|[-> ->]]; [done|]. rewrite fmap_cons. by rewrite <- Permutation_middle.
Qed.

Lemma omap_records_strongly rows :
  StronglySorted ByHeartbeat (rec <$> rows) -> StronglySorted ByHeartbeat (omap asRecord rows).
Proof.
  induction rows as [|x rows IH]; [done|]. rewrite fmap_cons. intros [Hs Hf]%StronglySorted_inv. cbn [omap list_omap].
  destruct (row_split x) as [[-> _]|[-> _]]; [|by apply IH].
  constructor; [by apply IH|]. apply Forall_forall. intros y (z & Hz & Ey)%list_elem_of_omap.
  destruct (row_split z) as [[Ez _]|[Ez _]]; rewrite Ez in Ey; [|done]. injection Ey as <-.
  rewrite Forall_forall in Hf. apply Hf. by apply list_elem_of_fmap_2.
Qed.
End Scan.

(** The boot scan succeeds and misses nothing: the checkpoints it returns,
    valid and invalid together, are exactly the running ones, each once; every
    returned record validates and is running, and they come oldest heartbeat
    first. *)
Theorem resume_scan_complete digest d :
  exists s, listResumable digest d = Ok s
    /\ (checkpointId <$> records s) ++ (fst <$> invalid s) ≡ₚ idOf <$> filter (fun r => isRunning r = true) (checkpoints d)
    /\ (forall r, r ∈ records s -> recordValid digest r = true /\ status r = running)
    /\ StronglySorted ByHeartbeat (records s).
Proof.
  eexists. split; [done|]. cbn [records invalid]. set (l := filter _ _). split_and!.
  - rewrite (split_rows_perm digest). by rewrite sortByHeartbeat_perm.
  - intros r (x & Hx & E)%list_elem_of_omap. rewrite sortByHeartbeat_perm in Hx. apply list_elem_of_filter in Hx as [Hx _].
    destruct (rowToRecord digest x) eqn:Ex; [|done]. injection E as <-. apply rowToRecord_Ok in Ex as [-> ?].
    by apply isRunning_iff in Hx.
  - apply (omap_records_strongly digest), Sorted_StronglySorted; [intros ? ? ?; unfold ByHeartbeat; lia|].
    apply sortByHeartbeat_sorted.
Qed.

(** ** A tree of two runs *)

Module Demo.

(** Any digest of the right shape will do. *)
Definition digest (s : string) : string := "AAAAAAAAAAAAAAAAAAAAAAAAAAAAAAAAAAAAAAAAAAA".

Definition scope : ConversationScope.Scope :=
  {| ConversationScope.tenantId := "t"; ConversationScope.agentId := "a";
     ConversationScope.partition := ConversationScope.PPrincipal "u" |}.

Definition owner (root : string) : Principal :=
  {| p_rootRunId := root; p_tenantId := "t"; p_agentId := "a"; p_conversationRef := "cv_" +:+ digest "";
     p_scope := scope; p_principalId := "u"; p_origin := None; p_trust := ApprovalPolicy.user |}.

Definition run (cid : string) (usd heartbeat : Z) (s : Status) : Run :=
  mkRun cid (owner "root") (Flat []) [orch_spawn; orch_web] ["lease"] usd
    {| startedAtMs := 100; tokensConsumed := 10 * usd; usdConsumed := usd |} None s heartbeat None None None None None.

Definition claim (cid new : string) (at_ms : Z) : Claim :=
  {| c_checkpointId := cid; c_replacementId := new; c_claimedAtMs := at_ms; c_tenantId := "t"; c_agentId := "a";
     c_conversationRef := "cv_" +:+ digest ""; c_scope := scope; c_principalId := "u"; c_origin := None;
     c_trust := ApprovalPolicy.user; c_caps := [orch_web; orch_read] |}.

Definition empty : Db := mkDb [] [].

(** Two siblings, the second of which has spent more. *)
Definition two : Db := (history digest [OUpsert (run "A" 3 200 running) 1; OUpsert (run "B" 9 210 running) 2] empty).2.

Lemma two_keyed : Keyed two.
Proof. unfold Keyed. vm_compute. apply (bool_decide_unpack _). by vm_compute. Qed.

Definition race : list Op := [OClaim (claim "A" "A1" 300); OClaim (claim "A" "A2" 301); OClaim (claim "B" "B1" 302)].

(** The one resumer that gets [A]. *)
Example race_log :
  exists r r', (history digest race two).1 =
    [(OClaim (claim "A" "A1" 300), RClaim (Ok (claimed r))); (OClaim (claim "A" "A2" 301), RClaim (Ok not_resumable));
     (OClaim (claim "B" "B1" 302), RClaim (Ok (claimed r')))]
    /\ caps r = [orch_web] /\ usdConsumed (rootBudget r) = 9.
Proof. eexists _, _. split; [vm_compute; reflexivity|]. split; reflexivity. Qed.

Lemma checkpoint_claimed_once_witness :
  exists r, (history digest race two).1 !! 0%nat = Some (OClaim (claim "A" "A1" 300), RClaim (Ok (claimed r))) /\ 0%nat = 0%nat.
Proof.
  destruct race_log as (r & r' & E & _). exists r. split; [by rewrite E|].
  eapply (checkpoint_claimed_once digest race two (history digest race two).1 (history digest race two).2 0 0
            (claim "A" "A1" 300) (claim "A" "A1" 300) r r);
    [apply two_keyed|apply surjective_pairing|by rewrite E|by rewrite E|by left].
Defined.

Definition afterRevoke : list Op :=
  [OClaim (claim "A" "A1" 500); OUpsert (run "A" 20 500 running) 501; OUpsert (run "C" 20 500 running) 502].

Lemma revocation_is_final_witness : Dead "root" (history digest (ORevoke "root" 400 :: afterRevoke) two).2.
Proof.
  eapply (revocation_is_final digest "root" 400 afterRevoke two (RUnit (Ok tt))
            (tail (history digest (ORevoke "root" 400 :: afterRevoke) two).1)); [apply two_keyed|].
  vm_compute. reflexivity.
Defined.

Lemma authority_never_widens_witness :
  Evolves (getStmt "A" two) (getStmt "A" (history digest race two).2).
Proof.
  apply (authority_never_widens digest race two (history digest race two).1); [apply two_keyed|apply surjective_pairing].
Defined.

Lemma claim_attenuates_witness :
  exists r, (claimForResume digest (claim "A" "A1" 300) two).1 = Ok (claimed r) /\ caps r = [orch_web].
Proof.
  destruct (claim_attenuates digest (claim "A" "A1" 300) two _ _ two_keyed (surjective_pairing _))
    as [(r & src & Hx & Hg & _ & _ & _ & _ & _ & Hc & _)|[_ Hn]].
  - exists r. split; [exact Hx|]. rewrite Hc. injection Hg as <-. reflexivity.
  - exfalso. eapply Hn. vm_compute. reflexivity.
Defined.

Lemma upsert_keeps_budget_witness :
  exists b', readRootBudgetAuthority digest "root" (upsertCheckpoint digest (run "A" 12 220 running) 3 two).2 = Ok (Some b')
    /\ Dominates b' {| startedAtMs := 100; tokensConsumed := 90; usdConsumed := 9 |}.
Proof.
  apply (upsert_keeps_budget digest (run "A" 12 220 running) 3 two);
    [apply two_keyed|vm_compute; reflexivity|reflexivity|vm_compute; reflexivity].
Defined.

Lemma early_heartbeat_blocks_tree_witness :
  exists e, upsertCheckpoint digest (run "B" 12 220 running) 3 (touchHeartbeat "A" 50 2 two).2
            = (Err e, (touchHeartbeat "A" 50 2 two).2).
Proof.
  eapply (early_heartbeat_blocks_tree digest "A" 50 2 two (freshRow (run "A" 3 200 running) 1));
    [apply two_keyed|vm_compute; reflexivity|reflexivity|simpl; lia|reflexivity|done].
Defined.

(** The budget authority of a tree reads only the rows that are running now.
    When the sibling that recorded the most spending ends, the authority falls
    back to what a sibling that is still running recorded earlier, and the store
    then accepts a checkpoint that claims less than the tree has already spent. *)
Theorem budget_lost_with_sibling :
  let ended := (terminalize digest "B" t_completed 300 two).2 in
  readRootBudgetAuthority digest "root" two = Ok (Some {| startedAtMs := 100; tokensConsumed := 90; usdConsumed := 9 |})
  /\ readRootBudgetAuthority digest "root" ended
     = Ok (Some {| startedAtMs := 100; tokensConsumed := 30; usdConsumed := 3 |})
  /\ (upsertCheckpoint digest (run "A" 4 310 running) 310 two).1 <> Ok tt
  /\ (upsertCheckpoint digest (run "A" 4 310 running) 310 ended).1 = Ok tt.
Proof. vm_compute. done. Qed.

(** A revoking checkpoint whose identity does not match is refused, yet its
    tombstone stays: the root is revoked while its checkpoints go on running. *)
Theorem refused_revocation_half_done :
  let bad := mkRun "A" (owner "root") (Flat []) [orch_mcp] [] 3 (rootBudget (run "A" 3 200 running)) None revoked 220
               None None None None None in
  let d := (upsertCheckpoint digest bad 300 two).2 in
  (upsertCheckpoint digest bad 300 two).1 = Err "durable checkpoint identity mismatch"
  /\ RevokedRoot "root" d /\ (status ∘ rec <$> checkpoints d) = [running; running]
  /\ (touchHeartbeat "A" 400 400 d).1 = Ok tt.
Proof. vm_compute. done. Qed.
End Demo.
End DurableRunsTheorems.
