(* ===== verification/ResumeEngine.v ===== *)
(** * The durable resume engine

  Models [packages/daemon/src/autonomy/durable-resume-engine.ts], the watchdog
  of [durable-watchdog.ts] and the recovery runner of
  [wiring/setup-durable-resume.ts]: the pass that parks outward sends a crash
  left in flight and then resumes or orphans every running checkpoint.

  A pass is a program over the durable run store, the outward ledger, the clock,
  fresh ids, the lease manager and the resumer of runs; every one of these calls
  may be answered by anything and interleaved with other programs.  Logs and the
  times that only enter events are left out.  The counters of re-anchored
  checkpoints are passed along.  Redaction of error texts is a parameter. *)

From S2P Require Import Prelude ConversationScope SessionKeys TaskTypes ApprovalPolicy ExecutionGraph OutwardLedger OutwardSend DurableRuns.

Open Scope string_scope.
Open Scope list_scope.
Open Scope Z_scope.

Module ResumeEngine.
Import DurableRuns.

(** ** Reasons *)

Inductive OrphanCode := not_resumable_ | reread_failed | invalid_record | invalid_caps | outward_uncertain | resume_failed.

#[global] Instance OrphanCode_eq_dec : EqDecision OrphanCode.
Proof. solve_decision. Defined.

Definition contains (p s : string) : bool := OutwardSend.searchFrom p s (fun _ => true).

(** The patterns of [orphanReasonToEnum], in its order; all ignore case. *)
Definition orphanPatterns : list ((string -> bool) * OrphanCode) :=
  [ (fun s => contains "not resumable" s || contains "status=" s, not_resumable_);
    (fun s => contains "re-read" s || contains "reread" s || contains "reconcile" s || contains "query failed" s, reread_failed);
    (fun s => contains "invalid durable record" s, invalid_record);
    (fun s => contains "invalid caps" s || contains "caps" s, invalid_caps);
    (fun s => OutwardSend.searchFrom "outward" s
                (ApprovalPolicy.dotStar (fun rest =>
                   match ApprovalPolicy.stripPrefix "uncertain" rest with Some _ => true | None => false end))
              || contains "outward effect unresolved" s, outward_uncertain) ].

Definition orphanReasonToEnum (freeText : string) : OrphanCode :=
  let s := toLowerCase freeText in
  match list_find (fun p => p.1 s = true) orphanPatterns with
  | Some (_, p) => p.2
  | None => resume_failed
  end.

(** ** Programs *)

(** [MintLeaseInput] and [IssuedLease] *)
Record MintLeaseInput := {
  l_agentId : string;
  l_caps : list Cap;
  l_budgetRef : string;
  l_sessionKey : string;
  l_trustLevel : ApprovalPolicy.UserTrustLevel;
  l_deliveryOrigin : option Origin;
  l_turnScope : ConversationScope.ResolvedTurnScope;
  l_rootRunId : string;
  l_checkpointId : string
}.

Record IssuedLease := { leaseId : string; bearer : string }.

(** The calls on the durable run store. *)
Inductive Req := QScan | QReread (cid : string) | QClaim (c : Claim) | QOrphan (cid reason : string).

Definition Ans (q : Req) : Type :=
  match q with QScan => Scan | QReread _ => option Run | QClaim _ => ClaimOutcome | QOrphan _ _ => unit end.

(** What a pass tells the rest of the system. *)
Inductive Effect :=
| Notified (kind root reason hint : string)
| Orphaned (root : string) (reason : OrphanCode)
| Resumed (root sessionKey source checkpoint : string)
| Reclaimed (r : Run)
| LeaseRevoked (id : string).

Inductive Prog (A : Type) : Type :=
| Ret (a : A)
| Throw (e : string)
| Store (q : Req) (k : Result (Ans q) string -> Prog A)
| Outward (q : OutwardSend.Req) (k : Result (OutwardSend.Ans q) string -> Prog A)
| Now (k : Z -> Prog A)
| Uuid (k : string -> Prog A)
| Mint (i : MintLeaseInput) (k : Result IssuedLease string -> Prog A)
| Start (r : Run) (lease : IssuedLease) (k : Result unit string -> Prog A)
| Do (e : Effect) (p : Prog A).
Arguments Ret {A} _.
Arguments Throw {A} _.
Arguments Store {A} _ _.
Arguments Outward {A} _ _.
Arguments Now {A} _.
Arguments Uuid {A} _.
Arguments Mint {A} _ _.
Arguments Start {A} _ _ _.
Arguments Do {A} _ _.

Fixpoint bind {A B} (f : A -> Prog B) (p : Prog A) : Prog B :=
  match p with
  | Ret a => f a
  | Throw e => Throw e
  | Store q k => Store q (fun r => bind f (k r))
  | Outward q k => Outward q (fun r => bind f (k r))
  | Now k => Now (fun t => bind f (k t))
  | Uuid k => Uuid (fun u => bind f (k u))
  | Mint i k => Mint i (fun r => bind f (k r))
  | Start r l k => Start r l (fun x => bind f (k x))
  | Do e p => Do e (bind f p)
  end.

#[global] Instance Prog_bind : MBind Prog := @bind.

Definition store (q : Req) : Prog (Result (Ans q) string) := Store q Ret.
Definition tell (e : Effect) : Prog unit := Do e (Ret tt).

(** A program over the outward ledger, inside a pass; it sends nothing. *)
Fixpoint outward {A} (p : OutwardSend.Prog A) : Prog A :=
  match p with
  | OutwardSend.Ret a => Ret a
  | OutwardSend.Throw e => Throw (OutwardSend.message e)
  | OutwardSend.Call q k => Outward q (fun r => outward (k r))
  | OutwardSend.Send _ k => outward (k OutwardSend.PUnknown)
  | OutwardSend.Now k => Now (fun t => outward (k t))
  end.

(** ** The pass *)

(** [Map<checkpointId, { heartbeat, count }>] *)
Definition Reanchor := gmap string (Z * nat).

Definition MAX_REANCHOR_ATTEMPTS : nat := 3.
Definition DEFAULT_BUDGET_REF : string := "durable-resume".

Record ResumeAllResult := { resumed : nat; orphaned_ : nat; deferred : nat }.

(** A backlog entry: a record, or the identity of an invalid row. *)
Inductive Candidate := CRecord (r : Run) | CInvalid (checkpoint root : string).

Definition candidateId (c : Candidate) : string :=
  match c with CRecord r => checkpointId r | CInvalid cid _ => cid end.

(** How one candidate ends. *)
Inductive Outcome := OResumed | OOrphaned | OSkipped | OAbort (e : string).

(** The optional seams of the engine and its budget. *)
Record Deps := {
  recoveryBudgetMs : Z;
  resolveTurnScope : option (Run -> Result ConversationScope.ResolvedTurnScope string);
  hasRevokeLease : bool;
  hasReclaim : bool
}.

Definition displayKey (k : ConversationScope.SessionKey) : SessionKeys.SessionKey :=
  {| SessionKeys.tenantId := ConversationScope.skTenantId k; SessionKeys.agentId := ConversationScope.skAgentId k;
     SessionKeys.userId := ConversationScope.skUserId k; SessionKeys.channelId := ConversationScope.skChannelId k;
     SessionKeys.peerId := ConversationScope.skPeerId k; SessionKeys.guildId := None;
     SessionKeys.threadId := ConversationScope.skThreadId k |}.

Definition statusName (s : Status) : string :=
  match s with running => "running" | orphaned => "orphaned" | completed => "completed" | revoked => "revoked" end.

Section Engine.
Variable digest : string -> string.
Variable toSafeErrorLogString : string -> string.
Variable deps : Deps.

(** [orphan]: the operator is notified whether or not the row could be marked. *)
Definition orphan (cid root reason hint : string) : Prog unit :=
  marked ← store (QOrphan cid reason);
  _ ← tell (Notified "run_orphaned" root reason hint);
  tell (Orphaned root (orphanReasonToEnum reason)).

Definition orphanAs (cid root reason hint : string) (m : Reanchor) : Prog (Outcome * Reanchor) :=
  _ ← orphan cid root reason hint; Ret (OOrphaned, m).

Definition reclaim (r : Run) : Prog unit := if hasReclaim deps then tell (Reclaimed r) else Ret tt.

Definition revokeLease (lease : IssuedLease) : Prog unit :=
  if hasRevokeLease deps then tell (LeaseRevoked (leaseId lease)) else Ret tt.

(** The endpoint a resumed turn runs under. *)
Definition turnScopeOf (r : Run) : Result ConversationScope.ResolvedTurnScope string :=
  match ConversationScope.partition (p_scope (principal r)) with
  | ConversationScope.PEndpointPrincipal endpoint _ =>
      Ok {| ConversationScope.conversation := p_scope (principal r);
            ConversationScope.principal := p_principalId (principal r);
            ConversationScope.endpoint := endpoint |}
  | _ =>
      match resolveTurnScope deps with
      | Some resolve => resolve r
      | None => Err "the durable record omitted its resolved endpoint"
      end
  end.

Definition leaseInput (root : string) (r : Run) (sessionKey : string) (scope : ConversationScope.ResolvedTurnScope)
    : MintLeaseInput :=
  {| l_agentId := p_agentId (principal r); l_caps := caps r; l_budgetRef := DEFAULT_BUDGET_REF;
     l_sessionKey := sessionKey; l_trustLevel := p_trust (principal r); l_deliveryOrigin := p_origin (principal r);
     l_turnScope := scope; l_rootRunId := root; l_checkpointId := checkpointId r |}.

(** The tail of the loop body: mint a lease for the replacement and start it. *)
Definition startReplacement (root : string) (source record : Run) (m : Reanchor) : Prog (Outcome * Reanchor) :=
  match ConversationScope.conversationScopeToSessionKey (p_scope (principal record)), turnScopeOf record with
  | Ok display, Ok turnScope =>
      let sessionKey := SessionKeys.formatSessionKey (displayKey display) in
      Mint (leaseInput root record sessionKey turnScope) (fun minted =>
        match minted with
        | Err e => Throw e
        | Ok lease =>
            Start record lease (fun resumeResult =>
              match resumeResult with
              | Ok _ =>
                  _ ← tell (Resumed root sessionKey (checkpointId source) (checkpointId record));
                  Ret (OResumed, m)
              | Err e =>
                  _ ← revokeLease lease;
                  _ ← orphan (checkpointId record) (rootRunId record) (toSafeErrorLogString e)
                        "the run could not be resumed from its checkpoint; inspect the cause and re-launch if needed";
                  _ ← reclaim source;
                  Ret (OOrphaned, m)
              end)
        end)
  | _, _ =>
      orphanAs (checkpointId record) (rootRunId record) "invalid durable record authority"
        "the persisted conversation authority cannot reconstruct a resolved resume turn" m
  end.

(** [{ ...claimed.value.record, checkpointId, leaseIds: [], status: "running" }] *)
Definition asReplacement (newId : string) (r : Run) : Run :=
  mkRun newId (principal r) (spawnTree r) (caps r) [] (budgetConsumed r) (rootBudget r) (cronOrigin r) running
    (lastHeartbeatAt r) (scriptRef r) (checkpointRef r) (workspacePolicyHash r) (resumeDescriptorHash r)
    (terminalReason r).

(** After a granted claim: validate the replacement, ask the ledger, start. *)
Definition afterClaim (root : string) (source replacement : Run) (newId : string) (m : Reanchor)
    : Prog (Outcome * Reanchor) :=
  match parseDurableRunRecord digest (asReplacement newId replacement) with
  | Err _ =>
      orphanAs newId root "invalid durable replacement"
        "the atomic replacement failed local validation and was quarantined" m
  | Ok record =>
      Outward (OutwardSend.QHasUncertainty root) (fun uncertainty =>
        match uncertainty with
        | Err e =>
            _ ← orphan (checkpointId record) (rootRunId record) "outward uncertainty query failed"
                  "the outward ledger could not prove this run safe to resume; repair the store and verify platform effects";
            Ret (OAbort e, m)
        | Ok true =>
            orphanAs (checkpointId record) (rootRunId record) "outward delivery uncertain"
              "verify the platform side effect before re-launching this execution" m
        | Ok false => startReplacement root source record m
        end)
  end.

(** The claim the engine makes in the name of the stored record. *)
Definition claimOf (cid : string) (source : Run) (newId : string) (now : Z) : Claim :=
  let p := principal source in
  {| c_checkpointId := cid; c_replacementId := newId;
     c_claimedAtMs := Z.max now (Z.max (lastHeartbeatAt source) (startedAtMs (rootBudget source)));
     c_tenantId := p_tenantId p; c_agentId := p_agentId p; c_conversationRef := p_conversationRef p;
     c_scope := p_scope p; c_principalId := p_principalId p; c_origin := p_origin p; c_trust := p_trust p;
     c_caps := caps source |}.

Definition claimAndStart (cid root : string) (source : Run) (attempts : nat) (m : Reanchor) : Prog (Outcome * Reanchor) :=
  Uuid (fun uuid => Now (fun now =>
    let newId := "resume-" +:+ uuid in
    claimed ← store (QClaim (claimOf cid source newId now));
    match claimed with
    | Err e => Ret (OAbort e, m)
    | Ok (claimed replacement) =>
        afterClaim root source replacement newId (<[newId := (lastHeartbeatAt source, attempts)]> m)
    | Ok _ => Ret (OSkipped, m)
    end)).

(** The re-anchor count of a checkpoint at the heartbeat now stored. *)
Definition attemptsOf (cid : string) (heartbeatNow : Z) (m : Reanchor) : nat :=
  match m !! cid with
  | Some (heartbeat, count) => if heartbeat =? heartbeatNow then S count else 1%nat
  | None => 1%nat
  end.

(** What the loop does with a stored record that is running and valid. *)
Definition resumeSource (cid root : string) (source : Run) (m : Reanchor) : Prog (Outcome * Reanchor) :=
  let attempts := attemptsOf cid (lastHeartbeatAt source) m in
  if (MAX_REANCHOR_ATTEMPTS <? attempts)%nat then
    _ ← orphan (checkpointId source) (rootRunId source) "not resumable: exceeded 3 no-progress re-anchor attempts"
          "the run's heartbeat never advanced across repeated re-anchors — its process is gone and it was never explicitly resumed; re-launch it if still needed";
    _ ← reclaim source;
    Ret (OOrphaned, delete cid m)
  else claimAndStart cid root source attempts (<[cid := (lastHeartbeatAt source, attempts)]> m).

(** One iteration of the loop for a record, after the re-read. *)
Definition afterReread (candidate : Run) (reread : Result (option Run) string) (m : Reanchor) : Prog (Outcome * Reanchor) :=
  let cid := checkpointId candidate in
  let root := rootRunId candidate in
  let lost found :=
    orphanAs cid root ("not resumable: status=" +:+ found)
      "the run was revoked/completed/removed between scan and resume" m in
  match reread with
  | Err _ => orphanAs cid root "re-read failed" "the checkpoint could not be re-read; verify the store" m
  | Ok None => lost "missing"
  | Ok (Some r) =>
      if decide (status r = running) then
        match parseDurableRunRecord digest r with
        | Err _ =>
            orphanAs cid root "invalid caps"
              "the persisted caps/record failed validation (tampered or malformed); resume refused" m
        | Ok source => resumeSource cid root source m
        end
      else lost (statusName (status r))
  end.

Definition resumeRecord (candidate : Run) (m : Reanchor) : Prog (Outcome * Reanchor) :=
  reread ← store (QReread (checkpointId candidate)); afterReread candidate reread m.

Definition resumeCandidate (c : Candidate) (m : Reanchor) : Prog (Outcome * Reanchor) :=
  match c with
  | CInvalid cid root =>
      orphanAs cid root "invalid durable record"
        "the persisted checkpoint principal or authority fields failed validation; inspect the protected store before re-launching" m
  | CRecord r => resumeRecord r m
  end.

Definition counted (o : Outcome) (a : ResumeAllResult) : ResumeAllResult :=
  match o with
  | OResumed => {| resumed := S (resumed a); orphaned_ := orphaned_ a; deferred := deferred a |}
  | OOrphaned => {| resumed := resumed a; orphaned_ := S (orphaned_ a); deferred := deferred a |}
  | _ => a
  end.

Definition defer (n : nat) (a : ResumeAllResult) : ResumeAllResult :=
  {| resumed := resumed a; orphaned_ := orphaned_ a; deferred := n + deferred a |}.

(** The loop over the backlog; [acc] carries the outward overflow. *)
Fixpoint resumeBacklog (deadline : Z) (backlog : list Candidate) (acc : ResumeAllResult) (m : Reanchor)
    : Prog (Result ResumeAllResult string * Reanchor) :=
  match backlog with
  | [] => Ret (Ok acc, m)
  | c :: rest =>
      Now (fun now =>
        if deadline <? now then Ret (Ok (defer (length backlog) acc), m)
        else
          out ← resumeCandidate c m;
          match out with
          | (OAbort e, m') => Ret (Err e, m')
          | (o, m') => resumeBacklog deadline rest (counted o acc) m'
          end)
  end.

Definition fullBacklog (s : Scan) : list Candidate :=
  ((fun p => CInvalid p.1 p.2) <$> invalid s) ++ (CRecord <$> records s).

Definition eligible (ids : option (list string)) (l : list Candidate) : list Candidate :=
  match ids with None => l | Some ids => filter (fun c => candidateId c ∈ ids) l end.

Definition prune (l : list Candidate) (m : Reanchor) : Reanchor :=
  filter (fun p => p.1 ∈ (candidateId <$> l)) m.

(** [resumeAll] *)
Definition resumeAll (ids : option (list string)) (m : Reanchor) : Prog (Result ResumeAllResult string * Reanchor) :=
  Now (fun passStart =>
    let deadline := passStart + recoveryBudgetMs deps in
    parked ← outward (OutwardSend.parkOutwardBy deadline);
    match parked with
    | OutwardSend.OPFailed e => Ret (Err (OutwardSend.message e), m)
    | OutwardSend.OPDeferred n => Ret (Ok {| resumed := 0; orphaned_ := 0; deferred := n |}, m)
    | OutwardSend.OPDone overflow =>
        scan ← store QScan;
        match scan with
        | Err e => Ret (Err e, m)
        | Ok s =>
            resumeBacklog deadline (eligible ids (fullBacklog s))
              {| resumed := 0; orphaned_ := 0; deferred := overflow |} (prune (fullBacklog s) m)
        end
    end).

(** ** The watchdog *)

Definition DEFAULT_KEEPALIVE_MS : Z := 30000.
Definition DEFAULT_STALE_HEARTBEAT_MS : Z := 120000.

Definition detectStaleRuns (runs : list Run) (nowMs staleHeartbeatMs : Z) : list Run :=
  filter (fun r => status r = running /\ lastHeartbeatAt r < nowMs - staleHeartbeatMs) runs.

(** One tick of the interval, when no pass is in flight. *)
Definition watchdogTick (staleHeartbeatMs : Z) (m : Reanchor) : Prog (option (Result ResumeAllResult string) * Reanchor) :=
  Outward (OutwardSend.QList 1) (fun pending =>
    match pending with
    | Err _ => Ret (None, m)
    | Ok pending =>
        scan ← store QScan;
        match scan with
        | Err _ => Ret (None, m)
        | Ok s =>
            Now (fun now =>
              let stale := detectStaleRuns (records s) now staleHeartbeatMs in
              if bool_decide (pending <> [] \/ stale <> [] \/ invalid s <> []) then
                out ← resumeAll (Some ((checkpointId <$> stale) ++ (fst <$> invalid s))) m;
                Ret (Some out.1, out.2)
              else Ret (None, m))
        end
    end).
End Engine.
End ResumeEngine.
