(* ===== verification/ResumeWorld.v ===== *)
(** * Recovery passes in a running system

  Any number of recovery passes and watchdog ticks, of one process or several,
  interleaved at every call with each other, with any other calls on the durable
  run store, with any change of the outward ledger, with failing store calls and
  with crashes.  The trace records the claims that were granted, the ledger's
  answers that a root has no uncertain send, the leases and the starts.

  A job carries a ghost: what the pass has learned.  [wp] says what a program
  may do given that; the invariant of the world makes the ghost true. *)

From S2P Require Import Prelude ConversationScope SessionKeys TaskTypes ApprovalPolicy ExecutionGraph OutwardLedger OutwardSend DurableRuns DurableRunsFacts DurableRunsHistory ResumeEngine.

Open Scope string_scope.
Open Scope list_scope.
Open Scope Z_scope.

Module ResumeWorld.
Import DurableRuns DurableRunsFacts DurableRunsHistory ResumeEngine.

(** ** What happens *)

Inductive Ev :=
| EClaim (persisted r : Run)
| EClear (root : string)
| EMint (i : MintLeaseInput) (lease : IssuedLease)
| EStart (r : Run) (lease : IssuedLease).

(** The replacement a pass holds, whether the ledger has cleared its root since,
    and the lease minted for it. *)
Record Held := mkHeld { h_record : Run; h_clear : bool; h_lease : option (MintLeaseInput * IssuedLease) }.

(** The principals a pass has read, by checkpoint, and what it holds. *)
Record Ghost := mkGhost { seen : list (string * Principal); held : option Held }.

Definition noGhost : Ghost := mkGhost [] None.

Definition afterStore (q : Req) (g : Ghost) : Result (Ans q) string -> Ghost :=
  match q return Result (Ans q) string -> Ghost with
  | QScan => fun a =>
      match a with Ok s => mkGhost (((fun r => (checkpointId r, principal r)) <$> records s) ++ seen g) (held g) | Err _ => g end
  | QClaim _ => fun a => match a with Ok (claimed r) => mkGhost (seen g) (Some (mkHeld r false None)) | _ => g end
  | _ => fun _ => g
  end.

Definition afterOutward (q : OutwardSend.Req) (g : Ghost) : Result (OutwardSend.Ans q) string -> Ghost :=
  match q return Result (OutwardSend.Ans q) string -> Ghost with
  | OutwardSend.QHasUncertainty root => fun a =>
      match a, held g with
      | Ok false, Some h =>
          if decide (root = rootRunId (h_record h)) then mkGhost (seen g) (Some (mkHeld (h_record h) true (h_lease h))) else g
      | _, _ => g
      end
  | _ => fun _ => g
  end.

Definition afterMint (i : MintLeaseInput) (g : Ghost) (a : Result IssuedLease string) : Ghost :=
  match a, held g with
  | Ok lease, Some h => mkGhost (seen g) (Some (mkHeld (h_record h) (h_clear h) (Some (i, lease))))
  | _, _ => g
  end.

(** ** One job *)

(** The answers of the outside at a step. *)
Record Env := { e_now : Z; e_uuid : string; e_fault : option string; e_lease : Result IssuedLease string; e_resumed : Result unit string }.

Record Job := mkJob { prog : Prog unit; ghost : Ghost }.

Record Moved := { m_job : Job; m_db : Db; m_ledger : OutwardLedger.Db; m_events : list Ev }.

Section World.
Variable digest : string -> string.
Variable sha256 : string -> string.
Variable toSafeErrorLogString : string -> string.
Variable deps : Deps.

Definition execStore (q : Req) (now : Z) (d : Db) : Result (Ans q) string * Db :=
  match q return Result (Ans q) string * Db with
  | QScan => (listResumable digest d, d)
  | QReread cid => (getByCheckpoint digest cid d, d)
  | QClaim c => claimForResume digest c d
  | QOrphan cid reason => markOrphaned cid reason now d
  end.

Definition storeEvents (q : Req) (d : Db) : Result (Ans q) string -> list Ev :=
  match q return Result (Ans q) string -> list Ev with
  | QClaim c => fun a =>
      match a, getStmt (c_checkpointId c) d with Ok (claimed r), Some row => [EClaim (rec row) r] | _, _ => [] end
  | _ => fun _ => []
  end.

Definition outwardEvents (q : OutwardSend.Req) : Result (OutwardSend.Ans q) string -> list Ev :=
  match q return Result (OutwardSend.Ans q) string -> list Ev with
  | OutwardSend.QHasUncertainty root => fun a => match a with Ok false => [EClear root] | _ => [] end
  | _ => fun _ => []
  end.

(** The next action of a job; a fault answers a store call and changes nothing. *)
Definition advance (env : Env) (j : Job) (d : Db) (l : OutwardLedger.Db) : option Moved :=
  let g := ghost j in
  let move p g' d' l' evs := Some {| m_job := mkJob p g'; m_db := d'; m_ledger := l'; m_events := evs |} in
  match prog j with
  | Ret _ | Throw _ => None
  | Store q k =>
      let '(a, d') := match e_fault env with Some e => (Err e, d) | None => execStore q (e_now env) d end in
      move (k a) (afterStore q g a) d' l (storeEvents q d a)
  | Outward q k =>
      let '(a, l') := match e_fault env with Some e => (Err e, l) | None => OutwardSend.exec sha256 q (e_now env) l end in
      move (k a) (afterOutward q g a) d l' (outwardEvents q a)
  | Now k => move (k (e_now env)) g d l []
  | Uuid k => move (k (e_uuid env)) g d l []
  | Mint i k =>
      move (k (e_lease env)) (afterMint i g (e_lease env)) d l
        (match e_lease env with Ok lease => [EMint i lease] | Err _ => [] end)
  | Start r lease k => move (k (e_resumed env)) (mkGhost (seen g) None) d l [EStart r lease]
  | Do _ p => move p g d l []
  end.

(** ** The world *)

Record World := mkWorld { db : Db; ledger : OutwardLedger.Db; jobs : list Job; trace : list (nat * Ev) }.

Definition boot (d : Db) (l : OutwardLedger.Db) : World := mkWorld d l [] [].

(** What can be started, with whatever counters the engine has. *)
Inductive Pass := Recover (ids : option (list string)) (m : Reanchor) | Watch (staleHeartbeatMs : Z) (m : Reanchor).

Definition passProg (p : Pass) : Prog unit :=
  match p with
  | Recover ids m => _ ← resumeAll digest toSafeErrorLogString deps ids m; Ret tt
  | Watch stale m => _ ← watchdogTick digest toSafeErrorLogString deps stale m; Ret tt
  end.

Inductive Choice :=
| Spawn (p : Pass)
| Tick (n : nat) (env : Env)
| Call (o : Op)
| SetLedger (l : OutwardLedger.Db)
| Crash.

Definition choose (c : Choice) (w : World) : option World :=
  match c with
  | Spawn p => Some (mkWorld (db w) (ledger w) (jobs w ++ [mkJob (passProg p) noGhost]) (trace w))
  | Tick n env =>
      j ← jobs w !! n;
      m ← advance env j (db w) (ledger w);
      Some (mkWorld (m_db m) (m_ledger m) (<[n := m_job m]> (jobs w)) ((pair n <$> m_events m) ++ trace w))
  | Call o => Some (mkWorld (exec digest o (db w)).2 (ledger w) (jobs w) (trace w))
  | SetLedger l => Some (mkWorld (db w) l (jobs w) (trace w))
  | Crash => Some (mkWorld (db w) (ledger w) ((fun _ => mkJob (Ret tt) noGhost) <$> jobs w) (trace w))
  end.

Definition play (cs : list Choice) (w : World) : World := foldl (fun w c => default w (choose c w)) w cs.

(** ** What a program may do *)

(** The answers the store can give, as far as the ghost tells. *)
Definition PlausibleStore (q : Req) (g : Ghost) : Result (Ans q) string -> Prop :=
  match q return Result (Ans q) string -> Prop with
  | QClaim c => fun a => forall r, a = Ok (claimed r) ->
      checkpointId r = c_replacementId c /\ leaseIds r = [] /\ status r = running
      /\ forall p, (c_checkpointId c, p) ∈ seen g -> principal r = p
  | _ => fun _ => True
  end.

(** A lease for exactly the authority of a record. *)
Definition Matches (i : MintLeaseInput) (r : Run) : Prop :=
  l_caps i = caps r /\ l_agentId i = p_agentId (principal r) /\ l_trustLevel i = p_trust (principal r)
  /\ l_deliveryOrigin i = p_origin (principal r) /\ l_rootRunId i = rootRunId r /\ l_checkpointId i = checkpointId r.

Fixpoint wp {A} (p : Prog A) (g : Ghost) (Q : Ghost -> A -> Prop) : Prop :=
  match p with
  | Ret a => Q g a
  | Throw _ => True
  | Store q k => forall a, PlausibleStore q g a -> wp (k a) (afterStore q g a) Q
  | Outward q k => forall a, wp (k a) (afterOutward q g a) Q
  | Now k => forall t, wp (k t) g Q
  | Uuid k => forall u, wp (k u) g Q
  | Mint i k =>
      (exists h, held g = Some h /\ h_clear h = true /\ Matches i (h_record h)) /\ forall a, wp (k a) (afterMint i g a) Q
  | Start r lease k =>
      (exists i, held g = Some (mkHeld r true (Some (i, lease))) /\ Matches i r)
      /\ forall a, wp (k a) (mkGhost (seen g) None) Q
  | Do _ p => wp p g Q
  end.

Lemma pass_wp_bind {A B} (p : Prog A) (f : A -> Prog B) g Q :
  wp p g (fun g' a => wp (f a) g' Q) -> wp (p ≫= f) g Q.
Proof.
  revert g. induction p as [a|e|q k IH|q k IH|k IH|k IH|i k IH|r l k IH|e p IH]; intros g H; simpl in *; auto.
  - destruct H as [H1 H2]. eauto.
  - destruct H as [H1 H2]. eauto.
Qed.

Lemma pass_wp_mono {A} (p : Prog A) g (Q R : Ghost -> A -> Prop) :
  (forall g' a, Q g' a -> R g' a) -> wp p g Q -> wp p g R.
Proof.
  intros HQ. revert g. induction p as [a|e|q k IH|q k IH|k IH|k IH|i k IH|r l k IH|e p IH]; intros g H; simpl in *; auto.
  - destruct H as [H1 H2]. eauto.
  - destruct H as [H1 H2]. eauto.
Qed.
End World.
End ResumeWorld.
