(* ===== verification/ResumeSafety.v ===== *)
(** * What a recovery pass does, whatever happens around it

  The engine's programs respect [wp]; the invariant of the world; and the two
  facts every start of a run rests on. *)

From S2P Require Import Prelude ConversationScope SessionKeys TaskTypes ApprovalPolicy ExecutionGraph OutwardLedger OutwardSend DurableRuns DurableRunsFacts DurableRunsHistory DurableRunsBudget DurableRunsTheorems ResumeEngine ResumeWorld.

Open Scope string_scope.
Open Scope list_scope.
Open Scope Z_scope.

Module ResumeSafety.
Import DurableRuns DurableRunsFacts DurableRunsHistory DurableRunsTheorems ResumeEngine ResumeWorld.

(** ** The engine *)

Section Engine.
Variable digest : string -> string.
Variable toSafeErrorLogString : string -> string.
Variable deps : Deps.

(** Nothing a pass has read is forgotten. *)
Definition Keeps (g : Ghost) {A} (g' : Ghost) (_ : A) : Prop := seen g ⊆ seen g'.

Lemma Keeps_refl g {A} (a : A) : Keeps g g a.
Proof. unfold Keeps. set_solver. Qed.

#[local] Hint Resolve Keeps_refl : core.

Ltac keeps := by unfold Keeps in *; simpl in *; set_solver.

Lemma afterOutward_seen q g a : seen (afterOutward q g a) = seen g.
Proof.
  unfold afterOutward. destruct q; try done. destruct a as [[]|]; try done. destruct (held g); try done. by case_decide.
Qed.

Lemma outward_wp {A} (p : OutwardSend.Prog A) g : wp (outward p) g (Keeps g).
Proof.
  assert (forall g', seen g ⊆ seen g' -> wp (outward p) g' (Keeps g)) as H; [|by apply H].
  induction p as [a|e|q k IH|key k IH|k IH]; intros g' Hg; simpl; auto.
  intros a. apply IH. by rewrite afterOutward_seen.
Qed.

Lemma orphan_wp cid root reason hint g (Q : Ghost -> unit -> Prop) :
  Q g tt -> wp (orphan cid root reason hint) g Q.
Proof. by intros HQ a _. Qed.

Lemma orphanAs_wp cid root reason hint m g (Q : Ghost -> Outcome * Reanchor -> Prop) :
  Q g (OOrphaned, m) -> wp (orphanAs cid root reason hint m) g Q.
Proof. intros HQ. apply pass_wp_bind, orphan_wp. done. Qed.

Lemma reclaim_wp r g (Q : Ghost -> unit -> Prop) : Q g tt -> wp (reclaim deps r) g Q.
Proof. intros HQ. unfold reclaim. by destruct (hasReclaim deps). Qed.

Lemma startReplacement_wp root source r m g :
  held g = Some (mkHeld r true None) -> root = rootRunId r ->
  wp (startReplacement toSafeErrorLogString deps root source r m) g (Keeps g).
Proof.
  intros Hh ->. unfold startReplacement.
  destruct (ConversationScope.conversationScopeToSessionKey _) as [display|]; [|by apply orphanAs_wp].
  destruct (turnScopeOf deps r) as [turn|]; [|by apply orphanAs_wp]. split.
  { exists (mkHeld r true None). split; [done|]. split; [done|]. by repeat split. }
  intros [lease|e]; [|done]. unfold afterMint. rewrite Hh. split.
  { eexists. split; [done|]. by repeat split. }
  intros [[]|e]; [keeps|]. apply pass_wp_bind.
  unfold revokeLease. destruct (hasRevokeLease deps); apply pass_wp_bind, orphan_wp, pass_wp_bind, reclaim_wp; keeps.
Qed.

Lemma afterClaim_wp root source r newId m g :
  held g = Some (mkHeld r false None) -> root = rootRunId r -> checkpointId r = newId -> leaseIds r = [] -> status r = running ->
  wp (afterClaim digest toSafeErrorLogString deps root source r newId m) g (Keeps g).
Proof.
  intros Hh Hr Hid Hl Hs. unfold afterClaim. destruct (parseDurableRunRecord digest _) as [record|] eqn:E; [|by apply orphanAs_wp].
  apply parse_Ok in E as [-> _]. assert (asReplacement newId r = r) as -> by (destruct r; simpl in *; by subst).
  intros [[]|e].
  - by apply orphanAs_wp.
  - unfold afterOutward. rewrite Hh. cbn [h_record h_lease]. rewrite decide_True by done.
    by apply (startReplacement_wp _ _ _ _ (mkGhost (seen g) _)).
  - apply pass_wp_bind, orphan_wp. keeps.
Qed.

Lemma claimAndStart_wp cid p source attempts m g :
  (cid, p) ∈ seen g ->
  wp (claimAndStart digest toSafeErrorLogString deps cid (p_rootRunId p) source attempts m) g (Keeps g).
Proof.
  intros Hp uuid now a Ha. destruct a as [[r| | |]|e]; [|keeps..].
  destruct (Ha r eq_refl) as (Hid & Hl & Hs & Hpr). specialize (Hpr p Hp). 
  apply (afterClaim_wp _ _ _ _ _ (mkGhost (seen g) (Some (mkHeld r false None)))); try done. unfold rootRunId. by rewrite Hpr.
Qed.

Lemma afterReread_wp r a m g :
  (checkpointId r, principal r) ∈ seen g -> wp (afterReread digest toSafeErrorLogString deps r a m) g (Keeps g).
Proof.
  intros Hr. unfold afterReread. destruct a as [[x|]|e]; [|by apply orphanAs_wp..].
  case_decide as Hs; [|by apply orphanAs_wp].
  destruct (parseDurableRunRecord digest x) as [source|]; [|by apply orphanAs_wp].
  unfold resumeSource. destruct (_ <? _)%nat; [by apply pass_wp_bind, orphan_wp, pass_wp_bind, reclaim_wp; simpl|].
  by apply claimAndStart_wp.
Qed.

Lemma resumeRecord_wp r m g :
  (checkpointId r, principal r) ∈ seen g -> wp (resumeRecord digest toSafeErrorLogString deps r m) g (Keeps g).
Proof. intros Hr a _. by apply afterReread_wp. Qed.

Definition Known (g : Ghost) (c : Candidate) : Prop :=
  match c with CRecord r => (checkpointId r, principal r) ∈ seen g | CInvalid _ _ => True end.

Lemma resumeBacklog_wp deadline backlog acc m g :
  Forall (Known g) backlog -> wp (resumeBacklog digest toSafeErrorLogString deps deadline backlog acc m) g (Keeps g).
Proof.
  intros Hb. assert (forall g', seen g ⊆ seen g' ->
    wp (resumeBacklog digest toSafeErrorLogString deps deadline backlog acc m) g' (Keeps g)) as H; [|by apply H].
  revert acc m. induction Hb as [|c rest Hc Hb IH]; intros acc m g' Hg; [done|]. intros now.
  destruct (_ <? _); [done|]. apply pass_wp_bind.
  apply (pass_wp_mono _ _ (Keeps g')).
  - intros g2 [o m'] H2. assert (seen g ⊆ seen g2) by set_solver. destruct o; try by apply IH. done.
  - destruct c as [r|cid root]; [apply resumeRecord_wp; simpl in Hc; set_solver|by apply orphanAs_wp].
Qed.

Lemma resumeAll_wp ids m g : wp (resumeAll digest toSafeErrorLogString deps ids m) g (Keeps g).
Proof.
  intros passStart. apply pass_wp_bind. apply (pass_wp_mono _ _ (Keeps g)); [|apply outward_wp].
  intros g1 [e|n|overflow] Hg; [done|done|]. intros a _. destruct a as [s|e]; [|done]. simpl.
  set (g2 := mkGhost _ _). apply (pass_wp_mono _ _ (Keeps g2)).
  - intros g3 x H3. unfold Keeps in *. simpl in H3. set_solver.
  - apply resumeBacklog_wp. apply Forall_forall. intros c Hc.
    assert (c ∈ fullBacklog s) as Hf by (destruct ids; simpl in Hc; [by apply list_elem_of_filter in Hc as [_ ?]|done]).
    unfold fullBacklog in Hf. apply elem_of_app in Hf as [(p & -> & _)%list_elem_of_fmap|(r & -> & Hr)%list_elem_of_fmap]; [done|].
    simpl. apply elem_of_app. left. apply list_elem_of_fmap. by exists r.
Qed.

Lemma watchdogTick_wp stale m g : wp (watchdogTick digest toSafeErrorLogString deps stale m) g (Keeps g).
Proof.
  intros [pending|e]; [|keeps]. intros a _. destruct a as [s|e]; [|keeps]. intros now.
  cbn -[bool_decide detectStaleRuns resumeAll wp]. destruct (bool_decide _); [|keeps]. apply pass_wp_bind.
  eapply pass_wp_mono; [|apply resumeAll_wp]. intros g' out Hg. keeps.
Qed.

Lemma passProg_wp p : wp (passProg digest toSafeErrorLogString deps p) noGhost (fun _ _ => True).
Proof.
  destruct p as [ids m|stale m]; unfold passProg; apply pass_wp_bind; (eapply pass_wp_mono; [|apply resumeAll_wp || apply watchdogTick_wp]); done.
Qed.
End Engine.

(** ** The trace *)

Definition claimSource (e : nat * Ev) : option string := match e.2 with EClaim p _ => Some (checkpointId p) | _ => None end.
Definition claimTarget (e : nat * Ev) : option string := match e.2 with EClaim _ r => Some (checkpointId r) | _ => None end.
Definition startedId (e : nat * Ev) : option string := match e.2 with EStart r _ => Some (checkpointId r) | _ => None end.

(** Before a run starts, its pass was granted a claim on a stored checkpoint,
    then the ledger cleared the root, then a lease was minted, in that order. *)
Definition Backed (n : nat) (r : Run) (lease : IssuedLease) (past : list (nat * Ev)) : Prop :=
  exists p i, [(n, EMint i lease); (n, EClear (rootRunId r)); (n, EClaim p r)] `sublist_of` past /\ Matches i r.

Fixpoint Just (t : list (nat * Ev)) : Prop :=
  match t with
  | [] => True
  | (n, EStart r lease) :: past => Backed n r lease past /\ Just past
  | _ :: past => Just past
  end.

Lemma omap_NoDup_inj {A} (f : A -> option string) (t : list A) x y k :
  NoDup (omap f t) -> x ∈ t -> y ∈ t -> f x = Some k -> f y = Some k -> x = y.
Proof.
  induction t as [|z t IH]; [by intros _ ?%not_elem_of_nil|]. cbn [omap list_omap]. intros Hn Hx Hy Fx Fy.
  assert (forall w, w ∈ t -> f w = Some k -> k ∈ omap f t) as Hin by (intros w Hw Fw; apply list_elem_of_omap; by exists w).
  apply elem_of_cons in Hx as [-> | Hx]; apply elem_of_cons in Hy as [-> | Hy]; [done| | |].
  - rewrite Fx in Hn. apply NoDup_cons in Hn as [Hn _]. by destruct Hn; apply (Hin y).
  - rewrite Fy in Hn. apply NoDup_cons in Hn as [Hn _]. by destruct Hn; apply (Hin x).
  - apply IH; try done. destruct (f z); [by apply NoDup_cons in Hn as [_ ?]|done].
Qed.

Lemma Just_claim t e cid : Just t -> e ∈ t -> startedId e = Some cid -> exists e', e' ∈ t /\ claimTarget e' = Some cid.
Proof.
  induction t as [|x t IH]; [by intros _ ?%not_elem_of_nil|]. intros Hj He Hs.
  assert (Just t) as Ht by (destruct x as [n []]; simpl in Hj; tauto).
  apply elem_of_cons in He as [-> | He].
  - destruct x as [n [| | |r lease]]; try done. injection Hs as <-. destruct Hj as [(p & i & Hsub & _) _].
    exists (n, EClaim p r). split; [|done]. right.
    eapply elem_of_sublist; [|exact Hsub]. do 2 right. left.
  - destruct (IH Ht He Hs) as (e' & He' & ?). exists e'. split; [by right|done].
Qed.

(** ** The invariant *)

(** What later tables keep of earlier ones. *)
Definition Later (d d' : Db) : Prop := Keyed d' /\ forall cid, Evolves (getStmt cid d) (getStmt cid d').

Lemma Later_refl d : Keyed d -> Later d d.
Proof. intros Hk. split; [done|]. intros cid. reflexivity. Qed.

Lemma Writes_later g d d' : Keyed d -> Writes g d d' -> Later d d'.
Proof. intros Hk Hw. split; [by eapply Writes_keyed|]. intros cid. by eapply Writes_evolves. Qed.

Definition SeenOk (d : Db) (g : Ghost) : Prop :=
  forall cid p, (cid, p) ∈ seen g -> exists x, getStmt cid d = Some x /\ principal (rec x) = p.

(** The events behind what a pass holds, newest first. *)
Definition chain (n : nat) (p : Run) (h : Held) : list (nat * Ev) :=
  match h_lease h with Some (i, lease) => [(n, EMint i lease)] | None => [] end
  ++ (if h_clear h then [(n, EClear (rootRunId (h_record h)))] else []) ++ [(n, EClaim p (h_record h))].

Definition HeldOk (n : nat) (t : list (nat * Ev)) (g : Ghost) : Prop :=
  forall h, held g = Some h ->
    (exists p, chain n p h `sublist_of` t) /\ (checkpointId (h_record h) ∉ omap startedId t)
    /\ (h_lease h <> None -> h_clear h = true).

Definition ClaimOk (d : Db) (e : nat * Ev) : Prop :=
  match e.2 with
  | EClaim p r =>
      (exists x, getStmt (checkpointId p) d = Some x /\ status (rec x) <> running)
      /\ (exists y, getStmt (checkpointId r) d = Some y) /\ principal r = principal p /\ caps r ⊆ caps p
      /\ status p = running
  | _ => True
  end.

Section Inv.
Variable digest : string -> string.
Variable sha256 : string -> string.
Variable toSafeErrorLogString : string -> string.
Variable deps : Deps.

Record TraceOk (d : Db) (t : list (nat * Ev)) : Prop := {
  to_keyed : Keyed d;
  to_claims : Forall (ClaimOk d) t;
  to_sources : NoDup (omap claimSource t);
  to_targets : NoDup (omap claimTarget t);
  to_started : NoDup (omap startedId t);
  to_just : Just t
}.

Definition JobOk (d : Db) (t : list (nat * Ev)) (n : nat) (j : Job) : Prop :=
  wp (prog j) (ghost j) (fun _ _ => True) /\ SeenOk d (ghost j) /\ HeldOk n t (ghost j).

Definition WInv (w : World) : Prop :=
  TraceOk (db w) (trace w) /\ forall n j, jobs w !! n = Some j -> JobOk (db w) (trace w) n j.

(** ** Growing tables *)

Lemma Later_stmt d d' cid x : Later d d' -> getStmt cid d = Some x -> exists x', getStmt cid d' = Some x' /\ Narrows x x'.
Proof. intros [_ H] Hx. specialize (H cid). by rewrite Hx in H. Qed.

Lemma ClaimOk_later d d' e : Later d d' -> ClaimOk d e -> ClaimOk d' e.
Proof.
  intros Hl. destruct e as [n []]; try done. intros ((x & Hx & Hs) & (y & Hy) & H). split; [|split; [|done]].
  - destruct (Later_stmt _ _ _ _ Hl Hx) as (x' & Hx' & _ & _ & Hst). exists x'. split; [done|]. by rewrite Hst.
  - destruct (Later_stmt _ _ _ _ Hl Hy) as (y' & Hy' & _). by exists y'.
Qed.

Lemma SeenOk_later d d' g : Later d d' -> SeenOk d g -> SeenOk d' g.
Proof.
  intros Hl Hs cid p Hp. destruct (Hs cid p Hp) as (x & Hx & <-).
  destruct (Later_stmt _ _ _ _ Hl Hx) as (x' & Hx' & Hpr & _). by exists x'.
Qed.

Lemma TraceOk_later d d' t : Later d d' -> TraceOk d t -> TraceOk d' t.
Proof.
  intros Hl [Hk Hc ? ? ? ?]. split; [apply Hl| |done..].
  eapply Forall_impl; [exact Hc|]. intros e. by apply ClaimOk_later.
Qed.

(** Events that claim and start nothing. *)
Definition quiet (e : nat * Ev) : bool := match e.2 with EClear _ | EMint _ _ => true | _ => false end.

Lemma TraceOk_quiet d t e : quiet e = true -> TraceOk d t -> TraceOk d (e :: t).
Proof. destruct e as [n []]; try done; intros _ [? ? ? ? ? ?]; (split; [done|by constructor|done..]). Qed.

Lemma HeldOk_cons n t g e : startedId e = None -> HeldOk n t g -> HeldOk n (e :: t) g.
Proof.
  intros He H h Hh. destruct (H h Hh) as ((p & Hp) & Hs & Hl). split; [exists p; by apply sublist_cons|].
  cbn [omap list_omap]. by rewrite He.
Qed.

(** A granted claim extends the trace. *)
Lemma TraceOk_claim c r d d' t n :
  TraceOk d t -> Claimed digest c r d d' -> Later d d' ->
  exists row, getStmt (c_checkpointId c) d = Some row /\ TraceOk d' ((n, EClaim (rec row) r) :: t)
    /\ checkpointId r ∉ omap startedId t.
Proof.
  intros Ht Hc Hl. pose proof (Claimed_rows _ _ _ _ _ Hc) as [(x & Hx & Hs) Hy].
  destruct Hc as [(row & b & Hg & _ & Hrun & _ & _ & _ & _ & Er) Hf _ _]. exists row. split; [done|].
  pose proof (getStmt_Some _ _ _ Hg) as [_ Hid]. destruct Ht as [Hk Hc Hns Hnt Hst Hj].
  assert (checkpointId r = c_replacementId c) as Hrid by by rewrite Er.
  assert (c_replacementId c ∉ omap claimTarget t) as Hnew.
  { intros (e & He & Ee)%list_elem_of_omap. rewrite Forall_forall in Hc. specialize (Hc e He).
    destruct e as [m []]; try done. injection Ee as Ee. destruct Hc as (_ & (y & Hy') & _). congruence. }
  split; [split|].
  - apply Hl.
  - constructor; [|eapply Forall_impl; [exact Hc|]; intros e; by apply ClaimOk_later].
    split; [exists x; fold (idOf row); rewrite Hid; split; [done|congruence]|].
    split; [rewrite Hrid; eauto|]. rewrite Er. split; [done|]. split; [|done]. by intros k [_ ?]%list_elem_of_filter.
  - cbn. apply NoDup_cons. split; [|done]. fold (idOf row). rewrite Hid. intros (e & He & Ee)%list_elem_of_omap.
    rewrite Forall_forall in Hc. specialize (Hc e He). destruct e as [m []]; try done. injection Ee as Ee.
    destruct Hc as ((z & Hz & Hzs) & _). congruence.
  - cbn. apply NoDup_cons. by rewrite Hrid.
  - done.
  - done.
  - rewrite Hrid. intros (e & He & Ee)%list_elem_of_omap. destruct (Just_claim _ _ _ Hj He Ee) as (e' & He' & Ee').
    apply Hnew. apply list_elem_of_omap. by exists e'.
Qed.

Lemma chain_claim n p h t : chain n p h `sublist_of` t -> (n, EClaim p (h_record h)) ∈ t.
Proof.
  intros H. eapply elem_of_sublist; [|exact H]. unfold chain. rewrite !elem_of_app. right. right. left.
Qed.

(** A start extends the trace, and no other pass holds what it started. *)
Lemma TraceOk_start d t n r i lease g :
  TraceOk d t -> held g = Some (mkHeld r true (Some (i, lease))) -> Matches i r -> HeldOk n t g ->
  TraceOk d ((n, EStart r lease) :: t)
  /\ forall n' g', n' <> n -> HeldOk n' t g' -> HeldOk n' ((n, EStart r lease) :: t) g'.
Proof.
  intros [Hk Hc Hns Hnt Hst Hj] Hh Hm Hok. destruct (Hok _ Hh) as ((p & Hp) & Hs & _). split.
  - split; [done|by constructor|done|done| |].
    + cbn. by apply NoDup_cons.
    + split; [|done]. by exists p, i.
  - intros n' g' Hne Hok' h Hh'. destruct (Hok' h Hh') as ((p' & Hp') & Hs' & Hl).
    split; [exists p'; by apply sublist_cons|]. split; [|done]. cbn. intros [E | ?]%elem_of_cons; [|done].
    apply chain_claim in Hp, Hp'. assert ((n, EClaim p r) = (n', EClaim p' (h_record h))) as [= ? _ _]; [|congruence].
    apply (omap_NoDup_inj claimTarget t _ _ (checkpointId r)); try done. unfold claimTarget. simpl. by rewrite E.
Qed.

(** ** Steps *)

Lemma execStore_later q now d a d' : Keyed d -> execStore digest q now d = (a, d') -> Later d d'.
Proof.
  intros Hk H. destruct q as [|cid|c|cid reason]; cbn [execStore] in H.
  - injection H as <- <-. by apply Later_refl.
  - injection H as <- <-. by apply Later_refl.
  - apply (Writes_later (granted (OClaim c) (RClaim a))); [done|].
    apply (exec_writes digest); [done|]. simpl. by rewrite H.
  - apply (Writes_later (granted (OOrphan cid reason now) (RUnit a))); [done|].
    apply (exec_writes digest); [done|]. by injection H as <- <-.
Qed.

(** The scan reads principals that are there. *)
Lemma scan_seen d s g :
  Keyed d -> listResumable digest d = Ok s -> SeenOk d g -> SeenOk d (afterStore QScan g (Ok s)).
Proof.
  intros Hk [= <-] Hg cid p [(r & [= -> ->] & Hr)%list_elem_of_fmap|Hp]%elem_of_app; [|by apply Hg].
  cbn [records] in Hr. apply list_elem_of_omap in Hr as (x & Hx & E). rewrite sortByHeartbeat_perm in Hx.
  apply list_elem_of_filter in Hx as [_ Hx]. destruct (rowToRecord digest x) eqn:Ex; [|done]. injection E as <-.
  apply rowToRecord_Ok in Ex as [-> _]. exists x. split; [|done]. by apply (getStmt_in x d Hk).
Qed.

(** The world keeps its invariant when job [n] moves and [evs] happen. *)
Lemma move_inv w n j' d' l' evs :
  Later (db w) d' -> TraceOk d' ((pair n <$> evs) ++ trace w) ->
  JobOk d' ((pair n <$> evs) ++ trace w) n j' ->
  (forall n' g', n' <> n -> HeldOk n' (trace w) g' -> HeldOk n' ((pair n <$> evs) ++ trace w) g') ->
  WInv w -> WInv (mkWorld d' l' (<[n := j']> (jobs w)) ((pair n <$> evs) ++ trace w)).
Proof.
  intros Hl Ht Hj Ho [_ Hw]. split; [done|]. intros m jm. simpl. intros [(<- & <- & _)|[Hne Hm]]%list_lookup_insert_Some; [done|].
  destruct (Hw m jm Hm) as (Hwp & Hs & Hh). split; [done|]. split; [by eapply SeenOk_later|]. by apply Ho.
Qed.

(** The answers of the real store are plausible and keep the ghost true. *)
Lemma store_step w n q k g now a d' :
  WInv w -> jobs w !! n = Some (mkJob (Store q k) g) -> execStore digest q now (db w) = (a, d') ->
  WInv (mkWorld d' (ledger w) (<[n := mkJob (k a) (afterStore q g a)]> (jobs w))
          ((pair n <$> storeEvents q (db w) a) ++ trace w)).
Proof.
  intros Hw Hj He. pose proof Hw as [Ht Hjobs]. destruct (Hjobs n _ Hj) as (Hwp & Hs & Hh). cbn [prog ghost] in *.
  pose proof (execStore_later _ _ _ _ _ (to_keyed _ _ Ht) He) as Hl.
  assert (PlausibleStore q g a /\ SeenOk d' (afterStore q g a) /\ TraceOk d' ((pair n <$> storeEvents q (db w) a) ++ trace w)
    /\ HeldOk n ((pair n <$> storeEvents q (db w) a) ++ trace w) (afterStore q g a)
    /\ forall n' g', n' <> n -> HeldOk n' (trace w) g' ->
         HeldOk n' ((pair n <$> storeEvents q (db w) a) ++ trace w) g') as (Hp & Hs' & Ht' & Hh' & Ho).
  2:{ apply move_inv; try done. split; [by apply (Hwp a)|done]. }
  destruct q as [|cid|c|cid reason]; cbn [execStore] in He.
  - injection He as <- <-. split; [done|]. split_and!; try done. by apply scan_seen; [apply Ht|done|].
  - injection He as <- <-. by split_and!.
  - destruct (claim_cases _ _ _ _ _ (to_keyed _ _ Ht) He) as [(r & -> & Hc)|[-> Hn]].
    + destruct (TraceOk_claim c r (db w) d' (trace w) n Ht Hc Hl) as (row & Hg & Ht' & Hst).
      cbn [storeEvents afterStore]. rewrite Hg. simpl. split_and!.
      * intros r' [= <-]. destruct Hc as [(row' & b & Hg' & _ & _ & _ & _ & _ & _ & ->) _ _ _]. do 3 (split; [done|]).
        intros p Hp. destruct (Hs _ _ Hp) as (x & Hx & <-). simpl. congruence.
      * by eapply SeenOk_later in Hs.
      * done.
      * intros h [= <-]. split; [|done]. exists (rec row). unfold chain. simpl. apply sublist_skip, sublist_nil_l.
      * intros n' g' _ Ho. by apply HeldOk_cons.
    + assert (storeEvents (QClaim c) (db w) a = []) as -> by (cbn; destruct a as [[r| | |]|]; try done; by destruct (Hn r)).
      assert (afterStore (QClaim c) g a = g) as -> by (cbn; destruct a as [[r| | |]|]; try done; by destruct (Hn r)).
      split_and!; try done. by intros r Hr; destruct (Hn r).
  - cbn [storeEvents afterStore]. split; [done|]. split; [by eapply SeenOk_later|].
    split; [by eapply TraceOk_later|]. done.
Qed.

Lemma fault_step w n q k g e :
  WInv w -> jobs w !! n = Some (mkJob (Store q k) g) ->
  WInv (mkWorld (db w) (ledger w) (<[n := mkJob (k (Err e)) (afterStore q g (Err e))]> (jobs w))
          ((pair n <$> storeEvents q (db w) (Err e)) ++ trace w)).
Proof.
  intros Hw Hj. pose proof Hw as [Ht Hjobs]. destruct (Hjobs n _ Hj) as (Hwp & Hs & Hh). cbn [prog ghost] in *.
  assert (storeEvents q (db w) (Err e) = []) as -> by by destruct q.
  assert (afterStore q g (Err e) = g) as Eg by by destruct q.
  apply move_inv; try done; [apply Later_refl, Ht|]. split; [|by rewrite Eg].
  apply (Hwp (Err e)). by destruct q.
Qed.

Lemma cleared_held n t g h root :
  held g = Some h -> root = rootRunId (h_record h) -> HeldOk n t g ->
  HeldOk n ((n, EClear root) :: t) (mkGhost (seen g) (Some (mkHeld (h_record h) true (h_lease h)))).
Proof.
  intros Hh -> Hok h' [= <-]. destruct (Hok h Hh) as ((p & Hp) & Hs & Hl). split; [|done]. exists p. unfold chain in *. simpl.
  destruct (h_lease h) as [[i lease]|]; simpl in *.
  - rewrite Hl in Hp by done. by apply sublist_cons.
  - destruct (h_clear h); simpl in Hp; [by apply sublist_cons|by apply sublist_skip].
Qed.

Lemma outward_step w n q k g a l' :
  WInv w -> jobs w !! n = Some (mkJob (Outward q k) g) ->
  WInv (mkWorld (db w) l' (<[n := mkJob (k a) (afterOutward q g a)]> (jobs w)) ((pair n <$> outwardEvents q a) ++ trace w)).
Proof.
  intros Hw Hj. pose proof Hw as [Ht Hjobs]. destruct (Hjobs n _ Hj) as (Hwp & Hs & Hh). cbn [prog ghost] in *.
  assert (HeldOk n ((pair n <$> outwardEvents q a) ++ trace w) (afterOutward q g a)
    /\ (outwardEvents q a = [] \/ exists root, outwardEvents q a = [EClear root])) as [Hh' He].
  { unfold afterOutward, outwardEvents. destruct q; try (split; [done|by left]).
    destruct a as [[]|]; try (split; [done|by left]). split; [|by right; eexists]. simpl.
    destruct (held g) as [h|] eqn:Eh; [|by intros h; rewrite Eh]. case_decide; [by apply cleared_held|by apply HeldOk_cons]. }
  apply move_inv; try done; [apply Later_refl, Ht| | |].
  - destruct He as [-> | [root ->]]; [done|]. by apply TraceOk_quiet.
  - split; [by apply (Hwp a)|]. split; [|done]. intros cid p Hp. cbn [ghost] in Hp. rewrite afterOutward_seen in Hp. by apply Hs.
  - intros n' g' _ Ho. destruct He as [-> | [root ->]]; [done|]. by apply HeldOk_cons.
Qed.

Lemma mint_step w n i k g a :
  WInv w -> jobs w !! n = Some (mkJob (Mint i k) g) ->
  WInv (mkWorld (db w) (ledger w) (<[n := mkJob (k a) (afterMint i g a)]> (jobs w))
          ((pair n <$> match a with Ok lease => [EMint i lease] | Err _ => [] end) ++ trace w)).
Proof.
  intros Hw Hj. pose proof Hw as [Ht Hjobs]. destruct (Hjobs n _ Hj) as ([(h & Hheld & Hclear & Hm) Hwp] & Hs & Hh). cbn [prog ghost] in *.
  destruct (Hh h Hheld) as ((p & Hp) & Hst & Hl). specialize (Hwp a). unfold afterMint in *. rewrite Hheld in *.
  apply move_inv; try done; [apply Later_refl, Ht| | |].
  - destruct a; [|done]. by apply TraceOk_quiet.
  - destruct a as [lease|e]; [|done]. split; [done|]. split; [done|]. intros h' [= <-]. split; [|done].
    exists p. unfold chain in *. simpl. rewrite Hclear in *. apply sublist_skip.
    destruct (h_lease h) as [[i' lease']|]; [|done]. simpl in Hp. etransitivity; [|exact Hp]. by apply sublist_cons.
  - intros n' g' _ Ho. destruct a; [|done]. by apply HeldOk_cons.
Qed.

Lemma start_step w n r lease k g a :
  WInv w -> jobs w !! n = Some (mkJob (Start r lease k) g) ->
  WInv (mkWorld (db w) (ledger w) (<[n := mkJob (k a) (mkGhost (seen g) None)]> (jobs w))
          ((pair n <$> [EStart r lease]) ++ trace w)).
Proof.
  intros Hw Hj. pose proof Hw as [Ht Hjobs]. destruct (Hjobs n _ Hj) as ([(i & Hheld & Hm) Hwp] & Hs & Hh). cbn [prog ghost] in *.
  destruct (TraceOk_start _ _ _ _ _ _ _ Ht Hheld Hm Hh) as [Ht' Ho].
  apply move_inv; try done; [apply Later_refl, Ht|]. split; [apply Hwp|]. done.
Qed.

(** A step that only moves the program. *)
Lemma silent_step w n j p :
  WInv w -> jobs w !! n = Some j -> wp p (ghost j) (fun _ _ => True) ->
  WInv (mkWorld (db w) (ledger w) (<[n := mkJob p (ghost j)]> (jobs w)) ((pair n <$> []) ++ trace w)).
Proof.
  intros Hw Hj Hp. pose proof Hw as [Ht Hjobs]. destruct (Hjobs n _ Hj) as (_ & Hs & Hh).
  apply move_inv; try done. apply Later_refl, Ht.
Qed.

Lemma tick_inv w n env j m :
  WInv w -> jobs w !! n = Some j -> advance digest sha256 env j (db w) (ledger w) = Some m ->
  WInv (mkWorld (m_db m) (m_ledger m) (<[n := m_job m]> (jobs w)) ((pair n <$> m_events m) ++ trace w)).
Proof.
  intros Hw Hj Ha. pose proof Hw as [_ Hjobs]. destruct (Hjobs n _ Hj) as (Hwp & _). destruct j as [p g].
  unfold advance in Ha. cbn [prog ghost] in *. destruct p as [a|e|q k|q k|k|k|i k|r lease k|e p]; try done.
  - destruct (e_fault env) as [e|]; [injection Ha as <-; by apply fault_step|].
    destruct (execStore digest q (e_now env) (db w)) as [a d'] eqn:E. injection Ha as <-. by eapply store_step.
  - destruct (e_fault env) as [e|]; [injection Ha as <-; by apply outward_step|].
    destruct (OutwardSend.exec sha256 q (e_now env) (ledger w)) as [a l']. injection Ha as <-. by apply outward_step.
  - injection Ha as <-. apply (silent_step w n (mkJob (Now k) g)); [done..|]. apply Hwp.
  - injection Ha as <-. apply (silent_step w n (mkJob (Uuid k) g)); [done..|]. apply Hwp.
  - injection Ha as <-. by apply mint_step.
  - injection Ha as <-. by apply start_step.
  - injection Ha as <-. by apply (silent_step w n (mkJob (Do e p) g)).
Qed.

Lemma choose_inv c w w' :
  WInv w -> choose digest sha256 toSafeErrorLogString deps c w = Some w' -> WInv w'.
Proof.
  intros Hw H. pose proof Hw as [Ht Hjobs]. destruct c as [p|n env|o|l|]; cbn [choose] in H.
  - injection H as <-. split; [done|]. intros n j [Hj|[Hn Hj]]%lookup_app_Some; [by apply Hjobs|].
    apply list_lookup_singleton_Some in Hj as [_ <-]. split; [apply passProg_wp|]. split; [by intros cid p' ?%not_elem_of_nil|done].
  - apply bind_Some in H as (j & Hj & H). apply bind_Some in H as (m & Hm & [= <-]). by eapply tick_inv.
  - injection H as <-. destruct (exec digest o (db w)) as [x d'] eqn:E.
    assert (Later (db w) d') as Hl by (eapply Writes_later; [apply Ht|by eapply exec_writes, E; apply Ht]).
    split; [by eapply TraceOk_later|]. intros n j Hj. destruct (Hjobs n j Hj) as (? & Hs & ?).
    split; [done|]. split; [by eapply SeenOk_later|done].
  - by injection H as <-.
  - injection H as <-. split; [done|]. intros n j Hj. apply list_lookup_fmap_Some in Hj as (j' & -> & Hj').
    split; [done|]. split; [by intros cid p ?%not_elem_of_nil|done].
Qed.

Lemma play_inv cs w : WInv w -> WInv (play digest sha256 toSafeErrorLogString deps cs w).
Proof.
  revert w. induction cs as [|c cs IH]; intros w Hw; [done|]. simpl. apply IH.
  destruct (choose _ _ _ _ c w) as [w'|] eqn:E; [by eapply choose_inv|done].
Qed.

Lemma boot_inv d l : Keyed d -> WInv (boot d l).
Proof. intros Hk. split; [split; try done; constructor|]. by intros n j ?. Qed.
End Inv.
End ResumeSafety.
