(* ===== verification/ResumeProgress.v ===== *)
(** * A recovery pass in a healthy store

  When every row validates, a running checkpoint can always be claimed in its
  own name, and a pass that runs alone settles the whole backlog. *)

From S2P Require Import Prelude ConversationScope SessionKeys TaskTypes ApprovalPolicy ExecutionGraph OutwardLedger OutwardSend DurableRuns DurableRunsFacts DurableRunsHistory DurableRunsBudget DurableRunsTheorems ResumeEngine.

Open Scope string_scope.
Open Scope list_scope.
Open Scope Z_scope.

Module ResumeProgress.
Import DurableRuns DurableRunsFacts DurableRunsHistory DurableRunsBudget DurableRunsTheorems ResumeEngine.

Section Healthy.
Variable digest : string -> string.

(** Every row validates, and a running row has a live root. *)
Record Healthy (d : Db) : Prop := {
  hy_keyed : Keyed d;
  hy_valid : forall x, x ∈ checkpoints d -> rowToRecord digest x = Ok (rec x);
  hy_root : forall x, x ∈ checkpoints d -> status (rec x) = running -> rootIsRevoked (rootRunId (rec x)) d = Ok false
}.

Lemma Healthy_recordValid d x : Healthy d -> x ∈ checkpoints d -> recordValid digest (rec x) = true.
Proof. intros Hd Hx. by destruct (rowToRecord_Ok _ _ _ (hy_valid _ Hd x Hx)). Qed.

(** ** What validity says *)

Lemma recordValid_budget r :
  recordValid digest r = true ->
  budgetValid (rootBudget r) = true /\ budgetConsumed r = usdConsumed (rootBudget r) /\ startedAtMs (rootBudget r) <= lastHeartbeatAt r.
Proof.
  unfold recordValid. cbv zeta. rewrite !andb_true_iff. intros H.
  split; [tauto|]. split; [apply Z.eqb_eq; tauto|apply Z.leb_le; tauto].
Qed.

Lemma recordValid_claim r newId now :
  recordValid digest r = true -> newId <> "" -> newId <> checkpointId r -> claimValid (claimOf (checkpointId r) r newId now) = true.
Proof.
  intros Hv Hn Hne. pose proof (recordValid_budget r Hv) as (Hb & _ & Hs). revert Hv. unfold recordValid. cbv zeta.
  rewrite !andb_true_iff. intros H. unfold claimValid. cbn. rewrite !andb_true_iff.
  unfold budgetValid in Hb. rewrite !andb_true_iff, Z.leb_le in Hb.
  split_and!; try tauto; [unfold nonempty; by apply negb_true_iff, String.eqb_neq|apply Z.leb_le; lia|].
  apply negb_true_iff, String.eqb_neq. congruence.
Qed.

Lemma recordValid_withBudget r b :
  recordValid digest r = true -> budgetValid b = true -> startedAtMs b <= lastHeartbeatAt r -> recordValid digest (withBudget b r) = true.
Proof.
  intros Hv Hb Hs. revert Hv. unfold recordValid. cbv zeta. cbn. rewrite !andb_true_iff. intros H.
  unfold budgetValid in Hb. rewrite !andb_true_iff in Hb.
  split_and!; try tauto; [unfold budgetValid; rewrite !andb_true_iff; tauto|by apply Z.eqb_eq|by apply Z.leb_le].
Qed.

Lemma recordValid_replacement r c :
  recordValid digest r = true -> c_replacementId c <> "" -> recordValid digest (replacementOf r c) = true.
Proof.
  intros Hv Hn. revert Hv. unfold recordValid. cbv zeta. cbn. rewrite !andb_true_iff. intros H.
  split_and!; try tauto. unfold nonempty. by apply negb_true_iff, String.eqb_neq.
Qed.

(** ** The authority of valid rows is a valid budget *)

Lemma mergeBudget_valid a b : budgetValid a = true -> budgetValid b = true -> budgetValid (mergeBudget a b) = true.
Proof.
  unfold budgetValid. cbn. rewrite !andb_true_iff, !Z.leb_le. intros [[? ?] ?] [[? ?] ?].
  split_and!; [lia| |lia]. by destruct (Z.max_spec (tokensConsumed a) (tokensConsumed b)) as [[_ ->]|[_ ->]].
Qed.

Lemma budgetAuthority_valid rows acc b :
  (forall a, acc = Some a -> budgetValid a = true) -> budgetAuthority digest rows acc = Ok (Some b) -> budgetValid b = true.
Proof.
  revert acc. induction rows as [|row rows IH]; intros acc Ha H; simpl in H; [injection H as ->; by apply Ha|].
  destruct (rowToRecord digest row) as [r|] eqn:E; [|done]. apply rowToRecord_Ok in E as [-> Hv].
  apply recordValid_budget in Hv as (Hv & _). case_decide; [|by eapply IH]. eapply IH; [|exact H].
  intros a [= <-]. destruct acc as [a|]; [apply mergeBudget_valid; auto|done].
Qed.

Lemma authorized_self r newId now : authorized r (claimOf (checkpointId r) r newId now) = true.
Proof.
  unfold authorized. cbn. rewrite !String.eqb_refl, !bool_decide_true by done. simpl. by apply Z.leb_le.
Qed.

(** A running checkpoint can be claimed in its own name, under any unused id. *)
Lemma healthy_claim d x newId now :
  Healthy d -> x ∈ checkpoints d -> status (rec x) = running -> newId <> "" -> getStmt newId d = None ->
  exists r d', claimForResume digest (claimOf (idOf x) (rec x) newId now) d = (Ok (claimed r), d').
Proof.
  intros Hd Hx Hs Hn Hf. pose proof (Healthy_recordValid d x Hd Hx) as Hv.
  pose proof (getStmt_in x d (hy_keyed _ Hd) Hx) as Hg.
  assert (newId <> idOf x) as Hne by congruence.
  unfold claimForResume. rewrite (recordValid_claim (rec x)) by done. unfold claimTransaction. cbn [claimOf c_checkpointId].
  fold (idOf x). rewrite Hg, (hy_valid _ Hd x Hx), (hy_root _ Hd x Hx Hs), bool_decide_true by done. cbn [negb orb].
  cbn [c_claimedAtMs claimOf]. rewrite (proj2 (Z.ltb_ge _ _)) by lia. fold (idOf x).
  rewrite (authorized_self (rec x) newId now : authorized _ (claimOf (idOf x) _ _ _) = _). cbn [negb c_replacementId claimOf]. rewrite Hf.
  assert (TreeValid digest (rootRunId (rec x)) d) as [out Ho]%authority_total by (intros y Hy _; by apply Hd).
  rewrite Ho. assert (TreeBudget (rootRunId (rec x)) d (rootBudget (rec x))) as Ht by by exists x.
  destruct out as [b|]; [|by destruct (authority_None _ _ _ Ho _ Ht)].
  assert (budgetValid b = true) as Hb by (eapply budgetAuthority_valid; [|exact Ho]; done).
  pose proof (proj1 (authority_lub _ _ _ _ Ho b) (reflexivity b) _ Ht) as (Hst & _).
  pose proof (recordValid_budget _ Hv) as (_ & _ & Hhb).
  assert (recordValid digest (withBudget b (rec x)) = true) as Hvb by (apply recordValid_withBudget; [done..|lia]).
  unfold parseDurableRunRecord at 1. rewrite Hvb. unfold parseDurableRunRecord.
  rewrite recordValid_replacement by done. rewrite (supersede_claims x); [by eexists _, _|apply Hd|done|done|done].
Qed.

(** ** What a step leaves of the tables *)

Lemma setRun_valid f reason t x :
  (forall r, recordValid digest (f r) = recordValid digest r) ->
  rowToRecord digest x = Ok (rec x) -> rowToRecord digest (setRun f reason t x) = Ok (rec (setRun f reason t x)).
Proof.
  intros Hf. unfold rowToRecord, parseDurableRunRecord. cbn. rewrite Hf. destruct (readable x); [|done].
  by destruct (recordValid digest (rec x)).
Qed.

Lemma updateRows_healthy p f reason t d :
  (forall r, recordValid digest (f r) = recordValid digest r /\ checkpointId (f r) = checkpointId r) ->
  (forall x, p x = true -> status (f (rec x)) <> running) -> Healthy d -> Healthy (updateRows p (setRun f reason t) d).1.
Proof.
  intros Hf Hs Hd. split.
  - apply updateRows_keyed; [|apply Hd]. intros r. apply (Hf (rec r)).
  - intros x (y & -> & Hy)%list_elem_of_fmap. destruct (p y); [|by apply Hd].
    apply setRun_valid; [apply Hf|by apply Hd].
  - intros x (y & -> & Hy)%list_elem_of_fmap. destruct (p y) eqn:E; [by intros ?%Hs|]. by apply (hy_root _ Hd y).
Qed.

Lemma orphan_healthy cid reason now d : Healthy d -> Healthy (markOrphaned cid reason now d).2.
Proof. apply updateRows_healthy; done. Qed.

Lemma Claimed_healthy c r d d' : Claimed digest c r d d' -> Healthy d -> Healthy d'.
Proof.
  intros Hc Hd. pose proof (Claimed_writes _ _ _ _ _ Hc) as Hw.
  pose proof (Writes_keyed _ _ _ Hw (hy_keyed _ Hd)) as Hk. destruct Hc as [(row & b & Hg & _ & Hs & _ & _ & Hr & _ & E) _ Hv ->].
  pose proof (updateRows_healthy (fun x => byId (c_checkpointId c) x && isRunning x)
    (withStatus completed (Some t_superseded)) None (c_claimedAtMs c) d ltac:(done) ltac:(done) Hd) as H1.
  split; [done|..].
  - intros x [Hx | ->%list_elem_of_singleton]%elem_of_app; [by apply H1|].
    unfold rowToRecord, parseDurableRunRecord. cbn. by rewrite Hv.
  - intros x [Hx | ->%list_elem_of_singleton]%elem_of_app Hrun; [by apply (hy_root _ H1 x)|].
    rewrite E. cbn. exact Hr.
Qed.
End Healthy.
End ResumeProgress.
