(* ===== verification/ResumeAlone.v ===== *)
(** * A recovery pass that runs alone

  At one time, with answering stores and fresh ids: every candidate is resumed
  or orphaned with a notice, and a run that makes no progress is given up. *)

From S2P Require Import Prelude ConversationScope SessionKeys TaskTypes ApprovalPolicy ExecutionGraph OutwardLedger OutwardSend OutwardRecovery DurableRuns DurableRunsFacts DurableRunsHistory DurableRunsBudget DurableRunsTheorems ResumeEngine ResumeWorld ResumeProgress.

Open Scope string_scope.
Open Scope list_scope.
Open Scope Z_scope.

Module ResumeAlone.
Import DurableRuns DurableRunsFacts DurableRunsHistory DurableRunsTheorems ResumeEngine ResumeWorld ResumeProgress.

(** The clock, the ids, the lease manager and the resumer of runs. *)
Record Outside := {
  o_now : Z;
  o_uuid : nat -> string;
  o_lease : MintLeaseInput -> IssuedLease;
  o_resume : Run -> Result unit string
}.

Record St := mkSt { s_db : Db; s_ledger : OutwardLedger.Db; s_next : nat; s_done : list Effect }.

Section Alone.
Variable digest : string -> string.
Variable sha256 : string -> string.
Variable toSafeErrorLogString : string -> string.
Variable deps : Deps.
Variable o : Outside.

Fixpoint alone {A} (p : Prog A) (s : St) : Result A string * St :=
  match p with
  | Ret a => (Ok a, s)
  | Throw e => (Err e, s)
  | Store q k =>
      let x := execStore digest q (o_now o) (s_db s) in alone (k x.1) (mkSt x.2 (s_ledger s) (s_next s) (s_done s))
  | Outward q k =>
      let x := OutwardSend.exec sha256 q (o_now o) (s_ledger s) in alone (k x.1) (mkSt (s_db s) x.2 (s_next s) (s_done s))
  | Now k => alone (k (o_now o)) s
  | Uuid k => alone (k (o_uuid o (s_next s))) (mkSt (s_db s) (s_ledger s) (S (s_next s)) (s_done s))
  | Mint i k => alone (k (Ok (o_lease o i))) s
  | Start r _ k => alone (k (o_resume o r)) s
  | Do e p => alone p (mkSt (s_db s) (s_ledger s) (s_next s) (s_done s ++ [e]))
  end.

Lemma alone_bind {A B} (p : Prog A) (f : A -> Prog B) s :
  alone (p ≫= f) s = match alone p s with (Ok a, s') => alone (f a) s' | (Err e, s') => (Err e, s') end.
Proof.
  revert s. induction p as [a|e|q k IH|q k IH|k IH|k IH|i k IH|r l k IH|e p IH]; intros s; simpl; try done; apply IH.
Qed.

Definition newIdAt (n : nat) : string := "resume-" +:+ o_uuid o n.

(** What an orphaned candidate leaves behind. *)
Lemma orphan_alone cid root reason hint s :
  alone (orphan cid root reason hint) s =
  (Ok tt, mkSt (markOrphaned cid reason (o_now o) (s_db s)).2 (s_ledger s) (s_next s)
            ((s_done s ++ [Notified "run_orphaned" root reason hint]) ++ [Orphaned root (orphanReasonToEnum reason)])).
Proof. done. Qed.

Lemma reclaim_alone r s :
  exists es, alone (reclaim deps r) s = (Ok tt, mkSt (s_db s) (s_ledger s) (s_next s) (s_done s ++ es)).
Proof.
  unfold reclaim. destruct (hasReclaim deps); [by eexists|]. exists []. rewrite app_nil_r. by destruct s.
Qed.

Lemma revokeLease_alone lease s :
  exists es, alone (revokeLease deps lease) s = (Ok tt, mkSt (s_db s) (s_ledger s) (s_next s) (s_done s ++ es)).
Proof.
  unfold revokeLease. destruct (hasRevokeLease deps); [by eexists|]. exists []. rewrite app_nil_r. by destruct s.
Qed.

(** How a started or refused replacement ends. *)
Definition Notice (out : Outcome) (root source new : string) (es : list Effect) : Prop :=
  match out with
  | OResumed => exists key, Resumed root key source new ∈ es
  | OOrphaned => exists reason hint, Notified "run_orphaned" root reason hint ∈ es
  | _ => False
  end.

Record Ended (cid root source : string) (m : Reanchor) (out : Outcome) (s s' : St) : Prop := {
  en_db : (out = OResumed /\ s_db s' = s_db s) \/ (out = OOrphaned /\ exists reason, s_db s' = (markOrphaned cid reason (o_now o) (s_db s)).2);
  en_ledger : s_ledger s' = s_ledger s;
  en_next : s_next s' = s_next s;
  en_done : exists es, s_done s' = s_done s ++ es /\ Notice out root source cid es
}.

Lemma orphanAs_ended cid root source reason hint m s :
  exists s', alone (orphanAs cid root reason hint m) s = (Ok (OOrphaned, m), s') /\ Ended cid root source m OOrphaned s s'.
Proof.
  eexists. split; [done|]. split; [right; split; [done|by exists reason]|done|done|].
  eexists. split; [simpl; by rewrite <- app_assoc|]. exists reason, hint. left.
Qed.

Lemma startReplacement_ended source r m s :
  exists out s', alone (startReplacement toSafeErrorLogString deps (rootRunId r) source r m) s = (Ok (out, m), s')
    /\ Ended (checkpointId r) (rootRunId r) (checkpointId source) m out s s'.
Proof.
  unfold startReplacement.
  destruct (ConversationScope.conversationScopeToSessionKey _) as [display|]; [|eexists; apply orphanAs_ended].
  destruct (turnScopeOf deps r) as [turn|]; [|eexists; apply orphanAs_ended].
  cbn [alone]. destruct (o_resume o r) as [[]|e]; cbn [alone].
  - eexists _, _. split; [done|]. split; [by left|done|done|]. eexists. split; [done|]. eexists. left.
  - rewrite alone_bind. edestruct revokeLease_alone as [es1 ->]. rewrite alone_bind, orphan_alone, alone_bind.
    edestruct (reclaim_alone source) as [es2 ->]. eexists _, _. split; [done|]. split; cbn [s_db s_ledger s_next s_done]; [|done|done|].
    + right. split; [done|]. by eexists.
    + rewrite <- !app_assoc. eexists. split; [done|]. eexists _, _. apply elem_of_app. right. left.
Qed.

Lemma afterClaim_ended source r m s :
  recordValid digest r = true -> leaseIds r = [] -> status r = running ->
  exists out s', alone (afterClaim digest toSafeErrorLogString deps (rootRunId r) source r (checkpointId r) m) s = (Ok (out, m), s')
    /\ Ended (checkpointId r) (rootRunId r) (checkpointId source) m out s s'.
Proof.
  intros Hv Hl Hs. unfold afterClaim.
  assert (asReplacement (checkpointId r) r = r) as -> by (destruct r; simpl in *; by subst).
  unfold parseDurableRunRecord. rewrite Hv. cbn [alone]. destruct s as [d l n es].
  cbn [OutwardSend.exec fst snd s_ledger s_db s_next s_done OutwardSend.Ans]. unfold OutwardLedger.hasUncertainty.
  destruct (0 <? OutwardLedger.hasUncertaintyStmt (rootRunId r) l)%nat; [eexists; apply orphanAs_ended|apply startReplacement_ended].
Qed.

(** ** One candidate *)

(** The ids the pass has not used yet name no row. *)
Definition Fresh (n : nat) (d : Db) : Prop := forall k, (n <= k)%nat -> getStmt (newIdAt k) d = None.

Record Settled (x : Row) (m : Reanchor) (s : St) (out : Outcome) (m' : Reanchor) (s' : St) : Prop := {
  se_healthy : Healthy digest (s_db s');
  se_fresh : Fresh (s_next s') (s_db s');
  se_next : (s_next s <= s_next s' <= S (s_next s))%nat;
  se_ledger : s_ledger s' = s_ledger s;
  se_rows : forall cid, cid <> idOf x -> cid <> newIdAt (s_next s) -> getStmt cid (s_db s') = getStmt cid (s_db s);
  se_map : forall cid, cid <> idOf x -> cid <> newIdAt (s_next s) -> m' !! cid = m !! cid;
  se_old : exists y, getStmt (idOf x) (s_db s') = Some y /\ status (rec y) <> running;
  se_out : out = OResumed \/ out = OOrphaned;
  se_new : forall y, getStmt (newIdAt (s_next s)) (s_db s') = Some y -> status (rec y) = running ->
    out = OResumed /\ lastHeartbeatAt (rec y) = lastHeartbeatAt (rec x)
    /\ m' !! newIdAt (s_next s) = Some (lastHeartbeatAt (rec x), attemptsOf (idOf x) (lastHeartbeatAt (rec x)) m)
    /\ (attemptsOf (idOf x) (lastHeartbeatAt (rec x)) m <= MAX_REANCHOR_ATTEMPTS)%nat;
  se_done : exists es, s_done s' = s_done s ++ es /\ Notice out (rootRunId (rec x)) (idOf x) (newIdAt (s_next s)) es
}.

Lemma markOrphaned_stmt cid reason now d cid' :
  getStmt cid' (markOrphaned cid reason now d).2 =
  (fun r => if byId cid r && isRunning r then setRun (withStatus orphaned None) (Some reason) now r else r) <$> getStmt cid' d.
Proof. unfold markOrphaned, markOrphanedStmt. cbn [snd]. by rewrite getStmt_updateRows. Qed.

Lemma markOrphaned_other cid reason now d cid' :
  cid' <> cid -> getStmt cid' (markOrphaned cid reason now d).2 = getStmt cid' d.
Proof.
  intros Hne. rewrite markOrphaned_stmt. destruct (getStmt cid' d) as [r|] eqn:E; [|done]. apply getStmt_Some in E as [_ E].
  simpl. destruct (byId cid r) eqn:Eb; [|done]. apply byId_iff in Eb. congruence.
Qed.

Lemma markOrphaned_self cid reason now d y :
  getStmt cid (markOrphaned cid reason now d).2 = Some y -> status (rec y) <> running.
Proof.
  rewrite markOrphaned_stmt. destruct (getStmt cid d) as [r|] eqn:E; [|done]. apply getStmt_Some in E as [_ E%byId_iff].
  simpl. rewrite E. destruct (isRunning r) eqn:Er; intros [= <-]; [done|]. intros H%isRunning_iff. simpl in H. congruence.
Qed.

Hypothesis uuid_inj : Inj (=) (=) (o_uuid o).

Lemma newIdAt_inj k n : newIdAt k = newIdAt n -> k = n.
Proof. unfold newIdAt. intros H. apply uuid_inj. by injection H. Qed.

Lemma reread_self d x : Healthy digest d -> x ∈ checkpoints d -> getByCheckpoint digest (idOf x) d = Ok (Some (rec x)).
Proof.
  intros Hd Hx. unfold getByCheckpoint. by rewrite (getStmt_in x d (hy_keyed _ _ Hd) Hx), (hy_valid _ _ Hd x Hx).
Qed.

Lemma Claimed_other c r d d' cid :
  Claimed digest c r d d' -> cid <> c_checkpointId c -> cid <> c_replacementId c -> getStmt cid d' = getStmt cid d.
Proof.
  intros [(row & b & Hg & _ & _ & _ & _ & _ & _ & ->) Hf _ ->] H1 H2.
  assert (forall y, getStmt y (terminalizeStmt t_superseded (c_claimedAtMs c) (c_checkpointId c) d).1
    = (fun x => if byId (c_checkpointId c) x && isRunning x
                then setRun (withStatus completed (Some t_superseded)) None (c_claimedAtMs c) x else x) <$> getStmt y d)
    as Hu by (intros; unfold terminalizeStmt; by rewrite getStmt_updateRows).
  rewrite getStmt_insert by (cbn [replacementOf checkpointId]; by rewrite Hu, Hf).
  rewrite decide_False by done. rewrite Hu. destruct (getStmt cid d) as [x|] eqn:E; [|done].
  apply getStmt_Some in E as [_ E]. simpl. destruct (byId _ x) eqn:Eb; [|done]. apply byId_iff in Eb. congruence.
Qed.

(** The candidate that is given up. *)
Lemma giveUp_settled x m s reason hint :
  Healthy digest (s_db s) -> x ∈ checkpoints (s_db s) -> Fresh (s_next s) (s_db s) ->
  exists s', alone (_ ← orphan (idOf x) (rootRunId (rec x)) reason hint; _ ← reclaim deps (rec x);
                    Ret (OOrphaned, delete (idOf x) m)) s = (Ok (OOrphaned, delete (idOf x) m), s')
    /\ Settled x m s OOrphaned (delete (idOf x) m) s'.
Proof.
  intros Hd Hx Hf. rewrite alone_bind, orphan_alone, alone_bind. edestruct reclaim_alone as [es ->]. eexists. split; [done|].
  assert (getStmt (newIdAt (s_next s)) (s_db s) = None) as Hn by by apply Hf.
  assert (forall k, getStmt k (s_db s) = None -> getStmt k (markOrphaned (idOf x) reason (o_now o) (s_db s)).2 = None) as Hnone
    by (intros k Hk; by rewrite markOrphaned_stmt, Hk).
  split; cbn [s_db s_ledger s_next s_done].
  - by apply orphan_healthy.
  - intros k Hk. by apply Hnone, Hf.
  - lia.
  - done.
  - intros cid H1 _. by rewrite markOrphaned_other.
  - intros cid H1 _. apply (lookup_delete_ne (M := gmap string)). congruence.
  - destruct (getStmt (idOf x) (markOrphaned (idOf x) reason (o_now o) (s_db s)).2) as [y|] eqn:E.
    + exists y. split; [done|]. by eapply markOrphaned_self.
    + rewrite markOrphaned_stmt, (getStmt_in x _ (hy_keyed _ _ Hd) Hx) in E. done.
  - by right.
  - intros y Hy. rewrite Hnone in Hy by done. done.
  - rewrite <- !app_assoc. eexists. split; [done|]. exists reason, hint. left.
Qed.

(** A replacement that was started or orphaned settles its source. *)
Lemma ended_settled x m s r d1 s1 out s' :
  let new := newIdAt (s_next s) in
  let n := attemptsOf (idOf x) (lastHeartbeatAt (rec x)) m in
  let m1 := <[new := (lastHeartbeatAt (rec x), n)]> (<[idOf x := (lastHeartbeatAt (rec x), n)]> m) in
  s1 = mkSt d1 (s_ledger s) (S (s_next s)) (s_done s) -> Fresh (s_next s) (s_db s) -> Healthy digest d1 ->
  (forall cid, cid <> idOf x -> cid <> new -> getStmt cid d1 = getStmt cid (s_db s)) ->
  (exists z, getStmt (idOf x) d1 = Some z /\ status (rec z) = completed) ->
  getStmt new d1 = Some (freshRow r (c_claimedAtMs (claimOf (idOf x) (rec x) new (o_now o)))) ->
  lastHeartbeatAt r = lastHeartbeatAt (rec x) -> x ∈ checkpoints (s_db s) ->
  (n <= MAX_REANCHOR_ATTEMPTS)%nat ->
  Ended new (rootRunId (rec x)) (idOf x) m1 out s1 s' -> Settled x m s out m1 s'.
Proof.
  intros new n m1 -> Hf Hd1 Ho (z & Hz & Hzs) Hy Hhb Hx Hn [Hdb Hled Hnext Hes]. cbn [s_db s_ledger s_next s_done] in *.
  assert (new <> idOf x) as Hne.
  { intros E. assert (getStmt new (s_db s) = None) as H by by apply Hf. rewrite getStmt_None in H. by apply (H x Hx). }
  assert (forall cid, cid <> new -> getStmt cid (s_db s') = getStmt cid d1) as Hs'.
  { intros cid Hc. destruct Hdb as [[_ ->]|[_ [reason ->]]]; [done|]. by apply markOrphaned_other. }
  split.
  - destruct Hdb as [[_ ->]|[_ [reason ->]]]; [done|by apply orphan_healthy].
  - rewrite Hnext. intros k Hk. assert (newIdAt k <> new) by (intros E%newIdAt_inj; lia).
    rewrite Hs' by done. destruct (decide (newIdAt k = idOf x)) as [E|E]; [|rewrite Ho by done; apply Hf; lia].
    assert (getStmt (newIdAt k) (s_db s) = None) as Hk' by (apply Hf; lia). rewrite getStmt_None in Hk'. by destruct (Hk' x Hx).
  - lia.
  - done.
  - intros cid H1 H2. rewrite Hs' by done. by apply Ho.
  - intros cid H1 H2. fold new in H2. unfold m1. etransitivity; [apply (lookup_insert_ne (M := gmap string)); congruence|].
    apply (lookup_insert_ne (M := gmap string)). congruence.
  - exists z. rewrite Hs' by done. split; [done|congruence].
  - destruct Hdb as [[-> _]|[-> _]]; [by left|by right].
  - intros y Hy' Hrun. destruct Hdb as [[-> Ed]|[_ [reason Ed]]].
    + split; [done|]. fold new in Hy'. rewrite Ed, Hy in Hy'. injection Hy' as <-. split; [done|]. split; [|done].
      apply (lookup_insert_eq (M := gmap string)).
    + fold new in Hy'. rewrite Ed in Hy'. by destruct (markOrphaned_self _ _ _ _ _ Hy').
  - done.
Qed.

Lemma claim_settled x m s :
  Healthy digest (s_db s) -> x ∈ checkpoints (s_db s) -> status (rec x) = running -> Fresh (s_next s) (s_db s) ->
  let n := attemptsOf (idOf x) (lastHeartbeatAt (rec x)) m in
  (n <= MAX_REANCHOR_ATTEMPTS)%nat ->
  exists out m' s', alone (claimAndStart digest toSafeErrorLogString deps (idOf x) (rootRunId (rec x)) (rec x) n
                             (<[idOf x := (lastHeartbeatAt (rec x), n)]> m)) s = (Ok (out, m'), s')
    /\ Settled x m s out m' s'.
Proof.
  intros Hd Hx Hs Hf n Hn. set (new := newIdAt (s_next s)). assert (getStmt new (s_db s) = None) as Hnew by by apply Hf.
  destruct (healthy_claim digest (s_db s) x new (o_now o) Hd Hx Hs) as (r & d1 & Hc); [done|done|].
  pose proof (claim_cases _ _ _ _ _ (hy_keyed _ _ Hd) Hc) as [(r' & [= <-] & Hcl)|[_ Hno]]; [|by destruct (Hno r)].
  pose proof (Claimed_healthy _ _ _ _ _ Hcl Hd) as Hd1. pose proof (Claimed_rows _ _ _ _ _ Hcl) as [(z & Hz & Hzs) Hy].
  cbn [claimOf c_checkpointId c_replacementId] in Hz, Hy.
  pose proof (fun cid => Claimed_other _ _ _ _ cid Hcl) as Hother. cbn [claimOf c_checkpointId c_replacementId] in Hother.
  pose proof (cl_valid _ _ _ _ _ Hcl) as Hv.
  destruct (cl_source _ _ _ _ _ Hcl) as (row & b & Hg & _ & _ & _ & _ & _ & _ & Er). cbn [claimOf c_checkpointId] in Hg.
  rewrite (getStmt_in x _ (hy_keyed _ _ Hd) Hx) in Hg. injection Hg as <-.
  assert (checkpointId r = new /\ rootRunId r = rootRunId (rec x) /\ leaseIds r = [] /\ status r = running
    /\ lastHeartbeatAt r = lastHeartbeatAt (rec x)) as (Hid & Hroot & Hl & Hrun & Hhb) by by rewrite Er.
  cbn [claimAndStart alone mbind Prog_bind bind store execStore s_db s_ledger s_next s_done]. fold (newIdAt (s_next s)). fold new.
  rewrite Hc. cbn [fst snd]. set (s1 := mkSt d1 _ _ _).
  set (m1 := <[new := _]> _). destruct (afterClaim_ended (rec x) r m1 s1 Hv Hl Hrun) as (out & s' & E & En).
  rewrite Hid, Hroot in E, En. exists out, m1, s'. split; [exact E|]. eapply (ended_settled x m s r d1 s1); try done. by exists z.
Qed.

Lemma record_settled x m s :
  Healthy digest (s_db s) -> x ∈ checkpoints (s_db s) -> status (rec x) = running -> Fresh (s_next s) (s_db s) ->
  exists out m' s', alone (resumeRecord digest toSafeErrorLogString deps (rec x) m) s = (Ok (out, m'), s')
    /\ Settled x m s out m' s'
    /\ ((MAX_REANCHOR_ATTEMPTS < attemptsOf (idOf x) (lastHeartbeatAt (rec x)) m)%nat -> out = OOrphaned).
Proof.
  intros Hd Hx Hs Hf. unfold resumeRecord. rewrite alone_bind. cbn [store alone execStore fst snd]. fold (idOf x).
  rewrite (reread_self _ _ Hd Hx). replace (mkSt (s_db s) (s_ledger s) (s_next s) (s_done s)) with s by by destruct s.
  unfold afterReread. rewrite decide_True by done. unfold parseDurableRunRecord.
  rewrite (Healthy_recordValid _ _ _ Hd Hx). unfold resumeSource. fold (idOf x).
  destruct (_ <? _)%nat eqn:E.
  - edestruct (giveUp_settled x m s) as (s' & Ha & Hset); [done..|]. exists OOrphaned, (delete (idOf x) m), s'. done.
  - apply Nat.ltb_ge in E. destruct (claim_settled x m s Hd Hx Hs Hf E) as (out & m' & s' & Ha & Hset).
    exists out, m', s'. split; [done|]. split; [done|]. lia.
Qed.

(** ** The loop *)

(** What is running in [s'] and was not there before the pass. *)
Record Pass (xs : list Row) (m : Reanchor) (s : St) (m' : Reanchor) (s' : St) : Prop := {
  pa_healthy : Healthy digest (s_db s');
  pa_fresh : Fresh (s_next s') (s_db s');
  pa_next : (s_next s <= s_next s')%nat;
  pa_ledger : s_ledger s' = s_ledger s;
  pa_old : forall x, x ∈ xs -> exists y, getStmt (idOf x) (s_db s') = Some y /\ status (rec y) <> running;
  pa_rows : forall cid, cid ∉ (idOf <$> xs) -> (forall k, (s_next s <= k)%nat -> cid <> newIdAt k) ->
    getStmt cid (s_db s') = getStmt cid (s_db s) /\ m' !! cid = m !! cid;
  pa_new : forall k y, (s_next s <= k)%nat -> getStmt (newIdAt k) (s_db s') = Some y -> status (rec y) = running ->
    exists x, x ∈ xs /\ lastHeartbeatAt (rec y) = lastHeartbeatAt (rec x)
      /\ m' !! newIdAt k = Some (lastHeartbeatAt (rec x), attemptsOf (idOf x) (lastHeartbeatAt (rec x)) m)
      /\ (attemptsOf (idOf x) (lastHeartbeatAt (rec x)) m <= MAX_REANCHOR_ATTEMPTS)%nat;
  pa_done : exists es, s_done s' = s_done s ++ es /\ forall x, x ∈ xs -> exists out new, Notice out (rootRunId (rec x)) (idOf x) new es
}.

Lemma counted_sum out acc :
  out = OResumed \/ out = OOrphaned ->
  (resumed (counted out acc) + orphaned_ (counted out acc) = S (resumed acc + orphaned_ acc))%nat
  /\ deferred (counted out acc) = deferred acc.
Proof. intros [-> | ->]; simpl; split; lia. Qed.

Lemma attemptsOf_same cid h m m' : m !! cid = m' !! cid -> attemptsOf cid h m = attemptsOf cid h m'.
Proof. unfold attemptsOf. by intros ->. Qed.

Lemma Pass_nil m s : Healthy digest (s_db s) -> Fresh (s_next s) (s_db s) -> Pass [] m s m s.
Proof.
  intros Hd Hf. split; try done; [by intros x ?%not_elem_of_nil| |].
  - intros k y Hk Hy. by rewrite (Hf k Hk) in Hy.
  - exists []. split; [by rewrite app_nil_r|by intros x ?%not_elem_of_nil].
Qed.

(** One settled candidate, then the rest. *)
Lemma Pass_cons x xs m s out m1 s1 m' s' :
  NoDup (idOf <$> x :: xs) -> (forall y, y ∈ xs -> y ∈ checkpoints (s_db s)) -> Healthy digest (s_db s) -> Fresh (s_next s) (s_db s) ->
  Settled x m s out m1 s1 -> Pass xs m1 s1 m' s' -> Pass (x :: xs) m s m' s'.
Proof.
  rewrite fmap_cons. intros [Hnx Hnd]%NoDup_cons Hin Hd Hf [H1 H2 H3 Hl1 H4 H5 (z & Hz & Hzs) H7 H8 (es & Hes & Hno)]
    [P1 P2 P3 Hl2 P4 P5 P6 (es' & Hes' & Hno')].
  assert (forall k, (s_next s1 <= k)%nat -> idOf x <> newIdAt k) as Hxk.
  { intros k Hk E. rewrite E in Hz. by rewrite (H2 k Hk) in Hz. }
  assert (forall y, y ∈ xs -> idOf y <> idOf x /\ idOf y <> newIdAt (s_next s)) as Hys.
  { intros y Hy. split; [intros E; apply Hnx; rewrite <- E; by apply list_elem_of_fmap_2|].
    intros E. pose proof (getStmt_in y _ (hy_keyed _ _ Hd) (Hin y Hy)) as Hg. rewrite E in Hg. by rewrite Hf in Hg. }
  split; [done|done|lia|congruence| | | |].
  - intros y [-> | Hy]%elem_of_cons; [|by apply P4]. exists z. by rewrite (proj1 (P5 (idOf x) Hnx Hxk)).
  - intros cid Hc Hk. rewrite fmap_cons, not_elem_of_cons in Hc. destruct Hc as [Hcx Hcs].
    destruct (P5 cid Hcs) as [-> ->]; [intros k Hk'; apply Hk; lia|]. split; [apply H4|apply H5]; auto.
  - intros k y Hk Hy Hrun. destruct (decide (s_next s1 <= k)%nat) as [Hle|Hlt].
    + destruct (P6 k y Hle Hy Hrun) as (x' & Hx' & Hh & Hm & Ha). exists x'. split; [by right|]. split; [done|].
      destruct (Hys x' Hx') as [Hn1 Hn2]. rewrite (attemptsOf_same _ _ m1 m (H5 _ Hn1 Hn2)) in *. done.
    + assert (k = s_next s) as -> by lia.
      destruct (P5 (newIdAt (s_next s))) as [Hg Hm]; [| |].
      * intros (y' & E & Hy')%list_elem_of_fmap. destruct (Hys y' Hy') as [_ ?]. congruence.
      * intros k Hk' E%newIdAt_inj. lia.
      * rewrite Hg in Hy. destruct (H8 y Hy Hrun) as (_ & Hh & Hm1 & Ha). exists x. split; [left|]. split; [done|].
        by rewrite Hm.
  - exists (es ++ es'). split; [by rewrite Hes', Hes, <- app_assoc|].
    assert (forall out r a b l l', Notice out r a b l -> Notice out r a b (l ++ l') /\ Notice out r a b (l' ++ l)) as Hmono.
    { intros [] r a b l l' Hn; try done; simpl in *; [destruct Hn as (k & Hn)|destruct Hn as (k & h & Hn)];
        split; repeat eexists; apply elem_of_app; eauto. }
    intros y [-> | Hy]%elem_of_cons; [exists out, (newIdAt (s_next s)); exact (proj1 (Hmono _ _ _ _ _ es' Hno))|].
    destruct (Hno' y Hy) as (o' & new & Hn). exists o', new. exact (proj2 (Hmono _ _ _ _ _ es Hn)).
Qed.

Lemma backlog_settled deadline xs acc m s :
  o_now o <= deadline -> NoDup (idOf <$> xs) -> (forall x, x ∈ xs -> x ∈ checkpoints (s_db s) /\ status (rec x) = running) ->
  Healthy digest (s_db s) -> Fresh (s_next s) (s_db s) ->
  exists acc' m' s', alone (resumeBacklog digest toSafeErrorLogString deps deadline (CRecord ∘ rec <$> xs) acc m) s
      = (Ok (Ok acc', m'), s')
    /\ Pass xs m s m' s'
    /\ (resumed acc' + orphaned_ acc' = resumed acc + orphaned_ acc + length xs)%nat /\ deferred acc' = deferred acc.
Proof.
  intros Hdl. revert acc m s. induction xs as [|x xs IH]; intros acc m s Hn Hx Hd Hf.
  - exists acc, m, s. split; [done|]. split; [by apply Pass_nil|]. simpl. lia.
  - destruct (Hx x) as [Hin Hrun]; [left|]. destruct (record_settled x m s Hd Hin Hrun Hf) as (out & m1 & s1 & Ha & Hset & _).
    pose proof Hn as Hn'. rewrite fmap_cons in Hn'. apply NoDup_cons in Hn' as [Hnx Hn'].
    destruct (IH (counted out acc) m1 s1) as (acc' & m' & s' & Hb & Hp & Hc & Hde).
    + done.
    + intros y Hy. destruct (Hx y) as [Hyin Hyrun]; [by right|]. split; [|done].
      pose proof (getStmt_in y _ (hy_keyed _ _ Hd) Hyin) as Hg. apply (getStmt_Some (idOf y)).
      rewrite (se_rows _ _ _ _ _ _ Hset); [done| |].
      * intros E. apply Hnx. rewrite <- E. by apply list_elem_of_fmap_2.
      * intros E. rewrite E in Hg. by rewrite Hf in Hg.
    + apply Hset.
    + apply Hset.
    + destruct (counted_sum out acc (se_out _ _ _ _ _ _ Hset)) as [Hc1 Hd1].
      exists acc', m', s'. split; [|split; [|simpl; split; [lia|congruence]]].
      * rewrite fmap_cons. cbn [resumeBacklog alone]. rewrite (proj2 (Z.ltb_ge _ _)) by lia. rewrite alone_bind.
        cbn [resumeCandidate compose]. rewrite Ha. destruct (se_out _ _ _ _ _ _ Hset) as [-> | ->]; exact Hb.
      * eapply Pass_cons; try done. intros y Hy. by apply Hx; right.
Qed.

(** ** The whole pass *)

(** The outward part of a pass is the outward program on the ledger. *)
Lemma outward_alone {A} (p : OutwardSend.Prog A) s x l :
  OutwardRecovery.runAlone sha256 (o_now o) p (s_ledger s) = (Some (Ok x), l) ->
  alone (outward p) s = (Ok x, mkSt (s_db s) l (s_next s) (s_done s)).
Proof.
  revert s. induction p as [a|e|q k IH|key k IH|k IH]; intros s H; simpl in *; try done.
  - injection H as -> <-. by destruct s.
  - by rewrite IH with (s := mkSt _ _ _ _).
  - by apply IH.
Qed.

Definition runningRows (d : Db) : list Row := foldr insertByHeartbeat [] (filter (fun r => isRunning r = true) (checkpoints d)).

Lemma runningRows_iff d x : x ∈ runningRows d <-> x ∈ checkpoints d /\ status (rec x) = running.
Proof. unfold runningRows. rewrite sortByHeartbeat_perm, list_elem_of_filter, isRunning_iff. tauto. Qed.

Lemma runningRows_NoDup d : Keyed d -> NoDup (idOf <$> runningRows d).
Proof.
  intros Hk. unfold runningRows. rewrite sortByHeartbeat_perm. unfold Keyed in Hk.
  induction (checkpoints d) as [|x l IH]; [constructor|]. rewrite fmap_cons in Hk. apply NoDup_cons in Hk as [Hx Hk].
  rewrite filter_cons. case_decide; [|by apply IH]. rewrite fmap_cons. apply NoDup_cons. split; [|by apply IH].
  intros (y & E & [_ Hy]%list_elem_of_filter)%list_elem_of_fmap. apply Hx. rewrite E. by apply list_elem_of_fmap_2.
Qed.

Lemma scan_valid d :
  (forall x, x ∈ runningRows d -> rowToRecord digest x = Ok (rec x)) ->
  listResumable digest d = Ok {| records := rec <$> runningRows d; invalid := [] |}.
Proof.
  intros H. unfold listResumable. fold (runningRows d). f_equal.
  induction (runningRows d) as [|x l IH]; [done|]. cbn [omap list_omap]. rewrite (H x) by left. cbn.
  assert (forall y, y ∈ l -> rowToRecord digest y = Ok (rec y)) as H' by (intros y Hy; apply H; by right).
  injection (IH H') as -> ->. done.
Qed.

Lemma resumeAll_scan m s l :
  (forall x, x ∈ runningRows (s_db s) -> rowToRecord digest x = Ok (rec x)) ->
  OutwardRecovery.runAlone sha256 (o_now o) (OutwardSend.parkOutwardBy (o_now o + recoveryBudgetMs deps)) (s_ledger s)
    = (Some (Ok (OutwardSend.OPDone 0)), l) ->
  let backlog := CRecord ∘ rec <$> runningRows (s_db s) in
  alone (resumeAll digest toSafeErrorLogString deps None m) s =
  alone (resumeBacklog digest toSafeErrorLogString deps (o_now o + recoveryBudgetMs deps) backlog
           {| resumed := 0; orphaned_ := 0; deferred := 0 |} (prune backlog m)) (mkSt (s_db s) l (s_next s) (s_done s)).
Proof.
  intros Hv Hl. unfold resumeAll. cbn [alone]. rewrite alone_bind.
  rewrite (outward_alone _ _ _ _ Hl), alone_bind. cbn [store alone execStore fst snd s_db s_ledger s_next s_done].
  rewrite (scan_valid _ Hv). cbn [eligible]. unfold fullBacklog. cbn [invalid records fmap list_fmap app].
  by rewrite <- list_fmap_compose.
Qed.

Lemma prune_lookup l m cid : cid ∈ (candidateId <$> l) -> prune l m !! cid = m !! cid.
Proof.
  intros Hc. unfold prune. destruct (m !! cid) as [v|] eqn:E.
  - apply (map_lookup_filter_Some (M := gmap string)). done.
  - apply (map_lookup_filter_None (M := gmap string)). by left.
Qed.

Lemma pass_alone m s l :
  Healthy digest (s_db s) -> Fresh (s_next s) (s_db s) -> 0 <= recoveryBudgetMs deps ->
  OutwardRecovery.runAlone sha256 (o_now o) (OutwardSend.parkOutwardBy (o_now o + recoveryBudgetMs deps)) (s_ledger s)
    = (Some (Ok (OutwardSend.OPDone 0)), l) ->
  exists acc m' s', alone (resumeAll digest toSafeErrorLogString deps None m) s = (Ok (Ok acc, m'), s')
    /\ Pass (runningRows (s_db s)) (prune (CRecord ∘ rec <$> runningRows (s_db s)) m)
         (mkSt (s_db s) l (s_next s) (s_done s)) m' s'
    /\ (resumed acc + orphaned_ acc = length (runningRows (s_db s)))%nat /\ deferred acc = 0%nat.
Proof.
  intros Hd Hf Hb Hl. set (xs := runningRows (s_db s)). set (s1 := mkSt (s_db s) l (s_next s) (s_done s)).
  destruct (backlog_settled (o_now o + recoveryBudgetMs deps) xs {| resumed := 0; orphaned_ := 0; deferred := 0 |}
    (prune (CRecord ∘ rec <$> xs) m) s1) as (acc & m' & s' & Ha & Hp & Hc & Hde);
    [lia|apply runningRows_NoDup, Hd|by intros x ?%runningRows_iff|done|done|].
  exists acc, m', s'. split; [|by split; [|split]]. rewrite (resumeAll_scan _ _ _ (fun x Hx => hy_valid _ _ Hd x (proj1 (proj1 (runningRows_iff _ _) Hx))) Hl).
  exact Ha.
Qed.
End Alone.
End ResumeAlone.
