(* ===== verification/ResumeTheorems.v ===== *)
(** * What recovery guarantees

  Over every interleaving with faults and crashes: a run is resumed at most
  once, and only with a claim, a cleared ledger and a lease of its own
  authority.  In a healthy store: nothing is dropped, and a run that never
  makes progress is given up.  And what one bad row does to a pass. *)

From S2P Require Import Prelude ConversationScope SessionKeys TaskTypes ApprovalPolicy ExecutionGraph OutwardLedger OutwardSend OutwardRecovery DurableRuns DurableRunsFacts DurableRunsHistory DurableRunsBudget DurableRunsTheorems ResumeEngine ResumeWorld ResumeSafety ResumeProgress ResumeAlone.

Open Scope string_scope.
Open Scope list_scope.
Open Scope Z_scope.

Module ResumeTheorems.
Import DurableRuns DurableRunsFacts DurableRunsHistory ResumeEngine ResumeWorld ResumeSafety ResumeProgress ResumeAlone.

(** ** Safety *)

(** C2: However recovery passes and watchdog ticks of any number of processes
    interleave with each other, with any other use of the store, with failing
    store calls and with crashes: no checkpoint is claimed twice, no two claims
    share a replacement, no replacement is started twice, and every start is of
    a claimed replacement. *)
Theorem each_run_resumed_once digest sha256 safe deps cs d l :
  Keyed d ->
  let t := trace (play digest sha256 safe deps cs (boot d l)) in
  NoDup (omap claimSource t) /\ NoDup (omap claimTarget t) /\ NoDup (omap startedId t)
  /\ forall cid, cid ∈ omap startedId t -> cid ∈ omap claimTarget t.
Proof.
  intros Hk t. destruct (play_inv digest sha256 safe deps cs _ (boot_inv d l Hk)) as [[_ _ Hs Ht Hst Hj] _].
  split; [done|]. split; [done|]. split; [done|]. intros cid (e & He & Ee)%list_elem_of_omap.
  destruct (Just_claim _ _ _ Hj He Ee) as (e' & He' & Ee'). apply list_elem_of_omap. by exists e'.
Qed.

Lemma Just_at t t1 n r lease t2 : Just t -> t = t1 ++ (n, EStart r lease) :: t2 -> Backed n r lease t2.
Proof.
  revert t. induction t1 as [|[k e] t1 IH]; intros t Hj ->; simpl in Hj; [by destruct Hj|].
  destruct e; try (by eapply IH; [exact Hj|]). destruct Hj as [_ Hj]. by eapply IH; [exact Hj|].
Qed.

(** C6: Every start of a resumed run is backed, in the same pass and in this
    order, by a granted claim on a running stored checkpoint, by an answer of
    the outward ledger that its root has no uncertain send, and by a lease
    minted for exactly the replacement's agent, trust, origin, root, checkpoint
    and capabilities; the replacement has the principal of the stored
    checkpoint and none but its capabilities. *)
Theorem start_is_backed digest sha256 safe deps cs d l t1 n r lease t2 :
  Keyed d -> trace (play digest sha256 safe deps cs (boot d l)) = t1 ++ (n, EStart r lease) :: t2 ->
  exists p i, [(n, EMint i lease); (n, EClear (rootRunId r)); (n, EClaim p r)] `sublist_of` t2
    /\ Matches i r /\ status p = running /\ principal r = principal p /\ caps r ⊆ caps p.
Proof.
  intros Hk E. destruct (play_inv digest sha256 safe deps cs _ (boot_inv d l Hk)) as [[_ Hc _ _ _ Hj] _].
  destruct (Just_at _ _ _ _ _ _ Hj E) as (p & i & Hsub & Hm). exists p, i. split; [done|]. split; [done|].
  rewrite E, Forall_app, Forall_cons in Hc. destruct Hc as (_ & _ & Hc). rewrite Forall_forall in Hc.
  assert ((n, EClaim p r) ∈ t2) as Hin by (eapply elem_of_sublist; [|exact Hsub]; do 2 right; left).
  destruct (Hc _ Hin) as (_ & _ & Hp & Hcaps & Hrun). done.
Qed.

(** ** Progress *)

Section Progress.
Variable digest : string -> string.
Variable sha256 : string -> string.
Variable safe : string -> string.
Variable deps : Deps.
Variable o : Outside.

(** Recovery passes one after the other, with nothing else going on. *)
Fixpoint passes (k : nat) (m : Reanchor) (s : St) : Reanchor * St :=
  match k with
  | O => (m, s)
  | S k =>
      match alone digest sha256 o (resumeAll digest safe deps None m) s with
      | (Ok (_, m'), s') => passes k m' s'
      | (Err _, s') => (m, s')
      end
  end.

Definition nothingInFlight (l : OutwardLedger.Db) : Prop :=
  filter (fun r => OutwardLedger.inFlight r = true) (OutwardLedger.ledger l) = [].

Lemma quiet_ledger l deadline :
  nothingInFlight l ->
  OutwardRecovery.runAlone sha256 (o_now o) (OutwardSend.parkOutwardBy deadline) l = (Some (Ok (OutwardSend.OPDone 0)), l).
Proof.
  intros Hl. unfold OutwardSend.parkOutwardBy. cbn [OutwardRecovery.runAlone mbind OutwardSend.Prog_bind OutwardSend.bind OutwardSend.call].
  cbn [OutwardSend.exec fst snd OutwardSend.Ans]. unfold OutwardLedger.listUnreconciled, OutwardLedger.listUnreconciledStmt.
  unfold nothingInFlight in Hl. rewrite Hl. done.
Qed.

(** Every running row has been re-anchored [c] times at its heartbeat. *)
Definition Counted (c : nat) (m : Reanchor) (d : Db) : Prop :=
  forall x, x ∈ checkpoints d -> status (rec x) = running -> (c < attemptsOf (idOf x) (lastHeartbeatAt (rec x)) m)%nat.

Lemma Counted_0 m d : Counted 0 m d.
Proof. intros x _ _. unfold attemptsOf. destruct (m !! _) as [[h n]|]; [destruct (_ =? _)|]; lia. Qed.

Context (uuid_inj : Inj (=) (=) (o_uuid o)) (budget : 0 <= recoveryBudgetMs deps).

(** A row that runs after a pass replaces one that ran before it. *)
Lemma Pass_running m s m' s' y :
  Healthy digest (s_db s) -> Pass digest o (runningRows (s_db s)) m s m' s' ->
  y ∈ checkpoints (s_db s') -> status (rec y) = running ->
  exists x k, x ∈ runningRows (s_db s) /\ idOf y = newIdAt o k /\ lastHeartbeatAt (rec y) = lastHeartbeatAt (rec x)
    /\ m' !! idOf y = Some (lastHeartbeatAt (rec x), attemptsOf (idOf x) (lastHeartbeatAt (rec x)) m)
    /\ (attemptsOf (idOf x) (lastHeartbeatAt (rec x)) m <= MAX_REANCHOR_ATTEMPTS)%nat.
Proof.
  intros Hd [P1 P2 _ _ P4 P5 P6 _] Hy Hrun. pose proof (getStmt_in y _ (hy_keyed _ _ P1) Hy) as Hg.
  destruct (decide (idOf y ∈ (idOf <$> runningRows (s_db s)))) as [(x & E & Hx)%list_elem_of_fmap|Hn].
  { destruct (P4 x Hx) as (z & Hz & Hzs). rewrite <- E, Hg in Hz. injection Hz as <-. done. }
  destruct (decide (Exists (fun k => idOf y = newIdAt o k) (seq (s_next s) (s_next s' - s_next s)))) as [Hex|Hno].
  - apply Exists_exists in Hex as (k & Hk%elem_of_seq & E). rewrite E in Hg. destruct (P6 k y ltac:(lia) Hg Hrun) as (x & Hx & Hh & Hm & Ha). exists x, k. rewrite E. done.
  - destruct (P5 (idOf y) Hn) as [Hsame _].
    { intros k Hk E. destruct (decide (s_next s' <= k)%nat) as [Hle|Hlt]; [rewrite E in Hg; by rewrite (P2 k Hle) in Hg|].
      apply Hno, Exists_exists. exists k. split; [apply elem_of_seq; lia|done]. }
    rewrite Hg in Hsame. symmetry in Hsame. apply getStmt_Some in Hsame as [Hin _].
    destruct Hn. apply list_elem_of_fmap_2, runningRows_iff. done.
Qed.

Lemma pass_counts c m s :
  Healthy digest (s_db s) -> Fresh o (s_next s) (s_db s) -> nothingInFlight (s_ledger s) -> Counted c m (s_db s) ->
  exists acc m' s', alone digest sha256 o (resumeAll digest safe deps None m) s = (Ok (acc, m'), s')
    /\ Healthy digest (s_db s') /\ Fresh o (s_next s') (s_db s') /\ nothingInFlight (s_ledger s')
    /\ Counted (S c) m' (s_db s')
    /\ ((MAX_REANCHOR_ATTEMPTS <= c)%nat -> forall y, y ∈ checkpoints (s_db s') -> status (rec y) <> running).
Proof.
  intros Hd Hf Hl Hc. pose proof (quiet_ledger _ (o_now o + recoveryBudgetMs deps) Hl) as Hq.
  destruct (pass_alone digest sha256 safe deps o uuid_inj m s _ Hd Hf budget Hq) as (acc & m' & s' & Ha & Hp & _).
  replace (mkSt (s_db s) (s_ledger s) (s_next s) (s_done s)) with s in Hp by by destruct s.
  set (m0 := prune _ m) in Hp.
  assert (forall x, x ∈ runningRows (s_db s) -> (c < attemptsOf (idOf x) (lastHeartbeatAt (rec x)) m0)%nat) as Hm0.
  { intros x Hx. rewrite (attemptsOf_same _ _ m0 m).
    - apply runningRows_iff in Hx as [? ?]. by apply Hc.
    - apply prune_lookup. apply list_elem_of_fmap. exists (CRecord (rec x)). split; [done|]. apply list_elem_of_fmap. by exists x. }
  exists (Ok acc), m', s'. split; [done|]. split; [apply Hp|]. split; [apply Hp|]. split; [by rewrite (pa_ledger _ _ _ _ _ _ _ Hp)|].
  split.
  - intros y Hy Hrun. destruct (Pass_running _ _ _ _ _ Hd Hp Hy Hrun) as (x & k & Hx & _ & Hh & Hm & _).
    unfold attemptsOf at 1. rewrite Hm, Hh, Z.eqb_refl. specialize (Hm0 x Hx). lia.
  - intros Hmax y Hy Hrun. destruct (Pass_running _ _ _ _ _ Hd Hp Hy Hrun) as (x & k & Hx & _ & _ & _ & Hle).
    specialize (Hm0 x Hx). lia.
Qed.

Lemma passes_counted k c m s :
  Healthy digest (s_db s) -> Fresh o (s_next s) (s_db s) -> nothingInFlight (s_ledger s) -> Counted c m (s_db s) ->
  (MAX_REANCHOR_ATTEMPTS < c + k)%nat -> (0 < k)%nat ->
  forall y, y ∈ checkpoints (s_db (passes k m s).2) -> status (rec y) <> running.
Proof.
  revert c m s. induction k as [|k IH]; intros c m s Hd Hf Hl Hc Hk Hpos; [lia|]. cbn [passes].
  destruct (pass_counts c m s Hd Hf Hl Hc) as (acc & m' & s' & -> & Hd' & Hf' & Hl' & Hc' & Hend).
  destruct k as [|k]; [apply Hend; lia|]. apply (IH (S c)); try done; lia.
Qed.
End Progress.

(** C13: In a store whose rows all validate and whose running checkpoints have
    live roots, a recovery pass that runs alone within its budget, after an
    outward sweep that ended normally, succeeds and drops nothing: every
    checkpoint that was running is settled, resumed under a replacement or
    orphaned with a notice to the operator, and none of them still runs; the
    counts it reports add up to the backlog. *)
Theorem pass_settles_backlog digest sha256 safe deps o m s l :
  Inj (=) (=) (o_uuid o) -> Healthy digest (s_db s) -> Fresh o (s_next s) (s_db s) -> 0 <= recoveryBudgetMs deps ->
  OutwardRecovery.runAlone sha256 (o_now o) (OutwardSend.parkOutwardBy (o_now o + recoveryBudgetMs deps)) (s_ledger s)
    = (Some (Ok (OutwardSend.OPDone 0)), l) ->
  exists acc m' s' es, alone digest sha256 o (resumeAll digest safe deps None m) s = (Ok (Ok acc, m'), s')
    /\ (resumed acc + orphaned_ acc = length (filter (fun r => isRunning r = true) (checkpoints (s_db s))))%nat
    /\ deferred acc = 0%nat /\ s_done s' = s_done s ++ es
    /\ forall x, x ∈ checkpoints (s_db s) -> status (rec x) = running ->
         (exists y, getStmt (idOf x) (s_db s') = Some y /\ status (rec y) <> running)
         /\ exists out new, Notice out (rootRunId (rec x)) (idOf x) new es.
Proof.
  intros Hi Hd Hf Hb Hl. destruct (pass_alone digest sha256 safe deps o Hi m s l Hd Hf Hb Hl) as (acc & m' & s' & Ha & Hp & Hc & Hde).
  destruct (pa_done _ _ _ _ _ _ _ Hp) as (es & Hes & Hno). exists acc, m', s', es. split; [done|].
  split; [rewrite Hc; unfold runningRows; by rewrite DurableRunsTheorems.sortByHeartbeat_perm|].
  split; [done|]. split; [done|]. intros x Hx Hrun. assert (x ∈ runningRows (s_db s)) as Hr by by apply runningRows_iff.
  split; [by apply (pa_old _ _ _ _ _ _ _ Hp)|by apply Hno].
Qed.

(** C39: A run that makes no progress is given up: starting from any re-anchor
    counters, after four recovery passes in a healthy store with nothing else
    going on, no checkpoint is running any more, whether or not each resumed run
    reported success. *)
Theorem no_progress_is_bounded digest sha256 safe deps o m s :
  Inj (=) (=) (o_uuid o) -> 0 <= recoveryBudgetMs deps ->
  Healthy digest (s_db s) -> Fresh o (s_next s) (s_db s) -> nothingInFlight (s_ledger s) ->
  forall y, y ∈ checkpoints (s_db (passes digest sha256 safe deps o (S MAX_REANCHOR_ATTEMPTS) m s).2) ->
  status (rec y) <> running.
Proof.
  intros Hi Hb Hd Hf Hl. apply (passes_counted digest sha256 safe deps o Hi Hb _ 0); try done; [apply Counted_0|..]; unfold MAX_REANCHOR_ATTEMPTS; lia.
Qed.

(** ** One bad row *)

(** A claim in a tree with a row that does not validate. *)
Lemma bad_tree_claim digest d x bad newId now :
  Keyed d -> x ∈ checkpoints d -> status (rec x) = running -> rowToRecord digest x = Ok (rec x) ->
  bad ∈ checkpoints d -> rootRunId (rec bad) = rootRunId (rec x) -> rowToRecord digest bad <> Ok (rec bad) ->
  rootIsRevoked (rootRunId (rec x)) d = Ok false -> newId <> "" -> getStmt newId d = None ->
  exists e, claimForResume digest (claimOf (idOf x) (rec x) newId now) d = (Err e, d).
Proof.
  intros Hk Hx Hs Hv Hb Hbr Hbv Hr Hn Hf. pose proof (rowToRecord_Ok _ _ _ Hv) as [_ Hrv].
  destruct (DurableRunsTheorems.bad_row_no_authority digest (rootRunId (rec x)) d bad Hb Hbr Hbv) as [e He]. exists e.
  assert (newId <> idOf x) as Hne by (pose proof (getStmt_in x d Hk Hx); congruence).
  unfold claimForResume. rewrite (recordValid_claim digest (rec x)) by done. unfold claimTransaction. cbn [claimOf c_checkpointId].
  fold (idOf x). rewrite (getStmt_in x d Hk Hx), Hv, Hr, bool_decide_true by done. cbn [negb orb c_claimedAtMs claimOf].
  rewrite (proj2 (Z.ltb_ge _ _)) by lia. fold (idOf x).
  rewrite (authorized_self (rec x) newId now : authorized _ (claimOf (idOf x) _ _ _) = _). cbn [negb c_replacementId claimOf].
  by rewrite Hf, He.
Qed.


(** ** Reasons *)

(** The reason of a failed ledger query matches two patterns, and the event
    reports the first: a failed re-read. *)
Theorem orphan_reasons_overlap :
  let reason := "outward uncertainty query failed" in
  orphanReasonToEnum reason = reread_failed
  /\ (snd <$> filter (fun p => p.1 reason = true) orphanPatterns) = [reread_failed; outward_uncertain].
Proof. by vm_compute. Qed.

(** ** Two siblings recovered *)

Module Demo.
Import DurableRunsTheorems.Demo.

Definition sha (s : string) : string := s.
Definition endpoint : ConversationScope.ChannelEndpoint :=
  {| ConversationScope.channelType := "telegram"; ConversationScope.channelInstanceId := "bot";
     ConversationScope.conversationId := "c"; ConversationScope.threadId := None;
     ConversationScope.conversationKind := ConversationScope.Direct |}.

Definition demoDeps : Deps :=
  {| recoveryBudgetMs := 1000;
     resolveTurnScope := Some (fun r => Ok {| ConversationScope.conversation := p_scope (principal r);
                                              ConversationScope.principal := "u"; ConversationScope.endpoint := endpoint |});
     hasRevokeLease := true; hasReclaim := true |}.

Definition lease : IssuedLease := {| leaseId := "L"; bearer := "B" |}.

Definition outside : Outside :=
  {| o_now := 500; o_uuid := pretty; o_lease := fun _ => lease; o_resume := fun _ => Ok tt |}.

Definition start : St := mkSt two OutwardLedger.emptyDb 0 [].

#[global] Instance outside_inj : Inj (=) (=) (o_uuid outside).
Proof. apply _. Qed.

Lemma two_rows : checkpoints two = [freshRow (run "A" 3 200 running) 1; freshRow (run "B" 9 210 running) 2].
Proof. reflexivity. Qed.

Lemma two_fresh : Fresh outside 0 two.
Proof.
  intros k _. apply getStmt_None. rewrite two_rows. intros r [-> | [-> | []%not_elem_of_nil]%elem_of_cons]%elem_of_cons; done.
Qed.

Lemma two_healthy : Healthy digest two.
Proof.
  split; [apply two_keyed|..]; rewrite two_rows;
    intros r [-> | [-> | []%not_elem_of_nil]%elem_of_cons]%elem_of_cons; try (by vm_compute); intros _; by vm_compute.
Qed.

(** Both siblings come back, with the budget of the tree. *)
Example both_resumed :
  exists acc m' s', alone digest sha outside (resumeAll digest id demoDeps None ∅) start = (Ok (Ok acc, m'), s')
    /\ resumed acc = 2%nat /\ (usdConsumed ∘ rootBudget ∘ rec <$> runningRows (s_db s')) = [9; 9].
Proof. eexists _, _, _. split; [vm_compute; reflexivity|]. by vm_compute. Qed.

(** Two processes race over the same backlog. *)
Definition tickAt (n : nat) (uuid : string) : Choice :=
  Tick n {| e_now := 500; e_uuid := uuid; e_fault := None; e_lease := Ok lease; e_resumed := Ok tt |}.

Definition racing : list Choice :=
  [Spawn (Recover None ∅); Spawn (Recover None ∅)]
  ++ mjoin ((fun k => [tickAt 0 ("x" +:+ pretty k); tickAt 1 ("y" +:+ pretty k)]) <$> seq 0 11).

Definition raced : list (nat * Ev) := trace (play digest sha id demoDeps racing (boot two OutwardLedger.emptyDb)).

(** The first pass gets [A] and has started it. *)
Example raced_events :
  omap claimSource raced = ["A"] /\ omap startedId raced = ["resume-x5"].
Proof. by vm_compute. Qed.

Lemma each_run_resumed_once_witness : NoDup (omap claimSource raced) /\ NoDup (omap startedId raced).
Proof.
  destruct (each_run_resumed_once digest sha id demoDeps racing two OutwardLedger.emptyDb two_keyed) as (H1 & _ & H2 & _).
  exact (conj H1 H2).
Defined.

Definition resumedA : Run := match raced with (_, EStart r _) :: _ => r | _ => run "A" 3 200 running end.

Lemma start_is_backed_witness : exists p, (0%nat, EClaim p resumedA) ∈ raced /\ caps resumedA ⊆ caps p.
Proof.
  destruct (start_is_backed digest sha id demoDeps racing two OutwardLedger.emptyDb [] 0 resumedA lease (tail raced) two_keyed)
    as (p & i & Hsub & _ & _ & _ & Hc); [vm_compute; reflexivity|].
  exists p. split; [|exact Hc]. change raced with ((0%nat, EStart resumedA lease) :: tail raced). right.
  eapply elem_of_sublist; [|exact Hsub]. do 2 right. left.
Defined.

Lemma pass_settles_backlog_witness :
  exists acc m' s', alone digest sha outside (resumeAll digest id demoDeps None ∅) start = (Ok (Ok acc, m'), s')
    /\ (resumed acc + orphaned_ acc = 2)%nat /\ deferred acc = 0%nat.
Proof.
  destruct (pass_settles_backlog digest sha id demoDeps outside ∅ start OutwardLedger.emptyDb outside_inj two_healthy two_fresh)
    as (acc & m' & s' & es & Ha & Hc & Hd & _); [simpl; lia|reflexivity|].
  exists acc, m', s'. split; [exact Ha|]. split; [exact Hc|exact Hd].
Defined.

Lemma no_progress_is_bounded_witness :
  Forall (fun y => status (rec y) <> running) (checkpoints (s_db (passes digest sha id demoDeps outside 4 ∅ start).2)).
Proof.
  apply Forall_forall. apply (no_progress_is_bounded digest sha id demoDeps outside ∅ start outside_inj); [simpl; lia|apply two_healthy|apply two_fresh|reflexivity].
Defined.

(** The tree of [B] has an ended run whose row was damaged; [C] is in another tree. *)
Definition other : Run :=
  mkRun "C" (owner "other") (Flat []) [orch_web] [] 0 {| startedAtMs := 100; tokensConsumed := 0; usdConsumed := 0 |}
    None running 250 None None None None None.
Definition damaged : Db :=
  mkDb [freshRow (run "B" 9 210 running) 2; mkRow (run "A" 3 200 completed) None 1 1 false true; freshRow other 3]
       [{| root_run_id := "root"; revoked_at_ms := None |}; {| root_run_id := "other"; revoked_at_ms := None |}].

Lemma damaged_fresh : Fresh outside 0 damaged.
Proof.
  intros k _. apply getStmt_None. intros r [-> | [-> | [-> | []%not_elem_of_nil]%elem_of_cons]%elem_of_cons]%elem_of_cons; done.
Qed.

End Demo.
End ResumeTheorems.
