(* ===== verification/LeaseTables.v ===== *)
(** * Capabilities, scopes and the tables that classify methods and tools

  Models the vocabulary of authority: [core/src/security/capability.ts] (the
  capabilities and the checks on them), [handler-capability-map.ts] and
  [tool-capability-map.ts] (what each RPC method and each tool requires),
  [core/src/domain/sub-agent-tool-denylist.ts], the names and scopes of
  [core/src/api-contracts] with [internals.ts], the management methods of
  [daemon/src/wiring/setup-capability-endpoint.ts] and the admin methods of
  [daemon/src/api/rpc-dispatch.ts].  A capability is a string at run time, so it
  is one here; the request and response schemas of the contracts are left out. *)

From S2P Require Import Prelude.

Open Scope string_scope.
Open Scope list_scope.

Module LeaseTables.

Definition has (l : list string) (x : string) : bool := bool_decide (x ∈ l).

(** ** Capabilities *)

Definition AGENT_CAPABILITIES : list string := [
  "orch:spawn"; "orch:graph"; "orch:cron"; "orch:message"; "orch:skill"; "orch:read"; "orch:web";
  "orch:analyze"; "orch:write"; "orch:browse"; "orch:mcp"].

(** [held.includes(required)]; there is no wildcard. *)
Definition checkCapability (held : list string) (required : string) : bool := has held required.

Definition attenuateCaps (parent requested : list string) : list string :=
  List.filter (fun c => has parent c) requested.

(** [CapabilityDeniedError] is told apart from other errors by its callers. *)
Inductive CallError := CapabilityDenied (required : string) | Plain (message : string).

Definition requireCapability (held : option (list string)) (required : string) : Result unit CallError :=
  match held with
  | Some h => if checkCapability h required then Ok tt else Err (CapabilityDenied required)
  | None => Err (CapabilityDenied required)
  end.

(** ** What methods and tools require

  [table[k]] of an object literal finds an own property, a member of
  [Object.prototype] (never a string) or nothing. *)
Inductive Property (V : Type) := Own (v : V) | Inherited | Undefined.
Arguments Own {V} _.
Arguments Inherited {V}.
Arguments Undefined {V}.

Definition prototypeMembers : list string := [
  "constructor"; "hasOwnProperty"; "isPrototypeOf"; "propertyIsEnumerable"; "toLocaleString"; "toString";
  "valueOf"; "__defineGetter__"; "__defineSetter__"; "__lookupGetter__"; "__lookupSetter__"; "__proto__"].

Definition prop {V} (table : list (string * V)) (k : string) : Property V :=
  match mget table k with
  | Some v => Own v
  | None => if has prototypeMembers k then Inherited else Undefined
  end.

Definition HANDLER_CAPABILITY_MAP : list (string * string) := [
  ("session.spawn", "orch:spawn"); ("session.send", "ungated"); ("session.compact", "ungated");
  ("session.delete", "deny-by-origin"); ("session.export", "deny-by-origin"); ("session.history", "ungated");
  ("session.list", "ungated"); ("session.reset", "ungated"); ("session.reset_conversation", "deny-by-origin");
  ("session.run_status", "ungated"); ("session.search", "ungated"); ("session.status", "ungated");
  ("graph.define", "orch:graph"); ("graph.execute", "orch:graph"); ("graph.save", "orch:graph");
  ("graph.load", "orch:graph"); ("graph.delete", "orch:graph"); ("graph.deleteRun", "orch:graph");
  ("graph.cancel", "orch:graph"); ("graph.list", "ungated"); ("graph.status", "ungated");
  ("graph.runs", "ungated"); ("graph.outputs", "ungated"); ("cron.add", "orch:cron");
  ("cron.update", "orch:cron"); ("cron.remove", "orch:cron"); ("cron.run", "orch:cron");
  ("cron.list", "ungated"); ("cron.status", "ungated"); ("cron.runs", "ungated");
  ("message.send", "orch:message"); ("message.reply", "orch:message"); ("message.react", "orch:message");
  ("message.edit", "deny-by-origin"); ("message.delete", "deny-by-origin");
  ("message.attach", "deny-by-origin"); ("message.fetch", "deny-by-origin"); ("skills.create", "orch:skill");
  ("skills.update", "orch:skill"); ("skills.delete", "orch:skill"); ("skills.import", "orch:skill");
  ("skills.upload", "orch:skill"); ("skills.list", "ungated"); ("capabilities.introspect", "ungated")].

Definition SELF_SCOPED_AGENT_READS : list string := ["capabilities.introspect"; "session.status"; "session.list"].

Definition TOOL_CAPABILITY_MAP : list (string * string) := [
  ("memory_search", "orch:read"); ("memory_get", "orch:read"); ("session_search", "orch:read");
  ("extract_document", "orch:read"); ("sessions_list", "orch:read"); ("session_status", "orch:read");
  ("sessions_history", "orch:read"); ("read", "orch:read"); ("grep", "orch:read"); ("find", "orch:read");
  ("ls", "orch:read"); ("jq", "orch:read"); ("sql", "orch:read"); ("jsonpath", "orch:read");
  ("web_search", "orch:web"); ("web_fetch", "orch:web"); ("mcp", "orch:mcp"); ("write", "orch:write");
  ("checkpoint", "orch:write"); ("resume", "orch:read")].

Inductive ToolRoute := Rpc (method : string) | Executor.

Definition TOOL_ROUTE_MAP : list (string * ToolRoute) := [
  ("memory_search", Rpc "memory.search_files"); ("memory_get", Rpc "memory.get_file");
  ("extract_document", Rpc "media.extract_document"); ("session_search", Rpc "session.search");
  ("sessions_list", Rpc "session.list"); ("session_status", Rpc "session.status");
  ("sessions_history", Rpc "session.history"); ("read", Executor); ("grep", Executor); ("find", Executor);
  ("ls", Executor); ("jq", Executor); ("sql", Executor); ("jsonpath", Executor); ("web_search", Executor);
  ("web_fetch", Executor); ("mcp", Executor); ("write", Executor); ("checkpoint", Executor);
  ("resume", Executor)].

Definition SUB_AGENT_TOOL_DENYLIST : list string := [
  "gateway"; "channels_manage"; "agents_manage"; "models_manage"; "providers_manage"; "tokens_manage";
  "skills_manage"; "sessions_manage"; "memory_manage"; "heartbeat_manage"; "mcp_manage"; "mcp_login"].

(** The first violation, by the tool and the kind. *)
Inductive MapError := Denylisted (tool : string) | Unrouted (tool : string).

Definition assertToolMapSoundness {C R} (capMap : list (string * C)) (routeMap : list (string * R))
    (denylist : list string) : Result unit MapError :=
  let check tool acc :=
    match acc with
    | Err e => Err e
    | Ok tt =>
        if has denylist tool then Err (Denylisted tool)
        else match prop routeMap tool with Undefined => Err (Unrouted tool) | _ => Ok tt end
    end in
  fold_left (fun acc tool => check tool acc) (mkeys capMap) (Ok tt).

(** The management methods, each with the tool that owns it. *)
Definition DENYLISTED_RPC_METHODS : list (string * string) := [
  ("config.apply", "gateway"); ("config.diff", "gateway"); ("config.history", "gateway");
  ("config.patch", "gateway"); ("config.read", "gateway"); ("config.rollback", "gateway");
  ("config.schema", "gateway"); ("env.list", "gateway"); ("env.set", "gateway"); ("gateway.restart", "gateway");
  ("gateway.status", "gateway"); ("channels.configure", "channels_manage");
  ("channels.disable", "channels_manage"); ("channels.enable", "channels_manage");
  ("channels.get", "channels_manage"); ("channels.list", "channels_manage");
  ("channels.restart", "channels_manage"); ("agents.create", "agents_manage");
  ("agents.delete", "agents_manage"); ("agents.get", "agents_manage"); ("agents.list", "agents_manage");
  ("agents.resume", "agents_manage"); ("agents.suspend", "agents_manage"); ("agents.update", "agents_manage");
  ("models.list", "models_manage"); ("models.list_providers", "models_manage");
  ("models.test", "models_manage"); ("providers.create", "providers_manage");
  ("providers.delete", "providers_manage"); ("providers.disable", "providers_manage");
  ("providers.enable", "providers_manage"); ("providers.get", "providers_manage");
  ("providers.list", "providers_manage"); ("providers.update", "providers_manage");
  ("tokens.create", "tokens_manage"); ("tokens.list", "tokens_manage"); ("tokens.revoke", "tokens_manage");
  ("tokens.rotate", "tokens_manage"); ("skills.create", "skills_manage"); ("skills.delete", "skills_manage");
  ("skills.import", "skills_manage"); ("skills.list", "skills_manage"); ("skills.update", "skills_manage");
  ("skills.upload", "skills_manage"); ("session.compact", "sessions_manage");
  ("session.delete", "sessions_manage"); ("session.export", "sessions_manage");
  ("session.reset", "sessions_manage"); ("memory.browse", "memory_manage"); ("memory.delete", "memory_manage");
  ("memory.export", "memory_manage"); ("memory.flush", "memory_manage"); ("memory.pin", "memory_manage");
  ("memory.stats", "memory_manage"); ("memory.unpin", "memory_manage"); ("heartbeat.get", "heartbeat_manage");
  ("heartbeat.states", "heartbeat_manage"); ("heartbeat.trigger", "heartbeat_manage");
  ("heartbeat.update", "heartbeat_manage"); ("mcp.connect", "mcp_manage"); ("mcp.disconnect", "mcp_manage");
  ("mcp.reconnect", "mcp_manage"); ("mcp.oauth_login", "mcp_login")].

Definition denylistToolForMethod (method : string) : Property string := prop DENYLISTED_RPC_METHODS method.

(** The check at module load: every owner is a denylisted tool. *)
Definition denylistedMethodsSound : bool := forallb (fun e => has SUB_AGENT_TOOL_DENYLIST e.2) DENYLISTED_RPC_METHODS.

(** ** Contracts *)

Inductive Scope := rpc | admin | mcp_client.

#[global] Instance Scope_eq_dec : EqDecision Scope.
Proof. solve_decision. Defined.

Definition ApiContract : Type := string * list Scope.

Definition hasScope (s : Scope) (c : ApiContract) : bool := bool_decide (s ∈ c.2).

Definition AGENTS_CONTRACTS : list ApiContract :=
  [("agents.create", [admin]); ("agents.get", [admin]); ("agents.update", [admin]); ("agents.delete", [admin]);
  ("agents.suspend", [admin]); ("agents.resume", [admin]); ("agent.getOperationModels", [admin]);
  ("models.list", [admin]); ("models.list_providers", [admin]); ("models.test", [admin]);
  ("providers.list", [admin]); ("providers.get", [admin]); ("providers.create", [admin]);
  ("providers.update", [admin]); ("providers.delete", [admin]); ("providers.enable", [admin]);
  ("providers.disable", [admin])].

Definition AUTH_CONTRACTS : list ApiContract :=
  [("auth.list", [admin]); ("auth.logout", [admin]); ("auth.set", [admin])].

Definition CAPABILITIES_CONTRACTS : list ApiContract :=
  [("capabilities.introspect", [rpc])].

Definition CAPABILITY_SERVICES_CONTRACTS : list ApiContract :=
  [("capabilityServices.list", [admin]); ("capabilityServices.get", [admin]);
  ("managedAttention.list", [admin]); ("managedAttention.get", [admin])].

Definition CHANNELS_CONTRACTS : list ApiContract :=
  [("channels.health", [rpc]); ("delivery.queue.status", [rpc]); ("channels.capabilities", [rpc]);
  ("channels.list", [admin]); ("channels.get", [admin]); ("channels.enable", [admin]);
  ("channels.disable", [admin]); ("channels.restart", [admin]); ("message.send", [rpc]);
  ("message.reply", [rpc]); ("message.react", [rpc]); ("message.edit", [admin]); ("message.delete", [admin]);
  ("message.fetch", [admin]); ("message.attach", [admin]); ("discord.action", [admin]);
  ("telegram.action", [admin]); ("slack.action", [admin]); ("whatsapp.action", [admin])].

Definition CONFIG_CONTRACTS : list ApiContract :=
  [("config.apply", [admin]); ("config.audit.list", [admin]); ("config.audit.scrub", [admin]);
  ("config.diff", [admin]); ("config.gc", [admin]); ("config.history", [admin]); ("config.patch", [admin]);
  ("config.read", [admin]); ("config.rollback", [admin]); ("config.schema", [admin]); ("env.list", [admin]);
  ("env.set", [admin]); ("gateway.restart", [admin]); ("gateway.status", [admin])].

Definition CONTEXT_CONTRACTS : list ApiContract :=
  [("context.conversations", [rpc]); ("context.tree", [rpc])].

Definition DAEMON_CONTRACTS : list ApiContract :=
  [("daemon.setLogLevel", [admin]); ("system.ping", [rpc])].

Definition MANAGED_RUNS_CONTRACTS : list ApiContract :=
  [("managedRuns.list", [admin]); ("managedRuns.get", [admin]); ("managedRuns.explain", [admin]);
  ("managedRuns.cancel", [admin])].

Definition MCP_CONTRACTS : list ApiContract :=
  [("mcp.list", [admin]); ("mcp.status", [admin]); ("mcp.connect", [admin]); ("mcp.disconnect", [admin]);
  ("mcp.reconnect", [admin]); ("mcp.test", [admin])].

Definition MCP_OAUTH_CONTRACTS : list ApiContract :=
  [("mcp.oauth_login", [admin]); ("mcp.oauth_logout", [admin])].

Definition MEDIA_CONTRACTS : list ApiContract :=
  [("image.analyze", [rpc]); ("tts.synthesize", [rpc]); ("tts.auto_check", [rpc]); ("link.process", [rpc]);
  ("audio.transcribe", [rpc]); ("media.transcribe", [rpc]); ("media.describe_video", [rpc]);
  ("media.extract_document", [rpc]); ("media.test.stt", [admin]); ("media.test.tts", [admin]);
  ("media.test.vision", [admin]); ("media.test.document", [admin]); ("media.test.video", [admin]);
  ("media.test.link", [admin]); ("media.providers", [admin]); ("image.generate", [rpc]);
  ("video.generate", [rpc]); ("video.status", [rpc])].

Definition MEMORY_PORTABILITY_CONTRACTS : list ApiContract :=
  [("memory.portability.export", [admin]); ("memory.portability.import", [admin])].

Definition MEMORY_PINNING_CONTRACTS : list ApiContract :=
  [("memory.pin", [admin]); ("memory.unpin", [admin])].

Definition MEMORY_DIAGNOSTIC_CONTRACTS : list ApiContract :=
  [("memory.recall_trace", [admin]); ("memory.observations", [admin]); ("memory.entities", [admin]);
  ("memory.recall_stats", [admin])].

Definition MEMORY_CONTRACTS : list ApiContract :=
  [("memory.search_files", [rpc]); ("memory.ask", [rpc]); ("memory.get_file", [rpc]); ("memory.store", [rpc]);
  ("memory.change_visibility", [admin]); ("memory.stats", [admin]); ("memory.browse", [admin]);
  ("memory.delete", [admin]); ("memory.flush", [admin]); ("memory.export", [admin])] ++
  MEMORY_PORTABILITY_CONTRACTS ++ MEMORY_PINNING_CONTRACTS ++ MEMORY_DIAGNOSTIC_CONTRACTS.

Definition OBSERVABILITY_CONTRACTS : list ApiContract :=
  [("agent.cacheStats", [admin]); ("memory.embeddingCache", [admin]); ("obs.billing.byAgent", [admin]);
  ("obs.billing.byProvider", [admin]); ("obs.billing.bySession", [admin]); ("obs.billing.total", [admin]);
  ("obs.billing.usage24h", [admin]); ("obs.audit.query", [admin]); ("obs.quarantine.list", [admin]);
  ("obs.quarantine.release", [admin]); ("obs.cacheBreaks.byReason", [admin]);
  ("obs.cacheStats.window", [admin]); ("obs.channels.all", [admin]); ("obs.channels.get", [admin]);
  ("obs.channels.stale", [admin]); ("obs.context.dag", [admin]); ("obs.context.pipeline", [admin]);
  ("obs.delivery.recent", [admin]); ("obs.delivery.stats", [admin]); ("obs.diagnostics", [rpc]);
  ("obs.explain", [admin]); ("obs.system.health", [admin]); ("obs.getCacheStats", [admin]);
  ("obs.reset", [admin]); ("obs.reset.table", [admin]); ("obs.spend.snapshot", [admin]);
  ("obs.systemPromptReport.latest", [admin]); ("obs.systemPromptReport.list", [admin]);
  ("obs.trace.export", [admin]); ("obs.trace.search", [admin]); ("obs.trace.tail", [admin])].

Definition CRON_HANDLERS_CONTRACTS : list ApiContract :=
  [("cron.add", [rpc]); ("cron.list", [rpc; admin]); ("cron.update", [rpc]); ("cron.remove", [rpc]);
  ("cron.status", [rpc]); ("cron.runs", [rpc]); ("cron.run", [rpc]); ("cron.reset", [admin]);
  ("scheduler.wake", [rpc])].

Definition GRAPH_HANDLERS_CONTRACTS : list ApiContract :=
  [("graph.define", [rpc]); ("graph.execute", [rpc]); ("graph.status", [rpc]); ("graph.cancel", [rpc]);
  ("graph.save", [rpc]); ("graph.load", [rpc]); ("graph.list", [rpc]); ("graph.delete", [rpc]);
  ("graph.outputs", [rpc]); ("graph.runs", [rpc]); ("graph.runDetail", [rpc]); ("graph.deleteRun", [rpc])].

Definition HEARTBEAT_HANDLERS_CONTRACTS : list ApiContract :=
  [("heartbeat.states", [admin]); ("heartbeat.get", [admin]); ("heartbeat.update", [admin]);
  ("heartbeat.trigger", [admin])].

Definition SUBAGENT_HANDLERS_CONTRACTS : list ApiContract :=
  [("subagent.list", [rpc; admin]); ("subagent.wait", [rpc; admin]); ("subagent.kill", [rpc; admin]);
  ("subagent.steer", [rpc; admin]); ("subagent.pause", [admin]); ("subagent.resume", [admin]);
  ("subagent.status", [admin])].

Definition AUTONOMY_HANDLERS_CONTRACTS : list ApiContract :=
  [("lease.revoke", [admin]); ("run.kill", [admin]); ("autonomy.evict", [admin])].

Definition REPLAY_HANDLERS_CONTRACTS : list ApiContract :=
  [("orchestrate.replay", [admin])].

Definition TASK_HANDLERS_CONTRACTS : list ApiContract :=
  [("tasks.status", [admin]); ("tasks.list", [admin]); ("tasks.cancel", [admin]); ("tasks.reset", [admin])].

Definition ORCHESTRATOR_CONTRACTS : list ApiContract :=
  CRON_HANDLERS_CONTRACTS ++ GRAPH_HANDLERS_CONTRACTS ++ HEARTBEAT_HANDLERS_CONTRACTS ++
  SUBAGENT_HANDLERS_CONTRACTS ++ AUTONOMY_HANDLERS_CONTRACTS ++ REPLAY_HANDLERS_CONTRACTS ++
  TASK_HANDLERS_CONTRACTS.

Definition SECRETS_CONTRACTS : list ApiContract :=
  [("secrets.set", [admin]); ("secrets.get", [admin]); ("secrets.list", [admin]); ("secrets.delete", [admin])].

Definition SESSIONS_CONTRACTS : list ApiContract :=
  [("session.status", [rpc]); ("session.search", [rpc]); ("session.history", [rpc]); ("session.send", [rpc]);
  ("session.spawn", [rpc]); ("session.run_status", [rpc]); ("agents.list", [admin]); ("session.list", [rpc]);
  ("session.delete", [admin]); ("session.reset", [rpc]); ("session.export", [admin]);
  ("session.compact", [rpc]); ("session.reset_conversation", [admin])].

Definition TOKENS_CONTRACTS : list ApiContract :=
  [("tokens.list", [admin]); ("tokens.create", [admin]); ("tokens.revoke", [admin]); ("tokens.rotate", [admin])].

Definition WORKSPACE_HANDLERS_CONTRACTS : list ApiContract :=
  [("workspace.status", [rpc]); ("workspace.readFile", [rpc]); ("workspace.writeFile", [admin]);
  ("workspace.deleteFile", [admin]); ("workspace.listDir", [rpc]); ("workspace.resetFile", [admin]);
  ("workspace.init", [admin]); ("workspace.git.status", [rpc]); ("workspace.git.log", [rpc]);
  ("workspace.git.diff", [rpc]); ("workspace.git.commit", [admin]); ("workspace.git.restore", [admin])].

Definition BROWSER_HANDLERS_CONTRACTS : list ApiContract :=
  [("browser.status", [rpc]); ("browser.start", [rpc]); ("browser.stop", [rpc]); ("browser.navigate", [rpc]);
  ("browser.snapshot", [rpc]); ("browser.screenshot", [rpc]); ("browser.pdf", [rpc]); ("browser.act", [rpc]);
  ("browser.tabs", [rpc]); ("browser.open", [rpc]); ("browser.focus", [rpc]); ("browser.close", [rpc]);
  ("browser.console", [rpc])].

Definition APPROVAL_HANDLERS_CONTRACTS : list ApiContract :=
  [("admin.approval.pending", [admin]); ("admin.approval.resolve", [admin]);
  ("admin.approval.resolveAll", [admin]); ("admin.approval.clearDenialCache", [admin])].

Definition SKILL_HANDLERS_CONTRACTS : list ApiContract :=
  [("skills.list", [rpc]); ("skills.upload", [rpc]); ("skills.import", [rpc]); ("skills.delete", [rpc]);
  ("skills.create", [rpc]); ("skills.update", [rpc])].

Definition NOTIFICATION_HANDLERS_CONTRACTS : list ApiContract :=
  [("notification.send", [rpc])].

Definition WORKSPACE_CONTRACTS : list ApiContract :=
  WORKSPACE_HANDLERS_CONTRACTS ++ BROWSER_HANDLERS_CONTRACTS ++ APPROVAL_HANDLERS_CONTRACTS ++
  SKILL_HANDLERS_CONTRACTS ++ NOTIFICATION_HANDLERS_CONTRACTS.

Definition API_CONTRACTS_ORDERED : list ApiContract :=
  AGENTS_CONTRACTS ++ AUTH_CONTRACTS ++ CAPABILITIES_CONTRACTS ++ CAPABILITY_SERVICES_CONTRACTS ++
  CHANNELS_CONTRACTS ++ CONFIG_CONTRACTS ++ CONTEXT_CONTRACTS ++ DAEMON_CONTRACTS ++ MANAGED_RUNS_CONTRACTS ++
  MCP_CONTRACTS ++ MCP_OAUTH_CONTRACTS ++ MEDIA_CONTRACTS ++ MEMORY_CONTRACTS ++ OBSERVABILITY_CONTRACTS ++
  ORCHESTRATOR_CONTRACTS ++ SECRETS_CONTRACTS ++ SESSIONS_CONTRACTS ++ TOKENS_CONTRACTS ++ WORKSPACE_CONTRACTS.

(** [ADMIN_SCOPED_RPC_METHODS] of the lease manager. *)
Definition ADMIN_SCOPED_RPC_METHODS : list string := (List.filter (hasScope admin) API_CONTRACTS_ORDERED).*1.

(** [ADMIN_METHODS] of the dispatcher: methods no [rpc] route leads to. *)
Definition ADMIN_METHODS : list string :=
  (List.filter (fun c => hasScope admin c && negb (hasScope rpc c)) API_CONTRACTS_ORDERED).*1.

(** ** Internal parameters *)

Definition INTERNAL_FIELD_NAMES : list string := [
  "_abortSignal"; "_agentId"; "_autonomyMode"; "_callerChannelId"; "_callerChannelType";
  "_callerConversationScope"; "_callerMetadata"; "_callerSessionKey"; "_callerTurnScope"; "_capabilities";
  "_channelType"; "_chatType"; "_checkpointId"; "_context"; "_deliveryTarget"; "_discoveredDeferredTools";
  "_leaseId"; "_originChannelId"; "_outwardOperationId"; "_outwardStepIndex"; "_parentLeaseId"; "_rootRunId";
  "_sessionKey"; "_subagentWaitProgressBudgetMs"; "_subagentWaitRequestedTimeoutMs"; "_tenantId"; "_traceId";
  "_trustLevel"; "_userId"].

(** A parameter object: its own entries, in order.  Assigning to [__proto__]
    makes no own property. *)
Definition stripInternalFields {V} (params : jsmap string V) : jsmap string V :=
  List.filter (fun e => negb (has ("__proto__" :: INTERNAL_FIELD_NAMES) e.1)) params.

(** ** Facts *)

Lemma has_spec l x : has l x = true <-> x ∈ l.
Proof. apply bool_decide_eq_true. Qed.

Lemma has_false l x : has l x = false <-> x ∉ l.
Proof. apply bool_decide_eq_false. Qed.

Lemma elem_of_attenuate parent requested c : c ∈ attenuateCaps parent requested <-> c ∈ parent /\ c ∈ requested.
Proof. unfold attenuateCaps. by rewrite list_elem_of_In, filter_In, <- list_elem_of_In, has_spec, (comm and). Qed.

Lemma requireCapability_Ok h c : requireCapability (Some h) c = Ok tt <-> c ∈ h.
Proof. simpl. unfold checkCapability. rewrite <- has_spec. by destruct (has h c). Qed.

(** What is stripped is exactly the internal fields. *)
Lemma mget_strip {V} (params : jsmap string V) k :
  mget (stripInternalFields params) k = if has ("__proto__" :: INTERNAL_FIELD_NAMES) k then None else mget params k.
Proof.
  unfold stripInternalFields. generalize ("__proto__" :: INTERNAL_FIELD_NAMES) as names. intros names.
  induction params as [|[k' v] ps IH]; simpl; [by destruct (has names k)|].
  destruct (has names k') eqn:Ek'; simpl; rewrite IH; case_decide; subst; by rewrite ?Ek'.
Qed.

(** The tables as they are shipped pass both checks at module load. *)
Lemma tables_load :
  assertToolMapSoundness TOOL_CAPABILITY_MAP TOOL_ROUTE_MAP SUB_AGENT_TOOL_DENYLIST = Ok tt /\
  denylistedMethodsSound = true.
Proof. by split; vm_compute. Qed.

End LeaseTables.
