(* ===== verification/LeaseManager.v ===== *)
(** * Capability leases

  Models [infra/src/credential-broker/lease-manager.ts], the leases with which
  jailed scripts authenticate, and [buildBrokerSpawnEnv] of
  [daemon/src/wiring/setup-broker-activation.ts], which mints them.  The two maps
  of the closure are the state.  A call takes the readings of the clock it makes,
  in order; lease ids and token bytes are arguments of [mintLease].

  [LeaseTokens] models the bearers: [generateStrongToken] of
  [core/src/security/token-generator.ts] with the two conversions of Node's
  [Buffer] it is used with, [toString("base64url")] and
  [Buffer.from(text, "base64url")], and [tokenEquals].  Decoding accepts both
  base64 alphabets and skips every other character; an incomplete group gives the
  bytes it determines. *)

From Stdlib Require Import Ascii.
From S2P Require Import Prelude ConversationScope ApprovalPolicy DurableRuns LeaseTables.

Open Scope string_scope.
Open Scope list_scope.
Open Scope Z_scope.

Module LeaseTokens.

Definition alphabet : list ascii :=
  String.list_ascii_of_string "ABCDEFGHIJKLMNOPQRSTUVWXYZabcdefghijklmnopqrstuvwxyz0123456789-_".

Definition digit (n : Z) : ascii := List.nth (Z.to_nat n) alphabet "A"%char.

(** [buffer.toString("base64url")], without padding. *)
Fixpoint base64url (bytes : list Z) : string :=
  match bytes with
  | [] => ""
  | [a] => String (digit (a / 4)) (String (digit (a mod 4 * 16)) "")
  | [a; b] => String (digit (a / 4)) (String (digit (a mod 4 * 16 + b / 16)) (String (digit (b mod 16 * 4)) ""))
  | a :: b :: c :: rest =>
      String (digit (a / 4)) (String (digit (a mod 4 * 16 + b / 16))
        (String (digit (b mod 16 * 4 + c / 64)) (String (digit (c mod 64)) (base64url rest))))
  end.

Definition inRange (lo hi : ascii) (c : ascii) : bool :=
  (nat_of_ascii lo <=? nat_of_ascii c)%nat && (nat_of_ascii c <=? nat_of_ascii hi)%nat.

Definition offset (lo c : ascii) : Z := Z.of_nat (nat_of_ascii c) - Z.of_nat (nat_of_ascii lo).

Definition undigit (c : ascii) : option Z :=
  if inRange "A" "Z" c then Some (offset "A" c)
  else if inRange "a" "z" c then Some (26 + offset "a" c)
  else if inRange "0" "9" c then Some (52 + offset "0" c)
  else if decide (c = "-"%char \/ c = "+"%char) then Some 62
  else if decide (c = "_"%char \/ c = "/"%char) then Some 63
  else None.

Fixpoint sextets (text : string) : list Z :=
  match text with
  | EmptyString => []
  | String c rest => match undigit c with Some n => n :: sextets rest | None => sextets rest end
  end.

Fixpoint groups (l : list Z) : list Z :=
  match l with
  | p :: q :: r :: s :: rest => (p * 4 + q / 16) :: (q mod 16 * 16 + r / 4) :: (r mod 4 * 64 + s) :: groups rest
  | [p; q; r] => [p * 4 + q / 16; q mod 16 * 16 + r / 4]
  | [p; q] => [p * 4 + q / 16]
  | _ => []
  end.

(** [Buffer.from(text, "base64url")] *)
Definition fromBase64url (text : string) : list Z := groups (sextets text).

Definition generateStrongToken (randomBytes : list Z) : string := base64url randomBytes.

(** The length guard, then the constant-time comparison. *)
Definition tokenEquals (candidate stored : list Z) : bool :=
  if negb (length candidate =? length stored)%nat then false else bool_decide (candidate = stored).

(** ** Round trip *)

Lemma undigit_digit n : 0 <= n < 64 -> undigit (digit n) = Some n.
Proof.
  intros Hn. rewrite <- (Z2Nat.id n) at 2 by lia.
  assert (Hk : (Z.to_nat n < 64)%nat) by lia. unfold digit. revert Hk.
  generalize (Z.to_nat n). intros k Hk.
  assert (Hall : Forall (fun k => undigit (List.nth k alphabet "A"%char) = Some (Z.of_nat k)) (seq 0 64))
    by (repeat constructor).
  rewrite Forall_forall in Hall. apply Hall. apply elem_of_seq. lia.
Qed.

Definition isByte (b : Z) : Prop := 0 <= b < 256.

Ltac sextet := Z.div_mod_to_equations; lia.

Lemma sextets_digit n text : 0 <= n < 64 -> sextets (String (digit n) text) = n :: sextets text.
Proof. intros Hn. simpl. by rewrite undigit_digit. Qed.

Lemma group3 a b c :
  isByte a -> isByte b -> isByte c ->
  groups [a / 4; a mod 4 * 16 + b / 16; b mod 16 * 4 + c / 64; c mod 64] = [a; b; c].
Proof. unfold isByte. intros. simpl. repeat f_equal; sextet. Qed.

Lemma group2 a b :
  isByte a -> isByte b -> groups [a / 4; a mod 4 * 16 + b / 16; b mod 16 * 4] = [a; b].
Proof. unfold isByte. intros. simpl. repeat f_equal; sextet. Qed.

Lemma group1 a : isByte a -> groups [a / 4; a mod 4 * 16] = [a].
Proof. unfold isByte. intros. simpl. repeat f_equal; sextet. Qed.

(** Decoding gives back the bytes that were encoded. *)
Lemma base64url_roundtrip bytes : Forall isByte bytes -> fromBase64url (base64url bytes) = bytes.
Proof.
  unfold fromBase64url. revert bytes. fix IH 1. intros [|a [|b [|c rest]]] H; [done| | |];
    repeat match goal with H : Forall _ (_ :: _) |- _ => apply Forall_cons in H as [? H] end; cbn [base64url].
  - rewrite !sextets_digit by (unfold isByte in *; sextet). by apply group1.
  - rewrite !sextets_digit by (unfold isByte in *; sextet). by apply group2.
  - rewrite !sextets_digit by (unfold isByte in *; sextet).
    change (groups (?p :: ?q :: ?r :: ?s :: ?l)) with (groups [p; q; r; s] ++ groups l).
    rewrite group3, IH by done. done.
Qed.

Lemma tokenEquals_spec c s : tokenEquals c s = true <-> c = s.
Proof.
  unfold tokenEquals. destruct (Nat.eqb_spec (length c) (length s)); simpl; [apply bool_decide_eq_true|].
  split; [done|by intros ->].
Qed.

End LeaseTokens.

Open Scope string_scope.
Open Scope list_scope.
Open Scope Z_scope.

Module LeaseManager.
Import LeaseTables.

(** What a mint fixes for the life of the lease: the fields [LeaseInfo] shares
    with [LeaseEntry]. *)
Record LeaseInfo := mkInfo {
  leaseId : string;
  agentId : string;
  caps : list string;
  budgetRef : string;
  sessionKey : string;
  trustLevel : ApprovalPolicy.UserTrustLevel;
  deliveryOrigin : option DurableRuns.Origin;
  turnScope : option ConversationScope.ResolvedTurnScope;
  rootRunId : string;
  checkpointId : option string;
  parentLeaseId : option string
}.

Record LeaseEntry := mkEntry {
  tokenBuf : list Z;
  info : LeaseInfo;
  expiresAtMs : Z;
  maxExpiresAtMs : Z;
  revoked : bool
}.

Record MintLeaseInput := mkMint {
  m_agentId : string;
  m_caps : list string;
  m_budgetRef : string;
  m_sessionKey : string;
  m_trustLevel : ApprovalPolicy.UserTrustLevel;
  m_deliveryOrigin : option DurableRuns.Origin;
  m_turnScope : option ConversationScope.ResolvedTurnScope;
  m_rootRunId : string;
  m_checkpointId : option string;
  m_parentLeaseId : option string;
  m_ttlMs : option Z;
  m_maxTtlMs : option Z
}.

Record IssuedLease := mkIssued { i_leaseId : string; i_bearer : string }.

Record State := mkState {
  leases : jsmap string LeaseEntry;
  childrenByParent : jsmap string (list string)
}.

Definition createLeaseManager : State := mkState [] [].

Definition DEFAULT_TTL_MS : Z := 15 * 60 * 1000.

(** ** Minting *)

Definition setAdd (s : list string) (x : string) : list string := if has s x then s else s ++ [x].

Definition minted (id : string) (i : MintLeaseInput) : LeaseInfo :=
  mkInfo id (m_agentId i) (List.filter (has AGENT_CAPABILITIES) (m_caps i)) (m_budgetRef i) (m_sessionKey i)
    (m_trustLevel i) (m_deliveryOrigin i) (m_turnScope i) (m_rootRunId i) (m_checkpointId i) (m_parentLeaseId i).

Section Manager.
Variable defaultTtlMs : Z.

Definition mintLease (id : string) (randomBytes : list Z) (now : Z) (i : MintLeaseInput) (st : State)
    : IssuedLease * State :=
  let bearer := LeaseTokens.generateStrongToken randomBytes in
  let maxAt := now + default defaultTtlMs (m_maxTtlMs i) in
  let at_ := Z.min (now + default defaultTtlMs (m_ttlMs i)) maxAt in
  let entry := mkEntry (LeaseTokens.fromBase64url bearer) (minted id i) at_ maxAt false in
  let children :=
    match m_parentLeaseId i with
    | Some p => mset (childrenByParent st) p (setAdd (default [] (mget (childrenByParent st) p)) id)
    | None => childrenByParent st
    end in
  (mkIssued id bearer, mkState (mset (leases st) id entry) children).

(** ** Validation *)

(** The capability a method requires, for [tool.invoke] the one of its tool. *)
Definition requiredCap (method : string) (innerTool : option string) : Property string :=
  if decide (method = "tool.invoke")
  then match innerTool with Some t => prop TOOL_CAPABILITY_MAP t | None => Undefined end
  else prop HANDLER_CAPABILITY_MAP method.

(** What [validate] answers once the bearer is known to be that of the entry. *)
Definition inAudience (i : LeaseInfo) (method : string) (innerTool : option string) : bool :=
  if has SELF_SCOPED_AGENT_READS method then true
  else if has ADMIN_SCOPED_RPC_METHODS method then bool_decide (trustLevel i = ApprovalPolicy.admin)
  else match requiredCap method innerTool with
       | Own c => String.prefix "orch:" c && has (caps i) c
       | _ => false
       end.

(** The loop of [validate] over the entries from position [k] on: the answer and
    the ids it deletes.  Entry [k] reads the clock twice. *)
Fixpoint scan (clock : nat -> Z) (k : nat) (candidate : list Z) (method : string) (innerTool : option string)
    (es : jsmap string LeaseEntry) : option LeaseInfo * list string :=
  match es with
  | [] => (None, [])
  | (id, e) :: es' =>
      let rest := scan clock (S k) candidate method innerTool es' in
      if maxExpiresAtMs e <? clock (2 * k)%nat then (rest.1, id :: rest.2)
      else if expiresAtMs e <? clock (2 * k + 1)%nat then rest
      else if revoked e then rest
      else if negb (LeaseTokens.tokenEquals candidate (tokenBuf e)) then rest
      else (if inAudience (info e) method innerTool then Some (info e) else None, [])
  end.

Definition validate (clock : nat -> Z) (rawBearer method : string) (innerTool : option string) (st : State)
    : option LeaseInfo * State :=
  let r := scan clock 0 (LeaseTokens.fromBase64url rawBearer) method innerTool (leases st) in
  (r.1, mkState (fold_left mdel r.2 (leases st)) (childrenByParent st)).

(** ** Renewal *)

Definition setExpiry (e : LeaseEntry) (t : Z) : LeaseEntry := mkEntry (tokenBuf e) (info e) t (maxExpiresAtMs e) (revoked e).

Definition renew (clock : nat -> Z) (id : string) (st : State) : option Z * State :=
  match mget (leases st) id with
  | None => (None, st)
  | Some e =>
      if revoked e then (None, st)
      else if maxExpiresAtMs e <=? clock 0%nat then (None, st)
      else
        let t := Z.min (clock 1%nat + defaultTtlMs) (maxExpiresAtMs e) in
        (Some t, mkState (mset (leases st) id (setExpiry e t)) (childrenByParent st))
  end.
End Manager.

(** ** Revocation *)

Definition setRevoked (e : LeaseEntry) : LeaseEntry := mkEntry (tokenBuf e) (info e) (expiresAtMs e) (maxExpiresAtMs e) true.

Definition revokeLease (id : string) (st : State) : nat * State :=
  match mget (leases st) id with
  | Some e => (1%nat, mkState (mset (leases st) id (setRevoked e)) (childrenByParent st))
  | None => (0%nat, st)
  end.

Definition revoke (id : string) (st : State) : nat * State := revokeLease id st.

Definition childrenOf (st : State) (id : string) : list string := default [] (mget (childrenByParent st) id).

(** [cascadeRevoke] over the shared set of visited ids; [None] when the fuel does
    not suffice for the depth of the recursion. *)
Fixpoint cascade (fuel : nat) (id : string) (visited : list string) (st : State) : option (list string * State) :=
  match fuel with
  | O => None
  | S fuel =>
      if has visited id then Some (visited, st)
      else
        let st1 := (revokeLease id st).2 in
        fold_left
          (fun acc child => match acc with None => None | Some (v, s) => cascade fuel child v s end)
          (childrenOf st1 id) (Some (setAdd visited id, st1))
  end.

(** No path visits an id twice, so the ids known to the adjacency and one more
    bound the depth. *)
Definition enough (st : State) : nat := S (S (length (concat (childrenByParent st).*2))).

Definition cascadeRevoke (id : string) (st : State) : option State := snd <$> cascade (enough st) id [] st.

(** The answer counts the visited ids. *)
Definition revokeByRootRun (root : string) (st : State) : option (nat * State) :=
  match fold_left
          (fun acc entry =>
             match acc with
             | None => None
             | Some (v, s) => if decide (rootRunId (info entry.2) = root) then cascade (enough st) entry.1 v s else Some (v, s)
             end)
          (leases st) (Some ([], st)) with
  | Some (v, s) => Some (length v, s)
  | None => None
  end.

(** ** The mint of a spawned process *)

(** [CapabilityMintDeps], without the services it carries. *)
Record CapabilityMint := mkCapMint {
  c_resolvedCaps : list string;
  c_budgetRef : string;
  c_sessionKey : string;
  c_trustLevel : ApprovalPolicy.UserTrustLevel;
  c_deliveryOrigin : option DurableRuns.Origin;
  c_turnScope : option ConversationScope.ResolvedTurnScope;
  c_rootRunId : string;
  c_parentCaps : option (list string);
  c_requestedCaps : option (list string);
  c_parentLeaseId : option string
}.

Definition mintCaps (c : CapabilityMint) : list string :=
  match c_parentCaps c, c_requestedCaps c with
  | Some p, Some r => attenuateCaps p r
  | _, _ => c_resolvedCaps c
  end.

(** The input [buildBrokerSpawnEnv] mints with. *)
Definition brokerMint (agent : string) (c : CapabilityMint) : MintLeaseInput :=
  mkMint agent (mintCaps c) (c_budgetRef c) (c_sessionKey c) (c_trustLevel c) (c_deliveryOrigin c) (c_turnScope c)
    (c_rootRunId c) None (c_parentLeaseId c) None None.

End LeaseManager.
