(* ===== verification/LeaseManagerFacts.v ===== *)
(** * The cascade of revocation

  The depth-first walk of [cascadeRevoke] visits exactly the descendants of its
  starting points, marks exactly those leases and always ends within its fuel. *)

From S2P Require Import Prelude LeaseTables LeaseManager.

Open Scope list_scope.
Open Scope nat_scope.

Module LeaseManagerFacts.
Import LeaseTables LeaseManager.

Abbreviation Entries := (jsmap string LeaseEntry).
Abbreviation Children := (jsmap string (list string)).

Definition kids (ch : Children) (x : string) : list string := default [] (mget ch x).

Definition child (ch : Children) (x y : string) : Prop := y ∈ kids ch x.

(** [y] descends from [x], or is [x]. *)
Definition descends (ch : Children) : relation string := rtc (child ch).

(** The entries with those of [v] marked as revoked. *)
Definition mark (v : list string) (es : Entries) : Entries :=
  map (fun e => (e.1, if has v e.1 then setRevoked e.2 else e.2)) es.

Lemma elem_of_setAdd s x y : y ∈ setAdd s x <-> y ∈ s \/ y = x.
Proof.
  unfold setAdd. destruct (has s x) eqn:E; [apply has_spec in E|].
  - naive_solver.
  - by rewrite elem_of_app, list_elem_of_singleton.
Qed.

Lemma NoDup_setAdd s x : NoDup s -> NoDup (setAdd s x).
Proof.
  intros H. unfold setAdd. destruct (has s x) eqn:E; [done|]. apply has_false in E.
  apply NoDup_app. repeat split; [done|by intros y Hy ->%list_elem_of_singleton|apply NoDup_singleton].
Qed.

Lemma has_iff l l' x : (x ∈ l <-> x ∈ l') -> has l x = has l' x.
Proof. apply bool_decide_ext. Qed.

Lemma mark_ext v v' es : (forall x, x ∈ mkeys es -> (x ∈ v <-> x ∈ v')) -> mark v es = mark v' es.
Proof.
  unfold mark. intros H. apply map_ext_in. intros [k e] Hin%list_elem_of_In. cbn [fst snd].
  rewrite (has_iff v v'); [done|]. apply H. unfold mkeys. by apply (list_elem_of_fmap_2 fst _ (k, e)).
Qed.

Lemma mark_nil es : mark [] es = es.
Proof. unfold mark. rewrite (map_ext _ id); [apply map_id|]. by intros [k e]. Qed.

Lemma mkeys_mark v es : mkeys (mark v es) = mkeys es.
Proof. induction es as [|[k e] es IH]; [done|]. unfold mkeys in *. simpl. by f_equal. Qed.

Lemma mget_mark v es k :
  mget (mark v es) k = (fun e => if has v k then setRevoked e else e) <$> mget es k.
Proof.
  induction es as [|[k' e] es IH]; simpl; [done|]. case_decide; subst; [done|apply IH].
Qed.

Lemma setRevoked_idem e : setRevoked (setRevoked e) = setRevoked e.
Proof. done. Qed.

Lemma mset_mark v id es e :
  NoDup (mkeys es) -> mget es id = Some e ->
  mset (mark v es) id (setRevoked (if has v id then setRevoked e else e)) = mark (setAdd v id) es.
Proof.
  intros Hnd. induction es as [|[k e'] es IH]; simpl; [done|].
  apply NoDup_cons in Hnd as [Hk Hnd]. case_decide; subst.
  - intros [= ->]. rewrite (proj2 (has_spec (setAdd v k) k)) by (apply elem_of_setAdd; auto).
    f_equal; [by destruct (has v k)|]. apply mark_ext. intros x Hx. rewrite elem_of_setAdd.
    split; [auto|]. intros [?| ->]; [done|]. by apply Hk in Hx.
  - intros He. rewrite IH by done. f_equal. f_equal.
    rewrite (has_iff (setAdd v id) v); [done|]. rewrite elem_of_setAdd. naive_solver.
Qed.

Lemma revokeLease_mark id v es ch :
  NoDup (mkeys es) -> (revokeLease id (mkState (mark v es) ch)).2 = mkState (mark (setAdd v id) es) ch.
Proof.
  intros Hnd. unfold revokeLease. cbn [leases childrenByParent]. rewrite mget_mark.
  destruct (mget es id) as [e|] eqn:He; simpl; [by rewrite mset_mark|].
  f_equal. apply mark_ext. intros x Hx. rewrite elem_of_setAdd. split; [auto|]. intros [?| ->]; [done|].
  by apply mget_None in He.
Qed.

(** ** What a walk visits *)

(** From the visited set [v], a walk from [roots] ends with [v']. *)
Record Visit (ch : Children) (roots v v' : list string) : Prop := mkVisit {
  visit_mono x : x ∈ v -> x ∈ v';
  visit_roots x : x ∈ roots -> x ∈ v';
  visit_closed x y : x ∈ v' -> x ∉ v -> child ch x y -> y ∈ v';
  visit_reach x : x ∈ v' -> x ∉ v -> exists r, r ∈ roots /\ descends ch r x;
  visit_nodup : NoDup v -> NoDup v'
}.

Lemma Visit_refl ch v roots : (forall r, r ∈ roots -> r ∈ v) -> Visit ch roots v v.
Proof. intros H. split; auto; by intros. Qed.

Lemma Visit_app ch r1 r2 v v1 v2 : Visit ch r1 v v1 -> Visit ch r2 v1 v2 -> Visit ch (r1 ++ r2) v v2.
Proof.
  intros H1 H2. split.
  - intros x Hx. by apply (visit_mono _ _ _ _ H2), (visit_mono _ _ _ _ H1).
  - intros x [Hx|Hx]%elem_of_app; [|by apply (visit_roots _ _ _ _ H2)].
    by apply (visit_mono _ _ _ _ H2), (visit_roots _ _ _ _ H1).
  - intros x y Hx Hv Hc. destruct (decide (x ∈ v1)) as [Hx1|Hx1].
    + apply (visit_mono _ _ _ _ H2). by eapply (visit_closed _ _ _ _ H1).
    + by eapply (visit_closed _ _ _ _ H2).
  - intros x Hx Hv. destruct (decide (x ∈ v1)) as [Hx1|Hx1].
    + destruct (visit_reach _ _ _ _ H1 x) as (r & ? & ?); [done..|]. exists r. set_solver.
    + destruct (visit_reach _ _ _ _ H2 x) as (r & ? & ?); [done..|]. exists r. set_solver.
  - intros H. by apply (visit_nodup _ _ _ _ H2), (visit_nodup _ _ _ _ H1).
Qed.

(** A walk from the children of [id], with [id] visited, is one from [id]. *)
Lemma Visit_node ch id v v' :
  id ∉ v -> Visit ch (kids ch id) (setAdd v id) v' -> Visit ch [id] v v'.
Proof.
  intros Hid H. assert (Hin : id ∈ v') by (apply (visit_mono _ _ _ _ H), elem_of_setAdd; auto). split.
  - intros x Hx. apply (visit_mono _ _ _ _ H), elem_of_setAdd. auto.
  - by intros x ->%list_elem_of_singleton.
  - intros x y Hx Hv Hc. destruct (decide (x = id)) as [->|Hne]; [by apply (visit_roots _ _ _ _ H)|].
    eapply (visit_closed _ _ _ _ H); [done| |done]. rewrite elem_of_setAdd. naive_solver.
  - intros x Hx Hv. exists id. split; [by apply list_elem_of_singleton|].
    destruct (decide (x = id)) as [->|Hne]; [done|].
    destruct (visit_reach _ _ _ _ H x) as (r & Hr & Hd); [done|rewrite elem_of_setAdd; naive_solver|].
    eapply rtc_l; [exact Hr|done].
  - intros Hnd. by apply (visit_nodup _ _ _ _ H), NoDup_setAdd.
Qed.

(** From nothing visited: exactly the descendants of the roots. *)
Lemma Visit_descends ch roots v' :
  Visit ch roots [] v' -> forall x, x ∈ v' <-> exists r, r ∈ roots /\ descends ch r x.
Proof.
  intros H x. split; [intros Hx; by apply (visit_reach _ _ _ _ H); [|apply not_elem_of_nil]|].
  intros (r & Hr & Hd). apply (visit_roots _ _ _ _ H) in Hr. induction Hd as [|y z w Hyz _ IH]; [done|].
  apply IH. eapply (visit_closed _ _ _ _ H); [exact Hr|apply not_elem_of_nil|done].
Qed.

(** ** The walk *)

Definition walk (fuel : nat) (ids : list string) (acc : option (list string * State)) : option (list string * State) :=
  fold_left (fun acc c => match acc with None => None | Some (v, s) => cascade fuel c v s end) ids acc.

Lemma cascade_S fuel id v st :
  cascade (S fuel) id v st =
  if has v id then Some (v, st)
  else let st1 := (revokeLease id st).2 in walk fuel (childrenOf st1 id) (Some (setAdd v id, st1)).
Proof. done. Qed.

Lemma walk_None fuel ids : walk fuel ids None = None.
Proof. induction ids; [done|by apply IHids]. Qed.

Lemma walk_cons fuel id ids acc :
  walk fuel (id :: ids) acc =
  walk fuel ids (match acc with None => None | Some (v, s) => cascade fuel id v s end).
Proof. done. Qed.

Definition Walks (fuel : nat) : Prop :=
  forall id v es ch v' st',
    NoDup (mkeys es) -> cascade fuel id v (mkState (mark v es) ch) = Some (v', st') ->
    st' = mkState (mark v' es) ch /\ Visit ch [id] v v'.

Lemma walk_spec fuel ids : forall v es ch v' st',
  Walks fuel -> NoDup (mkeys es) -> walk fuel ids (Some (v, mkState (mark v es) ch)) = Some (v', st') ->
  st' = mkState (mark v' es) ch /\ Visit ch ids v v'.
Proof.
  induction ids as [|id ids IH]; intros v es ch v' st' HW Hnd.
  - cbn. intros [= -> <-]. split; [done|]. apply Visit_refl. intros r Hr. by apply not_elem_of_nil in Hr.
  - rewrite walk_cons. destruct (cascade fuel id v _) as [[v1 s1]|] eqn:E; [|by rewrite walk_None].
    destruct (HW _ _ _ _ _ _ Hnd E) as [-> H1]. intros E2. destruct (IH _ _ _ _ _ HW Hnd E2) as [-> H2].
    split; [done|]. by apply (Visit_app ch [id] ids v v1).
Qed.

Lemma cascade_spec fuel : Walks fuel.
Proof.
  induction fuel as [|fuel IH]; intros id v es ch v' st' Hnd; [done|]. rewrite cascade_S.
  destruct (has v id) eqn:E.
  - intros [= -> <-]. split; [done|]. apply has_spec in E. apply Visit_refl.
    by intros r ->%list_elem_of_singleton.
  - cbv zeta. rewrite revokeLease_mark by done. apply has_false in E. intros Hw.
    destruct (walk_spec _ _ _ _ _ _ _ IH Hnd Hw) as [-> H]. split; [done|]. by apply Visit_node.
Qed.

(** ** Termination *)

(** How many ids of [U] are left to visit. *)
Definition left_ (U v : list string) : nat := length (List.filter (fun x => negb (has v x)) U).

Lemma left_mono U v v' : (forall x, x ∈ v -> x ∈ v') -> left_ U v' <= left_ U v.
Proof.
  unfold left_. intros H. induction U as [|x U IH]; simpl; [done|].
  destruct (has v x) eqn:E, (has v' x) eqn:E'; simpl; try lia.
  apply has_spec, H, has_spec in E. congruence.
Qed.

Lemma left_lt U v x : x ∈ U -> x ∉ v -> left_ U (setAdd v x) < left_ U v.
Proof.
  intros HU Hv. induction U as [|y U IH]; [by apply not_elem_of_nil in HU|]. unfold left_ in *. simpl.
  destruct (decide (y = x)) as [->|Hne].
  - rewrite (proj2 (has_spec (setAdd v x) x)) by (apply elem_of_setAdd; auto).
    rewrite (proj2 (has_false v x)) by done. simpl.
    pose proof (left_mono U v (setAdd v x)) as Hm. unfold left_ in Hm.
    assert (forall z, z ∈ v -> z ∈ setAdd v x) by (intros; apply elem_of_setAdd; auto). specialize (Hm H). lia.
  - rewrite (has_iff (setAdd v x) v) by (rewrite elem_of_setAdd; naive_solver).
    apply elem_of_cons in HU as [->|HU]; [done|]. specialize (IH HU). destruct (has v y); simpl; lia.
Qed.

Lemma left_le U v : left_ U v <= length U.
Proof. unfold left_. induction U as [|x U IH]; simpl; [done|]. destruct (has v x); simpl; lia. Qed.

(** [U] is closed under [child]. *)
Definition Closed (ch : Children) (U : list string) : Prop := forall x y, x ∈ U -> child ch x y -> y ∈ U.

(** A walk ends when each of its calls does, under a condition that growing the
    visited set keeps. *)
Lemma walk_total fuel ids (Q : list string -> Prop) : forall v es ch,
  (forall id v, id ∈ ids -> Q v -> is_Some (cascade fuel id v (mkState (mark v es) ch))) ->
  (forall v v', (forall x, x ∈ v -> x ∈ v') -> Q v -> Q v') -> NoDup (mkeys es) -> Q v ->
  is_Some (walk fuel ids (Some (v, mkState (mark v es) ch))).
Proof.
  induction ids as [|id ids IH]; intros v es ch HT HQ Hnd Hv; [by eexists|]. rewrite walk_cons.
  destruct (HT id v) as [[v1 s1] E]; [by left|done|]. rewrite E.
  destruct (cascade_spec _ _ _ _ _ _ _ Hnd E) as [-> H1].
  apply (IH v1 es ch); [|done..|]; [intros; apply HT; [by right|done]|].
  eapply HQ; [apply (visit_mono _ _ _ _ H1)|done].
Qed.

Lemma cascade_total fuel : forall id v es ch U,
  NoDup (mkeys es) -> Closed ch U -> id ∈ U -> left_ U v < fuel ->
  is_Some (cascade fuel id v (mkState (mark v es) ch)).
Proof.
  induction fuel as [|fuel IH]; intros id v es ch U Hnd HU Hid Hl; [lia|]. rewrite cascade_S.
  destruct (has v id) eqn:E; [by eexists|]. apply has_false in E. cbv zeta. rewrite revokeLease_mark by done.
  pose proof (left_lt U v id Hid E). apply (walk_total _ _ (fun v => left_ U v < fuel)); [| |done|lia].
  - intros id' v' Hid' Hl'. apply (IH id' v' es ch U); [done..| |done]. by eapply HU.
  - intros v1 v2 Hm Hlt. pose proof (left_mono U v1 v2 Hm). lia.
Qed.

Lemma kids_concat ch x y : child ch x y -> y ∈ concat ch.*2.
Proof.
  unfold child, kids. destruct (mget ch x) as [l|] eqn:E; [|by intros ?%not_elem_of_nil]. intros Hy.
  apply list_elem_of_In, in_concat. exists l. split; [|by apply list_elem_of_In].
  apply list_elem_of_In. apply mget_elem_of in E. by apply (list_elem_of_fmap_2 snd _ (x, l)).
Qed.

Definition universe (ch : Children) (id : string) : list string := id :: concat ch.*2.

Lemma universe_closed ch id : Closed ch (universe ch id).
Proof. intros x y _ Hc. right. by eapply kids_concat. Qed.

Lemma enough_universe es ch id v : left_ (universe ch id) v < enough (mkState es ch).
Proof. pose proof (left_le (universe ch id) v). unfold enough, universe in *. simpl in *. lia. Qed.

Lemma cascade_enough id v es ch :
  NoDup (mkeys es) -> is_Some (cascade (enough (mkState es ch)) id v (mkState (mark v es) ch)).
Proof.
  intros Hnd. apply (cascade_total _ _ _ _ _ (universe ch id)); [done|apply universe_closed|by left|].
  apply enough_universe.
Qed.

(** ** The two operations *)

Lemma cascadeRevoke_spec id es ch :
  NoDup (mkeys es) ->
  exists v, cascadeRevoke id (mkState es ch) = Some (mkState (mark v es) ch) /\ forall x, x ∈ v <-> descends ch id x.
Proof.
  intros Hnd. unfold cascadeRevoke. destruct (cascade_enough id [] es ch Hnd) as [[v s] E].
  rewrite mark_nil in E. rewrite E. pose proof E as E'. rewrite <- (mark_nil es) in E' at 2.
  destruct (cascade_spec _ _ _ _ _ _ _ Hnd E') as [-> HV]. exists v. split; [done|]. intros x.
  rewrite (Visit_descends _ _ _ HV). split; [intros (r & ->%list_elem_of_singleton & ?); done|].
  intros. exists id. split; [by apply list_elem_of_singleton|done].
Qed.

(** The ids [revokeByRootRun] starts from. *)
Definition rootIds (root : string) (es : Entries) : list string :=
  (List.filter (fun e => bool_decide (rootRunId (info e.2) = root)) es).*1.

Lemma root_fold fuel root es : forall acc,
  fold_left (fun acc entry =>
    match acc with
    | None => None
    | Some (v, s) => if decide (rootRunId (info entry.2) = root) then cascade fuel entry.1 v s else Some (v, s)
    end) es acc = walk fuel (rootIds root es) acc.
Proof.
  induction es as [|[k e] es IH]; intros acc; [done|]. cbn [fold_left]. rewrite IH. unfold rootIds. simpl.
  destruct (decide (rootRunId (info e) = root)) as [Hr|Hr].
  - by rewrite bool_decide_true.
  - rewrite bool_decide_false by done. by destruct acc as [[v s]|].
Qed.

Lemma revokeByRootRun_spec root es ch :
  NoDup (mkeys es) ->
  exists v, revokeByRootRun root (mkState es ch) = Some (length v, mkState (mark v es) ch) /\ NoDup v /\
    forall x, x ∈ v <-> exists r, r ∈ rootIds root es /\ descends ch r x.
Proof.
  intros Hnd. unfold revokeByRootRun. rewrite root_fold. cbn [leases].
  set (fuel := enough (mkState es ch)).
  destruct (walk_total fuel (rootIds root es) (fun _ => True) [] es ch) as [[v s] E]; [|done..|].
  { intros. by apply cascade_enough. }
  destruct (walk_spec _ _ _ _ _ _ _ (cascade_spec fuel) Hnd E) as [-> HV]. rewrite mark_nil in E. rewrite E.
  exists v. split; [done|]. split; [apply (visit_nodup _ _ _ _ HV), NoDup_nil_2|]. by apply Visit_descends.
Qed.

End LeaseManagerFacts.
