(* ===== verification/LeaseHistory.v ===== *)
(** * Histories of a lease manager

  A history is a list of calls with the readings of the clock they make.  The
  entries and the adjacency of every reachable state are those of the mints
  before it, and an entry only ever loses authority. *)

From S2P Require Import Prelude LeaseTables LeaseManager LeaseManagerFacts.

Open Scope list_scope.
Open Scope Z_scope.

Module LeaseHistory.
Import LeaseTables LeaseManager LeaseManagerFacts.

Inductive Op :=
| Mint (id : string) (randomBytes : list Z) (now : Z) (i : MintLeaseInput)
| Validate (clock : nat -> Z) (bearer method : string) (innerTool : option string)
| Renew (clock : nat -> Z) (id : string)
| Revoke (id : string)
| CascadeRevoke (id : string)
| RevokeByRootRun (root : string).

Inductive Reply :=
| Issued (l : IssuedLease)
| Validated (i : option LeaseInfo)
| Renewed (expiresAt : option Z)
| Revoked (count : nat)
| Cascaded
| Stuck.

Section History.
Variable defaultTtlMs : Z.

Definition exec (op : Op) (st : State) : Reply * State :=
  match op with
  | Mint id bs now i => let '(l, st') := mintLease defaultTtlMs id bs now i st in (Issued l, st')
  | Validate clock b m t => let '(i, st') := validate clock b m t st in (Validated i, st')
  | Renew clock id => let '(r, st') := renew defaultTtlMs clock id st in (Renewed r, st')
  | Revoke id => let '(n, st') := revoke id st in (Revoked n, st')
  | CascadeRevoke id => match cascadeRevoke id st with Some st' => (Cascaded, st') | None => (Stuck, st) end
  | RevokeByRootRun r => match revokeByRootRun r st with Some (n, st') => (Revoked n, st') | None => (Stuck, st) end
  end.

Fixpoint run (ops : list Op) (st : State) : list (Op * Reply) * State :=
  match ops with
  | [] => ([], st)
  | op :: ops => let '(r, st1) := exec op st in let '(log, st2) := run ops st1 in ((op, r) :: log, st2)
  end.

(** The state after a history. *)
Definition after (ops : list Op) : State := (run ops createLeaseManager).2.

Lemma run_app h1 h2 st :
  run (h1 ++ h2) st = let '(l1, s1) := run h1 st in let '(l2, s2) := run h2 s1 in (l1 ++ l2, s2).
Proof.
  revert st. induction h1 as [|op h1 IH]; intros st; simpl; [by destruct (run h2 st)|].
  destruct (exec op st) as [r s]. rewrite IH. destruct (run h1 s) as [l1 s1]. by destruct (run h2 s1).
Qed.

Lemma after_snoc h op : after (h ++ [op]) = (exec op (after h)).2.
Proof.
  unfold after. rewrite run_app. destruct (run h createLeaseManager) as [l s]. simpl. by destruct (exec op s).
Qed.

(** Where an entry of the log sits. *)
Lemma run_elem h st op r :
  (op, r) ∈ (run h st).1 -> exists h1 h2, h = h1 ++ op :: h2 /\ r = (exec op (run h1 st).2).1.
Proof.
  revert st. induction h as [|op' h IH]; intros st; [by intros ?%not_elem_of_nil|]. simpl.
  destruct (exec op' st) as [r' s] eqn:E. destruct (run h s) as [l s2] eqn:E2. simpl.
  intros [[= -> ->]|Hin]%elem_of_cons.
  - exists [], h. simpl. by rewrite E.
  - destruct (IH s) as (h1 & h2 & -> & ->); [by rewrite E2|]. exists (op' :: h1), h2. split; [done|].
    simpl. rewrite E. by destruct (run h1 s).
Qed.

(** ** What the mints of a history fix *)

Definition mintEntry (id : string) (bs : list Z) (now : Z) (i : MintLeaseInput) : LeaseEntry :=
  let maxAt := now + default defaultTtlMs (m_maxTtlMs i) in
  mkEntry (LeaseTokens.fromBase64url (LeaseTokens.generateStrongToken bs)) (minted id i)
    (Z.min (now + default defaultTtlMs (m_ttlMs i)) maxAt) maxAt false.

(** [e'] is [e] with no more authority, up to a renewal within the ceiling. *)
Record Narrows (e e' : LeaseEntry) : Prop := mkNarrows {
  narrows_info : info e' = info e;
  narrows_token : tokenBuf e' = tokenBuf e;
  narrows_max : maxExpiresAtMs e' = maxExpiresAtMs e;
  narrows_revoked : revoked e = true -> revoked e' = true;
  narrows_expiry : expiresAtMs e <= maxExpiresAtMs e -> expiresAtMs e' <= maxExpiresAtMs e'
}.

#[global] Instance Narrows_preorder : PreOrder Narrows.
Proof.
  split; [by split|]. intros e1 e2 e3 [] []. split; try congruence; auto.
Qed.

Lemma Narrows_revoked e : Narrows e (setRevoked e).
Proof. by split. Qed.

Lemma Narrows_expiry e t : t <= maxExpiresAtMs e -> Narrows e (setExpiry e t).
Proof. by split. Qed.

(** ** One call *)

Lemma mget_fold_mdel {V} (l : jsmap string V) ids k :
  mget (fold_left mdel ids l) k = if has ids k then None else mget l k.
Proof.
  revert l. induction ids as [|id ids IH]; intros l; [done|]. cbn [fold_left]. rewrite IH, mget_mdel.
  unfold has. destruct (decide (k = id)) as [->|Hne].
  - rewrite (bool_decide_true (id ∈ id :: ids)) by (by left). by case_bool_decide.
  - rewrite (bool_decide_ext (k ∈ id :: ids) (k ∈ ids)); [done|]. rewrite elem_of_cons. naive_solver.
Qed.

Lemma NoDup_fold_mdel {V} (l : jsmap string V) ids : NoDup (mkeys l) -> NoDup (mkeys (fold_left mdel ids l)).
Proof. revert l. induction ids as [|id ids IH]; intros l H; [done|]. apply IH. by apply NoDup_mkeys_mdel. Qed.

(** The lease an operation mints, if any. *)
Definition mintsId (op : Op) : option string := match op with Mint id _ _ _ => Some id | _ => None end.

(** What a call does to the entries when it mints nothing: entries may go, and
    what stays is narrowed. *)
Lemma exec_narrows op st k e' :
  NoDup (mkeys (leases st)) -> mintsId op <> Some k ->
  mget (leases (exec op st).2) k = Some e' -> exists e, mget (leases st) k = Some e /\ Narrows e e'.
Proof.
  intros Hnd Hop. destruct st as [es ch]. destruct op as [id bs now i|c b m t|c id|id|id|root]; simpl in *.
  - rewrite mget_mset_ne by congruence. intros H. by exists e'.
  - rewrite mget_fold_mdel. destruct (has _ k); [done|]. intros H. by exists e'.
  - unfold renew. cbn [leases]. destruct (mget es id) as [e|] eqn:E; simpl; [|intros H; by exists e'].
    destruct (revoked e); simpl; [intros H; by exists e'|].
    destruct (_ <=? _); simpl; [intros H; by exists e'|].
    rewrite mget_mset. case_decide as Hk; [subst|intros Hm; by exists e']. intros [= <-]. exists e. split; [done|].
    apply Narrows_expiry. lia.
  - unfold revoke, revokeLease. cbn [leases]. destruct (mget es id) as [e|] eqn:E; simpl; [|intros H; by exists e'].
    rewrite mget_mset. case_decide as Hk; [subst|intros Hm; by exists e']. intros [= <-]. exists e.
    split; [done|apply Narrows_revoked].
  - destruct (cascadeRevoke_spec id es ch Hnd) as (v & -> & _). simpl. rewrite mget_mark.
    destruct (mget es k) as [e|] eqn:E; [|done]. intros [= <-]. exists e. split; [done|].
    destruct (has v k); [apply Narrows_revoked|done].
  - destruct (revokeByRootRun_spec root es ch Hnd) as (v & -> & _). simpl. rewrite mget_mark.
    destruct (mget es k) as [e|] eqn:E; [|done]. intros [= <-]. exists e. split; [done|].
    destruct (has v k); [apply Narrows_revoked|done].
Qed.

Lemma exec_nodup op st : NoDup (mkeys (leases st)) -> NoDup (mkeys (leases (exec op st).2)).
Proof.
  intros Hnd. destruct st as [es ch]. destruct op as [id bs now i|c b m t|c id|id|id|root]; simpl in *.
  - by apply NoDup_mkeys_mset.
  - by apply NoDup_fold_mdel.
  - unfold renew. cbn [leases]. destruct (mget es id) as [e|]; simpl; [|done].
    destruct (revoked e); simpl; [done|]. destruct (_ <=? _); simpl; [done|]. by apply NoDup_mkeys_mset.
  - unfold revoke, revokeLease. cbn [leases]. destruct (mget es id); simpl; [by apply NoDup_mkeys_mset|done].
  - destruct (cascadeRevoke_spec id es ch Hnd) as (v & -> & _). simpl. by rewrite mkeys_mark.
  - destruct (revokeByRootRun_spec root es ch Hnd) as (v & -> & _). simpl. by rewrite mkeys_mark.
Qed.

(** Only a mint changes the adjacency. *)
Lemma exec_children op st :
  NoDup (mkeys (leases st)) ->
  childrenByParent (exec op st).2 =
  match op with
  | Mint id _ _ i =>
      match m_parentLeaseId i with
      | Some p => mset (childrenByParent st) p (setAdd (kids (childrenByParent st) p) id)
      | None => childrenByParent st
      end
  | _ => childrenByParent st
  end.
Proof.
  intros Hnd. destruct st as [es ch]. destruct op as [id bs now i|c b m t|c id|id|id|root]; simpl in *; [done..| | | |].
  - unfold renew. cbn [leases]. destruct (mget es id) as [e|]; simpl; [|done].
    destruct (revoked e); simpl; [done|]. by destruct (_ <=? _).
  - unfold revoke, revokeLease. cbn [leases]. by destruct (mget es id).
  - by destruct (cascadeRevoke_spec id es ch Hnd) as (v & -> & _).
  - by destruct (revokeByRootRun_spec root es ch Hnd) as (v & -> & _).
Qed.

(** ** Every reachable state *)

Record Inv (h : list Op) (st : State) : Prop := mkInv {
  inv_nodup : NoDup (mkeys (leases st));
  inv_minted k e :
    mget (leases st) k = Some e -> exists bs now i, Mint k bs now i ∈ h /\ Narrows (mintEntry k bs now i) e;
  inv_children p c :
    child (childrenByParent st) p c <-> exists bs now i, Mint c bs now i ∈ h /\ m_parentLeaseId i = Some p
}.

Lemma child_mset ch p x q y :
  child (mset ch p (setAdd (kids ch p) x)) q y <-> child ch q y \/ (q = p /\ y = x).
Proof.
  unfold child, kids at 1. rewrite mget_mset. case_decide as Hq; simpl; [subst|]; [|naive_solver].
  rewrite elem_of_setAdd. naive_solver.
Qed.

Lemma exec_inv h op st : Inv h st -> Inv (h ++ [op]) (exec op st).2.
Proof.
  intros [Hnd Hm Hc]. split; [by apply exec_nodup| |].
  - intros k e' He. destruct (decide (mintsId op = Some k)) as [Hop|Hop].
    + destruct op as [id bs now i| | | | |]; try done. injection Hop as ->. simpl in He.
      rewrite mget_mset_eq in He. injection He as <-. exists bs, now, i. split; [set_solver|done].
    + destruct (exec_narrows op st k e') as (e & Hk & Hn); [done..|].
      destruct (Hm k e Hk) as (bs & now & i & Hi & Hn'). exists bs, now, i. split; [set_solver|by etrans].
  - intros p c. rewrite exec_children by done.
    assert (Hnew : (forall bs now i, op = Mint c bs now i -> m_parentLeaseId i <> Some p) ->
      (exists bs now i, Mint c bs now i ∈ h ++ [op] /\ m_parentLeaseId i = Some p) <->
      child (childrenByParent st) p c).
    { intros Hno. rewrite Hc. setoid_rewrite elem_of_app. setoid_rewrite list_elem_of_singleton. split.
      - intros (bs & now & i & [Hi|Hi] & Hp); [by exists bs, now, i|]. by destruct (Hno bs now i (eq_sym Hi)).
      - intros (bs & now & i & Hi & Hp). exists bs, now, i. auto. }
    destruct op as [id bs now i| | | | |]; try (symmetry; by apply Hnew).
    destruct (m_parentLeaseId i) as [q|] eqn:Ep; [|symmetry; apply Hnew; congruence].
    rewrite child_mset. split.
    + intros [Hin|[-> ->]]; [|exists bs, now, i; set_solver].
      apply Hc in Hin as (bs' & now' & i' & Hi & Hp). exists bs', now', i'. set_solver.
    + intros (bs' & now' & i' & [Hi|Hi%list_elem_of_singleton]%elem_of_app & Hp).
      * left. apply Hc. by exists bs', now', i'.
      * right. injection Hi as -> -> -> ->. split; [congruence|done].
Qed.

Lemma after_inv h : Inv h (after h).
Proof.
  induction h as [|op h IH] using rev_ind; [|rewrite after_snoc; by apply exec_inv].
  split; [apply NoDup_nil_2|done|]. intros p c. split; [by intros ?%not_elem_of_nil|].
  by intros (bs & now & i & ?%not_elem_of_nil & _).
Qed.

Lemma run_after h1 h2 : (run h2 (after h1)).2 = after (h1 ++ h2).
Proof.
  unfold after. rewrite run_app. destruct (run h1 createLeaseManager) as [l s]. simpl. by destruct (run h2 s).
Qed.

(** ** Dead leases *)

(** The manager holds no usable entry for the id. *)
Definition Dead (id : string) (st : State) : Prop := forall e, mget (leases st) id = Some e -> revoked e = true.

Lemma exec_dead op st id :
  NoDup (mkeys (leases st)) -> mintsId op <> Some id -> Dead id st -> Dead id (exec op st).2.
Proof.
  intros Hnd Hop Hd e' He. destruct (exec_narrows op st id e') as (e & Hk & Hn); [done..|].
  apply (narrows_revoked _ _ Hn). by apply Hd.
Qed.

Lemma after_dead h1 h2 id :
  Forall (fun op => mintsId op <> Some id) h2 -> Dead id (after h1) -> Dead id (after (h1 ++ h2)).
Proof.
  intros Hf Hd. induction h2 as [|op h2 IH] using rev_ind; [by rewrite app_nil_r|].
  apply Forall_app in Hf as [Hf Hop]. apply Forall_cons in Hop as [Hop _].
  rewrite app_assoc, after_snoc. apply exec_dead; [apply after_inv|done|by apply IH].
Qed.

(** What an answer of [validate] shows of the entry it comes from. *)
Lemma scan_Some clock candidate method tool es : forall k i,
  (scan clock k candidate method tool es).1 = Some i ->
  exists id e n, (id, e) ∈ es /\ i = info e /\ revoked e = false /\ tokenBuf e = candidate /\
    clock (2 * n)%nat <= maxExpiresAtMs e /\ clock (2 * n + 1)%nat <= expiresAtMs e /\ inAudience i method tool = true.
Proof.
  induction es as [|[id e] es IH]; intros k i; cbn [scan]; [done|].
  assert (Hrest : (scan clock (S k) candidate method tool es).1 = Some i ->
    exists id' e' n, (id', e') ∈ (id, e) :: es /\ i = info e' /\ revoked e' = false /\ tokenBuf e' = candidate /\
      clock (2 * n)%nat <= maxExpiresAtMs e' /\ clock (2 * n + 1)%nat <= expiresAtMs e' /\ inAudience i method tool = true).
  { intros (id' & e' & n & Hin & H)%IH. exists id', e', n. split; [by right|done]. }
  destruct (Z.ltb_spec (maxExpiresAtMs e) (clock (2 * k)%nat)); [done|].
  destruct (Z.ltb_spec (expiresAtMs e) (clock (2 * k + 1)%nat)); [done|].
  destruct (revoked e) eqn:Er; [done|]. destruct (LeaseTokens.tokenEquals candidate (tokenBuf e)) eqn:Et; [|done].
  apply LeaseTokens.tokenEquals_spec in Et. cbn [negb fst]. destruct (inAudience (info e) method tool) eqn:Ea; [|done].
  intros [= <-]. exists id, e, k. split; [by left|]. by repeat split.
Qed.

(** A dead lease gets no answer. *)
Lemma dead_refused h id op :
  Dead id (after h) ->
  match (exec op (after h)).1 with
  | Validated (Some i) => leaseId i <> id
  | Renewed (Some _) => match op with Renew _ id' => id' <> id | _ => True end
  | _ => True
  end.
Proof.
  intros Hd. pose proof (after_inv h) as HI.
  destruct op as [id' bs now i|clock b m t|clock id'|id'|id'|root]; cbn [exec]; [done| | | | |].
  - unfold validate. cbv zeta. cbn [fst]. destruct (scan _ _ _ _ _ _).1 as [i|] eqn:Es; [|done].
    apply scan_Some in Es as (k & e & n & Hin & -> & Hr & _). intros <-.
    apply elem_of_mget in Hin; [|apply HI]. destruct (inv_minted _ _ HI k e Hin) as (bs & now & i & _ & Hn).
    rewrite (narrows_info _ _ Hn) in Hd. simpl in Hd. rewrite (Hd e Hin) in Hr. done.
  - unfold renew. destruct (mget (leases (after h)) id') as [e|] eqn:E; [|done].
    destruct (revoked e) eqn:Er; [done|]. destruct (_ <=? _); simpl; [done|]. intros ->.
    rewrite (Hd e E) in Er. done.
  - by destruct (revoke id' _).
  - by destruct (cascadeRevoke id' _).
  - by destruct (revokeByRootRun root _) as [[]|].
Qed.
End History.
End LeaseHistory.
