(* ===== verification/LeaseTheorems.v ===== *)
(** * What leases guarantee

  Theorems over every history of a lease manager: revocation is final and reaches
  exactly the tree it names, an answer of [validate] traces back to a mint within
  its ceiling and audience, an issued bearer keeps working, and delegation only
  narrows. *)

From S2P Require Import Prelude ApprovalPolicy LeaseTables LeaseManager LeaseManagerFacts LeaseHistory.

Open Scope string_scope.
Open Scope list_scope.
Open Scope Z_scope.

Module LeaseTheorems.
Import LeaseTables LeaseManager LeaseManagerFacts LeaseHistory.

(** [c] was minted as a child of [p]. *)
Definition parentIn (h : list Op) (p c : string) : Prop :=
  exists bs now i, Mint c bs now i ∈ h /\ m_parentLeaseId i = Some p.

(** The delegation tree of a history. *)
Definition tree (h : list Op) : relation string := rtc (parentIn h).

(** The lease ids a history mints. *)
Definition mintIds (h : list Op) : list string := omap mintsId h.

Lemma mint_unique h id bs now i bs' now' i' :
  NoDup (mintIds h) -> Mint id bs now i ∈ h -> Mint id bs' now' i' ∈ h -> Mint id bs now i = Mint id bs' now' i'.
Proof.
  intros Hnd H1 H2. induction h as [|op h IH]; [by apply not_elem_of_nil in H1|].
  assert (Hin : forall bs now i, Mint id bs now i ∈ h -> id ∈ mintIds h).
  { intros bs0 now0 i0 H. apply list_elem_of_omap. by exists (Mint id bs0 now0 i0). }
  destruct (mintsId op) as [k|] eqn:Eop; unfold mintIds in Hnd; simpl in Hnd; rewrite Eop in Hnd.
  - apply NoDup_cons in Hnd as [Hk Hnd].
    apply elem_of_cons in H1 as [<-|H1]; apply elem_of_cons in H2 as [<-|H2]; [done| | |by apply IH].
    + injection Eop as <-. by apply Hin in H2.
    + injection Eop as <-. by apply Hin in H1.
  - apply elem_of_cons in H1 as [<-|H1]; [done|]. apply elem_of_cons in H2 as [<-|H2]; [done|]. by apply IH.
Qed.

Section Theorems.
Variable defaultTtlMs : Z.

Abbreviation after := (after defaultTtlMs).
Abbreviation exec := (exec defaultTtlMs).
Abbreviation run := (run defaultTtlMs).

Lemma tree_descends h p c : tree h p c <-> descends (childrenByParent (after h)) p c.
Proof.
  split; (induction 1 as [|x y z Hxy _ IH]; [done|]; eapply rtc_l; [|exact IH]).
  - by apply (inv_children _ _ _ (after_inv _ h)).
  - by apply (inv_children _ _ _ (after_inv _ h)) in Hxy.
Qed.

(** The leases a revocation stops: one lease, a lease with all that was minted
    below it, or every lease of a root run with what was minted below those the
    manager still holds. *)
Definition Stops (h : list Op) (op : Op) (id : string) : Prop :=
  match op with
  | Revoke id' => id' = id
  | CascadeRevoke p => tree h p id
  | RevokeByRootRun root =>
      (exists bs now i, Mint id bs now i ∈ h /\ m_rootRunId i = root) \/
      (exists r, r ∈ rootIds root (leases (after h)) /\ tree h r id)
  | _ => False
  end.

Lemma elem_of_rootIds root es k e : mget es k = Some e -> rootRunId (info e) = root -> k ∈ rootIds root es.
Proof.
  intros Hk%mget_elem_of Hr. unfold rootIds. apply (list_elem_of_fmap_2 fst _ (k, e)).
  apply list_elem_of_In, filter_In. split; [by apply list_elem_of_In|]. by apply bool_decide_eq_true.
Qed.

Lemma mark_dead v id es ch : id ∈ v -> Dead id (mkState (mark v es) ch).
Proof.
  intros Hv e. simpl. rewrite mget_mark, (proj2 (has_spec v id) Hv). destruct (mget es id); [|done]. by intros [= <-].
Qed.

Lemma stops_dead h op id : NoDup (mintIds h) -> Stops h op id -> Dead id (after (h ++ [op])).
Proof.
  intros Hids HS. rewrite after_snoc. pose proof (after_inv defaultTtlMs h) as HI.
  pose proof (inv_nodup _ _ _ HI) as Hnd. destruct (after h) as [es ch] eqn:Est.
  destruct op as [| | |id'|p|root]; simpl in HS; try done.
  - subst id'. simpl. unfold revoke, revokeLease. cbn [leases].
    destruct (mget es id) as [e|] eqn:E; simpl; intros e'; simpl; [|congruence].
    rewrite mget_mset_eq. by intros [= <-].
  - simpl. destruct (cascadeRevoke_spec p es ch Hnd) as (v & -> & Hv). simpl. apply mark_dead, Hv.
    apply tree_descends in HS. by rewrite Est in HS.
  - simpl. destruct (revokeByRootRun_spec root es ch Hnd) as (v & -> & _ & Hv). simpl.
    destruct HS as [(bs & now & i & Hi & Hr)|(r & Hr & Ht)].
    + destruct (mget es id) as [e|] eqn:Ek.
      * apply mark_dead, Hv. exists id. split; [|done]. apply (elem_of_rootIds _ _ _ e); [done|].
        destruct (inv_minted _ _ _ HI id e Ek) as (bs' & now' & i' & Hi' & Hn).
        injection (mint_unique _ _ _ _ _ _ _ _ Hids Hi Hi') as _ _ <-. by rewrite (narrows_info _ _ Hn).
      * intros e. simpl. by rewrite mget_mark, Ek.
    + apply mark_dead, Hv. exists r. rewrite Est in Hr. split; [done|]. apply tree_descends in Ht. by rewrite Est in Ht.
Qed.

(** C4: Revocation of leases is final.  Once a call has revoked a lease, alone,
    with the subtree it belongs to or with its root run, no later [validate]
    answers with that lease and no later [renew] extends it, whatever happens in
    between, as long as its random id is not minted again. *)
Theorem lease_revocation_is_final (h1 h2 : list Op) (op : Op) (id : string) :
  NoDup (mintIds h1) -> Stops h1 op id -> Forall (fun o => mintsId o <> Some id) h2 ->
  forall o reply, (o, reply) ∈ (run h2 (after (h1 ++ [op]))).1 ->
  match o, reply with
  | Validate _ _ _ _, Validated (Some i) => leaseId i <> id
  | Renew _ id', Renewed (Some _) => id' <> id
  | _, _ => True
  end.
Proof.
  intros Hids HS Hf o reply Hin.
  assert (Hsplit : exists g1 g2, h2 = g1 ++ o :: g2 /\ reply = (exec o (after ((h1 ++ [op]) ++ g1))).1).
  { apply run_elem in Hin as (g1 & g2 & -> & ->). exists g1, g2. by rewrite run_after. }
  destruct Hsplit as (g1 & g2 & -> & ->). apply Forall_app in Hf as [Hf _].
  pose proof (dead_refused defaultTtlMs ((h1 ++ [op]) ++ g1) id o) as Hd.
  specialize (Hd (after_dead _ _ _ _ Hf (stops_dead _ _ _ Hids HS))).
  destruct o; try done; simpl in *. by destruct (renew _ _ _ _) as [[]].
Qed.

(** C15: The revocation of a root run always completes within its fuel and is
    exact: it flags the leases of that root and what descends from them, leaves
    every other entry and the adjacency as they were, and answers with the number
    of distinct ids it visited. *)
Theorem root_revocation_exact (h : list Op) (root : string) :
  exists v, NoDup v /\
    exec (RevokeByRootRun root) (after h) =
      (Revoked (length v), mkState (mark v (leases (after h))) (childrenByParent (after h))) /\
    (forall x, x ∈ v <-> exists r, r ∈ rootIds root (leases (after h)) /\ tree h r x) /\
    (forall k, k ∉ v -> mget (leases (exec (RevokeByRootRun root) (after h)).2) k = mget (leases (after h)) k).
Proof.
  pose proof (inv_nodup _ _ _ (after_inv defaultTtlMs h)) as Hnd.
  assert (HT : forall r x, tree h r x <-> descends (childrenByParent (after h)) r x) by (intros; apply tree_descends).
  destruct (after h) as [es ch]. destruct (revokeByRootRun_spec root es ch Hnd) as (v & E & Hv & Hx).
  exists v. simpl. rewrite E. cbn [leases childrenByParent snd]. repeat split; [done| | |].
  - intros (r & Hr & Hd)%Hx. exists r. split; [done|by apply HT].
  - intros (r & Hr & Hd). apply Hx. exists r. split; [done|by apply HT in Hd].
  - intros k Hk. rewrite mget_mark, (proj2 (has_false v k) Hk). by destruct (mget es k).
Qed.

(** C14: Whoever is authenticated presents the token of a lease that was minted.
    The answer of [validate] is the projection fixed at the mint, with
    capabilities of the closed vocabulary only; the reading of the clock it was
    judged at is within the ceiling set at the mint, whatever renewals happened;
    and the method is in the audience of the lease. *)
Theorem validated_lease_was_minted (h : list Op) (clock : nat -> Z) (bearer method : string) (tool : option string)
    (i : LeaseInfo) (st : State) :
  validate clock bearer method tool (after h) = (Some i, st) ->
  exists bs now input n, Mint (leaseId i) bs now input ∈ h /\ i = minted (leaseId i) input /\
    LeaseTokens.fromBase64url bearer = LeaseTokens.fromBase64url (LeaseTokens.generateStrongToken bs) /\
    clock n <= now + default defaultTtlMs (m_maxTtlMs input) /\
    (forall c, c ∈ caps i -> c ∈ AGENT_CAPABILITIES /\ c ∈ m_caps input) /\
    inAudience i method tool = true.
Proof.
  intros [= Hs _]. pose proof (after_inv defaultTtlMs h) as HI.
  apply scan_Some in Hs as (k & e & n & Hin & -> & _ & Ht & _ & Hexp & Ha).
  apply elem_of_mget in Hin; [|apply HI].
  destruct (inv_minted _ _ _ HI k e Hin) as (bs & now & input & Hm & Hn).
  pose proof (narrows_info _ _ Hn) as Ei. simpl in Ei. exists bs, now, input, (2 * n + 1)%nat. rewrite Ei. cbn [leaseId minted].
  split; [done|]. split; [done|]. split; [by rewrite <- Ht, (narrows_token _ _ Hn)|].
  split; [|split; [|by rewrite Ei in Ha]].
  - pose proof (narrows_expiry _ _ Hn) as Hle. rewrite (narrows_max _ _ Hn) in Hle. simpl in Hle. lia.
  - intros c Hc. simpl in Hc. apply list_elem_of_In, filter_In in Hc as [Hc Hv]. split; [by apply has_spec|].
    by apply list_elem_of_In.
Qed.
(** ** Availability *)

Lemma scan_hit clock candidate method tool id e : forall es k,
  (id, e) ∈ es -> NoDup (mkeys es) ->
  (forall k' e', (k', e') ∈ es -> tokenBuf e' = candidate -> k' = id) -> tokenBuf e = candidate ->
  revoked e = false -> (forall n, clock n <= expiresAtMs e) -> (forall n, clock n <= maxExpiresAtMs e) ->
  (scan clock k candidate method tool es).1 = if inAudience (info e) method tool then Some (info e) else None.
Proof.
  induction es as [|[k' e'] es IH]; intros k Hin Hnd Hu Ht Hr Hs Hm; [by apply not_elem_of_nil in Hin|]. cbn [scan].
  apply NoDup_cons in Hnd as [Hk Hnd]. apply elem_of_cons in Hin as [[= <- <-]|Hin].
  - pose proof (Hm (2 * k)%nat). pose proof (Hs (2 * k + 1)%nat). rewrite (proj2 (Z.ltb_ge _ _)) by done.
    rewrite (proj2 (Z.ltb_ge _ _)) by done. by rewrite Hr, (proj2 (LeaseTokens.tokenEquals_spec _ _) (eq_sym Ht)).
  - assert (Hne : LeaseTokens.tokenEquals candidate (tokenBuf e') = false).
    { apply not_true_is_false. intros E%LeaseTokens.tokenEquals_spec. apply Hk.
      rewrite (Hu k' e'); [|by left|done]. by apply (list_elem_of_fmap_2 fst _ (id, e)). }
    assert (HR := IH (S k) Hin Hnd (fun a b H => Hu a b (proj2 (elem_of_cons _ _ _) (or_intror H))) Ht Hr Hs Hm).
    rewrite Hne. repeat case_match; done.
Qed.

(** Only an entry past its ceiling is deleted. *)
Lemma scan_deleted clock candidate method tool es : forall k x,
  x ∈ (scan clock k candidate method tool es).2 -> exists e n, (x, e) ∈ es /\ maxExpiresAtMs e < clock n.
Proof.
  induction es as [|[id e] es IH]; intros k x; cbn [scan]; [by intros ?%not_elem_of_nil|].
  assert (Hrest : x ∈ (scan clock (S k) candidate method tool es).2 ->
    exists e' n, (x, e') ∈ (id, e) :: es /\ maxExpiresAtMs e' < clock n).
  { intros (e' & n & Hin & H)%IH. exists e', n. split; [by right|done]. }
  destruct (Z.ltb_spec (maxExpiresAtMs e) (clock (2 * k)%nat)) as [Hlt|_].
  - cbn [snd]. intros [->|Hin]%elem_of_cons; [|by apply Hrest]. exists e, (2 * k)%nat. split; [by left|done].
  - destruct (_ <? _); [done|]. destruct (revoked e); [done|]. destruct (negb _); [done|]. by intros ?%not_elem_of_nil.
Qed.

(** A call that does not concern the lease [id] with the ceiling [maxAt]. *)
Definition Spares (h : list Op) (id : string) (maxAt : Z) (o : Op) : Prop :=
  mintsId o <> Some id /\ ~ Stops h o id /\
  match o with Renew _ id' => id' <> id | Validate clock _ _ _ => forall n, clock n <= maxAt | _ => True end.

Lemma exec_keeps h o id e :
  mget (leases (after h)) id = Some e -> Spares h id (maxExpiresAtMs e) o ->
  mget (leases (after (h ++ [o]))) id = Some e.
Proof.
  intros He (Hm & Hs & Ho). rewrite after_snoc. pose proof (after_inv defaultTtlMs h) as HI.
  pose proof (inv_nodup _ _ _ HI) as Hnd.
  assert (HT : forall r x, descends (childrenByParent (after h)) r x -> tree h r x) by (intros; by apply tree_descends).
  unfold Stops in Hs. destruct (after h) as [es ch]. destruct o as [id' bs now i|clock b m t|clock id'|id'|p|root]; simpl in *.
  - by rewrite mget_mset_ne by congruence.
  - rewrite mget_fold_mdel. rewrite (proj2 (has_false _ id)); [done|].
    intros (e' & n & Hin%elem_of_mget & Hlt)%scan_deleted; [|done]. specialize (Ho n).
    assert (e' = e) by congruence. subst. lia.
  - unfold renew. cbn [leases]. destruct (mget es id'); simpl; [|done]. destruct (revoked _); simpl; [done|].
    destruct (_ <=? _); simpl; [done|]. by rewrite mget_mset_ne by congruence.
  - unfold revoke, revokeLease. cbn [leases]. destruct (mget es id'); simpl; [|done]. by rewrite mget_mset_ne by congruence.
  - destruct (cascadeRevoke_spec p es ch Hnd) as (v & -> & Hv). simpl. rewrite mget_mark, (proj2 (has_false v id)), He; [done|].
    intros Hin%Hv. by apply Hs, HT.
  - destruct (revokeByRootRun_spec root es ch Hnd) as (v & -> & _ & Hv). simpl.
    rewrite mget_mark, (proj2 (has_false v id)), He; [done|].
    intros (r & Hr & Hd)%Hv. apply Hs. right. exists r. split; [done|by apply HT].
Qed.

Lemma run_keeps h1 id e h2 :
  mget (leases (after h1)) id = Some e ->
  (forall g1 o g2, h2 = g1 ++ o :: g2 -> Spares (h1 ++ g1) id (maxExpiresAtMs e) o) ->
  mget (leases (after (h1 ++ h2))) id = Some e.
Proof.
  intros He HS. induction h2 as [|o h2 IH] using rev_ind; [by rewrite app_nil_r|].
  rewrite app_assoc. apply exec_keeps; [|by apply (HS h2 o [])].
  apply IH. intros g1 o' g2 ->. apply (HS g1 o' (g2 ++ [o])). by rewrite <- app_assoc.
Qed.

(** C16: An issued bearer works, any number of times, until its soft expiry.  If
    the calls since the mint neither revoke the lease nor renew it nor read a
    clock past its ceiling, then [validate] with the bearer answers with the lease
    for every method in its audience and refuses the others, and the lease is
    still there afterwards.  Ids and tokens are not drawn twice. *)
Theorem issued_bearer_works (h1 h2 : list Op) (id : string) (bs : list Z) (now : Z) (input : MintLeaseInput)
    (clock : nat -> Z) (method : string) (tool : option string) :
  let h := h1 ++ Mint id bs now input :: h2 in
  let e := mintEntry defaultTtlMs id bs now input in
  (forall id' bs' now' i', Mint id' bs' now' i' ∈ h -> Forall LeaseTokens.isByte bs' /\ (bs' = bs -> id' = id)) ->
  (forall g1 o g2, h2 = g1 ++ o :: g2 -> Spares ((h1 ++ [Mint id bs now input]) ++ g1) id (maxExpiresAtMs e) o) ->
  (forall n, clock n <= expiresAtMs e) ->
  let '(answer, st) := validate clock (i_bearer (mintLease defaultTtlMs id bs now input (after h1)).1) method tool (after h) in
  answer = (if inAudience (minted id input) method tool then Some (minted id input) else None) /\
  mget (leases st) id = Some e.
Proof.
  intros h e Htok HS Hclock.
  assert (Hmax : forall n, clock n <= maxExpiresAtMs e) by (intros n; specialize (Hclock n); simpl in *; lia).
  assert (He : mget (leases (after h)) id = Some e).
  { unfold h. replace (h1 ++ Mint id bs now input :: h2) with ((h1 ++ [Mint id bs now input]) ++ h2) by (by rewrite <- app_assoc).
    apply run_keeps; [|done]. rewrite after_snoc. apply mget_mset_eq. }
  pose proof (after_inv defaultTtlMs h) as HI. pose proof (inv_nodup _ _ _ HI) as Hnd.
  assert (Hbs : Mint id bs now input ∈ h) by (apply elem_of_app; right; by left).
  assert (Hrt : forall b, Forall LeaseTokens.isByte b -> LeaseTokens.fromBase64url (LeaseTokens.generateStrongToken b) = b)
    by (intros; by apply LeaseTokens.base64url_roundtrip).
  unfold validate. cbv zeta. split.
  - apply (scan_hit _ _ _ _ id e); [by apply mget_elem_of|done| |done..].
    intros k' e' Hin%elem_of_mget Ht; [|done].
    destruct (inv_minted _ _ _ HI k' e' Hin) as (bs' & now' & i' & Hi' & Hn).
    destruct (Htok _ _ _ _ Hi') as [Hby Hu]. apply Hu. rewrite (narrows_token _ _ Hn) in Ht. simpl in Ht.
    rewrite !Hrt in Ht; [done|by destruct (Htok _ _ _ _ Hbs)|done].
  - cbn [leases]. rewrite mget_fold_mdel, (proj2 (has_false _ id)); [done|].
    intros (e' & n & Hin%elem_of_mget & Hlt)%scan_deleted; [|done]. specialize (Hmax n).
    assert (e' = e) by congruence. subst e'. lia.
Qed.

(** ** Delegation *)

(** Every child is minted as [buildBrokerSpawnEnv] does, from the capabilities of
    its parent, or as the lease of one orchestrated run, with the same
    capabilities. *)
Definition Delegated (h : list Op) : Prop :=
  forall c bs now i p, Mint c bs now i ∈ h -> m_parentLeaseId i = Some p ->
  exists bs' now' i', Mint p bs' now' i' ∈ h /\
    (m_caps i = m_caps i' \/
     exists agent mint requested, i = brokerMint agent mint /\
       c_parentCaps mint = Some (caps (minted p i')) /\ c_requestedCaps mint = Some requested).

(** Delegation never widens.  When every child was minted through
    [buildBrokerSpawnEnv] from the capabilities of its parent, or with the same
    ones, a lease anywhere below another holds no capability the other does not hold, so that it is in the
    audience of no tool and of no capability-gated method the other is not. *)
Theorem delegation_never_widens (h : list Op) (p c : string) bs now i bs' now' i' :
  NoDup (mintIds h) -> Delegated h -> tree h p c -> Mint p bs now i ∈ h -> Mint c bs' now' i' ∈ h ->
  (forall x, x ∈ caps (minted c i') -> x ∈ caps (minted p i)) /\
  (forall method tool, has ADMIN_SCOPED_RPC_METHODS method = false ->
     inAudience (minted c i') method tool = true -> inAudience (minted p i) method tool = true).
Proof.
  intros Hids HD Ht Hp Hc.
  assert (Hsub : forall x, x ∈ caps (minted c i') -> x ∈ caps (minted p i)).
  { clear -Hids HD Ht Hp Hc. revert bs now i Hp.
    induction Ht as [c|p q c (b & n & j & Hq & Hpq) _ IH]; intros bs now i Hp.
    - by injection (mint_unique _ _ _ _ _ _ _ _ Hids Hp Hc) as _ _ ->.
    - intros x Hx. specialize (IH Hc _ _ _ Hq x Hx).
      destruct (HD _ _ _ _ _ Hq Hpq) as (b' & n' & j' & Hp' & Hcaps).
      injection (mint_unique _ _ _ _ _ _ _ _ Hids Hp Hp') as _ _ ->.
      destruct Hcaps as [Hcaps|(agent & mint & rq & -> & Epc & Erq)]; simpl in *; [by rewrite <- Hcaps|].
      apply list_elem_of_In, filter_In in IH as [IH _]. unfold mintCaps in IH. rewrite Epc, Erq in IH.
      by apply list_elem_of_In, elem_of_attenuate in IH as [? _]. }
  split; [done|]. intros method tool Hadm. unfold inAudience. rewrite Hadm.
  destruct (has SELF_SCOPED_AGENT_READS method); [done|]. destruct (requiredCap method tool) as [x| |]; [|done..].
  intros [Hpre Hx%has_spec%Hsub]%andb_true_iff. apply andb_true_iff. split; [done|by apply has_spec].
Qed.
End Theorems.

(** ** A sample tree *)

Module Demo.

Definition ttl : Z := DEFAULT_TTL_MS.

(** Two root runs; the lease of the first has a child that asked for more. *)
Definition rootInput (root : string) : MintLeaseInput :=
  mkMint "agent" ["orch:spawn"; "orch:web"; "*"] "budget" "session" ApprovalPolicy.user None None root None None None
    (Some 3600000).

Definition childMint : CapabilityMint :=
  mkCapMint ["orch:web"; "orch:mcp"] "budget" "session" ApprovalPolicy.user None None "root-1"
    (Some ["orch:spawn"; "orch:web"]) (Some ["orch:mcp"; "orch:web"]) (Some "lease-1").

Definition childInput : MintLeaseInput := brokerMint "agent" childMint.

Definition mints : list Op := [
  Mint "lease-1" [1; 2; 3] 1000 (rootInput "root-1"); Mint "lease-2" [7; 8] 1000 (rootInput "root-2");
  Mint "lease-3" [4; 5; 6; 250] 2000 childInput].

Definition bearer (bytes : list Z) : string := LeaseTokens.generateStrongToken bytes.

Definition fetch (bytes : list Z) (now : Z) : Op := Validate (fun _ => now) (bearer bytes) "tool.invoke" (Some "web_fetch").

Definition later : list Op := [fetch [4; 5; 6; 250] 3000; Renew (fun _ => 3000) "lease-3"; fetch [7; 8] 3000].

Lemma mints_distinct : NoDup (mintIds mints).
Proof. by apply (bool_decide_unpack _). Qed.

(** Before the revocation the child can fetch, afterwards only the other root can. *)
Lemma lease_revocation_is_final_witness :
  map snd (run ttl later (after ttl mints)).1 =
    [Validated (Some (minted "lease-3" childInput)); Renewed (Some 902000);
     Validated (Some (minted "lease-2" (rootInput "root-2")))] /\
  map snd (run ttl later (after ttl (mints ++ [RevokeByRootRun "root-1"]))).1 =
    [Validated None; Renewed None; Validated (Some (minted "lease-2" (rootInput "root-2")))] /\
  leaseId (minted "lease-2" (rootInput "root-2")) <> "lease-3".
Proof.
  split; [by vm_compute|]. split; [by vm_compute|].
  apply (lease_revocation_is_final ttl mints later (RevokeByRootRun "root-1") "lease-3" mints_distinct)
    with (o := fetch [7; 8] 3000) (reply := Validated (Some (minted "lease-2" (rootInput "root-2")))).
  - left. exists [4; 5; 6; 250], 2000, childInput. split; [|done]. do 2 right. left.
  - by repeat constructor.
  - do 2 right. left.
Defined.

Lemma validated_lease_was_minted_witness :
  exists bs now input n, Mint "lease-3" bs now input ∈ mints /\ minted "lease-3" childInput = minted "lease-3" input /\
    LeaseTokens.fromBase64url (bearer [4; 5; 6; 250]) = LeaseTokens.fromBase64url (LeaseTokens.generateStrongToken bs) /\
    (fun _ : nat => 3000) n <= now + default ttl (m_maxTtlMs input) /\
    (forall c, c ∈ caps (minted "lease-3" childInput) -> c ∈ AGENT_CAPABILITIES /\ c ∈ m_caps input) /\
    inAudience (minted "lease-3" childInput) "tool.invoke" (Some "web_fetch") = true.
Proof.
  apply (validated_lease_was_minted ttl mints (fun _ => 3000) (bearer [4; 5; 6; 250]) "tool.invoke" (Some "web_fetch")
    (minted "lease-3" childInput) (after ttl mints)).
  by vm_compute.
Defined.

(** The child fetches although the other root was killed in between. *)
Lemma issued_bearer_works_witness :
  let h := mints ++ [RevokeByRootRun "root-2"; fetch [4; 5; 6; 250] 3000] in
  (validate (fun _ => 902000) (bearer [4; 5; 6; 250]) "tool.invoke" (Some "web_fetch") (after ttl h)).1 =
    Some (minted "lease-3" childInput) /\
  (validate (fun _ => 902001) (bearer [4; 5; 6; 250]) "tool.invoke" (Some "web_fetch") (after ttl h)).1 = None.
Proof.
  split; [|by vm_compute].
  pose proof (issued_bearer_works ttl (take 2 mints) [RevokeByRootRun "root-2"; fetch [4; 5; 6; 250] 3000] "lease-3"
    [4; 5; 6; 250] 2000 childInput (fun _ => 902000) "tool.invoke" (Some "web_fetch")) as H. apply H.
  - intros id' bs' now' i'. unfold mints, fetch. simpl. rewrite !elem_of_cons, elem_of_nil. intros Hin.
    destruct_or! Hin; try done; simplify_eq;
      (split; [repeat (apply Forall_nil_2 || apply Forall_cons_2); unfold LeaseTokens.isByte; lia|done]).
  - intros [|o1 [|o2 [|o3 g1]]] o g2 E; simplify_eq/=; (split; [done|]; split; [|try done]).
    + intros [(bs & now & i & Hin & Hr)|(r & Hr & Ht)].
      * unfold mints in Hin. simpl in Hin. rewrite !elem_of_cons, elem_of_nil in Hin. destruct_or! Hin; simplify_eq/=.
      * apply tree_descends with (defaultTtlMs := ttl) in Ht. vm_compute in Hr. apply list_elem_of_singleton in Hr as ->.
        inversion Ht as [|x y z Hy _]; subst. vm_compute in Hy. by apply not_elem_of_nil in Hy.
    + by intros [].
  - intros _. by vm_compute.
Defined.

Lemma delegation_never_widens_witness :
  inAudience (minted "lease-1" (rootInput "root-1")) "tool.invoke" (Some "web_fetch") = true /\
  inAudience (minted "lease-1" (rootInput "root-1")) "tool.invoke" (Some "mcp") = false.
Proof.
  split; [|by vm_compute].
  apply (delegation_never_widens mints "lease-1" "lease-3" [1; 2; 3] 1000 (rootInput "root-1") [4; 5; 6; 250] 2000 childInput
    mints_distinct); [| | | |by vm_compute..].
  - intros c bs now i p. unfold mints. rewrite !elem_of_cons, elem_of_nil. intros Hin Hp.
    destruct_or! Hin; try done; simplify_eq/=.
    exists [1; 2; 3], 1000, (rootInput "root-1"). split; [by left|]. right. by exists "agent", childMint, ["orch:mcp"; "orch:web"].
  - apply rtc_once. exists [4; 5; 6; 250], 2000, childInput. split; [by do 2 right; left|done].
  - by left.
  - by do 2 right; left.
Defined.

(** The lease of one orchestrated run: a child with a short life. *)
Definition runInput (ttlMs : Z) : MintLeaseInput :=
  mkMint "agent" ["orch:spawn"; "orch:web"] "budget" "session" ApprovalPolicy.user None None "root-1" (Some "run")
    (Some "lease-1") (Some ttlMs) (Some ttlMs).

(** [revokeByRootRun] counts ids it visited, not leases it flipped: a child that
    was reaped long ago is counted, and so is every lease of a tree that had been
    revoked before. *)
Theorem revoked_count_overstates :
  let h := [Mint "lease-1" [1; 2; 3] 1000 (rootInput "root-1"); Mint "run-1" [9] 2000 (runInput 500); fetch [9] 4000] in
  mkeys (leases (after ttl h)) = ["lease-1"] /\
  (exec ttl (RevokeByRootRun "root-1") (after ttl h)).1 = Revoked 2 /\
  (exec ttl (RevokeByRootRun "root-1") (after ttl (h ++ [RevokeByRootRun "root-1"]))).1 = Revoked 2.
Proof. by vm_compute. Qed.

(** A revocation does not bind the mints after it: a lease minted below a revoked
    parent, for the revoked root run, is accepted. *)
Theorem late_child_escapes_revocation :
  let h := [Mint "lease-1" [1; 2; 3] 1000 (rootInput "root-1"); RevokeByRootRun "root-1";
            Mint "run-1" [9] 2000 (runInput 60000)] in
  map snd (run ttl [fetch [1; 2; 3] 3000; fetch [9] 3000] (after ttl h)).1 =
    [Validated None; Validated (Some (minted "run-1" (runInput 60000)))].
Proof. by vm_compute. Qed.

(** [renew] moves the soft expiry to the default window even when that is earlier
    than the window the lease was minted with. *)
Theorem renew_can_shorten :
  let h := [Mint "run-1" [9] 0 (runInput 3600000)] in
  option_map expiresAtMs (mget (leases (after ttl h)) "run-1") = Some 3600000 /\
  (exec ttl (Renew (fun _ => 1000) "run-1") (after ttl h)).1 = Renewed (Some 901000).
Proof. by vm_compute. Qed.

End Demo.
End LeaseTheorems.
