(* ===== verification/LeasePrincipal.v ===== *)
(** * The principal of a leased call

  Models [daemon/src/wiring/setup-capability-session-spawn.ts]: how the endpoint
  rebuilds the request principal from a validated lease and which parameters it
  hands on, with [createResolvedRequestContext] of [core/src/context/context.ts]
  for the fields this caller gives, and [resolveRoutingPolicy] of
  [orchestrator/src/routing/routing-policy-resolver.ts], where the scope of a
  turn comes from.  The trace id and the reading of the clock are arguments; the
  locking of the context object is not modelled.

  [LeaseTurns]: a lease carries the scope of the turn it was minted in, as the
  routing policy resolved it, and the origin to deliver to; the endpoint accepts
  the pair only when the partition of the conversation names the principal. *)

From S2P Require Import Prelude ConversationScope CanonicalJson ApprovalPolicy SessionKeys DurableRuns LeaseTables LeaseManager.

Open Scope string_scope.
Open Scope list_scope.
Open Scope Z_scope.

Module LeasePrincipal.
Import LeaseTables LeaseManager ConversationScope.

(** ** The request context *)

Record RequestContext := mkContext {
  x_tenantId : string;
  x_userId : string;
  x_sessionKey : string;
  x_agentId : string;
  x_turnScope : option ResolvedTurnScope;
  x_traceId : string;
  x_startedAt : Z;
  x_trustLevel : ApprovalPolicy.UserTrustLevel;
  x_channelType : option string;
  x_deliveryOrigin : option DurableRuns.Origin
}.

(** [ResolvedRequestContextSeed], the fields a leased call gives. *)
Record Seed := mkSeed {
  s_tenantId : string;
  s_userId : string;
  s_sessionKey : SessionKeys.SessionKey;
  s_agentId : string;
  s_traceId : string;
  s_startedAt : Z;
  s_trustLevel : ApprovalPolicy.UserTrustLevel;
  s_channelType : option string;
  s_deliveryOrigin : option DurableRuns.Origin;
  s_turnScope : option ResolvedTurnScope
}.

Definition ResolvedTurnScopeSchema (t : ResolvedTurnScope) : bool :=
  ConversationScopeSchema (conversation t) && nonempty (principal t) && ChannelEndpointSchema (endpoint t) &&
  match ResolvedTurnScopeIssues t with [] => true | _ => false end.

(** [RequestContextSchema]; a random UUID is a valid trace id. *)
Definition RequestContextSchema (c : RequestContext) : bool :=
  nonempty (x_tenantId c) && nonempty (x_userId c) && nonempty (x_sessionKey c) && nonempty (x_agentId c) &&
  (0 <? x_startedAt c) && match x_turnScope c with Some t => ResolvedTurnScopeSchema t | None => true end.

Definition createResolvedRequestContext (s : Seed) : Result RequestContext string :=
  match SessionKeys.parseSessionKey (s_sessionKey s) with
  | None => Err "Resolved request session key failed validation"
  | Some key =>
      if negb (String.eqb (SessionKeys.tenantId key) (s_tenantId s))
         || negb (String.eqb (SessionKeys.userId key) (s_userId s))
         || negb (String.eqb (SessionKeys.agentId key) (s_agentId s))
      then Err "Resolved request session identity is inconsistent"
      else if match s_deliveryOrigin s with Some o => negb (DurableRuns.originValid o) | None => false end
      then Err "Resolved request delivery origin failed validation"
      else
        let principalId := match s_turnScope s with Some t => principal t | None => s_userId s end in
        if match s_deliveryOrigin s with
           | Some o =>
               negb (String.eqb (DurableRuns.d_tenantId o) (s_tenantId s))
               || negb (String.eqb (DurableRuns.d_userId o) principalId)
               || match s_channelType s with Some c => negb (String.eqb c (DurableRuns.d_channelType o)) | None => false end
           | None => false
           end
        then Err "Resolved request delivery identity is inconsistent"
        else
          let channel := match s_channelType s with Some c => Some c | None => DurableRuns.d_channelType <$> s_deliveryOrigin s end in
          let c := mkContext (s_tenantId s) (s_userId s) (SessionKeys.formatSessionKey key) (s_agentId s) (s_turnScope s)
                     (s_traceId s) (s_startedAt s) (s_trustLevel s) channel (s_deliveryOrigin s) in
          if negb (RequestContextSchema c) then Err "Resolved request context failed validation"
          else if match s_turnScope s with
                  | Some t => negb (String.eqb (tenantId (conversation t)) (s_tenantId s))
                              || negb (String.eqb (agentId (conversation t)) (s_agentId s))
                  | None => false
                  end
          then Err "Resolved turn scope is inconsistent with request identity"
          else Ok c
  end.

(** ** The principal of a lease *)

Record LeaseRequestPrincipal := mkPrincipal {
  context : RequestContext;
  callerSessionKey : string;
  callerConversationScope : Scope;
  origin : option DurableRuns.Origin
}.

Definition PRINCIPAL_INVALID : string := "capability lease principal invalid".

(** The key of the conversation under the agent of the lease. *)
Definition leaseSessionKey (k : SessionKey) (agent : string) : SessionKeys.SessionKey :=
  SessionKeys.Build_SessionKey (skTenantId k) agent (skUserId k) (skChannelId k) (skPeerId k) None (skThreadId k).

(** The delivery origin must agree with the conversation and its endpoint. *)
Definition originMatches (o : DurableRuns.Origin) (k : SessionKey) (e : ChannelEndpoint) : bool :=
  String.eqb (DurableRuns.d_tenantId o) (skTenantId k) && String.eqb (DurableRuns.d_userId o) (skUserId k) &&
  String.eqb (DurableRuns.d_channelType o) (channelType e) && String.eqb (DurableRuns.d_channelId o) (conversationId e) &&
  bool_decide (DurableRuns.d_threadId o = threadId e).

Definition resolveLeaseRequestPrincipal (lease : LeaseInfo) (requireDeliveryOrigin : bool) (traceId : string) (now : Z)
    : Result LeaseRequestPrincipal string :=
  match turnScope lease with
  | None => Err PRINCIPAL_INVALID
  | Some ts =>
      match conversationScopeToSessionKey (conversation ts) with
      | Err _ => Err PRINCIPAL_INVALID
      | Ok key =>
          if negb (String.eqb (agentId (conversation ts)) (LeaseManager.agentId lease))
             || (requireDeliveryOrigin && match deliveryOrigin lease with None => true | Some _ => false end)
             || match deliveryOrigin lease with Some o => negb (originMatches o key (endpoint ts)) | None => false end
          then Err PRINCIPAL_INVALID
          else
            match createResolvedRequestContext
                    (mkSeed (skTenantId key) (skUserId key) (leaseSessionKey key (LeaseManager.agentId lease))
                       (LeaseManager.agentId lease) traceId now (trustLevel lease)
                       (DurableRuns.d_channelType <$> deliveryOrigin lease) (deliveryOrigin lease) (Some ts)) with
            | Err _ => Err PRINCIPAL_INVALID
            | Ok c => Ok (mkPrincipal c (sessionKey lease) (conversation ts) (deliveryOrigin lease))
            end
      end
  end.

(** ** Parameters *)

(** A value of a parameter: JSON from the wire, or an object of the server. *)
Inductive Val :=
| VJson (j : CanonicalJson.Json)
| VScope (s : Scope)
| VTarget (channelId userId tenantId channelType : string).

Abbreviation Params := (jsmap string Val).

Definition VStr (s : string) : Val := VJson (CanonicalJson.JString s).

Definition trustName (t : ApprovalPolicy.UserTrustLevel) : string :=
  match t with ApprovalPolicy.admin => "admin" | ApprovalPolicy.user => "user" | ApprovalPolicy.guest => "guest" end.

Definition setAll (fields : list (string * Val)) (p : Params) : Params :=
  fold_left (fun p f => mset p f.1 f.2) fields p.

Definition optional (k : string) (v : option Val) : list (string * Val) :=
  match v with Some v => [(k, v)] | None => [] end.

(** The trusted fields, in the order of the object literal. *)
Definition trustedFields (lease : LeaseInfo) (p : LeaseRequestPrincipal) (stepIndex : option Z) (operationId : option string)
    : list (string * Val) :=
  [("_agentId", VStr (LeaseManager.agentId lease));
   ("_capabilities", VJson (CanonicalJson.JArray (map CanonicalJson.JString (caps lease))));
   ("_rootRunId", VStr (rootRunId lease));
   ("_leaseId", VStr (leaseId lease));
   ("_trustLevel", VStr (trustName (trustLevel lease)));
   ("_tenantId", VStr (x_tenantId (context p)));
   ("_userId", VStr (x_userId (context p)));
   ("_sessionKey", VStr (sessionKey lease));
   ("_callerSessionKey", VStr (callerSessionKey p));
   ("_callerConversationScope", VScope (callerConversationScope p))] ++
  optional "_parentLeaseId" (VStr <$> parentLeaseId lease) ++
  optional "_checkpointId" (VStr <$> checkpointId lease) ++
  optional "_callerChannelType" ((fun o => VStr (DurableRuns.d_channelType o)) <$> origin p) ++
  optional "_callerChannelId" ((fun o => VStr (DurableRuns.d_channelId o)) <$> origin p) ++
  optional "_deliveryTarget" ((fun o => VTarget (DurableRuns.d_channelId o) (DurableRuns.d_userId o)
    (DurableRuns.d_tenantId o) (DurableRuns.d_channelType o)) <$> origin p) ++
  optional "_outwardStepIndex" ((fun n => VJson (CanonicalJson.JNumber n)) <$> stepIndex) ++
  optional "_outwardOperationId" (VStr <$> operationId).

(** [dispatchValidatedLeaseRpc], up to the call of [dispatch]: the parameters it
    is called with and the context it runs in. *)
Definition validatedLeaseRpc (lease : LeaseInfo) (params : Params) (trustedPublic : list (string * Val))
    (stepIndex : option Z) (operationId : option string) (requireDeliveryOrigin : bool) (traceId : string) (now : Z)
    : Result (RequestContext * Params) string :=
  match resolveLeaseRequestPrincipal lease requireDeliveryOrigin traceId now with
  | Err e => Err e
  | Ok p =>
      Ok (context p,
          setAll (trustedFields lease p stepIndex operationId) (setAll trustedPublic (stripInternalFields params)))
  end.

(** ** Where the scope of a turn comes from *)

Inductive DmScopeMode := main | per_peer | per_channel_peer | per_account_channel_peer.

Record RoutingPolicyInput := mkRouting {
  r_tenantId : string;
  r_agentId : string;
  r_endpoint : ChannelEndpoint;
  r_principal : string;
  r_dmScopeMode : DmScopeMode
}.

Definition routedPartition (i : RoutingPolicyInput) : ConversationPartition :=
  match conversationKind (r_endpoint i) with
  | Shared => PEndpoint (r_endpoint i)
  | Direct =>
      match r_dmScopeMode i with
      | main => PAgent
      | per_peer => PPrincipal (r_principal i)
      | per_channel_peer => PChannelPrincipal (channelType (r_endpoint i)) (r_principal i)
      | per_account_channel_peer => PEndpointPrincipal (r_endpoint i) (r_principal i)
      end
  end.

Definition resolveRoutingPolicy (i : RoutingPolicyInput) : Result ResolvedTurnScope string :=
  if String.eqb (r_tenantId i) "" || String.eqb (r_agentId i) ""
  then Err "Routing policy requires tenant and agent identity"
  else
    let ts := Build_ResolvedTurnScope (Build_Scope (r_tenantId i) (r_agentId i) (routedPartition i)) (r_principal i)
                (r_endpoint i) in
    if ResolvedTurnScopeSchema ts then Ok ts else Err "Routing policy produced an invalid resolved turn scope".

End LeasePrincipal.

Open Scope string_scope.
Open Scope list_scope.
Open Scope Z_scope.

Module LeaseTurns.
Import LeaseManager LeasePrincipal ConversationScope.

(** The delivery origin of a routed turn: the canonical principal at the endpoint
    the message came from. *)
Definition turnOrigin (i : RoutingPolicyInput) : DurableRuns.Origin :=
  DurableRuns.Build_Origin (channelType (r_endpoint i)) (conversationId (r_endpoint i)) (r_principal i)
    (threadId (r_endpoint i)) (r_tenantId i).

(** The user a session key of the partition names. *)
Definition partitionUser (p : ConversationPartition) : string :=
  match p with
  | PAgent => "main"
  | PPrincipal pr | PChannelPrincipal _ pr | PEndpointPrincipal _ pr => pr
  | PEndpoint _ => "conversation"
  end.

Lemma session_user s k : conversationScopeToSessionKey s = Ok k -> skUserId k = partitionUser (partition s).
Proof. unfold conversationScopeToSessionKey. destruct (ConversationScopeSchema s); [|done]. intros [= <-]. by destruct (partition s). Qed.

Lemma session_tenant s k : conversationScopeToSessionKey s = Ok k -> skTenantId k = tenantId s.
Proof. unfold conversationScopeToSessionKey. destruct (ConversationScopeSchema s); [|done]. intros [= <-]. by destruct (partition s). Qed.

Lemma nonempty_spec s : nonempty s = true <-> s <> "".
Proof. unfold nonempty. by rewrite bool_decide_eq_true. Qed.

Lemma nonempty_app_l a b : a <> "" -> (a +:+ b) <> "".
Proof. by destruct a. Qed.

(** What a routed turn satisfies. *)
Lemma routed_spec i ts :
  resolveRoutingPolicy i = Ok ts ->
  ResolvedTurnScopeSchema ts = true /\ conversation ts = Build_Scope (r_tenantId i) (r_agentId i) (routedPartition i) /\
  principal ts = r_principal i /\ endpoint ts = r_endpoint i.
Proof.
  unfold resolveRoutingPolicy. destruct (_ || _); [done|]. cbv zeta.
  destruct (ResolvedTurnScopeSchema _) eqn:E; [|done]. by intros [= <-].
Qed.

Lemma schema_parts ts :
  ResolvedTurnScopeSchema ts = true ->
  ConversationScopeSchema (conversation ts) = true /\ nonempty (principal ts) = true /\
  ChannelEndpointSchema (endpoint ts) = true.
Proof. unfold ResolvedTurnScopeSchema. rewrite !andb_true_iff. naive_solver. Qed.

(** A valid scope has a session key, and its parts are not empty. *)
Lemma session_key_total s :
  ConversationScopeSchema s = true -> exists k, conversationScopeToSessionKey s = Ok k /\ SessionKeys.nonEmpty (skChannelId k) = true.
Proof.
  intros H. unfold conversationScopeToSessionKey. rewrite H. eexists. split; [done|].
  unfold ConversationScopeSchema in H. apply andb_true_iff in H as [_ Hp].
  destruct (partition s) as [|pr|ct pr|e|e pr]; simpl in *; try done.
  - apply andb_true_iff in Hp as [Hct _]. apply nonempty_spec in Hct. unfold SessionKeys.nonEmpty.
    by rewrite bool_decide_false.
  - unfold ChannelEndpointSchema in Hp. rewrite !andb_true_iff in Hp. destruct Hp as [[[Hct%nonempty_spec _] _] _].
    unfold SessionKeys.nonEmpty, endpointChannelId. rewrite bool_decide_false; [done|]. by apply nonempty_app_l.
  - apply andb_true_iff in Hp as [Hp _]. unfold ChannelEndpointSchema in Hp. rewrite !andb_true_iff in Hp.
    destruct Hp as [[[Hct%nonempty_spec _] _] _].
    unfold SessionKeys.nonEmpty, endpointChannelId. rewrite bool_decide_false; [done|]. by apply nonempty_app_l.
Qed.

Lemma partitionUser_nonempty s : ConversationScopeSchema s = true -> partitionUser (partition s) <> "".
Proof.
  unfold ConversationScopeSchema. rewrite !andb_true_iff. intros [_ Hp].
  destruct (partition s); simpl in *; try done; rewrite ?andb_true_iff in Hp; by apply nonempty_spec, Hp.
Qed.

(** A delivery origin whose user is not the one the partition names is refused. *)
Lemma other_user_refused lease ts o req trace now :
  turnScope lease = Some ts -> deliveryOrigin lease = Some o ->
  (DurableRuns.d_userId o <> partitionUser (partition (conversation ts)) \/ DurableRuns.d_userId o <> principal ts) ->
  resolveLeaseRequestPrincipal lease req trace now = Err PRINCIPAL_INVALID.
Proof.
  intros Hts Ho Hu. unfold resolveLeaseRequestPrincipal. rewrite Hts, Ho.
  destruct (conversationScopeToSessionKey (conversation ts)) as [k|] eqn:Ek; [|done].
  destruct (_ || _) eqn:Eg; [done|]. apply orb_false_iff in Eg as [_ Em]. apply negb_false_iff in Em.
  unfold originMatches in Em. rewrite !andb_true_iff, !String.eqb_eq in Em. destruct Em as [[[[_ Eu] _] _] _].
  rewrite (session_user _ _ Ek) in Eu. destruct Hu as [Hu|Hu]; [done|].
  unfold createResolvedRequestContext. cbn [s_sessionKey s_deliveryOrigin s_turnScope s_tenantId s_userId s_agentId s_channelType].
  destruct (SessionKeys.parseSessionKey _) as [key|]; [|done]. destruct (_ || _ || _); [done|].
  destruct (negb (DurableRuns.originValid o)); [done|]. cbv zeta.
  rewrite (proj2 (String.eqb_neq _ _) Hu), orb_true_r. done.
Qed.

Lemma sk_nonEmpty s : s <> "" -> SessionKeys.nonEmpty s = true.
Proof. intros. unfold SessionKeys.nonEmpty. by rewrite bool_decide_false. Qed.

Lemma dr_nonempty s : s <> "" -> DurableRuns.nonempty s = true.
Proof. intros H. unfold DurableRuns.nonempty. by rewrite (proj2 (String.eqb_neq _ _) H). Qed.

Lemma format_nonempty k : SessionKeys.tenantId k <> "" -> nonempty (SessionKeys.formatSessionKey k) = true.
Proof. intros H. apply nonempty_spec. unfold SessionKeys.formatSessionKey. by apply nonempty_app_l. Qed.

(** The parts of a routed turn that must not be empty. *)
Lemma routed_nonempty i ts :
  resolveRoutingPolicy i = Ok ts ->
  r_tenantId i <> "" /\ r_agentId i <> "" /\ r_principal i <> "" /\ channelType (r_endpoint i) <> "" /\
  conversationId (r_endpoint i) <> "".
Proof.
  intros (Hs & Hc & Hp & He)%routed_spec. apply schema_parts in Hs as (Hs1 & Hs2 & Hs3). rewrite Hc in Hs1. rewrite Hp in Hs2.
  rewrite He in Hs3. unfold ConversationScopeSchema in Hs1. unfold ChannelEndpointSchema in Hs3. simpl in Hs1.
  rewrite !andb_true_iff in Hs1. rewrite !andb_true_iff in Hs3. apply nonempty_spec in Hs2.
  by destruct Hs1 as [[?%nonempty_spec ?%nonempty_spec] _], Hs3 as [[[?%nonempty_spec _] ?%nonempty_spec] _].
Qed.

Lemma same_user_accepted i ts lease req trace now :
  resolveRoutingPolicy i = Ok ts -> turnScope lease = Some ts -> LeaseManager.agentId lease = r_agentId i ->
  deliveryOrigin lease = Some (turnOrigin i) -> 0 < now -> partitionUser (routedPartition i) = r_principal i ->
  exists p, resolveLeaseRequestPrincipal lease req trace now = Ok p.
Proof.
  intros Hi Hts Hag Ho Hnow Hu. destruct (routed_nonempty _ _ Hi) as (Ht & Ha & Hpr & Hct & Hcv).
  apply routed_spec in Hi as (Hs & Hc & Hp & He). pose proof (schema_parts _ Hs) as (Hs1 & _ & _).
  destruct (session_key_total _ Hs1) as (k & Hk & Hch).
  pose proof (session_user _ _ Hk) as Hku. pose proof (session_tenant _ _ Hk) as Hkt. rewrite Hc in Hku, Hkt. simpl in Hku, Hkt.
  rewrite Hu in Hku. unfold resolveLeaseRequestPrincipal. rewrite Hts, Ho, Hk, Hag, Hc. cbn [agentId option_fmap option_map].
  assert (Hm : originMatches (turnOrigin i) k (endpoint ts) = true).
  { unfold originMatches, turnOrigin. cbn -[String.eqb]. rewrite Hku, Hkt, He, !String.eqb_refl. by rewrite bool_decide_true. }
  rewrite Hm, String.eqb_refl, andb_false_r. cbn [negb orb].
  unfold createResolvedRequestContext, SessionKeys.parseSessionKey, leaseSessionKey.
  cbn -[String.eqb RequestContextSchema DurableRuns.originValid SessionKeys.formatSessionKey SessionKeys.nonEmpty].
  rewrite Hkt, Hku, Hch, !sk_nonEmpty by done. cbn -[String.eqb RequestContextSchema DurableRuns.originValid SessionKeys.formatSessionKey].
  rewrite !String.eqb_refl. cbn -[String.eqb RequestContextSchema DurableRuns.originValid SessionKeys.formatSessionKey].
  assert (DurableRuns.originValid (turnOrigin i) = true) as ->.
  { unfold DurableRuns.originValid, turnOrigin. cbn -[DurableRuns.nonempty]. by rewrite !dr_nonempty. }
  rewrite Hp, Hc. cbn -[String.eqb RequestContextSchema SessionKeys.formatSessionKey]. rewrite !String.eqb_refl.
  cbn -[String.eqb RequestContextSchema SessionKeys.formatSessionKey].
  match goal with |- context [RequestContextSchema ?x] => assert (RequestContextSchema x = true) as -> end.
  { unfold RequestContextSchema. cbn -[ResolvedTurnScopeSchema SessionKeys.formatSessionKey nonempty].
    rewrite Hs, format_nonempty, (proj2 (Z.ltb_lt _ _) Hnow) by done.
    by rewrite !(proj2 (nonempty_spec _)). }
  by eexists.
Qed.


Module Demo.

Definition group : ChannelEndpoint := Build_ChannelEndpoint "telegram" "bot" "group-7" None Shared.
Definition direct : ChannelEndpoint := Build_ChannelEndpoint "telegram" "bot" "chat-7" None Direct.

Definition routing (e : ChannelEndpoint) (m : DmScopeMode) : RoutingPolicyInput := mkRouting "tenant" "agent" e "alice" m.

Definition scopeOf (i : RoutingPolicyInput) : ResolvedTurnScope :=
  Build_ResolvedTurnScope (Build_Scope "tenant" "agent" (routedPartition i)) "alice" (r_endpoint i).

(** A lease minted in the turn. *)
Definition leaseOf (i : RoutingPolicyInput) (trust : ApprovalPolicy.UserTrustLevel) : LeaseInfo :=
  mkInfo "lease-1" "agent" ["orch:read"; "orch:spawn"; "orch:cron"; "orch:message"] "budget" "session" trust
    (Some (turnOrigin i)) (Some (scopeOf i)) "root-1" None None.


End Demo.
End LeaseTurns.
