(* ===== verification/LeaseEndpoint.v ===== *)
(** * The capability endpoint and the dispatch sink

  Models [handleCapCall] of [daemon/src/wiring/setup-capability-endpoint.ts], the
  one door through which jailed scripts reach the daemon, up to the single call
  it makes (an RPC through the sink or a tool of the executor), and the sink
  itself: the closure of [createRpcDispatch] ([daemon/src/api/rpc-dispatch.ts])
  with [assertNotAgentOrigin] and [resolveEffectiveMode].  The endpoint works on
  the leases, the bounded-autonomy service and the outward ledger.  The handlers,
  the configured modes and the cron store are parameters; audit events, logs and
  the replay recording are not modelled, nor is the socket. *)

From S2P Require Import Prelude CanonicalJson ConversationScope ApprovalPolicy AutonomyGuards RateLimiters BoundedAutonomy OutwardLedger LeaseTables LeaseManager LeasePrincipal.

Open Scope string_scope.
Open Scope list_scope.
Open Scope Z_scope.

Module LeaseEndpoint.
Import LeaseTables LeaseManager LeasePrincipal.

Definition CRON_MUTATION_METHODS : list string := ["cron.add"; "cron.update"; "cron.run"; "cron.remove"].

Definition OUTWARD_MESSAGE_METHODS : list string := ["message.send"; "message.reply"; "message.react"].

(** What the endpoint is wired with: the bounded-autonomy configuration (with
    [cronSelfMax] and the count of an agent's cron jobs), and whether an executor
    is present. *)
Record Deps := mkDeps {
  autonomyConfig : BoundedAutonomy.ResolvedAutonomy;
  cronSelfMax : option nat;
  cronJobCount : option (string -> nat);
  hasExecutor : bool
}.

(** The services a call may change; an absent one is not wired. *)
Record World := mkWorld {
  w_leases : State;
  w_autonomy : option BoundedAutonomy.Autonomy;
  w_ledger : option OutwardLedger.Db
}.

(** The readings of the clocks, and the trace id drawn. *)
Record Reads := mkReads {
  t_validate : nat -> Z;
  t_call : Z;
  t_churn : Z;
  t_ledger : Z;
  t_context : Z;
  t_traceId : string
}.

Record CapCall := mkCall {
  bearer : string;
  method : string;
  params : Params;
  operationId : option string;
  socketId : string
}.

(** What a call comes to: a refusal, an RPC through the sink, or a tool. *)
Inductive Outcome :=
| Refused (e : CallError)
| Rpced (lease : LeaseInfo) (ctx : RequestContext) (method : string) (params : Params)
| Executed (lease : LeaseInfo) (ctx : RequestContext) (tool : string) (args : Params).

Definition INVALID_LEASE : CallError := Plain "lease invalid/expired/revoked or audience mismatch".

Definition denylisted (tool : string) : CallError :=
  Plain ("Tool " +:+ tool +:+ " is denylisted and not reachable from the capability endpoint").

Definition notWired (tool : string) : CallError :=
  Plain ("tool.invoke executor route for " +:+ CanonicalJson.dq +:+ tool +:+ CanonicalJson.dq +:+
         " requires a toolInvokeExecutor (not wired)").

Definition wlen (s : string) : nat := String.length s.

Definition badOperationId (o : option string) : bool :=
  match o with Some s => (wlen s =? 0)%nat || (256 <? wlen s)%nat | None => false end.

Definition setLeases (w : World) (l : State) : World := mkWorld l (w_autonomy w) (w_ledger w).
Definition setAutonomy (w : World) (a : BoundedAutonomy.Autonomy) : World := mkWorld (w_leases w) (Some a) (w_ledger w).
Definition setLedger (w : World) (d : OutwardLedger.Db) : World := mkWorld (w_leases w) (w_autonomy w) (Some d).

Definition jstring (v : option Val) : option string :=
  match v with Some (VJson (CanonicalJson.JString s)) => Some s | _ => None end.

(** [args] as an object of named arguments; anything else is empty. *)
Definition namedArgs (v : option Val) : Params :=
  match v with Some (VJson (CanonicalJson.JObject es)) => map (fun e => (e.1, VJson e.2)) es | _ => [] end.

Section Endpoint.
Variable sha256 : string -> string.
Variable deps : Deps.

Definition consultRateLimit (lease : LeaseInfo) (c : CapCall) (t : Reads) (w : World) : Result unit CallError * World :=
  match w_autonomy w with
  | None => (Ok tt, w)
  | Some a =>
      let '(r, a') := BoundedAutonomy.tryCall (autonomyConfig deps) a (rootRunId lease) (socketId c) (t_call t) in
      (match r with Ok _ => Ok tt | Err _ => Err (Plain "capability call rate-limited") end, setAutonomy w a')
  end.

Definition consultChurn (lease : LeaseInfo) (t : Reads) (w : World) : Result unit CallError * World :=
  match w_autonomy w with
  | None => (Ok tt, w)
  | Some a =>
      let '(r, a') := BoundedAutonomy.tryChurn (autonomyConfig deps) a (rootRunId lease) (t_churn t) in
      (match r with Ok _ => Ok tt | Err _ => Err (Plain "capability connection churn-limited") end, setAutonomy w a')
  end.

Definition allocateOutwardStepIfNeeded (m root : string) (op : option string) (t : Reads) (w : World)
    : Result (option Z) CallError * World :=
  match w_ledger w with
  | None => (Ok None, w)
  | Some d =>
      if negb (has OUTWARD_MESSAGE_METHODS m) then (Ok None, w)
      else match op with
      | None => (Err (Plain "durable outward call requires a valid caller operation identity"), w)
      | Some o =>
          if badOperationId op then (Err (Plain "durable outward call requires a valid caller operation identity"), w)
          else
            let '(r, d') := OutwardLedger.allocateStep sha256 root o (t_ledger t) d in
            (match r with Ok n => Ok (Some n) | Err e => Err (Plain e) end, setLedger w d')
      end
  end.

Definition rpcOutcome (lease : LeaseInfo) (m : string) (r : Result (RequestContext * Params) string) : Outcome :=
  match r with Ok (ctx, ps) => Rpced lease ctx m ps | Err e => Refused (Plain e) end.

(** [handleToolInvoke] for a tool with the capability [cap]. *)
Definition handleToolInvoke (lease : LeaseInfo) (tool cap : string) (args : Params) (t : Reads) : Outcome :=
  match requireCapability (Some (caps lease)) cap with
  | Err e => Refused e
  | Ok _ =>
      match prop TOOL_ROUTE_MAP tool with
      | Own (Rpc m) => rpcOutcome lease m (validatedLeaseRpc lease args [] None None false (t_traceId t) (t_context t))
      | Own Executor =>
          match resolveLeaseRequestPrincipal lease false (t_traceId t) (t_context t) with
          | Err e => Refused (Plain e)
          | Ok p =>
              if hasExecutor deps then Executed lease (context p) tool (stripInternalFields args)
              else Refused (notWired tool)
          end
      | _ => Refused (Plain "route is undefined")
      end
  end.

(** The branch of [handleCapCall] for [tool.invoke]. *)
Definition toolInvoke (c : CapCall) (t : Reads) (w : World) : Outcome * World :=
  let tool := default "" (jstring (mget (params c) "tool")) in
  let args := namedArgs (mget (params c) "args") in
  match prop TOOL_CAPABILITY_MAP tool with
  | Undefined => (Refused (CapabilityDenied "orch:read"), w)
  | cap =>
      if has SUB_AGENT_TOOL_DENYLIST tool
      then (Refused (denylisted tool), w)
      else
        let '(answer, l) := validate (t_validate t) (bearer c) "tool.invoke" (Some tool) (w_leases w) in
        let w := setLeases w l in
        match answer with
        | None => (Refused INVALID_LEASE, w)
        | Some lease =>
            match consultRateLimit lease c t w with
            | (Err e, w) => (Refused e, w)
            | (Ok _, w) =>
                match cap with
                | Own cap => (handleToolInvoke lease tool cap args t, w)
                | _ => (Refused (CapabilityDenied ""), w)
                end
            end
        end
  end.

(** The guards of a cron mutation. *)
Definition cronRefused (lease : LeaseInfo) (c : CapCall) (w : World) : bool :=
  bool_decide (jstring (mget (params c) "payload_kind") = Some "system_event") ||
  match cronSelfMax deps, w_autonomy w with
  | Some n, Some _ => (n <=? BoundedAutonomy.cronCount (cronJobCount deps) (LeaseManager.agentId lease))%nat
  | _, _ => false
  end.

(** The branch for every other method. *)
Definition directCall (c : CapCall) (t : Reads) (w : World) : Outcome * World :=
  let '(answer, l) := validate (t_validate t) (bearer c) (method c) None (w_leases w) in
  let w := setLeases w l in
  match answer with
  | None => (Refused INVALID_LEASE, w)
  | Some lease =>
      match consultRateLimit lease c t w with
      | (Err e, w) => (Refused e, w)
      | (Ok _, w) =>
          match consultChurn lease t w with
          | (Err e, w) => (Refused e, w)
          | (Ok _, w) =>
              if has CRON_MUTATION_METHODS (method c) then
                if cronRefused lease c w then (Refused (CapabilityDenied "orch:cron"), w)
                else
                  (rpcOutcome lease (method c)
                     (validatedLeaseRpc lease (params c) [("agentId", VStr (LeaseManager.agentId lease))] None (operationId c)
                        false (t_traceId t) (t_context t)), w)
              else
                match allocateOutwardStepIfNeeded (method c) (rootRunId lease) (operationId c) t w with
                | (Err e, w) => (Refused e, w)
                | (Ok step, w) =>
                    (rpcOutcome lease (method c)
                       (validatedLeaseRpc lease (params c) [] step (operationId c) (String.eqb (method c) "session.spawn")
                          (t_traceId t) (t_context t)), w)
                end
          end
      end
  end.

Definition handleCapCall (c : CapCall) (t : Reads) (w : World) : Outcome * World :=
  if badOperationId (operationId c)
  then (Refused (Plain "outward operation identity must contain 1 to 256 characters"), w)
  else
    let next := if decide (method c = "tool.invoke") then toolInvoke c t w else directCall c t w in
    match denylistToolForMethod (method c) with
    | Own tool => if has SUB_AGENT_TOOL_DENYLIST tool then (Refused (denylisted tool), w) else next
    | _ => next
    end.
End Endpoint.

(** ** The sink *)

(** [assertNotAgentOrigin] *)
Definition assertNotAgentOrigin (ps : Params) (m : string) : Result unit CallError :=
  match mget ps "_agentId" with
  | None => Ok tt
  | Some _ =>
      if decide (jstring (mget ps "_trustLevel") = Some "admin") then Ok tt
      else Err (Plain ("Control-plane method " +:+ m +:+ " is not reachable from a non-admin agent origin"))
  end.

Inductive AutonomyMode := default_ | accept_reversible | unattended | max.

Definition parseMode (s : string) : option AutonomyMode :=
  if decide (s = "default") then Some default_
  else if decide (s = "accept-reversible") then Some accept_reversible
  else if decide (s = "unattended") then Some unattended
  else if decide (s = "max") then Some max
  else None.

Definition resolveEffectiveMode (raw : option string) : AutonomyMode :=
  match raw with Some s => default default_ (parseMode s) | None => default_ end.

(** The breaker with its limit and the demoted roots, when wired. *)
Record Sink := mkSink {
  breaker : option (nat * gmap string nat);
  evicted : option (gset string)
}.

Inductive Escalation := denial_breaker_tripped (root : string) | would_ask_denied (root : string).

(** What a dispatch does beside answering. *)
Inductive Effect := Killed (root : string) | Escalated (e : Escalation).

Section Sink.
(** The registered handlers, and the configured mode of each agent. *)
Variable handlers : string -> option (Params -> Result Val CallError).
Variable agentMode : string -> option string.

Definition effectiveMode (ps : Params) (root agent : option string) (s : Sink) : AutonomyMode :=
  if match root, evicted s with Some r, Some e => EvictRegistry.isEvicted e r | _, _ => false end then default_
  else match jstring (mget ps "_autonomyMode") with
       | Some m => resolveEffectiveMode (Some m)
       | None => resolveEffectiveMode (match agent with Some a => agentMode a | None => None end)
       end.

(** After a capability denial: the breaker of the root, or an escalation. *)
Definition onDenied (ps : Params) (root agent : option string) (s : Sink) : list Effect * Sink :=
  let mode := effectiveMode ps root agent s in
  match root, breaker s with
  | Some r, Some (N, counts) =>
      let '(v, counts) := DenialBreaker.recordDenial N counts r in
      if DenialBreaker.tripped v then
        ([Killed r; Escalated (denial_breaker_tripped r)],
         mkSink (Some (N, DenialBreaker.evict counts r)) ((fun e => EvictRegistry.clear e r) <$> evicted s))
      else
        (match mode with unattended => [Escalated (would_ask_denied r)] | _ => [] end, mkSink (Some (N, counts)) (evicted s))
  | _, _ => (match mode with unattended => [Escalated (would_ask_denied "")] | _ => [] end, s)
  end.

Definition onAllowed (root : option string) (s : Sink) : Sink :=
  match root, breaker s with
  | Some r, Some (N, counts) => mkSink (Some (N, DenialBreaker.recordAllow counts r)) (evicted s)
  | _, _ => s
  end.

Definition dispatch (m : string) (ps : Params) (s : Sink) : Result Val CallError * list Effect * Sink :=
  match handlers m with
  | None => (Err (Plain ("Unknown RPC method: " +:+ m)), [], s)
  | Some handler =>
      match (if has ADMIN_METHODS m then assertNotAgentOrigin ps m else Ok tt) with
      | Err e => (Err e, [], s)
      | Ok _ =>
          let agent := jstring (mget ps "_agentId") in
          let root := match agent with Some _ => jstring (mget ps "_rootRunId") | None => None end in
          match handler ps with
          | Ok v => (Ok v, [], onAllowed root s)
          | Err (CapabilityDenied c) => let '(fx, s) := onDenied ps root agent s in (Err (CapabilityDenied c), fx, s)
          | Err e => (Err e, [], s)
          end
      end
  end.
End Sink.

End LeaseEndpoint.
