(* ===== verification/LeaseEndpointFacts.v ===== *)
(** * What an outcome of the endpoint shows

  Lemmas on [handleCapCall]: the parameters it hands on, the lease and the table
  entry that admitted a call, and what it does to the leases. *)

From S2P Require Import Prelude CanonicalJson ConversationScope ApprovalPolicy BoundedAutonomy OutwardLedger LeaseTables LeaseManager LeaseManagerFacts LeaseHistory LeasePrincipal LeaseEndpoint.

Open Scope string_scope.
Open Scope list_scope.
Open Scope Z_scope.

Module LeaseEndpointFacts.
Import LeaseTables LeaseManager LeaseHistory LeasePrincipal LeaseEndpoint.

(** ** Parameters *)

Lemma mget_setAll fields : forall p k,
  NoDup (mkeys fields) ->
  mget (setAll fields p) k = match mget fields k with Some v => Some v | None => mget p k end.
Proof.
  induction fields as [|[f v] fs IH]; intros p k Hnd; [done|]. apply NoDup_cons in Hnd as [Hf Hnd].
  change (setAll ((f, v) :: fs) p) with (setAll fs (mset p f v)). rewrite IH by done. simpl. rewrite mget_mset.
  case_decide; subst; [|done]. by rewrite (proj2 (mget_None fs f)).
Qed.

(** Every name the endpoint injects. *)
Definition INJECTED : list string := [
  "_agentId"; "_capabilities"; "_rootRunId"; "_leaseId"; "_trustLevel"; "_tenantId"; "_userId"; "_sessionKey";
  "_callerSessionKey"; "_callerConversationScope"; "_parentLeaseId"; "_checkpointId"; "_callerChannelType";
  "_callerChannelId"; "_deliveryTarget"; "_outwardStepIndex"; "_outwardOperationId"].

Lemma optional_sublist k v : sublist (mkeys (optional k v)) [k].
Proof. destruct v; simpl; [done|apply sublist_nil_l]. Qed.

Lemma trustedFields_sublist lease p step op : sublist (mkeys (trustedFields lease p step op)) INJECTED.
Proof.
  unfold trustedFields, mkeys. rewrite !fmap_app.
  change INJECTED with (["_agentId"; "_capabilities"; "_rootRunId"; "_leaseId"; "_trustLevel"; "_tenantId"; "_userId";
    "_sessionKey"; "_callerSessionKey"; "_callerConversationScope"] ++ ["_parentLeaseId"] ++ ["_checkpointId"] ++
    ["_callerChannelType"] ++ ["_callerChannelId"] ++ ["_deliveryTarget"] ++ ["_outwardStepIndex"] ++
    ["_outwardOperationId"]).
  apply sublist_app; [done|]. repeat (apply sublist_app; [apply optional_sublist|]). apply optional_sublist.
Qed.

Lemma trustedFields_nodup lease p step op : NoDup (mkeys (trustedFields lease p step op)).
Proof.
  eapply sublist_NoDup; [|apply trustedFields_sublist]. by apply (bool_decide_unpack (NoDup INJECTED)).
Qed.

Lemma trustedFields_None lease p step op k : k ∉ INJECTED -> mget (trustedFields lease p step op) k = None.
Proof.
  intros Hk. apply mget_None. intros Hin. apply Hk.
  eapply elem_of_submseteq; [exact Hin|]. apply sublist_submseteq, trustedFields_sublist.
Qed.

(** Every injected name is one that is stripped from the wire. *)
Lemma injected_internal : forallb (has INTERNAL_FIELD_NAMES) INJECTED = true.
Proof. by vm_compute. Qed.

Definition isInternal (k : string) : bool := has INTERNAL_FIELD_NAMES k.

Lemma internal_stripped k : isInternal k = true -> has ("__proto__" :: INTERNAL_FIELD_NAMES) k = true.
Proof. unfold isInternal. rewrite !has_spec. intros. by right. Qed.

Lemma public_kept k : isInternal k = false -> k <> "__proto__" -> has ("__proto__" :: INTERNAL_FIELD_NAMES) k = false.
Proof. unfold isInternal. rewrite !has_false, not_elem_of_cons. auto. Qed.

Lemma injected_public k : isInternal k = false -> k ∉ INJECTED.
Proof.
  intros Hk Hin. pose proof injected_internal as Hall. rewrite forallb_forall in Hall.
  apply list_elem_of_In, Hall in Hin. unfold isInternal in Hk. congruence.
Qed.

Lemma validatedLeaseRpc_Ok lease ps pub step op req trace now ctx out :
  validatedLeaseRpc lease ps pub step op req trace now = Ok (ctx, out) ->
  exists p, resolveLeaseRequestPrincipal lease req trace now = Ok p /\ ctx = context p /\
    out = setAll (trustedFields lease p step op) (setAll pub (stripInternalFields ps)).
Proof.
  unfold validatedLeaseRpc. destruct (resolveLeaseRequestPrincipal lease req trace now) as [p|]; [|done].
  intros [= <- <-]. by exists p.
Qed.

(** ** How a call gets through *)

Lemma prop_Own {V} (table : list (string * V)) k v : prop table k = Own v <-> mget table k = Some v.
Proof. unfold prop. destruct (mget table k); [naive_solver|]. destruct (has _ k); naive_solver. Qed.

(** Every management method belongs to a denylisted tool. *)
Lemma denylisted_owner m tool : denylistToolForMethod m = Own tool -> has SUB_AGENT_TOOL_DENYLIST tool = true.
Proof.
  intros Hm%prop_Own%mget_elem_of. pose proof (proj2 tables_load) as Hall. unfold denylistedMethodsSound in Hall.
  rewrite forallb_forall in Hall. apply (Hall (m, tool)). by apply list_elem_of_In.
Qed.

(** No cron mutation is an outward message. *)
Lemma cron_not_outward m : has CRON_MUTATION_METHODS m = true -> has OUTWARD_MESSAGE_METHODS m = false.
Proof. intros Hm%has_spec. unfold CRON_MUTATION_METHODS in Hm. by repeat (apply elem_of_cons in Hm as [->|Hm]); [..|apply not_elem_of_nil in Hm]. Qed.

Lemma route_not_cron tool m : mget TOOL_ROUTE_MAP tool = Some (Rpc m) -> has CRON_MUTATION_METHODS m <> true.
Proof.
  intros Hm%mget_elem_of.
  assert (Hall : forallb (fun e => match e.2 with Rpc m => negb (has CRON_MUTATION_METHODS m) | Executor => true end)
    TOOL_ROUTE_MAP = true) by (by vm_compute).
  rewrite forallb_forall in Hall. specialize (Hall (tool, Rpc m) (proj1 (list_elem_of_In _ _) Hm)).
  apply negb_true_iff in Hall. congruence.
Qed.

Section Facts.
Variable sha256 : string -> string.
Variable deps : Deps.

(** The step of the outward ledger a direct call carries. *)
Definition outwardStep (c : CapCall) (lease : LeaseInfo) (t : Reads) (w : World) (step : option Z) : Prop :=
  match w_ledger w with
  | Some d =>
      has OUTWARD_MESSAGE_METHODS (method c) = true ->
      exists op n d', operationId c = Some op /\ step = Some n /\
        OutwardLedger.allocateStep sha256 (rootRunId lease) op (t_ledger t) d = (Ok n, d')
  | None => True
  end.

Definition innerTool (c : CapCall) : string := default "" (jstring (mget (params c) "tool")).
Definition innerArgs (c : CapCall) : Params := namedArgs (mget (params c) "args").

(** What the public parameters of a direct call are forced to. *)
Definition forced (c : CapCall) (lease : LeaseInfo) : list (string * Val) :=
  if has CRON_MUTATION_METHODS (method c) then [("agentId", VStr (LeaseManager.agentId lease))] else [].

Inductive Through (c : CapCall) (t : Reads) (w : World) (lease : LeaseInfo) : Outcome -> Prop :=
| Through_direct p req step ps :
    method c <> "tool.invoke" -> inAudience lease (method c) None = true ->
    mget DENYLISTED_RPC_METHODS (method c) = None ->
    resolveLeaseRequestPrincipal lease req (t_traceId t) (t_context t) = Ok p ->
    (has CRON_MUTATION_METHODS (method c) = true -> cronRefused deps lease c w = false) ->
    outwardStep c lease t w step ->
    ps = setAll (trustedFields lease p step (operationId c)) (setAll (forced c lease) (stripInternalFields (params c))) ->
    Through c t w lease (Rpced lease (context p) (method c) ps)
| Through_route p cap m ps :
    mget TOOL_CAPABILITY_MAP (innerTool c) = Some cap -> cap ∈ caps lease ->
    mget TOOL_ROUTE_MAP (innerTool c) = Some (Rpc m) ->
    resolveLeaseRequestPrincipal lease false (t_traceId t) (t_context t) = Ok p ->
    ps = setAll (trustedFields lease p None None) (stripInternalFields (innerArgs c)) ->
    Through c t w lease (Rpced lease (context p) m ps)
| Through_tool p cap :
    mget TOOL_CAPABILITY_MAP (innerTool c) = Some cap -> cap ∈ caps lease ->
    mget TOOL_ROUTE_MAP (innerTool c) = Some Executor ->
    resolveLeaseRequestPrincipal lease false (t_traceId t) (t_context t) = Ok p ->
    Through c t w lease (Executed lease (context p) (innerTool c) (stripInternalFields (innerArgs c))).

(** The parameters of an RPC are the stripped ones of the call or of its tool,
    overridden by what is forced and by the trusted fields. *)
Lemma rpced_params c t w l lease ctx m ps :
  Through c t w l (Rpced lease ctx m ps) ->
  exists p step op pub base, context p = ctx /\ l = lease /\
    ps = setAll (trustedFields lease p step op) (setAll pub (stripInternalFields base)) /\
    (base = params c \/ base = innerArgs c) /\ (pub = [] \/ pub = [("agentId", VStr (LeaseManager.agentId lease))]) /\
    (has CRON_MUTATION_METHODS m = true -> pub <> []).
Proof.
  intros HT. inversion HT as [p req step ps' Hm Ha Hd Hp Hcr Ho Eps|p cap m' ps' Hc Hin Hr Hp Eps|]; subst.
  - exists p, step, (operationId c), (forced c lease), (params c). unfold forced. repeat split; [by left| |].
    + destruct (has _ _); auto.
    + by intros ->.
  - exists p, None, None, [], (innerArgs c). repeat split; [by right|by left|].
    intros Hcr. exfalso. by apply (route_not_cron _ _ Hr).
Qed.

Definition agentOnly (lease : LeaseInfo) (pub : list (string * Val)) : Prop :=
  pub = [] \/ pub = [("agentId", VStr (LeaseManager.agentId lease))].

Lemma trusted_mget lease p step op pub base k :
  agentOnly lease pub ->
  mget (setAll (trustedFields lease p step op) (setAll pub (stripInternalFields base))) k =
  match mget (trustedFields lease p step op) k with
  | Some v => Some v
  | None => match mget pub k with Some v => Some v | None => mget (stripInternalFields base) k end
  end.
Proof.
  intros Hpub. rewrite mget_setAll by apply trustedFields_nodup. destruct (mget (trustedFields _ _ _ _) k); [done|].
  apply mget_setAll. destruct Hpub as [->| ->]; [apply NoDup_nil_2|apply NoDup_singleton].
Qed.

Lemma trusted_internal lease p step op pub base k :
  agentOnly lease pub -> isInternal k = true ->
  mget (setAll (trustedFields lease p step op) (setAll pub (stripInternalFields base))) k =
  mget (trustedFields lease p step op) k.
Proof.
  intros Hpub Hk. rewrite trusted_mget by done. destruct (mget (trustedFields _ _ _ _) k); [done|].
  rewrite mget_strip, (internal_stripped k Hk). destruct Hpub as [->| ->]; [done|]. simpl. case_decide; [by subst|done].
Qed.

(** The internal fields of an RPC. *)
Lemma rpced_internal c t w l lease ctx m ps :
  Through c t w l (Rpced lease ctx m ps) ->
  exists p step op, l = lease /\ forall k, isInternal k = true -> mget ps k = mget (trustedFields lease p step op) k.
Proof.
  intros (p & step & op & pub & base & _ & -> & -> & _ & Hpub & _)%rpced_params. exists p, step, op.
  split; [done|]. intros k Hk. by apply trusted_internal.
Qed.

Definition isRefused (o : Outcome) : Prop := exists e, o = Refused e.

Lemma validate_audience clock b m tool st lease st' :
  validate clock b m tool st = (Some lease, st') -> inAudience lease m tool = true.
Proof. intros [= Hs _]. apply scan_Some in Hs. naive_solver. Qed.

Lemma consultRateLimit_frame lease c t w r w' :
  consultRateLimit deps lease c t w = (r, w') ->
  w_leases w' = w_leases w /\ w_ledger w' = w_ledger w /\ (w_autonomy w' = None <-> w_autonomy w = None).
Proof.
  unfold consultRateLimit. destruct (w_autonomy w) as [a|] eqn:Ea; [|intros [= <- <-]; by rewrite Ea].
  destruct (BoundedAutonomy.tryCall _ _ _ _ _) as [x a']. by intros [= <- <-].
Qed.

Lemma consultChurn_frame lease t w r w' :
  consultChurn deps lease t w = (r, w') ->
  w_leases w' = w_leases w /\ w_ledger w' = w_ledger w /\ (w_autonomy w' = None <-> w_autonomy w = None).
Proof.
  unfold consultChurn. destruct (w_autonomy w) as [a|] eqn:Ea; [|intros [= <- <-]; by rewrite Ea].
  destruct (BoundedAutonomy.tryChurn _ _ _ _) as [x a']. by intros [= <- <-].
Qed.

Lemma cronRefused_frame lease c w w' :
  (w_autonomy w' = None <-> w_autonomy w = None) -> cronRefused deps lease c w' = cronRefused deps lease c w.
Proof.
  intros H. unfold cronRefused. f_equal. destruct (cronSelfMax deps) as [n|]; [|done].
  destruct (w_autonomy w') as [a'|], (w_autonomy w) as [a|]; try done; naive_solver.
Qed.

Lemma allocate_step c lease t w step w' :
  allocateOutwardStepIfNeeded sha256 (method c) (rootRunId lease) (operationId c) t w = (Ok step, w') ->
  w_leases w' = w_leases w /\ outwardStep c lease t w step.
Proof.
  unfold allocateOutwardStepIfNeeded, outwardStep. destruct (w_ledger w) as [d|]; [|by intros [= <- <-]].
  destruct (has _ _); simpl; [|by intros [= <- <-]]. destruct (operationId c) as [op|] eqn:Eop; [|done].
  destruct (badOperationId _); [done|].
  destruct (OutwardLedger.allocateStep sha256 (rootRunId lease) op (t_ledger t) d) as [[n|e] d'] eqn:Ea; [|done].
  intros [= <- <-]. split; [done|]. intros _. by exists op, n, d'.
Qed.

Lemma handleToolInvoke_through c t w lease cap :
  mget TOOL_CAPABILITY_MAP (innerTool c) = Some cap ->
  let o := handleToolInvoke deps lease (innerTool c) cap (innerArgs c) t in isRefused o \/ Through c t w lease o.
Proof.
  intros Hc. unfold handleToolInvoke. destruct (requireCapability _ cap) as [[]|] eqn:Er; [|left; by eexists].
  apply requireCapability_Ok in Er. destruct (prop TOOL_ROUTE_MAP _) as [[m|]| |] eqn:Ep; [| |left; by eexists..].
  - apply prop_Own in Ep. unfold rpcOutcome. destruct (validatedLeaseRpc _ _ _ _ _ _ _ _) as [[ctx ps]|] eqn:Ev; [|left; by eexists].
    apply validatedLeaseRpc_Ok in Ev as (p & Hp & -> & ->). right. by eapply Through_route.
  - apply prop_Own in Ep. destruct (resolveLeaseRequestPrincipal _ _ _ _) as [p|] eqn:Hp; [|left; by eexists].
    destruct (hasExecutor deps); [|left; by eexists]. right. by eapply Through_tool.
Qed.

(** Every outcome: a refusal before the lease is looked at, or what follows from
    the answer of [validate]. *)
Definition Judged (c : CapCall) (t : Reads) (w : World) (o : Outcome) (w' : World) (tool : option string) : Prop :=
  let v := validate (t_validate t) (bearer c) (method c) tool (w_leases w) in
  w_leases w' = v.2 /\ (isRefused o \/ exists lease, v.1 = Some lease /\ Through c t w lease o).

Lemma toolInvoke_judged c t w o w' :
  method c = "tool.invoke" -> toolInvoke deps c t w = (o, w') ->
  (w' = w /\ isRefused o) \/ exists tool, Judged c t w o w' tool.
Proof.
  intros Em. unfold toolInvoke. fold (innerTool c) (innerArgs c).
  destruct (prop TOOL_CAPABILITY_MAP (innerTool c)) as [cap| |] eqn:Ec; [| |intros [= <- <-]; left; split; [done|by eexists]];
    (destruct (has SUB_AGENT_TOOL_DENYLIST _); [intros [= <- <-]; left; split; [done|by eexists]|]);
    intros E; right; exists (Some (innerTool c)); unfold Judged; rewrite Em; cbv zeta; revert E;
    (destruct (validate _ _ _ _ _) as [[lease|] l] eqn:Ev; [|intros [= <- <-]; split; [done|left; by eexists]]);
    destruct (consultRateLimit _ _ _ _ _) as [[[]|e] w1] eqn:Er; apply consultRateLimit_frame in Er as (Hl & _);
    intros [= <- <-]; (split; [done|]); try (left; by eexists).
  apply prop_Own in Ec. destruct (handleToolInvoke_through c t w lease cap Ec) as [H|H]; [by left|].
  right. by exists lease.
Qed.

Lemma directCall_judged c t w o w' :
  method c <> "tool.invoke" -> mget DENYLISTED_RPC_METHODS (method c) = None ->
  directCall sha256 deps c t w = (o, w') -> Judged c t w o w' None.
Proof.
  intros Em Hd. unfold directCall, Judged. cbv zeta.
  destruct (validate _ _ _ _ _) as [[lease|] l] eqn:Ev; [|intros [= <- <-]; split; [done|left; by eexists]].
  apply validate_audience in Ev.
  destruct (consultRateLimit _ _ _ _ _) as [[[]|e] w1] eqn:Er; apply consultRateLimit_frame in Er as (Hl1 & Hg1 & Ha1);
    [|intros [= <- <-]; split; [done|left; by eexists]].
  destruct (consultChurn _ _ _ _) as [[[]|e] w2] eqn:Ech; apply consultChurn_frame in Ech as (Hl2 & Hg2 & Ha2);
    [|intros [= <- <-]; split; [by rewrite Hl2, Hl1|left; by eexists]].
  assert (Hl : w_leases w2 = l) by (rewrite Hl2, Hl1; done).
  assert (Hg : w_ledger w2 = w_ledger w) by (rewrite Hg2, Hg1; done).
  assert (Hcr : cronRefused deps lease c w2 = cronRefused deps lease c w) by (apply cronRefused_frame; rewrite Ha2, Ha1; done).
  destruct (has CRON_MUTATION_METHODS (method c)) eqn:Ecr.
  - destruct (cronRefused deps lease c w2) eqn:Ecf; intros [= <- <-]; (split; [done|]); [left; by eexists|].
    unfold rpcOutcome. destruct (validatedLeaseRpc _ _ _ _ _ _ _ _) as [[ctx ps]|] eqn:Ep; [|left; by eexists].
    apply validatedLeaseRpc_Ok in Ep as (p & Hp & -> & ->). right. exists lease. split; [done|].
    eapply Through_direct; [done..|congruence| |unfold forced; by rewrite Ecr].
    unfold outwardStep. destruct (w_ledger w); [|done]. intros Ho. by rewrite (cron_not_outward _ Ecr) in Ho.
  - destruct (allocateOutwardStepIfNeeded _ _ _ _ _ _) as [[step|e] w3] eqn:Eo.
    + apply allocate_step in Eo as [Hl3 Hst]. intros [= <- <-]. split; [by rewrite Hl3|].
      unfold rpcOutcome. destruct (validatedLeaseRpc _ _ _ _ _ _ _ _) as [[ctx ps]|] eqn:Ep; [|left; by eexists].
      apply validatedLeaseRpc_Ok in Ep as (p & Hp & -> & ->). right. exists lease. split; [done|].
      eapply Through_direct; [done..| | |unfold forced; by rewrite Ecr]; [by rewrite Ecr|].
      unfold outwardStep in *. by rewrite Hg in Hst.
    + intros [= <- <-]. split; [|left; by eexists].
      assert (w_leases w3 = w_leases w2) as ->; [|done]. revert Eo. clear. unfold allocateOutwardStepIfNeeded.
      destruct (w_ledger w2); [|done]. destruct (negb _); [done|]. destruct (operationId c); [|by intros [= _ <-]].
      destruct (badOperationId _); [by intros [= _ <-]|].
      destruct (OutwardLedger.allocateStep _ _ _ _ _) as [[] d']; [done|]. by intros [= _ <-].
Qed.

Lemma handleCapCall_judged c t w o w' :
  handleCapCall sha256 deps c t w = (o, w') -> (w' = w /\ isRefused o) \/ exists tool, Judged c t w o w' tool.
Proof.
  unfold handleCapCall. destruct (badOperationId _); [intros [= <- <-]; left; split; [done|by eexists]|]. cbv zeta.
  assert (Hnext : mget DENYLISTED_RPC_METHODS (method c) = None ->
    (if decide (method c = "tool.invoke") then toolInvoke deps c t w else directCall sha256 deps c t w) = (o, w') ->
    (w' = w /\ isRefused o) \/ exists tool, Judged c t w o w' tool).
  { intros Hd. case_decide as Em; intros E; [by apply toolInvoke_judged|]. right. exists None. by apply directCall_judged. }
  destruct (denylistToolForMethod (method c)) as [tool| |] eqn:Ed.
  - rewrite (denylisted_owner _ _ Ed). intros [= <- <-]. left. split; [done|by eexists].
  - apply Hnext. unfold denylistToolForMethod, prop in Ed. by destruct (mget _ _).
  - apply Hnext. unfold denylistToolForMethod, prop in Ed. by destruct (mget _ _).
Qed.
End Facts.
End LeaseEndpointFacts.
