(* ===== verification/LeaseEndpointTheorems.v ===== *)
(** * What the capability endpoint guarantees

  From the wire to the handler: which calls get through and with what authority,
  that nothing on the wire can pass for an internal field, that revoked leases
  reach nothing, and that a loop of denials is cut.

  [LeaseEndpointDemo]: a lease minted in a direct chat, calls that come with it, and
  the behaviours of the endpoint that its comments do not tell. *)

From S2P Require Import Prelude ConversationScope RateLimiters AutonomyGuards BoundedAutonomy CanonicalJson ApprovalPolicy SessionKeys OutwardLedger DurableRuns LeaseTables LeaseManager LeaseManagerFacts LeaseHistory LeaseTheorems LeasePrincipal LeaseEndpoint LeaseEndpointFacts.

Open Scope string_scope.
Open Scope list_scope.
Open Scope Z_scope.

Module LeaseEndpointTheorems.
Import LeaseTables LeaseManager LeaseHistory LeasePrincipal LeaseEndpoint LeaseEndpointFacts.

(** ** The tables *)

Definition routesSound : bool :=
  forallb (fun e => match e.2 with
                    | Rpc m => negb (has (mkeys DENYLISTED_RPC_METHODS) m) && negb (has ADMIN_SCOPED_RPC_METHODS m)
                    | Executor => true
                    end) TOOL_ROUTE_MAP.

Lemma routes_sound : routesSound = true.
Proof. by vm_compute. Qed.

(** No tool leads to a management method or to an admin method. *)
Lemma route_method tool m :
  mget TOOL_ROUTE_MAP tool = Some (Rpc m) ->
  mget DENYLISTED_RPC_METHODS m = None /\ has ADMIN_SCOPED_RPC_METHODS m = false.
Proof.
  intros Hm%mget_elem_of. pose proof routes_sound as Hall. unfold routesSound in Hall. rewrite forallb_forall in Hall.
  specialize (Hall (tool, Rpc m) (proj1 (list_elem_of_In _ _) Hm)). apply andb_true_iff in Hall as [H1 H2].
  apply negb_true_iff in H1, H2. split; [by apply mget_None, has_false|done].
Qed.

Lemma tool_not_denylisted tool cap : mget TOOL_CAPABILITY_MAP tool = Some cap -> tool ∉ SUB_AGENT_TOOL_DENYLIST.
Proof.
  intros Hm. apply has_false.
  assert (Hall : forallb (fun k => negb (has SUB_AGENT_TOOL_DENYLIST k)) (mkeys TOOL_CAPABILITY_MAP) = true) by (by vm_compute).
  rewrite forallb_forall in Hall. apply negb_true_iff, Hall, list_elem_of_In, mget_is_Some. by eexists.
Qed.

(** Every admin-only method is admin-scoped. *)
Lemma admin_methods_scoped m : has ADMIN_METHODS m = true -> has ADMIN_SCOPED_RPC_METHODS m = true.
Proof.
  rewrite !has_spec. unfold ADMIN_METHODS, ADMIN_SCOPED_RPC_METHODS. rewrite !list_elem_of_fmap.
  intros (e & -> & He). exists e. split; [done|].
  apply list_elem_of_In, filter_In in He as [He Hs]. apply list_elem_of_In, filter_In.
  split; [done|]. by apply andb_true_iff in Hs as [Hs _].
Qed.

(** The authority by which a lease may call a method. *)
Inductive MayCall (lease : LeaseInfo) (m : string) : Prop :=
| may_read_self : m ∈ SELF_SCOPED_AGENT_READS -> MayCall lease m
| may_as_admin : m ∈ ADMIN_SCOPED_RPC_METHODS -> trustLevel lease = ApprovalPolicy.admin -> MayCall lease m
| may_by_capability cap : mget HANDLER_CAPABILITY_MAP m = Some cap -> cap ∈ caps lease -> MayCall lease m
| may_by_tool tool cap :
    mget TOOL_CAPABILITY_MAP tool = Some cap -> cap ∈ caps lease -> mget TOOL_ROUTE_MAP tool = Some (Rpc m) -> MayCall lease m.

Lemma inAudience_may lease m : m <> "tool.invoke" -> inAudience lease m None = true -> MayCall lease m.
Proof.
  intros Hm. unfold inAudience. destruct (has SELF_SCOPED_AGENT_READS m) eqn:E1; [intros _; apply may_read_self; by apply has_spec|].
  destruct (has ADMIN_SCOPED_RPC_METHODS m) eqn:E2.
  - intros ?%bool_decide_eq_true. apply may_as_admin; [by apply has_spec|done].
  - unfold requiredCap. rewrite decide_False by done. destruct (prop _ m) as [cap| |] eqn:E3; [|done..].
    intros [_ Hc%has_spec]%andb_true_iff. apply prop_Own in E3. by eapply may_by_capability.
Qed.

(** Only admin trust reaches an admin-scoped method. *)
Lemma inAudience_admin lease m tool :
  inAudience lease m tool = true -> has ADMIN_SCOPED_RPC_METHODS m = true -> trustLevel lease = ApprovalPolicy.admin.
Proof.
  unfold inAudience. intros H Ha. rewrite Ha in H. destruct (has SELF_SCOPED_AGENT_READS m) eqn:Es.
  - assert (Hd : forallb (fun m => negb (has ADMIN_SCOPED_RPC_METHODS m)) SELF_SCOPED_AGENT_READS = true) by (by vm_compute).
    rewrite forallb_forall in Hd. apply has_spec, list_elem_of_In, Hd, negb_true_iff in Es. congruence.
  - by apply bool_decide_eq_true in H.
Qed.

Section Theorems.
Variable sha256 : string -> string.
Variable deps : Deps.

Abbreviation handleCapCall := (handleCapCall sha256 deps).

(** C3: Only leased authority gets through the endpoint.  Whatever arrives on the
    socket, a call that is not refused was authenticated as a lease by [validate]
    in the state at hand.  If it goes to the sink, it is a read of the caller's
    own state, an admin-scoped method under admin trust, a method whose capability
    the lease holds, or the method behind a tool whose capability it holds, and
    never a management method; if it goes to the executor, the lease holds the
    capability of the tool and the tool is not denylisted. *)
Theorem leased_call_is_authorized (c : CapCall) (t : Reads) (w w' : World) (o : Outcome) :
  handleCapCall c t w = (o, w') ->
  match o with
  | Refused _ => True
  | Rpced lease _ m _ =>
      (exists tool, (validate (t_validate t) (bearer c) (method c) tool (w_leases w)).1 = Some lease) /\
      MayCall lease m /\ mget DENYLISTED_RPC_METHODS m = None /\
      (has ADMIN_SCOPED_RPC_METHODS m = true -> trustLevel lease = ApprovalPolicy.admin)
  | Executed lease _ tool _ =>
      (exists tool, (validate (t_validate t) (bearer c) (method c) tool (w_leases w)).1 = Some lease) /\
      (tool ∉ SUB_AGENT_TOOL_DENYLIST) /\ (exists cap, mget TOOL_CAPABILITY_MAP tool = Some cap /\ cap ∈ caps lease)
  end.
Proof.
  intros [[-> [e ->]]|(tool & _ & [[e ->]|(lease & Hv & HT)])]%handleCapCall_judged; [done..|].
  destruct HT as [p req step ps Hm Ha Hd|p cap m ps Hc Hin Hr|p cap Hc Hin Hr].
  - split; [by exists tool|]. split; [by apply inAudience_may|]. split; [done|]. intros Hadm. by eapply inAudience_admin.
  - split; [by exists tool|]. split; [by eapply may_by_tool|]. destruct (route_method _ _ Hr) as [H1 H2]. split; [done|congruence].
  - split; [by exists tool|]. split; [by eapply tool_not_denylisted|by exists cap].
Qed.


(** ** The sink *)

(** The sink takes a leased call for what it is.  A call that went through the
    endpoint is never refused by the guard of admin methods (only admin trust gets
    that far), its handler is called with the endpoint's parameters, and its
    outcome is booked on the agent and the root of the lease. *)
Theorem leased_call_reaches_handler handlers agentMode (c : CapCall) (t : Reads) (w w' : World) lease ctx m ps (s : Sink) :
  handleCapCall c t w = (Rpced lease ctx m ps, w') ->
  (has ADMIN_METHODS m = true -> trustLevel lease = ApprovalPolicy.admin) /\
  dispatch handlers agentMode m ps s =
    match handlers m with
    | None => (Err (Plain ("Unknown RPC method: " +:+ m)), [], s)
    | Some handler =>
        match handler ps with
        | Ok v => (Ok v, [], onAllowed (Some (rootRunId lease)) s)
        | Err (CapabilityDenied cap) =>
            let '(fx, s) := onDenied agentMode ps (Some (rootRunId lease)) (Some (LeaseManager.agentId lease)) s in
            (Err (CapabilityDenied cap), fx, s)
        | Err e => (Err e, [], s)
        end
    end.
Proof.
  intros [[-> [e E]]|(tool & _ & [[e E]|(l & Hv & HT)])]%handleCapCall_judged; [done..|].
  destruct (rpced_internal _ _ _ _ _ _ _ _ _ _ HT) as (p & step & op & -> & Hint).
  assert (Hadm : has ADMIN_METHODS m = true -> trustLevel lease = ApprovalPolicy.admin).
  { intros Ha%admin_methods_scoped. inversion HT; subst; [by eapply inAudience_admin|].
    destruct (route_method (innerTool c) m) as [_ Hn]; [done|congruence]. }
  split; [done|]. unfold dispatch, assertNotAgentOrigin. rewrite !Hint by done.
  destruct (handlers m) as [handler|]; [|done]. destruct (has ADMIN_METHODS m); [|done].
  cbn -[trustName]. rewrite (Hadm eq_refl). done.
Qed.

(** ** Revoked leases *)

(** A sequence of calls and what each comes to. *)
Fixpoint serve (calls : list (CapCall * Reads)) (w : World) : list Outcome * World :=
  match calls with
  | [] => ([], w)
  | (c, t) :: calls => let '(o, w1) := handleCapCall c t w in let '(os, w2) := serve calls w1 in (o :: os, w2)
  end.

Definition usedLease (o : Outcome) : option string :=
  match o with Refused _ => None | Rpced l _ _ _ | Executed l _ _ _ => Some (leaseId l) end.

Lemma Through_lease c t w l o : Through sha256 deps c t w l o -> usedLease o = Some (leaseId l).
Proof. by destruct 1. Qed.

(** After the kill of a root run, nothing gets through with its leases.  From
    the state a history of the lease manager leaves once a revocation has stopped a
    lease, whatever calls arrive on the socket, none of them reaches the sink or
    the executor under that lease. *)
Theorem killed_lease_reaches_nothing (defaultTtlMs : Z) (h : list Op) (root id : string) bs now input
    (calls : list (CapCall * Reads)) (a : option BoundedAutonomy.Autonomy) (d : option OutwardLedger.Db) :
  NoDup (LeaseTheorems.mintIds h) -> Mint id bs now input ∈ h -> m_rootRunId input = root ->
  let w := mkWorld (after defaultTtlMs (h ++ [RevokeByRootRun root])) a d in
  Forall (fun o => usedLease o <> Some id) (serve calls w).1.
Proof.
  intros Hids Hm Hr. cbv zeta.
  assert (Hd : exists g, Dead id (after defaultTtlMs (h ++ [RevokeByRootRun root] ++ g)) /\
    after defaultTtlMs (h ++ [RevokeByRootRun root]) = after defaultTtlMs (h ++ [RevokeByRootRun root] ++ g)).
  { exists []. rewrite app_nil_r. split; [|done]. apply LeaseTheorems.stops_dead; [done|]. left. by exists bs, now, input. }
  destruct Hd as (g & Hd & ->). revert a d g Hd. induction calls as [|[c t] calls IH]; intros a d g Hd; [constructor|].
  simpl. destruct (handleCapCall c t _) as [o w1] eqn:E.
  assert (Hnext : exists g', Dead id (after defaultTtlMs (h ++ [RevokeByRootRun root] ++ g')) /\
    w_leases w1 = after defaultTtlMs (h ++ [RevokeByRootRun root] ++ g') /\ usedLease o <> Some id).
  { apply handleCapCall_judged in E as [[-> [e ->]]|(tool & Hw & HT)]; [by exists g|].
    pose (op := Validate (t_validate t) (bearer c) (method c) tool).
    exists (g ++ [op]). assert (Ea : h ++ [RevokeByRootRun root] ++ g ++ [op] = (h ++ [RevokeByRootRun root] ++ g) ++ [op])
      by (by rewrite !app_assoc). rewrite Ea. split; [apply after_dead; [by repeat constructor|done]|].
    split; [by rewrite after_snoc|]. destruct HT as [[e ->]|(lease & Hv & HT)]; [done|].
    rewrite (Through_lease _ _ _ _ _ HT). intros [= Heq].
    pose proof (dead_refused defaultTtlMs _ id op Hd) as Hdr. simpl in Hdr. unfold validate in Hv. simpl in Hv.
    rewrite Hv in Hdr. done. }
  destruct Hnext as (g' & Hd' & Hw & Ho). destruct w1 as [l1 a1 d1]. simpl in Hw. subst l1.
  specialize (IH a1 d1 g' Hd'). destruct (serve calls _) as [os w2]. simpl in *. by constructor.
Qed.

(** ** Outward messages *)

(** No outward message leaves without its step.  When the ledger is wired, a
    [message.send], [message.reply] or [message.react] that reaches the sink
    carries the step the ledger allocated to its root and to the operation identity
    the caller gave, and that identity. *)
Theorem outward_call_has_step (c : CapCall) (t : Reads) (w w' : World) lease ctx m ps (d : OutwardLedger.Db) :
  handleCapCall c t w = (Rpced lease ctx m ps, w') -> w_ledger w = Some d -> m ∈ OUTWARD_MESSAGE_METHODS ->
  exists op n d', operationId c = Some op /\
    OutwardLedger.allocateStep sha256 (rootRunId lease) op (t_ledger t) d = (Ok n, d') /\
    mget ps "_outwardStepIndex" = Some (VJson (CanonicalJson.JNumber n)) /\
    mget ps "_outwardOperationId" = Some (VStr op).
Proof.
  intros [[-> [e E]]|(tool & _ & [[e E]|(l & Hv & HT)])]%handleCapCall_judged Hd Hm; [done..|].
  inversion HT as [p req step ps' Hne Ha Hdn Hp Hcr Ho Eps|p cap m' ps' Hc Hin Hr Hp Eps|]; subst.
  - unfold outwardStep in Ho. rewrite Hd in Ho. destruct (Ho (proj2 (has_spec _ _) Hm)) as (op & n & d' & Hop & -> & Hal).
    exists op, n, d'. split; [done|]. split; [done|]. rewrite Hop.
    rewrite !trusted_internal by (done || (unfold agentOnly, forced; destruct (has _ _); auto)).
    destruct p as [x y z [og|]], (LeaseManager.parentLeaseId lease) as [pl|] eqn:E1, (LeaseManager.checkpointId lease) as [ck|] eqn:E2;
      unfold trustedFields; rewrite E1, E2; by vm_compute.
  - exfalso. apply mget_elem_of in Hr.
    assert (Hall : forallb (fun e => match e.2 with Rpc m => negb (has OUTWARD_MESSAGE_METHODS m) | Executor => true end)
      TOOL_ROUTE_MAP = true) by (by vm_compute).
    rewrite forallb_forall in Hall. specialize (Hall _ (proj1 (list_elem_of_In _ _) Hr)). simpl in Hall.
    apply negb_true_iff, has_false in Hall. done.
Qed.
End Theorems.

(** ** A loop of denials *)

Section Loop.
Variable handlers : string -> option (Params -> Result Val CallError).
Variable agentMode : string -> option string.

(** A call of the root [r] that its handler denies. *)
Definition denies (r : string) (call : string * Params) : Prop :=
  exists handler cap agent, handlers call.1 = Some handler /\ handler call.2 = Err (CapabilityDenied cap) /\
    has ADMIN_METHODS call.1 = false /\ mget call.2 "_agentId" = Some (VStr agent) /\
    mget call.2 "_rootRunId" = Some (VStr r).

Fixpoint dispatches (calls : list (string * Params)) (s : Sink) : list (list Effect) * Sink :=
  match calls with
  | [] => ([], s)
  | (m, ps) :: calls =>
      let '(_, fx, s1) := dispatch handlers agentMode m ps s in let '(fxs, s2) := dispatches calls s1 in (fx :: fxs, s2)
  end.

Definition countOf (r : string) (s : Sink) : nat :=
  match breaker s with Some (_, counts) => default 0%nat (counts !! r) | None => 0 end.

Definition limitIs (N : nat) (s : Sink) : Prop := exists counts, breaker s = Some (N, counts).

Lemma denied_step r m ps s N :
  denies r (m, ps) -> limitIs N s ->
  let '(_, fx, s') := dispatch handlers agentMode m ps s in
  limitIs N s' /\
  (if (countOf r s + 1 =? N)%nat then fx = [Killed r; Escalated (denial_breaker_tripped r)] /\ countOf r s' = 0%nat
   else (Killed r ∉ fx) /\ countOf r s' = (countOf r s + 1)%nat).
Proof.
  intros (handler & cap & agent & Hh & Hd & Ha & Hag & Hr) [counts Hb]. simpl in *. unfold dispatch.
  rewrite Hh, Ha, Hd, Hag, Hr. cbn [jstring VStr]. unfold onDenied, countOf. rewrite Hb. cbn [fst snd].
  unfold DenialBreaker.recordDenial. cbn [DenialBreaker.tripped]. destruct (_ =? N)%nat.
  - split; [by eexists|]. split; [done|]. simpl. unfold DenialBreaker.evict. by rewrite lookup_delete_eq.
  - split; [by eexists|]. split; [|simpl; by rewrite lookup_insert_eq].
    destruct (effectiveMode _ _ _ _ _); set_solver.
Qed.

(** C25: A loop of denials is cut.  When every call of a root is denied for want
    of a capability, the sink lets the first [N - 1] pass and kills the tree at the
    [N]-th, where [N] is the limit of the breaker, and starts counting anew. *)
Theorem denial_loop_is_cut (N : nat) (r : string) (calls : list (string * Params)) (s : Sink) :
  (0 < N)%nat -> length calls = N -> limitIs N s -> countOf r s = 0%nat -> Forall (denies r) calls ->
  let '(fxs, s') := dispatches calls s in
  (forall k fx, fxs !! k = Some fx -> (S k < N)%nat -> Killed r ∉ fx) /\
  fxs !! (N - 1)%nat = Some [Killed r; Escalated (denial_breaker_tripped r)] /\ countOf r s' = 0%nat.
Proof.
  intros HN Hlen Hlim Hc Hall.
  assert (Hgen : forall calls s, (countOf r s + length calls)%nat = N -> (0 < length calls)%nat -> limitIs N s ->
    Forall (denies r) calls ->
    let '(fxs, s') := dispatches calls s in
    (forall k fx, fxs !! k = Some fx -> (S k < length calls)%nat -> Killed r ∉ fx) /\
    fxs !! (length calls - 1)%nat = Some [Killed r; Escalated (denial_breaker_tripped r)] /\ countOf r s' = 0%nat).
  { clear. induction calls as [|[m ps] calls IH]; intros s Hn Hpos Hlim Hall; [simpl in Hpos; lia|].
    apply Forall_cons in Hall as [Hd Hall]. pose proof (denied_step r m ps s N Hd Hlim) as Hs. simpl.
    destruct (dispatch _ _ m ps s) as [[res fx] s1]. destruct Hs as [Hlim1 Hs]. simpl in Hn.
    destruct calls as [|call calls].
    - rewrite (proj2 (Nat.eqb_eq _ _)) in Hs by (simpl in Hn; lia). destruct Hs as [-> Hc]. simpl.
      split; [intros; lia|done].
    - rewrite (proj2 (Nat.eqb_neq _ _)) in Hs by (simpl in Hn; lia). destruct Hs as [Hk Hc].
      specialize (IH s1). destruct (dispatches (call :: calls) s1) as [fxs s2].
      destruct IH as (H1 & H2 & H3); [rewrite Hc; simpl in *; lia|simpl; lia|done..|].
      split; [|split; [simpl in *; rewrite Nat.sub_0_r in *; done|done]].
      intros [|k] fx'; [intros [= <-]; done|]. simpl. intros Hk' Hlt. apply (H1 k); [done|simpl in *; lia]. }
  specialize (Hgen calls s). rewrite Hlen, Hc in Hgen. by apply Hgen.
Qed.
End Loop.
End LeaseEndpointTheorems.

Open Scope string_scope.
Open Scope list_scope.
Open Scope Z_scope.

Module LeaseEndpointDemo.
Import LeaseTables LeaseManager LeaseHistory LeasePrincipal LeaseEndpoint LeaseEndpointTheorems.

Definition sha (s : string) : string := "2222222222222222222222222222222222222222222222222222222222222222".

(** An agent with one cron job, at the limit of one. *)
Definition deps : Deps := mkDeps BoundedAutonomy.sampleAutonomy (Some 1%nat) (Some (fun _ => 1%nat)) true.
Definition roomy : Deps := mkDeps BoundedAutonomy.sampleAutonomy (Some 5%nat) (Some (fun _ => 1%nat)) true.

Definition turn : RoutingPolicyInput := LeaseTurns.Demo.routing LeaseTurns.Demo.direct per_peer.

Definition input (trust : ApprovalPolicy.UserTrustLevel) : MintLeaseInput :=
  mkMint "agent" ["orch:read"; "orch:spawn"; "orch:cron"; "orch:message"; "orch:skill"] "budget" "session" trust
    (Some (LeaseTurns.turnOrigin turn)) (Some (LeaseTurns.Demo.scopeOf turn)) "root-1" None None None None.

Definition mint (trust : ApprovalPolicy.UserTrustLevel) : Op := Mint "lease-1" [1; 2; 3] 1000 (input trust).

Definition world (trust : ApprovalPolicy.UserTrustLevel) : World :=
  mkWorld (after DEFAULT_TTL_MS [mint trust]) (Some BoundedAutonomy.createBoundedAutonomy) (Some OutwardLedger.emptyDb).

Definition reads : Reads := mkReads (fun _ => 2000) 2000 2000 2000 2000 "trace".

Definition str (s : string) : Val := VStr s.

Definition call (m : string) (ps : Params) : CapCall :=
  mkCall (LeaseTokens.generateStrongToken [1; 2; 3]) m ps (Some "op-1") "conn-1".

(** A wire object that claims admin trust, another agent and a mode. *)
Definition forged : Params :=
  [("text", str "hello"); ("_trustLevel", str "admin"); ("_agentId", str "other"); ("_autonomyMode", str "max");
   ("agentId", str "*")].

Definition paramsOf (o : Outcome) : Params := match o with Rpced _ _ _ ps => ps | _ => [] end.
Definition leaseOf (o : Outcome) : option LeaseInfo :=
  match o with Rpced l _ _ _ | Executed l _ _ _ => Some l | Refused _ => None end.

Definition outcome (d : Deps) (trust : ApprovalPolicy.UserTrustLevel) (c : CapCall) : Outcome * World :=
  handleCapCall sha d c reads (world trust).

Definition theLease (trust : ApprovalPolicy.UserTrustLevel) : LeaseInfo := minted "lease-1" (input trust).

Definition theContext (trust : ApprovalPolicy.UserTrustLevel) : RequestContext :=
  match resolveLeaseRequestPrincipal (theLease trust) false "trace" 2000 with
  | Ok p => context p
  | Err _ => mkContext "" "" "" "" None "" 0 trust None None
  end.

Lemma send_call :
  handleCapCall sha deps (call "message.send" forged) reads (world ApprovalPolicy.user) =
  (Rpced (theLease ApprovalPolicy.user) (theContext ApprovalPolicy.user) "message.send"
     (paramsOf (outcome deps ApprovalPolicy.user (call "message.send" forged)).1),
   (outcome deps ApprovalPolicy.user (call "message.send" forged)).2).
Proof. rewrite (surjective_pairing (handleCapCall _ _ _ _ _)). by f_equal. Qed.

Lemma leased_call_is_authorized_witness :
  MayCall (theLease ApprovalPolicy.user) "message.send" /\
  (outcome deps ApprovalPolicy.user (call "secrets.list" forged)).1 = Refused INVALID_LEASE /\
  (outcome deps ApprovalPolicy.admin (call "skills.create" forged)).1 = Refused (denylisted "skills_manage").
Proof.
  split; [|by vm_compute].
  pose proof (leased_call_is_authorized sha deps (call "message.send" forged) reads (world ApprovalPolicy.user) _ _ send_call) as H.
  exact (proj1 (proj2 H)).
Defined.


Lemma leased_call_reaches_handler_witness :
  let ps := paramsOf (outcome deps ApprovalPolicy.user (call "message.send" forged)).1 in
  dispatch (fun _ => Some (fun _ => Err (CapabilityDenied "orch:message"))) (fun _ => None) "message.send" ps
    (mkSink (Some (1%nat, ∅)) None) =
  let '(fx, s) := onDenied (fun _ => None) ps (Some "root-1") (Some "agent") (mkSink (Some (1%nat, ∅)) None) in
  (Err (CapabilityDenied "orch:message"), fx, s).
Proof.
  cbv zeta.
  exact (proj2 (leased_call_reaches_handler sha deps (fun _ => Some (fun _ => Err (CapabilityDenied "orch:message")))
    (fun _ => None) _ _ _ _ _ _ _ _ (mkSink (Some (1%nat, ∅)) None) send_call)).
Defined.

Lemma outward_call_has_step_witness :
  exists op n d', Some "op-1" = Some op /\
    OutwardLedger.allocateStep sha "root-1" op 2000 OutwardLedger.emptyDb = (Ok n, d') /\
    mget (paramsOf (outcome deps ApprovalPolicy.user (call "message.send" forged)).1) "_outwardStepIndex" =
      Some (VJson (CanonicalJson.JNumber n)) /\
    mget (paramsOf (outcome deps ApprovalPolicy.user (call "message.send" forged)).1) "_outwardOperationId" = Some (VStr op).
Proof.
  apply (outward_call_has_step sha deps (call "message.send" forged) reads (world ApprovalPolicy.user) _ _ _ _ _
    OutwardLedger.emptyDb send_call); [done|]. left.
Defined.

Lemma killed_lease_reaches_nothing_witness :
  (serve sha deps [(call "message.send" forged, reads)] (world ApprovalPolicy.user)).1 <> [Refused INVALID_LEASE] /\
  Forall (fun o => usedLease o <> Some "lease-1")
    (serve sha deps [(call "message.send" forged, reads); (call "session.status" [], reads)]
       (mkWorld (after DEFAULT_TTL_MS ([mint ApprovalPolicy.user] ++ [RevokeByRootRun "root-1"])) None None)).1.
Proof.
  split; [by vm_compute|].
  apply (killed_lease_reaches_nothing sha deps DEFAULT_TTL_MS [mint ApprovalPolicy.user] "root-1" "lease-1" [1; 2; 3] 1000
    (input ApprovalPolicy.user)); [apply NoDup_singleton|by left|done].
Defined.

Definition deniedParams : Params := [("_agentId", str "agent"); ("_rootRunId", str "root-1")].

Definition denyAll (m : string) : option (Params -> Result Val CallError) := Some (fun _ => Err (CapabilityDenied "orch:graph")).

Lemma denial_loop_is_cut_witness :
  let '(fxs, s') := dispatches denyAll (fun _ => Some "unattended")
    [("graph.execute", deniedParams); ("graph.save", deniedParams)] (mkSink (Some (2%nat, ∅)) None) in
  fxs !! 1%nat = Some [Killed "root-1"; Escalated (denial_breaker_tripped "root-1")] /\ countOf "root-1" s' = 0%nat.
Proof.
  pose proof (denial_loop_is_cut denyAll (fun _ => Some "unattended") 2 "root-1"
    [("graph.execute", deniedParams); ("graph.save", deniedParams)] (mkSink (Some (2%nat, ∅)) None)) as H.
  destruct (dispatches _ _ _ _) as [fxs s']. apply H; [lia|done|by eexists|done|].
  apply Forall_cons. split; [|apply Forall_singleton];
    (exists (fun _ => Err (CapabilityDenied "orch:graph")), "orch:graph", "agent"; by vm_compute).
Defined.

(** ** Behaviours the comments do not tell *)

(** [cron.list] is in the audience of every lease with admin trust, although it is
    said to be out of reach, and the agent it names is the caller's choice. *)
Theorem admin_lease_lists_any_cron :
  leaseOf (outcome roomy ApprovalPolicy.admin (call "cron.list" [("agentId", str "*")])).1 = Some (theLease ApprovalPolicy.admin) /\
  mget (paramsOf (outcome roomy ApprovalPolicy.admin (call "cron.list" [("agentId", str "*")])).1) "agentId" = Some (str "*") /\
  (outcome roomy ApprovalPolicy.user (call "cron.list" [("agentId", str "*")])).1 = Refused INVALID_LEASE.
Proof. by vm_compute. Qed.

(** At the limit of self-owned cron jobs the agent cannot remove one either: the
    limit is checked for every cron mutation. *)
Theorem cron_cap_blocks_removal :
  (outcome deps ApprovalPolicy.user (call "cron.remove" [("jobId", str "job")])).1 = Refused (CapabilityDenied "orch:cron") /\
  leaseOf (outcome roomy ApprovalPolicy.user (call "cron.remove" [("jobId", str "job")])).1 = Some (theLease ApprovalPolicy.user).
Proof. by vm_compute. Qed.

(** [skills.list], a read, is denied with the management methods. *)
Theorem skills_list_is_denied c t w :
  method c = "skills.list" -> operationId c = None ->
  handleCapCall sha deps c t w = (Refused (denylisted "skills_manage"), w).
Proof. intros Hm Ho. unfold handleCapCall. by rewrite Ho, Hm. Qed.

(** The methods of the five gated families that the table does not classify. *)
Definition families : list string := ["session."; "graph."; "cron."; "message."; "skills."].

Theorem gated_families_incomplete :
  List.filter (fun m => existsb (fun f => String.prefix f m) families && negb (has (mkeys HANDLER_CAPABILITY_MAP) m))
    (API_CONTRACTS_ORDERED.*1) = ["cron.reset"; "graph.runDetail"].
Proof. by vm_compute. Qed.

End LeaseEndpointDemo.
