(* ===== verification/RootRuns.v ===== *)
(** * The roots of session work

  Models [createRootRunIdRegistry] of
  [daemon/src/wiring/setup-capability-endpoint-boot.ts] with
  [resolveContextRootRunId] of [core/src/context/context.ts]: which execution root
  the work of a session is booked on, and how a kill retires it.  A generation is
  one object that both maps of the closure refer to, so generations live in a heap
  and the maps hold their indices; [retire] writes through.  The random part of an
  id and the readings of the clock are arguments; the audit of a mismatch is not
  modelled.

  [RootRunsTheorems]: in histories in which the clock does not run backwards, a turn
  keeps the root it got, also when that root is retired under it, provided that the
  turn did not begin before the newest generation was activated; a turn that begins
  after a kill never gets the killed root; and an older turn can leave its retired
  root otherwise. *)

From Stdlib Require Import Ascii.
From S2P Require Import Prelude BoundedAutonomy SessionKeys LeaseManager.

Open Scope string_scope.
Open Scope list_scope.
Open Scope Z_scope.

Module RootRuns.

(** ** The state *)

(** [RootRunGeneration] *)
Record Generation := mkGen { rootRunId : string; activatedAtMs : Z; retiredAtMs : option Z }.

Record Registry := mkReg {
  heap : list Generation;
  generationsByPrincipal : jsmap string (list nat);
  generationByRoot : jsmap string nat
}.

Definition createRootRunIdRegistry : Registry := mkReg [] [] [].

(** The fields of the request context the registry reads. *)
Record RequestScope := mkScope {
  s_agentId : option string;
  s_sessionKey : option string;
  s_rootRunId : option string;
  s_startedAt : Z
}.

Inductive RootRunContextError := context_identity_mismatch.

(** What a call draws: an id, a reading of the clock and the one the budget meter
    makes when a root is registered. *)
Record Draws := mkDraws { d_id : string; d_now : Z; d_register : Z }.

(** ** The operations *)

Definition resolveContextRootRunId (scope : option RequestScope) (agent : string) (key : SessionKeys.SessionKey)
    : Result (option string) RootRunContextError :=
  match scope with
  | Some s =>
      match s_rootRunId s with
      | None => Ok None
      | Some root =>
          if decide (s_agentId s = Some agent /\ s_sessionKey s = Some (SessionKeys.formatSessionKey key))
          then Ok (Some root) else Err context_identity_mismatch
      end
  | None => Ok None
  end.

Definition bytesOf (s : string) : list Z := map (fun c => Z.of_nat (nat_of_ascii c)) (String.list_ascii_of_string s).

Definition rootIdOf (id formatted : string) : string :=
  "root-session-" +:+ id +:+ "-" +:+ LeaseTokens.base64url (bytesOf formatted).

Definition principalKey (agent formatted : string) : string := agent +:+ ":" +:+ formatted.

Definition mintGeneration (principal formatted : string) (activatedAt : Z) (t : Draws) (r : Registry)
    (holder : option BoundedAutonomy.Autonomy) : string * Registry * option BoundedAutonomy.Autonomy :=
  let root := rootIdOf (d_id t) formatted in
  let i := length (heap r) in
  let gens := default [] (mget (generationsByPrincipal r) principal) ++ [i] in
  (root,
   mkReg (heap r ++ [mkGen root activatedAt None]) (mset (generationsByPrincipal r) principal gens)
     (mset (generationByRoot r) root i),
   (fun a => BoundedAutonomy.registerRoot a root ("lease-" +:+ root) (d_register t)) <$> holder).

(** Whether a generation was in force when a request started. *)
Definition covers (startedAt : Z) (g : Generation) : bool :=
  (activatedAtMs g <=? startedAt) && match retiredAtMs g with None => true | Some t => startedAt <=? t end.

(** The loop over the generations, newest first. *)
Definition inForce (startedAt : Z) (gens : list Generation) : option Generation := List.find (covers startedAt) (rev gens).

Definition generationsOf (principal : string) (r : Registry) : list Generation :=
  omap (fun i => heap r !! i) (default [] (mget (generationsByPrincipal r) principal)).

(** Whether the newest generation is the answer although it was not in force. *)
Definition stays (startedAt : option Z) (g : Generation) : bool :=
  match retiredAtMs g, startedAt with
  | Some t, Some s => s <=? t
  | _, _ => true
  end.

Definition resolve (scope : option RequestScope) (agent : string) (key : SessionKeys.SessionKey) (t : Draws) (r : Registry)
    (holder : option BoundedAutonomy.Autonomy)
    : Result string RootRunContextError * Registry * option BoundedAutonomy.Autonomy :=
  match resolveContextRootRunId scope agent key with
  | Err e => (Err e, r, holder)
  | Ok (Some root) => (Ok root, r, holder)
  | Ok None =>
      let formatted := SessionKeys.formatSessionKey key in
      let principal := principalKey agent formatted in
      let startedAt := s_startedAt <$> scope in
      let gens := generationsOf principal r in
      let mint at_ := let '(root, r, holder) := mintGeneration principal formatted at_ t r holder in (Ok root, r, holder) in
      match last gens with
      | None => mint (default (d_now t) startedAt)
      | Some current =>
          match startedAt ≫= (fun s => inForce s gens) with
          | Some g => (Ok (rootRunId g), r, holder)
          | None =>
              if stays startedAt current then (Ok (rootRunId current), r, holder)
              else mint (default (d_now t) startedAt)
          end
      end
  end.

Definition retire (root : string) (now : Z) (r : Registry) : bool * Registry :=
  match mget (generationByRoot r) root with
  | None => (false, r)
  | Some i =>
      match heap r !! i with
      | None => (false, r)
      | Some g =>
          match retiredAtMs g with
          | Some _ => (false, r)
          | None =>
              (true, mkReg (<[i := mkGen (rootRunId g) (activatedAtMs g) (Some now)]> (heap r)) (generationsByPrincipal r)
                       (generationByRoot r))
          end
      end
  end.

(** ** Histories *)

Inductive Op :=
| Resolve (scope : option RequestScope) (agent : string) (key : SessionKeys.SessionKey) (t : Draws)
| Retire (root : string) (now : Z).

Definition State : Type := Registry * option BoundedAutonomy.Autonomy.

Definition exec (op : Op) (st : State) : option (Result string RootRunContextError) * State :=
  match op with
  | Resolve scope agent key t => let '(a, r, h) := resolve scope agent key t st.1 st.2 in (Some a, (r, h))
  | Retire root now => (None, ((retire root now st.1).2, st.2))
  end.

Definition after (ops : list Op) (st : State) : State := fold_left (fun st op => (exec op st).2) ops st.

(** The root a call mints, if it mints one. *)
Definition drawn (op : Op) : option string :=
  match op with Resolve _ _ key t => Some (rootIdOf (d_id t) (SessionKeys.formatSessionKey key)) | Retire _ _ => None end.

End RootRuns.

Open Scope string_scope.
Open Scope list_scope.
Open Scope Z_scope.

Module RootRunsTheorems.
Import RootRuns.

(** ** Time *)

Definition timeOf (op : Op) : Z := match op with Resolve _ _ _ t => d_now t | Retire _ now => now end.

(** A request started before it is served. *)
Definition startsBefore (op : Op) : Prop :=
  match op with Resolve (Some s) _ _ t => s_startedAt s <= d_now t | _ => True end.

(** The clock readings of a history do not decrease. *)
Fixpoint timely (T : Z) (ops : list Op) : Prop :=
  match ops with
  | [] => True
  | op :: ops => T <= timeOf op /\ startsBefore op /\ timely (timeOf op) ops
  end.

Definition endTime (T : Z) (ops : list Op) : Z := fold_left (fun _ op => timeOf op) ops T.

Lemma timely_app T ops1 ops2 : timely T (ops1 ++ ops2) <-> timely T ops1 /\ timely (endTime T ops1) ops2.
Proof. revert T. induction ops1 as [|op ops IH]; intros T; simpl; [tauto|]. rewrite IH. tauto. Qed.

Lemma endTime_le T ops : timely T ops -> T <= endTime T ops.
Proof.
  revert T. induction ops as [|op ops IH]; intros T; simpl; [lia|].
  intros (H1 & _ & H2%IH). unfold endTime in *. simpl. lia.
Qed.

(** ** The invariant *)

(** Of two generations of a principal the older one was retired before the newer
    one was activated. *)
Definition Chain (gs : list Generation) : Prop :=
  forall j k g g', (j < k)%nat -> gs !! j = Some g -> gs !! k = Some g' ->
  exists t, retiredAtMs g = Some t /\ t < activatedAtMs g'.

Record Wf (T : Z) (r : Registry) : Prop := mkWf {
  wf_index p l i : mget (generationsByPrincipal r) p = Some l -> i ∈ l -> (i < length (heap r))%nat;
  wf_active i g : heap r !! i = Some g -> activatedAtMs g <= T;
  wf_retired i g t : heap r !! i = Some g -> retiredAtMs g = Some t -> activatedAtMs g <= t <= T;
  wf_chain p : Chain (generationsOf p r)
}.

(** What a retirement at [T] keeps of a generation. *)
Definition Ages (T : Z) (g g' : Generation) : Prop :=
  rootRunId g' = rootRunId g /\ activatedAtMs g' = activatedAtMs g /\
  (retiredAtMs g' = retiredAtMs g \/ retiredAtMs g = None /\ retiredAtMs g' = Some T).

Lemma ages_refl T g : Ages T g g.
Proof. unfold Ages. auto. Qed.

Lemma ages_covers T s g g' : Ages T g g' -> s <= T -> covers s g = true -> covers s g' = true.
Proof.
  unfold covers. intros (_ & -> & Hr) Hs. destruct Hr as [->|[-> ->]]; [done|].
  rewrite !andb_true_iff, !Z.leb_le. intros [? _]. split; [done|lia].
Qed.

Lemma elem_generationsOf p r g :
  g ∈ generationsOf p r <-> exists l i, mget (generationsByPrincipal r) p = Some l /\ i ∈ l /\ heap r !! i = Some g.
Proof.
  unfold generationsOf. rewrite list_elem_of_omap. split.
  - intros (i & Hi & Hg). destruct (mget (generationsByPrincipal r) p) as [l|]; simpl in Hi; [|by apply elem_of_nil in Hi].
    eauto.
  - intros (l & i & -> & ? & ?). eauto.
Qed.

Lemma generation_in_heap p r g : g ∈ generationsOf p r -> exists i, heap r !! i = Some g.
Proof. intros (l & i & _ & _ & ?)%elem_generationsOf. eauto. Qed.

(** In a chain at most one generation covers a time. *)
Lemma chain_covers gs s g g' :
  Chain gs -> g ∈ gs -> g' ∈ gs -> covers s g = true -> covers s g' = true -> g = g'.
Proof.
  intros HC [j Hj]%list_elem_of_lookup [k Hk]%list_elem_of_lookup H H'.
  assert (Hw : forall j k g g', gs !! j = Some g -> gs !! k = Some g' -> covers s g = true -> covers s g' = true -> ~ (j < k)%nat).
  { clear - HC. intros j k g g' Hj Hk. unfold covers. rewrite !andb_true_iff, !Z.leb_le. intros [_ H] [H' _] Hlt.
    destruct (HC j k g g' Hlt Hj Hk) as (t & Et & Ht). rewrite Et in H. apply Z.leb_le in H. lia. }
  pose proof (Hw j k g g' Hj Hk H H'). pose proof (Hw k j g' g Hk Hj H' H).
  assert (j = k) as <- by lia. congruence.
Qed.

Lemma inForce_Some s gs g : inForce s gs = Some g -> g ∈ gs /\ covers s g = true.
Proof. unfold inForce. intros [H ?]%List.find_some. split; [|done]. by apply list_elem_of_In, in_rev. Qed.

Lemma inForce_None s gs g : inForce s gs = None -> g ∈ gs -> covers s g = false.
Proof. intros H Hg. apply (List.find_none _ _ H). apply in_rev. rewrite rev_involutive. by apply list_elem_of_In. Qed.

Lemma inForce_unique s gs g : Chain gs -> g ∈ gs -> covers s g = true -> inForce s gs = Some g.
Proof.
  intros HC Hg H. destruct (inForce s gs) as [g'|] eqn:E.
  - destruct (inForce_Some _ _ _ E). f_equal. by eapply chain_covers.
  - pose proof (inForce_None _ _ _ E Hg). congruence.
Qed.

(** ** The effect of a mint *)

Lemma minted_generations p formatted at_ t r h root r' h' q T :
  Wf T r -> mintGeneration p formatted at_ t r h = (root, r', h') ->
  generationsOf q r' = generationsOf q r ++ (if decide (q = p) then [mkGen root at_ None] else []).
Proof.
  intros HW [= <- <- <-]. unfold generationsOf. cbn [heap generationsByPrincipal].
  assert (Hold : forall l, mget (generationsByPrincipal r) q = Some l ->
    omap (fun i => (heap r ++ [mkGen (rootIdOf (d_id t) formatted) at_ None]) !! i) l = omap (fun i => heap r !! i) l).
  { intros l El. apply list_omap_ext, Forall_Forall2_diag, Forall_forall. intros i Hi.
    apply lookup_app_l. by eapply wf_index. }
  rewrite mget_mset. case_decide as E; simpl.
  - subst q. rewrite omap_app. simpl. rewrite lookup_app_r, Nat.sub_diag by lia. simpl. f_equal.
    destruct (mget (generationsByPrincipal r) p) eqn:El; simpl; [by apply Hold|done].
  - rewrite app_nil_r. destruct (mget (generationsByPrincipal r) q) eqn:El; simpl; [by apply Hold|done].
Qed.

Lemma mint_wf p formatted at_ t r h root r' h' T :
  Wf T r -> mintGeneration p formatted at_ t r h = (root, r', h') -> T <= d_now t -> at_ <= d_now t ->
  (forall g, last (generationsOf p r) = Some g -> exists u, retiredAtMs g = Some u /\ u < at_) -> Wf (d_now t) r'.
Proof.
  intros HW E HT Hat Hlast. pose proof (fun q => minted_generations _ _ _ _ _ _ _ _ _ q _ HW E) as HG.
  injection E as <- <- <-. split; cbn [heap generationsByPrincipal].
  - intros q l i. rewrite length_app. simpl. rewrite mget_mset. case_decide.
    + intros [= <-] [Hi| ->%list_elem_of_singleton]%elem_of_app; [|lia].
      destruct (mget (generationsByPrincipal r) p) as [l0|] eqn:El; simpl in Hi; [|by apply elem_of_nil in Hi].
      pose proof (wf_index _ _ HW _ _ _ El Hi). lia.
    + intros El Hi. pose proof (wf_index _ _ HW _ _ _ El Hi). lia.
  - intros i g [Hg|[_ Hg]]%lookup_app_Some; [pose proof (wf_active _ _ HW _ _ Hg); lia|].
    apply list_lookup_singleton_Some in Hg as [_ <-]. done.
  - intros i g u [Hg|[_ Hg]]%lookup_app_Some Hu; [pose proof (wf_retired _ _ HW _ _ _ Hg Hu); lia|].
    by apply list_lookup_singleton_Some in Hg as [_ <-].
  - intros q j k g g' Hlt Hj Hk. cbn zeta in HG. rewrite HG in Hj, Hk. pose proof (wf_chain _ _ HW q) as HC.
    destruct (decide (q = p)) as [->|]; [|rewrite app_nil_r in Hj, Hk; exact (HC j k g g' Hlt Hj Hk)].
    apply lookup_app_Some in Hk as [Hk|[Hge [Hk <-]%list_lookup_singleton_Some]].
    { apply lookup_lt_Some in Hk as Hl. rewrite lookup_app_l in Hj by lia. exact (HC j k g g' Hlt Hj Hk). }
    rewrite lookup_app_l in Hj by lia. cbn [activatedAtMs].
    destruct (last (generationsOf p r)) as [c|] eqn:Ec; [|apply last_None in Ec; by rewrite Ec in Hj].
    destruct (Hlast c eq_refl) as (u & Eu & Hu). rewrite last_lookup in Ec.
    apply lookup_lt_Some in Hj as Hl.
    destruct (decide (j = pred (length (generationsOf p r)))) as [->|Hne].
    { rewrite Ec in Hj. injection Hj as <-. eauto. }
    destruct (HC j (pred (length (generationsOf p r))) g c ltac:(lia) Hj Ec) as (v & Ev & Hv). exists v. split; [done|].
    destruct (generation_in_heap p r c) as [i Hi]; [by apply list_elem_of_lookup; eauto|].
    pose proof (wf_retired _ _ HW _ _ _ Hi Eu). lia.
Qed.

(** ** The effect of a retirement *)

(** Retiring ages one generation and leaves the indices. *)
Lemma retire_ages root now r :
  let r' := (retire root now r).2 in
  generationsByPrincipal r' = generationsByPrincipal r /\ generationByRoot r' = generationByRoot r /\
  length (heap r') = length (heap r) /\
  (forall i g', heap r' !! i = Some g' -> exists g, heap r !! i = Some g /\ Ages now g g') /\
  (forall i g, heap r !! i = Some g -> exists g', heap r' !! i = Some g' /\ Ages now g g').
Proof.
  unfold retire.
  assert (Hid : forall i g, heap r !! i = Some g -> exists g', heap r !! i = Some g' /\ Ages now g g')
    by (intros i g Hg; exists g; split; [done|apply ages_refl]).
  assert (Hid' : forall i g', heap r !! i = Some g' -> exists g, heap r !! i = Some g /\ Ages now g g')
    by (intros i g Hg; exists g; split; [done|apply ages_refl]).
  destruct (mget (generationByRoot r) root) as [i|] eqn:Ei; [|done].
  destruct (heap r !! i) as [g|] eqn:Eg; [|done]. destruct (retiredAtMs g) as [u|] eqn:Eu; [done|].
  cbn [snd heap generationsByPrincipal generationByRoot]. rewrite length_insert. split_and!; try done.
  - intros k g' [(<- & <- & _)|[_ Hk]]%list_lookup_insert_Some; [|by apply Hid'].
    exists g. split; [done|]. split_and!; [done..|]. right. by split.
  - intros k h Hk. destruct (decide (i = k)) as [<-|Hne].
    + rewrite Eg in Hk. injection Hk as <-. rewrite list_lookup_insert_eq by by eapply lookup_lt_Some.
      eexists. split; [done|]. split_and!; [done..|]. right. by split.
    + rewrite list_lookup_insert_ne by done. by apply Hid.
Qed.

Lemma Forall2_omap_lookup {A} (P : A -> A -> Prop) (h h' : list A) (l : list nat) :
  (forall i g, h !! i = Some g -> exists g', h' !! i = Some g' /\ P g g') -> length h' = length h ->
  Forall2 P (omap (fun i => h !! i) l) (omap (fun i => h' !! i) l).
Proof.
  intros H Hl. induction l as [|i l IH]; [constructor|]. cbn. destruct (h !! i) as [g|] eqn:E.
  - destruct (H i g E) as (g' & -> & HP). by constructor.
  - apply lookup_ge_None in E. rewrite (proj2 (lookup_ge_None h' i)) by lia. done.
Qed.

Lemma retire_generations root now r p :
  Forall2 (Ages now) (generationsOf p r) (generationsOf p (retire root now r).2).
Proof.
  destruct (retire_ages root now r) as (E & _ & Hl & _ & H). unfold generationsOf. rewrite E.
  by apply Forall2_omap_lookup.
Qed.

Lemma retire_wf root now r T : Wf T r -> T <= now -> Wf now (retire root now r).2.
Proof.
  intros HW HT. destruct (retire_ages root now r) as (Ep & _ & Hl & Hb & _). split.
  - intros p l i. rewrite Ep, Hl. apply (wf_index _ _ HW).
  - intros i g' (g & Hg & _ & -> & _)%Hb. pose proof (wf_active _ _ HW _ _ Hg). lia.
  - intros i g' t (g & Hg & _ & -> & Hr)%Hb Ht. pose proof (wf_active _ _ HW _ _ Hg).
    destruct Hr as [Hr|[_ Hr]]; rewrite Hr in Ht.
    + pose proof (wf_retired _ _ HW _ _ _ Hg Ht). lia.
    + injection Ht as <-. lia.
  - intros p j k g g' Hlt Hj Hk. pose proof (retire_generations root now r p) as HF.
    destruct (Forall2_lookup_r _ _ _ _ _ HF Hj) as (h & Hh & _ & _ & Hr).
    destruct (Forall2_lookup_r _ _ _ _ _ HF Hk) as (h' & Hh' & _ & -> & _).
    destruct (wf_chain _ _ HW p j k h h' Hlt Hh Hh') as (t & Et & Ht).
    destruct Hr as [Hr|[Hr _]]; [|congruence]. exists t. split; [congruence|done].
Qed.

(** ** The effect of a resolution *)

Definition startOf (scope : option RequestScope) : option Z := s_startedAt <$> scope.

(** A resolution through the registry answers with a generation that was not
    retired before the request started, or mints one when the newest was. *)
Lemma resolve_cases scope agent key t r h :
  resolveContextRootRunId scope agent key = Ok None ->
  let p := principalKey agent (SessionKeys.formatSessionKey key) in
  let gens := generationsOf p r in
  (exists g, g ∈ gens /\ stays (startOf scope) g = true /\ resolve scope agent key t r h = (Ok (rootRunId g), r, h) /\
     (forall s, startOf scope = Some s -> inForce s gens = Some g \/ inForce s gens = None /\ last gens = Some g)) \/
  (exists root r' h', mintGeneration p (SessionKeys.formatSessionKey key) (default (d_now t) (startOf scope)) t r h = (root, r', h') /\
     resolve scope agent key t r h = (Ok root, r', h') /\
     (forall g, last gens = Some g -> exists s u, startOf scope = Some s /\ retiredAtMs g = Some u /\ u < s)).
Proof.
  intros E p gens. unfold resolve. rewrite E. cbv zeta. fold p gens. fold (startOf scope).
  destruct (mintGeneration _ _ _ _ _ _) as [[root r'] h'] eqn:Em.
  destruct (last gens) as [c|] eqn:El; [|right; eauto 10; exists root, r', h'; split_and!; by intros].
  assert (Hc : c ∈ gens) by (rewrite last_lookup in El; by apply list_elem_of_lookup; eauto).
  destruct (startOf scope ≫= _) as [g|] eqn:Ef.
  - left. exists g. destruct (startOf scope) as [s|] eqn:Es; [|done]. simpl in Ef.
    destruct (inForce_Some _ _ _ Ef) as [Hg Hcov]. split_and!; [done| |done|by intros ? [= <-]; left].
    unfold covers in Hcov. apply andb_true_iff in Hcov as [_ H]. unfold stays. by destruct (retiredAtMs g).
  - destruct (stays (startOf scope) c) eqn:Est.
    + left. exists c. split_and!; try done. intros s Hs. right. rewrite Hs in Ef. by split.
    + right. exists root, r', h'. split_and!; try done. intros g [= <-]. unfold stays in Est.
      destruct (retiredAtMs c) as [u|] eqn:Eu; [|done]. destruct (startOf scope) as [s|]; [|done].
      exists s, u. split_and!; [done..|]. by apply Z.leb_gt.
Qed.

Lemma wf_mono T T' r : Wf T r -> T <= T' -> Wf T' r.
Proof.
  intros HW HT. split.
  - apply (wf_index _ _ HW).
  - intros i g Hg. pose proof (wf_active _ _ HW _ _ Hg). lia.
  - intros i g t Hg Ht. pose proof (wf_retired _ _ HW _ _ _ Hg Ht). lia.
  - apply (wf_chain _ _ HW).
Qed.

(** A resolution that does not come to the registry leaves it. *)
Lemma resolve_context scope agent key t r h :
  resolveContextRootRunId scope agent key <> Ok None -> (resolve scope agent key t r h).1.2 = r.
Proof. intros H. unfold resolve. by destruct (resolveContextRootRunId scope agent key) as [[root|]|e]. Qed.

Lemma through_registry scope agent key :
  resolveContextRootRunId scope agent key = Ok None \/ resolveContextRootRunId scope agent key <> Ok None.
Proof. destruct (resolveContextRootRunId scope agent key) as [[root|]|e]; [by right|by left|by right]. Qed.

Lemma exec_wf op st T : Wf T st.1 -> T <= timeOf op -> startsBefore op -> Wf (timeOf op) (exec op st).2.1.
Proof.
  destruct st as [r h]. destruct op as [scope agent key t|root now]; simpl; intros HW HT Hs; [|by eapply retire_wf].
  destruct (resolve scope agent key t r h) as [[a r'] h'] eqn:E. simpl.
  destruct (through_registry scope agent key) as [Ec|Ec].
  2:{ pose proof (resolve_context _ _ _ t r h Ec) as Er. rewrite E in Er. simpl in Er. subst. by eapply wf_mono. }
  destruct (resolve_cases scope agent key t r h Ec) as [(g & _ & _ & Eg & _)|(root & r1 & h1 & Em & Eg & Hl)];
    rewrite E in Eg; injection Eg as -> -> ->; [by eapply wf_mono|].
  eapply mint_wf; [done|done|done| |].
  - destruct scope; simpl in *; lia.
  - intros g (s & u & Hst & ? & ?)%Hl. rewrite Hst. simpl. eauto.
Qed.

Lemma after_wf ops st T : Wf T st.1 -> timely T ops -> Wf (endTime T ops) (after ops st).1.
Proof.
  revert st T. induction ops as [|op ops IH]; intros st T HW; simpl; [done|]. intros (HT & Hs & Ht).
  apply (IH (exec op st).2); [by eapply exec_wf|done].
Qed.

Lemma empty_wf T : Wf T createRootRunIdRegistry.
Proof. by split. Qed.

(** ** A turn keeps its root *)

(** The generation of [root] was in force at [s]. *)
Definition Held (p : string) (s : Z) (root : string) (r : Registry) : Prop :=
  exists g, g ∈ generationsOf p r /\ covers s g = true /\ rootRunId g = root.

Lemma exec_held op st T p s root :
  Wf T st.1 -> T <= timeOf op -> startsBefore op -> s <= T -> Held p s root st.1 -> Held p s root (exec op st).2.1.
Proof.
  destruct st as [r h]. intros HW HT Hb Hs (g & Hg & Hc & Hr). destruct op as [scope agent key t|root' now]; simpl in *.
  - destruct (resolve scope agent key t r h) as [[a r'] h'] eqn:E. simpl.
    destruct (through_registry scope agent key) as [Ec|Ec].
    2:{ pose proof (resolve_context _ _ _ t r h Ec) as Er. rewrite E in Er. simpl in Er. subst. by exists g. }
    destruct (resolve_cases scope agent key t r h Ec) as [(? & _ & _ & Eg & _)|(root1 & r1 & h1 & Em & Eg & _)];
      rewrite E in Eg; injection Eg as -> -> ->; [by exists g|].
    exists g. split; [|done]. rewrite (minted_generations _ _ _ _ _ _ _ _ _ p _ HW Em). apply elem_of_app. by left.
  - pose proof (retire_generations root' now r p) as HF. apply list_elem_of_lookup in Hg as [i Hi].
    destruct (Forall2_lookup_l _ _ _ _ _ HF Hi) as (g' & Hg' & Ha). exists g'. split_and!.
    + by apply list_elem_of_lookup; exists i.
    + eapply ages_covers; [done|lia|done].
    + destruct Ha as (-> & _). done.
Qed.

Lemma after_held ops st T p s root :
  Wf T st.1 -> timely T ops -> s <= T -> Held p s root st.1 -> Held p s root (after ops st).1.
Proof.
  revert st T. induction ops as [|op ops IH]; intros st T HW; simpl; [done|]. intros (HT & Hb & Ht) Hs HH.
  eapply (IH (exec op st).2 (timeOf op)); [by eapply exec_wf|done|lia|by eapply exec_held].
Qed.

Lemma held_resolves scope s agent key t r h root T :
  Wf T r -> resolveContextRootRunId (Some scope) agent key = Ok None -> s_startedAt scope = s ->
  Held (principalKey agent (SessionKeys.formatSessionKey key)) s root r ->
  resolve (Some scope) agent key t r h = (Ok root, r, h).
Proof.
  intros HW Ec <- (g & Hg & Hc & <-). unfold resolve. rewrite Ec. cbv zeta.
  destruct (last (generationsOf _ r)) as [c|] eqn:El; [|apply last_None in El; rewrite El in Hg; by apply elem_of_nil in Hg].
  simpl. by rewrite (inForce_unique _ _ g (wf_chain _ _ HW _) Hg Hc).
Qed.

(** The turn did not begin before the newest generation of its principal, or else
    within an older one. *)
Definition inStep (s : Z) (gens : list Generation) : Prop :=
  forall g, last gens = Some g -> activatedAtMs g <= s \/ is_Some (inForce s gens).

(** What such a turn is answered with was in force when it started. *)
Lemma answer_held scope agent key t st T root st' :
  Wf T st.1 -> resolveContextRootRunId (Some scope) agent key = Ok None ->
  inStep (s_startedAt scope) (generationsOf (principalKey agent (SessionKeys.formatSessionKey key)) st.1) ->
  exec (Resolve (Some scope) agent key t) st = (Some (Ok root), st') ->
  Held (principalKey agent (SessionKeys.formatSessionKey key)) (s_startedAt scope) root st'.1.
Proof.
  destruct st as [r h]. simpl. intros HW Ec Hin E.
  destruct (resolve_cases (Some scope) agent key t r h Ec) as [(g & Hg & Hst & Eg & Hf)|(root1 & r1 & h1 & Em & Eg & _)];
    rewrite Eg in E; injection E as <- <-; simpl.
  - exists g. split_and!; [done| |done]. destruct (Hf _ eq_refl) as [Hi|[Hi Hl]]; [by apply inForce_Some in Hi as [_ ?]|].
    destruct (Hin g Hl) as [Ha|[g' Hg']]; [|congruence]. unfold covers, stays in *. simpl in Hst.
    apply andb_true_iff. split; [by apply Z.leb_le|]. by destruct (retiredAtMs g).
  - exists (mkGen root1 (s_startedAt scope) None). split_and!; [|by unfold covers; simpl; rewrite Z.leb_refl|done].
    rewrite (minted_generations _ _ _ _ _ _ _ _ _ _ _ HW Em), decide_True by done. apply elem_of_app. right.
    by apply list_elem_of_singleton.
Qed.


(** ** A killed root is not given out again *)

(** The index finds every generation. *)
Definition Indexed (r : Registry) : Prop :=
  forall i g, heap r !! i = Some g -> mget (generationByRoot r) (rootRunId g) = Some i.

(** Every generation of [root] was retired by [t]. *)
Definition Gone (root : string) (t : Z) (r : Registry) : Prop :=
  forall i g, heap r !! i = Some g -> rootRunId g = root -> exists u, retiredAtMs g = Some u /\ u <= t.

Lemma minted_heap p formatted at_ t r h root r' h' :
  mintGeneration p formatted at_ t r h = (root, r', h') ->
  root = rootIdOf (d_id t) formatted /\ heap r' = heap r ++ [mkGen root at_ None] /\
  generationByRoot r' = mset (generationByRoot r) root (length (heap r)).
Proof. by intros [= <- <- <-]. Qed.

(** The heap and the index after a resolution. *)
Lemma resolve_heap scope agent key t r h a r' h' :
  resolve scope agent key t r h = (a, r', h') ->
  r' = r \/ exists at_, let root := rootIdOf (d_id t) (SessionKeys.formatSessionKey key) in
    heap r' = heap r ++ [mkGen root at_ None] /\ generationByRoot r' = mset (generationByRoot r) root (length (heap r)).
Proof.
  intros E. destruct (through_registry scope agent key) as [Ec|Ec].
  - destruct (resolve_cases scope agent key t r h Ec) as [(? & _ & _ & Eg & _)|(root1 & r1 & h1 & Em & Eg & _)];
      rewrite E in Eg; injection Eg as -> -> ->; [by left|]. right.
    apply minted_heap in Em as (-> & ? & ?). eauto.
  - left. pose proof (resolve_context _ _ _ t r h Ec) as Er. by rewrite E in Er.
Qed.

Lemma exec_gone op st root t : drawn op <> Some root -> Gone root t st.1 -> Gone root t (exec op st).2.1.
Proof.
  destruct st as [r h]. destruct op as [scope agent key d|root' now]; simpl; intros Hd HG.
  - destruct (resolve scope agent key d r h) as [[a r'] h'] eqn:E. simpl.
    apply resolve_heap in E as [->|(at_ & Eh & _)]; [done|]. intros i g. rewrite Eh.
    intros [Hg|[_ [_ <-]%list_lookup_singleton_Some]]%lookup_app_Some; [by eapply HG|]. simpl. congruence.
  - destruct (retire_ages root' now r) as (_ & _ & _ & Hb & _). intros i g' (g & Hg & Er & _ & Hr)%Hb Hroot.
    destruct (HG i g Hg ltac:(congruence)) as (u & Eu & Hu). destruct Hr as [->|[Hn _]]; [eauto|congruence].
Qed.

Lemma after_gone ops st root t :
  Forall (fun op => drawn op <> Some root) ops -> Gone root t st.1 -> Gone root t (after ops st).1.
Proof.
  revert st. induction ops as [|op ops IH]; intros st; [done|]. intros [Hd Hf]%Forall_cons HG.
  apply (IH (exec op st).2); [done|]. by apply exec_gone.
Qed.

Lemma retire_gone root now r T : Wf T r -> Indexed r -> T <= now -> Gone root now (retire root now r).2.
Proof.
  intros HW HI HT i g'. destruct (retire_ages root now r) as (_ & _ & _ & Hb & _). intros Hg' Hr.
  destruct (Hb i g' Hg') as (g & Hg & Er & _ & Ht). rewrite Er in Hr.
  destruct (retiredAtMs g) as [u|] eqn:Eu.
  - destruct Ht as [Ht|[? _]]; [|done]. exists u. split; [done|]. pose proof (wf_retired _ _ HW _ _ _ Hg Eu). lia.
  - unfold retire in Hg'. rewrite <- Hr, (HI i g Hg), Hg, Eu in Hg'. cbn [snd heap] in Hg'.
    rewrite list_lookup_insert_eq in Hg' by by eapply lookup_lt_Some. injection Hg' as <-. exists now. split; [done|lia].
Qed.

(** A turn that begins after [t] is not answered with a root gone by [t]. *)
Lemma gone_not_answered scope agent key d st root t :
  Gone root t st.1 -> s_rootRunId scope = None -> t < s_startedAt scope ->
  drawn (Resolve (Some scope) agent key d) <> Some root ->
  (exec (Resolve (Some scope) agent key d) st).1 <> Some (Ok root).
Proof.
  destruct st as [r h]. simpl. intros HG Hc Ht Hd.
  assert (Ec : resolveContextRootRunId (Some scope) agent key = Ok None) by (simpl; by rewrite Hc).
  destruct (resolve_cases (Some scope) agent key d r h Ec) as [(g & Hg & Hst & -> & _)|(root1 & r1 & h1 & Em & -> & _)].
  - intros [= Hr]. apply generation_in_heap in Hg as [i Hi]. destruct (HG i g Hi Hr) as (u & Eu & Hu).
    unfold stays in Hst. rewrite Eu in Hst. apply Z.leb_le in Hst. lia.
  - apply minted_heap in Em as (-> & _). intros [= E]. by rewrite E in Hd.
Qed.

(** Distinct draws keep the index exact. *)
Lemma exec_indexed op st (seen : list string) :
  Indexed st.1 -> (forall g, g ∈ heap st.1 -> rootRunId g ∈ seen) -> (forall root, drawn op = Some root -> root ∉ seen) ->
  Indexed (exec op st).2.1 /\ (forall g, g ∈ heap (exec op st).2.1 -> rootRunId g ∈ seen ++ option_list (drawn op)).
Proof.
  destruct st as [r h]. destruct op as [scope agent key d|root' now]; simpl; intros HI Hs Hd.
  - destruct (resolve scope agent key d r h) as [[a r'] h'] eqn:E. simpl.
    apply resolve_heap in E as [->|(at_ & Eh & Ei)].
    { split; [done|]. intros g Hg. apply elem_of_app. left. by apply Hs. }
    split.
    + intros i g. rewrite Eh, Ei. intros [Hg|[Hl [Hz <-]%list_lookup_singleton_Some]]%lookup_app_Some.
      * rewrite mget_mset_ne; [by apply HI|]. intros Er. apply (Hd _ eq_refl). rewrite <- Er. apply Hs.
        by eapply list_elem_of_lookup_2.
      * cbn [rootRunId]. rewrite mget_mset_eq. f_equal. lia.
    + intros g. rewrite Eh. intros [Hg| ->%list_elem_of_singleton]%elem_of_app; apply elem_of_app; [by left; apply Hs|].
      right. by apply list_elem_of_singleton.
  - destruct (retire_ages root' now r) as (_ & Er & _ & Hb & _). rewrite app_nil_r. split.
    + intros i g' (g & Hg & -> & _)%Hb. rewrite Er. by apply HI.
    + intros g' [i (g & Hg & -> & _)%Hb]%list_elem_of_lookup. apply Hs. by eapply list_elem_of_lookup_2.
Qed.

Lemma after_indexed ops st seen :
  Indexed st.1 -> (forall g, g ∈ heap st.1 -> rootRunId g ∈ seen) -> NoDup (seen ++ omap drawn ops) -> Indexed (after ops st).1.
Proof.
  revert st seen. induction ops as [|op ops IH]; intros st seen HI Hs; [done|]. intros Hn.
  assert (Hn' : NoDup (seen ++ option_list (drawn op) ++ omap drawn ops)) by (cbn in Hn; by destruct (drawn op)).
  destruct (exec_indexed op st seen HI Hs) as [HI' Hs'].
  { intros root Hr Hin. rewrite Hr in Hn'. apply NoDup_app in Hn' as (_ & Hn' & _). apply (Hn' root Hin). by left. }
  apply (IH (exec op st).2 (seen ++ option_list (drawn op))); [done..|]. by rewrite <- app_assoc.
Qed.

(** After a history with distinct draws that ends with the retirement of [root] at
    [now], the root is gone. *)
Lemma killed_root_gone T ops h root now :
  timely T (ops ++ [Retire root now]) -> NoDup (omap drawn ops) ->
  Gone root now (after (ops ++ [Retire root now]) (createRootRunIdRegistry, h)).1.
Proof.
  intros [Ht1 (HT & _)]%timely_app Hn. unfold after. rewrite fold_left_app. simpl.
  apply (retire_gone _ _ _ (endTime T ops)); [| |done].
  - by apply (after_wf ops (createRootRunIdRegistry, h)); [apply empty_wf|].
  - apply (after_indexed ops (createRootRunIdRegistry, h) []); [done| |done]. intros g Hg. by apply elem_of_nil in Hg.
Qed.

Module Demo.

Definition key : SessionKeys.SessionKey := SessionKeys.Build_SessionKey "tenant" "agent" "user" "chat" None None None.

(** A turn of the session that began at [s]. *)
Definition turn (s : Z) : RequestScope := mkScope (Some "agent") (Some (SessionKeys.formatSessionKey key)) None s.

Definition serve (s : Z) (id : string) (now : Z) : Op := Resolve (Some (turn s)) "agent" key (mkDraws id now now).

Definition root (id : string) : string := rootIdOf id (SessionKeys.formatSessionKey key).

(** A turn of time 100 is served, its root is killed at 200, and a turn of time
    250 opens a new generation. *)
Definition killed : list Op := [Retire (root "a") 200; serve 250 "b" 260].


(** A call outside of any request activates the first generation at 100; the turn
    that had begun at 90 gets its root.  After the kill of that root and the first
    later turn, the turn of time 90 is given the root of the new generation. *)
Example older_turn_escapes :
  let first := Resolve None "agent" key (mkDraws "a" 100 100) in
  let st := after [first] (createRootRunIdRegistry, None) in
  (exec (serve 90 "x" 110) st).1 = Some (Ok (root "a")) /\
  (exec (serve 90 "x" 300) (after (serve 90 "x" 110 :: killed) st)).1 = Some (Ok (root "b")).
Proof. vm_compute. by split. Qed.

(** Outside of a request a killed root stays the answer. *)
Example no_request_no_rotation :
  (exec (Resolve None "agent" key (mkDraws "z" 400 400))
     (after [serve 100 "a" 110; Retire (root "a") 200] (createRootRunIdRegistry, None))).1 = Some (Ok (root "a")).
Proof. vm_compute. reflexivity. Qed.

End Demo.
End RootRunsTheorems.
