(* ===== verification/LeaseControl.v ===== *)
(** * Stopping a spawn tree

  Models [lease.revoke], [run.kill] and [autonomy.evict] of
  [daemon/src/api/autonomy-handlers.ts] with
  [daemon/src/api/shared/spawn-tree-control.ts]: the operator's commands that
  withdraw the authority of a tree from the lease manager, the durable run store,
  the bounded-autonomy service and the registry of roots, or demote it.  How many
  runs the graph coordinator and the sub-agent runner stop, and whether the durable
  store can be written, are arguments; events and logs are not modelled. *)

From S2P Require Import Prelude CanonicalJson AutonomyGuards BoundedAutonomy DurableRuns DurableRunsFacts DurableRunsHistory DurableRunsTheorems LeaseTables LeaseManager LeaseManagerFacts LeaseHistory LeaseTheorems LeasePrincipal LeaseEndpoint RootRuns.

Open Scope string_scope.
Open Scope list_scope.

Module LeaseControl.
Import LeaseManager LeaseHistory LeaseTheorems.

(** The holders of authority; an absent one is not wired. *)
Record Authority := mkAuthority {
  a_leases : State;
  a_durable : option DurableRuns.Db;
  a_autonomy : option BoundedAutonomy.Autonomy;
  a_roots : option RootRuns.Registry
}.

(** An optional parameter that is absent or empty selects nothing. *)
Definition selected (p : option string) : option string :=
  match p with Some s => if decide (s = "") then None else Some s | None => None end.

(** What the environment does during a command: whether the store can be written,
    and the clock readings of the store and of the retirement. *)
Record Env := mkEnv { writable : bool; storeNow : Z; retireNow : Z }.

(** [invalidateSpawnTreeState]: a store that cannot be written is reported and
    skipped.  Answers whether the root was retired. *)
Definition invalidateSpawnTreeState (env : Env) (root : string) (a : Authority) : bool * Authority :=
  (match a_roots a with Some r => (RootRuns.retire root (retireNow env) r).1 | None => false end,
   mkAuthority (a_leases a)
     ((fun d => if writable env then (DurableRuns.invalidateForRevoke root (storeNow env) d).2 else d) <$> a_durable a)
     ((fun s => BoundedAutonomy.revokeDurableRoot s root) <$> a_autonomy a)
     ((fun r => (RootRuns.retire root (retireNow env) r).2) <$> a_roots a)).

(** [leaseManager.revokeByRootRun(root)], which always answers. *)
Definition revokeRoot (root : string) (a : Authority) : nat * Authority :=
  match revokeByRootRun root (a_leases a) with
  | Some (n, l) => (n, mkAuthority l (a_durable a) (a_autonomy a) (a_roots a))
  | None => (0%nat, a)
  end.

Definition leaseRevoke (leaseId rootRunId : option string) (env : Env) (a : Authority) : Result nat string * Authority :=
  match selected rootRunId, selected leaseId with
  | Some root, _ =>
      let '(n, a) := revokeRoot root a in (Ok n, (invalidateSpawnTreeState env root a).2)
  | None, Some id =>
      let '(n, l) := revoke id (a_leases a) in (Ok n, mkAuthority l (a_durable a) (a_autonomy a) (a_roots a))
  | None, None => (Err "Missing required parameter: leaseId or rootRunId", a)
  end.

(** [killSpawnTree]: [graphs] and [runs] are what the coordinator and the runner
    stopped. *)
Definition killSpawnTree (root : string) (graphs runs : nat) (env : Env) (a : Authority) : nat * Authority :=
  let a := (revokeRoot root a).2 in ((graphs + runs)%nat, (invalidateSpawnTreeState env root a).2).

Definition runKill (rootRunId : option string) (graphs runs : nat) (env : Env) (a : Authority) : Result nat string * Authority :=
  match selected rootRunId with
  | None => (Err "Missing required parameter: rootRunId", a)
  | Some root => let '(n, a) := killSpawnTree root graphs runs env a in (Ok n, a)
  end.

(** [autonomy.evict], which marks the root in the registry the sink reads; without
    a registry the method is not registered. *)
Definition autonomyEvict (rootRunId : option string) (s : LeaseEndpoint.Sink) : option (Result bool string * LeaseEndpoint.Sink) :=
  match LeaseEndpoint.evicted s with
  | None => None
  | Some e =>
      Some match selected rootRunId with
           | None => (Err "Missing required parameter: rootRunId", s)
           | Some root => (Ok true, LeaseEndpoint.mkSink (LeaseEndpoint.breaker s) (Some (EvictRegistry.mark e root).2))
           end
  end.

(** ** What a kill withdraws *)

(** The authority left for a tree: no lease of it, no checkpoint to resume, no
    retained root, and no turn that begins later is given the root. *)
Record Withdrawn (ttl : Z) (h : list Op) (root : string) (t : Z) (a : Authority) : Prop := mkWithdrawn {
  no_lease id bs now i h2 o :
    Mint id bs now i ∈ h -> m_rootRunId i = root -> Forall (fun o => mintsId o <> Some id) h2 ->
    match (exec ttl o (run ttl h2 (a_leases a)).2).1 with
    | Validated (Some l) => leaseId l <> id
    | Renewed (Some _) => match o with Renew _ id' => id' <> id | _ => True end
    | _ => True
    end;
  no_resume digest d ops log d' :
    a_durable a = Some d -> DurableRunsHistory.history digest ops d = (log, d') ->
    forall c r, (DurableRunsHistory.OClaim c, DurableRunsHistory.RClaim (Ok (DurableRuns.claimed r))) ∈ log ->
    DurableRuns.rootRunId r <> root;
  no_retention s : a_autonomy a = Some s -> BoundedAutonomy.retainedDurableRoots s !! root = None;
  no_turn r holder ops scope agent key d :
    a_roots a = Some r -> RootRuns.s_rootRunId scope = None -> (t < RootRuns.s_startedAt scope)%Z ->
    let turn := RootRuns.Resolve (Some scope) agent key d in
    Forall (fun o => RootRuns.drawn o <> Some root) (ops ++ [turn]) ->
    (RootRuns.exec turn (RootRuns.after ops (r, holder))).1 <> Some (Ok root)
}.

(** A registry some history with a forward clock and distinct draws has led to, at
    a time before [t]. *)
Definition Reached (t : Z) (r : RootRuns.Registry) : Prop :=
  exists T ops holder, RootRunsTheorems.timely T ops /\ (RootRunsTheorems.endTime T ops <= t)%Z /\
    NoDup (omap RootRuns.drawn ops) /\ r = (RootRuns.after ops (RootRuns.createRootRunIdRegistry, holder)).1.

Lemma revokeRoot_after ttl h root d s r :
  (revokeRoot root (mkAuthority (after ttl h) d s r)).2 = mkAuthority (after ttl (h ++ [RevokeByRootRun root])) d s r.
Proof.
  unfold revokeRoot. cbn [a_leases a_durable a_autonomy a_roots]. rewrite after_snoc.
  pose proof (inv_nodup _ _ _ (after_inv ttl h)) as Hnd. destruct (after ttl h) as [es ch].
  destruct (LeaseManagerFacts.revokeByRootRun_spec root es ch Hnd) as (v & E & _). cbn [exec]. by rewrite E.
Qed.

Lemma retention_dropped s root : BoundedAutonomy.retainedDurableRoots (BoundedAutonomy.revokeDurableRoot s root) !! root = None.
Proof.
  unfold BoundedAutonomy.revokeDurableRoot, BoundedAutonomy.evictIdleRoot.
  destruct (BoundedAutonomy.idle _ _); simpl; apply lookup_delete_eq.
Qed.

(** Once revoked, the tables hold no claimable checkpoint of the root, whatever
    happens to them. *)
Lemma revoked_no_claim digest root now d ops log d' :
  DurableRunsFacts.Keyed d ->
  DurableRunsHistory.history digest ops (DurableRuns.invalidateForRevoke root now d).2 = (log, d') ->
  forall c r, (DurableRunsHistory.OClaim c, DurableRunsHistory.RClaim (Ok (DurableRuns.claimed r))) ∈ log ->
  DurableRuns.rootRunId r <> root.
Proof.
  intros Hk Eh c r [i Hi]%list_elem_of_lookup.
  assert (E : DurableRunsHistory.exec digest (DurableRunsHistory.ORevoke root now) d =
    (DurableRunsHistory.RUnit (Ok tt), (DurableRuns.invalidateForRevoke root now d).2)) by done.
  pose proof (DurableRunsTheorems.revoke_dead _ _ _ _ _ _ E) as Hd.
  assert (Hk1 : DurableRunsFacts.Keyed (DurableRuns.invalidateForRevoke root now d).2)
    by (eapply DurableRunsFacts.Writes_keyed; [by eapply DurableRunsHistory.exec_writes|done]).
  destruct (DurableRunsHistory.history_at _ _ _ _ _ _ _ _ Hk1 Eh Hi) as (a & b & Ha & Hw & He & _).
  assert (Hda : DurableRunsFacts.Dead root a) by (by eapply DurableRunsFacts.Writes_dead).
  destruct (DurableRunsTheorems.dead_call _ _ _ _ _ _ Ha Hda He) as [Hc _]. by eapply Hc.
Qed.

Lemma retired_no_turn root now r r' holder ops scope agent key d :
  Reached now r -> r' = (RootRuns.retire root now r).2 ->
  RootRuns.s_rootRunId scope = None -> (now < RootRuns.s_startedAt scope)%Z ->
  let turn := RootRuns.Resolve (Some scope) agent key d in
  Forall (fun o => RootRuns.drawn o <> Some root) (ops ++ [turn]) ->
  (RootRuns.exec turn (RootRuns.after ops (r', holder))).1 <> Some (Ok root).
Proof.
  intros (T & ops0 & h0 & Ht & He & Hn & ->) -> Hs Hlt turn [Hf Hd]%Forall_app.
  apply (RootRunsTheorems.gone_not_answered _ _ _ _ _ _ now); [|done|done|exact (proj1 (Forall_singleton _ _) Hd)].
  apply RootRunsTheorems.after_gone; [done|]. cbn [fst].
  pose proof (RootRunsTheorems.killed_root_gone T ops0 h0 root now) as HG.
  unfold RootRuns.after in HG. rewrite fold_left_app in HG. apply HG; [|done].
  apply RootRunsTheorems.timely_app. by split.
Qed.


(** [lease.revoke] with both selectors is not rejected: it revokes the tree and
    ignores the lease it was given. *)
Theorem lease_revoke_ignores_lease id root env a :
  root <> "" -> leaseRevoke id (Some root) env a = leaseRevoke None (Some root) env a.
Proof. intros H. unfold leaseRevoke. cbn [selected]. by rewrite decide_False. Qed.

(** A demotion takes effect at the next decision, whatever mode the run was
    started in, until the registry forgets the root. *)
Theorem evicted_run_is_demoted agentMode root s s' ps agent :
  autonomyEvict (Some root) s = Some (Ok true, s') ->
  LeaseEndpoint.effectiveMode agentMode ps (Some root) agent s' = LeaseEndpoint.default_.
Proof.
  unfold autonomyEvict, selected. destruct (LeaseEndpoint.evicted s) as [e|]; [|done]. case_decide; [done|].
  intros [= <-]. unfold LeaseEndpoint.effectiveMode. simpl. unfold EvictRegistry.isEvicted.
  rewrite bool_decide_eq_true_2; [done|]. set_solver.
Qed.

Module Demo.
Open Scope Z_scope.

Definition root : string := RootRunsTheorems.Demo.root "a".

Definition mints : list Op := [Mint "lease-1" [1; 2; 3] 1000 (LeaseTheorems.Demo.rootInput root)].

Definition served : list RootRuns.Op := [RootRunsTheorems.Demo.serve 100 "a" 110].

Definition registry : RootRuns.Registry := (RootRuns.after served (RootRuns.createRootRunIdRegistry, None)).1.

End Demo.
End LeaseControl.
