(* ===== verification/ToolCeilings.v ===== *)
(** * The tool ceilings of sub-agents

  Models the rest of [core/src/domain/sub-agent-tool-denylist.ts] and the
  required-tools gate of a spawn: the effective groups
  ([daemon/src/api/session-handlers/session-mutate.ts]), the gate and the
  classification of a tool it refuses ([agent/src/spawn/sub-agent-runner.ts]).
  A caller names tool groups and required tools; the gate refuses the spawn with
  a message that suggests what to pass instead.  The collation of the platform is
  a parameter. *)

From S2P Require Import Prelude LeaseTables.

Open Scope string_scope.
Open Scope list_scope.
Open Scope Z_scope.

Module ToolCeilings.
Import LeaseTables.

(** ** Profiles and groups *)

Definition SUB_AGENT_TOOL_PROFILES : list (string * list string) := [
  ("minimal", ["read"; "write"]);
  ("coding", ["read"; "edit"; "write"; "grep"; "find"; "ls"; "apply_patch"; "exec"; "process"]);
  ("messaging", ["message"; "session_status"]);
  ("supervisor", ["agents_manage"; "obs_query"; "sessions_manage"; "memory_manage"; "channels_manage";
    "tokens_manage"; "models_manage"; "skills_manage"; "mcp_manage"; "heartbeat_manage"]);
  ("cron-minimal", ["web_search"; "message"; "read"; "write"; "ls"; "memory_store"; "memory_search"; "cron";
    "discover_tools"]);
  ("heartbeat-minimal", ["message"; "memory_store"; "memory_search"; "discover_tools"])].

Definition SUB_AGENT_TOOL_GROUPS : list (string * list string) := [
  ("group:coding", ["read"; "edit"; "write"; "grep"; "find"; "ls"; "apply_patch"; "exec"; "process"]);
  ("group:web", ["web_fetch"; "web_search"; "browser"]);
  ("group:browser", ["browser"]);
  ("group:memory", ["memory_search"; "memory_get"; "memory_store"]);
  ("group:scheduling", ["cron"]);
  ("group:messaging", ["message"]);
  ("group:sessions", ["sessions_list"; "sessions_history"; "sessions_send"; "sessions_spawn"; "session_status";
    "session_search"; "subagents"; "pipeline"]);
  ("group:platform_actions", ["discord_action"; "telegram_action"; "slack_action"; "whatsapp_action"]);
  ("group:supervisor", ["agents_manage"; "obs_query"; "sessions_manage"; "memory_manage"; "channels_manage";
    "tokens_manage"; "models_manage"; "skills_manage"; "mcp_manage"; "heartbeat_manage"])].

Definition addAll (s ts : list string) : list string :=
  fold_left (fun s t => if has s t then s else s ++ [t]) ts s.

Definition withoutDenied (s : list string) : list string := List.filter (fun t => negb (has SUB_AGENT_TOOL_DENYLIST t)) s.

(** [for (const t of table[key]) s.add(t)]: what the prototype has is no array. *)
Definition expand (table : list (string * list string)) (key : string) (s : list string) : Result (list string) string :=
  match prop table key with
  | Own ts => Ok (addAll s ts)
  | Inherited => Err "TypeError: object is not iterable"
  | Undefined => Ok s
  end.

Definition groupKey (g : string) : string := if String.prefix "group:" g then g else "group:" +:+ g.

Fixpoint expandAll (groups s : list string) : Result (list string) string :=
  match groups with
  | [] => Ok s
  | g :: groups =>
      let? s1 := expand SUB_AGENT_TOOL_PROFILES g s in
      let? s2 := expand SUB_AGENT_TOOL_GROUPS (groupKey g) s1 in
      expandAll groups s2
  end.

(** [null] means that there is no ceiling. *)
Definition computeReachableToolNames (toolGroups : list string) : Result (option (list string)) string :=
  match toolGroups with
  | [] => Ok None
  | _ =>
      if has toolGroups "full" then Ok None
      else let? s := expandAll toolGroups [] in Ok (Some (withoutDenied s))
  end.

Definition toolReachableGroups (tool : string) : list string :=
  (List.filter (fun e => has e.2 tool) SUB_AGENT_TOOL_PROFILES).*1.

Definition bareName (k : string) : string := if String.prefix "group:" k then String.substring 6 (String.length k - 6) k else k.

Definition ceilingCandidates : jsmap string (list string) :=
  let add m (e : string * list string) := mset m e.1 (addAll (default [] (mget m e.1)) e.2) in
  map (fun e => (e.1, withoutDenied e.2))
    (fold_left (fun m e => add m (bareName e.1, e.2)) SUB_AGENT_TOOL_GROUPS (fold_left add SUB_AGENT_TOOL_PROFILES [])).

(** The stable sort of [Array.prototype.sort]. *)
Section Sort.
Context {A : Type} (le : A -> A -> bool).

Fixpoint insertWith (x : A) (l : list A) : list A :=
  match l with
  | [] => [x]
  | y :: l' => if le x y then x :: l else y :: insertWith x l'
  end.

Definition sortWith (l : list A) : list A := foldr insertWith [] l.
End Sort.

Section Messages.
Variable localeCompare : string -> string -> Z.

Definition validCeilingNames : list string :=
  sortWith (fun a b => localeCompare a b <=? 0) (mkeys ceilingCandidates).

(** [aReached.size - bReached.size || aName.localeCompare(bName)] *)
Definition ceilingLe (a b : string * list string) : bool :=
  let d := Z.of_nat (length a.2) - Z.of_nat (length b.2) in
  (if d =? 0 then localeCompare a.1 b.1 else d) <=? 0.

Definition groupsReachingAll (toolNames : list string) : list string :=
  match toolNames with
  | [] => []
  | _ => (sortWith ceilingLe (List.filter (fun e => forallb (has e.2) toolNames) ceilingCandidates)).*1
  end.

(** ** Refused tools *)

Inductive Reason := denylist | outside_profile.

#[global] Instance Reason_eq_dec : EqDecision Reason.
Proof. solve_decision. Defined.

Record UnreachableToolEntry := mkEntry { toolName : string; reason : Reason; hint : string }.

Definition joinWith (sep : string) (l : list string) : string := String.concat sep l.

Definition quoted (s : string) : string := "'" +:+ s +:+ "'".

Definition classifyRequiredTool (tool : string) (activeGroups : list string) : UnreachableToolEntry :=
  if has SUB_AGENT_TOOL_DENYLIST tool then
    mkEntry tool denylist ("Tool " +:+ quoted tool +:+ " is denied to ALL sub-agents — the parent must perform this step.")
  else
    let broader := List.filter (fun p => negb (has activeGroups p)) (toolReachableGroups tool) in
    let suggestion := match broader with [] => "full" | _ => joinWith "' | '" broader end in
    let validGroups := joinWith "' | '" (mkeys SUB_AGENT_TOOL_PROFILES ++ ["full"]) in
    mkEntry tool outside_profile
      ("Tool " +:+ quoted tool +:+ " is outside this sub-agent's profile. Re-spawn with tool_groups:[" +:+ quoted suggestion +:+
       "]. Valid groups are " +:+ quoted validGroups +:+ " — any other value is ignored." +:+
       (if String.prefix "mcp__" tool then " This is an MCP tool; MCP tool names are resolved from connected servers at runtime, so no narrow profile lists them and 'full' is the only group that reaches them." else "")).

(** ** The gate *)

Definition effectiveToolGroups (toolGroups configured : list string) : list string :=
  match toolGroups with [] => configured | _ => toolGroups end.

(** The required tools a spawn is refused for. *)
Definition requiredToolsGate (requiredTools toolGroups configured : list string) : Result (list UnreachableToolEntry) string :=
  let? reachable := computeReachableToolNames (effectiveToolGroups toolGroups configured) in
  Ok (omap (fun tool =>
        if has SUB_AGENT_TOOL_DENYLIST tool then Some (classifyRequiredTool tool toolGroups)
        else if String.prefix "mcp__" tool then None
        else match reachable with
             | Some s => if has s tool then None else Some (classifyRequiredTool tool toolGroups)
             | None => None
             end) requiredTools).

Definition named (r : Reason) (tools : list UnreachableToolEntry) : list UnreachableToolEntry :=
  List.filter (fun t => bool_decide (reason t = r)) tools.

(** The group the message tells the caller to pass. *)
Definition suggestion (tools : list UnreachableToolEntry) : string :=
  match groupsReachingAll (toolName <$> named outside_profile tools) with [] => "full" | g :: _ => g end.

Definition buildUnreachableToolsMessage (tools : list UnreachableToolEntry) : string :=
  let first := "Required tools unreachable: " +:+ joinWith ", " (toolName <$> tools) +:+ "." in
  let denied := named denylist tools in
  let outside := named outside_profile tools in
  let outsideNames := toolName <$> outside in
  match denied with
  | _ :: _ =>
      joinWith " " ([first; joinWith " " (hint <$> denied)] ++
        match outside with
        | [] => []
        | _ =>
            let one := (length denied =? 1)%nat in
            ["No re-spawn can satisfy this request while " +:+ joinWith ", " ((fun t => quoted (toolName t)) <$> denied) +:+ " " +:+
             (if one then "is" else "are") +:+ " required — drop " +:+ (if one then "it" else "them") +:+
             " or perform that step in the parent."]
        end)
  | [] =>
      let validGroups := joinWith "' | '" (validCeilingNames ++ ["full"]) in
      joinWith " " ([first;
        match outsideNames with
        | [n] => "Tool " +:+ quoted n +:+ " is outside this sub-agent's profile."
        | _ => "Tools " +:+ joinWith ", " (quoted <$> outsideNames) +:+
               " are outside this sub-agent's profile; one re-spawn must reach all of them."
        end;
        "Re-spawn with tool_groups:[" +:+ quoted (suggestion tools) +:+ "].";
        "Valid groups are " +:+ quoted validGroups +:+ " — any other value is ignored."] ++
        (if existsb (String.prefix "mcp__") outsideNames
         then ["MCP tool names are resolved from connected servers at runtime, so no narrow profile lists them and 'full' is the only group that reaches them."]
         else []))
  end.
End Messages.

End ToolCeilings.
