(* ===== verification/ToolCeilingsTheorems.v ===== *)
(** * What the spawn gate and its suggestion guarantee

  The suggester and the gate agree on every ceiling, the suggested one is the
  narrowest that reaches the tools it is for, and a caller that obeys gets
  through when all of its required tools had been out of reach, but not in
  general. *)

From S2P Require Import Prelude LeaseTables ToolCeilings.

Open Scope string_scope.
Open Scope list_scope.
Open Scope Z_scope.

Module ToolCeilingsTheorems.
Import LeaseTables ToolCeilings.

(** ** Sorting *)

Section Sorting.
Context {A : Type} (le : A -> A -> bool).

Lemma insertWith_perm x l : insertWith le x l ≡ₚ x :: l.
Proof. induction l as [|y l IH]; simpl; [done|]. destruct (le x y); [done|]. by rewrite IH, Permutation_swap. Qed.

Lemma sortWith_perm l : sortWith le l ≡ₚ l.
Proof. induction l as [|x l IH]; simpl; [done|]. by rewrite insertWith_perm, IH. Qed.

(** Whatever [le] does on ties, it sorts by a measure it decides otherwise. *)
Variable size : A -> nat.
Hypothesis le_size : forall x y, le x y = true -> (size x <= size y)%nat.
Hypothesis gt_size : forall x y, le x y = false -> (size y <= size x)%nat.

Fixpoint ascending (l : list A) : Prop :=
  match l with [] => True | x :: l' => Forall (fun y => (size x <= size y)%nat) l' /\ ascending l' end.

Lemma insertWith_ascending x l : ascending l -> ascending (insertWith le x l).
Proof.
  induction l as [|y l IH]; simpl; [by split|]. intros [Hy Hl]. destruct (le x y) eqn:E; simpl.
  - apply le_size in E. split; [|done]. apply Forall_cons. split; [done|]. eapply Forall_impl; [exact Hy|]. intros z Hz. simpl in Hz. lia.
  - apply gt_size in E. split; [|by apply IH]. rewrite insertWith_perm. by apply Forall_cons.
Qed.

Lemma sortWith_ascending l : ascending (sortWith le l).
Proof. induction l as [|x l IH]; simpl; [done|]. by apply insertWith_ascending. Qed.
End Sorting.

Lemma omap_nothing {A B} (f : A -> option B) l : (forall x, x ∈ l -> f x = None) -> omap f l = [].
Proof.
  induction l as [|x l IH]; intros H; [done|]. cbn. rewrite (H x) by (by left). apply IH. intros y Hy. apply H. by right.
Qed.

(** ** Ceilings *)

(** The gate computes, for a single ceiling, what the suggester lists for it. *)
Definition agrees (e : string * list string) : bool :=
  match computeReachableToolNames [e.1] with
  | Ok (Some s) => forallb (has s) e.2 && forallb (has e.2) s
  | _ => false
  end.

Lemma ceilings_agree : forallb agrees ceilingCandidates = true.
Proof. by vm_compute. Qed.

Lemma candidate_gate g reached :
  (g, reached) ∈ ceilingCandidates -> exists s, computeReachableToolNames [g] = Ok (Some s) /\ forall t, t ∈ s <-> t ∈ reached.
Proof.
  intros Hin. pose proof ceilings_agree as H. rewrite forallb_forall in H. apply list_elem_of_In, H in Hin.
  unfold agrees in Hin. cbn [fst snd] in Hin. destruct (computeReachableToolNames [g]) as [[s|]|]; [|done..]. exists s. split; [done|].
  apply andb_true_iff in Hin as [H1 H2]. rewrite forallb_forall in H1, H2. intros t. split; intros Ht%list_elem_of_In.
  - by apply has_spec, H2.
  - by apply has_spec, H1.
Qed.

Section Suggestions.
Variable localeCompare : string -> string -> Z.

Lemma ceilingLe_size a b : ceilingLe localeCompare a b = true -> (length a.2 <= length b.2)%nat.
Proof. unfold ceilingLe. destruct (Z.eqb_spec (Z.of_nat (length a.2) - Z.of_nat (length b.2)) 0); [lia|]. rewrite Z.leb_le. lia. Qed.

Lemma ceilingLe_gt a b : ceilingLe localeCompare a b = false -> (length b.2 <= length a.2)%nat.
Proof. unfold ceilingLe. destruct (Z.eqb_spec (Z.of_nat (length a.2) - Z.of_nat (length b.2)) 0); [lia|]. rewrite Z.leb_gt. lia. Qed.

Lemma elem_of_groups tools g :
  g ∈ groupsReachingAll localeCompare tools ->
  exists reached, (g, reached) ∈ ceilingCandidates /\ forall t, t ∈ tools -> t ∈ reached.
Proof.
  intros Hg. destruct tools as [|t0 tools]; [by apply not_elem_of_nil in Hg|]. unfold groupsReachingAll in Hg.
  apply list_elem_of_fmap in Hg as ([g' reached] & -> & Hin). rewrite sortWith_perm in Hin.
  apply list_elem_of_In, filter_In in Hin as [Hin Hall]. exists reached. split; [by apply list_elem_of_In|].
  rewrite forallb_forall in Hall. intros t Ht%list_elem_of_In. by apply has_spec, Hall.
Qed.

(** The ceilings that reach all of the tools, narrowest first. *)
Definition reaching (tools : list string) : list (string * list string) :=
  sortWith (ceilingLe localeCompare) (List.filter (fun e => forallb (has e.2) tools) ceilingCandidates).

Lemma elem_of_reaching tools g reached :
  (g, reached) ∈ reaching tools <-> (g, reached) ∈ ceilingCandidates /\ forall t, t ∈ tools -> t ∈ reached.
Proof.
  unfold reaching. rewrite sortWith_perm, list_elem_of_In, filter_In, <- list_elem_of_In, forallb_forall.
  split; intros [H1 H2]; (split; [done|]); intros t Ht.
  - by apply has_spec, H2, list_elem_of_In.
  - by apply has_spec, H2, list_elem_of_In.
Qed.

(** What the message suggests, the gate accepts.  The first ceiling the
    suggester lists for a set of tools, which the message names, makes the gate
    reach every one of them, and it reaches no more tools than any other ceiling
    that would do. *)
Theorem suggested_ceiling_reaches_all (tools : list string) (g : string) :
  head (groupsReachingAll localeCompare tools) = Some g ->
  exists s reached, computeReachableToolNames [g] = Ok (Some s) /\ (forall t, t ∈ tools -> t ∈ s) /\
    (g, reached) ∈ ceilingCandidates /\ (forall t, t ∈ s <-> t ∈ reached) /\
    (forall g' reached', (g', reached') ∈ ceilingCandidates -> (forall t, t ∈ tools -> t ∈ reached') ->
       (length reached <= length reached')%nat).
Proof.
  intros Hh. destruct tools as [|t0 tools]; [done|]. set (ts := t0 :: tools) in *.
  change (head (reaching ts).*1 = Some g) in Hh.
  pose proof (sortWith_ascending (ceilingLe localeCompare) (fun e => length e.2) ceilingLe_size ceilingLe_gt
    (List.filter (fun e => forallb (has e.2) ts) ceilingCandidates)) as Hasc. fold (reaching ts) in Hasc.
  assert (Hreach := elem_of_reaching ts). destruct (reaching ts) as [|[g1 r1] rest]; [done|]. injection Hh as ->.
  destruct (proj1 (Hreach g r1)) as [Hin Hall]; [by left|]. destruct (candidate_gate _ _ Hin) as (s & Hs & Hiff).
  exists s, r1. split; [done|]. split; [intros t Ht; by apply Hiff, Hall|]. split; [done|]. split; [done|].
  intros g' r' Hin' Hall'. destruct Hasc as [Hasc _].
  assert (Hf : (g', r') ∈ (g, r1) :: rest) by (by apply Hreach).
  apply elem_of_cons in Hf as [[= -> ->]|Hf]; [done|]. rewrite Forall_forall in Hasc. by apply (Hasc (g', r')).
Qed.

(** A caller all of whose required tools were refused as outside of its profile. *)
Definition allOutside (required : list string) (entries : list UnreachableToolEntry) : Prop :=
  toolName <$> entries = required /\ Forall (fun e => reason e = outside_profile) entries.

Lemma named_all r entries : Forall (fun e => reason e = r) entries -> named r entries = entries.
Proof. induction 1 as [|e es He _ IH]; [done|]. unfold named in *. simpl. by rewrite bool_decide_true, IH. Qed.

Lemma classify_outside tool groups : reason (classifyRequiredTool tool groups) = outside_profile -> has SUB_AGENT_TOOL_DENYLIST tool = false.
Proof. unfold classifyRequiredTool. by destruct (has _ tool). Qed.

Lemma gate_outside required groups configured entries :
  requiredToolsGate required groups configured = Ok entries -> allOutside required entries ->
  forall t, t ∈ required -> has SUB_AGENT_TOOL_DENYLIST t = false.
Proof.
  unfold requiredToolsGate. destruct (computeReachableToolNames _) as [reach|]; [|done]. intros [= <-] [Hn Hr] t Ht.
  rewrite <- Hn in Ht. apply list_elem_of_fmap in Ht as (e & -> & He). rewrite Forall_forall in Hr. specialize (Hr e He).
  apply list_elem_of_omap in He as (tool & _ & He).
  assert (Hcl : e = classifyRequiredTool tool groups).
  { repeat case_match; naive_solver. }
  subst e. pose proof (classify_outside _ _ Hr) as Hd. unfold classifyRequiredTool. by rewrite Hd.
Qed.

(** C27: A caller that obeys gets through.  When a spawn was refused because every
    one of its required tools is outside of its profile, the same spawn with the
    group the message suggests is not refused. *)
Theorem obeying_the_suggestion_succeeds (required groups configured : list string) (entries : list UnreachableToolEntry) :
  required <> [] -> requiredToolsGate required groups configured = Ok entries -> allOutside required entries ->
  requiredToolsGate required [suggestion localeCompare entries] configured = Ok [].
Proof.
  intros Hne Hg Hout. pose proof (gate_outside _ _ _ _ Hg Hout) as Hden. destruct Hout as [Hn Hr].
  assert (Hall : forall reach, computeReachableToolNames [suggestion localeCompare entries] = Ok reach ->
    match reach with Some s => forall t, t ∈ required -> t ∈ s | None => True end ->
    requiredToolsGate required [suggestion localeCompare entries] configured = Ok []).
  { intros reach Hc Hs. unfold requiredToolsGate. cbn [effectiveToolGroups]. rewrite Hc. f_equal. apply omap_nothing.
    intros t Ht. rewrite (Hden t Ht). destruct (String.prefix "mcp__" t); [done|]. destruct reach as [s|]; [|done].
    by rewrite (proj2 (has_spec s t) (Hs t Ht)). }
  unfold suggestion in *. rewrite named_all, Hn in * by done.
  destruct (groupsReachingAll localeCompare required) as [|g gs] eqn:Eg; [by apply (Hall None)|].
  destruct (elem_of_groups required g) as (reached & Hin & Ht); [rewrite Eg; by left|].
  destruct (candidate_gate _ _ Hin) as (s & Hs & Hiff). apply (Hall (Some s)); [done|]. intros t Hreq. by apply Hiff, Ht.
Qed.
End Suggestions.

Module Demo.

Definition byText (a b : string) : Z := match String.compare a b with Lt => -1 | Eq => 0 | Gt => 1 end.

Lemma suggested_ceiling_reaches_all_witness :
  head (groupsReachingAll byText ["memory_search"; "message"]) = Some "heartbeat-minimal" /\
  exists s reached, computeReachableToolNames ["heartbeat-minimal"] = Ok (Some s) /\
    (forall t, t ∈ ["memory_search"; "message"] -> t ∈ s) /\
    ("heartbeat-minimal", reached) ∈ ceilingCandidates /\ (forall t, t ∈ s <-> t ∈ reached) /\
    (forall g' reached', (g', reached') ∈ ceilingCandidates -> (forall t, t ∈ ["memory_search"; "message"] -> t ∈ reached') ->
       (length reached <= length reached')%nat).
Proof.
  split; [by vm_compute|]. apply (suggested_ceiling_reaches_all byText ["memory_search"; "message"] "heartbeat-minimal"). by vm_compute.
Defined.

Definition refused (required groups : list string) : list UnreachableToolEntry :=
  match requiredToolsGate required groups ["coding"] with Ok es => es | Err _ => [] end.

Lemma obeying_the_suggestion_succeeds_witness :
  suggestion byText (refused ["web_fetch"; "web_search"] []) = "web" /\
  requiredToolsGate ["web_fetch"; "web_search"] [suggestion byText (refused ["web_fetch"; "web_search"] [])] ["coding"] = Ok [].
Proof.
  split; [by vm_compute|].
  apply (obeying_the_suggestion_succeeds byText ["web_fetch"; "web_search"] [] ["coding"] (refused ["web_fetch"; "web_search"] []));
    [done|by vm_compute|]. split; [by vm_compute|]. repeat constructor.
Defined.

(** The suggestion forgets the required tools that were within reach: a caller that
    needs a tool of each of two groups is sent from one to the other and back. *)
Theorem suggestion_ping_pong :
  suggestion byText (refused ["exec"; "web_fetch"] ["coding"]) = "web" /\
  suggestion byText (refused ["exec"; "web_fetch"] ["web"]) = "coding" /\
  refused ["exec"; "web_fetch"] ["coding"] <> [] /\ refused ["exec"; "web_fetch"] ["web"] <> [] /\
  refused ["exec"; "web_fetch"] ["coding"; "web"] = [].
Proof. by vm_compute. Qed.

(** A group named like a member of [Object.prototype] is not ignored: it makes the
    spawn fail with a type error. *)
Theorem prototype_group_throws (required : list string) :
  requiredToolsGate required ["coding"; "constructor"] ["coding"] = Err "TypeError: object is not iterable" /\
  is_ok (requiredToolsGate required ["coding"; "no-such-group"] ["coding"]) = true.
Proof. by vm_compute. Qed.

End Demo.
End ToolCeilingsTheorems.
